(* ===== verification/_CoqProject ===== *)
-Q . S2P
Prelude.v
Workflow.v
Dominators.v
LoopBodies.v
TarjanInvariant.v
Duration.v
Json.v
Uuid.v
ParserTypes.v
Identity.v
SignalSources.v
GateIndex.v
SubscriptionIndex.v
Captures.v
Routing.v
ReplaySeed.v
ContentHash.v
Seal.v
Terminability.v
Validators.v
Builder.v
BuilderFacts.v
GraphSimulation.v
ParseStability.v
PatchDocument.v
SignalMessages.v
Sha256.v
SignalStore.v
ScopeStore.v
ScopeStoreFacts.v
Leases.v
Programs.v
Workers.v
RedisScopeStore.v
RedisScopeFacts.v
RedisScopeDemo.v
RedisScopeSafety.v
RedisScopeRefinement.v
RedisScopeHazards.v
Idempotency.v
DefinitionStore.v
DefinitionStoreFacts.v
SignalPipelines.v
Ingress.v
IngressRecords.v
IngressCalm.v
IngressDemo.v
IngressSafety.v
IngressSettlement.v
IngressHazards.v
CaptureRecovery.v
DefinitionLifecycle.v
RegisterPipeline.v
DefinitionWorkers.v
DefinitionDelivery.v
SubscriptionTracking.v
DefinitionSettlement.v
TaskWire.v
TaskPickup.v
TaskPickupFacts.v
PickupLifecycle.v
LocalWriter.v
PickupExecutor.v
PickupExecutorFacts.v
PickupSafety.v
Forwarding.v
PatchStore.v
PatchStoreFacts.v
PatchPipeline.v
PatchDelivery.v
PatchSettlement.v
