(* ===== verification/Prelude.v ===== *)
(** * Tickr CLI: a verification development

    Tickr registers workflow definitions, runs them on a control plane and
    patches, replays and wakes running instances.  This library models the parts
    of the program that decide something: what a definition may look like, which
    versions of it are the same, what a patch document means, how a definition and
    a patch move through their durable lifecycles, how a dispatched task is
    claimed, run, cancelled and reported, what a replay re-runs, how an external
    event becomes signals, and where the values of a run are kept.  The Rust crates are under [src/src/], the
    message definitions under [src/proto/].

    ** The program's parts and their files

    Shared ground:
    - [Prelude] (this file): results and [?], sorting, string trimming, bucketed
      maps, adjacency maps, paths, and the automation of the other files.
    - [Workflow]: the messages of [proto/workflow-definition.proto].
    - [Uuid]: the [uuid] crate as a type class with its documented laws, and a
      concrete instance over bit strings on which examples evaluate.
    - [Json]: [serde_json::Value] and [canonical_json.rs].
    - [Sha256]: the digest written out in [migrations/src/scope_repository.rs].
    - [Leases]: the lease discipline the repositories share.
    - [Programs], [Workers]: asynchronous functions as programs that await, pools
      of them, rely-guarantee rules, and the world the background workers share.

    Registration, from a document to a definition ([conductor/src/parser],
    [conductor/src/definition_graph.rs]):
    - [ParserTypes]: [parser/types.rs], the document as deserialized.
    - [Duration]: [parser/duration.rs].
    - [Identity]: [proto/src/tenant.rs], [proto/src/identity.rs].
    - [LoopBodies], [TarjanInvariant]: [loop_sccs], the iterative Tarjan search,
      one definition per turn of its loop, and its invariant.
    - [Dominators]: [bfs_witness], [validate_dominates],
      [validate_task_dominates].
    - [Seal]: [ProtoDefinitionGraph::seal].
    - [Terminability]: [validate_loop_terminability].
    - [SignalSources]: [resolve_signal_input_sources].
    - [Validators], [Builder]: the checks and the lowering of
      [parser/builder.rs], in the order in which
      [parse_workflow_from_json_for_tenant] makes them.
    - [BuilderFacts]: what every registered definition satisfies.
    - [ContentHash]: [content_hash.rs], the projection that decides a version.
    - [GraphSimulation], [ParseStability]: parsing the same document again, under
      other fresh ids, gives a definition that is the same up to those ids.
    - [DefinitionStore], [DefinitionStoreFacts], [DefinitionLifecycle]: the
      transactions of [migrations/src/definition_repository.rs] as functions on
      tables, their invariant, and what any interleaving of them preserves.
    - [RegisterPipeline]: [register_pipeline.rs], from a source text to a stored
      version and its build announcements; it composes the files above.
    - [DefinitionWorkers], [DefinitionDelivery], [SubscriptionTracking],
      [DefinitionSettlement]: the workers of [build_pipeline/local.rs] and
      [submission_consumer/local.rs] with [waits_on_signal_lifecycle.rs] as
      programs over the definition tables, what they forward, what they keep in
      the subscription index, and that they get every version forwarded.

    Task pickup, from a dispatch to a terminal event:
    - [TaskWire]: the messages and validation of [executor/src/wire.rs].
    - [TaskPickup], [TaskPickupFacts], [PickupLifecycle]: the transactions of
      [migrations/src/task_pickup_repository.rs], what each may change, and the
      step relation of their interleavings.
    - [LocalWriter]: [local_task_pickup_writer.rs], the single writer that
      answers one request at a time and whose answer may be lost.
    - [PickupExecutor], [PickupExecutorFacts], [PickupSafety]:
      [executor/src/local_pickup.rs] as attempts, cancellations and sweeps that
      interleave between awaited calls, the system invariant, and the safety of
      every run.
    - [Forwarding]: the forwarding of staged events and acknowledgements.

    Patches:
    - [PatchDocument]: the document half of [patch_pipeline.rs], over the
      messages of [proto/patch.proto].
    - [PatchStore]: the transactions of [migrations/src/patch_repository.rs] as
      functions on tables.
    - [PatchStoreFacts]: the same transactions as a step relation, its invariant
      and what any interleaving of them preserves.
    - [PatchPipeline], [PatchDelivery], [PatchSettlement]: the rest of
      [patch_pipeline.rs] and [patch_pipeline/local.rs] as programs over those
      tables: ingress, finalizer, correlation, re-drive and the reconciling worker,
      what they send, and that they settle every patch.

    Events and captured values:
    - [SignalMessages]: the messages of [proto/signal.proto] and the decoding of
      the envelope of [nats_ingress.rs].
    - [SignalStore]: [migrations/src/signal_repository.rs] and
      [signal_cancels.rs] on tables.
    - [Idempotency]: [idempotency.rs] and [ingress_idempotency.rs] over a bucket
      with revisions, whose entries the server drops at the age it was created
      with.
    - [SignalPipelines]: [trigger_pipeline.rs], [wakeup_translator.rs],
      [cancel_pipeline.rs], and the writers, the linkage and the cleanup of
      captured values.
    - [Ingress], [IngressRecords], [IngressCalm], [IngressDemo], [IngressSafety],
      [IngressSettlement], [IngressHazards]: the processing of a delivery in
      [nats_ingress.rs], the invariant of the producer records, its safety and its
      settlement under any interleaving, and what it can lose.
    - [CaptureRecovery]: the restoration of captures by
      [instance_creation_linkage.rs].

    The scope store, twice:
    - [ScopeStore], [ScopeStoreFacts]: [migrations/src/scope_repository.rs] on
      tables, its invariant, claims and snapshots.
    - [RedisScopeStore]: [redis_scope_store.rs], with the script that commits a
      mutation and [RedisDurabilityGuard::execute] of [redis_durability.rs], as
      programs that interleave at every command.
    - [RedisScopeFacts], [RedisScopeSafety]: the invariant of the keyspace and what
      any number of clients preserve; [RedisScopeRefinement]: that the two stores
      answer alike; [RedisScopeHazards]: the false alarms of its checks;
      [RedisScopeDemo]: concrete requests.

    Replay, signals and values:
    - [ReplaySeed]: [replay_seed.rs] and [replay_instance_id], over
      [proto/runnable-projection.proto].
    - [GateIndex], [SubscriptionIndex]: the in-memory indices of
      [gate_index.rs] and [subscription_index.rs].
    - [Captures]: [captures_merge.rs], [captures_extractor.rs], [predicate.rs]
      and [ctx/src/envelope.rs].
    - [Routing]: [routing_split.rs], [stamp_routing_variables] of
      [routing_enrichment.rs], and [signal_emit_synth.rs].

    ** How code becomes definitions

    A [Result] is [result], an early return a [let?].  A [HashMap] or [BTreeMap]
    is a [gmap], a [HashSet] a [gset]; where the code visits a hash set, the
    order of the visit is a parameter.  An enum field of a message is its [i32],
    a [Z].  A place where the code would panic is an error value or [None] of
    its own, so that its absence is a theorem.  A random uuid is drawn from a
    supply [fresh] at a counter threaded in the order of the calls.  A method
    that holds a lock, and a transaction, is one atomic step.  Code that is not
    in the repository is a parameter: JSONPath parsing and querying, SHA-256 where
    a crate computes it, the text of floats and escaped strings, derived
    serializers, the clock.  An asynchronous function is a [prog], or in the
    executor a program counter, with one step per stretch between two awaited
    calls; a run interleaves the steps of all threads in any order,
    and what the world decides (a process that does not start, an answer that is
    lost, the time) is an argument of the step.

    ** What the theorems show

    - Graph algorithms meet their specifications in both directions: the
      dominator checks decide domination over all walks and a violation names a
      real bypass; the Tarjan search returns exactly the cyclic components, and
      never panics; terminability and signal resolution decide their
      definitions.
    - The seal leaves no orphan, and puts every task between [start] and [end]
      on a graph that can be ranked; it keeps a terminable graph terminable when
      every loop body has an authored dependency leaving it.
    - A registered definition has a closed, sealed, terminable graph, signal
      inputs bound to the one dominating gate, and, where the names of its tasks are
      distinct, predicate gates that read variables whose producer has run; building
      one never panics.
    - Content hashes do not depend on ids, names of the workflow or orders.
    - An accepted patch document is wired to fresh tasks and repeats no handle; a
      chain is accepted exactly under its stated conditions; references are
      carried over.
    - In every reachable state of the patch tables an instance has at most one
      unsettled patch and builds precede submission; a row evolves only along
      its lifecycle; leases are exclusive; a settlement answers what happened.
    - The versions of a workflow are numbered without a gap, a registration does
      what its answer says, a version is live only after all of its builds, and
      submitting the same source again changes nothing.
    - A dispatch is claimed once and its process launched once; a cancelled task
      that was not claimed never runs, and after an answered cancellation no
      process of that task starts; a process that runs is registered with the
      attempt that runs it; the first terminal outcome stays; what is forwarded was
      sent; due pickups expire.
    - What the patch pipeline sends is what was submitted, once all of its builds
      have succeeded, one patch of an instance after the other; what the definition workers forward has been built; the
      subscriptions of the index belong to live versions.  In a world that works,
      a bounded number of scans settles every patch and forwards every version.
    - Deliveries of one external event, retried and interleaved in any way with each
      other and with the server's expiry, send one signal under its key as long as
      the event's record has not aged out; an acknowledged event is malformed,
      refused or forwarded in full; once the bucket and the relay answer, one
      delivery is enough.  The linkage restores what a failed write left out.
    - A mutation of a scope takes effect once under its claim, and an archived
      scope never changes.  On Redis the accounts are exact and within their limits
      whatever the clients do, and values leave only after their archive is
      recorded; on the requests both stores are made for, a session is answered there
      as it is by the tables until Redis reports that it is full.  A snapshot decodes
      to what was encoded, and no scope is ever quarantined.  The digest of the tables
      is that of FIPS 180-4.
    - A replay re-runs exactly what lies downstream of its frontier; on the archive
      of a run, where every success has a cause, it names the tasks no re-run can
      reach, and its seed has a node that can start.
    - The two indices refine finite maps; captures, envelopes, routing variables
      and emits are functionally correct; identities separate what they should.

    Some lemmas record where the code departs from its comments:
    [parse_duration_large_number], [loop_edge_can_leave],
    [inner_dependency_hides_body], [workflow_captures_unchecked],
    [one_task_counts_twice], [add_node_without_fragment],
    [same_name_unsettled], [empty_definition_stays_building],
    [writer_error_abandons_process], [expired_cancellation_leaves_process],
    [gate_outcome_lost], [aged_event_signals_twice], [subscribers_share_captures],
    [overtaken_subscription_stale], [mutual_success_unreported] and
    [accounting_false_alarms].

    ** Bounds and fuel

    Loops that are not structural run on fuel, and each has a measure that its
    fuel bounds, so the theorems are about the real answer and not about a
    partial run: [bfs_fuel] counts the targets of all adjacency lists (a node is
    queued at most once), [tarjan_fuel] one turn per node and per successor,
    [closure_fuel] one pop per seed and per successor pushed, and the fixpoint of
    [fireable_set] one pass per node and one more to see that nothing changed.
    [trim] strips at most one unit per byte.  Seconds of a duration are kept
    below [2 ^ 64]; identity codes read the top twenty of 128 bits; times and
    lease expiries are integers.

    ** What is not modelled

    Network and process code: the relay, the launchers of processes (what dropping
    the handle of a process does is an argument of the executor), the HTTP
    handlers, the formations over NATS, Redis (but for the scope store) and local
    files, the supervisor, the console and the command line.  Deserialization by [serde] and [prost] is
    generated code; the models start from its result.  Of [patch_repository.rs]
    the decoding of rows, the discrepancy audit and the read-only queries are
    left out; of [local_pickup.rs] the resumption at startup, the hand-off
    coordinator and the fleet status; of [redis_scope_store.rs] the names of the
    keys, the probes of the role and the recovery of an ambiguous operation.  The
    notifications that only shorten a wait are left out of the workers.  The
    repositories of replays, events and archives are not modelled. *)

From Stdlib Require Export Ascii ZArith Sorted.
From stdpp Require Export gmap strings list relations.

(** ** Results

    Rust's [Result<A, E>] with its [?] operator. *)

Inductive result (A E : Type) : Type :=
| Ok (a : A)
| Err (e : E).
Arguments Ok {A E} a.
Arguments Err {A E} e.

Declare Scope tickr_scope.
Delimit Scope tickr_scope with tickr.
Open Scope tickr_scope.

(** [let? x := m in k] is [let x = m?; k]. *)
Notation "'let?' x ':=' m 'in' k" :=
  (match m with Ok x => k | Err e => Err e end)
  (at level 10, x pattern, m at level 100, k at level 200,
   format "'[v' 'let?'  x  ':='  m  'in' '/' k ']'") : tickr_scope.

Definition map_err {A E F : Type} (f : E → F) (r : result A E) : result A F :=
  match r with Ok a => Ok a | Err e => Err (f e) end.

Definition ok_or {A E : Type} (o : option A) (e : E) : result A E :=
  match o with Some a => Ok a | None => Err e end.

(** [if !b { return Err(e); }] *)
Definition ensure {E : Type} (b : bool) (e : E) : result unit E :=
  if b then Ok () else Err e.

Definition is_ok {A E : Type} (r : result A E) : bool :=
  match r with Ok _ => true | Err _ => false end.

(** [iter().map(f).collect::<Result<Vec<_>, _>>()]: stops at the first error. *)
Fixpoint collect {A B E : Type} (f : A → result B E) (l : list A) : result (list B) E :=
  match l with
  | [] => Ok []
  | x :: l' => let? y := f x in let? ys := collect f l' in Ok (y :: ys)
  end.

Section results.
Context {A B E : Type}.

Lemma collect_ok (f : A → result B E) l ys :
  collect f l = Ok ys ↔ Forall2 (λ x y, f x = Ok y) l ys.
Proof.
  revert ys; induction l as [|x l IH]; intros ys; simpl.
  - split; [intros [= <-]; constructor | by inversion 1].
  - split.
    + destruct (f x) eqn:Hx; [|done]. destruct (collect f l) eqn:Hl; [|done].
      intros [= <-]. constructor; [done|]. by apply IH.
    + inversion 1 as [|? y ? ys' Hx Hl]; subst. rewrite Hx.
      apply IH in Hl. by rewrite Hl.
Qed.

Lemma collect_length (f : A → result B E) l ys :
  collect f l = Ok ys → length ys = length l.
Proof. intros H%collect_ok. symmetry. by eapply Forall2_length. Qed.

(** The error [collect] returns is the one of the first failing element. *)
Lemma collect_err (f : A → result B E) l e :
  collect f l = Err e ↔
  ∃ l1 x l2, l = l1 ++ x :: l2 ∧ f x = Err e ∧ ∀ y, y ∈ l1 → is_ok (f y) = true.
Proof.
  induction l as [|x l IH]; simpl.
  - split; [done|]. by intros ([|]&?&?&?&_).
  - split.
    + destruct (f x) eqn:Hx.
      * destruct (collect f l) eqn:Hl; [done|]. intros [= ->].
        destruct (proj1 IH eq_refl) as (l1&z&l2&->&Hz&Hok).
        exists (x :: l1), z, l2. split_and!; [done..|].
        intros y [->|?]%elem_of_cons; [by rewrite Hx|auto].
      * intros [= ->]. exists [], x, l. split_and!; [done..|]. by intros y ?%elem_of_nil.
    + intros ([|z l1]&y&l2&Heq&Hy&Hok); simplify_eq/=; [by rewrite Hy|].
      assert (is_ok (f z) = true) as Hz by (apply Hok; left).
      destruct (f z); [|done].
      rewrite (proj2 IH); [done|]. exists l1, y, l2. split_and!; [done..|].
      intros w ?. apply Hok. by right.
Qed.

(** [for x in l { f(x)?; }] *)
Fixpoint check_all (f : A → result unit E) (l : list A) : result unit E :=
  match l with
  | [] => Ok ()
  | x :: l' => let? _ := f x in check_all f l'
  end.

Lemma check_all_ok (f : A → result unit E) l :
  check_all f l = Ok () ↔ ∀ x, x ∈ l → f x = Ok ().
Proof.
  induction l as [|x l IH]; simpl.
  - split; [|done]. by intros _ x ?%elem_of_nil.
  - destruct (f x) as [[]|e] eqn:Hx.
    + rewrite IH. setoid_rewrite elem_of_cons. naive_solver.
    + split; [done|]. intros Hall. rewrite <-Hx. apply Hall. left.
Qed.

Lemma check_all_err (f : A → result unit E) l e :
  check_all f l = Err e →
  ∃ l1 x l2, l = l1 ++ x :: l2 ∧ f x = Err e ∧ ∀ y, y ∈ l1 → f y = Ok ().
Proof.
  induction l as [|x l IH]; simpl; [done|]. destruct (f x) as [[]|e'] eqn:Hx.
  - intros (l1&z&l2&->&Hz&Hok)%IH. exists (x :: l1), z, l2. split_and!; [done..|].
    intros y [->|?]%elem_of_cons; auto.
  - intros [= ->]. exists [], x, l. split_and!; [done..|]. by intros y ?%elem_of_nil.
Qed.
End results.

(** A traversal that threads a state and stops at the first error. *)
Section traverse.
Context {A B S E : Type} (f : A → S → result (B * S) E).

Fixpoint traverse (l : list A) (st : S) : result (list B * S) E :=
  match l with
  | [] => Ok ([], st)
  | x :: l' =>
      let? r := f x st in
      let? rs := traverse l' r.2 in
      Ok (r.1 :: rs.1, rs.2)
  end.
End traverse.

Lemma traverse_inv {A B S E : Type} (f : A → S → result (B * S) E) (P : S → Prop) l : ∀ st ys st',
  (∀ x st y st', P st → f x st = Ok (y, st') → P st') →
  P st → traverse f l st = Ok (ys, st') → P st'.
Proof.
  induction l as [|x l IH]; intros st ys st' Hf HP; simpl.
  { intros Heq. by injection Heq as _ <-. }
  destruct (f x st) as [[y st1]|] eqn:Hx; [|done]. simpl.
  destruct (traverse f l st1) as [[ys' st2]|] eqn:Ht; [|done]. intros Heq. injection Heq as _ <-.
  apply (IH _ _ _ Hf (Hf _ _ _ _ HP Hx) Ht).
Qed.

Lemma traverse_Forall2 {A B S E : Type} (f : A → S → result (B * S) E) (P : A → B → Prop) l :
  (∀ x st y st', f x st = Ok (y, st') → P x y) →
  ∀ st ys st', traverse f l st = Ok (ys, st') → Forall2 P l ys.
Proof.
  intros Hf. induction l as [|x l IH]; intros st ys st'; simpl.
  { intros Heq. by injection Heq as <- _. }
  destruct (f x st) as [[y st1]|] eqn:Hx; [|done]. simpl.
  destruct (traverse f l st1) as [[ys' st2]|] eqn:Ht; [|done]. intros Heq. injection Heq as <- _.
  constructor; [by eapply Hf|by eapply IH].
Qed.

(** ** Errors that cannot happen

    A check that never answers a given error, one lemma per combinator; the
    database [errors] closes the leaves of such a proof. *)

Section avoiding.
Context {E : Type} (bad : E).

Lemma check_all_avoids {A} (f : A → result unit E) l :
  (∀ x, f x ≠ Err bad) → check_all f l ≠ Err bad.
Proof. intros Hf (l1&x&l2&_&Hx&_)%check_all_err. by eapply Hf. Qed.

Lemma collect_avoids {A B} (f : A → result B E) l :
  (∀ x, f x ≠ Err bad) → collect f l ≠ Err bad.
Proof. intros Hf (l1&x&l2&_&Hx&_)%collect_err. by eapply Hf. Qed.

Lemma bind_avoids {A B} (r : result A E) (k : A → result B E) :
  r ≠ Err bad → (∀ a, r = Ok a → k a ≠ Err bad) → (let? a := r in k a) ≠ Err bad.
Proof. intros Hr Hk. destruct r; [by apply Hk|congruence]. Qed.

Lemma map_err_avoids {A F} (f : F → E) (r : result A F) :
  (∀ e, f e ≠ bad) → map_err f r ≠ Err bad.
Proof. intros Hf. destruct r; simpl; [done|]. intros [= ?]. by eapply Hf. Qed.

Lemma ensure_avoids b e : e ≠ bad → ensure b e ≠ Err bad.
Proof. destruct b; simpl; congruence. Qed.

Lemma ok_or_avoids {A} (o : option A) e : e ≠ bad → ok_or o e ≠ Err bad.
Proof. destruct o; simpl; congruence. Qed.
End avoiding.

Create HintDb errors.
#[export] Hint Resolve check_all_avoids collect_avoids map_err_avoids ensure_avoids ok_or_avoids : errors.
#[export] Hint Extern 0 (_ ≠ _) => discriminate : errors.

(** Follows the [let?]s of a check, closing every step the database knows. *)
Ltac avoid_err :=
  repeat (apply bind_avoids; [try (by eauto with errors)|intros ? _]); try (by eauto with errors).

(** ** Ordering and sorting

    [slice::sort], [sort_by] and [sort_by_key] are stable sorts; a stable sort
    by a total preorder has one result, so insertion from the right (each
    element goes before the ones it does not exceed) computes it. *)

Section sorting.
Context {A : Type} (leb : A → A → bool).

Fixpoint insert_by (x : A) (l : list A) : list A :=
  match l with
  | [] => [x]
  | y :: l' => if leb x y then x :: y :: l' else y :: insert_by x l'
  end.

Fixpoint sort_by (l : list A) : list A :=
  match l with
  | [] => []
  | x :: l' => insert_by x (sort_by l')
  end.

Lemma insert_by_perm x l : insert_by x l ≡ₚ x :: l.
Proof.
  induction l as [|y l IH]; simpl; [done|].
  destruct (leb x y); [done|]. rewrite IH. apply Permutation_swap.
Qed.

Lemma sort_by_perm l : sort_by l ≡ₚ l.
Proof. induction l as [|x l IH]; simpl; [done|]. by rewrite insert_by_perm, IH. Qed.

Lemma elem_of_sort_by x l : x ∈ sort_by l ↔ x ∈ l.
Proof. by rewrite sort_by_perm. Qed.

Lemma length_sort_by l : length (sort_by l) = length l.
Proof. by rewrite sort_by_perm. Qed.

Hypothesis leb_total : ∀ x y, leb x y = true ∨ leb y x = true.
Hypothesis leb_trans : ∀ x y z, leb x y = true → leb y z = true → leb x z = true.

Lemma insert_by_sorted x l :
  StronglySorted (λ a b, leb a b = true) l →
  StronglySorted (λ a b, leb a b = true) (insert_by x l).
Proof.
  induction 1 as [|y l Hl IH Hy]; simpl; [repeat constructor|].
  destruct (leb x y) eqn:Hxy.
  - constructor; [by constructor|]. constructor; [done|].
    eapply Forall_impl; [exact Hy|]. simpl. eauto.
  - constructor; [done|]. rewrite insert_by_perm. constructor; [|done].
    destruct (leb_total x y); congruence.
Qed.

Lemma sort_by_sorted l : StronglySorted (λ a b, leb a b = true) (sort_by l).
Proof. induction l; simpl; [constructor|by apply insert_by_sorted]. Qed.

Lemma sorted_perm_eq l1 l2 :
  (∀ x y, x ∈ l1 → y ∈ l1 → leb x y = true → leb y x = true → x = y) →
  StronglySorted (λ a b, leb a b = true) l1 →
  StronglySorted (λ a b, leb a b = true) l2 →
  l1 ≡ₚ l2 → l1 = l2.
Proof.
  intros Hanti H1; revert l2 Hanti; induction H1 as [|x l1 Hl1 IH Hx]; intros l2 Hanti H2 Hp.
  { by apply Permutation_nil_l in Hp. }
  destruct H2 as [|y l2 Hl2 Hy]; [by apply Permutation_nil_r in Hp|].
  assert (x = y) as ->.
  { assert (x ∈ y :: l2) as [->|Hxl]%elem_of_cons by (rewrite <-Hp; left); [done|].
    assert (y ∈ x :: l1) as [->|Hyl]%elem_of_cons by (rewrite Hp; left); [done|].
    rewrite Forall_forall in Hx, Hy. apply Hanti; [left|by right|auto..]. }
  f_equal. apply IH; [|done|by apply Permutation_cons_inv in Hp].
  intros a b ??. apply Hanti; by right.
Qed.

(** Sorting forgets the order of its input, where the order tells the elements
    apart. *)
Lemma sort_by_perm_eq_on l1 l2 :
  (∀ x y, x ∈ l1 → y ∈ l1 → leb x y = true → leb y x = true → x = y) →
  l1 ≡ₚ l2 → sort_by l1 = sort_by l2.
Proof.
  intros Hanti Hp. apply sorted_perm_eq; [|apply sort_by_sorted..|by rewrite !sort_by_perm].
  intros x y. rewrite !elem_of_sort_by. apply Hanti.
Qed.

Hypothesis leb_antisym : ∀ x y, leb x y = true → leb y x = true → x = y.

Lemma sort_by_perm_eq l1 l2 : l1 ≡ₚ l2 → sort_by l1 = sort_by l2.
Proof. apply sort_by_perm_eq_on. eauto. Qed.
End sorting.

(** Sorting commutes with a map that preserves the comparison. *)
Lemma sort_by_map {A B : Type} (lebA : A → A → bool) (lebB : B → B → bool) (f : A → B) l :
  (∀ x y, lebB (f x) (f y) = lebA x y) →
  sort_by lebB (map f l) = map f (sort_by lebA l).
Proof.
  intros Hf. induction l as [|x l IH]; simpl; [done|]. rewrite IH.
  generalize (sort_by lebA l) as k. intros k. induction k as [|y k IHk]; simpl; [done|].
  rewrite Hf. destruct (lebA x y); simpl; [done|]. by rewrite IHk.
Qed.

(** Where a key tells the elements of a list apart. *)
Lemma NoDup_fmap_inj {A B : Type} (f : A → B) l x y :
  NoDup (f <$> l) → x ∈ l → y ∈ l → f x = f y → x = y.
Proof.
  intros Hnd [i Hi]%list_elem_of_lookup [j Hj]%list_elem_of_lookup Heq.
  assert (i = j) as ->; [|congruence].
  apply (NoDup_lookup _ i j (f x) Hnd); rewrite list_lookup_fmap; [by rewrite Hi|by rewrite Hj, Heq].
Qed.

(** [str]'s [Ord]: lexicographic on the bytes. *)
Definition string_leb (s t : string) : bool :=
  match String.compare s t with Gt => false | _ => true end.

Lemma string_leb_total s t : string_leb s t = true ∨ string_leb t s = true.
Proof.
  unfold string_leb. rewrite (String.compare_antisym s t).
  destruct (String.compare t s); simpl; auto.
Qed.

Lemma string_leb_antisym s t : string_leb s t = true → string_leb t s = true → s = t.
Proof.
  unfold string_leb. rewrite (String.compare_antisym s t).
  destruct (String.compare t s) eqn:H; simpl; try done.
  intros _ _. by apply String.compare_eq_iff in H.
Qed.

Lemma ascii_compare_lt_trans a b c :
  Ascii.compare a b = Lt → Ascii.compare b c = Lt → Ascii.compare a c = Lt.
Proof. unfold Ascii.compare. rewrite !N.compare_lt_iff. lia. Qed.

Lemma string_compare_lt_trans s t u :
  String.compare s t = Lt → String.compare t u = Lt → String.compare s u = Lt.
Proof.
  revert t u; induction s as [|a s IH]; intros [|b t] [|c u]; simpl; try done.
  destruct (Ascii.compare a b) eqn:Hab; try done.
  - apply Ascii.compare_eq_iff in Hab as ->.
    destruct (Ascii.compare b c); try done. eauto.
  - destruct (Ascii.compare b c) eqn:Hbc; try done.
    + apply Ascii.compare_eq_iff in Hbc as ->. by rewrite Hab.
    + by rewrite (ascii_compare_lt_trans _ _ _ Hab Hbc).
Qed.

Lemma string_leb_trans s t u :
  string_leb s t = true → string_leb t u = true → string_leb s u = true.
Proof.
  unfold string_leb.
  destruct (String.compare s t) eqn:Hst; try done; intros _;
    destruct (String.compare t u) eqn:Htu; try done; intros _.
  - apply String.compare_eq_iff in Hst as ->. by rewrite Htu.
  - apply String.compare_eq_iff in Hst as ->. by rewrite Htu.
  - apply String.compare_eq_iff in Htu as ->. by rewrite Hst.
  - by rewrite (string_compare_lt_trans _ _ _ Hst Htu).
Qed.

(** [Vec<String>::sort]. *)
Definition sort_strings : list string → list string := sort_by string_leb.

Lemma sort_strings_perm l1 l2 : l1 ≡ₚ l2 → sort_strings l1 = sort_strings l2.
Proof.
  apply sort_by_perm_eq; [apply string_leb_total|apply string_leb_trans|
                          apply string_leb_antisym].
Qed.

#[global] Instance sort_strings_proper : Proper ((≡ₚ) ==> (=)) sort_strings.
Proof. intros l1 l2. apply sort_strings_perm. Qed.

(** [Vec::dedup]: drops consecutive repetitions. *)
Fixpoint dedup `{EqDecision A} (l : list A) : list A :=
  match l with
  | x :: ((y :: _) as l') => if decide (x = y) then dedup l' else x :: dedup l'
  | _ => l
  end.

Lemma elem_of_dedup `{EqDecision A} (x : A) l : x ∈ dedup l ↔ x ∈ l.
Proof.
  induction l as [|y [|z l] IH]; [done..|].
  change (x ∈ (if decide (y = z) then dedup (z :: l) else y :: dedup (z :: l)) ↔
          x ∈ y :: z :: l).
  case_decide; subst; rewrite ?elem_of_cons, IH, ?elem_of_cons; clear IH; naive_solver.
Qed.

(** On a sorted list [dedup] leaves each element once. *)
Lemma NoDup_dedup_sorted (l : list string) :
  StronglySorted (λ a b, string_leb a b = true) l → NoDup (dedup l).
Proof.
  induction 1 as [|x l Hl IH Hx]; [constructor|].
  destruct l as [|y l]; [apply NoDup_singleton|].
  change (NoDup (if decide (x = y) then dedup (y :: l) else x :: dedup (y :: l))).
  case_decide as Hxy; [done|]. apply NoDup_cons. split; [|done].
  rewrite elem_of_dedup. intros [->|Hin]%elem_of_cons; [done|].
  apply Hxy, string_leb_antisym.
  - rewrite Forall_forall in Hx. apply Hx. left.
  - inversion Hl as [|? ? _ Hy]; subst. rewrite Forall_forall in Hy. auto.
Qed.

(** ** Strings

    A Rust [String] is its UTF-8 bytes.  [str::trim] strips the characters with
    the Unicode property White_Space; [ws_units] lists their encodings. *)

Definition byte_of (c : ascii) : N := N_of_ascii c.

Definition ws_units : list (list N) :=
  [[9]; [10]; [11]; [12]; [13]; [32]; [194; 133]; [194; 160]; [225; 154; 128];
   [226; 128; 128]; [226; 128; 129]; [226; 128; 130]; [226; 128; 131];
   [226; 128; 132]; [226; 128; 133]; [226; 128; 134]; [226; 128; 135];
   [226; 128; 136]; [226; 128; 137]; [226; 128; 138]; [226; 128; 168];
   [226; 128; 169]; [226; 128; 175]; [226; 129; 159]; [227; 128; 128]]%N.

Fixpoint strip_prefix (u : list N) (l : list ascii) : option (list ascii) :=
  match u, l with
  | [], _ => Some l
  | b :: u', c :: l' => if (b =? byte_of c)%N then strip_prefix u' l' else None
  | _ :: _, [] => None
  end.

Fixpoint strip_any (us : list (list N)) (l : list ascii) : option (list ascii) :=
  match us with
  | [] => None
  | u :: us' => match strip_prefix u l with Some l' => Some l' | None => strip_any us' l end
  end.

Fixpoint strip_all (us : list (list N)) (fuel : nat) (l : list ascii) : list ascii :=
  match fuel with
  | 0 => l
  | S n => match strip_any us l with Some l' => strip_all us n l' | None => l end
  end.

Definition trim_bytes (us : list (list N)) (l : list ascii) : list ascii :=
  strip_all us (length l) l.

Definition trim (s : string) : string :=
  let front := trim_bytes ws_units (String.list_ascii_of_string s) in
  String.string_of_list_ascii
    (reverse (trim_bytes (map reverse ws_units) (reverse front))).

(** [s.trim().is_empty()] *)
Definition blank (s : string) : bool := bool_decide (trim s = "").

(** [s.starts_with(p)] and [s.contains(c)] *)
Definition starts_with (p s : string) : bool := String.prefix p s.
Definition contains_char (c : ascii) (s : string) : bool :=
  bool_decide (c ∈ String.list_ascii_of_string s).

(** The text before the first [c] and the text after it. *)
Lemma split_at_char (c : ascii) (a b x y : string) :
  contains_char c a = false → contains_char c b = false →
  a +:+ String c EmptyString +:+ x = b +:+ String c EmptyString +:+ y → a = b ∧ x = y.
Proof.
  revert b. induction a as [|c0 a IH]; intros [|d b]; unfold contains_char; simpl;
    rewrite ?bool_decide_eq_false, ?not_elem_of_cons.
  - intros _ _ Heq. by injection Heq.
  - intros _ [Hd _] Heq. injection Heq as <- _. done.
  - intros [Hc _] _ Heq. injection Heq as -> _. done.
  - intros [_ Ha] [_ Hb] Heq. injection Heq as -> Heq.
    destruct (IH b) as [-> ->]; [by apply bool_decide_eq_false..|done|done].
Qed.

Example trim_example : trim "  30 s
" = "30 s".
Proof. reflexivity. Qed.

(** ** Multimaps

    [m.entry(k).or_default().push(v)] on a [HashMap<K, Vec<V>>]. *)

Section map_push.
Context {K V : Type} `{Countable K}.
Implicit Types (m : gmap K (list V)) (k : K).

Definition bucket m k : list V := default [] (m !! k).

Definition map_push k (v : V) m : gmap K (list V) := <[k := bucket m k ++ [v]]> m.

Lemma bucket_empty k : bucket ∅ k = [].
Proof. unfold bucket. by rewrite lookup_empty. Qed.

Lemma bucket_push_eq k v m : bucket (map_push k v m) k = bucket m k ++ [v].
Proof. unfold bucket at 1, map_push. by rewrite lookup_insert_eq. Qed.

Lemma bucket_push_ne k k' v m : k ≠ k' → bucket (map_push k v m) k' = bucket m k'.
Proof. intros. unfold bucket, map_push. by rewrite lookup_insert_ne. Qed.

Lemma elem_of_bucket_push k k' v v' m :
  v' ∈ bucket (map_push k v m) k' ↔ v' ∈ bucket m k' ∨ (k = k' ∧ v = v').
Proof.
  destruct (decide (k = k')) as [->|Hne].
  - rewrite bucket_push_eq, elem_of_app, list_elem_of_singleton. naive_solver.
  - rewrite bucket_push_ne by done. naive_solver.
Qed.
End map_push.

(** ** Adjacency

    The code builds several adjacency maps from an edge list: for every kept
    edge, every kept source points at every target. *)

Section adjacency.
Context {E : Type} (srcs tgts : E → list string).

Definition push_edge (keep_src : string → bool) (e : E)
    (adj : gmap string (list string)) : gmap string (list string) :=
  foldl (λ adj src,
           if keep_src src
           then foldl (λ adj tgt, map_push src tgt adj) adj (tgts e)
           else adj)
    adj (srcs e).

Definition build_adjacency (keep : E → bool) (keep_src : string → bool)
    (es : list E) : gmap string (list string) :=
  foldl (λ adj e, if keep e then push_edge keep_src e adj else adj) ∅ es.

Implicit Types (s t src : string) (tl : list string) (adj : gmap string (list string)).

Lemma elem_of_push_tgts src tl adj s t :
  t ∈ bucket (foldl (λ adj tgt, map_push src tgt adj) adj tl) s ↔
  t ∈ bucket adj s ∨ (s = src ∧ t ∈ tl).
Proof.
  revert adj; induction tl as [|x tl IH]; intros adj; simpl.
  - rewrite elem_of_nil. naive_solver.
  - rewrite IH, elem_of_bucket_push, elem_of_cons. naive_solver.
Qed.

Lemma elem_of_push_edge keep_src e adj s t :
  t ∈ bucket (push_edge keep_src e adj) s ↔
  t ∈ bucket adj s ∨ (s ∈ srcs e ∧ keep_src s = true ∧ t ∈ tgts e).
Proof.
  unfold push_edge. generalize (srcs e) as sl. intros sl. revert adj.
  induction sl as [|x sl IH]; intros adj; simpl.
  - setoid_rewrite elem_of_nil. naive_solver.
  - rewrite IH. setoid_rewrite elem_of_cons. destruct (keep_src x) eqn:Hx.
    + rewrite elem_of_push_tgts. naive_solver.
    + naive_solver congruence.
Qed.

Lemma elem_of_build_adjacency keep keep_src es s t :
  t ∈ bucket (build_adjacency keep keep_src es) s ↔
  ∃ e, e ∈ es ∧ keep e = true ∧ keep_src s = true ∧ s ∈ srcs e ∧ t ∈ tgts e.
Proof.
  unfold build_adjacency.
  enough (∀ adj, t ∈ bucket (foldl (λ adj e, if keep e then push_edge keep_src e adj
                                             else adj) adj es) s ↔
                 t ∈ bucket adj s ∨ ∃ e, e ∈ es ∧ keep e = true ∧ keep_src s = true ∧
                                         s ∈ srcs e ∧ t ∈ tgts e) as Hgen.
  { rewrite Hgen, bucket_empty, elem_of_nil. naive_solver. }
  induction es as [|e es IH]; intros adj; simpl.
  - setoid_rewrite elem_of_nil. naive_solver.
  - rewrite IH. setoid_rewrite elem_of_cons. destruct (keep e) eqn:He.
    + rewrite elem_of_push_edge. naive_solver.
    + naive_solver congruence.
Qed.
End adjacency.

(** The relation an adjacency map denotes. *)
Definition adj_rel (adj : gmap string (list string)) (u v : string) : Prop :=
  v ∈ bucket adj u.

(** ** Paths

    [is_path R s p t]: [p] lists the nodes of a walk from [s] to [t]. *)

Section paths.
Context {A : Type} (R : relation A).

Fixpoint is_path (s : A) (p : list A) (t : A) : Prop :=
  match p with
  | [] => False
  | [x] => x = s ∧ s = t
  | x :: (y :: _) as p' => x = s ∧ R s y ∧ is_path y p' t
  end.

Lemma is_path_rtc s p t : is_path s p t → rtc R s t.
Proof.
  revert s; induction p as [|x [|y p] IH]; intros s; [done|by intros [_ ->]|].
  intros (->&HR&Hp). econstructor; [done|]. by apply IH.
Qed.

Lemma rtc_is_path s t : rtc R s t → ∃ p, is_path s p t.
Proof.
  induction 1 as [x|x y z HR _ [p Hp]]; [by exists [x]|].
  exists (x :: p). destruct p as [|y' p]; [done|]. simpl in *.
  destruct p; naive_solver.
Qed.

Lemma is_path_snoc s p t u : is_path s p t → R t u → is_path s (p ++ [u]) u.
Proof.
  revert s; induction p as [|x [|y p] IH]; intros s; [done| |].
  - intros [-> ->] HR. simpl. auto.
  - intros (->&HR&Hp) Htu. simpl. split_and!; [done..|]. by apply IH.
Qed.

Lemma is_path_ends s p t : is_path s p t → s ∈ p ∧ t ∈ p.
Proof.
  revert s; induction p as [|x [|y p] IH]; intros s; [done| |].
  - intros [-> ->]. split; left.
  - intros (->&HR&Hp). apply IH in Hp as [_ ?]. split; [left|by right].
Qed.
End paths.

Lemma is_path_impl {A} (R R' : relation A) s p t :
  (∀ x y, R x y → R' x y) → is_path R s p t → is_path R' s p t.
Proof.
  intros HR. revert s; induction p as [|x [|y p] IH]; intros s; [done|done|].
  intros (->&?&Hp). simpl. split_and!; auto. by apply IH.
Qed.

(** ** Sums over a list of keys *)

Definition sum_over {A} (f : A → nat) (l : list A) : nat := sum_list_with f l.

Lemma sum_over_cons {A} (f : A → nat) x l : sum_over f (x :: l) = f x + sum_over f l.
Proof. done. Qed.

Lemma sum_over_ext {A} (f g : A → nat) l :
  (∀ x, x ∈ l → f x = g x) → sum_over f l = sum_over g l.
Proof.
  unfold sum_over. induction l as [|x l IH]; simpl; intros Hfg; [done|].
  rewrite (Hfg x) by left. rewrite IH; [done|]. intros y ?. apply Hfg. by right.
Qed.

(** Changing [f] at one key of a duplicate-free list moves the sum by that
    much. *)
Lemma sum_over_update {A} (f g : A → nat) l x :
  NoDup l → x ∈ l → (∀ y, y ∈ l → y ≠ x → g y = f y) →
  sum_over g l + f x = sum_over f l + g x.
Proof.
  unfold sum_over. induction 1 as [|z l Hz _ IH]; simpl.
  { by intros ?%elem_of_nil. }
  intros [->|Hx]%elem_of_cons Hg.
  - assert (sum_list_with g l = sum_list_with f l) as ->; [|lia].
    apply (sum_over_ext g f). intros y Hy. apply Hg; [by right|by intros ->].
  - rewrite (Hg z); [|left|by intros ->].
    assert (sum_list_with g l + f x = sum_list_with f l + g x); [|lia].
    apply IH; [done|]. intros y ?. apply Hg. by right.
Qed.

Lemma size_list_to_set_le `{Countable A} (l : list A) :
  size (list_to_set l : gset A) ≤ length l.
Proof.
  induction l as [|x l IH]; [by rewrite list_to_set_nil, size_empty|].
  rewrite list_to_set_cons, size_union_alt, size_singleton. simpl.
  pose proof (subseteq_size (list_to_set l ∖ {[x]}) (list_to_set l : gset A)
                ltac:(set_solver)). lia.
Qed.

(** ** Buckets

    [if let Some(b) = m.get_mut(&k) { b.retain(p); if b.is_empty() { m.remove(&k); } }] *)

Section buckets.
Context `{Countable K} {V : Type}.
Implicit Types (m : gmap K (list V)) (k : K).

Definition retain (p : V → bool) k m : gmap K (list V) :=
  match m !! k with
  | None => m
  | Some b => let b' := List.filter p b in
              if bool_decide (length b' = 0) then delete k m else <[k := b']> m
  end.

(** No key is kept for an empty bucket. *)
Definition no_empty m : Prop := ∀ k, m !! k ≠ Some [].

Lemma bucket_retain p k m k' :
  bucket (retain p k m) k' = if decide (k = k') then List.filter p (bucket m k') else bucket m k'.
Proof.
  unfold retain, bucket. case_decide as Hk; subst.
  - destruct (m !! k') as [b|] eqn:Hm; simpl; [|by rewrite Hm].
    case_bool_decide as Hb.
    + rewrite lookup_delete_eq. simpl. by apply length_zero_iff_nil in Hb.
    + by rewrite lookup_insert_eq.
  - destruct (m !! k) as [b|] eqn:Hm; simpl; [|done].
    case_bool_decide; [by rewrite lookup_delete_ne|by rewrite lookup_insert_ne].
Qed.

Lemma retain_no_empty p k m : no_empty m → no_empty (retain p k m).
Proof.
  intros Hm k'. unfold retain. destruct (m !! k) as [b|] eqn:Hk; [|done].
  case_bool_decide as Hb.
  - rewrite lookup_delete_Some. intros [_ ?]. by eapply Hm.
  - rewrite lookup_insert_Some. intros [[_ Hf]|[_ ?]]; [|by eapply Hm].
    rewrite Hf in Hb. done.
Qed.

Lemma map_push_no_empty k v m : no_empty m → no_empty (map_push k v m).
Proof.
  intros Hm k'. unfold map_push. rewrite lookup_insert_Some.
  intros [[_ Hf]|[_ ?]]; [by destruct (bucket m k)|by eapply Hm].
Qed.

Lemma elem_of_filter_bool (p : V → bool) l x : x ∈ List.filter p l ↔ x ∈ l ∧ p x = true.
Proof. by rewrite !list_elem_of_In, filter_In. Qed.

Lemma NoDup_filter_bool (p : V → bool) l : NoDup l → NoDup (List.filter p l).
Proof. rewrite !NoDup_ListNoDup. apply List.NoDup_filter. Qed.
End buckets.

(** ** Tables

    [UPDATE .. WHERE key = .. AND guard]: the new table when a row matched, and
    [SELECT .. WHERE p ORDER BY leq]. *)

Section tables.
Context `{Countable K} {Row : Type}.
Implicit Types (t : gmap K Row) (k : K) (r : Row).

Definition update_row t k (guard : Row → bool) (f : Row → Row) : option (gmap K Row) :=
  match t !! k with
  | Some r => if guard r then Some (<[k := f r]> t) else None
  | None => None
  end.

Lemma update_row_Some t k guard f t' :
  update_row t k guard f = Some t' →
  ∃ r, t !! k = Some r ∧ guard r = true ∧ t' = <[k := f r]> t.
Proof. unfold update_row. repeat case_match; naive_solver. Qed.

Lemma update_row_None t k guard f :
  update_row t k guard f = None → t !! k = None ∨ ∃ r, t !! k = Some r ∧ guard r = false.
Proof. unfold update_row. repeat case_match; naive_solver. Qed.

Definition select_rows (leq : K * Row → K * Row → bool) (p : K * Row → bool) t : list (K * Row) :=
  sort_by leq (List.filter p (map_to_list t)).

Lemma elem_of_select_rows leq p t k r :
  (k, r) ∈ select_rows leq p t ↔ t !! k = Some r ∧ p (k, r) = true.
Proof.
  unfold select_rows. rewrite elem_of_sort_by, elem_of_filter_bool. by rewrite elem_of_map_to_list.
Qed.

Lemma select_rows_NoDup leq p t : NoDup (select_rows leq p t).*1.
Proof.
  unfold select_rows. rewrite sort_by_perm.
  eapply sublist_NoDup; [apply (NoDup_fst_map_to_list t)|].
  apply fmap_sublist. induction (map_to_list t) as [|x l IH]; simpl; [constructor|].
  destruct (p x); by constructor.
Qed.

(** [LIMIT 1]: the least row, when there is one. *)
Section first_row.
Context (leq : K * Row → K * Row → bool).
Context (leq_total : ∀ x y, leq x y = true ∨ leq y x = true).
Context (leq_trans : ∀ x y z, leq x y = true → leq y z = true → leq x z = true).

Lemma head_select_Some p t k r :
  head (select_rows leq p t) = Some (k, r) →
  t !! k = Some r ∧ p (k, r) = true ∧
  ∀ k' r', t !! k' = Some r' → p (k', r') = true → leq (k, r) (k', r') = true.
Proof using leq_total leq_trans.
  pose proof (sort_by_sorted leq leq_total leq_trans (List.filter p (map_to_list t))) as Hs.
  intros Hh. fold (select_rows leq p t) in Hs.
  assert ((k, r) ∈ select_rows leq p t) as [??]%elem_of_select_rows.
  { destruct (select_rows leq p t); simplify_eq/=. left. }
  split_and!; [done..|]. intros k' r' Hk' Hp'.
  assert ((k', r') ∈ select_rows leq p t) as Hin by by apply elem_of_select_rows.
  destruct (select_rows leq p t) as [|x l]; simplify_eq/=.
  apply elem_of_cons in Hin as [[= -> ->]|Hin]; [by destruct (leq_total (k, r) (k, r))|].
  apply StronglySorted_inv in Hs as [_ Hall]. rewrite Forall_forall in Hall. by apply Hall.
Qed.
End first_row.

Lemma head_select_None leq p t :
  head (select_rows leq p t) = None ↔ ∀ k r, t !! k = Some r → p (k, r) = false.
Proof.
  split.
  - intros Hh k r Hk. destruct (p (k, r)) eqn:Hp; [|done].
    assert ((k, r) ∈ select_rows leq p t) as Hin by by apply elem_of_select_rows.
    destruct (select_rows leq p t); [by apply elem_of_nil in Hin|done].
  - intros Hall. destruct (head _) as [[k r]|] eqn:Hh; [|done].
    assert ((k, r) ∈ select_rows leq p t) as [Hk Hp]%elem_of_select_rows.
    { destruct (select_rows leq p t); simplify_eq/=. left. }
    by rewrite (Hall _ _ Hk) in Hp.
Qed.

Lemma take_select_NoDup n leq p t : NoDup (take n (select_rows leq p t)).*1.
Proof.
  eapply sublist_NoDup; [apply (select_rows_NoDup leq p t)|]. apply fmap_sublist, sublist_take.
Qed.
End tables.

(** Case analysis on membership in a list that is written out. *)
Ltac invert_elem_of :=
  repeat match goal with
  | H : _ ∈ [] |- _ => by apply elem_of_nil in H
  | H : _ ∈ _ :: _ |- _ => apply elem_of_cons in H as [H|H]; [try subst|]
  end.
