(* ===== verification/Workflow.v ===== *)
(** * The published workflow contract

    The messages of [proto/workflow-definition.proto] as prost generates them
    for Rust: a [oneof] is an [option] of an inductive type, a message field is
    an [option] of a record, an enum field is the [i32] of its variant. *)

From S2P Require Import Prelude.

Local Open Scope Z_scope.

(** ** Enum discriminants ([Variant as i32]) *)

Inductive EdgeKind := EdgeKind_Control | EdgeKind_Data | EdgeKind_Loop.
Definition EdgeKind_i32 (k : EdgeKind) : Z :=
  match k with EdgeKind_Control => 0 | EdgeKind_Data => 1 | EdgeKind_Loop => 2 end.

Inductive NodeType := NodeType_Start | NodeType_End | NodeType_Task.
Definition NodeType_i32 (t : NodeType) : Z :=
  match t with NodeType_Start => 0 | NodeType_End => 1 | NodeType_Task => 2 end.

Inductive TaskType := TaskType_Regular | TaskType_Sensor | TaskType_Shadow.
Definition TaskType_i32 (t : TaskType) : Z :=
  match t with TaskType_Regular => 0 | TaskType_Sensor => 1 | TaskType_Shadow => 2 end.

Inductive WorkflowStatus := WorkflowStatus_Inactive | WorkflowStatus_Active.
Definition WorkflowStatus_i32 (s : WorkflowStatus) : Z :=
  match s with WorkflowStatus_Inactive => 0 | WorkflowStatus_Active => 1 end.

Inductive ComparisonOp := Op_Eq | Op_NotEq | Op_Lt | Op_Le | Op_Gt | Op_Ge.
Definition ComparisonOp_i32 (o : ComparisonOp) : Z :=
  match o with
  | Op_Eq => 0 | Op_NotEq => 1 | Op_Lt => 2 | Op_Le => 3 | Op_Gt => 4 | Op_Ge => 5
  end.

(** ** Captures, durations and routing values *)

Inductive CaptureSourceKind := CaptureSource_Trigger (jsonpath : string).

Record CaptureSource := mkCaptureSource { capture_source : option CaptureSourceKind }.

Record CaptureDeclaration := mkCaptureDeclaration {
  capture_name : string;
  capture_from : option CaptureSource
}.

Record Duration := mkDuration { duration_secs : Z; duration_nanos : Z }.

Inductive RoutingValueKind :=
| StringValue (s : string)
| IntValue (n : Z)
| BoolValue (b : bool)
| BytesValue (bs : list N).

Record RoutingValue := mkRoutingValue { routing_value : option RoutingValueKind }.

(** ** Gates and edges *)

Record SignalReceived := mkSignalReceived {
  sr_signal_name : string;
  sr_predicate : option string;
  sr_captures_spec : list CaptureDeclaration;
  sr_timeout : option Duration
}.

Record PredicateHolds := mkPredicateHolds {
  ph_routing_var : string;
  ph_op : Z;
  ph_value : option RoutingValue;
  ph_timeout : option Duration
}.

Record TimerElapsed := mkTimerElapsed { te_duration : option Duration }.

Inductive GateKind :=
| Gate_SignalReceived (g : SignalReceived)
| Gate_PredicateHolds (g : PredicateHolds)
| Gate_TimerElapsed (g : TimerElapsed).

Record Gate := mkGate { gate_kind : option GateKind }.

Record Edge := mkEdge {
  edge_id : string;
  edge_sources : list string;
  edge_targets : list string;
  edge_kind : Z;
  edge_gates : list Gate
}.

Record GraphNode := mkGraphNode { node_id : string; node_type : Z }.

Record TaskGraph := mkTaskGraph {
  graph_nodes : list GraphNode;
  graph_edges : list Edge;
  graph_start : string;
  graph_end : string
}.

(** prost's [Default] for [TaskGraph]. *)
Definition TaskGraph_default : TaskGraph := mkTaskGraph [] [] "" "".

(** ** Tasks *)

Inductive InputSourceKind :=
| InputSource_Task (name : string)
| InputSource_Trigger
| InputSource_Signal (signal_name gate_edge_id : string).

Record InputSource := mkInputSource { input_source : option InputSourceKind }.

Record OptionalInputSource := mkOptionalInputSource { optional_source : option InputSource }.

Record InputSourceList := mkInputSourceList { sources_list : list OptionalInputSource }.

Record RoutingVarDecl := mkRoutingVarDecl { rv_name : string; rv_type : option string }.

Inductive EmitKind :=
| Emit_OnSuccess (signal_name from_routing_var : string)
| Emit_OnFailure (signal_name : string).

Record TaskSignalEmit := mkTaskSignalEmit { emit_kind : option EmitKind }.

Record TaskDefinition := mkTaskDefinition {
  task_id : string;
  task_workflow_id : string;
  task_name : string;
  task_type : Z;
  task_nix_expression_path : string;
  task_nix_args : list string;
  task_outputs : list string;
  task_inputs : list string;
  task_secrets : list string;
  task_max_attempts : Z;
  task_input_sources : option InputSourceList;
  task_timeout_secs : option Z;
  task_emits : list TaskSignalEmit;
  task_routing_vars : list RoutingVarDecl;
  task_loop_participant : bool
}.

(** ** Triggers and definitions *)

Record WaitsOnSignalConfig := mkWaitsOnSignalConfig {
  wos_signal_name : string;
  wos_predicate : option string;
  wos_captures : list CaptureDeclaration
}.

Inductive TriggerKind :=
| Trigger_Cron (expr : string)
| Trigger_FireNow
| Trigger_WaitsOnSignal (c : WaitsOnSignalConfig).

Record Trigger := mkTrigger { trigger_kind : option TriggerKind }.

(** The [tags] map is a [HashMap<String, String>]. *)
Record WorkflowDefinition := mkWorkflowDefinition {
  def_id : string;
  def_tenant_id : string;
  def_namespace : string;
  def_slug : string;
  def_name : string;
  def_version : Z;
  def_tasks : list TaskDefinition;
  def_task_graph : option TaskGraph;
  def_trigger : option Trigger;
  def_status : Z;
  def_captures : list CaptureDeclaration;
  def_timeout_secs : option Z;
  def_tags : gmap string string
}.
