(* ===== verification/Dominators.v ===== *)
(** * Dominator validation

    [definition_graph.rs]: the breadth-first search [bfs_witness] and the two
    dominator checks built on it, [validate_dominates] (a gate's edge dominates
    a task) and [validate_task_dominates] (a task dominates a task).  The search
    loop runs on fuel; [bfs_witness_spec] shows the fuel is enough, because its
    answer is exactly reachability. *)

From S2P Require Import Prelude Workflow.

Local Open Scope nat_scope.

(** ** [bfs_witness] *)

Record bfs_state := mkBfs {
  bfs_visited : gset string;
  bfs_parent : gmap string string;
  bfs_queue : list string
}.

(** One neighbour: [if visited.insert(next) { parent.insert; queue.push_back }]. *)
Definition bfs_visit (node next : string) (st : bfs_state) : bfs_state :=
  if decide (next ∈ bfs_visited st) then st
  else mkBfs ({[next]} ∪ bfs_visited st) (<[next := node]> (bfs_parent st))
             (bfs_queue st ++ [next]).

Definition bfs_expand (adj : gmap string (list string)) (node : string)
    (st : bfs_state) : bfs_state :=
  match adj !! node with
  | Some neighbors => foldl (λ st next, bfs_visit node next st) st neighbors
  | None => st
  end.

(** [while let Some(node) = queue.pop_front()]; returns [reached] and [parent]. *)
Fixpoint bfs_loop (fuel : nat) (adj : gmap string (list string)) (target : string)
    (st : bfs_state) : bool * gmap string string :=
  match fuel, bfs_queue st with
  | 0, _ | _, [] => (false, bfs_parent st)
  | S n, node :: q =>
      if decide (node = target) then (true, bfs_parent st)
      else bfs_loop n adj target
             (bfs_expand adj node (mkBfs (bfs_visited st) (bfs_parent st) q))
  end.

(** [while let Some(&prev) = parent.get(cur) { path.push(prev); cur = prev }]. *)
Fixpoint trace_back (fuel : nat) (parent : gmap string string) (cur : string) : list string :=
  match fuel, parent !! cur with
  | S n, Some prev => cur :: trace_back n parent prev
  | _, _ => [cur]
  end.

Definition bfs_init (start : string) : bfs_state := mkBfs {[start]} ∅ [start].

Definition bfs_fuel (adj : gmap string (list string)) : nat :=
  2 + length (mjoin (map_to_list adj).*2).

Definition bfs_witness (adj : gmap string (list string)) (start target : string)
    : option (list string) :=
  let '(reached, parent) := bfs_loop (bfs_fuel adj) adj target (bfs_init start) in
  if reached then Some (reverse (trace_back (size parent) parent target)) else None.

(** ** Correctness of the search *)

Section bfs.
Context (adj : gmap string (list string)) (start : string).

(** A node whose parent chain leads back to [start] in [n] steps along [l]. *)
Inductive rooted (P : gmap string string) : string → nat → list string → Prop :=
| rooted_start : P !! start = None → rooted P start 0 [start]
| rooted_step c p n l :
    P !! c = Some p → rooted P p n l → rooted P c (S n) (l ++ [c]).

Lemma rooted_trace P v n l fuel :
  rooted P v n l → n ≤ fuel → trace_back fuel P v = reverse l.
Proof.
  intros Hr. revert fuel. induction Hr as [Hs|c p n l Hc Hr IH]; intros fuel Hf.
  - destruct fuel; simpl; by rewrite ?Hs.
  - destruct fuel as [|fuel]; [lia|]. simpl. rewrite Hc, reverse_snoc.
    f_equal. apply IH. lia.
Qed.

Lemma rooted_path P v n l :
  (∀ c p, P !! c = Some p → adj_rel adj p c) →
  rooted P v n l → is_path (adj_rel adj) start l v.
Proof. intros HP. induction 1; [done|]. eapply is_path_snoc; eauto. Qed.

Lemma rooted_insert P k x v n l :
  P !! k = None → k ≠ start → rooted P v n l → rooted (<[k:=x]> P) v n l.
Proof.
  intros Hk Hne. induction 1 as [Hs|c p n l Hc Hr IH].
  - constructor. by rewrite lookup_insert_ne.
  - econstructor; [|done]. rewrite lookup_insert_ne; [done|]. congruence.
Qed.

(** The nodes the search can meet. *)
Definition universe : gset string :=
  {[start]} ∪ list_to_set (mjoin (map_to_list adj).*2).

Lemma universe_adj u v : adj_rel adj u v → v ∈ universe.
Proof.
  unfold adj_rel, bucket, universe. destruct (adj !! u) as [ns|] eqn:Hu; simpl;
    [|by intros ?%elem_of_nil].
  intros Hv. rewrite elem_of_union, elem_of_list_to_set. right.
  apply list_elem_of_join. exists ns. split; [done|].
  apply list_elem_of_fmap. exists (u, ns). split; [done|].
  by apply elem_of_map_to_list.
Qed.

Record bfs_inv (st : bfs_state) : Prop := {
  inv_start : start ∈ bfs_visited st;
  inv_queue q : q ∈ bfs_queue st → q ∈ bfs_visited st;
  inv_universe : bfs_visited st ⊆ universe;
  inv_root : bfs_parent st !! start = None;
  inv_edge c p : bfs_parent st !! c = Some p → adj_rel adj p c;
  inv_visited c p : bfs_parent st !! c = Some p → c ∈ bfs_visited st;
  inv_tree v : v ∈ bfs_visited st →
    ∃ n l, n ≤ size (bfs_parent st) ∧ rooted (bfs_parent st) v n l
}.

Definition bfs_measure (st : bfs_state) : nat :=
  size (universe ∖ bfs_visited st) + length (bfs_queue st).

Lemma bfs_visit_inv node next st :
  bfs_inv st → node ∈ bfs_visited st → adj_rel adj node next →
  bfs_inv (bfs_visit node next st) ∧
  bfs_measure (bfs_visit node next st) = bfs_measure st.
Proof.
  intros Hinv Hnode Hadj. unfold bfs_visit.
  destruct (decide (next ∈ bfs_visited st)) as [|Hnew]; [done|].
  assert (bfs_parent st !! next = None) as Hnone.
  { apply eq_None_not_Some. intros [p Hp]. by apply Hnew, (inv_visited _ Hinv _ p). }
  assert (next ≠ start) as Hns by (intros ->; apply Hnew, Hinv).
  split.
  - split; simpl.
    + pose proof (inv_start _ Hinv). set_solver.
    + pose proof (inv_queue _ Hinv) as Hq. set_solver.
    + pose proof (inv_universe _ Hinv). apply universe_adj in Hadj. set_solver.
    + rewrite lookup_insert_ne by done. apply Hinv.
    + intros c p. rewrite lookup_insert_Some. intros [[<- <-]|[_ ?]]; [done|].
      by apply Hinv.
    + intros c p. rewrite lookup_insert_Some.
      intros [[<- _]|[_ Hc%(inv_visited _ Hinv)]]; set_solver.
    + intros v. rewrite map_size_insert_None by done.
      intros [->%elem_of_singleton|Hv]%elem_of_union.
      * destruct (inv_tree _ Hinv _ Hnode) as (n&l&Hn&Hr).
        exists (S n), (l ++ [next]). split; [lia|].
        econstructor; [by rewrite lookup_insert_eq|]. by apply rooted_insert.
      * destruct (inv_tree _ Hinv _ Hv) as (n&l&Hn&Hr).
        exists n, l. split; [lia|]. by apply rooted_insert.
  - unfold bfs_measure; simpl. rewrite length_app; simpl.
    assert (next ∈ universe ∖ bfs_visited st) as Hin.
    { apply elem_of_difference. split; [by eapply universe_adj|done]. }
    assert (universe ∖ ({[next]} ∪ bfs_visited st) =
            universe ∖ bfs_visited st ∖ {[next]}) as -> by set_solver.
    rewrite size_difference, size_singleton by set_solver.
    assert (size (universe ∖ bfs_visited st) ≠ 0); [|lia].
    rewrite size_non_empty_iff. set_solver.
Qed.

Lemma bfs_expand_inv node st :
  bfs_inv st → node ∈ bfs_visited st →
  bfs_inv (bfs_expand adj node st) ∧
  bfs_measure (bfs_expand adj node st) = bfs_measure st ∧
  bfs_visited st ⊆ bfs_visited (bfs_expand adj node st) ∧
  (∀ w, adj_rel adj node w → w ∈ bfs_visited (bfs_expand adj node st)) ∧
  (∀ q, q ∈ bfs_visited (bfs_expand adj node st) →
        q ∈ bfs_visited st ∨ q ∈ bfs_queue (bfs_expand adj node st)) ∧
  (∀ q, q ∈ bfs_queue st → q ∈ bfs_queue (bfs_expand adj node st)).
Proof.
  intros Hinv Hnode. unfold bfs_expand.
  assert (∀ w, adj_rel adj node w ↔ w ∈ default [] (adj !! node)) as Hadj by done.
  destruct (adj !! node) as [ns|]; simpl in *;
    [|by split_and!; [..|set_solver|naive_solver|]].
  assert (∀ w, w ∈ ns → adj_rel adj node w) as Hns by naive_solver.
  setoid_rewrite Hadj. clear Hadj.
  revert st Hinv Hnode. induction ns as [|x ns IH]; intros st Hinv Hnode; simpl.
  { split_and!; naive_solver set_solver. }
  destruct (bfs_visit_inv node x st) as [Hinv' Hm]; [done..|apply Hns; left|].
  assert (bfs_visited st ⊆ bfs_visited (bfs_visit node x st) ∧
          x ∈ bfs_visited (bfs_visit node x st) ∧
          (∀ q, q ∈ bfs_visited (bfs_visit node x st) →
                q ∈ bfs_visited st ∨ q ∈ bfs_queue (bfs_visit node x st)) ∧
          (∀ q, q ∈ bfs_queue st → q ∈ bfs_queue (bfs_visit node x st)))
    as (Hsub&Hx&Hq&Hqq).
  { unfold bfs_visit. case_decide; simpl; set_solver. }
  destruct (IH (λ w Hw, Hns w (proj2 (elem_of_cons _ _ _) (or_intror Hw)))
               _ Hinv' (Hsub _ Hnode)) as (H1&H2&H3&H4&H5&H6).
  split_and!; [done|lia|set_solver| | |set_solver].
  - intros w [->|Hw]%elem_of_cons; [set_solver|auto].
  - intros q [Hq'|?]%H5; [|by right]. destruct (Hq _ Hq') as [|?]; [by left|].
    right. by apply H6.
Qed.

Context (target : string).

(** Every processed node was not the target and has only visited neighbours. *)
Definition bfs_closed (st : bfs_state) : Prop :=
  ∀ u, u ∈ bfs_visited st → u ∉ bfs_queue st →
       u ≠ target ∧ ∀ w, adj_rel adj u w → w ∈ bfs_visited st.

Lemma bfs_closed_unreachable st :
  bfs_inv st → bfs_closed st → bfs_queue st = [] → ¬ rtc (adj_rel adj) start target.
Proof.
  intros Hinv Hcl Hq Hr.
  assert (∀ v, rtc (adj_rel adj) start v → v ∈ bfs_visited st) as Hall.
  { apply rtc_ind_r; [apply Hinv|]. intros v w _ Hstep IH.
    destruct (Hcl v IH) as [_ Hw]; [rewrite Hq; apply not_elem_of_nil|auto]. }
  destruct (Hcl target (Hall _ Hr)) as [Hne _]; [rewrite Hq; apply not_elem_of_nil|done].
Qed.

Lemma bfs_loop_spec fuel st :
  bfs_inv st → bfs_closed st → bfs_measure st < fuel →
  match bfs_loop fuel adj target st with
  | (true, P) => ∃ n l, n ≤ size P ∧ rooted P target n l ∧
                        is_path (adj_rel adj) start l target
  | (false, _) => ¬ rtc (adj_rel adj) start target
  end.
Proof.
  revert st; induction fuel as [|fuel IH]; intros st Hinv Hcl Hm; [lia|].
  simpl. destruct (bfs_queue st) as [|node q] eqn:Hq.
  { by eapply bfs_closed_unreachable. }
  assert (node ∈ bfs_visited st) as Hnode by (apply Hinv; rewrite Hq; left).
  destruct (decide (node = target)) as [->|Hne].
  - destruct (inv_tree _ Hinv _ Hnode) as (n&l&Hn&Hr).
    exists n, l. split_and!; [done..|]. eapply rooted_path; [apply Hinv|done].
  - set (st1 := mkBfs (bfs_visited st) (bfs_parent st) q).
    assert (bfs_inv st1) as Hinv1.
    { destruct Hinv; split; simpl; try done. intros x ?. apply inv_queue0.
      rewrite Hq. by right. }
    destruct (bfs_expand_inv node st1) as (H1&H2&H3&H4&H5&H6); [done..|].
    apply IH; [done| |].
    + intros u Hu Hnq. destruct (decide (u = node)) as [->|Hun].
      { split; [done|auto]. }
      destruct (H5 u Hu) as [Hu'|?]; [|done].
      destruct (Hcl u Hu') as [? Hw].
      { rewrite Hq. intros [?|?]%elem_of_cons; [done|]. by apply Hnq, H6. }
      split; [done|]. intros w ?. apply H3. by apply Hw.
    + rewrite H2. unfold bfs_measure in *; simpl. rewrite Hq in Hm. simpl in Hm. lia.
Qed.

Lemma bfs_init_inv : bfs_inv (bfs_init start) ∧ bfs_closed (bfs_init start).
Proof.
  split; [split; simpl|].
  - set_solver.
  - set_solver.
  - unfold universe. set_solver.
  - apply lookup_empty.
  - intros c p. by rewrite lookup_empty.
  - intros c p. by rewrite lookup_empty.
  - intros v ->%elem_of_singleton. exists 0, [start]. split; [lia|].
    constructor. apply lookup_empty.
  - intros u. simpl. set_solver.
Qed.

Lemma bfs_fuel_enough : bfs_measure (bfs_init start) < bfs_fuel adj.
Proof.
  unfold bfs_measure, bfs_fuel, bfs_init, universe; simpl.
  set (L := mjoin (map_to_list adj).*2).
  assert (size (({[start]} ∪ list_to_set L) ∖ {[start]} : gset string) ≤ length L); [|lia].
  etrans; [apply (subseteq_size _ (list_to_set L)); set_solver|].
  apply size_list_to_set_le.
Qed.

(** The search decides reachability, and what it returns is a path of the
    graph. *)
Lemma bfs_witness_spec :
  match bfs_witness adj start target with
  | Some p => is_path (adj_rel adj) start p target
  | None => ¬ rtc (adj_rel adj) start target
  end.
Proof.
  unfold bfs_witness. destruct bfs_init_inv as [Hinv Hcl].
  pose proof (bfs_loop_spec _ _ Hinv Hcl bfs_fuel_enough) as Hl.
  destruct (bfs_loop _ _ _ _) as [[] P]; [|done].
  destruct Hl as (n&l&Hn&Hr&Hp). erewrite rooted_trace by done.
  by rewrite reverse_involutive.
Qed.

Lemma bfs_witness_none :
  bfs_witness adj start target = None ↔ ¬ rtc (adj_rel adj) start target.
Proof.
  pose proof bfs_witness_spec as H. destruct (bfs_witness _ _ _); [|done].
  split; [done|]. intros Hn. exfalso. by eapply Hn, is_path_rtc.
Qed.
End bfs.

(** ** The dominator checks *)

Record DominatorViolation := mkDominatorViolation {
  dv_task_id : string;
  dv_gate_edge_id : string;
  dv_bypass_path : list string
}.

(** The adjacency with the gate's hyperedge removed. *)
Definition adjacency_minus_gate (graph : TaskGraph) (gate_edge_id : string)
    : gmap string (list string) :=
  build_adjacency edge_sources edge_targets
    (λ e, negb (bool_decide (edge_id e = gate_edge_id))) (λ _, true) (graph_edges graph).

Definition validate_dominates (graph : TaskGraph) (task_id gate_edge_id : string)
    : result unit DominatorViolation :=
  if negb (existsb (λ e, bool_decide (edge_id e = gate_edge_id)) (graph_edges graph))
  then Err (mkDominatorViolation task_id gate_edge_id [])
  else
    match bfs_witness (adjacency_minus_gate graph gate_edge_id) (graph_start graph) task_id with
    | None => Ok ()
    | Some bypass_path => Err (mkDominatorViolation task_id gate_edge_id bypass_path)
    end.

(** The adjacency that does not leave the ancestor. *)
Definition adjacency_not_through (graph : TaskGraph) (ancestor_task : string)
    : gmap string (list string) :=
  build_adjacency edge_sources edge_targets
    (λ _, true) (λ src, negb (bool_decide (src = ancestor_task))) (graph_edges graph).

Definition validate_task_dominates (graph : TaskGraph) (ancestor_task descendant_task : string)
    : result unit DominatorViolation :=
  if bool_decide (ancestor_task = descendant_task) then Ok ()
  else
    match bfs_witness (adjacency_not_through graph ancestor_task) (graph_start graph)
            descendant_task with
    | None => Ok ()
    | Some bypass_path => Err (mkDominatorViolation descendant_task ancestor_task bypass_path)
    end.

(** ** What domination means

    A walk of a task graph as the list of hyperedges it rides. *)

Inductive edge_walk (g : TaskGraph) : string → list Edge → string → Prop :=
| walk_nil u : edge_walk g u [] u
| walk_cons u e v es w :
    e ∈ graph_edges g → u ∈ edge_sources e → v ∈ edge_targets e →
    edge_walk g v es w → edge_walk g u (e :: es) w.

(** One step along any hyperedge of the graph. *)
Definition graph_rel (g : TaskGraph) (u v : string) : Prop :=
  ∃ e, e ∈ graph_edges g ∧ u ∈ edge_sources e ∧ v ∈ edge_targets e.

(** A gate's edge dominates a task: it exists and every walk from [start] to the
    task rides it. *)
Definition gate_dominates (g : TaskGraph) (gate_edge task : string) : Prop :=
  (∃ e, e ∈ graph_edges g ∧ edge_id e = gate_edge) ∧
  ∀ es, edge_walk g (graph_start g) es task → ∃ e, e ∈ es ∧ edge_id e = gate_edge.

(** A task dominates a task: every walk from [start] to it goes through it. *)
Definition task_dominates (g : TaskGraph) (a d : string) : Prop :=
  ∀ p, is_path (graph_rel g) (graph_start g) p d → a ∈ p.

Section dominators.
Context (g : TaskGraph).

Lemma adj_minus_gate_rel gid u v :
  adj_rel (adjacency_minus_gate g gid) u v ↔
  ∃ e, e ∈ graph_edges g ∧ edge_id e ≠ gid ∧ u ∈ edge_sources e ∧ v ∈ edge_targets e.
Proof.
  unfold adj_rel, adjacency_minus_gate. rewrite elem_of_build_adjacency.
  split.
  - intros (e&?&Hk%negb_true_iff%bool_decide_eq_false&_&?&?). eauto 10.
  - intros (e&?&Hk&?&?). exists e. rewrite bool_decide_eq_false_2 by done. done.
Qed.

Lemma adj_not_through_rel a u v :
  adj_rel (adjacency_not_through g a) u v ↔ u ≠ a ∧ graph_rel g u v.
Proof.
  unfold adj_rel, adjacency_not_through, graph_rel. rewrite elem_of_build_adjacency.
  split.
  - intros (e&?&_&Hk%negb_true_iff%bool_decide_eq_false&?&?). eauto 10.
  - intros (Hk&e&?&?&?). exists e. rewrite bool_decide_eq_false_2 by done. done.
Qed.

Lemma minus_gate_walk gid u v :
  rtc (adj_rel (adjacency_minus_gate g gid)) u v ↔
  ∃ es, edge_walk g u es v ∧ ∀ e, e ∈ es → edge_id e ≠ gid.
Proof.
  split.
  - induction 1 as [u|u w v Huw _ (es&Hw&Hid)].
    { exists []. split; [constructor|]. by intros e ?%elem_of_nil. }
    apply adj_minus_gate_rel in Huw as (e&He&Hne&Hu&Hw').
    exists (e :: es). split; [by econstructor|].
    intros e' [->|?]%elem_of_cons; auto.
  - intros (es&Hw&Hid). induction Hw as [u|u e v es w He Hu Hv Hw IH]; [done|].
    econstructor; [|apply IH; intros; apply Hid; by right].
    apply adj_minus_gate_rel. exists e. split_and!; [done| |done..]. apply Hid. left.
Qed.

Lemma not_through_path a d p :
  a ≠ d → is_path (graph_rel g) (graph_start g) p d →
  a ∉ p ↔ is_path (adj_rel (adjacency_not_through g a)) (graph_start g) p d ∧ a ∉ p.
Proof.
  intros Hne Hp. split; [|naive_solver]. intros Ha. split; [|done].
  revert Hp Ha. generalize (graph_start g) as s.
  induction p as [|x [|y p] IH]; intros s; [done|done|].
  intros (->&HR&Hp) [Hax Ha]%not_elem_of_cons. simpl. split_and!; [done| |].
  - apply adj_not_through_rel. split; [congruence|done].
  - by apply IH.
Qed.

(** A walk that only leaves nodes other than [a] and ends elsewhere avoids [a]. *)
Lemma not_through_avoids a d s p :
  a ≠ d → is_path (adj_rel (adjacency_not_through g a)) s p d → a ∉ p.
Proof.
  intros Hne. revert s. induction p as [|x [|y p] IH]; intros s; [done| |].
  - intros [-> ->]. rewrite list_elem_of_singleton. congruence.
  - intros (->&HR%adj_not_through_rel&Hp). apply not_elem_of_cons. split; [naive_solver|].
    by eapply IH.
Qed.
End dominators.

Lemma validate_dominates_ok (g : TaskGraph) (task gate_edge : string) :
  validate_dominates g task gate_edge = Ok () ↔ gate_dominates g gate_edge task.
Proof.
  unfold validate_dominates, gate_dominates.
  destruct (existsb _ _) eqn:Hex; simpl.
  - assert (∃ e, e ∈ graph_edges g ∧ edge_id e = gate_edge) as He.
    { apply existsb_exists in Hex as (e&?%list_elem_of_In&?%bool_decide_eq_true). eauto. }
    destruct (bfs_witness _ _ _) as [p|] eqn:Hb.
    + split; [done|]. intros [_ Hdom].
      pose proof (bfs_witness_spec (adjacency_minus_gate g gate_edge) (graph_start g) task) as Hs.
      rewrite Hb in Hs. apply is_path_rtc, minus_gate_walk in Hs as (es&Hw&Hid).
      destruct (Hdom _ Hw) as (e&?&?). exfalso. by eapply Hid.
    + apply bfs_witness_none in Hb. split; [|done]. intros _. split; [done|].
      intros es Hw. destruct (Exists_dec (λ e, edge_id e = gate_edge) es) as [Hx|Hx].
      { by apply Exists_exists in Hx. }
      exfalso. apply Hb, minus_gate_walk. exists es. split; [done|].
      intros e He' Hid. apply Hx, Exists_exists. eauto.
  - split; [done|]. intros [(e&He&Hid) _]. exfalso.
    assert (existsb (λ e, bool_decide (edge_id e = gate_edge)) (graph_edges g) = true);
      [|congruence].
    apply existsb_exists. exists e. rewrite <-list_elem_of_In, bool_decide_eq_true. done.
Qed.

(** C3: [validate_dominates] accepts exactly when the gate's edge dominates the
    task, that is when the edge exists and every walk from the graph's start to
    the task rides it. *)
Theorem validate_dominates_correct (g : TaskGraph) (task gate_edge : string) :
  validate_dominates g task gate_edge = Ok () ↔ gate_dominates g gate_edge task.
Proof. apply validate_dominates_ok. Qed.

Lemma validate_task_dominates_ok (g : TaskGraph) (ancestor descendant : string) :
  validate_task_dominates g ancestor descendant = Ok () ↔
  task_dominates g ancestor descendant.
Proof.
  unfold validate_task_dominates, task_dominates. case_bool_decide as Heq.
  { subst. split; [|done]. intros _ p Hp. by apply is_path_ends in Hp as [_ ?]. }
  pose proof (bfs_witness_spec (adjacency_not_through g ancestor) (graph_start g) descendant)
    as Hs.
  destruct (bfs_witness _ _ _) as [p|].
  - split; [done|]. intros Hdom. exfalso.
    apply (not_through_avoids _ _ _ _ _ Heq Hs), Hdom.
    eapply is_path_impl; [|done]. intros x y Hxy%adj_not_through_rel. naive_solver.
  - split; [|done]. intros _ p Hp.
    destruct (decide (ancestor ∈ p)) as [|Hn]; [done|]. exfalso.
    apply Hs. eapply is_path_rtc. by apply (not_through_path _ _ _ _ Heq Hp).
Qed.

(** [validate_task_dominates] accepts exactly when every walk from the
    graph's start to the descendant goes through the ancestor. *)
Theorem validate_task_dominates_correct (g : TaskGraph) (ancestor descendant : string) :
  validate_task_dominates g ancestor descendant = Ok () ↔
  task_dominates g ancestor descendant.
Proof. apply validate_task_dominates_ok. Qed.

(** A rejected dominator check names a real bypass: when the gate's edge is
    in the graph, the reported path is a walk from the start to the task none of
    whose hops needs the gate's edge. *)
Theorem dominator_violation_is_bypass (g : TaskGraph) (task gate_edge : string)
    (v : DominatorViolation) :
  (∃ e, e ∈ graph_edges g ∧ edge_id e = gate_edge) →
  validate_dominates g task gate_edge = Err v →
  dv_task_id v = task ∧ dv_gate_edge_id v = gate_edge ∧
  is_path (λ x y, ∃ e, e ∈ graph_edges g ∧ edge_id e ≠ gate_edge ∧
                       x ∈ edge_sources e ∧ y ∈ edge_targets e)
    (graph_start g) (dv_bypass_path v) task.
Proof.
  intros (e&He&Hid). unfold validate_dominates.
  assert (existsb (λ e, bool_decide (edge_id e = gate_edge)) (graph_edges g) = true) as ->.
  { apply existsb_exists. exists e. rewrite <-list_elem_of_In, bool_decide_eq_true. done. }
  simpl.
  pose proof (bfs_witness_spec (adjacency_minus_gate g gate_edge) (graph_start g) task) as Hs.
  destruct (bfs_witness _ _ _) as [p|]; [|done]. intros [= <-]. simpl.
  split_and!; [done..|]. eapply is_path_impl; [|done]. intros x y. apply adj_minus_gate_rel.
Qed.

(** A diamond [s -> a -> t], [s -> b -> t] whose first branch carries the gate. *)
Definition diamond : TaskGraph :=
  mkTaskGraph []
    [mkEdge "gate" ["s"] ["a"] 0 []; mkEdge "e1" ["s"] ["b"] 0 [];
     mkEdge "e2" ["a"] ["t"] 0 []; mkEdge "e3" ["b"] ["t"] 0 []] "s" "t".

Lemma dominator_violation_witness :
  validate_dominates diamond "t" "gate" = Err (mkDominatorViolation "t" "gate" ["s"; "b"; "t"]) ∧
  is_path (λ x y, ∃ e, e ∈ graph_edges diamond ∧ edge_id e ≠ "gate" ∧
                       x ∈ edge_sources e ∧ y ∈ edge_targets e)
    (graph_start diamond) ["s"; "b"; "t"] "t".
Proof.
  split; [reflexivity|].
  apply (dominator_violation_is_bypass diamond "t" "gate"
           (mkDominatorViolation "t" "gate" ["s"; "b"; "t"])).
  - exists (mkEdge "gate" ["s"] ["a"] 0 []). split; [left|reflexivity].
  - vm_compute. reflexivity.
Defined.
