(* ===== verification/LoopBodies.v ===== *)
(** * Loop bodies

    [definition_graph.rs]: [loop_sccs], the iterative Tarjan search for the
    strongly-connected components of the [kind = loop] subgraph.  The state of
    the search is a record with the source's variables; [tarjan_step] is one
    turn of the [while] loop.  A missing map entry or an empty stack, where the
    source would panic, is [None]; so is running out of fuel.
    [loop_sccs_classes] of [TarjanInvariant] shows that neither happens and that
    the result is exactly the set of cyclic components. *)

From S2P Require Import Prelude Workflow.

Local Open Scope nat_scope.

(** ** The loop subgraph *)

Definition is_loop_edge (e : Edge) : bool := (edge_kind e =? EdgeKind_i32 EdgeKind_Loop)%Z.

Definition loop_adjacency (graph : TaskGraph) : gmap string (list string) :=
  build_adjacency edge_sources edge_targets is_loop_edge (λ _, true) (graph_edges graph).

Definition has_loop_self_edge (graph : TaskGraph) (node : string) : bool :=
  existsb (λ e, is_loop_edge e && bool_decide (node ∈ edge_sources e)
                && bool_decide (node ∈ edge_targets e)) (graph_edges graph).

(** ** The search *)

Record Frame := mkFrame { fr_node : string; fr_next : nat }.

(** [stack] and [frames] are Rust vectors used as stacks; here the top is the
    head of the list. *)
Record tarjan := mkTarjan {
  tj_index : gmap string nat;
  tj_low : gmap string nat;
  tj_on : gset string;
  tj_stack : list string;
  tj_next : nat;
  tj_sccs : list (gset string);
  tj_frames : list Frame
}.

Definition tarjan_empty : tarjan := mkTarjan ∅ ∅ ∅ [] 0 [] [].

(** A node met for the first time: the same seven statements for a root and for
    a child. *)
Definition discover (v : string) (st : tarjan) : tarjan :=
  mkTarjan (<[v := tj_next st]> (tj_index st)) (<[v := tj_next st]> (tj_low st))
    ({[v]} ∪ tj_on st) (v :: tj_stack st) (S (tj_next st)) (tj_sccs st)
    (mkFrame v 0 :: tj_frames st).

Definition set_low (v : string) (n : nat) (st : tarjan) : tarjan :=
  mkTarjan (tj_index st) (<[v := n]> (tj_low st)) (tj_on st) (tj_stack st)
    (tj_next st) (tj_sccs st) (tj_frames st).

Definition set_frames (F : list Frame) (st : tarjan) : tarjan :=
  mkTarjan (tj_index st) (tj_low st) (tj_on st) (tj_stack st)
    (tj_next st) (tj_sccs st) F.

(** [loop { w = stack.pop(); on_stack.remove; component.insert; if w == node break }] *)
Fixpoint pop_component (node : string) (stack : list string) (on comp : gset string)
    : option (list string * gset string * gset string) :=
  match stack with
  | [] => None
  | w :: stack' =>
      let on := on ∖ {[w]} in
      let comp := {[w]} ∪ comp in
      if decide (w = node) then Some (stack', on, comp)
      else pop_component node stack' on comp
  end.

Section search.
Context (adj : gmap string (list string)) (self_edge : string → bool).

Definition is_loop_body (comp : gset string) : bool :=
  (1 <? size comp) ||
  match elements comp with n :: _ => self_edge n | [] => false end.

(** The component rooted at a finished node, when the node is a root. *)
Definition close_component (node : string) (st : tarjan) : option tarjan :=
  l ← tj_low st !! node; i ← tj_index st !! node;
  if decide (l = i) then
    '(stack, on, comp) ← pop_component node (tj_stack st) (tj_on st) ∅;
    Some (mkTarjan (tj_index st) (tj_low st) on stack (tj_next st)
            (if is_loop_body comp then tj_sccs st ++ [comp] else tj_sccs st)
            (tj_frames st))
  else Some st.

(** [if let Some(parent) = frames.last()]: the parent inherits the low-link. *)
Definition inherit_low (node : string) (st : tarjan) : option tarjan :=
  match tj_frames st with
  | [] => Some st
  | parent :: _ =>
      child_low ← tj_low st !! node; cur ← tj_low st !! fr_node parent;
      Some (set_low (fr_node parent) (cur `min` child_low) st)
  end.

(** One turn of [while let Some(frame) = frames.last_mut()]. *)
Definition tarjan_step (st : tarjan) : option tarjan :=
  match tj_frames st with
  | [] => Some st
  | f :: rest =>
      let node := fr_node f in
      match bucket adj node !! fr_next f with
      | Some child =>
          let st' := set_frames (mkFrame node (S (fr_next f)) :: rest) st in
          match tj_index st !! child with
          | None => Some (discover child st')
          | Some child_index =>
              if decide (child ∈ tj_on st) then
                cur ← tj_low st !! node;
                Some (set_low node (cur `min` child_index) st')
              else Some st'
          end
      | None =>
          st' ← close_component node st;
          inherit_low node (set_frames rest st')
      end
  end.

Fixpoint tarjan_loop (fuel : nat) (st : tarjan) : option tarjan :=
  match tj_frames st, fuel with
  | [], _ => Some st
  | _, 0 => None
  | _, S n => st' ← tarjan_step st; tarjan_loop n st'
  end.

(** [for root in &nodes]: skip a root that has an index. *)
Definition tarjan_root (fuel : nat) (st : tarjan) (root : string) : option tarjan :=
  match tj_index st !! root with
  | Some _ => Some st
  | None => tarjan_loop fuel (discover root st)
  end.

Fixpoint tarjan_roots (fuel : nat) (roots : list string) (st : tarjan) : option tarjan :=
  match roots with
  | [] => Some st
  | r :: roots' => st' ← tarjan_root fuel st r; tarjan_roots fuel roots' st'
  end.
End search.

(** Every node of the loop subgraph, sorted and without repetitions. *)
Definition loop_nodes (adj : gmap string (list string)) : list string :=
  dedup (sort_strings ((map_to_list adj).*1 ++ mjoin (map_to_list adj).*2)).

Definition tarjan_fuel (adj : gmap string (list string)) : nat :=
  sum_over (λ v, S (length (bucket adj v))) (loop_nodes adj).

Definition loop_sccs_opt (graph : TaskGraph) : option (list (gset string)) :=
  let adj := loop_adjacency graph in
  st ← tarjan_roots adj (has_loop_self_edge graph) (tarjan_fuel adj) (loop_nodes adj)
         tarjan_empty;
  Some (tj_sccs st).

Definition loop_sccs (graph : TaskGraph) : list (gset string) :=
  default [] (loop_sccs_opt graph).

Definition two_loops : TaskGraph :=
  mkTaskGraph []
    [mkEdge "1" ["a"] ["b"] 2 []; mkEdge "2" ["b"] ["c"] 2 []; mkEdge "3" ["c"] ["a"] 2 [];
     mkEdge "4" ["c"] ["d"] 2 []; mkEdge "5" ["d"] ["e"] 2 []; mkEdge "6" ["e"] ["e"] 2 [];
     mkEdge "7" ["e"] ["z"] 0 []] "s" "t".

Example two_loops_sccs :
  elements <$> loop_sccs two_loops = [["e"]; elements ({["a"; "b"; "c"]} : gset string)].
Proof. vm_compute. reflexivity. Qed.

(** The search only looks at the values of the self-edge test. *)
Section search_ext.
Context (adj : gmap string (list string)) (self self' : string → bool).
Hypothesis self_ext : ∀ v, self v = self' v.

Lemma is_loop_body_ext c : is_loop_body self c = is_loop_body self' c.
Proof. unfold is_loop_body. destruct (elements c); [done|]. by rewrite self_ext. Qed.

Lemma close_component_ext node st :
  close_component self node st = close_component self' node st.
Proof.
  unfold close_component. destruct (tj_low st !! node), (tj_index st !! node); simpl; try done.
  case_decide; [|done]. destruct (pop_component _ _ _ _) as [[[??]?]|]; [|done].
  simpl. by rewrite is_loop_body_ext.
Qed.

Lemma tarjan_loop_ext fuel st : tarjan_loop adj self fuel st = tarjan_loop adj self' fuel st.
Proof.
  revert st; induction fuel as [|fuel IH]; intros st; simpl; [done|].
  assert (tarjan_step adj self st = tarjan_step adj self' st) as ->.
  { unfold tarjan_step. destruct (tj_frames st); [done|]. by rewrite close_component_ext. }
  destruct (tj_frames st); [done|].
  destruct (tarjan_step adj self' st) as [st'|]; [apply IH|done].
Qed.

Lemma tarjan_roots_ext fuel roots st :
  tarjan_roots adj self fuel roots st = tarjan_roots adj self' fuel roots st.
Proof.
  revert st; induction roots as [|r roots IH]; intros st; simpl; [done|].
  unfold tarjan_root. rewrite tarjan_loop_ext.
  destruct (tj_index st !! r); simpl; [apply IH|].
  destruct (tarjan_loop _ _ _ _); simpl; [apply IH|done].
Qed.
End search_ext.

(** Loop bodies only depend on the [Loop] edges. *)
Lemma loop_sccs_app graph es :
  Forall (λ e, is_loop_edge e = false) es →
  loop_sccs (mkTaskGraph (graph_nodes graph) (graph_edges graph ++ es)
               (graph_start graph) (graph_end graph)) = loop_sccs graph.
Proof.
  intros Hes. unfold loop_sccs, loop_sccs_opt.
  assert (loop_adjacency (mkTaskGraph (graph_nodes graph) (graph_edges graph ++ es)
            (graph_start graph) (graph_end graph)) = loop_adjacency graph) as ->.
  { unfold loop_adjacency, build_adjacency. simpl. rewrite foldl_app.
    generalize (foldl (λ adj e, if is_loop_edge e
      then push_edge edge_sources edge_targets (λ _, true) e adj else adj) ∅ (graph_edges graph)).
    induction Hes as [|e es He Hes IH]; intros a; simpl; [done|]. by rewrite He. }
  erewrite tarjan_roots_ext; [done|].
  intros v. unfold has_loop_self_edge. simpl. rewrite existsb_app.
  enough (existsb (λ e, is_loop_edge e && bool_decide (v ∈ edge_sources e)
            && bool_decide (v ∈ edge_targets e)) es = false) as -> by apply orb_false_r.
  induction Hes as [|e es He Hes IH]; simpl; [done|]. by rewrite He, IH.
Qed.
