(* ===== verification/TarjanInvariant.v ===== *)
(** * Correctness of the loop-body search

    The invariant of the iterative Tarjan search of [LoopBodies] and its
    preservation by every turn of the loop.  The stack is split into one segment
    per open frame: the segment of a frame holds the nodes discovered since the
    frame was opened and not under a later frame, and ends with the frame's own
    node.  Closing a component drops the top segment; finishing a node that is
    not a root merges its segment into its parent's. *)

From S2P Require Import Prelude Workflow LoopBodies.

Local Open Scope nat_scope.

Lemma StronglySorted_impl_in {A} (R R' : relation A) l :
  (∀ x y, x ∈ l → y ∈ l → R x y → R' x y) → StronglySorted R l → StronglySorted R' l.
Proof.
  intros HR Hl. induction Hl as [|x l Hl IH Hx]; constructor.
  - apply IH. intros y z ??. apply HR; by right.
  - rewrite Forall_forall in Hx |- *. intros y Hy. apply HR; [left|by right|auto].
Qed.

Lemma StronglySorted_app_inv {A} (R : relation A) l1 l2 :
  StronglySorted R (l1 ++ l2) →
  StronglySorted R l1 ∧ StronglySorted R l2 ∧ ∀ x y, x ∈ l1 → y ∈ l2 → R x y.
Proof.
  induction l1 as [|x l1 IH]; simpl.
  - intros ?. split_and!; [constructor|done|]. by intros ?? ?%elem_of_nil.
  - inversion 1 as [|?? Hl Hx]; subst. destruct (IH Hl) as (?&?&?).
    rewrite Forall_app, !Forall_forall in Hx. destruct Hx as [Hx1 Hx2].
    split_and!; [|done|].
    + constructor; [done|]. by rewrite Forall_forall.
    + intros y z [->|?]%elem_of_cons; auto.
Qed.

(** In a descending list the last element is the least. *)
Lemma sorted_last_least {A} (f : A → nat) l x y :
  StronglySorted (λ u v, f v < f u) l → last l = Some x → y ∈ l → f x ≤ f y.
Proof.
  intros Hs Hl Hy. apply last_Some in Hl as [l' ->].
  apply StronglySorted_app_inv in Hs as (_&_&Hs).
  apply elem_of_app in Hy as [Hy|Hy%list_elem_of_singleton]; [|by subst].
  apply Nat.lt_le_incl, Hs; [done|left].
Qed.

Lemma sorted_f_inj {A} (f : A → nat) l x y :
  StronglySorted (λ u v, f v < f u) l → x ∈ l → y ∈ l → f x = f y → x = y.
Proof.
  induction 1 as [|z l Hl IH Hz]; [by intros ?%elem_of_nil|].
  rewrite Forall_forall in Hz.
  intros [->|Hx]%elem_of_cons [->|Hy]%elem_of_cons Hf; [done|..|by apply IH].
  - specialize (Hz _ Hy). lia.
  - specialize (Hz _ Hx). lia.
Qed.

Section invariant.
Context (adj : gmap string (list string)).

Abbreviation R := (adj_rel adj).
Abbreviation succ := (bucket adj).

Implicit Types (I L : gmap string nat) (F : list Frame) (segs : list (list string)).

Definition num (I : gmap string nat) (v : string) : nat := default 0 (I !! v).

(** The edges the search has looked at: all of a node without a frame, the
    first [fr_next] of a node with one. *)
Definition processed (F : list Frame) (u v : string) : Prop :=
  R u v ∧ ∀ f, f ∈ F → fr_node f = u → v ∈ take (fr_next f) (succ u).

Definition seg_of (f : Frame) (seg : list string) : Prop := last seg = Some (fr_node f).

(** The low-link of a frame bounds every processed edge of its segment that
    stays on the stack. *)
Definition low_bound (I L : gmap string nat) (S : list string) (F : list Frame)
    (f : Frame) (seg : list string) : Prop :=
  ∀ x y, x ∈ seg → processed F x y → y ∈ S → num L (fr_node f) ≤ num I y.

Record tinv (I L : gmap string nat) (S : list string) (n : nat) (F : list Frame)
    (segs : list (list string)) : Prop := {
  t_segs : Forall2 seg_of F segs;
  t_stack : mjoin segs = S;
  t_low_dom v : is_Some (L !! v) ↔ is_Some (I !! v);
  t_disc v : v ∈ S → is_Some (I !! v);
  t_lt v i : I !! v = Some i → i < n;
  t_sorted : StronglySorted (λ u v, num I v < num I u) S;
  t_closed u v : is_Some (I !! u) → u ∉ S → R u v → is_Some (I !! v) ∧ v ∉ S;
  t_proc u v : is_Some (I !! u) → processed F u v → is_Some (I !! v);
  t_down f v : f ∈ F → v ∈ S → num I (fr_node f) ≤ num I v → rtc R (fr_node f) v;
  t_up v : v ∈ S → ∃ f, f ∈ F ∧ num I (fr_node f) ≤ num I v ∧ rtc R v (fr_node f);
  t_low v : v ∈ S → ∃ x, x ∈ S ∧ num L v = num I x ∧ num I x ≤ num I v ∧ rtc R v x;
  t_bound k f seg : F !! k = Some f → segs !! k = Some seg → low_bound I L S F f seg
}.

Arguments t_segs {I L S n F segs} _.
Arguments t_stack {I L S n F segs} _.
Arguments t_low_dom {I L S n F segs} _ v.
Arguments t_disc {I L S n F segs} _ v _.
Arguments t_lt {I L S n F segs} _ v i _.
Arguments t_sorted {I L S n F segs} _.
Arguments t_closed {I L S n F segs} _ u v _ _ _.
Arguments t_proc {I L S n F segs} _ u v _ _.
Arguments t_down {I L S n F segs} _ f v _ _ _.
Arguments t_up {I L S n F segs} _ v _.
Arguments t_low {I L S n F segs} _ v _.
Arguments t_bound {I L S n F segs} _ k f seg _ _.

Lemma tinv_num_lt I L S n F segs v : tinv I L S n F segs → v ∈ S → num I v < n.
Proof.
  intros Ht Hv. destruct (t_disc Ht v Hv) as [i Hi].
  unfold num. rewrite Hi. by eapply t_lt.
Qed.

Lemma seg_in_stack (segs : list (list string)) (seg : list string) x : seg ∈ segs → x ∈ seg → x ∈ mjoin segs.
Proof. intros. apply list_elem_of_join. eauto. Qed.

Lemma frame_has_seg F segs f :
  Forall2 seg_of F segs → f ∈ F → ∃ seg, seg ∈ segs ∧ fr_node f ∈ seg.
Proof.
  induction 1 as [|f' seg F segs Hs _ IH]; [by intros ?%elem_of_nil|].
  intros [->|Hf]%elem_of_cons.
  - exists seg. split; [left|]. apply last_Some in Hs as [l ->]. set_solver.
  - destruct (IH Hf) as (s&?&?). exists s. split; [by right|done].
Qed.

Lemma frame_in_stack I L S n F segs f : tinv I L S n F segs → f ∈ F → fr_node f ∈ S.
Proof.
  intros Ht Hf. destruct (frame_has_seg _ _ _ (t_segs Ht) Hf) as (seg&?&?).
  rewrite <-(t_stack Ht). by eapply seg_in_stack.
Qed.

(** Below the top segment every index is smaller than the top frame's. *)
Lemma below_top I L S n f F seg segs x :
  tinv I L S n (f :: F) (seg :: segs) → x ∈ mjoin segs → num I x < num I (fr_node f).
Proof.
  intros Ht Hx. pose proof (t_sorted Ht) as Hs.
  rewrite <-(t_stack Ht) in Hs. simpl in Hs.
  apply StronglySorted_app_inv in Hs as (_&_&Hs). apply Hs; [|done].
  pose proof (t_segs Ht) as Hsg. inversion Hsg as [|???? Hl _]; subst.
  apply last_Some in Hl as [l ->]. set_solver.
Qed.

Lemma in_top_seg I L S n f F seg segs x :
  tinv I L S n (f :: F) (seg :: segs) → x ∈ seg → num I (fr_node f) ≤ num I x.
Proof.
  intros Ht Hx. pose proof (t_sorted Ht) as Hs.
  rewrite <-(t_stack Ht) in Hs. simpl in Hs.
  apply StronglySorted_app_inv in Hs as (Hs&_&_).
  pose proof (t_segs Ht) as Hsg. inversion Hsg as [|???? Hl _]; subst.
  by eapply sorted_last_least.
Qed.

(** Frames below the top have other nodes than the top. *)
Lemma lower_frame_num I L S n f F seg segs f' :
  tinv I L S n (f :: F) (seg :: segs) → f' ∈ F → num I (fr_node f') < num I (fr_node f).
Proof.
  intros Ht Hf'. eapply below_top; [done|].
  pose proof (t_segs Ht) as Hsg. inversion Hsg as [|???? _ Hr]; subst.
  destruct (frame_has_seg _ _ _ Hr Hf') as (s&?&?). by eapply seg_in_stack.
Qed.

Lemma frame_reaches_top I L S n f F seg segs f' :
  tinv I L S n (f :: F) (seg :: segs) → f' ∈ f :: F → rtc R (fr_node f') (fr_node f).
Proof.
  intros Ht Hf'. eapply t_down; [done..| |].
  - eapply frame_in_stack; [done|left].
  - apply elem_of_cons in Hf' as [->|Hf']; [done|].
    apply Nat.lt_le_incl. by eapply lower_frame_num.
Qed.

(** ** Looking at the next child *)

(** What moving the top frame's cursor past [child] adds. *)
Lemma processed_advance f F child u v :
  succ (fr_node f) !! fr_next f = Some child →
  processed (mkFrame (fr_node f) (S (fr_next f)) :: F) u v →
  processed (f :: F) u v ∨ (u = fr_node f ∧ v = child).
Proof.
  intros Hc [HR HF]. destruct (decide (u = fr_node f ∧ v = child)) as [|Hne]; [by right|].
  left. split; [done|]. intros f' [->|Hf']%elem_of_cons Hn.
  - subst u. specialize (HF (mkFrame (fr_node f) (S (fr_next f))) ltac:(left) eq_refl).
    simpl in HF. erewrite take_S_r in HF by done.
    apply elem_of_app in HF as [|Hv%list_elem_of_singleton]; [done|]. naive_solver.
  - apply HF; [by right|done].
Qed.

Lemma child_rel f child : succ (fr_node f) !! fr_next f = Some child → R (fr_node f) child.
Proof. intros Hc. by eapply list_elem_of_lookup_2. Qed.

Lemma Forall2_seg_advance f F segs k :
  Forall2 seg_of (f :: F) segs → Forall2 seg_of (mkFrame (fr_node f) k :: F) segs.
Proof. inversion 1; subst. by constructor. Qed.

(** A child that is already known: the cursor moves, the low-link may drop to
    the index of a child on the stack. *)
Lemma tinv_known I L L' S n f F segs child :
  tinv I L S n (f :: F) segs →
  succ (fr_node f) !! fr_next f = Some child →
  is_Some (I !! child) →
  (∀ v, v ≠ fr_node f → L' !! v = L !! v) →
  is_Some (L' !! fr_node f) →
  num L' (fr_node f) ≤ num L (fr_node f) →
  (child ∈ S → num L' (fr_node f) ≤ num I child) →
  (num L' (fr_node f) = num L (fr_node f) ∨
   child ∈ S ∧ num L' (fr_node f) = num I child) →
  tinv I L' S n (mkFrame (fr_node f) (Datatypes.S (fr_next f)) :: F) segs.
Proof.
  intros Ht Hc Hd HL' Hs' Hle Hch Hatt.
  assert (∀ v, v ≠ fr_node f → num L' v = num L v) as HLn.
  { intros v ?. unfold num. by rewrite HL'. }
  split.
  - apply Forall2_seg_advance, Ht.
  - apply Ht.
  - intros v. destruct (decide (v = fr_node f)) as [->|Hne].
    + split; [|done]. intros _. apply (t_low_dom Ht).
      apply (t_low_dom Ht), (t_disc Ht).
      eapply frame_in_stack; [done|left].
    + rewrite HL' by done. apply Ht.
  - apply Ht.
  - apply Ht.
  - apply Ht.
  - apply Ht.
  - intros u v Hu [Hp|[-> ->]]%(processed_advance _ _ _ _ _ Hc); [|done].
    by eapply (t_proc Ht).
  - intros f' v [->|Hf']%elem_of_cons; [apply (t_down Ht f); left|].
    apply (t_down Ht); by right.
  - intros v Hv. destruct (t_up Ht v Hv) as (f'&[->|Hf']%elem_of_cons&?&?).
    + eexists; split; [left|done].
    + exists f'. split; [by right|done].
  - intros v Hv. destruct (decide (v = fr_node f)) as [->|Hne].
    + destruct (t_low Ht _ Hv) as (x&?&?&?&?).
      destruct Hatt as [Heq|[? Heq]]; [exists x; split_and!; [done|lia|done..]|].
      exists child. split_and!; [done..|lia|]. by apply rtc_once, child_rel.
    + rewrite HLn by done. by apply (t_low Ht).
  - intros [|k] f' seg Hf' Hseg x y Hx Hp Hy; simpl in Hf'.
    + injection Hf' as <-. simpl.
      apply (processed_advance _ _ _ _ _ Hc) in Hp as [Hp|[-> ->]]; [|by apply Hch].
      etrans; [exact Hle|]. by eapply (t_bound Ht 0 f seg).
    + destruct segs as [|seg0 segs]; [done|]. simpl in Hseg.
      assert (f' ∈ F) as HfF by by eapply list_elem_of_lookup_2.
      assert (seg ∈ segs) as HsS by by eapply list_elem_of_lookup_2.
      pose proof (lower_frame_num _ _ _ _ _ _ _ _ _ Ht HfF).
      pose proof (below_top _ _ _ _ _ _ _ _ _ Ht (seg_in_stack _ _ _ HsS Hx)).
      rewrite HLn by (intros Heq; rewrite Heq in *; lia).
      apply (processed_advance _ _ _ _ _ Hc) in Hp as [Hp|[-> ->]]; [|lia].
      by eapply (t_bound Ht (Datatypes.S k) f' seg).
Qed.

(** ** Meeting a new node *)

Lemma num_insert_ne I v k u : u ≠ v → num (<[v:=k]> I) u = num I u.
Proof. intros. unfold num. by rewrite lookup_insert_ne. Qed.

Lemma num_insert_eq I v k : num (<[v:=k]> I) v = k.
Proof. unfold num. by rewrite lookup_insert_eq. Qed.

Lemma same_nodes_seg F F0 segs :
  fr_node <$> F0 = fr_node <$> F → Forall2 seg_of F segs → Forall2 seg_of F0 segs.
Proof.
  intros Hn Hs. revert F0 Hn. induction Hs as [|f seg F segs Hs _ IH]; intros [|f0 F0] Hn;
    simplify_eq/=; [constructor|].
  constructor; [|by apply IH]. unfold seg_of in *. congruence.
Qed.

Lemma same_nodes_lookup F F0 k f0 :
  fr_node <$> F0 = fr_node <$> F → F0 !! k = Some f0 →
  ∃ f, F !! k = Some f ∧ fr_node f = fr_node f0.
Proof.
  intros Hn Hk. assert ((fr_node <$> F) !! k = Some (fr_node f0)) as H.
  { by rewrite <-Hn, list_lookup_fmap, Hk. }
  rewrite list_lookup_fmap in H. destruct (F !! k); simplify_eq/=. eauto.
Qed.

Lemma same_nodes_elem F F0 f0 :
  fr_node <$> F0 = fr_node <$> F → f0 ∈ F0 → ∃ f, f ∈ F ∧ fr_node f = fr_node f0.
Proof.
  intros Hn [k Hk]%list_elem_of_lookup.
  destruct (same_nodes_lookup _ _ _ _ Hn Hk) as (f&?&?). exists f.
  split; [by eapply list_elem_of_lookup_2|done].
Qed.

(** Discovering [v]: [F0] is the frame stack with the cursor of the parent already
    moved. *)
Section discovering.
Context (I L : gmap string nat) (S : list string) (n : nat) (F F0 : list Frame).
Context (segs : list (list string)) (v : string).
Context (Ht : tinv I L S n F segs) (Hv : I !! v = None).
Context (Hn : fr_node <$> F0 = fr_node <$> F).

Lemma discovered_ne u : is_Some (I !! u) → u ≠ v.
Proof using Hv. intros [? ?] ->. congruence. Qed.

Lemma stacked_ne u : u ∈ S → u ≠ v.
Proof using Ht Hv. intros Hu. by apply discovered_ne, (t_disc Ht). Qed.

Lemma stacked_num u : u ∈ S → num (<[v:=n]> I) u = num I u.
Proof using Ht Hv. intros Hu. by apply num_insert_ne, stacked_ne. Qed.

Lemma processed_discover u w : processed (mkFrame v 0 :: F0) u w → u ≠ v ∧ processed F0 u w.
Proof using.
  intros [HR HF]. split.
  - intros ->. apply (not_elem_of_nil (A:=string) w). apply (HF (mkFrame v 0)); [left|done].
  - split; [done|]. intros f Hf Hu. apply HF; [by right|done].
Qed.

Lemma discover_down f u :
  (∀ f, f ∈ F → rtc R (fr_node f) v) →
  f ∈ mkFrame v 0 :: F0 → u ∈ v :: S →
  num (<[v:=n]> I) (fr_node f) ≤ num (<[v:=n]> I) u → rtc R (fr_node f) u.
Proof using Ht Hv Hn.
  intros Hreach Hf Hu Hle.
  apply elem_of_cons in Hf as [->|Hf]; apply elem_of_cons in Hu as [->|Hu]; simpl in *.
  - done.
  - rewrite num_insert_eq, stacked_num in Hle by done.
    pose proof (tinv_num_lt _ _ _ _ _ _ _ Ht Hu). lia.
  - destruct (same_nodes_elem _ _ _ Hn Hf) as (f'&?&<-). auto.
  - destruct (same_nodes_elem _ _ _ Hn Hf) as (f'&?&Heq). rewrite <-Heq in *.
    rewrite !stacked_num in Hle by (try done; by eapply frame_in_stack).
    by eapply (t_down Ht).
Qed.

Lemma discover_up u :
  u ∈ v :: S → ∃ f, f ∈ mkFrame v 0 :: F0 ∧
    num (<[v:=n]> I) (fr_node f) ≤ num (<[v:=n]> I) u ∧ rtc R u (fr_node f).
Proof using Ht Hv Hn.
  intros [->|Hu]%elem_of_cons; [exists (mkFrame v 0); split; [left|done]|].
  destruct (t_up Ht u Hu) as (f&Hf&?&?).
  destruct (same_nodes_elem _ _ _ (eq_sym Hn) Hf) as (f'&?&Heq).
  exists f'. split; [by right|]. rewrite Heq.
  rewrite !stacked_num by (try done; by eapply frame_in_stack). done.
Qed.

Lemma discover_low u :
  u ∈ v :: S → ∃ x, x ∈ v :: S ∧ num (<[v:=n]> L) u = num (<[v:=n]> I) x ∧
    num (<[v:=n]> I) x ≤ num (<[v:=n]> I) u ∧ rtc R u x.
Proof using Ht Hv.
  intros [->|Hu]%elem_of_cons.
  { exists v. rewrite !num_insert_eq. split_and!; [left|done..]. }
  destruct (t_low Ht u Hu) as (x&Hx&?&?&?). pose proof (stacked_ne u Hu).
  exists x. rewrite (num_insert_ne L), !stacked_num by auto. split_and!; [by right|done..].
Qed.

Lemma discover_bound k f seg :
  (∀ u w, processed F0 u w → processed F u w ∨ w = v) →
  (mkFrame v 0 :: F0) !! k = Some f → ([v] :: segs) !! k = Some seg →
  low_bound (<[v:=n]> I) (<[v:=n]> L) (v :: S) (mkFrame v 0 :: F0) f seg.
Proof using Ht Hv Hn.
  intros Hp Hf Hseg x y Hx [Hxv Hxy]%processed_discover Hy. destruct k as [|k]; simplify_eq/=.
  { by apply list_elem_of_singleton in Hx. }
  destruct (same_nodes_lookup _ _ _ _ Hn Hf) as (f'&Hf'&Heq).
  assert (fr_node f ∈ S) as HfS.
  { rewrite <-Heq. eapply frame_in_stack; [done|by eapply list_elem_of_lookup_2]. }
  pose proof (stacked_ne _ HfS). rewrite (num_insert_ne L) by auto.
  destruct (t_low Ht _ HfS) as (z&Hz&Hlz&?&_).
  apply elem_of_cons in Hy as [->|Hy].
  { rewrite num_insert_eq. pose proof (tinv_num_lt _ _ _ _ _ _ _ Ht Hz). lia. }
  rewrite stacked_num by done. destruct (Hp _ _ Hxy) as [Hxy'| ->]; [|by destruct (stacked_ne v)].
  rewrite <-Heq. by eapply (t_bound Ht k f' seg).
Qed.

Lemma tinv_discover :
  (∀ u w, processed F0 u w → processed F u w ∨ w = v) →
  (∀ f, f ∈ F → rtc R (fr_node f) v) →
  tinv (<[v:=n]> I) (<[v:=n]> L) (v :: S) (Datatypes.S n) (mkFrame v 0 :: F0) ([v] :: segs).
Proof using Ht Hv Hn.
  intros Hp Hreach. split.
  - constructor; [done|]. eapply same_nodes_seg; [done|apply Ht].
  - simpl. f_equal. apply Ht.
  - intros u. rewrite !lookup_insert_is_Some. pose proof (t_low_dom Ht u). tauto.
  - intros u. rewrite elem_of_cons, lookup_insert_is_Some'.
    intros [->|Hu]; [by left|]. right. by apply (t_disc Ht).
  - intros u i. rewrite lookup_insert_Some. intros [[_ <-]|[_ Hu]]; [lia|].
    pose proof (t_lt Ht u i Hu). lia.
  - constructor.
    + eapply StronglySorted_impl_in; [|apply Ht]. intros x y Hx Hy. by rewrite !stacked_num by done.
    + rewrite Forall_forall. intros u Hu. rewrite stacked_num, num_insert_eq by done.
      by eapply tinv_num_lt.
  - intros u w. rewrite !lookup_insert_is_Some', !not_elem_of_cons.
    intros [->|Hu] [Huv HuS] Huw; [done|].
    destruct (t_closed Ht u w) as [??]; auto using discovered_ne.
  - intros u w. rewrite !lookup_insert_is_Some'. intros Hu [Huv Huw]%processed_discover.
    destruct Hu as [->|Hu]; [done|]. destruct (Hp _ _ Huw) as [?| ->]; [|by left].
    right. by eapply (t_proc Ht).
  - intros f u. by apply discover_down.
  - apply discover_up.
  - apply discover_low.
  - intros k f seg. by apply discover_bound.
Qed.
End discovering.

(** ** Finishing a node *)

Lemma processed_finish f F u w :
  succ (fr_node f) !! fr_next f = None → processed F u w → processed (f :: F) u w.
Proof.
  intros Hnone [HR HF]. split; [done|]. intros f' [->|Hf']%elem_of_cons Hu; [|by apply HF].
  subst u. rewrite take_ge; [done|]. by apply lookup_ge_None.
Qed.

Lemma closed_rtc I L S n F segs u v :
  tinv I L S n F segs → is_Some (I !! u) → u ∉ S → rtc R u v →
  is_Some (I !! v) ∧ v ∉ S.
Proof.
  intros Ht Hu HuS Hr. revert Hu HuS.
  induction Hr as [|u w v Huw _ IH]; intros Hu HuS; [done|].
  destruct (t_closed Ht u w) as [??]; [done..|]. by apply IH.
Qed.

(** The low-link of a node that is not a root points below it. *)
Lemma not_root_lower I L S n f F segs :
  tinv I L S n (f :: F) segs → num L (fr_node f) ≠ num I (fr_node f) →
  ∃ f', f' ∈ F ∧ num I (fr_node f') < num I (fr_node f) ∧ rtc R (fr_node f) (fr_node f').
Proof.
  intros Ht Hne. assert (fr_node f ∈ S) as HfS by (eapply frame_in_stack; [done|left]).
  destruct (t_low Ht _ HfS) as (x&Hx&Hlx&?&?).
  destruct (t_up Ht x Hx) as (f'&Hf'&?&?).
  exists f'. apply elem_of_cons in Hf' as [->|Hf']; [lia|].
  split_and!; [done|lia|by etrans].
Qed.

Lemma second_below I L S n f f2 F seg seg2 segs x :
  tinv I L S n (f :: f2 :: F) (seg :: seg2 :: segs) → x ∈ mjoin segs →
  num I x < num I (fr_node f2).
Proof.
  intros Ht Hx. pose proof (t_sorted Ht) as Hs. rewrite <-(t_stack Ht) in Hs. simpl in Hs.
  apply StronglySorted_app_inv in Hs as (_&Hs&_).
  apply StronglySorted_app_inv in Hs as (_&_&Hs). apply Hs; [|done].
  pose proof (t_segs Ht) as Hsg. inversion Hsg as [|???? _ Hsg']; subst.
  inversion Hsg' as [|???? Hl _]; subst. apply last_Some in Hl as [l ->]. set_solver.
Qed.

(** Not a root: the segment joins the parent's, the parent inherits the
    low-link. *)
Lemma tinv_merge I L L' S n f f2 F seg seg2 segs :
  tinv I L S n (f :: f2 :: F) (seg :: seg2 :: segs) →
  succ (fr_node f) !! fr_next f = None →
  num L (fr_node f) ≠ num I (fr_node f) →
  L' = <[fr_node f2 := num L (fr_node f2) `min` num L (fr_node f)]> L →
  tinv I L' S n (f2 :: F) ((seg ++ seg2) :: segs).
Proof.
  intros Ht Hdone Hne ->.
  assert (fr_node f ∈ S) as HfS by (eapply frame_in_stack; [done|left]).
  assert (fr_node f2 ∈ S) as Hf2S by (eapply frame_in_stack; [done|right; left]).
  assert (rtc R (fr_node f2) (fr_node f)) as Hf2f
    by (eapply frame_reaches_top; [done|right; left]).
  split.
  - pose proof (t_segs Ht) as Hsg. inversion Hsg as [|???? _ Hsg']; subst.
    inversion Hsg' as [|???? Hl Hr]; subst. constructor; [|done].
    unfold seg_of in *. rewrite last_app, Hl. done.
  - rewrite <-(t_stack Ht). simpl. by rewrite <-app_assoc.
  - intros v. rewrite lookup_insert_is_Some'. pose proof (t_low_dom Ht v) as Hv.
    split; [|tauto]. intros [<-|?]; [by apply (t_disc Ht)|tauto].
  - apply Ht.
  - apply Ht.
  - apply Ht.
  - apply Ht.
  - intros u v Hu Huv. eapply (t_proc Ht); [done|]. by apply processed_finish.
  - intros f' v Hf'. apply (t_down Ht). by right.
  - intros v Hv. destruct (t_up Ht v Hv) as (f'&Hf'&?&?).
    apply elem_of_cons in Hf' as [->|Hf']; [|by eauto].
    destruct (not_root_lower _ _ _ _ _ _ _ Ht Hne) as (f'&?&?&?).
    exists f'. split_and!; [done|lia|by etrans].
  - intros v Hv. destruct (decide (v = fr_node f2)) as [->|Hv2].
    + rewrite num_insert_eq. destruct (t_low Ht _ Hf2S) as (x&?&?&?&?).
      destruct (t_low Ht _ HfS) as (y&?&?&?&?).
      destruct (Nat.min_spec (num L (fr_node f2)) (num L (fr_node f))) as [[? ->]|[? ->]].
      * exists x. split_and!; [done..|lia|done].
      * exists y. split_and!; [done..|lia|by transitivity (fr_node f)].
    + rewrite num_insert_ne by done. by apply (t_low Ht).
  - intros [|k] f' sg Hf' Hsg x y Hx Hxy%(processed_finish _ _ _ _ Hdone) Hy; simplify_eq/=.
    + rewrite num_insert_eq. apply elem_of_app in Hx as [Hx|Hx].
      * pose proof (t_bound Ht 0 f seg eq_refl eq_refl x y Hx Hxy Hy). lia.
      * pose proof (t_bound Ht 1 f' seg2 eq_refl eq_refl x y Hx Hxy Hy). lia.
    + rewrite num_insert_ne; [by eapply (t_bound Ht (Datatypes.S (Datatypes.S k)))|].
      intros Heq. assert (f' ∈ F) as HfF by by eapply list_elem_of_lookup_2.
      pose proof (t_segs Ht) as Hs. inversion Hs as [|???? _ Hs']; subst.
      inversion Hs' as [|???? _ Hr]; subst.
      destruct (frame_has_seg _ _ _ Hr HfF) as (sg'&Hsg'&Hin).
      pose proof (second_below _ _ _ _ _ _ _ _ _ _ _ Ht (seg_in_stack _ _ _ Hsg' Hin)) as Hlt.
      rewrite Heq in Hlt. lia.
Qed.

(** A root: its segment is its strongly-connected component and leaves the
    stack. *)
Lemma tinv_close I L S n f F seg segs :
  tinv I L S n (f :: F) (seg :: segs) →
  succ (fr_node f) !! fr_next f = None →
  num L (fr_node f) = num I (fr_node f) →
  tinv I L (mjoin segs) n F segs.
Proof.
  intros Ht Hdone Heq.
  assert (∀ v, v ∈ S ↔ v ∈ seg ∨ v ∈ mjoin segs) as HS.
  { intros v. rewrite <-(t_stack Ht). simpl. apply elem_of_app. }
  pose proof (t_segs Ht) as Hsg. inversion Hsg as [|???? Hl Hr]; subst.
  split.
  - done.
  - done.
  - apply Ht.
  - intros v Hv. apply (t_disc Ht). set_solver.
  - apply Ht.
  - pose proof (t_sorted Ht) as Hs. rewrite <-(t_stack Ht) in Hs.
    by apply StronglySorted_app_inv in Hs as (_&?&_).
  - intros u v Hu HuS Huv. destruct (decide (u ∈ seg)) as [Hus|Hus].
    + assert (processed (f :: F) u v) as Hp.
      { apply processed_finish; [done|]. split; [done|]. intros f' Hf' <-.
        destruct (frame_has_seg _ _ _ Hr Hf') as (sg&?&?).
        exfalso. by eapply HuS, seg_in_stack. }
      split; [by eapply (t_proc Ht)|]. intros HvS.
      pose proof (t_bound Ht 0 f seg eq_refl eq_refl u v Hus Hp ltac:(set_solver)).
      pose proof (below_top _ _ _ _ _ _ _ _ _ Ht HvS). lia.
    + destruct (t_closed Ht u v) as [??]; set_solver.
  - intros u v Hu Huv. eapply (t_proc Ht); [done|]. by apply processed_finish.
  - intros f' v Hf' Hv. apply (t_down Ht); [by right|set_solver].
  - intros v Hv. destruct (t_up Ht v) as (f'&Hf'&?&?); [set_solver|].
    apply elem_of_cons in Hf' as [->|Hf']; [|by eauto].
    pose proof (below_top _ _ _ _ _ _ _ _ _ Ht Hv). lia.
  - intros v Hv. destruct (t_low Ht v) as (x&Hx&?&?&?); [set_solver|].
    exists x. split_and!; [|done..]. apply HS in Hx as [Hx|]; [|done].
    pose proof (in_top_seg _ _ _ _ _ _ _ _ _ Ht Hx).
    pose proof (below_top _ _ _ _ _ _ _ _ _ Ht Hv). lia.
  - intros k f' sg Hf' Hsg' x y Hx Hxy%(processed_finish _ _ _ _ Hdone) Hy.
    eapply (t_bound Ht (Datatypes.S k)); [done..|set_solver].
Qed.

Lemma close_is_component I L S n f F seg segs v :
  tinv I L S n (f :: F) (seg :: segs) →
  succ (fr_node f) !! fr_next f = None →
  num L (fr_node f) = num I (fr_node f) →
  v ∈ seg ↔ rtc R (fr_node f) v ∧ rtc R v (fr_node f).
Proof.
  intros Ht Hdone Heq. pose proof (tinv_close _ _ _ _ _ _ _ _ Ht Hdone Heq) as Ht'.
  assert (fr_node f ∈ S) as HfS by (eapply frame_in_stack; [done|left]).
  split.
  - intros Hv. assert (v ∈ S) as HvS.
    { rewrite <-(t_stack Ht). simpl. set_solver. }
    split; [apply (t_down Ht); [left|done|by eapply in_top_seg]|].
    destruct (t_up Ht v HvS) as (f'&?&_&?). etrans; [done|]. by eapply frame_reaches_top.
  - intros [Hfv Hvf]. 
    destruct (closed_rtc _ _ _ _ _ _ (fr_node f) v Ht') as [Hd HvS]; [by apply (t_disc Ht)| |done|].
    { intros Hin. pose proof (below_top _ _ _ _ _ _ _ _ _ Ht Hin). lia. }
    destruct (decide (v ∈ seg)) as [|Hns]; [done|]. exfalso.
    destruct (closed_rtc _ _ _ _ _ _ v (fr_node f) Ht) as [_ ?]; [done| |done..].
    rewrite <-(t_stack Ht). simpl. set_solver.
Qed.

(** ** The components found so far *)

Context (self_edge : string → bool).

(** [c] is the strongly-connected component of [r]. *)
Definition scc_of (c : gset string) (r : string) : Prop :=
  ∀ v, v ∈ c ↔ rtc R r v ∧ rtc R v r.

Record out_inv (I : gmap string nat) (S : list string) (sccs : list (gset string)) : Prop := {
  o_sound c : c ∈ sccs → is_loop_body self_edge c = true ∧ ∃ r, scc_of c r;
  o_closed c v : c ∈ sccs → v ∈ c → is_Some (I !! v) ∧ v ∉ S;
  o_complete u : is_Some (I !! u) → u ∉ S →
    ∃ c, scc_of c u ∧ (is_loop_body self_edge c = true → c ∈ sccs);
  o_nodup : NoDup sccs
}.

Lemma scc_of_member c r u : scc_of c r → u ∈ c → scc_of c u.
Proof.
  intros Hc Hu v. pose proof (proj1 (Hc u) Hu) as [? ?]. rewrite (Hc v).
  split; intros [? ?]; split; solve [(transitivity r + transitivity u); done].
Qed.

Lemma out_inv_discover I S sccs v n :
  out_inv I S sccs → I !! v = None → out_inv (<[v:=n]> I) (v :: S) sccs.
Proof.
  intros Ho Hv. split.
  - apply Ho.
  - intros c u Hc Hu. destruct (o_closed _ _ _ Ho c u Hc Hu) as [Hs Hns].
    rewrite lookup_insert_is_Some', not_elem_of_cons.
    split_and!; [by right| |done]. intros ->. destruct Hs. congruence.
  - intros u. rewrite lookup_insert_is_Some', not_elem_of_cons.
    intros [->|Hu] [??]; [done|]. by apply Ho.
  - apply Ho.
Qed.

Lemma out_inv_close I S S' sccs f seg :
  out_inv I S sccs →
  (∀ v, v ∈ S ↔ v ∈ seg ∨ v ∈ S') → (∀ v, v ∈ seg → v ∉ S') →
  (∀ v, v ∈ seg → is_Some (I !! v)) →
  fr_node f ∈ seg →
  (∀ v, v ∈ seg ↔ rtc R (fr_node f) v ∧ rtc R v (fr_node f)) →
  out_inv I S' (if is_loop_body self_edge (list_to_set seg)
                then sccs ++ [list_to_set seg] else sccs).
Proof.
  intros Ho HS Hdisj Hd Hf Hscc.
  assert (scc_of (list_to_set seg) (fr_node f)) as Hc.
  { intros v. by rewrite elem_of_list_to_set. }
  assert (∀ c, c ∈ (if is_loop_body self_edge (list_to_set seg)
                    then sccs ++ [list_to_set seg] else sccs) →
               c ∈ sccs ∨ c = list_to_set seg ∧ is_loop_body self_edge c = true) as Hin.
  { intros c. destruct (is_loop_body _ _) eqn:Hb; [|by left].
    intros [?|?%list_elem_of_singleton]%elem_of_app; [by left|subst; by right]. }
  split.
  - intros c [Hcs|[-> ?]]%Hin; [by apply Ho|]. eauto.
  - intros c v [Hcs|[-> ?]]%Hin Hv.
    + destruct (o_closed _ _ _ Ho c v Hcs Hv). set_solver.
    + rewrite elem_of_list_to_set in Hv. auto.
  - intros u Hu HuS. destruct (decide (u ∈ seg)) as [Hus|Hus].
    + exists (list_to_set seg). split; [|intros ->; set_solver].
      eapply scc_of_member; [done|]. by rewrite elem_of_list_to_set.
    + destruct (o_complete _ _ _ Ho u) as (c&?&Himp); [done|set_solver|].
      exists c. split; [done|]. intros Hb%Himp. destruct (is_loop_body _ _); set_solver.
  - destruct (is_loop_body _ _); [|apply Ho]. apply NoDup_app. split_and!.
    + apply Ho.
    + intros c Hcs ->%list_elem_of_singleton.
      destruct (o_closed _ _ _ Ho _ (fr_node f) Hcs); set_solver.
    + apply NoDup_singleton.
Qed.

(** [pop_component] takes exactly the top segment off the stack. *)
Lemma pop_component_seg node seg S on comp :
  last seg = Some node → NoDup (seg ++ S) →
  pop_component node (seg ++ S) on comp =
    Some (S, on ∖ list_to_set seg, list_to_set seg ∪ comp).
Proof.
  revert on comp; induction seg as [|x seg IH]; intros on comp Hl Hnd; [done|].
  rewrite <-app_comm_cons in *. cbn [pop_component]. destruct seg as [|y seg].
  - simpl in *. injection Hl as ->. rewrite decide_True by done. f_equal; f_equal; [f_equal|]; apply set_eq; set_solver.
  - assert (x ≠ node) as Hne.
    { intros ->. apply NoDup_cons in Hnd as [Hnin _]. apply Hnin.
      apply elem_of_app. left. change (last (y :: seg) = Some node) in Hl.
      apply last_Some in Hl as [l Hl]. rewrite Hl. set_solver. }
    rewrite decide_False by done. rewrite IH; [|done|by apply NoDup_cons in Hnd as [??]].
    f_equal; f_equal; [f_equal|]; apply set_eq; set_solver.
Qed.

Lemma tinv_nodup I L S n F segs : tinv I L S n F segs → NoDup S.
Proof.
  intros Ht. pose proof (t_sorted Ht) as Hs. clear Ht.
  induction Hs as [|x S Hs IH Hx]; constructor; [|done].
  intros Hin. rewrite Forall_forall in Hx. specialize (Hx _ Hin). lia.
Qed.

(** ** One turn of the loop *)

Record st_inv (st : tarjan) (segs : list (list string)) : Prop := {
  s_tinv : tinv (tj_index st) (tj_low st) (tj_stack st) (tj_next st) (tj_frames st) segs;
  s_on v : v ∈ tj_on st ↔ v ∈ tj_stack st;
  s_out : out_inv (tj_index st) (tj_stack st) (tj_sccs st)
}.

Lemma tarjan_empty_inv : st_inv tarjan_empty [].
Proof.
  assert (∀ u, ¬ is_Some ((∅ : gmap string nat) !! u)) as He.
  { intros u [? Hu]. by rewrite lookup_empty in Hu. }
  split; simpl; [split|set_solver|split]; try (by constructor); try done.
  - intros v Hv%not_elem_of_nil. done.
  - intros v i Hv. by rewrite lookup_empty in Hv.
  - intros f v Hf%not_elem_of_nil. done.
  - intros v Hv%not_elem_of_nil. done.
  - intros v Hv%not_elem_of_nil. done.
  - intros c Hc%not_elem_of_nil. done.
  - intros c v Hc%not_elem_of_nil. done.
  - intros u Hu. by destruct (He u).
Qed.

Lemma st_inv_no_frames st segs :
  st_inv st segs → tj_frames st = [] → segs = [] ∧ tj_stack st = [].
Proof.
  intros [Ht _ _] HF. rewrite HF in Ht. pose proof (t_segs Ht) as Hs.
  inversion Hs; subst. split; [done|]. by rewrite <-(t_stack Ht).
Qed.

Context (nodes : list string).
Hypothesis nodes_nodup : NoDup nodes.
Hypothesis nodes_target : ∀ u v, R u v → v ∈ nodes.

Definition work_left (f : Frame) : nat := S (length (succ (fr_node f)) - fr_next f).

Arguments work_left : simpl never.
Arguments sum_over : simpl never.

Definition undiscovered (I : gmap string nat) : nat :=
  sum_over (λ v, match I !! v with None => S (length (succ v)) | Some _ => 0 end) nodes.

(** What is left to do; every turn of the loop lowers it. *)
Definition tarjan_measure (st : tarjan) : nat :=
  undiscovered (tj_index st) + sum_over work_left (tj_frames st).

Lemma undiscovered_insert I v n :
  I !! v = None → v ∈ nodes →
  undiscovered (<[v:=n]> I) + S (length (succ v)) = undiscovered I.
Proof.
  intros Hv Hin. unfold undiscovered.
  pose proof (sum_over_update
    (λ u, match I !! u with None => S (length (succ u)) | Some _ => 0 end)
    (λ u, match <[v:=n]> I !! u with None => S (length (succ u)) | Some _ => 0 end)
    nodes v nodes_nodup Hin) as H.
  simpl in H. rewrite lookup_insert_eq, Hv, Nat.add_0_r in H. apply H.
  intros u _ Hu. by rewrite lookup_insert_ne.
Qed.

Lemma work_left_advance f child :
  succ (fr_node f) !! fr_next f = Some child →
  work_left f = S (work_left (mkFrame (fr_node f) (S (fr_next f)))).
Proof. intros ?%lookup_lt_Some. unfold work_left. simpl. lia. Qed.

Lemma num_lookup I v i : I !! v = Some i → num I v = i.
Proof. unfold num. by intros ->. Qed.

Lemma low_lookup I L S n F segs v :
  tinv I L S n F segs → is_Some (I !! v) → L !! v = Some (num L v) ∧ I !! v = Some (num I v).
Proof.
  intros Ht Hv. pose proof (proj2 (t_low_dom Ht v) Hv) as [l Hl]. destruct Hv as [i Hi].
  unfold num. by rewrite Hl, Hi.
Qed.

Lemma discover_inv st segs v F0 :
  st_inv st segs → tj_index st !! v = None →
  fr_node <$> F0 = fr_node <$> tj_frames st →
  (∀ u w, processed F0 u w → processed (tj_frames st) u w ∨ w = v) →
  (∀ f, f ∈ tj_frames st → rtc R (fr_node f) v) →
  st_inv (discover v (set_frames F0 st)) ([v] :: segs).
Proof.
  intros [Ht Hon Ho] Hv Hn Hp Hr. split; simpl.
  - by eapply tinv_discover.
  - intros u. rewrite elem_of_union, elem_of_singleton, elem_of_cons, Hon. done.
  - by apply out_inv_discover.
Qed.

Lemma step_child st segs f F child :
  st_inv st segs → tj_frames st = f :: F →
  succ (fr_node f) !! fr_next f = Some child →
  ∃ st' segs', tarjan_step adj self_edge st = Some st' ∧ st_inv st' segs' ∧
               tarjan_measure st' < tarjan_measure st.
Proof.
  intros Hst HF Hc. pose proof Hst as [Ht Hon Ho]. rewrite HF in Ht.
  unfold tarjan_step. rewrite HF, Hc. unfold tarjan_measure. rewrite HF.
  pose proof (work_left_advance _ _ Hc) as Hw.
  destruct (tj_index st !! child) as [ci|] eqn:Hci.
  - assert (is_Some (tj_index st !! fr_node f)) as Hfd.
    { apply (t_disc Ht). eapply frame_in_stack; [done|left]. }
    destruct (low_lookup _ _ _ _ _ _ _ Ht Hfd) as [Hlow _].
    case_decide as Hin.
    + rewrite Hlow. simpl. eexists _, segs. split_and!; [done| |].
      * split; simpl; [|done|done].
        eapply tinv_known; [done|done|by eauto|..]; rewrite ?num_insert_eq.
        -- intros v ?. by rewrite lookup_insert_ne.
        -- rewrite lookup_insert_eq. eauto.
        -- lia.
        -- intros _. rewrite (num_lookup _ _ _ Hci). lia.
        -- rewrite (num_lookup _ _ _ Hci), <-Hon.
           destruct (Nat.min_spec (num (tj_low st) (fr_node f)) ci) as [[? ->]|[? ->]]; auto.
      * cbn [tj_index tj_frames set_low set_frames]. rewrite !sum_over_cons. lia.
    + eexists _, segs. split_and!; [done| |].
      * split; simpl; [|done|done].
        eapply tinv_known; [done|done|by eauto|done|..]; try done.
        -- intros Hcs. by apply Hon in Hcs.
        -- by left.
      * cbn [tj_index tj_frames set_low set_frames]. rewrite !sum_over_cons. lia.
  - eexists _, _. split_and!; [done| |].
    + apply (discover_inv st segs); [done|done|by rewrite HF| |]; rewrite HF.
      * intros u w Huw. apply (processed_advance _ _ _ _ _ Hc) in Huw. naive_solver.
      * intros f' Hf'. destruct segs as [|seg segs]; [by pose proof (t_segs Ht) as H; inversion H|].
        eapply rtc_r; [by eapply frame_reaches_top|]. by apply child_rel.
    + cbn [tj_index tj_frames set_frames discover]. rewrite !sum_over_cons.
      pose proof (undiscovered_insert _ child (tj_next st) Hci
                    (nodes_target _ _ (child_rel _ _ Hc))).
      unfold work_left in *; simpl in *. lia.
Qed.

(** A root's low-link never lowers its parent's. *)
Lemma inherit_root st I L S n f F seg segs :
  tinv I L S n (f :: F) (seg :: segs) → num L (fr_node f) = num I (fr_node f) →
  tj_low st = L → tj_frames st = F → inherit_low (fr_node f) st = Some st.
Proof.
  intros Ht Heq HL HF. unfold inherit_low. rewrite HF, HL.
  destruct F as [|f2 F]; [done|].
  assert (fr_node f ∈ S) as HfS by (eapply frame_in_stack; [done|left]).
  assert (fr_node f2 ∈ S) as Hf2S by (eapply frame_in_stack; [done|right; left]).
  destruct (low_lookup _ _ _ _ _ _ _ Ht (t_disc Ht _ HfS)) as [-> _].
  destruct (low_lookup _ _ _ _ _ _ _ Ht (t_disc Ht _ Hf2S)) as [Hl2 _].
  rewrite Hl2. simpl.
  pose proof (lower_frame_num _ _ _ _ _ _ _ _ f2 Ht ltac:(left)).
  destruct (t_low Ht _ Hf2S) as (x&_&?&?&_).
  rewrite Nat.min_l by lia. destruct st; simplify_eq/=. unfold set_low. simpl.
  by rewrite insert_id.
Qed.

Lemma finish_measure st st' f F :
  tj_frames st = f :: F → tj_frames st' = F → tj_index st' = tj_index st →
  tarjan_measure st' < tarjan_measure st.
Proof.
  intros HF HF' HI. unfold tarjan_measure. rewrite HI, HF', HF, sum_over_cons.
  unfold work_left at 2. lia.
Qed.

Lemma step_root st segs f F :
  st_inv st segs → tj_frames st = f :: F →
  succ (fr_node f) !! fr_next f = None →
  num (tj_low st) (fr_node f) = num (tj_index st) (fr_node f) →
  ∃ st' segs', tarjan_step adj self_edge st = Some st' ∧ st_inv st' segs' ∧
               tarjan_measure st' < tarjan_measure st.
Proof.
  intros [Ht Hon Ho] HF Hc Hroot. rewrite HF in Ht. unfold tarjan_step. rewrite HF, Hc.
  assert (fr_node f ∈ tj_stack st) as HfS by (eapply frame_in_stack; [done|left]).
  destruct (low_lookup _ _ _ _ _ _ _ Ht (t_disc Ht _ HfS)) as [Hlow Hidx].
  destruct segs as [|seg segs]; [by pose proof (t_segs Ht) as H; inversion H|].
  unfold close_component. rewrite Hlow, Hidx. simpl. rewrite decide_True by done.
  pose proof (t_segs Ht) as Hsg. inversion Hsg as [|???? Hl Hr]; subst.
  pose proof (t_stack Ht) as HS. simpl in HS.
  pose proof (tinv_nodup _ _ _ _ _ _ Ht) as Hnd. rewrite <-HS in Hnd |- *.
  rewrite pop_component_seg by done. simpl. rewrite union_empty_r_L.
  erewrite inherit_root; [|done..].
  eexists _, segs. split_and!; [done| |by eapply finish_measure].
  assert (∀ v, v ∈ seg → v ∉ mjoin segs) as Hdisj.
  { apply NoDup_app in Hnd as (_&Hd&_). naive_solver. }
  split; simpl.
  - by eapply tinv_close.
  - intros v. rewrite elem_of_difference, elem_of_list_to_set, Hon, <-HS, elem_of_app.
    naive_solver.
  - apply (out_inv_close _ (tj_stack st) _ _ f); [done| |done| | |].
    + intros v. by rewrite <-HS, elem_of_app.
    + intros v Hv. apply (t_disc Ht). rewrite <-HS, elem_of_app. by left.
    + apply last_Some in Hl as [l ->]. set_solver.
    + intros v. by eapply close_is_component.
Qed.

Lemma step_not_root st segs f F :
  st_inv st segs → tj_frames st = f :: F →
  succ (fr_node f) !! fr_next f = None →
  num (tj_low st) (fr_node f) ≠ num (tj_index st) (fr_node f) →
  ∃ st' segs', tarjan_step adj self_edge st = Some st' ∧ st_inv st' segs' ∧
               tarjan_measure st' < tarjan_measure st.
Proof.
  intros [Ht Hon Ho] HF Hc Hroot. rewrite HF in Ht. unfold tarjan_step. rewrite HF, Hc.
  assert (fr_node f ∈ tj_stack st) as HfS by (eapply frame_in_stack; [done|left]).
  destruct (low_lookup _ _ _ _ _ _ _ Ht (t_disc Ht _ HfS)) as [Hlow Hidx].
  unfold close_component. rewrite Hlow, Hidx. simpl. rewrite decide_False by done. simpl.
  destruct (not_root_lower _ _ _ _ _ _ _ Ht Hroot) as (f'&Hf'&_).
  destruct F as [|f2 F]; [by apply elem_of_nil in Hf'|].
  assert (fr_node f2 ∈ tj_stack st) as Hf2S by (eapply frame_in_stack; [done|right; left]).
  destruct (low_lookup _ _ _ _ _ _ _ Ht (t_disc Ht _ Hf2S)) as [Hl2 _].
  unfold inherit_low. simpl. rewrite Hlow, Hl2. simpl.
  pose proof (t_segs Ht) as Hsg. inversion Hsg as [|??? segs1 _ Hr]; subst.
  inversion Hr as [|??? segs2]; subst.
  eexists _, _. split_and!; [done| |by eapply finish_measure].
  split; simpl; [by eapply tinv_merge|done|done].
Qed.

Lemma step_inv st segs :
  st_inv st segs → tj_frames st ≠ [] →
  ∃ st' segs', tarjan_step adj self_edge st = Some st' ∧ st_inv st' segs' ∧
               tarjan_measure st' < tarjan_measure st.
Proof.
  intros Hst Hne. destruct (tj_frames st) as [|f F] eqn:HF; [done|].
  destruct (succ (fr_node f) !! fr_next f) as [child|] eqn:Hc; [by eapply step_child|].
  destruct (decide (num (tj_low st) (fr_node f) = num (tj_index st) (fr_node f))).
  - by eapply step_root.
  - by eapply step_not_root.
Qed.

(** ** The loops *)

(** Discovered nodes stay discovered. *)
Definition index_le (st st' : tarjan) : Prop :=
  ∀ v, is_Some (tj_index st !! v) → is_Some (tj_index st' !! v).

Lemma inherit_low_index node st st' :
  inherit_low node st = Some st' → tj_index st' = tj_index st.
Proof.
  unfold inherit_low. destruct (tj_frames st); [by intros [= ->]|].
  by intros (?&_&(?&_&[= <-])%bind_Some)%bind_Some.
Qed.

Lemma close_component_index node st st' :
  close_component self_edge node st = Some st' → tj_index st' = tj_index st.
Proof.
  unfold close_component. intros (?&_&(?&_&H)%bind_Some)%bind_Some.
  case_decide; [|by simplify_eq].
  apply bind_Some in H as ([[? ?] ?]&_&[= <-]). done.
Qed.

Lemma step_index_le st st' : tarjan_step adj self_edge st = Some st' → index_le st st'.
Proof.
  unfold tarjan_step, index_le. destruct (tj_frames st) as [|f F]; [by intros [= ->]|].
  destruct (succ (fr_node f) !! fr_next f) as [child|].
  - destruct (tj_index st !! child) as [ci|].
    + case_decide; [|by intros [= <-]]. by intros (?&_&[= <-])%bind_Some.
    + intros [= <-] v Hv. simpl. rewrite lookup_insert_is_Some'. by right.
  - intros (st1&H1%close_component_index&H2%inherit_low_index)%bind_Some v.
    by rewrite H2; simpl; rewrite H1.
Qed.

Lemma tarjan_loop_inv fuel st segs :
  st_inv st segs → tarjan_measure st ≤ fuel →
  ∃ st', tarjan_loop adj self_edge fuel st = Some st' ∧ st_inv st' [] ∧
         tj_frames st' = [] ∧ tarjan_measure st' ≤ tarjan_measure st ∧ index_le st st'.
Proof.
  revert st segs; induction fuel as [|fuel IH]; intros st segs Hst Hm;
    destruct (tj_frames st) as [|f F] eqn:HF.
  - exists st. simpl. rewrite HF. destruct (st_inv_no_frames _ _ Hst HF) as [-> _].
    split_and!; [done..|by intros v].
  - unfold tarjan_measure in Hm. rewrite HF, sum_over_cons in Hm.
    unfold work_left at 1 in Hm. lia.
  - exists st. simpl. rewrite HF. destruct (st_inv_no_frames _ _ Hst HF) as [-> _].
    split_and!; [done..|by intros v].
  - destruct (step_inv _ _ Hst) as (st1&segs1&Hs&Hst1&Hm1); [by rewrite HF|].
    simpl. rewrite HF, Hs. simpl.
    destruct (IH _ _ Hst1) as (st2&?&?&?&?&Hle); [lia|].
    exists st2. split_and!; [done..|lia|].
    intros v Hv. by apply Hle, (step_index_le _ _ Hs).
Qed.

Lemma discover_measure st v :
  tj_index st !! v = None → v ∈ nodes → tarjan_measure (discover v st) = tarjan_measure st.
Proof.
  intros Hv Hin. unfold tarjan_measure. cbn [tj_index tj_frames discover].
  rewrite sum_over_cons, <-(undiscovered_insert _ v (tj_next st) Hv Hin).
  unfold work_left at 1. simpl. lia.
Qed.

Lemma tarjan_roots_inv fuel roots st :
  (∀ r, r ∈ roots → r ∈ nodes) →
  st_inv st [] → tj_frames st = [] → tarjan_measure st ≤ fuel →
  ∃ st', tarjan_roots adj self_edge fuel roots st = Some st' ∧ st_inv st' [] ∧
         tj_frames st' = [] ∧ index_le st st' ∧
         ∀ r, r ∈ roots → is_Some (tj_index st' !! r).
Proof.
  revert st; induction roots as [|r roots IH]; intros st Hroots Hst HF Hm; simpl.
  { exists st. split_and!; [done..|by intros v|]. by intros r ?%elem_of_nil. }
  assert (∃ st1, tarjan_root adj self_edge fuel st r = Some st1 ∧ st_inv st1 [] ∧
            tj_frames st1 = [] ∧ tarjan_measure st1 ≤ fuel ∧ index_le st st1 ∧
            is_Some (tj_index st1 !! r)) as (st1&->&Hst1&HF1&Hm1&Hle1&Hr1).
  { unfold tarjan_root. destruct (tj_index st !! r) as [i|] eqn:Hr; [|].
    { exists st. split_and!; [done..|by intros v|done]. }
    assert (set_frames [] st = st) as Hset by (destruct st; simplify_eq/=; done).
    destruct (tarjan_loop_inv fuel (discover r st) [[r]]) as (st1&?&?&?&?&Hle).
    - rewrite <-Hset. apply (discover_inv st []); [done|done|by rewrite HF| |];
        rewrite HF; [by left|by intros f ?%elem_of_nil].
    - rewrite discover_measure; [done..|]. apply Hroots. left.
    - exists st1. split_and!; [done..| | |].
      + etrans; [done|]. rewrite discover_measure; [done..|]. apply Hroots. left.
      + intros v Hv. apply Hle. simpl. rewrite lookup_insert_is_Some'. by right.
      + apply Hle. simpl. rewrite lookup_insert_is_Some'. by left. }
  simpl. destruct (IH st1) as (st2&?&?&?&Hle2&Hall); [|done..|].
  { intros x ?. apply Hroots. by right. }
  exists st2. split_and!; [done..| |].
  - intros v ?. by apply Hle2, Hle1.
  - intros x [->|?]%elem_of_cons; auto.
Qed.
End invariant.

(** ** The loop bodies of a graph *)

(** Reachability over the [Loop] edges of a graph. *)
Definition loop_rel (graph : TaskGraph) : relation string := adj_rel (loop_adjacency graph).

(** [c] is a loop body: the non-empty set of nodes that lie with [r] on a common
    cycle of [Loop] edges. *)
Definition loop_body (graph : TaskGraph) (c : gset string) : Prop :=
  ∃ r, tc (loop_rel graph) r r ∧
       ∀ v, v ∈ c ↔ rtc (loop_rel graph) r v ∧ rtc (loop_rel graph) v r.

Lemma elem_of_loop_nodes adj v :
  v ∈ loop_nodes adj ↔ (is_Some (adj !! v) ∨ ∃ u, adj_rel adj u v).
Proof.
  unfold loop_nodes. rewrite elem_of_dedup. unfold sort_strings. rewrite elem_of_sort_by, elem_of_app.
  rewrite list_elem_of_fmap, list_elem_of_join. split.
  - intros [([k l]&->&Hk%elem_of_map_to_list)|(l&Hv&Hl)]; [left; eauto|right].
    apply list_elem_of_fmap in Hl as ([k l']&->&Hk%elem_of_map_to_list).
    exists k. unfold adj_rel, bucket. by rewrite Hk.
  - intros [[l Hl]|[u Hu]]; [left|right].
    + exists (v, l). split; [done|]. by apply elem_of_map_to_list.
    + unfold adj_rel, bucket in Hu. destruct (adj !! u) as [l|] eqn:Hl; [|by apply elem_of_nil in Hu].
      exists l. split; [done|]. apply list_elem_of_fmap. exists (u, l).
      split; [done|]. by apply elem_of_map_to_list.
Qed.

Lemma loop_nodes_nodup adj : NoDup (loop_nodes adj).
Proof.
  apply NoDup_dedup_sorted, sort_by_sorted; [apply string_leb_total|apply string_leb_trans].
Qed.

Lemma has_loop_self_edge_rel graph v :
  has_loop_self_edge graph v = true ↔ loop_rel graph v v.
Proof.
  unfold has_loop_self_edge, loop_rel, adj_rel, loop_adjacency.
  rewrite elem_of_build_adjacency, existsb_exists.
  split; intros (e&He%list_elem_of_In&Hb); exists e; (split; [done|]).
  - apply andb_prop in Hb as [[? ?%bool_decide_eq_true]%andb_prop ?%bool_decide_eq_true].
    done.
  - destruct Hb as (->&_&?&?). by rewrite !bool_decide_eq_true_2.
Qed.

(** The size test and the self-edge test keep the components that have a cycle. *)
Lemma is_loop_body_cyclic graph c r :
  scc_of (loop_adjacency graph) c r →
  is_loop_body (has_loop_self_edge graph) c = true ↔ tc (loop_rel graph) r r.
Proof.
  intros Hc. assert (r ∈ c) as Hr by by apply Hc.
  unfold is_loop_body. rewrite orb_true_iff, Nat.ltb_lt. split.
  - intros [Hsz|Hself].
    + destruct (set_choose_or_empty (c ∖ {[r]})) as [[v Hv]|Hnone].
      * apply elem_of_difference in Hv as [[Hrv Hvr]%Hc Hne%not_elem_of_singleton].
        apply rtc_inv in Hrv as [?|(y&Hry&Hyv)]; [done|].
        apply (tc_rtc_r _ y); [by apply tc_once|]. by transitivity v.
      * assert (c = {[r]}) as -> by (apply set_eq; intros; destruct (decide (x = r)); set_solver).
        rewrite size_singleton in Hsz. lia.
    + destruct (elements c) as [|x l] eqn:He; [done|].
      apply has_loop_self_edge_rel in Hself.
      assert (x ∈ c) as [Hrx Hxr]%Hc by (rewrite <-elem_of_elements, He; left).
      apply (tc_rtc_l _ x); [done|]. apply (tc_rtc_r _ x); [by apply tc_once|done].
  - intros Hcyc. destruct (decide (1 < size c)) as [|Hsz]; [by left|right].
    assert (size c ≤ size ({[r]} : gset string)) as Hle by (rewrite size_singleton; lia).
    assert (c = {[r]}) as ->.
    { symmetry. apply leibniz_equiv, set_subseteq_size_equiv; [set_solver|done]. }
    rewrite elements_singleton, has_loop_self_edge_rel.
    assert (∃ y, loop_rel graph r y ∧ rtc (loop_rel graph) y r) as (y&Hry&Hyr).
    { inversion Hcyc; subst; eauto using tc_rtc. }
    assert (y ∈ ({[r]} : gset string)) as ->%elem_of_singleton; [|done].
    apply Hc. split; [by apply rtc_once|done].
Qed.

Lemma loop_sccs_spec graph :
  loop_sccs_opt graph = Some (loop_sccs graph) ∧ NoDup (loop_sccs graph) ∧
  ∀ c, c ∈ loop_sccs graph ↔ loop_body graph c.
Proof.
  unfold loop_sccs, loop_sccs_opt.
  set (adj := loop_adjacency graph). set (self := has_loop_self_edge graph).
  destruct (tarjan_roots_inv adj self (loop_nodes adj) (loop_nodes_nodup adj)
              ltac:(intros u v Huv; apply elem_of_loop_nodes; eauto)
              (tarjan_fuel adj) (loop_nodes adj) tarjan_empty)
    as (st&->&Hst&HF&_&Hall); [done|apply tarjan_empty_inv|done| |].
  { unfold tarjan_measure, undiscovered, tarjan_fuel. simpl. rewrite Nat.add_0_r.
    apply Nat.eq_le_incl, sum_over_ext. intros v _. by rewrite lookup_empty. }
  destruct (st_inv_no_frames _ _ _ _ Hst HF) as [_ HS].
  pose proof (s_out _ _ _ _ Hst) as Ho. rewrite HS in Ho.
  simpl. split_and!; [done|apply Ho|]. intros c. split.
  - intros Hc. destruct (o_sound _ _ _ _ _ Ho c Hc) as (Hb&r&Hr).
    exists r. split; [by eapply is_loop_body_cyclic|done].
  - intros (r&Hcyc&Hr). destruct (o_complete _ _ _ _ _ Ho r) as (c'&Hc'&Himp).
    + apply Hall, elem_of_loop_nodes. right.
      apply tc_nsteps in Hcyc as (k&Hk&Hn). destruct k as [|k]; [lia|].
      apply nsteps_inv_r in Hn as (y&_&?). eauto.
    + apply not_elem_of_nil.
    + assert (c = c') as -> by (apply set_eq; intros v; by rewrite Hr, (Hc' v)).
      by apply Himp, is_loop_body_cyclic with r.
Qed.

(** C4: The loop bodies of a definition graph: the search never panics nor runs out
    of steps, repeats no component, and returns exactly the strongly-connected
    components of the [Loop] subgraph that contain a cycle. *)
Theorem loop_sccs_classes graph :
  loop_sccs_opt graph = Some (loop_sccs graph) ∧ NoDup (loop_sccs graph) ∧
  ∀ c, c ∈ loop_sccs graph ↔ loop_body graph c.
Proof. apply loop_sccs_spec. Qed.
