(* ===== verification/Duration.v ===== *)
(** * Duration strings

    [parser/duration.rs]: [parse_duration], over the UTF-8 bytes of the string.
    The digits are ASCII, so splitting at the first non-digit character and at
    the first non-digit byte is the same.  Seconds are a [u64]. *)

From S2P Require Import Prelude Workflow.

Local Open Scope Z_scope.

Inductive ParseDurationError :=
| DurEmpty
| DurNotANumber (raw : string)
| DurOverflow (raw : string)
| DurNonPositive (raw : string)
| DurUnknownUnit (raw unit : string).

Definition u64_limit : Z := 2 ^ 64.

Definition is_ascii_digit (c : ascii) : bool :=
  (48 <=? Z.of_nat (nat_of_ascii c)) && (Z.of_nat (nat_of_ascii c) <=? 57).

Definition digit_value (c : ascii) : Z := Z.of_nat (nat_of_ascii c) - 48.

(** [trimmed.split_at(split)], [split] the index of the first non-digit. *)
Fixpoint split_digits (s : string) : string * string :=
  match s with
  | EmptyString => ("", "")
  | String c s' =>
      if is_ascii_digit c then let '(num, unit) := split_digits s' in (String c num, unit)
      else ("", s)
  end.

Fixpoint digits_value (acc : Z) (s : string) : Z :=
  match s with
  | EmptyString => acc
  | String c s' => digits_value (acc * 10 + digit_value c) s'
  end.

(** [u64::from_str] on a string of digits. *)
Definition parse_u64 (num : string) : option Z :=
  let n := digits_value 0 num in if n <? u64_limit then Some n else None.

Definition checked_mul (a b : Z) : option Z :=
  if a * b <? u64_limit then Some (a * b) else None.

Definition parse_duration (s : string) : result Duration ParseDurationError :=
  let trimmed := trim s in
  if bool_decide (trimmed = "") then Err DurEmpty
  else
    let '(num_part, unit_part) := split_digits trimmed in
    if bool_decide (num_part = "") then Err (DurNotANumber s)
    else
      let? value := ok_or (parse_u64 num_part) (DurNotANumber s) in
      if value =? 0 then Err (DurNonPositive s)
      else
        let? seconds :=
          if bool_decide (unit_part = "") || bool_decide (unit_part = "s") then Ok value
          else if bool_decide (unit_part = "m") then ok_or (checked_mul value 60) (DurOverflow s)
          else if bool_decide (unit_part = "h") then ok_or (checked_mul value 3600) (DurOverflow s)
          else Err (DurUnknownUnit s unit_part) in
        Ok (mkDuration seconds 0).

(** ** Specification *)

Fixpoint all_digits (s : string) : bool :=
  match s with
  | EmptyString => true
  | String c s' => is_ascii_digit c && all_digits s'
  end.

(** The factor of each unit the grammar has. *)
Definition unit_seconds (u : string) : option Z :=
  if bool_decide (u = "") then Some 1
  else if bool_decide (u = "s") then Some 1
  else if bool_decide (u = "m") then Some 60
  else if bool_decide (u = "h") then Some 3600
  else None.

(** [<n>], [<n>s], [<n>m] or [<n>h] with a positive [n] and a total within 64 bits. *)
Definition duration_text (s : string) (secs : Z) : Prop :=
  ∃ num unit factor,
    trim s = num +:+ unit ∧ num ≠ "" ∧ all_digits num = true ∧
    unit_seconds unit = Some factor ∧ 0 < digits_value 0 num ∧
    digits_value 0 num * factor < u64_limit ∧ secs = digits_value 0 num * factor.

Lemma split_digits_spec s num unit :
  split_digits s = (num, unit) →
  s = num +:+ unit ∧ all_digits num = true ∧
  (∀ c u, unit = String c u → is_ascii_digit c = false).
Proof.
  revert num unit. induction s as [|c s IH]; simpl; intros num unit.
  - intros [= <- <-]. done.
  - destruct (is_ascii_digit c) eqn:Hc.
    + destruct (split_digits s) as [n u]. intros [= <- <-].
      destruct (IH n u eq_refl) as (->&?&?). simpl. by rewrite Hc.
    + intros [= <- <-]. split_and!; [done..|]. intros ? ? [= <- <-]. done.
Qed.

Lemma split_digits_app num unit :
  all_digits num = true → (∀ c u, unit = String c u → is_ascii_digit c = false) →
  split_digits (num +:+ unit) = (num, unit).
Proof.
  intros Hn Hu. induction num as [|c num IH]; simpl in *.
  - destruct unit as [|c u]; [done|]. simpl. by rewrite (Hu c u eq_refl).
  - apply andb_prop in Hn as [-> Hn]. by rewrite IH.
Qed.

Lemma digits_value_mono s acc :
  0 <= acc → all_digits s = true → acc <= digits_value acc s.
Proof.
  revert acc. induction s as [|c s IH]; simpl; intros acc Hacc; [lia|].
  intros [Hc Hs]%andb_prop. unfold is_ascii_digit in Hc. apply andb_prop in Hc as [Hc1 Hc2].
  etrans; [|apply IH; [|done]]; unfold digit_value; lia.
Qed.

Lemma unit_seconds_head u f : unit_seconds u = Some f →
  ∀ c u', u = String c u' → is_ascii_digit c = false.
Proof.
  unfold unit_seconds. repeat case_bool_decide; intros; simplify_eq/=; reflexivity.
Qed.

Lemma unit_seconds_pos u f : unit_seconds u = Some f → 1 <= f.
Proof. unfold unit_seconds. repeat case_bool_decide; intros; simplify_eq/=; lia. Qed.

Lemma parse_duration_parts s num unit :
  trim s = num +:+ unit → num ≠ "" → split_digits (trim s) = (num, unit) →
  parse_duration s =
    let n := digits_value 0 num in
    if u64_limit <=? n then Err (DurNotANumber s)
    else if n =? 0 then Err (DurNonPositive s)
    else match unit_seconds unit with
         | None => Err (DurUnknownUnit s unit)
         | Some f => if n * f <? u64_limit then Ok (mkDuration (n * f) 0) else Err (DurOverflow s)
         end.
Proof.
  intros Ht Hn Hs. unfold parse_duration.
  rewrite bool_decide_eq_false_2 by (rewrite Ht; by destruct num).
  rewrite Hs, (bool_decide_eq_false_2 (num = "")) by done.
  unfold parse_u64, unit_seconds, checked_mul. cbv zeta. rewrite Z.ltb_antisym.
  destruct (u64_limit <=? digits_value 0 num) eqn:Hlt; [done|]. cbn [negb ok_or].
  destruct (digits_value 0 num =? 0); [done|].
  destruct (bool_decide (unit = "")), (bool_decide (unit = "s")); cbn [orb].
  1-3: rewrite Z.mul_1_r, Z.ltb_antisym, Hlt; done.
  destruct (bool_decide (unit = "m")); [by destruct (_ <? _)|].
  destruct (bool_decide (unit = "h")); [by destruct (_ <? _)|done].
Qed.

Lemma parse_duration_ok s d :
  parse_duration s = Ok d ↔ duration_text s (duration_secs d) ∧ duration_nanos d = 0.
Proof.
  split.
  - destruct (split_digits (trim s)) as [num unit] eqn:Hs.
    destruct (split_digits_spec _ _ _ Hs) as (Ht&Hd&_).
    destruct (decide (num = "")) as [->|Hn].
    { unfold parse_duration. rewrite Hs. by case_bool_decide. }
    rewrite (parse_duration_parts s num unit) by done. cbv zeta.
    destruct (u64_limit <=? digits_value 0 num); [done|].
    destruct (digits_value 0 num =? 0) eqn:H0; [done|].
    destruct (unit_seconds unit) as [f|] eqn:Hu; [|done].
    destruct (_ <? _) eqn:Hlt; [|done]. intros [= <-]. split; [|done].
    exists num, unit, f. pose proof (digits_value_mono num 0 ltac:(lia) Hd).
    simpl. split_and!; try done; lia.
  - intros [(num&unit&f&Ht&Hn&Hd&Hu&Hpos&Hlt&Hsecs) Hnanos].
    pose proof (unit_seconds_pos _ _ Hu).
    rewrite (parse_duration_parts s num unit); [|done|done|].
    + cbv zeta. rewrite (proj2 (Z.leb_gt _ _)) by nia. rewrite (proj2 (Z.eqb_neq _ _)) by lia.
      rewrite Hu, (proj2 (Z.ltb_lt _ _)) by lia. destruct d; simplify_eq/=. done.
    + rewrite Ht. apply split_digits_app; [done|]. by eapply unit_seconds_head.
Qed.

(** [parse_duration] accepts exactly the texts [<n>], [<n>s], [<n>m], [<n>h] of the
    grammar, surrounding white space aside, with [n] positive and the seconds
    within 64 bits, and returns those seconds. *)
Theorem parse_duration_correct s d :
  parse_duration s = Ok d ↔ duration_text s (duration_secs d) ∧ duration_nanos d = 0.
Proof. apply parse_duration_ok. Qed.

Lemma parse_duration_positive s d :
  parse_duration s = Ok d → 0 < duration_secs d < u64_limit.
Proof.
  intros [(num&unit&f&_&_&_&Hu&Hpos&Hlt&->) _]%parse_duration_ok.
  pose proof (unit_seconds_pos _ _ Hu). nia.
Qed.

(** A number that does not fit 64 bits is reported as no number at all; the
    overflow error is only for the multiplication by the unit. *)
Lemma parse_duration_large_number s num unit :
  trim s = num +:+ unit → num ≠ "" → all_digits num = true →
  (∀ c u, unit = String c u → is_ascii_digit c = false) →
  u64_limit <= digits_value 0 num →
  parse_duration s = Err (DurNotANumber s).
Proof.
  intros Ht Hn Hd Hu Hlim. rewrite (parse_duration_parts s num unit); [|done|done|].
  - cbv zeta. by rewrite (proj2 (Z.leb_le _ _)).
  - rewrite Ht. by apply split_digits_app.
Qed.

Example parse_duration_examples :
  parse_duration " 5m " = Ok (mkDuration 300 0) ∧
  parse_duration "0" = Err (DurNonPositive "0") ∧
  parse_duration "5d" = Err (DurUnknownUnit "5d" "d") ∧
  parse_duration "5124095576030432h" = Err (DurOverflow "5124095576030432h") ∧
  parse_duration "18446744073709551616" = Err (DurNotANumber "18446744073709551616").
Proof. vm_compute. done. Qed.
