(* ===== verification/Json.v ===== *)
(** * JSON values and their canonical encoding

    [serde_json::Value] as the program uses it, and [canonical_json.rs].  An
    object is the list of its entries in some order; [well_keyed] says that its
    keys are distinct at every level, which holds of every [serde_json] map.
    The escaping of strings and the text of floats are [serde_json]'s and are
    parameters, as is SHA-256. *)

From stdpp Require Import pretty.
From S2P Require Import Prelude.

(** An integer in [-2^63, 2^64) or a float, given by its bits. *)
Inductive Number := JInt (z : Z) | JFloat (bits : Z).

Unset Elimination Schemes.
Inductive Json :=
| JNull
| JBool (b : bool)
| JNumber (n : Number)
| JString (s : string)
| JArray (items : list Json)
| JObject (map : list (string * Json)).
Set Elimination Schemes.

(** The induction principle that goes into arrays and objects. *)
Section json_induction.
Variable P : Json → Prop.
Hypothesis Hnull : P JNull.
Hypothesis Hbool : ∀ b, P (JBool b).
Hypothesis Hnumber : ∀ n, P (JNumber n).
Hypothesis Hstring : ∀ s, P (JString s).
Hypothesis Harray : ∀ l, Forall P l → P (JArray l).
Hypothesis Hobject : ∀ m, Forall (λ kv, P kv.2) m → P (JObject m).

Fixpoint json_ind' (v : Json) : P v :=
  match v with
  | JNull => Hnull
  | JBool b => Hbool b
  | JNumber n => Hnumber n
  | JString s => Hstring s
  | JArray l =>
      Harray l ((fix go (l : list Json) : Forall P l :=
        match l with
        | [] => List.Forall_nil P
        | x :: l' => @List.Forall_cons _ P x l' (json_ind' x) (go l')
        end) l)
  | JObject m =>
      Hobject m ((fix go (m : list (string * Json)) : Forall (λ kv, P kv.2) m :=
        match m with
        | [] => List.Forall_nil _
        | (k, x) :: m' => @List.Forall_cons _ (λ kv, P kv.2) (k, x) m' (json_ind' x) (go m')
        end) m)
  end.
End json_induction.

(** ** Accessors *)

(** [Value::get] with a string key. *)
Definition json_get (k : string) (v : Json) : option Json :=
  match v with
  | JObject m => (list_to_map m : gmap string Json) !! k
  | _ => None
  end.

Definition as_str (v : Json) : option string :=
  match v with JString s => Some s | _ => None end.

(** [Value::as_u64] *)
Definition as_u64 (v : Json) : option Z :=
  match v with
  | JNumber (JInt z) => if (0 <=? z)%Z && (z <? 2 ^ 64)%Z then Some z else None
  | _ => None
  end.

Definition i64_min : Z := -(2 ^ 63).
Definition i64_max : Z := 2 ^ 63 - 1.

Definition as_i64 (n : Number) : option Z :=
  match n with
  | JInt z => if (i64_min <=? z)%Z && (z <=? i64_max)%Z then Some z else None
  | JFloat _ => None
  end.

Fixpoint well_keyed (v : Json) : Prop :=
  match v with
  | JArray l => foldr and True (map well_keyed l)
  | JObject m => NoDup m.*1 ∧ foldr and True (map (λ kv, well_keyed kv.2) m)
  | _ => True
  end.

Lemma well_keyed_array l : well_keyed (JArray l) ↔ Forall well_keyed l.
Proof. simpl. rewrite <-Forall_fold_right. by rewrite Forall_map. Qed.

(** ** Canonical encoding *)

Section canonical.
Context (escape : string → string) (float_to_string : Z → string) (sha256 : string → list N).

Definition number_to_string (n : Number) : string :=
  match n with JInt z => pretty z | JFloat b => float_to_string b end.

(** The items with a comma before every one but the first. *)
Fixpoint join_commas (l : list string) : string :=
  match l with
  | [] => ""
  | [s] => s
  | s :: l' => s +:+ "," +:+ join_commas l'
  end.

Fixpoint write_canonical (value : Json) : string :=
  match value with
  | JNull => "null"
  | JBool b => if b then "true" else "false"
  | JNumber n => number_to_string n
  | JString s => escape s
  | JArray items => "[" +:+ join_commas (map write_canonical items) +:+ "]"
  | JObject m =>
      let written : gmap string string :=
        list_to_map (map (λ kv, (kv.1, write_canonical kv.2)) m) in
      let keys := sort_strings (map fst m) in
      "{" +:+ join_commas (map (λ k, escape k +:+ ":" +:+ default "" (written !! k)) keys) +:+ "}"
  end.

Definition hash (value : option Json) : list N :=
  let v := match value with Some v => v | None => JObject [] end in
  sha256 (write_canonical v).

(** Equality of JSON values up to the order of the entries of objects. *)
#[warnings="-register-all"]
Inductive json_equiv : Json → Json → Prop :=
| je_null : json_equiv JNull JNull
| je_bool b : json_equiv (JBool b) (JBool b)
| je_number n : json_equiv (JNumber n) (JNumber n)
| je_string s : json_equiv (JString s) (JString s)
| je_array l1 l2 : Forall2 json_equiv l1 l2 → json_equiv (JArray l1) (JArray l2)
| je_object m1 m m2 :
    m1 ≡ₚ m → Forall2 (λ kv1 kv2, kv1.1 = kv2.1 ∧ json_equiv kv1.2 kv2.2) m m2 →
    json_equiv (JObject m1) (JObject m2).

Lemma write_canonical_equiv v1 v2 :
  json_equiv v1 v2 → well_keyed v1 → write_canonical v1 = write_canonical v2.
Proof.
  revert v2. induction v1 as [| | | |l IH|m IH] using json_ind'; intros v2 Hv Hk;
    inversion Hv as [| | | |? l2 Hl|? m' m2 Hp Hm]; subst; try done.
  - apply well_keyed_array in Hk. simpl. do 3 f_equal.
    clear Hv. induction Hl as [|x y l l2 Hxy Hl IHl]; [done|].
    apply Forall_cons in IH as [IHx IH], Hk as [Hkx Hk]. simpl. f_equal; [auto|]. by apply IHl.
  - destruct Hk as [Hnd Hk]. rewrite <-Forall_fold_right, Forall_map in Hk. cbn in Hk.
    rewrite Hp in IH, Hk. clear Hv. cbn [write_canonical].
    assert (map (λ kv, (kv.1, write_canonical kv.2)) m' =
            map (λ kv, (kv.1, write_canonical kv.2)) m2) as Hw.
    { clear Hnd Hp. induction Hm as [|[k1 x] [k2 y] m' m2 [Hkk Hxy] Hm IHm]; [done|].
      apply Forall_cons in IH as [IHx IH], Hk as [Hkx Hk]. simpl in *. subst.
      f_equal; [|by apply IHm]. f_equal. auto. }
    assert (map fst m' = map fst m2) as Hf.
    { apply (f_equal (map fst)) in Hw. by rewrite !map_map in Hw. }
    rewrite <-Hw, <-Hf. rewrite (sort_strings_perm (map fst m) (map fst m')) by by rewrite Hp.
    erewrite (list_to_map_proper (map _ m)); [done| |by rewrite Hp].
    by rewrite <-list_fmap_compose.
Qed.
End canonical.

(** Two values that differ only in the order of the entries of their objects, at
    any depth, have the same idempotency hash. *)
Theorem hash_key_order escape float_to_string sha256 v1 v2 :
  json_equiv v1 v2 → well_keyed v1 →
  hash escape float_to_string sha256 (Some v1) = hash escape float_to_string sha256 (Some v2).
Proof. intros Hv Hk. unfold hash. by rewrite (write_canonical_equiv _ _ v1 v2). Qed.

Definition quote (s : string) : string :=
  String (ascii_of_nat 34) (s +:+ String (ascii_of_nat 34) "").

Definition ab : Json :=
  JObject [("a", JNumber (JInt 1)); ("b", JObject [("x", JNull); ("y", JBool true)])].
Definition ba : Json :=
  JObject [("b", JObject [("y", JBool true); ("x", JNull)]); ("a", JNumber (JInt 1))].

Lemma hash_key_order_witness :
  hash quote pretty (λ s, [N.of_nat (String.length s)]) (Some ab) =
  hash quote pretty (λ s, [N.of_nat (String.length s)]) (Some ba).
Proof.
  apply (hash_key_order quote pretty (λ s, [N.of_nat (String.length s)]) ab ba).
  - unfold ab, ba. eapply je_object; [apply Permutation_swap|].
    repeat constructor. eapply je_object; [apply Permutation_swap|]. repeat constructor.
  - unfold ab. simpl. split_and!; try done; apply (bool_decide_unpack _); vm_compute; exact I.
Defined.
