(* ===== verification/Uuid.v ===== *)
(** * The [uuid] crate

    The operations of the [uuid] crate that the program calls, as a type class
    over an abstract carrier, with the documented law the code relies on.  The
    instance over bit strings below is a concrete crate for evaluating the model. *)

From S2P Require Import Prelude.

Class UuidOps (Uuid : Type) := {
  uuid_eq_dec :: EqDecision Uuid;
  uuid_parse_str : string → option Uuid;
  uuid_to_string : Uuid → string;
  uuid_nil : Uuid;
  (** [Uuid::new_v5(namespace, name)] *)
  uuid_new_v5 : Uuid → string → Uuid
}.

(** The canonical text of a uuid parses back to it, and is made of hexadecimal
    digits and hyphens: it has no dot and no colon. *)
Class UuidLaws (Uuid : Type) `{UuidOps Uuid} := {
  uuid_parse_to_string u : uuid_parse_str (uuid_to_string u) = Some u;
  uuid_text_no_dot u : contains_char "." (uuid_to_string u) = false;
  uuid_text_no_colon u : contains_char ":" (uuid_to_string u) = false
}.

Section uuid.
Context `{UuidLaws Uuid}.

Lemma uuid_to_string_inj u v : uuid_to_string u = uuid_to_string v → u = v.
Proof.
  intros Heq. apply (f_equal uuid_parse_str) in Heq.
  rewrite !uuid_parse_to_string in Heq. by injection Heq.
Qed.
End uuid.

(** ** A concrete crate: uuids as bit strings *)

Record bit_uuid := mkBitUuid { uuid_bits : list bool }.

#[global] Instance bit_uuid_eq_dec : EqDecision bit_uuid.
Proof. solve_decision. Defined.

Fixpoint bits_to_string (l : list bool) : string :=
  match l with
  | [] => ""
  | b :: l' => String (if b then "1" else "0")%char (bits_to_string l')
  end.

Fixpoint bits_of_string (s : string) : option (list bool) :=
  match s with
  | EmptyString => Some []
  | String c s' =>
      l ← bits_of_string s';
      if decide (c = "1"%char) then Some (true :: l)
      else if decide (c = "0"%char) then Some (false :: l) else None
  end.

Definition ascii_bits (c : ascii) : list bool :=
  let 'Ascii b0 b1 b2 b3 b4 b5 b6 b7 := c in [b0; b1; b2; b3; b4; b5; b6; b7].

#[global] Instance bit_uuid_countable : Countable bit_uuid.
Proof. apply (inj_countable' uuid_bits mkBitUuid). by intros []. Defined.

#[global] Instance bit_uuid_ops : UuidOps bit_uuid := {
  uuid_parse_str s :=
    match s with String "u" s' => mkBitUuid <$> bits_of_string s' | _ => None end;
  uuid_to_string u := String "u" (bits_to_string (uuid_bits u));
  uuid_nil := mkBitUuid [];
  uuid_new_v5 ns name :=
    mkBitUuid (mjoin (ascii_bits <$> String.list_ascii_of_string name))
}.

#[global] Instance bit_uuid_laws : UuidLaws bit_uuid.
Proof.
  split; intros [l]; simpl.
  - enough (bits_of_string (bits_to_string l) = Some l) as -> by done.
    induction l as [|[] l IH]; simpl; [done|by rewrite IH..].
  - apply bool_decide_eq_false. simpl. apply not_elem_of_cons. split; [done|].
    induction l as [|[] l IH]; simpl; [apply not_elem_of_nil|by apply not_elem_of_cons..].
  - apply bool_decide_eq_false. simpl. apply not_elem_of_cons. split; [done|].
    induction l as [|[] l IH]; simpl; [apply not_elem_of_nil|by apply not_elem_of_cons..].
Qed.

Definition unary (n : nat) : bit_uuid := mkBitUuid (replicate n true).
