(* ===== verification/ParserTypes.v ===== *)
(** * The parsed workflow document

    [parser/types.rs]: what [serde] makes of the JSON the DSL evaluates to. *)

From S2P Require Import Prelude Json.

Record ParsedSignalRef := mkParsedSignalRef { psr_name : string }.

Inductive ParsedCaptureSource := PCS_Trigger (jsonpath : string).

Record ParsedCaptureDeclaration := mkParsedCapture {
  pcd_name : string;
  pcd_from : ParsedCaptureSource
}.

Inductive ParsedSignalEmit :=
| PE_SignalEmit (signal : ParsedSignalRef) (from_routing_var : string)
| PE_SignalEmitOnFailure (signal : ParsedSignalRef).

Record ParsedRoutingVar := mkParsedRoutingVar {
  prv_name : string;
  prv_kind : option string;
  prv_var_type : option string
}.

Inductive ParsedInputSource :=
| PIS_Task (name : string)
| PIS_Trigger (v : Json)
| PIS_Signal (v : Json).

Inductive ParsedInputBinding :=
| Bare (name : string)
| Structured (name : string) (from : ParsedInputSource).

Definition binding_name (b : ParsedInputBinding) : string :=
  match b with Bare s => s | Structured name _ => name end.

Record ParsedTask := mkParsedTask {
  pt_name : string;
  pt_args : list string;
  pt_nix_expression_path : option string;
  pt_outputs : list string;
  pt_inputs : list ParsedInputBinding;
  pt_secrets : list string;
  pt_max_attempts : option Z;
  pt_routing_vars : list ParsedRoutingVar;
  pt_emits : list ParsedSignalEmit;
  pt_timeout : option string
}.

Record ParsedSignalGate := mkParsedSignalGate {
  psg_signal : ParsedSignalRef;
  psg_predicate : option string;
  psg_captures : list ParsedCaptureDeclaration;
  psg_timeout : option string
}.

Record ParsedPredicateGate := mkParsedPredicateGate {
  ppg_routing_var : string;
  ppg_op : string;
  ppg_value : Json;
  ppg_timeout : option string
}.

Record ParsedTimerGate := mkParsedTimerGate { ptg_duration : string }.

Inductive ParsedGate :=
| PG_SignalGate (g : ParsedSignalGate)
| PG_PredicateGate (g : ParsedPredicateGate)
| PG_TimerGate (g : ParsedTimerGate).

Record ParsedEdge := mkParsedEdge {
  pe_sources : list string;
  pe_targets : list string;
  pe_kind : option string;
  pe_gate : option ParsedGate
}.

Record ParsedTaskGroup := mkParsedTaskGroup {
  ptg_name : string;
  ptg_tasks : list ParsedTask;
  ptg_args : list string;
  ptg_outputs : list string;
  ptg_edges : list ParsedEdge;
  ptg_max_iterations : option Z
}.

Inductive ParsedTriggerConfig :=
| PT_Cron (expr : string)
| PT_FireNow
| PT_WaitsOnSignal (signal : ParsedSignalRef) (predicate : option string)
    (captures : list ParsedCaptureDeclaration).

Record ParsedWorkflow := mkParsedWorkflow {
  pw_slug : string;
  pw_name : string;
  pw_args : list string;
  pw_outputs : list string;
  pw_tasks : list ParsedTaskGroup;
  pw_captures : list ParsedCaptureDeclaration;
  pw_tags : gmap string string;
  pw_trigger_on : option ParsedTriggerConfig;
  pw_timeout : option string
}.

(** Every task of every group, in order. *)
Definition all_tasks (pw : ParsedWorkflow) : list ParsedTask := mjoin (ptg_tasks <$> pw_tasks pw).
