(* ===== verification/Identity.v ===== *)
(** * Tenant and workflow identity

    [proto/src/tenant.rs]: [TenantId::from_slug] and [derive_workflow_id];
    [parser/builder.rs]: [validate_identity_segment]; [proto/src/identity.rs]:
    [identity_code].  The seed of a workflow id determines its tenant, namespace
    and slug, and a UUIDv5 that separates its seeds separates the identities. *)

From S2P Require Import Prelude Uuid.

(** ** Identity segments *)

Definition is_segment_char (c : ascii) : bool :=
  let n := nat_of_ascii c in
  ((97 <=? n) && (n <=? 122)) || ((48 <=? n) && (n <=? 57)) || (n =? 45).

Fixpoint all_chars (f : ascii → bool) (s : string) : bool :=
  match s with
  | EmptyString => true
  | String c s' => f c && all_chars f s'
  end.

(** [chars().count()] of a UTF-8 string: the bytes that are not continuations. *)
Fixpoint chars_count (s : string) : nat :=
  match s with
  | EmptyString => 0
  | String c s' =>
      let n := nat_of_ascii c in
      (if (128 <=? n) && (n <? 192) then 0 else 1) + chars_count s'
  end.

Definition valid_segment (value : string) : bool :=
  (1 <=? chars_count value) && (chars_count value <=? 64) && all_chars is_segment_char value.

Section identity.
Context `{UuidOps Uuid} (NAMESPACE_OID TENANT_NAMESPACE_OID : Uuid).

Definition TenantId_from_slug (slug : string) : Uuid := uuid_new_v5 TENANT_NAMESPACE_OID slug.

Definition identity_seed (tenant : Uuid) (namespace slug : string) : string :=
  uuid_to_string tenant +:+ "." +:+ namespace +:+ "." +:+ slug.

Definition derive_workflow_id (tenant : Uuid) (namespace slug : string) : Uuid :=
  uuid_new_v5 NAMESPACE_OID (identity_seed tenant namespace slug).

(** ** The seed is injective *)

Lemma segment_no_dot s : all_chars is_segment_char s = true → contains_char "." s = false.
Proof.
  intros Hs. apply bool_decide_eq_false. induction s as [|c s IH]; simpl in *.
  - apply not_elem_of_nil.
  - apply andb_prop in Hs as [Hc Hs]. apply not_elem_of_cons. split; [|auto].
    intros <-. done.
Qed.

Lemma identity_seed_inj `{!UuidLaws Uuid} t1 n1 s1 t2 n2 s2 :
  valid_segment n1 = true → valid_segment n2 = true →
  identity_seed t1 n1 s1 = identity_seed t2 n2 s2 → t1 = t2 ∧ n1 = n2 ∧ s1 = s2.
Proof.
  unfold valid_segment, identity_seed. intros [_ Hn1]%andb_prop [_ Hn2]%andb_prop Heq.
  apply split_at_char in Heq as [Ht Heq]; [|apply uuid_text_no_dot..].
  apply split_at_char in Heq as [-> ->]; [|by apply segment_no_dot..].
  by apply uuid_to_string_inj in Ht.
Qed.

(** With a UUIDv5 that separates the seeds at hand, two registrations get the same
    workflow id exactly when tenant, namespace and slug agree: renaming a
    workflow keeps its id, and tenants do not share ids. *)
Theorem workflow_identity_injective `{!UuidLaws Uuid} t1 n1 s1 t2 n2 s2 :
  (uuid_new_v5 NAMESPACE_OID (identity_seed t1 n1 s1) =
     uuid_new_v5 NAMESPACE_OID (identity_seed t2 n2 s2) →
   identity_seed t1 n1 s1 = identity_seed t2 n2 s2) →
  valid_segment n1 = true → valid_segment n2 = true →
  derive_workflow_id t1 n1 s1 = derive_workflow_id t2 n2 s2 ↔ t1 = t2 ∧ n1 = n2 ∧ s1 = s2.
Proof.
  intros Hv5 Hn1 Hn2. split; [|by intros (->&->&->)].
  intros Heq%Hv5. by apply identity_seed_inj.
Qed.
End identity.

Lemma workflow_identity_witness :
  derive_workflow_id (mkBitUuid [true]) (mkBitUuid [true]) "default" "nightly" =
  derive_workflow_id (mkBitUuid [true]) (mkBitUuid [true]) "default" "weekly" ↔
  mkBitUuid [true] = mkBitUuid [true] ∧ "default" = "default" ∧ "nightly" = "weekly".
Proof.
  apply (workflow_identity_injective (mkBitUuid [true]));
    [vm_compute; discriminate|vm_compute; reflexivity..].
Defined.

(** ** Identity codes *)

Definition CROCKFORD : string := "0123456789ABCDEFGHJKMNPQRSTVWXYZ".

Definition CODE_LEN : nat := 4.

Definition crockford (index : Z) : ascii :=
  default "?"%char (String.list_ascii_of_string CROCKFORD !! Z.to_nat index).

(** The symbol at position [i]: bits [128 - 5 (i + 1)] and up, five of them. *)
Definition code_index (bits : Z) (i : nat) : Z :=
  Z.land (Z.shiftr bits (128 - 5 * (Z.of_nat i + 1))) 31.

Definition identity_code (bits : Z) : string :=
  String.string_of_list_ascii (crockford ∘ code_index bits <$> seq 0 CODE_LEN).

Lemma code_index_range bits i : (0 <= code_index bits i < 32)%Z.
Proof.
  unfold code_index. change 31%Z with (Z.ones 5). rewrite Z.land_ones by lia.
  apply Z.mod_pos_bound. lia.
Qed.

Lemma crockford_lookup i :
  (0 <= i < 32)%Z →
  String.list_ascii_of_string CROCKFORD !! Z.to_nat i = Some (crockford i).
Proof.
  intros Hi. unfold crockford.
  destruct (lookup_lt_is_Some_2 (String.list_ascii_of_string CROCKFORD) (Z.to_nat i)) as [c Hc].
  { simpl. lia. }
  by rewrite Hc.
Qed.

Lemma crockford_inj i j :
  (0 <= i < 32)%Z → (0 <= j < 32)%Z → crockford i = crockford j → i = j.
Proof.
  intros Hi Hj Heq. apply Z2Nat.inj; [lia..|].
  apply (NoDup_lookup (String.list_ascii_of_string CROCKFORD) _ _ (crockford i)).
  - apply (bool_decide_unpack _). vm_compute. exact I.
  - by apply crockford_lookup.
  - rewrite Heq. by apply crockford_lookup.
Qed.

(** The four indices are the base-32 digits of the top twenty bits. *)
Lemma code_index_div bits i :
  i < 4 → code_index bits i = ((Z.shiftr bits 108 / 2 ^ (15 - 5 * Z.of_nat i)) mod 32)%Z.
Proof.
  intros Hi. unfold code_index. change 31%Z with (Z.ones 5). rewrite Z.land_ones by lia.
  rewrite <-Z.shiftr_div_pow2, Z.shiftr_shiftr by lia. do 2 f_equal. lia.
Qed.

Lemma code_digits bits :
  (0 <= bits < 2 ^ 128)%Z →
  (Z.shiftr bits 108 = code_index bits 0 * 32768 + code_index bits 1 * 1024 +
                       code_index bits 2 * 32 + code_index bits 3)%Z.
Proof.
  intros Hb. rewrite !code_index_div by lia.
  assert (0 <= Z.shiftr bits 108 < 2 ^ 20)%Z as Hx.
  { rewrite Z.shiftr_div_pow2 by lia. split; [apply Z.div_pos; lia|].
    apply Z.div_lt_upper_bound; lia. }
  generalize dependent (Z.shiftr bits 108). intros x Hx.
  replace (2 ^ (15 - 5 * Z.of_nat 0))%Z with 32768%Z by done.
  replace (2 ^ (15 - 5 * Z.of_nat 1))%Z with 1024%Z by done.
  replace (2 ^ (15 - 5 * Z.of_nat 2))%Z with 32%Z by done.
  replace (2 ^ (15 - 5 * Z.of_nat 3))%Z with 1%Z by done.
  Z.to_euclidean_division_equations. lia.
Qed.

(** An identity code has four symbols and is exactly as fine as the top twenty
    bits of the uuid. *)
Theorem identity_code_prefix b1 b2 :
  (0 <= b1 < 2 ^ 128)%Z → (0 <= b2 < 2 ^ 128)%Z →
  String.length (identity_code b1) = 4 ∧
  (identity_code b1 = identity_code b2 ↔ Z.shiftr b1 108 = Z.shiftr b2 108).
Proof.
  intros H1 H2. split; [done|]. split.
  - intros Heq. assert (∀ i, i < 4 → code_index b1 i = code_index b2 i) as Hi.
    { intros i Hi. apply crockford_inj; [apply code_index_range..|].
      injection Heq as H0' H1' H2' H3'. unfold compose in *.
      do 4 (destruct i as [|i]; [done|]). lia. }
    by rewrite !code_digits, !Hi by (done || lia).
  - intros Heq. unfold identity_code. f_equal. apply list_fmap_ext. intros k i Hk.
    apply lookup_seq in Hk as [-> Hk]. unfold compose, CODE_LEN in *. f_equal.
    by rewrite !code_index_div, Heq by lia.
Qed.

Lemma identity_code_prefix_witness :
  String.length (identity_code (2 ^ 127)) = 4 ∧
  (identity_code (2 ^ 127) = identity_code (2 ^ 127 + 1) ↔
   Z.shiftr (2 ^ 127) 108 = Z.shiftr (2 ^ 127 + 1) 108).
Proof. apply (identity_code_prefix (2 ^ 127) (2 ^ 127 + 1)); lia. Defined.

(** ** Scheduled instances *)

Section scheduled.
Context (sha256 : string → list Z).

(** [derive_scheduled_workflow_instance_id] over the sixteen bytes of the
    workflow id and the RFC 3339 text of the scheduled time. *)
Definition derive_scheduled_workflow_instance_id (workflow_bytes : list Z) (scheduled_at : string)
    : list Z :=
  let bytes := take 8 workflow_bytes ++ take 8 (sha256 scheduled_at) in
  let bytes := alter (λ b, Z.lor (Z.land b 15) 64) 6 bytes in
  alter (λ b, Z.lor (Z.land b 63) 128) 8 bytes.
End scheduled.

Definition is_byte (b : Z) : Prop := (0 <= b < 256)%Z.

Lemma version_byte b :
  is_byte b → Z.shiftr (Z.lor (Z.land b 15) 64) 4 = 4%Z ∧ is_byte (Z.lor (Z.land b 15) 64).
Proof.
  intros Hb. assert (Forall (λ b, Z.shiftr (Z.lor (Z.land b 15) 64) 4 = 4%Z ∧
                       (0 <= Z.lor (Z.land b 15) 64 < 256)%Z) (seqZ 0 256)) as Hall.
  { apply (bool_decide_unpack _). vm_compute. exact I. }
  rewrite Forall_forall in Hall. apply Hall, elem_of_seqZ. unfold is_byte in *. lia.
Qed.

Lemma variant_byte b :
  is_byte b → Z.shiftr (Z.lor (Z.land b 63) 128) 6 = 2%Z ∧ is_byte (Z.lor (Z.land b 63) 128).
Proof.
  intros Hb. assert (Forall (λ b, Z.shiftr (Z.lor (Z.land b 63) 128) 6 = 2%Z ∧
                       (0 <= Z.lor (Z.land b 63) 128 < 256)%Z) (seqZ 0 256)) as Hall.
  { apply (bool_decide_unpack _). vm_compute. exact I. }
  rewrite Forall_forall in Hall. apply Hall, elem_of_seqZ. unfold is_byte in *. lia.
Qed.

(** A scheduled instance id is sixteen bytes with the version and variant of a
    UUIDv4; it keeps the first six bytes of the workflow id. *)
Theorem scheduled_id_shape sha256 wid at_ :
  length wid = 16 → Forall is_byte wid →
  length (sha256 at_) = 32 → Forall is_byte (sha256 at_) →
  let id := derive_scheduled_workflow_instance_id sha256 wid at_ in
  length id = 16 ∧ Forall is_byte id ∧
  (∃ v, id !! 6 = Some v ∧ Z.shiftr v 4 = 4%Z) ∧
  (∃ v, id !! 8 = Some v ∧ Z.shiftr v 6 = 2%Z) ∧
  take 6 id = take 6 wid.
Proof.
  intros Hlw Hbw Hlh Hbh id. subst id. unfold derive_scheduled_workflow_instance_id.
  destruct wid as [|w0 [|w1 [|w2 [|w3 [|w4 [|w5 [|w6 [|w7 wid]]]]]]]]; try done.
  destruct (sha256 at_) as [|h0 [|h1 [|h2 [|h3 [|h4 [|h5 [|h6 [|h7 hs]]]]]]]]; try done.
  rewrite !Forall_cons in Hbw, Hbh. destruct_and!. simpl.
  split_and!; [done| |eexists; split; [done|by apply version_byte]
              |eexists; split; [done|by apply variant_byte]|done].
  rewrite !Forall_cons. split_and!; try done; [by apply version_byte|by apply variant_byte].
Qed.

Lemma scheduled_id_shape_witness :
  let id := derive_scheduled_workflow_instance_id (λ _, replicate 32 255%Z) (replicate 16 255%Z) "t" in
  length id = 16 ∧ Forall is_byte id ∧
  (∃ v, id !! 6 = Some v ∧ Z.shiftr v 4 = 4%Z) ∧
  (∃ v, id !! 8 = Some v ∧ Z.shiftr v 6 = 2%Z) ∧
  take 6 id = take 6 (replicate 16 255%Z).
Proof.
  apply (scheduled_id_shape (λ _, replicate 32 255%Z) (replicate 16 255%Z) "t");
    [reflexivity|apply Forall_replicate; unfold is_byte; lia
    |reflexivity|apply Forall_replicate; unfold is_byte; lia].
Defined.
