(* ===== verification/SignalSources.v ===== *)
(** * Signal input sources

    [definition_graph.rs]: [resolve_signal_input_sources], which binds every
    unresolved [from.signal] slot of the tasks to the one gate-bearing edge that
    carries the signal and dominates the task. *)

From S2P Require Import Prelude Workflow Dominators Uuid.

Record ResolvedSignalSource := mkResolvedSignalSource {
  rss_task_id : string;
  rss_slot : nat;
  rss_gate_edge_id : string
}.

Inductive SignalResolutionError :=
| Unresolved (task_id signal_name : string)
| Ambiguous (task_id signal_name : string) (count : nat).

Definition carries_signal (signal_name : string) (e : Edge) : bool :=
  existsb (λ g, match gate_kind g with
                | Some (Gate_SignalReceived sr) => bool_decide (sr_signal_name sr = signal_name)
                | _ => false
                end) (edge_gates e).

Definition dominating_gates (graph : TaskGraph) (task_id signal_name : string) : list string :=
  edge_id <$> List.filter (λ e, carries_signal signal_name e
                                && is_ok (validate_dominates graph task_id (edge_id e)))
                (graph_edges graph).

Section resolution.
Context `{UuidOps Uuid}.

Definition is_unresolved (gate_edge_id : string) : bool :=
  match uuid_parse_str gate_edge_id with
  | Some u => bool_decide (u = uuid_nil)
  | None => true
  end.

(** One turn of the inner loop; [None] is a [continue]. *)
Definition resolve_slot (graph : TaskGraph) (task : TaskDefinition) (slot : nat)
    (opt : OptionalInputSource) : result (option ResolvedSignalSource) SignalResolutionError :=
  match optional_source opt with
  | Some (mkInputSource (Some (InputSource_Signal signal_name gate_edge_id))) =>
      if negb (is_unresolved gate_edge_id) then Ok None
      else match dominating_gates graph (task_id task) signal_name with
           | [] => Err (Unresolved (task_id task) signal_name)
           | [eid] => Ok (Some (mkResolvedSignalSource (task_id task) slot eid))
           | l => Err (Ambiguous (task_id task) signal_name (length l))
           end
  | _ => Ok None
  end.

(** The two nested loops, in order; the first error ends them. *)
Definition resolve_task (graph : TaskGraph) (task : TaskDefinition)
    : result (list ResolvedSignalSource) SignalResolutionError :=
  match task_input_sources task with
  | None => Ok []
  | Some l =>
      let? rs := collect (λ '(slot, opt), resolve_slot graph task slot opt)
                   (imap pair (sources_list l)) in
      Ok (omap id rs)
  end.

Definition resolve_signal_input_sources (tasks : list TaskDefinition) (graph : TaskGraph)
    : result (list ResolvedSignalSource) SignalResolutionError :=
  let? rss := collect (resolve_task graph) tasks in Ok (mjoin rss).

(** ** Specification *)

(** The slot of a task that waits for resolution, with its signal. *)
Definition pending_slot (task : TaskDefinition) (slot : nat) (signal_name : string) : Prop :=
  ∃ l gate, task_input_sources task = Some l ∧
    sources_list l !! slot =
      Some (mkOptionalInputSource (Some (mkInputSource
              (Some (InputSource_Signal signal_name gate))))) ∧
    is_unresolved gate = true.

(** [eid] is the id of the only edge that carries the signal and dominates. *)
Definition only_gate (graph : TaskGraph) (tid signal_name eid : string) : Prop :=
  ∃ l1 e l2, graph_edges graph = l1 ++ e :: l2 ∧ edge_id e = eid ∧
    carries_signal signal_name e = true ∧ gate_dominates graph eid tid ∧
    ∀ e', e' ∈ l1 ++ l2 → carries_signal signal_name e' = true →
          ¬ gate_dominates graph (edge_id e') tid.

Lemma dominates_bool graph tid eid :
  is_ok (validate_dominates graph tid eid) = true ↔ gate_dominates graph eid tid.
Proof.
  rewrite <-validate_dominates_ok. destruct (validate_dominates graph tid eid) as [[]|]; by split.
Qed.

Lemma filter_singleton {A} (f : A → bool) l x :
  List.filter f l = [x] ↔
  ∃ l1 l2, l = l1 ++ x :: l2 ∧ f x = true ∧ ∀ y, y ∈ l1 ++ l2 → f y = false.
Proof.
  assert (∀ l', List.filter f l' = [] ↔ ∀ y, y ∈ l' → f y = false) as Hnil.
  { induction l' as [|y l' IH]; simpl; [split; [by intros _ y ?%elem_of_nil|done]|].
    destruct (f y) eqn:Hy.
    - split; [done|]. intros Hall. specialize (Hall y ltac:(left)). congruence.
    - rewrite IH. split; [intros Hall z [->|?]%elem_of_cons; auto|].
      intros Hall z ?. apply Hall. by right. }
  split.
  - induction l as [|y l IH]; simpl; [done|]. destruct (f y) eqn:Hy.
    + intros [= -> Hl]. exists [], l. split_and!; [done..|]. by apply Hnil.
    + intros (l1&l2&->&Hx&Hall)%IH. exists (y :: l1), l2. split_and!; [done..|].
      simpl. intros z [->|?]%elem_of_cons; auto.
  - intros (l1&l2&->&Hx&Hall). rewrite List.filter_app. simpl. rewrite Hx.
    setoid_rewrite elem_of_app in Hall.
    rewrite (proj2 (Hnil l1)), (proj2 (Hnil l2)) by auto. done.
Qed.

Lemma only_gate_iff graph tid name eid :
  dominating_gates graph tid name = [eid] ↔ only_gate graph tid name eid.
Proof.
  unfold dominating_gates, only_gate. split.
  - destruct (List.filter _ _) as [|e [|]] eqn:Hf; simplify_eq/=; try done.
    intros [= <-]. apply filter_singleton in Hf as (l1&l2&->&[Hc Hd]%andb_prop&Hall).
    exists l1, e, l2. split_and!; [done..|by apply dominates_bool|].
    intros e' He' Hc' Hd'%dominates_bool. specialize (Hall e' He').
    rewrite Hc', Hd' in Hall. done.
  - intros (l1&e&l2&Hg&<-&Hc&Hd%dominates_bool&Hall).
    assert (List.filter (λ e, carries_signal name e
              && is_ok (validate_dominates graph tid (edge_id e))) (graph_edges graph) = [e])
      as ->; [|done].
    apply filter_singleton. exists l1, l2. split_and!; [done|by rewrite Hc, Hd|].
    intros e' He'. apply andb_false_iff.
    destruct (carries_signal name e') eqn:Hc'; [right|by left].
    apply not_true_iff_false. intros ?%dominates_bool. by eapply Hall.
Qed.

Definition pending_signal (opt : OptionalInputSource) : option string :=
  match optional_source opt with
  | Some (mkInputSource (Some (InputSource_Signal signal_name gate))) =>
      if is_unresolved gate then Some signal_name else None
  | _ => None
  end.

Lemma pending_slot_iff task slot name :
  pending_slot task slot name ↔
  ∃ l opt, task_input_sources task = Some l ∧ sources_list l !! slot = Some opt ∧
           pending_signal opt = Some name.
Proof.
  unfold pending_slot, pending_signal. split.
  - intros (l&gate&?&?&Hu). eexists l, _. split_and!; [done..|]. simpl. by rewrite Hu.
  - intros (l&[[[[[]|]]|]]&Hl&Ho&Hp); simplify_eq/=. case_match eqn:Hu; simplify_eq. eauto 10.
Qed.

Lemma resolve_slot_eq graph task slot opt :
  resolve_slot graph task slot opt =
  match pending_signal opt with
  | None => Ok None
  | Some name =>
      match dominating_gates graph (task_id task) name with
      | [] => Err (Unresolved (task_id task) name)
      | [eid] => Ok (Some (mkResolvedSignalSource (task_id task) slot eid))
      | l => Err (Ambiguous (task_id task) name (length l))
      end
  end.
Proof.
  unfold resolve_slot, pending_signal.
  destruct (optional_source opt) as [[[[]|]]|]; try done. by destruct (is_unresolved _).
Qed.

Lemma resolve_slot_ok graph task slot opt o :
  resolve_slot graph task slot opt = Ok o ↔
  match pending_signal opt with
  | None => o = None
  | Some name => ∃ eid, only_gate graph (task_id task) name eid ∧
                        o = Some (mkResolvedSignalSource (task_id task) slot eid)
  end.
Proof.
  rewrite resolve_slot_eq. destruct (pending_signal opt) as [name|]; [|naive_solver].
  setoid_rewrite <-only_gate_iff.
  destruct (dominating_gates _ _ _) as [|? [|]]; naive_solver.
Qed.

(** What an error says of a task and a signal. *)
Definition resolution_failure (graph : TaskGraph) (tid name : string)
    (e : SignalResolutionError) : Prop :=
  match e with
  | Unresolved t s => t = tid ∧ s = name ∧
      ∀ ed, ed ∈ graph_edges graph → carries_signal name ed = true →
            ¬ gate_dominates graph (edge_id ed) tid
  | Ambiguous t s n => t = tid ∧ s = name ∧ 2 ≤ n ∧
      n = length (dominating_gates graph tid name)
  end.

Lemma resolve_slot_err graph task slot opt e :
  resolve_slot graph task slot opt = Err e →
  ∃ name, pending_signal opt = Some name ∧ resolution_failure graph (task_id task) name e.
Proof.
  rewrite resolve_slot_eq. destruct (pending_signal opt) as [name|]; [|done]. intros He.
  exists name. split; [done|].
  destruct (dominating_gates graph (task_id task) name) as [|x [|y l]] eqn:Hd;
    simplify_eq/=.
  - split_and!; [done..|]. intros ed Hed Hc Hdom%dominates_bool. unfold dominating_gates in Hd.
    apply fmap_nil_inv in Hd.
    assert (ed ∈ ([] : list Edge)) as []%elem_of_nil.
    rewrite <-Hd, list_elem_of_In, filter_In. by rewrite <-list_elem_of_In, Hc, Hdom.
  - split_and!; [done..|lia|]. by rewrite Hd.
Qed.

(** ** The slots of all tasks *)

Lemma elem_of_imap_pair {A} (l : list A) i x : (i, x) ∈ imap pair l ↔ l !! i = Some x.
Proof. rewrite elem_of_lookup_imap. naive_solver. Qed.

Lemma resolve_task_ok graph task rs :
  resolve_task graph task = Ok rs →
  ∀ r, r ∈ rs ↔ ∃ slot name eid, pending_slot task slot name ∧
    only_gate graph (task_id task) name eid ∧
    r = mkResolvedSignalSource (task_id task) slot eid.
Proof.
  unfold resolve_task. setoid_rewrite pending_slot_iff.
  destruct (task_input_sources task) as [l|]; [|intros [= <-]; set_solver].
  destruct (collect _ _) as [os|] eqn:Hc; [|done]. intros [= <-] r.
  apply collect_ok in Hc. rewrite list_elem_of_omap. split.
  - intros (o&Ho&Hr). cbn in Hr. subst.
    apply list_elem_of_lookup in Ho as [i Hi].
    destruct (Forall2_lookup_r _ _ _ _ _ Hc Hi) as ([slot opt]&Hs&Hok).
    apply list_elem_of_lookup_2, elem_of_imap_pair in Hs.
    apply resolve_slot_ok in Hok. destruct (pending_signal opt) as [name|] eqn:Hp; [|done].
    destruct Hok as (eid&?&[= ->]). eauto 10.
  - intros (slot&name&eid&(l'&opt&[= <-]&Hopt&Hp)&Hg&->).
    apply elem_of_imap_pair, list_elem_of_lookup in Hopt as [i Hi].
    destruct (Forall2_lookup_l _ _ _ _ _ Hc Hi) as (o&Ho&Hok).
    apply resolve_slot_ok in Hok. rewrite Hp in Hok. destruct Hok as (eid'&Hg'&->).
    eexists. split; [by eapply list_elem_of_lookup_2|]. cbn. f_equal. f_equal.
    apply only_gate_iff in Hg, Hg'. congruence.
Qed.

Lemma resolve_task_is_ok graph task :
  (∃ rs, resolve_task graph task = Ok rs) ↔
  ∀ slot name, pending_slot task slot name → ∃ eid, only_gate graph (task_id task) name eid.
Proof.
  unfold resolve_task. setoid_rewrite pending_slot_iff.
  destruct (task_input_sources task) as [l|]; [|naive_solver].
  destruct (collect _ _) as [os|e] eqn:Hc.
  - split; [|eauto]. intros _ slot name (l'&opt&[= <-]&Hopt&Hp). apply collect_ok in Hc.
    apply elem_of_imap_pair, list_elem_of_lookup in Hopt as [i Hi].
    destruct (Forall2_lookup_l _ _ _ _ _ Hc Hi) as (o&Ho&Hok).
    apply resolve_slot_ok in Hok. rewrite Hp in Hok. naive_solver.
  - split; [naive_solver|]. intros Hall. exfalso.
    apply collect_err in Hc as (l1&[slot opt]&l2&Heq&He&_).
    assert ((slot, opt) ∈ imap pair (sources_list l)) as Hin%elem_of_imap_pair
      by (rewrite Heq; set_solver).
    destruct (resolve_slot_err _ _ _ _ _ He) as (name&Hp&_).
    destruct (Hall slot name) as [eid Hg]; [eauto 10|].
    rewrite resolve_slot_eq, Hp in He. apply only_gate_iff in Hg. by rewrite Hg in He.
Qed.

Lemma resolve_tasks_elem tasks graph rs :
  resolve_signal_input_sources tasks graph = Ok rs →
  ∀ r, r ∈ rs ↔ ∃ task slot name eid, task ∈ tasks ∧ pending_slot task slot name ∧
    only_gate graph (task_id task) name eid ∧
    r = mkResolvedSignalSource (task_id task) slot eid.
Proof.
  unfold resolve_signal_input_sources. destruct (collect _ _) as [rss|] eqn:Hc; [|done].
  intros [= <-] r. apply collect_ok in Hc. rewrite list_elem_of_join. split.
  - intros (rs'&Hr&[i Hi]%list_elem_of_lookup).
    destruct (Forall2_lookup_r _ _ _ _ _ Hc Hi) as (task&Ht&Hok).
    apply (resolve_task_ok _ _ _ Hok) in Hr as (slot&name&eid&?&?&?).
    exists task, slot, name, eid. split; [by eapply list_elem_of_lookup_2|done].
  - intros (task&slot&name&eid&[i Hi]%list_elem_of_lookup&?&?&?).
    destruct (Forall2_lookup_l _ _ _ _ _ Hc Hi) as (rs'&Ht&Hok).
    exists rs'. split; [|by eapply list_elem_of_lookup_2].
    apply (resolve_task_ok _ _ _ Hok). eauto 10.
Qed.

Lemma resolve_tasks_err tasks graph e :
  resolve_signal_input_sources tasks graph = Err e →
  ∃ task slot name, task ∈ tasks ∧ pending_slot task slot name ∧
                    resolution_failure graph (task_id task) name e.
Proof.
  unfold resolve_signal_input_sources. destruct (collect _ _) as [rss|e'] eqn:Hc; [done|].
  intros [= ->]. apply collect_err in Hc as (l1&task&l2&->&He&_).
  unfold resolve_task in He. destruct (task_input_sources task) as [l|] eqn:Hl; [|done].
  destruct (collect _ _) as [|e'] eqn:Hc; [done|]. injection He as ->.
  apply collect_err in Hc as (k1&[slot opt]&k2&Heq&Hs&_).
  destruct (resolve_slot_err _ _ _ _ _ Hs) as (name&Hp&Hf).
  exists task, slot, name. split_and!; [set_solver| |done].
  apply pending_slot_iff. exists l, opt. split_and!; [done| |done].
  apply elem_of_imap_pair. rewrite Heq. set_solver.
Qed.

Lemma resolve_signal_sources_ok tasks graph :
  (∃ rs, resolve_signal_input_sources tasks graph = Ok rs) ↔
  ∀ task slot name, task ∈ tasks → pending_slot task slot name →
    ∃ eid, only_gate graph (task_id task) name eid.
Proof.
  unfold resolve_signal_input_sources.
  destruct (collect _ _) as [rss|e] eqn:Hc.
  - split; [|eauto]. intros _ task slot name [i Hi]%list_elem_of_lookup Hp.
    apply collect_ok in Hc. destruct (Forall2_lookup_l _ _ _ _ _ Hc Hi) as (rs'&_&Hok).
    by eapply resolve_task_is_ok; [eexists|].
  - split; [naive_solver|]. intros Hall. exfalso.
    apply collect_err in Hc as (l1&task&l2&->&He&_).
    destruct (proj2 (resolve_task_is_ok graph task)) as [rs Hok]; [|congruence].
    intros slot name Hp. apply (Hall task slot name); [set_solver|done].
Qed.
End resolution.

(** C36: Resolution succeeds exactly when every pending slot has one gate-bearing edge
    that carries its signal and dominates its task; the result then binds every
    pending slot, and only those, each to that edge. *)
Theorem resolve_signal_sources_correct `{UuidOps Uuid} tasks graph :
  ((∃ rs, resolve_signal_input_sources tasks graph = Ok rs) ↔
   ∀ task slot name, task ∈ tasks → pending_slot task slot name →
     ∃ eid, only_gate graph (task_id task) name eid) ∧
  ∀ rs, resolve_signal_input_sources tasks graph = Ok rs →
    ∀ r, r ∈ rs ↔ ∃ task slot name eid, task ∈ tasks ∧ pending_slot task slot name ∧
      only_gate graph (task_id task) name eid ∧
      r = mkResolvedSignalSource (task_id task) slot eid.
Proof.
  split; [apply resolve_signal_sources_ok|apply resolve_tasks_elem].
Qed.

(** A failed resolution names a task and a signal of a pending slot for which no
    edge, or more than one, carries the signal and dominates. *)
Theorem signal_resolution_failure_explained `{UuidOps Uuid} tasks graph e :
  resolve_signal_input_sources tasks graph = Err e →
  ∃ task slot name, task ∈ tasks ∧ pending_slot task slot name ∧
                    resolution_failure graph (task_id task) name e.
Proof. apply resolve_tasks_err. Qed.

(** A task behind two parallel gates that carry the same signal. *)
Definition signal_gate (name : string) : Gate :=
  mkGate (Some (Gate_SignalReceived (mkSignalReceived name None [] None))).

Definition approval_task : TaskDefinition :=
  mkTaskDefinition "t" "wf" "t" 0 "" [] [] [] [] 1
    (Some (mkInputSourceList
       [mkOptionalInputSource (Some (mkInputSource (Some (InputSource_Signal "ok" "u"))))]))
    None [] [] false.

Definition approval_graph (second : string) : TaskGraph :=
  mkTaskGraph [] [mkEdge "g1" ["s"] ["m"] 0 [signal_gate "ok"];
                  mkEdge "g2" ["m"] ["t"] 0 [signal_gate second]] "s" "e".

Example approval_resolves :
  resolve_signal_input_sources (Uuid := bit_uuid) [approval_task] (approval_graph "other") =
  Ok [mkResolvedSignalSource "t" 0 "g1"].
Proof. vm_compute. reflexivity. Qed.

Lemma signal_resolution_failure_witness :
  ∃ task slot name, task ∈ [approval_task] ∧
    pending_slot (Uuid := bit_uuid) task slot name ∧
    resolution_failure (approval_graph "ok") (task_id task) name (Ambiguous "t" "ok" 2).
Proof.
  apply (signal_resolution_failure_explained (Uuid := bit_uuid)).
  vm_compute. reflexivity.
Defined.
