(* ===== verification/GateIndex.v ===== *)
(** * The gate index

    [gate_index.rs]: the in-memory index of dispatched gates, a store by gate
    identity with two reverse maps.  Every method takes the lock once, so an
    operation is one step on [Inner].  The abstract index is the store alone; the
    invariant says that the reverse maps are its inverse images, so the lookups
    and the sweep compute on the abstract index. *)

From S2P Require Import Prelude Workflow.

Section gate_index.
Context {Uuid : Type} `{Countable Uuid}.
Context {JsonPath : Type} (parse_path : string → option JsonPath).

Inductive RegisterError := InvalidPredicate (raw : string).

Record Entry := mkEntry {
  workflow_instance_id : Uuid;
  entry_edge_id : Uuid;
  signal_name : string;
  predicate : option JsonPath;
  captures_spec : list CaptureDeclaration
}.

Record Inner := mkInner {
  by_gate : gmap (Uuid * Uuid) Entry;
  by_name : gmap string (list (Uuid * Uuid));
  by_instance : gmap Uuid (list Uuid)
}.

Definition Inner_default : Inner := mkInner ∅ ∅ ∅.

(** [raw.parse::<JsonPath>()] of an optional predicate. *)
Definition parse_predicate (predicate : option string) : result (option JsonPath) RegisterError :=
  match predicate with
  | Some raw => let? p := ok_or (parse_path raw) (InvalidPredicate raw) in Ok (Some p)
  | None => Ok None
  end.

Definition unregister (wid eid : Uuid) (s : Inner) : Inner :=
  let key := (wid, eid) in
  match by_gate s !! key with
  | Some prev =>
      mkInner (delete key (by_gate s))
        (retain (λ k, negb (bool_decide (k = key))) (signal_name prev) (by_name s))
        (retain (λ e, negb (bool_decide (e = eid))) wid (by_instance s))
  | None => s
  end.

(** The insertion both [register] and [replace_all] end with. *)
Definition push_entry (wid eid : Uuid) (name : string) (entry : Entry) (s : Inner) : Inner :=
  mkInner (<[(wid, eid) := entry]> (by_gate s))
    (map_push name (wid, eid) (by_name s)) (map_push wid eid (by_instance s)).

Definition register (wid eid : Uuid) (name : string) (predicate : option string)
    (captures : list CaptureDeclaration) (s : Inner) : result Inner RegisterError :=
  let? parsed := parse_predicate predicate in
  let entry := mkEntry wid eid name parsed captures in
  Ok (push_entry wid eid name entry (unregister wid eid s)).

Definition lookup_by_signal_name (name : string) (s : Inner) : list Entry :=
  match by_name s !! name with
  | None => []
  | Some keys => omap (λ k, by_gate s !! k) keys
  end.

(** One turn of the loop of [sweep_instance]. *)
Definition sweep_edge (wid : Uuid) (s : Inner) (eid : Uuid) : Inner :=
  let key := (wid, eid) in
  match by_gate s !! key with
  | Some prev =>
      mkInner (delete key (by_gate s))
        (retain (λ k, negb (bool_decide (k = key))) (signal_name prev) (by_name s))
        (by_instance s)
  | None => s
  end.

Definition sweep_instance (wid : Uuid) (s : Inner) : Inner :=
  match by_instance s !! wid with
  | None => s
  | Some edges => foldl (sweep_edge wid) (mkInner (by_gate s) (by_name s) (delete wid (by_instance s))) edges
  end.

Definition Row : Type := Uuid * Uuid * string * option string * list CaptureDeclaration.

Definition ingest (next : Inner) (row : Row) : Inner :=
  let '(wid, eid, name, predicate, captures) := row in
  match parse_predicate predicate with
  | Ok parsed => push_entry wid eid name (mkEntry wid eid name parsed captures) next
  | Err _ => next
  end.

Definition replace_all (entries : list Row) (s : Inner) : Inner :=
  foldl ingest Inner_default entries.

Definition len (s : Inner) : nat := size (by_gate s).

(** ** The invariant *)

Record index_ok (s : Inner) : Prop := {
  io_key w e en : by_gate s !! (w, e) = Some en → workflow_instance_id en = w ∧ entry_edge_id en = e;
  io_name k n : k ∈ bucket (by_name s) n ↔ ∃ en, by_gate s !! k = Some en ∧ signal_name en = n;
  io_instance w e : e ∈ bucket (by_instance s) w ↔ is_Some (by_gate s !! (w, e));
  io_name_nodup n : NoDup (bucket (by_name s) n);
  io_instance_nodup w : NoDup (bucket (by_instance s) w);
  io_name_empty : no_empty (by_name s);
  io_instance_empty : no_empty (by_instance s)
}.

Lemma default_ok : index_ok Inner_default.
Proof.
  assert (∀ k, (∅ : gmap (Uuid * Uuid) Entry) !! k = None) as He by (intros; apply lookup_empty).
  split; simpl; intros; rewrite ?bucket_empty, ?He in *; try done.
  - rewrite elem_of_nil. naive_solver.
  - rewrite elem_of_nil. by rewrite is_Some_alt.
  - constructor.
  - constructor.
Qed.

Lemma keep_other {A} `{EqDecision A} (x y : A) : negb (bool_decide (x = y)) = true ↔ x ≠ y.
Proof. by rewrite negb_true_iff, bool_decide_eq_false. Qed.

Lemma unregister_ok w e s : index_ok s → index_ok (unregister w e s).
Proof.
  intros Hok. unfold unregister. destruct (by_gate s !! (w, e)) as [prev|] eqn:Hprev; [|done].
  split; simpl.
  - intros w' e' en [_ ?]%lookup_delete_Some. by eapply io_key.
  - intros k n. rewrite bucket_retain. case_decide as Hn; subst.
    + rewrite elem_of_filter_bool, keep_other, (io_name _ Hok).
      setoid_rewrite lookup_delete_Some. naive_solver.
    + rewrite (io_name _ Hok). setoid_rewrite lookup_delete_Some. naive_solver congruence.
  - intros w' e'. rewrite bucket_retain. case_decide as Hw; subst.
    + rewrite elem_of_filter_bool, keep_other, (io_instance _ Hok).
      unfold is_Some. setoid_rewrite lookup_delete_Some. naive_solver.
    + rewrite (io_instance _ Hok). unfold is_Some. setoid_rewrite lookup_delete_Some. naive_solver.
  - intros n. rewrite bucket_retain. case_decide; [apply NoDup_filter_bool|]; apply Hok.
  - intros w'. rewrite bucket_retain. case_decide; [apply NoDup_filter_bool|]; apply Hok.
  - apply retain_no_empty, Hok.
  - apply retain_no_empty, Hok.
Qed.

Lemma unregister_store w e s : by_gate (unregister w e s) = delete (w, e) (by_gate s).
Proof.
  unfold unregister. destruct (by_gate s !! (w, e)) eqn:He; [done|]. by rewrite delete_id.
Qed.

Lemma NoDup_bucket_push `{Countable K} {V} (m : gmap K (list V)) k v k' :
  v ∉ bucket m k → NoDup (bucket m k') → NoDup (bucket (map_push k v m) k').
Proof.
  intros Hv Hnd. destruct (decide (k = k')) as [<-|Hk].
  - rewrite bucket_push_eq. apply NoDup_app. split_and!; [done| |apply NoDup_singleton].
    intros x Hx ->%list_elem_of_singleton. done.
  - by rewrite bucket_push_ne.
Qed.

Lemma push_entry_ok w e n en s :
  index_ok s → by_gate s !! (w, e) = None →
  workflow_instance_id en = w → entry_edge_id en = e → signal_name en = n →
  index_ok (push_entry w e n en s).
Proof.
  intros Hok Hnone <- <- <-.
  assert (∀ n', (workflow_instance_id en, entry_edge_id en) ∉ bucket (by_name s) n') as Hkn.
  { intros n'. rewrite (io_name _ Hok). intros (?&?&_). congruence. }
  assert (entry_edge_id en ∉ bucket (by_instance s) (workflow_instance_id en)) as Hki.
  { rewrite (io_instance _ Hok). intros [? ?]. congruence. }
  split; simpl.
  - intros w' e' en' [[[= <- <-] <-]|[_ ?]]%lookup_insert_Some; [done|]. by eapply io_key.
  - intros k n'. rewrite elem_of_bucket_push, (io_name _ Hok).
    setoid_rewrite lookup_insert_Some. split.
    + intros [(en'&?&?)|[? ?]]; [|subst; by eauto 10]. exists en'. split; [|done]. right.
      split; [|done]. intros <-. congruence.
    + intros (en'&[[<- <-]|[? ?]]&<-); [by right|left; eauto].
  - intros w' e'. rewrite elem_of_bucket_push, (io_instance _ Hok), lookup_insert_is_Some'.
    naive_solver.
  - intros n'. apply NoDup_bucket_push; [apply Hkn|apply Hok].
  - intros w'. apply NoDup_bucket_push; [apply Hki|apply Hok].
  - apply map_push_no_empty, Hok.
  - apply map_push_no_empty, Hok.
Qed.

Lemma register_spec w e n p c s s' :
  index_ok s → register w e n p c s = Ok s' →
  index_ok s' ∧ ∃ parsed, parse_predicate p = Ok parsed ∧
    by_gate s' = <[(w, e) := mkEntry w e n parsed c]> (by_gate s).
Proof.
  intros Hok. unfold register. destruct (parse_predicate p) as [parsed|] eqn:Hp; [|done].
  intros [= <-]. split.
  - apply push_entry_ok; [by apply unregister_ok| |done..].
    rewrite unregister_store. apply lookup_delete_eq.
  - exists parsed. split; [done|]. simpl. by rewrite unregister_store, insert_delete_eq.
Qed.

(** The part of the invariant the sweep keeps while it runs. *)
Record names_ok (s : Inner) : Prop := {
  no_key w e en : by_gate s !! (w, e) = Some en → workflow_instance_id en = w ∧ entry_edge_id en = e;
  no_name k n : k ∈ bucket (by_name s) n ↔ ∃ en, by_gate s !! k = Some en ∧ signal_name en = n;
  no_name_nodup n : NoDup (bucket (by_name s) n);
  no_name_empty : no_empty (by_name s)
}.

Lemma sweep_edge_ok w s e :
  names_ok s → names_ok (sweep_edge w s e) ∧ by_instance (sweep_edge w s e) = by_instance s ∧
  by_gate (sweep_edge w s e) = delete (w, e) (by_gate s).
Proof.
  intros Hok. unfold sweep_edge. destruct (by_gate s !! (w, e)) as [prev|] eqn:Hprev.
  2: { split_and!; [done..|]. by rewrite delete_id. }
  split; [|done]. split; simpl.
  - intros w' e' en [_ ?]%lookup_delete_Some. by eapply no_key.
  - intros k n. rewrite bucket_retain. case_decide as Hn; subst.
    + rewrite elem_of_filter_bool, keep_other, (no_name _ Hok).
      setoid_rewrite lookup_delete_Some. naive_solver.
    + rewrite (no_name _ Hok). setoid_rewrite lookup_delete_Some. naive_solver congruence.
  - intros n. rewrite bucket_retain. case_decide; [apply NoDup_filter_bool|]; apply Hok.
  - apply retain_no_empty, Hok.
Qed.

Lemma sweep_edges_ok w edges s :
  names_ok s →
  let s' := foldl (sweep_edge w) s edges in
  names_ok s' ∧ by_instance s' = by_instance s ∧
  ∀ k, by_gate s' !! k = if decide (k.1 = w ∧ k.2 ∈ edges) then None else by_gate s !! k.
Proof.
  revert s; induction edges as [|e edges IH]; intros s Hok; simpl.
  { split_and!; [done..|]. intros k. by rewrite decide_False by (by intros [_ ?%elem_of_nil]). }
  destruct (sweep_edge_ok w s e Hok) as (Hok1&Hi1&Hg1).
  destruct (IH _ Hok1) as (?&Hi&Hg). split_and!; [done|congruence|].
  intros [w' e']. rewrite Hg, Hg1. simpl. pose proof (elem_of_cons edges e' e) as Hc.
  destruct (decide (w' = w ∧ e' ∈ edges)) as [Hin|Hin].
  - by rewrite decide_True by naive_solver.
  - destruct (decide ((w, e) = (w', e'))) as [[= <- <-]|Hne].
    + rewrite lookup_delete_eq. by rewrite decide_True by naive_solver.
    + rewrite lookup_delete_ne by done. by rewrite decide_False by naive_solver.
Qed.

Lemma sweep_spec w s :
  index_ok s → index_ok (sweep_instance w s) ∧
  ∀ k, by_gate (sweep_instance w s) !! k = if decide (k.1 = w) then None else by_gate s !! k.
Proof.
  intros Hok. unfold sweep_instance. destruct (by_instance s !! w) as [edges|] eqn:Hw.
  - assert (names_ok (mkInner (by_gate s) (by_name s) (delete w (by_instance s)))) as Hn
      by (split; apply Hok).
    destruct (sweep_edges_ok w edges _ Hn) as (Hns&Hi&Hg). cbn in Hi, Hg.
    assert (∀ e, e ∈ edges ↔ is_Some (by_gate s !! (w, e))) as Hed.
    { intros e. rewrite <-(io_instance _ Hok). unfold bucket. by rewrite Hw. }
    assert (∀ k, by_gate (foldl (sweep_edge w) (mkInner (by_gate s) (by_name s)
               (delete w (by_instance s))) edges) !! k =
             if decide (k.1 = w) then None else by_gate s !! k) as Hg'.
    { intros [w' e']. rewrite Hg. simpl. destruct (decide (w' = w)) as [->|Hne].
      - destruct (decide (w = w ∧ e' ∈ edges)) as [|Hn']; [done|].
        destruct (by_gate s !! (w, e')) eqn:Hke; [|done]. destruct Hn'. split; [done|].
        apply Hed. by rewrite Hke.
      - by rewrite decide_False by naive_solver. }
    split; [|done]. split; try apply Hns.
    + intros w' e'. rewrite Hi, Hg'. simpl. unfold bucket. case_decide; subst.
      * rewrite lookup_delete_eq. simpl. rewrite elem_of_nil. split; [done|by intros [? ?]].
      * rewrite lookup_delete_ne by done. apply (io_instance _ Hok).
    + intros w'. rewrite Hi. unfold bucket. destruct (decide (w = w')); subst.
      * rewrite lookup_delete_eq. constructor.
      * rewrite lookup_delete_ne by done. apply (io_instance_nodup _ Hok).
    + rewrite Hi. intros w' Hl. rewrite lookup_delete_Some in Hl. destruct Hl as [_ Hl].
      by eapply (io_instance_empty _ Hok).
  - split; [done|]. intros [w' e']. simpl. case_decide; subst; [|done].
    destruct (by_gate s !! (w, e')) eqn:Hke; [|done].
    assert (e' ∈ bucket (by_instance s) w) as Hin by (apply (io_instance _ Hok); by rewrite Hke).
    unfold bucket in Hin. rewrite Hw in Hin. by apply elem_of_nil in Hin.
Qed.

(** ** The abstract index *)

(** The entry a row stands for; a row with a malformed predicate has none. *)
Definition row_entry (row : Row) : option (Uuid * Uuid * Entry) :=
  let '(wid, eid, name, predicate, captures) := row in
  match parse_predicate predicate with
  | Ok parsed => Some ((wid, eid), mkEntry wid eid name parsed captures)
  | Err _ => None
  end.

Inductive Op :=
| ORegister (wid eid : Uuid) (name : string) (predicate : option string)
    (captures : list CaptureDeclaration)
| OUnregister (wid eid : Uuid)
| OSweep (wid : Uuid)
| OReplaceAll (rows : list Row).

(** An operation on the index; a failed [register] leaves it as it was. *)
Definition exec (s : Inner) (op : Op) : Inner :=
  match op with
  | ORegister w e n p c => match register w e n p c s with Ok s' => s' | Err _ => s end
  | OUnregister w e => unregister w e s
  | OSweep w => sweep_instance w s
  | OReplaceAll rows => replace_all rows s
  end.

(** The same on a map from gates to entries. *)
Definition spec (m : gmap (Uuid * Uuid) Entry) (op : Op) : gmap (Uuid * Uuid) Entry :=
  match op with
  | ORegister w e n p c =>
      match parse_predicate p with
      | Ok parsed => <[(w, e) := mkEntry w e n parsed c]> m
      | Err _ => m
      end
  | OUnregister w e => delete (w, e) m
  | OSweep w => filter (λ kv, kv.1.1 ≠ w) m
  | OReplaceAll rows => list_to_map (omap row_entry rows)
  end.

(** A rebuild lists every gate once. *)
Definition op_ok (op : Op) : Prop :=
  match op with
  | OReplaceAll rows => NoDup (omap row_entry rows).*1
  | _ => True
  end.

Lemma ingest_all_ok rows s :
  index_ok s → NoDup (omap row_entry rows).*1 →
  (∀ k, k ∈ (omap row_entry rows).*1 → by_gate s !! k = None) →
  index_ok (foldl ingest s rows) ∧
  by_gate (foldl ingest s rows) = list_to_map (omap row_entry rows) ∪ by_gate s.
Proof.
  revert s; induction rows as [|[[[[w e] n] p] c] rows IH]; intros s Hok Hnd Hfresh; simpl in *.
  { by rewrite map_empty_union. }
  destruct (parse_predicate p) as [parsed|]; [|by apply IH].
  csimpl in Hnd. csimpl in Hfresh. apply NoDup_cons in Hnd as [Hk Hnd].
  destruct (IH (push_entry w e n (mkEntry w e n parsed c) s)) as [Hok' Hg]; [|done|..].
  - apply push_entry_ok; [done| |done..]. apply Hfresh. left.
  - intros k Hin. simpl. rewrite lookup_insert_ne; [apply Hfresh; by right|]. by intros <-.
  - split; [done|]. rewrite Hg. cbn [push_entry by_gate list_to_map].
    rewrite list_to_map_cons, <-insert_union_l, insert_union_r; [done|].
    by apply not_elem_of_list_to_map.
Qed.

Lemma exec_refines s op :
  index_ok s → op_ok op → index_ok (exec s op) ∧ by_gate (exec s op) = spec (by_gate s) op.
Proof.
  intros Hok Hop. destruct op as [w e n p c|w e|w|rows]; simpl.
  - destruct (register w e n p c s) as [s'|] eqn:Hr.
    + destruct (register_spec _ _ _ _ _ _ _ Hok Hr) as (?&parsed&->&?). done.
    + unfold register in Hr. by destruct (parse_predicate p).
  - split; [by apply unregister_ok|apply unregister_store].
  - destruct (sweep_spec w s Hok) as [? Hg]. split; [done|]. apply map_eq. intros k.
    rewrite Hg. apply option_eq. intros en. rewrite map_lookup_filter_Some. simpl.
    case_decide; naive_solver.
  - destruct (ingest_all_ok rows Inner_default) as [? Hg]; [apply default_ok|done| |].
    + intros. simpl. apply lookup_empty.
    + split; [done|]. unfold replace_all. rewrite Hg. simpl. by rewrite map_union_empty.
Qed.

Lemma exec_all_refines ops s :
  index_ok s → Forall op_ok ops →
  index_ok (foldl exec s ops) ∧ by_gate (foldl exec s ops) = foldl spec (by_gate s) ops.
Proof.
  revert s; induction ops as [|op ops IH]; intros s Hok Hops; simpl; [done|].
  apply Forall_cons in Hops as [Hop Hops].
  destruct (exec_refines s op Hok Hop) as [Hok' Hg]. rewrite <-Hg. by apply IH.
Qed.

Lemma lookup_spec n s :
  index_ok s → NoDup (lookup_by_signal_name n s) ∧
  ∀ en, en ∈ lookup_by_signal_name n s ↔
        signal_name en = n ∧ by_gate s !! (workflow_instance_id en, entry_edge_id en) = Some en.
Proof.
  intros Hok.
  assert (lookup_by_signal_name n s = omap (λ k, by_gate s !! k) (bucket (by_name s) n)) as ->.
  { unfold lookup_by_signal_name, bucket. by destruct (by_name s !! n). }
  split.
  - assert (∀ k, k ∈ bucket (by_name s) n →
       ∃ en, by_gate s !! k = Some en ∧ k = (workflow_instance_id en, entry_edge_id en)) as Hk.
    { intros [w e] (en&Hen&_)%(io_name _ Hok). destruct (io_key _ Hok _ _ _ Hen) as [<- <-]. eauto. }
    pose proof (io_name_nodup _ Hok n) as Hnd.
    induction (bucket (by_name s) n) as [|k l IH]; simpl; [constructor|].
    apply NoDup_cons in Hnd as [Hkl Hnd].
    destruct (Hk k) as (en&Hen&->); [left|]. rewrite Hen. apply NoDup_cons. split.
    + intros (k'&Hk'&Hen')%list_elem_of_omap. apply Hkl.
      destruct (Hk k') as (en'&Hen''&->); [by right|]. congruence.
    + apply IH; [|done]. intros. apply Hk. by right.
  - intros en. rewrite list_elem_of_omap. setoid_rewrite (io_name _ Hok). split.
    + intros ([w e]&(en'&He'&<-)&He). assert (en' = en) as -> by congruence.
      destruct (io_key _ Hok _ _ _ He) as [-> ->]. done.
    + intros [<- He]. eauto.
Qed.
End gate_index.

(** C37: The gate index refines a map from gates to entries: after any sequence of
    operations (with every gate once in each rebuild) its store is that map, and
    a lookup by signal name returns, each once, exactly the entries of the map
    with that name. *)
Theorem gate_index_refines_map `{Countable Uuid} {JsonPath} (parse_path : string → option JsonPath)
    (ops : list (Op (Uuid := Uuid))) :
  Forall (op_ok parse_path) ops →
  let s := foldl (exec parse_path) Inner_default ops in
  let m := foldl (spec parse_path) ∅ ops in
  by_gate s = m ∧ len s = size m ∧
  ∀ name, NoDup (lookup_by_signal_name name s) ∧
    ∀ en, en ∈ lookup_by_signal_name name s ↔
          signal_name en = name ∧ m !! (workflow_instance_id en, entry_edge_id en) = Some en.
Proof.
  intros Hops s m. subst s m.
  destruct (exec_all_refines parse_path ops Inner_default (default_ok parse_path) Hops) as [Hok Hg].
  change (by_gate Inner_default) with (∅ : gmap (Uuid * Uuid) (Entry (Uuid:=Uuid) (JsonPath:=JsonPath))) in Hg.
  rewrite <-Hg. split_and!; [done..|]. intros name. by apply lookup_spec.
Qed.

(** Two gates for one signal, one withdrawn, one instance swept, a rebuild. *)
Definition sample_ops : list (Op (Uuid := string)) :=
  [ORegister "i1" "e1" "approved" None []; ORegister "i1" "e2" "approved" (Some "$") [];
   ORegister "i2" "e1" "approved" None []; OUnregister "i1" "e1"; OSweep "i2";
   ORegister "i1" "e2" "rejected" None [];
   OReplaceAll [("i1", "e1", "approved", None, []); ("i1", "e2", "rejected", Some "$", [])]].

Lemma gate_index_refines_map_witness :
  let s := foldl (exec (Some (A:=string))) Inner_default sample_ops in
  let m := foldl (spec (Some (A:=string))) ∅ sample_ops in
  by_gate s = m ∧ len s = size m ∧
  ∀ name, NoDup (lookup_by_signal_name name s) ∧
    ∀ en, en ∈ lookup_by_signal_name name s ↔
          signal_name en = name ∧ m !! (workflow_instance_id en, entry_edge_id en) = Some en.
Proof.
  apply (gate_index_refines_map (Some (A:=string)) sample_ops).
  repeat (apply Forall_cons; split); try exact I; [|by apply Forall_nil].
  apply (bool_decide_unpack _). vm_compute. exact I.
Defined.
