(* ===== verification/SubscriptionIndex.v ===== *)
(** * The subscription index

    [subscription_index.rs]: which workflows wait on which wakeup name.  The
    concrete index simulates a map from workflows to their one subscription. *)

From S2P Require Import Prelude Workflow.

Section subscription_index.
Context {Uuid : Type} `{Countable Uuid}.
Context {JsonPath : Type} (parse_path : string → option JsonPath).

Inductive SubRegisterError := SubInvalidPredicate (raw : string).

Record SubEntry := mkSubEntry {
  sub_workflow_id : Uuid;
  sub_predicate : option JsonPath;
  merged_captures : list CaptureDeclaration
}.

Record SubInner := mkSubInner {
  subs_by_name : gmap string (list SubEntry);
  names_by_workflow : gmap Uuid (list string)
}.

Definition SubInner_default : SubInner := mkSubInner ∅ ∅.

Definition sub_parse_predicate (predicate : option string)
    : result (option JsonPath) SubRegisterError :=
  match predicate with
  | Some raw => let? p := ok_or (parse_path raw) (SubInvalidPredicate raw) in Ok (Some p)
  | None => Ok None
  end.

Definition drop_workflow (w : Uuid) (m : gmap string (list SubEntry)) (name : string)
    : gmap string (list SubEntry) :=
  retain (λ e, negb (bool_decide (sub_workflow_id e = w))) name m.

Definition sub_unregister (w : Uuid) (s : SubInner) : SubInner :=
  match names_by_workflow s !! w with
  | Some names => mkSubInner (foldl (drop_workflow w) (subs_by_name s) names)
                    (delete w (names_by_workflow s))
  | None => s
  end.

Definition sub_register (w : Uuid) (name : string) (predicate : option string)
    (captures : list CaptureDeclaration) (s : SubInner) : result SubInner SubRegisterError :=
  let? parsed := sub_parse_predicate predicate in
  let entry := mkSubEntry w parsed captures in
  let s := sub_unregister w s in
  Ok (mkSubInner (map_push name entry (subs_by_name s)) (map_push w name (names_by_workflow s))).

Definition sub_lookup (name : string) (s : SubInner) : list SubEntry :=
  default [] (subs_by_name s !! name).

(** ** Simulation *)

(** The index [s] represents the subscriptions [a]. *)
Record represents (s : SubInner) (a : gmap Uuid (string * SubEntry)) : Prop := {
  rp_key w n en : a !! w = Some (n, en) → sub_workflow_id en = w;
  rp_entry n en : en ∈ bucket (subs_by_name s) n ↔ a !! sub_workflow_id en = Some (n, en);
  rp_names w : names_by_workflow s !! w = (λ p, [p.1]) <$> a !! w;
  rp_nodup n : NoDup (bucket (subs_by_name s) n);
  rp_empty : no_empty (subs_by_name s)
}.

Lemma default_represents : represents SubInner_default ∅.
Proof.
  assert (∀ k, (∅ : gmap Uuid (string * SubEntry)) !! k = None) as He by (intros; apply lookup_empty).
  split; simpl; intros; rewrite ?bucket_empty, ?He in *; try done.
  - rewrite elem_of_nil. naive_solver.
  - constructor.
Qed.

Lemma sub_unregister_represents w s a :
  represents s a → represents (sub_unregister w s) (delete w a).
Proof.
  intros Hr. unfold sub_unregister. rewrite (rp_names _ _ Hr).
  destruct (a !! w) as [[n0 en0]|] eqn:Hw; simpl; [|by rewrite delete_id].
  split; simpl.
  - intros w' n en [_ ?]%lookup_delete_Some. by eapply rp_key.
  - intros n en. unfold drop_workflow. rewrite bucket_retain, lookup_delete_Some.
    case_decide as Hn; subst.
    + rewrite elem_of_filter_bool, negb_true_iff, bool_decide_eq_false, (rp_entry _ _ Hr).
      naive_solver.
    + rewrite (rp_entry _ _ Hr). split; [|naive_solver]. intros Ha. split; [|done].
      intros Heq. rewrite <-Heq in Ha. congruence.
  - intros w'. destruct (decide (w = w')) as [<-|Hne].
    + by rewrite !lookup_delete_eq.
    + rewrite !lookup_delete_ne by done. apply Hr.
  - intros n. unfold drop_workflow. rewrite bucket_retain.
    case_decide; [apply NoDup_filter_bool|]; apply Hr.
  - apply retain_no_empty, Hr.
Qed.

Lemma sub_register_represents w n p c s a s' :
  represents s a → sub_register w n p c s = Ok s' →
  ∃ parsed, sub_parse_predicate p = Ok parsed ∧ represents s' (<[w := (n, mkSubEntry w parsed c)]> a).
Proof.
  intros Hr0. unfold sub_register. destruct (sub_parse_predicate p) as [parsed|]; [|done].
  intros [= <-]. exists parsed. split; [done|].
  apply (sub_unregister_represents w) in Hr0 as Hr.
  rewrite <-insert_delete_eq. generalize dependent (sub_unregister w s). intros s1 Hr.
  assert (delete w a !! w = None) as Hnone by apply lookup_delete_eq.
  generalize dependent (delete w a). clear Hr0 a. intros a Hr Hnone.
  split; simpl.
  - intros w' n' en [[<- [= <- <-]]|[_ ?]]%lookup_insert_Some; [done|]. by eapply rp_key.
  - intros n' en. rewrite elem_of_bucket_push, (rp_entry _ _ Hr), lookup_insert_Some. split.
    + intros [Ha|[? ?]]; [|subst; by left]. right. split; [|done]. intros Heq. rewrite <-Heq in Ha. congruence.
    + intros [[Hw [= <- <-]]|[_ ?]]; [by right|by left].
  - intros w'. unfold map_push, bucket. destruct (decide (w = w')) as [<-|Hne].
    + rewrite !lookup_insert_eq, (rp_names _ _ Hr), Hnone. done.
    + rewrite !lookup_insert_ne by done. apply Hr.
  - intros n'. destruct (decide (n = n')) as [<-|Hne].
    + rewrite bucket_push_eq. apply NoDup_app. split_and!; [apply Hr| |apply NoDup_singleton].
      intros en Hin%(rp_entry _ _ Hr) ->%list_elem_of_singleton. simpl in Hin. congruence.
    + rewrite bucket_push_ne by done. apply Hr.
  - apply map_push_no_empty, Hr.
Qed.

Inductive SubOp :=
| SRegister (w : Uuid) (name : string) (predicate : option string)
    (captures : list CaptureDeclaration)
| SUnregister (w : Uuid).

Definition sub_exec (s : SubInner) (op : SubOp) : SubInner :=
  match op with
  | SRegister w n p c => match sub_register w n p c s with Ok s' => s' | Err _ => s end
  | SUnregister w => sub_unregister w s
  end.

Definition sub_spec (a : gmap Uuid (string * SubEntry)) (op : SubOp)
    : gmap Uuid (string * SubEntry) :=
  match op with
  | SRegister w n p c =>
      match sub_parse_predicate p with
      | Ok parsed => <[w := (n, mkSubEntry w parsed c)]> a
      | Err _ => a
      end
  | SUnregister w => delete w a
  end.

Lemma sub_exec_represents s a op :
  represents s a → represents (sub_exec s op) (sub_spec a op).
Proof.
  intros Hr. destruct op as [w n p c|w]; simpl; [|by apply sub_unregister_represents].
  destruct (sub_register w n p c s) as [s'|] eqn:Hs.
  - by destruct (sub_register_represents _ _ _ _ _ _ _ Hr Hs) as (parsed&->&?).
  - unfold sub_register in Hs. by destruct (sub_parse_predicate p).
Qed.

Lemma sub_run_represents s a ops :
  represents s a → represents (foldl sub_exec s ops) (foldl sub_spec a ops).
Proof.
  revert s a; induction ops as [|op ops IH]; intros s a Hr; simpl; [done|].
  by apply IH, sub_exec_represents.
Qed.
End subscription_index.

(** The subscription index simulates a map from workflows to their subscription:
    after any sequence of operations a lookup returns, each once, exactly the
    entries of the workflows whose subscription has that name, so a workflow is
    never woken under a name it gave up. *)
Theorem subscription_index_refines_map `{Countable Uuid} {JsonPath}
    (parse_path : string → option JsonPath) (ops : list (SubOp (Uuid := Uuid))) name :
  let s := foldl (sub_exec parse_path) SubInner_default ops in
  let a := foldl (sub_spec parse_path) ∅ ops in
  NoDup (sub_lookup name s) ∧
  ∀ en, en ∈ sub_lookup name s ↔ a !! sub_workflow_id en = Some (name, en).
Proof.
  intros s a. pose proof (sub_run_represents parse_path _ _ ops (default_represents parse_path)) as Hr.
  split; [apply (rp_nodup _ _ Hr)|apply (rp_entry _ _ Hr)].
Qed.
