(* ===== verification/Captures.v ===== *)
(** * Captures, predicates and the value envelope

    [captures_merge.rs], [captures_extractor.rs], [predicate.rs] and
    [ctx/src/envelope.rs].  JSONPath parsing and querying, JSON text, SHA-256 and
    the clock are parameters. *)

From S2P Require Import Prelude Workflow Json.

(** ** Merging declarations *)

(** One turn of either loop of [merge]: the map and the order of the names. *)
Definition merge_step (st : gmap string CaptureDeclaration * list string) (cap : CaptureDeclaration)
    : gmap string CaptureDeclaration * list string :=
  let '(by_name, order) := st in
  (<[capture_name cap := cap]> by_name,
   if bool_decide (is_Some (by_name !! capture_name cap)) then order
   else order ++ [capture_name cap]).

(** [order.into_iter().filter_map(|n| by_name.remove(&n))] *)
Fixpoint take_in_order (by_name : gmap string CaptureDeclaration) (order : list string)
    : list CaptureDeclaration :=
  match order with
  | [] => []
  | n :: rest =>
      match by_name !! n with
      | Some c => c :: take_in_order (delete n by_name) rest
      | None => take_in_order by_name rest
      end
  end.

Definition merge (workflow_captures trigger_captures : list CaptureDeclaration)
    : list CaptureDeclaration :=
  let st := foldl merge_step (∅, []) workflow_captures in
  let '(by_name, order) := foldl merge_step st trigger_captures in
  take_in_order by_name order.

(** The last declaration of a name. *)
Definition last_of (l : list CaptureDeclaration) (n : string) : option CaptureDeclaration :=
  last (filter (λ c, capture_name c = n) l).

Record merge_inv (l : list CaptureDeclaration) (st : gmap string CaptureDeclaration * list string)
    : Prop := {
  mi_map n : st.1 !! n = last_of l n;
  mi_order : NoDup st.2;
  mi_names n : n ∈ st.2 ↔ n ∈ capture_name <$> l
}.

Lemma last_of_snoc l c n :
  last_of (l ++ [c]) n = if decide (capture_name c = n) then Some c else last_of l n.
Proof.
  unfold last_of. rewrite filter_app, filter_cons, filter_nil.
  case_decide; [apply last_snoc|by rewrite app_nil_r].
Qed.

Lemma last_of_is_Some l n : is_Some (last_of l n) ↔ n ∈ capture_name <$> l.
Proof.
  unfold last_of. rewrite last_is_Some, list_elem_of_fmap. split.
  - destruct (filter _ l) as [|c l'] eqn:Hf; [done|]. intros _.
    assert (c ∈ filter (λ c, capture_name c = n) l) as [<- ?]%list_elem_of_filter
      by (rewrite Hf; left). eauto.
  - intros (c&->&Hc) Hf. assert (c ∈ filter (λ c', capture_name c' = capture_name c) l) as Hin
      by by apply list_elem_of_filter.
    rewrite Hf in Hin. by apply elem_of_nil in Hin.
Qed.

Lemma merge_step_inv l st c : merge_inv l st → merge_inv (l ++ [c]) (merge_step st c).
Proof.
  destruct st as [m order]. intros [Hm Ho Hn]. simpl in *. split; simpl.
  - intros n. rewrite last_of_snoc, <-Hm. case_decide; subst;
      [by rewrite lookup_insert_eq|by rewrite lookup_insert_ne].
  - case_bool_decide as Hs; [done|]. apply NoDup_app. split_and!; [done| |apply NoDup_singleton].
    intros n Hin ->%list_elem_of_singleton. apply Hs. by rewrite Hm, last_of_is_Some, <-Hn.
  - intros n. rewrite fmap_app, elem_of_app. csimpl. rewrite list_elem_of_singleton, <-Hn.
    case_bool_decide as Hs.
    + rewrite Hm, last_of_is_Some, <-Hn in Hs. naive_solver.
    + by rewrite elem_of_app, list_elem_of_singleton.
Qed.

Lemma merge_fold_inv l st l' : merge_inv l st → merge_inv (l ++ l') (foldl merge_step st l').
Proof.
  revert l st; induction l' as [|c l' IH]; intros l st Hst; simpl; [by rewrite app_nil_r|].
  rewrite cons_middle, (assoc_L (++)). by apply IH, merge_step_inv.
Qed.

Lemma take_in_order_omap m order :
  NoDup order → take_in_order m order = omap (λ n, m !! n) order.
Proof.
  revert m; induction order as [|n order IH]; intros m Hnd; simpl; [done|].
  apply NoDup_cons in Hnd as [Hn Hnd]. destruct (m !! n) as [c|] eqn:Hm; [|by apply IH].
  f_equal. transitivity (omap (λ n0, delete n m !! n0) order); [by apply IH|].
  clear IH Hnd. induction order as [|x order IH]; simpl; [done|].
  apply not_elem_of_cons in Hn as [Hx Hn]. rewrite lookup_delete_ne by done.
  destruct (m !! x); [f_equal|]; apply (IH Hn).
Qed.

Lemma merge_spec w t :
  NoDup (capture_name <$> merge w t) ∧
  ∀ c, c ∈ merge w t ↔ last_of (w ++ t) (capture_name c) = Some c.
Proof.
  unfold merge. assert (merge_inv ([] ++ w) (foldl merge_step (∅, []) w)) as Hw.
  { apply merge_fold_inv. split; simpl; [intros n; by rewrite lookup_empty|constructor|done]. }
  apply (merge_fold_inv _ _ t) in Hw. simpl in Hw. clear -Hw.
  destruct (foldl merge_step (foldl merge_step (∅, []) w) t) as [m order].
  destruct Hw as [Hm Ho Hn]. simpl in *. rewrite take_in_order_omap by done.
  assert (∀ n c, last_of (w ++ t) n = Some c → capture_name c = n) as Hname.
  { intros n c Hc. unfold last_of in Hc. apply last_Some in Hc as [l' Hf].
    assert (c ∈ filter (λ c, capture_name c = n) (w ++ t)) as [? _]%list_elem_of_filter
      by (rewrite Hf; set_solver). done. }
  split.
  - assert (capture_name <$> omap (λ n, m !! n) order = order) as ->; [|done].
    assert (∀ n, n ∈ order → is_Some (m !! n)) as Hall.
    { intros n Hin. by rewrite Hm, last_of_is_Some, <-Hn. }
    clear Ho Hn. induction order as [|n order IH]; simpl; [done|].
    destruct (Hall n) as [c Hc]; [left|]. rewrite Hc. csimpl. f_equal.
    + apply Hname. by rewrite <-Hm.
    + apply IH. intros. apply Hall. by right.
  - intros c. rewrite list_elem_of_omap. split.
    + intros (n&_&Hc). rewrite Hm in Hc. by rewrite (Hname _ _ Hc).
    + intros Hc. exists (capture_name c). rewrite Hm. split; [|done].
      apply Hn, last_of_is_Some. by rewrite Hc.
Qed.

(** Merging keeps one declaration per name: the last one of the workflow's
    followed by the trigger's, so the trigger's wins every collision. *)
Theorem merge_last_wins w t :
  NoDup (capture_name <$> merge w t) ∧
  (∀ c, c ∈ merge w t ↔ last_of (w ++ t) (capture_name c) = Some c) ∧
  ∀ n, is_Some (last_of t n) → last_of (w ++ t) n = last_of t n.
Proof.
  split_and!; [apply merge_spec..|]. intros n [c Hc]. unfold last_of in *.
  by rewrite filter_app, last_app, Hc.
Qed.

(** ** The envelope *)

Section envelope.
Context {Uuid : Type}.

Inductive SignalSource :=
| Manual
| Wakeup (name : string)
| ExternalNats (subject : string).

Inductive Producer :=
| Producer_Task (task_id task_name : string)
| Producer_Signal (signal_id : Uuid) (source : SignalSource)
| Producer_System (component : string).

Record Envelope := mkEnvelope {
  env_v : Z;
  env_kind : string;
  env_value : Json;
  env_secret : bool;
  env_producer : Producer;
  env_present : bool;
  env_created_at : string;
  env_sha256 : string
}.

Context (value_to_string : Json → string) (sha256_hex : string → string).

Definition Envelope_new (now : string) (kind : string) (value : Json) (secret : bool)
    (producer : Producer) : Envelope :=
  let raw := match value with JString s => s | v => value_to_string v end in
  mkEnvelope 2 kind value secret producer true now (sha256_hex raw).

Inductive RenderError := NotAString | UnsupportedType (kind : string).

Definition render (e : Envelope) : result string RenderError :=
  let k := env_kind e in
  if bool_decide (k = "string") then
    match env_value e with JString s => Ok s | _ => Err NotAString end
  else if bool_decide (k = "json") then Ok (value_to_string (env_value e))
  else if bool_decide (k = "int") || bool_decide (k = "float") || bool_decide (k = "bool")
  then Ok (value_to_string (env_value e))
  else Err (UnsupportedType k).

(** What [Serialize] writes: [present] only when it is false. *)
Record Wire := mkWire {
  wire_v : Z;
  wire_kind : string;
  wire_value : Json;
  wire_secret : bool;
  wire_producer : Producer;
  wire_present : option bool;
  wire_created_at : string;
  wire_sha256 : string
}.

Definition to_wire (e : Envelope) : Wire :=
  mkWire 2 (env_kind e) (env_value e) (env_secret e) (env_producer e)
    (if env_present e then None else Some false) (env_created_at e) (env_sha256 e).

(** What [Deserialize] reads, with the defaults of absent fields filled in. *)
Record Raw := mkRaw {
  raw_v : Z;
  raw_kind : string;
  raw_value : Json;
  raw_secret : bool;
  raw_producer : option Producer;
  raw_producer_task : option string;
  raw_producer_task_name : option string;
  raw_present : bool;
  raw_created_at : string;
  raw_sha256 : string
}.

Definition raw_of_wire (w : Wire) : Raw :=
  mkRaw (wire_v w) (wire_kind w) (wire_value w) (wire_secret w) (Some (wire_producer w)) None None
    (default true (wire_present w)) (wire_created_at w) (wire_sha256 w).

Inductive DecodeError := MissingProducer | UnsupportedVersion (v : Z).

Definition from_raw (raw : Raw) : result Envelope DecodeError :=
  let? producer :=
    if (raw_v raw =? 2)%Z then ok_or (raw_producer raw) MissingProducer
    else if (raw_v raw =? 1)%Z
    then Ok (Producer_Task (default "" (raw_producer_task raw)) (default "" (raw_producer_task_name raw)))
    else Err (UnsupportedVersion (raw_v raw)) in
  Ok (mkEnvelope (raw_v raw) (raw_kind raw) (raw_value raw) (raw_secret raw) producer
        (raw_present raw) (raw_created_at raw) (raw_sha256 raw)).

(** ** Extraction *)

Context {JsonPath : Type} (parse_path : string → option JsonPath)
  (query : JsonPath → Json → list Json).

Inductive ExtractionError := JsonPathParseError (name jsonpath : string).

Definition classify (v : Json) : string * Json :=
  match v with
  | JString _ => ("string", v)
  | JBool _ => ("bool", v)
  | JNumber (JInt _) => ("int", v)
  | JNumber (JFloat _) => ("float", v)
  | _ => ("json", v)
  end.

Definition set_absent (e : Envelope) : Envelope :=
  mkEnvelope (env_v e) (env_kind e) (env_value e) (env_secret e) (env_producer e) false
    (env_created_at e) (env_sha256 e).

Definition build_envelope (now : string) (value : option Json) (signal_id : Uuid)
    (source : SignalSource) : Envelope :=
  let producer := Producer_Signal signal_id source in
  match value with
  | Some v => let '(kind, jv) := classify v in Envelope_new now kind jv false producer
  | None => set_absent (Envelope_new now "json" JNull false producer)
  end.

Definition extract_one (now : string) (payload : Json) (signal_id : Uuid) (source : SignalSource)
    (decl : CaptureDeclaration) : result (string * Envelope) ExtractionError :=
  let? jsonpath :=
    match capture_from decl with
    | Some (mkCaptureSource (Some (CaptureSource_Trigger path))) => Ok path
    | _ => Err (JsonPathParseError (capture_name decl) "")
    end in
  let? path := ok_or (parse_path jsonpath) (JsonPathParseError (capture_name decl) jsonpath) in
  Ok (capture_name decl, build_envelope now (head (query path payload)) signal_id source).

Definition extract_captures (now : string) (payload : Json) (captures : list CaptureDeclaration)
    (signal_id : Uuid) (source : SignalSource) : result (list (string * Envelope)) ExtractionError :=
  collect (extract_one now payload signal_id source) captures.

(** [predicate.rs]: the payload is queried as the one element of an array. *)
Definition evaluate (path : JsonPath) (payload : Json) : bool :=
  negb (bool_decide (length (query path (JArray [payload])) = 0)).

(** ** Facts *)

Lemma build_envelope_renders now value sid src :
  is_ok (render (build_envelope now value sid src)) = true.
Proof. destruct value as [[|b|[z|f]|s|l|m]|]; done. Qed.

(** The capture reads the trigger with a path that parses. *)
Definition capture_reads (c : CaptureDeclaration) (path : JsonPath) : Prop :=
  ∃ raw, capture_from c = Some (mkCaptureSource (Some (CaptureSource_Trigger raw))) ∧
         parse_path raw = Some path.

Lemma extract_one_ok now payload sid src c ne :
  extract_one now payload sid src c = Ok ne ↔
  ∃ path, capture_reads c path ∧
    ne = (capture_name c, build_envelope now (head (query path payload)) sid src).
Proof.
  unfold extract_one, capture_reads. destruct (capture_from c) as [[[[raw]|]]|].
  - destruct (parse_path raw) as [path|] eqn:Hp; simpl.
    + split; [intros [= <-]; eauto|]. intros (path'&(raw'&[= <-]&Hp')&->). congruence.
    + split; [done|]. intros (path'&(raw'&[= <-]&Hp')&_). congruence.
  - split; [done|]. by intros (?&(?&?&_)&_).
  - split; [done|]. by intros (?&(?&?&_)&_).
Qed.
End envelope.

Arguments Producer : clear implicits.
Arguments Envelope : clear implicits.

(** An envelope that is written and read back is the same envelope at the current
    version, whichever way its presence travels; an envelope of version 1 is read
    as a task's; any other version is refused. *)
Theorem envelope_roundtrip {Uuid} :
  (∀ e : Envelope Uuid, from_raw (raw_of_wire (to_wire e)) =
     Ok (mkEnvelope 2 (env_kind e) (env_value e) (env_secret e) (env_producer e) (env_present e)
           (env_created_at e) (env_sha256 e))) ∧
  (∀ raw : Raw (Uuid := Uuid), raw_v raw = 1%Z → ∃ e tid tname,
     from_raw raw = Ok e ∧ env_producer e = Producer_Task tid tname) ∧
  (∀ raw : Raw (Uuid := Uuid), raw_v raw ≠ 1%Z → raw_v raw ≠ 2%Z →
     from_raw raw = Err (UnsupportedVersion (raw_v raw))).
Proof.
  split_and!.
  - intros [v k x s p [] c h]; done.
  - intros raw Hv. unfold from_raw. rewrite Hv. simpl. eauto 10.
  - intros raw H1 H2. unfold from_raw.
    by rewrite (proj2 (Z.eqb_neq _ _) H2), (proj2 (Z.eqb_neq _ _) H1).
Qed.

(** Extraction succeeds exactly when every declaration reads the trigger with a
    JSONPath that parses; it yields one envelope per declaration, in order,
    holding the first match, or null marked absent, and every one renders. *)
Theorem extract_captures_correct {Uuid JsonPath} value_to_string sha256_hex
    (parse_path : string → option JsonPath) query now payload captures (sid : Uuid) src :
  ((∃ out, extract_captures value_to_string sha256_hex parse_path query now payload captures sid src
           = Ok out) ↔
   ∀ c, c ∈ captures → ∃ path, capture_reads parse_path c path) ∧
  ∀ out, extract_captures value_to_string sha256_hex parse_path query now payload captures sid src
         = Ok out →
    out.*1 = capture_name <$> captures ∧
    Forall2 (λ c ne, ∃ path, capture_reads parse_path c path ∧
      is_ok (render value_to_string ne.2) = true ∧
      match query path payload with
      | v :: _ => env_value ne.2 = v ∧ env_present ne.2 = true ∧ env_kind ne.2 = (classify v).1
      | [] => env_value ne.2 = JNull ∧ env_present ne.2 = false
      end) captures out.
Proof.
  unfold extract_captures. split.
  - destruct (collect _ _) as [out|e] eqn:Hc.
    + split; [|eauto]. intros _ c [i Hi]%list_elem_of_lookup. apply collect_ok in Hc.
      destruct (Forall2_lookup_l _ _ _ _ _ Hc Hi) as (ne&_&(path&?&_)%extract_one_ok). eauto.
    + split; [naive_solver|]. intros Hall. apply collect_err in Hc as (l1&c&l2&->&He&_).
      destruct (Hall c) as [path Hp]; [set_solver|]. exfalso.
      enough (extract_one value_to_string sha256_hex parse_path query now payload sid src c =
              Ok (capture_name c, build_envelope value_to_string sha256_hex now
                    (head (query path payload)) sid src)) by congruence.
      apply extract_one_ok. eauto.
  - intros out Hc%collect_ok. split.
    + induction Hc as [|c ne l out (path&_&->)%extract_one_ok Hc IH]; [done|]. csimpl. by f_equal.
    + eapply Forall2_impl; [done|]. intros c ne (path&Hp&->)%extract_one_ok.
      exists path. split_and!; [done|apply build_envelope_renders|].
      destruct (query path payload) as [|v q]; [done|]. simpl.
      destruct v as [|b|[z|f]|s|l|m]; done.
Qed.
