(* ===== verification/Routing.v ===== *)
(** * Routing variables and signal emits

    [routing_split.rs], the pure seam [stamp_routing_variables] of
    [routing_enrichment.rs], and [signal_emit_synth.rs].  A [BTreeMap] is a finite
    map visited in the order of its keys. *)

From S2P Require Import Prelude Workflow Json.

Inductive SplitError :=
| TypeMismatch (name declared_type actual_type : string)
| UnsupportedShape (name message : string).

Record SplitOutput := mkSplitOutput {
  routing_vars : gmap string RoutingValue;
  ctx_only : gmap string Json
}.

Definition json_to_routing_value (name : string) (value : Json) : result RoutingValue SplitError :=
  match value with
  | JString s => Ok (mkRoutingValue (Some (StringValue s)))
  | JBool b => Ok (mkRoutingValue (Some (BoolValue b)))
  | JNumber n =>
      match as_i64 n with
      | Some i => Ok (mkRoutingValue (Some (IntValue i)))
      | None => Err (UnsupportedShape name
                       "non-integer numbers are not supported (floats break Eq + Hash)")
      end
  | _ => Err (UnsupportedShape name "supported scalars are strings, integers, and booleans")
  end.

Definition routing_value_type_tag (value : RoutingValue) : string :=
  match routing_value value with
  | Some (StringValue _) => "string"
  | Some (IntValue _) => "int"
  | Some (BoolValue _) => "bool"
  | Some (BytesValue _) => "bytes"
  | None => "unknown"
  end.

(** The entries of a map in the order of its keys. *)
Definition entries {V} (m : gmap string V) : list (string * V) :=
  sort_by (λ a b, string_leb a.1 b.1) (map_to_list m).

Definition declared_by_name (declared : list RoutingVarDecl) : gmap string RoutingVarDecl :=
  foldl (λ m spec, <[rv_name spec := spec]> m) ∅ declared.

(** The cast of one declared output. *)
Definition cast (spec : RoutingVarDecl) (name : string) (value : Json)
    : result RoutingValue SplitError :=
  let? rv := json_to_routing_value name value in
  match rv_type spec with
  | Some t => if bool_decide (routing_value_type_tag rv = t) then Ok rv
              else Err (TypeMismatch name t (routing_value_type_tag rv))
  | None => Ok rv
  end.

Fixpoint split_loop (by_name : gmap string RoutingVarDecl) (out : SplitOutput)
    (l : list (string * Json)) : result SplitOutput SplitError :=
  match l with
  | [] => Ok out
  | (name, value) :: rest =>
      match by_name !! name with
      | Some spec =>
          let? rv := cast spec name value in
          split_loop by_name (mkSplitOutput (<[name := rv]> (routing_vars out)) (ctx_only out)) rest
      | None =>
          split_loop by_name (mkSplitOutput (routing_vars out) (<[name := value]> (ctx_only out))) rest
      end
  end.

Definition split (declared : list RoutingVarDecl) (outputs : gmap string Json)
    : result SplitOutput SplitError :=
  split_loop (declared_by_name declared) (mkSplitOutput ∅ ∅) (entries outputs).

Record DroppedDeclared := mkDroppedDeclared { dropped : list string; dropped_source : SplitError }.

(** The new [routing_variables], or the fault that leaves them as they were. *)
Definition stamp_routing_variables (declared : list RoutingVarDecl) (emitted : gmap string Json)
    (routing_variables : gmap string RoutingValue)
    : gmap string RoutingValue * result unit DroppedDeclared :=
  let expected := rv_name <$> filter (λ spec, is_Some (emitted !! rv_name spec)) declared in
  match split declared emitted with
  | Ok out => (routing_vars out, Ok ())
  | Err source => (routing_variables, Err (mkDroppedDeclared expected source))
  end.

(** ** Emits *)

Section synth.
Context {Uuid : Type} (fresh : nat → Uuid).

Record SynthesizedWakeup := mkWakeup {
  sw_signal_name : string;
  sw_payload : Json;
  sw_signal_id : Uuid
}.

Inductive SynthError := MissingRoutingValue (routing_var : string).

Definition routing_value_to_json (v : RoutingValue) : Json :=
  match routing_value v with
  | Some (StringValue s) => JString s
  | Some (IntValue n) => JNumber (JInt n)
  | Some (BoolValue b) => JBool b
  | Some (BytesValue bytes) => JArray ((λ b, JNumber (JInt (Z.of_N b))) <$> bytes)
  | None => JNull
  end.

Fixpoint synthesize_on_success (emits : list TaskSignalEmit) (vars : gmap string RoutingValue)
    (n : nat) : result (list SynthesizedWakeup) SynthError :=
  match emits with
  | [] => Ok []
  | mkTaskSignalEmit (Some (Emit_OnSuccess signal var)) :: rest =>
      let? value := ok_or (vars !! var) (MissingRoutingValue var) in
      let? ws := synthesize_on_success rest vars (S n) in
      Ok (mkWakeup signal (routing_value_to_json value) (fresh n) :: ws)
  | _ :: rest => synthesize_on_success rest vars n
  end.

(** [ctx] is the JSON of the [FailureContext]. *)
Fixpoint synthesize_on_failure (emits : list TaskSignalEmit) (ctx : Json) (n : nat)
    : list SynthesizedWakeup :=
  match emits with
  | [] => []
  | mkTaskSignalEmit (Some (Emit_OnFailure signal)) :: rest =>
      mkWakeup signal ctx (fresh n) :: synthesize_on_failure rest ctx (S n)
  | _ :: rest => synthesize_on_failure rest ctx n
  end.
End synth.

(** ** The split is a partition *)

Lemma elem_of_entries {V} (m : gmap string V) k v : (k, v) ∈ entries m ↔ m !! k = Some v.
Proof. unfold entries. by rewrite elem_of_sort_by, elem_of_map_to_list. Qed.

Lemma entries_nodup {V} (m : gmap string V) : NoDup (entries m).*1.
Proof. unfold entries. rewrite sort_by_perm. apply NoDup_fst_map_to_list. Qed.

Lemma split_loop_casts by_name l out out' :
  split_loop by_name out l = Ok out' →
  ∀ n v spec, (n, v) ∈ l → by_name !! n = Some spec → is_ok (cast spec n v) = true.
Proof.
  revert out; induction l as [|[k v] l IH]; intros out Hl n v' spec; [by intros ?%elem_of_nil|].
  simpl in Hl. intros [[= -> ->]|Hin]%elem_of_cons Hspec.
  - rewrite Hspec in Hl. by destruct (cast spec k v).
  - destruct (by_name !! k) as [spec'|]; [destruct (cast spec' k v); [|done]|]; by eapply IH.
Qed.

Lemma split_loop_routing by_name l out out' :
  split_loop by_name out l = Ok out' → NoDup l.*1 →
  ∀ n rv, routing_vars out' !! n = Some rv ↔
    (∃ v spec, (n, v) ∈ l ∧ by_name !! n = Some spec ∧ cast spec n v = Ok rv) ∨
    ((n ∉ l.*1 ∨ by_name !! n = None) ∧ routing_vars out !! n = Some rv).
Proof.
  revert out; induction l as [|[k v] l IH]; intros out Hl Hnd n rv.
  { injection Hl as <-. split.
    - intros ?. right. split; [left; apply not_elem_of_nil|done].
    - intros [(?&?&?%elem_of_nil&_)|[_ ?]]; done. }
  csimpl in Hnd. apply NoDup_cons in Hnd as [Hk Hnd]. simpl in Hl. csimpl.
  assert (∀ v', (k, v') ∉ l) as Hkl.
  { intros v' Hin. apply Hk, list_elem_of_fmap. by exists (k, v'). }
  rewrite not_elem_of_cons. setoid_rewrite elem_of_cons.
  destruct (by_name !! k) as [spec|] eqn:Hs; [destruct (cast spec k v) as [rv0|] eqn:Hc; [|done]|].
  all: rewrite (IH _ Hl Hnd); cbn [routing_vars]; rewrite ?lookup_insert_Some.
  - split.
    + intros [(v'&spec'&?&?&?)|[Hn [[<- <-]|[Hne ?]]]].
      * left. eauto 10.
      * left. exists v, spec. auto.
      * right. split; [|done]. destruct Hn; [left|right]; auto.
    + intros [(v'&spec'&[[= -> ->]|?]&?&?)|[[[? ?]|?] ?]].
      * right. split; [by left|]. left. split; congruence.
      * left. eauto 10.
      * right. split; [by left|]. right. auto.
      * right. split; [by right|]. right. split; [congruence|done].
  - split.
    + intros [(v'&spec'&?&?&?)|[Hn ?]]; [left; eauto 10|right]. split; [|done].
      destruct Hn as [?|?]; [|by right]. destruct (decide (n = k)) as [->|]; [by right|by left].
    + intros [(v'&spec'&[[= -> ->]|?]&?&?)|[[[? ?]|?] ?]]; [congruence|left; eauto 10|right; eauto..].
Qed.

Lemma split_loop_ctx by_name l out out' :
  split_loop by_name out l = Ok out' → NoDup l.*1 →
  ∀ n v, ctx_only out' !! n = Some v ↔
    ((n, v) ∈ l ∧ by_name !! n = None) ∨
    ((n ∉ l.*1 ∨ is_Some (by_name !! n)) ∧ ctx_only out !! n = Some v).
Proof.
  revert out; induction l as [|[k v0] l IH]; intros out Hl Hnd n v.
  { injection Hl as <-. split.
    - intros ?. right. split; [left; apply not_elem_of_nil|done].
    - intros [[?%elem_of_nil _]|[_ ?]]; done. }
  csimpl in Hnd. apply NoDup_cons in Hnd as [Hk Hnd]. simpl in Hl. csimpl.
  assert (∀ v', (k, v') ∉ l) as Hkl.
  { intros v' Hin. apply Hk, list_elem_of_fmap. by exists (k, v'). }
  rewrite not_elem_of_cons, elem_of_cons.
  destruct (by_name !! k) as [spec|] eqn:Hs; [destruct (cast spec k v0) as [rv0|] eqn:Hc; [|done]|].
  all: rewrite (IH _ Hl Hnd); cbn [ctx_only]; rewrite ?lookup_insert_Some.
  - split.
    + intros [[? ?]|[Hn ?]]; [auto|right]. split; [|done]. destruct Hn as [?|?]; [|by right].
      destruct (decide (n = k)) as [->|]; [right; eauto|by left].
    + intros [[[[= -> ->]|?] ?]|[[[? ?]|?] ?]]; [congruence|auto|right; auto..].
  - split.
    + intros [[? ?]|[Hn [[<- <-]|[? ?]]]]; [auto|left; auto|right]. split; [|done].
      destruct Hn as [?|?]; [left; auto|by right].
    + intros [[[[= -> ->]|?] ?]|[[[? ?]|Hsome] ?]].
      * right. split; [by left|left; auto].
      * auto.
      * right. split; [by left|right; auto].
      * right. split; [by right|right]. split; [|done]. intros ->. rewrite Hs in Hsome.
        by destruct Hsome.
Qed.

(** The declaration of a name that counts: the last one. *)
Lemma declared_by_name_lookup declared n :
  declared_by_name declared !! n = last (filter (λ d, rv_name d = n) declared).
Proof.
  unfold declared_by_name. induction declared as [|d l IH] using rev_ind; [done|].
  rewrite foldl_app, filter_app, filter_cons, filter_nil. simpl.
  case_decide as Hd; subst.
  - by rewrite lookup_insert_eq, last_snoc.
  - by rewrite lookup_insert_ne, app_nil_r.
Qed.

Lemma declared_by_name_is_Some declared n :
  is_Some (declared_by_name declared !! n) ↔ n ∈ rv_name <$> declared.
Proof.
  rewrite declared_by_name_lookup, last_is_Some, list_elem_of_fmap. split.
  - destruct (filter _ _) as [|d l'] eqn:Hf; [done|]. intros _.
    assert (d ∈ filter (λ d, rv_name d = n) declared) as [<- ?]%list_elem_of_filter
      by (rewrite Hf; left). eauto.
  - intros (d&->&Hd) Hf. assert (d ∈ filter (λ d', rv_name d' = rv_name d) declared) as Hin
      by by apply list_elem_of_filter.
    rewrite Hf in Hin. by apply elem_of_nil in Hin.
Qed.

Lemma split_ok declared outputs out :
  split declared outputs = Ok out →
  (∀ n rv, routing_vars out !! n = Some rv ↔
     ∃ v spec, outputs !! n = Some v ∧ declared_by_name declared !! n = Some spec ∧
               cast spec n v = Ok rv) ∧
  (∀ n v, ctx_only out !! n = Some v ↔ outputs !! n = Some v ∧ n ∉ rv_name <$> declared) ∧
  (∀ n v spec, outputs !! n = Some v → declared_by_name declared !! n = Some spec →
     is_ok (cast spec n v) = true).
Proof.
  intros Hs. pose proof (entries_nodup outputs) as Hnd. split_and!.
  - intros n rv. rewrite (split_loop_routing _ _ _ _ Hs Hnd). cbn [routing_vars].
    rewrite lookup_empty. setoid_rewrite elem_of_entries. naive_solver.
  - intros n v. rewrite (split_loop_ctx _ _ _ _ Hs Hnd). cbn [ctx_only].
    rewrite lookup_empty, elem_of_entries, eq_None_not_Some, declared_by_name_is_Some. naive_solver.
  - intros n v spec. rewrite <-elem_of_entries. by eapply split_loop_casts.
Qed.

Lemma split_loop_err by_name l out e :
  split_loop by_name out l = Err e →
  ∃ n v spec, (n, v) ∈ l ∧ by_name !! n = Some spec ∧ cast spec n v = Err e.
Proof.
  revert out; induction l as [|[k v] l IH]; intros out; simpl; [done|].
  destruct (by_name !! k) as [spec|] eqn:Hs.
  - destruct (cast spec k v) as [rv|e'] eqn:Hc.
    + intros (n&v'&spec'&?&?)%IH. exists n, v', spec'. split; [by right|done].
    + intros [= ->]. exists k, v, spec. split; [left|done].
  - intros (n&v'&spec'&?&?)%IH. exists n, v', spec'. split; [by right|done].
Qed.

(** The split partitions a task's outputs: a declared output goes, cast, to the
    routing variables and only there; an undeclared one stays in the context as
    it is; nothing is lost or made up. *)
Theorem split_partition declared outputs out :
  split declared outputs = Ok out →
  (∀ n rv, routing_vars out !! n = Some rv ↔
     ∃ v spec, outputs !! n = Some v ∧ declared_by_name declared !! n = Some spec ∧
               cast spec n v = Ok rv) ∧
  (∀ n v, ctx_only out !! n = Some v ↔ outputs !! n = Some v ∧ n ∉ rv_name <$> declared) ∧
  ∀ n, is_Some (outputs !! n) ↔ is_Some (routing_vars out !! n) ∨ is_Some (ctx_only out !! n).
Proof.
  intros (Hr&Hc&Hok)%split_ok. split_and!; [done..|]. intros n. split.
  - intros [v Hv]. destruct (declared_by_name declared !! n) as [spec|] eqn:Hs.
    + left. pose proof (Hok n v spec Hv Hs). destruct (cast spec n v) as [rv|] eqn:Hcast; [|done].
      exists rv. apply Hr. eauto.
    + right. exists v. apply Hc. rewrite <-declared_by_name_is_Some, Hs. split; [done|by intros [? ?]].
  - intros [[rv (v&?&?&_)%Hr]|[v [? _]%Hc]]; eauto.
Qed.

(** Stamping fails closed: a stamped event carries every declared variable the
    task emitted; a fault leaves the event as it was and names the declared
    variables that were emitted, of which there is at least one. *)
Theorem stamp_fails_closed declared emitted vars :
  match stamp_routing_variables declared emitted vars with
  | (vars', Ok _) =>
      ∀ n, is_Some (vars' !! n) ↔ n ∈ rv_name <$> declared ∧ is_Some (emitted !! n)
  | (vars', Err fault) =>
      vars' = vars ∧ dropped fault ≠ [] ∧
      ∀ n, n ∈ dropped fault ↔ n ∈ rv_name <$> declared ∧ is_Some (emitted !! n)
  end.
Proof.
  unfold stamp_routing_variables. destruct (split declared emitted) as [out|e] eqn:Hs.
  - apply split_ok in Hs as (Hr&_&Hok). intros n. split.
    + intros [rv (v&spec&?&Hspec&_)%Hr]. rewrite <-declared_by_name_is_Some. eauto.
    + rewrite <-declared_by_name_is_Some. intros [[spec Hspec] [v Hv]].
      pose proof (Hok n v spec Hv Hspec). destruct (cast spec n v) as [rv|] eqn:Hcast; [|done].
      exists rv. apply Hr. eauto.
  - assert (∀ n, n ∈ rv_name <$> filter (λ spec, is_Some (emitted !! rv_name spec)) declared ↔
                 n ∈ rv_name <$> declared ∧ is_Some (emitted !! n)) as Hd.
    { intros n. rewrite !list_elem_of_fmap. setoid_rewrite list_elem_of_filter. naive_solver. }
    cbn [dropped]. split_and!; [done| |done]. intros Hnil.
    apply split_loop_err in Hs as (n&v&spec&Hin%elem_of_entries&Hspec&_).
    apply (not_elem_of_nil n). rewrite <-Hnil. apply Hd.
    rewrite <-declared_by_name_is_Some. eauto.
Qed.

(** A routing variable reaches the wakeups as the JSON the task emitted. *)
Theorem routing_value_roundtrip name v rv :
  json_to_routing_value name v = Ok rv → routing_value_to_json rv = v.
Proof.
  destruct v as [|b|[z|f]|s|l|m]; try done; simpl; [by intros [= <-]| |by intros [= <-]].
  destruct (_ && _); [|done]. by intros [= <-].
Qed.

Lemma routing_value_roundtrip_witness :
  routing_value_to_json (mkRoutingValue (Some (IntValue 7))) = JNumber (JInt 7).
Proof. apply (routing_value_roundtrip "n" (JNumber (JInt 7))). reflexivity. Defined.

Definition sample_outputs : gmap string Json :=
  {["verdict" := JString "ship"; "log" := JArray []]}.

Definition sample_split : SplitOutput :=
  match split [mkRoutingVarDecl "verdict" (Some "string")] sample_outputs with
  | Ok out => out
  | Err _ => mkSplitOutput ∅ ∅
  end.

Lemma split_partition_witness :
  let declared := [mkRoutingVarDecl "verdict" (Some "string")] in
  (∀ n rv, routing_vars sample_split !! n = Some rv ↔
     ∃ v spec, sample_outputs !! n = Some v ∧ declared_by_name declared !! n = Some spec ∧
               cast spec n v = Ok rv) ∧
  (∀ n v, ctx_only sample_split !! n = Some v ↔
     sample_outputs !! n = Some v ∧ n ∉ rv_name <$> declared) ∧
  ∀ n, is_Some (sample_outputs !! n) ↔
       is_Some (routing_vars sample_split !! n) ∨ is_Some (ctx_only sample_split !! n).
Proof. apply (split_partition [mkRoutingVarDecl "verdict" (Some "string")]). vm_compute. reflexivity. Defined.

(** ** Synthesized wakeups *)

(** The emits of a successful completion, with their variables. *)
Definition success_emits (emits : list TaskSignalEmit) : list (string * string) :=
  omap (λ e, match emit_kind e with Some (Emit_OnSuccess s v) => Some (s, v) | _ => None end) emits.

(** A completion wakes exactly its declared signals, in order, each with the value
    of its variable; it fails only for a variable that never arrived. *)
Theorem synthesize_on_success_correct {Uuid} (fresh : nat → Uuid) emits vars n :
  match synthesize_on_success fresh emits vars n with
  | Ok ws =>
      Forall2 (λ sv w, ∃ rv, vars !! sv.2 = Some rv ∧ sw_signal_name w = sv.1 ∧
                             sw_payload w = routing_value_to_json rv) (success_emits emits) ws ∧
      sw_signal_id <$> ws = fresh <$> seq n (length ws)
  | Err (MissingRoutingValue v) => v ∈ (success_emits emits).*2 ∧ vars !! v = None
  end.
Proof.
  revert n; induction emits as [|[[[s v|s]|]] emits IH]; intros n; simpl; try apply IH.
  { split; [constructor|done]. }
  destruct (vars !! v) as [rv|] eqn:Hv; simpl; [|split; [left|done]].
  specialize (IH (S n)). destruct (synthesize_on_success fresh emits vars (S n)) as [ws|[v']].
  - destruct IH as [Hf Hids]. split; [constructor; [eauto|done]|]. csimpl. by rewrite Hids.
  - destruct IH as [Hin ?]. split; [by right|done].
Qed.
