(* ===== verification/ReplaySeed.v ===== *)
(** * Replay seeds

    [replay_seed.rs] over the messages of [proto/runnable-projection.proto]: the
    forward closure of a resume frontier, the two tiers of fireability, and the
    seeded graph.  The order in which a [HashSet] is visited is a parameter; the
    results do not depend on it. *)

From S2P Require Import Prelude Workflow Uuid.

(** ** The runnable projection *)

Inductive GroundState := GS_Pending | GS_Success | GS_Failed | GS_Cancelled.
Definition GroundState_i32 (g : GroundState) : Z :=
  match g with GS_Pending => 0 | GS_Success => 1 | GS_Failed => 2 | GS_Cancelled => 3 end.

Definition GROUND_PENDING : Z := GroundState_i32 GS_Pending.
Definition GROUND_SUCCESS : Z := GroundState_i32 GS_Success.
Definition GROUND_FAILED : Z := GroundState_i32 GS_Failed.
Definition NODE_TYPE_TASK : Z := NodeType_i32 NodeType_Task.

Inductive GateStateKind := Idle | Dispatched | Satisfied (signal_id : string) | Rejected | Cancelled.

Record GateRuntimeState := mkGateRuntimeState { gate_state : option GateStateKind }.

Record GateTransition := mkGateTransition {
  gt_from : option GateRuntimeState;
  gt_to : option GateRuntimeState;
  gt_at : string
}.

Record RunnableGate := mkRunnableGate {
  rg_declaration : option Gate;
  rg_state : option GateRuntimeState;
  rg_transitions : list GateTransition
}.

Record RunnableEdge := mkRunnableEdge {
  re_id : string;
  re_sources : list string;
  re_targets : list string;
  re_kind : Z;
  re_gates : list RunnableGate
}.

Record RunnableNode := mkRunnableNode {
  rn_id : string;
  rn_node_type : Z;
  rn_ground : Z;
  rn_grounded_at : option string
}.

Record RunnableGraph := mkRunnableGraph {
  rg_nodes : list RunnableNode;
  rg_edges : list RunnableEdge;
  rg_start : string;
  rg_end : string;
  rg_head : list string;
  rg_tail : string
}.

Definition outgoing_adjacency (graph : RunnableGraph) : gmap string (list string) :=
  build_adjacency re_sources re_targets (λ _, true) (λ _, true) (rg_edges graph).

Definition node_by_id (graph : RunnableGraph) (id : string) : option RunnableNode :=
  List.find (λ n, bool_decide (rn_id n = id)) (rg_nodes graph).

(** ** The forward closure *)

(** [while let Some(n) = stack.pop()]; the top of the stack is the head. *)
Fixpoint closure_loop (adj : gmap string (list string)) (fuel : nat) (closure : gset string)
    (stack : list string) : option (gset string) :=
  match stack, fuel with
  | [], _ => Some closure
  | _, 0 => None
  | n :: rest, S f =>
      if bool_decide (n ∈ closure) then closure_loop adj f closure rest
      else
        let closure' := {[n]} ∪ closure in
        closure_loop adj f closure'
          (rev (List.filter (λ next, negb (bool_decide (next ∈ closure'))) (bucket adj n)) ++ rest)
  end.

Definition closure_fuel (adj : gmap string (list string)) (seeds : list string) : nat :=
  length seeds + sum_over (λ v, length (bucket adj v)) (map_to_list adj).*1.

Definition forward_closure_opt (graph : RunnableGraph) (seeds : list string) : option (gset string) :=
  let adj := outgoing_adjacency graph in
  closure_loop adj (closure_fuel adj seeds) ∅ (rev seeds).

Definition forward_closure (graph : RunnableGraph) (seeds : list string) : gset string :=
  default ∅ (forward_closure_opt graph seeds).

Definition succeeded (graph : RunnableGraph) (src : string) : bool :=
  match node_by_id graph src with
  | Some n => (rn_ground n =? GROUND_SUCCESS)%Z
  | None => false
  end.

Definition all_success (graph : RunnableGraph) (extra : string → bool) (e : RunnableEdge) : bool :=
  negb (bool_decide (length (re_sources e) = 0)) &&
  forallb (λ src, extra src || succeeded graph src) (re_sources e).

Definition has_all_success_incident_edge (graph : RunnableGraph) (node : string) : bool :=
  existsb (λ e, bool_decide (node ∈ re_targets e) && all_success graph (λ _, false) e)
    (rg_edges graph).

(** ** Fireability *)

Inductive ReplayReject (Uuid : Type) :=
| RootUnfireable (root : Uuid)
| NoFailedNodes
| VersionUnresolvable.
Arguments RootUnfireable {Uuid} root.
Arguments NoFailedNodes {Uuid}.
Arguments VersionUnresolvable {Uuid}.

Section replay.
Context `{UuidOps Uuid} (uuid_leb : Uuid → Uuid → bool).
Context (iter : gset string → list string).

Definition default_resume_from (graph : RunnableGraph) : list Uuid :=
  sort_by uuid_leb
    (omap (λ n, uuid_parse_str (rn_id n))
       (filter (λ n, rn_ground n = GROUND_FAILED) (rg_nodes graph))).

(** The test of the fixpoint loop for one node. *)
Definition can_fire (graph : RunnableGraph) (fireable : gset string) (n : string) : bool :=
  existsb (λ e, bool_decide (n ∈ re_targets e)
                && all_success graph (λ src, bool_decide (src ∈ fireable)) e) (rg_edges graph).

(** One pass over the closure: the set and whether it changed. *)
Fixpoint fire_pass (graph : RunnableGraph) (l : list string) (fireable : gset string) (changed : bool)
    : gset string * bool :=
  match l with
  | [] => (fireable, changed)
  | n :: rest =>
      if bool_decide (n ∈ fireable) then fire_pass graph rest fireable changed
      else if can_fire graph fireable n then fire_pass graph rest ({[n]} ∪ fireable) true
      else fire_pass graph rest fireable changed
  end.

(** [loop { .. if !changed { break; } }] *)
Fixpoint fire_loop (graph : RunnableGraph) (l : list string) (fuel : nat) (fireable : gset string)
    : option (gset string) :=
  match fuel with
  | 0 => None
  | S f => let '(fireable', changed) := fire_pass graph l fireable false in
           if changed then fire_loop graph l f fireable' else Some fireable'
  end.

Definition fireable_set (graph : RunnableGraph) (closure : gset string) (roots : list string)
    : gset string :=
  default ∅ (fire_loop graph (iter closure) (S (length (iter closure))) (list_to_set roots)).

Definition validate_fireability (graph : RunnableGraph) (resume_from : list Uuid)
    : result (list Uuid) (ReplayReject Uuid) :=
  if bool_decide (length resume_from = 0) then Err NoFailedNodes
  else
    let? _ := check_all (λ root, ensure (has_all_success_incident_edge graph (uuid_to_string root))
                                   (RootUnfireable root)) resume_from in
    let roots := uuid_to_string <$> resume_from in
    let closure := forward_closure graph roots in
    let fireable := fireable_set graph closure roots in
    Ok (sort_by uuid_leb
          (omap (λ n, uuid_parse_str n)
             (filter (λ n, (n ∉ fireable) ∧
                        (rn_node_type <$> node_by_id graph n) = Some NODE_TYPE_TASK)
                (iter closure)))).

(** ** The seeded graph *)

Definition reset_node (closure : gset string) (n : RunnableNode) : RunnableNode :=
  if bool_decide (rn_id n ∈ closure)
  then mkRunnableNode (rn_id n) (rn_node_type n) GROUND_PENDING None else n.

Definition rearm_gate (g : RunnableGate) : RunnableGate :=
  mkRunnableGate (rg_declaration g) (Some (mkGateRuntimeState (Some Idle))) (rg_transitions g).

Definition reset_edge (closure : gset string) (e : RunnableEdge) : RunnableEdge :=
  if existsb (λ t, bool_decide (t ∈ closure)) (re_targets e)
  then mkRunnableEdge (re_id e) (re_sources e) (re_targets e) (re_kind e) (rearm_gate <$> re_gates e)
  else e.

Definition build_seeded_graph (graph : RunnableGraph) (resume_from : list Uuid)
    : RunnableGraph * list Uuid :=
  let closure := forward_closure graph (uuid_to_string <$> resume_from) in
  let nodes := reset_node closure <$> rg_nodes graph in
  let seeded := mkRunnableGraph nodes (reset_edge closure <$> rg_edges graph) (rg_start graph)
                  (rg_end graph) (rg_head graph) (rg_tail graph) in
  (seeded, sort_by uuid_leb
             (omap (λ n, uuid_parse_str (rn_id n))
                (filter (λ n, rn_node_type n = NODE_TYPE_TASK ∧ rn_ground n ≠ GROUND_PENDING) nodes))).

Record ReplaySeed := mkReplaySeed {
  replay_instance : string;
  pre_grounded : list string;
  seeded_graph : option RunnableGraph;
  seeded_tasks : list TaskDefinition;
  seed_workflow_version : Z
}.

(** [uuid_bytes] are the sixteen bytes of a uuid, as a string. *)
Context (REPLAY_NAMESPACE : Uuid) (uuid_bytes : Uuid → string).

Definition replay_instance_id (source_instance_id signal_id : Uuid) : Uuid :=
  uuid_new_v5 REPLAY_NAMESPACE (uuid_bytes source_instance_id +:+ uuid_bytes signal_id).

Definition mint_replay_seed (source_instance_id : Uuid) (graph : RunnableGraph)
    (tasks : list TaskDefinition) (workflow_version : Z) (resume_from : option (list Uuid))
    (signal_id : Uuid) : result (ReplaySeed * list Uuid) (ReplayReject Uuid) :=
  let resume_from := match resume_from with
                     | Some (u :: rf) => u :: rf
                     | _ => default_resume_from graph
                     end in
  let? report := validate_fireability graph resume_from in
  let '(seeded, pre) := build_seeded_graph graph resume_from in
  Ok (mkReplaySeed (uuid_to_string (replay_instance_id source_instance_id signal_id))
        (uuid_to_string <$> pre) (Some seeded) tasks workflow_version, report).
End replay.

(** ** The closure is reachability *)

(** One hyperedge of the graph leads from [u] to [v]. *)
Definition leads (graph : RunnableGraph) (u v : string) : Prop :=
  ∃ e, e ∈ rg_edges graph ∧ u ∈ re_sources e ∧ v ∈ re_targets e.

Lemma outgoing_adjacency_leads graph u v :
  v ∈ bucket (outgoing_adjacency graph) u ↔ leads graph u v.
Proof. unfold outgoing_adjacency, leads. rewrite elem_of_build_adjacency. naive_solver. Qed.

Section closure.
Context (adj : gmap string (list string)).
Implicit Types (closure : gset string) (stack seeds : list string).

(** The work left: the stack, and the out-edges of the nodes not yet visited. *)
Definition closure_measure closure stack : nat :=
  length stack
  + sum_over (λ v, if bool_decide (v ∈ closure) then 0 else length (bucket adj v))
      (map_to_list adj).*1.

Lemma bucket_not_key n : n ∉ (map_to_list adj).*1 → bucket adj n = [].
Proof.
  intros Hn. unfold bucket. destruct (adj !! n) as [l|] eqn:Hl; [|done].
  destruct Hn. apply list_elem_of_fmap. exists (n, l). split; [done|].
  by apply elem_of_map_to_list.
Qed.

Lemma closure_measure_visit closure stack n fresh :
  n ∉ closure → length fresh ≤ length (bucket adj n) →
  closure_measure ({[n]} ∪ closure) (fresh ++ stack) < closure_measure closure (n :: stack).
Proof.
  intros Hn Hfresh. unfold closure_measure. rewrite length_app. simpl.
  set (f := λ v, if bool_decide (v ∈ closure) then 0 else length (bucket adj v)).
  set (g := λ v, if bool_decide (v ∈ {[n]} ∪ closure) then 0 else length (bucket adj v)).
  assert (∀ y, y ≠ n → g y = f y) as Hgf.
  { intros y Hy. unfold g, f. repeat case_bool_decide; set_solver. }
  destruct (decide (n ∈ (map_to_list adj).*1)) as [Hin|Hout].
  - pose proof (sum_over_update f g _ n (NoDup_fst_map_to_list adj) Hin (λ y _, Hgf y)) as Hsum.
    assert (f n = length (bucket adj n)) as Hf by (unfold f; by rewrite bool_decide_false).
    assert (g n = 0) as Hg by (unfold g; rewrite bool_decide_true; set_solver).
    lia.
  - rewrite (bucket_not_key _ Hout) in Hfresh. simpl in Hfresh.
    rewrite (sum_over_ext g f); [lia|]. intros y Hy. apply Hgf. by intros ->.
Qed.

(** What the loop keeps: what it holds is reachable, and the successors of what
    it visited are visited or waiting. *)
Definition closure_inv seeds closure stack : Prop :=
  (∀ x, x ∈ closure ∨ x ∈ stack → ∃ s, s ∈ seeds ∧ rtc (adj_rel adj) s x) ∧
  (∀ x y, x ∈ closure → adj_rel adj x y → y ∈ closure ∨ y ∈ stack) ∧
  (∀ s, s ∈ seeds → s ∈ closure ∨ s ∈ stack).

Lemma closure_inv_skip seeds closure stack n :
  n ∈ closure → closure_inv seeds closure (n :: stack) → closure_inv seeds closure stack.
Proof. unfold closure_inv. set_solver. Qed.

Lemma closure_inv_visit seeds closure stack n :
  closure_inv seeds closure (n :: stack) →
  closure_inv seeds ({[n]} ∪ closure)
    (rev (List.filter (λ next, negb (bool_decide (next ∈ {[n]} ∪ closure))) (bucket adj n)) ++ stack).
Proof.
  intros (Hreach & Hsucc & Hseeds).
  assert (∀ y, y ∈ rev (List.filter (λ next, negb (bool_decide (next ∈ {[n]} ∪ closure)))
                          (bucket adj n)) ↔ y ∈ bucket adj n ∧ y ∉ {[n]} ∪ closure) as Hfresh.
  { intros y. rewrite list_elem_of_In, <- in_rev, <- list_elem_of_In, elem_of_filter_bool,
      negb_true_iff, bool_decide_eq_false. tauto. }
  unfold closure_inv. setoid_rewrite elem_of_app. setoid_rewrite Hfresh.
  split_and!.
  - intros x [Hx|[[Hx _]|Hx]].
    + apply elem_of_union in Hx as [->%elem_of_singleton|Hx]; apply Hreach; set_solver.
    + destruct (Hreach n) as (s & Hs & Hpath); [set_solver|]. exists s. split; [done|].
      by eapply rtc_r.
    + apply Hreach. set_solver.
  - intros x y Hx Hxy. destruct (decide (y ∈ {[n]} ∪ closure)) as [|Hy]; [by left|right].
    apply elem_of_union in Hx as [->%elem_of_singleton|Hx]; [by left|].
    destruct (Hsucc x y Hx Hxy); set_solver.
  - intros s Hs. destruct (Hseeds s Hs); set_solver.
Qed.

Lemma closure_loop_ok seeds fuel : ∀ closure stack,
  closure_measure closure stack ≤ fuel → closure_inv seeds closure stack →
  ∃ c, closure_loop adj fuel closure stack = Some c ∧ closure_inv seeds c [].
Proof.
  induction fuel as [|fuel IH]; intros closure [|n stack] Hfuel Hinv; simpl; eauto.
  { unfold closure_measure in Hfuel. simpl in Hfuel. lia. }
  case_bool_decide as Hn.
  - apply IH; [|by eapply closure_inv_skip]. unfold closure_measure in *. simpl in *. lia.
  - apply IH; [|by apply closure_inv_visit]. eapply Nat.lt_succ_r, Nat.lt_le_trans; [|exact Hfuel].
    apply closure_measure_visit; [done|]. rewrite length_rev. apply List.filter_length_le.
Qed.

Lemma closure_inv_done seeds c x :
  closure_inv seeds c [] → x ∈ c ↔ ∃ s, s ∈ seeds ∧ rtc (adj_rel adj) s x.
Proof.
  intros (Hreach & Hsucc & Hseeds). split; [auto|]. intros (s & Hs & Hpath).
  assert (s ∈ c) as Hsc by (destruct (Hseeds s Hs); set_solver).
  clear Hs. induction Hpath as [|u v w Huv _ IH]; [done|].
  apply IH. destruct (Hsucc u v Hsc Huv); set_solver.
Qed.
End closure.

Lemma forward_closure_total graph seeds :
  ∃ c, forward_closure_opt graph seeds = Some c ∧ closure_inv (outgoing_adjacency graph) seeds c [].
Proof.
  unfold forward_closure_opt. apply closure_loop_ok.
  - unfold closure_measure, closure_fuel. rewrite length_rev. apply Nat.add_le_mono_l.
    apply Nat.eq_le_incl, sum_over_ext. intros v _. by rewrite bool_decide_false by set_solver.
  - assert (∀ x, x ∈ rev seeds ↔ x ∈ seeds) as Hrev
      by (intros; by rewrite !list_elem_of_In, <- in_rev).
    unfold closure_inv. setoid_rewrite Hrev. split_and!; [|set_solver|set_solver].
    intros x [?|Hx]; [set_solver|]. exists x. split; [done|apply rtc_refl].
Qed.

Lemma elem_of_forward_closure graph seeds x :
  x ∈ forward_closure graph seeds ↔ ∃ s, s ∈ seeds ∧ rtc (leads graph) s x.
Proof.
  unfold forward_closure. destruct (forward_closure_total graph seeds) as (c & -> & Hc). simpl.
  rewrite (closure_inv_done _ _ _ x Hc).
  assert (∀ u v, adj_rel (outgoing_adjacency graph) u v ↔ leads graph u v) as Hrel
    by apply outgoing_adjacency_leads.
  split; intros (s & Hs & Hpath); exists s; (split; [done|]);
    revert Hpath; apply rtc_subrel; intros ??; apply Hrel.
Qed.

(** C40: The closure of a replay holds exactly the nodes that lie downstream of the
    resume frontier along the hyperedges of the archived graph, and the search
    always ends. *)
Theorem forward_closure_correct graph seeds :
  (∃ c, forward_closure_opt graph seeds = Some c) ∧
  ∀ x, x ∈ forward_closure graph seeds ↔ ∃ s, s ∈ seeds ∧ rtc (leads graph) s x.
Proof.
  split; [|intros x; apply elem_of_forward_closure].
  destruct (forward_closure_total graph seeds) as (c & Hc & _). eauto.
Qed.

(** ** The fixpoint is the least one *)

Section fires.
Context (graph : RunnableGraph) (closure : gset string) (roots : list string).

(** What re-runs, given the nodes whose success is taken as read: the roots,
    and the nodes of the closure with an edge whose sources all succeed. *)
Inductive fires (carried : string → bool) : string → Prop :=
| fires_root n : n ∈ roots → fires carried n
| fires_edge n e :
    n ∈ closure → e ∈ rg_edges graph → n ∈ re_targets e → re_sources e ≠ [] →
    (∀ src, src ∈ re_sources e → carried src = false → fires carried src) →
    fires carried n.

Lemma fires_ext f g n : (∀ m, f m = g m) → fires f n ↔ fires g n.
Proof.
  intros Hfg. split; (induction 1 as [m Hm|m e Hm He Ht Hne Hsrc IH]; [by apply fires_root|]);
    (apply (fires_edge _ m e); [done..|]; intros src Hin Hno; apply IH; [done|]); [by rewrite Hfg|by rewrite <- Hfg].
Qed.

Lemma all_success_spec extra e :
  all_success graph extra e = true ↔
  re_sources e ≠ [] ∧ ∀ src, src ∈ re_sources e → extra src = true ∨ succeeded graph src = true.
Proof.
  unfold all_success. rewrite andb_true_iff, negb_true_iff, bool_decide_eq_false, forallb_forall.
  setoid_rewrite orb_true_iff. setoid_rewrite <- list_elem_of_In.
  assert (length (re_sources e) ≠ 0 ↔ re_sources e ≠ []) as -> by (by destruct (re_sources e)).
  done.
Qed.

Lemma can_fire_spec (fireable : gset string) n :
  can_fire graph fireable n = true ↔
  ∃ e, e ∈ rg_edges graph ∧ n ∈ re_targets e ∧ re_sources e ≠ [] ∧
       ∀ src, src ∈ re_sources e → src ∈ fireable ∨ succeeded graph src = true.
Proof.
  unfold can_fire. rewrite existsb_exists. setoid_rewrite <- list_elem_of_In.
  setoid_rewrite andb_true_iff. setoid_rewrite all_success_spec.
  setoid_rewrite bool_decide_eq_true. naive_solver.
Qed.

Definition sound (fireable : gset string) : Prop :=
  ∀ x, x ∈ fireable → fires (succeeded graph) x.

Lemma can_fire_sound fireable n :
  sound fireable → n ∈ closure → can_fire graph fireable n = true → fires (succeeded graph) n.
Proof.
  intros Hs Hn (e & He & Ht & Hne & Hsrc)%can_fire_spec.
  apply (fires_edge _ n e); try done. intros src Hin Hf.
  destruct (Hsrc src Hin); [by apply Hs|congruence].
Qed.

Lemma fire_pass_spec l : ∀ fireable changed fireable' changed',
  (∀ n, n ∈ l → n ∈ closure) → sound fireable →
  fire_pass graph l fireable changed = (fireable', changed') →
  fireable ⊆ fireable' ∧ sound fireable' ∧
  (changed = true → changed' = true) ∧
  (changed' = true → changed = true ∨ ∃ n, n ∈ l ∧ (n ∉ fireable) ∧ n ∈ fireable') ∧
  (changed' = false → fireable' = fireable ∧
     ∀ n, n ∈ l → n ∈ fireable ∨ can_fire graph fireable n = false).
Proof.
  induction l as [|n l IH]; simpl; intros f ch f' ch' Hl Hs Heq.
  { injection Heq as <- <-. split_and!; auto. split; [done|]. by intros ? ?%elem_of_nil. }
  assert (∀ m, m ∈ l → m ∈ closure) as Hl' by (intros; apply Hl; by right).
  case_bool_decide as Hn; [|destruct (can_fire graph f n) eqn:Hcan].
  - destruct (IH f ch f' ch' Hl' Hs Heq) as (? & ? & ? & Hgrow & Hstop). split_and!; auto.
    + intros [?|(m & ? & ?)]%Hgrow; [by left|right; exists m; set_solver].
    + intros [-> Hl2]%Hstop. split; [done|]. intros m [->|Hm]%elem_of_cons; auto.
  - destruct (IH ({[n]} ∪ f) true f' ch' Hl') as (Hsub & ? & Hch & _ & Hstop); [|done|].
    { intros x [->%elem_of_singleton|Hx]%elem_of_union; [|by apply Hs].
      eapply can_fire_sound; [done|apply Hl; left|done]. }
    split_and!; auto; [set_solver| |].
    + intros _. right. exists n. set_solver.
    + intros Hf. rewrite Hch in Hf by done. discriminate.
  - destruct (IH f ch f' ch' Hl' Hs Heq) as (? & ? & ? & Hgrow & Hstop). split_and!; auto.
    + intros [?|(m & ? & ?)]%Hgrow; [by left|right; exists m; set_solver].
    + intros [-> Hl2]%Hstop. split; [done|]. intros m [->|Hm]%elem_of_cons; auto.
Qed.

(** The nodes of [l] still outside the set; each further round takes one. *)
Definition unfired (l : list string) (fireable : gset string) : nat :=
  length (List.filter (λ n, negb (bool_decide (n ∈ fireable))) l).

Lemma unfired_decreases l f f' n :
  f ⊆ f' → n ∈ l → n ∉ f → n ∈ f' → unfired l f' < unfired l f.
Proof.
  unfold unfired. intros Hsub Hn Hout Hin.
  assert (∀ k, length (List.filter (λ n, negb (bool_decide (n ∈ f'))) k)
               ≤ length (List.filter (λ n, negb (bool_decide (n ∈ f))) k)) as Hle.
  { induction k as [|x k IH]; simpl; [done|].
    repeat case_bool_decide; simpl; try lia. set_solver. }
  induction l as [|x l IH]; [by apply elem_of_nil in Hn|]. simpl. specialize (Hle l).
  apply elem_of_cons in Hn as [<-|Hn].
  - rewrite bool_decide_true by done. rewrite bool_decide_false by done. simpl. lia.
  - specialize (IH Hn). repeat case_bool_decide; simpl; try lia. set_solver.
Qed.

Lemma fire_loop_ok l fuel : ∀ fireable,
  (∀ n, n ∈ l → n ∈ closure) → sound fireable → unfired l fireable < fuel →
  ∃ f, fire_loop graph l fuel fireable = Some f ∧ fireable ⊆ f ∧ sound f ∧
       ∀ n, n ∈ l → n ∈ f ∨ can_fire graph f n = false.
Proof.
  induction fuel as [|fuel IH]; intros fireable Hl Hs Hfuel; [lia|]. simpl.
  destruct (fire_pass graph l fireable false) as [f' ch] eqn:Hpass.
  destruct (fire_pass_spec l _ _ _ _ Hl Hs Hpass) as (Hsub & Hs' & _ & Hgrow & Hstop).
  destruct ch.
  - destruct (Hgrow eq_refl) as [?|(n & Hn & Hout & Hin)]; [done|].
    pose proof (unfired_decreases l _ _ n Hsub Hn Hout Hin).
    destruct (IH f' Hl Hs') as (f & -> & Hsub' & ? & ?); [lia|]. exists f. split; [done|].
    split; [by etrans|done].
  - destruct (Hstop eq_refl) as [-> ?]. eauto 10.
Qed.

Lemma fires_in_closed (f : gset string) n :
  list_to_set roots ⊆ f → (∀ m, m ∈ closure → m ∈ f ∨ can_fire graph f m = false) →
  fires (succeeded graph) n → n ∈ f.
Proof.
  intros Hroots Hclosed. induction 1 as [n Hn|n e Hn He Ht Hne _ IH]; [set_solver|].
  destruct (Hclosed n Hn) as [|Hno]; [done|]. apply not_true_iff_false in Hno. destruct Hno.
  apply can_fire_spec. exists e. split_and!; try done. intros src Hsrc.
  destruct (succeeded graph src) eqn:?; [by right|left]. by apply IH.
Qed.
End fires.

Section iterated.
Context (iter : gset string → list string) (iter_elem : ∀ c x, x ∈ iter c ↔ x ∈ c).

Lemma elem_of_fireable_set graph closure roots n :
  n ∈ fireable_set iter graph closure roots ↔ fires graph closure roots (succeeded graph) n.
Proof.
  unfold fireable_set.
  destruct (fire_loop_ok graph closure roots (iter closure) (S (length (iter closure)))
              (list_to_set roots)) as (f & -> & Hsub & Hs & Hclosed); simpl.
  - intros m. apply iter_elem.
  - intros x Hx. apply fires_root. set_solver.
  - apply Nat.lt_succ_r, List.filter_length_le.
  - split; [apply Hs|]. apply fires_in_closed; [done|].
    intros m Hm. apply Hclosed. by apply iter_elem.
Qed.
End iterated.

(** ** Validation and minting *)

(** Some edge into [n] has succeeded sources only. *)
Definition ready (graph : RunnableGraph) (n : string) : Prop :=
  ∃ e, e ∈ rg_edges graph ∧ n ∈ re_targets e ∧ re_sources e ≠ [] ∧
       ∀ src, src ∈ re_sources e → succeeded graph src = true.

Lemma has_all_success_incident_edge_spec graph n :
  has_all_success_incident_edge graph n = true ↔ ready graph n.
Proof.
  unfold has_all_success_incident_edge, ready. rewrite existsb_exists.
  setoid_rewrite <- list_elem_of_In. setoid_rewrite andb_true_iff.
  setoid_rewrite all_success_spec. setoid_rewrite bool_decide_eq_true. naive_solver.
Qed.

Section mint.
Context `{UuidOps Uuid} (uuid_leb : Uuid → Uuid → bool).
Context (iter : gset string → list string).
Implicit Types (graph : RunnableGraph) (resume_from : list Uuid).

Definition downstream graph resume_from (n : string) : Prop :=
  ∃ u, u ∈ resume_from ∧ rtc (leads graph) (uuid_to_string u) n.

Definition rerun graph resume_from : gset string :=
  forward_closure graph (uuid_to_string <$> resume_from).

Lemma elem_of_rerun graph resume_from n :
  n ∈ rerun graph resume_from ↔ downstream graph resume_from n.
Proof.
  unfold rerun, downstream. rewrite elem_of_forward_closure. setoid_rewrite list_elem_of_fmap.
  naive_solver.
Qed.

Lemma root_check graph (u : Uuid) :
  ensure (has_all_success_incident_edge graph (uuid_to_string u)) (RootUnfireable u) = Ok ()
  ↔ ready graph (uuid_to_string u).
Proof.
  rewrite <- has_all_success_incident_edge_spec. unfold ensure.
  by destruct (has_all_success_incident_edge _ _).
Qed.

Lemma validate_doomed graph resume_from doomed
    (iter_elem : ∀ c x, x ∈ iter c ↔ x ∈ c) :
  validate_fireability uuid_leb iter graph resume_from = Ok doomed →
  ∀ u, u ∈ doomed ↔
    ∃ n nd, downstream graph resume_from n ∧ node_by_id graph n = Some nd ∧
            rn_node_type nd = NODE_TYPE_TASK ∧ uuid_parse_str n = Some u ∧
            ¬ fires graph (rerun graph resume_from) (uuid_to_string <$> resume_from)
                (succeeded graph) n.
Proof.
  unfold validate_fireability. case_bool_decide; [done|].
  destruct (check_all _ _) as [[]|]; [|done]. simpl. intros Hok. injection Hok as <-.
  intros u. rewrite elem_of_sort_by, list_elem_of_omap. setoid_rewrite list_elem_of_filter.
  setoid_rewrite (elem_of_fireable_set iter iter_elem). setoid_rewrite iter_elem.
  setoid_rewrite <- elem_of_rerun. setoid_rewrite fmap_Some. unfold rerun. naive_solver.
Qed.

(** *** The seeded graph *)

Lemma node_by_id_reset graph closure id :
  List.find (λ n, bool_decide (rn_id n = id)) (reset_node closure <$> rg_nodes graph)
  = reset_node closure <$> node_by_id graph id.
Proof.
  unfold node_by_id. induction (rg_nodes graph) as [|n l IH]; simpl; [done|].
  assert (rn_id (reset_node closure n) = rn_id n) as ->
    by (unfold reset_node; by case_bool_decide).
  case_bool_decide; [done|]. exact IH.
Qed.

Lemma node_by_id_id graph id n : node_by_id graph id = Some n → rn_id n = id.
Proof. intros [_ Hid]%find_some. by apply bool_decide_eq_true in Hid. Qed.

(** A reset node no longer counts as succeeded; every other one still does. *)
Lemma succeeded_seeded graph resume_from n :
  succeeded (build_seeded_graph uuid_leb graph resume_from).1 n
  = succeeded graph n && negb (bool_decide (n ∈ rerun graph resume_from)).
Proof.
  unfold succeeded at 1, node_by_id. simpl. rewrite node_by_id_reset.
  unfold succeeded, rerun. destruct (node_by_id graph n) as [nd|] eqn:Hnd; simpl; [|done].
  unfold reset_node. rewrite (node_by_id_id _ _ _ Hnd). case_bool_decide; simpl.
  - by rewrite andb_false_r.
  - by rewrite andb_true_r.
Qed.

Lemma reset_edge_shape closure e :
  re_id (reset_edge closure e) = re_id e ∧ re_sources (reset_edge closure e) = re_sources e ∧
  re_targets (reset_edge closure e) = re_targets e ∧ re_kind (reset_edge closure e) = re_kind e.
Proof. unfold reset_edge. by destruct (existsb _ _). Qed.

Lemma ready_seeded graph resume_from n :
  ready (build_seeded_graph uuid_leb graph resume_from).1 n ↔
  ∃ e, e ∈ rg_edges graph ∧ n ∈ re_targets e ∧ re_sources e ≠ [] ∧
       ∀ src, src ∈ re_sources e →
         succeeded graph src = true ∧ src ∉ rerun graph resume_from.
Proof.
  unfold ready. setoid_rewrite succeeded_seeded. setoid_rewrite andb_true_iff.
  setoid_rewrite negb_true_iff. setoid_rewrite bool_decide_eq_false.
  simpl. setoid_rewrite list_elem_of_fmap. split.
  - intros (e & (e0 & -> & He0) & Ht & Hne & Hsrc).
    destruct (reset_edge_shape (forward_closure graph (uuid_to_string <$> resume_from)) e0)
      as (_ & Hs & Htg & _).
    rewrite Htg in Ht. rewrite Hs in Hne, Hsrc. eauto.
  - intros (e & He & Ht & Hne & Hsrc).
    destruct (reset_edge_shape (forward_closure graph (uuid_to_string <$> resume_from)) e)
      as (_ & Hs & Htg & _).
    eexists. split; [by exists e|]. rewrite Hs, Htg. auto.
Qed.

(** The seed changes nothing outside the nodes that re-run: a node downstream of
    the frontier is pending with no grounding time and every other node is
    verbatim; edges keep their shape and gate declarations, with every gate
    re-armed exactly on the edges into a re-run node; and the pre-grounded list
    names the grounded task nodes left out of the re-run. *)
Theorem seed_is_faithful graph resume_from :
  let '(seeded, pre) := build_seeded_graph uuid_leb graph resume_from in
  (∀ id, node_by_id seeded id =
     (λ n, if bool_decide (id ∈ rerun graph resume_from)
           then mkRunnableNode id (rn_node_type n) GROUND_PENDING None else n)
       <$> node_by_id graph id) ∧
  (∀ i e, rg_edges graph !! i = Some e → ∃ e', rg_edges seeded !! i = Some e' ∧
     re_id e' = re_id e ∧ re_sources e' = re_sources e ∧ re_targets e' = re_targets e ∧
     re_kind e' = re_kind e ∧ rg_declaration <$> re_gates e' = rg_declaration <$> re_gates e ∧
     ((∃ t, t ∈ re_targets e ∧ downstream graph resume_from t) →
        ∀ g, g ∈ re_gates e' → rg_state g = Some (mkGateRuntimeState (Some Idle))) ∧
     ((∀ t, t ∈ re_targets e → ¬ downstream graph resume_from t) → e' = e)) ∧
  length (rg_edges seeded) = length (rg_edges graph) ∧
  (∀ u, u ∈ pre ↔ ∃ n, n ∈ rg_nodes graph ∧ rn_node_type n = NODE_TYPE_TASK ∧
     rn_ground n ≠ GROUND_PENDING ∧ ¬ downstream graph resume_from (rn_id n) ∧
     uuid_parse_str (rn_id n) = Some u).
Proof.
  unfold build_seeded_graph. fold (rerun graph resume_from). split_and!.
  - intros id. unfold node_by_id at 1. cbn [rg_nodes]. rewrite node_by_id_reset.
    destruct (node_by_id graph id) as [n|] eqn:Hn; [|done]. simpl.
    unfold reset_node. by rewrite (node_by_id_id _ _ _ Hn).
  - intros i e He. exists (reset_edge (rerun graph resume_from) e). cbn [rg_edges].
    rewrite list_lookup_fmap, He. destruct (reset_edge_shape (rerun graph resume_from) e)
      as (? & ? & ? & ?). split_and!; try done; unfold reset_edge.
    + destruct (existsb _ _); [|done]. cbn [re_gates]. by rewrite <- list_fmap_compose.
    + intros (t & Ht & Hd). replace (existsb _ _) with true.
      { intros g (g0 & -> & _)%list_elem_of_fmap. done. }
      symmetry. apply existsb_exists. exists t. rewrite <- list_elem_of_In. split; [done|].
      by apply bool_decide_eq_true, elem_of_rerun.
    + intros Hno. replace (existsb _ _) with false; [done|].
      symmetry. apply not_true_iff_false. intros (t & Ht & Hc)%existsb_exists.
      apply bool_decide_eq_true, elem_of_rerun in Hc. by apply list_elem_of_In, Hno in Ht.
  - apply length_fmap.
  - intros u. rewrite elem_of_sort_by, list_elem_of_omap. setoid_rewrite list_elem_of_filter.
    setoid_rewrite list_elem_of_fmap. setoid_rewrite <- elem_of_rerun. split.
    + intros (n' & ((Hty & Hgr) & n & -> & Hn) & Hu). exists n. revert Hty Hgr Hu.
      unfold reset_node. case_bool_decide; simpl; [by intros _ []|auto].
    + intros (n & Hn & Hty & Hgr & Hout & Hu). exists n.
      split; [|done]. split; [done|]. exists n. split; [|done].
      unfold reset_node. by rewrite bool_decide_false.
Qed.

(** *** Progress

    In the archive of a run, what succeeded was set off by what had succeeded
    before it. *)
Definition causal graph (within : gset string) (rank : string → nat) : Prop :=
  ∀ n, n ∈ within → succeeded graph n = true →
    ∃ e, e ∈ rg_edges graph ∧ n ∈ re_targets e ∧ re_sources e ≠ [] ∧
         ∀ src, src ∈ re_sources e → succeeded graph src = true ∧ rank src < rank n.

(** Either no source re-runs, or one of them is a re-run node that succeeded. *)
Lemma sources_split (closure : gset string) (l : list string) :
  (∀ src, src ∈ l → src ∉ closure) ∨ ∃ src, src ∈ l ∧ src ∈ closure.
Proof.
  destruct (decide (Exists (λ src, src ∈ closure) l)) as [Hex|Hno].
  - right. apply Exists_exists in Hex. naive_solver.
  - left. intros src Hsrc Hin. apply Hno, Exists_exists. eauto.
Qed.

Lemma causal_start graph resume_from rank :
  causal graph (rerun graph resume_from) rank →
  ∀ k n, rank n < k → n ∈ rerun graph resume_from → succeeded graph n = true →
  ∃ m, m ∈ rerun graph resume_from ∧ ready (build_seeded_graph uuid_leb graph resume_from).1 m.
Proof.
  intros Hcausal. induction k as [|k IH]; intros n Hk Hn Hsucc; [lia|].
  destruct (Hcausal n Hn Hsucc) as (e & He & Ht & Hne & Hsrc).
  destruct (sources_split (rerun graph resume_from) (re_sources e)) as [Hout|(src & Hin & Hre)].
  - exists n. split; [done|]. apply ready_seeded. exists e. split_and!; try done.
    intros src Hs. split; [by apply Hsrc|by apply Hout].
  - destruct (Hsrc src Hin). apply (IH src); [lia|done|done].
Qed.

(** On the archive of a run, the doom report read off the archived graph agrees
    with the seeded graph: a source that is itself reset succeeds again. *)
Lemma fires_seeded graph resume_from rank n :
  causal graph (rerun graph resume_from) rank →
  let fires' := fires graph (rerun graph resume_from) (uuid_to_string <$> resume_from) in
  fires' (succeeded graph) n ↔
  fires' (succeeded (build_seeded_graph uuid_leb graph resume_from).1) n.
Proof.
  intros Hcausal fires'.
  assert (∀ k m, rank m < k → m ∈ rerun graph resume_from → succeeded graph m = true →
                 fires' (succeeded (build_seeded_graph uuid_leb graph resume_from).1) m) as Hagain.
  { induction k as [|k IH]; intros m Hk Hm Hsucc; [lia|].
    destruct (Hcausal m Hm Hsucc) as (e & He & Ht & Hne & Hsrc).
    apply (fires_edge _ _ _ _ m e); try done. intros src Hin Hno.
    destruct (Hsrc src Hin) as [Hok Hlt]. apply IH; [lia| |done].
    rewrite succeeded_seeded, Hok in Hno. simpl in Hno.
    by apply negb_false_iff, bool_decide_eq_true in Hno. }
  split; induction 1 as [m Hm|m e Hm He Ht Hne Hsrc IH]; try by apply fires_root.
  - apply (fires_edge _ _ _ _ m e); try done. intros src Hin Hno.
    destruct (succeeded graph src) eqn:Hok; [|by apply IH].
    apply (Hagain (S (rank src))); [lia| |done].
    rewrite succeeded_seeded, Hok in Hno. simpl in Hno.
    by apply negb_false_iff, bool_decide_eq_true in Hno.
  - apply (fires_edge _ _ _ _ m e); try done. intros src Hin Hno. apply IH; [done|].
    by rewrite succeeded_seeded, Hno.
Qed.

(** The success that is carried into the replay: that of a node that does not re-run. *)
Definition carried graph resume_from (n : string) : bool :=
  succeeded graph n && negb (bool_decide (n ∈ rerun graph resume_from)).

Lemma fires_carried graph resume_from rank n :
  causal graph (rerun graph resume_from) rank →
  let fires' := fires graph (rerun graph resume_from) (uuid_to_string <$> resume_from) in
  fires' (succeeded graph) n ↔ fires' (carried graph resume_from) n.
Proof.
  intros Hcausal fires'. unfold fires'. rewrite (fires_seeded graph resume_from rank n Hcausal).
  apply fires_ext. intros m. apply succeeded_seeded.
Qed.

(** C34: Fireability validation answers exactly what it promises on the archive of a
    run: an empty frontier is refused as such; otherwise the first root with no edge
    of archived successes is reported; otherwise the doomed list names exactly the
    task nodes downstream of the frontier that no chain of re-runs can reach, where
    an edge counts once each of its sources re-runs or is carried forward as a
    success, and a source that re-runs is not carried. *)
Theorem fireability_correct graph resume_from rank
    (iter_elem : ∀ c x, x ∈ iter c ↔ x ∈ c)
    (Hrun : causal graph (rerun graph resume_from) rank) :
  match validate_fireability uuid_leb iter graph resume_from with
  | Err NoFailedNodes => resume_from = []
  | Err (RootUnfireable root) =>
      ∃ before after, resume_from = before ++ root :: after ∧
        (∀ u, u ∈ before → ready graph (uuid_to_string u)) ∧ ¬ ready graph (uuid_to_string root)
  | Err VersionUnresolvable => False
  | Ok doomed =>
      resume_from ≠ [] ∧ (∀ u, u ∈ resume_from → ready graph (uuid_to_string u)) ∧
      ∀ u, u ∈ doomed ↔
        ∃ n nd, downstream graph resume_from n ∧ node_by_id graph n = Some nd ∧
                rn_node_type nd = NODE_TYPE_TASK ∧ uuid_parse_str n = Some u ∧
                ¬ fires graph (rerun graph resume_from) (uuid_to_string <$> resume_from)
                    (carried graph resume_from) n
  end.
Proof.
  destruct (validate_fireability _ _ graph resume_from) as [doomed|err] eqn:Hv.
  { pose proof (validate_doomed _ _ _ iter_elem Hv). revert Hv. unfold validate_fireability.
    case_bool_decide as Hlen; [done|]. destruct (check_all _ _) as [[]|] eqn:Hcheck; [|done].
    intros _. rewrite check_all_ok in Hcheck. setoid_rewrite root_check in Hcheck.
    split_and!; [by intros ->|done|]. by setoid_rewrite <- (fires_carried graph resume_from rank _ Hrun). }
  revert Hv. unfold validate_fireability.
  case_bool_decide as Hlen; [intros Hv; injection Hv as <-; by apply nil_length_inv|].
  destruct (check_all _ _) as [[]|err'] eqn:Hcheck; [done|]. intros Hv. injection Hv as ->.
  apply check_all_err in Hcheck as (before & root & after & -> & Herr & Hbefore).
  setoid_rewrite root_check in Hbefore.
  unfold ensure in Herr. destruct (has_all_success_incident_edge _ _) eqn:Hroot; [done|].
  injection Herr as <-. exists before, after.
  split_and!; [done|done|]. by rewrite <- has_all_success_incident_edge_spec, Hroot.
Qed.

Definition frontier graph (resume_from : option (list Uuid)) : list Uuid :=
  match resume_from with
  | Some (u :: rf) => u :: rf
  | _ => default_resume_from uuid_leb graph
  end.

Lemma validate_ok_ready graph resume_from doomed :
  validate_fireability uuid_leb iter graph resume_from = Ok doomed →
  ∃ u, u ∈ resume_from ∧ ready graph (uuid_to_string u).
Proof.
  unfold validate_fireability. destruct resume_from as [|u rf]; [done|].
  rewrite bool_decide_false by done. destruct (check_all _ _) as [[]|] eqn:Hc; [|done].
  intros _. exists u. split; [left|]. rewrite check_all_ok in Hc. apply root_check, Hc. left.
Qed.

(** C35: A minted seed can run: on the archive of a run, whenever minting succeeds the
    seeded graph has a re-run node with an edge whose sources all stand
    succeeded, and the nodes reported as doomed are exactly the re-run tasks
    that cannot be reached in the seeded graph itself. *)
Theorem minted_seed_runs REPLAY_NAMESPACE uuid_bytes source graph tasks version
    (resume_from : option (list Uuid)) signal seed doomed rank
    (iter_elem : ∀ c x, x ∈ iter c ↔ x ∈ c)
    (Hrun : causal graph (rerun graph (frontier graph resume_from)) rank)
    (Hmint : mint_replay_seed uuid_leb iter REPLAY_NAMESPACE uuid_bytes source graph tasks version
               resume_from signal = Ok (seed, doomed)) :
  ∃ seeded, seeded_graph seed = Some seeded ∧
    (∃ n, downstream graph (frontier graph resume_from) n ∧ ready seeded n) ∧
    (∀ u, u ∈ doomed ↔
       ∃ n nd, downstream graph (frontier graph resume_from) n ∧ node_by_id graph n = Some nd ∧
               rn_node_type nd = NODE_TYPE_TASK ∧ uuid_parse_str n = Some u ∧
               ¬ fires graph (rerun graph (frontier graph resume_from))
                   (uuid_to_string <$> frontier graph resume_from) (succeeded seeded) n).
Proof.
  unfold mint_replay_seed in Hmint. fold (frontier graph resume_from) in Hmint.
  set (rf := frontier graph resume_from) in *.
  destruct (validate_fireability _ _ graph rf) as [rep|err] eqn:Hv; [|done]. simpl in Hmint.
  injection Hmint as <- <-. eexists. split; [reflexivity|]. split.
  - destruct (validate_ok_ready graph rf rep Hv) as (u & Hu & e & He & Ht & Hne & Hsrc).
    assert (uuid_to_string u ∈ rerun graph rf) as Hroot
      by (apply elem_of_rerun; exists u; split; [done|apply rtc_refl]).
    setoid_rewrite <- elem_of_rerun.
    destruct (sources_split (rerun graph rf) (re_sources e)) as [Hout|(src & Hin & Hre)].
    + eexists. split; [exact Hroot|]. apply ready_seeded. exists e. naive_solver.
    + apply (causal_start graph rf rank Hrun (S (rank src)) src); [lia|done|by apply Hsrc].
  - intros u. rewrite (validate_doomed graph rf rep iter_elem Hv).
    by setoid_rewrite (fires_seeded graph rf rank _ Hrun).
Qed.
End mint.

(** ** A small archive

    [s → u0 → u1], [s → u00] and the join [{u1, u00} → u01]: [u0] succeeded,
    [u1] and [u00] failed, the join was cancelled.  Resuming from [u0] leaves the
    join doomed. *)
Definition archive : RunnableGraph :=
  let node id ground := mkRunnableNode id NODE_TYPE_TASK (GroundState_i32 ground) None in
  let edge id srcs tgts := mkRunnableEdge id srcs tgts 0 [] in
  mkRunnableGraph
    [mkRunnableNode "s" 0 GROUND_SUCCESS None; node "u0" GS_Success; node "u1" GS_Failed;
     node "u00" GS_Failed; node "u01" GS_Cancelled]
    [edge "e0" ["s"] ["u0"]; edge "e1" ["u0"] ["u1"]; edge "e2" ["s"] ["u00"];
     edge "e3" ["u1"; "u00"] ["u01"]] "s" "t" [] "".

Definition archive_rank (n : string) : nat := if bool_decide (n = "u0") then 1 else 0.

Lemma elements_elem (c : gset string) x : x ∈ elements c ↔ x ∈ c.
Proof. apply elem_of_elements. Qed.

Lemma archive_causal : causal archive (rerun archive [mkBitUuid [false]]) archive_rank.
Proof.
  intros n Hn Hsucc. unfold succeeded in Hsucc.
  destruct (node_by_id archive n) as [nd|] eqn:Hnd; [|discriminate].
  apply node_by_id_id in Hnd as Hid. apply find_some in Hnd as [Hin _]. simpl in Hin.
  destruct Hin as [<-|[<-|[<-|[<-|[<-|[]]]]]]; simpl in Hid; subst n; try discriminate Hsucc.
  - exfalso. apply (bool_decide_pack (_ ∈ _)) in Hn. vm_compute in Hn. exact Hn.
  - eexists. split; [left|]. split; [left|]. split; [discriminate|].
    intros src [->|[]%elem_of_nil]%elem_of_cons. split; [reflexivity|vm_compute; lia].
Qed.

Lemma fireability_witness :
  validate_fireability (Uuid := bit_uuid) (λ _ _, true) elements archive [mkBitUuid [false]]
    = Ok [mkBitUuid [false; true]] ∧
  ¬ fires archive (rerun archive [mkBitUuid [false]]) ["u0"] (carried archive [mkBitUuid [false]]) "u01".
Proof.
  assert (validate_fireability (Uuid := bit_uuid) (λ _ _, true) elements archive
            [mkBitUuid [false]] = Ok [mkBitUuid [false; true]]) as Hv by (vm_compute; reflexivity).
  split; [exact Hv|].
  pose proof (fireability_correct (λ _ _, true) elements archive [mkBitUuid [false]] archive_rank
                elements_elem archive_causal) as Hok.
  rewrite Hv in Hok. destruct Hok as (_ & _ & Hdoomed).
  destruct (proj1 (Hdoomed (mkBitUuid [false; true]))) as (n & nd & _ & Hn & _ & Hu & Hno).
  { left. }
  apply node_by_id_id in Hn as Hid.
  apply find_some in Hn as [Hin _]. simpl in Hin.
  destruct Hin as [<-|[<-|[<-|[<-|[<-|[]]]]]]; simpl in Hid; subst n; try discriminate Hu.
  exact Hno.
Defined.

Lemma minted_seed_runs_witness :
  ∃ seed doomed,
    mint_replay_seed (Uuid := bit_uuid) (λ _ _, true) elements (mkBitUuid []) uuid_to_string
      (mkBitUuid []) archive [] 1 (Some [mkBitUuid [false]]) (mkBitUuid [true]) = Ok (seed, doomed) ∧
    ∃ seeded, seeded_graph seed = Some seeded ∧
      ∃ n, downstream archive [mkBitUuid [false]] n ∧ ready seeded n.
Proof.
  destruct (mint_replay_seed (Uuid := bit_uuid) (λ _ _, true) elements (mkBitUuid [])
              uuid_to_string (mkBitUuid []) archive [] 1 (Some [mkBitUuid [false]])
              (mkBitUuid [true])) as [[seed doomed]|] eqn:Hm; [|vm_compute in Hm; discriminate Hm].
  exists seed, doomed. split; [reflexivity|].
  destruct (minted_seed_runs (Uuid := bit_uuid) (λ _ _, true) elements (mkBitUuid []) uuid_to_string
              (mkBitUuid []) archive [] 1 (Some [mkBitUuid [false]]) (mkBitUuid [true]) seed doomed
              archive_rank elements_elem) as (seeded & Hs & Hready & _);
    [|exact Hm|exists seeded; split; [exact Hs|exact Hready]].
  exact archive_causal.
Defined.

(** ** An archive that is not one of a run

    [s → u0], [{u0, u00} → u1], and [u1] and [u11] each set off by the other: [u0]
    and [u00] failed, the two succeeded.  Resuming from [u0] resets both; neither can
    run again before the other has, and yet neither is reported. *)
Definition mutual : RunnableGraph :=
  let node id ground := mkRunnableNode id NODE_TYPE_TASK (GroundState_i32 ground) None in
  let edge id srcs tgts := mkRunnableEdge id srcs tgts 0 [] in
  mkRunnableGraph
    [mkRunnableNode "s" 0 GROUND_SUCCESS None; node "u0" GS_Failed; node "u00" GS_Failed;
     node "u1" GS_Success; node "u11" GS_Success]
    [edge "e0" ["s"] ["u0"]; edge "e1" ["u0"; "u00"] ["u1"]; edge "e2" ["u11"] ["u1"]; edge "e3" ["u1"] ["u11"]]
    "s" "t" [] "".

Lemma mutual_success_unreported :
  validate_fireability (Uuid := bit_uuid) (λ _ _, true) elements mutual [mkBitUuid [false]] = Ok [] ∧
  downstream mutual [mkBitUuid [false]] "u1" ∧
  ¬ fires mutual (rerun mutual [mkBitUuid [false]]) ["u0"] (carried mutual [mkBitUuid [false]]) "u1".
Proof.
  split; [vm_compute; reflexivity|]. split.
  { apply (elem_of_rerun (λ _ _, true)), (bool_decide_unpack _). vm_compute. exact I. }
  assert (∀ n, fires mutual (rerun mutual [mkBitUuid [false]]) ["u0"] (carried mutual [mkBitUuid [false]]) n → n = "u0") as Honly;
    [|by intros ?%Honly].
  induction 1 as [n Hn|n e Hn He Ht Hne Hsrc IH]; [by apply list_elem_of_singleton in Hn|].
  apply list_elem_of_In in He. simpl in He. destruct He as [<-|[<-|[<-|[<-|[]]]]]; simpl in *.
  - by apply list_elem_of_singleton in Ht.
  - by discriminate (IH "u00" (list_elem_of_further _ _ _ (list_elem_of_here _ _)) ltac:(vm_compute; reflexivity)).
  - by discriminate (IH "u11" (list_elem_of_here _ _) ltac:(vm_compute; reflexivity)).
  - by discriminate (IH "u1" (list_elem_of_here _ _) ltac:(vm_compute; reflexivity)).
Qed.
