(* ===== verification/ContentHash.v ===== *)
(** * Content hashes

    [content_hash.rs]: the projection of a definition that decides its version.
    The derived [Serialize] of the message types is generated code and a
    parameter, as are [Value::to_string], used to order the edges, and what
    [Json] already takes as such. *)

From stdpp Require Import pretty.
From S2P Require Import Prelude Workflow Json.

(** The derived [serde_json::to_value] of the message types. *)
Record Serializers := mkSerializers {
  gate_to_value : Gate → Json;
  trigger_to_value : option Trigger → Json;
  captures_to_value : list CaptureDeclaration → Json;
  routing_vars_to_value : list RoutingVarDecl → Json;
  emits_to_value : list TaskSignalEmit → Json;
  tags_to_value : gmap string string → Json
}.

Definition strings_value (l : list string) : Json := JArray (JString <$> l).
Definition int_value (z : Z) : Json := JNumber (JInt z).
Definition option_int_value (z : option Z) : Json :=
  match z with Some z => int_value z | None => JNull end.

Definition START_LABEL : string := String "000" "start".
Definition END_LABEL : string := String "000" "end".
Definition UNKNOWN_LABEL : string := String "000" "unknown".

Definition normalize_slot (slot : OptionalInputSource) : Json :=
  match optional_source slot ≫= input_source with
  | None => JNull
  | Some (InputSource_Task name) => JObject [("task", JString name)]
  | Some InputSource_Trigger => JObject [("trigger", JObject [])]
  | Some (InputSource_Signal signal_name _) => JObject [("signal_name", JString signal_name)]
  end.

Definition normalize_input_sources (l : option InputSourceList) : Json :=
  match l with
  | None => JNull
  | Some l => JArray (normalize_slot <$> sources_list l)
  end.

Definition value_task_name (task_value : Json) : string :=
  default "" (json_get "name" task_value ≫= as_str).

Definition hex_digit (n : N) : string :=
  String (ascii_of_N (if (n <? 10)%N then 48 + n else 87 + n)) "".

(** [format!("{b:02x}")] byte by byte. *)
Definition hex (bytes : list N) : string :=
  foldl (λ s b, s +:+ hex_digit (b / 16) +:+ hex_digit (b `mod` 16)) "" bytes.

Section content_hash.
Context (ser : Serializers) (to_string : Json → string).
Context (escape : string → string) (float_to_string : Z → string) (sha256 : string → list N).

Definition project_task (task : TaskDefinition) : Json :=
  JObject
    [("name", JString (task_name task));
     ("task_type", int_value (task_type task));
     ("nix_expression_path", JString (task_nix_expression_path task));
     ("nix_args", strings_value (task_nix_args task));
     ("inputs", strings_value (task_inputs task));
     ("input_sources", normalize_input_sources (task_input_sources task));
     ("outputs", strings_value (task_outputs task));
     ("secrets", strings_value (task_secrets task));
     ("max_attempts", int_value (task_max_attempts task));
     ("routing_vars", routing_vars_to_value ser (task_routing_vars task));
     ("emits", emits_to_value ser (task_emits task));
     ("timeout_secs", option_int_value (task_timeout_secs task));
     ("loop_participant", JBool (task_loop_participant task))].

Definition task_labels (m : gmap string string) (tasks : list TaskDefinition)
    : gmap string string :=
  foldl (λ m t, <[task_id t := task_name t]> m) m tasks.

(** node id -> stable label *)
Definition labels (tasks : list TaskDefinition) (graph : TaskGraph) : gmap string string :=
  <[graph_end graph := END_LABEL]>
    (<[graph_start graph := START_LABEL]>
       (task_labels ∅ tasks)).

Definition label (m : gmap string string) (id : string) : string :=
  default UNKNOWN_LABEL (m !! id).

Definition project_edge (m : gmap string string) (edge : Edge) : Json :=
  JObject
    [("sources", strings_value (sort_strings (label m <$> edge_sources edge)));
     ("targets", strings_value (sort_strings (label m <$> edge_targets edge)));
     ("kind", int_value (edge_kind edge));
     ("gates", JArray (gate_to_value ser <$> edge_gates edge))].

Definition project (def : WorkflowDefinition) : Json :=
  let graph := default TaskGraph_default (def_task_graph def) in
  let m := labels (def_tasks def) graph in
  let tasks := sort_by (λ a b, string_leb (value_task_name a) (value_task_name b))
                 (project_task <$> def_tasks def) in
  let edges := sort_by (λ a b, string_leb (to_string a) (to_string b))
                 (project_edge m <$> graph_edges graph) in
  JObject
    [("tasks", JArray tasks);
     ("edges", JArray edges);
     ("trigger", trigger_to_value ser (def_trigger def));
     ("captures", captures_to_value ser (def_captures def));
     ("timeout_secs", option_int_value (def_timeout_secs def))].

Definition content_hash (def : WorkflowDefinition) : string :=
  hex (hash escape float_to_string sha256 (Some (project def))).

Definition cosmetic_hash (def : WorkflowDefinition) : string :=
  hex (hash escape float_to_string sha256
         (Some (JObject [("name", JString (def_name def)); ("tags", tags_to_value ser (def_tags def))]))).
End content_hash.

(** ** What the hash depends on

    Two submissions of the same source differ in their ids; a label or a tag may
    be edited; tasks, edges and the endpoints of an edge may come in another
    order.  [ρ] takes the ids of one definition to those of the other. *)

Section same_content.
Context (ρ : string → string).

Definition same_slot (s s' : OptionalInputSource) : Prop :=
  match optional_source s ≫= input_source, optional_source s' ≫= input_source with
  | Some (InputSource_Signal name _), Some (InputSource_Signal name' _) => name = name'
  | src, src' => src = src'
  end.

Record same_task (t t' : TaskDefinition) : Prop := {
  st_id : task_id t' = ρ (task_id t);
  st_name : task_name t' = task_name t;
  st_type : task_type t' = task_type t;
  st_path : task_nix_expression_path t' = task_nix_expression_path t;
  st_args : task_nix_args t' = task_nix_args t;
  st_outputs : task_outputs t' = task_outputs t;
  st_inputs : task_inputs t' = task_inputs t;
  st_secrets : task_secrets t' = task_secrets t;
  st_attempts : task_max_attempts t' = task_max_attempts t;
  st_sources : option_Forall2 (λ l l', Forall2 same_slot (sources_list l) (sources_list l'))
                 (task_input_sources t) (task_input_sources t');
  st_timeout : task_timeout_secs t' = task_timeout_secs t;
  st_emits : task_emits t' = task_emits t;
  st_vars : task_routing_vars t' = task_routing_vars t;
  st_loop : task_loop_participant t' = task_loop_participant t
}.

Record same_edge (e e' : Edge) : Prop := {
  se_sources : edge_sources e' ≡ₚ ρ <$> edge_sources e;
  se_targets : edge_targets e' ≡ₚ ρ <$> edge_targets e;
  se_kind : edge_kind e' = edge_kind e;
  se_gates : edge_gates e' = edge_gates e
}.

(** The same elements up to [R], in any order. *)
Definition permuted {A : Type} (R : A → A → Prop) (l l' : list A) : Prop :=
  ∃ k, Forall2 R l k ∧ l' ≡ₚ k.

Definition graph_of (def : WorkflowDefinition) : TaskGraph :=
  default TaskGraph_default (def_task_graph def).

Record same_content (def def' : WorkflowDefinition) : Prop := {
  sc_tasks : permuted same_task (def_tasks def) (def_tasks def');
  sc_edges : permuted same_edge (graph_edges (graph_of def)) (graph_edges (graph_of def'));
  sc_start : graph_start (graph_of def') = ρ (graph_start (graph_of def));
  sc_end : graph_end (graph_of def') = ρ (graph_end (graph_of def));
  sc_trigger : def_trigger def' = def_trigger def;
  sc_captures : def_captures def' = def_captures def;
  sc_timeout : def_timeout_secs def' = def_timeout_secs def
}.

Definition all_ids (def : WorkflowDefinition) : list string :=
  graph_start (graph_of def) :: graph_end (graph_of def) :: (task_id <$> def_tasks def)
    ++ mjoin ((λ e, edge_sources e ++ edge_targets e) <$> graph_edges (graph_of def)).

Definition inj_on (l : list string) : Prop := ∀ a b, a ∈ l → b ∈ l → ρ a = ρ b → a = b.

Lemma permuted_map {A B : Type} (R : A → A → Prop) (f g : A → B) l l' :
  permuted R l l' → (∀ x y, x ∈ l → R x y → g y = f x) → g <$> l' ≡ₚ f <$> l.
Proof.
  intros (k & Hk & ->) Hfg. apply Permutation_refl'.
  induction Hk as [|x y l k Hxy _ IH]; simpl; [done|]. f_equal.
  - apply Hfg; [left|done].
  - apply IH. intros a b Ha. apply Hfg. by right.
Qed.

Lemma normalize_slot_same s s' : same_slot s s' → normalize_slot s' = normalize_slot s.
Proof.
  unfold same_slot, normalize_slot.
  destruct (optional_source s ≫= input_source) as [[]|],
    (optional_source s' ≫= input_source) as [[]|]; intros Heq; try discriminate; congruence.
Qed.

Lemma project_task_same ser t t' : same_task t t' → project_task ser t' = project_task ser t.
Proof.
  intros Ht. unfold project_task.
  rewrite (st_name _ _ Ht), (st_type _ _ Ht), (st_path _ _ Ht), (st_args _ _ Ht),
    (st_outputs _ _ Ht), (st_inputs _ _ Ht), (st_secrets _ _ Ht), (st_attempts _ _ Ht),
    (st_timeout _ _ Ht), (st_emits _ _ Ht), (st_vars _ _ Ht), (st_loop _ _ Ht).
  do 7 f_equal. f_equal. destruct (st_sources _ _ Ht) as [l l' Hl|]; [|done]. simpl. f_equal.
  induction Hl as [|s s' k k' Hs _ IH]; simpl; [done|].
  f_equal; [by apply normalize_slot_same|done].
Qed.

(** *** Labels *)

Lemma task_labels_other tasks id m :
  id ∉ task_id <$> tasks → task_labels m tasks !! id = m !! id.
Proof.
  revert m. induction tasks as [|t tasks IH]; intros m; simpl; [done|].
  rewrite not_elem_of_cons. intros [Hne Hin]. rewrite IH by done. by rewrite lookup_insert_ne.
Qed.

Lemma task_labels_in tasks t m :
  NoDup (task_id <$> tasks) → t ∈ tasks →
  task_labels m tasks !! task_id t = Some (task_name t).
Proof.
  revert m. induction tasks as [|t' tasks IH]; intros m; simpl; [by intros _ ?%elem_of_nil|].
  rewrite NoDup_cons. intros [Hnew Hnd] [<-|Ht]%elem_of_cons; [|by apply IH].
  by rewrite task_labels_other, lookup_insert_eq.
Qed.

Lemma task_labels_same tasks tasks' id :
  permuted same_task tasks tasks' → inj_on (id :: (task_id <$> tasks)) →
  NoDup (task_id <$> tasks) →
  task_labels ∅ tasks' !! ρ id
  = task_labels ∅ tasks !! id.
Proof.
  intros Hp Hinj Hnd.
  assert (task_id <$> tasks' ≡ₚ ρ <$> (task_id <$> tasks)) as Hids.
  { rewrite <- list_fmap_compose. apply (permuted_map same_task); [done|].
    intros t t' _ Ht. apply Ht. }
  assert (NoDup (task_id <$> tasks')) as Hnd'.
  { rewrite Hids. apply NoDup_fmap_2_strong; [|done].
    intros a b Ha Hb. apply Hinj; by right. }
  destruct (decide (id ∈ task_id <$> tasks)) as [(t & -> & Ht)%list_elem_of_fmap|Hout].
  - rewrite task_labels_in by done. destruct Hp as (k & Hk & Hp).
    apply list_elem_of_lookup in Ht as [i Hi].
    destruct (Forall2_lookup_l _ _ _ _ _ Hk Hi) as (t' & Hi' & Hst).
    rewrite <- (st_id _ _ Hst), <- (st_name _ _ Hst). apply task_labels_in; [done|].
    rewrite Hp. by eapply list_elem_of_lookup_2.
  - rewrite !task_labels_other; [done|done|]. rewrite Hids.
    intros (x & Heq & Hx)%list_elem_of_fmap. apply Hout.
    by rewrite (Hinj id x ltac:(left) ltac:(by right) Heq).
Qed.

Lemma label_same def def' id :
  same_content def def' → inj_on (all_ids def) → NoDup (task_id <$> def_tasks def) →
  id ∈ all_ids def →
  label (labels (def_tasks def') (graph_of def')) (ρ id)
  = label (labels (def_tasks def) (graph_of def)) id.
Proof.
  intros Hsame Hinj Hnd Hid. unfold label, labels. f_equal.
  rewrite (sc_start _ _ Hsame), (sc_end _ _ Hsame).
  assert (∀ x, x ∈ all_ids def → ρ x = ρ id ↔ x = id) as Hid_iff.
  { intros x Hx. split; [by apply Hinj|by intros ->]. }
  pose proof (Hid_iff (graph_start (graph_of def)) ltac:(left)).
  pose proof (Hid_iff (graph_end (graph_of def)) ltac:(right; left)).
  rewrite !lookup_insert. repeat case_decide; try tauto; try done.
  apply task_labels_same; [apply Hsame| |done].
  intros a b Ha Hb. apply Hinj; unfold all_ids; set_solver.
Qed.

Lemma project_edge_same ser def def' e e' :
  same_content def def' → inj_on (all_ids def) → NoDup (task_id <$> def_tasks def) →
  e ∈ graph_edges (graph_of def) → same_edge e e' →
  project_edge ser (labels (def_tasks def') (graph_of def')) e'
  = project_edge ser (labels (def_tasks def) (graph_of def)) e.
Proof.
  intros Hsame Hinj Hnd He [Hsrc Htgt Hkind Hgates]. unfold project_edge.
  rewrite Hkind, Hgates.
  assert (∀ l l', l' ≡ₚ ρ <$> l → (∀ x, x ∈ l → x ∈ all_ids def) →
    sort_strings (label (labels (def_tasks def') (graph_of def')) <$> l')
    = sort_strings (label (labels (def_tasks def) (graph_of def)) <$> l)) as Hends.
  { intros l l' -> Hl. f_equal.
    rewrite <- list_fmap_compose. apply list_fmap_ext. intros i x Hx.
    apply label_same; try done. apply Hl. by eapply list_elem_of_lookup_2. }
  assert (∀ x, x ∈ edge_sources e ++ edge_targets e → x ∈ all_ids def) as Hin.
  { intros x Hx. unfold all_ids. do 2 right. apply elem_of_app. right.
    apply list_elem_of_join. exists (edge_sources e ++ edge_targets e). split; [exact Hx|].
    apply list_elem_of_fmap. by exists e. }
  rewrite (Hends _ _ Hsrc), (Hends _ _ Htgt); [done|intros x ?; apply Hin; set_solver..].
Qed.

Lemma value_task_name_project ser t : value_task_name (project_task ser t) = task_name t.
Proof. done. Qed.

Lemma project_same ser to_string def def' :
  same_content def def' → inj_on (all_ids def) →
  NoDup (task_id <$> def_tasks def) → NoDup (task_name <$> def_tasks def) →
  (∀ e1 e2, e1 ∈ graph_edges (graph_of def) → e2 ∈ graph_edges (graph_of def) →
     let p := project_edge ser (labels (def_tasks def) (graph_of def)) in
     to_string (p e1) = to_string (p e2) → p e1 = p e2) →
  project ser to_string def' = project ser to_string def.
Proof.
  intros Hsame Hinj Hids Hnames Htext. unfold project. fold (graph_of def) (graph_of def').
  rewrite (sc_trigger _ _ Hsame), (sc_captures _ _ Hsame), (sc_timeout _ _ Hsame).
  rewrite (sort_by_perm_eq_on _ (λ _ _, string_leb_total _ _) (λ _ _ _, string_leb_trans _ _ _)
             (project_task ser <$> def_tasks def) (project_task ser <$> def_tasks def')).
  - rewrite (sort_by_perm_eq_on _ (λ _ _, string_leb_total _ _) (λ _ _ _, string_leb_trans _ _ _)
               (project_edge ser (labels (def_tasks def) (graph_of def)) <$>
                  graph_edges (graph_of def))
               (project_edge ser (labels (def_tasks def') (graph_of def')) <$>
                  graph_edges (graph_of def'))); [done| |].
    + intros x y (e & -> & He)%list_elem_of_fmap (e' & -> & He')%list_elem_of_fmap H1 H2.
      apply Htext; [done..|]. by apply string_leb_antisym.
    + symmetry. apply (permuted_map same_edge); [apply Hsame|].
      intros e e' He. by apply project_edge_same.
  - intros x y (t & -> & Ht)%list_elem_of_fmap (t' & -> & Ht')%list_elem_of_fmap.
    rewrite !value_task_name_project. intros H1 H2. f_equal.
    apply (NoDup_fmap_inj task_name (def_tasks def)); [done..|]. by apply string_leb_antisym.
  - symmetry. apply (permuted_map same_task); [apply Hsame|].
    intros t t' _. apply project_task_same.
Qed.
End same_content.

(** The content hash is stable: definitions with the same content have the same
    hash, whatever their ids, gate edge ids, names, tags, version, status and
    identity segments, and in whatever order their tasks, edges and edge
    endpoints come. *)
Theorem content_hash_stable ser to_string escape float_to_string sha256 ρ def def'
    (Hsame : same_content ρ def def') (Hinj : inj_on ρ (all_ids def))
    (Hids : NoDup (task_id <$> def_tasks def)) (Hnames : NoDup (task_name <$> def_tasks def))
    (Htext : ∀ e1 e2, e1 ∈ graph_edges (graph_of def) → e2 ∈ graph_edges (graph_of def) →
       let p := project_edge ser (labels (def_tasks def) (graph_of def)) in
       to_string (p e1) = to_string (p e2) → p e1 = p e2) :
  content_hash ser to_string escape float_to_string sha256 def'
  = content_hash ser to_string escape float_to_string sha256 def.
Proof. unfold content_hash. by rewrite (project_same ρ ser to_string def def'). Qed.

(** Two parses of one source: other ids, tasks and edges in another order, another
    display name. *)
Definition parse1 : WorkflowDefinition :=
  let task id name := mkTaskDefinition id "w" name 0 "" [] [] [] [] 3 None None [] [] false in
  mkWorkflowDefinition "w" "t" "ns" "slug" "first" 0 [task "1" "build"; task "2" "ship"]
    (Some (mkTaskGraph [] [mkEdge "e1" ["s"] ["1"] 0 []; mkEdge "e2" ["1"] ["2"; "z"] 0 []] "s" "z"))
    None 0 [] None ∅.

Definition parse2 : WorkflowDefinition :=
  let task id name := mkTaskDefinition id "w" name 0 "" [] [] [] [] 3 None None [] [] false in
  mkWorkflowDefinition "w" "t" "ns" "slug" "second" 4 [task "x2" "ship"; task "x1" "build"]
    (Some (mkTaskGraph [] [mkEdge "f2" ["x1"] ["xz"; "x2"] 0 []; mkEdge "f1" ["xs"] ["x1"] 0 []]
             "xs" "xz")) None 0 [] None ∅.

Definition null_serializers : Serializers :=
  mkSerializers (λ _, JNull) (λ _, JNull) (λ _, JNull) (λ _, JNull) (λ _, JNull) (λ _, JNull).

Definition length_digest (s : string) : list N := [N.of_nat (String.length s)].

Lemma content_hash_stable_witness :
  content_hash null_serializers (write_canonical quote pretty) quote pretty length_digest parse2
  = content_hash null_serializers (write_canonical quote pretty) quote pretty length_digest parse1.
Proof.
  apply (content_hash_stable null_serializers (write_canonical quote pretty) quote pretty
           length_digest (String "x") parse1 parse2).
  - split; try reflexivity.
    + eexists. split; [|apply Permutation_swap]. repeat constructor.
    + eexists. split; [|apply Permutation_swap].
      repeat constructor; reflexivity.
  - intros a b _ _ Heq. by injection Heq.
  - apply (bool_decide_unpack _). vm_compute. exact I.
  - apply (bool_decide_unpack _). vm_compute. exact I.
  - intros e1 e2 He1 He2. cbn in He1, He2.
    apply elem_of_cons in He1 as [->|He1]; apply elem_of_cons in He2 as [->|He2];
      try (apply list_elem_of_singleton in He1 as ->);
      try (apply list_elem_of_singleton in He2 as ->); intros p Heq;
      first [reflexivity|vm_compute in Heq; discriminate Heq].
Defined.
