(* ===== verification/Seal.v ===== *)
(** * The structural seal

    [definition_graph.rs]: [ProtoDefinitionGraph] and its [seal].  The fresh edge
    ids ([Uuid::new_v4]) come from a supply [fresh] indexed by a counter that is
    threaded with the graph.  The theorems: the seal only appends plain
    dependency edges at the sentinels, it leaves every task entered and exited
    (by itself or as a member of a loop body), it is idempotent, and on a graph
    whose loop bodies can be ordered it puts every task on a path from [start] to
    [end]. *)

From stdpp Require Import pretty.
From S2P Require Import Prelude Workflow Dominators LoopBodies TarjanInvariant.

Record ProtoDefinitionGraph := mkPDG {
  pdg_task_ids : list string;
  pdg_graph : TaskGraph
}.

Definition from_definition (def : WorkflowDefinition) : ProtoDefinitionGraph :=
  mkPDG (task_id <$> def_tasks def) (default TaskGraph_default (def_task_graph def)).

Definition has_non_loop_incoming (graph : TaskGraph) (tid : string) : bool :=
  existsb (λ e, negb (is_loop_edge e) && bool_decide (tid ∈ edge_targets e)) (graph_edges graph).

Definition has_non_loop_outgoing (graph : TaskGraph) (tid : string) : bool :=
  existsb (λ e, negb (is_loop_edge e) && bool_decide (tid ∈ edge_sources e)) (graph_edges graph).

Definition has_non_loop_edge_leaving_body (graph : TaskGraph) (body : gset string) : bool :=
  existsb (λ e, negb (is_loop_edge e)
                && existsb (λ s, bool_decide (s ∈ body)) (edge_sources e)
                && existsb (λ t, negb (bool_decide (t ∈ body))) (edge_targets e))
    (graph_edges graph).

(** [loop_bodies.iter().find(..).is_some_and(..)] *)
Definition in_entered_body (bodies : list (gset string)) (graph : TaskGraph) (tid : string) : bool :=
  match List.find (λ body, bool_decide (tid ∈ body)) bodies with
  | Some body => existsb (has_non_loop_incoming graph) (elements body)
  | None => false
  end.

Section seal.
Context (fresh : nat → string).

Definition add_seal_edge (st : TaskGraph * nat) (source target : string) : TaskGraph * nat :=
  let '(graph, n) := st in
  (mkTaskGraph (graph_nodes graph)
     (graph_edges graph ++
        [mkEdge (fresh n) [source] [target] (EdgeKind_i32 EdgeKind_Control) []])
     (graph_start graph) (graph_end graph), S n).

(** The first pass, which reads the live graph. *)
Definition wire_start (bodies : list (gset string)) (start : string)
    (st : TaskGraph * nat) (tid : string) : TaskGraph * nat :=
  if has_non_loop_incoming st.1 tid then st
  else if in_entered_body bodies st.1 tid then st
  else add_seal_edge st start tid.

Definition exiting_loop_members (bodies : list (gset string)) (graph : TaskGraph) : gset string :=
  ⋃ (filter (λ body, has_non_loop_edge_leaving_body graph body = true) bodies).

(** The second pass, against the snapshot of the exiting bodies. *)
Definition wire_end (exiting : gset string) (end_ : string)
    (st : TaskGraph * nat) (tid : string) : TaskGraph * nat :=
  if negb (has_non_loop_outgoing st.1 tid) && negb (bool_decide (tid ∈ exiting))
  then add_seal_edge st tid end_ else st.

Definition seal (g : ProtoDefinitionGraph) (n : nat) : ProtoDefinitionGraph * nat :=
  let start := graph_start (pdg_graph g) in
  let end_ := graph_end (pdg_graph g) in
  let bodies := loop_sccs (pdg_graph g) in
  let st := foldl (wire_start bodies start) (pdg_graph g, n) (pdg_task_ids g) in
  let exiting := exiting_loop_members bodies st.1 in
  let '(graph, n') := foldl (wire_end exiting end_) st (pdg_task_ids g) in
  (mkPDG (pdg_task_ids g) graph, n').

(** ** Extending a graph with edges *)

Definition appends (P : Edge → Prop) (g g' : TaskGraph) : Prop :=
  ∃ es, Forall P es ∧
    g' = mkTaskGraph (graph_nodes g) (graph_edges g ++ es) (graph_start g) (graph_end g).

#[global] Instance appends_refl P : Reflexive (appends P).
Proof. intros [no ed st en]. exists []. simpl. by rewrite app_nil_r. Qed.

#[global] Instance appends_trans P : Transitive (appends P).
Proof.
  intros g1 g2 g3 (es1&H1&->) (es2&H2&->). exists (es1 ++ es2). simpl.
  rewrite <-app_assoc. split; [by apply Forall_app|done].
Qed.

Lemma appends_edges P g g' e : appends P g g' → e ∈ graph_edges g → e ∈ graph_edges g'.
Proof. intros (es&_&->) ?. simpl. apply elem_of_app. by left. Qed.

Lemma appends_ends P g g' :
  appends P g g' → graph_start g' = graph_start g ∧ graph_end g' = graph_end g.
Proof. by intros (es&_&->). Qed.

Lemma appends_weaken (P Q : Edge → Prop) g g' :
  (∀ e, P e → Q e) → appends P g g' → appends Q g g'.
Proof. intros HPQ (es&Hes&->). exists es. split; [by eapply Forall_impl|done]. Qed.

Lemma foldl_appends P (f : TaskGraph * nat → string → TaskGraph * nat) ids g st :
  (∀ st t, t ∈ ids → appends P g st.1 → appends P st.1 (f st t).1) →
  appends P g st.1 → appends P g (foldl f st ids).1.
Proof.
  revert st; induction ids as [|t ids IH]; intros st Hf Hst; simpl; [done|].
  apply IH; [intros; apply Hf; [by right|done]|].
  etrans; [done|]. apply Hf; [left|done].
Qed.

(** ** The tests of the seal *)

Lemma has_non_loop_incoming_true graph t :
  has_non_loop_incoming graph t = true ↔
  ∃ e, e ∈ graph_edges graph ∧ is_loop_edge e = false ∧ t ∈ edge_targets e.
Proof.
  unfold has_non_loop_incoming. rewrite existsb_exists. split.
  - intros (e&He%list_elem_of_In&[? ?%bool_decide_eq_true]%andb_prop).
    exists e. by rewrite <-negb_true_iff.
  - intros (e&He%list_elem_of_In&Hl&Ht). exists e.
    by rewrite Hl, bool_decide_eq_true_2.
Qed.

Lemma has_non_loop_outgoing_true graph t :
  has_non_loop_outgoing graph t = true ↔
  ∃ e, e ∈ graph_edges graph ∧ is_loop_edge e = false ∧ t ∈ edge_sources e.
Proof.
  unfold has_non_loop_outgoing. rewrite existsb_exists. split.
  - intros (e&He%list_elem_of_In&[? ?%bool_decide_eq_true]%andb_prop).
    exists e. by rewrite <-negb_true_iff.
  - intros (e&He%list_elem_of_In&Hl&Ht). exists e.
    by rewrite Hl, bool_decide_eq_true_2.
Qed.

Lemma leaving_body_true graph body :
  has_non_loop_edge_leaving_body graph body = true ↔
  ∃ e s t, e ∈ graph_edges graph ∧ is_loop_edge e = false ∧
           s ∈ edge_sources e ∧ s ∈ body ∧ t ∈ edge_targets e ∧ t ∉ body.
Proof.
  unfold has_non_loop_edge_leaving_body. rewrite existsb_exists. split.
  - intros (e&He%list_elem_of_In&[[Hl Hs]%andb_prop Ht]%andb_prop).
    apply existsb_exists in Hs as (s&?%list_elem_of_In&?%bool_decide_eq_true).
    apply existsb_exists in Ht as (t&?%list_elem_of_In&?%negb_true_iff%bool_decide_eq_false).
    exists e, s, t. by rewrite <-negb_true_iff.
  - intros (e&s&t&He%list_elem_of_In&Hl&Hs%list_elem_of_In&?&Ht%list_elem_of_In&?).
    exists e. rewrite Hl, !andb_true_iff. split_and!; [done|done| |]; apply existsb_exists.
    + exists s. by rewrite bool_decide_eq_true_2.
    + exists t. by rewrite bool_decide_eq_false_2.
Qed.

Definition entered (bodies : list (gset string)) (graph : TaskGraph) (t : string) : bool :=
  has_non_loop_incoming graph t || in_entered_body bodies graph t.

Definition exited (exiting : gset string) (graph : TaskGraph) (t : string) : bool :=
  has_non_loop_outgoing graph t || bool_decide (t ∈ exiting).

Lemma incoming_mono P g g' t :
  appends P g g' → has_non_loop_incoming g t = true → has_non_loop_incoming g' t = true.
Proof. rewrite !has_non_loop_incoming_true. intros ? (e&?&?&?). eauto using appends_edges. Qed.

Lemma outgoing_mono P g g' t :
  appends P g g' → has_non_loop_outgoing g t = true → has_non_loop_outgoing g' t = true.
Proof. rewrite !has_non_loop_outgoing_true. intros ? (e&?&?&?). eauto using appends_edges. Qed.

Lemma leaving_mono P g g' body :
  appends P g g' → has_non_loop_edge_leaving_body g body = true →
  has_non_loop_edge_leaving_body g' body = true.
Proof.
  rewrite !leaving_body_true. intros ? (e&s&t&?&?). exists e, s, t. eauto using appends_edges.
Qed.

Lemma exiting_mono P bodies g g' t :
  appends P g g' → t ∈ exiting_loop_members bodies g → t ∈ exiting_loop_members bodies g'.
Proof.
  unfold exiting_loop_members. rewrite !elem_of_union_list.
  intros Ha (b&[Hl Hb]%list_elem_of_filter&Ht). exists b.
  split; [|done]. apply list_elem_of_filter. eauto using leaving_mono.
Qed.

Lemma entered_mono P bodies g g' t :
  appends P g g' → entered bodies g t = true → entered bodies g' t = true.
Proof.
  intros Ha. unfold entered, in_entered_body. rewrite !orb_true_iff.
  intros [?|Hb]; [left; by eapply incoming_mono|right].
  destruct (List.find _ _) as [body|]; [|done].
  apply existsb_exists in Hb as (m&?&?). apply existsb_exists. eauto using incoming_mono.
Qed.

Lemma exited_mono P exiting g g' t :
  appends P g g' → exited exiting g t = true → exited exiting g' t = true.
Proof.
  intros Ha. unfold exited. rewrite !orb_true_iff. intros [?|?]; [left|by right].
  by eapply outgoing_mono.
Qed.

(** ** What the seal appends *)

(** An edge the seal may append to [g]: a plain dependency from [start] to a task
    nothing leads to, or to [end] from a task that leads nowhere and is in no
    loop body with an exit. *)
Definition seal_edge (g : ProtoDefinitionGraph) (e : Edge) : Prop :=
  edge_kind e = EdgeKind_i32 EdgeKind_Control ∧ edge_gates e = [] ∧
  ∃ t, t ∈ pdg_task_ids g ∧
    ((edge_sources e = [graph_start (pdg_graph g)] ∧ edge_targets e = [t] ∧
      entered (loop_sccs (pdg_graph g)) (pdg_graph g) t = false) ∨
     (edge_sources e = [t] ∧ edge_targets e = [graph_end (pdg_graph g)] ∧
      exited (exiting_loop_members (loop_sccs (pdg_graph g)) (pdg_graph g)) (pdg_graph g) t
        = false)).

Lemma add_seal_edge_appends (P : Edge → Prop) st s t :
  P (mkEdge (fresh st.2) [s] [t] (EdgeKind_i32 EdgeKind_Control) []) →
  appends P st.1 (add_seal_edge st s t).1.
Proof. intros HP. destruct st as [g n]. eexists. split; [|done]. by apply Forall_singleton. Qed.

Lemma wire_start_appends P g (st : TaskGraph * nat) t :
  t ∈ pdg_task_ids g → appends P (pdg_graph g) st.1 →
  appends (seal_edge g) st.1
    (wire_start (loop_sccs (pdg_graph g)) (graph_start (pdg_graph g)) st t).1.
Proof.
  intros Ht Ha. unfold wire_start.
  destruct (has_non_loop_incoming st.1 t) eqn:Hi; [done|].
  destruct (in_entered_body _ st.1 t) eqn:Hb; [done|].
  apply add_seal_edge_appends. split_and!; [done..|]. exists t. split; [done|left].
  split_and!; [done..|]. apply not_true_iff_false. intros He%(entered_mono _ _ _ _ _ Ha).
  unfold entered in He. by rewrite Hi, Hb in He.
Qed.

Lemma wire_end_appends P g (st0 st : TaskGraph * nat) t :
  t ∈ pdg_task_ids g → appends P (pdg_graph g) st0.1 → appends P (pdg_graph g) st.1 →
  appends (seal_edge g) st.1
    (wire_end (exiting_loop_members (loop_sccs (pdg_graph g)) st0.1)
       (graph_end (pdg_graph g)) st t).1.
Proof.
  intros Ht Ha0 Ha. unfold wire_end.
  destruct (has_non_loop_outgoing st.1 t) eqn:Hi; [done|]. case_bool_decide as Hex; [done|].
  apply add_seal_edge_appends. split_and!; [done..|]. exists t. split; [done|right].
  split_and!; [done..|]. apply not_true_iff_false. unfold exited.
  rewrite orb_true_iff, bool_decide_eq_true. intros [Ho|Ho].
  - apply (outgoing_mono _ _ _ _ Ha) in Ho. congruence.
  - by apply Hex, (exiting_mono _ _ _ _ _ Ha0).
Qed.

Lemma seal_task_ids g n : pdg_task_ids (seal g n).1 = pdg_task_ids g.
Proof. unfold seal. by case_match. Qed.

Lemma seal_graph_eq g n :
  pdg_graph (seal g n).1 =
  let bodies := loop_sccs (pdg_graph g) in
  let st := foldl (wire_start bodies (graph_start (pdg_graph g))) (pdg_graph g, n)
              (pdg_task_ids g) in
  (foldl (wire_end (exiting_loop_members bodies st.1) (graph_end (pdg_graph g))) st
     (pdg_task_ids g)).1.
Proof. unfold seal. by destruct (foldl (wire_end _ _) _ _). Qed.

Lemma seal_appends g n : appends (seal_edge g) (pdg_graph g) (pdg_graph (seal g n).1).
Proof.
  rewrite seal_graph_eq. simpl. set (st := foldl (wire_start _ _) _ _).
  assert (appends (seal_edge g) (pdg_graph g) st.1) as Hst.
  { apply foldl_appends; [|done]. intros. by eapply wire_start_appends. }
  apply foldl_appends; [|done]. intros. by eapply wire_end_appends.
Qed.

Lemma seal_loop_sccs g n : loop_sccs (pdg_graph (seal g n).1) = loop_sccs (pdg_graph g).
Proof.
  destruct (seal_appends g n) as (es&Hes&->). apply loop_sccs_app.
  eapply Forall_impl; [done|]. intros e (Hk&_). unfold is_loop_edge. by rewrite Hk.
Qed.

(** ** Every task is entered and exited *)

(** A pass over the task ids whose step establishes a monotone goal leaves the
    goal true of every id; when it is already true the pass does nothing. *)
Lemma foldl_establishes P (goal : TaskGraph → string → bool)
    (f : TaskGraph * nat → string → TaskGraph * nat) ids st :
  (∀ st t, appends P st.1 (f st t).1) →
  (∀ g g' t, appends P g g' → goal g t = true → goal g' t = true) →
  (∀ st t, goal (f st t).1 t = true) →
  ∀ t, t ∈ ids → goal (foldl f st ids).1 t = true.
Proof.
  intros Happ Hmono Hf. revert st; induction ids as [|x ids IH]; intros st t; simpl.
  - by intros ?%elem_of_nil.
  - intros [->|?]%elem_of_cons; [|by apply IH].
    eapply Hmono; [by apply (foldl_appends P); [intros; apply Happ|]|apply Hf].
Qed.

Lemma foldl_settled (goal : TaskGraph → string → bool)
    (f : TaskGraph * nat → string → TaskGraph * nat) ids st :
  (∀ st t, goal st.1 t = true → f st t = st) →
  (∀ t, t ∈ ids → goal st.1 t = true) → foldl f st ids = st.
Proof.
  intros Hf Hall. induction ids as [|x ids IH]; simpl; [done|].
  rewrite Hf by (apply Hall; left). apply IH. intros. apply Hall. by right.
Qed.

Lemma add_seal_edge_target st s t : has_non_loop_incoming (add_seal_edge st s t).1 t = true.
Proof.
  destruct st as [g n]. apply has_non_loop_incoming_true. simpl. eexists.
  split; [apply elem_of_app; right; left|]. split; [done|left].
Qed.

Lemma add_seal_edge_source st s t : has_non_loop_outgoing (add_seal_edge st s t).1 s = true.
Proof.
  destruct st as [g n]. apply has_non_loop_outgoing_true. simpl. eexists.
  split; [apply elem_of_app; right; left|]. split; [done|left].
Qed.

Lemma wire_start_enters bodies start st t : entered bodies (wire_start bodies start st t).1 t = true.
Proof.
  unfold wire_start, entered. destruct (has_non_loop_incoming st.1 t) eqn:Hi; [by rewrite Hi|].
  destruct (in_entered_body bodies st.1 t) eqn:Hb; [by rewrite Hb, orb_true_r|].
  by rewrite add_seal_edge_target.
Qed.

Lemma wire_end_exits exiting end_ st t : exited exiting (wire_end exiting end_ st t).1 t = true.
Proof.
  unfold wire_end, exited. destruct (has_non_loop_outgoing st.1 t) eqn:Ho; simpl; [by rewrite Ho|].
  case_bool_decide; simpl; [by rewrite orb_true_r|]. by rewrite add_seal_edge_source.
Qed.

Lemma wire_start_settled bodies start st t :
  entered bodies st.1 t = true → wire_start bodies start st t = st.
Proof. unfold wire_start, entered. destruct (has_non_loop_incoming _ _); simpl; [done|]. by intros ->. Qed.

Lemma wire_end_settled exiting end_ st t :
  exited exiting st.1 t = true → wire_end exiting end_ st t = st.
Proof.
  unfold wire_end, exited. destruct (has_non_loop_outgoing _ _); simpl; [done|]. by intros ->.
Qed.

Lemma add_seal_edge_extends st s t : appends (λ _, True) st.1 (add_seal_edge st s t).1.
Proof. by apply add_seal_edge_appends. Qed.

Lemma wire_start_extends bodies start st t :
  appends (λ _, True) st.1 (wire_start bodies start st t).1.
Proof. unfold wire_start. repeat case_match; [done..|apply add_seal_edge_extends]. Qed.

Lemma wire_end_extends exiting end_ st t :
  appends (λ _, True) st.1 (wire_end exiting end_ st t).1.
Proof. unfold wire_end. case_match; [apply add_seal_edge_extends|done]. Qed.

Lemma seal_entered g n t :
  t ∈ pdg_task_ids g →
  entered (loop_sccs (pdg_graph g)) (pdg_graph (seal g n).1) t = true.
Proof.
  intros Ht. rewrite seal_graph_eq. simpl.
  eapply entered_mono; [by apply (foldl_appends (λ _, True)); [intros; apply wire_end_extends|]|].
  apply (foldl_establishes (λ _, True) (entered _)); [..|done].
  - intros; apply wire_start_extends.
  - intros; by eapply entered_mono.
  - apply wire_start_enters.
Qed.

Lemma seal_exited g n t :
  t ∈ pdg_task_ids g →
  exited (exiting_loop_members (loop_sccs (pdg_graph g)) (pdg_graph (seal g n).1))
    (pdg_graph (seal g n).1) t = true.
Proof.
  intros Ht. rewrite seal_graph_eq. simpl.
  set (st := foldl (wire_start _ _) _ _).
  set (ex := exiting_loop_members _ st.1).
  assert (exited ex (foldl (wire_end ex (graph_end (pdg_graph g))) st (pdg_task_ids g)).1 t = true)
    as He.
  { apply (foldl_establishes (λ _, True) (exited _)); [..|done].
    - intros; apply wire_end_extends.
    - intros; by eapply exited_mono.
    - apply wire_end_exits. }
  unfold exited in *. rewrite !orb_true_iff, !bool_decide_eq_true in *.
  destruct He as [?|He]; [by left|right]. eapply exiting_mono; [|done].
  by apply (foldl_appends (λ _, True)); [intros; apply wire_end_extends|].
Qed.

Lemma in_entered_body_true bodies graph t :
  in_entered_body bodies graph t = true →
  ∃ body m, body ∈ bodies ∧ t ∈ body ∧ m ∈ body ∧ has_non_loop_incoming graph m = true.
Proof.
  unfold in_entered_body. destruct (List.find _ _) as [body|] eqn:Hf; [|done].
  apply find_some in Hf as [Hb%list_elem_of_In Ht%bool_decide_eq_true].
  intros (m&Hm%list_elem_of_In%elem_of_elements&Hin)%existsb_exists. eauto 10.
Qed.

Lemma elem_of_exiting bodies graph t :
  t ∈ exiting_loop_members bodies graph ↔
  ∃ body, body ∈ bodies ∧ t ∈ body ∧ has_non_loop_edge_leaving_body graph body = true.
Proof.
  unfold exiting_loop_members. rewrite elem_of_union_list.
  setoid_rewrite list_elem_of_filter. naive_solver.
Qed.
End seal.

(** ** Connectivity *)

(** A definition whose tasks can be ranked: edges join tasks and sentinels, an
    authored dependency leads to a higher rank, and a loop body shares one. *)
Record layered (g : ProtoDefinitionGraph) (rank : string → nat) : Prop := {
  ly_source e s : e ∈ graph_edges (pdg_graph g) → s ∈ edge_sources e →
    s ∈ pdg_task_ids g ∨ (s = graph_start (pdg_graph g) ∧ is_loop_edge e = false);
  ly_target e t : e ∈ graph_edges (pdg_graph g) → t ∈ edge_targets e →
    t ∈ pdg_task_ids g ∨ (t = graph_end (pdg_graph g) ∧ is_loop_edge e = false);
  ly_nonempty e : e ∈ graph_edges (pdg_graph g) → edge_sources e ≠ [] ∧ edge_targets e ≠ [];
  ly_start : graph_start (pdg_graph g) ∉ pdg_task_ids g;
  ly_end : graph_end (pdg_graph g) ∉ pdg_task_ids g;
  ly_step e s t : e ∈ graph_edges (pdg_graph g) → is_loop_edge e = false →
    s ∈ edge_sources e → t ∈ edge_targets e →
    s ∈ pdg_task_ids g → t ∈ pdg_task_ids g → rank s < rank t;
  ly_body body u v : body ∈ loop_sccs (pdg_graph g) → u ∈ body → v ∈ body → rank u = rank v
}.

Lemma nonempty_elem {A} (l : list A) : l ≠ [] → ∃ x, x ∈ l.
Proof. destruct l as [|x l]; [done|]. exists x. left. Qed.

Section connectivity.
Context (fresh : nat → string) (g : ProtoDefinitionGraph) (n : nat) (rank : string → nat).
Hypothesis Hly : layered g rank.

Abbreviation ids := (pdg_task_ids g).
Abbreviation sealed := (pdg_graph (seal fresh g n).1).
Abbreviation start := (graph_start (pdg_graph g)).
Abbreviation end_ := (graph_end (pdg_graph g)).

Lemma sealed_edge e :
  e ∈ graph_edges sealed → e ∈ graph_edges (pdg_graph g) ∨ seal_edge g e.
Proof.
  destruct (seal_appends fresh g n) as (es&Hes&->). simpl.
  rewrite elem_of_app. rewrite Forall_forall in Hes. naive_solver.
Qed.

Lemma original_edge e : e ∈ graph_edges (pdg_graph g) → e ∈ graph_edges sealed.
Proof. apply (appends_edges _ _ _ _ (seal_appends fresh g n)). Qed.

Lemma loop_rel_edge u v :
  loop_rel (pdg_graph g) u v ↔
  ∃ e, e ∈ graph_edges (pdg_graph g) ∧ is_loop_edge e = true ∧
       u ∈ edge_sources e ∧ v ∈ edge_targets e.
Proof.
  unfold loop_rel, adj_rel, loop_adjacency. rewrite elem_of_build_adjacency. naive_solver.
Qed.

Lemma body_connected body u v :
  body ∈ loop_sccs (pdg_graph g) → u ∈ body → v ∈ body → rtc (graph_rel sealed) u v.
Proof.
  intros (r&_&Hr)%loop_sccs_spec [_ Hu]%Hr [Hv _]%Hr.
  apply (rtc_subrel (loop_rel (pdg_graph g))); [|by transitivity r].
  intros x y (e&He&_&?&?)%loop_rel_edge. exists e. eauto using original_edge.
Qed.

Lemma body_task body v : body ∈ loop_sccs (pdg_graph g) → v ∈ body → v ∈ ids.
Proof.
  intros (r&Hcyc&Hr)%loop_sccs_spec [Hrv Hvr]%Hr.
  assert (tc (loop_rel (pdg_graph g)) v v) as Hv.
  { eapply tc_rtc_l; [done|]. by eapply tc_rtc_r. }
  assert (∃ y, loop_rel (pdg_graph g) v y) as [y (e&He&Hl&Hs&_)%loop_rel_edge].
  { inversion Hv; eauto. }
  destruct (ly_source _ _ Hly e v He Hs) as [?|[_ ?]]; [done|congruence].
Qed.

Lemma entry_reached m :
  m ∈ ids → has_non_loop_incoming sealed m = true →
  (∀ u, u ∈ ids → rank u < rank m → rtc (graph_rel sealed) start u) →
  rtc (graph_rel sealed) start m.
Proof.
  intros Hm (e&He&Hl&Ht)%has_non_loop_incoming_true IH.
  destruct (sealed_edge e He) as [Ho|(_&_&t&Hid&[(Hs&Htg&_)|(_&Htg&_)])].
  - destruct (nonempty_elem _ (proj1 (ly_nonempty _ _ Hly e Ho))) as [s Hs].
    destruct (ly_source _ _ Hly e s Ho Hs) as [Hids|[-> _]].
    + eapply rtc_r; [apply IH; [done|by eapply ly_step]|]. by exists e.
    + apply rtc_once. by exists e.
  - apply rtc_once. exists e. rewrite Hs. split_and!; [done|left|done].
  - rewrite Htg in Ht. apply list_elem_of_singleton in Ht as ->. by destruct (ly_end _ _ Hly).
Qed.

Lemma sealed_reachable t : t ∈ ids → rtc (graph_rel sealed) start t.
Proof.
  remember (rank t) as k eqn:Hk. revert t Hk.
  induction (lt_wf k) as [k _ IH]; intros t -> Ht.
  pose proof (seal_entered fresh g n t Ht) as He. unfold entered in He.
  apply orb_prop in He as [Hin|(body&m&Hb&Htb&Hmb&Hin)%in_entered_body_true].
  - apply entry_reached; [done..|]. intros u ??. by eapply IH.
  - transitivity m; [|by eapply body_connected].
    apply entry_reached; [by eapply body_task|done|]. intros u ??.
    eapply IH; [|done..]. by rewrite (ly_body _ _ Hly body t m).
Qed.

(** A dependency edge out of a task leads to [end] or to a task of higher rank. *)
Lemma exit_target e s t :
  e ∈ graph_edges sealed → is_loop_edge e = false → s ∈ edge_sources e → t ∈ edge_targets e →
  s ∈ ids → t = end_ ∨ (t ∈ ids ∧ rank s < rank t).
Proof.
  intros He Hl Hs Ht Hid.
  destruct (sealed_edge e He) as [Ho|(_&_&x&_&[(Hs'&_)|(_&Htg&_)])].
  - destruct (ly_target _ _ Hly e t Ho Ht) as [?|[? _]]; [right|by left].
    split; [done|]. by eapply ly_step.
  - rewrite Hs' in Hs. apply list_elem_of_singleton in Hs as ->. by destruct (ly_start _ _ Hly).
  - rewrite Htg in Ht. apply list_elem_of_singleton in Ht as ->. by left.
Qed.

Lemma exit_step t :
  t ∈ ids → ∃ m x, rtc (graph_rel sealed) t m ∧ graph_rel sealed m x ∧
                   (x = end_ ∨ (x ∈ ids ∧ rank t < rank x)).
Proof.
  intros Ht. pose proof (seal_exited fresh g n t Ht) as He. unfold exited in He.
  apply orb_prop in He as [(e&He&Hl&Hs)%has_non_loop_outgoing_true|Hex%bool_decide_eq_true].
  - assert (∃ x, x ∈ edge_targets e) as [x Hx].
    { apply nonempty_elem. destruct (sealed_edge e He) as [Ho|(_&_&y&_&[(_&->&_)|(_&->&_)])];
        [by apply (ly_nonempty _ _ Hly)|done..]. }
    exists t, x. split_and!; [done|by exists e|]. by eapply exit_target.
  - apply elem_of_exiting in Hex as (body&Hb&Htb&(e&m&x&He&Hl&Hm&Hmb&Hx&_)%leaving_body_true).
    exists m, x. split_and!; [by eapply body_connected|by exists e|].
    rewrite (ly_body _ _ Hly body t m) by done. eapply exit_target; [done..|].
    by eapply body_task.
Qed.

Lemma sealed_reaches_end t : t ∈ ids → rtc (graph_rel sealed) t end_.
Proof.
  set (top := max_list (rank <$> ids)).
  assert (∀ x, x ∈ ids → rank x ≤ top) as Htop.
  { intros x Hx. apply max_list_elem_of_le, list_elem_of_fmap. eauto. }
  remember (top - rank t) as k eqn:Hk. revert t Hk.
  induction (lt_wf k) as [k _ IH]; intros t -> Ht.
  destruct (exit_step t Ht) as (m&x&Htm&Hmx&[->|[Hx Hlt]]).
  - by eapply rtc_r.
  - etrans; [done|]. eapply rtc_l; [done|]. eapply IH; [|done..].
    pose proof (Htop t Ht). pose proof (Htop x Hx). lia.
Qed.
End connectivity.

(** ** The contract of the seal *)

(** The seal is conservative: it keeps the nodes, the sentinels and the authored
    edges in order, appends only ungated [Control] edges, from [start] to tasks
    that nothing enters or to [end] from tasks that nothing exits, and leaves the
    task ids and the loop bodies alone. *)
Theorem seal_conservative fresh g n :
  pdg_task_ids (seal fresh g n).1 = pdg_task_ids g ∧
  loop_sccs (pdg_graph (seal fresh g n).1) = loop_sccs (pdg_graph g) ∧
  ∃ es, pdg_graph (seal fresh g n).1 =
          mkTaskGraph (graph_nodes (pdg_graph g)) (graph_edges (pdg_graph g) ++ es)
            (graph_start (pdg_graph g)) (graph_end (pdg_graph g)) ∧
        Forall (seal_edge g) es.
Proof.
  split_and!; [apply seal_task_ids|apply seal_loop_sccs|].
  destruct (seal_appends fresh g n) as (es&?&?). eauto.
Qed.

(** The seal leaves no orphan: every task has an incoming dependency, or sits in
    a loop body one of whose members has; and every task has an outgoing
    dependency, or sits in a loop body that a dependency leaves. *)
Theorem seal_closes_orphans fresh g n t :
  t ∈ pdg_task_ids g →
  let sealed := pdg_graph (seal fresh g n).1 in
  (has_non_loop_incoming sealed t = true ∨
   ∃ body m, loop_body (pdg_graph g) body ∧ t ∈ body ∧ m ∈ body ∧
             has_non_loop_incoming sealed m = true) ∧
  (has_non_loop_outgoing sealed t = true ∨
   ∃ body, loop_body (pdg_graph g) body ∧ t ∈ body ∧
           has_non_loop_edge_leaving_body sealed body = true).
Proof.
  intros Ht sealed. subst sealed. split.
  - pose proof (seal_entered fresh g n t Ht) as He. unfold entered in He.
    apply orb_prop in He as [?|(body&m&Hb&?&?&?)%in_entered_body_true]; [by left|right].
    exists body, m. by rewrite <-(proj2 (proj2 (loop_sccs_spec _)) body).
  - pose proof (seal_exited fresh g n t Ht) as He. unfold exited in He.
    apply orb_prop in He as [?|(body&?&?&?)%bool_decide_eq_true%elem_of_exiting];
      [by left|right].
    exists body. by rewrite <-(proj2 (proj2 (loop_sccs_spec _)) body).
Qed.

(** Sealing a sealed graph changes nothing and draws no id. *)
Theorem seal_idempotent fresh g n m :
  seal fresh (seal fresh g n).1 m = ((seal fresh g n).1, m).
Proof.
  destruct (appends_ends _ _ _ (seal_appends fresh g n)) as [Hs He].
  unfold seal at 1. rewrite seal_loop_sccs, seal_task_ids, Hs, He.
  rewrite (foldl_settled (entered (loop_sccs (pdg_graph g))) (wire_start _ _ _)); simpl.
  - rewrite (foldl_settled (exited (exiting_loop_members (loop_sccs (pdg_graph g))
               (pdg_graph (seal fresh g n).1))) (wire_end _ _ _)); simpl.
    + f_equal. rewrite <-(seal_task_ids fresh g n). by destruct (seal fresh g n).1.
    + intros. by apply wire_end_settled.
    + intros. by apply seal_exited.
  - intros. by apply wire_start_settled.
  - intros. by apply seal_entered.
Qed.

(** On a definition whose dependencies can be ranked, with loop bodies of one
    rank, the seal puts every task on a path from [start] to [end]. *)
Theorem seal_connects fresh g n rank t :
  layered g rank → t ∈ pdg_task_ids g →
  let sealed := pdg_graph (seal fresh g n).1 in
  rtc (graph_rel sealed) (graph_start sealed) t ∧ rtc (graph_rel sealed) t (graph_end sealed).
Proof.
  intros Hly Ht sealed. subst sealed.
  destruct (appends_ends _ _ _ (seal_appends fresh g n)) as [-> ->].
  split; [by eapply sealed_reachable|by eapply sealed_reaches_end].
Qed.

(** Two tasks in a loop with an authored exit to a third, and a lone task. *)
Definition looped : ProtoDefinitionGraph :=
  mkPDG ["a"; "b"; "c"; "d"]
    (mkTaskGraph []
       [mkEdge "1" ["a"] ["b"] 2 []; mkEdge "2" ["b"] ["a"] 2 [];
        mkEdge "3" ["b"] ["c"] 0 []] "start" "end").

Definition looped_rank (t : string) : nat := if decide (t = "c") then 1 else 0.

Example looped_sealed :
  (λ e, (edge_sources e, edge_targets e)) <$>
    graph_edges (pdg_graph (seal pretty looped 0).1) =
  [(["a"], ["b"]); (["b"], ["a"]); (["b"], ["c"]);
   (["start"], ["a"]); (["start"], ["d"]); (["c"], ["end"]); (["d"], ["end"])].
Proof. vm_compute. reflexivity. Qed.

Lemma looped_layered : layered looped looped_rank.
Proof.
  assert (∀ body, body ∈ loop_sccs (pdg_graph looped) → body = {["a"; "b"]}) as Hb.
  { assert (loop_sccs (pdg_graph looped) = [{["a"; "b"]}]) as -> by by vm_compute.
    intros body ->%list_elem_of_singleton. done. }
  split; simpl; try (intros; invert_elem_of; simpl in *; invert_elem_of); try done.
  all: try (by left; apply (bool_decide_unpack _); vm_compute).
  - apply (bool_decide_unpack _). by vm_compute.
  - apply (bool_decide_unpack _). by vm_compute.
  - apply Hb in H as ->. rewrite !elem_of_union, !elem_of_singleton in *. naive_solver.
Qed.

Lemma seal_connects_witness :
  let sealed := pdg_graph (seal pretty looped 0).1 in
  rtc (graph_rel sealed) (graph_start sealed) "b" ∧ rtc (graph_rel sealed) "b" (graph_end sealed).
Proof.
  apply (seal_connects pretty looped 0 looped_rank "b" looped_layered).
  apply (bool_decide_unpack _). vm_compute. exact I.
Defined.

Lemma seal_closes_orphans_witness :
  let sealed := pdg_graph (seal pretty looped 0).1 in
  (has_non_loop_incoming sealed "b" = true ∨
   ∃ body m, loop_body (pdg_graph looped) body ∧ "b" ∈ body ∧ m ∈ body ∧
             has_non_loop_incoming sealed m = true) ∧
  (has_non_loop_outgoing sealed "b" = true ∨
   ∃ body, loop_body (pdg_graph looped) body ∧ "b" ∈ body ∧
           has_non_loop_edge_leaving_body sealed body = true).
Proof.
  apply (seal_closes_orphans pretty looped 0 "b").
  apply (bool_decide_unpack _). vm_compute. exact I.
Defined.
