(* ===== verification/Terminability.v ===== *)
(** * Loop terminability

    [definition_graph.rs]: [validate_loop_terminability].  The validator accepts
    exactly the graphs all of whose loop bodies have an edge leaving them and
    only [loop_control]-gated leaving edges; what it reports otherwise names a
    real loop body; and the structural seal keeps an accepted graph accepted when every loop body
    has an authored dependency leaving it. *)

From S2P Require Import Prelude Workflow Dominators LoopBodies TarjanInvariant Seal.

Definition LOOP_CONTROL_VAR : string := "loop_control".

Inductive LoopTerminabilityViolation :=
| NoExit (scc : list string)
| UngatedExit (scc : list string) (edge_id : string).

Definition references_loop_control (gate : Gate) : bool :=
  match gate_kind gate with
  | Some (Gate_PredicateHolds ph) => bool_decide (ph_routing_var ph = LOOP_CONTROL_VAR)
  | _ => false
  end.

(** The edges with a source in the body and a target outside it, of any kind. *)
Definition leaving_edges (graph : TaskGraph) (scc : gset string) : list Edge :=
  List.filter (λ e, existsb (λ s, bool_decide (s ∈ scc)) (edge_sources e)
                    && existsb (λ t, negb (bool_decide (t ∈ scc))) (edge_targets e))
    (graph_edges graph).

Definition check_loop_body (graph : TaskGraph) (scc : gset string)
    : result unit LoopTerminabilityViolation :=
  let leaving := leaving_edges graph scc in
  let scc_vec := sort_strings (elements scc) in
  match leaving with
  | [] => Err (NoExit scc_vec)
  | _ => check_all (λ e, if existsb references_loop_control (edge_gates e) then Ok ()
                         else Err (UngatedExit scc_vec (edge_id e))) leaving
  end.

Definition validate_loop_terminability (graph : TaskGraph)
    : result unit LoopTerminabilityViolation :=
  check_all (check_loop_body graph) (loop_sccs graph).

(** ** Specification *)

Definition leaves (scc : gset string) (e : Edge) : Prop :=
  (∃ s, s ∈ edge_sources e ∧ s ∈ scc) ∧ ∃ t, t ∈ edge_targets e ∧ t ∉ scc.

Definition loop_control_gated (e : Edge) : Prop :=
  ∃ gt ph, gt ∈ edge_gates e ∧ gate_kind gt = Some (Gate_PredicateHolds ph) ∧
           ph_routing_var ph = "loop_control".

(** A loop body that can be left, and only by a routing decision. *)
Definition terminable (graph : TaskGraph) (scc : gset string) : Prop :=
  (∃ e, e ∈ graph_edges graph ∧ leaves scc e) ∧
  ∀ e, e ∈ graph_edges graph → leaves scc e → loop_control_gated e.

(** What each violation reports of a body. *)
Definition explains (graph : TaskGraph) (scc : gset string) (v : LoopTerminabilityViolation) : Prop :=
  match v with
  | NoExit ids => ids = sort_strings (elements scc) ∧
      ∀ e, e ∈ graph_edges graph → ¬ leaves scc e
  | UngatedExit ids eid => ids = sort_strings (elements scc) ∧
      ∃ e, e ∈ graph_edges graph ∧ edge_id e = eid ∧ leaves scc e ∧ ¬ loop_control_gated e
  end.

Lemma elem_of_leaving_edges graph scc e :
  e ∈ leaving_edges graph scc ↔ e ∈ graph_edges graph ∧ leaves scc e.
Proof.
  unfold leaving_edges. rewrite !list_elem_of_In, filter_In, andb_true_iff, !existsb_exists.
  unfold leaves. setoid_rewrite negb_true_iff.
  setoid_rewrite bool_decide_eq_true. setoid_rewrite bool_decide_eq_false.
  setoid_rewrite list_elem_of_In. done.
Qed.

Lemma references_loop_control_true e :
  existsb references_loop_control (edge_gates e) = true ↔ loop_control_gated e.
Proof.
  rewrite existsb_exists. unfold loop_control_gated, references_loop_control. split.
  - intros (gt&?%list_elem_of_In&Hb). destruct (gate_kind gt) as [[]|] eqn:Hk; try done.
    apply bool_decide_eq_true in Hb. eauto 10.
  - intros (gt&ph&?%list_elem_of_In&Hk&Hv). exists gt. rewrite Hk. split; [done|].
    by apply bool_decide_eq_true.
Qed.

Lemma loop_control_gated_false e :
  existsb references_loop_control (edge_gates e) = false ↔ ¬ loop_control_gated e.
Proof. by rewrite <-references_loop_control_true, not_true_iff_false. Qed.

Lemma check_loop_body_ok graph scc :
  check_loop_body graph scc = Ok () ↔ terminable graph scc.
Proof.
  unfold check_loop_body, terminable. pose proof (elem_of_leaving_edges graph scc) as Hl.
  destruct (leaving_edges graph scc) as [|e0 es].
  - split; [done|]. intros [(e&?&?) _].
    assert (e ∈ ([] : list Edge)) as []%elem_of_nil by (by apply Hl).
  - rewrite check_all_ok. split.
    + intros Hall. split; [exists e0; apply Hl; left|]. intros e He Hle.
      specialize (Hall e). rewrite Hl in Hall. specialize (Hall (conj He Hle)).
      apply references_loop_control_true. by destruct (existsb _ _).
    + intros [_ Hall] e [He Hle]%Hl. by rewrite (proj2 (references_loop_control_true e)); auto.
Qed.

Lemma check_loop_body_err graph scc v :
  check_loop_body graph scc = Err v → explains graph scc v.
Proof.
  unfold check_loop_body. pose proof (elem_of_leaving_edges graph scc) as Hl.
  destruct (leaving_edges graph scc) as [|e0 es].
  - intros [= <-]. split; [done|]. intros e He Hle.
    assert (e ∈ ([] : list Edge)) as []%elem_of_nil by (by apply Hl).
  - intros (l1&e&l2&Heq&He&_)%check_all_err.
    destruct (existsb _ _) eqn:Hg; [done|]. injection He as <-. split; [done|].
    assert (e ∈ e0 :: es) as [??]%Hl by (rewrite Heq; set_solver).
    exists e. rewrite <-loop_control_gated_false. done.
Qed.

(** C28: The validator accepts a graph exactly when every loop body (every
    strongly-connected component of [Loop] edges with a cycle) is terminable. *)
Theorem validate_loop_terminability_correct graph :
  validate_loop_terminability graph = Ok () ↔
  ∀ body, loop_body graph body → terminable graph body.
Proof.
  unfold validate_loop_terminability. rewrite check_all_ok.
  setoid_rewrite check_loop_body_ok. destruct (loop_sccs_spec graph) as (_&_&Hs).
  setoid_rewrite Hs. done.
Qed.

(** A rejected graph is rejected for a real loop body, named by its sorted ids:
    one without an exit, or one with the reported ungated exit. *)
Theorem loop_violation_explained graph v :
  validate_loop_terminability graph = Err v →
  ∃ body, loop_body graph body ∧ explains graph body v.
Proof.
  intros (l1&body&l2&Heq&Hb%check_loop_body_err&_)%check_all_err.
  exists body. split; [|done]. apply loop_sccs_spec. rewrite Heq. set_solver.
Qed.

Definition endless : TaskGraph :=
  mkTaskGraph [] [mkEdge "1" ["a"] ["b"] 2 []; mkEdge "2" ["b"] ["a"] 2 [];
                  mkEdge "3" ["b"] ["end"] 0 []] "start" "end".

Lemma loop_violation_explained_witness :
  validate_loop_terminability endless = Err (UngatedExit ["a"; "b"] "3") ∧
  ∃ body, loop_body endless body ∧ explains endless body (UngatedExit ["a"; "b"] "3").
Proof.
  split; [vm_compute; reflexivity|].
  apply (loop_violation_explained endless). vm_compute. reflexivity.
Defined.

(** ** Sealing and terminability *)

Lemma seal_edge_stays fresh g n body e :
  loop_body (pdg_graph g) body →
  graph_start (pdg_graph g) ∉ body →
  has_non_loop_edge_leaving_body (pdg_graph g) body = true →
  e ∈ graph_edges (pdg_graph (seal fresh g n).1) → leaves body e →
  e ∈ graph_edges (pdg_graph g).
Proof.
  intros Hb Hstart Hexit He [(s&Hs&Hsb) _].
  apply sealed_edge in He as [?|(_&_&t&_&[(Hsrc&_)|(Hsrc&_&Hex)])]; [done|..];
    rewrite Hsrc in Hs; apply list_elem_of_singleton in Hs as ->; [done|].
  exfalso. unfold exited in Hex. apply orb_false_iff in Hex as [_ Hex].
  apply bool_decide_eq_false in Hex. apply Hex, elem_of_exiting.
  exists body. split_and!; [by apply loop_sccs_spec|done..].
Qed.

(** The seal adds no exit of its own to a loop body that has an authored one: a
    terminable definition whose bodies all have a dependency leaving them, and
    do not contain [start], stays terminable. *)
Theorem seal_keeps_terminable fresh g n :
  validate_loop_terminability (pdg_graph g) = Ok () →
  (∀ body, loop_body (pdg_graph g) body →
     (graph_start (pdg_graph g) ∉ body) ∧
     has_non_loop_edge_leaving_body (pdg_graph g) body = true) →
  validate_loop_terminability (pdg_graph (seal fresh g n).1) = Ok ().
Proof.
  unfold validate_loop_terminability. rewrite seal_loop_sccs, !check_all_ok.
  setoid_rewrite check_loop_body_ok. intros Hok Hbodies body Hin.
  destruct (Hok body Hin) as [(e&He&Hle) Hall].
  apply loop_sccs_spec in Hin. destruct (Hbodies body Hin) as [Hstart Hexit]. split.
  - exists e. split; [|done]. by apply original_edge.
  - intros e' He' Hle'. apply Hall; [|done]. by eapply seal_edge_stays.
Qed.

Definition polling : ProtoDefinitionGraph :=
  mkPDG ["a"; "b"; "c"]
    (mkTaskGraph []
       [mkEdge "1" ["a"] ["b"] 2 []; mkEdge "2" ["b"] ["a"] 2 [];
        mkEdge "3" ["b"] ["c"] 0
          [mkGate (Some (Gate_PredicateHolds (mkPredicateHolds "loop_control" 0 None None)))]]
       "start" "end").

Lemma seal_keeps_terminable_witness :
  validate_loop_terminability (pdg_graph (seal pretty.pretty polling 0).1) = Ok ().
Proof.
  apply (seal_keeps_terminable pretty.pretty polling 0).
  - vm_compute. reflexivity.
  - intros body Hb%(proj2 (proj2 (loop_sccs_spec _)) body).
    assert (loop_sccs (pdg_graph polling) = [{["a"; "b"]}]) as Heq by by vm_compute.
    rewrite Heq in Hb. apply list_elem_of_singleton in Hb as ->.
    split; [apply (bool_decide_unpack _); vm_compute; exact I|vm_compute; reflexivity].
Defined.

(** A [Loop] edge can leave a loop body: it does when nothing leads back. *)
Lemma loop_edge_can_leave :
  ∃ body e, loop_body two_loops body ∧ e ∈ graph_edges two_loops ∧
            is_loop_edge e = true ∧ leaves body e.
Proof.
  exists {["a"; "b"; "c"]}, (mkEdge "4" ["c"] ["d"] 2 []). split_and!.
  - apply loop_sccs_spec. apply (bool_decide_unpack _). vm_compute. exact I.
  - set_solver.
  - done.
  - unfold leaves. simpl. set_solver.
Qed.

(** A dependency between two members counts as an entry into their body, so the
    seal does not wire the body from [start] and nothing reaches it. *)
Lemma inner_dependency_hides_body :
  let g := mkPDG ["a"; "b"]
    (mkTaskGraph [] [mkEdge "1" ["a"] ["b"] 2 []; mkEdge "2" ["b"] ["a"] 2 [];
                     mkEdge "3" ["a"] ["b"] 0 []] "start" "end") in
  let sealed := pdg_graph (seal pretty.pretty g 0).1 in
  ∀ t, rtc (graph_rel sealed) "start" t → t = "start".
Proof.
  intros g sealed t [Ht|(y&(e&He&Hs&_)&_)]%rtc_inv; [done|]. exfalso.
  assert (Forall (λ e, "start" ∉ edge_sources e) (graph_edges sealed)) as Hall.
  { apply (bool_decide_unpack _). vm_compute. exact I. }
  rewrite Forall_forall in Hall. by eapply Hall.
Qed.
