(* ===== verification/Validators.v ===== *)
(** * Registration validators and gate projections

    [parser/builder.rs]: the checks the registration ingress makes on a parsed
    workflow, and the projection of authored gates onto the published contract.
    Every [anyhow!] is a constructor of [BuildError] that carries the values its
    message interpolates.  Parsing a JSONPath is [serde_json_path]'s, so
    [jsonpath_ok] is a parameter. *)

From S2P Require Import Prelude Workflow Dominators LoopBodies TarjanInvariant Terminability.
From S2P Require Import SignalSources Duration Json ParserTypes Identity.

Inductive BuildError :=
| ReservedTags (keys : list string)
| DuplicateOwnership (dups : list (string * list string))
| EmitNotCoLocated (signal routing_var task : string)
| EmitSignalEmpty (task : string)
| EmitOnFailureSignalEmpty (task : string)
| InvalidSegment (what value : string)
| InvalidWorkflowTimeout (workflow raw : string) (e : ParseDurationError)
| InvalidTaskTimeout (task raw : string) (e : ParseDurationError)
| MissingNixPath (task : string)
| UnknownEdgeTask (name : string)
| SignalGateNoSignal
| SignalGatePredicate (label raw : string)
| GateTimeout (label raw : string) (e : ParseDurationError)
| PredicateGateNoVar (label : string)
| PredicateGateOp (label op : string)
| PredicateGateValue (label why : string)
| SignalUnresolved (task signal : string)
| SignalAmbiguous (task signal : string) (count : nat)
| NoProducer (routing_var : string)
| ProducerNotInWorkflow (task : string)
| ProducerNotDominating (routing_var producer : string) (bypass : list string)
| NonTerminableLoop (workflow : string) (v : LoopTerminabilityViolation)
| TriggerNoSignal
| TriggerPredicate (workflow raw : string)
| DuplicateCapture (name : string)
| CaptureIsOutput (name : string)
| CaptureNoTrigger (name : string)
| CaptureJsonPath (name raw : string)
| BuilderPanic.

(** ** Tags *)

Definition validate_definition_tags (tags : gmap string string) : result unit BuildError :=
  let reserved := sort_strings (List.filter (starts_with "tickr/") (map_to_list tags).*1) in
  if bool_decide (reserved = []) then Ok () else Err (ReservedTags reserved).

(** ** Routing-variable ownership *)

(** The [owners] map: every declared name with its declaring tasks in order. *)
Definition owners (pw : ParsedWorkflow) : gmap string (list string) :=
  foldl (λ m task, foldl (λ m rv, map_push (prv_name rv) (pt_name task) m) m (pt_routing_vars task))
    ∅ (all_tasks pw).

Definition validate_single_producer (pw : ParsedWorkflow) : result unit BuildError :=
  let duplicates :=
    List.filter (λ kv : string * list string, 1 <? length kv.2) (map_to_list (owners pw)) in
  if bool_decide (length duplicates = 0) then Ok ()
  else Err (DuplicateOwnership (sort_by (λ a b, string_leb a.1 b.1) duplicates)).

(** ** Emits *)

Definition check_emit (task : ParsedTask) (emit : ParsedSignalEmit) : result unit BuildError :=
  match emit with
  | PE_SignalEmit signal from_routing_var =>
      if negb (bool_decide (from_routing_var ∈ prv_name <$> pt_routing_vars task))
      then Err (EmitNotCoLocated (psr_name signal) from_routing_var (pt_name task))
      else if blank (psr_name signal) then Err (EmitSignalEmpty (pt_name task)) else Ok ()
  | PE_SignalEmitOnFailure signal =>
      if blank (psr_name signal) then Err (EmitOnFailureSignalEmpty (pt_name task)) else Ok ()
  end.

Definition validate_emit_co_location (pw : ParsedWorkflow) : result unit BuildError :=
  check_all (λ tg, check_all (λ task, check_all (check_emit task) (pt_emits task)) (ptg_tasks tg))
    (pw_tasks pw).

(** ** Identity segments *)

Definition validate_identity_segment (value what : string) : result unit BuildError :=
  if valid_segment value then Ok () else Err (InvalidSegment what value).

(** ** Captures *)

Definition to_proto_capture (c : ParsedCaptureDeclaration) : CaptureDeclaration :=
  match pcd_from c with
  | PCS_Trigger jsonpath =>
      mkCaptureDeclaration (pcd_name c) (Some (mkCaptureSource (Some (CaptureSource_Trigger jsonpath))))
  end.

Section projections.
Context (jsonpath_ok : string → bool).

(** The loop over the captures; [names] is the set of those seen. *)
Fixpoint check_captures (outputs : list string) (names : gset string)
    (captures : list CaptureDeclaration) : result unit BuildError :=
  match captures with
  | [] => Ok ()
  | c :: rest =>
      if bool_decide (capture_name c ∈ names) then Err (DuplicateCapture (capture_name c))
      else if bool_decide (capture_name c ∈ outputs) then Err (CaptureIsOutput (capture_name c))
      else match capture_from c with
           | Some (mkCaptureSource (Some (CaptureSource_Trigger jsonpath))) =>
               if jsonpath_ok jsonpath
               then check_captures outputs ({[capture_name c]} ∪ names) rest
               else Err (CaptureJsonPath (capture_name c) jsonpath)
           | _ => Err (CaptureNoTrigger (capture_name c))
           end
  end.

Definition validate_captures_with_outputs (captures : list CaptureDeclaration)
    (tasks : list TaskDefinition) : result unit BuildError :=
  check_captures (mjoin (task_outputs <$> tasks)) ∅ captures.

(** ** Gates *)

Definition duration_secs_to_proto (d : Duration) : Duration :=
  mkDuration (duration_secs d) (duration_nanos d).

Definition project_timeout (label : string) (timeout : option string)
    : result (option Duration) BuildError :=
  match timeout with
  | None => Ok None
  | Some raw =>
      let? d := map_err (GateTimeout label raw) (parse_duration raw) in
      Ok (Some (duration_secs_to_proto d))
  end.

Definition project_signal_gate_proto (parsed : ParsedSignalGate) (workflow_name : string)
    : result Gate BuildError :=
  let? _ := ensure (negb (blank (psr_name (psg_signal parsed)))) SignalGateNoSignal in
  let? _ := match psg_predicate parsed with
            | Some raw => ensure (jsonpath_ok raw) (SignalGatePredicate workflow_name raw)
            | None => Ok ()
            end in
  let? timeout := project_timeout workflow_name (psg_timeout parsed) in
  Ok (mkGate (Some (Gate_SignalReceived
        (mkSignalReceived (psr_name (psg_signal parsed)) (psg_predicate parsed)
           (to_proto_capture <$> psg_captures parsed) timeout)))).

Definition parse_op (op : string) : option ComparisonOp :=
  if bool_decide (op = "Eq") then Some Op_Eq
  else if bool_decide (op = "NotEq") then Some Op_NotEq
  else if bool_decide (op = "Lt") then Some Op_Lt
  else if bool_decide (op = "Le") then Some Op_Le
  else if bool_decide (op = "Gt") then Some Op_Gt
  else if bool_decide (op = "Ge") then Some Op_Ge
  else None.

Definition json_to_routing_value_proto (v : Json) : result RoutingValue string :=
  let? value :=
    match v with
    | JString s => Ok (StringValue s)
    | JBool b => Ok (BoolValue b)
    | JNumber n =>
        let? i := ok_or (as_i64 n) "only integer numbers are supported" in Ok (IntValue i)
    | _ => Err "supported values are strings, integers, or booleans"
    end in
  Ok (mkRoutingValue (Some value)).

Definition project_predicate_gate_proto (parsed : ParsedPredicateGate) (workflow_name : string)
    : result Gate BuildError :=
  let? _ := ensure (negb (blank (ppg_routing_var parsed))) (PredicateGateNoVar workflow_name) in
  let? op := ok_or (parse_op (ppg_op parsed)) (PredicateGateOp workflow_name (ppg_op parsed)) in
  let? value := map_err (PredicateGateValue workflow_name)
                  (json_to_routing_value_proto (ppg_value parsed)) in
  let? timeout := project_timeout workflow_name (ppg_timeout parsed) in
  Ok (mkGate (Some (Gate_PredicateHolds
        (mkPredicateHolds (ppg_routing_var parsed) (ComparisonOp_i32 op) (Some value) timeout)))).

Definition project_timer_gate_proto (parsed : ParsedTimerGate) (workflow_name : string)
    : result Gate BuildError :=
  let? duration := map_err (GateTimeout workflow_name (ptg_duration parsed))
                     (parse_duration (ptg_duration parsed)) in
  Ok (mkGate (Some (Gate_TimerElapsed (mkTimerElapsed (Some (duration_secs_to_proto duration)))))).

Definition project_gate_proto (parsed : ParsedGate) (label : string) : result Gate BuildError :=
  match parsed with
  | PG_SignalGate g => project_signal_gate_proto g label
  | PG_PredicateGate g => project_predicate_gate_proto g label
  | PG_TimerGate g => project_timer_gate_proto g label
  end.

(** ** The trigger *)

Definition build_trigger (parsed : ParsedWorkflow) (tasks : list TaskDefinition)
    : result Trigger BuildError :=
  let? kind :=
    match pw_trigger_on parsed with
    | Some (PT_Cron expr) => Ok (Trigger_Cron expr)
    | Some PT_FireNow | None => Ok Trigger_FireNow
    | Some (PT_WaitsOnSignal signal predicate captures) =>
        let? _ := ensure (negb (blank (psr_name signal))) TriggerNoSignal in
        let? _ := match predicate with
                  | Some raw => ensure (jsonpath_ok raw) (TriggerPredicate (pw_name parsed) raw)
                  | None => Ok ()
                  end in
        let? _ := validate_captures_with_outputs (to_proto_capture <$> captures) tasks in
        Ok (Trigger_WaitsOnSignal
              (mkWaitsOnSignalConfig (psr_name signal) predicate (to_proto_capture <$> captures)))
    end in
  Ok (mkTrigger (Some kind)).
End projections.

Definition edge_kind_to_proto (s : option string) : EdgeKind :=
  match s with
  | Some k => if bool_decide (k = "data") then EdgeKind_Data
              else if bool_decide (k = "loop") then EdgeKind_Loop else EdgeKind_Control
  | None => EdgeKind_Control
  end.

(** ** What the validators accept *)

Lemma ensure_ok {E} b (e : E) : ensure b e = Ok () ↔ b = true.
Proof. destruct b; simpl; naive_solver. Qed.

Lemma map_err_ok {A E F} (f : E → F) (r : result A E) a : map_err f r = Ok a ↔ r = Ok a.
Proof. destruct r; simpl; naive_solver. Qed.

Lemma ok_or_ok {A E} (o : option A) (e : E) a : ok_or o e = Ok a ↔ o = Some a.
Proof. destruct o; simpl; naive_solver. Qed.

Lemma validate_definition_tags_ok tags :
  validate_definition_tags tags = Ok () ↔
  ∀ k, is_Some (tags !! k) → starts_with "tickr/" k = false.
Proof.
  unfold validate_definition_tags.
  assert (∀ k, k ∈ sort_strings (List.filter (starts_with "tickr/") (map_to_list tags).*1) ↔
               is_Some (tags !! k) ∧ starts_with "tickr/" k = true) as Hin.
  { intros k. unfold sort_strings. rewrite elem_of_sort_by, list_elem_of_In, filter_In.
    rewrite <-list_elem_of_In, list_elem_of_fmap. split.
    - intros [([k' v]&->&Hk%elem_of_map_to_list) ?]. eauto.
    - intros [[v Hv] ?]. split; [|done]. exists (k, v). by rewrite elem_of_map_to_list. }
  case_bool_decide as Hnil.
  - split; [|done]. intros _ k Hk. apply not_true_iff_false. intros Hs.
    apply (not_elem_of_nil k). rewrite <-Hnil. by apply Hin.
  - split; [done|]. intros Hall. exfalso. apply Hnil.
    destruct (sort_strings _) as [|k l]; [done|].
    assert (k ∈ k :: l) as [Hk Hs]%Hin by left. by rewrite (Hall k Hk) in Hs.
Qed.

(** The declared routing variables with their tasks, in order. *)
Definition declarations (pw : ParsedWorkflow) : list (string * string) :=
  mjoin ((λ task, (λ rv, (prv_name rv, pt_name task)) <$> pt_routing_vars task) <$> all_tasks pw).

Lemma owners_declarations pw :
  owners pw = foldl (λ m kt, map_push kt.1 kt.2 m) ∅ (declarations pw).
Proof.
  unfold owners, declarations. generalize (∅ : gmap string (list string)).
  induction (all_tasks pw) as [|task l IH]; intros m; simpl; [done|].
  rewrite foldl_app, IH. f_equal. revert m.
  induction (pt_routing_vars task) as [|rv rvs IHr]; intros m; simpl; [done|]. apply IHr.
Qed.

Lemma bucket_pushes (l : list (string * string)) m k :
  bucket (foldl (λ m kt, map_push kt.1 kt.2 m) m l) k =
  bucket m k ++ (filter (λ kt, kt.1 = k) l).*2.
Proof.
  revert m; induction l as [|[k' t] l IH]; intros m; simpl; [by rewrite app_nil_r|].
  rewrite IH, filter_cons. simpl. case_decide as Hk.
  - subst. rewrite bucket_push_eq. by rewrite <-app_assoc.
  - rewrite bucket_push_ne by done. done.
Qed.

Lemma bucket_owners pw k : bucket (owners pw) k = (filter (λ kt, kt.1 = k) (declarations pw)).*2.
Proof. by rewrite owners_declarations, bucket_pushes, bucket_empty. Qed.

Lemma NoDup_fst_filter (l : list (string * string)) :
  NoDup l.*1 ↔ ∀ k, length (filter (λ kt, kt.1 = k) l) ≤ 1.
Proof.
  induction l as [|[k t] l IH]; csimpl; [split; [simpl; lia|constructor]|].
  rewrite NoDup_cons. setoid_rewrite filter_cons. simpl.
  assert (k ∉ l.*1 ↔ length (filter (λ kt, kt.1 = k) l) = 0) as Hk.
  { rewrite length_zero_iff_nil. split.
    - intros Hn. destruct (filter _ l) as [|[k' t'] l'] eqn:Hf; [done|]. exfalso.
      assert ((k', t') ∈ filter (λ kt, kt.1 = k) l) as [Hkk Hin]%list_elem_of_filter
        by (rewrite Hf; left). apply Hn. simpl in Hkk. subst.
      apply list_elem_of_fmap. by exists (k, t').
    - intros Hf ([k' t']&->&Hin)%list_elem_of_fmap.
      assert ((k', t') ∈ filter (λ kt, kt.1 = k') l) as Hx by by apply list_elem_of_filter.
      simpl in Hf. rewrite Hf in Hx. by apply elem_of_nil in Hx. }
  rewrite Hk, IH. split.
  - intros [H0 Hall] k'. case_decide; subst; simpl; [rewrite H0; lia|auto].
  - intros Hall. split.
    + specialize (Hall k). rewrite decide_True in Hall by done. simpl in Hall. lia.
    + intros k'. specialize (Hall k'). case_decide; simpl in Hall; lia.
Qed.

Lemma validate_single_producer_ok pw :
  validate_single_producer pw = Ok () ↔ NoDup (declarations pw).*1.
Proof.
  unfold validate_single_producer. rewrite NoDup_fst_filter.
  assert (∀ k l, (k, l) ∈ List.filter (λ kv : string * list string, 1 <? length kv.2)
                   (map_to_list (owners pw)) ↔ owners pw !! k = Some l ∧ 1 < length l) as Hin.
  { intros k l. rewrite list_elem_of_In, filter_In, <-list_elem_of_In, elem_of_map_to_list.
    by rewrite Nat.ltb_lt. }
  assert (∀ k, length (filter (λ kt, kt.1 = k) (declarations pw)) = length (bucket (owners pw) k))
    as Hlen by (intros k; by rewrite bucket_owners, length_fmap).
  setoid_rewrite Hlen. case_bool_decide as Hd; simpl.
  - apply length_zero_iff_nil in Hd. split; [|done]. intros _ k. unfold bucket.
    destruct (owners pw !! k) as [l|] eqn:Hk; simpl; [|lia].
    destruct (decide (1 < length l)) as [Hl|]; [|lia].
    assert ((k, l) ∈ ([] : list (string * list string))) as []%elem_of_nil.
    rewrite <-Hd. by apply Hin.
  - split; [done|]. intros Hall. exfalso. apply Hd. apply length_zero_iff_nil.
    destruct (List.filter _ _) as [|[k l] d] eqn:Hf; [done|].
    assert ((k, l) ∈ (k, l) :: d) as Hx by left. apply Hin in Hx as [Hk Hl].
    specialize (Hall k). unfold bucket in Hall. rewrite Hk in Hall. simpl in Hall. lia.
Qed.

(** An emit that registration accepts on a task. *)
Definition emit_ok (task : ParsedTask) (emit : ParsedSignalEmit) : Prop :=
  match emit with
  | PE_SignalEmit signal var =>
      (∃ rv, rv ∈ pt_routing_vars task ∧ prv_name rv = var) ∧ trim (psr_name signal) ≠ ""
  | PE_SignalEmitOnFailure signal => trim (psr_name signal) ≠ ""
  end.

Lemma check_emit_ok task emit : check_emit task emit = Ok () ↔ emit_ok task emit.
Proof.
  unfold check_emit, emit_ok, blank. destruct emit as [signal var|signal].
  - case_bool_decide as Hv; simpl.
    + apply list_elem_of_fmap in Hv as (rv&->&?). case_bool_decide; naive_solver.
    + split; [done|]. intros [(rv&?&<-) _]. destruct Hv. by apply list_elem_of_fmap_2.
  - case_bool_decide; naive_solver.
Qed.

Lemma validate_emit_co_location_ok pw :
  validate_emit_co_location pw = Ok () ↔
  ∀ task emit, task ∈ all_tasks pw → emit ∈ pt_emits task → emit_ok task emit.
Proof.
  unfold validate_emit_co_location, all_tasks. rewrite check_all_ok.
  setoid_rewrite check_all_ok. setoid_rewrite check_all_ok. setoid_rewrite check_emit_ok.
  setoid_rewrite list_elem_of_join. setoid_rewrite list_elem_of_fmap. split.
  - intros Hall task emit (l&Ht&(tg&->&Htg)) He. eauto.
  - intros Hall tg Htg task Ht emit He. eauto 10.
Qed.

(** A capture registration accepts: it reads the trigger with a valid JSONPath and
    does not take the name of an output. *)
Definition capture_ok (jsonpath_ok : string → bool) (outputs : list string)
    (c : CaptureDeclaration) : Prop :=
  (capture_name c ∉ outputs) ∧
  ∃ path, capture_from c = Some (mkCaptureSource (Some (CaptureSource_Trigger path))) ∧
          jsonpath_ok path = true.

Lemma check_captures_ok jsonpath_ok outputs names captures :
  check_captures jsonpath_ok outputs names captures = Ok () ↔
  NoDup (capture_name <$> captures) ∧ (∀ c, c ∈ captures → capture_name c ∉ names) ∧
  ∀ c, c ∈ captures → capture_ok jsonpath_ok outputs c.
Proof.
  revert names; induction captures as [|c l IH]; intros names; csimpl.
  { split; [|done]. intros _. split_and!; [constructor|by intros c ?%elem_of_nil..]. }
  rewrite NoDup_cons. unfold capture_ok. setoid_rewrite elem_of_cons. case_bool_decide as Hn.
  { split; [done|]. intros (_&Hd&_). destruct (Hd c (or_introl eq_refl) Hn). }
  case_bool_decide as Ho.
  { split; [done|]. intros (_&_&Hd). destruct (proj1 (Hd c (or_introl eq_refl)) Ho). }
  destruct (capture_from c) as [[[[path]|]]|] eqn:Hc.
  2,3: split; [done|]; intros (_&_&Hd); destruct (Hd c) as (_&?&?&_); [by left|congruence].
  destruct (jsonpath_ok path) eqn:Hp.
  - rewrite IH. unfold capture_ok. setoid_rewrite not_elem_of_union.
    setoid_rewrite not_elem_of_singleton. rewrite list_elem_of_fmap. split.
    + intros (Hnd&Hnm&Hall). split_and!; [|done| |]; [naive_solver|naive_solver|].
      intros c' [->|?]; [eauto|by apply Hall].
    + intros ([Hni Hnd]&Hnm&Hall). split_and!; [done|..]; intros c' Hc'; [|auto].
      split; [|auto]. intros Heq. apply Hni. eauto.
  - split; [done|]. intros (_&_&Hd). destruct (Hd c) as (_&?&?&?); [by left|congruence].
Qed.

Lemma validate_captures_ok jsonpath_ok captures tasks :
  validate_captures_with_outputs jsonpath_ok captures tasks = Ok () ↔
  NoDup (capture_name <$> captures) ∧
  ∀ c, c ∈ captures → capture_ok jsonpath_ok (mjoin (task_outputs <$> tasks)) c.
Proof. unfold validate_captures_with_outputs. rewrite check_captures_ok. set_solver. Qed.

(** ** Projected gates *)

Definition timeout_ok (t : option Duration) : Prop :=
  ∀ d, t = Some d → (0 < duration_secs d < u64_limit)%Z ∧ duration_nanos d = 0%Z.

(** A well-formed gate of the published contract. *)
Definition gate_ok (jsonpath_ok : string → bool) (g : Gate) : Prop :=
  match gate_kind g with
  | Some (Gate_SignalReceived sr) =>
      trim (sr_signal_name sr) ≠ "" ∧
      (∀ p, sr_predicate sr = Some p → jsonpath_ok p = true) ∧ timeout_ok (sr_timeout sr)
  | Some (Gate_PredicateHolds ph) =>
      trim (ph_routing_var ph) ≠ "" ∧ (∃ op, ph_op ph = ComparisonOp_i32 op) ∧
      (∃ v, ph_value ph = Some (mkRoutingValue (Some v)) ∧
            match v with
            | IntValue i => (i64_min <= i <= i64_max)%Z
            | BytesValue _ => False
            | _ => True
            end) ∧
      timeout_ok (ph_timeout ph)
  | Some (Gate_TimerElapsed te) => te_duration te ≠ None ∧ timeout_ok (te_duration te)
  | None => False
  end.

Lemma parse_duration_timeout raw d :
  parse_duration raw = Ok d → timeout_ok (Some (duration_secs_to_proto d)).
Proof.
  intros Hd d' [= <-]. simpl. split; [by eapply parse_duration_positive|].
  by apply parse_duration_ok in Hd as [_ ?].
Qed.

Lemma project_timeout_ok label raw t : project_timeout label raw = Ok t → timeout_ok t.
Proof.
  unfold project_timeout. destruct raw as [raw|]; [|by intros [= <-]].
  destruct (parse_duration raw) as [d|] eqn:Hd; [|done]. intros [= <-].
  by eapply parse_duration_timeout.
Qed.

Lemma json_to_routing_value_ok v rv :
  json_to_routing_value_proto v = Ok rv →
  ∃ k, rv = mkRoutingValue (Some k) ∧
       match k with
       | IntValue i => (i64_min <= i <= i64_max)%Z
       | BytesValue _ => False
       | _ => True
       end.
Proof.
  unfold json_to_routing_value_proto. destruct v as [|b|n|s|l|m]; try done.
  - intros [= <-]. by eexists.
  - unfold as_i64. destruct n as [z|b]; simpl; [|done].
    destruct (_ && _) eqn:Hz; [|done]. intros [= <-]. eexists. split; [done|].
    apply andb_prop in Hz as [?%Z.leb_le ?%Z.leb_le]. done.
  - intros [= <-]. by eexists.
Qed.

Lemma project_gate_ok jsonpath_ok parsed label g :
  project_gate_proto jsonpath_ok parsed label = Ok g → gate_ok jsonpath_ok g.
Proof.
  unfold gate_ok. destruct parsed as [sg|pg|tg]; simpl.
  - unfold project_signal_gate_proto, blank. case_bool_decide as Hb; [done|]. simpl.
    destruct (psg_predicate sg) as [raw|]; simpl.
    + destruct (jsonpath_ok raw) eqn:Hp; [|done]. simpl.
      destruct (project_timeout _ _) as [t|] eqn:Ht; [|done]. intros [= <-]. simpl.
      split_and!; [done|by intros ? [= <-]|by eapply project_timeout_ok].
    + destruct (project_timeout _ _) as [t|] eqn:Ht; [|done]. intros [= <-]. simpl.
      split_and!; [done|done|by eapply project_timeout_ok].
  - unfold project_predicate_gate_proto, blank. case_bool_decide as Hb; [done|]. simpl.
    destruct (parse_op _) as [op|]; [|done]. simpl.
    destruct (json_to_routing_value_proto _) as [rv|] eqn:Hv; [|done]. simpl.
    destruct (project_timeout _ _) as [t|] eqn:Ht; [|done]. intros [= <-]. simpl.
    apply json_to_routing_value_ok in Hv as (k&->&Hk).
    split_and!; [done|by eexists|by exists k|by eapply project_timeout_ok].
  - unfold project_timer_gate_proto.
    destruct (parse_duration _) as [d|] eqn:Hd; [|done]. intros [= <-]. simpl.
    split; [done|by eapply parse_duration_timeout].
Qed.
