(* ===== verification/Builder.v ===== *)
(** * Building a workflow definition

    [parser/builder.rs]: [parse_workflow_from_json_for_tenant] after [serde] has
    read the document, that is the lowering of a [ParsedWorkflow] onto the
    published [WorkflowDefinition], with every check in its place.  Random uuids
    come from the supply [fresh]; the counter of the ids drawn is threaded in the
    order of the calls.  A failing [expect] or an index out of range is the error
    [BuilderPanic], which [build_never_panics] excludes. *)

From S2P Require Import Prelude Workflow Dominators LoopBodies TarjanInvariant Seal Terminability.
From S2P Require Import Duration Json Uuid ParserTypes Identity SignalSources Validators.

Definition DEFAULT_MAX_ATTEMPTS : Z := 3.

Section builder.
Context `{UuidOps Uuid}.
Context (NAMESPACE_OID : Uuid) (jsonpath_ok : string → bool) (fresh : nat → Uuid).

(** [Uuid::new_v4().to_string()] *)
Definition fresh_id (n : nat) : string := uuid_to_string (fresh n).

(** ** Tasks *)

Definition lower_input_source (from : ParsedInputSource) : InputSourceKind :=
  match from with
  | PIS_Task name => InputSource_Task name
  | PIS_Trigger _ => InputSource_Trigger
  | PIS_Signal value =>
      let signal_name :=
        default "" (s ← json_get "signal" value; n ← json_get "name" s; as_str n) in
      InputSource_Signal signal_name (uuid_to_string uuid_nil)
  end.

Definition lower_input (i : ParsedInputBinding) : OptionalInputSource :=
  mkOptionalInputSource
    match i with
    | Bare _ => None
    | Structured _ from => Some (mkInputSource (Some (lower_input_source from)))
    end.

Definition is_structured (i : ParsedInputBinding) : bool :=
  match i with Structured _ _ => true | Bare _ => false end.

Definition lower_emit (e : ParsedSignalEmit) : TaskSignalEmit :=
  mkTaskSignalEmit (Some
    match e with
    | PE_SignalEmit signal var => Emit_OnSuccess (psr_name signal) var
    | PE_SignalEmitOnFailure signal => Emit_OnFailure (psr_name signal)
    end).

Definition task_to_proto (workflow_id : Uuid) (id : string) (task : ParsedTask)
    : result TaskDefinition BuildError :=
  let? nix_expression_path :=
    match pt_nix_expression_path task with
    | Some path => if blank path then Err (MissingNixPath (pt_name task)) else Ok path
    | None => Err (MissingNixPath (pt_name task))
    end in
  let input_sources :=
    if existsb is_structured (pt_inputs task)
    then Some (mkInputSourceList (lower_input <$> pt_inputs task)) else None in
  Ok (mkTaskDefinition id (uuid_to_string workflow_id) (pt_name task)
        (TaskType_i32 TaskType_Regular) nix_expression_path (pt_args task) (pt_outputs task)
        (binding_name <$> pt_inputs task) (pt_secrets task)
        (default DEFAULT_MAX_ATTEMPTS (pt_max_attempts task)) input_sources None
        (lower_emit <$> pt_emits task)
        ((λ rv, mkRoutingVarDecl (prv_name rv) (prv_var_type rv)) <$> pt_routing_vars task) false).

Definition group_to_proto_tasks (group : ParsedTaskGroup) (workflow_id : Uuid) (n : nat)
    : result (list TaskDefinition) BuildError :=
  collect (λ '(i, task), task_to_proto workflow_id (fresh_id (n + i)) task)
    (imap pair (ptg_tasks group)).

Definition set_timeout (t : TaskDefinition) (secs : Z) : TaskDefinition :=
  mkTaskDefinition (task_id t) (task_workflow_id t) (task_name t) (task_type t)
    (task_nix_expression_path t) (task_nix_args t) (task_outputs t) (task_inputs t)
    (task_secrets t) (task_max_attempts t) (task_input_sources t) (Some secs)
    (task_emits t) (task_routing_vars t) (task_loop_participant t).

Definition stamp_timeout (tp : TaskDefinition * ParsedTask) : result TaskDefinition BuildError :=
  match pt_timeout tp.2 with
  | None => Ok tp.1
  | Some raw =>
      let? d := map_err (InvalidTaskTimeout (pt_name tp.2) raw) (parse_duration raw) in
      Ok (set_timeout tp.1 (duration_secs d))
  end.

(** The names that are sources of a [loop] edge of the group. *)
Definition loop_source_names (group : ParsedTaskGroup) : list string :=
  mjoin (pe_sources <$> filter (λ e, pe_kind e = Some "loop") (ptg_edges group)).

Definition set_loop_participant (t : TaskDefinition) : TaskDefinition :=
  mkTaskDefinition (task_id t) (task_workflow_id t) (task_name t) (task_type t)
    (task_nix_expression_path t) (task_nix_args t) (task_outputs t) (task_inputs t)
    (task_secrets t) (task_max_attempts t) (task_input_sources t) (task_timeout_secs t)
    (task_emits t) (task_routing_vars t) true.

Definition stamp_loop (names : list string) (t : TaskDefinition) : TaskDefinition :=
  if bool_decide (task_name t ∈ names) then set_loop_participant t else t.

(** What phase 1 has built: [proto_tasks], [name_to_id], [group_task_ids] and the
    number of ids drawn. *)
Record built := mkBuilt {
  bt_tasks : list TaskDefinition;
  bt_name_to_id : gmap string Uuid;
  bt_group_ids : list (list Uuid);
  bt_next : nat
}.

Definition build_group (workflow_id : Uuid) (b : built) (group : ParsedTaskGroup)
    : result built BuildError :=
  let? tasks := group_to_proto_tasks group workflow_id (bt_next b) in
  let? tasks := collect stamp_timeout (zip tasks (ptg_tasks group)) in
  let tasks := stamp_loop (loop_source_names group) <$> tasks in
  let? task_ids := collect (λ t, ok_or (uuid_parse_str (task_id t)) BuilderPanic) tasks in
  Ok (mkBuilt (bt_tasks b ++ tasks)
        (foldl (λ m ti, <[task_name ti.1 := ti.2]> m) (bt_name_to_id b) (zip tasks task_ids))
        (bt_group_ids b ++ [task_ids]) (bt_next b + length (ptg_tasks group))).

Fixpoint build_groups (workflow_id : Uuid) (b : built) (groups : list ParsedTaskGroup)
    : result built BuildError :=
  match groups with
  | [] => Ok b
  | g :: rest => let? b' := build_group workflow_id b g in build_groups workflow_id b' rest
  end.

(** ** Nodes and edges *)

Definition graph_nodes_of (start_id end_id : string) (tasks : list TaskDefinition) : list GraphNode :=
  mkGraphNode start_id (NodeType_i32 NodeType_Start) ::
  mkGraphNode end_id (NodeType_i32 NodeType_End) ::
  ((λ t, mkGraphNode (task_id t) (NodeType_i32 NodeType_Task)) <$> tasks).

Definition resolve_name (name_to_id : gmap string Uuid) (start_id end_id : Uuid) (name : string)
    : result string BuildError :=
  match name_to_id !! name with
  | Some id => Ok (uuid_to_string id)
  | None =>
      if bool_decide (name = "End") then Ok (uuid_to_string end_id)
      else if bool_decide (name = "Start") then Ok (uuid_to_string start_id)
      else Err (UnknownEdgeTask name)
  end.

(** [task_ids.windows(2)] *)
Fixpoint windows2 {A} (l : list A) : list (A * A) :=
  match l with
  | x :: ((y :: _) as l') => (x, y) :: windows2 l'
  | _ => []
  end.

Definition chain_edges (n : nat) (ids : list Uuid) : list Edge :=
  imap (λ i xy, mkEdge (fresh_id (n + i)) [uuid_to_string xy.1] [uuid_to_string xy.2]
                  (EdgeKind_i32 EdgeKind_Control) []) (windows2 ids).

Definition build_edge (resolve : string → result string BuildError) (workflow_name id : string)
    (edge : ParsedEdge) : result Edge BuildError :=
  let? sources := collect resolve (pe_sources edge) in
  let? targets := collect resolve (pe_targets edge) in
  let? gates := match pe_gate edge with
                | Some g => let? gate := project_gate_proto jsonpath_ok g workflow_name in Ok [gate]
                | None => Ok []
                end in
  Ok (mkEdge id sources targets (EdgeKind_i32 (edge_kind_to_proto (pe_kind edge))) gates).

Definition group_edges (resolve : string → result string BuildError) (workflow_name : string)
    (n : nat) (group : ParsedTaskGroup) (ids : list Uuid) : result (list Edge) BuildError :=
  match ptg_edges group with
  | [] => Ok (chain_edges n ids)
  | es => collect (λ '(i, e), build_edge resolve workflow_name (fresh_id (n + i)) e) (imap pair es)
  end.

Fixpoint all_edges (resolve : string → result string BuildError) (workflow_name : string)
    (n : nat) (groups : list (ParsedTaskGroup * list Uuid)) : result (list Edge) BuildError :=
  match groups with
  | [] => Ok []
  | (g, ids) :: rest =>
      let? es := group_edges resolve workflow_name n g ids in
      let? es' := all_edges resolve workflow_name (n + length es) rest in
      Ok (es ++ es')
  end.

(** ** Signal resolution *)

(** [iter_mut().find(p)] followed by an update of what it found. *)
Fixpoint update_first {A} (p : A → bool) (f : A → A) (l : list A) : list A :=
  match l with
  | [] => []
  | x :: l' => if p x then f x :: l' else x :: update_first p f l'
  end.

Definition set_gate_edge (gate : string) (o : OptionalInputSource) : OptionalInputSource :=
  match o with
  | mkOptionalInputSource (Some (mkInputSource (Some (InputSource_Signal name _)))) =>
      mkOptionalInputSource (Some (mkInputSource (Some (InputSource_Signal name gate))))
  | _ => o
  end.

Definition set_input_sources (t : TaskDefinition) (l : option InputSourceList) : TaskDefinition :=
  mkTaskDefinition (task_id t) (task_workflow_id t) (task_name t) (task_type t)
    (task_nix_expression_path t) (task_nix_args t) (task_outputs t) (task_inputs t)
    (task_secrets t) (task_max_attempts t) l (task_timeout_secs t)
    (task_emits t) (task_routing_vars t) (task_loop_participant t).

Definition patch_slot (slot : nat) (gate : string) (t : TaskDefinition) : TaskDefinition :=
  match task_input_sources t with
  | Some l => set_input_sources t
                (Some (mkInputSourceList (alter (set_gate_edge gate) slot (sources_list l))))
  | None => t
  end.

Definition apply_resolved (tasks : list TaskDefinition) (r : ResolvedSignalSource)
    : list TaskDefinition :=
  update_first (λ t, bool_decide (task_id t = rss_task_id r))
    (patch_slot (rss_slot r) (rss_gate_edge_id r)) tasks.

Definition name_of (tasks : list TaskDefinition) (id : string) : string :=
  match List.find (λ t, bool_decide (task_id t = id)) tasks with
  | Some t => task_name t
  | None => id
  end.

Definition signal_resolution_error (tasks : list TaskDefinition) (e : SignalResolutionError)
    : BuildError :=
  match e with
  | Unresolved tid signal => SignalUnresolved (name_of tasks tid) signal
  | Ambiguous tid signal count => SignalAmbiguous (name_of tasks tid) signal count
  end.

Definition apply_signal_resolution (tasks : list TaskDefinition) (graph : TaskGraph)
    : result (list TaskDefinition) BuildError :=
  let? resolved := map_err (signal_resolution_error tasks)
                     (resolve_signal_input_sources tasks graph) in
  Ok (foldl apply_resolved tasks resolved).

(** ** Predicate gates *)

Definition producers (pw : ParsedWorkflow) : gmap string string :=
  foldl (λ m task, foldl (λ m rv, <[prv_name rv := pt_name task]> m) m (pt_routing_vars task))
    ∅ (all_tasks pw).

Definition check_predicate_source (graph : TaskGraph) (routing_var producer_name producer_id : string)
    (body : option (gset string)) (src : string) : result unit BuildError :=
  if match body with Some b => bool_decide (src ∈ b) | None => false end then Ok ()
  else match validate_task_dominates graph producer_id src with
       | Ok _ => Ok ()
       | Err v => Err (ProducerNotDominating routing_var producer_name (dv_bypass_path v))
       end.

Definition check_predicate_gate (graph : TaskGraph) (loop_bodies : list (gset string))
    (prods : gmap string string) (name_to_id : gmap string Uuid) (edge : Edge) (gate : Gate)
    : result unit BuildError :=
  match gate_kind gate with
  | Some (Gate_PredicateHolds ph) =>
      let routing_var := ph_routing_var ph in
      let? producer_name := ok_or (prods !! routing_var) (NoProducer routing_var) in
      let? producer := ok_or (name_to_id !! producer_name) (ProducerNotInWorkflow producer_name) in
      let producer_id := uuid_to_string producer in
      let body :=
        if bool_decide (routing_var = "loop_control")
        then List.find (λ b, bool_decide (producer_id ∈ b)) loop_bodies else None in
      check_all (check_predicate_source graph routing_var producer_name producer_id body)
        (edge_sources edge)
  | _ => Ok ()
  end.

Definition validate_predicate_gate_dominators_proto (pw : ParsedWorkflow) (graph : TaskGraph)
    (name_to_id : gmap string Uuid) : result unit BuildError :=
  let prods := producers pw in
  let loop_bodies := loop_sccs graph in
  check_all (λ e, check_all (check_predicate_gate graph loop_bodies prods name_to_id e)
                    (edge_gates e)) (graph_edges graph).

(** ** The whole lowering *)

Definition workflow_timeout (pw : ParsedWorkflow) : result (option Z) BuildError :=
  match pw_timeout pw with
  | Some raw =>
      let? d := map_err (InvalidWorkflowTimeout (pw_name pw) raw) (parse_duration raw) in
      Ok (Some (duration_secs d))
  | None => Ok None
  end.

(** Phases 1 and 2: tasks, nodes and edges, before the seal. *)
Definition build_graph (pw : ParsedWorkflow) (workflow_id : Uuid) (n : nat)
    : result (built * TaskGraph * nat) BuildError :=
  let? b := build_groups workflow_id (mkBuilt [] ∅ [] n) (pw_tasks pw) in
  let start_id := fresh (bt_next b) in
  let end_id := fresh (S (bt_next b)) in
  let n1 := S (S (bt_next b)) in
  let nodes := graph_nodes_of (uuid_to_string start_id) (uuid_to_string end_id) (bt_tasks b) in
  let? edges := all_edges (resolve_name (bt_name_to_id b) start_id end_id) (pw_name pw) n1
                  (zip (pw_tasks pw) (bt_group_ids b)) in
  Ok (b, mkTaskGraph nodes edges (uuid_to_string start_id) (uuid_to_string end_id),
      n1 + length edges).

Definition normalize_namespace (namespace : string) : string :=
  if blank namespace then "default" else namespace.

Definition build_workflow (pw : ParsedWorkflow) (tenant : Uuid) (namespace : string) (n : nat)
    : result WorkflowDefinition BuildError :=
  let? _ := validate_definition_tags (pw_tags pw) in
  let? _ := validate_single_producer pw in
  let? _ := validate_emit_co_location pw in
  let namespace := normalize_namespace namespace in
  let? _ := validate_identity_segment namespace "namespace" in
  let? _ := validate_identity_segment (pw_slug pw) "slug" in
  let workflow_id := derive_workflow_id NAMESPACE_OID tenant namespace (pw_slug pw) in
  let? timeout_secs := workflow_timeout pw in
  let? (b, graph, n2) := build_graph pw workflow_id n in
  let sealed := pdg_graph (seal fresh_id (mkPDG (task_id <$> bt_tasks b) graph) n2).1 in
  let? tasks := apply_signal_resolution (bt_tasks b) sealed in
  let? _ := validate_predicate_gate_dominators_proto pw sealed (bt_name_to_id b) in
  let? _ := map_err (NonTerminableLoop (pw_name pw)) (validate_loop_terminability sealed) in
  let? trigger := build_trigger jsonpath_ok pw tasks in
  Ok (mkWorkflowDefinition (uuid_to_string workflow_id) (uuid_to_string tenant) namespace
        (pw_slug pw) (pw_name pw) 0 tasks (Some sealed) (Some trigger)
        (WorkflowStatus_i32 WorkflowStatus_Inactive) (to_proto_capture <$> pw_captures pw)
        timeout_secs (pw_tags pw)).

(** [parse_workflow_from_json_for_tenant]; reading the document is [serde_json]'s. *)
Definition parse_workflow_from_json_for_tenant (from_str : string → option ParsedWorkflow)
    (json : string) (tenant : Uuid) (namespace : string) (n : nat)
    : option (result WorkflowDefinition BuildError) :=
  (λ pw, build_workflow pw tenant namespace n) <$> from_str json.
End builder.
