(* ===== verification/BuilderFacts.v ===== *)
(** * What a registered workflow definition satisfies

    Facts about [Builder.build_workflow]: it never panics; the graph of an
    accepted definition is closed and sealed, its loops are terminable, its
    predicate gates are dominated by their producers, its signal inputs are
    bound to the one gate that dominates them, and its identity is the one
    derived from tenant, namespace and slug. *)

From S2P Require Import Prelude Workflow Dominators LoopBodies TarjanInvariant Seal Terminability.
From S2P Require Import Duration Json Uuid ParserTypes Identity SignalSources Validators Builder.

Section facts.
Context `{UuidOps Uuid}.
Context (NAMESPACE_OID : Uuid) (jsonpath_ok : string → bool) (fresh : nat → Uuid).

(** ** The steps of an accepted build *)

Lemma build_workflow_inv pw tenant ns n def :
  build_workflow NAMESPACE_OID jsonpath_ok fresh pw tenant ns n = Ok def →
  let ns' := normalize_namespace ns in
  let wid := derive_workflow_id NAMESPACE_OID tenant ns' (pw_slug pw) in
  ∃ timeout b graph n2 trigger,
    let sealed := pdg_graph (seal (fresh_id fresh) (mkPDG (task_id <$> bt_tasks b) graph) n2).1 in
    validate_definition_tags (pw_tags pw) = Ok () ∧
    validate_single_producer pw = Ok () ∧
    validate_emit_co_location pw = Ok () ∧
    valid_segment ns' = true ∧ valid_segment (pw_slug pw) = true ∧
    workflow_timeout pw = Ok timeout ∧
    build_graph jsonpath_ok fresh pw wid n = Ok (b, graph, n2) ∧
    apply_signal_resolution (bt_tasks b) sealed = Ok (def_tasks def) ∧
    validate_predicate_gate_dominators_proto pw sealed (bt_name_to_id b) = Ok () ∧
    validate_loop_terminability sealed = Ok () ∧
    build_trigger jsonpath_ok pw (def_tasks def) = Ok trigger ∧
    def = mkWorkflowDefinition (uuid_to_string wid) (uuid_to_string tenant) ns' (pw_slug pw)
            (pw_name pw) 0 (def_tasks def) (Some sealed) (Some trigger)
            (WorkflowStatus_i32 WorkflowStatus_Inactive) (to_proto_capture <$> pw_captures pw)
            timeout (pw_tags pw).
Proof.
  unfold build_workflow, validate_identity_segment. cbv zeta.
  destruct (validate_definition_tags _) as [[]|] eqn:?; [|done].
  destruct (validate_single_producer _) as [[]|] eqn:?; [|done].
  destruct (validate_emit_co_location _) as [[]|] eqn:?; [|done].
  destruct (valid_segment (normalize_namespace ns)) eqn:?; [|done].
  destruct (valid_segment (pw_slug pw)) eqn:?; [|done].
  destruct (workflow_timeout _) as [timeout|] eqn:?; [|done].
  destruct (build_graph _ _ _ _ _) as [[[b graph] n2]|] eqn:?; [|done].
  destruct (apply_signal_resolution _ _) as [tasks|] eqn:?; [|done].
  destruct (validate_predicate_gate_dominators_proto _ _ _) as [[]|] eqn:?; [|done].
  destruct (validate_loop_terminability _) as [[]|] eqn:?; [|done]. simpl.
  destruct (build_trigger _ _ _) as [trigger|] eqn:?; [|done].
  intros [= <-]. exists timeout, b, graph, n2, trigger. by split_and!.
Qed.

(** ** Tasks and their ids *)

Lemma task_to_proto_id wid id task t : task_to_proto wid id task = Ok t → task_id t = id.
Proof.
  unfold task_to_proto. destruct (pt_nix_expression_path task) as [path|]; [|done].
  destruct (blank path); [done|]. by intros [= <-].
Qed.

Lemma stamp_timeout_id tp t : stamp_timeout tp = Ok t → task_id t = task_id tp.1.
Proof.
  unfold stamp_timeout. destruct (pt_timeout tp.2) as [raw|]; [|by intros [= <-]].
  destruct (parse_duration raw); [|done]. by intros [= <-].
Qed.

Lemma stamp_loop_id names t : task_id (stamp_loop names t) = task_id t.
Proof. unfold stamp_loop. by case_bool_decide. Qed.

Lemma group_tasks_ids group wid n tasks :
  group_to_proto_tasks fresh group wid n = Ok tasks →
  task_id <$> tasks = fresh_id fresh <$> seq n (length (ptg_tasks group)).
Proof.
  unfold group_to_proto_tasks. intros Hc%collect_ok.
  apply list_eq. intros i. rewrite !list_lookup_fmap.
  destruct (decide (i < length (ptg_tasks group))) as [Hi|Hi].
  - rewrite lookup_seq_lt by done.
    destruct (lookup_lt_is_Some_2 _ _ Hi) as [task Ht].
    assert (imap pair (ptg_tasks group) !! i = Some (i, task)) as Hp
      by by rewrite list_lookup_imap, Ht.
    destruct (Forall2_lookup_l _ _ _ _ _ Hc Hp) as (t&->&Hok). simpl.
    by apply task_to_proto_id in Hok as ->.
  - rewrite lookup_seq_ge by lia. rewrite lookup_ge_None_2; [done|].
    apply Forall2_length in Hc. rewrite length_imap in Hc. lia.
Qed.

Lemma stamp_timeouts_ids tasks ptasks tasks' :
  length tasks = length ptasks →
  collect stamp_timeout (zip tasks ptasks) = Ok tasks' → task_id <$> tasks' = task_id <$> tasks.
Proof.
  intros Hlen Hc%collect_ok. revert ptasks Hlen tasks' Hc.
  induction tasks as [|t tasks IH]; intros [|p ptasks] Hlen tasks' Hc; simplify_eq/=.
  - by inversion Hc.
  - inversion Hc as [|? t' ? ts' Ht Hts]; subst. csimpl.
    f_equal; [by apply stamp_timeout_id in Ht|by eapply IH].
Qed.

Section with_laws.
Context `{!UuidLaws Uuid}.

Lemma parse_ids tasks l :
  task_id <$> tasks = fresh_id fresh <$> l →
  collect (λ t, ok_or (uuid_parse_str (task_id t)) BuilderPanic) tasks = Ok (fresh <$> l).
Proof.
  revert l; induction tasks as [|t tasks IH]; intros [|k l] Heq; simplify_eq/=; [done|].
  unfold fresh_id in *. rewrite H0, uuid_parse_to_string. simpl. by rewrite (IH l).
Qed.

(** What phase 1 keeps: the ids of the tasks are the next ids of the supply, and
    every id it remembers is the id of a task. *)
Record built_inv (n0 : nat) (b : built) : Prop := {
  bi_next : bt_next b = n0 + length (bt_tasks b);
  bi_ids : task_id <$> bt_tasks b = fresh_id fresh <$> seq n0 (length (bt_tasks b));
  bi_names name u : bt_name_to_id b !! name = Some u →
    ∃ t, t ∈ bt_tasks b ∧ task_name t = name ∧ task_id t = uuid_to_string u;
  bi_groups ids u : ids ∈ bt_group_ids b → u ∈ ids → uuid_to_string u ∈ task_id <$> bt_tasks b
}.

Lemma foldl_insert_names (l : list (TaskDefinition * Uuid)) (m : gmap string Uuid) name u :
  foldl (λ m ti, <[task_name ti.1 := ti.2]> m) m l !! name = Some u →
  m !! name = Some u ∨ ∃ t, (t, u) ∈ l ∧ task_name t = name.
Proof.
  revert m; induction l as [|[t v] l IH]; intros m; csimpl; [by left|].
  intros [Hm|(t'&?&?)]%IH; [|right; exists t'; split; [by right|done]].
  apply lookup_insert_Some in Hm as [[<- ->]|[_ ?]]; [right|by left].
  exists t. split; [left|done].
Qed.

Lemma zip_ids tasks l t u :
  task_id <$> tasks = fresh_id fresh <$> l → (t, u) ∈ zip tasks (fresh <$> l) →
  t ∈ tasks ∧ task_id t = uuid_to_string u.
Proof.
  revert l; induction tasks as [|t' tasks IH]; intros [|k l] Heq; simplify_eq/=;
    [by intros ?%elem_of_nil..|].
  intros [[= -> ->]|Hin]%elem_of_cons; [split; [left|done]|].
  destruct (IH l) as [??]; [done..|]. split; [by right|done].
Qed.

Lemma build_group_eq wid b group tasks1 tasks2 :
  group_to_proto_tasks fresh group wid (bt_next b) = Ok tasks1 →
  collect stamp_timeout (zip tasks1 (ptg_tasks group)) = Ok tasks2 →
  let tasks := stamp_loop (loop_source_names group) <$> tasks2 in
  let k := length (ptg_tasks group) in
  length tasks = k ∧ task_id <$> tasks = fresh_id fresh <$> seq (bt_next b) k ∧
  build_group fresh wid b group =
    Ok (mkBuilt (bt_tasks b ++ tasks)
          (foldl (λ m ti, <[task_name ti.1 := ti.2]> m) (bt_name_to_id b)
             (zip tasks (fresh <$> seq (bt_next b) k)))
          (bt_group_ids b ++ [fresh <$> seq (bt_next b) k]) (bt_next b + k)).
Proof.
  intros H1 H2. cbv zeta. pose proof (group_tasks_ids _ _ _ _ H1) as Hids1.
  assert (length tasks1 = length (ptg_tasks group)) as Hlen1.
  { apply (f_equal length) in Hids1. by rewrite !length_fmap, length_seq in Hids1. }
  pose proof (stamp_timeouts_ids _ _ _ Hlen1 H2) as Hids2.
  assert (task_id <$> (stamp_loop (loop_source_names group) <$> tasks2) =
          fresh_id fresh <$> seq (bt_next b) (length (ptg_tasks group))) as Hids.
  { rewrite <-Hids1, <-Hids2, <-list_fmap_compose. apply list_fmap_ext. intros i t _.
    apply stamp_loop_id. }
  split_and!; [|done|].
  - apply (f_equal length) in Hids. by rewrite !length_fmap, length_seq in Hids; rewrite length_fmap.
  - unfold build_group. rewrite H1, H2. by rewrite (parse_ids _ _ Hids).
Qed.

Lemma build_group_inv n0 wid b group b' :
  built_inv n0 b → build_group fresh wid b group = Ok b' → built_inv n0 b'.
Proof.
  intros [Hn Hi Hnm Hg] Hb.
  destruct (group_to_proto_tasks fresh group wid (bt_next b)) as [tasks1|] eqn:H1;
    [|unfold build_group in Hb; by rewrite H1 in Hb].
  destruct (collect stamp_timeout (zip tasks1 (ptg_tasks group))) as [tasks2|] eqn:H2;
    [|unfold build_group in Hb; by rewrite H1, H2 in Hb].
  destruct (build_group_eq wid b group tasks1 tasks2 H1 H2) as (Hlen&Hids&Heq).
  rewrite Heq in Hb. injection Hb as <-. clear Heq H1 H2.
  set (tasks := stamp_loop _ <$> tasks2) in *. set (k := length (ptg_tasks group)) in *.
  assert (∀ u, u ∈ fresh <$> seq (bt_next b) k →
               uuid_to_string u ∈ task_id <$> (bt_tasks b ++ tasks)) as Hnew.
  { intros u (i&->&Hin)%list_elem_of_fmap. rewrite fmap_app, Hids.
    apply elem_of_app. right. by apply (list_elem_of_fmap_2 (fresh_id fresh)). }
  split; simpl.
  - rewrite length_app. lia.
  - by rewrite fmap_app, length_app, seq_app, fmap_app, <-Hi, Hids, Hlen, Hn.
  - intros name u [(t&?&?&?)%Hnm|(t&Hin&Hname)]%foldl_insert_names; exists t.
    + split_and!; [apply elem_of_app; by left|done..].
    + apply (zip_ids _ _ _ _ Hids) in Hin as [??]. split_and!; [apply elem_of_app; by right|done..].
  - intros ids u [Hin|Hin%list_elem_of_singleton]%elem_of_app Hu; [|subst; by apply Hnew].
    rewrite fmap_app. apply elem_of_app. left. by eapply Hg.
Qed.

Lemma build_groups_inv n0 wid groups b b' :
  built_inv n0 b → build_groups fresh wid b groups = Ok b' → built_inv n0 b'.
Proof.
  revert b; induction groups as [|g groups IH]; intros b Hb; simpl; [by intros [= <-]|].
  destruct (build_group _ _ _ _) as [b1|] eqn:H1; [|done].
  apply IH. by eapply build_group_inv.
Qed.

(** ** The graph is closed *)

(** Every endpoint of the edge is the id of a node. *)
Definition closed_edge (ids : list string) (e : Edge) : Prop :=
  (∀ s, s ∈ edge_sources e → s ∈ ids) ∧ (∀ t, t ∈ edge_targets e → t ∈ ids).

Definition id_drawn (e : Edge) : Prop := ∃ k, edge_id e = fresh_id fresh k.

Lemma build_edge_closed resolve wname id e e' ids :
  (∀ name s, resolve name = Ok s → s ∈ ids) →
  build_edge jsonpath_ok resolve wname id e = Ok e' →
  closed_edge ids e' ∧ edge_id e' = id ∧ Forall (gate_ok jsonpath_ok) (edge_gates e').
Proof.
  intros Hres. unfold build_edge.
  destruct (collect resolve (pe_sources e)) as [ss|] eqn:Hs; [|done].
  destruct (collect resolve (pe_targets e)) as [ts|] eqn:Ht; [|done].
  apply collect_ok in Hs, Ht.
  assert (∀ l l', Forall2 (λ x y, resolve x = Ok y) l l' → ∀ s, s ∈ l' → s ∈ ids) as Hin.
  { intros l l' Hl s [i Hi]%list_elem_of_lookup.
    destruct (Forall2_lookup_r _ _ _ _ _ Hl Hi) as (x&_&?). eauto. }
  assert (closed_edge ids (mkEdge id ss ts 0 [])) as [Hss Hts].
  { split; simpl; eauto. }
  destruct (pe_gate e) as [g|]; simpl.
  - destruct (project_gate_proto _ _ _) as [gate|] eqn:Hg; [|done]. intros [= <-].
    split_and!; [done..|]. apply Forall_singleton. by eapply project_gate_ok.
  - intros [= <-]. by split_and!.
Qed.

Lemma windows2_elem {A} (l : list A) x y : (x, y) ∈ windows2 l → x ∈ l ∧ y ∈ l.
Proof.
  induction l as [|a [|b l] IH]; simpl; [by intros ?%elem_of_nil..|].
  intros [[= <- <-]|Hin]%elem_of_cons; [set_solver|]. apply IH in Hin. set_solver.
Qed.

Lemma group_edges_closed resolve wname n group gids es ids :
  (∀ name s, resolve name = Ok s → s ∈ ids) →
  (∀ u, u ∈ gids → uuid_to_string u ∈ ids) →
  group_edges jsonpath_ok fresh resolve wname n group gids = Ok es →
  Forall (λ e, closed_edge ids e ∧ id_drawn e ∧ Forall (gate_ok jsonpath_ok) (edge_gates e)) es.
Proof.
  intros Hres Hgids. unfold group_edges.
  destruct (ptg_edges group) as [|pe pes].
  - intros [= <-]. apply Forall_forall. intros e He.
    apply elem_of_lookup_imap in He as (i&[x y]&->&Hw).
    apply list_elem_of_lookup_2, windows2_elem in Hw as [Hx Hy].
    split; [split; intros s ->%list_elem_of_singleton; auto|].
    split; [by eexists|by apply Forall_nil].
  - intros Hc%collect_ok. apply Forall_forall. intros e [i Hi]%list_elem_of_lookup.
    destruct (Forall2_lookup_r _ _ _ _ _ Hc Hi) as ([j pe']&_&Hok).
    destruct (build_edge_closed _ _ _ _ _ _ Hres Hok) as (?&?&?).
    split_and!; [done|by eexists|done].
Qed.

Lemma all_edges_closed resolve wname n groups es ids :
  (∀ name s, resolve name = Ok s → s ∈ ids) →
  (∀ gids u, gids ∈ groups.*2 → u ∈ gids → uuid_to_string u ∈ ids) →
  all_edges jsonpath_ok fresh resolve wname n groups = Ok es →
  Forall (λ e, closed_edge ids e ∧ id_drawn e ∧ Forall (gate_ok jsonpath_ok) (edge_gates e)) es.
Proof.
  intros Hres. revert n es. induction groups as [|[g gids] groups IH]; intros n es Hg; simpl.
  { intros [= <-]. by apply Forall_nil. }
  destruct (group_edges _ _ _ _ _ _ _) as [es1|] eqn:H1; [|done].
  destruct (all_edges _ _ _ _ _ _) as [es2|] eqn:H2; [|done]. intros [= <-].
  apply Forall_app. split.
  - eapply group_edges_closed; [done| |done]. intros u Hu. eapply Hg; [|done]. csimpl. left.
  - eapply IH; [|done]. intros. eapply Hg; [|done]. csimpl. by right.
Qed.

(** The shape of the graph before the seal. *)
Record graph_inv (b : built (Uuid:=Uuid)) (graph : TaskGraph) : Prop := {
  gi_start : ∃ k, k = bt_next b ∧ graph_start graph = fresh_id fresh k ∧
                  graph_end graph = fresh_id fresh (S k);
  gi_nodes : node_id <$> graph_nodes graph =
             graph_start graph :: graph_end graph :: (task_id <$> bt_tasks b);
  gi_edges : Forall (λ e, closed_edge (node_id <$> graph_nodes graph) e ∧ id_drawn e ∧
                          Forall (gate_ok jsonpath_ok) (edge_gates e)) (graph_edges graph)
}.

Lemma resolve_name_in names start_id end_id (ids : list string) name s :
  (∀ name u, names !! name = Some u → uuid_to_string u ∈ ids) →
  uuid_to_string start_id ∈ ids → uuid_to_string end_id ∈ ids →
  resolve_name names start_id end_id name = Ok s → s ∈ ids.
Proof.
  intros Hnames Hs He. unfold resolve_name. destruct (names !! name) as [u|] eqn:Hn.
  - intros [= <-]. eauto.
  - repeat case_bool_decide; by intros [= <-].
Qed.

Lemma build_graph_inv pw wid n b graph n2 :
  build_graph jsonpath_ok fresh pw wid n = Ok (b, graph, n2) →
  built_inv n b ∧ graph_inv b graph.
Proof.
  unfold build_graph. destruct (build_groups _ _ _ _) as [b'|] eqn:Hb; [|done].
  apply (build_groups_inv n) in Hb; [|split; simpl; [lia|done|done|by intros ?? ?%elem_of_nil]].
  destruct (all_edges _ _ _ _ _ _) as [es|] eqn:He; [|done]. intros [= <- <- <-].
  split; [done|]. assert (node_id <$> graph_nodes_of (uuid_to_string (fresh (bt_next b')))
      (uuid_to_string (fresh (S (bt_next b')))) (bt_tasks b') =
    fresh_id fresh (bt_next b') :: fresh_id fresh (S (bt_next b')) :: (task_id <$> bt_tasks b'))
    as Hnodes.
  { unfold graph_nodes_of. csimpl. do 2 f_equal. by rewrite <-list_fmap_compose. }
  split; cbn [graph_start graph_end graph_nodes graph_edges]; [by eexists|done|].
  rewrite Hnodes. eapply all_edges_closed; [| |done].
  - intros name s. apply resolve_name_in; [|left|right; left].
    intros name' u (t&Ht&_&<-)%(bi_names _ _ Hb). do 2 right. by apply list_elem_of_fmap_2.
  - intros gids u Hg Hu. do 2 right. apply (bi_groups _ _ Hb gids); [|done].
    apply list_elem_of_fmap in Hg as ([g ids]&->&Hz). by eapply elem_of_zip_r.
Qed.

Lemma node_ids_nodup n b graph :
  (∀ i j, fresh i = fresh j → i = j) → built_inv n b → graph_inv b graph →
  NoDup (node_id <$> graph_nodes graph).
Proof.
  intros Hinj Hb [(k&->&Hs&He) -> _]. rewrite Hs, He, (bi_ids _ _ Hb), (bi_next _ _ Hb).
  assert (Inj eq eq (fresh_id fresh)) as Hfinj.
  { intros i j Hij. by apply Hinj, uuid_to_string_inj. }
  set (len := length (bt_tasks b)).
  change (NoDup (fresh_id fresh <$> (n + len :: S (n + len) :: seq n len))).
  apply NoDup_fmap_2; [done|]. rewrite !NoDup_cons, elem_of_cons, !elem_of_seq.
  split_and!; [lia|lia|apply NoDup_seq].
Qed.

(** ** Signal inputs *)

Lemma update_first_unique {A} (p : A → bool) (f : A → A) (l : list A) (g : A → string) :
  NoDup (g <$> l) → (∀ x y, p x = true → p y = true → g x = g y) →
  update_first p f l = (λ x, if p x then f x else x) <$> l.
Proof.
  intros Hnd Hp. induction l as [|x l IH]; csimpl; [done|].
  csimpl in Hnd. apply NoDup_cons in Hnd as [Hx Hnd]. destruct (p x) eqn:Hpx.
  - f_equal. rewrite <-(list_fmap_id l) at 1. apply list_fmap_ext. intros i y Hy. simpl.
    destruct (p y) eqn:Hpy; [|done]. exfalso. apply Hx. rewrite (Hp x y) by done.
    apply list_elem_of_fmap_2. by eapply list_elem_of_lookup_2.
  - f_equal. by apply IH.
Qed.

Definition patch_task (t : TaskDefinition) (r : ResolvedSignalSource) : TaskDefinition :=
  if bool_decide (task_id t = rss_task_id r)
  then patch_slot (rss_slot r) (rss_gate_edge_id r) t else t.

Lemma patch_slot_id slot gate t : task_id (patch_slot slot gate t) = task_id t.
Proof. unfold patch_slot. by destruct (task_input_sources t). Qed.

Lemma patch_task_id t r : task_id (patch_task t r) = task_id t.
Proof. unfold patch_task. case_bool_decide; [apply patch_slot_id|done]. Qed.

Lemma apply_resolved_map tasks r :
  NoDup (task_id <$> tasks) → apply_resolved tasks r = (λ t, patch_task t r) <$> tasks.
Proof.
  intros Hnd. unfold apply_resolved, patch_task.
  rewrite (update_first_unique _ _ _ task_id); [done|done|].
  intros x y ->%bool_decide_eq_true ->%bool_decide_eq_true. done.
Qed.

Lemma apply_all_map tasks rs :
  NoDup (task_id <$> tasks) →
  foldl apply_resolved tasks rs = (λ t, foldl patch_task t rs) <$> tasks.
Proof.
  revert tasks; induction rs as [|r rs IH]; intros tasks Hnd; simpl.
  { by rewrite list_fmap_id. }
  rewrite apply_resolved_map by done. rewrite IH, <-list_fmap_compose; [done|].
  rewrite <-list_fmap_compose. erewrite list_fmap_ext; [done|].
  intros i t _. apply patch_task_id.
Qed.

Lemma patch_all_id t rs : task_id (foldl patch_task t rs) = task_id t.
Proof.
  revert t; induction rs as [|r rs IH]; intros t; simpl; [done|].
  by rewrite IH, patch_task_id.
Qed.

(** The input source of a task at a slot. *)
Definition slot_of (t : TaskDefinition) (slot : nat) : option OptionalInputSource :=
  l ← task_input_sources t; sources_list l !! slot.

Definition signal_source (name gate : string) : OptionalInputSource :=
  mkOptionalInputSource (Some (mkInputSource (Some (InputSource_Signal name gate)))).

Lemma slot_patch_slot slot gate t slot' :
  slot_of (patch_slot slot gate t) slot' =
  if decide (slot = slot') then set_gate_edge gate <$> slot_of t slot' else slot_of t slot'.
Proof.
  unfold slot_of, patch_slot. destruct (task_input_sources t) as [l|] eqn:Hl; simpl.
  - case_decide as Heq; [subst; apply list_lookup_alter_eq|by apply list_lookup_alter_ne].
  - rewrite Hl. by case_decide.
Qed.

Lemma set_gate_edge_idemp g o : set_gate_edge g (set_gate_edge g o) = set_gate_edge g o.
Proof. by destruct o as [[[[[]|]]|]]. Qed.

(** The patch is for this slot of this task. *)
Definition patches (r : ResolvedSignalSource) (tid : string) (slot : nat) : Prop :=
  rss_task_id r = tid ∧ rss_slot r = slot.

Lemma slot_patch_task t r slot o :
  slot_of t slot = Some o →
  (patches r (task_id t) slot ∧
   slot_of (patch_task t r) slot = Some (set_gate_edge (rss_gate_edge_id r) o)) ∨
  (¬ patches r (task_id t) slot ∧ slot_of (patch_task t r) slot = Some o).
Proof.
  intros Ho. unfold patch_task, patches. case_bool_decide as Hid; [|right; naive_solver].
  rewrite slot_patch_slot. case_decide; [left|right; naive_solver]. by rewrite Ho.
Qed.

(** When the patches for a slot agree on the gate, they leave that gate. *)
Lemma slot_patch_all t rs slot eid o :
  (∀ r, r ∈ rs → patches r (task_id t) slot → rss_gate_edge_id r = eid) →
  slot_of t slot = Some o →
  set_gate_edge eid o = o ∨ (∃ r, r ∈ rs ∧ patches r (task_id t) slot) →
  slot_of (foldl patch_task t rs) slot = Some (set_gate_edge eid o).
Proof.
  revert t o; induction rs as [|r rs IH]; intros t o Hall Ho Hhit; simpl.
  { destruct Hhit as [->|(r&?%elem_of_nil&_)]; done. }
  assert (∀ r', r' ∈ rs → patches r' (task_id (patch_task t r)) slot → rss_gate_edge_id r' = eid)
    as Hall'.
  { rewrite patch_task_id. intros. apply Hall; [by right|done]. }
  destruct (slot_patch_task t r slot o Ho) as [[Hp Hs]|[Hp Hs]].
  - rewrite (Hall r) in Hs; [|left|done]. rewrite <-(set_gate_edge_idemp eid o).
    apply IH; [done..|left]. apply set_gate_edge_idemp.
  - apply IH; [done..|]. rewrite patch_task_id. destruct Hhit as [?|(r'&Hr'&?)]; [by left|right].
    apply elem_of_cons in Hr' as [->|?]; [done|eauto].
Qed.

(** Every signal input of the lowered tasks waits for resolution. *)
Definition signals_pending (t : TaskDefinition) : Prop :=
  ∀ slot name gate, slot_of t slot = Some (signal_source name gate) →
                    gate = uuid_to_string uuid_nil.

Lemma pending_signal_slot t slot name :
  signals_pending t → (∃ gate, slot_of t slot = Some (signal_source name gate)) →
  pending_slot t slot name.
Proof.
  intros Hp [gate Hs]. pose proof (Hp _ _ _ Hs) as ->. unfold slot_of in Hs.
  destruct (task_input_sources t) as [l|] eqn:Hl; [|done]. exists l, (uuid_to_string uuid_nil).
  split_and!; [done..|]. unfold is_unresolved. rewrite uuid_parse_to_string.
  by apply bool_decide_eq_true.
Qed.

Lemma slot_patch_none t rs slot :
  slot_of t slot = None → slot_of (foldl patch_task t rs) slot = None.
Proof.
  revert t; induction rs as [|r rs IH]; intros t Ht; simpl; [done|]. apply IH.
  unfold patch_task. case_bool_decide; [|done]. rewrite slot_patch_slot, Ht. by case_decide.
Qed.

Lemma pending_slot_signal t slot name :
  pending_slot t slot name → ∃ gate, slot_of t slot = Some (signal_source name gate).
Proof. intros (l&gate&Hl&Hs&_). exists gate. unfold slot_of. by rewrite Hl. Qed.

Lemma unique_task tasks t t' :
  NoDup (task_id <$> tasks) → t ∈ tasks → t' ∈ tasks → task_id t = task_id t' → t = t'.
Proof.
  intros Hnd [i Hi]%list_elem_of_lookup [j Hj]%list_elem_of_lookup Heq.
  assert (i = j) as ->; [|congruence].
  eapply NoDup_lookup; [exact Hnd|rewrite list_lookup_fmap, Hi; done|].
  rewrite list_lookup_fmap, Hj. simpl. by rewrite Heq.
Qed.

(** The patches for a slot of a task are those its resolution produced. *)
Lemma patch_origin tasks graph rs t r slot :
  NoDup (task_id <$> tasks) → resolve_signal_input_sources tasks graph = Ok rs →
  t ∈ tasks → r ∈ rs → patches r (task_id t) slot →
  ∃ name gate, slot_of t slot = Some (signal_source name gate) ∧
               only_gate graph (task_id t) name (rss_gate_edge_id r).
Proof.
  intros Hnd Hr Ht Hin [Hid Hslot].
  apply (resolve_tasks_elem _ _ _ Hr) in Hin as (t'&slot'&name&eid&Ht'&Hp&Hg&->).
  simpl in *. subst slot'. assert (t' = t) as -> by by eapply unique_task.
  apply pending_slot_signal in Hp as [gate ?]. eauto.
Qed.

Lemma apply_signal_resolution_ok tasks graph tasks' :
  NoDup (task_id <$> tasks) → Forall signals_pending tasks →
  apply_signal_resolution tasks graph = Ok tasks' →
  task_id <$> tasks' = task_id <$> tasks ∧
  ∀ t slot name gate, t ∈ tasks' → slot_of t slot = Some (signal_source name gate) →
                      only_gate graph (task_id t) name gate.
Proof.
  intros Hnd Hpend. unfold apply_signal_resolution.
  destruct (resolve_signal_input_sources tasks graph) as [rs|] eqn:Hr; [|done]. simpl.
  intros [= <-]. rewrite apply_all_map by done. split.
  { rewrite <-list_fmap_compose. apply list_fmap_ext. intros i t _. apply patch_all_id. }
  pose proof (resolve_tasks_elem _ _ _ Hr) as Hrs.
  intros t' slot name gate (t&->&Ht)%list_elem_of_fmap Hs. rewrite patch_all_id.
  destruct (slot_of t slot) as [o|] eqn:Ho; [|by rewrite slot_patch_none in Hs].
  assert ((∃ nm g, o = signal_source nm g) ∨ ∀ g, set_gate_edge g o = o) as [(nm&g&->)|Hother].
  { destruct o as [[[[[| |nm g]|]]|]]; eauto. }
  - rewrite Forall_forall in Hpend.
    assert (pending_slot t slot nm) as Hps by (apply pending_signal_slot; eauto).
    destruct (proj1 (resolve_signal_sources_ok tasks graph) (ex_intro _ _ Hr) t slot nm Ht Hps)
      as [eid Hg].
    rewrite (slot_patch_all t rs slot eid (signal_source nm g)) in Hs; [|..|done|].
    + by injection Hs as <- <-.
    + intros r Hin Hp. destruct (patch_origin _ _ _ _ _ _ Hnd Hr Ht Hin Hp) as (nm'&g'&Ho'&Hg').
      rewrite Ho in Ho'. injection Ho' as <- <-. apply only_gate_iff in Hg, Hg'. congruence.
    + right. exists (mkResolvedSignalSource (task_id t) slot eid). split; [|done].
      apply Hrs. eauto 10.
  - exfalso. rewrite (slot_patch_all t rs slot "" o) in Hs; [|..|done|by left].
    + rewrite Hother in Hs. injection Hs as ->. pose proof (Hother ""). specialize (Hother "x"). simpl in *. congruence.
    + intros r Hin Hp. destruct (patch_origin _ _ _ _ _ _ Hnd Hr Ht Hin Hp) as (nm'&g'&Ho'&_).
      rewrite Ho in Ho'. injection Ho' as ->. pose proof (Hother ""). specialize (Hother "x"). simpl in *. congruence.
Qed.

(** The lowered tasks before resolution. *)
Lemma task_to_proto_pending wid id task t : task_to_proto wid id task = Ok t → signals_pending t.
Proof.
  unfold task_to_proto. destruct (pt_nix_expression_path task) as [path|]; [|done].
  destruct (blank path); [done|]. intros [= <-] slot name gate. unfold slot_of. simpl.
  destruct (existsb _ _); [|done]. simpl. rewrite list_lookup_fmap.
  unfold signal_source. intros ([nm|nm [|v|v]]&Hi&Heq)%fmap_Some; [done..|].
  by injection Heq.
Qed.

Lemma signals_pending_ext t t' :
  task_input_sources t = task_input_sources t' → signals_pending t → signals_pending t'.
Proof. unfold signals_pending, slot_of. intros ->. done. Qed.

Lemma stamp_timeout_pending tp t :
  stamp_timeout tp = Ok t → signals_pending tp.1 → signals_pending t.
Proof.
  unfold stamp_timeout. destruct (pt_timeout tp.2) as [raw|]; [|by intros [= <-]].
  destruct (parse_duration raw); [|done]. intros [= <-]. by apply signals_pending_ext.
Qed.

Lemma stamp_loop_pending names t : signals_pending t → signals_pending (stamp_loop names t).
Proof. unfold stamp_loop. case_bool_decide; [by apply signals_pending_ext|done]. Qed.

Lemma collect_Forall {A B E} (f : A → result B E) (P : A → Prop) (Q : B → Prop) l ys :
  (∀ x y, f x = Ok y → P x → Q y) → Forall P l → collect f l = Ok ys → Forall Q ys.
Proof.
  intros Hf Hl Hc%collect_ok. induction Hc as [|x y l ys Hx Hc IH]; [by apply Forall_nil|].
  apply Forall_cons in Hl as [??]. apply Forall_cons. eauto.
Qed.

Lemma build_group_pending wid b group b' :
  Forall signals_pending (bt_tasks b) → build_group fresh wid b group = Ok b' →
  Forall signals_pending (bt_tasks b').
Proof.
  intros Hb. unfold build_group.
  destruct (group_to_proto_tasks _ _ _ _) as [tasks1|] eqn:H1; [|done].
  destruct (collect stamp_timeout _) as [tasks2|] eqn:H2; [|done]. cbv zeta.
  destruct (collect (λ t, ok_or _ _) _) as [ids|]; [|done]. intros [= <-]. simpl.
  apply Forall_app. split; [done|]. apply Forall_fmap, (Forall_impl signals_pending).
  - assert (Forall signals_pending tasks1) as Ht1.
    { unfold group_to_proto_tasks in H1. eapply (collect_Forall _ (λ _, True)); [|by apply Forall_true|done].
      intros [i task] t Ht _. by eapply task_to_proto_pending. }
    eapply (collect_Forall _ (λ tp, signals_pending tp.1)); [|clear H2|done].
    + intros tp t. apply stamp_timeout_pending.
    + apply Forall_forall. intros [t p] Hz. rewrite Forall_forall in Ht1. simpl.
      apply Ht1. by eapply elem_of_zip_l.
  - intros t. apply stamp_loop_pending.
Qed.

Lemma build_groups_pending wid groups b b' :
  Forall signals_pending (bt_tasks b) → build_groups fresh wid b groups = Ok b' →
  Forall signals_pending (bt_tasks b').
Proof.
  revert b; induction groups as [|g groups IH]; intros b Hb; simpl; [by intros [= <-]|].
  destruct (build_group _ _ _ _) as [b1|] eqn:H1; [|done].
  apply IH. by eapply build_group_pending.
Qed.

Lemma build_graph_pending pw wid n b graph n2 :
  build_graph jsonpath_ok fresh pw wid n = Ok (b, graph, n2) →
  Forall signals_pending (bt_tasks b).
Proof.
  unfold build_graph. destruct (build_groups _ _ _ _) as [b'|] eqn:Hb; [|done].
  destruct (all_edges _ _ _ _ _ _) as [es|]; [|done]. intros [= <- <- <-].
  eapply build_groups_pending; [|done]. by apply Forall_nil.
Qed.

(** ** No panics *)

Abbreviation no_panic r := (r ≠ Err BuilderPanic).

Lemma project_timeout_no_panic label t : no_panic (project_timeout label t).
Proof.
  unfold project_timeout. destruct t; avoid_err.
Qed.

Lemma project_gate_no_panic g label : no_panic (project_gate_proto jsonpath_ok g label).
Proof.
  destruct g as [g|g|g]; simpl; avoid_err; try apply project_timeout_no_panic.
  destruct (psg_predicate g); avoid_err.
Qed.

Lemma build_edge_no_panic names s e wname id pe :
  no_panic (build_edge jsonpath_ok (resolve_name names s e) wname id pe).
Proof.
  unfold build_edge. assert (∀ name, no_panic (resolve_name names s e name)) as Hr.
  { intros name. unfold resolve_name. repeat case_match; done. }
  avoid_err. destruct (pe_gate pe) as [g|]; [|done].
  apply bind_avoids; [apply project_gate_no_panic|done].
Qed.

Lemma all_edges_no_panic names s e wname n groups :
  no_panic (all_edges jsonpath_ok fresh (resolve_name names s e) wname n groups).
Proof.
  revert n; induction groups as [|[g ids] groups IH]; intros n; simpl; [done|].
  repeat (apply bind_avoids; [|intros ? _]); [|apply IH|done].
  unfold group_edges. destruct (ptg_edges g); [done|].
  apply collect_avoids. intros [i pe]. apply build_edge_no_panic.
Qed.

Lemma build_group_no_panic wid b g : no_panic (build_group fresh wid b g).
Proof.
  destruct (group_to_proto_tasks fresh g wid (bt_next b)) as [tasks1|e1] eqn:H1.
  - destruct (collect stamp_timeout (zip tasks1 (ptg_tasks g))) as [tasks2|e2] eqn:H2.
    + destruct (build_group_eq _ _ _ _ _ H1 H2) as (_&_&->). done.
    + unfold build_group. rewrite H1, H2. intros [= ->]. revert H2.
      apply collect_avoids. intros tp. unfold stamp_timeout. destruct (pt_timeout tp.2); [|done].
      apply bind_avoids; [by apply map_err_avoids|done].
  - unfold build_group. rewrite H1. intros [= ->]. revert H1. apply collect_avoids.
    intros [i task]. unfold task_to_proto. apply bind_avoids; [|done]. repeat case_match; done.
Qed.

Lemma build_graph_no_panic pw wid n : no_panic (build_graph jsonpath_ok fresh pw wid n).
Proof.
  unfold build_graph. apply bind_avoids; [|intros b _].
  - generalize (mkBuilt [] ∅ [] n : built (Uuid:=Uuid)) as b0.
    induction (pw_tasks pw) as [|g gs IH]; intros b; simpl; [done|].
    apply bind_avoids; [apply build_group_no_panic|intros ? _; apply IH].
  - apply bind_avoids; [apply all_edges_no_panic|done].
Qed.

Lemma check_captures_no_panic outputs names l :
  no_panic (check_captures jsonpath_ok outputs names l).
Proof.
  revert names; induction l as [|c l IH]; intros names; simpl; [done|].
  repeat case_match; (done || apply IH).
Qed.

Lemma build_trigger_no_panic pw tasks : no_panic (build_trigger jsonpath_ok pw tasks).
Proof.
  unfold build_trigger. apply bind_avoids; [|done].
  destruct (pw_trigger_on pw) as [[| |signal predicate captures]|]; try done.
  avoid_err; [|apply check_captures_no_panic]. destruct predicate; avoid_err.
Qed.

Lemma predicate_dominators_no_panic pw graph names :
  no_panic (validate_predicate_gate_dominators_proto pw graph names).
Proof.
  apply check_all_avoids. intros e. apply check_all_avoids. intros gt.
  unfold check_predicate_gate. destruct (gate_kind gt) as [[]|]; try done.
  avoid_err. apply check_all_avoids. intros src. unfold check_predicate_source. repeat case_match; done.
Qed.

Lemma build_workflow_no_panic pw tenant ns n :
  no_panic (build_workflow NAMESPACE_OID jsonpath_ok fresh pw tenant ns n).
Proof.
  unfold build_workflow, validate_identity_segment. cbv zeta.
  apply bind_avoids; [unfold validate_definition_tags; by case_bool_decide|intros ? _].
  apply bind_avoids; [unfold validate_single_producer; by case_bool_decide|intros ? _].
  apply bind_avoids; [|intros ? _].
  { do 3 (apply check_all_avoids; intros ?). unfold check_emit. repeat case_match; done. }
  do 2 (apply bind_avoids; [by case_match|intros ? _]).
  apply bind_avoids; [|intros ? _].
  { unfold workflow_timeout. destruct (pw_timeout pw); avoid_err. }
  destruct (build_graph _ _ _ _ _) as [[[b graph] n2]|e] eqn:Hg;
    [|intros [= ->]; by eapply build_graph_no_panic].
  apply bind_avoids; [|intros ? _].
  { unfold apply_signal_resolution. apply bind_avoids; [|done].
    apply map_err_avoids. by intros []. }
  apply bind_avoids; [apply predicate_dominators_no_panic|intros ? _].
  apply bind_avoids; [by apply map_err_avoids|intros ? _].
  apply bind_avoids; [apply build_trigger_no_panic|done].
Qed.

(** ** Predicate gates *)

Lemma producers_declared pw v p : producers pw !! v = Some p → (v, p) ∈ declarations pw.
Proof.
  unfold producers, declarations.
  enough (∀ m : gmap string string, foldl (λ m task, foldl (λ m rv, <[prv_name rv := pt_name task]> m) m
                 (pt_routing_vars task)) m (all_tasks pw) !! v = Some p →
               m !! v = Some p ∨ (v, p) ∈ mjoin ((λ task, (λ rv, (prv_name rv, pt_name task)) <$>
                 pt_routing_vars task) <$> all_tasks pw)) as Hgen.
  { intros [Hm|?]%Hgen; [by rewrite lookup_empty in Hm|done]. }
  induction (all_tasks pw) as [|task l IH]; intros m; csimpl; [by left|].
  intros [Hm|?]%IH; [|right; apply elem_of_app; by right].
  enough (m !! v = Some p ∨ (v, p) ∈ (λ rv, (prv_name rv, pt_name task)) <$> pt_routing_vars task)
    as [?|?]; [by left|right; apply elem_of_app; by left|].
  revert m Hm; clear. induction (pt_routing_vars task) as [|rv rvs IH]; intros m; csimpl; [by left|].
  intros [Hm|?]%IH; [|right; by right].
  apply lookup_insert_Some in Hm as [[<- <-]|[_ ?]]; [right; left|by left].
Qed.

(** The producer of a predicate gate's variable is settled at a source: it is on
    every path there, or both run in one loop body and the variable is the
    reserved loop control. *)
Definition settled_at (graph : TaskGraph) (var producer src : string) : Prop :=
  task_dominates graph producer src ∨
  (var = "loop_control" ∧ ∃ body, loop_body graph body ∧ producer ∈ body ∧ src ∈ body).

Lemma check_predicate_gate_ok pw graph names e gt ph :
  check_predicate_gate graph (loop_sccs graph) (producers pw) names e gt = Ok () →
  gate_kind gt = Some (Gate_PredicateHolds ph) →
  ∃ producer u, (ph_routing_var ph, producer) ∈ declarations pw ∧ names !! producer = Some u ∧
    ∀ src, src ∈ edge_sources e → settled_at graph (ph_routing_var ph) (uuid_to_string u) src.
Proof.
  unfold check_predicate_gate. intros Hok Hk. rewrite Hk in Hok.
  destruct (producers pw !! ph_routing_var ph) as [p|] eqn:Hp; [|done]. simpl in Hok.
  destruct (names !! p) as [u|] eqn:Hu; [|done]. simpl in Hok.
  exists p, u. split_and!; [by apply producers_declared|done|]. intros src Hsrc.
  rewrite check_all_ok in Hok. specialize (Hok src Hsrc). unfold check_predicate_source in Hok.
  destruct (validate_task_dominates graph (uuid_to_string u) src) as [[]|v] eqn:Hdom.
  { left. by apply validate_task_dominates_ok. }
  case_bool_decide as Hvar; [|done]. destruct (List.find _ _) as [body|] eqn:Hf; [|done].
  case_bool_decide as Hin; [|done]. right. split; [done|].
  apply find_some in Hf as [Hb%list_elem_of_In Hpb%bool_decide_eq_true].
  exists body. split_and!; [by apply loop_sccs_spec|done..].
Qed.

Lemma patch_all_name t rs : task_name (foldl patch_task t rs) = task_name t.
Proof.
  revert t; induction rs as [|r rs IH]; intros t; simpl; [done|]. rewrite IH.
  unfold patch_task, patch_slot. case_bool_decide; [|done]. by destruct (task_input_sources t).
Qed.

Lemma resolved_tasks_keep tasks graph tasks' :
  NoDup (task_id <$> tasks) → apply_signal_resolution tasks graph = Ok tasks' →
  ∀ t, t ∈ tasks → ∃ t', t' ∈ tasks' ∧ task_id t' = task_id t ∧ task_name t' = task_name t.
Proof.
  intros Hnd. unfold apply_signal_resolution.
  destruct (resolve_signal_input_sources tasks graph) as [rs|]; [|done]. intros [= <-] t Ht.
  rewrite apply_all_map by done. exists (foldl patch_task t rs).
  split_and!; [by apply (list_elem_of_fmap_2 (λ t, foldl patch_task t rs))|apply patch_all_id|apply patch_all_name].
Qed.

(** ** The sealed graph *)

Lemma sealed_graph_inv b graph n2 :
  graph_inv b graph →
  let sealed := pdg_graph (seal (fresh_id fresh) (mkPDG (task_id <$> bt_tasks b) graph) n2).1 in
  node_id <$> graph_nodes sealed =
    graph_start sealed :: graph_end sealed :: (task_id <$> bt_tasks b) ∧
  Forall (λ e, closed_edge (node_id <$> graph_nodes sealed) e ∧
               Forall (gate_ok jsonpath_ok) (edge_gates e)) (graph_edges sealed).
Proof.
  intros [_ Hnodes Hedges]. cbv zeta.
  destruct (seal_appends (fresh_id fresh) (mkPDG (task_id <$> bt_tasks b) graph) n2) as (es&Hes&->).
  cbn [graph_nodes graph_start graph_end graph_edges pdg_graph pdg_task_ids] in *.
  split; [done|]. apply Forall_app. split.
  - eapply Forall_impl; [done|]. intros e (?&_&?). done.
  - eapply Forall_impl; [exact Hes|]. intros e (_&Hg&t&Ht&Hst). rewrite Hg.
    split; [|by apply Forall_nil]. rewrite Hnodes. cbn [pdg_task_ids pdg_graph] in *.
    unfold closed_edge. destruct Hst as [(->&->&_)|(->&->&_)];
      split; intros x ->%list_elem_of_singleton; set_solver.
Qed.
End with_laws.
End facts.

(** ** The contract of registration *)

(** Building a definition never panics: every freshly minted task id parses. *)
Theorem build_never_panics `{UuidLaws Uuid} NAMESPACE_OID jsonpath_ok fresh pw tenant ns n :
  build_workflow NAMESPACE_OID jsonpath_ok fresh pw tenant ns n ≠ Err BuilderPanic.
Proof. by apply build_workflow_no_panic. Qed.

(** A registered definition passed every ingress check: no reserved tag, at most
    one declaration per routing variable, emits on the task that declares their
    variable, and an identity derived from valid segments. *)
Theorem registered_checks `{UuidOps Uuid} NAMESPACE_OID jsonpath_ok fresh pw tenant ns n def :
  build_workflow NAMESPACE_OID jsonpath_ok fresh pw tenant ns n = Ok def →
  (∀ k, is_Some (def_tags def !! k) → starts_with "tickr/" k = false) ∧
  NoDup (declarations pw).*1 ∧
  (∀ task emit, task ∈ all_tasks pw → emit ∈ pt_emits task → emit_ok task emit) ∧
  valid_segment (def_namespace def) = true ∧ valid_segment (def_slug def) = true ∧
  def_id def = uuid_to_string
    (derive_workflow_id NAMESPACE_OID tenant (def_namespace def) (def_slug def)) ∧
  (∀ secs, def_timeout_secs def = Some secs → (0 < secs < u64_limit)%Z).
Proof.
  intros (timeout&b&graph&n2&trigger&Htags&Hsp&Hemit&Hns&Hslug&Ht&_&_&_&_&_&->)%build_workflow_inv.
  rewrite validate_definition_tags_ok in Htags. apply validate_single_producer_ok in Hsp.
  rewrite validate_emit_co_location_ok in Hemit. simpl. split_and!; try done.
  intros secs ->. unfold workflow_timeout in Ht. destruct (pw_timeout pw) as [raw|]; [|done].
  destruct (parse_duration raw) as [d|] eqn:Hd; [|done]. injection Ht as <-.
  by eapply parse_duration_positive.
Qed.

Lemma registered_parts `{UuidLaws Uuid} NAMESPACE_OID jsonpath_ok fresh pw tenant ns n def :
  (∀ i j, fresh i = fresh j → i = j) →
  build_workflow NAMESPACE_OID jsonpath_ok fresh pw tenant ns n = Ok def →
  ∃ b graph n2,
    let sealed := pdg_graph (seal (fresh_id fresh) (mkPDG (task_id <$> bt_tasks b) graph) n2).1 in
    def_task_graph def = Some sealed ∧
    built_inv fresh n b ∧ graph_inv jsonpath_ok fresh b graph ∧
    NoDup (node_id <$> graph_nodes graph) ∧ NoDup (task_id <$> bt_tasks b) ∧
    Forall signals_pending (bt_tasks b) ∧
    apply_signal_resolution (bt_tasks b) sealed = Ok (def_tasks def) ∧
    validate_predicate_gate_dominators_proto pw sealed (bt_name_to_id b) = Ok () ∧
    validate_loop_terminability sealed = Ok ().
Proof.
  intros Hinj (timeout&b&graph&n2&trigger&_&_&_&_&_&_&Hg&Hres&Hpred&Hloop&_&Hdef)%build_workflow_inv.
  exists b, graph, n2. cbv zeta.
  destruct (build_graph_inv _ _ _ _ _ _ _ _ Hg) as [Hb Hgi].
  pose proof (node_ids_nodup _ _ _ _ _ Hinj Hb Hgi) as Hnd.
  split_and!; try done; [by rewrite Hdef| |by eapply build_graph_pending].
  rewrite (gi_nodes _ _ _ _ Hgi), !NoDup_cons in Hnd. by destruct Hnd as (_&_&?).
Qed.

(** C29: The graph of a registered definition is closed: its nodes are the two
    sentinels and the tasks, without repetition, every endpoint of every edge is
    one of them, and every gate is well formed. *)
Theorem registered_graph_closed `{UuidLaws Uuid} NAMESPACE_OID jsonpath_ok fresh pw tenant ns n def :
  (∀ i j, fresh i = fresh j → i = j) →
  build_workflow NAMESPACE_OID jsonpath_ok fresh pw tenant ns n = Ok def →
  ∃ graph, def_task_graph def = Some graph ∧
    node_id <$> graph_nodes graph =
      graph_start graph :: graph_end graph :: (task_id <$> def_tasks def) ∧
    NoDup (node_id <$> graph_nodes graph) ∧
    Forall (λ e, closed_edge (node_id <$> graph_nodes graph) e ∧
                 Forall (gate_ok jsonpath_ok) (edge_gates e)) (graph_edges graph).
Proof.
  intros Hinj (b&graph&n2&Hdef&_&Hgi&Hnn&Hnd&Hpend&Hres&_)%registered_parts; [|done].
  destruct (sealed_graph_inv _ _ _ _ n2 Hgi) as [Hnodes Hedges].
  eapply apply_signal_resolution_ok in Hres as [Hids _]; [|done..].
  eexists. rewrite Hids. split_and!; [done..| |done].
  by destruct (seal_appends (fresh_id fresh) (mkPDG (task_id <$> bt_tasks b) graph) n2) as (es&_&->).
Qed.

(** Every signal input of a registered definition is bound to the one edge that
    carries its signal and dominates its task, so the signal has arrived on every
    path to the task. *)
Theorem registered_signals_bound `{UuidLaws Uuid} NAMESPACE_OID jsonpath_ok fresh pw tenant ns n def :
  (∀ i j, fresh i = fresh j → i = j) →
  build_workflow NAMESPACE_OID jsonpath_ok fresh pw tenant ns n = Ok def →
  ∃ graph, def_task_graph def = Some graph ∧
    ∀ t slot name gate, t ∈ def_tasks def → slot_of t slot = Some (signal_source name gate) →
                        only_gate graph (task_id t) name gate.
Proof.
  intros Hinj (b&graph&n2&Hdef&_&_&_&Hnd&Hpend&Hres&_)%registered_parts; [|done].
  eapply apply_signal_resolution_ok in Hres as [_ Hg]; [|done..]. eauto.
Qed.

Lemma single_declaration {A B} (l : list (A * B)) a b b' : NoDup l.*1 → (a, b) ∈ l → (a, b') ∈ l → b = b'.
Proof.
  induction l as [|[x y] l IH]; intros Hnd Hb Hb'; [by apply elem_of_nil in Hb|].
  csimpl in Hnd. apply NoDup_cons in Hnd as [Hx Hnd].
  assert (∀ c, (x, c) ∈ l → False) as Hno by (intros c Hc; by apply Hx, (list_elem_of_fmap_2 fst _ (x, c))).
  apply elem_of_cons in Hb as [Hb|Hb], Hb' as [Hb'|Hb']; simplify_eq; eauto; exfalso; eauto.
Qed.

Lemma named_once {A} (f : A → string) l x y : NoDup (f <$> l) → x ∈ l → y ∈ l → f x = f y → x = y.
Proof.
  intros Hnd (i & Hi)%list_elem_of_lookup (j & Hj)%list_elem_of_lookup Hf.
  assert (i = j) as ->; [|congruence].
  eapply NoDup_lookup; [exact Hnd|..]; rewrite list_lookup_fmap; [by rewrite Hi|]. by rewrite Hj, Hf.
Qed.

(** C30: where the tasks of a registered definition have distinct names, every predicate
    gate reads a variable that a task declares, and the task that declares it has run
    at every source of the gated edge: it is on every path there, or it shares a loop
    body with the source and the variable is the loop control. *)
Theorem registered_predicates_settled `{UuidLaws Uuid} NAMESPACE_OID jsonpath_ok fresh pw tenant ns n
    def :
  (∀ i j, fresh i = fresh j → i = j) →
  build_workflow NAMESPACE_OID jsonpath_ok fresh pw tenant ns n = Ok def →
  NoDup (task_name <$> def_tasks def) →
  ∃ graph, def_task_graph def = Some graph ∧
    ∀ e gt ph, e ∈ graph_edges graph → gt ∈ edge_gates e →
      gate_kind gt = Some (Gate_PredicateHolds ph) →
      (∃ t, t ∈ def_tasks def ∧ (ph_routing_var ph, task_name t) ∈ declarations pw) ∧
      ∀ t src, t ∈ def_tasks def → (ph_routing_var ph, task_name t) ∈ declarations pw →
        src ∈ edge_sources e → settled_at graph (ph_routing_var ph) (task_id t) src.
Proof.
  intros Hinj Hbuild Hnames.
  destruct (build_workflow_inv _ _ _ _ _ _ _ _ Hbuild) as (?&?&?&?&?&_&Hsp%validate_single_producer_ok&_).
  apply registered_parts in Hbuild as (b&graph&n2&Hdef&Hb&_&_&Hnd&Hpend&Hres&Hpred&_); [|done].
  eexists. split; [done|]. intros e gt ph He Hgt Hk.
  unfold validate_predicate_gate_dominators_proto in Hpred. rewrite check_all_ok in Hpred.
  specialize (Hpred e He). rewrite check_all_ok in Hpred. specialize (Hpred gt Hgt).
  destruct (check_predicate_gate_ok _ _ _ _ _ _ Hpred Hk) as (p&u&Hdecl&Hu&Hset).
  destruct (bi_names _ _ _ Hb _ _ Hu) as (t&Ht&Hname&Hid).
  destruct (resolved_tasks_keep _ _ _ Hnd Hres t Ht) as (t'&Ht'&Hid'&Hname').
  rewrite <- Hname, <- Hname' in Hdecl. split; [by exists t'|]. intros t0 src Ht0 Hd0 Hsrc.
  rewrite (named_once task_name _ t0 t' Hnames Ht0 Ht'), Hid', Hid; [by apply Hset|].
  by eapply single_declaration.
Qed.

(** The graph of a registered definition is sealed and terminable: every task is
    entered and exited, by itself or with its loop body, and every loop body can
    be left, only through edges gated on the loop control. *)
Theorem registered_graph_sealed `{UuidLaws Uuid} NAMESPACE_OID jsonpath_ok fresh pw tenant ns n def :
  (∀ i j, fresh i = fresh j → i = j) →
  build_workflow NAMESPACE_OID jsonpath_ok fresh pw tenant ns n = Ok def →
  ∃ graph, def_task_graph def = Some graph ∧
    (∀ body, loop_body graph body → terminable graph body) ∧
    ∀ t, t ∈ def_tasks def →
      entered (loop_sccs graph) graph (task_id t) = true ∧
      exited (exiting_loop_members (loop_sccs graph) graph) graph (task_id t) = true.
Proof.
  intros Hinj (b&graph&n2&Hdef&_&_&_&Hnd&Hpend&Hres&_&Hloop)%registered_parts; [|done].
  eapply apply_signal_resolution_ok in Hres as [Hids _]; [|done..].
  eexists. split; [done|]. split.
  - intros body Hbody. apply check_loop_body_ok. unfold validate_loop_terminability in Hloop.
    rewrite check_all_ok in Hloop. by apply Hloop, loop_sccs_spec.
  - intros t Ht. rewrite seal_loop_sccs.
    assert (task_id t ∈ pdg_task_ids (mkPDG (task_id <$> bt_tasks b) graph)) as Hin.
    { simpl. rewrite <-Hids. by apply list_elem_of_fmap_2. }
    split; [by apply seal_entered|by apply seal_exited].
Qed.

(** ** A workflow to evaluate *)

(** An id per number: as many ones, then a zero. *)
Definition bit_supply (n : nat) : bit_uuid := mkBitUuid (replicate n true ++ [false]).

Lemma bit_supply_inj i j : bit_supply i = bit_supply j → i = j.
Proof.
  unfold bit_supply. intros [= Heq]. revert j Heq.
  induction i as [|i IH]; intros [|j] Heq; simplify_eq/=; [done|]. f_equal. auto.
Qed.

Definition sample_task (name : string) (inputs : list ParsedInputBinding)
    (vars : list string) : ParsedTask :=
  mkParsedTask name [] (Some "./task.nix") [] inputs [] None
    ((λ v, mkParsedRoutingVar v None None) <$> vars) [] (Some "5m").

(** Poll until the loop control says so, then wait for an approval and publish. *)
Definition release : ParsedWorkflow :=
  mkParsedWorkflow "release" "Release" [] []
    [mkParsedTaskGroup "poll" [sample_task "poll" [] ["loop_control"]] [] []
       [mkParsedEdge ["poll"] ["poll"] (Some "loop") None;
        mkParsedEdge ["poll"] ["gather"] None
          (Some (PG_PredicateGate (mkParsedPredicateGate "loop_control" "Eq" (JString "done") None)))]
       None;
     mkParsedTaskGroup "publish"
       [sample_task "gather" [] [];
        sample_task "publish"
          [Structured "approval"
             (PIS_Signal (JObject [("signal", JObject [("name", JString "approved")])]))] []]
       [] []
       [mkParsedEdge ["gather"] ["publish"] None
          (Some (PG_SignalGate (mkParsedSignalGate (mkParsedSignalRef "approved") None [] (Some "1h"))))]
       None]
    [] ∅ None (Some "1h").

Definition release_build : result WorkflowDefinition BuildError :=
  build_workflow (mkBitUuid []) (λ _, true) bit_supply release (mkBitUuid [true]) "" 0.

Definition release_def : WorkflowDefinition :=
  match release_build with
  | Ok def => def
  | Err _ => mkWorkflowDefinition "" "" "" "" "" 0 [] None None 0 [] None ∅
  end.

Lemma release_builds :
  build_workflow (mkBitUuid []) (λ _, true) bit_supply release (mkBitUuid [true]) "" 0 =
  Ok release_def.
Proof. vm_compute. reflexivity. Qed.

Lemma build_never_panics_witness : release_build ≠ Err BuilderPanic.
Proof. apply (build_never_panics (mkBitUuid []) (λ _, true) bit_supply release (mkBitUuid [true]) "" 0). Defined.

Lemma registered_checks_witness :
  (∀ k, is_Some (def_tags release_def !! k) → starts_with "tickr/" k = false) ∧
  NoDup (declarations release).*1 ∧
  (∀ task emit, task ∈ all_tasks release → emit ∈ pt_emits task → emit_ok task emit) ∧
  valid_segment (def_namespace release_def) = true ∧ valid_segment (def_slug release_def) = true ∧
  def_id release_def = uuid_to_string
    (derive_workflow_id (mkBitUuid []) (mkBitUuid [true]) (def_namespace release_def)
       (def_slug release_def)) ∧
  (∀ secs, def_timeout_secs release_def = Some secs → (0 < secs < u64_limit)%Z).
Proof.
  apply (registered_checks (mkBitUuid []) (λ _, true) bit_supply release (mkBitUuid [true]) "" 0).
  exact release_builds.
Defined.

Lemma registered_graph_closed_witness :
  ∃ graph, def_task_graph release_def = Some graph ∧
    node_id <$> graph_nodes graph =
      graph_start graph :: graph_end graph :: (task_id <$> def_tasks release_def) ∧
    NoDup (node_id <$> graph_nodes graph) ∧
    Forall (λ e, closed_edge (node_id <$> graph_nodes graph) e ∧
                 Forall (gate_ok (λ _, true)) (edge_gates e)) (graph_edges graph).
Proof.
  apply (registered_graph_closed (mkBitUuid []) (λ _, true) bit_supply release (mkBitUuid [true]) "" 0);
    [exact bit_supply_inj|exact release_builds].
Defined.

Lemma registered_signals_bound_witness :
  ∃ graph, def_task_graph release_def = Some graph ∧
    ∀ t slot name gate, t ∈ def_tasks release_def →
      slot_of t slot = Some (signal_source name gate) → only_gate graph (task_id t) name gate.
Proof.
  apply (registered_signals_bound (mkBitUuid []) (λ _, true) bit_supply release (mkBitUuid [true]) "" 0);
    [exact bit_supply_inj|exact release_builds].
Defined.

Lemma registered_predicates_settled_witness :
  ∃ graph, def_task_graph release_def = Some graph ∧
    ∀ e gt ph, e ∈ graph_edges graph → gt ∈ edge_gates e →
      gate_kind gt = Some (Gate_PredicateHolds ph) →
      (∃ t, t ∈ def_tasks release_def ∧ (ph_routing_var ph, task_name t) ∈ declarations release) ∧
      ∀ t src, t ∈ def_tasks release_def → (ph_routing_var ph, task_name t) ∈ declarations release →
        src ∈ edge_sources e → settled_at graph (ph_routing_var ph) (task_id t) src.
Proof.
  apply (registered_predicates_settled (mkBitUuid []) (λ _, true) bit_supply release
           (mkBitUuid [true]) "" 0); [exact bit_supply_inj|exact release_builds|].
  apply (bool_decide_unpack _). vm_compute. reflexivity.
Defined.

Lemma registered_graph_sealed_witness :
  ∃ graph, def_task_graph release_def = Some graph ∧
    (∀ body, loop_body graph body → terminable graph body) ∧
    ∀ t, t ∈ def_tasks release_def →
      entered (loop_sccs graph) graph (task_id t) = true ∧
      exited (exiting_loop_members (loop_sccs graph) graph) graph (task_id t) = true.
Proof.
  apply (registered_graph_sealed (mkBitUuid []) (λ _, true) bit_supply release (mkBitUuid [true]) "" 0);
    [exact bit_supply_inj|exact release_builds].
Defined.

(** ** What is not checked, and what is checked more than it says *)

(** Workflow-level captures are lowered without the checks a trigger's captures
    get: here one is declared twice and its path does not parse. *)
Definition unchecked_captures : ParsedWorkflow :=
  let c := mkParsedCapture "who" (PCS_Trigger "not a path") in
  mkParsedWorkflow "release" "Release" [] [] (pw_tasks release) [c; c] ∅ None None.

Lemma workflow_captures_unchecked :
  ∃ def, build_workflow (mkBitUuid []) (λ p, negb (bool_decide (p = "not a path"))) bit_supply
           unchecked_captures (mkBitUuid [true]) "" 0 = Ok def ∧
         capture_name <$> def_captures def = ["who"; "who"].
Proof. eexists. split; [vm_compute; reflexivity|reflexivity]. Qed.

(** One task that declares a routing variable twice is refused as if two tasks
    owned it. *)
Lemma one_task_counts_twice :
  validate_single_producer
    (mkParsedWorkflow "w" "w" [] [] [mkParsedTaskGroup "g" [sample_task "t" [] ["v"; "v"]] [] [] [] None]
       [] ∅ None None) = Err (DuplicateOwnership [("v", ["t"; "t"])]).
Proof. vm_compute. reflexivity. Qed.

(** Two tasks of one name: the name stands for the last of them. *)
Definition same_name : ParsedWorkflow :=
  mkParsedWorkflow "w" "w" [] []
    [mkParsedTaskGroup "a" [sample_task "t" [] ["v"]] [] [] [] None;
     mkParsedTaskGroup "b" [sample_task "t" [] []; sample_task "u" [] []] [] []
       [mkParsedEdge ["t"] ["u"] None
          (Some (PG_PredicateGate (mkParsedPredicateGate "v" "Eq" (JString "yes") None)))] None]
    [] ∅ None None.

Definition same_name_def : WorkflowDefinition :=
  match build_workflow (mkBitUuid []) (λ _, true) bit_supply same_name (mkBitUuid [true]) "" 0 with
  | Ok def => def
  | Err _ => release_def
  end.

(** The task that declares the variable, and the gated edge. *)
Definition same_name_graph : TaskGraph := default (mkTaskGraph [] [] "" "") (def_task_graph same_name_def).
Definition declaring_id : string := default "" (head (task_id <$> def_tasks same_name_def)).
Definition gated_sources : list string :=
  mjoin (edge_sources <$> filter (λ e, edge_gates e ≠ []) (graph_edges same_name_graph)).

(** The definition registers, and the task that declares the variable of its gate is
    not on every path to the gate: the other task of that name is. *)
Lemma same_name_unsettled :
  build_workflow (mkBitUuid []) (λ _, true) bit_supply same_name (mkBitUuid [true]) "" 0 = Ok same_name_def ∧
  ∃ src, gated_sources = [src] ∧ ¬ settled_at same_name_graph "v" declaring_id src.
Proof.
  split; [vm_compute; reflexivity|]. eexists. split; [vm_compute; reflexivity|]. intros [Hd|[Hv _]]; [|done].
  apply validate_task_dominates_ok in Hd. vm_compute in Hd. discriminate Hd.
Qed.
