(* ===== verification/GraphSimulation.v ===== *)
(** * Graphs that differ only in their ids

    Two lowerings of one source draw other ids.  [graph_sim R] relates their
    graphs position by position through a relation [R] on ids that is one to one,
    and everything the seal and the validators compute respects it: reachability,
    domination, loop bodies, terminability, and the seal itself. *)

From S2P Require Import Prelude Workflow Dominators LoopBodies TarjanInvariant Seal Terminability.

(** [R] pairs the ids of two draws, never one with two. *)
Definition one_to_one {A : Type} (R : A → A → Prop) : Prop :=
  ∀ a b a' b', R a a' → R b b' → a = b ↔ a' = b'.

Lemma one_to_one_flip {A : Type} (R : A → A → Prop) : one_to_one R → one_to_one (flip R).
Proof. intros HR a b a' b' Ha Hb. symmetry. by apply HR. Qed.

Lemma Forall2_elem_l {A B} (R : A → B → Prop) l l' x :
  Forall2 R l l' → x ∈ l → ∃ y, y ∈ l' ∧ R x y.
Proof.
  intros Hl [i Hi]%list_elem_of_lookup. destruct (Forall2_lookup_l _ _ _ _ _ Hl Hi) as (y & Hy & ?).
  exists y. split; [by eapply list_elem_of_lookup_2|done].
Qed.

Lemma Forall2_exists_r {A B} (R : A → B → Prop) l :
  (∀ x, x ∈ l → ∃ y, R x y) → ∃ l', Forall2 R l l'.
Proof.
  induction l as [|x l IH]; intros Hl; [by exists []|].
  destruct (Hl x) as [y Hy]; [left|]. destruct IH as [l' Hl']; [intros z Hz; apply Hl; by right|].
  exists (y :: l'). by constructor.
Qed.

Lemma existsb_sim {A B} (R : A → B → Prop) f f' l l' :
  Forall2 R l l' → (∀ x y, R x y → f x = f' y) → existsb f l = existsb f' l'.
Proof. intros Hl Hf. induction Hl as [|x y l l' Hxy _ IH]; simpl; [done|]. by rewrite IH, (Hf x y). Qed.

Lemma elem_of_sim {A : Type} (R : A → A → Prop) l l' x x' :
  one_to_one R → Forall2 R l l' → R x x' → x ∈ l ↔ x' ∈ l'.
Proof.
  intros HR Hl Hx. induction Hl as [|y y' l l' Hy _ IH]; [by rewrite !elem_of_nil|].
  rewrite !elem_of_cons, IH, (HR x y x' y') by done. done.
Qed.

Record edge_sim (R : string → string → Prop) (e e' : Edge) : Prop := {
  em_id : R (edge_id e) (edge_id e');
  em_sources : Forall2 R (edge_sources e) (edge_sources e');
  em_targets : Forall2 R (edge_targets e) (edge_targets e');
  em_kind : edge_kind e' = edge_kind e;
  em_gates : edge_gates e' = edge_gates e
}.

Record graph_sim (R : string → string → Prop) (g g' : TaskGraph) : Prop := {
  gm_start : R (graph_start g) (graph_start g');
  gm_end : R (graph_end g) (graph_end g');
  gm_edges : Forall2 (edge_sim R) (graph_edges g) (graph_edges g')
}.

Lemma edge_sim_flip R e e' : edge_sim R e e' → edge_sim (flip R) e' e.
Proof. intros []. split; try done; by apply Forall2_flip. Qed.

Lemma graph_sim_flip R g g' : graph_sim R g g' → graph_sim (flip R) g' g.
Proof.
  intros [? ? He]. split; [done..|]. apply Forall2_flip. eapply Forall2_impl; [exact He|].
  intros e e'. apply edge_sim_flip.
Qed.

Lemma loop_edge_sim R e e' : edge_sim R e e' → is_loop_edge e' = is_loop_edge e.
Proof. intros He. unfold is_loop_edge. by rewrite (em_kind _ _ _ He). Qed.

Lemma loop_rel_iff g u v :
  loop_rel g u v ↔ ∃ e, e ∈ graph_edges g ∧ is_loop_edge e = true ∧
                        u ∈ edge_sources e ∧ v ∈ edge_targets e.
Proof. unfold loop_rel, adj_rel, loop_adjacency. rewrite elem_of_build_adjacency. naive_solver. Qed.

(** ** Steps, walks and paths *)

Definition step_sim {A : Type} (R S S' : A → A → Prop) : Prop :=
  ∀ u v u', S u v → R u u' → ∃ v', R v v' ∧ S' u' v'.

Section walks.
Context {A : Type} (R S S' : A → A → Prop).
Hypothesis Hstep : step_sim R S S'.

Lemma rtc_sim u v u' : rtc S u v → R u u' → ∃ v', R v v' ∧ rtc S' u' v'.
Proof.
  intros Huv. revert u'. induction Huv as [u|u w v Huw _ IH]; intros u' Hu; [by eauto using rtc_refl|].
  destruct (Hstep _ _ _ Huw Hu) as (w' & Hw & Huw'). destruct (IH _ Hw) as (v' & Hv & Hwv).
  eauto using rtc_l.
Qed.

Lemma tc_sim u v u' : tc S u v → R u u' → ∃ v', R v v' ∧ tc S' u' v'.
Proof.
  intros Huv. revert u'. induction Huv as [u v Huv|u w v Huw _ IH]; intros u' Hu.
  - destruct (Hstep _ _ _ Huv Hu) as (v' & ? & ?). eauto using tc_once.
  - destruct (Hstep _ _ _ Huw Hu) as (w' & Hw & Huw'). destruct (IH _ Hw) as (v' & Hv & Hwv).
    eauto using tc_l.
Qed.

Lemma path_sim p : ∀ u v u', is_path S u p v → R u u' →
  ∃ p' v', Forall2 R p p' ∧ R v v' ∧ is_path S' u' p' v'.
Proof.
  induction p as [|x [|y p] IH]; intros u v u'; simpl; [done| |].
  - intros [-> ->] Hu. exists [u'], u'. split_and!; [by repeat constructor|done|done].
  - intros (-> & Hxy & Hp) Hu. destruct (Hstep _ _ _ Hxy Hu) as (y' & Hy & Hxy').
    destruct (IH _ _ _ Hp Hy) as (p' & v' & Hpp & Hv & Hp'). exists (u' :: p'), v'.
    split_and!; [by constructor|done|]. destruct p' as [|z p']; [by inversion Hpp|].
    split_and!; [done| |].
    + destruct p'; destruct Hp' as [-> _]; done.
    + destruct p'; destruct Hp' as [Hz ?]; subst z; done.
Qed.
End walks.

Lemma edge_step_sim R (p : Edge → bool) g g' :
  one_to_one R → graph_sim R g g' → (∀ e e', edge_sim R e e' → p e' = p e) →
  step_sim R
    (λ u v, ∃ e, e ∈ graph_edges g ∧ p e = true ∧ u ∈ edge_sources e ∧ v ∈ edge_targets e)
    (λ u v, ∃ e, e ∈ graph_edges g' ∧ p e = true ∧ u ∈ edge_sources e ∧ v ∈ edge_targets e).
Proof.
  intros HR Hg Hp u v u' (e & He & Hpe & Hu & Hv) Huu.
  destruct (Forall2_elem_l _ _ _ _ (gm_edges _ _ _ Hg) He) as (e' & He' & Hee).
  destruct (Forall2_elem_l _ _ _ _ (em_targets _ _ _ Hee) Hv) as (v' & Hv' & Hvv).
  exists v'. split; [done|]. exists e'. split_and!; [done|by rewrite (Hp e e')| |done].
  by apply (elem_of_sim R _ _ u u' HR (em_sources _ _ _ Hee) Huu).
Qed.

Lemma loop_step_sim R g g' :
  one_to_one R → graph_sim R g g' → step_sim R (loop_rel g) (loop_rel g').
Proof.
  intros HR Hg u v u' (e & He)%loop_rel_iff Huu. setoid_rewrite loop_rel_iff.
  eapply (edge_step_sim R is_loop_edge); [done|done|by apply loop_edge_sim|by exists e|done].
Qed.

Lemma graph_step_sim R g g' :
  one_to_one R → graph_sim R g g' → step_sim R (graph_rel g) (graph_rel g').
Proof.
  intros HR Hg u v u' (e & He & Hu & Hv) Huu.
  destruct (edge_step_sim R (λ _, true) g g' HR Hg (λ _ _ _, eq_refl) u v u') as (v' & Hvv & e' & He');
    [by exists e|done|].
  exists v'. split; [done|]. exists e'. naive_solver.
Qed.

Lemma walk_sim R g g' u es w u' :
  one_to_one R → graph_sim R g g' → edge_walk g u es w → R u u' →
  ∃ es' w', Forall2 (edge_sim R) es es' ∧ R w w' ∧ edge_walk g' u' es' w'.
Proof.
  intros HR Hg Hw. revert u'. induction Hw as [u|u e v es w He Hu Hv _ IH]; intros u' Huu.
  { exists [], u'. split_and!; [done|done|constructor]. }
  destruct (Forall2_elem_l _ _ _ _ (gm_edges _ _ _ Hg) He) as (e' & He' & Hee).
  destruct (Forall2_elem_l _ _ _ _ (em_targets _ _ _ Hee) Hv) as (v' & Hv' & Hvv).
  destruct (IH _ Hvv) as (es' & w' & Hes & Hw & Hwalk). exists (e' :: es'), w'.
  split_and!; [by constructor|done|]. econstructor; [done| |done|done].
  by apply (elem_of_sim R _ _ u u' HR (em_sources _ _ _ Hee) Huu).
Qed.

(** ** Domination *)

Section domination.
Context (R : string → string → Prop).
Hypothesis HR : one_to_one R.

Lemma gate_dominates_sim g g' gid gid' t t' :
  graph_sim R g g' → R gid gid' → R t t' → gate_dominates g gid t → gate_dominates g' gid' t'.
Proof.
  intros Hg Hgid Ht [(e & He & Hid) Hdom]. split.
  - destruct (Forall2_elem_l _ _ _ _ (gm_edges _ _ _ Hg) He) as (e' & He' & Hee).
    exists e'. split; [done|]. subst gid. by apply (HR _ _ _ _ (em_id _ _ _ Hee) Hgid).
  - intros es' Hw.
    destruct (walk_sim (flip R) g' g _ _ _ _ (one_to_one_flip R HR) (graph_sim_flip R g g' Hg) Hw
                (gm_start _ _ _ Hg)) as (es & w & Hes & Hww & Hwalk).
    assert (w = t) as -> by by apply (HR _ _ _ _ Hww Ht).
    destruct (Hdom _ Hwalk) as (e0 & He' & Hide).
    apply Forall2_flip in Hes. destruct (Forall2_elem_l _ _ _ _ Hes He') as (e' & Hin & Hee).
    exists e'. split; [done|]. apply edge_sim_flip, em_id in Hee. simpl in Hee.
    rewrite Hide in Hee. by apply (HR _ _ _ _ Hee Hgid).
Qed.

Lemma task_dominates_sim g g' a a' d d' :
  graph_sim R g g' → R a a' → R d d' → task_dominates g a d → task_dominates g' a' d'.
Proof.
  intros Hg Ha Hd Hdom p' Hp'.
  destruct (path_sim (flip R) (graph_rel g') (graph_rel g)
              (graph_step_sim _ _ _ (one_to_one_flip R HR) (graph_sim_flip R g g' Hg)) p' _ _ _ Hp'
              (gm_start _ _ _ Hg)) as (p & w & Hpp & Hw & Hp).
  assert (w = d) as -> by by apply (HR _ _ _ _ Hw Hd).
  apply Forall2_flip in Hpp. by apply (elem_of_sim R p p' a a' HR Hpp Ha), Hdom.
Qed.
End domination.

Lemma gate_dominates_iff R g g' gid gid' t t' :
  one_to_one R → graph_sim R g g' → R gid gid' → R t t' →
  gate_dominates g gid t ↔ gate_dominates g' gid' t'.
Proof.
  intros HR Hg ? ?. split; [by apply (gate_dominates_sim R)|].
  apply (gate_dominates_sim (flip R) (one_to_one_flip R HR) g' g); [by apply graph_sim_flip|done..].
Qed.

Lemma task_dominates_iff R g g' a a' d d' :
  one_to_one R → graph_sim R g g' → R a a' → R d d' → task_dominates g a d ↔ task_dominates g' a' d'.
Proof.
  intros HR Hg ? ?. split; [by apply (task_dominates_sim R)|].
  apply (task_dominates_sim (flip R) (one_to_one_flip R HR) g' g); [by apply graph_sim_flip|done..].
Qed.

(** ** Loop bodies *)

(** Every member has a partner, and partners are members together. *)
Record body_sim (R : string → string → Prop) (c c' : gset string) : Prop := {
  bm_l : ∀ v, v ∈ c → ∃ v', R v v' ∧ v' ∈ c';
  bm_r : ∀ v', v' ∈ c' → ∃ v, R v v' ∧ v ∈ c
}.

Lemma body_sim_flip R c c' : body_sim R c c' → body_sim (flip R) c' c.
Proof. by intros []. Qed.

Lemma elem_of_body_sim R c c' v v' :
  one_to_one R → body_sim R c c' → R v v' → v ∈ c ↔ v' ∈ c'.
Proof.
  intros HR [Hl Hr] Hv. split.
  - intros (w' & Hw & ?)%Hl. by rewrite <-(proj1 (HR _ _ _ _ Hw Hv) eq_refl).
  - intros (w & Hw & ?)%Hr. by rewrite <-(proj2 (HR _ _ _ _ Hw Hv) eq_refl).
Qed.

Lemma class_sim R g g' r r' v v' :
  one_to_one R → graph_sim R g g' → R r r' → R v v' →
  rtc (loop_rel g) r v ∧ rtc (loop_rel g) v r → rtc (loop_rel g') r' v' ∧ rtc (loop_rel g') v' r'.
Proof.
  intros HR Hg Hr Hv [Hrv Hvr]. pose proof (loop_step_sim R g g' HR Hg) as Hs. split.
  - destruct (rtc_sim _ _ _ Hs _ _ _ Hrv Hr) as (w & Hw & ?).
    by rewrite <-(proj1 (HR _ _ _ _ Hw Hv) eq_refl).
  - destruct (rtc_sim _ _ _ Hs _ _ _ Hvr Hv) as (w & Hw & ?).
    by rewrite <-(proj1 (HR _ _ _ _ Hw Hr) eq_refl).
Qed.

Lemma loop_node_partner R g g' r :
  graph_sim R g g' → tc (loop_rel g) r r → ∃ r', R r r'.
Proof.
  intros Hg Hc. assert (∃ w, loop_rel g r w) as (w & (e & He & _ & Hr & _)%loop_rel_iff).
  { inversion Hc; eauto. }
  destruct (Forall2_elem_l _ _ _ _ (gm_edges _ _ _ Hg) He) as (e' & _ & Hee).
  destruct (Forall2_elem_l _ _ _ _ (em_sources _ _ _ Hee) Hr) as (r' & _ & ?). eauto.
Qed.

Lemma loop_body_sim R g g' c :
  one_to_one R → graph_sim R g g' → loop_body g c → ∃ c', loop_body g' c' ∧ body_sim R c c'.
Proof.
  intros HR Hg (r & Hcyc & Hc). pose proof (loop_step_sim R g g' HR Hg) as Hs.
  destruct (loop_node_partner R g g' r Hg Hcyc) as [r' Hr].
  destruct (Forall2_exists_r R (elements c)) as [l' Hl].
  { intros v [Hv _]%elem_of_elements%Hc. destruct (rtc_sim _ _ _ Hs _ _ _ Hv Hr) as (v' & ? & _). eauto. }
  exists (list_to_set l'). split.
  - exists r'. split.
    { destruct (tc_sim _ _ _ Hs _ _ _ Hcyc Hr) as (w & Hw & ?).
      by rewrite (proj1 (HR _ _ _ _ Hr Hw) eq_refl) at 2. }
    intros v'. rewrite elem_of_list_to_set. split.
    + intros Hv'. apply Forall2_flip in Hl.
      destruct (Forall2_elem_l _ _ _ _ Hl Hv') as (v & Hv%elem_of_elements%Hc & Hvv).
      by eapply class_sim.
    + intros Hv'. pose proof (loop_step_sim (flip R) g' g (one_to_one_flip R HR) (graph_sim_flip R g g' Hg)) as Hs'.
      destruct (rtc_sim _ _ _ Hs' _ _ _ (proj1 Hv') Hr) as (v & Hvv & _). simpl in Hvv.
      apply (elem_of_sim R (elements c) l' v v' HR Hl Hvv), elem_of_elements, Hc.
      eapply (class_sim (flip R) g' g); [by apply one_to_one_flip|by apply graph_sim_flip|done..].
  - split.
    + intros v Hv%elem_of_elements. destruct (Forall2_elem_l _ _ _ _ Hl Hv) as (v' & ? & ?).
      exists v'. by rewrite elem_of_list_to_set.
    + intros v' Hv'%elem_of_list_to_set. apply Forall2_flip in Hl.
      destruct (Forall2_elem_l _ _ _ _ Hl Hv') as (v & Hv%elem_of_elements & ?). eauto.
Qed.

Lemma leaves_sim R c c' e e' :
  one_to_one R → body_sim R c c' → edge_sim R e e' → leaves c e → leaves c' e'.
Proof.
  intros HR Hc Hee [(s & Hs & Hsc) (t & Ht & Htc)].
  destruct (Forall2_elem_l _ _ _ _ (em_sources _ _ _ Hee) Hs) as (s' & ? & Hss).
  destruct (Forall2_elem_l _ _ _ _ (em_targets _ _ _ Hee) Ht) as (t' & ? & Htt).
  split; [exists s'|exists t']; (split; [done|]).
  - by apply (elem_of_body_sim R c c' s s').
  - by rewrite <-(elem_of_body_sim R c c' t t').
Qed.

Lemma terminable_sim R g g' c c' :
  one_to_one R → graph_sim R g g' → body_sim R c c' → terminable g c → terminable g' c'.
Proof.
  intros HR Hg Hc [(e & He & Hl) Hall]. split.
  - destruct (Forall2_elem_l _ _ _ _ (gm_edges _ _ _ Hg) He) as (e' & ? & Hee).
    exists e'. split; [done|]. by eapply leaves_sim.
  - intros e' He' Hl'. apply graph_sim_flip in Hg.
    destruct (Forall2_elem_l _ _ _ _ (gm_edges _ _ _ Hg) He') as (e0 & He0 & Hee).
    destruct (Hall e0 He0) as (gt & ph & Hgt & Hrest).
    { eapply leaves_sim; [by apply one_to_one_flip|by apply body_sim_flip|done|done]. }
    exists gt, ph. by rewrite <-(em_gates _ _ _ Hee).
Qed.

Lemma validate_loop_terminability_iff graph :
  validate_loop_terminability graph = Ok () ↔ ∀ body, loop_body graph body → terminable graph body.
Proof.
  unfold validate_loop_terminability. rewrite check_all_ok.
  setoid_rewrite check_loop_body_ok. destruct (loop_sccs_spec graph) as (_ & _ & Hs).
  setoid_rewrite Hs. done.
Qed.

Lemma validate_loop_terminability_sim R g g' :
  one_to_one R → graph_sim R g g' →
  validate_loop_terminability g = Ok () → validate_loop_terminability g' = Ok ().
Proof.
  rewrite !validate_loop_terminability_iff. intros HR Hg Hall c' Hc'.
  destruct (loop_body_sim (flip R) g' g c') as (c & Hc & Hcc);
    [by apply one_to_one_flip|by apply graph_sim_flip|done|].
  eapply terminable_sim; [done..|by apply body_sim_flip in Hcc|auto].
Qed.

(** ** The seal *)

Lemma incoming_sim R g g' t t' :
  one_to_one R → graph_sim R g g' → R t t' → has_non_loop_incoming g t = has_non_loop_incoming g' t'.
Proof.
  intros HR Hg Ht. eapply existsb_sim; [apply (gm_edges _ _ _ Hg)|]. intros e e' Hee.
  rewrite (loop_edge_sim _ _ _ Hee). f_equal. apply bool_decide_ext.
  apply (elem_of_sim R); [done|by apply em_targets|done].
Qed.

Lemma outgoing_sim R g g' t t' :
  one_to_one R → graph_sim R g g' → R t t' → has_non_loop_outgoing g t = has_non_loop_outgoing g' t'.
Proof.
  intros HR Hg Ht. eapply existsb_sim; [apply (gm_edges _ _ _ Hg)|]. intros e e' Hee.
  rewrite (loop_edge_sim _ _ _ Hee). f_equal. apply bool_decide_ext.
  apply (elem_of_sim R); [done|by apply em_sources|done].
Qed.

(** Loop bodies are disjoint, so the first one that holds a node is the only one. *)
Lemma loop_body_unique g c d v : loop_body g c → loop_body g d → v ∈ c → v ∈ d → c = d.
Proof.
  intros (r & _ & Hc) (q & _ & Hd) [Hrv Hvr]%Hc [Hqv Hvq]%Hd. apply set_eq. intros x.
  rewrite Hc, Hd.
  split; intros [Hx Hx']; split.
  - exact (transitivity Hqv (transitivity Hvr Hx)).
  - exact (transitivity Hx' (transitivity Hrv Hvq)).
  - exact (transitivity Hrv (transitivity Hvq Hx)).
  - exact (transitivity Hx' (transitivity Hqv Hvr)).
Qed.

Lemma in_entered_body_iff g0 g t :
  in_entered_body (loop_sccs g0) g t = true ↔
  ∃ c m, loop_body g0 c ∧ t ∈ c ∧ m ∈ c ∧ has_non_loop_incoming g m = true.
Proof.
  unfold in_entered_body. destruct (loop_sccs_spec g0) as (_ & _ & Hs).
  destruct (List.find _ _) as [c|] eqn:Hf.
  - apply List.find_some in Hf as [Hc%list_elem_of_In%Hs Ht%bool_decide_eq_true].
    rewrite existsb_exists. setoid_rewrite <-list_elem_of_In. setoid_rewrite elem_of_elements.
    split; [naive_solver|]. intros (d & m & Hd & Htd & Hm & Hin). exists m.
    by rewrite (loop_body_unique g0 c d t).
  - split; [done|]. intros (c & m & Hc%Hs%list_elem_of_In & Ht & _).
    eapply List.find_none in Hf; [|done]. by rewrite bool_decide_eq_true_2 in Hf.
Qed.

Lemma in_entered_body_sim R g0 g0' g g' t t' :
  one_to_one R → graph_sim R g0 g0' → graph_sim R g g' → R t t' →
  in_entered_body (loop_sccs g0) g t = true → in_entered_body (loop_sccs g0') g' t' = true.
Proof.
  rewrite !in_entered_body_iff. intros HR Hg0 Hg Ht (c & m & Hc & Htc & Hm & Hin).
  destruct (loop_body_sim R g0 g0' c HR Hg0 Hc) as (c' & Hc' & Hcc).
  destruct (bm_l _ _ _ Hcc m Hm) as (m' & Hmm & Hm'). exists c', m'. split_and!; try done.
  - by apply (elem_of_body_sim R c c' t t').
  - by rewrite <-(incoming_sim R g g' m m').
Qed.

Lemma exiting_sim R g0 g0' g g' t t' :
  one_to_one R → graph_sim R g0 g0' → graph_sim R g g' → R t t' →
  t ∈ exiting_loop_members (loop_sccs g0) g → t' ∈ exiting_loop_members (loop_sccs g0') g'.
Proof.
  destruct (loop_sccs_spec g0) as (_ & _ & Hs). destruct (loop_sccs_spec g0') as (_ & _ & Hs').
  rewrite !elem_of_exiting. setoid_rewrite leaving_body_true.
  intros HR Hg0 Hg Ht (c & Hc%Hs & Htc & e & a & b & He & Hl & Ha & Hac & Hb & Hbc).
  destruct (loop_body_sim R g0 g0' c HR Hg0 Hc) as (c' & Hc'%Hs' & Hcc).
  destruct (Forall2_elem_l _ _ _ _ (gm_edges _ _ _ Hg) He) as (e' & He' & Hee).
  destruct (Forall2_elem_l _ _ _ _ (em_sources _ _ _ Hee) Ha) as (a' & ? & Haa).
  destruct (Forall2_elem_l _ _ _ _ (em_targets _ _ _ Hee) Hb) as (b' & ? & Hbb).
  exists c'. split_and!; [done|by apply (elem_of_body_sim R c c' t t')|].
  exists e', a', b'. split_and!; [done|by rewrite (loop_edge_sim R e e')|done| |done|].
  - by apply (elem_of_body_sim R c c' a a').
  - by rewrite <-(elem_of_body_sim R c c' b b').
Qed.

Section seal.
Context (R : string → string → Prop) (fresh fresh' : nat → string) (n0 n0' : nat).
Hypothesis HR : one_to_one R.
Hypothesis Hfresh : ∀ i, R (fresh (n0 + i)) (fresh' (n0' + i)).

(** As many ids drawn on both sides, and graphs that correspond. *)
Definition seal_state_sim (st st' : TaskGraph * nat) : Prop :=
  graph_sim R st.1 st'.1 ∧ ∃ i, st.2 = n0 + i ∧ st'.2 = n0' + i.

Lemma add_seal_edge_sim st st' s s' t t' :
  seal_state_sim st st' → R s s' → R t t' →
  seal_state_sim (add_seal_edge fresh st s t) (add_seal_edge fresh' st' s' t').
Proof.
  destruct st as [g n], st' as [g' n']. intros [[Hs He Hes] (i & Hi & Hi')] Hss Htt. simpl in *. subst n n'.
  split; [|exists (S i); simpl; lia]. split; simpl; [done..|]. apply Forall2_app; [done|].
  constructor; [|done]. split; simpl; auto.
Qed.

Lemma foldl_seal_sim f f' ids ids' st st' :
  Forall2 R ids ids' →
  (∀ st st' t t', seal_state_sim st st' → R t t' → seal_state_sim (f st t) (f' st' t')) →
  seal_state_sim st st' → seal_state_sim (foldl f st ids) (foldl f' st' ids').
Proof. intros Hids Hf. revert st st'. induction Hids; simpl; auto. Qed.

Lemma eq_true_sim (b b' : bool) : (b = true ↔ b' = true) → b = b'.
Proof. destruct b, b'; naive_solver. Qed.

Lemma wire_start_sim g0 g0' st st' s s' t t' :
  graph_sim R g0 g0' → seal_state_sim st st' → R s s' → R t t' →
  seal_state_sim (wire_start fresh (loop_sccs g0) s st t) (wire_start fresh' (loop_sccs g0') s' st' t').
Proof.
  intros Hg0 Hst Hs Ht. unfold wire_start. rewrite (incoming_sim R st.1 st'.1 t t') by (done || apply Hst).
  destruct (has_non_loop_incoming _ _); [done|].
  rewrite (eq_true_sim (in_entered_body (loop_sccs g0) st.1 t) (in_entered_body (loop_sccs g0') st'.1 t')).
  - destruct (in_entered_body _ _ _); [done|]. by apply add_seal_edge_sim.
  - destruct Hst as [Hg _]. split.
    + by apply (in_entered_body_sim R).
    + apply (in_entered_body_sim (flip R)); [by apply one_to_one_flip|by apply graph_sim_flip..|done].
Qed.

Lemma wire_end_sim g0 g0' g1 g1' st st' s s' t t' :
  graph_sim R g0 g0' → graph_sim R g1 g1' → seal_state_sim st st' → R s s' → R t t' →
  seal_state_sim (wire_end fresh (exiting_loop_members (loop_sccs g0) g1) s st t)
    (wire_end fresh' (exiting_loop_members (loop_sccs g0') g1') s' st' t').
Proof.
  intros Hg0 Hg1 Hst Hs Ht. unfold wire_end.
  rewrite (outgoing_sim R st.1 st'.1 t t') by (done || apply Hst).
  rewrite (bool_decide_ext (t ∈ exiting_loop_members (loop_sccs g0) g1)
             (t' ∈ exiting_loop_members (loop_sccs g0') g1')).
  - destruct (_ && _); [by apply add_seal_edge_sim|done].
  - split; [by apply (exiting_sim R)|].
    apply (exiting_sim (flip R)); [by apply one_to_one_flip|by apply graph_sim_flip..|done].
Qed.

Lemma seal_sim g g' :
  graph_sim R (pdg_graph g) (pdg_graph g') → Forall2 R (pdg_task_ids g) (pdg_task_ids g') →
  graph_sim R (pdg_graph (seal fresh g n0).1) (pdg_graph (seal fresh' g' n0').1).
Proof.
  intros Hg Hids. rewrite !seal_graph_eq. cbv zeta.
  assert (seal_state_sim (pdg_graph g, n0) (pdg_graph g', n0')) as Hst0.
  { split; [done|]. exists 0. simpl. lia. }
  set (st := foldl (wire_start _ _ _) _ _). set (st' := foldl (wire_start fresh' _ _) _ _).
  assert (seal_state_sim st st') as Hst.
  { apply foldl_seal_sim; [done| |done]. intros ? ? ? ? ? ?.
    apply wire_start_sim; [done|done|apply Hg|done]. }
  apply (foldl_seal_sim (wire_end fresh _ _) (wire_end fresh' _ _)); [done| |done].
  intros ? ? ? ? ? ?. apply wire_end_sim; [done|apply Hst|done|apply Hg|done].
Qed.
End seal.
