(* ===== verification/ParseStability.v ===== *)
(** * Parsing a source twice

    Every parse draws fresh ids for tasks, sentinels and edges, so two parses of
    one source give definitions that share no id.  This file follows the lowering
    of [Builder] with two supplies side by side and shows that the two
    definitions differ in nothing else, that one parse succeeds exactly when the
    other does, and that the content hash cannot tell them apart.  Unlike
    [content_hash_stable] this needs no assumption on names or on the rendering
    of edges, because the two parses agree position by position. *)

From S2P Require Import Prelude Workflow Dominators LoopBodies TarjanInvariant Seal Terminability.
From S2P Require Import Duration Json Uuid ParserTypes Identity SignalSources Validators ContentHash.
From S2P Require Import Builder BuilderFacts GraphSimulation.

(** ** Two computations that end alike *)

Definition result_sim {A B E F : Type} (P : A → B → Prop) (r : result A E) (r' : result B F) : Prop :=
  match r, r' with
  | Ok a, Ok b => P a b
  | Err _, Err _ => True
  | _, _ => False
  end.

Lemma bind_sim {A B A' B' E F : Type} (P : A → B → Prop) (Q : A' → B' → Prop)
    (r : result A E) (r' : result B F) f f' :
  result_sim P r r' → (∀ a b, P a b → result_sim Q (f a) (f' b)) →
  result_sim Q (let? a := r in f a) (let? b := r' in f' b).
Proof. destruct r, r'; simpl; naive_solver. Qed.

Lemma result_sim_refl {A E : Type} (P : A → A → Prop) (r : result A E) :
  (∀ a, P a a) → result_sim P r r.
Proof. destruct r; simpl; auto. Qed.

Lemma map_err_sim {A B E F E' F' : Type} (P : A → B → Prop) (r : result A E) (r' : result B F)
    (f : E → E') (f' : F → F') :
  result_sim P r r' → result_sim P (map_err f r) (map_err f' r').
Proof. by destruct r, r'. Qed.

Lemma collect_sim {A B A' B' E F : Type} (S : A → B → Prop) (P : A' → B' → Prop)
    (f : A → result A' E) (f' : B → result B' F) l l' :
  Forall2 S l l' → (∀ x y, S x y → result_sim P (f x) (f' y)) →
  result_sim (Forall2 P) (collect f l) (collect f' l').
Proof.
  intros Hl Hf. induction Hl as [|x y l l' Hxy _ IH]; simpl; [constructor|].
  eapply bind_sim; [by apply Hf|]. intros a b Hab. eapply bind_sim; [exact IH|].
  intros ys ys' Hys. simpl. by constructor.
Qed.

Lemma collect_same_sim {A A' B' E F : Type} (P : A' → B' → Prop)
    (f : A → result A' E) (f' : A → result B' F) l :
  (∀ x, x ∈ l → result_sim P (f x) (f' x)) → result_sim (Forall2 P) (collect f l) (collect f' l).
Proof.
  intros Hf. apply (collect_sim (λ x y, x = y ∧ x ∈ l)).
  - apply Forall2_same_length_lookup_2; [done|]. intros i x y Hx Hy. simplify_eq.
    eauto using list_elem_of_lookup_2.
  - intros x y [-> Hx]. auto.
Qed.

Lemma check_all_sim {A B E F : Type} (S : A → B → Prop) (f : A → result unit E)
    (f' : B → result unit F) l l' :
  Forall2 S l l' → (∀ x y, S x y → f x = Ok () → f' y = Ok ()) →
  check_all f l = Ok () → check_all f' l' = Ok ().
Proof.
  intros Hl Hf. rewrite !check_all_ok. intros Hall y Hy. apply Forall2_flip in Hl.
  destruct (Forall2_elem_l _ _ _ _ Hl Hy) as (x & Hx & Hxy). eauto.
Qed.

Lemma result_sim_unit {E F : Type} (r : result unit E) (r' : result unit F) :
  (r = Ok () → r' = Ok ()) → (r' = Ok () → r = Ok ()) → result_sim (λ _ _, True) r r'.
Proof. destruct r as [[]|], r' as [[]|]; simpl; naive_solver. Qed.

Lemma Forall2_imap_sim {A B C D : Type} (S : A → B → Prop) (P : C → D → Prop) f f' l l' :
  Forall2 S l l' → (∀ i x y, S x y → P (f i x) (f' i y)) → Forall2 P (imap f l) (imap f' l').
Proof.
  intros Hl. revert f f'. induction Hl as [|x y l l' Hxy _ IH]; intros f f' Hf; simpl; [constructor|].
  constructor; [by apply Hf|]. apply IH. intros i. apply Hf.
Qed.

Lemma Forall2_zip_sim {A B C D : Type} (S : A → B → Prop) (P : C → D → Prop) l l' k k' :
  Forall2 S l l' → Forall2 P k k' →
  Forall2 (λ x y : _ * _, S x.1 y.1 ∧ P x.2 y.2) (zip l k) (zip l' k').
Proof.
  intros Hl. revert k k'. induction Hl as [|x y l l' Hxy _ IH]; intros k k' Hk; [constructor|].
  destruct Hk as [|u v k k' Huv Hk]; simpl; [constructor|]. constructor; [done|auto].
Qed.

Lemma Forall2_refl {A : Type} (P : A → A → Prop) l : (∀ x, P x x) → Forall2 P l l.
Proof. intros HP. apply Forall_Forall2_diag, Forall_forall. auto. Qed.

(** ** Tasks up to their id, and up to the gates of their signals *)

Definition with_id (id : string) (t : TaskDefinition) : TaskDefinition :=
  mkTaskDefinition id (task_workflow_id t) (task_name t) (task_type t)
    (task_nix_expression_path t) (task_nix_args t) (task_outputs t) (task_inputs t)
    (task_secrets t) (task_max_attempts t) (task_input_sources t) (task_timeout_secs t)
    (task_emits t) (task_routing_vars t) (task_loop_participant t).

Definition no_gates (l : InputSourceList) : InputSourceList :=
  mkInputSourceList (set_gate_edge "" <$> sources_list l).

Definition erase (t : TaskDefinition) : TaskDefinition :=
  set_input_sources (with_id "" t) (no_gates <$> task_input_sources t).

Lemma normalize_slot_erase o : normalize_slot (set_gate_edge "" o) = normalize_slot o.
Proof. by destruct o as [[[[[]|]]|]]. Qed.

Lemma project_task_erase ser t : project_task ser (erase t) = project_task ser t.
Proof.
  unfold project_task, erase. simpl. do 7 f_equal. f_equal.
  destruct (task_input_sources t) as [[l]|]; [|done]. unfold normalize_input_sources. simpl. f_equal.
  induction l as [|o l IH]; csimpl; [done|]. by rewrite IH, normalize_slot_erase.
Qed.

Lemma erase_patch_slot slot gate t : erase (patch_slot slot gate t) = erase t.
Proof.
  unfold patch_slot. destruct (task_input_sources t) as [[l]|] eqn:Hl; [|done].
  unfold erase, set_input_sources, with_id. simpl. rewrite Hl. simpl. f_equal. f_equal.
  unfold no_gates. simpl. f_equal. rewrite (list_fmap_alter _ _ id), list_alter_id; [done..|].
  apply Forall_forall. intros o _. by destruct o as [[[[[]|]]|]].
Qed.

Lemma apply_resolved_erases rs : ∀ tasks,
  Forall2 (λ t t', task_id t' = task_id t ∧ erase t' = erase t) tasks (foldl apply_resolved tasks rs).
Proof.
  assert (∀ r tasks, Forall2 (λ t t', task_id t' = task_id t ∧ erase t' = erase t)
                       tasks (apply_resolved tasks r)) as Hone.
  { intros r. unfold apply_resolved. induction tasks as [|t tasks IH]; simpl; [constructor|].
    case_bool_decide; constructor; [|by apply Forall_Forall2_diag, Forall_forall|done|done].
    rewrite erase_patch_slot. split; [|done]. unfold patch_slot. by destruct (task_input_sources t). }
  induction rs as [|r rs IH]; intros tasks; simpl; [by apply Forall_Forall2_diag, Forall_forall|].
  eapply Forall2_trans; [|apply Hone|apply IH]. simpl. intros ? ? ? [? ?] [? ?]. split; congruence.
Qed.

Section stability.
Context `{UuidLaws Uuid} (jsonpath_ok : string → bool) (fresh fresh' : nat → Uuid) (n0 n0' : nat).
Hypothesis fresh_inj : ∀ i j, fresh i = fresh j → i = j.
Hypothesis fresh_inj' : ∀ i j, fresh' i = fresh' j → i = j.

(** The ids drawn at the same moment of the two parses. *)
Definition drawn (u u' : Uuid) : Prop := ∃ i, u = fresh (n0 + i) ∧ u' = fresh' (n0' + i).
Definition paired (s s' : string) : Prop :=
  ∃ u u', drawn u u' ∧ s = uuid_to_string u ∧ s' = uuid_to_string u'.
Definition same_count (n n' : nat) : Prop := ∃ i, n = n0 + i ∧ n' = n0' + i.

Lemma paired_one_to_one : one_to_one paired.
Proof.
  intros a b a' b' (? & ? & (i & -> & ->) & -> & ->) (? & ? & (j & -> & ->) & -> & ->).
  split; intros Heq%uuid_to_string_inj.
  - apply fresh_inj in Heq. replace i with j by lia. done.
  - apply fresh_inj' in Heq. replace i with j by lia. done.
Qed.

Lemma drawn_paired u u' : drawn u u' → paired (uuid_to_string u) (uuid_to_string u').
Proof. intros. by exists u, u'. Qed.

Lemma drawn_fresh n n' i : same_count n n' → drawn (fresh (n + i)) (fresh' (n' + i)).
Proof. intros (j & -> & ->). exists (j + i). split; f_equal; lia. Qed.

Lemma paired_fresh n n' i : same_count n n' → paired (fresh_id fresh (n + i)) (fresh_id fresh' (n' + i)).
Proof. intros. by apply drawn_paired, drawn_fresh. Qed.

Lemma same_count_add n n' i : same_count n n' → same_count (n + i) (n' + i).
Proof. intros (j & -> & ->). exists (j + i). lia. Qed.

Lemma paired_parse s s' :
  paired s s' → ∃ u u', drawn u u' ∧ uuid_parse_str s = Some u ∧ uuid_parse_str s' = Some u'.
Proof. intros (u & u' & Hu & -> & ->). exists u, u'. by rewrite !uuid_parse_to_string. Qed.

(** ** Tasks *)

Definition lowered_sim (t t' : TaskDefinition) : Prop :=
  paired (task_id t) (task_id t') ∧ with_id "" t' = with_id "" t.

Lemma task_to_proto_sim wid id id' task :
  paired id id' → result_sim lowered_sim (task_to_proto wid id task) (task_to_proto wid id' task).
Proof.
  intros Hid. unfold task_to_proto. eapply bind_sim; [by apply (result_sim_refl eq)|].
  intros path ? <-. simpl. by split.
Qed.

Lemma stamp_timeout_sim t t' p :
  lowered_sim t t' → result_sim lowered_sim (stamp_timeout (t, p)) (stamp_timeout (t', p)).
Proof.
  intros [Hid Heq]. unfold stamp_timeout. simpl. destruct (pt_timeout p); [|by split].
  eapply bind_sim; [by apply (result_sim_refl eq)|]. intros d ? <-. split; [done|].
  change (set_timeout (with_id "" t') (duration_secs d) = set_timeout (with_id "" t) (duration_secs d)).
  by rewrite Heq.
Qed.

Lemma lowered_name t t' : lowered_sim t t' → task_name t' = task_name t.
Proof. intros [_ Heq]. by apply (f_equal task_name) in Heq. Qed.

Lemma stamp_loop_sim names t t' :
  lowered_sim t t' → lowered_sim (stamp_loop names t) (stamp_loop names t').
Proof.
  intros Ht. unfold stamp_loop. rewrite (lowered_name t t' Ht). case_bool_decide; [|done].
  destruct Ht as [Hid Heq]. split; [done|].
  change (set_loop_participant (with_id "" t') = set_loop_participant (with_id "" t)). by rewrite Heq.
Qed.

Definition names_sim (m m' : gmap string Uuid) : Prop :=
  ∀ name, option_Forall2 drawn (m !! name) (m' !! name).

Lemma foldl_names_sim l l' m m' :
  Forall2 (λ x y : TaskDefinition * Uuid, lowered_sim x.1 y.1 ∧ drawn x.2 y.2) l l' →
  names_sim m m' →
  names_sim (foldl (λ m ti, <[task_name ti.1 := ti.2]> m) m l)
    (foldl (λ m ti, <[task_name ti.1 := ti.2]> m) m' l').
Proof.
  intros Hl. revert m m'. induction Hl as [|[t u] [t' u'] l l' [Ht Hu] _ IH]; intros m m' Hm; simpl; [done|].
  apply IH. simpl in *. rewrite (lowered_name t t' Ht). intros name.
  rewrite !lookup_insert. case_decide; [by constructor|apply Hm].
Qed.

Record built_sim (b b' : built) : Prop := {
  bs_tasks : Forall2 lowered_sim (bt_tasks b) (bt_tasks b');
  bs_names : names_sim (bt_name_to_id b) (bt_name_to_id b');
  bs_groups : Forall2 (Forall2 drawn) (bt_group_ids b) (bt_group_ids b');
  bs_next : same_count (bt_next b) (bt_next b')
}.

Lemma build_group_sim wid b b' group :
  built_sim b b' → result_sim built_sim (build_group fresh wid b group) (build_group fresh' wid b' group).
Proof.
  intros [Htasks Hnames Hgroups Hnext]. unfold build_group, group_to_proto_tasks.
  eapply bind_sim.
  { apply (collect_same_sim lowered_sim). intros [i task] _. by apply task_to_proto_sim, paired_fresh. }
  intros ts1 ts1' Hts1. eapply bind_sim.
  { eapply (collect_sim _ lowered_sim); [by apply (Forall2_zip_sim lowered_sim eq), Forall2_refl|].
    intros [t p] [t' p'] [Ht Hp]. simpl in *. subst p'. by apply stamp_timeout_sim. }
  intros ts2 ts2' Hts2. cbv zeta. set (ts := stamp_loop _ <$> ts2). set (ts' := stamp_loop _ <$> ts2').
  assert (Forall2 lowered_sim ts ts') as Hts.
  { apply Forall2_fmap_2. eapply Forall2_impl; [exact Hts2|]. intros. by apply stamp_loop_sim. }
  eapply bind_sim.
  { eapply (collect_sim _ drawn); [exact Hts|]. intros t t' [(u & u' & Hu & -> & ->)%paired_parse _]. done. }
  intros ids ids' Hids. simpl. split; simpl.
  - by apply Forall2_app.
  - apply foldl_names_sim; [|done]. by apply Forall2_zip_sim.
  - apply Forall2_app; [done|by constructor].
  - by apply same_count_add.
Qed.

Lemma build_groups_sim wid groups : ∀ b b',
  built_sim b b' → result_sim built_sim (build_groups fresh wid b groups) (build_groups fresh' wid b' groups).
Proof.
  induction groups as [|g groups IH]; intros b b' Hb; simpl; [done|].
  eapply bind_sim; [by apply build_group_sim|]. auto.
Qed.

(** ** Edges *)

Lemma resolve_name_sim m m' s s' e e' name :
  names_sim m m' → drawn s s' → drawn e e' →
  result_sim paired (resolve_name m s e name) (resolve_name m' s' e' name).
Proof.
  intros Hm Hs He. unfold resolve_name. destruct (Hm name) as [u u' Hu|]; [by apply drawn_paired|].
  case_bool_decide; [by apply drawn_paired|]. case_bool_decide; [by apply drawn_paired|done].
Qed.

Lemma windows2_sim l l' :
  Forall2 drawn l l' →
  Forall2 (λ x y : Uuid * Uuid, drawn x.1 y.1 ∧ drawn x.2 y.2) (windows2 l) (windows2 l').
Proof.
  intros Hl. induction Hl as [|x y l l' Hxy Hl IH]; simpl; [constructor|].
  destruct Hl; [constructor|]. constructor; [done|exact IH].
Qed.

Lemma chain_edges_sim n n' ids ids' :
  same_count n n' → Forall2 drawn ids ids' →
  Forall2 (edge_sim paired) (chain_edges fresh n ids) (chain_edges fresh' n' ids').
Proof.
  intros Hn Hids. eapply Forall2_imap_sim; [by apply windows2_sim|].
  intros i x y [? ?]. split; simpl; [by apply paired_fresh|..|done|done];
    (constructor; [by apply drawn_paired|constructor]).
Qed.

Lemma build_edge_sim resolve resolve' name id id' e :
  paired id id' → (∀ x, result_sim paired (resolve x) (resolve' x)) →
  result_sim (edge_sim paired) (build_edge jsonpath_ok resolve name id e)
    (build_edge jsonpath_ok resolve' name id' e).
Proof.
  intros Hid Hres. unfold build_edge.
  eapply bind_sim; [by apply (collect_same_sim paired)|]. intros src src' Hsrc.
  eapply bind_sim; [by apply (collect_same_sim paired)|]. intros tgt tgt' Htgt.
  eapply bind_sim; [by apply (result_sim_refl eq)|]. intros gates ? <-. simpl. by split.
Qed.

Lemma group_edges_sim resolve resolve' name n n' g ids ids' :
  same_count n n' → (∀ x, result_sim paired (resolve x) (resolve' x)) → Forall2 drawn ids ids' →
  result_sim (Forall2 (edge_sim paired)) (group_edges jsonpath_ok fresh resolve name n g ids)
    (group_edges jsonpath_ok fresh' resolve' name n' g ids').
Proof.
  intros Hn Hres Hids. unfold group_edges. destruct (ptg_edges g); [by apply chain_edges_sim|].
  apply collect_same_sim. intros [i e] _. apply build_edge_sim; [by apply paired_fresh|done].
Qed.

Lemma all_edges_sim resolve resolve' name groups : ∀ n n' groups',
  same_count n n' → (∀ x, result_sim paired (resolve x) (resolve' x)) →
  Forall2 (λ x y : ParsedTaskGroup * list Uuid, x.1 = y.1 ∧ Forall2 drawn x.2 y.2) groups groups' →
  result_sim (Forall2 (edge_sim paired)) (all_edges jsonpath_ok fresh resolve name n groups)
    (all_edges jsonpath_ok fresh' resolve' name n' groups').
Proof.
  induction groups as [|[g ids] groups IH]; intros n n' groups' Hn Hres Hg.
  { inversion Hg. subst. constructor. }
  inversion Hg as [|? [g' ids'] ? groups'' [Heq Hids] Hrest]; subst. simpl in *. subst g'.
  eapply bind_sim; [by apply group_edges_sim|]. intros es es' Hes.
  eapply bind_sim; [apply IH; [|done|done]|].
  { rewrite (Forall2_length _ _ _ Hes). by apply same_count_add. }
  intros rest rest' Hr. by apply Forall2_app.
Qed.

Lemma build_graph_sim pw wid :
  result_sim (λ x y : built * TaskGraph * nat,
      built_sim x.1.1 y.1.1 ∧ graph_sim paired x.1.2 y.1.2 ∧ same_count x.2 y.2)
    (build_graph jsonpath_ok fresh pw wid n0) (build_graph jsonpath_ok fresh' pw wid n0').
Proof.
  unfold build_graph. eapply bind_sim.
  { apply build_groups_sim. split; simpl; [constructor|by intros name; rewrite lookup_empty; constructor|constructor|].
    exists 0. lia. }
  intros b b' Hb. cbv zeta. pose proof (bs_next _ _ Hb) as Hn.
  pose proof (drawn_fresh _ _ 0 Hn) as Hs. pose proof (drawn_fresh _ _ 1 Hn) as He.
  rewrite !Nat.add_0_r in Hs. rewrite !Nat.add_1_r in He.
  assert (same_count (S (S (bt_next b))) (S (S (bt_next b')))) as Hn2.
  { destruct Hn as (i & -> & ->). exists (S (S i)). lia. }
  eapply bind_sim.
  { apply all_edges_sim; [done|intros; apply resolve_name_sim; [apply Hb|done..]|].
    apply (Forall2_zip_sim eq); [by apply Forall2_refl|apply Hb]. }
  intros es es' Hes. simpl. split_and!; [done| |].
  - split; simpl; [by apply drawn_paired..|done].
  - rewrite (Forall2_length _ _ _ Hes). by apply (same_count_add _ _ (length es') Hn2).
Qed.

(** ** Signal resolution *)

Lemma filter_length_sim {A B : Type} (S : A → B → Prop) f f' l l' :
  Forall2 S l l' → (∀ x y, S x y → f x = f' y) → length (List.filter f l) = length (List.filter f' l').
Proof.
  intros Hl Hf. induction Hl as [|x y l l' Hxy _ IH]; simpl; [done|].
  rewrite (Hf x y Hxy). destruct (f' y); simpl; lia.
Qed.

Lemma dominating_gates_sim g g' tid tid' name :
  graph_sim paired g g' → paired tid tid' →
  length (dominating_gates g tid name) = length (dominating_gates g' tid' name).
Proof.
  intros Hg Ht. unfold dominating_gates. rewrite !length_fmap.
  eapply filter_length_sim; [apply (gm_edges _ _ _ Hg)|]. intros e e' Hee.
  unfold carries_signal. rewrite (em_gates _ _ _ Hee). f_equal.
  apply eq_true_sim. rewrite !dominates_bool.
  eapply gate_dominates_iff; [apply paired_one_to_one|done|apply Hee|done].
Qed.

Lemma resolve_slot_sim g g' t t' slot opt :
  graph_sim paired g g' → paired (task_id t) (task_id t') →
  result_sim (λ _ _, True) (resolve_slot g t slot opt) (resolve_slot g' t' slot opt).
Proof.
  intros Hg Ht. unfold resolve_slot. destruct (optional_source opt) as [[[[]|]]|]; try done.
  destruct (negb _); [done|].
  pose proof (dominating_gates_sim g g' _ _ signal_name Hg Ht) as Hlen.
  destruct (dominating_gates g _ _) as [|? [|]], (dominating_gates g' _ _) as [|? [|]]; simpl in *; done || lia.
Qed.

Lemma apply_signal_resolution_sim tasks tasks' g g' :
  graph_sim paired g g' → Forall2 lowered_sim tasks tasks' →
  result_sim (Forall2 (λ t t', paired (task_id t) (task_id t') ∧ erase t' = erase t))
    (apply_signal_resolution tasks g) (apply_signal_resolution tasks' g').
Proof.
  intros Hg Hts. unfold apply_signal_resolution, resolve_signal_input_sources.
  apply (bind_sim (λ _ _, True)).
  - apply map_err_sim. eapply (bind_sim (Forall2 (λ _ _, True))); [|done].
    eapply collect_sim; [exact Hts|]. intros t t' [Hid Heq]. unfold resolve_task.
    apply (f_equal task_input_sources) in Heq. simpl in Heq. rewrite Heq.
    destruct (task_input_sources t); [|done].
    eapply (bind_sim (Forall2 (λ _ _, True))); [|done].
    apply collect_same_sim. intros [slot opt] _. by apply resolve_slot_sim.
  - intros rs rs' _. simpl.
    eapply Forall2_trans; [|eapply Forall2_flip, apply_resolved_erases|].
    2: { eapply (Forall2_trans _ _ (λ t t', paired (task_id t) (task_id t') ∧ erase t' = erase t));
           [|exact Hts|apply apply_resolved_erases].
         intros t t' t'' [Hid Heq] [-> ->]. split; [done|].
         unfold erase. by rewrite Heq, (f_equal task_input_sources Heq : task_input_sources t' = _). }
    simpl. intros t t' t'' [Hid Heq] [Hp He]. split; [by rewrite Hid|congruence].
Qed.

(** ** Predicate gates *)

Lemma find_body_iff g p src :
  match List.find (λ b : gset string, bool_decide (p ∈ b)) (loop_sccs g) with
  | Some b => bool_decide (src ∈ b)
  | None => false
  end = true ↔ ∃ c, loop_body g c ∧ p ∈ c ∧ src ∈ c.
Proof.
  destruct (loop_sccs_spec g) as (_ & _ & Hs). destruct (List.find _ _) as [b|] eqn:Hf.
  - apply List.find_some in Hf as [Hb%list_elem_of_In%Hs Hp%bool_decide_eq_true].
    rewrite bool_decide_eq_true. split; [eauto|]. intros (c & Hc & Hpc & Hsrc).
    by rewrite (loop_body_unique g b c p).
  - split; [done|]. intros (c & Hc%Hs%list_elem_of_In & Hpc & _).
    eapply List.find_none in Hf; [|done]. by rewrite bool_decide_eq_true_2 in Hf.
Qed.

(** A source is excused when it shares a loop body with the producer. *)
Definition excused (g : TaskGraph) (routing_var p src : string) : Prop :=
  routing_var = "loop_control" ∧ ∃ c, loop_body g c ∧ p ∈ c ∧ src ∈ c.

Lemma check_predicate_source_ok g routing_var name p src :
  check_predicate_source g routing_var name p
    (if bool_decide (routing_var = "loop_control")
     then List.find (λ b, bool_decide (p ∈ b)) (loop_sccs g) else None) src = Ok () ↔
  excused g routing_var p src ∨ task_dominates g p src.
Proof.
  unfold check_predicate_source, excused. rewrite <-validate_task_dominates_ok.
  case_bool_decide as Hv; simpl.
  - rewrite <-find_body_iff. destruct (List.find _ _) as [b|].
    + destruct (bool_decide (src ∈ b)); [naive_solver|].
      destruct (validate_task_dominates g p src) as [[]|]; naive_solver.
    + destruct (validate_task_dominates g p src) as [[]|]; naive_solver.
  - destruct (validate_task_dominates g p src) as [[]|]; naive_solver.
Qed.

Definition ids_sim (R : string → string → Prop) (m m' : gmap string Uuid) : Prop :=
  ∀ name, option_Forall2 (λ u u', R (uuid_to_string u) (uuid_to_string u')) (m !! name) (m' !! name).

Lemma ids_sim_flip R m m' : ids_sim R m m' → ids_sim (flip R) m' m.
Proof. intros Hm name. destruct (Hm name); by constructor. Qed.

Lemma excused_sim R g g' var p p' src src' :
  one_to_one R → graph_sim R g g' → R p p' → R src src' →
  excused g var p src → excused g' var p' src'.
Proof.
  intros HR Hg Hp Hs (Hv & c & Hc & Hpc & Hsc). split; [done|].
  destruct (loop_body_sim R g g' c HR Hg Hc) as (c' & Hc' & Hcc). exists c'.
  split_and!; [done|by apply (elem_of_body_sim R c c' p p')|by apply (elem_of_body_sim R c c' src src')].
Qed.

Lemma check_predicate_gate_sim R g g' prods m m' e e' gate :
  one_to_one R → graph_sim R g g' → ids_sim R m m' → edge_sim R e e' →
  check_predicate_gate g (loop_sccs g) prods m e gate = Ok () →
  check_predicate_gate g' (loop_sccs g') prods m' e' gate = Ok ().
Proof.
  intros HR Hg Hm Hee. unfold check_predicate_gate. destruct (gate_kind gate) as [[|ph|]|]; try done.
  destruct (prods !! ph_routing_var ph) as [name|]; [|done]. simpl.
  destruct (Hm name) as [p p' Hp|]; [|done]. simpl.
  apply (check_all_sim R); [apply Hee|]. intros src src' Hs.
  rewrite !check_predicate_source_ok. intros [He|Hd]; [left; by eapply excused_sim|right].
  by eapply task_dominates_sim.
Qed.

Lemma validate_predicates_sim R pw g g' m m' :
  one_to_one R → graph_sim R g g' → ids_sim R m m' →
  validate_predicate_gate_dominators_proto pw g m = Ok () →
  validate_predicate_gate_dominators_proto pw g' m' = Ok ().
Proof.
  intros HR Hg Hm. unfold validate_predicate_gate_dominators_proto.
  apply (check_all_sim (edge_sim R)); [apply Hg|]. intros e e' Hee.
  rewrite (em_gates _ _ _ Hee). apply (check_all_sim eq); [by apply Forall2_refl|].
  intros gate ? <-. by apply (check_predicate_gate_sim R).
Qed.

(** ** The whole lowering *)

Definition task_sim (t t' : TaskDefinition) : Prop :=
  paired (task_id t) (task_id t') ∧ erase t' = erase t.

Lemma outputs_sim tasks tasks' :
  Forall2 task_sim tasks tasks' → task_outputs <$> tasks' = task_outputs <$> tasks.
Proof.
  induction 1 as [|t t' ts ts' [_ Heq] _ IH]; csimpl; [done|].
  apply (f_equal task_outputs) in Heq. simpl in Heq. congruence.
Qed.

Record def_sim (def def' : WorkflowDefinition) : Prop := {
  dm_id : def_id def' = def_id def;
  dm_name : def_name def' = def_name def;
  dm_tags : def_tags def' = def_tags def;
  dm_tasks : Forall2 task_sim (def_tasks def) (def_tasks def');
  dm_graph : graph_sim paired (graph_of def) (graph_of def');
  dm_trigger : def_trigger def' = def_trigger def;
  dm_captures : def_captures def' = def_captures def;
  dm_timeout : def_timeout_secs def' = def_timeout_secs def
}.

Lemma same_sim {A E : Type} (r : result A E) : result_sim eq r r.
Proof. by apply result_sim_refl. Qed.

Lemma sealed_sim b b' g g' n n' :
  built_sim b b' → graph_sim paired g g' → same_count n n' →
  graph_sim paired (pdg_graph (seal (fresh_id fresh) (mkPDG (task_id <$> bt_tasks b) g) n).1)
    (pdg_graph (seal (fresh_id fresh') (mkPDG (task_id <$> bt_tasks b') g') n').1).
Proof.
  intros Hb Hg Hn. apply seal_sim; [apply paired_one_to_one|intros; by apply paired_fresh|done|].
  simpl. apply Forall2_fmap_2. eapply Forall2_impl; [apply Hb|]. by intros ? ? [].
Qed.

Lemma build_workflow_sim OID pw tenant ns :
  result_sim def_sim (build_workflow OID jsonpath_ok fresh pw tenant ns n0)
    (build_workflow OID jsonpath_ok fresh' pw tenant ns n0').
Proof.
  unfold build_workflow.
  eapply bind_sim; [apply same_sim|intros _ _ _]. eapply bind_sim; [apply same_sim|intros _ _ _].
  eapply bind_sim; [apply same_sim|intros _ _ _]. cbv zeta.
  eapply bind_sim; [apply same_sim|intros _ _ _]. eapply bind_sim; [apply same_sim|intros _ _ _].
  eapply bind_sim; [apply same_sim|intros timeout ? <-].
  eapply bind_sim; [apply build_graph_sim|]. intros [[b g] n] [[b' g'] n'] (Hb & Hg & Hn). simpl in *.
  pose proof (sealed_sim b b' g g' n n' Hb Hg Hn) as Hs.
  set (sealed := pdg_graph _) in *. set (sealed' := pdg_graph (seal (fresh_id fresh') _ _).1) in *.
  eapply bind_sim; [apply apply_signal_resolution_sim; [exact Hs|apply Hb]|]. intros ts ts' Hts.
  assert (ids_sim paired (bt_name_to_id b) (bt_name_to_id b')) as Hm.
  { intros name. destruct (bs_names _ _ Hb name); constructor. by apply drawn_paired. }
  pose proof paired_one_to_one as H1. pose proof (one_to_one_flip _ H1) as H1f.
  eapply bind_sim.
  { apply result_sim_unit; [by apply (validate_predicates_sim paired)|].
    apply (validate_predicates_sim (flip paired)); [done|by apply graph_sim_flip|by apply ids_sim_flip]. }
  intros _ _ _. eapply bind_sim.
  { apply map_err_sim, result_sim_unit; [by apply (validate_loop_terminability_sim paired)|].
    apply (validate_loop_terminability_sim (flip paired)); [done|by apply graph_sim_flip]. }
  intros _ _ _. eapply bind_sim.
  { unfold build_trigger, validate_captures_with_outputs. rewrite (outputs_sim ts ts' Hts). apply same_sim. }
  intros trigger ? <-. simpl. by split.
Qed.

(** ** The hash *)

Lemma task_labels_sim tasks tasks' m m' id id' :
  Forall2 task_sim tasks tasks' → paired id id' → m !! id = m' !! id' →
  task_labels m tasks !! id = task_labels m' tasks' !! id'.
Proof.
  intros Hts Hid. revert m m'. induction Hts as [|t t' ts ts' [Ht Heq] _ IH]; intros m m' Hm; simpl; [done|].
  apply IH. apply (f_equal task_name) in Heq. simpl in Heq. rewrite !lookup_insert, Heq.
  pose proof (paired_one_to_one _ _ _ _ Ht Hid). repeat case_decide; tauto || done.
Qed.

Lemma label_sim def def' id id' :
  def_sim def def' → paired id id' →
  label (labels (def_tasks def) (graph_of def)) id = label (labels (def_tasks def') (graph_of def')) id'.
Proof.
  intros Hd Hid. unfold label, labels. f_equal. rewrite !lookup_insert.
  pose proof (paired_one_to_one _ _ _ _ (gm_start _ _ _ (dm_graph _ _ Hd)) Hid).
  pose proof (paired_one_to_one _ _ _ _ (gm_end _ _ _ (dm_graph _ _ Hd)) Hid).
  repeat case_decide; try tauto; try done. apply task_labels_sim; [apply Hd|done|].
  by rewrite !lookup_empty.
Qed.

Lemma fmap_sim {A B C : Type} (S : A → B → Prop) (f : A → C) f' l l' :
  Forall2 S l l' → (∀ x y, S x y → f x = f' y) → f' <$> l' = f <$> l.
Proof. intros Hl Hf. induction Hl; csimpl; [done|]. f_equal; [by symmetry; auto|done]. Qed.

Lemma project_sim ser to_string def def' :
  def_sim def def' → project ser to_string def' = project ser to_string def.
Proof.
  intros Hd. unfold project. fold (graph_of def) (graph_of def').
  rewrite (dm_trigger _ _ Hd), (dm_captures _ _ Hd), (dm_timeout _ _ Hd).
  rewrite (fmap_sim task_sim (project_task ser) (project_task ser) _ _ (dm_tasks _ _ Hd)).
  - rewrite (fmap_sim (edge_sim paired)
               (project_edge ser (labels (def_tasks def) (graph_of def)))
               (project_edge ser (labels (def_tasks def') (graph_of def'))) _ _
               (gm_edges _ _ _ (dm_graph _ _ Hd))); [done|].
    intros e e' Hee. unfold project_edge. rewrite (em_kind _ _ _ Hee), (em_gates _ _ _ Hee).
    rewrite (fmap_sim paired (label (labels (def_tasks def) (graph_of def))) _ _ _ (em_sources _ _ _ Hee));
      [|intros; by apply label_sim].
    by rewrite (fmap_sim paired (label (labels (def_tasks def) (graph_of def))) _ _ _ (em_targets _ _ _ Hee))
      by (intros; by apply label_sim).
  - intros t t' [_ Heq]. by rewrite <-(project_task_erase ser t), <-Heq, project_task_erase.
Qed.
End stability.

Lemma reparse_hashes `{UuidLaws Uuid} NAMESPACE_OID jsonpath_ok (fresh fresh' : nat → Uuid)
    ser to_string escape float_to_string sha256 pw tenant namespace n n' :
  (∀ i j, fresh i = fresh j → i = j) → (∀ i j, fresh' i = fresh' j → i = j) →
  result_sim (λ def def', def_id def' = def_id def ∧
      content_hash ser to_string escape float_to_string sha256 def' =
        content_hash ser to_string escape float_to_string sha256 def ∧
      cosmetic_hash ser escape float_to_string sha256 def' =
        cosmetic_hash ser escape float_to_string sha256 def)
    (build_workflow NAMESPACE_OID jsonpath_ok fresh pw tenant namespace n)
    (build_workflow NAMESPACE_OID jsonpath_ok fresh' pw tenant namespace n').
Proof.
  intros Hinj Hinj'.
  pose proof (build_workflow_sim jsonpath_ok fresh fresh' n n' Hinj Hinj' NAMESPACE_OID pw tenant namespace)
    as Hsim.
  destruct (build_workflow _ _ fresh _ _ _ _) as [def|], (build_workflow _ _ fresh' _ _ _ _) as [def'|];
    try done.
  simpl in *. split_and!; [apply Hsim| |].
  - unfold content_hash. by rewrite (project_sim jsonpath_ok fresh fresh' n n' Hinj Hinj' ser to_string def def').
  - unfold cosmetic_hash. by rewrite (dm_name _ _ _ _ _ _ Hsim), (dm_tags _ _ _ _ _ _ Hsim).
Qed.

(** C31: Parsing a source twice gives the same content: with any two supplies of fresh
    ids both parses succeed or both fail, and when they succeed the two
    definitions have the same workflow id, the same content hash and the same
    cosmetic hash, although they share no task or edge id. *)
Theorem reparse_same_content `{UuidLaws Uuid} NAMESPACE_OID jsonpath_ok (fresh fresh' : nat → Uuid)
    ser to_string escape float_to_string sha256 pw tenant namespace n n'
    (Hinj : ∀ i j, fresh i = fresh j → i = j) (Hinj' : ∀ i j, fresh' i = fresh' j → i = j) :
  result_sim (λ def def', def_id def' = def_id def ∧
      content_hash ser to_string escape float_to_string sha256 def' =
        content_hash ser to_string escape float_to_string sha256 def ∧
      cosmetic_hash ser escape float_to_string sha256 def' =
        cosmetic_hash ser escape float_to_string sha256 def)
    (build_workflow NAMESPACE_OID jsonpath_ok fresh pw tenant namespace n)
    (build_workflow NAMESPACE_OID jsonpath_ok fresh' pw tenant namespace n').
Proof. by apply reparse_hashes. Qed.

Lemma reparse_same_content_witness :
  ∃ def', build_workflow (mkBitUuid []) (λ _, true) bit_supply release (mkBitUuid [true]) "" 100 = Ok def' ∧
    content_hash null_serializers (λ _, "") id (λ _, "") (λ _, []) def' =
    content_hash null_serializers (λ _, "") id (λ _, "") (λ _, []) release_def.
Proof.
  pose proof (reparse_same_content (mkBitUuid []) (λ _, true) bit_supply bit_supply null_serializers
                (λ _, "") id (λ _, "") (λ _, []) release (mkBitUuid [true]) "" 0 100
                bit_supply_inj bit_supply_inj) as Hs.
  rewrite release_builds in Hs.
  destruct (build_workflow _ _ bit_supply release _ _ 100) as [def'|]; [|destruct Hs].
  exists def'. split; [reflexivity|]. apply Hs.
Defined.
