(* ===== verification/PatchDocument.v ===== *)
(** * Patch documents

    The document half of [patch_pipeline.rs] over the messages of
    [proto/patch.proto]: [parse_patch_document_json] after [serde] has read the
    document, that is the choice of the shape and the lowering of each one.  A
    fresh node id is drawn from the supply [fresh] per task the patch
    introduces; the number of ids drawn and the [ops] under construction are
    threaded in the order of the calls. *)

From S2P Require Import Prelude Workflow Duration Json Uuid ParserTypes Validators Builder.

(** ** Messages *)

Unset Elimination Schemes.
Inductive ChainStep :=
| mkChainStep (handle : string) (node : option StepNode)
with StepNode :=
| mkStepNode (node : option StepNodeKind)
with StepNodeKind :=
| StepNode_Task (node_id : string)
| StepNode_Nested (steps : list ChainStep).
Set Elimination Schemes.

Definition step_handle (s : ChainStep) : string := let 'mkChainStep h _ := s in h.

Record ChainRelay := mkChainRelay { relay_edge : string; relay_var : string }.

Record BranchArm := mkBranchArm { arm_gate : option Gate; arm_step : option ChainStep }.

Inductive PatchOperationKind :=
| Op_Insert (anchor node_id : string)
| Op_Chain (anchor : string) (steps : list ChainStep) (relay : option ChainRelay)
| Op_Fork (anchor : string) (arms : list ChainStep)
| Op_Expand (anchor : string) (arms : list ChainStep)
| Op_Swap (target node_id : string)
| Op_Branch (anchor : string) (arms : list BranchArm)
| Op_Loop (path : list string)
| Op_Cut (target : string)
| Op_Prune (arm : string)
| Op_Trim (anchor : string)
| Op_Truncate (anchor : string).

Record PatchOperation := mkPatchOperation { operation_kind : option PatchOperationKind }.

Inductive PatchOpKind :=
| AddNode (node_id : string) (task : option TaskDefinition)
| AddEdge (sources targets : list string) (kind : Z) (gates : list Gate)
| RemoveNode (node_id : string)
| RemoveEdge (edge_id : string).

Record AddressedPatchOp := mkAddressedPatchOp { patch_op : option PatchOpKind }.

(** ** The raw document *)

Inductive RawPatchOp (Uuid : Type) :=
| RawAddNode (node_id : Uuid) (task : option ParsedTask)
| RawAddEdge (sources targets : list string) (kind : EdgeKind) (gates : list ParsedGate)
| RawRemoveNode (node_id : string)
| RawRemoveEdge (edge_id : string).
Arguments RawAddNode {Uuid} node_id task.
Arguments RawAddEdge {Uuid} sources targets kind gates.
Arguments RawRemoveNode {Uuid} node_id.
Arguments RawRemoveEdge {Uuid} edge_id.

Unset Elimination Schemes.
Inductive RawChainStep :=
| mkRawChainStep (handle : string) (task : option ParsedTask) (steps : option (list RawChainStep)).
Set Elimination Schemes.

Definition raw_handle (s : RawChainStep) : string := let 'mkRawChainStep h _ _ := s in h.

Record RawInsertOperation := mkRawInsert { ri_anchor : string; ri_task : ParsedTask }.
Record RawChainRelay := mkRawRelay { rr_edge : string; rr_var : string }.
Record RawChainOperation := mkRawChain {
  rc_anchor : string; rc_steps : list RawChainStep; rc_relay : option RawChainRelay }.
Record RawForkOperation := mkRawFork { rf_anchor : string; rf_arms : list RawChainStep }.
Record RawBranchArm := mkRawBranchArm {
  rba_handle : string; rba_gate : ParsedGate; rba_task : option ParsedTask;
  rba_steps : option (list RawChainStep) }.
Record RawBranchOperation := mkRawBranch { rb_anchor : string; rb_arms : list RawBranchArm }.
Record RawExpandArm := mkRawExpandArm {
  rea_task : option ParsedTask; rea_steps : option (list RawChainStep) }.
(** The entries of the [BTreeMap], in the order of its keys. *)
Record RawExpandOperation := mkRawExpand {
  rx_anchor : string; rx_over : list (string * RawExpandArm) }.
Record RawSwapOperation := mkRawSwap { rs_target : string; rs_task : ParsedTask }.
Record RawLoopOperation := mkRawLoop { rl_path : list string }.
Record RawCutOperation := mkRawCut { rcut_target : string }.
Record RawPruneOperation := mkRawPrune { rp_arm : string }.
Record RawTrimOperation := mkRawTrim { rt_anchor : string }.
Record RawTruncateOperation := mkRawTruncate { rtr_anchor : string }.

Record RawPatchDocument (Uuid : Type) := mkRawPatchDocument {
  rd_ops : option (list (RawPatchOp Uuid));
  rd_insert : option RawInsertOperation;
  rd_chain : option RawChainOperation;
  rd_fork : option RawForkOperation;
  rd_branch : option RawBranchOperation;
  rd_expand : option RawExpandOperation;
  rd_swap : option RawSwapOperation;
  rd_loop_op : option RawLoopOperation;
  rd_cut : option RawCutOperation;
  rd_prune : option RawPruneOperation;
  rd_trim : option RawTrimOperation;
  rd_truncate : option RawTruncateOperation;
  rd_reason : option string;
  rd_stall_ttl : option Z
}.
Arguments mkRawPatchDocument {Uuid}.
Arguments rd_ops {Uuid}. Arguments rd_insert {Uuid}. Arguments rd_chain {Uuid}.
Arguments rd_fork {Uuid}. Arguments rd_branch {Uuid}. Arguments rd_expand {Uuid}.
Arguments rd_swap {Uuid}. Arguments rd_loop_op {Uuid}. Arguments rd_cut {Uuid}.
Arguments rd_prune {Uuid}. Arguments rd_trim {Uuid}. Arguments rd_truncate {Uuid}.
Arguments rd_reason {Uuid}. Arguments rd_stall_ttl {Uuid}.

Inductive PatchSourceFormat := Format_Nickel | Format_Json.
Record PatchSource := mkPatchSource { source_text : string; source_format : PatchSourceFormat }.

Record ParsedPatch := mkParsedPatch {
  pp_ops : list AddressedPatchOp;
  pp_operation : option PatchOperation;
  pp_reason : option string;
  pp_stall_ttl : option Z;
  pp_source : PatchSource
}.

(** [PatchError::Parse], by the message it carries. *)
Inductive PatchError :=
| EmitsUnsupported (task : string)
| StructuredInputsUnsupported (task : string)
| MissingExpression (task : string)
| InvalidTimeout (task raw : string) (e : ParseDurationError)
| MissingFragment (label path : string)
| InvalidGate (e : BuildError)
| InvalidArmGate (handle : string) (e : BuildError)
| EmptyOperation
| DuplicateHandle (handle : string)
| BothTaskAndSteps (handle : string)
| NeitherTaskNorSteps (handle : string)
| EmptyScope (handle : string)
| EmptyOps
| ManyShapes
| NoShape.

(** ** Handles *)

Section unique.
Variable nested_unique : ChainStep → result unit string.

(** One scope: a handle met before is the answer; then the nested scope. *)
Fixpoint scope_unique (seen : gset string) (steps : list ChainStep) : result unit string :=
  match steps with
  | [] => Ok ()
  | step :: rest =>
      if bool_decide (step_handle step ∈ seen) then Err (step_handle step)
      else
        let? _ := nested_unique step in
        scope_unique ({[step_handle step]} ∪ seen) rest
  end.
End unique.

Fixpoint nested_unique (step : ChainStep) : result unit string :=
  match step with
  | mkChainStep _ (Some (mkStepNode (Some (StepNode_Nested steps)))) =>
      scope_unique nested_unique ∅ steps
  | _ => Ok ()
  end.

Definition chain_handles_unique (steps : list ChainStep) : result unit string :=
  scope_unique nested_unique ∅ steps.

Definition chain_leaf (handle node_id : string) : ChainStep :=
  mkChainStep handle (Some (mkStepNode (Some (StepNode_Task node_id)))).

Definition chain_nested (handle : string) (steps : list ChainStep) : ChainStep :=
  mkChainStep handle (Some (mkStepNode (Some (StepNode_Nested steps)))).

Section document.
Context `{UuidOps Uuid} (jsonpath_ok : string → bool) (fresh : nat → Uuid).

Definition add_node_op (node_id : Uuid) (task : option TaskDefinition) : AddressedPatchOp :=
  mkAddressedPatchOp (Some (AddNode (uuid_to_string node_id) task)).

Definition added_node_id (op : AddressedPatchOp) : option Uuid :=
  match patch_op op with Some (AddNode id _) => uuid_parse_str id | _ => None end.

Definition added_task (op : AddressedPatchOp) : option TaskDefinition :=
  match patch_op op with Some (AddNode _ task) => task | _ => None end.

Definition new_tasks (p : ParsedPatch) : list (Uuid * TaskDefinition) :=
  omap (λ op, match patch_op op with
              | Some (AddNode id (Some t)) => (λ u, (u, t)) <$> uuid_parse_str id
              | _ => None
              end) (pp_ops p).

(** ** Tasks *)

Definition lower_patch_task (n : nat) (parsed : ParsedTask)
    : result (Uuid * TaskDefinition) PatchError :=
  let? _ := ensure (bool_decide (length (pt_emits parsed) = 0)) (EmitsUnsupported (pt_name parsed)) in
  let? _ := ensure (negb (existsb is_structured (pt_inputs parsed)))
              (StructuredInputsUnsupported (pt_name parsed)) in
  let? nix_expression_path :=
    match pt_nix_expression_path parsed with
    | Some p => if blank p then Err (MissingExpression (pt_name parsed)) else Ok p
    | None => Err (MissingExpression (pt_name parsed))
    end in
  let node_id := fresh n in
  let? timeout_secs :=
    match pt_timeout parsed with
    | None => Ok None
    | Some raw =>
        let? dur := map_err (InvalidTimeout (pt_name parsed) raw) (parse_duration raw) in
        Ok (Some (duration_secs dur))
    end in
  Ok (node_id,
      mkTaskDefinition (uuid_to_string node_id) (uuid_to_string uuid_nil) (pt_name parsed)
        (TaskType_i32 TaskType_Regular) nix_expression_path (pt_args parsed) (pt_outputs parsed)
        (binding_name <$> pt_inputs parsed) (pt_secrets parsed)
        (default 3%Z (pt_max_attempts parsed)) None timeout_secs []
        ((λ rv, mkRoutingVarDecl (prv_name rv) (prv_var_type rv)) <$> pt_routing_vars parsed) false).

(** A task an operation introduces: its expression must select an attribute. *)
Definition lower_fragment_task (n : nat) (label : string) (parsed : ParsedTask)
    : result (Uuid * TaskDefinition) PatchError :=
  let? r := lower_patch_task n parsed in
  let? _ := ensure (contains_char "#" (task_nix_expression_path r.2))
              (MissingFragment label (task_nix_expression_path r.2)) in
  Ok r.

(** ** Primitive operations *)

Definition rewrite_ref (minted : list (Uuid * Uuid)) (r : string) : string :=
  match uuid_parse_str r with
  | Some u =>
      uuid_to_string
        (default u (snd <$> List.find (λ pm, bool_decide (pm.1 = u)) minted))
  | None => r
  end.

(** The map [minted] as its insertions, latest first; then the ids drawn. *)
Definition lower_op (op : RawPatchOp Uuid) (st : list (Uuid * Uuid) * nat)
    : result (AddressedPatchOp * (list (Uuid * Uuid) * nat)) PatchError :=
  let '(minted, n) := st in
  match op with
  | RawAddNode node_id (Some parsed) =>
      let? r := lower_patch_task n parsed in
      Ok (add_node_op r.1 (Some r.2), ((node_id, r.1) :: minted, S n))
  | RawAddNode node_id None => Ok (add_node_op node_id None, st)
  | RawAddEdge sources targets kind gates =>
      let? gates := collect (λ g, map_err InvalidGate
                                    (project_gate_proto jsonpath_ok g "patch AddEdge")) gates in
      Ok (mkAddressedPatchOp (Some (AddEdge (rewrite_ref minted <$> sources)
            (rewrite_ref minted <$> targets) (EdgeKind_i32 kind) gates)), st)
  | RawRemoveNode node_id =>
      Ok (mkAddressedPatchOp (Some (RemoveNode (rewrite_ref minted node_id))), st)
  | RawRemoveEdge edge_id => Ok (mkAddressedPatchOp (Some (RemoveEdge edge_id)), st)
  end.

Definition lower_ops (raw : list (RawPatchOp Uuid)) : result (list AddressedPatchOp) PatchError :=
  let? r := traverse lower_op raw ([], 0) in Ok r.1.

(** ** Scope trees

    The state is the number of ids drawn and the [ops] pushed so far. *)

Fixpoint lower_chain_step (step : RawChainStep) (st : nat * list AddressedPatchOp)
    : result (ChainStep * (nat * list AddressedPatchOp)) PatchError :=
  match step with
  | mkRawChainStep handle (Some _) (Some _) => Err (BothTaskAndSteps handle)
  | mkRawChainStep handle None None => Err (NeitherTaskNorSteps handle)
  | mkRawChainStep handle (Some task) None =>
      let? r := lower_fragment_task st.1 handle task in
      Ok (chain_leaf handle (uuid_to_string r.1), (S st.1, st.2 ++ [add_node_op r.1 (Some r.2)]))
  | mkRawChainStep handle None (Some nested) =>
      let? r := traverse lower_chain_step nested st in
      let? _ := ensure (negb (bool_decide (length r.1 = 0))) (EmptyScope handle) in
      Ok (chain_nested handle r.1, r.2)
  end.

Definition lower_chain_steps (raw : list RawChainStep) (st : nat * list AddressedPatchOp)
    : result (list ChainStep * (nat * list AddressedPatchOp)) PatchError :=
  traverse lower_chain_step raw st.

(** ** Operations *)

Definition Lowered : Type := list AddressedPatchOp * option PatchOperation.

Definition operation (k : PatchOperationKind) : option PatchOperation :=
  Some (mkPatchOperation (Some k)).

Definition lower_insert_operation (insert : RawInsertOperation) : result Lowered PatchError :=
  let? r := lower_fragment_task 0 (pt_name (ri_task insert)) (ri_task insert) in
  Ok ([add_node_op r.1 (Some r.2)], operation (Op_Insert (ri_anchor insert) (uuid_to_string r.1))).

Definition check_handles (steps : list ChainStep) : result unit PatchError :=
  map_err DuplicateHandle (chain_handles_unique steps).

Definition lower_chain_operation (chain : RawChainOperation) : result Lowered PatchError :=
  let? r := lower_chain_steps (rc_steps chain) (0, []) in
  let? _ := ensure (negb (bool_decide (length r.1 = 0))) EmptyOperation in
  let? _ := check_handles r.1 in
  Ok (r.2.2, operation (Op_Chain (rc_anchor chain) r.1
               ((λ rel, mkChainRelay (rr_edge rel) (rr_var rel)) <$> rc_relay chain))).

Definition lower_fork_operation (fork : RawForkOperation) : result Lowered PatchError :=
  let? r := lower_chain_steps (rf_arms fork) (0, []) in
  let? _ := ensure (negb (bool_decide (length r.1 = 0))) EmptyOperation in
  let? _ := check_handles r.1 in
  Ok (r.2.2, operation (Op_Fork (rf_anchor fork) r.1)).

Definition lower_branch_operation (branch : RawBranchOperation) : result Lowered PatchError :=
  let? _ := ensure (negb (bool_decide (length (rb_arms branch) = 0))) EmptyOperation in
  let? gates := collect (λ arm, map_err (InvalidArmGate (rba_handle arm))
                                  (project_gate_proto jsonpath_ok (rba_gate arm) (rba_handle arm)))
                  (rb_arms branch) in
  let raw_steps := (λ arm, mkRawChainStep (rba_handle arm) (rba_task arm) (rba_steps arm))
                     <$> rb_arms branch in
  let? r := lower_chain_steps raw_steps (0, []) in
  let? _ := check_handles r.1 in
  Ok (r.2.2, operation (Op_Branch (rb_anchor branch)
               (zip_with (λ arm gate, mkBranchArm (Some gate) (Some arm)) r.1 gates))).

Definition lower_expand_operation (expand : RawExpandOperation) : result Lowered PatchError :=
  let steps := (λ '(handle, arm), mkRawChainStep handle (rea_task arm) (rea_steps arm))
                 <$> rx_over expand in
  let? r := lower_chain_steps steps (0, []) in
  let? _ := ensure (negb (bool_decide (length r.1 = 0))) EmptyOperation in
  let? _ := check_handles r.1 in
  Ok (r.2.2, operation (Op_Expand (rx_anchor expand) r.1)).

Definition lower_swap_operation (swap : RawSwapOperation) : result Lowered PatchError :=
  let? r := lower_fragment_task 0 (pt_name (rs_task swap)) (rs_task swap) in
  Ok ([add_node_op r.1 (Some r.2)], operation (Op_Swap (rs_target swap) (uuid_to_string r.1))).

Definition lower_loop_operation (loop_op : RawLoopOperation) : result Lowered PatchError :=
  let? _ := ensure (negb (bool_decide (length (rl_path loop_op) = 0))) EmptyOperation in
  Ok ([], operation (Op_Loop (rl_path loop_op))).

Definition lower_cut_operation (cut : RawCutOperation) : Lowered :=
  ([], operation (Op_Cut (rcut_target cut))).
Definition lower_prune_operation (prune : RawPruneOperation) : Lowered :=
  ([], operation (Op_Prune (rp_arm prune))).
Definition lower_trim_operation (trim : RawTrimOperation) : Lowered :=
  ([], operation (Op_Trim (rt_anchor trim))).
Definition lower_truncate_operation (truncate : RawTruncateOperation) : Lowered :=
  ([], operation (Op_Truncate (rtr_anchor truncate))).

(** ** Documents *)

Definition present {A : Type} (o : option A) : nat :=
  match o with Some _ => 1 | None => 0 end.

Definition tag_count (raw : RawPatchDocument Uuid) : nat :=
  present (rd_ops raw) + present (rd_insert raw) + present (rd_chain raw) + present (rd_fork raw)
  + present (rd_branch raw) + present (rd_expand raw) + present (rd_swap raw)
  + present (rd_loop_op raw) + present (rd_cut raw) + present (rd_prune raw)
  + present (rd_trim raw) + present (rd_truncate raw).

Definition lower_document (raw : RawPatchDocument Uuid) : result Lowered PatchError :=
  if rd_ops raw is Some ops then
    let? _ := ensure (negb (bool_decide (length ops = 0))) EmptyOps in
    let? ops := lower_ops ops in Ok (ops, None)
  else if rd_insert raw is Some insert then lower_insert_operation insert
  else if rd_chain raw is Some chain then lower_chain_operation chain
  else if rd_fork raw is Some fork then lower_fork_operation fork
  else if rd_branch raw is Some branch then lower_branch_operation branch
  else if rd_expand raw is Some expand then lower_expand_operation expand
  else if rd_swap raw is Some swap then lower_swap_operation swap
  else if rd_loop_op raw is Some loop_op then lower_loop_operation loop_op
  else if rd_cut raw is Some cut then Ok (lower_cut_operation cut)
  else if rd_prune raw is Some prune then Ok (lower_prune_operation prune)
  else if rd_trim raw is Some trim then Ok (lower_trim_operation trim)
  else if rd_truncate raw is Some truncate then Ok (lower_truncate_operation truncate)
  else Err NoShape.

Definition parse_patch_document_json (json : string) (raw : RawPatchDocument Uuid)
    : result ParsedPatch PatchError :=
  let? _ := ensure (bool_decide (tag_count raw ≤ 1)) ManyShapes in
  let? r := lower_document raw in
  Ok (mkParsedPatch r.1 r.2 (rd_reason raw) (rd_stall_ttl raw) (mkPatchSource json Format_Json)).
End document.

(** ** Induction on scope trees *)

Section chain_step_induction.
Variable P : ChainStep → Prop.
Hypothesis Hleaf : ∀ h node, (∀ steps, node ≠ Some (mkStepNode (Some (StepNode_Nested steps)))) →
                             P (mkChainStep h node).
Hypothesis Hnested : ∀ h steps, Forall P steps → P (chain_nested h steps).

Fixpoint chain_step_ind' (s : ChainStep) : P s.
Proof.
  destruct s as [h [[[[id|steps]|]]|]]; [by apply Hleaf| |by apply Hleaf..].
  apply Hnested. induction steps as [|s steps IH]; [apply List.Forall_nil|].
  apply List.Forall_cons; [apply chain_step_ind'|exact IH].
Defined.
End chain_step_induction.

Section raw_step_induction.
Variable P : RawChainStep → Prop.
Hypothesis Hleaf : ∀ h t, P (mkRawChainStep h t None).
Hypothesis Hnested : ∀ h t steps, Forall P steps → P (mkRawChainStep h t (Some steps)).

Fixpoint raw_step_ind' (s : RawChainStep) : P s.
Proof.
  destruct s as [h t [steps|]]; [|apply Hleaf].
  apply Hnested. induction steps as [|s steps IH]; [apply List.Forall_nil|].
  apply List.Forall_cons; [apply raw_step_ind'|exact IH].
Defined.
End raw_step_induction.

(** ** Handles are unique in every scope *)

Fixpoint step_scopes (s : ChainStep) : list (list ChainStep) :=
  match s with
  | mkChainStep _ (Some (mkStepNode (Some (StepNode_Nested steps)))) =>
      steps :: mjoin (map step_scopes steps)
  | _ => []
  end.

(** The list itself and every nested one. *)
Definition scopes (steps : list ChainStep) : list (list ChainStep) :=
  steps :: mjoin (map step_scopes steps).

Lemma elem_of_scopes steps sc :
  sc ∈ scopes steps ↔ sc = steps ∨ ∃ s, s ∈ steps ∧ sc ∈ step_scopes s.
Proof.
  unfold scopes. rewrite elem_of_cons, list_elem_of_join. setoid_rewrite list_elem_of_fmap.
  naive_solver.
Qed.

Definition repeated_handle (sc : list ChainStep) (h : string) : Prop :=
  ∃ l1 s l2, sc = l1 ++ s :: l2 ∧ step_handle s = h ∧ h ∈ step_handle <$> l1.

Lemma scope_unique_ok f seen steps :
  scope_unique f seen steps = Ok () ↔
  NoDup (step_handle <$> steps) ∧ (∀ s, s ∈ steps → step_handle s ∉ seen) ∧
  (∀ s, s ∈ steps → f s = Ok ()).
Proof.
  revert seen. induction steps as [|s steps IH]; intros seen; simpl.
  { split; [intros _|done]. split_and!; [apply NoDup_nil_2|by intros ? ?%elem_of_nil..]. }
  rewrite NoDup_cons. setoid_rewrite elem_of_cons. case_bool_decide as Hs.
  { split; [done|]. intros (_ & Hseen & _). destruct (Hseen s); auto. }
  destruct (f s) as [[]|e] eqn:Hf; simpl.
  - rewrite IH. setoid_rewrite list_elem_of_fmap. setoid_rewrite not_elem_of_union.
    setoid_rewrite not_elem_of_singleton. split.
    + intros (Hnd & Hseen & Hok). split_and!; [|done|..].
      * intros (s' & Heq & Hs'). by destruct (Hseen s' Hs') as [[] _].
      * intros s' [->|Hs']; [done|]. by apply Hseen.
      * intros s' [->|Hs']; auto.
    + intros ((Hnew & Hnd) & Hseen & Hok). split_and!; [done|..]; [|auto].
      intros s' Hs'. split; [|auto]. intros Heq. apply Hnew. eauto.
  - split; [done|]. intros (_ & _ & Hok). rewrite (Hok s) in Hf; auto.
Qed.

Lemma scope_unique_err f seen steps h :
  scope_unique f seen steps = Err h →
  (∃ s, s ∈ steps ∧ f s = Err h) ∨ (∃ s, s ∈ steps ∧ step_handle s = h ∧ h ∈ seen)
  ∨ repeated_handle steps h.
Proof.
  revert seen. induction steps as [|s steps IH]; intros seen; simpl; [done|].
  case_bool_decide as Hs; [intros [= <-]; right; left; exists s; split_and!; [left|done..]|].
  destruct (f s) as [[]|e] eqn:Hf; simpl; [|intros [= <-]; left; exists s; split; [left|done]].
  intros [(s' & ? & ?)|[(s' & Hs' & Heq & Hin)|(l1 & s' & l2 & -> & Heq & Hin)]]%IH.
  - left. exists s'. split; [by right|done].
  - apply elem_of_union in Hin as [->%elem_of_singleton|Hin].
    + right; right. apply list_elem_of_split in Hs' as (l1 & l2 & ->).
      exists (s :: l1), s', l2. split_and!; [done|done|left].
    + right; left. exists s'. split_and!; [by right|done..].
  - right; right. exists (s :: l1), s', l2. split_and!; [done..|by right].
Qed.

Lemma nested_unique_ok s :
  nested_unique s = Ok () ↔ ∀ sc, sc ∈ step_scopes s → NoDup (step_handle <$> sc).
Proof.
  induction s as [h node Hnode|h steps IH] using chain_step_ind'.
  { destruct node as [[[[id|steps]|]]|]; simpl; try by destruct (Hnode steps).
    all: split; [by intros _ ? ?%elem_of_nil|done]. }
  cbn [nested_unique chain_nested step_scopes]. fold (scopes steps).
  rewrite scope_unique_ok. setoid_rewrite elem_of_scopes. rewrite Forall_forall in IH. split.
  - intros (Hnd & _ & Hok) sc [->|(s & Hs & Hsc)]; [done|]. by eapply (IH s Hs); [apply Hok|].
  - intros Hall. split_and!; [by apply Hall; left|set_solver|].
    intros s Hs. apply (IH s Hs). eauto.
Qed.

Lemma nested_unique_err s h :
  nested_unique s = Err h → ∃ sc, sc ∈ step_scopes s ∧ repeated_handle sc h.
Proof.
  induction s as [h' node Hnode|h' steps IH] using chain_step_ind'.
  { destruct node as [[[[id|steps]|]]|]; simpl; try done.
    by destruct (Hnode steps). }
  cbn [nested_unique chain_nested step_scopes]. fold (scopes steps). setoid_rewrite elem_of_scopes.
  rewrite Forall_forall in IH.
  intros [(s & Hs & Herr)|[(s & _ & _ & ?%not_elem_of_empty)|?]]%scope_unique_err; [|done|eauto].
  destruct (IH s Hs Herr) as (sc & Hsc & ?). eauto 10.
Qed.

Lemma chain_handles_unique_ok steps :
  chain_handles_unique steps = Ok () ↔ ∀ sc, sc ∈ scopes steps → NoDup (step_handle <$> sc).
Proof. apply (nested_unique_ok (chain_nested "" steps)). Qed.

(** The handle check accepts a scope tree exactly when no scope, at any depth,
    names a handle twice, and a rejection names a handle that one scope repeats. *)
Theorem chain_handles_unique_correct steps :
  match chain_handles_unique steps with
  | Ok _ => ∀ sc, sc ∈ scopes steps → NoDup (step_handle <$> sc)
  | Err h => ∃ sc, sc ∈ scopes steps ∧ repeated_handle sc h
  end.
Proof.
  destruct (chain_handles_unique steps) as [[]|h] eqn:Hu; [by apply chain_handles_unique_ok|].
  apply (nested_unique_err (chain_nested "" steps) h Hu).
Qed.

(** ** What lowering builds *)

Fixpoint step_leaves (s : ChainStep) : list string :=
  match s with
  | mkChainStep _ (Some (mkStepNode (Some (StepNode_Task id)))) => [id]
  | mkChainStep _ (Some (mkStepNode (Some (StepNode_Nested steps)))) => mjoin (map step_leaves steps)
  | _ => []
  end.

Definition leaves (steps : list ChainStep) : list string := mjoin (map step_leaves steps).

Fixpoint raw_leaves (s : RawChainStep) : list ParsedTask :=
  match s with
  | mkRawChainStep _ (Some t) None => [t]
  | mkRawChainStep _ None (Some steps) => mjoin (map raw_leaves steps)
  | _ => []
  end.

(** The lowered tree has the handles and the shape of the raw one. *)
#[warnings="-register-all"]
Inductive mirrors : RawChainStep → ChainStep → Prop :=
| mirrors_leaf h t id : mirrors (mkRawChainStep h (Some t) None) (chain_leaf h id)
| mirrors_nested h raw steps :
    raw ≠ [] → Forall2 mirrors raw steps →
    mirrors (mkRawChainStep h None (Some raw)) (chain_nested h steps).

Section lowering.
Context `{UuidOps Uuid} (jsonpath_ok : string → bool) (fresh : nat → Uuid).

(** The [AddNode]s of the given tasks, under consecutive ids from [n] on. *)
Inductive builds : nat → list ParsedTask → list AddressedPatchOp → Prop :=
| builds_nil n : builds n [] []
| builds_cons n t ts task ops :
    lower_patch_task fresh n t = Ok (fresh n, task) →
    contains_char "#" (task_nix_expression_path task) = true →
    builds (S n) ts ops →
    builds n (t :: ts) (add_node_op (fresh n) (Some task) :: ops).

Lemma builds_app n ts1 ts2 ops1 ops2 :
  builds n ts1 ops1 → builds (n + length ops1) ts2 ops2 → builds n (ts1 ++ ts2) (ops1 ++ ops2).
Proof.
  induction 1 as [n|n t ts task ops Ht Hc _ IH]; simpl; intros Hb.
  - by rewrite Nat.add_0_r in Hb.
  - apply builds_cons; [done|done|]. apply IH. by rewrite Nat.add_succ_r in Hb.
Qed.

(** What a patched-in task must declare. *)
Definition patch_task_ok (t : ParsedTask) : Prop :=
  pt_emits t = [] ∧ existsb is_structured (pt_inputs t) = false ∧
  (∃ p, pt_nix_expression_path t = Some p ∧ trim p ≠ "") ∧
  (∀ raw, pt_timeout t = Some raw → ∃ d, parse_duration raw = Ok d).

Definition fragment_ok (t : ParsedTask) : Prop :=
  ∃ p, pt_nix_expression_path t = Some p ∧ contains_char "#" p = true.

Lemma lower_patch_task_inv n t r :
  lower_patch_task fresh n t = Ok r →
  patch_task_ok t ∧ r.1 = fresh n ∧ task_id r.2 = uuid_to_string (fresh n) ∧
  pt_nix_expression_path t = Some (task_nix_expression_path r.2).
Proof.
  unfold lower_patch_task, patch_task_ok, ensure, blank.
  case_bool_decide as Hemits; [|done]. apply nil_length_inv in Hemits. simpl.
  destruct (existsb is_structured (pt_inputs t)); [done|]. simpl.
  destruct (pt_nix_expression_path t) as [p|]; [|done].
  case_bool_decide as Hp; [done|]. simpl.
  destruct (pt_timeout t) as [raw|]; simpl.
  - destruct (parse_duration raw) as [d|] eqn:Hd; [|done]. simpl. intros Hr. injection Hr as <-.
    split_and!; try done; [by exists p|]. intros ? Hraw. injection Hraw as <-. eauto.
  - intros Hr. injection Hr as <-. split_and!; try done. by exists p.
Qed.

Lemma lower_patch_task_name n t u task :
  lower_patch_task fresh n t = Ok (u, task) → task_name task = pt_name t.
Proof.
  unfold lower_patch_task. repeat (case_match; simpl; try done); try congruence.
  all: intros Heq; by injection Heq as <- <-.
Qed.

Lemma lower_patch_task_total n t :
  patch_task_ok t → ∃ task, lower_patch_task fresh n t = Ok (fresh n, task).
Proof.
  unfold lower_patch_task. intros (-> & -> & (p & -> & Hp) & Htimeout). simpl.
  unfold blank. rewrite bool_decide_false by done. simpl.
  destruct (pt_timeout t) as [raw|]; simpl; [|eauto].
  destruct (Htimeout raw eq_refl) as (d & ->). simpl. eauto.
Qed.

Lemma lower_fragment_task_ok n label t r :
  lower_fragment_task fresh n label t = Ok r →
  r.1 = fresh n ∧ patch_task_ok t ∧ fragment_ok t ∧
  lower_patch_task fresh n t = Ok r ∧ contains_char "#" (task_nix_expression_path r.2) = true.
Proof.
  unfold lower_fragment_task, ensure. destruct (lower_patch_task fresh n t) as [r'|] eqn:Hl; [|done].
  simpl. destruct (contains_char _ _) eqn:Hc; [|done]. simpl. intros Hr. injection Hr as <-.
  apply lower_patch_task_inv in Hl as (? & ? & ? & Hpath). split_and!; try done.
  eexists. split; [exact Hpath|done].
Qed.

Lemma lower_fragment_task_total n label t :
  patch_task_ok t → fragment_ok t → ∃ task, lower_fragment_task fresh n label t = Ok (fresh n, task).
Proof.
  intros Hok (p & Hp & Hc). destruct (lower_patch_task_total n t Hok) as (task & Ht).
  unfold lower_fragment_task. rewrite Ht. simpl.
  apply lower_patch_task_inv in Ht as (_ & _ & _ & Hpath). simpl in Hpath.
  rewrite Hp in Hpath. injection Hpath as <-. rewrite Hc. simpl. eauto.
Qed.

(** *** Scope trees *)

Definition lowered_from (st st' : nat * list AddressedPatchOp) (ts : list ParsedTask)
    (ids : list string) : Prop :=
  ∃ added, st' = (st.1 + length added, st.2 ++ added) ∧ builds st.1 ts added ∧
           ids = (λ i, uuid_to_string (fresh i)) <$> seq st.1 (length added).

Lemma lowered_from_nil st : lowered_from st st [] [].
Proof.
  exists []. rewrite Nat.add_0_r, app_nil_r. split_and!; [by destruct st|constructor|done].
Qed.

Lemma lowered_from_app st1 st2 st3 ts1 ts2 ids1 ids2 :
  lowered_from st1 st2 ts1 ids1 → lowered_from st2 st3 ts2 ids2 →
  lowered_from st1 st3 (ts1 ++ ts2) (ids1 ++ ids2).
Proof.
  intros (a1 & -> & Hb1 & ->) (a2 & -> & Hb2 & ->). simpl in *. exists (a1 ++ a2).
  rewrite length_app, Nat.add_assoc, (assoc_L (++)). split_and!; [done|by apply builds_app|].
  by rewrite seq_app, fmap_app.
Qed.

Lemma traverse_lowered (raws : list RawChainStep) :
  Forall (λ raw, ∀ st s st', lower_chain_step fresh raw st = Ok (s, st') →
            mirrors raw s ∧ lowered_from st st' (raw_leaves raw) (step_leaves s)) raws →
  ∀ st steps st', traverse (lower_chain_step fresh) raws st = Ok (steps, st') →
    Forall2 mirrors raws steps ∧
    lowered_from st st' (mjoin (map raw_leaves raws)) (leaves steps).
Proof.
  induction 1 as [|raw raws Hraw _ IH]; intros st steps st'; simpl.
  { intros Heq. injection Heq as <- <-. split; [done|apply lowered_from_nil]. }
  destruct (lower_chain_step fresh raw st) as [[s st1]|] eqn:Hs; [|done]. simpl.
  destruct (traverse _ raws st1) as [[ss st2]|] eqn:Ht; [|done]. simpl.
  intros Heq. injection Heq as <- <-.
  destruct (Hraw _ _ _ Hs), (IH _ _ _ Ht). split; [by constructor|]. by eapply lowered_from_app.
Qed.

Lemma lower_chain_step_ok raw : ∀ st s st',
  lower_chain_step fresh raw st = Ok (s, st') →
  mirrors raw s ∧ lowered_from st st' (raw_leaves raw) (step_leaves s).
Proof.
  induction raw as [h [t|]|h [t|] raws IH] using raw_step_ind'; intros st s st'; simpl; try done.
  - destruct (lower_fragment_task fresh st.1 h t) as [[u task]|] eqn:Hl; [|done]. simpl.
    intros Heq. injection Heq as <- <-.
    apply lower_fragment_task_ok in Hl as (Hu & _ & _ & Hl & Hc). simpl in Hu, Hc. subst u.
    split; [constructor|]. eexists [_]. rewrite Nat.add_1_r.
    split_and!; [done| |done]. apply builds_cons; [done|done|constructor].
  - destruct (traverse _ raws st) as [[ss st1]|] eqn:Ht; [|done]. simpl.
    unfold ensure. case_bool_decide as Hlen; [done|]. simpl. intros Heq. injection Heq as <- <-.
    destruct (traverse_lowered raws IH _ _ _ Ht) as [Hm Hl]. split; [|exact Hl].
    constructor; [|done]. intros ->. by apply Forall2_nil_inv_l in Hm as ->.
Qed.

Lemma lower_chain_steps_ok raws st steps st' :
  lower_chain_steps fresh raws st = Ok (steps, st') →
  Forall2 mirrors raws steps ∧ lowered_from st st' (mjoin (map raw_leaves raws)) (leaves steps).
Proof.
  apply traverse_lowered. apply Forall_forall. intros raw _. apply lower_chain_step_ok.
Qed.

(** *** Acceptance *)

Fixpoint step_ok (s : RawChainStep) : Prop :=
  match s with
  | mkRawChainStep _ (Some t) None => patch_task_ok t ∧ fragment_ok t
  | mkRawChainStep _ None (Some steps) => steps ≠ [] ∧ foldr and True (map step_ok steps)
  | _ => False
  end.

Lemma steps_ok_forall steps : foldr and True (map step_ok steps) ↔ Forall step_ok steps.
Proof. rewrite <- Forall_fold_right. by rewrite Forall_map. Qed.

Lemma traverse_accepts raws :
  Forall (λ raw, ∀ st, (∃ r, lower_chain_step fresh raw st = Ok r) ↔ step_ok raw) raws →
  ∀ st, (∃ r, traverse (lower_chain_step fresh) raws st = Ok r) ↔ Forall step_ok raws.
Proof.
  induction 1 as [|raw raws Hraw _ IH]; intros st; simpl.
  { split; [intros _; apply List.Forall_nil|eauto]. }
  rewrite Forall_cons, <- (Hraw st).
  destruct (lower_chain_step fresh raw st) as [[s st1]|]; simpl.
  - rewrite <- (IH st1). destruct (traverse _ raws st1) as [r|]; simpl; naive_solver.
  - split; [by intros (? & ?)|by intros [(? & ?) _]].
Qed.

Lemma lower_chain_step_accepts raw : ∀ st,
  (∃ r, lower_chain_step fresh raw st = Ok r) ↔ step_ok raw.
Proof.
  induction raw as [h [t|]|h [t|] raws IH] using raw_step_ind'; intros st; simpl;
    try (split; [by intros (? & ?)|done]).
  - split.
    + intros (r & Hr). destruct (lower_fragment_task fresh st.1 h t) as [r'|] eqn:Hl; [|done].
      by apply lower_fragment_task_ok in Hl as (_ & ? & ? & _).
    + intros [Hok Hf]. destruct (lower_fragment_task_total st.1 h t Hok Hf) as (task & ->).
      simpl. eauto.
  - rewrite steps_ok_forall, <- (traverse_accepts raws IH st).
    destruct (traverse _ raws st) as [[ss st1]|] eqn:Ht; simpl.
    + assert (length raws = length ss) as Hlen.
      { eapply Forall2_length, (lower_chain_steps_ok raws st ss st1 Ht). }
      unfold ensure. case_bool_decide as Hz; simpl.
      * split; [by intros (? & ?)|]. intros [Hne _]. destruct Hne, raws; [done|]. simpl in *. lia.
      * split; [|eauto]. intros _. split; [|eauto]. intros ->. simpl in Hlen. lia.
    + split; [by intros (? & ?)|by intros [_ (? & ?)]].
Qed.

(** *** Primitive operations *)

Definition task_bearing (op : RawPatchOp Uuid) : bool :=
  match op with RawAddNode _ (Some _) => true | _ => false end.

(** The placeholders in force after the given operations, latest first, when the
    next id to draw was [n] before them. *)
Fixpoint placeholders (minted : list (Uuid * Uuid)) (n : nat) (raw : list (RawPatchOp Uuid))
    : list (Uuid * Uuid) :=
  match raw with
  | [] => minted
  | RawAddNode u (Some _) :: raw' => placeholders ((u, fresh n) :: minted) (S n) raw'
  | _ :: raw' => placeholders minted n raw'
  end.

Definition drawn (raw : list (RawPatchOp Uuid)) : nat := length (List.filter task_bearing raw).

(** What one operation becomes, under the placeholders and the ids before it. *)
Definition lowers_to (minted : list (Uuid * Uuid)) (n : nat) (op : RawPatchOp Uuid)
    (op' : AddressedPatchOp) : Prop :=
  match op with
  | RawAddNode _ (Some t) =>
      ∃ task, lower_patch_task fresh n t = Ok (fresh n, task) ∧
              op' = add_node_op (fresh n) (Some task)
  | RawAddNode u None => op' = add_node_op u None
  | RawAddEdge sources targets kind gates =>
      ∃ gates', Forall2 (λ g g', project_gate_proto jsonpath_ok g "patch AddEdge" = Ok g')
                  gates gates' ∧
        op' = mkAddressedPatchOp (Some (AddEdge (rewrite_ref minted <$> sources)
                (rewrite_ref minted <$> targets) (EdgeKind_i32 kind) gates'))
  | RawRemoveNode r => op' = mkAddressedPatchOp (Some (RemoveNode (rewrite_ref minted r)))
  | RawRemoveEdge e => op' = mkAddressedPatchOp (Some (RemoveEdge e))
  end.

Lemma lower_op_ok op minted n op' st' :
  lower_op jsonpath_ok fresh op (minted, n) = Ok (op', st') →
  lowers_to minted n op op' ∧ st' = (placeholders minted n [op], n + drawn [op]).
Proof.
  unfold lower_op, drawn. destruct op as [u [t|]|sources targets kind gates|r|e]; simpl.
  - destruct (lower_patch_task fresh n t) as [[u' task]|] eqn:Ht; [|done]. simpl.
    intros Heq. injection Heq as <- <-.
    assert (u' = fresh n) as ->. { by apply lower_patch_task_inv in Ht as (_ & ? & _). }
    split; [by exists task|]. by rewrite Nat.add_1_r.
  - intros Heq. injection Heq as <- <-. by rewrite Nat.add_0_r.
  - destruct (collect _ gates) as [gs|] eqn:Hg; [|done]. simpl. intros Heq. injection Heq as <- <-.
    rewrite Nat.add_0_r. split; [|done]. exists gs. split; [|done].
    apply collect_ok in Hg. eapply Forall2_impl; [exact Hg|]. simpl. intros g g' Hgg.
    destruct (project_gate_proto _ _ _) as [?|]; simpl in Hgg; congruence.
  - intros Heq. injection Heq as <- <-. by rewrite Nat.add_0_r.
  - intros Heq. injection Heq as <- <-. by rewrite Nat.add_0_r.
Qed.

Lemma traverse_ops_ok raw : ∀ minted n ops st',
  traverse (lower_op jsonpath_ok fresh) raw (minted, n) = Ok (ops, st') →
  length ops = length raw ∧
  ∀ k op, raw !! k = Some op → ∃ op', ops !! k = Some op' ∧
    lowers_to (placeholders minted n (take k raw)) (n + drawn (take k raw)) op op'.
Proof.
  induction raw as [|op raw IH]; intros minted n ops st'; cbn [traverse].
  { intros Heq. injection Heq as <- <-. split; [done|]. intros k op ?. by rewrite lookup_nil in *. }
  destruct (lower_op jsonpath_ok fresh op (minted, n)) as [[op' st1]|] eqn:Hop; [|done]. simpl.
  apply lower_op_ok in Hop as [Hl ->].
  destruct (traverse (lower_op jsonpath_ok fresh) raw _) as [[ops' st2]|] eqn:Ht; [|done]. simpl.
  intros Heq. injection Heq as <- <-. apply IH in Ht as [Hlen Hk]. split; [simpl; congruence|].
  intros [|k] op0.
  - intros Heq. injection Heq as <-. exists op'. simpl. rewrite Nat.add_0_r. done.
  - intros Hop0. change (take (S k) (op :: raw)) with (op :: take k raw). destruct (Hk k op0 Hop0) as (op0' & Hlk & Hl0). exists op0'. split; [done|].
    assert (placeholders minted n (op :: take k raw)
            = placeholders (placeholders minted n [op]) (n + drawn [op]) (take k raw)) as ->.
    { unfold drawn. destruct op as [u [t|]| | |]; simpl; rewrite ?Nat.add_1_r, ?Nat.add_0_r; done. }
    replace (n + drawn (op :: take k raw)) with (n + drawn [op] + drawn (take k raw)); [done|].
    unfold drawn. simpl. destruct (task_bearing op); simpl; lia.
Qed.
End lowering.

(** *** Chains *)

Fixpoint raw_step_scopes (s : RawChainStep) : list (list RawChainStep) :=
  match s with
  | mkRawChainStep _ None (Some steps) => steps :: mjoin (map raw_step_scopes steps)
  | _ => []
  end.

Definition raw_scopes (steps : list RawChainStep) : list (list RawChainStep) :=
  steps :: mjoin (map raw_step_scopes steps).

Lemma mirrors_handle raw s : mirrors raw s → step_handle s = raw_handle raw.
Proof. by destruct 1. Qed.

Lemma mirrors_handles raws steps :
  Forall2 mirrors raws steps → step_handle <$> steps = raw_handle <$> raws.
Proof.
  induction 1 as [|raw s raws steps Hm _ IH]; [done|]. csimpl. by rewrite IH, (mirrors_handle raw s).
Qed.

Lemma mirrors_step_scopes raw : ∀ s,
  mirrors raw s →
  map (map step_handle) (step_scopes s) = map (map raw_handle) (raw_step_scopes raw).
Proof.
  induction raw as [h t|h t raws IH] using raw_step_ind'; intros s Hm;
    inversion Hm as [|? ? steps Hne Hall]; subst; [done|].
  cbn [step_scopes chain_nested raw_step_scopes]. cbn [map].
  rewrite (mirrors_handles _ _ Hall : map _ _ = map _ _). f_equal. clear Hm Hne. induction Hall as [|raw s raws steps Hm _ IHl]; [done|].
  apply Forall_cons in IH as [IHraw IH]. simpl. rewrite !map_app, IHl by done.
  by rewrite (IHraw s Hm).
Qed.

Lemma mirrors_scopes raws steps :
  Forall2 mirrors raws steps →
  map (map step_handle) (scopes steps) = map (map raw_handle) (raw_scopes raws).
Proof.
  intros Hall. destruct raws as [|raw raws]; [by apply Forall2_nil_inv_l in Hall as ->|].
  apply (mirrors_step_scopes (mkRawChainStep "" None (Some (raw :: raws))) (chain_nested "" steps)).
  by constructor.
Qed.

Lemma check_handles_ok raws steps :
  Forall2 mirrors raws steps →
  check_handles steps = Ok () ↔ ∀ sc, sc ∈ raw_scopes raws → NoDup (raw_handle <$> sc).
Proof.
  intros Hall. unfold check_handles.
  transitivity (chain_handles_unique steps = Ok ()).
  { destruct (chain_handles_unique steps) as [[]|]; simpl; split; congruence. }
  rewrite chain_handles_unique_ok. pose proof (mirrors_scopes _ _ Hall) as Heq.
  transitivity (∀ hs, hs ∈ map (map step_handle) (scopes steps) → NoDup hs).
  - setoid_rewrite list_elem_of_fmap. naive_solver.
  - rewrite Heq. setoid_rewrite list_elem_of_fmap. naive_solver.
Qed.

(** A chain is accepted exactly when it has a step, every step carries one of a
    leaf task and a non-empty nested chain, every leaf task declares a buildable
    expression with a fragment, no emits, no structured input and a readable
    timeout, and no scope repeats a handle. *)
Theorem chain_accepted_iff `{UuidOps Uuid} (fresh : nat → Uuid) chain :
  (∃ lowered, lower_chain_operation fresh chain = Ok lowered) ↔
  rc_steps chain ≠ [] ∧ Forall step_ok (rc_steps chain) ∧
  ∀ sc, sc ∈ raw_scopes (rc_steps chain) → NoDup (raw_handle <$> sc).
Proof.
  unfold lower_chain_operation.
  rewrite <- (traverse_accepts fresh (rc_steps chain)
    ltac:(apply Forall_forall; intros; apply lower_chain_step_accepts) (0, [])).
  fold (lower_chain_steps fresh (rc_steps chain) (0, [])).
  destruct (lower_chain_steps _ _ _) as [[steps st]|] eqn:Hl; simpl.
  - pose proof (proj1 (lower_chain_steps_ok fresh _ _ _ _ Hl)) as Hm.
    rewrite <- (check_handles_ok _ _ Hm). apply Forall2_length in Hm as Hlen. unfold ensure.
    case_bool_decide as Hz; simpl.
    + split; [by intros (? & ?)|]. intros [Hne _]. destruct Hne, (rc_steps chain); [done|].
      simpl in *. lia.
    + destruct (check_handles steps) as [[]|]; simpl; split.
      * intros _. split_and!; [intros Hnil; rewrite Hnil in Hlen; simpl in Hlen; lia|eauto|done].
      * eauto.
      * by intros (? & ?).
      * by intros (_ & _ & ?).
  - split; [by intros (? & ?)|by intros (_ & (? & ?) & _)].
Qed.

(** ** References in primitive operations *)

Section references.
Context `{UuidOps Uuid} `{!UuidLaws Uuid} (jsonpath_ok : string → bool) (fresh : nat → Uuid).
Implicit Types (raw : list (RawPatchOp Uuid)) (u v : Uuid).

(** [v] is the id minted for the latest task-bearing [AddNode] under [u]. *)
Definition declared raw u v : Prop :=
  ∃ i t, raw !! i = Some (RawAddNode u (Some t)) ∧ v = fresh (drawn (take i raw)) ∧
         ∀ j t', i < j → raw !! j ≠ Some (RawAddNode u (Some t')).

(** How a reference is carried over, given the operations before it. *)
Definition refers raw (r r' : string) : Prop :=
  match uuid_parse_str r with
  | None => r' = r
  | Some u => ∃ v, uuid_parse_str r' = Some v ∧
                   (declared raw u v ∨
                    (v = u ∧ ∀ i t, raw !! i ≠ Some (RawAddNode u (Some t))))
  end.

Lemma placeholders_snoc raw op minted n :
  placeholders fresh minted n (raw ++ [op]) =
  match op with
  | RawAddNode u (Some _) => (u, fresh (n + drawn raw)) :: placeholders fresh minted n raw
  | _ => placeholders fresh minted n raw
  end.
Proof.
  revert minted n. unfold drawn. induction raw as [|op' raw IH]; intros minted n; simpl.
  { rewrite Nat.add_0_r. by destruct op as [u [t|]| | |]. }
  destruct op' as [u [t|]| | |]; simpl; rewrite IH; [|done..].
  by rewrite <- Nat.add_succ_comm.
Qed.

Definition placeholder raw u : option Uuid :=
  snd <$> List.find (λ pm, bool_decide (pm.1 = u)) (placeholders fresh [] 0 raw).

Lemma placeholder_spec raw u :
  match placeholder raw u with
  | Some v => declared raw u v
  | None => ∀ i t, raw !! i ≠ Some (RawAddNode u (Some t))
  end.
Proof.
  induction raw as [|op raw IH] using rev_ind; [done|]. unfold placeholder in *.
  rewrite placeholders_snoc.
  assert ((∀ t, op ≠ RawAddNode u (Some t)) →
    match snd <$> List.find (λ pm, bool_decide (pm.1 = u)) (placeholders fresh [] 0 raw) with
    | Some v => declared (raw ++ [op]) u v
    | None => ∀ i t, (raw ++ [op]) !! i ≠ Some (RawAddNode u (Some t))
    end) as Hother.
  { intros Hop. destruct (snd <$> _) as [v|].
    - destruct IH as (i & t & Hi & -> & Hlast). apply lookup_lt_Some in Hi as Hlt.
      exists i, t. split; [by apply lookup_app_l_Some|].
      split; [by rewrite take_app_le by lia|].
      intros j t' Hj [[_ Hl]|[_ Heq]]%lookup_snoc_Some; [by apply (Hlast j t')|by apply (Hop t')].
    - intros i t [[_ Hl]|[_ Heq]]%lookup_snoc_Some; [by apply (IH i t)|by apply (Hop t)]. }
  destruct op as [u' [t|]| | |]; try by apply Hother. simpl.
  case_bool_decide as Hu; simpl; [|apply Hother; naive_solver]. subst u'.
  exists (length raw), t. split; [apply lookup_snoc_Some; by right|].
  split; [by rewrite take_app_length|]. intros j t' Hj Hl. apply lookup_lt_Some in Hl.
  rewrite length_app in Hl. simpl in Hl. lia.
Qed.

Lemma rewrite_ref_refers raw r : refers raw r (rewrite_ref (placeholders fresh [] 0 raw) r).
Proof.
  unfold refers, rewrite_ref. destruct (uuid_parse_str r) as [u|]; [|done].
  fold (placeholder raw u). eexists. split; [apply uuid_parse_to_string|].
  pose proof (placeholder_spec raw u) as Hp. destruct (placeholder raw u); [by left|by right].
Qed.

Lemma rewrite_refs_refer raw rs :
  Forall2 (refers raw) rs (rewrite_ref (placeholders fresh [] 0 raw) <$> rs).
Proof. induction rs; csimpl; constructor; [apply rewrite_ref_refers|done]. Qed.

(** Lowering a list of primitive operations keeps their number and order, mints
    one fresh node per task-bearing [AddNode], projects the gates of every edge,
    and carries each reference over: a placeholder declared earlier becomes the
    node minted for its latest declaration, any other uuid still names the same
    structure, and an identity code is left as it is. *)
Theorem lower_ops_correct raw ops (Hlower : lower_ops jsonpath_ok fresh raw = Ok ops) :
  length ops = length raw ∧
  ∀ k op, raw !! k = Some op → ∃ kind', ops !! k = Some (mkAddressedPatchOp (Some kind')) ∧
    match op, kind' with
    | RawAddNode _ (Some t), AddNode id (Some task) =>
        id = uuid_to_string (fresh (drawn (take k raw))) ∧ task_id task = id ∧
        task_name task = pt_name t
    | RawAddNode u None, AddNode id None => id = uuid_to_string u
    | RawAddEdge sources targets kind gates, AddEdge sources' targets' kind'' gates' =>
        Forall2 (refers (take k raw)) sources sources' ∧
        Forall2 (refers (take k raw)) targets targets' ∧ kind'' = EdgeKind_i32 kind ∧
        Forall2 (λ g g', project_gate_proto jsonpath_ok g "patch AddEdge" = Ok g') gates gates'
    | RawRemoveNode r, RemoveNode r' => refers (take k raw) r r'
    | RawRemoveEdge e, RemoveEdge e' => e' = e
    | _, _ => False
    end.
Proof.
  unfold lower_ops in Hlower.
  destruct (traverse _ raw _) as [[ops' st]|] eqn:Ht; [|done]. injection Hlower as <-.
  apply traverse_ops_ok in Ht as [Hlen Hk]. split; [done|]. intros k op Hop.
  destruct (Hk k op Hop) as (op' & Hlk & Hl). rewrite Hlk.
  destruct op as [u [t|]|sources targets kind gates|r|e]; simpl in Hl.
  - destruct Hl as (task & Htask & ->). eexists. split; [reflexivity|].
    apply lower_patch_task_inv in Htask as Hinv. destruct Hinv as (_ & _ & Hid & _).
    split_and!; [done|done|]. by eapply lower_patch_task_name.
  - subst op'. eexists. split; [reflexivity|]. done.
  - destruct Hl as (gates' & Hg & ->). eexists. split; [reflexivity|].
    split_and!; [apply rewrite_refs_refer..|done|done].
  - subst op'. eexists. split; [reflexivity|]. apply rewrite_ref_refers.
  - subst op'. eexists. split; [reflexivity|]. done.
Qed.
End references.

(** ** Whole documents *)

(** The nodes an operation names among those it introduces, in order. *)
Definition op_nodes (k : PatchOperationKind) : list string :=
  match k with
  | Op_Insert _ id | Op_Swap _ id => [id]
  | Op_Chain _ steps _ | Op_Fork _ steps | Op_Expand _ steps => leaves steps
  | Op_Branch _ arms => leaves (omap arm_step arms)
  | _ => []
  end.

Definition op_scopes (k : PatchOperationKind) : list (list ChainStep) :=
  match k with
  | Op_Chain _ steps _ | Op_Fork _ steps | Op_Expand _ steps => scopes steps
  | Op_Branch _ arms => scopes (omap arm_step arms)
  | _ => []
  end.

Section documents.
Context `{UuidOps Uuid} `{!UuidLaws Uuid} (jsonpath_ok : string → bool) (fresh : nat → Uuid).

Definition tasks_of (ops : list AddressedPatchOp) : list (Uuid * TaskDefinition) :=
  new_tasks (mkParsedPatch ops None None None (mkPatchSource "" Format_Json)).

(** The tasks of [ops] sit under the first ids of the supply from [n] on. *)
Definition minted_from (n : nat) (ops : list AddressedPatchOp) : Prop :=
  (tasks_of ops).*1 = fresh <$> seq n (length (tasks_of ops)) ∧
  ∀ u t, (u, t) ∈ tasks_of ops → task_id t = uuid_to_string u.

Lemma tasks_of_add u t ops :
  tasks_of (add_node_op u (Some t) :: ops) = (u, t) :: tasks_of ops.
Proof. unfold tasks_of, new_tasks. simpl. by rewrite uuid_parse_to_string. Qed.

Lemma minted_from_cons n t ops :
  task_id t = uuid_to_string (fresh n) → minted_from (S n) ops →
  minted_from n (add_node_op (fresh n) (Some t) :: ops).
Proof.
  intros Hid [Hfst Hids]. unfold minted_from. rewrite tasks_of_add. csimpl. split.
  - by rewrite Hfst.
  - intros u t' [[= -> ->]|?]%elem_of_cons; auto.
Qed.

Lemma builds_minted n ts ops :
  builds fresh n ts ops →
  minted_from n ops ∧ ops = (λ ut, add_node_op ut.1 (Some ut.2)) <$> tasks_of ops ∧
  length (tasks_of ops) = length ops.
Proof.
  induction 1 as [n|n t ts task ops Ht Hc _ (IHm & IHo & IHl)].
  { split_and!; [split; [done|by intros ?? ?%elem_of_nil]|done..]. }
  apply lower_patch_task_inv in Ht as (_ & _ & Hid & _). split.
  - by apply minted_from_cons.
  - rewrite tasks_of_add. csimpl. rewrite <- IHo. split; congruence.
Qed.

Lemma traverse_ops_minted raw : ∀ minted n ops st',
  traverse (lower_op jsonpath_ok fresh) raw (minted, n) = Ok (ops, st') → minted_from n ops.
Proof.
  induction raw as [|op raw IH]; intros minted n ops st'; cbn [traverse].
  { intros Heq. injection Heq as <- <-. split; [done|by intros ?? ?%elem_of_nil]. }
  destruct (lower_op jsonpath_ok fresh op (minted, n)) as [[op' st1]|] eqn:Hop; [|done]. simpl.
  apply lower_op_ok in Hop as [Hl ->].
  destruct (traverse (lower_op jsonpath_ok fresh) raw _) as [[ops' st2]|] eqn:Ht; [|done].
  intros Heq. injection Heq as <- <-. apply IH in Ht. unfold drawn in Ht.
  destruct op as [u [t|]| | |]; simpl in Hl, Ht; rewrite ?Nat.add_0_r, ?Nat.add_1_r in Ht.
  - destruct Hl as (task & Htask & ->). apply minted_from_cons; [|done].
    by apply lower_patch_task_inv in Htask as (_ & _ & ? & _).
  - by subst op'.
  - by destruct Hl as (gs & _ & ->).
  - by subst op'.
  - by subst op'.
Qed.

(** What each shape is lowered to. *)
Definition wired (r : Lowered) : Prop :=
  minted_from 0 r.1 ∧ (r.1 ≠ [] ∨ r.2 ≠ None) ∧
  ∀ k, r.2 = operation k →
    r.1 = (λ ut, add_node_op ut.1 (Some ut.2)) <$> tasks_of r.1 ∧
    op_nodes k = uuid_to_string <$> (tasks_of r.1).*1 ∧
    ∀ sc, sc ∈ op_scopes k → NoDup (step_handle <$> sc).

Lemma wired_steps raws steps st k :
  lower_chain_steps fresh raws (0, []) = Ok (steps, st) → check_handles steps = Ok () →
  op_nodes k = leaves steps → op_scopes k = scopes steps → wired (st.2, operation k).
Proof.
  intros Hl Hh Hn Hs. apply lower_chain_steps_ok in Hl as [Hm (added & -> & Hb & Hids)].
  simpl in *. apply builds_minted in Hb as (Hmint & Hops & Hlen).
  split_and!; [done|by right|]. intros k' Hk. injection Hk as <-. simpl.
  split_and!; [done| |].
  - rewrite Hn, Hids. destruct Hmint as [-> _]. by rewrite Hlen, <- list_fmap_compose.
  - rewrite Hs. apply chain_handles_unique_ok. revert Hh. unfold check_handles.
    by destruct (chain_handles_unique steps) as [[]|].
Qed.

Lemma wired_single n label t r k :
  n = 0 → lower_fragment_task fresh n label t = Ok r → op_nodes k = [uuid_to_string r.1] →
  op_scopes k = [] → wired ([add_node_op r.1 (Some r.2)], operation k).
Proof.
  intros -> Hl Hn Hs. destruct r as [u task].
  apply lower_fragment_task_ok in Hl as (Hu & _ & _ & Hl & Hc). simpl in *. subst u.
  assert (builds fresh 0 [t] [add_node_op (fresh 0) (Some task)]) as Hb
    by (apply builds_cons; [done|done|constructor]).
  apply builds_minted in Hb as (Hmint & Hops & Hlen).
  split_and!; [done|by right|]. intros k' Hk. injection Hk as <-. simpl.
  split_and!; [done|by rewrite tasks_of_add|]. rewrite Hs. by intros ? ?%elem_of_nil.
Qed.

Lemma wired_plain k : op_nodes k = [] → op_scopes k = [] → wired ([], operation k).
Proof.
  intros Hn Hs. split_and!; [split; [done|by intros ?? ?%elem_of_nil]|by right|].
  intros k' Hk. injection Hk as <-. split_and!; [done|done|]. rewrite Hs. by intros ? ?%elem_of_nil.
Qed.

Lemma zip_arm_steps (steps : list ChainStep) (gates : list Gate) :
  length gates = length steps →
  omap arm_step (zip_with (λ arm gate, mkBranchArm (Some gate) (Some arm)) steps gates) = steps.
Proof.
  revert gates. induction steps as [|s steps IH]; intros [|g gates] Hlen; simpl in *; try done.
  rewrite IH; [done|lia].
Qed.

Lemma lower_chain_wired chain r : lower_chain_operation fresh chain = Ok r → wired r.
Proof.
  unfold lower_chain_operation. destruct (lower_chain_steps _ _ _) as [[steps st]|] eqn:Hl; [|done].
  simpl. destruct (ensure _ _); [|done]. simpl.
  destruct (check_handles steps) as [[]|] eqn:Hh; [|done]. intros Heq. injection Heq as <-.
  by eapply wired_steps.
Qed.

Lemma lower_fork_wired fork r : lower_fork_operation fresh fork = Ok r → wired r.
Proof.
  unfold lower_fork_operation. destruct (lower_chain_steps _ _ _) as [[steps st]|] eqn:Hl; [|done].
  simpl. destruct (ensure _ _); [|done]. simpl.
  destruct (check_handles steps) as [[]|] eqn:Hh; [|done]. intros Heq. injection Heq as <-.
  by eapply wired_steps.
Qed.

Lemma lower_expand_wired expand r : lower_expand_operation fresh expand = Ok r → wired r.
Proof.
  unfold lower_expand_operation.
  destruct (lower_chain_steps _ _ _) as [[steps st]|] eqn:Hl; [|done].
  simpl. destruct (ensure _ _); [|done]. simpl.
  destruct (check_handles steps) as [[]|] eqn:Hh; [|done]. intros Heq. injection Heq as <-.
  by eapply wired_steps.
Qed.

Lemma lower_branch_wired branch r : lower_branch_operation jsonpath_ok fresh branch = Ok r → wired r.
Proof.
  unfold lower_branch_operation. destruct (ensure _ _); [|done]. simpl.
  destruct (collect _ _) as [gates|] eqn:Hg; [|done]. simpl.
  destruct (lower_chain_steps _ _ _) as [[steps st]|] eqn:Hl; [|done]. simpl.
  destruct (check_handles steps) as [[]|] eqn:Hh; [|done]. intros Heq. injection Heq as <-.
  assert (length gates = length steps) as Hlen.
  { apply collect_length in Hg. apply lower_chain_steps_ok in Hl as [Hm%Forall2_length _].
    rewrite length_fmap in Hm. congruence. }
  eapply wired_steps; [done..| |]; simpl; by rewrite zip_arm_steps.
Qed.

Lemma lower_document_wired raw r : lower_document jsonpath_ok fresh raw = Ok r → wired r.
Proof.
  unfold lower_document.
  destruct (rd_ops raw) as [ops|].
  { unfold ensure. case_bool_decide as Hne; [done|]. simpl.
    destruct (lower_ops _ _ ops) as [ops'|] eqn:Hl; [|done]. intros Heq. injection Heq as <-.
    unfold lower_ops in Hl. destruct (traverse _ ops _) as [[ops0 st]|] eqn:Ht; [|done].
    injection Hl as <-. apply traverse_ops_ok in Ht as Hlen.
    split_and!; [by eapply traverse_ops_minted| |done]. left. simpl. intros ->. simpl in Hlen. lia. }
  destruct (rd_insert raw) as [ins|].
  { unfold lower_insert_operation. destruct (lower_fragment_task _ _ _ _) as [r'|] eqn:Hl; [|done].
    intros Heq. injection Heq as <-. by eapply wired_single. }
  destruct (rd_chain raw) as [chain|]; [apply lower_chain_wired|].
  destruct (rd_fork raw) as [fork|]; [apply lower_fork_wired|].
  destruct (rd_branch raw) as [branch|]; [apply lower_branch_wired|].
  destruct (rd_expand raw) as [expand|]; [apply lower_expand_wired|].
  destruct (rd_swap raw) as [swap|].
  { unfold lower_swap_operation. destruct (lower_fragment_task _ _ _ _) as [r'|] eqn:Hl; [|done].
    intros Heq. injection Heq as <-. by eapply wired_single. }
  destruct (rd_loop_op raw) as [loop_op|].
  { unfold lower_loop_operation. destruct (ensure _ _); [|done]. simpl. intros Heq.
    injection Heq as <-. by apply wired_plain. }
  repeat case_match; intros Heq; try done; injection Heq as <-; by apply wired_plain.
Qed.

Lemma lower_document_tagged raw r :
  lower_document jsonpath_ok fresh raw = Ok r → tag_count raw ≠ 0.
Proof.
  unfold lower_document, tag_count, present. intros Hl Hz. revert Hl.
  repeat (case_match; simpl in Hz; [lia|]). done.
Qed.
End documents.

(** C33: An accepted patch document names exactly one shape and is wired up: its new
    tasks sit under pairwise distinct fresh node ids, each task carrying its
    node's id; a composite operation rides with exactly one task-bearing
    [AddNode] per node it introduces, in the same order; no scope of it repeats a
    handle; and the patch is never empty. *)
Theorem patch_document_wired `{UuidLaws Uuid} jsonpath_ok (fresh : nat → Uuid) json raw p
    (Hfresh : Inj (=) (=) fresh)
    (Hparse : parse_patch_document_json jsonpath_ok fresh json raw = Ok p) :
  tag_count raw = 1 ∧ (pp_ops p ≠ [] ∨ pp_operation p ≠ None) ∧
  NoDup (new_tasks p).*1 ∧
  (∀ u t, (u, t) ∈ new_tasks p → task_id t = uuid_to_string u) ∧
  ∀ k, pp_operation p = operation k →
    pp_ops p = (λ ut, add_node_op ut.1 (Some ut.2)) <$> new_tasks p ∧
    op_nodes k = uuid_to_string <$> (new_tasks p).*1 ∧
    ∀ sc, sc ∈ op_scopes k → NoDup (step_handle <$> sc).
Proof.
  unfold parse_patch_document_json, ensure in Hparse.
  case_bool_decide as Htags; [|done]. simpl in Hparse.
  destruct (lower_document _ _ raw) as [r|] eqn:Hl; [|done]. injection Hparse as <-.
  apply lower_document_tagged in Hl as Hne. apply lower_document_wired in Hl as ([Hfst Hids] & ? & ?).
  split_and!; [lia|done| |done|done].
  change (new_tasks _) with (tasks_of r.1). rewrite Hfst. apply (NoDup_fmap_2 fresh), NoDup_seq.
Qed.

(** ** Examples *)


#[global] Instance unary_inj : Inj (=) (=) unary.
Proof.
  intros n m Heq. apply (f_equal (length ∘ uuid_bits)) in Heq. simpl in Heq.
  by rewrite !length_replicate in Heq.
Qed.

Definition patched_task (name path : string) : ParsedTask :=
  mkParsedTask name [] (Some path) [] [] [] None [] [] None.

(** A chain of a leaf and a nested scope that reuses its handle. *)
Definition chain_document : RawPatchDocument bit_uuid :=
  mkRawPatchDocument None None
    (Some (mkRawChain "K7Q2MXA"
       [mkRawChainStep "a" (Some (patched_task "fetch" "./f#fetch")) None;
        mkRawChainStep "b" None
          (Some [mkRawChainStep "a" (Some (patched_task "load" "./f#load")) None])] None))
    None None None None None None None None None (Some "hotfix") None.

Lemma patch_document_wired_witness :
  ∃ p, parse_patch_document_json (λ _, true) unary "{}" chain_document = Ok p ∧
       NoDup (new_tasks (Uuid := bit_uuid) p).*1.
Proof.
  eexists. split; [vm_compute; reflexivity|].
  apply (patch_document_wired (λ _, true) unary "{}" chain_document); [apply _|reflexivity].
Defined.

(** A task under a placeholder, an edge to it from an identity code, a removal. *)
Definition op_list : list (RawPatchOp bit_uuid) :=
  [RawAddNode (mkBitUuid [false]) (Some (patched_task "fetch" "./f"));
   RawAddEdge ["K7Q2MXA"] ["u0"] EdgeKind_Control [];
   RawRemoveNode "u01"].

Definition op_list_lowered : list AddressedPatchOp :=
  match lower_ops (λ _, true) unary op_list with Ok ops => ops | Err _ => [] end.

Lemma lower_ops_witness :
  lower_ops (λ _, true) unary op_list = Ok op_list_lowered ∧
  length op_list_lowered = length op_list ∧
  declared unary (take 1 op_list) (mkBitUuid [false]) (unary 0).
Proof.
  assert (lower_ops (λ _, true) unary op_list = Ok op_list_lowered) as Hl
    by (vm_compute; reflexivity).
  split; [exact Hl|].
  destruct (lower_ops_correct (λ _, true) unary op_list op_list_lowered Hl) as [Hlen Hk].
  split; [exact Hlen|].
  exists 0, (patched_task "fetch" "./f"). split; [reflexivity|]. split; [reflexivity|].
  intros [|j] t' Hj; [lia|]. vm_compute. discriminate.
Defined.

(** A task-bearing [AddNode] is accepted without the [#fragment] that the error
    text of [lower_patch_task] asks for. *)
Lemma add_node_without_fragment :
  ¬ fragment_ok (patched_task "t" "./f") ∧
  ∃ ops, lower_ops (λ _, true) unary [RawAddNode (mkBitUuid []) (Some (patched_task "t" "./f"))]
         = Ok ops.
Proof.
  split; [|eexists; vm_compute; reflexivity].
  intros (p & Hp & Hc). injection Hp as <-. vm_compute in Hc. discriminate Hc.
Qed.
