(* ===== verification/SignalMessages.v ===== *)
(** * Signal messages and the ingress envelope

    The messages of [signal.proto] that the conductor sends, and the JSON envelope
    that [nats_ingress.rs] decodes into them: [parse_envelope], and the external
    shapes of a cancel's target and reason with the decoding that [serde] derives
    for them.  JSON text and RFC 3339 text are parameters. *)

From S2P Require Import Prelude Json Uuid ReplaySeed.

(** ** [signal.proto] *)

Inductive TargetAddressing :=
| Addressing_Instance (workflow_instance_id : string) (node_id : option string)
| Addressing_ByTag (filter : gmap string string).

Record Target := mkTarget { addressing : option TargetAddressing }.

Inductive CancelReasonKind :=
| Reason_Timeout
| Reason_UserRequested (actor : option string)
| Reason_External (source : string).

Record CancelReason := mkCancelReason { reason_kind : option CancelReasonKind }.

Record Cancel := mkCancel {
  cancel_target : option Target;
  cancel_reason : option CancelReason;
  cancel_note : option string
}.

Record WakeupSignal := mkWakeupSignal {
  wakeup_name : string;
  wakeup_target : option Target;
  wakeup_captures : gmap string string
}.

Inductive TriggerSourceKind :=
| Source_Manual
| Source_External (subject : string)
| Source_Wakeup (name : string)
| Source_Replay (source_instance_id : string) (resume_from : list string).

Record TriggerSource := mkTriggerSource { source_kind : option TriggerSourceKind }.

Record TriggerMessage := mkTriggerMessage {
  trigger_workflow_id : string;
  trigger_scheduled_at : option string;
  trigger_source : option TriggerSource;
  trigger_name : option string;
  trigger_replay : option ReplaySeed
}.

Inductive SignalVariant :=
| Variant_Cancel (c : Cancel)
| Variant_Wakeup (w : WakeupSignal)
| Variant_Trigger (t : TriggerMessage)
| Variant_Resume (workflow_instance_id : string).

Record Signal := mkSignal {
  signal_id : string;
  idempotency_key : option string;
  signal_variant : option SignalVariant
}.

Record GateOutcome := mkGateOutcome {
  go_workflow_instance_id : string;
  go_edge_id : string;
  go_signal_id : string
}.

(** ** The external shapes *)

Section envelope.
Context `{UuidOps Uuid}.

Inductive ExtTarget :=
| Ext_Instance (workflow_instance_id : Uuid) (node_id : option Uuid)
| Ext_ByTag (filter : gmap string string).

Definition ExtTarget_into_proto (t : ExtTarget) : Target :=
  mkTarget (Some match t with
                 | Ext_Instance w n => Addressing_Instance (uuid_to_string w) (uuid_to_string <$> n)
                 | Ext_ByTag filter => Addressing_ByTag filter
                 end).

Inductive ExtCancelReason :=
| Ext_Timeout
| Ext_UserRequested (actor : option string)
| Ext_External (source : string).

Definition ExtCancelReason_into_proto (r : ExtCancelReason) : CancelReason :=
  mkCancelReason (Some match r with
                       | Ext_Timeout => Reason_Timeout
                       | Ext_UserRequested actor => Reason_UserRequested actor
                       | Ext_External source => Reason_External source
                       end).

(** *** What [serde] derives *)

Definition de_string (v : Json) : option string := match v with JString s => Some s | _ => None end.
Definition de_uuid (v : Json) : option Uuid := de_string v ≫= uuid_parse_str.
Definition de_option {A} (de : Json → option A) (v : Json) : option (option A) :=
  match v with JNull => Some None | v => Some <$> de v end.

(** A field of a map: one that is absent and optional is [None]. *)
Definition field {A} (de : Json → option A) (k : string) (v : Json) : option A := json_get k v ≫= de.
Definition optional_field {A} (de : Json → option A) (k : string) (v : Json) : option (option A) :=
  match json_get k v with None => Some None | Some x => de_option de x end.

(** A [HashMap<String, String>]. *)
Fixpoint de_entries (m : list (string * Json)) : option (gmap string string) :=
  match m with
  | [] => Some ∅
  | (k, v) :: m => s ← de_string v; rest ← de_entries m; Some (<[k := s]> rest)
  end.
Definition de_string_map (v : Json) : option (gmap string string) :=
  match v with JObject m => de_entries m | _ => None end.

(** An externally tagged enum: the name of a unit variant, or an object of one
    entry. *)
Definition de_variant (v : Json) : option (string * option Json) :=
  match v with
  | JString name => Some (name, None)
  | JObject [(name, content)] => Some (name, Some content)
  | _ => None
  end.

(** A struct variant is read from an object or from an array of its fields; the
    array may stop before a field that has a default. *)
Definition de_ext_target (v : Json) : option ExtTarget :=
  match de_variant v with
  | Some ("Instance", Some (JObject m)) =>
      w ← field de_uuid "workflow_instance_id" (JObject m);
      n ← optional_field de_uuid "node_id" (JObject m); Some (Ext_Instance w n)
  | Some ("Instance", Some (JArray [w])) => w ← de_uuid w; Some (Ext_Instance w None)
  | Some ("Instance", Some (JArray [w; n])) => w ← de_uuid w; n ← de_option de_uuid n; Some (Ext_Instance w n)
  | Some ("ByTag", Some (JObject m)) => f ← field de_string_map "filter" (JObject m); Some (Ext_ByTag f)
  | Some ("ByTag", Some (JArray [f])) => f ← de_string_map f; Some (Ext_ByTag f)
  | _ => None
  end.

Definition de_ext_cancel_reason (v : Json) : option ExtCancelReason :=
  match de_variant v with
  | Some ("Timeout", (None | Some JNull)) => Some Ext_Timeout
  | Some ("UserRequested", Some (JObject m)) =>
      a ← optional_field de_string "actor" (JObject m); Some (Ext_UserRequested a)
  | Some ("UserRequested", Some (JArray [a])) => a ← de_option de_string a; Some (Ext_UserRequested a)
  | Some ("External", Some (JObject m)) => s ← field de_string "source" (JObject m); Some (Ext_External s)
  | Some ("External", Some (JArray [s])) => s ← de_string s; Some (Ext_External s)
  | _ => None
  end.

(** ** The envelope *)

Inductive EnvelopeError :=
| MalformedJson (message : string)
| MissingVersion
| UnknownVersion (version : Z)
| MissingVariant
| UnknownVariant (variant : string)
| MissingIdempotencyKey
| VariantDeserialize (variant message : string).

Inductive IngressEnvelope :=
| Envelope_Trigger (idempotency_key : string) (workflow_id : Uuid) (scheduled_at : option Z) (inputs : option Json)
| Envelope_Cancel (idempotency_key : string) (target reason : Json) (note : option string)
| Envelope_Wakeup (idempotency_key name : string) (target : Json) (payload : option Json).

Definition envelope_key (e : IngressEnvelope) : string :=
  match e with
  | Envelope_Trigger key _ _ _ | Envelope_Cancel key _ _ _ | Envelope_Wakeup key _ _ _ => key
  end.

Context (from_slice : string → result Json string) (parse_rfc3339 : string → option Z).
Context (serde_message : string → Json → string).

Definition de_time (v : Json) : option Z := de_string v ≫= parse_rfc3339.

(** [#[serde(default = "default_null")] reason: Value]: a null is a value. *)
Definition value_or_null (k : string) (v : Json) : Json := default JNull (json_get k v).

Definition trigger_fields (key : string) (v : Json) : option IngressEnvelope :=
  w ← field de_uuid "workflow_id" v; at_ ← optional_field de_time "scheduled_at" v;
  inputs ← optional_field Some "inputs" v; Some (Envelope_Trigger key w at_ inputs).

Definition cancel_fields (key : string) (v : Json) : option IngressEnvelope :=
  target ← json_get "target" v; note ← optional_field de_string "note" v;
  Some (Envelope_Cancel key target (value_or_null "reason" v) note).

Definition wakeup_fields (key : string) (v : Json) : option IngressEnvelope :=
  name ← field de_string "name" v; target ← json_get "target" v;
  payload ← optional_field Some "payload" v; Some (Envelope_Wakeup key name target payload).

Definition parse_envelope (payload : string) : result IngressEnvelope EnvelopeError :=
  let? value := map_err MalformedJson (from_slice payload) in
  match value with
  | JObject _ =>
      let? version :=
        match json_get "version" value with
        | None => Err MissingVersion
        | Some v => ok_or (as_u64 v) (MalformedJson "`version` must be an unsigned integer")
        end in
      let? _ := ensure (version =? 1)%Z (UnknownVersion version) in
      let? key := ok_or (json_get "idempotency_key" value) MissingIdempotencyKey in
      let? key := ok_or (as_str key) (MalformedJson "`idempotency_key` must be a string") in
      let? variant := ok_or (json_get "variant" value) MissingVariant in
      let? variant := ok_or (as_str variant) (MalformedJson "`variant` must be a string") in
      let decode fields := ok_or (fields key value) (VariantDeserialize variant (serde_message variant value)) in
      if bool_decide (variant = "Trigger") then decode trigger_fields
      else if bool_decide (variant = "Cancel") then decode cancel_fields
      else if bool_decide (variant = "Wakeup") then decode wakeup_fields
      else Err (UnknownVariant variant)
  | _ => Err (MalformedJson "envelope must be a JSON object")
  end.
End envelope.
Arguments ExtTarget : clear implicits.
Arguments IngressEnvelope : clear implicits.
