(* ===== verification/Sha256.v ===== *)
(** * SHA-256

    [sha256] and [sha256_hex] of [migrations/src/scope_repository.rs], which is
    written out in the source: 32-bit words as integers with their wrap-around,
    bytes as integers below 256, the buffer of words as a list updated by index.
    It is proved to compute the function of FIPS 180-4, and its padding to be
    injective. *)

From S2P Require Import Prelude.
Local Open Scope Z_scope.

(** ** Words *)

Definition u32 (x : Z) : Z := x mod 2 ^ 32.
Definition wrapping_add (x y : Z) : Z := u32 (x + y).
Definition not_u32 (x : Z) : Z := 2 ^ 32 - 1 - x.
Definition rotate_right (x n : Z) : Z := Z.lor (Z.shiftr x n) (u32 (Z.shiftl x (32 - n))).

(** [to_be_bytes] of a word of [n] bytes, and [u32::from_be_bytes]. *)
Fixpoint to_be_bytes (n : nat) (x : Z) : list Z :=
  match n with
  | O => []
  | S n => (Z.shiftr x (8 * Z.of_nat n)) mod 256 :: to_be_bytes n x
  end.

Definition from_be_bytes (bytes : list Z) : Z := foldl (λ x b, x * 256 + b) 0 bytes.

(** The rows of the table, as the source has them. *)
Definition K : list Z :=
  mjoin [[0x428a2f98; 0x71374491; 0xb5c0fbcf; 0xe9b5dba5; 0x3956c25b; 0x59f111f1; 0x923f82a4];
         [0xab1c5ed5; 0xd807aa98; 0x12835b01; 0x243185be; 0x550c7dc3; 0x72be5d74; 0x80deb1fe];
         [0x9bdc06a7; 0xc19bf174; 0xe49b69c1; 0xefbe4786; 0x0fc19dc6; 0x240ca1cc; 0x2de92c6f];
         [0x4a7484aa; 0x5cb0a9dc; 0x76f988da; 0x983e5152; 0xa831c66d; 0xb00327c8; 0xbf597fc7];
         [0xc6e00bf3; 0xd5a79147; 0x06ca6351; 0x14292967; 0x27b70a85; 0x2e1b2138; 0x4d2c6dfc];
         [0x53380d13; 0x650a7354; 0x766a0abb; 0x81c2c92e; 0x92722c85; 0xa2bfe8a1; 0xa81a664b];
         [0xc24b8b70; 0xc76c51a3; 0xd192e819; 0xd6990624; 0xf40e3585; 0x106aa070; 0x19a4c116];
         [0x1e376c08; 0x2748774c; 0x34b0bcb5; 0x391c0cb3; 0x4ed8aa4a; 0x5b9cca4f; 0x682e6ff3];
         [0x748f82ee; 0x78a5636f; 0x84c87814; 0x8cc70208; 0x90befffa; 0xa4506ceb; 0xbef9a3f7];
         [0xc67178f2]].

Definition initial_state : list Z :=
  [0x6a09e667; 0xbb67ae85; 0x3c6ef372; 0xa54ff53a; 0x510e527f; 0x9b05688c; 0x1f83d9ab; 0x5be0cd19].

(** ** Padding *)

(** [while padded.len() % 64 != 56 { padded.push(0) }]; the fuel is a bound on the
    turns. *)
Fixpoint push_zeros (fuel : nat) (padded : list Z) : list Z :=
  match fuel with
  | O => padded
  | S fuel =>
      if bool_decide (Z.of_nat (length padded) mod 64 = 56) then padded
      else push_zeros fuel (padded ++ [0])
  end.

Definition bit_len (input : list Z) : Z := (Z.of_nat (length input) * 8) mod 2 ^ 64.

Definition pad (input : list Z) : list Z :=
  push_zeros 64 (input ++ [0x80]) ++ to_be_bytes 8 (bit_len input).

(** [chunks_exact]: a rest shorter than [n] is left out. *)
Fixpoint chunks_exact (fuel n : nat) (l : list Z) : list (list Z) :=
  match fuel with
  | O => []
  | S fuel => if bool_decide (n ≤ length l)%nat then take n l :: chunks_exact fuel n (drop n l) else []
  end.

(** ** One block *)

(** [words[i]]; the indices are in range. *)
Definition word (words : list Z) (i : nat) : Z := default 0 (words !! i).

Definition load_words (chunk : list Z) : list Z :=
  foldl (λ words index, <[index := from_be_bytes (take 4 (drop (index * 4) chunk))]> words)
    (replicate 64 0) (seq 0 16).

Definition extend_step (words : list Z) (index : nat) : list Z :=
  let s0 := Z.lxor (Z.lxor (rotate_right (word words (index - 15)) 7) (rotate_right (word words (index - 15)) 18))
              (Z.shiftr (word words (index - 15)) 3) in
  let s1 := Z.lxor (Z.lxor (rotate_right (word words (index - 2)) 17) (rotate_right (word words (index - 2)) 19))
              (Z.shiftr (word words (index - 2)) 10) in
  <[index := wrapping_add (wrapping_add (wrapping_add (word words (index - 16)) s0) (word words (index - 7))) s1]>
    words.

Definition Registers : Type := Z * Z * Z * Z * Z * Z * Z * Z.

Definition round (words : list Z) (registers : Registers) (index : nat) : Registers :=
  let '(a, b, c, d, e, f, g, h) := registers in
  let s1 := Z.lxor (Z.lxor (rotate_right e 6) (rotate_right e 11)) (rotate_right e 25) in
  let choice := Z.lxor (Z.land e f) (Z.land (not_u32 e) g) in
  let temp1 := wrapping_add (wrapping_add (wrapping_add (wrapping_add h s1) choice) (word K index))
                 (word words index) in
  let s0 := Z.lxor (Z.lxor (rotate_right a 2) (rotate_right a 13)) (rotate_right a 22) in
  let majority := Z.lxor (Z.lxor (Z.land a b) (Z.land a c)) (Z.land b c) in
  let temp2 := wrapping_add s0 majority in
  (wrapping_add temp1 temp2, a, b, c, wrapping_add d temp1, e, f, g).

Definition registers_list (r : Registers) : list Z :=
  let '(a, b, c, d, e, f, g, h) := r in [a; b; c; d; e; f; g; h].

Definition list_registers (l : list Z) : Registers :=
  (word l 0, word l 1, word l 2, word l 3, word l 4, word l 5, word l 6, word l 7).

Definition compress (state chunk : list Z) : list Z :=
  let words := foldl extend_step (load_words chunk) (seq 16 48) in
  let registers := foldl (round words) (list_registers state) (seq 0 64) in
  zip_with wrapping_add state (registers_list registers).

Definition sha256 (input : list Z) : list Z :=
  let padded := pad input in
  mjoin (to_be_bytes 4 <$> foldl compress initial_state (chunks_exact (length padded) 64 padded)).

(** ** Text *)

Definition HEX : string := "0123456789abcdef".
Definition hex_char (n : Z) : ascii := default "0"%char (String.get (Z.to_nat n) HEX).

Fixpoint encode_hex (digest : list Z) : string :=
  match digest with
  | [] => ""
  | byte :: rest => String (hex_char (Z.shiftr byte 4)) (String (hex_char (Z.land byte 15)) (encode_hex rest))
  end.

Definition sha256_hex (bytes : list Z) : string := encode_hex (sha256 bytes).

Definition bytes_of (s : string) : list Z := (λ c, Z.of_N (Ascii.N_of_ascii c)) <$> String.list_ascii_of_string s.

Example sha256_abc :
  sha256_hex (bytes_of "abc") = "ba7816bf8f01cfea414140de5dae2223b00361a396177a9cb410ff61f20015ad".
Proof. vm_compute. reflexivity. Qed.

(** ** FIPS 180-4 *)

(** The standard, section by section: sums are taken modulo [2^32] at their end,
    the rotations and shifts are arithmetic, the message schedule is the
    recurrence of 6.2.2. *)
Module Fips.

(** 3.2 and 4.1.2 *)
Definition ROTR (n x : Z) : Z := x / 2 ^ n + x mod 2 ^ n * 2 ^ (32 - n).
Definition SHR (n x : Z) : Z := x / 2 ^ n.
Definition Ch (x y z : Z) : Z := Z.lxor (Z.land x y) (Z.ldiff z x).
Definition Maj (x y z : Z) : Z := Z.lxor (Z.lxor (Z.land x y) (Z.land x z)) (Z.land y z).
Definition Sigma0 (x : Z) : Z := Z.lxor (Z.lxor (ROTR 2 x) (ROTR 13 x)) (ROTR 22 x).
Definition Sigma1 (x : Z) : Z := Z.lxor (Z.lxor (ROTR 6 x) (ROTR 11 x)) (ROTR 25 x).
Definition sigma0 (x : Z) : Z := Z.lxor (Z.lxor (ROTR 7 x) (ROTR 18 x)) (SHR 3 x).
Definition sigma1 (x : Z) : Z := Z.lxor (Z.lxor (ROTR 17 x) (ROTR 19 x)) (SHR 10 x).

(** 4.2.2 and 5.3.3: the first 32 bits of the fractional parts of the cube roots of
    the first 64 primes, and of the square roots of the first eight. *)
Definition is_prime (n : nat) : bool :=
  (2 <=? n)%nat && forallb (λ d, negb (n mod d =? 0)%nat) (seq 2 (n - 2)).
Definition primes (bound : nat) : list Z := Z.of_nat <$> List.filter is_prime (seq 0 bound).
Definition cube_root (n : Z) : Z :=
  foldr (λ i r, if (r + 2 ^ Z.of_nat i) ^ 3 <=? n then r + 2 ^ Z.of_nat i else r) 0 (seq 0 36).
Definition constants : list Z := (λ p, cube_root (p * 2 ^ 96) mod 2 ^ 32) <$> primes 312.
Definition initial_hash : list Z := (λ p, Z.sqrt (p * 2 ^ 64) mod 2 ^ 32) <$> primes 20.

(** 5.1.1: a one bit, then the least number of zero bits, then the length. *)
Definition pad_message (M : list Z) : list Z :=
  M ++ [0x80] ++ replicate (Z.to_nat ((55 - Z.of_nat (length M)) mod 64)) 0 ++
  to_be_bytes 8 (8 * Z.of_nat (length M)).

(** 5.2.1: the block [i], and its word [t]. *)
Definition block (M : list Z) (i : nat) : list Z := take 64 (drop (64 * i) M).
Definition block_word (B : list Z) (t : nat) : Z := from_be_bytes (take 4 (drop (4 * t) B)).

(** 6.2.2, step 1: the first [n] words of the schedule. *)
Fixpoint schedule (B : list Z) (n : nat) : list Z :=
  match n with
  | O => []
  | S t =>
      let W := schedule B t in
      W ++ [if (t <? 16)%nat then block_word B t
            else (sigma1 (word W (t - 2)) + word W (t - 7) + sigma0 (word W (t - 15)) + word W (t - 16))
                 mod 2 ^ 32]
  end.

(** Step 3. *)
Definition step (W : list Z) (r : Registers) (t : nat) : Registers :=
  let '(a, b, c, d, e, f, g, h) := r in
  let T1 := h + Sigma1 e + Ch e f g + word constants t + word W t in
  let T2 := Sigma0 a + Maj a b c in
  ((T1 + T2) mod 2 ^ 32, a, b, c, (d + T1) mod 2 ^ 32, e, f, g).

(** Steps 2 and 4. *)
Definition hash_block (H B : list Z) : list Z :=
  zip_with (λ x y, (x + y) mod 2 ^ 32) H
    (registers_list (foldl (step (schedule B 64)) (list_registers H) (seq 0 64))).

Definition digest (M : list Z) : list Z :=
  let P := pad_message M in
  mjoin (to_be_bytes 4 <$> foldl (λ H i, hash_block H (block P i)) initial_hash (seq 0 (length P / 64))).
End Fips.

(** The tables of the source hold these constants. *)
Lemma K_fips : K = Fips.constants.
Proof. vm_compute. reflexivity. Qed.
Lemma initial_state_fips : initial_state = Fips.initial_hash.
Proof. vm_compute. reflexivity. Qed.

(** ** The words stay words *)

Definition is_byte_value (b : Z) : Prop := 0 <= b < 256.
Definition is_word (x : Z) : Prop := 0 <= x < 2 ^ 32.

Lemma u32_word x : is_word (u32 x).
Proof. unfold u32, is_word. apply Z.mod_pos_bound. lia. Qed.

Lemma word_high x i : is_word x → 32 <= i → Z.testbit x i = false.
Proof.
  unfold is_word. intros Hx Hi. destruct (decide (x = 0)) as [->|]; [apply Z.bits_0|].
  apply Z.bits_above_log2; [lia|]. apply Z.log2_lt_pow2; [lia|].
  eapply Z.lt_le_trans; [apply Hx|]. apply Z.pow_le_mono_r; lia.
Qed.

Lemma rotr_eq x n : is_word x → 0 < n < 32 → rotate_right x n = Fips.ROTR n x.
Proof.
  unfold is_word, rotate_right, Fips.ROTR, u32. intros Hx Hn. rewrite Z.shiftr_div_pow2, Z.shiftl_mul_pow2 by lia.
  assert ((x * 2 ^ (32 - n)) mod 2 ^ 32 = x mod 2 ^ n * 2 ^ (32 - n)) as Hl.
  { replace (2 ^ 32) with (2 ^ n * 2 ^ (32 - n)) by (rewrite <- Z.pow_add_r by lia; f_equal; lia).
    rewrite Z.mul_mod_distr_r; lia. }
  rewrite Hl, Z.add_nocarry_lxor; [symmetry; apply Z.lxor_lor|]; clear Hl;
    (apply Z.bits_inj'; intros i Hi; rewrite Z.land_spec, Z.bits_0;
     destruct (Z.lt_ge_cases i (32 - n)) as [Hlt|Hge];
     [rewrite Z.mul_pow2_bits_low by lia; apply andb_false_r|]);
    rewrite Z.div_pow2_bits, word_high by (done || lia); done.
Qed.

Lemma shr_eq x n : 0 <= n → Z.shiftr x n = Fips.SHR n x.
Proof. apply Z.shiftr_div_pow2. Qed.

(** The complement of a word, met with a word. *)
Lemma not_land e g : is_word e → is_word g → Z.land (not_u32 e) g = Z.ldiff g e.
Proof.
  unfold is_word, not_u32. intros He Hg. apply Z.bits_inj'. intros i Hi.
  rewrite Z.land_spec, Z.ldiff_spec, (andb_comm _ (Z.testbit g i)).
  destruct (Z.lt_ge_cases i 32) as [Hlt|Hge].
  - f_equal. replace (2 ^ 32 - 1 - e) with (Z.ones 32 - e) by (rewrite Z.ones_equiv; lia).
    rewrite Z.sub_nocarry_ldiff.
    + rewrite Z.ldiff_spec, Z.ones_spec_low by lia. done.
    + apply Z.bits_inj'. intros j Hj. rewrite Z.ldiff_spec, Z.bits_0.
      destruct (Z.lt_ge_cases j 32) as [Hj'|Hj']; [rewrite Z.ones_spec_low by lia; apply andb_false_r|].
      rewrite (word_high e j); [done|done|lia].
  - rewrite (word_high g i) by (done || lia). done.
Qed.

Lemma wrapping_add_assoc x y z : wrapping_add (wrapping_add x y) z = u32 (x + y + z).
Proof. unfold wrapping_add, u32. by rewrite Zplus_mod_idemp_l. Qed.

Lemma u32_add_l x y : u32 (u32 x + y) = u32 (x + y).
Proof. unfold u32. by rewrite Zplus_mod_idemp_l. Qed.

Lemma u32_add_r x y : u32 (x + u32 y) = u32 (x + y).
Proof. unfold u32. by rewrite Zplus_mod_idemp_r. Qed.

Lemma from_be_bytes_snoc bytes b : from_be_bytes (bytes ++ [b]) = from_be_bytes bytes * 256 + b.
Proof. unfold from_be_bytes. by rewrite foldl_app. Qed.

Lemma from_be_bytes_bound bytes :
  Forall is_byte_value bytes → 0 <= from_be_bytes bytes < 256 ^ Z.of_nat (length bytes).
Proof.
  induction bytes as [|b bytes IH] using rev_ind; [done|]. intros [Hb [Hb' _]%Forall_cons]%Forall_app.
  rewrite from_be_bytes_snoc, length_app. simpl length.
  replace (Z.of_nat (length bytes + 1)) with (Z.of_nat (length bytes) + 1) by lia.
  rewrite Z.pow_add_r by lia. specialize (IH Hb). unfold is_byte_value in Hb'. lia.
Qed.

Lemma block_word_word B t : Forall is_byte_value B → is_word (Fips.block_word B t).
Proof.
  intros HB. unfold Fips.block_word, is_word.
  destruct (from_be_bytes_bound (take 4 (drop (4 * t) B))) as [H0 H1]; [by apply Forall_take, Forall_drop|].
  split; [done|]. eapply Z.lt_le_trans; [exact H1|]. change (2 ^ 32) with (256 ^ 4).
  apply Z.pow_le_mono_r; [lia|]. rewrite length_take. lia.
Qed.

Lemma word_lookup words i : (i < length words)%nat → words !! i = Some (word words i).
Proof. intros [x Hx]%lookup_lt_is_Some. unfold word. by rewrite Hx. Qed.

Lemma word_app_l l l' i : (i < length l)%nat → word (l ++ l') i = word l i.
Proof. intros Hi. unfold word. by rewrite lookup_app_l. Qed.

Lemma word_Forall (P : Z → Prop) l i : Forall P l → P 0 → P (word l i).
Proof. intros Hl H0. unfold word. destruct (l !! i) eqn:Hi; [|done]. simpl. by eapply Forall_lookup_1. Qed.

Lemma schedule_length B n : length (Fips.schedule B n) = n.
Proof. induction n as [|n IH]; simpl; [done|]. rewrite length_app, IH. simpl. lia. Qed.

Lemma schedule_words B n : Forall is_byte_value B → Forall is_word (Fips.schedule B n).
Proof.
  intros HB. induction n as [|n IH]; simpl; [constructor|]. apply Forall_app. split; [done|].
  apply Forall_singleton. case_match; [by apply block_word_word|apply (u32_word _)].
Qed.

(** The buffer after the words up to [16 + k] have been filled in. *)
Lemma load_schedule B : load_words B = Fips.schedule B 16 ++ replicate 48 0.
Proof. reflexivity. Qed.

Lemma wrapping_sum4 a b c d :
  wrapping_add (wrapping_add (wrapping_add a b) c) d = (d + c + b + a) mod 2 ^ 32.
Proof.
  unfold wrapping_add, u32. rewrite Zplus_mod_idemp_l, <- Z.add_assoc, Zplus_mod_idemp_l. f_equal. ring.
Qed.

Lemma wrapping_sum5 a b c d e :
  wrapping_add (wrapping_add (wrapping_add (wrapping_add a b) c) d) e = u32 (a + b + c + d + e).
Proof. rewrite wrapping_sum4. unfold wrapping_add, u32. rewrite Zplus_mod_idemp_r. f_equal. ring. Qed.

Lemma insert_head (x y : Z) l : <[0%nat := x]> (y :: l) = x :: l.
Proof. done. Qed.

Lemma extend_schedule B k :
  Forall is_byte_value B → (k <= 48)%nat →
  foldl extend_step (load_words B) (seq 16 k) = Fips.schedule B (16 + k) ++ replicate (48 - k) 0.
Proof.
  intros HB. induction k as [|k IH]; intros Hk; [apply load_schedule|].
  rewrite seq_S, foldl_app, IH by lia. cbn [foldl]. replace (16 + S k)%nat with (S (16 + k)) by lia.
  assert (16 <= 16 + k)%nat as Ht by lia. revert Ht. generalize (16 + k)%nat. clear IH. intros t Ht.
  assert (length (Fips.schedule B t) = t) as Hlen by apply schedule_length.
  assert (∀ i, is_word (word (Fips.schedule B t) i)) as Hw.
  { intros i. apply word_Forall; [by apply schedule_words|done]. }
  unfold extend_step. rewrite !word_app_l by lia. replace (48 - k)%nat with (S (48 - S k)) by lia.
  cbn [replicate]. rewrite insert_app_r_alt by lia. rewrite Hlen, Nat.sub_diag. cbn [list_insert].
  cbn [Fips.schedule]. rewrite <- app_assoc. f_equal. cbn [app]. f_equal.
  replace (t <? 16)%nat with false by (symmetry; apply Nat.ltb_ge; lia).
  rewrite !rotr_eq, !shr_eq by (done || lia). by rewrite wrapping_sum4, insert_head.
Qed.

(** ** One block *)

Definition words_registers (r : Registers) : Prop := Forall is_word (registers_list r).

Lemma round_step W r t :
  words_registers r → round W r t = Fips.step W r t ∧ words_registers (round W r t).
Proof.
  destruct r as [[[[[[[a b] c] d] e] f] g] h]. unfold words_registers. simpl. rewrite !Forall_cons.
  intros (Ha & Hb & Hc & Hd & He & Hf & Hg & Hh & _). rewrite <- K_fips. split.
  - rewrite !rotr_eq, not_land by (done || lia). unfold Fips.Sigma0, Fips.Sigma1, Fips.Ch, Fips.Maj.
    rewrite (wrapping_sum5 h _ _ _ (word W t)). unfold wrapping_add. rewrite u32_add_l, !u32_add_r.
    done.
  - split_and!; try done; apply u32_word.
Qed.

Lemma rounds_steps W r l :
  words_registers r →
  foldl (round W) r l = foldl (Fips.step W) r l ∧ words_registers (foldl (round W) r l).
Proof.
  revert r. induction l as [|t l IH]; intros r Hr; [done|]. cbn [foldl].
  destruct (round_step W r t Hr) as [Hs Hw]. rewrite <- Hs. by apply IH.
Qed.

Lemma compress_block H B :
  length H = 8%nat → Forall is_word H → Forall is_byte_value B →
  compress H B = Fips.hash_block H B ∧ length (compress H B) = 8%nat ∧ Forall is_word (compress H B).
Proof.
  intros Hl HH HB. unfold compress, Fips.hash_block. rewrite (extend_schedule B 48) by (done || lia).
  change (replicate (48 - 48) 0) with (@nil Z). rewrite app_nil_r. change (16 + 48)%nat with 64%nat.
  assert (words_registers (list_registers H)) as Hr.
  { unfold words_registers, list_registers, registers_list.
    rewrite !Forall_cons, Forall_nil. split_and!; try done; by apply word_Forall. }
  destruct (rounds_steps (Fips.schedule B 64) _ (seq 0 64) Hr) as [-> Hw]. split; [done|].
  destruct (foldl (Fips.step _) _ _) as [[[[[[[a b] c] d] e] f] g] h].
  do 9 (destruct H as [|? H]; try done). split; [done|]. cbn [registers_list zip_with].
  rewrite !Forall_cons. split_and!; try done; apply u32_word.
Qed.

(** ** Padding and blocks *)

Lemma push_zeros_eq fuel l :
  (56 - Z.of_nat (length l)) mod 64 <= Z.of_nat fuel →
  push_zeros fuel l = l ++ replicate (Z.to_nat ((56 - Z.of_nat (length l)) mod 64)) 0.
Proof.
  revert l. induction fuel as [|fuel IH]; intros l Hf; cbn [push_zeros].
  - pose proof (Z.mod_pos_bound (56 - Z.of_nat (length l)) 64). replace (_ mod 64) with 0 by lia.
    by rewrite app_nil_r.
  - case_bool_decide as Hm.
    + replace ((56 - _) mod 64) with 0; [by rewrite app_nil_r|].
      rewrite Zminus_mod, Hm. reflexivity.
    + assert ((56 - Z.of_nat (length l)) mod 64 = (56 - Z.of_nat (length (l ++ [0]))) mod 64 + 1) as Hs.
      { rewrite length_app. simpl length. rewrite Nat2Z.inj_add.
        pose proof (Z.mod_pos_bound (Z.of_nat (length l)) 64). Z.div_mod_to_equations. lia. }
      rewrite Hs in Hf |- *. rewrite IH by lia. rewrite <- app_assoc. f_equal.
      rewrite Z2Nat.inj_add by (try apply Z.mod_pos_bound; lia). rewrite Nat.add_1_r. done.
Qed.

(** The fuel of the loop is enough for every input. *)
Lemma pad_eq input :
  8 * Z.of_nat (length input) < 2 ^ 64 → pad input = Fips.pad_message input.
Proof.
  intros Hl. unfold pad, Fips.pad_message, bit_len. rewrite push_zeros_eq.
  - rewrite length_app. simpl length. rewrite <- !app_assoc. do 3 f_equal.
    + by replace (55 - Z.of_nat (length input)) with (56 - Z.of_nat (length input + 1)) by lia.
    + rewrite Z.mod_small by lia. f_equal. lia.
  - pose proof (Z.mod_pos_bound (56 - Z.of_nat (length (input ++ [0x80]))) 64). lia.
Qed.

Lemma to_be_bytes_length n x : length (to_be_bytes n x) = n.
Proof. induction n as [|n IH]; simpl; [done|]. by rewrite IH. Qed.

Lemma to_be_bytes_bytes n x : Forall is_byte_value (to_be_bytes n x).
Proof.
  induction n as [|n IH]; simpl; constructor; [|done]. apply Z.mod_pos_bound. lia.
Qed.

Lemma pad_message_length M : (length (Fips.pad_message M) = 64 * (length (Fips.pad_message M) / 64))%nat.
Proof.
  assert (Z.of_nat (length (Fips.pad_message M)) mod 64 = 0) as Hm.
  { unfold Fips.pad_message. rewrite !length_app, to_be_bytes_length, length_replicate. simpl length.
    pose proof (Z.mod_pos_bound (55 - Z.of_nat (length M)) 64).
    rewrite !Nat2Z.inj_add, Z2Nat.id by lia. Z.div_mod_to_equations. lia. }
  apply Nat2Z.inj. rewrite Nat2Z.inj_mul, Nat2Z.inj_div. Z.div_mod_to_equations. lia.
Qed.

Lemma chunks_blocks fuel m P :
  length P = (64 * m)%nat → (m <= fuel)%nat → chunks_exact fuel 64 P = Fips.block P <$> seq 0 m.
Proof.
  revert fuel P. induction m as [|m IH]; intros fuel P Hl Hf.
  - destruct P; [|simpl in Hl; lia]. by destruct fuel.
  - destruct fuel as [|fuel]; [lia|]. cbn [chunks_exact]. rewrite bool_decide_true by lia.
    rewrite (IH fuel (drop 64 P)) by (rewrite ?length_drop; lia).
    cbn [seq]. rewrite fmap_cons. f_equal. rewrite <- seq_shift, <- list_fmap_compose.
    apply list_fmap_ext. intros _ i _. unfold Fips.block. simpl compose. rewrite drop_drop. f_equal. f_equal. lia.
Qed.

Lemma compress_blocks H P l :
  length H = 8%nat → Forall is_word H → Forall is_byte_value P →
  foldl compress H (Fips.block P <$> l) = foldl (λ H i, Fips.hash_block H (Fips.block P i)) H l.
Proof.
  intros Hl HH HP. revert H Hl HH. induction l as [|i l IH]; intros H Hl HH; [done|].
  destruct (compress_block H (Fips.block P i)) as (Heq & Hl' & HH'); [done..|by apply Forall_take, Forall_drop|].
  simpl. rewrite <- Heq. by apply IH.
Qed.

(** C25: the digest the repository computes is SHA-256: on every input whose length in
    bits the standard admits it is the function of FIPS 180-4. *)
Theorem sha256_fips input :
  Forall is_byte_value input → 8 * Z.of_nat (length input) < 2 ^ 64 → sha256 input = Fips.digest input.
Proof.
  intros Hb Hl. unfold sha256, Fips.digest. rewrite pad_eq, <- initial_state_fips by done. f_equal. f_equal.
  assert (Forall is_byte_value (Fips.pad_message input)) as HP.
  { unfold Fips.pad_message. rewrite !Forall_app. split_and!; [done| | |apply to_be_bytes_bytes].
    - by apply Forall_singleton.
    - by apply Forall_replicate. }
  rewrite (chunks_blocks _ (length (Fips.pad_message input) / 64)).
  - apply compress_blocks; [done| |done]. unfold initial_state. by rewrite !Forall_cons.
  - apply pad_message_length.
  - apply Nat.Div0.div_le_upper_bound. lia.
Qed.

Lemma sha256_fips_witness :
  sha256 (bytes_of "abc") = Fips.digest (bytes_of "abc").
Proof.
  refine (sha256_fips (bytes_of "abc") _ _); [|by vm_compute].
  unfold bytes_of. simpl. by rewrite !Forall_cons.
Defined.

(** ** The byte order *)

Lemma from_be_bytes_cons b l :
  from_be_bytes (b :: l) = b * 256 ^ Z.of_nat (length l) + from_be_bytes l.
Proof.
  induction l as [|c l IH] using rev_ind; [cbn; lia|].
  rewrite app_comm_cons, !from_be_bytes_snoc, IH, length_app. simpl length.
  rewrite Nat2Z.inj_add, Z.pow_add_r by lia. lia.
Qed.

Lemma from_to_be_bytes n x : 0 <= x < 256 ^ Z.of_nat n → from_be_bytes (to_be_bytes n x) = x.
Proof.
  intros Hx. replace x with (x mod 256 ^ Z.of_nat n) at 2 by (by apply Z.mod_small). clear Hx.
  induction n as [|n IH]; [cbn; by rewrite Z.mod_1_r|]. cbn [to_be_bytes].
  rewrite from_be_bytes_cons, to_be_bytes_length, IH, Z.shiftr_div_pow2 by lia.
  rewrite Z.pow_mul_r by lia. change (2 ^ 8) with 256.
  replace (Z.of_nat (S n)) with (Z.of_nat n + 1) by lia. rewrite Z.pow_add_r by lia. change (256 ^ 1) with 256.
  rewrite Z.rem_mul_r by lia. lia.
Qed.

Lemma to_be_bytes_inj n x y :
  0 <= x < 256 ^ Z.of_nat n → 0 <= y < 256 ^ Z.of_nat n → to_be_bytes n x = to_be_bytes n y → x = y.
Proof. intros Hx Hy He. rewrite <- (from_to_be_bytes n x), <- (from_to_be_bytes n y) by done. by rewrite He. Qed.

(** Two messages with the same padding are the same. *)
Lemma pad_inj M M' :
  8 * Z.of_nat (length M) < 2 ^ 64 → 8 * Z.of_nat (length M') < 2 ^ 64 → pad M = pad M' → M = M'.
Proof.
  intros Hl Hl'. rewrite !pad_eq by done. unfold Fips.pad_message. rewrite !(assoc_L (++)). intros He.
  apply app_inj_2 in He as [He Hlen]; [|by rewrite !to_be_bytes_length].
  apply to_be_bytes_inj in Hlen; [|change (256 ^ Z.of_nat 8) with (2 ^ 64); lia..].
  rewrite <- !(assoc_L (++)) in He. apply app_inj_1 in He as [He _]; [done|lia].
Qed.
