(* ===== verification/SignalStore.v ===== *)
(** * The signal audit store

    The tables [signal_captures], [signal_cancels] and [signal_wakeups] as
    [migrations/src/signal_repository.rs] reads and writes them, with the checks
    that [signal_cancels.rs] puts around the cancel rows.  An operation is one
    atomic step on the tables; the clock is an argument. *)

From S2P Require Import Prelude Json Uuid.

Section signal_store.
Context `{UuidOps Uuid} `{!Countable Uuid} (uuid_leb : Uuid → Uuid → bool).

(** ** Rows *)

Record SignalCapturesInput := mkSignalCapturesInput {
  sci_signal_id : Uuid;
  sci_workflow_id : Uuid;
  sci_workflow_version : option Z;
  sci_captures : Json
}.

Record SignalCapturesRecord := mkSignalCapturesRecord {
  scr_signal_id : Uuid;
  scr_workflow_id : Uuid;
  scr_workflow_version : option Z;
  scr_captures : Json;
  scr_created_at : Z;
  scr_materialized_run_id : option Uuid;
  scr_terminal_at : option Z
}.

Record SignalCancelInput := mkSignalCancelInput {
  sxi_signal_id : Uuid;
  sxi_applied_count : Z;
  sxi_target : Json;
  sxi_note : option string
}.

Record SignalCancelRecord := mkSignalCancelRecord {
  sxr_signal_id : Uuid;
  sxr_applied_count : Z;
  sxr_target : Json;
  sxr_note : option string;
  sxr_created_at : Z
}.

Definition PENDING_SIGNAL_CANCEL_APPLIED_COUNT : Z := -1.

Record SignalWakeupInput := mkSignalWakeupInput {
  swi_signal_id : Uuid;
  swi_name : string;
  swi_matched_workflows : Z
}.

Record SignalWakeupRecord := mkSignalWakeupRecord {
  swr_signal_id : Uuid;
  swr_name : string;
  swr_matched_workflows : Z;
  swr_created_at : Z
}.

Inductive SignalAuditRecord :=
| Audit_Wakeup (r : SignalWakeupRecord)
| Audit_Captures (r : SignalCapturesRecord)
| Audit_Cancel (r : SignalCancelRecord).

Inductive SignalLinkageOutcome :=
| Linked
| AlreadyLinked (workflow_instance_id : Uuid)
| LinkAbsent.

(** [CorruptStoredValue], and the checks of [signal_cancels.rs]. *)
Inductive SignalError :=
| CapturesNotArray
| CaptureNotObject
| CaptureWithoutName
| CaptureWithoutEnvelope
| InvalidPendingCount
| IdentityExists
| CountOutOfRange.

Record SignalStore := mkSignalStore {
  captures_rows : gmap Uuid SignalCapturesRecord;
  cancel_rows : gmap Uuid SignalCancelRecord;
  wakeup_rows : gmap Uuid SignalWakeupRecord
}.

Definition SignalStore_empty : SignalStore := mkSignalStore ∅ ∅ ∅.

(** ** Captures *)

Definition validate_capture (capture : Json) : result unit SignalError :=
  match capture with
  | JObject _ =>
      let? _ := match json_get "name" capture with Some (JString _) => Ok tt | _ => Err CaptureWithoutName end in
      match json_get "envelope" capture with Some (JObject _) => Ok tt | _ => Err CaptureWithoutEnvelope end
  | _ => Err CaptureNotObject
  end.

Fixpoint validate_each (captures : list Json) : result unit SignalError :=
  match captures with
  | [] => Ok tt
  | capture :: rest => let? _ := validate_capture capture in validate_each rest
  end.

Definition validate_captures (captures : Json) : result unit SignalError :=
  match captures with JArray l => validate_each l | _ => Err CapturesNotArray end.

(** The names of a valid array; [expect] on one that is not. *)
Definition capture_names (r : SignalCapturesRecord) : list string :=
  match scr_captures r with
  | JArray l => omap (λ c, match json_get "name" c with Some (JString n) => Some n | _ => None end) l
  | _ => []
  end.

(** [INSERT ... ON CONFLICT (signal_id) DO NOTHING] *)
Definition insert_signal_captures (now : Z) (input : SignalCapturesInput) (s : SignalStore)
    : result (bool * SignalStore) SignalError :=
  let? _ := validate_captures (sci_captures input) in
  match captures_rows s !! sci_signal_id input with
  | Some _ => Ok (false, s)
  | None =>
      let r := mkSignalCapturesRecord (sci_signal_id input) (sci_workflow_id input)
                 (sci_workflow_version input) (sci_captures input) now None None in
      Ok (true, mkSignalStore (<[sci_signal_id input := r]> (captures_rows s)) (cancel_rows s) (wakeup_rows s))
  end.

Definition decode_captures (r : SignalCapturesRecord) : result SignalCapturesRecord SignalError :=
  let? _ := validate_captures (scr_captures r) in Ok r.

Definition signal_captures (signal_id : Uuid) (s : SignalStore)
    : result (option SignalCapturesRecord) SignalError :=
  match captures_rows s !! signal_id with
  | None => Ok None
  | Some r => let? r := decode_captures r in Ok (Some r)
  end.

Definition set_run (run : Uuid) (r : SignalCapturesRecord) : SignalCapturesRecord :=
  mkSignalCapturesRecord (scr_signal_id r) (scr_workflow_id r) (scr_workflow_version r) (scr_captures r)
    (scr_created_at r) (Some run) (scr_terminal_at r).

(** [UPDATE ... WHERE signal_id = $1 AND materialized_run_id IS NULL], and what is
    there when it changed nothing. *)
Definition link_signal_captures (signal_id workflow_instance_id : Uuid) (s : SignalStore)
    : SignalLinkageOutcome * SignalStore :=
  match update_row (captures_rows s) signal_id
          (λ r, bool_decide (scr_materialized_run_id r = None)) (set_run workflow_instance_id) with
  | Some t => (Linked, mkSignalStore t (cancel_rows s) (wakeup_rows s))
  | None =>
      match captures_rows s !! signal_id ≫= scr_materialized_run_id with
      | Some run => (AlreadyLinked run, s)
      | None => (LinkAbsent, s)
      end
  end.

Definition set_terminal (now : Z) (r : SignalCapturesRecord) : SignalCapturesRecord :=
  mkSignalCapturesRecord (scr_signal_id r) (scr_workflow_id r) (scr_workflow_version r) (scr_captures r)
    (scr_created_at r) (scr_materialized_run_id r) (Some now).

Definition by_signal_id (a b : Uuid * SignalCapturesRecord) : bool := uuid_leb a.1 b.1.

Definition unsettled_on (run : Uuid) (r : SignalCapturesRecord) : bool :=
  bool_decide (scr_materialized_run_id r = Some run) && bool_decide (scr_terminal_at r = None).

(** The rows are decoded after the update is done. *)
Definition mark_signal_captures_terminal (now : Z) (run : Uuid) (s : SignalStore)
    : result (list SignalCapturesRecord) SignalError * SignalStore :=
  let settled := select_rows by_signal_id (λ kr, unsettled_on run kr.2) (captures_rows s) in
  let t := (λ r, if unsettled_on run r then set_terminal now r else r) <$> captures_rows s in
  (collect (λ kr, decode_captures (set_terminal now kr.2)) settled,
   mkSignalStore t (cancel_rows s) (wakeup_rows s)).

Definition settled_before (cutoff : Z) (r : SignalCapturesRecord) : bool :=
  match scr_terminal_at r with Some t => (t <? cutoff)%Z | None => false end.

Definition expired_signal_captures (cutoff : Z) (s : SignalStore)
    : result (list SignalCapturesRecord) SignalError :=
  collect (λ kr, decode_captures kr.2)
    (select_rows by_signal_id (λ kr, settled_before cutoff kr.2) (captures_rows s)).

Definition delete_expired_signal_captures (signal_id : Uuid) (cutoff : Z) (s : SignalStore)
    : bool * SignalStore :=
  match captures_rows s !! signal_id with
  | Some r =>
      if settled_before cutoff r
      then (true, mkSignalStore (delete signal_id (captures_rows s)) (cancel_rows s) (wakeup_rows s))
      else (false, s)
  | None => (false, s)
  end.

(** ** Cancels *)

Definition insert_signal_cancel (now : Z) (input : SignalCancelInput) (s : SignalStore)
    : bool * SignalStore :=
  match cancel_rows s !! sxi_signal_id input with
  | Some _ => (false, s)
  | None =>
      let r := mkSignalCancelRecord (sxi_signal_id input) (sxi_applied_count input) (sxi_target input)
                 (sxi_note input) now in
      (true, mkSignalStore (captures_rows s) (<[sxi_signal_id input := r]> (cancel_rows s)) (wakeup_rows s))
  end.

Definition signal_cancel (signal_id : Uuid) (s : SignalStore) : option SignalCancelRecord :=
  cancel_rows s !! signal_id.

Definition set_applied (applied_count : Z) (r : SignalCancelRecord) : SignalCancelRecord :=
  mkSignalCancelRecord (sxr_signal_id r) applied_count (sxr_target r) (sxr_note r) (sxr_created_at r).

Definition materialize_signal_cancel (signal_id : Uuid) (applied_count : Z) (s : SignalStore)
    : bool * SignalStore :=
  match update_row (cancel_rows s) signal_id
          (λ r, bool_decide (sxr_applied_count r = PENDING_SIGNAL_CANCEL_APPLIED_COUNT))
          (set_applied applied_count) with
  | Some t => (true, mkSignalStore (captures_rows s) t (wakeup_rows s))
  | None => (false, s)
  end.

(** *** [signal_cancels.rs] *)

Definition stage_pending (now : Z) (row : SignalCancelInput) (s : SignalStore)
    : result (unit * SignalStore) SignalError :=
  let? _ := ensure (bool_decide (sxi_applied_count row = PENDING_SIGNAL_CANCEL_APPLIED_COUNT)) InvalidPendingCount in
  let '(inserted, s) := insert_signal_cancel now row s in
  let? _ := ensure inserted IdentityExists in Ok (tt, s).

Definition i32_max : Z := 2 ^ 31 - 1.

(** [matched_count] is a [u32]. *)
Definition materialize (signal_id : Uuid) (matched_count : Z) (s : SignalStore)
    : result (bool * SignalStore) SignalError :=
  let? _ := ensure (matched_count <=? i32_max)%Z CountOutOfRange in
  Ok (materialize_signal_cancel signal_id matched_count s).

Definition materialized_count (signal_id : Uuid) (s : SignalStore) : result (option Z) SignalError :=
  match signal_cancel signal_id s with
  | None => Ok None
  | Some record =>
      if bool_decide (sxr_applied_count record = PENDING_SIGNAL_CANCEL_APPLIED_COUNT) then Ok None
      else let? _ := ensure (0 <=? sxr_applied_count record)%Z CountOutOfRange in
           Ok (Some (sxr_applied_count record))
  end.

(** ** Wakeups *)

Definition insert_signal_wakeup (now : Z) (input : SignalWakeupInput) (s : SignalStore)
    : bool * SignalStore :=
  match wakeup_rows s !! swi_signal_id input with
  | Some _ => (false, s)
  | None =>
      let r := mkSignalWakeupRecord (swi_signal_id input) (swi_name input) (swi_matched_workflows input) now in
      (true, mkSignalStore (captures_rows s) (cancel_rows s) (<[swi_signal_id input := r]> (wakeup_rows s)))
  end.

(** ** The read projection *)

Definition signal_audit (signal_id : Uuid) (s : SignalStore)
    : result (option SignalAuditRecord) SignalError :=
  match wakeup_rows s !! signal_id with
  | Some r => Ok (Some (Audit_Wakeup r))
  | None =>
      let? c := signal_captures signal_id s in
      match c with
      | Some r => Ok (Some (Audit_Captures r))
      | None => Ok (Audit_Cancel <$> cancel_rows s !! signal_id)
      end
  end.

(** ** What every operation keeps *)

Record captures_ok (id : Uuid) (r : SignalCapturesRecord) : Prop := {
  co_id : scr_signal_id r = id;
  co_valid : validate_captures (scr_captures r) = Ok tt;
  co_terminal : is_Some (scr_terminal_at r) → is_Some (scr_materialized_run_id r)
}.

Record signals_ok (s : SignalStore) : Prop := {
  so_captures id r : captures_rows s !! id = Some r → captures_ok id r;
  so_cancels id r : cancel_rows s !! id = Some r →
    sxr_signal_id r = id ∧ (sxr_applied_count r = PENDING_SIGNAL_CANCEL_APPLIED_COUNT ∨ (0 <= sxr_applied_count r)%Z);
  so_wakeups id r : wakeup_rows s !! id = Some r → swr_signal_id r = id
}.

(** What was archived stays; the run and the end are recorded once. *)
Record captures_evolve (r r' : SignalCapturesRecord) : Prop := {
  ce_signal : scr_signal_id r' = scr_signal_id r;
  ce_workflow : scr_workflow_id r' = scr_workflow_id r;
  ce_version : scr_workflow_version r' = scr_workflow_version r;
  ce_captures : scr_captures r' = scr_captures r;
  ce_created : scr_created_at r' = scr_created_at r;
  ce_run u : scr_materialized_run_id r = Some u → scr_materialized_run_id r' = Some u;
  ce_terminal t : scr_terminal_at r = Some t → scr_terminal_at r' = Some t
}.

Record cancel_evolves (r r' : SignalCancelRecord) : Prop := {
  xe_signal : sxr_signal_id r' = sxr_signal_id r;
  xe_target : sxr_target r' = sxr_target r;
  xe_note : sxr_note r' = sxr_note r;
  xe_created : sxr_created_at r' = sxr_created_at r;
  xe_count : sxr_applied_count r ≠ PENDING_SIGNAL_CANCEL_APPLIED_COUNT →
    sxr_applied_count r' = sxr_applied_count r
}.

(** An archive goes only when its run is over. *)
Record signals_keep (s s' : SignalStore) : Prop := {
  sk_captures id r : captures_rows s !! id = Some r →
    is_Some (scr_terminal_at r) ∧ captures_rows s' !! id = None ∨
    ∃ r', captures_rows s' !! id = Some r' ∧ captures_evolve r r';
  sk_cancels id r : cancel_rows s !! id = Some r →
    ∃ r', cancel_rows s' !! id = Some r' ∧ cancel_evolves r r';
  sk_wakeups id r : wakeup_rows s !! id = Some r → wakeup_rows s' !! id = Some r
}.

Inductive signal_step : SignalStore → SignalStore → Prop :=
| step_insert_captures now input b s s' :
    insert_signal_captures now input s = Ok (b, s') → signal_step s s'
| step_link id run s : signal_step s (link_signal_captures id run s).2
| step_terminal now run s : signal_step s (mark_signal_captures_terminal now run s).2
| step_sweep id cutoff s : signal_step s (delete_expired_signal_captures id cutoff s).2
| step_insert_cancel now input s :
    (0 <= sxi_applied_count input)%Z → signal_step s (insert_signal_cancel now input s).2
| step_stage now row u s s' : stage_pending now row s = Ok (u, s') → signal_step s s'
| step_materialize id count b s s' :
    (0 <= count)%Z → materialize id count s = Ok (b, s') → signal_step s s'
| step_insert_wakeup now input s : signal_step s (insert_signal_wakeup now input s).2.

Lemma captures_evolve_refl r : captures_evolve r r.
Proof. by split. Qed.
Lemma cancel_evolves_refl r : cancel_evolves r r.
Proof. by split. Qed.
Hint Resolve captures_evolve_refl cancel_evolves_refl : core.

Lemma signals_keep_refl s : signals_keep s s.
Proof. split; eauto. Qed.

(** A step that changes the captures only. *)
Lemma captures_step s t :
  signals_ok s →
  (∀ id r', t !! id = Some r' → captures_ok id r') →
  (∀ id r, captures_rows s !! id = Some r →
     is_Some (scr_terminal_at r) ∧ t !! id = None ∨ ∃ r', t !! id = Some r' ∧ captures_evolve r r') →
  let s' := mkSignalStore t (cancel_rows s) (wakeup_rows s) in signals_ok s' ∧ signals_keep s s'.
Proof. intros [H1 H2 H3] Ht Hk. split; split; simpl; eauto. Qed.

Lemma cancels_step s t :
  signals_ok s →
  (∀ id r, t !! id = Some r → sxr_signal_id r = id ∧
     (sxr_applied_count r = PENDING_SIGNAL_CANCEL_APPLIED_COUNT ∨ (0 <= sxr_applied_count r)%Z)) →
  (∀ id r, cancel_rows s !! id = Some r → ∃ r', t !! id = Some r' ∧ cancel_evolves r r') →
  let s' := mkSignalStore (captures_rows s) t (wakeup_rows s) in signals_ok s' ∧ signals_keep s s'.
Proof. intros [H1 H2 H3] Ht Hk. split; split; simpl; eauto. Qed.

Lemma insert_captures_ok now input b s s' :
  signals_ok s → insert_signal_captures now input s = Ok (b, s') → signals_ok s' ∧ signals_keep s s'.
Proof.
  intros Hs. unfold insert_signal_captures. destruct (validate_captures _) as [[]|e] eqn:Hv; [|done]. simpl.
  destruct (captures_rows s !! _) as [r|] eqn:Hr; intros [= <- <-]; [by split; [|apply signals_keep_refl]|].
  apply captures_step; [done|..].
  - intros id r' [[<- <-]|[Hne Hr']]%lookup_insert_Some; [by split; [| |intros [? ?]]|by apply Hs].
  - intros id r' Hr'. right. exists r'. split; [|done]. rewrite lookup_insert_ne; [done|]. congruence.
Qed.

Lemma signal_link_ok id run s :
  signals_ok s → let s' := (link_signal_captures id run s).2 in signals_ok s' ∧ signals_keep s s'.
Proof.
  intros Hs. unfold link_signal_captures. destruct (update_row _ _ _ _) as [t|] eqn:Hu; simpl.
  - apply update_row_Some in Hu as (r & Hr & Hg & ->). apply bool_decide_eq_true in Hg.
    destruct (so_captures _ Hs _ _ Hr) as [Hid Hv Ht]. apply captures_step; [done|..].
    + intros id' r' [[<- <-]|[Hne Hr']]%lookup_insert_Some; [by split; simpl; eauto|by apply Hs].
    + intros id' r' Hr'. right. destruct (decide (id = id')) as [<-|Hne]; [|rewrite lookup_insert_ne; eauto].
      rewrite lookup_insert_eq. simplify_eq. eexists; split; [done|]. split; simpl; congruence.
  - destruct (captures_rows s !! id ≫= _); split; auto using signals_keep_refl.
Qed.

Lemma terminal_ok now run s :
  signals_ok s →
  let s' := (mark_signal_captures_terminal now run s).2 in signals_ok s' ∧ signals_keep s s'.
Proof.
  intros Hs. apply captures_step; [done|..].
  - intros id r' Hr'. rewrite lookup_fmap in Hr'. destruct (captures_rows s !! id) as [r|] eqn:Hr; simplify_eq/=.
    destruct (so_captures _ Hs _ _ Hr) as [Hid Hv Ht]. unfold unsettled_on. case_match eqn:Hu; [|done].
    apply andb_true_iff in Hu as [Hu%bool_decide_eq_true _]. split; simpl; [done..|]. by rewrite Hu.
  - intros id r Hr. right. rewrite lookup_fmap, Hr. eexists; split; [done|].
    unfold unsettled_on. case_match eqn:Hu; [|done].
    apply andb_true_iff in Hu as [_ Hu%bool_decide_eq_true]. split; simpl; congruence.
Qed.

Lemma sweep_ok id cutoff s :
  signals_ok s →
  let s' := (delete_expired_signal_captures id cutoff s).2 in signals_ok s' ∧ signals_keep s s'.
Proof.
  intros Hs. unfold delete_expired_signal_captures.
  destruct (captures_rows s !! id) as [r|] eqn:Hr; [|by split; [|apply signals_keep_refl]].
  destruct (settled_before cutoff r) eqn:Hc; [|by split; [|apply signals_keep_refl]].
  apply captures_step; [done|..].
  - intros id' r' [_ Hr']%lookup_delete_Some. by apply Hs.
  - intros id' r' Hr'. destruct (decide (id = id')) as [<-|Hne]; [|rewrite lookup_delete_ne; eauto].
    left. rewrite lookup_delete_eq. simplify_eq. split; [|done]. unfold settled_before in Hc. by case_match.
Qed.

Lemma insert_cancel_ok now input s :
  sxi_applied_count input = PENDING_SIGNAL_CANCEL_APPLIED_COUNT ∨ (0 <= sxi_applied_count input)%Z →
  signals_ok s →
  let s' := (insert_signal_cancel now input s).2 in signals_ok s' ∧ signals_keep s s'.
Proof.
  intros Hc Hs. unfold insert_signal_cancel.
  destruct (cancel_rows s !! _) as [r|] eqn:Hr; [by split; [|apply signals_keep_refl]|].
  apply cancels_step; [done|..].
  - intros id r' [[<- <-]|[Hne Hr']]%lookup_insert_Some; [done|by apply Hs].
  - intros id r' Hr'. exists r'. split; [|done]. rewrite lookup_insert_ne; [done|]. congruence.
Qed.

Lemma materialize_ok id count b s s' :
  (0 <= count)%Z → signals_ok s → materialize id count s = Ok (b, s') → signals_ok s' ∧ signals_keep s s'.
Proof.
  intros Hc Hs. unfold materialize. destruct (ensure _ _); [|done]. simpl. intros [= Hm].
  unfold materialize_signal_cancel in Hm. destruct (update_row _ _ _ _) as [t|] eqn:Hu; simplify_eq;
    [|by split; [|apply signals_keep_refl]].
  apply update_row_Some in Hu as (r & Hr & Hg%bool_decide_eq_true & ->). apply cancels_step; [done|..].
  - intros id' r' [[<- <-]|[Hne Hr']]%lookup_insert_Some; [|by apply Hs]. simpl.
    split; [|by right]. by apply Hs in Hr as [? _].
  - intros id' r' Hr'. destruct (decide (id = id')) as [<-|Hne]; [|rewrite lookup_insert_ne; eauto].
    rewrite lookup_insert_eq. simplify_eq. eexists; split; [done|]. by split.
Qed.

(** Over any operation the archive of a signal stays as it was first written, is
    linked to at most one run and settled once, and goes only when settled; a
    cancel keeps its target and, once counted, its count; a wakeup is immutable. *)
Theorem signal_rows_evolve s s' :
  signals_ok s → signal_step s s' → signals_ok s' ∧ signals_keep s s'.
Proof.
  intros Hs Hstep. destruct Hstep as [??????|???|???|???|????|????? Hp|?????? Hm|???].
  - by eapply insert_captures_ok.
  - by apply signal_link_ok.
  - by apply terminal_ok.
  - by apply sweep_ok.
  - apply insert_cancel_ok; auto.
  - unfold stage_pending in Hp. case_bool_decide as Hc; [|done]. simpl in Hp.
    pose proof (insert_cancel_ok now row s (or_introl Hc) Hs) as Hi.
    destruct (insert_signal_cancel now row s) as [[] s2]; [|done]. simpl in *. by simplify_eq.
  - by eapply materialize_ok.
  - destruct Hs as [H1 H2 H3]. unfold insert_signal_wakeup.
    destruct (wakeup_rows s !! _) as [r|] eqn:Hr; [split; [by split|apply signals_keep_refl]|].
    split; split; simpl; eauto.
    + intros id r' [[<- <-]|[Hne Hr']]%lookup_insert_Some; [done|]. eauto.
    + intros id r' Hr'. rewrite lookup_insert_ne; [done|]. congruence.
Qed.

(** Nothing stored is ever unreadable: what was written has been checked. *)
Lemma decode_stored id r s : signals_ok s → captures_rows s !! id = Some r → decode_captures r = Ok r.
Proof. intros Hs Hr. destruct (so_captures _ Hs _ _ Hr) as [_ Hv _]. unfold decode_captures. by rewrite Hv. Qed.

Lemma signal_captures_readable id s :
  signals_ok s → signal_captures id s = Ok (captures_rows s !! id).
Proof.
  intros Hs. unfold signal_captures. destruct (captures_rows s !! id) as [r|] eqn:Hr; [|done].
  by rewrite (decode_stored _ _ _ Hs Hr).
Qed.
End signal_store.
Arguments SignalStore Uuid {_ _}.
Arguments SignalCapturesRecord : clear implicits.
Arguments SignalCancelRecord : clear implicits.
Arguments SignalWakeupRecord : clear implicits.
Arguments SignalCapturesInput : clear implicits.
Arguments SignalCancelInput : clear implicits.
Arguments SignalWakeupInput : clear implicits.
Arguments SignalAuditRecord : clear implicits.
Arguments SignalLinkageOutcome : clear implicits.
