(* ===== verification/ScopeStore.v ===== *)
(** * The scope store

    The tables [tickr_ctx_scopes], [tickr_ctx_scope_values] and
    [tickr_ctx_scope_claims] as [migrations/src/scope_repository.rs] reads and
    writes them: the working values of a run, the claims that make a mutation
    idempotent, and the snapshot that archives a scope.  A transaction is one atomic
    step; the SQLite writer is exclusive.  The clock, in microseconds as the
    columns keep it, and the random identities of values are arguments; JSON text
    and the bytes of a uuid are parameters. *)

From S2P Require Import Prelude Json Uuid Sha256.

Definition TICKR_CTX_SCOPE_PROTOCOL_VERSION : Z := 1.
Definition MAX_SCOPE_VALUE_BYTES : Z := 1024 * 1024.
Definition MAX_SCOPE_REQUEST_VALUES : Z := 128.
Definition MAX_SCOPE_REQUEST_BYTES : Z := 4 * 1024 * 1024.
Definition MAX_SCOPE_ROWS : Z := 4096.
Definition MAX_SCOPE_BYTES : Z := 64 * 1024 * 1024.
Definition MAX_SCOPE_AGE_SECONDS : Z := 30 * 24 * 60 * 60.
Definition MAX_NAMESPACE_BYTES : Z := 128.
Definition MAX_RUN_ID_BYTES : Z := 256.
Definition MAX_KEY_BYTES : Z := 512.

(** [b"TICKR_CTX_SCOPE\0\x01"] *)
Definition SNAPSHOT_MAGIC : list Z := bytes_of "TICKR_CTX_SCOPE" ++ [0; 1]%Z.

Abbreviation bytes := (list Z).
Definition len (b : bytes) : Z := Z.of_nat (length b).
Definition str_len (s : string) : Z := Z.of_nat (String.length s).

(** ** Vocabulary *)

Record ScopeValueInput := mkScopeValueInput { svi_key : string; svi_envelope : bytes }.

Inductive ScopeBoundViolation :=
| Bound_ValueBytes (key : string) (actual limit : Z)
| Bound_RequestValues (actual limit : Z)
| Bound_RequestBytes (actual limit : Z)
| Bound_ScopeRows (actual limit : Z)
| Bound_ScopeBytes (actual limit : Z)
| Bound_ScopeAgeSeconds (actual limit : Z).

Inductive ScopeEnvelopeRejection :=
| Envelope_Malformed
| Envelope_MissingVersion
| Envelope_UnknownVersion (v : Z).

Inductive ScopeMutationRejection :=
| EmptyRequest
| Mutation_Bound (b : ScopeBoundViolation)
| Mutation_Envelope (key : string) (reason : ScopeEnvelopeRejection).

Inductive TickrCtxScopeState := Scope_Active | Scope_Snapshotted | Scope_Cleaned | Scope_Quarantined.

#[global] Instance scope_state_eq_dec : EqDecision TickrCtxScopeState.
Proof. solve_decision. Defined.

(** Configuration errors, and the constraint of a table that refuses an insert. *)
Inductive ScopeRepositoryError :=
| InvalidNamespace
| InvalidRunId
| InvalidKey
| DuplicateKey (key : string)
| CorruptScope
| ConstraintViolated.

(** ** Bounds *)

Section bounds.
Context (parse_json : bytes → option Json).

Definition validate_envelope (envelope : bytes) : result unit ScopeEnvelopeRejection :=
  let? value := ok_or (parse_json envelope) Envelope_Malformed in
  let? version := ok_or (json_get "v" value ≫= as_u64) Envelope_MissingVersion in
  if (version =? 1)%Z || (version =? 2)%Z then Ok tt else Err (Envelope_UnknownVersion version).

Definition sum_by {A} (f : A → Z) (l : list A) : Z := foldr (λ x n, (f x + n)%Z) 0%Z l.

(** The loop over the values: the first one too large or not an envelope. *)
Fixpoint check_values (values : list ScopeValueInput) : option ScopeMutationRejection :=
  match values with
  | [] => None
  | value :: rest =>
      if (MAX_SCOPE_VALUE_BYTES <? len (svi_envelope value))%Z
      then Some (Mutation_Bound (Bound_ValueBytes (svi_key value) (len (svi_envelope value)) MAX_SCOPE_VALUE_BYTES))
      else match validate_envelope (svi_envelope value) with
           | Err reason => Some (Mutation_Envelope (svi_key value) reason)
           | Ok _ => check_values rest
           end
  end.

Definition validate_mutation (values : list ScopeValueInput) (existing_rows existing_bytes : Z)
    : option ScopeMutationRejection :=
  match values with
  | [] => Some EmptyRequest
  | _ =>
      let count := Z.of_nat (length values) in
      let request_bytes := sum_by (λ v, str_len (svi_key v) + len (svi_envelope v))%Z values in
      let resulting_bytes := (existing_bytes + sum_by (λ v, len (svi_envelope v)) values)%Z in
      if (MAX_SCOPE_REQUEST_VALUES <? count)%Z
      then Some (Mutation_Bound (Bound_RequestValues count MAX_SCOPE_REQUEST_VALUES))
      else if (MAX_SCOPE_REQUEST_BYTES <? request_bytes)%Z
      then Some (Mutation_Bound (Bound_RequestBytes request_bytes MAX_SCOPE_REQUEST_BYTES))
      else match check_values values with
      | Some r => Some r
      | None =>
          if (MAX_SCOPE_ROWS <? existing_rows + count)%Z
          then Some (Mutation_Bound (Bound_ScopeRows (existing_rows + count) MAX_SCOPE_ROWS))
          else if (MAX_SCOPE_BYTES <? resulting_bytes)%Z
          then Some (Mutation_Bound (Bound_ScopeBytes resulting_bytes MAX_SCOPE_BYTES))
          else None
      end
  end.
End bounds.

(** [existing] is the length of every stored envelope, by key; [saturating_sub]
    stops at zero. *)
Definition resulting_scope_bound (existing : gmap string Z) (values : list ScopeValueInput)
    : option ScopeBoundViolation :=
  let inserted := Z.of_nat (length (filter (λ v, existing !! svi_key v = None) values)) in
  let resulting_rows := (Z.of_nat (size existing) + inserted)%Z in
  if (MAX_SCOPE_ROWS <? resulting_rows)%Z then Some (Bound_ScopeRows resulting_rows MAX_SCOPE_ROWS)
  else
    let replaced_bytes := sum_by id (omap (λ v, existing !! svi_key v) values) in
    let new_bytes := sum_by (λ v, len (svi_envelope v)) values in
    let resulting_bytes := (Z.max 0 (sum_by snd (map_to_list existing) - replaced_bytes) + new_bytes)%Z in
    if (MAX_SCOPE_BYTES <? resulting_bytes)%Z
    then Some (Bound_ScopeBytes resulting_bytes MAX_SCOPE_BYTES) else None.

Definition age_bound (created_at now : Z) : option ScopeBoundViolation :=
  let age := Z.max (Z.quot (now - created_at) 1000000) 0 in
  if (MAX_SCOPE_AGE_SECONDS <? age)%Z then Some (Bound_ScopeAgeSeconds age MAX_SCOPE_AGE_SECONDS) else None.

Definition validate_scope_identity (namespace run_id : string) : result unit ScopeRepositoryError :=
  let? _ := ensure (negb (bool_decide (namespace = "")) && (str_len namespace <=? MAX_NAMESPACE_BYTES)%Z) InvalidNamespace in
  ensure (negb (bool_decide (run_id = "")) && (str_len run_id <=? MAX_RUN_ID_BYTES)%Z) InvalidRunId.

(** ** Digests *)

(** [append_len_prefixed]; a length of [2^32] or more panics. *)
Definition len_prefixed (value : bytes) : bytes := to_be_bytes 4 (len value) ++ value.

Definition valid_key (key : string) : bool :=
  negb (bool_decide (key = "")) && (str_len key <=? MAX_KEY_BYTES)%Z.

Fixpoint check_keys (seen : gset string) (values : list ScopeValueInput) : result unit ScopeRepositoryError :=
  match values with
  | [] => Ok tt
  | value :: rest =>
      let? _ := ensure (valid_key (svi_key value)) InvalidKey in
      let? _ := ensure (negb (bool_decide (svi_key value ∈ seen))) (DuplicateKey (svi_key value)) in
      check_keys ({[svi_key value]} ∪ seen) rest
  end.

Definition by_key (a b : ScopeValueInput) : bool := string_leb (svi_key a) (svi_key b).

Section digests.
Context {Uuid : Type} (uuid_bytes : Uuid → bytes).

Definition mutation_bytes (scope_id : Uuid) (values : list ScopeValueInput) : bytes :=
  uuid_bytes scope_id ++
  mjoin ((λ v, len_prefixed (bytes_of (svi_key v)) ++ len_prefixed (svi_envelope v)) <$> sort_by by_key values).

Definition mutation_digest (scope_id : Uuid) (values : list ScopeValueInput)
    : result string ScopeRepositoryError :=
  let? _ := check_keys ∅ values in Ok (sha256_hex (mutation_bytes scope_id values)).

Definition delete_bytes (scope_id : Uuid) (key : string) : bytes :=
  uuid_bytes scope_id ++ len_prefixed (bytes_of "delete") ++ len_prefixed (bytes_of key).

Definition delete_digest (scope_id : Uuid) (key : string) : result string ScopeRepositoryError :=
  let? _ := ensure (valid_key key) InvalidKey in Ok (sha256_hex (delete_bytes scope_id key)).
End digests.

(** ** Snapshots *)

Section store.
Context `{UuidOps Uuid} `{!Countable Uuid}.
Context (uuid_bytes : Uuid → bytes) (parse_json : bytes → option Json) (from_utf8 : bytes → option string).

Record StoredScopeValue := mkStoredScopeValue {
  ssv_key : string;
  ssv_value_identity : Uuid;
  ssv_envelope : bytes;
  ssv_created_at : Z;
  ssv_updated_at : Z
}.

Record TickrCtxScopeSnapshot := mkSnapshot {
  snap_scope_id : Uuid;
  snap_bytes : bytes;
  snap_digest : string;
  snap_row_count : Z;
  snap_value_bytes : Z
}.

Definition encode_value (key : string) (envelope : bytes) : bytes :=
  len_prefixed (bytes_of key) ++ len_prefixed envelope.

Definition encode_snapshot (values : list StoredScopeValue) : bytes :=
  SNAPSHOT_MAGIC ++ to_be_bytes 4 (Z.of_nat (length values)) ++
  mjoin ((λ v, encode_value (ssv_key v) (ssv_envelope v)) <$> values).

(** The cursor into the bytes is what is left of them. *)
Definition read_snapshot_length (rest : bytes) : result (Z * bytes) ScopeRepositoryError :=
  if bool_decide (4 ≤ length rest) then Ok (from_be_bytes (take 4 rest), drop 4 rest) else Err CorruptScope.

Definition read_snapshot_bytes (rest : bytes) : result (bytes * bytes) ScopeRepositoryError :=
  let? (length_, rest) := read_snapshot_length rest in
  if (length_ <=? len rest)%Z then Ok (take (Z.to_nat length_) rest, drop (Z.to_nat length_) rest)
  else Err CorruptScope.

Fixpoint read_values (count : nat) (rest : bytes) : result (list (string * bytes) * bytes) ScopeRepositoryError :=
  match count with
  | O => Ok ([], rest)
  | S count =>
      let? (key, rest) := read_snapshot_bytes rest in
      let? key := ok_or (from_utf8 key) CorruptScope in
      let? (envelope, rest) := read_snapshot_bytes rest in
      let? (values, rest) := read_values count rest in
      Ok ((key, envelope) :: values, rest)
  end.

Definition starts_with_magic (b : bytes) : bool := bool_decide (take (length SNAPSHOT_MAGIC) b = SNAPSHOT_MAGIC).

Definition decode_tickr_ctx_scope_snapshot (snapshot : TickrCtxScopeSnapshot)
    : result (list (string * bytes)) ScopeRepositoryError :=
  let? _ := ensure (starts_with_magic (snap_bytes snapshot) &&
                    bool_decide (sha256_hex (snap_bytes snapshot) = snap_digest snapshot)) CorruptScope in
  let? (count, rest) := read_snapshot_length (drop (length SNAPSHOT_MAGIC) (snap_bytes snapshot)) in
  let? _ := ensure (count =? snap_row_count snapshot)%Z CorruptScope in
  let? (values, rest) := read_values (Z.to_nat count) rest in
  let? _ := ensure (bool_decide (rest = []) &&
                    (sum_by (λ kv, len kv.2) values =? snap_value_bytes snapshot)%Z) CorruptScope in
  Ok values.

(** ** Tables *)

Record ScopeRow := mkScopeRow {
  sp_namespace : string;
  sp_run_id : string;
  sp_protocol_version : Z;
  sp_creation_claim_id : Uuid;
  sp_creation_request_digest : string;
  sp_state : TickrCtxScopeState;
  sp_created_at : Z;
  sp_updated_at : Z;
  sp_snapshot : option bytes;
  sp_snapshot_digest : option string;
  sp_snapshot_row_count : option Z;
  sp_snapshot_value_bytes : option Z;
  sp_snapshotted_at : option Z;
  sp_cleaned_at : option Z;
  sp_quarantine_reason : option string
}.

Record ScopeValueRow := mkScopeValueRow {
  sv_value_identity : Uuid;
  sv_envelope : bytes;
  sv_created_at : Z;
  sv_updated_at : Z
}.

Record ScopeClaim := mkScopeClaim {
  cl_scope_id : Uuid;
  cl_request_digest : string;
  cl_committed_at : Z
}.

Record ScopeTables := mkScopeTables {
  scopes : gmap Uuid ScopeRow;
  scope_values : gmap (Uuid * string) ScopeValueRow;
  scope_claims : gmap Uuid ScopeClaim
}.

Definition set_scopes (s : ScopeTables) t := mkScopeTables t (scope_values s) (scope_claims s).

Definition load_scope (scope_id : Uuid) (s : ScopeTables) : result (option ScopeRow) ScopeRepositoryError :=
  match scopes s !! scope_id with
  | None => Ok None
  | Some row =>
      let? _ := ensure (sp_protocol_version row =? TICKR_CTX_SCOPE_PROTOCOL_VERSION)%Z CorruptScope in
      Ok (Some row)
  end.

Definition stored (key : string) (r : ScopeValueRow) : StoredScopeValue :=
  mkStoredScopeValue key (sv_value_identity r) (sv_envelope r) (sv_created_at r) (sv_updated_at r).

(** [SELECT ... WHERE scope_id = ?1 ORDER BY key] *)
Definition load_scope_values (scope_id : Uuid) (s : ScopeTables) : list StoredScopeValue :=
  (λ kr, stored kr.1.2 kr.2) <$>
  select_rows (λ a b, string_leb a.1.2 b.1.2) (λ kr, bool_decide (kr.1.1 = scope_id)) (scope_values s).

(** [INSERT ... ON CONFLICT(scope_id, key) DO UPDATE]: a value that is there keeps
    its identity and its creation time. *)
Definition insert_scope_value (scope_id : Uuid) (now : Z) (t : gmap (Uuid * string) ScopeValueRow)
    (value : Uuid * ScopeValueInput) : gmap (Uuid * string) ScopeValueRow :=
  let k := (scope_id, svi_key value.2) in
  <[k := match t !! k with
         | Some r => mkScopeValueRow (sv_value_identity r) (svi_envelope value.2) (sv_created_at r) now
         | None => mkScopeValueRow value.1 (svi_envelope value.2) now now
         end]> t.

Definition insert_scope_values (scope_id : Uuid) (now : Z) (identities : list Uuid)
    (values : list ScopeValueInput) (s : ScopeTables) : ScopeTables :=
  mkScopeTables (scopes s)
    (foldl (insert_scope_value scope_id now) (scope_values s) (zip identities values)) (scope_claims s).

Definition insert_claim (claim_id scope_id : Uuid) (digest : string) (now : Z) (s : ScopeTables)
    : result ScopeTables ScopeRepositoryError :=
  match scope_claims s !! claim_id with
  | Some _ => Err ConstraintViolated
  | None => Ok (mkScopeTables (scopes s) (scope_values s)
                  (<[claim_id := mkScopeClaim scope_id digest now]> (scope_claims s)))
  end.

Definition touch (now : Z) (r : ScopeRow) : ScopeRow :=
  mkScopeRow (sp_namespace r) (sp_run_id r) (sp_protocol_version r) (sp_creation_claim_id r)
    (sp_creation_request_digest r) (sp_state r) (sp_created_at r) now (sp_snapshot r)
    (sp_snapshot_digest r) (sp_snapshot_row_count r) (sp_snapshot_value_bytes r) (sp_snapshotted_at r)
    (sp_cleaned_at r) (sp_quarantine_reason r).

Definition update_scope (scope_id : Uuid) (f : ScopeRow → ScopeRow) (s : ScopeTables) : ScopeTables :=
  set_scopes s (alter f scope_id (scopes s)).

Definition quarantine (diagnostic : string) (now : Z) (r : ScopeRow) : ScopeRow :=
  mkScopeRow (sp_namespace r) (sp_run_id r) (sp_protocol_version r) (sp_creation_claim_id r)
    (sp_creation_request_digest r) Scope_Quarantined (sp_created_at r) now (sp_snapshot r)
    (sp_snapshot_digest r) (sp_snapshot_row_count r) (sp_snapshot_value_bytes r) (sp_snapshotted_at r)
    (sp_cleaned_at r) (Some diagnostic).

Definition quarantine_scope (scope_id : Uuid) (diagnostic : string) (now : Z) (s : ScopeTables) : ScopeTables :=
  update_scope scope_id (quarantine diagnostic now) s.

(** [{reason:?}], which is opaque here. *)
Context (debug : ScopeEnvelopeRejection → string).

Definition first_invalid_stored_envelope (values : list StoredScopeValue) : option string :=
  head (omap (λ v,
    match validate_envelope parse_json (ssv_envelope v) with
    | Err reason => Some ("value " +:+ uuid_to_string (ssv_value_identity v) +:+ " at key `" +:+ ssv_key v +:+
                          "` has " +:+ debug reason)
    | Ok _ => None
    end) values).

Fixpoint first_oversized (values : list StoredScopeValue) : option ScopeBoundViolation :=
  match values with
  | [] => None
  | v :: rest =>
      if (MAX_SCOPE_VALUE_BYTES <? len (ssv_envelope v))%Z
      then Some (Bound_ValueBytes (ssv_key v) (len (ssv_envelope v)) MAX_SCOPE_VALUE_BYTES)
      else first_oversized rest
  end.

Definition stored_bounds (values : list StoredScopeValue) : option ScopeBoundViolation :=
  let rows := Z.of_nat (length values) in
  if (MAX_SCOPE_ROWS <? rows)%Z then Some (Bound_ScopeRows rows MAX_SCOPE_ROWS)
  else match first_oversized values with
  | Some b => Some b
  | None =>
      let total := sum_by (λ v, len (ssv_envelope v)) values in
      if (MAX_SCOPE_BYTES <? total)%Z then Some (Bound_ScopeBytes total MAX_SCOPE_BYTES) else None
  end.

Definition try_usize (n : option Z) : option Z :=
  n ← n; if (0 <=? n)%Z then Some n else None.

(** The diagnostics of a snapshot that does not check. *)
Definition snapshot_from_record (scope_id : Uuid) (scope : ScopeRow) : result TickrCtxScopeSnapshot string :=
  let? bytes := ok_or (sp_snapshot scope) "snapshot state is missing snapshot bytes" in
  let? digest := ok_or (sp_snapshot_digest scope) "snapshot state is missing digest" in
  let? row_count := ok_or (try_usize (sp_snapshot_row_count scope)) "snapshot state has invalid row count" in
  let? value_bytes := ok_or (try_usize (sp_snapshot_value_bytes scope)) "snapshot state has invalid value-byte count" in
  let? _ := ensure (starts_with_magic bytes) "snapshot uses an unknown format version" in
  let? _ := ensure (bool_decide (sha256_hex bytes = digest)) "snapshot digest does not match committed bytes" in
  Ok (mkSnapshot scope_id bytes digest row_count value_bytes).

(** ** Operations *)

Inductive ScopeCreationOutcome :=
| Creation_Created
| Creation_Idempotent
| Creation_Collision (existing_scope_id : Uuid)
| Creation_ClaimConflict
| Creation_Rejected (r : ScopeMutationRejection).

Inductive ScopeWriteOutcome :=
| Write_Applied (inserted updated : nat)
| Write_Idempotent
| Write_Missing
| Write_ClaimConflict
| Write_NotWritable (state : TickrCtxScopeState)
| Write_Rejected (r : ScopeMutationRejection)
| Write_Quarantined (scope_id : Uuid) (diagnostic : string).

Inductive ScopeDeleteOutcome :=
| Delete_Deleted
| Delete_MissingKey
| Delete_Idempotent
| Delete_Missing
| Delete_ClaimConflict
| Delete_NotWritable (state : TickrCtxScopeState)
| Delete_Bound (b : ScopeBoundViolation)
| Delete_Quarantined (scope_id : Uuid) (diagnostic : string).

Inductive ScopeReadOutcome :=
| Read_Present (values : list StoredScopeValue)
| Read_Archived (snapshot : TickrCtxScopeSnapshot)
| Read_Missing
| Read_Bound (b : ScopeBoundViolation)
| Read_Quarantined (scope_id : Uuid) (diagnostic : string).

Inductive ScopeSnapshotOutcome :=
| Snapshot_Committed (snapshot : TickrCtxScopeSnapshot)
| Snapshot_Idempotent (snapshot : TickrCtxScopeSnapshot)
| Snapshot_Missing
| Snapshot_Bound (b : ScopeBoundViolation)
| Snapshot_Quarantined (scope_id : Uuid) (diagnostic : string).

Inductive ScopeCleanupOutcome :=
| Cleanup_Cleaned
| Cleanup_AlreadyCleaned
| Cleanup_Missing
| Cleanup_SnapshotRequired
| Cleanup_Quarantined (scope_id : Uuid) (diagnostic : string).

Record CreateTickrCtxScopeInput := mkCreateInput {
  ci_scope_id : Uuid;
  ci_namespace : string;
  ci_run_id : string;
  ci_claim_id : Uuid;
  ci_values : list ScopeValueInput;
  ci_now : Z
}.

Record WriteTickrCtxScopeInput := mkWriteInput {
  wi_scope_id : Uuid;
  wi_claim_id : Uuid;
  wi_values : list ScopeValueInput;
  wi_now : Z
}.

Record DeleteTickrCtxScopeInput := mkDeleteInput {
  di_scope_id : Uuid;
  di_claim_id : Uuid;
  di_key : string;
  di_now : Z
}.

(** [SELECT ... WHERE creation_claim_id = ?1] and [WHERE namespace = ?1 AND
    run_id = ?2]: at most one row each. *)
Definition find_scope (p : ScopeRow → bool) (s : ScopeTables) : option (Uuid * ScopeRow) :=
  head (List.filter (λ kr, p kr.2) (map_to_list (scopes s))).

Definition new_scope (input : CreateTickrCtxScopeInput) (digest : string) : ScopeRow :=
  mkScopeRow (ci_namespace input) (ci_run_id input) TICKR_CTX_SCOPE_PROTOCOL_VERSION (ci_claim_id input)
    digest Scope_Active (ci_now input) (ci_now input) None None None None None None None.

Definition create_tickr_ctx_scope (identities : list Uuid) (input : CreateTickrCtxScopeInput) (s : ScopeTables)
    : result (ScopeCreationOutcome * ScopeTables) ScopeRepositoryError :=
  let? _ := validate_scope_identity (ci_namespace input) (ci_run_id input) in
  let? request_digest := mutation_digest uuid_bytes (ci_scope_id input) (ci_values input) in
  match validate_mutation parse_json (ci_values input) 0 0 with
  | Some ((Mutation_Bound _ | Mutation_Envelope _ _) as rejection) => Ok (Creation_Rejected rejection, s)
  | Some EmptyRequest | None =>
      match find_scope (λ r, bool_decide (sp_creation_claim_id r = ci_claim_id input)) s with
      | Some (existing, r) =>
          Ok (if bool_decide (existing = ci_scope_id input) &&
                 bool_decide (sp_namespace r = ci_namespace input) &&
                 bool_decide (sp_run_id r = ci_run_id input) &&
                 bool_decide (sp_creation_request_digest r = request_digest)
              then Creation_Idempotent else Creation_ClaimConflict, s)
      | None =>
          match find_scope (λ r, bool_decide (sp_namespace r = ci_namespace input) &&
                                 bool_decide (sp_run_id r = ci_run_id input)) s with
          | Some (existing, _) => Ok (Creation_Collision existing, s)
          | None =>
              let? _ := ensure (bool_decide (scopes s !! ci_scope_id input = None)) ConstraintViolated in
              let s1 := set_scopes s (<[ci_scope_id input := new_scope input request_digest]> (scopes s)) in
              let s2 := insert_scope_values (ci_scope_id input) (ci_now input) identities (ci_values input) s1 in
              let? s3 := insert_claim (ci_claim_id input) (ci_scope_id input) request_digest (ci_now input) s2 in
              Ok (Creation_Created, s3)
          end
      end
  end.

Definition diagnostic_of (scope : ScopeRow) : string :=
  default "scope is quarantined" (sp_quarantine_reason scope).

(** The lengths of the stored envelopes of a scope. *)
Definition existing_lengths (scope_id : Uuid) (s : ScopeTables) : gmap string Z :=
  list_to_map ((λ v, (ssv_key v, len (ssv_envelope v))) <$> load_scope_values scope_id s).

Definition write_tickr_ctx_scope (identities : list Uuid) (input : WriteTickrCtxScopeInput) (s : ScopeTables)
    : result (ScopeWriteOutcome * ScopeTables) ScopeRepositoryError :=
  let? request_digest := mutation_digest uuid_bytes (wi_scope_id input) (wi_values input) in
  match validate_mutation parse_json (wi_values input) 0 0 with
  | Some rejection => Ok (Write_Rejected rejection, s)
  | None =>
      let? scope := load_scope (wi_scope_id input) s in
      match scope with
      | None => Ok (Write_Missing, s)
      | Some scope =>
          if bool_decide (sp_state scope = Scope_Quarantined)
          then Ok (Write_Quarantined (wi_scope_id input) (diagnostic_of scope), s)
          else
          match scope_claims s !! wi_claim_id input with
          | Some claim =>
              Ok (if bool_decide (cl_scope_id claim = wi_scope_id input) &&
                     bool_decide (cl_request_digest claim = request_digest)
                  then Write_Idempotent else Write_ClaimConflict, s)
          | None =>
              if negb (bool_decide (sp_state scope = Scope_Active)) then Ok (Write_NotWritable (sp_state scope), s)
              else
              match age_bound (sp_created_at scope) (wi_now input) with
              | Some bound => Ok (Write_Rejected (Mutation_Bound bound), s)
              | None =>
                  let existing := existing_lengths (wi_scope_id input) s in
                  match resulting_scope_bound existing (wi_values input) with
                  | Some bound => Ok (Write_Rejected (Mutation_Bound bound), s)
                  | None =>
                      let updated := length (filter (λ v, is_Some (existing !! svi_key v)) (wi_values input)) in
                      let inserted := length (wi_values input) - updated in
                      let s1 := insert_scope_values (wi_scope_id input) (wi_now input) identities (wi_values input) s in
                      let? s2 := insert_claim (wi_claim_id input) (wi_scope_id input) request_digest (wi_now input) s1 in
                      Ok (Write_Applied inserted updated, update_scope (wi_scope_id input) (touch (wi_now input)) s2)
                  end
              end
          end
      end
  end.

Definition delete_tickr_ctx_scope_value (input : DeleteTickrCtxScopeInput) (s : ScopeTables)
    : result (ScopeDeleteOutcome * ScopeTables) ScopeRepositoryError :=
  let? request_digest := delete_digest uuid_bytes (di_scope_id input) (di_key input) in
  let? scope := load_scope (di_scope_id input) s in
  match scope with
  | None => Ok (Delete_Missing, s)
  | Some scope =>
      if bool_decide (sp_state scope = Scope_Quarantined)
      then Ok (Delete_Quarantined (di_scope_id input) (diagnostic_of scope), s)
      else
      match scope_claims s !! di_claim_id input with
      | Some claim =>
          Ok (if bool_decide (cl_scope_id claim = di_scope_id input) &&
                 bool_decide (cl_request_digest claim = request_digest)
              then Delete_Idempotent else Delete_ClaimConflict, s)
      | None =>
          if negb (bool_decide (sp_state scope = Scope_Active)) then Ok (Delete_NotWritable (sp_state scope), s)
          else
          match age_bound (sp_created_at scope) (di_now input) with
          | Some bound => Ok (Delete_Bound bound, s)
          | None =>
              let key := (di_scope_id input, di_key input) in
              let s1 := mkScopeTables (scopes s) (delete key (scope_values s)) (scope_claims s) in
              let? s2 := insert_claim (di_claim_id input) (di_scope_id input) request_digest (di_now input) s1 in
              Ok (if bool_decide (scope_values s !! key = None) then Delete_MissingKey else Delete_Deleted,
                  update_scope (di_scope_id input) (touch (di_now input)) s2)
          end
      end
  end.

(** A snapshot that does not check quarantines the scope. *)
Definition archived {A} (scope_id : Uuid) (scope : ScopeRow) (now : Z) (s : ScopeTables)
    (found : TickrCtxScopeSnapshot → A) (bad : string → A) : A * ScopeTables :=
  match snapshot_from_record scope_id scope with
  | Ok snapshot => (found snapshot, s)
  | Err diagnostic => (bad diagnostic, quarantine_scope scope_id diagnostic now s)
  end.

Definition read_tickr_ctx_scope (scope_id : Uuid) (now : Z) (s : ScopeTables)
    : result (ScopeReadOutcome * ScopeTables) ScopeRepositoryError :=
  let? scope := load_scope scope_id s in
  match scope with
  | None => Ok (Read_Missing, s)
  | Some scope =>
      match sp_state scope with
      | Scope_Quarantined => Ok (Read_Quarantined scope_id (diagnostic_of scope), s)
      | Scope_Snapshotted | Scope_Cleaned =>
          Ok (archived scope_id scope now s Read_Archived (Read_Quarantined scope_id))
      | Scope_Active =>
          match age_bound (sp_created_at scope) now with
          | Some bound => Ok (Read_Bound bound, s)
          | None =>
              let values := load_scope_values scope_id s in
              match stored_bounds values with
              | Some bound => Ok (Read_Bound bound, s)
              | None =>
                  match first_invalid_stored_envelope values with
                  | Some diagnostic =>
                      Ok (Read_Quarantined scope_id diagnostic, quarantine_scope scope_id diagnostic now s)
                  | None => Ok (Read_Present values, s)
                  end
              end
          end
      end
  end.

Definition snapshotted (snapshot : TickrCtxScopeSnapshot) (now : Z) (r : ScopeRow) : ScopeRow :=
  mkScopeRow (sp_namespace r) (sp_run_id r) (sp_protocol_version r) (sp_creation_claim_id r)
    (sp_creation_request_digest r) Scope_Snapshotted (sp_created_at r) now (Some (snap_bytes snapshot))
    (Some (snap_digest snapshot)) (Some (snap_row_count snapshot)) (Some (snap_value_bytes snapshot)) (Some now)
    (sp_cleaned_at r) (sp_quarantine_reason r).

Definition take_snapshot (scope_id : Uuid) (values : list StoredScopeValue) : TickrCtxScopeSnapshot :=
  let bytes := encode_snapshot values in
  mkSnapshot scope_id bytes (sha256_hex bytes) (Z.of_nat (length values))
    (sum_by (λ v, len (ssv_envelope v)) values).

Definition snapshot_tickr_ctx_scope (scope_id : Uuid) (now : Z) (s : ScopeTables)
    : result (ScopeSnapshotOutcome * ScopeTables) ScopeRepositoryError :=
  let? scope := load_scope scope_id s in
  match scope with
  | None => Ok (Snapshot_Missing, s)
  | Some scope =>
      match sp_state scope with
      | Scope_Quarantined => Ok (Snapshot_Quarantined scope_id (diagnostic_of scope), s)
      | Scope_Snapshotted | Scope_Cleaned =>
          Ok (archived scope_id scope now s Snapshot_Idempotent (Snapshot_Quarantined scope_id))
      | Scope_Active =>
          match age_bound (sp_created_at scope) now with
          | Some bound => Ok (Snapshot_Bound bound, s)
          | None =>
              let values := load_scope_values scope_id s in
              match stored_bounds values with
              | Some bound => Ok (Snapshot_Bound bound, s)
              | None =>
                  match first_invalid_stored_envelope values with
                  | Some diagnostic =>
                      Ok (Snapshot_Quarantined scope_id diagnostic, quarantine_scope scope_id diagnostic now s)
                  | None =>
                      let snapshot := take_snapshot scope_id values in
                      Ok (Snapshot_Committed snapshot, update_scope scope_id (snapshotted snapshot now) s)
                  end
              end
          end
      end
  end.

(** The identity is looked up first, in a query of its own. *)
Definition snapshot_tickr_ctx_scope_for_run (namespace run_id : string) (now : Z) (s : ScopeTables)
    : result (ScopeSnapshotOutcome * ScopeTables) ScopeRepositoryError :=
  let? _ := validate_scope_identity namespace run_id in
  match find_scope (λ r, bool_decide (sp_namespace r = namespace) && bool_decide (sp_run_id r = run_id)) s with
  | None => Ok (Snapshot_Missing, s)
  | Some (scope_id, _) => snapshot_tickr_ctx_scope scope_id now s
  end.

Definition cleaned (now : Z) (r : ScopeRow) : ScopeRow :=
  mkScopeRow (sp_namespace r) (sp_run_id r) (sp_protocol_version r) (sp_creation_claim_id r)
    (sp_creation_request_digest r) Scope_Cleaned (sp_created_at r) now (sp_snapshot r)
    (sp_snapshot_digest r) (sp_snapshot_row_count r) (sp_snapshot_value_bytes r) (sp_snapshotted_at r)
    (Some now) (sp_quarantine_reason r).

Definition cleanup_tickr_ctx_scope (scope_id : Uuid) (now : Z) (s : ScopeTables)
    : result (ScopeCleanupOutcome * ScopeTables) ScopeRepositoryError :=
  let? scope := load_scope scope_id s in
  match scope with
  | None => Ok (Cleanup_Missing, s)
  | Some scope =>
      match sp_state scope with
      | Scope_Quarantined => Ok (Cleanup_Quarantined scope_id (diagnostic_of scope), s)
      | Scope_Active => Ok (Cleanup_SnapshotRequired, s)
      | state =>
          match snapshot_from_record scope_id scope with
          | Err diagnostic =>
              Ok (Cleanup_Quarantined scope_id diagnostic, quarantine_scope scope_id diagnostic now s)
          | Ok _ =>
              if bool_decide (state = Scope_Cleaned) then Ok (Cleanup_AlreadyCleaned, s)
              else
                let s1 := mkScopeTables (scopes s)
                            (filter (λ kv, kv.1.1 ≠ scope_id) (scope_values s))
                            (filter (λ kv, cl_scope_id kv.2 ≠ scope_id) (scope_claims s)) in
                Ok (Cleanup_Cleaned, update_scope scope_id (cleaned now) s1)
          end
      end
  end.
End store.
Arguments StoredScopeValue : clear implicits.
Arguments TickrCtxScopeSnapshot : clear implicits.
Arguments ScopeRow : clear implicits.
Arguments ScopeValueRow : clear implicits.
Arguments ScopeClaim : clear implicits.
Arguments ScopeTables Uuid {_ _}.
Arguments CreateTickrCtxScopeInput : clear implicits.
Arguments WriteTickrCtxScopeInput : clear implicits.
Arguments DeleteTickrCtxScopeInput : clear implicits.
