(* ===== verification/ScopeStoreFacts.v ===== *)
(** * Facts about the scope store

    The snapshot encoding round-trips; the invariant of the tables, with its
    bounds, and that every operation keeps it; what a claim remembers; and that an
    archive never changes and holds exactly what a reader last saw. *)

From S2P Require Import Prelude Json Uuid Sha256 ScopeStore.

#[global] Opaque sha256_hex SNAPSHOT_MAGIC.

(** ** Sums and sizes *)

Lemma sum_by_app {A} (f : A → Z) l l' : sum_by f (l ++ l') = (sum_by f l + sum_by f l')%Z.
Proof. induction l as [|x l IH]; simpl; [done|]. rewrite IH. lia. Qed.

Lemma sum_by_perm {A} (f : A → Z) l l' : l ≡ₚ l' → sum_by f l = sum_by f l'.
Proof. induction 1; simpl; lia. Qed.

Lemma sum_by_fmap {A B} (f : B → Z) (g : A → B) l : sum_by f (g <$> l) = sum_by (λ x, f (g x)) l.
Proof. induction l as [|x l IH]; csimpl; [done|]. unfold sum_by in *. simpl. by rewrite IH. Qed.

Lemma sum_by_nonneg {A} (f : A → Z) l : (∀ x, 0 <= f x)%Z → (0 <= sum_by f l)%Z.
Proof. intros Hf. induction l as [|x l IH]; simpl; [done|]. specialize (Hf x). lia. Qed.

Lemma filter_ext_in {A} (P Q : A → Prop) `{!∀ x, Decision (P x), !∀ x, Decision (Q x)} (l : list A) :
  (∀ x, x ∈ l → P x ↔ Q x) → filter P l = filter Q l.
Proof.
  induction l as [|x l IH]; intros Hl; [done|]. rewrite !filter_cons, IH by (intros; apply Hl; by right).
  specialize (Hl x (list_elem_of_here _ _)). repeat case_decide; tauto.
Qed.

Lemma omap_ext_in {A B} (f g : A → option B) (l : list A) : (∀ x, x ∈ l → f x = g x) → omap f l = omap g l.
Proof.
  induction l as [|x l IH]; intros Hl; [done|]. csimpl. rewrite Hl by left.
  rewrite IH; [done|]. intros y Hy. apply Hl. by right.
Qed.

Lemma len_nonneg b : (0 <= len b)%Z.
Proof. unfold len. lia. Qed.

(** The total of a map of lengths. *)
Definition map_total (m : gmap string Z) : Z := sum_by snd (map_to_list m).

Lemma map_total_insert_new m k n : m !! k = None → map_total (<[k := n]> m) = (n + map_total m)%Z.
Proof. intros Hk. unfold map_total. by rewrite (sum_by_perm _ _ _ (map_to_list_insert m k n Hk)). Qed.

Lemma map_total_delete m k n : m !! k = Some n → map_total m = (n + map_total (delete k m))%Z.
Proof.
  intros Hk. rewrite <- (insert_delete_id m k n Hk) at 1. apply map_total_insert_new, lookup_delete_eq.
Qed.

Lemma map_total_insert m k n :
  map_total (<[k := n]> m) = (map_total m - default 0 (m !! k) + n)%Z.
Proof.
  destruct (m !! k) as [n'|] eqn:Hk; simpl.
  - rewrite (map_total_delete m k n' Hk), <- (insert_delete_eq m k n), map_total_insert_new by apply lookup_delete_eq. lia.
  - rewrite map_total_insert_new by done. lia.
Qed.

Lemma map_total_empty : map_total ∅ = 0%Z.
Proof. done. Qed.

(** Inserting the values of a request, one by one. *)
Definition with_lengths (m : gmap string Z) (values : list ScopeValueInput) : gmap string Z :=
  foldl (λ m v, <[svi_key v := len (svi_envelope v)]> m) m values.

Lemma with_lengths_lookup values : ∀ m k,
  k ∉ svi_key <$> values → with_lengths m values !! k = m !! k.
Proof.
  induction values as [|v values IH]; intros m k Hk; [done|]. simpl.
  rewrite fmap_cons, not_elem_of_cons in Hk. destruct Hk as [Hk1 Hk2].
  rewrite IH by done. by rewrite lookup_insert_ne.
Qed.

(** The rows and bytes the store computes beforehand are those it will have. *)
Lemma with_lengths_sizes values : ∀ m,
  NoDup (svi_key <$> values) →
  Z.of_nat (size (with_lengths m values)) =
    (Z.of_nat (size m) + Z.of_nat (length (filter (λ v, m !! svi_key v = None) values)))%Z ∧
  map_total (with_lengths m values) =
    (map_total m - sum_by id (omap (λ v, m !! svi_key v) values) + sum_by (λ v, len (svi_envelope v)) values)%Z.
Proof.
  induction values as [|v values IH]; intros m Hnd; [simpl; lia|].
  apply NoDup_cons in Hnd as [Hv Hnd].
  assert (∀ v', v' ∈ values → <[svi_key v := len (svi_envelope v)]> m !! svi_key v' = m !! svi_key v') as Hsame.
  { intros v' Hv'. apply lookup_insert_ne. intros He. apply Hv. rewrite He. by apply list_elem_of_fmap_2. }
  destruct (IH (<[svi_key v := len (svi_envelope v)]> m) Hnd) as [Hsize Htotal].
  unfold with_lengths in Hsize, Htotal |- *. simpl. rewrite Hsize, Htotal, map_total_insert, filter_cons.
  replace (filter (λ v0, <[svi_key v := _]> m !! svi_key v0 = None) values)
    with (filter (λ v0, m !! svi_key v0 = None) values).
  2:{ apply filter_ext_in. intros v' Hv'. by rewrite Hsame. }
  replace (omap (λ v0, <[svi_key v := _]> m !! svi_key v0) values) with (omap (λ v0, m !! svi_key v0) values).
  2:{ apply omap_ext_in. intros v' Hv'. by rewrite Hsame. }
  rewrite map_size_insert. csimpl.
  destruct (m !! svi_key v) as [n|] eqn:Hm; csimpl; unfold id; lia.
Qed.

(** ** The snapshot encoding *)

Section snapshots.
Context {Uuid : Type} (from_utf8 : bytes → option string).
Implicit Types (v : StoredScopeValue Uuid).

Lemma read_length_app n rest :
  (0 <= n < 2 ^ 32)%Z → read_snapshot_length (to_be_bytes 4 n ++ rest) = Ok (n, rest).
Proof.
  intros Hn. unfold read_snapshot_length. rewrite bool_decide_true by (rewrite length_app, to_be_bytes_length; lia).
  rewrite take_app_length', drop_app_length' by (by rewrite to_be_bytes_length).
  by rewrite from_to_be_bytes.
Qed.

Lemma read_bytes_app b rest :
  (len b < 2 ^ 32)%Z → read_snapshot_bytes (len_prefixed b ++ rest) = Ok (b, rest).
Proof.
  intros Hb. unfold read_snapshot_bytes, len_prefixed. rewrite <- app_assoc, read_length_app by (unfold len in *; lia).
  simpl. unfold len in *. rewrite length_app.
  replace (Z.of_nat (length b) <=? _)%Z with true by (symmetry; apply Z.leb_le; lia).
  by rewrite Nat2Z.id, take_app_length, drop_app_length.
Qed.

Lemma bytes_of_len k : len (bytes_of k) = str_len k.
Proof.
  unfold len, str_len, bytes_of. rewrite length_fmap. f_equal.
  induction k as [|c k IH]; simpl; [done|]. by rewrite IH.
Qed.

(** A value that a snapshot can hold: the lengths fit, and the key is text. *)
Record encodable (v : StoredScopeValue Uuid) : Prop := {
  en_key : (str_len (ssv_key v) < 2 ^ 32)%Z;
  en_envelope : (len (ssv_envelope v) < 2 ^ 32)%Z;
  en_text : from_utf8 (bytes_of (ssv_key v)) = Some (ssv_key v)
}.

Lemma join_cons {A} (x : list A) l : mjoin (x :: l) = x ++ mjoin l.
Proof. done. Qed.

Lemma read_values_app values rest :
  Forall encodable values →
  read_values from_utf8 (length values)
    (mjoin ((λ v, encode_value (ssv_key v) (ssv_envelope v)) <$> values) ++ rest) =
  Ok ((λ v, (ssv_key v, ssv_envelope v)) <$> values, rest).
Proof.
  induction 1 as [|v values [Hk He Ht] _ IH]; [done|].
  rewrite !fmap_cons, join_cons. cbn [length read_values]. unfold encode_value at 1.
  rewrite <- !app_assoc, read_bytes_app by (rewrite bytes_of_len; exact Hk). cbv beta iota. rewrite Ht.
  cbn [ok_or]. rewrite read_bytes_app by exact He. cbv beta match.
  rewrite IH. done.
Qed.

Lemma decoded_taken scope_id values :
  (Z.of_nat (length values) < 2 ^ 32)%Z → Forall encodable values →
  decode_tickr_ctx_scope_snapshot from_utf8 (take_snapshot scope_id values) =
    Ok ((λ v, (ssv_key v, ssv_envelope v)) <$> values).
Proof.
  intros Hl Hv. unfold decode_tickr_ctx_scope_snapshot, take_snapshot, starts_with_magic, encode_snapshot.
  cbn [snap_bytes snap_digest snap_row_count snap_value_bytes].
  rewrite take_app_length, !bool_decide_true, drop_app_length by done. cbn [ensure andb].
  rewrite read_length_app by lia. cbv beta match. rewrite Z.eqb_refl, Nat2Z.id. cbn [ensure].
  rewrite <- (app_nil_r (mjoin _)), read_values_app by done. cbv beta match.
  rewrite sum_by_fmap. cbn [snd]. by rewrite Z.eqb_refl, bool_decide_true.
Qed.

(** C18: a snapshot decodes to exactly the keys and envelopes that were encoded, in
    their order; the counts and the digest it carries check. *)
Theorem snapshot_roundtrip scope_id values :
  (Z.of_nat (length values) < 2 ^ 32)%Z → Forall encodable values →
  decode_tickr_ctx_scope_snapshot from_utf8 (take_snapshot scope_id values) =
    Ok ((λ v, (ssv_key v, ssv_envelope v)) <$> values).
Proof. apply decoded_taken. Qed.
End snapshots.

Definition text_of (b : bytes) : option string :=
  Some (String.string_of_list_ascii ((λ z, Ascii.ascii_of_N (Z.to_N z)) <$> b)).

Definition sample_values : list (StoredScopeValue bit_uuid) :=
  [mkStoredScopeValue "run/a" (unary 1) (bytes_of "{v:1}") 0 0;
   mkStoredScopeValue "run/b" (unary 2) [] 5 9].

Lemma snapshot_roundtrip_witness :
  decode_tickr_ctx_scope_snapshot text_of (take_snapshot (unary 3) sample_values) =
    Ok [("run/a", bytes_of "{v:1}"); ("run/b", [])].
Proof.
  refine (snapshot_roundtrip text_of (unary 3) sample_values _ _); [done|].
  repeat constructor.
Defined.

(** ** The tables *)

Section facts.
Context `{UuidOps Uuid} `{!Countable Uuid}.
Context (uuid_bytes : Uuid → bytes) (parse_json : bytes → option Json) (from_utf8 : bytes → option string).
Context (debug : ScopeEnvelopeRejection → string).
Implicit Types (s : ScopeTables Uuid) (id : Uuid).

(** *** The values of a scope *)

Lemma elem_of_values id s v :
  v ∈ load_scope_values id s ↔
  ∃ r, scope_values s !! (id, ssv_key v) = Some r ∧ v = stored (ssv_key v) r.
Proof.
  unfold load_scope_values. rewrite list_elem_of_fmap. split.
  - intros ([[id' k] r] & -> & [Hr Hid]%elem_of_select_rows). apply bool_decide_eq_true in Hid.
    simpl in *. subst. eauto.
  - intros (r & Hr & Hv). exists ((id, ssv_key v), r). split; [exact Hv|].
    apply elem_of_select_rows. split; [done|]. by apply bool_decide_eq_true.
Qed.

Lemma values_NoDup id s : NoDup (ssv_key <$> load_scope_values id s).
Proof.
  unfold load_scope_values. rewrite <- list_fmap_compose.
  pose proof (select_rows_NoDup (λ a b, string_leb a.1.2 b.1.2)
    (λ kr : (Uuid * string) * ScopeValueRow Uuid, bool_decide (kr.1.1 = id)) (scope_values s)) as Hnd.
  assert (∀ kr, kr ∈ select_rows (λ a b, string_leb a.1.2 b.1.2)
    (λ kr : (Uuid * string) * ScopeValueRow Uuid, bool_decide (kr.1.1 = id)) (scope_values s) → kr.1.1 = id) as Hid.
  { intros [k r] [_ Hk%bool_decide_eq_true]%elem_of_select_rows. done. }
  revert Hnd Hid. generalize (select_rows (λ a b, string_leb a.1.2 b.1.2)
    (λ kr : (Uuid * string) * ScopeValueRow Uuid, bool_decide (kr.1.1 = id)) (scope_values s)).
  induction l as [|[[i k] r] l IH]; intros Hnd Hid; [constructor|]. rewrite !fmap_cons in *.
  apply NoDup_cons in Hnd as [Hx Hnd]. apply NoDup_cons. split; [|apply IH; [done|]; intros; apply Hid; by right].
  intros ([[i' k'] r'] & Hk & Hin)%list_elem_of_fmap. simpl in Hk. subst k'. apply Hx.
  assert (i = i') as ->.
  { pose proof (Hid _ (list_elem_of_here _ _)) as H1. pose proof (Hid _ (list_elem_of_further _ _ _ Hin)) as H2.
    simpl in *. congruence. }
  apply list_elem_of_fmap. by exists ((i', k), r').
Qed.

Lemma values_sorted id s :
  StronglySorted (λ a b, string_leb (ssv_key a) (ssv_key b) = true) (load_scope_values id s).
Proof.
  unfold load_scope_values. pose proof (sort_by_sorted
    (λ a b : (Uuid * string) * ScopeValueRow Uuid, string_leb a.1.2 b.1.2)
    (λ _ _, string_leb_total _ _) (λ _ _ _, string_leb_trans _ _ _)
    (List.filter (λ kr, bool_decide (kr.1.1 = id)) (map_to_list (scope_values s)))) as Hs.
  unfold select_rows. induction Hs as [|x l Hs IH Hx]; [constructor|]. rewrite fmap_cons. constructor; [done|].
  apply Forall_fmap. exact Hx.
Qed.

Lemma values_perm_eq id id' s s' :
  (∀ v, v ∈ load_scope_values id s ↔ v ∈ load_scope_values id' s') →
  load_scope_values id s = load_scope_values id' s'.
Proof.
  intros He. apply (sorted_perm_eq (λ a b, string_leb (ssv_key a) (ssv_key b)));
    [|apply values_sorted..|apply NoDup_Permutation; [eapply NoDup_fmap_1, values_NoDup..|done]].
  intros x y Hx Hy Hxy Hyx. pose proof (string_leb_antisym _ _ Hxy Hyx) as Hk.
  apply elem_of_values in Hx as (r & Hr & ->), Hy as (r' & Hr' & ->). simpl in *. congruence.
Qed.

Lemma values_ext id s s' :
  (∀ k, scope_values s !! (id, k) = scope_values s' !! (id, k)) →
  load_scope_values id s = load_scope_values id s'.
Proof. intros Hk. apply values_perm_eq. intros v. rewrite !elem_of_values. by rewrite Hk. Qed.

Lemma values_nil id s : (∀ k, scope_values s !! (id, k) = None) → load_scope_values id s = [].
Proof.
  intros Hn. destruct (load_scope_values id s) as [|v l] eqn:Hl; [done|].
  assert (v ∈ load_scope_values id s) as (r & Hr & _)%elem_of_values by (rewrite Hl; left). congruence.
Qed.

Lemma existing_lookup id s k :
  existing_lengths id s !! k = (λ r, len (sv_envelope r)) <$> scope_values s !! (id, k).
Proof.
  unfold existing_lengths. destruct (scope_values s !! (id, k)) as [r|] eqn:Hr; simpl.
  - apply elem_of_list_to_map.
    + rewrite <- list_fmap_compose. apply values_NoDup.
    + apply list_elem_of_fmap. exists (stored k r). split; [done|]. apply elem_of_values. simpl. eauto.
  - apply not_elem_of_list_to_map. rewrite <- list_fmap_compose.
    intros (v & -> & (r & Hr' & _)%elem_of_values)%list_elem_of_fmap. simpl in *. congruence.
Qed.

Lemma existing_sizes id s :
  Z.of_nat (length (load_scope_values id s)) = Z.of_nat (size (existing_lengths id s)) ∧
  sum_by (λ v, len (ssv_envelope v)) (load_scope_values id s) = map_total (existing_lengths id s).
Proof.
  assert (map_to_list (existing_lengths id s) ≡ₚ (λ v, (ssv_key v, len (ssv_envelope v))) <$> load_scope_values id s) as Hp.
  { apply map_to_list_to_map. rewrite <- list_fmap_compose. apply values_NoDup. }
  unfold map_total. rewrite (sum_by_perm _ _ _ Hp), sum_by_fmap. split; [|done].
  by rewrite <- length_map_to_list, (Permutation_length Hp), length_fmap.
Qed.

(** *** Writing the values of a request *)

Lemma check_keys_ok seen values :
  check_keys seen values = Ok tt →
  NoDup (svi_key <$> values) ∧ (∀ v, v ∈ values → valid_key (svi_key v) = true ∧ svi_key v ∉ seen).
Proof.
  revert seen. induction values as [|v values IH]; intros seen; simpl; [intros _; split; [constructor|]; by intros v Hv%elem_of_nil|].
  destruct (valid_key (svi_key v)) eqn:Hv; [|done]. simpl. case_bool_decide as Hs; [done|]. simpl.
  intros [Hnd Hall]%IH. split.
  - apply NoDup_cons. split; [|done]. intros (v' & Hk & Hv')%list_elem_of_fmap.
    destruct (Hall _ Hv') as [_ Hn]. rewrite <- Hk in Hn. set_solver.
  - intros v' [->|Hv']%elem_of_cons; [done|]. destruct (Hall _ Hv'). set_solver.
Qed.

(** The rows of other scopes stay. *)
Lemma insert_values_other id now identities values s id' k :
  id' ≠ id → scope_values (insert_scope_values id now identities values s) !! (id', k) = scope_values s !! (id', k).
Proof.
  intros Hne. unfold insert_scope_values. simpl. generalize (zip identities values) (scope_values s).
  induction l as [|[u v] l IH]; intros t; simpl; [done|]. rewrite IH. unfold insert_scope_value. simpl.
  apply lookup_insert_ne. congruence.
Qed.

Lemma insert_values_lengths id now identities values s :
  length identities = length values →
  existing_lengths id (insert_scope_values id now identities values s) = with_lengths (existing_lengths id s) values.
Proof.
  intros Hl. apply map_eq. intros k. rewrite existing_lookup. unfold insert_scope_values. cbn [scope_values].
  assert (∀ k, (λ r, len (sv_envelope r)) <$> scope_values s !! (id, k) = existing_lengths id s !! k) as Hm
    by (intros; by rewrite existing_lookup).
  revert Hl Hm. generalize (existing_lengths id s) (scope_values s). revert identities.
  induction values as [|v values IH]; intros [|u identities] m t Hl Hm; simplify_eq/=; [done|].
  apply (IH identities (<[svi_key v := len (svi_envelope v)]> m)); [done|]. intros k'. unfold insert_scope_value. simpl.
  destruct (decide (k' = svi_key v)) as [->|Hne].
  - rewrite !lookup_insert_eq. by destruct (t !! _).
  - rewrite !lookup_insert_ne by congruence. apply Hm.
Qed.

(** Each row is an old one or holds the envelope of the request. *)
Lemma insert_values_rows id now identities values s k r :
  scope_values (insert_scope_values id now identities values s) !! k = Some r →
  scope_values s !! k = Some r ∨ ∃ v, v ∈ values ∧ k = (id, svi_key v) ∧ sv_envelope r = svi_envelope v.
Proof.
  unfold insert_scope_values. simpl. generalize (scope_values s). revert identities.
  induction values as [|v values IH]; intros [|u identities] t; simpl; auto.
  intros [Hr|(v' & Hv' & ? & ?)]%IH; [|right; exists v'; split; [by right|done]].
  unfold insert_scope_value in Hr. simpl in Hr. apply lookup_insert_Some in Hr as [[<- <-]|[_ Hr]]; [|by left].
  right. exists v. split; [left|]. split; [done|]. by destruct (t !! _).
Qed.

(** *** The invariant *)

Definition value_ok (k : string) (envelope : bytes) : Prop :=
  valid_key k = true ∧ (len envelope <= MAX_SCOPE_VALUE_BYTES)%Z ∧ validate_envelope parse_json envelope = Ok tt.

Record values_fit (values : list (StoredScopeValue Uuid)) : Prop := {
  vf_rows : (Z.of_nat (length values) <= MAX_SCOPE_ROWS)%Z;
  vf_bytes : (sum_by (λ v, len (ssv_envelope v)) values <= MAX_SCOPE_BYTES)%Z;
  vf_ok v : v ∈ values → value_ok (ssv_key v) (ssv_envelope v)
}.

Record holds_snapshot (r : ScopeRow Uuid) (snapshot : TickrCtxScopeSnapshot Uuid) : Prop := {
  hs_bytes : sp_snapshot r = Some (snap_bytes snapshot);
  hs_digest : sp_snapshot_digest r = Some (snap_digest snapshot);
  hs_rows : sp_snapshot_row_count r = Some (snap_row_count snapshot);
  hs_total : sp_snapshot_value_bytes r = Some (snap_value_bytes snapshot)
}.

(** An active scope has no snapshot, a snapshotted one the snapshot of its values,
    a cleaned one a snapshot and nothing else; none is quarantined. *)
Definition phase_ok (id : Uuid) (r : ScopeRow Uuid) (s : ScopeTables Uuid) : Prop :=
  match sp_state r with
  | Scope_Active => values_fit (load_scope_values id s) ∧ sp_snapshot r = None
  | Scope_Snapshotted =>
      values_fit (load_scope_values id s) ∧ holds_snapshot r (take_snapshot id (load_scope_values id s))
  | Scope_Cleaned =>
      load_scope_values id s = [] ∧ (∀ c cl, scope_claims s !! c = Some cl → cl_scope_id cl ≠ id) ∧
      ∃ values, values_fit values ∧ holds_snapshot r (take_snapshot id values)
  | Scope_Quarantined => False
  end.

Record scopes_ok (s : ScopeTables Uuid) : Prop := {
  xo_protocol id r : scopes s !! id = Some r → sp_protocol_version r = TICKR_CTX_SCOPE_PROTOCOL_VERSION;
  xo_phase id r : scopes s !! id = Some r → phase_ok id r s;
  xo_value id k r : scope_values s !! (id, k) = Some r → is_Some (scopes s !! id);
  xo_claim c cl : scope_claims s !! c = Some cl → is_Some (scopes s !! cl_scope_id cl);
  xo_run id id' r r' : scopes s !! id = Some r → scopes s !! id' = Some r' →
    sp_namespace r = sp_namespace r' → sp_run_id r = sp_run_id r' → id = id';
  xo_creation id id' r r' : scopes s !! id = Some r → scopes s !! id' = Some r' →
    sp_creation_claim_id r = sp_creation_claim_id r' → id = id'
}.

Lemma load_scope_ok id s : scopes_ok s → load_scope id s = Ok (scopes s !! id).
Proof.
  intros Hs. unfold load_scope. destruct (scopes s !! id) as [r|] eqn:Hr; [|done].
  by rewrite (xo_protocol _ Hs _ _ Hr), Z.eqb_refl.
Qed.

Lemma first_oversized_none values :
  (∀ v, v ∈ values → (len (ssv_envelope v) <= MAX_SCOPE_VALUE_BYTES)%Z) → first_oversized (Uuid := Uuid) values = None.
Proof.
  induction values as [|v values IH]; intros Hv; simpl; [done|].
  pose proof (Hv v (list_elem_of_here _ _)) as H1. replace (_ <? _)%Z with false by (symmetry; apply Z.ltb_ge; lia).
  apply IH. intros v' Hv'. apply Hv. by right.
Qed.

(** So nothing stored is out of bounds or unreadable. *)
Lemma fit_bounds values : values_fit values → stored_bounds values = None.
Proof.
  intros [Hr Hb Hok]. unfold stored_bounds. replace (_ <? _)%Z with false by (symmetry; apply Z.ltb_ge; lia).
  rewrite first_oversized_none by (intros v Hv; by apply Hok).
  replace (_ <? _)%Z with false by (symmetry; apply Z.ltb_ge; lia). done.
Qed.

Lemma fit_valid values : values_fit values → first_invalid_stored_envelope parse_json debug values = None.
Proof.
  intros [_ _ Hok]. unfold first_invalid_stored_envelope.
  replace (omap _ values) with (@nil string); [done|]. symmetry. induction values as [|v values IH]; [done|].
  csimpl. destruct (Hok v (list_elem_of_here _ _)) as (_ & _ & ->). apply IH. intros v' Hv'. apply Hok. by right.
Qed.

(** A snapshot that was taken checks. *)
Lemma snapshot_checks id r values :
  values_fit values → holds_snapshot r (take_snapshot id values) →
  snapshot_from_record id r = Ok (take_snapshot id values).
Proof.
  intros _ [Hb Hd Hr Ht]. unfold snapshot_from_record, try_usize. rewrite Hb, Hd, Hr, Ht.
  unfold take_snapshot. cbn [snap_bytes snap_digest snap_row_count snap_value_bytes mbind option_bind].
  replace (0 <=? Z.of_nat _)%Z with true by (symmetry; apply Z.leb_le; lia).
  replace (0 <=? sum_by _ _)%Z with true
    by (symmetry; apply Z.leb_le, sum_by_nonneg; intros; apply len_nonneg).
  cbn [ok_or ensure]. unfold starts_with_magic, encode_snapshot.
  rewrite take_app_length, !bool_decide_true by done. done.
Qed.

(** *** Steps *)

Record row_evolves (r r' : ScopeRow Uuid) : Prop := {
  re_namespace : sp_namespace r' = sp_namespace r;
  re_run : sp_run_id r' = sp_run_id r;
  re_protocol : sp_protocol_version r' = sp_protocol_version r;
  re_claim : sp_creation_claim_id r' = sp_creation_claim_id r;
  re_digest : sp_creation_request_digest r' = sp_creation_request_digest r;
  re_created : sp_created_at r' = sp_created_at r;
  re_active : sp_state r' = Scope_Active → sp_state r = Scope_Active;
  re_cleaned : sp_state r = Scope_Cleaned → sp_state r' = Scope_Cleaned;
  re_snapshot snapshot : sp_state r ≠ Scope_Active → holds_snapshot r snapshot → holds_snapshot r' snapshot
}.

#[global] Instance row_evolves_preorder : PreOrder row_evolves.
Proof.
  split; [by intros r; split|]. intros r1 r2 r3 H1 H2. destruct H1, H2. split; try congruence; [auto..|].
  intros snapshot Hs Hh. apply re_snapshot1; [|auto]. intros Ha. by apply Hs, re_active0.
Qed.

Definition scopes_keep (s s' : ScopeTables Uuid) : Prop :=
  ∀ id r, scopes s !! id = Some r → ∃ r', scopes s' !! id = Some r' ∧ row_evolves r r'.

#[global] Instance scopes_keep_preorder : PreOrder scopes_keep.
Proof.
  split; [by intros s id r Hr; exists r|]. intros s1 s2 s3 H1 H2 id r Hr.
  destruct (H1 _ _ Hr) as (r' & Hr' & He). destruct (H2 _ _ Hr') as (r'' & Hr'' & He'). exists r''.
  split; [done|]. by etrans.
Qed.

Inductive scope_step : ScopeTables Uuid → ScopeTables Uuid → Prop :=
| step_create identities input o s s' : length identities = length (ci_values input) →
    create_tickr_ctx_scope uuid_bytes parse_json identities input s = Ok (o, s') → scope_step s s'
| step_write identities input o s s' : length identities = length (wi_values input) →
    write_tickr_ctx_scope uuid_bytes parse_json identities input s = Ok (o, s') → scope_step s s'
| step_delete input o s s' :
    delete_tickr_ctx_scope_value uuid_bytes input s = Ok (o, s') → scope_step s s'
| step_read id now o s s' : read_tickr_ctx_scope parse_json debug id now s = Ok (o, s') → scope_step s s'
| step_snapshot id now o s s' : snapshot_tickr_ctx_scope parse_json debug id now s = Ok (o, s') → scope_step s s'
| step_snapshot_for_run namespace run_id now o s s' :
    snapshot_tickr_ctx_scope_for_run parse_json debug namespace run_id now s = Ok (o, s') → scope_step s s'
| step_cleanup id now o s s' : cleanup_tickr_ctx_scope id now s = Ok (o, s') → scope_step s s'.

Lemma phase_other id r s s' :
  phase_ok id r s → (∀ k, scope_values s' !! (id, k) = scope_values s !! (id, k)) →
  (∀ c cl, scope_claims s' !! c = Some cl → scope_claims s !! c = Some cl ∨ cl_scope_id cl ≠ id) →
  phase_ok id r s'.
Proof.
  intros Hp Hv Hc. unfold phase_ok in *. rewrite (values_ext id s' s Hv). destruct (sp_state r); [done..| |done].
  destruct Hp as (Hn & Hcl & Hs). split_and!; [done| |done]. intros c cl Hcc. destruct (Hc _ _ Hcc); eauto.
Qed.

(** A change of one scope. *)
Lemma update_ok id r r' s s' :
  scopes_ok s → scopes s !! id = Some r → row_evolves r r' → scopes s' = <[id := r']> (scopes s) →
  (∀ id' k, id' ≠ id → scope_values s' !! (id', k) = scope_values s !! (id', k)) →
  (∀ c cl, scope_claims s' !! c = Some cl → scope_claims s !! c = Some cl ∨ cl_scope_id cl = id) →
  phase_ok id r' s' → scopes_ok s' ∧ scopes_keep s s'.
Proof.
  intros Hs Hr He Hsc Hv Hc Hp.
  assert (∀ i, scopes s' !! i = Some r' ∧ i = id ∨ i ≠ id ∧ scopes s' !! i = scopes s !! i) as Hi.
  { intros i. rewrite Hsc. destruct (decide (i = id)) as [->|Hne]; [left; by rewrite lookup_insert_eq|].
    right. by rewrite lookup_insert_ne. }
  assert (∀ i x, scopes s' !! i = Some x → ∃ y, scopes s !! i = Some y ∧ row_evolves y x) as Hold.
  { intros i x Hx. destruct (Hi i) as [[Hx' ->]|[Hne Hx']]; [simplify_eq; eauto|]. exists x. split; [congruence|done]. }
  split; [split|].
  - intros i x (y & Hy & Hyx)%Hold. rewrite (re_protocol _ _ Hyx). by apply Hs in Hy.
  - intros i x Hx. destruct (Hi i) as [[Hx' ->]|[Hne Hx']]; [by simplify_eq|].
    eapply phase_other; [apply (xo_phase _ Hs); congruence|intros k; by apply Hv|].
    intros c cl [Hcl|Hcl]%Hc; [by left|right; congruence].
  - intros i k x Hx. destruct (Hi i) as [[-> _]|[Hne ->]]; [done|]. rewrite Hv in Hx by done. by eapply xo_value.
  - intros c cl Hcl. destruct (Hi (cl_scope_id cl)) as [[-> _]|[Hne ->]]; [done|].
    destruct (Hc _ _ Hcl) as [Hcl'|]; [by eapply xo_claim|done].
  - intros i i' x x' (y & Hy & Hyx)%Hold (y' & Hy' & Hyx')%Hold Hn Hrun. eapply (xo_run _ Hs); [done..| |].
    + by rewrite <- (re_namespace _ _ Hyx), <- (re_namespace _ _ Hyx').
    + by rewrite <- (re_run _ _ Hyx), <- (re_run _ _ Hyx').
  - intros i i' x x' (y & Hy & Hyx)%Hold (y' & Hy' & Hyx')%Hold Hcr. eapply (xo_creation _ Hs); [done..|].
    by rewrite <- (re_claim _ _ Hyx), <- (re_claim _ _ Hyx').
  - intros i x Hx. destruct (Hi i) as [[Hx' ->]|[Hne Hx']]; [simplify_eq; eauto|]. exists x. split; [congruence|done].
Qed.

(** *** The requests *)

Lemma digest_keys id values d :
  mutation_digest uuid_bytes id values = Ok d →
  d = sha256_hex (mutation_bytes uuid_bytes id values) ∧ NoDup (svi_key <$> values) ∧
  (∀ v, v ∈ values → valid_key (svi_key v) = true).
Proof.
  unfold mutation_digest. destruct (check_keys ∅ values) as [[]|] eqn:Hk; [|done]. cbv beta match. intros [= <-].
  apply check_keys_ok in Hk as [Hnd Hv]. split_and!; [done..|]. intros v Hin. by apply Hv.
Qed.

Lemma check_values_none values :
  check_values parse_json values = None →
  ∀ v, v ∈ values → (len (svi_envelope v) <= MAX_SCOPE_VALUE_BYTES)%Z ∧
                    validate_envelope parse_json (svi_envelope v) = Ok tt.
Proof.
  induction values as [|v values IH]; simpl; [intros _ v Hv; by apply elem_of_nil in Hv|].
  destruct (_ <? _)%Z eqn:Hl; [done|]. apply Z.ltb_ge in Hl. destruct (validate_envelope _ _) as [[]|] eqn:Hv; [|done].
  intros Hn v' [->|Hv']%elem_of_cons; [done|by apply IH].
Qed.

Lemma validated values rows total :
  validate_mutation parse_json values rows total = None →
  (∀ v, v ∈ values → (len (svi_envelope v) <= MAX_SCOPE_VALUE_BYTES)%Z ∧
                     validate_envelope parse_json (svi_envelope v) = Ok tt) ∧
  (Z.of_nat (length values) <= MAX_SCOPE_REQUEST_VALUES)%Z ∧
  (total + sum_by (λ v, len (svi_envelope v)) values <= MAX_SCOPE_BYTES)%Z.
Proof.
  unfold validate_mutation. destruct values as [|v values]; [done|].
  destruct (MAX_SCOPE_REQUEST_VALUES <? _)%Z eqn:H1; [done|]. apply Z.ltb_ge in H1.
  destruct (MAX_SCOPE_REQUEST_BYTES <? _)%Z; [done|].
  destruct (check_values parse_json (v :: values)) eqn:Hc; [done|].
  destruct (MAX_SCOPE_ROWS <? _)%Z; [done|]. destruct (MAX_SCOPE_BYTES <? _)%Z eqn:H2; [done|].
  apply Z.ltb_ge in H2. intros _. split_and!; [by apply check_values_none|done|done].
Qed.

(** The values of a request that passed, written to a scope that they fit. *)
Lemma inserted_fit id now identities values s d :
  length identities = length values → mutation_digest uuid_bytes id values = Ok d →
  (∀ v, v ∈ values → (len (svi_envelope v) <= MAX_SCOPE_VALUE_BYTES)%Z ∧
                     validate_envelope parse_json (svi_envelope v) = Ok tt) →
  (∀ v, v ∈ load_scope_values id s → value_ok (ssv_key v) (ssv_envelope v)) →
  resulting_scope_bound (existing_lengths id s) values = None →
  values_fit (load_scope_values id (insert_scope_values id now identities values s)).
Proof.
  intros Hl (_ & Hnd & Hk)%digest_keys Hv Hold Hb.
  destruct (existing_sizes id (insert_scope_values id now identities values s)) as [Hrows Htotal].
  rewrite insert_values_lengths in Hrows, Htotal by done.
  destruct (with_lengths_sizes values (existing_lengths id s) Hnd) as [Hrows' Htotal'].
  unfold resulting_scope_bound in Hb. destruct (_ <? _)%Z eqn:H1; [done|]. apply Z.ltb_ge in H1.
  cbv zeta in Hb. destruct (MAX_SCOPE_BYTES <? _)%Z eqn:H2; [done|]. apply Z.ltb_ge in H2.
  fold (map_total (existing_lengths id s)) in H2. split; [lia|lia|].
  intros v (r & [Hr|(v' & Hv' & [= ->] & He)]%insert_values_rows & ->)%elem_of_values.
  - apply (Hold (stored (ssv_key v) r)), elem_of_values. eauto.
  - simpl. rewrite He. split; [by apply Hk|by apply Hv].
Qed.

(** *** The operations keep the invariant *)

Lemma insert_claim_Ok c id d now s s' :
  insert_claim c id d now s = Ok s' →
  scope_claims s !! c = None ∧
  s' = mkScopeTables (scopes s) (scope_values s) (<[c := mkScopeClaim id d now]> (scope_claims s)).
Proof. unfold insert_claim. destruct (scope_claims s !! c); [done|]. by intros [= <-]. Qed.

Lemma claims_insert c id d now (t : gmap Uuid (ScopeClaim Uuid)) c' cl :
  <[c := mkScopeClaim id d now]> t !! c' = Some cl → t !! c' = Some cl ∨ cl_scope_id cl = id.
Proof. intros [[_ <-]|[_ Hcl]]%lookup_insert_Some; auto. Qed.

Lemma touch_evolves now r : row_evolves r (touch now r).
Proof. by split; [..|intros snapshot _ [? ? ? ?]; split]. Qed.

Lemma find_scope_Some p s id r : find_scope p s = Some (id, r) → scopes s !! id = Some r ∧ p r = true.
Proof.
  unfold find_scope. intros Hh. assert ((id, r) ∈ List.filter (λ kr, p kr.2) (map_to_list (scopes s))) as Hin.
  { destruct (List.filter _ _) as [|x l]; simplify_eq/=. left. }
  apply elem_of_filter_bool in Hin as [Hin Hp]. by apply elem_of_map_to_list in Hin.
Qed.

Lemma find_scope_None p s id r : find_scope p s = None → scopes s !! id = Some r → p r = false.
Proof.
  unfold find_scope. intros Hh Hr. destruct (p r) eqn:Hp; [|done].
  assert ((id, r) ∈ List.filter (λ kr, p kr.2) (map_to_list (scopes s))) as Hin.
  { apply elem_of_filter_bool. split; [by apply elem_of_map_to_list|done]. }
  destruct (List.filter _ _); [by apply elem_of_nil in Hin|done].
Qed.

Lemma check_values_nonempty values : check_values parse_json values ≠ Some EmptyRequest.
Proof. induction values; simpl; repeat case_match; done. Qed.

(** A request that a creation accepts: one that passed, or the empty one. *)
Lemma accepted values :
  validate_mutation parse_json values 0 0 = Some EmptyRequest ∨ validate_mutation parse_json values 0 0 = None →
  (∀ v, v ∈ values → (len (svi_envelope v) <= MAX_SCOPE_VALUE_BYTES)%Z ∧
                     validate_envelope parse_json (svi_envelope v) = Ok tt) ∧
  resulting_scope_bound ∅ values = None.
Proof.
  intros Hv. assert (values = [] ∨ validate_mutation parse_json values 0 0 = None) as [->|Hn].
  { destruct Hv as [Hv|Hv]; [|by right]. left. destruct values as [|v values]; [done|]. exfalso.
    unfold validate_mutation in Hv. pose proof (check_values_nonempty (v :: values)). repeat case_match; congruence. }
  - split; [intros v Hin; by apply elem_of_nil in Hin|done].
  - apply validated in Hn as (Hok & Hc & Hb). split; [done|]. unfold resulting_scope_bound.
    assert (omap (λ v, (∅ : gmap string Z) !! svi_key v) values = []) as ->.
    { clear. induction values as [|v values IH]; [done|]. csimpl. rewrite lookup_empty. exact IH. }
    rewrite map_size_empty, map_to_list_empty. cbn [sum_by foldr]. unfold MAX_SCOPE_REQUEST_VALUES in Hc.
    replace (MAX_SCOPE_ROWS <? _)%Z with false.
    2:{ symmetry. apply Z.ltb_ge. unfold MAX_SCOPE_ROWS.
        etrans; [apply Z.add_le_mono; [reflexivity|apply Nat2Z.inj_le, length_filter]|]. lia. }
    cbv zeta. replace (MAX_SCOPE_BYTES <? _)%Z with false by (symmetry; apply Z.ltb_ge; lia). done.
Qed.

Lemma created_ok identities input d s :
  scopes_ok s → length identities = length (ci_values input) →
  mutation_digest uuid_bytes (ci_scope_id input) (ci_values input) = Ok d →
  (∀ v, v ∈ ci_values input → (len (svi_envelope v) <= MAX_SCOPE_VALUE_BYTES)%Z ∧
                              validate_envelope parse_json (svi_envelope v) = Ok tt) →
  resulting_scope_bound ∅ (ci_values input) = None →
  (∀ id r, scopes s !! id = Some r → sp_creation_claim_id r ≠ ci_claim_id input) →
  (∀ id r, scopes s !! id = Some r → ¬ (sp_namespace r = ci_namespace input ∧ sp_run_id r = ci_run_id input)) →
  scopes s !! ci_scope_id input = None →
  let s1 := set_scopes s (<[ci_scope_id input := new_scope input d]> (scopes s)) in
  let s2 := insert_scope_values (ci_scope_id input) (ci_now input) identities (ci_values input) s1 in
  let s3 := mkScopeTables (scopes s2) (scope_values s2)
              (<[ci_claim_id input := mkScopeClaim (ci_scope_id input) d (ci_now input)]> (scope_claims s2)) in
  scopes_ok s3 ∧ scopes_keep s s3.
Proof.
  intros Hs Hl Hd Hv Hb Hclaim Hrun Hnone s1 s2 s3. set (id := ci_scope_id input) in *.
  assert (∀ k, scope_values s !! (id, k) = None) as Hno.
  { intros k. destruct (scope_values s !! (id, k)) as [r|] eqn:Hr; [|done].
    destruct (xo_value _ Hs _ _ _ Hr). congruence. }
  assert (load_scope_values id s1 = []) as Hnil by by apply values_nil.
  assert (values_fit (load_scope_values id s2)) as Hfit.
  { eapply inserted_fit; [done..| |].
    - intros v Hin. rewrite Hnil in Hin. by apply elem_of_nil in Hin.
    - unfold existing_lengths. by rewrite Hnil. }
  assert (∀ i r, scopes s3 !! i = Some r → i = id ∧ r = new_scope input d ∨ i ≠ id ∧ scopes s !! i = Some r) as Hi.
  { intros i r Hr. simpl in Hr. apply lookup_insert_Some in Hr as [[<- <-]|[Hne Hr]]; [by left|by right]. }
  split; [split|].
  - intros i r [[-> ->]|[_ Hr]]%Hi; [done|by apply Hs in Hr].
  - intros i r [[-> ->]|[Hne Hr]]%Hi; [done|]. eapply phase_other; [by apply (xo_phase _ Hs)|..].
    + intros k. by apply (insert_values_other id _ _ _ s1).
    + intros c cl [Hcl|Hcl]%claims_insert; [by left|right; congruence].
  - intros i k r Hr. destruct (decide (i = id)) as [->|Hne]; [simpl; by rewrite lookup_insert_eq|].
    simpl in Hr |- *. rewrite lookup_insert_ne by done. apply (xo_value _ Hs i k r).
    by rewrite <- (insert_values_other id (ci_now input) identities (ci_values input) s1).
  - intros c cl [Hcl|Hcl]%claims_insert; simpl; [|rewrite Hcl, lookup_insert_eq; done].
    destruct (decide (cl_scope_id cl = id)) as [->|Hne]; [by rewrite lookup_insert_eq|].
    rewrite lookup_insert_ne by done. by apply (xo_claim _ Hs c).
  - intros i i' r r' [[-> ->]|[Hne Hr]]%Hi [[-> ->]|[Hne' Hr']]%Hi Hn Hu; [done|..|by eapply (xo_run _ Hs)];
      [destruct (Hrun _ _ Hr')|destruct (Hrun _ _ Hr)]; simpl in *; by split.
  - intros i i' r r' [[-> ->]|[Hne Hr]]%Hi [[-> ->]|[Hne' Hr']]%Hi Hc; [done|..|by eapply (xo_creation _ Hs)];
      [destruct (Hclaim _ _ Hr')|destruct (Hclaim _ _ Hr)]; simpl in *; done.
  - intros i r Hr. exists r. split; [|done]. simpl. rewrite lookup_insert_ne; [done|]. congruence.
Qed.

Lemma create_step identities input s o s' :
  scopes_ok s → length identities = length (ci_values input) →
  create_tickr_ctx_scope uuid_bytes parse_json identities input s = Ok (o, s') →
  scopes_ok s' ∧ scopes_keep s s'.
Proof.
  intros Hs Hl Hc. unfold create_tickr_ctx_scope in Hc.
  destruct (validate_scope_identity _ _); [|done]. cbv beta match in Hc.
  destruct (mutation_digest _ _ _) as [d|] eqn:Hd; [|done]. cbv beta match in Hc.
  destruct (validate_mutation parse_json (ci_values input) 0 0) as [[]|] eqn:Hvm;
    try (by injection Hc as _ <-);
    (destruct (find_scope _ s) as [[i r]|] eqn:Hf1; [by injection Hc as _ <-|];
     destruct (find_scope (λ r, _ && _) s) as [[i r]|] eqn:Hf2; [by injection Hc as _ <-|];
     case_bool_decide as Hnone; [|done]; cbn [ensure] in Hc; cbv beta match zeta in Hc;
     destruct (insert_claim _ _ _ _ _) as [s3|] eqn:Hic; [|done]; injection Hc as _ <-;
     apply insert_claim_Ok in Hic as [_ ->];
     destruct (accepted (ci_values input)) as [Hok Hb]; [by auto|]; apply created_ok; try done).
  all: intros i r Hr; first [by pose proof (find_scope_None _ _ _ _ Hf1 Hr) as ?%bool_decide_eq_false
    | pose proof (find_scope_None _ _ _ _ Hf2 Hr) as Hf; apply andb_false_iff in Hf;
      rewrite !bool_decide_eq_false in Hf; tauto].
Qed.

Lemma update_scope_scopes id f r s :
  scopes s !! id = Some r → scopes (update_scope id f s) = <[id := f r]> (scopes s).
Proof.
  intros Hr. apply map_eq. intros i. simpl. destruct (decide (i = id)) as [->|Hne].
  - by rewrite lookup_alter_eq, lookup_insert_eq, Hr.
  - by rewrite lookup_alter_ne, lookup_insert_ne.
Qed.

Lemma active_phase id r s :
  scopes_ok s → scopes s !! id = Some r → sp_state r = Scope_Active →
  values_fit (load_scope_values id s) ∧ sp_snapshot r = None.
Proof. intros Hs Hr Ha. pose proof (xo_phase _ Hs _ _ Hr) as Hp. unfold phase_ok in Hp. by rewrite Ha in Hp. Qed.

(** What an applied write does. *)
Lemma write_applied identities input s i u s' :
  scopes_ok s → write_tickr_ctx_scope uuid_bytes parse_json identities input s = Ok (Write_Applied i u, s') →
  ∃ r d, scopes s !! wi_scope_id input = Some r ∧ sp_state r = Scope_Active ∧
    mutation_digest uuid_bytes (wi_scope_id input) (wi_values input) = Ok d ∧
    (∀ v, v ∈ wi_values input → (len (svi_envelope v) <= MAX_SCOPE_VALUE_BYTES)%Z ∧
                                validate_envelope parse_json (svi_envelope v) = Ok tt) ∧
    resulting_scope_bound (existing_lengths (wi_scope_id input) s) (wi_values input) = None ∧
    scope_claims s !! wi_claim_id input = None ∧
    s' = mkScopeTables (<[wi_scope_id input := touch (wi_now input) r]> (scopes s))
           (scope_values (insert_scope_values (wi_scope_id input) (wi_now input) identities (wi_values input) s))
           (<[wi_claim_id input := mkScopeClaim (wi_scope_id input) d (wi_now input)]> (scope_claims s)).
Proof.
  intros Hs Hw. unfold write_tickr_ctx_scope in Hw.
  destruct (mutation_digest _ _ _) as [d|] eqn:Hd; [|done]. cbv beta match in Hw.
  destruct (validate_mutation _ _ _ _) as [x|] eqn:Hv; [done|]. apply validated in Hv as (Hok & _ & _).
  rewrite load_scope_ok in Hw by done. cbv beta match in Hw.
  destruct (scopes s !! wi_scope_id input) as [r|] eqn:Hr; [|done].
  case_bool_decide; [done|]. destruct (scope_claims s !! wi_claim_id input) as [cl|] eqn:Hcl; [by case_match|].
  case_bool_decide as Ha; [|done]. cbn [negb] in Hw. destruct (age_bound _ _); [done|]. cbv zeta in Hw.
  destruct (resulting_scope_bound _ _) eqn:Hb; [done|].
  destruct (insert_claim _ _ _ _ _) as [s2|] eqn:Hic; [|done]. apply insert_claim_Ok in Hic as [_ ->].
  injection Hw as _ _ <-. exists r, d. split_and!; [done..|].
  pose proof (update_scope_scopes _ (touch (wi_now input)) r s Hr) as He.
  unfold update_scope, set_scopes in *. simpl in *. by rewrite He.
Qed.

Lemma write_unchanged identities input s o s' :
  scopes_ok s → write_tickr_ctx_scope uuid_bytes parse_json identities input s = Ok (o, s') →
  (∃ i u, o = Write_Applied i u) ∨ s' = s.
Proof.
  intros Hs Hw. unfold write_tickr_ctx_scope in Hw.
  destruct (mutation_digest _ _ _) as [d|]; [|done]. cbv beta match in Hw.
  destruct (validate_mutation _ _ _ _); [injection Hw as _ <-; by right|].
  rewrite load_scope_ok in Hw by done. cbv beta match in Hw.
  destruct (scopes s !! _) as [r|]; [|injection Hw as _ <-; by right].
  case_bool_decide; [injection Hw as _ <-; by right|].
  destruct (scope_claims s !! _); [injection Hw as _ <-; by right|].
  case_bool_decide; cbn [negb] in Hw; [|injection Hw as _ <-; by right].
  destruct (age_bound _ _); [injection Hw as _ <-; by right|]. cbv zeta in Hw.
  destruct (resulting_scope_bound _ _); [injection Hw as _ <-; by right|].
  destruct (insert_claim _ _ _ _ _); [|done]. injection Hw as <- _. left. eauto.
Qed.

Lemma write_step identities input s o s' :
  scopes_ok s → length identities = length (wi_values input) →
  write_tickr_ctx_scope uuid_bytes parse_json identities input s = Ok (o, s') →
  scopes_ok s' ∧ scopes_keep s s'.
Proof.
  intros Hs Hl Hw. destruct (write_unchanged _ _ _ _ _ Hs Hw) as [(i & u & ->)| ->]; [|done].
  apply write_applied in Hw as (r & d & Hr & Ha & Hd & Hok & Hb & _ & ->); [|done].
  destruct (active_phase _ _ _ Hs Hr Ha) as [[_ _ Hv] Hsn].
  eapply (update_ok _ r (touch (wi_now input) r)); [done|done|apply touch_evolves|done|..].
  - intros id' k Hne. by apply insert_values_other.
  - intros c cl. apply claims_insert.
  - unfold phase_ok. simpl. rewrite Ha. split; [|done].
    erewrite (values_ext _ _ (insert_scope_values (wi_scope_id input) (wi_now input) identities (wi_values input) s))
      by done. by eapply inserted_fit.
Qed.

Lemma deleted_fit id key s :
  values_fit (load_scope_values id s) →
  values_fit (load_scope_values id (mkScopeTables (scopes s) (delete (id, key) (scope_values s)) (scope_claims s))).
Proof.
  intros [Hr Hb Hok]. set (s' := mkScopeTables _ _ _).
  assert (existing_lengths id s' = delete key (existing_lengths id s)) as He.
  { apply map_eq. intros k. rewrite existing_lookup. simpl. destruct (decide (k = key)) as [->|Hne].
    - by rewrite !lookup_delete_eq.
    - rewrite !lookup_delete_ne by congruence. by rewrite existing_lookup. }
  destruct (existing_sizes id s) as [H1 H2], (existing_sizes id s') as [H3 H4]. rewrite He in H3, H4.
  split.
  - rewrite H3. pose proof (map_size_delete key (existing_lengths id s)) as Hsz. unfold Datatypes.id in Hsz. case_match; lia.
  - rewrite H4. destruct (existing_lengths id s !! key) as [n|] eqn:Hk.
    + pose proof (map_total_delete _ _ _ Hk). rewrite existing_lookup in Hk.
      destruct (scope_values s !! (id, key)) as [r|]; simplify_eq/=. pose proof (len_nonneg (sv_envelope r)). lia.
    + rewrite delete_id by done. lia.
  - intros v (r & Hv & ->)%elem_of_values. simpl in Hv. apply lookup_delete_Some in Hv as [_ Hv].
    apply (Hok (stored (ssv_key v) r)), elem_of_values. eauto.
Qed.

Lemma delete_step input s o s' :
  scopes_ok s → delete_tickr_ctx_scope_value uuid_bytes input s = Ok (o, s') → scopes_ok s' ∧ scopes_keep s s'.
Proof.
  intros Hs Hw. unfold delete_tickr_ctx_scope_value in Hw.
  destruct (delete_digest _ _ _) as [d|] eqn:Hd; [|done]. cbv beta match in Hw.
  rewrite load_scope_ok in Hw by done. cbv beta match in Hw.
  destruct (scopes s !! di_scope_id input) as [r|] eqn:Hr; [|by injection Hw as _ <-].
  case_bool_decide; [by injection Hw as _ <-|]. destruct (scope_claims s !! di_claim_id input); [by injection Hw as _ <-|].
  case_bool_decide as Ha; cbn [negb] in Hw; [|by injection Hw as _ <-].
  destruct (age_bound _ _); [by injection Hw as _ <-|]. cbv zeta in Hw.
  destruct (insert_claim _ _ _ _ _) as [s2|] eqn:Hic; [|done]. apply insert_claim_Ok in Hic as [_ ->].
  injection Hw as _ <-. destruct (active_phase _ _ _ Hs Hr Ha) as [Hfit Hsn].
  eapply (update_ok _ r (touch (di_now input) r)); [done|done|apply touch_evolves| |..].
  - by rewrite (update_scope_scopes _ _ r).
  - intros id' k Hne. simpl. apply lookup_delete_ne. congruence.
  - intros c cl. apply claims_insert.
  - unfold phase_ok. simpl. rewrite Ha. split; [|done].
    erewrite (values_ext _ _ (mkScopeTables (scopes s) (delete (di_scope_id input, di_key input) (scope_values s)) (scope_claims s)))
      by done. by apply deleted_fit.
Qed.

(** What a scope that is no longer active archives. *)
Lemma archived_snapshot id r s :
  scopes_ok s → scopes s !! id = Some r → sp_state r ≠ Scope_Active →
  ∃ values, values_fit values ∧ holds_snapshot r (take_snapshot id values) ∧
    (sp_state r = Scope_Snapshotted → values = load_scope_values id s).
Proof.
  intros Hs Hr Ha. pose proof (xo_phase _ Hs _ _ Hr) as Hp. unfold phase_ok in Hp.
  destruct (sp_state r); [done| | |done].
  - destruct Hp as [Hf Hh]. eauto.
  - destruct Hp as (_ & _ & values & Hf & Hh). exists values. by split_and!.
Qed.

(** A read changes nothing: it answers the values of an active scope that is not
    too old, or the archive. *)
Lemma read_spec id now s :
  scopes_ok s →
  read_tickr_ctx_scope parse_json debug id now s =
  Ok (match scopes s !! id with
      | None => Read_Missing
      | Some r =>
          if bool_decide (sp_state r = Scope_Active) then
            match age_bound (sp_created_at r) now with
            | Some bound => Read_Bound bound
            | None => Read_Present (load_scope_values id s)
            end
          else match snapshot_from_record id r with
               | Ok snapshot => Read_Archived snapshot
               | Err diagnostic => Read_Quarantined id diagnostic
               end
      end, s).
Proof.
  intros Hs. unfold read_tickr_ctx_scope. rewrite load_scope_ok by done. cbv beta match.
  destruct (scopes s !! id) as [r|] eqn:Hr; [|done]. case_bool_decide as Ha.
  - rewrite Ha. destruct (active_phase _ _ _ Hs Hr Ha) as [Hf _]. destruct (age_bound _ _); [done|]. cbv zeta.
    by rewrite (fit_bounds _ Hf), (fit_valid _ Hf).
  - destruct (archived_snapshot _ _ _ Hs Hr Ha) as (values & Hf & Hh & _).
    pose proof (xo_phase _ Hs _ _ Hr) as Hp. unfold phase_ok in Hp. unfold archived.
    rewrite (snapshot_checks _ _ _ Hf Hh). by destruct (sp_state r).
Qed.

Lemma snapshot_spec id now s :
  scopes_ok s →
  snapshot_tickr_ctx_scope parse_json debug id now s =
  Ok (match scopes s !! id with
      | None => (Snapshot_Missing, s)
      | Some r =>
          if bool_decide (sp_state r = Scope_Active) then
            match age_bound (sp_created_at r) now with
            | Some bound => (Snapshot_Bound bound, s)
            | None => let snapshot := take_snapshot id (load_scope_values id s) in
                      (Snapshot_Committed snapshot, update_scope id (snapshotted snapshot now) s)
            end
          else (match snapshot_from_record id r with
                | Ok snapshot => Snapshot_Idempotent snapshot
                | Err diagnostic => Snapshot_Quarantined id diagnostic
                end, s)
      end).
Proof.
  intros Hs. unfold snapshot_tickr_ctx_scope. rewrite load_scope_ok by done. cbv beta match.
  destruct (scopes s !! id) as [r|] eqn:Hr; [|done]. case_bool_decide as Ha.
  - rewrite Ha. destruct (active_phase _ _ _ Hs Hr Ha) as [Hf _]. destruct (age_bound _ _); [done|]. cbv zeta.
    by rewrite (fit_bounds _ Hf), (fit_valid _ Hf).
  - destruct (archived_snapshot _ _ _ Hs Hr Ha) as (values & Hf & Hh & _).
    pose proof (xo_phase _ Hs _ _ Hr) as Hp. unfold phase_ok in Hp. unfold archived.
    rewrite (snapshot_checks _ _ _ Hf Hh). by destruct (sp_state r).
Qed.

Lemma snapshot_step id now s o s' :
  scopes_ok s → snapshot_tickr_ctx_scope parse_json debug id now s = Ok (o, s') → scopes_ok s' ∧ scopes_keep s s'.
Proof.
  intros Hs. rewrite snapshot_spec by done. destruct (scopes s !! id) as [r|] eqn:Hr; [|by intros [= _ <-]].
  case_bool_decide as Ha; [|by intros [= _ <-]]. destruct (age_bound _ _); [by intros [= _ <-]|]. intros [= _ <-].
  destruct (active_phase _ _ _ Hs Hr Ha) as [Hf Hsn].
  eapply (update_ok id r); [done|done| |by apply update_scope_scopes|done|auto|].
  - split; try done. simpl. congruence.
  - unfold phase_ok. simpl. erewrite (values_ext id _ s) by done. by split.
Qed.

Lemma cleanup_step id now s o s' :
  scopes_ok s → cleanup_tickr_ctx_scope id now s = Ok (o, s') → scopes_ok s' ∧ scopes_keep s s'.
Proof.
  intros Hs. unfold cleanup_tickr_ctx_scope. rewrite load_scope_ok by done. cbv beta match.
  destruct (scopes s !! id) as [r|] eqn:Hr; [|by intros [= _ <-]].
  destruct (decide (sp_state r = Scope_Active)) as [Ha|Ha]; [rewrite Ha; by intros [= _ <-]|].
  destruct (archived_snapshot _ _ _ Hs Hr Ha) as (values & Hf & Hh & _).
  pose proof (xo_phase _ Hs _ _ Hr) as Hp. unfold phase_ok in Hp. rewrite (snapshot_checks _ _ _ Hf Hh).
  destruct (sp_state r) eqn:Hst; [done| |by intros [= _ <-]|done]. intros [= _ <-].
  eapply (update_ok id r (cleaned now r)); [done|done| |by rewrite (update_scope_scopes _ _ r)|..].
  - split; try done. intros snapshot _ [? ? ? ?]. by split.
  - intros id' k Hne. simpl. rewrite map_lookup_filter. by destruct (scope_values s !! (id', k)) eqn:Hv; simplify_option_eq.
  - intros c cl. simpl. rewrite map_lookup_filter_Some. intros [Hc _]. by left.
  - unfold phase_ok. simpl. split_and!.
    + apply values_nil. intros k. simpl. rewrite map_lookup_filter_None. right. by intros r' _ [].
    + intros c cl. rewrite map_lookup_filter_Some. by intros [_ Hc].
    + exists values. split; [done|]. destruct Hh. by split.
Qed.

Lemma scope_step_ok s s' : scopes_ok s → scope_step s s' → scopes_ok s' ∧ scopes_keep s s'.
Proof.
  intros Hs Hstep. destruct Hstep as [???? ? ? Hc|?????? Hw|???? Hd|????? Hr|????? Hsn|?????? Hsn|????? Hc].
  - by eapply create_step.
  - by eapply write_step.
  - by eapply delete_step.
  - rewrite read_spec in Hr by done. by injection Hr as _ <-.
  - by eapply snapshot_step.
  - unfold snapshot_tickr_ctx_scope_for_run in Hsn. destruct (validate_scope_identity _ _); [|done]. cbv beta match in Hsn.
    destruct (find_scope _ _) as [[i r]|]; [by eapply snapshot_step|by injection Hsn as _ <-].
  - by eapply cleanup_step.
Qed.

Lemma scope_run_ok s s' : scopes_ok s → rtc scope_step s s' → scopes_ok s' ∧ scopes_keep s s'.
Proof.
  intros Hs Hrun. induction Hrun as [s|s1 s2 s3 Hstep _ IH]; [done|].
  destruct (scope_step_ok _ _ Hs Hstep) as [Hs2 Hk]. destruct (IH Hs2) as [Hs3 Hk']. split; [done|]. by etrans.
Qed.

Definition ScopeTables_empty : ScopeTables Uuid := mkScopeTables ∅ ∅ ∅.

Lemma empty_scopes_ok : scopes_ok ScopeTables_empty.
Proof. by split; intros *; simpl; rewrite lookup_empty. Qed.

(** *** The archive *)

Lemma fit_encodable values :
  values_fit values → (∀ v, v ∈ values → from_utf8 (bytes_of (ssv_key v)) = Some (ssv_key v)) →
  (Z.of_nat (length values) < 2 ^ 32)%Z ∧ Forall (encodable from_utf8) values.
Proof.
  intros [Hr _ Hok] Ht. unfold MAX_SCOPE_ROWS in Hr. split; [lia|]. apply Forall_forall. intros v Hv.
  destruct (Hok _ Hv) as (Hk & Hl & _). unfold valid_key, MAX_KEY_BYTES in Hk. apply andb_true_iff in Hk as [_ Hk%Z.leb_le].
  unfold MAX_SCOPE_VALUE_BYTES in Hl. split; [lia|lia|auto].
Qed.

(** C19: a snapshot is final and faithful: it decodes to exactly the values that a
    read of the scope would have given when it was taken, and whatever operations
    follow, cleanup included, every later read and every later snapshot of the
    scope answers it. *)
Theorem archive_final id now s snapshot s1 s' :
  scopes_ok s → (∀ v, v ∈ load_scope_values id s → from_utf8 (bytes_of (ssv_key v)) = Some (ssv_key v)) →
  snapshot_tickr_ctx_scope parse_json debug id now s = Ok (Snapshot_Committed snapshot, s1) →
  rtc scope_step s1 s' →
  (∃ values, read_tickr_ctx_scope parse_json debug id now s = Ok (Read_Present values, s) ∧
     decode_tickr_ctx_scope_snapshot from_utf8 snapshot = Ok ((λ v, (ssv_key v, ssv_envelope v)) <$> values)) ∧
  ∀ later, read_tickr_ctx_scope parse_json debug id later s' = Ok (Read_Archived snapshot, s') ∧
           snapshot_tickr_ctx_scope parse_json debug id later s' = Ok (Snapshot_Idempotent snapshot, s').
Proof.
  intros Hs Htext Hsnap Hrun. destruct (snapshot_step _ _ _ _ _ Hs Hsnap) as [Hs1 _].
  destruct (scope_run_ok _ _ Hs1 Hrun) as [Hs' Hk]. rewrite snapshot_spec in Hsnap by done. rewrite read_spec by done.
  destruct (scopes s !! id) as [r|] eqn:Hr; [|done]. case_bool_decide as Ha; [|by case_match].
  destruct (age_bound (sp_created_at r) now); [done|]. cbv zeta in Hsnap. injection Hsnap as <- <-.
  destruct (active_phase _ _ _ Hs Hr Ha) as [Hf _]. split.
  - eexists. split; [done|]. destruct (fit_encodable _ Hf Htext). by apply decoded_taken.
  - destruct (Hk id (snapshotted (take_snapshot id (load_scope_values id s)) now r)) as (r' & Hr' & He).
    { rewrite (update_scope_scopes _ _ r) by done. apply lookup_insert_eq. }
    assert (sp_state r' ≠ Scope_Active) as Hna by by intros ?%(re_active _ _ He).
    assert (holds_snapshot r' (take_snapshot id (load_scope_values id s))) as Hh by by apply (re_snapshot _ _ He).
    intros later. rewrite read_spec, snapshot_spec, Hr', bool_decide_false by done.
    by rewrite (snapshot_checks _ _ _ Hf Hh).
Qed.


(** *** Claims *)

(** A claim is remembered until its scope is cleaned. *)
Lemma claims_step s s' c cl :
  scopes_ok s → scope_step s s' → scope_claims s !! c = Some cl →
  scope_claims s' !! c = Some cl ∨ ∃ r, scopes s' !! cl_scope_id cl = Some r ∧ sp_state r = Scope_Cleaned.
Proof.
  intros Hs Hstep Hcl.
  destruct Hstep as [identities input o s s' Hl Hc|identities input o s s' Hl Hw|input o s s' Hd|????? Hr|????? Hsn|?????? Hsn|id now o s s' Hc].
  - left. unfold create_tickr_ctx_scope in Hc. destruct (validate_scope_identity _ _); [|done]. cbv beta match in Hc.
    destruct (mutation_digest _ _ _); [|done]. cbv beta match in Hc.
    destruct (validate_mutation _ _ _ _) as [[]|]; try (by injection Hc as _ <-);
      (destruct (find_scope _ s) as [[i r]|]; [by injection Hc as _ <-|];
       destruct (find_scope (λ r, _ && _) s) as [[i r]|]; [by injection Hc as _ <-|];
       case_bool_decide; [|done]; cbn [ensure] in Hc; cbv beta match zeta in Hc;
       destruct (insert_claim _ _ _ _ _) eqn:Hic; [|done]; injection Hc as _ <-;
       apply insert_claim_Ok in Hic as [Hn ->]; simpl in *; rewrite lookup_insert_ne; [done|congruence]).
  - left. destruct (write_unchanged _ _ _ _ _ Hs Hw) as [(i & u & ->)| ->]; [|done].
    apply write_applied in Hw as (r & d & _ & _ & _ & _ & _ & Hn & ->); [|done]. simpl.
    rewrite lookup_insert_ne; [done|congruence].
  - left. unfold delete_tickr_ctx_scope_value in Hd. destruct (delete_digest _ _ _); [|done]. cbv beta match in Hd.
    rewrite load_scope_ok in Hd by done. cbv beta match in Hd.
    destruct (scopes s !! _); [|by injection Hd as _ <-]. case_bool_decide; [by injection Hd as _ <-|].
    destruct (scope_claims s !! di_claim_id input) eqn:Hn; [by injection Hd as _ <-|].
    case_bool_decide; cbn [negb] in Hd; [|by injection Hd as _ <-].
    destruct (age_bound _ _); [by injection Hd as _ <-|]. cbv zeta in Hd.
    destruct (insert_claim _ _ _ _ _) eqn:Hic; [|done]. apply insert_claim_Ok in Hic as [_ ->].
    injection Hd as _ <-. simpl. rewrite lookup_insert_ne; [done|congruence].
  - rewrite read_spec in Hr by done. injection Hr as _ <-. by left.
  - left. rewrite snapshot_spec in Hsn by done. by repeat case_match; injection Hsn as _ <-.
  - left. unfold snapshot_tickr_ctx_scope_for_run in Hsn. destruct (validate_scope_identity _ _); [|done].
    cbv beta match in Hsn. destruct (find_scope _ _) as [[i r]|]; [|by injection Hsn as _ <-].
    rewrite snapshot_spec in Hsn by done. by repeat case_match; injection Hsn as _ <-.
  - unfold cleanup_tickr_ctx_scope in Hc. rewrite load_scope_ok in Hc by done. cbv beta match in Hc.
    destruct (scopes s !! id) as [r|] eqn:Hr; [|injection Hc as _ <-; by left].
    destruct (decide (cl_scope_id cl = id)) as [Hid|Hid].
    + destruct (sp_state r) eqn:Hst; [injection Hc as _ <-; by left| | |injection Hc as _ <-; by left];
        (destruct (snapshot_from_record id r); [|injection Hc as _ <-; by left]); [|injection Hc as _ <-; by left].
      injection Hc as _ <-. right. exists (cleaned now r). rewrite Hid. split; [|done].
      rewrite (update_scope_scopes _ _ r) by done. apply lookup_insert_eq.
    + left. assert (filter (λ kv, cl_scope_id kv.2 ≠ id) (scope_claims s) !! c = Some cl) as Hf
        by by apply map_lookup_filter_Some.
      repeat case_match; injection Hc as _ <-; done.
Qed.

Lemma claims_run s s' c cl :
  scopes_ok s → rtc scope_step s s' → scope_claims s !! c = Some cl →
  scope_claims s' !! c = Some cl ∨ ∃ r, scopes s' !! cl_scope_id cl = Some r ∧ sp_state r = Scope_Cleaned.
Proof.
  intros Hs Hrun Hcl. induction Hrun as [s|s1 s2 s3 Hstep Hrun IH]; [by left|].
  destruct (scope_step_ok _ _ Hs Hstep) as [Hs2 _].
  destruct (claims_step _ _ _ _ Hs Hstep Hcl) as [Hcl2|(r & Hr & Hst)]; [by apply IH|]. right.
  destruct (scope_run_ok _ _ Hs2 Hrun) as [_ Hk]. destruct (Hk _ _ Hr) as (r' & Hr' & He). exists r'.
  split; [done|]. by apply (re_cleaned _ _ He).
Qed.

Lemma mutation_bytes_perm id values values' :
  NoDup (svi_key <$> values) → values ≡ₚ values' →
  mutation_bytes uuid_bytes id values = mutation_bytes uuid_bytes id values'.
Proof.
  intros Hnd Hp. unfold mutation_bytes. do 3 f_equal.
  apply sort_by_perm_eq_on; [intros; apply string_leb_total|intros ???; apply string_leb_trans| |done].
  intros x y Hx Hy Hxy Hyx. apply (NoDup_fmap_inj svi_key values); [done..|]. by apply string_leb_antisym.
Qed.

Lemma mutation_digest_ok id values :
  NoDup (svi_key <$> values) → (∀ v, v ∈ values → valid_key (svi_key v) = true) →
  mutation_digest uuid_bytes id values = Ok (sha256_hex (mutation_bytes uuid_bytes id values)).
Proof.
  intros Hnd Hk. unfold mutation_digest. assert (∀ seen, (∀ v, v ∈ values → svi_key v ∉ seen) → check_keys seen values = Ok tt) as Hc.
  { clear -Hnd Hk. induction values as [|v values IH]; intros seen Hs; [done|]. simpl.
    apply NoDup_cons in Hnd as [Hv Hnd]. rewrite Hk by left. cbn [ensure].
    rewrite bool_decide_false by (apply Hs; left). cbn [negb ensure].
    apply IH; [done|intros v' Hv'; apply Hk; by right|]. intros v' Hv' [Heq%elem_of_singleton|Hin]%elem_of_union.
    - apply Hv. rewrite <- Heq. by apply list_elem_of_fmap_2.
    - revert Hin. apply Hs. by right. }
  rewrite Hc; [done|]. intros v _. apply not_elem_of_empty.
Qed.

Lemma check_values_perm values values' :
  values ≡ₚ values' → check_values parse_json values = None → check_values parse_json values' = None.
Proof.
  intros Hp Hn. pose proof (check_values_none _ Hn) as Hall.
  assert (∀ v, v ∈ values' → (len (svi_envelope v) <= MAX_SCOPE_VALUE_BYTES)%Z ∧
    validate_envelope parse_json (svi_envelope v) = Ok tt) as Hall' by (intros v; rewrite <- Hp; apply Hall).
  clear -Hall'. induction values' as [|v l IH]; [done|]. simpl.
  destruct (Hall' v (list_elem_of_here _ _)) as [Hl ->]. replace (_ <? _)%Z with false by (symmetry; apply Z.ltb_ge; lia).
  apply IH. intros v' Hv'. apply Hall'. by right.
Qed.

Lemma validate_perm values values' rows total :
  values ≡ₚ values' → validate_mutation parse_json values rows total = None →
  validate_mutation parse_json values' rows total = None.
Proof.
  intros Hp. unfold validate_mutation. destruct values as [|v values]; [done|].
  destruct values' as [|v' values']; [by apply Permutation_nil_r in Hp|].
  rewrite (Permutation_length Hp), !(sum_by_perm _ _ _ Hp).
  destruct (_ <? _)%Z; [done|]. destruct (_ <? _)%Z; [done|].
  destruct (check_values parse_json (v :: values)) eqn:Hc; [done|]. by rewrite (check_values_perm _ _ Hp Hc).
Qed.

(** *** A claim that is taken *)

Lemma write_claimed identities input s o s' cl :
  scopes_ok s → scope_claims s !! wi_claim_id input = Some cl →
  write_tickr_ctx_scope uuid_bytes parse_json identities input s = Ok (o, s') → s' = s.
Proof.
  intros Hs Hcl Hw. destruct (write_unchanged _ _ _ _ _ Hs Hw) as [(i & u & ->)|]; [|done].
  apply write_applied in Hw as (_ & _ & _ & _ & _ & _ & _ & Hn & _); [|done]. congruence.
Qed.

Lemma delete_claimed input s o s' cl :
  scopes_ok s → scope_claims s !! di_claim_id input = Some cl →
  delete_tickr_ctx_scope_value uuid_bytes input s = Ok (o, s') → s' = s.
Proof.
  intros Hs Hcl Hd. unfold delete_tickr_ctx_scope_value in Hd. destruct (delete_digest _ _ _); [|done]. cbv beta match in Hd.
  rewrite load_scope_ok in Hd by done. cbv beta match in Hd.
  destruct (scopes s !! _); [|by injection Hd as _ <-]. case_bool_decide; [by injection Hd as _ <-|].
  rewrite Hcl in Hd. by injection Hd as _ <-.
Qed.

Lemma create_claimed identities input s o s' cl :
  scope_claims s !! ci_claim_id input = Some cl →
  create_tickr_ctx_scope uuid_bytes parse_json identities input s = Ok (o, s') → s' = s.
Proof.
  intros Hcl Hc. unfold create_tickr_ctx_scope in Hc. destruct (validate_scope_identity _ _); [|done]. cbv beta match in Hc.
  destruct (mutation_digest _ _ _); [|done]. cbv beta match in Hc.
  destruct (validate_mutation _ _ _ _) as [[]|]; try (by injection Hc as _ <-);
    (destruct (find_scope _ s) as [[i r]|]; [by injection Hc as _ <-|];
     destruct (find_scope (λ r, _ && _) s) as [[i r]|]; [by injection Hc as _ <-|];
     case_bool_decide; [|done]; cbn [ensure] in Hc; cbv beta match zeta in Hc;
     destruct (insert_claim _ _ _ _ _) eqn:Hic; [|done];
     apply insert_claim_Ok in Hic as [Hn _]; simpl in Hn; congruence).
Qed.

(** C20: a write takes effect once: until its scope is cleaned, the same values under
    the same claim, in any order, are answered as done, and no write, deletion or
    creation under that claim changes the store again. *)
Theorem mutation_once identities input s i u s1 s2 :
  scopes_ok s → length identities = length (wi_values input) →
  write_tickr_ctx_scope uuid_bytes parse_json identities input s = Ok (Write_Applied i u, s1) →
  rtc scope_step s1 s2 →
  (∀ r, scopes s2 !! wi_scope_id input = Some r → sp_state r ≠ Scope_Cleaned) →
  (∀ identities' input' o s3, wi_claim_id input' = wi_claim_id input →
     write_tickr_ctx_scope uuid_bytes parse_json identities' input' s2 = Ok (o, s3) → s3 = s2) ∧
  (∀ input' o s3, di_claim_id input' = wi_claim_id input →
     delete_tickr_ctx_scope_value uuid_bytes input' s2 = Ok (o, s3) → s3 = s2) ∧
  (∀ identities' input' o s3, ci_claim_id input' = wi_claim_id input →
     create_tickr_ctx_scope uuid_bytes parse_json identities' input' s2 = Ok (o, s3) → s3 = s2) ∧
  (∀ identities' input', wi_claim_id input' = wi_claim_id input → wi_scope_id input' = wi_scope_id input →
     wi_values input' ≡ₚ wi_values input →
     write_tickr_ctx_scope uuid_bytes parse_json identities' input' s2 = Ok (Write_Idempotent, s2)).
Proof.
  intros Hs Hl Hw Hrun Hnc. destruct (write_step _ _ _ _ _ Hs Hl Hw) as [Hs1 _].
  destruct (scope_run_ok _ _ Hs1 Hrun) as [Hs2 Hk]. pose proof Hw as Hw'.
  apply write_applied in Hw' as (r & d & Hr & Ha & Hd & Hok & Hb & _ & Hs1eq); [|done].
  assert (scope_claims s1 !! wi_claim_id input = Some (mkScopeClaim (wi_scope_id input) d (wi_now input))) as Hcl
    by (rewrite Hs1eq; apply lookup_insert_eq).
  destruct (claims_run _ _ _ _ Hs1 Hrun Hcl) as [Hcl2|(r' & Hr' & Hst)]; [|by destruct (Hnc _ Hr')]. split_and!.
  - intros identities' input' o s3 Hclaim. eapply write_claimed; [done|by rewrite Hclaim].
  - intros input' o s3 Hclaim. eapply delete_claimed; [done|by rewrite Hclaim].
  - intros identities' input' o s3 Hclaim. eapply create_claimed. by rewrite Hclaim.
  - intros identities' input' Hclaim Hid Hv. unfold write_tickr_ctx_scope in Hw |- *. rewrite Hid, Hclaim.
    destruct (digest_keys _ _ _ Hd) as (-> & Hnd & Hkeys). rewrite Hd in Hw. cbv beta match in Hw.
    rewrite mutation_digest_ok.
    2:{ by rewrite Hv. }
    2:{ intros v. rewrite Hv. apply Hkeys. }
    cbv beta match. rewrite <- (mutation_bytes_perm _ _ _ Hnd (symmetry Hv)).
    destruct (validate_mutation parse_json (wi_values input) 0 0) eqn:Hvm; [done|].
    rewrite (validate_perm _ _ _ _ (symmetry Hv) Hvm).
    rewrite load_scope_ok by done. cbv beta match.
    destruct (Hk (wi_scope_id input) (touch (wi_now input) r)) as (r2 & Hr2 & He);
      [rewrite Hs1eq; apply lookup_insert_eq|].
    rewrite Hr2, Hcl2. cbn [cl_scope_id cl_request_digest]. rewrite (bool_decide_false (sp_state r2 = _)).
    + by rewrite !bool_decide_true.
    + intros Hq. pose proof (xo_phase _ Hs2 _ _ Hr2) as Hp. unfold phase_ok in Hp. by rewrite Hq in Hp.
Qed.
End facts.

(** ** A run

    A scope is created with one value, a second one is written, a snapshot is taken
    and the scope is cleaned. *)

Definition bit_bytes (u : bit_uuid) : bytes := (λ b : bool, if b then 1%Z else 0%Z) <$> uuid_bits u.
Definition any_envelope (_ : bytes) : option Json := Some (JObject [("v", JNumber (JInt 2))]).
Definition no_debug (_ : ScopeEnvelopeRejection) : string := "".

Definition after {O : Type} (r : result (O * ScopeTables bit_uuid) ScopeRepositoryError) : ScopeTables bit_uuid :=
  match r with Ok (_, s) => s | Err _ => ScopeTables_empty end.

Definition demo_write : WriteTickrCtxScopeInput bit_uuid :=
  mkWriteInput (unary 3) (unary 5) [mkScopeValueInput "run/b" (bytes_of "two"); mkScopeValueInput "run/c" (bytes_of "three")] 2.

Definition demo_created : ScopeTables bit_uuid :=
  after (create_tickr_ctx_scope bit_bytes any_envelope [unary 8]
    (mkCreateInput (unary 3) "default" "run" (unary 4) [mkScopeValueInput "run/a" (bytes_of "one")] 1) ScopeTables_empty).

Definition demo_written : ScopeTables bit_uuid :=
  after (write_tickr_ctx_scope bit_bytes any_envelope [unary 9; unary 10] demo_write demo_created).

Definition demo_snapshotted : ScopeTables bit_uuid :=
  after (snapshot_tickr_ctx_scope any_envelope no_debug (unary 3) 3 demo_written).

Definition demo_cleaned : ScopeTables bit_uuid := after (cleanup_tickr_ctx_scope (unary 3) 4 demo_snapshotted).

Lemma demo_created_step :
  scope_step bit_bytes any_envelope no_debug ScopeTables_empty demo_created.
Proof.
  eapply (step_create _ _ _ [unary 8] (mkCreateInput (unary 3) "default" "run" (unary 4)
    [mkScopeValueInput "run/a" (bytes_of "one")] 1)); [done|]. vm_compute. reflexivity.
Qed.

Lemma demo_created_ok : scopes_ok any_envelope demo_created.
Proof.
  apply (scope_step_ok bit_bytes any_envelope no_debug ScopeTables_empty);
    [apply empty_scopes_ok|exact demo_created_step].
Qed.

Lemma demo_written_eq :
  write_tickr_ctx_scope bit_bytes any_envelope [unary 9; unary 10] demo_write demo_created =
    Ok (Write_Applied 2 0, demo_written).
Proof. vm_compute. reflexivity. Qed.

Lemma demo_written_ok : scopes_ok any_envelope demo_written.
Proof.
  exact (proj1 (write_step bit_bytes any_envelope [unary 9; unary 10] demo_write demo_created (Write_Applied 2 0)
    demo_written demo_created_ok eq_refl demo_written_eq)).
Qed.

Definition demo_snapshot : TickrCtxScopeSnapshot bit_uuid :=
  take_snapshot (unary 3) (load_scope_values (unary 3) demo_written).

Lemma demo_snapshotted_eq :
  snapshot_tickr_ctx_scope any_envelope no_debug (unary 3) 3 demo_written =
    Ok (Snapshot_Committed demo_snapshot, demo_snapshotted).
Proof. vm_compute. reflexivity. Qed.

Lemma demo_cleaned_run : rtc (scope_step bit_bytes any_envelope no_debug) demo_snapshotted demo_cleaned.
Proof.
  eapply rtc_once, (step_cleanup _ _ _ (unary 3) 4 Cleanup_Cleaned). vm_compute. reflexivity.
Qed.

Lemma archive_final_witness :
  read_tickr_ctx_scope any_envelope no_debug (unary 3) 99 demo_cleaned =
    Ok (Read_Archived demo_snapshot, demo_cleaned).
Proof.
  refine (proj1 (proj2 (archive_final bit_bytes any_envelope text_of no_debug (unary 3) 3 demo_written
    demo_snapshot demo_snapshotted demo_cleaned demo_written_ok _ demo_snapshotted_eq demo_cleaned_run) 99%Z)).
  apply Forall_forall, (bool_decide_unpack _). vm_compute. reflexivity.
Defined.


Lemma mutation_once_witness :
  write_tickr_ctx_scope bit_bytes any_envelope [] demo_write demo_snapshotted = Ok (Write_Idempotent, demo_snapshotted).
Proof.
  refine (proj2 (proj2 (proj2 (mutation_once bit_bytes any_envelope no_debug [unary 9; unary 10] demo_write demo_created 2 0
    demo_written demo_snapshotted demo_created_ok eq_refl demo_written_eq _ _))) [] demo_write eq_refl eq_refl _).
  - eapply rtc_once, (step_snapshot _ _ _ (unary 3) 3). exact demo_snapshotted_eq.
  - assert (sp_state <$> scopes demo_snapshotted !! unary 3 = Some Scope_Snapshotted) as Hst
      by (vm_compute; reflexivity).
    intros r Hr. change (wi_scope_id demo_write) with (unary 3) in Hr. rewrite Hr in Hst. by injection Hst as ->.
  - reflexivity.
Defined.
