(* ===== verification/Leases.v ===== *)
(** * Leases of table rows

    Several tables hand out work by leases: a worker selects eligible rows in a
    stable order, stamps each with an owner, a fresh token and an expiry, and
    settles it only while that lease stands.  The three columns of a lease are
    written together by every statement and are one optional record.  The batch
    lemmas are proved once, for any table and any function that leases one row. *)

From S2P Require Import Prelude.

Record Lease (Uuid : Type) := mkLease {
  lease_owner : string;
  lease_token : Uuid;
  lease_expires_at : Z
}.
Arguments mkLease {Uuid}. Arguments lease_owner {Uuid}. Arguments lease_token {Uuid}.
Arguments lease_expires_at {Uuid}.

(** A row of a table of task builds. *)
Inductive BuildStatus := build_pending | build_success | build_failure.

#[global] Instance build_status_eq_dec : EqDecision BuildStatus.
Proof. solve_decision. Defined.

Record BuildRow (Uuid : Type) := mkBuildRow {
  b_status : BuildStatus;
  b_error : option string;
  b_pending_since : Z;
  b_built_at : option Z;
  b_lease : option (Lease Uuid)
}.
Arguments mkBuildRow {Uuid}. Arguments b_status {Uuid}. Arguments b_error {Uuid}.
Arguments b_pending_since {Uuid}. Arguments b_built_at {Uuid}. Arguments b_lease {Uuid}.

(** [lease_expires_at IS NULL OR lease_expires_at <= now] *)
Definition lease_free {Uuid} (now : Z) (l : option (Lease Uuid)) : bool :=
  match l with Some l => (lease_expires_at l <=? now)%Z | None => true end.

(** [lease_owner = .. AND lease_token = .. AND lease_expires_at > now] *)
Definition lease_held `{EqDecision Uuid} (owner : string) (token : Uuid) (now : Z)
    (l : option (Lease Uuid)) : bool :=
  match l with
  | Some l => bool_decide (lease_owner l = owner) && bool_decide (lease_token l = token)
              && (now <? lease_expires_at l)%Z
  | None => false
  end.

Inductive LeaseRequestError := InvalidLeaseOwner | InvalidLeaseExpiry | InvalidLeaseLimit.

Definition validate_lease_request (owner : string) (now expires_at : Z) (limit max_limit : nat)
    : result unit LeaseRequestError :=
  let? _ := ensure (negb (bool_decide (owner = "")) && (String.length owner <=? 128)) InvalidLeaseOwner in
  let? _ := ensure (now <? expires_at)%Z InvalidLeaseExpiry in
  ensure ((1 <=? limit) && (limit <=? max_limit)) InvalidLeaseLimit.

Lemma validate_lease_request_ok owner now expires limit max :
  validate_lease_request owner now expires limit max = Ok () ↔
  owner ≠ "" ∧ String.length owner ≤ 128 ∧ (now < expires)%Z ∧ 1 ≤ limit ≤ max.
Proof.
  unfold validate_lease_request, ensure.
  destruct (bool_decide_reflect (owner = "")), (Nat.leb_spec (String.length owner) 128),
    (Z.ltb_spec now expires), (Nat.leb_spec 1 limit), (Nat.leb_spec limit max); cbn [negb andb];
    (split; [intros Heq; try discriminate Heq; split_and!; (done || lia)
            |intros (?&?&?&?); (done || lia)]).
Qed.

(** A lease that is held is not free, and one that is free is held by nobody. *)
Lemma held_not_free `{EqDecision Uuid} owner token now (l : option (Lease Uuid)) :
  lease_held owner token now l = true → lease_free now l = false.
Proof.
  destruct l as [l|]; simpl; [|done]. intros [_ Hlt%Z.ltb_lt]%andb_true_iff.
  by apply Z.leb_gt.
Qed.

(** ** Batches *)

Section batch.
Context {Uuid St B E : Type} `{Countable K} {Row : Type}.
Context (tbl : St → gmap K Row) (row_lease : Row → option (Lease Uuid)) (leaseable : Row → bool).
Context (key : B → K) (lease_of : B → Lease Uuid) (mk : nat → Lease Uuid).
Context (f : K * Row → St * nat → result (B * (St * nat)) E).

(** The row of a granted lease, before and after. *)
Definition grants (s s' : St) (b : B) : Prop :=
  (∃ r, tbl s !! key b = Some r ∧ leaseable r = true) ∧
  (∃ r', tbl s' !! key b = Some r' ∧ row_lease r' = Some (lease_of b)).

(** What leasing one row does. *)
Definition leases_one : Prop := ∀ kr s n b s' n', f kr (s, n) = Ok (b, (s', n')) →
  key b = kr.1 ∧ lease_of b = mk n ∧ n' = S n ∧ grants s s' b ∧
  ∀ k, k ≠ kr.1 → tbl s' !! k = tbl s !! k.

Context (Hone : leases_one).

Lemma lease_batch l : ∀ s n bs s' n',
  NoDup l.*1 → traverse f l (s, n) = Ok (bs, (s', n')) →
  key <$> bs = l.*1 ∧ Forall (grants s s') bs ∧
  lease_of <$> bs = mk <$> seq n (length bs) ∧
  (∀ k, k ∉ l.*1 → tbl s' !! k = tbl s !! k).
Proof using Hone.
  induction l as [|kr l IH]; intros s n bs s' n' Hnd; cbn [traverse].
  { intros Heq. injection Heq as <- <- <-. split_and!; done. }
  destruct (f kr (s, n)) as [[b [s1 n1]]|] eqn:H1; [|done]. simpl.
  destruct (traverse f l _) as [[bs' [s2 n2]]|] eqn:Ht; [|done]. simpl.
  intros Heq. injection Heq as <- <- <-.
  csimpl in Hnd. apply NoDup_cons in Hnd as [Hnew Hnd].
  apply Hone in H1 as (Hkey & Hl & -> & [Hbefore (r' & Hr' & Hl')] & Hframe).
  destruct (IH _ _ _ _ _ Hnd Ht) as (Hkeys & Hgr & Htok & Hframe').
  csimpl. split_and!; [by rewrite Hkey, Hkeys| |by rewrite Hl, Htok|].
  - apply List.Forall_cons.
    + split; [done|]. exists r'. split; [|done]. rewrite Hframe'; [done|]. by rewrite Hkey.
    + apply Forall_forall. intros x Hx. rewrite Forall_forall in Hgr.
      destruct (Hgr x Hx) as [(r & Hr & ?) Hafter]. split; [|done]. exists r. split; [|done].
      rewrite <- Hframe; [done|]. intros Hxk. apply Hnew. rewrite <- Hkeys, <- Hxk.
      apply list_elem_of_fmap. eauto.
  - intros k [Hne Hout]%not_elem_of_cons. by rewrite Hframe', Hframe.
Qed.

(** Leasing succeeds on a batch when it does on each row that still qualifies and
    leaves the others qualified. *)
Lemma lease_batch_total (P : St → K * Row → Prop) l : ∀ s n,
  (∀ kr s n, P s kr → ∃ b s' n', f kr (s, n) = Ok (b, (s', n')) ∧
     ∀ kr', kr'.1 ≠ kr.1 → P s kr' → P s' kr') →
  NoDup l.*1 → (∀ kr, kr ∈ l → P s kr) →
  ∃ bs st', traverse f l (s, n) = Ok (bs, st').
Proof using Type.
  induction l as [|kr l IH]; intros s n Hf Hnd HP; cbn [traverse]; [eauto|].
  csimpl in Hnd. apply NoDup_cons in Hnd as [Hnew Hnd].
  destruct (Hf kr s n) as (b & s' & n' & Hb & Hframe); [apply HP; left|]. rewrite Hb. simpl.
  destruct (IH s' n' Hf Hnd) as (bs & st' & Ht); [|rewrite Ht; simpl; eauto].
  intros kr' Hin. apply Hframe; [|apply HP; by right].
  intros Heq. apply Hnew. rewrite <- Heq. by apply list_elem_of_fmap_2.
Qed.

(** A batch that can be leased and is not empty yields a first lease. *)
Lemma first_lease (P : St → K * Row → Prop) (l : list (K * Row)) limit s n :
  (∀ kr s n, P s kr → ∃ b s' n', f kr (s, n) = Ok (b, (s', n')) ∧
     ∀ kr', kr'.1 ≠ kr.1 → P s kr' → P s' kr') →
  NoDup (take limit l).*1 → (∀ kr, kr ∈ l → P s kr) → l ≠ [] → 1 ≤ limit →
  ∃ b bs st, traverse f (take limit l) (s, n) = Ok (b :: bs, st).
Proof using Type.
  intros Hf Hnd HP Hne Hlim. destruct (lease_batch_total P (take limit l) s n Hf Hnd) as (bs & st & Ht).
  { intros kr Hin. apply HP. by eapply subseteq_take. }
  pose proof (traverse_Forall2 _ (λ _ _, True) (take limit l) ltac:(done) _ _ _ Ht) as Hlen%Forall2_length.
  destruct limit as [|limit]; [lia|]. destruct l as [|x l]; [done|]. destruct bs as [|b bs]; [done|].
  eauto.
Qed.

Lemma lease_of_batch bs n b :
  lease_of <$> bs = mk <$> seq n (length bs) → b ∈ bs → ∃ i, lease_of b = mk i.
Proof using Type.
  intros Heq Hb. apply (list_elem_of_fmap_2 lease_of) in Hb. rewrite Heq in Hb.
  apply list_elem_of_fmap in Hb as (i & -> & _). eauto.
Qed.

(** A row under an unexpired lease is in no scan that asks for a free one. *)
Lemma leased_not_scanned s leq p later k r l :
  (∀ r, p (k, r) = true → lease_free later (row_lease r) = true) →
  tbl s !! k = Some r → row_lease r = Some l → (later < lease_expires_at l)%Z →
  k ∉ (select_rows leq p (tbl s)).*1.
Proof using Type.
  intros Hp Hk Hl Hlt ([k' r'] & -> & Hin)%list_elem_of_fmap. simpl in *.
  apply elem_of_select_rows in Hin as [Hk' Hpk]. rewrite Hk in Hk'. injection Hk' as <-.
  apply Hp in Hpk. rewrite Hl in Hpk. simpl in Hpk. apply Z.leb_le in Hpk. lia.
Qed.
End batch.
