(* ===== verification/Programs.v ===== *)
(** * Programs that await

    An asynchronous function is a tree of calls to the outside (a transaction, a
    message, the clock): between two of them no other thread runs.  This file has
    the syntax of such programs with its notations, their interleaving in a pool
    of threads, a run of one program on its own, and the rely-guarantee reasoning
    by which an invariant of the shared world and a promise about its changes are
    proved one program at a time. *)

From S2P Require Import Prelude.

(** [Call op k] awaits [op] and goes on with its answer.  [Join ps k] is
    [try_join_all]: the children run concurrently, the first error drops the
    others. *)
Inductive prog {Op : Type → Type} {E : Type} (A : Type) : Type :=
| Ret (a : A)
| Call {X : Type} (op : Op X) (k : X → prog A)
| Join (ps : list (prog (result unit E))) (k : result unit E → prog A).
Arguments prog : clear implicits.
Arguments Ret {Op E A}. Arguments Call {Op E A X}. Arguments Join {Op E A}.

Fixpoint bind {Op E A B} (p : prog Op E A) (f : A → prog Op E B) : prog Op E B :=
  match p with
  | Ret a => f a
  | Call op k => Call op (λ x, bind (k x) f)
  | Join ps k => Join ps (λ r, bind (k r) f)
  end.

Definition call {Op E X} (op : Op X) : prog Op E X := Call op Ret.

(** The [?] of a fallible function. *)
Definition bind_ok {Op E F A B} (p : prog Op E (result A F)) (f : A → prog Op E (result B F))
    : prog Op E (result B F) :=
  bind p (λ r, match r with Ok a => f a | Err e => Ret (Err e) end).

Declare Scope prog_scope.
Delimit Scope prog_scope with prog.
Notation "'let*' x := p 'in' q" := (bind p (λ x, q))
  (at level 10, x pattern, p at level 100, q at level 200) : prog_scope.
Notation "'let*?' x := p 'in' q" := (bind_ok p (λ x, q))
  (at level 10, x pattern, p at level 100, q at level 200) : prog_scope.
Open Scope prog_scope.

Section induction.
Context {Op : Type → Type} {E : Type}.
Variable P : ∀ A, prog Op E A → Prop.
Hypothesis Pret : ∀ A (a : A), P A (Ret a).
Hypothesis Pcall : ∀ A X (op : Op X) k, (∀ x, P A (k x)) → P A (Call op k).
Hypothesis Pjoin : ∀ A ps k, Forall (P (result unit E)) ps → (∀ r, P A (k r)) → P A (Join ps k).

Fixpoint prog_nested_ind {A} (p : prog Op E A) : P A p :=
  match p with
  | Ret a => Pret A a
  | Call op k => Pcall A _ op k (λ x, prog_nested_ind (k x))
  | Join ps k =>
      Pjoin A ps k
        ((fix all ps : Forall (P _) ps :=
            match ps with
            | [] => List.Forall_nil _
            | q :: qs => List.Forall_cons _ q qs (prog_nested_ind q) (all qs)
            end) ps) (λ r, prog_nested_ind (k r))
  end.
End induction.

Section semantics.
Context {Op : Type → Type} {E Env World : Type}.
Context (perform : ∀ X, Op X → Env → World → X * World).

(** ** Interleaving *)

(** What a join answers: the first error, or [Ok] when all children are done. *)
Fixpoint joined (ps : list (prog Op E (result unit E))) : option (result unit E) :=
  match ps with
  | [] => Some (Ok tt)
  | Ret (Err e) :: _ => Some (Err e)
  | Ret (Ok _) :: qs => joined qs
  | _ :: qs => match joined qs with Some (Err e) => Some (Err e) | _ => None end
  end.

(** The child [i] is the one that moves. *)
Definition step_child (step : prog Op E (result unit E) → option (prog Op E (result unit E) * World))
    : list (prog Op E (result unit E)) → nat → option (list (prog Op E (result unit E)) * World) :=
  fix child ps i :=
    match ps, i with
    | [], _ => None
    | q :: qs, 0 => r ← step q; Some (r.1 :: qs, r.2)
    | q :: qs, S i => r ← child qs i; Some (q :: r.1, r.2)
    end.

(** One step of a program; [path] leads through the joins to the child that
    moves, and ends at a join that is over. *)
Fixpoint pstep {A} (p : prog Op E A) (path : list nat) (e : Env) (w : World)
    : option (prog Op E A * World) :=
  match p with
  | Ret _ => None
  | Call op k => let '(x, w') := perform _ op e w in Some (k x, w')
  | Join ps k =>
      match path with
      | [] => r ← joined ps; Some (k r, w)
      | i :: path => r ← step_child (λ q, pstep q path e w) ps i; Some (Join r.1 k, r.2)
      end
  end.

Lemma step_child_Some step ps i ps' w' :
  step_child step ps i = Some (ps', w') →
  ∃ q q', ps !! i = Some q ∧ step q = Some (q', w') ∧ ps' = <[i := q']> ps.
Proof.
  revert i ps'. induction ps as [|q qs IH]; intros [|i] ps'; simpl; [done..| |].
  - destruct (step q) as [[q' w2]|] eqn:Hq; simpl; [|done]. intros [= <- <-]. eauto.
  - destruct (step_child step qs i) as [[qs' w2]|] eqn:Hc; simpl; [|done]. intros [= <- <-].
    destruct (IH _ _ Hc) as (q0 & q' & ? & ? & ->). eauto.
Qed.

(** A step is at most one call. *)
Lemma pstep_performs {A} (p : prog Op E A) path e w p' w' :
  pstep p path e w = Some (p', w') → w' = w ∨ ∃ X (op : Op X) x, perform X op e w = (x, w').
Proof.
  revert path p'. induction p as [A a|A X op k IH|A ps k IHps IH] using @prog_nested_ind;
    intros path p' Hs; simpl in Hs; [done|..].
  - destruct (perform _ op e w) as [x w3] eqn:Hp. injection Hs as _ <-. eauto.
  - destruct path as [|i path]; [destruct (joined ps); [|done]; injection Hs as _ <-; by left|].
    destruct (step_child _ ps i) as [[ps' w2]|] eqn:Hc; [|done]. injection Hs as _ <-.
    apply step_child_Some in Hc as (q & q' & Hq & Hq' & _). rewrite Forall_lookup in IHps. eauto.
Qed.

Record Pool (A : Type) := mkPool { threads : gmap nat (prog Op E A); world : World }.
Arguments mkPool {A}. Arguments threads {A}. Arguments world {A}.

(** A thread starts, moves, or is dropped: cancelled, or gone with its process. *)
Inductive pool_step {A} (may_start : World → prog Op E A → Prop) : Pool A → Pool A → Prop :=
| step_start s t p : threads s !! t = None → may_start (world s) p →
    pool_step may_start s (mkPool (<[t := p]> (threads s)) (world s))
| step_move s t p path e p' w' : threads s !! t = Some p → pstep p path e (world s) = Some (p', w') →
    pool_step may_start s (mkPool (<[t := p']> (threads s)) w')
| step_drop s t : pool_step may_start s (mkPool (delete t (threads s)) (world s)).

Definition pool_run {A} (may_start : World → prog Op E A → Prop) : Pool A → Pool A → Prop :=
  rtc (pool_step may_start).

(** ** One program on its own *)

Definition run_children (run : prog Op E (result unit E) → World → result unit E * World)
    : list (prog Op E (result unit E)) → World → result unit E * World :=
  fix children ps w :=
    match ps with
    | [] => (Ok tt, w)
    | q :: qs => let '(r, w') := run q w in
                 match r with Ok _ => children qs w' | Err e => (Err e, w') end
    end.

Fixpoint run {A} (p : prog Op E A) (e : Env) (w : World) : A * World :=
  match p with
  | Ret a => (a, w)
  | Call op k => let '(x, w') := perform _ op e w in run (k x) e w'
  | Join ps k => let '(r, w') := run_children (λ q w, run q e w) ps w in run (k r) e w'
  end.

Lemma run_bind {A B} (p : prog Op E A) (f : A → prog Op E B) e w :
  run (bind p f) e w = let '(a, w') := run p e w in run (f a) e w'.
Proof.
  revert f w. induction p as [|A X op k IH|A ps k _ IH] using @prog_nested_ind; intros f w; simpl; [done|..].
  - destruct (perform _ op e w). apply IH.
  - destruct (run_children _ _ _). apply IH.
Qed.

(** ** Rely and guarantee *)

Section logic.
Context (I : World → Prop) (R : World → World → Prop) `{!PreOrder R}.

(** From [w] on, whatever the others do within [R], the program keeps [I], stays
    within [R] itself, and ends in [Q]. *)
Fixpoint wp {A} (p : prog Op E A) (Q : A → World → Prop) (w : World) : Prop :=
  match p with
  | Ret a => ∀ w2, R w w2 → I w2 → Q a w2
  | Call op k => ∀ w2 e, R w w2 → I w2 →
      let '(x, w3) := perform _ op e w2 in I w3 ∧ R w2 w3 ∧ wp (k x) Q w3
  | Join ps k =>
      (fix all ps := match ps with [] => True | q :: qs => wp q (λ _ _, True) w ∧ all qs end) ps ∧
      ∀ r w2, R w w2 → I w2 → wp (k r) Q w2
  end.

Lemma wp_join {A} ps (k : result unit E → prog Op E A) Q w :
  wp (Join ps k) Q w ↔
  Forall (λ q, wp q (λ _ _, True) w) ps ∧ ∀ r w2, R w w2 → I w2 → wp (k r) Q w2.
Proof.
  simpl. apply and_iff_compat_r. induction ps as [|q qs IH]; [by split|].
  rewrite Forall_cons. by apply and_iff_compat_l.
Qed.

Lemma wp_later {A} (p : prog Op E A) Q w w2 : R w w2 → wp p Q w → wp p Q w2.
Proof.
  intros Hw. revert Q. induction p as [A a|A X op k IH|A ps k IHps IH] using @prog_nested_ind; intros Q.
  - intros H w3 H3. apply H. by transitivity w2.
  - intros H w3 e H3. apply H. by transitivity w2.
  - rewrite !wp_join. intros [Hps Hk]. split.
    + induction Hps as [|q qs Hq Hqs IHqs]; [done|]. inversion IHps; subst. constructor; auto.
    + intros r w3 H3. apply Hk. by transitivity w2.
Qed.

Lemma wp_mono {A} (p : prog Op E A) (Q Q' : A → World → Prop) w :
  (∀ a w2, R w w2 → I w2 → Q a w2 → Q' a w2) → wp p Q w → wp p Q' w.
Proof.
  revert Q Q' w. induction p as [A a|A X op k IH|A ps k _ IH] using @prog_nested_ind; intros Q Q' w HQ.
  - simpl. intros H w2 Hr Hi. apply HQ; auto.
  - intros H w2 e Hr Hi. specialize (H w2 e Hr Hi). simpl in H. destruct (perform _ op e w2) as [x w3].
    destruct H as (Hi3 & Hr3 & Hk). split_and!; [done..|]. revert Hk. apply IH.
    intros a w4 Hr4. apply HQ. by do 2 (etrans; [eassumption|]).
  - rewrite !wp_join. intros [Hps Hk]. split; [done|]. intros r w2 Hr Hi. eapply IH; [|by apply Hk].
    intros a w4 Hr4. apply HQ. by etrans.
Qed.

Lemma wp_bind {A B} (p : prog Op E A) (f : A → prog Op E B) Q w :
  wp p (λ a w2, wp (f a) Q w2) w → I w → wp (bind p f) Q w.
Proof.
  revert f Q w. induction p as [A a|A X op k IH|A ps k _ IH] using @prog_nested_ind; intros f Q w; simpl.
  - intros H Hi. by apply H.
  - intros H _ w2 e Hr Hi. specialize (H w2 e Hr Hi). destruct (perform _ op e w2) as [x w3].
    destruct H as (Hi3 & Hr3 & Hk). auto.
  - intros [Hps Hk] _. split; [done|]. intros r w2 Hr Hi. by apply IH; [apply Hk|].
Qed.

Lemma wp_bind_ok {F A B} (p : prog Op E (result A F)) (f : A → prog Op E (result B F)) Q w :
  wp p (λ r w2, match r with Ok a => wp (f a) Q w2 | Err e => wp (Ret (Err e)) Q w2 end) w → I w →
  wp (bind_ok p f) Q w.
Proof. intros H Hi. apply wp_bind; [|done]. revert H. apply wp_mono. by intros [a|e]. Qed.

Lemma wp_ret {A} (a : A) (Q : A → World → Prop) w :
  (∀ w2, R w w2 → I w2 → Q a w2) → wp (Ret a) Q w.
Proof. done. Qed.

Lemma wp_call {A X} (op : Op X) (k : X → prog Op E A) Q w :
  (∀ w2 e, R w w2 → I w2 →
     let '(x, w3) := perform _ op e w2 in I w3 ∧ R w2 w3 ∧ wp (k x) Q w3) → wp (Call op k) Q w.
Proof. done. Qed.

Lemma wp_bind_call {A X} (op : Op X) (f : X → prog Op E A) Q w :
  wp (Call op f) Q w → wp (bind (call op) f) Q w.
Proof. done. Qed.

Lemma wp_bind_ok_call {F X Y} (op : Op (result X F)) (f : X → prog Op E (result Y F)) Q w :
  wp (Call op (λ x, match x with Ok a => f a | Err e => Ret (Err e) end)) Q w →
  wp (bind_ok (call op) f) Q w.
Proof. done. Qed.

(** *** The rules are sound *)

Lemma pstep_wp {A} (p : prog Op E A) Q path e w p' w' :
  I w → wp p Q w → pstep p path e w = Some (p', w') → I w' ∧ R w w' ∧ wp p' Q w'.
Proof.
  revert Q path p'. induction p as [A a|A X op k IH|A ps k IHps IH] using @prog_nested_ind;
    intros Q path p' Hi Hp Hs; simpl in Hs; [done|..].
  - specialize (Hp w e (reflexivity _) Hi). destruct (perform _ op e w) as [x w3].
    by injection Hs as <- <-.
  - rewrite wp_join in Hp. destruct Hp as [Hps Hk]. destruct path as [|i path].
    + destruct (joined ps) as [r|]; [|done]. injection Hs as <- <-.
      split_and!; [done|done|by apply Hk].
    + destruct (step_child _ ps i) as [[ps' w2]|] eqn:Hc; [|done]. injection Hs as <- <-.
      apply step_child_Some in Hc as (q & q' & Hq & Hq' & ->).
      rewrite Forall_lookup in IHps. rewrite Forall_lookup in Hps.
      destruct (IHps _ _ Hq _ _ _ Hi (Hps _ _ Hq) Hq') as (Hi2 & Hr2 & Hq2).
      split_and!; [done..|]. apply wp_join. split.
      * apply Forall_insert; [|done]. apply Forall_lookup. intros j q0 Hj. eapply wp_later; eauto.
      * intros r w3 Hr3. apply Hk. by transitivity w2.
Qed.

(** A pool whose threads all have a proof. *)
Record pool_ok {A} (Q : A → World → Prop) (s : Pool A) : Prop := {
  po_inv : I (world s);
  po_threads : ∀ t p, threads s !! t = Some p → wp p Q (world s)
}.

Context {A : Type} (may_start : World → prog Op E A → Prop) (Q : A → World → Prop).
Hypothesis started : ∀ w p, I w → may_start w p → wp p Q w.

Lemma pool_step_ok s s' :
  pool_step may_start s s' → pool_ok Q s → pool_ok Q s' ∧ R (world s) (world s').
Proof.
  intros Hs [Hi Ht]. inversion Hs as [? t p Hnew Hp|? t p path e p' w' Hp Hp'|? t]; subst; simpl.
  - split; [|done]. split; [done|]. intros t' q. simpl. rewrite lookup_insert_Some.
    intros [[_ <-]|[_ Hq]]; eauto.
  - destruct (pstep_wp _ _ _ _ _ _ _ Hi (Ht _ _ Hp) Hp') as (Hi' & Hr & Hw). split; [|done].
    split; [done|]. intros t' q. simpl. rewrite lookup_insert_Some.
    intros [[_ <-]|[_ Hq]]; [done|]. eapply wp_later; eauto.
  - split; [|done]. split; [done|]. intros t' q. simpl. rewrite lookup_delete_Some. naive_solver.
Qed.

Lemma pool_run_ok s s' :
  pool_run may_start s s' → pool_ok Q s → pool_ok Q s' ∧ R (world s) (world s').
Proof.
  induction 1 as [s|s1 s2 s3 Hs _ IH]; intros Hok; [done|].
  destruct (pool_step_ok _ _ Hs Hok) as [Hok2 Hr]. destruct (IH Hok2). split; [done|]. by etrans.
Qed.

(** What a finished thread has answered stays true. *)
Lemma pool_answer s t a : pool_ok Q s → threads s !! t = Some (Ret a) → Q a (world s).
Proof. intros [Hi Ht] Ha. by apply (Ht _ _ Ha). Qed.
End logic.

(** ** A lone run is an interleaving *)

Definition psteps {A} (e : Env) : prog Op E A * World → prog Op E A * World → Prop :=
  rtc (λ c c', ∃ path, pstep c.1 path e c.2 = Some c').

Lemma step_child_insert (step : prog Op E (result unit E) → option (prog Op E (result unit E) * World)) ps i q q' w' :
  ps !! i = Some q → step q = Some (q', w') → step_child step ps i = Some (<[i := q']> ps, w').
Proof.
  revert i. induction ps as [|q0 qs IH]; intros [|i] Hi Hs; simplify_eq/=; [by rewrite Hs|].
  by rewrite (IH _ Hi Hs).
Qed.

Lemma psteps_child {A} e ps i q w q' w' (k : result unit E → prog Op E A) :
  ps !! i = Some q → psteps e (q, w) (q', w') → psteps e (Join ps k, w) (Join (<[i := q']> ps) k, w').
Proof.
  intros Hi Hs. remember (q, w) as c eqn:Hc. remember (q', w') as c' eqn:Hc'.
  revert q w ps Hi Hc q' w' Hc'.
  induction Hs as [c|c1 c2 c3 [path Hs] _ IH]; intros q w ps Hi -> q' w' Hc'; simplify_eq.
  - rewrite list_insert_id by done. reflexivity.
  - destruct c2 as [q2 w2]. eapply rtc_l with (y := (Join (<[i := q2]> ps) k, w2)).
    + exists (i :: path). simpl. by rewrite (step_child_insert _ _ _ _ _ _ Hi Hs).
    + replace (<[i := q']> ps) with (<[i := q']> (<[i := q2]> ps)) by apply list_insert_insert_eq.
      eapply IH; [|done|done].
      apply list_lookup_insert_eq. by eapply lookup_lt_Some.
Qed.

Lemma joined_app pre ps : Forall (λ q, q = Ret (Ok tt)) pre → joined (pre ++ ps) = joined ps.
Proof. induction 1 as [|q pre -> _ IH]; [done|]. simpl. done. Qed.

Lemma psteps_run {A} (p : prog Op E A) e w :
  psteps e (p, w) (Ret (run p e w).1, (run p e w).2).
Proof.
  revert w. induction p as [A a|A X op k IH|A ps k IHps IH] using @prog_nested_ind; intros w; simpl.
  - reflexivity.
  - destruct (perform _ op e w) as [x w'] eqn:Hp. eapply rtc_l with (y := (k x, w')); [|apply IH].
    exists []. simpl. by rewrite Hp.
  - assert (∀ pre w, Forall (λ q, q = Ret (Ok tt)) pre →
      let '(r, w') := run_children (λ q w, run q e w) ps w in
      psteps e (Join (pre ++ ps) k, w) (k r, w')) as Hch.
    { induction ps as [|q qs IHqs]; intros pre w1 Hpre; simpl.
      - eapply rtc_l; [|reflexivity]. exists []. simpl. by rewrite joined_app by done.
      - inversion IHps as [|? ? Hq Hqs]; subst. specialize (Hq w1).
        destruct (run q e w1) as [r w2] eqn:Hrun. simpl in Hq.
        assert (psteps e (Join (pre ++ q :: qs) k, w1) (Join (pre ++ Ret r :: qs) k, w2)) as Hone.
        { replace (pre ++ Ret r :: qs) with (<[length pre := Ret r]> (pre ++ q :: qs)).
          - eapply psteps_child; [|done]. by rewrite list_lookup_middle.
          - rewrite insert_app_r_alt by done. by rewrite Nat.sub_diag. }
        destruct r as [[]|err].
        + specialize (IHqs Hqs (pre ++ [Ret (Ok tt)]) w2). rewrite <- app_assoc in IHqs.
          destruct (run_children _ qs w2) as [r w3]. unfold psteps. etrans; [exact Hone|]. apply IHqs.
          apply Forall_app. auto.
        + unfold psteps. etrans; [exact Hone|]. eapply rtc_l; [|reflexivity].
          exists []. simpl. by rewrite joined_app by done. }
    specialize (Hch [] w (List.Forall_nil _)). simpl in Hch.
    destruct (run_children _ ps w) as [r w']. unfold psteps. etrans; [exact Hch|]. apply IH.
Qed.

(** So what the logic says of a program holds of its lone run. *)
Lemma wp_run (I : World → Prop) (R : World → World → Prop) `{!PreOrder R} {A} (p : prog Op E A)
    (Q : A → World → Prop) e w :
  I w → wp I R p Q w → I (run p e w).2 ∧ R w (run p e w).2 ∧ Q (run p e w).1 (run p e w).2.
Proof.
  intros Hi Hp. pose proof (psteps_run p e w) as Hs. unfold psteps in Hs.
  assert (∀ c c', rtc (λ c c' : prog Op E A * World, ∃ path, pstep c.1 path e c.2 = Some c') c c' →
    I c.2 → wp I R c.1 Q c.2 → I c'.2 ∧ R c.2 c'.2 ∧ wp I R c'.1 Q c'.2) as Hgo.
  { induction 1 as [c|c1 c2 c3 [path Hc] _ IH]; intros Hi1 Hp1; [done|].
    destruct c2 as [p2 w2]. destruct (pstep_wp I R _ _ _ _ _ _ _ Hi1 Hp1 Hc) as (Hi2 & Hr2 & Hp2).
    destruct (IH Hi2 Hp2) as (? & ? & ?). split_and!; [done| |done]. by etrans. }
  destruct (Hgo _ _ Hs Hi Hp) as (Hi' & Hr' & Hq). simpl in *. split_and!; [done..|]. by apply Hq.
Qed.

(** A pool that takes the given steps. *)
Fixpoint replay {A} (schedule : list (nat * list nat * Env)) (s : Pool A) : option (Pool A) :=
  match schedule with
  | [] => Some s
  | (t, path, e) :: rest =>
      p ← threads s !! t; r ← pstep p path e (world s);
      replay rest (mkPool (<[t := r.1]> (threads s)) r.2)
  end.

Lemma replay_run {A} (may_start : World → prog Op E A → Prop) schedule : ∀ s s',
  replay schedule s = Some s' → pool_run may_start s s'.
Proof.
  induction schedule as [|[[t path] e] rest IH]; intros s s'; simpl; [by intros [= <-]|].
  destruct (threads s !! t) as [p|] eqn:Hp; simpl; [|done].
  destruct (pstep p path e (world s)) as [[p' w']|] eqn:Hs; simpl; [|done].
  intros Hr. eapply rtc_l; [|by apply IH]. by eapply step_move.
Qed.

(** So a pool can start a program and run it to its end. *)
Definition finished {A} (s : Pool A) (t : nat) (p : prog Op E A) (e : Env) : Pool A :=
  mkPool (<[t := Ret (run p e (world s)).1]> (threads s)) (run p e (world s)).2.

Lemma pool_runs {A} (may_start : World → prog Op E A → Prop) s t p e :
  threads s !! t = None → may_start (world s) p → pool_run may_start s (finished s t p e).
Proof.
  intros Ht Hp. eapply rtc_l; [by apply step_start with (t := t)|].
  pose proof (psteps_run p e (world s)) as Hs. unfold psteps in Hs.
  assert (∀ c c' m, rtc (λ c c' : prog Op E A * World, ∃ path, pstep c.1 path e c.2 = Some c') c c' →
            pool_run may_start (mkPool (<[t := c.1]> m) c.2) (mkPool (<[t := c'.1]> m) c'.2)) as Hgo.
  { intros c c' m. induction 1 as [c|c1 c2 c3 [path Hc] _ IH]; [reflexivity|].
    eapply rtc_l; [|exact IH]. destruct c2 as [p2 w2].
    simpl. rewrite <- (insert_insert_eq m t p2 c1.1).
    refine (step_move may_start (mkPool (<[t := c1.1]> m) c1.2) t c1.1 path e p2 w2 _ Hc).
    apply lookup_insert_eq. }
  apply (Hgo _ _ (threads s) Hs).
Qed.
End semantics.
Arguments mkPool {Op E World A}. Arguments threads {Op E World A}. Arguments world {Op E World A}.
