(* ===== verification/Workers.v ===== *)
(** * What the background workers share

    The pipelines of the conductor are programs over the same world: a store whose
    transactions are atomic, a relay that takes messages, a build executor, the
    clock, and the admission check of [lifecycle_work.rs].  The world keeps the
    stores it has been through and the messages it was asked to send, so that a
    theorem can speak of both.  What the outside decides comes with each call. *)

From S2P Require Import Prelude Programs.

(** ** Vocabulary: [build_pipeline/job.rs], [build_pipeline/executor.rs], [lifecycle_work.rs] *)

Record TaskBuildJob (Uuid : Type) := mkTaskBuildJob {
  tbj_workflow_id : Uuid;
  tbj_workflow_version : Z;
  tbj_task_id : Uuid;
  tbj_nix_expression_path : string
}.
Arguments mkTaskBuildJob {Uuid}. Arguments tbj_workflow_id {Uuid}.
Arguments tbj_workflow_version {Uuid}. Arguments tbj_task_id {Uuid}.
Arguments tbj_nix_expression_path {Uuid}.

Inductive BuildOutcome := BuildOutcome_Success | BuildOutcome_Failure (error : string).

Inductive LifecyclePipeline := Pipeline_DefinitionBuild | Pipeline_PatchBuild | Pipeline_Submission.

(** What ends the wait of a worker's loop. *)
Inductive Wake := Wake_Cancelled | Wake_Tick | Wake_Notified | Wake_Closed.

(** [chrono::Duration::from_std]: at most [i64::MAX] milliseconds. *)
Definition MAX_DURATION : Z := (2 ^ 63 - 1) * 1000000.

(** Why a worker does not start. *)
Inductive WorkerRefusal :=
| ZeroScanInterval
| DurationOutOfRange
| NonPositiveLease.

(** ** The world *)

(** What becomes of a transaction: it commits and answers, it fails before it
    commits, or it commits and the answer is lost. *)
Inductive Fate := Fate_Commits | Fate_Fails | Fate_Unheard.

(** A repository call fails by itself or by the refusal of its transaction. *)
Inductive RepositoryError (SE : Type) := RepositoryUnavailable | RepositoryRefused (e : SE).
Arguments RepositoryUnavailable {SE}. Arguments RepositoryRefused {SE}.

Record Outside := mkOutside {
  out_clock : Z;
  out_fate : Fate;
  out_sent : bool;
  out_build : BuildOutcome;
  out_claims_open : bool
}.

(** An outside in which everything works, at the time [now]. *)
Definition working (now : Z) : Outside := mkOutside now Fate_Commits true BuildOutcome_Success true.

Section world.
Context {St M SE Uuid : Type}.

(** [Local] is a change of what the process keeps in memory, which is part of the
    store here: it takes effect at once and cannot fail. *)
Inductive Await : Type → Type :=
| Transact {X} (f : Z → St → result (X * St) SE) : Await (result X (RepositoryError SE))
| Send (m : M) : Await bool
| UtcNow : Await Z
| ExecuteBuild (job : TaskBuildJob Uuid) : Await BuildOutcome
| ClaimsOpen (pipeline : LifecyclePipeline) : Await bool
| Local {X} (f : St → X * St) : Await X.

(** [past] are the stores before [now_store], the latest first; [log] the messages
    handed to the relay, in their order, with its answer. *)
Record World := mkWorld { now_store : St; past : list St; log : list (M * bool) }.

Definition committed (w : World) (s : St) : World := mkWorld s (now_store w :: past w) (log w).

Definition transact {X} (f : Z → St → result (X * St) SE) (o : Outside) (w : World)
    : result X (RepositoryError SE) * World :=
  match out_fate o with
  | Fate_Fails => (Err RepositoryUnavailable, w)
  | fate =>
      match f (out_clock o) (now_store w) with
      | Ok (x, s) => (match fate with Fate_Commits => Ok x | _ => Err RepositoryUnavailable end,
                      committed w s)
      | Err e => (Err (RepositoryRefused e), w)
      end
  end.

Definition perform (X : Type) (op : Await X) (o : Outside) (w : World) : X * World :=
  match op in Await X return X * World with
  | Transact f => transact f o w
  | Send m => (out_sent o, mkWorld (now_store w) (past w) (log w ++ [(m, out_sent o)]))
  | UtcNow => (out_clock o, w)
  | ExecuteBuild _ => (out_build o, w)
  | ClaimsOpen _ => (out_claims_open o, w)
  | Local f => let '(x, s) := f (now_store w) in (x, committed w s)
  end.

(** Every store so far, the present one included. *)
Definition stores (w : World) : list St := now_store w :: past w.

Definition sent_messages (w : World) : list M := (log w).*1.

(** The present can only add to the past, and to the log. *)
Record extends (w w' : World) : Prop := {
  ext_stores : ∀ s, s ∈ stores w → s ∈ stores w';
  ext_log : log w `prefix_of` log w'
}.

#[global] Instance extends_preorder : PreOrder extends.
Proof.
  split.
  - intros w. by split.
  - intros w1 w2 w3 [H1 H2] [H3 H4]. split; [eauto|]. by etrans.
Qed.

Lemma perform_extends X (op : Await X) o w x w' : perform X op o w = (x, w') → extends w w'.
Proof.
  assert (∀ s, extends w (committed w s)) as Hc.
  { intros s. split; [|done]. intros s' Hs. by apply elem_of_cons; right. }
  destruct op as [Y f|m| | | |Y f]; simpl; try (intros [= _ <-]; reflexivity).
  - unfold transact. destruct (out_fate o); [|intros [= _ <-]; reflexivity|];
      (destruct (f _ _) as [[y s]|e]; intros [= _ <-]; [apply Hc|reflexivity]).
  - intros [= _ <-]. split; [done|]. by exists [(m, out_sent o)].
  - destruct (f _) as [y s]. intros [= _ <-]. apply Hc.
Qed.

(** A message is sent and nothing else. *)
Lemma perform_sends X (op : Await X) o w x w' m :
  perform X op o w = (x, w') → log w' = log w ++ m → m ≠ [] → stores w' = stores w.
Proof.
  assert (∀ l : list (M * bool), l = l ++ m → m = []) as Hnil.
  { intros l Hl. apply (f_equal length) in Hl. rewrite length_app in Hl. destruct m; [done|simpl in Hl; lia]. }
  destruct op as [Y f|m0| | | |Y f]; simpl; try (intros [= _ <-] Hl Hm; by apply Hnil in Hl).
  - unfold transact. destruct (out_fate o); [|intros [= _ <-] Hl Hm; by apply Hnil in Hl|];
      (destruct (f _ _) as [[y s]|e]; intros [= _ <-] Hl Hm; by apply Hnil in Hl).
  - by intros [= _ <-].
  - destruct (f _) as [y s]. intros [= _ <-] Hl Hm. by apply Hnil in Hl.
Qed.

Lemma wp_extends {A} (p : prog Await (RepositoryError SE) A) w :
  wp perform (λ _, True) extends p (λ _ _, True) w.
Proof.
  revert w. induction p as [A a|A X op k IH|A ps k IHps IH] using @prog_nested_ind; intros w; [done|..].
  - intros w2 o _ _. destruct (perform X op o w2) as [x w3] eqn:Hp.
    split_and!; [done|by eapply perform_extends|apply IH].
  - apply wp_join. split; [|done]. eapply Forall_impl; [exact IHps|]. auto.
Qed.

Lemma run_extends {A} (p : prog Await (RepositoryError SE) A) o w : extends w (run perform p o w).2.
Proof. by apply (wp_run perform (λ _, True) extends p (λ _ _, True)); [|apply wp_extends]. Qed.

Lemma sent_extends w w' m : extends w w' → m ∈ sent_messages w → m ∈ sent_messages w'.
Proof.
  intros [_ [l Hl]]. unfold sent_messages. rewrite Hl, fmap_app, elem_of_app. auto.
Qed.

(** *** Runs on their own in a world that works *)

Abbreviation program A := (prog Await (RepositoryError SE) (result A (RepositoryError SE))).

Lemma run_then {A B} (p : program A) (f : A → program B) o w :
  run perform (bind_ok p f) o w =
  match run perform p o w with
  | (Ok a, w') => run perform (f a) o w'
  | (Err e, w') => (Err e, w')
  end.
Proof. unfold bind_ok. rewrite run_bind. by destruct (run perform p o w) as [[a|e] w']. Qed.

Lemma run_then_sends {A B} (p : program A) (f : A → program B) o w m :
  m ∈ sent_messages (run perform p o w).2 → m ∈ sent_messages (run perform (bind_ok p f) o w).2.
Proof.
  rewrite run_then. destruct (run perform p o w) as [[a|err] w']; [|done]. simpl.
  apply sent_extends, run_extends.
Qed.

Lemma run_transact {X A} (f : Z → St → result (X * St) SE) (g : X → program A) now w :
  run perform (bind_ok (call (Transact f)) g) (working now) w =
  match f now (now_store w) with
  | Ok (x, s) => run perform (g x) (working now) (committed w s)
  | Err e => (Err (RepositoryRefused e), w)
  end.
Proof. cbn -[committed]. unfold transact. simpl. by destruct (f now (now_store w)) as [[x st]|e]. Qed.

Lemma run_join_cons (q : program unit) qs o w :
  run perform (Join (q :: qs) Ret) o w =
  match run perform q o w with
  | (Ok _, w') => run perform (Join qs Ret) o w'
  | (Err e, w') => (Err e, w')
  end.
Proof. simpl. by destruct (run perform q o w) as [[[]|e] w']. Qed.

(** *** Rules for the calls *)

Section rules.
Context {A : Type} (I : World → Prop) (R : World → World → Prop) `{!PreOrder R}.
Context (Q : A → World → Prop).
Abbreviation wp := (wp (E := RepositoryError SE) perform I R).

(** A transaction may fail at any time; if it commits, the invariant and the
    promise hold of the new store. *)
Lemma wp_transact {X} (f : Z → St → result (X * St) SE) (k : result X (RepositoryError SE) → prog Await (RepositoryError SE) A) w :
  (∀ w2 now x s, R w w2 → I w2 → f now (now_store w2) = Ok (x, s) →
     I (committed w2 s) ∧ R w2 (committed w2 s) ∧ wp (k (Ok x)) Q (committed w2 s)) →
  (∀ e w2, R w w2 → I w2 → wp (k (Err e)) Q w2) → wp (Call (Transact f) k) Q w.
Proof.
  intros Hok Herr w2 o Hr Hi. simpl. unfold transact. destruct (out_fate o).
  - destruct (f _ _) as [[x s]|e] eqn:Hf; [|by split_and!; [done..|apply Herr]].
    by apply (Hok _ _ _ _ Hr Hi Hf).
  - split_and!; [done..|]. by apply Herr.
  - destruct (f _ _) as [[x s]|e] eqn:Hf; [|by split_and!; [done..|apply Herr]].
    destruct (Hok _ _ _ _ Hr Hi Hf) as (Hi2 & Hr2 & _). split_and!; [done..|].
    apply Herr; [by etrans|done].
Qed.

(** A read. *)
Lemma wp_read {X} (f : Z → St → X) (k : result X (RepositoryError SE) → prog Await (RepositoryError SE) A) w :
  (∀ w2, R w w2 → I w2 → I (committed w2 (now_store w2)) ∧ R w2 (committed w2 (now_store w2))) →
  (∀ w2 now, R w w2 → I w2 → wp (k (Ok (f now (now_store w2)))) Q (committed w2 (now_store w2))) →
  (∀ e w2, R w w2 → I w2 → wp (k (Err e)) Q w2) →
  wp (Call (Transact (λ now s, Ok (f now s, s))) k) Q w.
Proof.
  intros Hc Hok Herr. apply wp_transact; [|done]. intros w2 now x s Hr Hi [= <- <-].
  destruct (Hc w2 Hr Hi). auto.
Qed.

Lemma wp_send (m : M) (k : bool → prog Await (RepositoryError SE) A) w :
  (∀ w2 b, R w w2 → I w2 →
     let w3 := mkWorld (now_store w2) (past w2) (log w2 ++ [(m, b)]) in
     I w3 ∧ R w2 w3 ∧ wp (k b) Q w3) → wp (Call (Send m) k) Q w.
Proof. intros H w2 o Hr Hi. simpl. by apply H. Qed.

Lemma wp_now (k : Z → prog Await (RepositoryError SE) A) w :
  (∀ now w2, R w w2 → I w2 → wp (k now) Q w2) → wp (Call UtcNow k) Q w.
Proof. intros H w2 o Hr Hi. simpl. split_and!; [done..|]. by apply H. Qed.

Lemma wp_build job (k : BuildOutcome → prog Await (RepositoryError SE) A) w :
  (∀ b w2, R w w2 → I w2 → wp (k b) Q w2) → wp (Call (ExecuteBuild job) k) Q w.
Proof. intros H w2 o Hr Hi. simpl. split_and!; [done..|]. by apply H. Qed.

Lemma wp_claims_open p (k : bool → prog Await (RepositoryError SE) A) w :
  (∀ b w2, R w w2 → I w2 → wp (k b) Q w2) → wp (Call (ClaimsOpen p) k) Q w.
Proof. intros H w2 o Hr Hi. simpl. split_and!; [done..|]. by apply H. Qed.

Lemma wp_local {X} (f : St → X * St) (k : X → prog Await (RepositoryError SE) A) w :
  (∀ w2 x s, R w w2 → I w2 → f (now_store w2) = (x, s) →
     I (committed w2 s) ∧ R w2 (committed w2 s) ∧ wp (k x) Q (committed w2 s)) →
  wp (Call (Local f) k) Q w.
Proof.
  intros H w2 o Hr Hi. simpl. destruct (f (now_store w2)) as [x s] eqn:Hf. by apply H.
Qed.
End rules.
End world.
Arguments Await : clear implicits.
Arguments World : clear implicits.
Arguments mkWorld {St M}. Arguments now_store {St M}. Arguments past {St M}. Arguments log {St M}.
