(* ===== verification/RedisScopeStore.v ===== *)
(** * The scope store on Redis

    [redis_scope_store.rs]: the same contract as [ScopeStore], kept in Redis.  A
    scope is one JSON document; a client reads it, computes its successor and hands
    both to a script, which the server runs atomically and which refuses when the
    document has changed in between.  Beside the documents the script keeps the
    claims of the operations and exact accounts of what every scope uses.  JSON
    writes and reads back what it is given, so that a document and its text are not
    told apart; the length of the text is a parameter.  The accounts are integers
    below [2^53], which the numbers of the script hold exactly.  Times are in
    microseconds.  Every command may fail, or take effect without being heard; the
    fence of the role is part of what the outside decides. *)

From S2P Require Import Prelude Json Uuid Sha256 ScopeStore Programs Workers.

(** ** Documents *)

Record StoredMetrics := mkMetrics {
  m_used_bytes : Z;
  m_namespace_records : Z;
  m_scope_values : Z;
  m_operation_records : Z;
  m_snapshots : Z;
  m_archive_commits : Z
}.

Definition no_metrics : StoredMetrics := mkMetrics 0 0 0 0 0 0.

Inductive StoredScopeState := Stored_Active | Stored_Snapshotted | Stored_Cleaned.

Record StoredValue := mkStoredValue {
  v_value_identity : string;
  v_envelope : bytes;
  v_created_at : Z;
  v_updated_at : Z
}.

Record StoredSnapshot := mkStoredSnapshot {
  ss_bytes : bytes;
  ss_digest : string;
  ss_row_count : Z;
  ss_value_bytes : Z
}.

Record StoredArchiveCommit := mkArchiveCommit {
  ac_snapshot_digest : string;
  ac_archive_identity_digest : string
}.

Record StoredScope (Uuid : Type) := mkStoredScope {
  st_protocol_version : Z;
  st_scope_id : Uuid;
  st_namespace : string;
  st_run_id : string;
  st_creation_claim_id : Uuid;
  st_creation_request_digest : string;
  st_state : StoredScopeState;
  st_created_at : Z;
  st_updated_at : Z;
  st_values : gmap string StoredValue;
  st_snapshot : option StoredSnapshot;
  st_archive_commit : option StoredArchiveCommit
}.
Arguments mkStoredScope {Uuid}. Arguments st_protocol_version {Uuid}. Arguments st_scope_id {Uuid}.
Arguments st_namespace {Uuid}. Arguments st_run_id {Uuid}. Arguments st_creation_claim_id {Uuid}.
Arguments st_creation_request_digest {Uuid}. Arguments st_state {Uuid}. Arguments st_created_at {Uuid}.
Arguments st_updated_at {Uuid}. Arguments st_values {Uuid}. Arguments st_snapshot {Uuid}.
Arguments st_archive_commit {Uuid}.

#[global] Instance metrics_eq_dec : EqDecision StoredMetrics.
Proof. solve_decision. Defined.
#[global] Instance stored_state_eq_dec : EqDecision StoredScopeState.
Proof. solve_decision. Defined.
#[global] Instance stored_value_eq_dec : EqDecision StoredValue.
Proof. solve_decision. Defined.
#[global] Instance stored_snapshot_eq_dec : EqDecision StoredSnapshot.
Proof. solve_decision. Defined.
#[global] Instance archive_commit_eq_dec : EqDecision StoredArchiveCommit.
Proof. solve_decision. Defined.
#[global] Instance stored_scope_eq_dec {Uuid} `{!EqDecision Uuid} : EqDecision (StoredScope Uuid).
Proof. solve_decision. Defined.

(** ** Configuration *)

Record RedisScopeStoreConfig := mkScopeConfig {
  formation_namespace : string;
  soft_limit_bytes : Z;
  hard_limit_bytes : Z;
  hard_limit_scopes : Z;
  hard_limit_values : Z
}.

Definition DEFAULT_SOFT_LIMIT_BYTES : Z := 192 * 1024 * 1024.
Definition DEFAULT_HARD_LIMIT_BYTES : Z := 256 * 1024 * 1024.
Definition DEFAULT_HARD_LIMIT_SCOPES : Z := 32768.
Definition DEFAULT_HARD_LIMIT_VALUES : Z := 1048576.
Definition MAX_FORMATION_NAMESPACE_BYTES : Z := 127.
Definition OPERATION_ACCOUNTED_BYTES : Z := 96.

Definition RedisScopeStoreConfig_new (namespace : string) : RedisScopeStoreConfig :=
  mkScopeConfig namespace DEFAULT_SOFT_LIMIT_BYTES DEFAULT_HARD_LIMIT_BYTES DEFAULT_HARD_LIMIT_SCOPES
    DEFAULT_HARD_LIMIT_VALUES.

(** [is_ascii_alphanumeric], or one of [-_.] *)
Definition namespace_byte (c : ascii) : bool :=
  let n := nat_of_ascii c in
  (48 <=? n) && (n <=? 57) || (65 <=? n) && (n <=? 90) || (97 <=? n) && (n <=? 122) ||
  bool_decide (c ∈ ["-"; "_"; "."]%char).

Inductive RedisScopeStoreError :=
| InvalidConfiguration
| InvalidOperation
| IdentityConflict
| CapacityFenced
| ArchiveNotCommitted
| RedisCorruptScope
| RedisBound (b : ScopeBoundViolation)
| Accounting
| Unavailable
| Durability_Mutation
| Durability_Fsync.

Definition config_validate (c : RedisScopeStoreConfig) : result unit RedisScopeStoreError :=
  ensure (negb (bool_decide (formation_namespace c = "")) &&
          (str_len (formation_namespace c) <=? MAX_FORMATION_NAMESPACE_BYTES)%Z &&
          forallb namespace_byte (String.list_ascii_of_string (formation_namespace c)) &&
          negb (soft_limit_bytes c =? 0)%Z && (soft_limit_bytes c <? hard_limit_bytes c)%Z &&
          negb (hard_limit_scopes c =? 0)%Z && negb (hard_limit_values c =? 0)%Z) InvalidConfiguration.

(** ** Checks and digests *)

Definition u64_max : Z := 2 ^ 64 - 1.
Definition checked_u64 (n : Z) : result Z RedisScopeStoreError :=
  if (n <=? u64_max)%Z then Ok n else Err Accounting.

Definition validate_scope_identity (namespace run_id : string) : result unit RedisScopeStoreError :=
  ensure (negb (bool_decide (namespace = "")) && (str_len namespace <=? MAX_NAMESPACE_BYTES)%Z &&
          negb (bool_decide (run_id = "")) && (str_len run_id <=? MAX_RUN_ID_BYTES)%Z) InvalidOperation.

Definition validate_key (key : string) : result unit RedisScopeStoreError :=
  ensure (valid_key key) InvalidOperation.

(** The entries of a [BTreeMap], in the order of their keys. *)
Definition entries (values : gmap string StoredValue) : list (string * StoredValue) :=
  sort_by (λ a b, string_leb a.1 b.1) (map_to_list values).

Definition value_bytes (values : gmap string StoredValue) : Z :=
  sum_by (λ kv, len (v_envelope kv.2)) (entries values).

Fixpoint first_large (values : list (string * StoredValue)) : option ScopeBoundViolation :=
  match values with
  | [] => None
  | (key, v) :: rest =>
      if (MAX_SCOPE_VALUE_BYTES <? len (v_envelope v))%Z
      then Some (Bound_ValueBytes key (len (v_envelope v)) MAX_SCOPE_VALUE_BYTES)
      else first_large rest
  end.

Definition stored_bounds (values : gmap string StoredValue) : option ScopeBoundViolation :=
  let count := Z.of_nat (length (entries values)) in
  if (MAX_SCOPE_ROWS <? count)%Z then Some (Bound_ScopeRows count MAX_SCOPE_ROWS)
  else match first_large (entries values) with
  | Some bound => Some bound
  | None =>
      if (MAX_SCOPE_BYTES <? value_bytes values)%Z
      then Some (Bound_ScopeBytes (value_bytes values) MAX_SCOPE_BYTES) else None
  end.

Section checks.
Context (parse_json : bytes → option Json).

(** The loop over the values of a request; [seen] are the keys before. *)
Fixpoint check_request (seen : gset string) (values : list ScopeValueInput) : option ScopeMutationRejection :=
  match values with
  | [] => None
  | value :: rest =>
      if negb (valid_key (svi_key value)) || bool_decide (svi_key value ∈ seen)
      then Some (Mutation_Envelope (svi_key value) Envelope_Malformed)
      else if (MAX_SCOPE_VALUE_BYTES <? len (svi_envelope value))%Z
      then Some (Mutation_Bound (Bound_ValueBytes (svi_key value) (len (svi_envelope value)) MAX_SCOPE_VALUE_BYTES))
      else match validate_envelope parse_json (svi_envelope value) with
           | Err reason => Some (Mutation_Envelope (svi_key value) reason)
           | Ok _ => check_request ({[svi_key value]} ∪ seen) rest
           end
  end.

Definition validate_mutation (values : list ScopeValueInput) (allow_empty : bool) : option ScopeMutationRejection :=
  match values with
  | [] => if allow_empty then None else Some EmptyRequest
  | _ =>
      let count := Z.of_nat (length values) in
      let request_bytes := sum_by (λ v, len (svi_envelope v)) values in
      if (MAX_SCOPE_REQUEST_VALUES <? count)%Z
      then Some (Mutation_Bound (Bound_RequestValues count MAX_SCOPE_REQUEST_VALUES))
      else if (MAX_SCOPE_REQUEST_BYTES <? request_bytes)%Z
      then Some (Mutation_Bound (Bound_RequestBytes request_bytes MAX_SCOPE_REQUEST_BYTES))
      else check_request ∅ values
  end.
End checks.

(** ** The store *)

Section redis.
Context `{UuidOps Uuid} `{!Countable Uuid}.
Context (uuid_bytes : Uuid → bytes) (parse_json : bytes → option Json) (from_utf8 : bytes → option string).
(** The length of the JSON text of a scope. *)
Context (encoded_len : StoredScope Uuid → Z).

Abbreviation scope := (StoredScope Uuid).

Definition mutation_digest (scope_id : Uuid) (values : list ScopeValueInput) : result string RedisScopeStoreError :=
  let? _ := map_err (λ _, InvalidOperation) (check_keys ∅ values) in
  Ok (sha256_hex (mutation_bytes uuid_bytes scope_id values)).

Definition delete_digest (scope_id : Uuid) (key : string) : string := sha256_hex (delete_bytes uuid_bytes scope_id key).

Definition value_identity (scope_id : Uuid) (key : string) (envelope : bytes) : string :=
  sha256_hex (uuid_bytes scope_id ++ len_prefixed (bytes_of key) ++ len_prefixed envelope).

Definition claim_identity (claim_id : Uuid) : string := "claim:" +:+ uuid_to_string claim_id.
Definition snapshot_identity (scope_id : Uuid) : string := "snapshot:" +:+ uuid_to_string scope_id.
Definition archive_operation (scope_id : Uuid) : string := "archive:" +:+ uuid_to_string scope_id.
Definition cleanup_identity (scope_id : Uuid) : string := "cleanup:" +:+ uuid_to_string scope_id.

Definition owner_identity (namespace run_id : string) : string :=
  sha256_hex (len_prefixed (bytes_of namespace) ++ len_prefixed (bytes_of run_id)).

Definition create_payload (scope_id : Uuid) (namespace run_id digest : string) : bytes :=
  uuid_bytes scope_id ++ len_prefixed (bytes_of namespace) ++ len_prefixed (bytes_of run_id) ++
  len_prefixed (bytes_of digest).

Definition mutation_payload (kind : string) (scope_id : Uuid) (digest : string) : bytes :=
  uuid_bytes scope_id ++ len_prefixed (bytes_of kind) ++ len_prefixed (bytes_of digest).

Definition archive_payload (scope_id : Uuid) (snapshot_digest : string) (archive_identity : bytes) : bytes :=
  uuid_bytes scope_id ++ len_prefixed (bytes_of snapshot_digest) ++ len_prefixed archive_identity.

(** *** Snapshots *)

Definition snapshot_bytes (values : gmap string StoredValue) : bytes :=
  SNAPSHOT_MAGIC ++ to_be_bytes 4 (Z.of_nat (length (entries values))) ++
  mjoin ((λ kv, encode_value kv.1 (v_envelope kv.2)) <$> entries values).

Definition snapshot_from_values (scope_id : Uuid) (values : gmap string StoredValue)
    : result (TickrCtxScopeSnapshot Uuid) RedisScopeStoreError :=
  match stored_bounds values with
  | Some bound => Err (RedisBound bound)
  | None =>
      Ok (mkSnapshot scope_id (snapshot_bytes values) (sha256_hex (snapshot_bytes values))
            (Z.of_nat (length (entries values))) (value_bytes values))
  end.

Definition read_snapshot_u32 (rest : bytes) : option (Z * bytes) :=
  if bool_decide (4 ≤ length rest) then Some (from_be_bytes (take 4 rest), drop 4 rest) else None.

Definition read_snapshot_part (rest : bytes) : option (bytes * bytes) :=
  '(length_, rest) ← read_snapshot_u32 rest;
  if (length_ <=? len rest)%Z then Some (take (Z.to_nat length_) rest, drop (Z.to_nat length_) rest) else None.

(** The loop of [validate_snapshot]: how many bytes the envelopes have. *)
Fixpoint check_rows (count : nat) (previous : option string) (rest : bytes) : option (Z * bytes) :=
  match count with
  | O => Some (0%Z, rest)
  | S count =>
      '(key_bytes, rest) ← read_snapshot_part rest;
      key ← from_utf8 key_bytes;
      if negb (valid_key key) || match previous with Some p => string_leb key p | None => false end then None
      else
        '(envelope, rest) ← read_snapshot_part rest;
        match validate_envelope parse_json envelope with
        | Err _ => None
        | Ok _ => '(total, rest) ← check_rows count (Some key) rest; Some ((len envelope + total)%Z, rest)
        end
  end.

Definition validate_snapshot (s : StoredSnapshot) : result unit RedisScopeStoreError :=
  let? _ := ensure (starts_with_magic (ss_bytes s) && bool_decide (sha256_hex (ss_bytes s) = ss_digest s) &&
                    (ss_row_count s <=? MAX_SCOPE_ROWS)%Z && (ss_value_bytes s <=? MAX_SCOPE_BYTES)%Z)
                   RedisCorruptScope in
  let? (row_count, rest) := ok_or (read_snapshot_u32 (drop (length SNAPSHOT_MAGIC) (ss_bytes s))) RedisCorruptScope in
  let? _ := ensure (row_count =? ss_row_count s)%Z RedisCorruptScope in
  let? (total, rest) := ok_or (check_rows (Z.to_nat row_count) None rest) RedisCorruptScope in
  ensure (bool_decide (rest = []) && (total =? ss_value_bytes s)%Z) RedisCorruptScope.

Definition public (scope_id : Uuid) (s : StoredSnapshot) : TickrCtxScopeSnapshot Uuid :=
  mkSnapshot scope_id (ss_bytes s) (ss_digest s) (ss_row_count s) (ss_value_bytes s).

Definition public_snapshot (sc : scope) : result (TickrCtxScopeSnapshot Uuid) RedisScopeStoreError :=
  let? s := ok_or (st_snapshot sc) RedisCorruptScope in
  let? _ := validate_snapshot s in
  Ok (public (st_scope_id sc) s).

Definition cleaned_proof (sc : scope) : scope :=
  mkStoredScope (st_protocol_version sc) (st_scope_id sc) (st_namespace sc) (st_run_id sc)
    (st_creation_claim_id sc) (st_creation_request_digest sc) Stored_Cleaned (st_created_at sc)
    (st_updated_at sc) ∅ (st_snapshot sc) (st_archive_commit sc).

Definition with_values (values : gmap string StoredValue) (now : Z) (sc : scope) : scope :=
  mkStoredScope (st_protocol_version sc) (st_scope_id sc) (st_namespace sc) (st_run_id sc)
    (st_creation_claim_id sc) (st_creation_request_digest sc) (st_state sc) (st_created_at sc)
    now values (st_snapshot sc) (st_archive_commit sc).

Definition with_snapshot (s : StoredSnapshot) (now : Z) (sc : scope) : scope :=
  mkStoredScope (st_protocol_version sc) (st_scope_id sc) (st_namespace sc) (st_run_id sc)
    (st_creation_claim_id sc) (st_creation_request_digest sc) Stored_Snapshotted (st_created_at sc)
    now (st_values sc) (Some s) (st_archive_commit sc).

Definition with_archive (c : StoredArchiveCommit) (now : Z) (sc : scope) : scope :=
  mkStoredScope (st_protocol_version sc) (st_scope_id sc) (st_namespace sc) (st_run_id sc)
    (st_creation_claim_id sc) (st_creation_request_digest sc) (st_state sc) (st_created_at sc)
    now (st_values sc) (st_snapshot sc) (Some c).

Definition at_time (now : Z) (sc : scope) : scope := with_values (st_values sc) now sc.

Definition public_state (s : StoredScopeState) : TickrCtxScopeState :=
  match s with
  | Stored_Active => Scope_Active
  | Stored_Snapshotted => Scope_Snapshotted
  | Stored_Cleaned => Scope_Cleaned
  end.

(** [archive_identity] has the digest that was recorded. *)
Definition verify_archive_evidence (sc : scope) (snapshot_digest : string) (archive_identity : bytes)
    : result unit RedisScopeStoreError :=
  let? s := public_snapshot sc in
  ensure (bool_decide (snap_digest s = snapshot_digest) &&
          bool_decide (st_archive_commit sc = Some (mkArchiveCommit snapshot_digest (sha256_hex archive_identity))))
         ArchiveNotCommitted.

(** ** Accounts *)

Definition metrics_for (sc : scope) (operation_records : Z) : StoredMetrics :=
  mkMetrics (encoded_len sc + operation_records * OPERATION_ACCOUNTED_BYTES) 1
    (Z.of_nat (size (st_values sc))) operation_records
    (if st_snapshot sc then 1 else 0) (if st_archive_commit sc then 1 else 0).

Definition for_scope (sc : scope) (operation_records : Z) : result StoredMetrics RedisScopeStoreError :=
  let m := metrics_for sc operation_records in
  let? _ := checked_u64 (operation_records * OPERATION_ACCOUNTED_BYTES) in
  let? _ := checked_u64 (m_used_bytes m) in Ok m.

Definition metrics_add (a b : StoredMetrics) : StoredMetrics :=
  mkMetrics (m_used_bytes a + m_used_bytes b) (m_namespace_records a + m_namespace_records b)
    (m_scope_values a + m_scope_values b) (m_operation_records a + m_operation_records b)
    (m_snapshots a + m_snapshots b) (m_archive_commits a + m_archive_commits b).

Definition metrics_sub (a b : StoredMetrics) : StoredMetrics :=
  mkMetrics (m_used_bytes a - m_used_bytes b) (m_namespace_records a - m_namespace_records b)
    (m_scope_values a - m_scope_values b) (m_operation_records a - m_operation_records b)
    (m_snapshots a - m_snapshots b) (m_archive_commits a - m_archive_commits b).

Definition metrics_fields (m : StoredMetrics) : list Z :=
  [m_used_bytes m; m_namespace_records m; m_scope_values m; m_operation_records m; m_snapshots m; m_archive_commits m].

(** No field of [a] is below the one of [b]. *)
Definition covers (a b : StoredMetrics) : bool :=
  forallb (λ p, (p.2 <=? p.1)%Z) (zip (metrics_fields a) (metrics_fields b)).

(** [checked_add]: [None] past [u64::MAX]. *)
Definition metrics_checked_add (a b : StoredMetrics) : option StoredMetrics :=
  let m := metrics_add a b in
  if forallb (λ n, (n <=? u64_max)%Z) (metrics_fields m) then Some m else None.

(** ** The keyspace and the script *)

Record ScopeKeyspace := mkKeyspace {
  ks_scopes : gmap Uuid scope;
  ks_metrics : gmap Uuid StoredMetrics;
  ks_quota : StoredMetrics;
  ks_owners : gmap string Uuid;
  ks_claims : gmap string (Uuid * string);
  ks_cleaned : gmap Uuid scope
}.

Definition empty_keyspace : ScopeKeyspace := mkKeyspace ∅ ∅ no_metrics ∅ ∅ ∅.

Inductive MutationKind := Mutate_Create | Mutate_Write | Mutate_Delete | Mutate_Snapshot | Mutate_Archive | Mutate_Cleanup.

#[global] Instance mutation_kind_eq_dec : EqDecision MutationKind.
Proof. solve_decision. Defined.

Definition enforces_admission_limit (k : MutationKind) : bool :=
  match k with Mutate_Create | Mutate_Write => true | _ => false end.

Inductive MutationStatus :=
| Status_Applied
| Status_Replayed
| Status_ReplayedCleanup
| Status_Fenced
| Status_ClaimConflict
| Status_Collision (existing : Uuid)
| Status_Missing
| Status_Cleaned
| Status_Stale
| Status_Accounting.

(** An empty argument of the script is [None]. *)
Record ScriptMutation := mkScriptMutation {
  sm_kind : MutationKind;
  sm_operation_identity : string;
  sm_operation_fingerprint : string;
  sm_scope_id : Uuid;
  sm_owner_identity : string;
  sm_expected_state : option scope;
  sm_next_state : scope;
  sm_expected_metrics : option StoredMetrics;
  sm_next_metrics : option StoredMetrics
}.

Definition ScriptMutation_new (kind : MutationKind) (operation_identity : string) (stable_payload : bytes)
    (scope_id : Uuid) (owner : string) (current : option (scope * StoredMetrics)) (next : scope)
    : result ScriptMutation RedisScopeStoreError :=
  let? operation_records :=
    match current with
    | Some (_, m) => checked_u64 (m_operation_records m + 1)
    | None => Ok 1%Z
    end in
  let? next_metrics :=
    if bool_decide (kind = Mutate_Cleanup) then Ok None
    else let? m := for_scope next operation_records in Ok (Some m) in
  Ok (mkScriptMutation kind operation_identity (sha256_hex stable_payload) scope_id owner
        (fst <$> current) next (snd <$> current) next_metrics).

Section script.
Context (config : RedisScopeStoreConfig) (m : ScriptMutation).

Definition claim_value : Uuid * string := (sm_scope_id m, sm_operation_fingerprint m).

Definition apply_cleanup (old : StoredMetrics) (s : ScopeKeyspace) : ScopeKeyspace :=
  mkKeyspace (delete (sm_scope_id m) (ks_scopes s)) (delete (sm_scope_id m) (ks_metrics s))
    (metrics_sub (ks_quota s) old) (ks_owners s)
    (<[sm_operation_identity m := claim_value]> (ks_claims s))
    (<[sm_scope_id m := sm_next_state m]> (ks_cleaned s)).

Definition apply_mutation (old new : StoredMetrics) (s : ScopeKeyspace) : ScopeKeyspace :=
  mkKeyspace (<[sm_scope_id m := sm_next_state m]> (ks_scopes s)) (<[sm_scope_id m := new]> (ks_metrics s))
    (metrics_add (metrics_sub (ks_quota s) old) new)
    (if bool_decide (sm_kind m = Mutate_Create)
     then <[sm_owner_identity m := sm_scope_id m]> (ks_owners s) else ks_owners s)
    (<[sm_operation_identity m := claim_value]> (ks_claims s)) (ks_cleaned s).

(** From the point where the document is the expected one. *)
Definition script_commit (s : ScopeKeyspace) : MutationStatus * ScopeKeyspace :=
  let old := ks_metrics s !! sm_scope_id m in
  if bool_decide (sm_kind m = Mutate_Cleanup) then
    match ks_scopes s !! sm_scope_id m, old with
    | Some _, Some old => if covers (ks_quota s) old then (Status_Cleaned, apply_cleanup old s) else (Status_Accounting, s)
    | _, _ => (Status_Accounting, s)
    end
  else
    match sm_next_metrics m with
    | None => (Status_Accounting, s)
    | Some new =>
        let old := default no_metrics old in
        if negb (covers (ks_quota s) old) then (Status_Accounting, s)
        else
          let projected := metrics_add (metrics_sub (ks_quota s) old) new in
          if enforces_admission_limit (sm_kind m) &&
             ((hard_limit_bytes config <? m_used_bytes projected)%Z ||
              (hard_limit_scopes config <? m_namespace_records projected)%Z ||
              (hard_limit_values config <? m_scope_values projected)%Z)
          then (Status_Fenced, s)
          else (Status_Applied, apply_mutation old new s)
    end.

(** The owner of a creation is another scope, or the document is not there. *)
Definition script_refusal (s : ScopeKeyspace) : option MutationStatus :=
  if bool_decide (sm_kind m = Mutate_Create) then
    match ks_owners s !! sm_owner_identity m with
    | Some owner => if bool_decide (owner = sm_scope_id m) then None else Some (Status_Collision owner)
    | None => None
    end
  else if bool_decide (ks_scopes s !! sm_scope_id m = None) then Some Status_Missing else None.

Definition scope_store_script (s : ScopeKeyspace) : MutationStatus * ScopeKeyspace :=
  match ks_claims s !! sm_operation_identity m with
  | Some prior =>
      (if bool_decide (prior = claim_value) then
         if bool_decide (sm_kind m = Mutate_Cleanup)
         then if bool_decide (ks_cleaned s !! sm_scope_id m = None) then Status_Accounting else Status_ReplayedCleanup
         else Status_Replayed
       else Status_ClaimConflict, s)
  | None =>
      if bool_decide (is_Some (ks_cleaned s !! sm_scope_id m)) then (Status_Cleaned, s)
      else
        match script_refusal s with
        | Some status => (status, s)
        | None =>
            if negb (bool_decide (ks_scopes s !! sm_scope_id m = sm_expected_state m)) then (Status_Stale, s)
            else if negb (bool_decide (ks_metrics s !! sm_scope_id m = sm_expected_metrics m)) then (Status_Accounting, s)
            else script_commit s
        end
  end.
End script.

(** ** Commands *)

Inductive RedisQuotaPressure := BelowSoftThreshold | SoftThreshold | HardLimit.

Record RedisScopeStoreQuotaState := mkQuotaState { q_metrics : StoredMetrics; q_pressure : RedisQuotaPressure }.

(** What the role is told: an account that does not add up, or the use of the quota. *)
Inductive Report :=
| Report_Accounting
| Report_Quota (q : RedisScopeStoreQuotaState).

Context (config : RedisScopeStoreConfig).

Abbreviation await := (Await ScopeKeyspace Report Empty_set Uuid).
Abbreviation failure := (RepositoryError Empty_set).
Abbreviation program A := (prog await failure A).
Abbreviation answer A := (program (result A RedisScopeStoreError)).

Definition report (r : Report) : program unit := let* _ := call (Send r) in Ret tt.
Definition accounting_failure {A} : answer A := let* _ := report Report_Accounting in Ret (Err Accounting).
Definition corrupt_scope {A} : answer A := let* _ := report Report_Accounting in Ret (Err RedisCorruptScope).

(** A command that reads. *)
Definition command {X} (f : ScopeKeyspace → X) : answer X :=
  let* r := call (Transact (λ _ s, Ok (f s, s))) in
  Ret (map_err (λ _, Unavailable) r).

(** The fence is open, and of the generation that was admitted. *)
Definition guard : answer unit := command (λ _, tt).
Definition guard_existing_commit : answer unit := let*? _ := guard in guard.

Inductive LoadedScope :=
| Loaded_Current (sc : scope) (metrics : StoredMetrics)
| Loaded_Cleaned (sc : scope)
| Loaded_Missing.

(** What a document of a scope must be. *)
Definition well_formed (scope_id : Uuid) (sc : scope) : bool :=
  (st_protocol_version sc =? TICKR_CTX_SCOPE_PROTOCOL_VERSION)%Z &&
  bool_decide (st_scope_id sc = scope_id) &&
  is_ok (validate_scope_identity (st_namespace sc) (st_run_id sc)) &&
  forallb (λ kv, valid_key kv.1 && is_ok (validate_envelope parse_json (v_envelope kv.2)) &&
                 bool_decide (v_value_identity kv.2 = value_identity scope_id kv.1 (v_envelope kv.2)))
          (entries (st_values sc)).

Definition phase_well_formed (scope_id : Uuid) (sc : scope) : bool :=
  match st_state sc with
  | Stored_Active => bool_decide (st_snapshot sc = None) && bool_decide (st_archive_commit sc = None)
  | Stored_Snapshotted =>
      match public_snapshot sc, snapshot_from_values scope_id (st_values sc) with
      | Ok found, Ok expected =>
          bool_decide (snap_bytes found = snap_bytes expected) && bool_decide (snap_digest found = snap_digest expected) &&
          (snap_row_count found =? snap_row_count expected)%Z && (snap_value_bytes found =? snap_value_bytes expected)%Z
      | _, _ => false
      end
  | Stored_Cleaned =>
      bool_decide (st_values sc = ∅) && is_ok (public_snapshot sc) && bool_decide (is_Some (st_archive_commit sc))
  end.

Definition decode_scope (scope_id : Uuid) (sc : scope) (cleaned : bool) : answer scope :=
  if well_formed scope_id sc && Bool.eqb cleaned (bool_decide (st_state sc = Stored_Cleaned)) &&
     phase_well_formed scope_id sc
  then Ret (Ok sc) else corrupt_scope.

(** A pipeline is not a transaction: its three commands are three reads. *)
Definition load (scope_id : Uuid) : answer LoadedScope :=
  let*? current := command (λ s, ks_scopes s !! scope_id) in
  let*? cleaned := command (λ s, ks_cleaned s !! scope_id) in
  let*? metrics := command (λ s, ks_metrics s !! scope_id) in
  match current, cleaned, metrics with
  | Some _, Some _, _ => accounting_failure
  | Some current, None, Some metrics =>
      let*? sc := decode_scope scope_id current false in
      match for_scope sc (m_operation_records metrics) with
      | Err e => Ret (Err e)
      | Ok expected =>
          if bool_decide (metrics = expected) then Ret (Ok (Loaded_Current sc metrics)) else accounting_failure
      end
  | None, Some cleaned, None => let*? sc := decode_scope scope_id cleaned true in Ret (Ok (Loaded_Cleaned sc))
  | None, None, None => Ret (Ok Loaded_Missing)
  | _, _, _ => accounting_failure
  end.

Inductive ClaimStatus := Claim_Missing | Claim_Matching | Claim_Conflict.

Definition claim_status (operation_identity : string) (scope_id : Uuid) (stable_payload : bytes) : answer ClaimStatus :=
  let*? actual := command (λ s, ks_claims s !! operation_identity) in
  match actual with
  | None => Ret (Ok Claim_Missing)
  | Some prior =>
      if bool_decide (prior = (scope_id, sha256_hex stable_payload)) then
        let*? loaded := load scope_id in
        match loaded with
        | Loaded_Missing => accounting_failure
        | _ => Ret (Ok Claim_Matching)
        end
      else Ret (Ok Claim_Conflict)
  end.

Definition quota_from (m : StoredMetrics) : RedisScopeStoreQuotaState :=
  mkQuotaState m
    (if (hard_limit_bytes config <=? m_used_bytes m)%Z || (hard_limit_scopes config <=? m_namespace_records m)%Z ||
        (hard_limit_values config <=? m_scope_values m)%Z then HardLimit
     else if (soft_limit_bytes config <=? m_used_bytes m)%Z then SoftThreshold else BelowSoftThreshold).

(** The script, and the proof that the primary has it on its disk. *)
Definition commit_mutation (m : ScriptMutation) : answer (MutationStatus * StoredMetrics) :=
  let* applied := call (Transact (λ _ s, let '(status, s') := scope_store_script config m s in
                                        Ok ((status, ks_quota s'), s'))) in
  match applied with
  | Err _ => Ret (Err Durability_Mutation)
  | Ok output =>
      let* fsync := call (Transact (λ _ s, Ok (tt, s))) in
      match fsync with Err _ => Ret (Err Durability_Fsync) | Ok _ => Ret (Ok output) end
  end.

Definition finish_operation (quota : StoredMetrics) : answer unit :=
  let* _ := report (Report_Quota (quota_from quota)) in guard.

Definition status_error {A} (status : MutationStatus) : answer A :=
  match status with
  | Status_Fenced => Ret (Err CapacityFenced)
  | Status_ClaimConflict | Status_Collision _ => Ret (Err IdentityConflict)
  | Status_Missing | Status_Cleaned | Status_Stale => Ret (Err Unavailable)
  | Status_Accounting => accounting_failure
  | Status_Applied | Status_Replayed | Status_ReplayedCleanup => Ret (Err Accounting)
  end.

(** Admission, the script, the report: the status it ends with. *)
Definition mutate (kind : MutationKind) (operation_identity : string) (stable_payload : bytes) (scope_id : Uuid)
    (owner : string) (current : option (scope * StoredMetrics)) (next : scope) : answer MutationStatus :=
  let*? _ := guard in
  match ScriptMutation_new kind operation_identity stable_payload scope_id owner current next with
  | Err e => Ret (Err e)
  | Ok m =>
      let*? output := commit_mutation m in
      let*? _ := finish_operation output.2 in
      Ret (Ok output.1)
  end.

(** ** Operations *)

Definition new_value (scope_id : Uuid) (created_at now : Z) (v : ScopeValueInput) : StoredValue :=
  mkStoredValue (value_identity scope_id (svi_key v) (svi_envelope v)) (svi_envelope v) created_at now.

Definition write_value (scope_id : Uuid) (now : Z) (values : gmap string StoredValue) (v : ScopeValueInput)
    : gmap string StoredValue :=
  <[svi_key v := new_value scope_id (match values !! svi_key v with Some old => v_created_at old | None => now end) now v]> values.

(** The loop of [write_tickr_ctx_scope]: how many values are new, how many were there. *)
Fixpoint write_values (scope_id : Uuid) (now : Z) (inputs : list ScopeValueInput) (values : gmap string StoredValue)
    (inserted updated : nat) : gmap string StoredValue * nat * nat :=
  match inputs with
  | [] => (values, inserted, updated)
  | v :: rest =>
      let there := bool_decide (is_Some (values !! svi_key v)) in
      write_values scope_id now rest (write_value scope_id now values v)
        (if there then inserted else S inserted) (if there then S updated else updated)
  end.

Definition created_scope (input : CreateTickrCtxScopeInput Uuid) (digest : string) : scope :=
  mkStoredScope TICKR_CTX_SCOPE_PROTOCOL_VERSION (ci_scope_id input) (ci_namespace input) (ci_run_id input)
    (ci_claim_id input) digest Stored_Active (ci_now input) (ci_now input)
    (foldl (λ t v, <[svi_key v := new_value (ci_scope_id input) (ci_now input) (ci_now input) v]> t) ∅ (ci_values input))
    None None.

Definition create_tickr_ctx_scope (input : CreateTickrCtxScopeInput Uuid) : answer (ScopeCreationOutcome (Uuid := Uuid)) :=
  match validate_scope_identity (ci_namespace input) (ci_run_id input),
        mutation_digest (ci_scope_id input) (ci_values input) with
  | Err e, _ | _, Err e => Ret (Err e)
  | Ok _, Ok request_digest =>
      match validate_mutation parse_json (ci_values input) true with
      | Some rejection => Ret (Ok (Creation_Rejected rejection))
      | None =>
          let operation := claim_identity (ci_claim_id input) in
          let payload := create_payload (ci_scope_id input) (ci_namespace input) (ci_run_id input) request_digest in
          let*? claim := claim_status operation (ci_scope_id input) payload in
          match claim with
          | Claim_Matching => let*? _ := guard_existing_commit in Ret (Ok Creation_Idempotent)
          | Claim_Conflict => Ret (Ok Creation_ClaimConflict)
          | Claim_Missing =>
              let*? loaded := load (ci_scope_id input) in
              match loaded with
              | Loaded_Current existing _ | Loaded_Cleaned existing =>
                  if bool_decide (st_creation_claim_id existing = ci_claim_id input) &&
                     bool_decide (st_namespace existing = ci_namespace input) &&
                     bool_decide (st_run_id existing = ci_run_id input) &&
                     bool_decide (st_creation_request_digest existing = request_digest)
                  then let*? _ := guard_existing_commit in Ret (Ok Creation_Idempotent)
                  else Ret (Ok (Creation_Collision (st_scope_id existing)))
              | Loaded_Missing =>
                  let*? status := mutate Mutate_Create operation payload (ci_scope_id input)
                    (owner_identity (ci_namespace input) (ci_run_id input)) None (created_scope input request_digest) in
                  match status with
                  | Status_Applied => Ret (Ok Creation_Created)
                  | Status_Replayed => Ret (Ok Creation_Idempotent)
                  | Status_ClaimConflict => Ret (Ok Creation_ClaimConflict)
                  | Status_Collision existing => Ret (Ok (Creation_Collision existing))
                  | status => status_error status
                  end
              end
          end
      end
  end.

(** [for _ in 0..4] *)
Definition ATTEMPTS : nat := 4.

Fixpoint write_loop (attempts : nat) (input : WriteTickrCtxScopeInput Uuid) (operation : string) (payload : bytes)
    : answer (ScopeWriteOutcome (Uuid := Uuid)) :=
  match attempts with
  | O => Ret (Err Unavailable)
  | S attempts =>
      let*? loaded := load (wi_scope_id input) in
      match loaded with
      | Loaded_Cleaned _ | Loaded_Missing => Ret (Ok Write_Missing)
      | Loaded_Current current metrics =>
          if negb (bool_decide (st_state current = Stored_Active))
          then Ret (Ok (Write_NotWritable (public_state (st_state current))))
          else
          match age_bound (st_created_at current) (wi_now input) with
          | Some bound => Ret (Ok (Write_Rejected (Mutation_Bound bound)))
          | None =>
              let '(values, inserted, updated) :=
                write_values (wi_scope_id input) (wi_now input) (wi_values input) (st_values current) 0 0 in
              match stored_bounds values with
              | Some bound => Ret (Ok (Write_Rejected (Mutation_Bound bound)))
              | None =>
                  let*? status := mutate Mutate_Write operation payload (wi_scope_id input) "" (Some (current, metrics))
                    (with_values values (wi_now input) current) in
                  match status with
                  | Status_Applied => Ret (Ok (Write_Applied inserted updated))
                  | Status_Replayed => Ret (Ok Write_Idempotent)
                  | Status_ClaimConflict => Ret (Ok Write_ClaimConflict)
                  | Status_Stale => write_loop attempts input operation payload
                  | Status_Missing | Status_Cleaned => Ret (Ok Write_Missing)
                  | status => status_error status
                  end
              end
          end
      end
  end.

Definition write_tickr_ctx_scope (input : WriteTickrCtxScopeInput Uuid) : answer (ScopeWriteOutcome (Uuid := Uuid)) :=
  match mutation_digest (wi_scope_id input) (wi_values input) with
  | Err e => Ret (Err e)
  | Ok request_digest =>
      match validate_mutation parse_json (wi_values input) false with
      | Some rejection => Ret (Ok (Write_Rejected rejection))
      | None =>
          let operation := claim_identity (wi_claim_id input) in
          let payload := mutation_payload "write" (wi_scope_id input) request_digest in
          let*? claim := claim_status operation (wi_scope_id input) payload in
          match claim with
          | Claim_Matching => let*? _ := guard_existing_commit in Ret (Ok Write_Idempotent)
          | Claim_Conflict => Ret (Ok Write_ClaimConflict)
          | Claim_Missing => write_loop ATTEMPTS input operation payload
          end
      end
  end.

Fixpoint delete_loop (attempts : nat) (input : DeleteTickrCtxScopeInput Uuid) (operation : string) (payload : bytes)
    : answer (ScopeDeleteOutcome (Uuid := Uuid)) :=
  match attempts with
  | O => Ret (Err Unavailable)
  | S attempts =>
      let*? loaded := load (di_scope_id input) in
      match loaded with
      | Loaded_Cleaned _ | Loaded_Missing => Ret (Ok Delete_Missing)
      | Loaded_Current current metrics =>
          if negb (bool_decide (st_state current = Stored_Active))
          then Ret (Ok (Delete_NotWritable (public_state (st_state current))))
          else
          match age_bound (st_created_at current) (di_now input) with
          | Some bound => Ret (Ok (Delete_Bound bound))
          | None =>
              let*? status := mutate Mutate_Delete operation payload (di_scope_id input) "" (Some (current, metrics))
                (with_values (delete (di_key input) (st_values current)) (di_now input) current) in
              match status with
              | Status_Applied =>
                  Ret (Ok (if bool_decide (is_Some (st_values current !! di_key input))
                           then Delete_Deleted else Delete_MissingKey))
              | Status_Replayed => Ret (Ok Delete_Idempotent)
              | Status_ClaimConflict => Ret (Ok Delete_ClaimConflict)
              | Status_Stale => delete_loop attempts input operation payload
              | Status_Missing | Status_Cleaned => Ret (Ok Delete_Missing)
              | status => status_error status
              end
          end
      end
  end.

Definition delete_tickr_ctx_scope_value (input : DeleteTickrCtxScopeInput Uuid)
    : answer (ScopeDeleteOutcome (Uuid := Uuid)) :=
  match validate_key (di_key input) with
  | Err e => Ret (Err e)
  | Ok _ =>
      let operation := claim_identity (di_claim_id input) in
      let payload := mutation_payload "delete" (di_scope_id input) (delete_digest (di_scope_id input) (di_key input)) in
      let*? claim := claim_status operation (di_scope_id input) payload in
      match claim with
      | Claim_Matching => let*? _ := guard_existing_commit in Ret (Ok Delete_Idempotent)
      | Claim_Conflict => Ret (Ok Delete_ClaimConflict)
      | Claim_Missing => delete_loop ATTEMPTS input operation payload
      end
  end.

(** [ScopeReadOutcome], whose values have the identities of this store. *)
Inductive RedisReadOutcome :=
| RedisRead_Present (values : list (string * StoredValue))
| RedisRead_Archived (snapshot : TickrCtxScopeSnapshot Uuid)
| RedisRead_Missing
| RedisRead_Bound (b : ScopeBoundViolation).

Definition read_tickr_ctx_scope (scope_id : Uuid) (now : Z) : answer RedisReadOutcome :=
  let*? loaded := load scope_id in
  match loaded with
  | Loaded_Missing => Ret (Ok RedisRead_Missing)
  | Loaded_Cleaned sc => Ret (let? s := public_snapshot sc in Ok (RedisRead_Archived s))
  | Loaded_Current sc _ =>
      if bool_decide (st_state sc = Stored_Snapshotted)
      then Ret (let? s := public_snapshot sc in Ok (RedisRead_Archived s))
      else
      match age_bound (st_created_at sc) now with
      | Some bound => Ret (Ok (RedisRead_Bound bound))
      | None =>
          match stored_bounds (st_values sc) with
          | Some bound => Ret (Ok (RedisRead_Bound bound))
          | None => Ret (Ok (RedisRead_Present (entries (st_values sc))))
          end
      end
  end.

(** A snapshot that is there already. *)
Definition archived_already (sc : scope) : answer (ScopeSnapshotOutcome (Uuid := Uuid)) :=
  let*? _ := guard_existing_commit in
  Ret (let? s := public_snapshot sc in Ok (Snapshot_Idempotent s)).

Definition stored_snapshot (s : TickrCtxScopeSnapshot Uuid) : StoredSnapshot :=
  mkStoredSnapshot (snap_bytes s) (snap_digest s) (snap_row_count s) (snap_value_bytes s).

Fixpoint snapshot_loop (attempts : nat) (scope_id : Uuid) (now : Z) : answer (ScopeSnapshotOutcome (Uuid := Uuid)) :=
  match attempts with
  | O => Ret (Err Unavailable)
  | S attempts =>
      let*? loaded := load scope_id in
      match loaded with
      | Loaded_Missing => Ret (Ok Snapshot_Missing)
      | Loaded_Cleaned sc => archived_already sc
      | Loaded_Current current metrics =>
          if bool_decide (st_state current = Stored_Snapshotted) then archived_already current
          else
          match age_bound (st_created_at current) now with
          | Some bound => Ret (Ok (Snapshot_Bound bound))
          | None =>
              match stored_bounds (st_values current) with
              | Some bound => Ret (Ok (Snapshot_Bound bound))
              | None =>
                  match snapshot_from_values scope_id (st_values current) with
                  | Err e => Ret (Err e)
                  | Ok snapshot =>
                      let*? status := mutate Mutate_Snapshot (snapshot_identity scope_id)
                        (mutation_payload "snapshot" scope_id (snap_digest snapshot)) scope_id "" (Some (current, metrics))
                        (with_snapshot (stored_snapshot snapshot) now current) in
                      match status with
                      | Status_Applied => Ret (Ok (Snapshot_Committed snapshot))
                      | Status_Replayed => Ret (Ok (Snapshot_Idempotent snapshot))
                      | Status_Stale => snapshot_loop attempts scope_id now
                      | Status_Missing => Ret (Ok Snapshot_Missing)
                      | status => status_error status
                      end
                  end
              end
          end
      end
  end.

Definition snapshot_tickr_ctx_scope := snapshot_loop ATTEMPTS.

Definition snapshot_tickr_ctx_scope_for_run (namespace run_id : string) (now : Z)
    : answer (ScopeSnapshotOutcome (Uuid := Uuid)) :=
  match validate_scope_identity namespace run_id with
  | Err e => Ret (Err e)
  | Ok _ =>
      let*? owner := command (λ s, ks_owners s !! owner_identity namespace run_id) in
      match owner with
      | None => Ret (Ok Snapshot_Missing)
      | Some scope_id => snapshot_tickr_ctx_scope scope_id now
      end
  end.

Inductive RedisScopeArchiveCommitOutcome := Archive_Recorded | Archive_AlreadyRecorded.

Definition valid_evidence (snapshot_digest : string) (archive_identity : bytes) : bool :=
  bool_decide (String.length snapshot_digest = 64) && negb (bool_decide (archive_identity = [])).

Fixpoint archive_loop (attempts : nat) (scope_id : Uuid) (snapshot_digest : string) (archive_identity : bytes) (now : Z)
    : answer RedisScopeArchiveCommitOutcome :=
  match attempts with
  | O => Ret (Err Unavailable)
  | S attempts =>
      let*? loaded := load scope_id in
      match loaded with
      | Loaded_Cleaned _ | Loaded_Missing => Ret (Err ArchiveNotCommitted)
      | Loaded_Current current metrics =>
          if negb (bool_decide (st_state current = Stored_Snapshotted)) then Ret (Err ArchiveNotCommitted)
          else
          match public_snapshot current with
          | Err e => Ret (Err e)
          | Ok snapshot =>
              if negb (bool_decide (snap_digest snapshot = snapshot_digest)) then Ret (Err IdentityConflict)
              else
              let evidence := mkArchiveCommit snapshot_digest (sha256_hex archive_identity) in
              match st_archive_commit current with
              | Some existing =>
                  if bool_decide (existing = evidence)
                  then let*? _ := guard_existing_commit in Ret (Ok Archive_AlreadyRecorded)
                  else Ret (Err IdentityConflict)
              | None =>
                  let*? status := mutate Mutate_Archive (archive_operation scope_id)
                    (archive_payload scope_id snapshot_digest archive_identity) scope_id "" (Some (current, metrics))
                    (with_archive evidence now current) in
                  match status with
                  | Status_Applied => Ret (Ok Archive_Recorded)
                  | Status_Replayed => Ret (Ok Archive_AlreadyRecorded)
                  | Status_Stale => archive_loop attempts scope_id snapshot_digest archive_identity now
                  | status => status_error status
                  end
              end
          end
      end
  end.

Definition record_verified_archive_commit (scope_id : Uuid) (snapshot_digest : string) (archive_identity : bytes)
    (now : Z) : answer RedisScopeArchiveCommitOutcome :=
  if valid_evidence snapshot_digest archive_identity
  then archive_loop ATTEMPTS scope_id snapshot_digest archive_identity now else Ret (Err InvalidOperation).

Fixpoint cleanup_loop (attempts : nat) (scope_id : Uuid) (snapshot_digest : string) (archive_identity : bytes) (now : Z)
    : answer (ScopeCleanupOutcome (Uuid := Uuid)) :=
  match attempts with
  | O => Ret (Err Unavailable)
  | S attempts =>
      let*? loaded := load scope_id in
      match loaded with
      | Loaded_Missing => Ret (Ok Cleanup_Missing)
      | Loaded_Cleaned sc =>
          match verify_archive_evidence sc snapshot_digest archive_identity with
          | Err e => Ret (Err e)
          | Ok _ => let*? _ := guard_existing_commit in Ret (Ok Cleanup_AlreadyCleaned)
          end
      | Loaded_Current current metrics =>
          if bool_decide (st_state current = Stored_Active) then Ret (Ok Cleanup_SnapshotRequired)
          else
          match verify_archive_evidence current snapshot_digest archive_identity with
          | Err e => Ret (Err e)
          | Ok _ =>
              let*? status := mutate Mutate_Cleanup (cleanup_identity scope_id)
                (archive_payload scope_id snapshot_digest archive_identity) scope_id "" (Some (current, metrics))
                (cleaned_proof (at_time now current)) in
              match status with
              | Status_Cleaned => Ret (Ok Cleanup_Cleaned)
              | Status_ReplayedCleanup => Ret (Ok Cleanup_AlreadyCleaned)
              | Status_Stale => cleanup_loop attempts scope_id snapshot_digest archive_identity now
              | status => status_error status
              end
          end
      end
  end.

Definition cleanup_tickr_ctx_scope (scope_id : Uuid) (snapshot_digest : string) (archive_identity : bytes) (now : Z)
    : answer (ScopeCleanupOutcome (Uuid := Uuid)) :=
  if valid_evidence snapshot_digest archive_identity
  then cleanup_loop ATTEMPTS scope_id snapshot_digest archive_identity now else Ret (Err InvalidOperation).

(** The loop of [quota_state]: the sum of the metrics, each of a scope that is there. *)
Fixpoint sum_metrics (rows : list (Uuid * StoredMetrics)) (exact : StoredMetrics) : answer StoredMetrics :=
  match rows with
  | [] => Ret (Ok exact)
  | (scope_id, m) :: rest =>
      let*? sc := command (λ s, ks_scopes s !! scope_id) in
      match sc with
      | None => accounting_failure
      | Some _ =>
          match metrics_checked_add exact m with
          | None => accounting_failure
          | Some exact => sum_metrics rest exact
          end
      end
  end.

Definition quota_state : answer RedisScopeStoreQuotaState :=
  let* aggregate := command ks_quota in
  match aggregate with
  | Err _ => accounting_failure
  | Ok aggregate =>
      let*? rows := command (λ s, map_to_list (ks_metrics s)) in
      let*? exact := sum_metrics rows no_metrics in
      if bool_decide (exact = aggregate) then
        let* _ := report (Report_Quota (quota_from aggregate)) in Ret (Ok (quota_from aggregate))
      else accounting_failure
  end.

(** [from_connection] *)
Definition connect : answer unit :=
  match config_validate config with
  | Err e => Ret (Err e)
  | Ok _ => let*? _ := quota_state in Ret (Ok tt)
  end.
End redis.
