(* ===== verification/RedisScopeFacts.v ===== *)
(** * Facts about the scope store on Redis

    What is true of the keyspace after any run of the script, whoever hands it what:
    every document is well formed and within its bounds, the accounts are exact, a
    claim belongs to a document, and a document only moves from active over
    snapshotted to cleaned. *)

From S2P Require Import Prelude Json Uuid Sha256 ScopeStore ScopeStoreFacts Programs Workers RedisScopeStore.

(** ** Values *)

Lemma elem_of_values_entries (m : gmap string StoredValue) k v : (k, v) ∈ entries m ↔ m !! k = Some v.
Proof. unfold entries. by rewrite elem_of_sort_by, elem_of_map_to_list. Qed.

Lemma entries_length (m : gmap string StoredValue) : length (entries m) = size m.
Proof. unfold entries. by rewrite length_sort_by, length_map_to_list. Qed.

Lemma entries_keys_NoDup (m : gmap string StoredValue) : NoDup (entries m).*1.
Proof. unfold entries. rewrite sort_by_perm. apply NoDup_fst_map_to_list. Qed.

Lemma entries_sorted (m : gmap string StoredValue) :
  StronglySorted (λ a b, string_leb a.1 b.1 = true) (entries m).
Proof. apply sort_by_sorted; [intros; apply string_leb_total|intros ???; apply string_leb_trans]. Qed.

Lemma sorted_fmap {A B} (R : B → B → Prop) (f : A → B) l :
  StronglySorted (λ a b, R (f a) (f b)) l → StronglySorted R (f <$> l).
Proof. induction 1 as [|x l _ IH Hx]; [constructor|]. rewrite fmap_cons. constructor; [done|]. by apply Forall_fmap. Qed.

Lemma value_bytes_perm (m : gmap string StoredValue) :
  value_bytes m = sum_by (λ kv, len (v_envelope kv.2)) (map_to_list m).
Proof. apply sum_by_perm, sort_by_perm. Qed.

Lemma first_large_none l :
  first_large l = None ↔ ∀ k v, (k, v) ∈ l → (len (v_envelope v) <= MAX_SCOPE_VALUE_BYTES)%Z.
Proof.
  induction l as [|[k v] l IH]; simpl; [split; [intros _ ?? []%elem_of_nil|done]|].
  destruct (Z.ltb_spec MAX_SCOPE_VALUE_BYTES (len (v_envelope v))) as [Hlt|Hle].
  - split; [done|]. intros Hall. specialize (Hall k v (list_elem_of_here _ _)). lia.
  - rewrite IH. split.
    + intros Hall k' v' [[= -> ->]|Hin]%elem_of_cons; [done|eauto].
    + intros Hall k' v' Hin. apply (Hall k' v'). by right.
Qed.

Record in_bounds (m : gmap string StoredValue) : Prop := {
  ib_rows : (Z.of_nat (size m) <= MAX_SCOPE_ROWS)%Z;
  ib_value k v : m !! k = Some v → (len (v_envelope v) <= MAX_SCOPE_VALUE_BYTES)%Z;
  ib_bytes : (value_bytes m <= MAX_SCOPE_BYTES)%Z
}.

Lemma stored_bounds_none m : stored_bounds m = None ↔ in_bounds m.
Proof.
  unfold stored_bounds. rewrite entries_length. destruct (Z.ltb_spec MAX_SCOPE_ROWS (Z.of_nat (size m))) as [Hr|Hr].
  { split; [done|]. intros [? _ _]. lia. }
  destruct (first_large (entries m)) as [b|] eqn:Hl.
  { split; [done|]. intros [_ Hv _].
    assert (first_large (entries m) = None) as Hn; [|congruence].
    apply first_large_none. intros k v Hkv%elem_of_values_entries. eauto. }
  rewrite first_large_none in Hl. destruct (Z.ltb_spec MAX_SCOPE_BYTES (value_bytes m)) as [Hb|Hb].
  - split; [done|]. intros [_ _ ?]. lia.
  - split; [|done]. intros _. split; [done| |done]. intros k v Hv. apply (Hl k v). by apply elem_of_values_entries.
Qed.

Lemma value_bytes_delete m k v :
  m !! k = Some v → value_bytes m = (len (v_envelope v) + value_bytes (delete k m))%Z.
Proof.
  intros Hv. rewrite !value_bytes_perm.
  rewrite (sum_by_perm _ (map_to_list m) ((k, v) :: map_to_list (delete k m))); [done|]. by rewrite map_to_list_delete.
Qed.

Lemma value_bytes_insert m k v : (value_bytes (<[k := v]> m) <= value_bytes m + len (v_envelope v))%Z.
Proof.
  rewrite (value_bytes_delete (<[k := v]> m) k v), delete_insert_eq by apply lookup_insert_eq.
  destruct (m !! k) as [v0|] eqn:Hk; [|rewrite delete_id by done; lia].
  rewrite (value_bytes_delete m k v0) by done. pose proof (len_nonneg (v_envelope v0)). lia.
Qed.

Lemma in_bounds_delete m k : in_bounds m → in_bounds (delete k m).
Proof.
  intros [Hr Hv Hb]. destruct (m !! k) as [v|] eqn:Hk; [|by rewrite delete_id].
  split.
  - rewrite map_size_delete, Hk. lia.
  - intros k' v' [_ Hk']%lookup_delete_Some. eauto.
  - rewrite (value_bytes_delete m k v) in Hb by done. pose proof (len_nonneg (v_envelope v)). lia.
Qed.

(** ** Accounts *)

Definition total (t : list StoredMetrics) : StoredMetrics := foldr metrics_add no_metrics t.

Lemma metrics_eq a b :
  m_used_bytes a = m_used_bytes b → m_namespace_records a = m_namespace_records b →
  m_scope_values a = m_scope_values b → m_operation_records a = m_operation_records b →
  m_snapshots a = m_snapshots b → m_archive_commits a = m_archive_commits b → a = b.
Proof. destruct a, b. simpl. by intros -> -> -> -> -> ->. Qed.

Ltac metrics := apply metrics_eq; simpl; lia.

Lemma metrics_add_assoc a b c : metrics_add a (metrics_add b c) = metrics_add (metrics_add a b) c.
Proof. metrics. Qed.
Lemma metrics_add_comm a b : metrics_add a b = metrics_add b a.
Proof. metrics. Qed.
Lemma metrics_add_no m : metrics_add no_metrics m = m.
Proof. destruct m. done. Qed.
Lemma metrics_sub_add a b : metrics_sub (metrics_add a b) a = b.
Proof. metrics. Qed.
Lemma metrics_sub_no m : metrics_sub m no_metrics = m.
Proof. metrics. Qed.

Lemma total_perm l l' : l ≡ₚ l' → total l = total l'.
Proof.
  unfold total. induction 1 as [|x l l' _ IH|x y l|l l' l'' _ IH1 _ IH2]; simpl; [done|by rewrite IH| |congruence].
  rewrite !metrics_add_assoc. by rewrite (metrics_add_comm y x).
Qed.

Definition metrics_pos (m : StoredMetrics) : Prop := Forall (λ n, 0 <= n)%Z (metrics_fields m).

Lemma metrics_pos_iff m :
  metrics_pos m ↔ (0 <= m_used_bytes m ∧ 0 <= m_namespace_records m ∧ 0 <= m_scope_values m ∧
                   0 <= m_operation_records m ∧ 0 <= m_snapshots m ∧ 0 <= m_archive_commits m)%Z.
Proof. unfold metrics_pos, metrics_fields. rewrite !Forall_cons, Forall_nil. tauto. Qed.

Lemma covers_iff a b :
  covers a b = true ↔
  (m_used_bytes b <= m_used_bytes a ∧ m_namespace_records b <= m_namespace_records a ∧
   m_scope_values b <= m_scope_values a ∧ m_operation_records b <= m_operation_records a ∧
   m_snapshots b <= m_snapshots a ∧ m_archive_commits b <= m_archive_commits a)%Z.
Proof. unfold covers. simpl. rewrite !andb_true_iff, !Z.leb_le. tauto. Qed.

Lemma covers_add a b : metrics_pos b → covers (metrics_add a b) a = true.
Proof. rewrite metrics_pos_iff, covers_iff. simpl. lia. Qed.

Lemma total_pos l : Forall metrics_pos l → metrics_pos (total l).
Proof.
  induction 1 as [|m l Hm _ IH]; [by repeat constructor|]. revert Hm IH. rewrite !metrics_pos_iff. simpl. lia.
Qed.

Section sums.
Context {K : Type} `{Countable K}.
Implicit Types t : gmap K StoredMetrics.

Definition sum_of t : StoredMetrics := total (map_to_list t).*2.

Lemma sum_of_insert_new t k m : t !! k = None → sum_of (<[k := m]> t) = metrics_add m (sum_of t).
Proof.
  intros Hk. unfold sum_of. rewrite (total_perm _ (((k, m) :: map_to_list t).*2)); [done|].
  by rewrite map_to_list_insert.
Qed.

Lemma sum_of_delete t k m : t !! k = Some m → sum_of t = metrics_add m (sum_of (delete k t)).
Proof. intros Hk. rewrite <- (sum_of_insert_new (delete k t) k m) by apply lookup_delete_eq. by rewrite (insert_delete_id t k m). Qed.

Lemma sum_of_insert t k m :
  sum_of (<[k := m]> t) = metrics_add (metrics_sub (sum_of t) (default no_metrics (t !! k))) m.
Proof.
  destruct (t !! k) as [m0|] eqn:Hk; simpl.
  - rewrite (sum_of_delete t k m0), metrics_sub_add by done.
    rewrite <- (insert_delete_eq t k m), sum_of_insert_new by apply lookup_delete_eq. apply metrics_add_comm.
  - rewrite sum_of_insert_new, metrics_sub_no by done. apply metrics_add_comm.
Qed.

Lemma sum_of_covers t k m :
  map_Forall (λ _ m, metrics_pos m) t → t !! k = Some m → covers (sum_of t) m = true.
Proof.
  intros Hp Hk. rewrite (sum_of_delete t k m) by done. apply covers_add, total_pos, Forall_fmap, Forall_forall.
  intros [k' m'] Hin. apply elem_of_map_to_list in Hin. apply lookup_delete_Some in Hin as [_ Hm']. by apply (Hp k').
Qed.
End sums.

(** ** Documents *)

Section facts.
Context `{UuidLaws Uuid} `{!Countable Uuid}.
Context (uuid_bytes : Uuid → bytes) (parse_json : bytes → option Json) (from_utf8 : bytes → option string).
Context (encoded_len : StoredScope Uuid → Z).
(** A [String] is text, and JSON has a length. *)
Hypothesis utf8 : ∀ k, from_utf8 (bytes_of k) = Some k.
Hypothesis encoded_nonneg : ∀ sc, (0 <= encoded_len sc)%Z.

Abbreviation scope := (StoredScope Uuid).
Abbreviation identity := (value_identity uuid_bytes).
Abbreviation validate_snapshot := (validate_snapshot parse_json from_utf8).
Abbreviation public_snapshot := (public_snapshot (Uuid := Uuid) parse_json from_utf8).
Abbreviation well_formed := (well_formed uuid_bytes parse_json).
Abbreviation phase_well_formed := (phase_well_formed parse_json from_utf8).
Abbreviation metrics_for := (metrics_for encoded_len).
Abbreviation for_scope := (for_scope encoded_len).
Implicit Types (id : Uuid) (sc : scope) (m : gmap string StoredValue).

Record stored_ok id k (v : StoredValue) : Prop := {
  so_key : valid_key k = true;
  so_envelope : validate_envelope parse_json (v_envelope v) = Ok tt;
  so_identity : v_value_identity v = identity id k (v_envelope v)
}.

Definition values_ok id m : Prop := map_Forall (stored_ok id) m.

Lemma valid_key_len k : valid_key k = true → (0 < str_len k <= MAX_KEY_BYTES)%Z.
Proof.
  unfold valid_key. rewrite andb_true_iff, Z.leb_le, negb_true_iff, bool_decide_eq_false.
  intros [Hk ?]. split; [|done]. destruct k; [done|]. unfold str_len. simpl. lia.
Qed.

Lemma well_formed_iff id sc :
  well_formed id sc = true ↔
  st_protocol_version sc = TICKR_CTX_SCOPE_PROTOCOL_VERSION ∧ st_scope_id sc = id ∧
  is_ok (validate_scope_identity (st_namespace sc) (st_run_id sc)) = true ∧ values_ok id (st_values sc).
Proof.
  unfold well_formed, RedisScopeStore.well_formed. rewrite !andb_true_iff, Z.eqb_eq, bool_decide_eq_true, forallb_forall.
  assert ((∀ x, In x (entries (st_values sc)) → valid_key x.1 && is_ok (validate_envelope parse_json (v_envelope x.2)) &&
             bool_decide (v_value_identity x.2 = identity id x.1 (v_envelope x.2)) = true) ↔ values_ok id (st_values sc)) as ->;
    [|tauto].
  split.
  - intros Hall k v Hv. specialize (Hall (k, v)). rewrite <- list_elem_of_In, elem_of_values_entries in Hall.
    specialize (Hall Hv). rewrite !andb_true_iff, bool_decide_eq_true in Hall. destruct Hall as [[Hk He] Hi].
    simpl in *. split; [done| |done]. by destruct (validate_envelope _ _) as [[]|].
  - intros Hok [k v] Hin. rewrite <- list_elem_of_In, elem_of_values_entries in Hin. destruct (Hok _ _ Hin) as [Hk He Hi].
    simpl. rewrite Hk, He, Hi. by rewrite bool_decide_true.
Qed.

(** *** Snapshots *)

Lemma read_u32_app n rest :
  (0 <= n < 2 ^ 32)%Z → read_snapshot_u32 (to_be_bytes 4 n ++ rest) = Some (n, rest).
Proof.
  intros Hn. pose proof (read_length_app n rest Hn) as Hr. unfold read_snapshot_length, read_snapshot_u32 in *.
  case_bool_decide; [|done]. congruence.
Qed.

Lemma read_part_app b rest : (len b < 2 ^ 32)%Z → read_snapshot_part (len_prefixed b ++ rest) = Some (b, rest).
Proof.
  intros Hb. unfold read_snapshot_part, len_prefixed. rewrite <- app_assoc, read_u32_app by (unfold len in *; lia).
  simpl. unfold len in *. rewrite length_app.
  replace (Z.of_nat (length b) <=? _)%Z with true by (symmetry; apply Z.leb_le; lia).
  by rewrite Nat2Z.id, take_app_length, drop_app_length.
Qed.

Definition after_key (previous : option string) (k : string) : Prop :=
  match previous with Some p => string_leb k p = false | None => True end.

Lemma check_rows_app l previous rest :
  StronglySorted (λ a b, string_leb a.1 b.1 = true) l → NoDup l.*1 →
  (∀ kv, kv ∈ l → after_key previous kv.1) →
  (∀ kv, kv ∈ l → valid_key kv.1 = true ∧ validate_envelope parse_json (v_envelope kv.2) = Ok tt ∧
                  (len (v_envelope kv.2) < 2 ^ 32)%Z) →
  check_rows parse_json from_utf8 (length l) previous
    (mjoin ((λ kv : string * StoredValue, encode_value kv.1 (v_envelope kv.2)) <$> l) ++ rest) =
  Some (sum_by (λ kv, len (v_envelope kv.2)) l, rest).
Proof.
  intros Hs. revert previous. induction Hs as [|[k v] l Hs IH Hx]; intros previous Hnd Hp Hv; [done|].
  rewrite fmap_cons, join_cons. cbn [length check_rows fst snd]. unfold encode_value at 1.
  destruct (Hv (k, v) (list_elem_of_here _ _)) as (Hk & He & Hl). cbn [fst snd] in *.
  rewrite <- !app_assoc, read_part_app.
  2:{ rewrite bytes_of_len. destruct (valid_key_len k Hk). unfold MAX_KEY_BYTES in *. lia. }
  cbn [mbind option_bind]. rewrite utf8. cbn [mbind option_bind]. rewrite Hk. cbn [negb orb].
  assert (match previous with Some p => string_leb k p | None => false end = false) as ->.
  { specialize (Hp (k, v) (list_elem_of_here _ _)). by destruct previous. }
  rewrite read_part_app by done. cbn [mbind option_bind]. rewrite He. rewrite fmap_cons, NoDup_cons in Hnd.
  destruct Hnd as [Hnew Hnd]. rewrite IH; [done|done| |intros kv Hkv; apply Hv; by right].
  intros [k' v'] Hin. simpl. destruct (string_leb k' k) eqn:Hle; [|done]. destruct Hnew.
  rewrite Forall_forall in Hx. specialize (Hx _ Hin). simpl in Hx.
  rewrite (string_leb_antisym _ _ Hx Hle). by apply (list_elem_of_fmap_2 fst _ (k', v')).
Qed.

Lemma snapshot_from_bounds id m :
  in_bounds m →
  snapshot_from_values id m =
    Ok (mkSnapshot id (snapshot_bytes m) (sha256_hex (snapshot_bytes m)) (Z.of_nat (length (entries m))) (value_bytes m)).
Proof. intros Hb%stored_bounds_none. unfold snapshot_from_values. by rewrite Hb. Qed.

(** The snapshot of values that fit checks. *)
Lemma taken_valid id m :
  values_ok id m → in_bounds m →
  validate_snapshot (mkStoredSnapshot (snapshot_bytes m) (sha256_hex (snapshot_bytes m))
    (Z.of_nat (length (entries m))) (value_bytes m)) = Ok tt.
Proof.
  intros Hok [Hr Hv Hb]. unfold validate_snapshot, RedisScopeStore.validate_snapshot, starts_with_magic.
  cbn [ss_bytes ss_digest ss_row_count ss_value_bytes]. unfold snapshot_bytes.
  rewrite take_app_length, !bool_decide_true, drop_app_length by done. rewrite entries_length.
  rewrite (proj2 (Z.leb_le _ _) Hr), (proj2 (Z.leb_le _ _) Hb). cbn [ensure andb].
  rewrite read_u32_app by (unfold MAX_SCOPE_ROWS in *; lia). cbn [ok_or]. rewrite Z.eqb_refl, Nat2Z.id. cbn [ensure].
  rewrite <- (app_nil_r (mjoin _)), <- entries_length, check_rows_app.
  - cbn [ok_or]. unfold value_bytes. by rewrite Z.eqb_refl, bool_decide_true.
  - apply entries_sorted.
  - apply entries_keys_NoDup.
  - done.
  - intros [k v] Hin%elem_of_values_entries. destruct (Hok _ _ Hin). specialize (Hv _ _ Hin). simpl.
    unfold MAX_SCOPE_VALUE_BYTES in *. split_and!; [done..|lia].
Qed.

(** It is what the decoder of the other store reads back. *)
Lemma taken_decodes id m :
  values_ok id m → in_bounds m →
  decode_tickr_ctx_scope_snapshot from_utf8
    (mkSnapshot id (snapshot_bytes m) (sha256_hex (snapshot_bytes m)) (Z.of_nat (length (entries m))) (value_bytes m)) =
  Ok ((λ kv, (kv.1, v_envelope kv.2)) <$> entries m).
Proof.
  intros Hok [Hr Hv Hb].
  set (l := (λ kv : string * StoredValue, mkStoredScopeValue kv.1 id (v_envelope kv.2) 0 0) <$> entries m).
  assert (take_snapshot id l = mkSnapshot id (snapshot_bytes m) (sha256_hex (snapshot_bytes m))
            (Z.of_nat (length (entries m))) (value_bytes m)) as <-.
  { unfold take_snapshot, encode_snapshot, l. rewrite length_fmap, sum_by_fmap, <- list_fmap_compose. done. }
  rewrite decoded_taken; [unfold l; by rewrite <- list_fmap_compose|..].
  - unfold l. rewrite length_fmap, entries_length. unfold MAX_SCOPE_ROWS in *. lia.
  - unfold l. apply Forall_fmap, Forall_forall. intros [k v] Hin%elem_of_values_entries. destruct (Hok _ _ Hin).
    specialize (Hv _ _ Hin). pose proof (valid_key_len k so_key0). unfold MAX_KEY_BYTES, MAX_SCOPE_VALUE_BYTES in *.
    split; simpl; [lia|lia|done].
Qed.

(** *** The phases of a document *)

Definition taken m : StoredSnapshot :=
  mkStoredSnapshot (snapshot_bytes m) (sha256_hex (snapshot_bytes m)) (Z.of_nat (length (entries m))) (value_bytes m).

(** The evidence of an archive is about the snapshot of the document. *)
Definition archive_matches sc : Prop :=
  ∀ c, st_archive_commit sc = Some c → ∃ s, st_snapshot sc = Some s ∧ ac_snapshot_digest c = ss_digest s.

Definition phase_ok sc : Prop :=
  match st_state sc with
  | Stored_Active => st_snapshot sc = None ∧ st_archive_commit sc = None
  | Stored_Snapshotted => st_snapshot sc = Some (taken (st_values sc))
  | Stored_Cleaned =>
      st_values sc = ∅ ∧ is_Some (st_archive_commit sc) ∧
      ∃ m, values_ok (st_scope_id sc) m ∧ in_bounds m ∧ st_snapshot sc = Some (taken m)
  end.

Record doc_ok id sc : Prop := {
  do_version : st_protocol_version sc = TICKR_CTX_SCOPE_PROTOCOL_VERSION;
  do_id : st_scope_id sc = id;
  do_identity : is_ok (validate_scope_identity (st_namespace sc) (st_run_id sc)) = true;
  do_values : values_ok id (st_values sc);
  do_bounds : in_bounds (st_values sc);
  do_phase : phase_ok sc;
  do_archive : archive_matches sc
}.

Lemma doc_well_formed id sc : doc_ok id sc → well_formed id sc = true.
Proof. intros []. by apply well_formed_iff. Qed.

Lemma public_taken id m sc :
  values_ok id m → in_bounds m → st_snapshot sc = Some (taken m) →
  public_snapshot sc = Ok (public (st_scope_id sc) (taken m)).
Proof.
  intros Hv Hb Hs. unfold public_snapshot, RedisScopeStore.public_snapshot. rewrite Hs. cbn [ok_or].
  unfold taken. by rewrite (taken_valid id) by done.
Qed.

Lemma doc_phase id sc : doc_ok id sc → phase_well_formed id sc = true.
Proof.
  intros [_ Hid _ Hv Hb Hp _]. unfold phase_well_formed, RedisScopeStore.phase_well_formed, phase_ok in *.
  destruct (st_state sc).
  - destruct Hp as [-> ->]. done.
  - rewrite (public_taken id (st_values sc)), snapshot_from_bounds by done. simpl.
    by rewrite !bool_decide_true, !Z.eqb_refl.
  - destruct Hp as (-> & Ha & m & Hm & Hmb & Hs). rewrite Hid in Hm. rewrite (public_taken id m) by done. simpl.
    by rewrite !bool_decide_true.
Qed.

(** A document past its active phase has a snapshot that checks. *)
Lemma archived_doc id sc :
  doc_ok id sc → st_state sc ≠ Stored_Active →
  ∃ m, values_ok id m ∧ in_bounds m ∧ st_snapshot sc = Some (taken m) ∧
       public_snapshot sc = Ok (public id (taken m)).
Proof.
  intros [_ Hid _ Hv Hb Hp _] Hst. unfold phase_ok in Hp.
  assert (∃ m, values_ok id m ∧ in_bounds m ∧ st_snapshot sc = Some (taken m)) as (m & Hm & Hmb & Hs).
  { destruct (st_state sc); [done|by exists (st_values sc)|]. destruct Hp as (_ & _ & m & ?). rewrite Hid in *. by exists m. }
  exists m. split_and!; [done..|]. rewrite (public_taken id m) by done. by rewrite Hid.
Qed.

(** ** The keyspace *)

Abbreviation keyspace := (ScopeKeyspace (Uuid := Uuid)).
Abbreviation mutation := (ScriptMutation (Uuid := Uuid)).
Implicit Types (s : keyspace) (mu : mutation).

(** The document of a scope, current or cleaned. *)
Definition document s id : option scope :=
  match ks_scopes s !! id with Some sc => Some sc | None => ks_cleaned s !! id end.

(** How many operations were applied to a scope. *)
Definition claims_of s id : Z := Z.of_nat (size (filter (λ kv, kv.2.1 = id) (ks_claims s))).

Abbreviation owner_of sc := (owner_identity (st_namespace sc) (st_run_id sc)).

(** The operations that move a document to its next phase have the identity of their scope. *)
Definition phase_operation (kind : MutationKind) id : option string :=
  match kind with
  | Mutate_Snapshot => Some (snapshot_identity id)
  | Mutate_Archive => Some (archive_operation id)
  | Mutate_Cleanup => Some (cleanup_identity id)
  | _ => None
  end.

Definition phase_reached (kind : MutationKind) sc : Prop :=
  match kind with
  | Mutate_Snapshot => st_state sc ≠ Stored_Active
  | Mutate_Archive => is_Some (st_archive_commit sc)
  | Mutate_Cleanup => st_state sc = Stored_Cleaned
  | _ => True
  end.

Lemma phase_operation_inj k id k' id' op :
  phase_operation k id = Some op → phase_operation k' id' = Some op → k = k' ∧ id = id'.
Proof.
  destruct k, k'; simpl; try done; intros [= <-]; unfold snapshot_identity, archive_operation, cleanup_identity; simpl;
    intros [= Heq]; by apply uuid_to_string_inj in Heq.
Qed.

Lemma phase_operation_claim k id c : phase_operation k id ≠ Some (claim_identity c).
Proof. by destruct k. Qed.

Record keyspace_ok (s : keyspace) : Prop := {
  ko_scope id sc : ks_scopes s !! id = Some sc → doc_ok id sc ∧ st_state sc ≠ Stored_Cleaned;
  ko_cleaned id sc : ks_cleaned s !! id = Some sc → doc_ok id sc ∧ st_state sc = Stored_Cleaned;
  ko_apart id : is_Some (ks_cleaned s !! id) → ks_scopes s !! id = None;
  ko_metrics id : ks_metrics s !! id = (λ sc, metrics_for sc (claims_of s id)) <$> ks_scopes s !! id;
  ko_checked id sc : ks_scopes s !! id = Some sc → for_scope sc (claims_of s id) = Ok (metrics_for sc (claims_of s id));
  ko_quota : ks_quota s = sum_of (ks_metrics s);
  ko_claim op id fp : ks_claims s !! op = Some (id, fp) → is_Some (document s id);
  ko_owner o id : ks_owners s !! o = Some id → ∃ sc, document s id = Some sc ∧ owner_of sc = o;
  ko_owned id sc : document s id = Some sc → ks_owners s !! owner_of sc = Some id;
  ko_created id sc : document s id = Some sc →
    ∃ fp, ks_claims s !! claim_identity (st_creation_claim_id sc) = Some (id, fp);
  ko_phase k id op c : phase_operation k id = Some op → ks_claims s !! op = Some c →
    ∃ sc, document s id = Some sc ∧ phase_reached k sc
}.

Lemma empty_keyspace_ok : keyspace_ok empty_keyspace.
Proof. split; unfold document; simpl; intros *; rewrite ?lookup_empty; done. Qed.

(** ** What the clients hand to the script *)

Inductive follows : MutationKind → option scope → scope → Prop :=
| follows_create sc : doc_ok (st_scope_id sc) sc → st_state sc = Stored_Active → follows Mutate_Create None sc
| follows_write sc m now : st_state sc = Stored_Active →
    values_ok (st_scope_id sc) m → in_bounds m → follows Mutate_Write (Some sc) (with_values m now sc)
| follows_delete sc k now : st_state sc = Stored_Active →
    follows Mutate_Delete (Some sc) (with_values (delete k (st_values sc)) now sc)
| follows_snapshot sc now : st_state sc = Stored_Active →
    follows Mutate_Snapshot (Some sc) (with_snapshot (taken (st_values sc)) now sc)
| follows_archive sc c now : st_state sc = Stored_Snapshotted → st_archive_commit sc = None →
    ac_snapshot_digest c = sha256_hex (snapshot_bytes (st_values sc)) →
    follows Mutate_Archive (Some sc) (with_archive c now sc)
| follows_cleanup sc now : st_state sc = Stored_Snapshotted → is_Some (st_archive_commit sc) →
    follows Mutate_Cleanup (Some sc) (cleaned_proof (at_time now sc)).

Definition operations_before mu : Z := match sm_expected_metrics mu with Some e => m_operation_records e | None => 0 end.

Record proper mu : Prop := {
  pr_follows : follows (sm_kind mu) (sm_expected_state mu) (sm_next_state mu);
  pr_id : st_scope_id (sm_next_state mu) = sm_scope_id mu;
  pr_metrics : if bool_decide (sm_kind mu = Mutate_Cleanup) then True
               else sm_next_metrics mu = Some (metrics_for (sm_next_state mu) (operations_before mu + 1)) ∧
                    for_scope (sm_next_state mu) (operations_before mu + 1) =
                      Ok (metrics_for (sm_next_state mu) (operations_before mu + 1));
  pr_owner : sm_kind mu = Mutate_Create → sm_owner_identity mu = owner_of (sm_next_state mu);
  pr_claim : sm_kind mu = Mutate_Create →
    sm_operation_identity mu = claim_identity (st_creation_claim_id (sm_next_state mu));
  pr_operation : match phase_operation (sm_kind mu) (sm_scope_id mu) with
                 | Some op => sm_operation_identity mu = op
                 | None => ∃ c, sm_operation_identity mu = claim_identity c
                 end
}.

Lemma follows_ok kind sc sc' :
  doc_ok (st_scope_id sc) sc → follows kind (Some sc) sc' →
  doc_ok (st_scope_id sc) sc' ∧ (st_state sc' = Stored_Cleaned ↔ kind = Mutate_Cleanup).
Proof.
  intros [Hv Hid Hi Hvs Hb Hp Ha] Hf.
  inversion Hf as [|? m now Hst Hm Hmb|? k now Hst|? now Hst|? c now Hst Hn Hc|? now Hst Hc]; subst; unfold phase_ok in *.
  - rewrite Hst in Hp. split; [|simpl; by rewrite Hst]. split; try done. unfold phase_ok. simpl. by rewrite Hst.
  - rewrite Hst in Hp. split; [|simpl; by rewrite Hst].
    split; try done; simpl; [by apply map_Forall_delete|by apply in_bounds_delete|].
    unfold phase_ok. simpl. by rewrite Hst.
  - rewrite Hst in Hp. destruct Hp as [Hs0 Ha0]. split; [|done]. split; try done.
    intros c. simpl. congruence.
  - rewrite Hst in Hp. split; [|simpl; by rewrite Hst]. split; try done.
    + unfold phase_ok. simpl. by rewrite Hst.
    + intros c'. simpl. intros [= <-]. eauto.
  - rewrite Hst in Hp. split; [|done]. split; try done.
    unfold phase_ok. simpl. split_and!; [done..|]. by exists (st_values sc).
Qed.

(** ** How a keyspace changes *)

(** Later documents of the same scope. *)
Record doc_evolves sc sc' : Prop := {
  de_id : st_scope_id sc' = st_scope_id sc;
  de_namespace : st_namespace sc' = st_namespace sc;
  de_run_id : st_run_id sc' = st_run_id sc;
  de_claim : st_creation_claim_id sc' = st_creation_claim_id sc;
  de_digest : st_creation_request_digest sc' = st_creation_request_digest sc;
  de_created_at : st_created_at sc' = st_created_at sc;
  de_active : st_state sc' = Stored_Active → st_state sc = Stored_Active;
  de_cleaned : st_state sc = Stored_Cleaned → sc' = sc;
  de_snapshot x : st_snapshot sc = Some x → st_snapshot sc' = Some x;
  de_archive x : st_archive_commit sc = Some x → st_archive_commit sc' = Some x
}.

#[export] Instance doc_evolves_preorder : PreOrder doc_evolves.
Proof.
  split; [by split|]. intros a b c [] []. split; try congruence; auto.
  intros Hc. rewrite (de_cleaned0 Hc) in *. auto.
Qed.

Lemma follows_evolves kind sc sc' : phase_ok sc → follows kind (Some sc) sc' → doc_evolves sc sc'.
Proof.
  intros Hp Hf. unfold phase_ok in Hp.
  inversion Hf as [|? m now Hst Hm Hmb|? k now Hst|? now Hst|? c now Hst Hn Hc|? now Hst Hc]; subst; rewrite Hst in Hp;
    split; simpl; try done; try congruence; destruct Hp; congruence.
Qed.

(** What any client may do to the keyspace. *)
Record evolves s s' : Prop := {
  ev_claims : ks_claims s ⊆ ks_claims s';
  ev_owners : ks_owners s ⊆ ks_owners s';
  ev_cleaned : ks_cleaned s ⊆ ks_cleaned s';
  ev_document id sc : document s id = Some sc → ∃ sc', document s' id = Some sc' ∧ doc_evolves sc sc'
}.

#[export] Instance evolves_preorder : PreOrder evolves.
Proof.
  split; [intros s; split; [done..|]; intros id sc Hsc; by exists sc|]. intros s1 s2 s3 [H1 H2 H3 H4] [H5 H6 H7 H8].
  split; [by etrans..|]. intros id sc (sc2 & H2' & He)%H4. destruct (H8 _ _ H2') as (sc3 & ? & ?).
  exists sc3. split; [done|]. by etrans.
Qed.

(** ** The script *)

Lemma claims_of_insert (t : gmap string (Uuid * string)) op id fp id' :
  t !! op = None →
  Z.of_nat (size (filter (λ kv, kv.2.1 = id') (<[op := (id, fp)]> t))) =
  (Z.of_nat (size (filter (λ kv, kv.2.1 = id') t)) + (if decide (id = id') then 1 else 0))%Z.
Proof.
  intros Hop. destruct (decide (id = id')) as [Heq|Hne].
  - rewrite map_filter_insert_True by done. rewrite map_size_insert_None; [lia|].
    apply map_lookup_filter_None. by left.
  - rewrite map_filter_insert_False by done. rewrite delete_id by done. lia.
Qed.

Lemma document_current s id sc : ks_scopes s !! id = Some sc → document s id = Some sc.
Proof. unfold document. by intros ->. Qed.

Lemma metrics_for_pos sc n : (0 <= n)%Z → metrics_pos (metrics_for sc n).
Proof.
  intros Hn. apply metrics_pos_iff. simpl. pose proof (encoded_nonneg sc). unfold OPERATION_ACCOUNTED_BYTES.
  destruct (st_snapshot sc), (st_archive_commit sc); lia.
Qed.

Lemma keyspace_metrics_pos s : keyspace_ok s → map_Forall (λ _ x, metrics_pos x) (ks_metrics s).
Proof.
  intros Hs id x. rewrite (ko_metrics _ Hs). destruct (ks_scopes s !! id); [|done]. intros [= <-].
  apply metrics_for_pos. unfold claims_of. lia.
Qed.

(** An operation is applied: its claim is new, and it [follows] the document that is there. *)
Record admitted s mu : Prop := {
  ad_claim : ks_claims s !! sm_operation_identity mu = None;
  ad_cleaned : ks_cleaned s !! sm_scope_id mu = None;
  ad_state : ks_scopes s !! sm_scope_id mu = sm_expected_state mu;
  ad_metrics : ks_metrics s !! sm_scope_id mu = sm_expected_metrics mu;
  ad_owner : sm_kind mu = Mutate_Create → ∀ o, ks_owners s !! sm_owner_identity mu = Some o → o = sm_scope_id mu;
  ad_proper : proper mu
}.

Section applied.
Context (s : keyspace) (mu : mutation) (Hs : keyspace_ok s) (Ha : admitted s mu).
Abbreviation id := (sm_scope_id mu).

Lemma admitted_operations : ∀ sc, sm_expected_state mu = Some sc → operations_before mu = claims_of s id.
Proof.
  intros sc Hsc. unfold operations_before. rewrite <- (ad_metrics _ _ Ha), (ko_metrics _ Hs), (ad_state _ _ Ha), Hsc. done.
Qed.

(** Before a creation nothing was applied to the scope. *)
Lemma admitted_create : sm_expected_state mu = None → operations_before mu = 0%Z ∧ claims_of s id = 0%Z ∧ document s id = None.
Proof.
  intros Hn. assert (document s id = None) as Hd.
  { unfold document. rewrite (ad_state _ _ Ha), Hn. apply (ad_cleaned _ _ Ha). }
  split_and!; [|unfold claims_of|done].
  - unfold operations_before. by rewrite <- (ad_metrics _ _ Ha), (ko_metrics _ Hs), (ad_state _ _ Ha), Hn.
  - rewrite (proj2 (map_size_empty_iff _)); [done|]. apply map_empty. intros op. apply map_lookup_filter_None.
    right. intros [id' fp] Hop. simpl. intros ->. apply (ko_claim _ Hs) in Hop as [sc Hsc]. congruence.
Qed.

Lemma admitted_count : operations_before mu = claims_of s id.
Proof.
  destruct (sm_expected_state mu) as [sc|] eqn:He; [by eapply admitted_operations|].
  by destruct (admitted_create He) as (-> & -> & _).
Qed.

Lemma admitted_next :
  doc_ok id (sm_next_state mu) ∧ (st_state (sm_next_state mu) = Stored_Cleaned ↔ sm_kind mu = Mutate_Cleanup) ∧
  ∀ sc, document s id = Some sc → doc_evolves sc (sm_next_state mu).
Proof.
  pose proof (ad_proper _ _ Ha) as [Hf Hid _ _ _ _]. destruct (sm_expected_state mu) as [sc|] eqn:He.
  - pose proof (ad_state _ _ Ha) as Hsc. rewrite He in Hsc. destruct (ko_scope _ Hs _ _ Hsc) as [Hok Hst].
    pose proof (do_id _ _ Hok) as Hi. rewrite <- Hi in Hok. destruct (follows_ok _ _ _ Hok Hf) as [Hok' Hc].
    rewrite Hi in Hok'. split_and!; [done|done|]. intros sc'. unfold document. rewrite Hsc. intros [= <-].
    eapply follows_evolves; [apply Hok|done].
  - destruct (admitted_create He) as (_ & _ & Hd).
    inversion Hf as [sc Hok Hst Hk| | | | |]; subst. rewrite <- Hid. rewrite Hst.
    split_and!; [done|split; congruence|congruence].
Qed.

(** The parts of the invariant that do not tell a current document from a cleaned one. *)
Definition ledger_ok (s : keyspace) : Prop :=
  (∀ op id fp, ks_claims s !! op = Some (id, fp) → is_Some (document s id)) ∧
  (∀ o id, ks_owners s !! o = Some id → ∃ sc, document s id = Some sc ∧ owner_of sc = o) ∧
  (∀ id sc, document s id = Some sc → ks_owners s !! owner_of sc = Some id) ∧
  (∀ id sc, document s id = Some sc → ∃ fp, ks_claims s !! claim_identity (st_creation_claim_id sc) = Some (id, fp)) ∧
  (∀ k id op c, phase_operation k id = Some op → ks_claims s !! op = Some c →
     ∃ sc, document s id = Some sc ∧ phase_reached k sc).

Definition owners_after : gmap string Uuid :=
  if bool_decide (sm_kind mu = Mutate_Create) then <[sm_owner_identity mu := id]> (ks_owners s) else ks_owners s.

Definition claims_after : gmap string (Uuid * string) := <[sm_operation_identity mu := claim_value mu]> (ks_claims s).

Lemma expected_document sc : sm_expected_state mu = Some sc → document s id = Some sc.
Proof. intros He. apply document_current. by rewrite (ad_state _ _ Ha). Qed.

(** A creation is the one that expects nothing. *)
Lemma create_expects : sm_kind mu = Mutate_Create ↔ sm_expected_state mu = None.
Proof.
  pose proof (pr_follows _ (ad_proper _ _ Ha)) as Hf.
  split; [intros Hk; rewrite Hk in Hf|intros He; rewrite He in Hf]; by inversion Hf.
Qed.

Lemma evolves_owner sc sc' : doc_evolves sc sc' → owner_of sc' = owner_of sc.
Proof. intros []. congruence. Qed.

(** What an applied operation leaves of a scope: its new document, which created it or follows the one before. *)
Lemma next_document :
  sm_kind mu = Mutate_Create ∨ ∃ sc, document s id = Some sc ∧ doc_evolves sc (sm_next_state mu).
Proof.
  destruct (sm_expected_state mu) as [sc|] eqn:He; [right|left; by apply create_expects].
  exists sc. split; [by apply expected_document|]. apply admitted_next. by apply expected_document.
Qed.

Lemma owners_after_grow : ks_owners s ⊆ owners_after.
Proof.
  unfold owners_after. case_bool_decide as Hk; [|done]. apply map_subseteq_spec. intros o i Hi.
  destruct (decide (o = sm_owner_identity mu)) as [->|]; [|by rewrite lookup_insert_ne].
  rewrite lookup_insert_eq. by rewrite (ad_owner _ _ Ha Hk _ Hi).
Qed.

Lemma claims_after_grow : ks_claims s ⊆ claims_after.
Proof. apply insert_subseteq, (ad_claim _ _ Ha). Qed.

Lemma phase_reached_evolves k sc sc' : doc_evolves sc sc' → phase_reached k sc → phase_reached k sc'.
Proof.
  intros He. destruct k; simpl; try done.
  - intros Hne Hact. by apply Hne, (de_active _ _ He).
  - intros [x Hx]. exists x. by apply (de_archive _ _ He).
  - intros Hc. by rewrite (de_cleaned _ _ He Hc).
Qed.

Lemma next_phase k : sm_kind mu = k → phase_reached k (sm_next_state mu).
Proof.
  intros <-. destruct (pr_follows _ (ad_proper _ _ Ha)); simpl; by eauto.
Qed.

Section ledger.
Context (s' : keyspace) (Hc : ks_claims s' = claims_after) (Ho : ks_owners s' = owners_after).
Context (Hcl : ks_cleaned s ⊆ ks_cleaned s').
Context (Hd : ∀ id', document s' id' = if decide (id' = id) then Some (sm_next_state mu) else document s id').

Lemma applied_evolves : evolves s s'.
Proof.
  split; [rewrite Hc; apply claims_after_grow|rewrite Ho; apply owners_after_grow|done|].
  intros id' sc Hsc. rewrite Hd. destruct (decide (id' = id)) as [->|]; [|by exists sc].
  eexists. split; [done|]. by apply admitted_next.
Qed.

Lemma applied_ledger : ledger_ok s'.
Proof.
  pose proof (ad_proper _ _ Ha) as [_ _ _ Hown Hcreate _].
  pose proof (ev_document _ _ applied_evolves) as Hdoc. split_and!.
  - intros op id' fp. rewrite Hc. unfold claims_after, claim_value. intros [[_ [= <- _]]|[_ Hop]]%lookup_insert_Some.
    + by rewrite Hd, decide_True.
    + apply (ko_claim _ Hs) in Hop as [sc Hsc]. destruct (Hdoc _ _ Hsc) as (? & ? & _). by eexists.
  - assert (∀ o id', ks_owners s !! o = Some id' → ∃ sc, document s' id' = Some sc ∧ owner_of sc = o) as Hold.
    { intros o id' (sc & Hsc & <-)%(ko_owner _ Hs). destruct (Hdoc _ _ Hsc) as (sc' & ? & ?%evolves_owner). eauto. }
    intros o id'. rewrite Ho. unfold owners_after. case_bool_decide as Hk; [|apply Hold].
    intros [[<- <-]|[_ Hi]]%lookup_insert_Some; [|by apply Hold].
    exists (sm_next_state mu). rewrite Hd, decide_True, Hown by done. done.
  - intros id' sc. rewrite Hd, Ho. destruct (decide (id' = id)) as [->|Hne]; [|intros Hsc; eapply lookup_weaken; [by apply (ko_owned _ Hs)|apply owners_after_grow]].
    intros [= <-]. destruct next_document as [Hk|(sc & Hsc & He)].
    + unfold owners_after. rewrite bool_decide_true, <- Hown by done. apply lookup_insert_eq.
    + rewrite (evolves_owner _ _ He). eapply lookup_weaken; [by apply (ko_owned _ Hs)|apply owners_after_grow].
  - assert (∀ id' sc, document s id' = Some sc → ∃ fp, ks_claims s' !! claim_identity (st_creation_claim_id sc) = Some (id', fp)) as Hold.
    { intros id' sc (fp & Hfp)%(ko_created _ Hs). exists fp. rewrite Hc. eapply lookup_weaken; [done|apply claims_after_grow]. }
    intros id' sc. rewrite Hd. destruct (decide (id' = id)) as [->|Hne]; [|apply Hold].
    intros [= <-]. destruct next_document as [Hk|(sc & Hsc & He)].
    + exists (sm_operation_fingerprint mu). rewrite Hc, <- Hcreate by done. apply lookup_insert_eq.
    + rewrite (de_claim _ _ He). by apply Hold.
  - intros k id' op c Hop. rewrite Hc. unfold claims_after. intros [[<- _]|[_ Hcl']]%lookup_insert_Some.
    + pose proof (pr_operation _ (ad_proper _ _ Ha)) as Hpo. destruct (phase_operation (sm_kind mu) id) as [op'|] eqn:Hph.
      * rewrite Hpo in Hop. destruct (phase_operation_inj _ _ _ _ _ Hph Hop) as [Hk <-].
        exists (sm_next_state mu). rewrite Hd, decide_True by done. split; [done|]. by apply next_phase.
      * destruct Hpo as [c' Hc']. rewrite Hc' in Hop. by apply phase_operation_claim in Hop.
    + destruct (ko_phase _ Hs _ _ _ _ Hop Hcl') as (sc & Hsc & Hr). destruct (Hdoc _ _ Hsc) as (sc' & ? & ?).
      exists sc'. split; [done|]. by eapply phase_reached_evolves.
Qed.
End ledger.

(** *** Both endings of the script *)

Lemma claims_after_of id' s' :
  ks_claims s' = claims_after → claims_of s' id' = (claims_of s id' + (if decide (id = id') then 1 else 0))%Z.
Proof. intros Hc. unfold claims_of. rewrite Hc. apply claims_of_insert, (ad_claim _ _ Ha). Qed.

Lemma applied_mutation_ok old new :
  sm_kind mu ≠ Mutate_Cleanup → sm_next_metrics mu = Some new → old = default no_metrics (ks_metrics s !! id) →
  keyspace_ok (apply_mutation mu old new s) ∧ evolves s (apply_mutation mu old new s).
Proof.
  intros Hk Hnew Hold. set (s' := apply_mutation mu old new s).
  assert (∀ id', document s' id' = if decide (id' = id) then Some (sm_next_state mu) else document s id') as Hd.
  { intros id'. unfold document, s'. simpl. destruct (decide (id' = id)) as [->|]; [by rewrite lookup_insert_eq|by rewrite lookup_insert_ne]. }
  destruct admitted_next as (Hok & Hclean & _). pose proof (pr_metrics _ (ad_proper _ _ Ha)) as Hm.
  rewrite bool_decide_false in Hm by done. destruct Hm as [Hn Hfor].
  rewrite Hnew in Hn. injection Hn as Hn. rewrite admitted_count in Hn, Hfor.
  pose proof (λ id', claims_after_of id' s' eq_refl) as Hcount.
  destruct (applied_ledger s' eq_refl eq_refl (reflexivity _) Hd) as (H1 & H2 & H3 & H4 & H5).
  split; [|by apply applied_evolves]. split; try done.
  - intros id' sc. simpl. intros [[<- <-]|[_ Hsc]]%lookup_insert_Some; [|by apply (ko_scope _ Hs)].
    split; [done|]. by rewrite Hclean.
  - apply (ko_cleaned _ Hs).
  - intros id' Hc. simpl in Hc |- *. rewrite lookup_insert_ne; [by apply (ko_apart _ Hs)|].
    intros <-. rewrite (ad_cleaned _ _ Ha) in Hc. by destruct Hc.
  - intros id'. rewrite Hcount. simpl. destruct (decide (id = id')) as [<-|Hne].
    + rewrite !lookup_insert_eq. simpl. by rewrite Hn.
    + rewrite !lookup_insert_ne by done. rewrite (ko_metrics _ Hs). by rewrite Z.add_0_r.
  - intros id' sc. rewrite Hcount. simpl. intros [[<- <-]|[Hne Hsc]]%lookup_insert_Some.
    + by rewrite decide_True.
    + rewrite decide_False, Z.add_0_r by done. by apply (ko_checked _ Hs).
  - simpl. rewrite sum_of_insert, <- (ko_quota _ Hs). by rewrite Hold.
Qed.

Lemma applied_cleanup_ok old :
  sm_kind mu = Mutate_Cleanup → ks_metrics s !! id = Some old →
  keyspace_ok (apply_cleanup mu old s) ∧ evolves s (apply_cleanup mu old s).
Proof.
  intros Hk Hold. set (s' := apply_cleanup mu old s).
  assert (∀ id', document s' id' = if decide (id' = id) then Some (sm_next_state mu) else document s id') as Hd.
  { intros id'. unfold document, s'. simpl. destruct (decide (id' = id)) as [->|].
    - by rewrite lookup_delete_eq, lookup_insert_eq.
    - by rewrite lookup_delete_ne, lookup_insert_ne. }
  destruct admitted_next as (Hok & Hclean & _). pose proof (λ id', claims_after_of id' s' eq_refl) as Hcount.
  assert (ks_owners s' = owners_after) as Ho by (unfold owners_after; by rewrite bool_decide_false by congruence).
  assert (ks_cleaned s ⊆ ks_cleaned s') as Hcl by apply insert_subseteq, (ad_cleaned _ _ Ha).
  destruct (applied_ledger s' eq_refl Ho Hcl Hd) as (H1 & H2 & H3 & H4 & H5).
  split; [|by apply applied_evolves]. split; try done.
  - intros id' sc. simpl. intros [_ Hsc]%lookup_delete_Some. by apply (ko_scope _ Hs).
  - intros id' sc. simpl. intros [[<- <-]|[_ Hsc]]%lookup_insert_Some; [|by apply (ko_cleaned _ Hs)].
    split; [done|]. by apply Hclean.
  - intros id' Hc. simpl in Hc |- *. destruct (decide (id = id')) as [<-|Hne]; [apply lookup_delete_eq|].
    rewrite lookup_delete_ne by done. apply (ko_apart _ Hs). by rewrite lookup_insert_ne in Hc.
  - intros id'. rewrite Hcount. simpl. destruct (decide (id = id')) as [<-|Hne].
    + by rewrite !lookup_delete_eq.
    + rewrite !lookup_delete_ne by done. rewrite (ko_metrics _ Hs). by rewrite Z.add_0_r.
  - intros id' sc. rewrite Hcount. simpl. intros [Hne Hsc]%lookup_delete_Some.
    rewrite decide_False, Z.add_0_r by done. by apply (ko_checked _ Hs).
  - simpl. by rewrite (ko_quota _ Hs), (sum_of_delete _ _ _ Hold), metrics_sub_add.
Qed.
End applied.

Section run.
Context (config : RedisScopeStoreConfig).

(** Where the script leaves the keyspace as it is. *)
Definition refused s mu (status : MutationStatus) : Prop :=
  match status with
  | Status_Applied => False
  | Status_Replayed => ks_claims s !! sm_operation_identity mu = Some (claim_value mu)
  | Status_ReplayedCleanup =>
      ks_claims s !! sm_operation_identity mu = Some (claim_value mu) ∧ is_Some (ks_cleaned s !! sm_scope_id mu)
  | Status_Cleaned => is_Some (ks_cleaned s !! sm_scope_id mu)
  | Status_Missing => sm_kind mu ≠ Mutate_Create ∧ document s (sm_scope_id mu) = None
  | Status_Collision o => sm_kind mu = Mutate_Create ∧ ks_owners s !! sm_owner_identity mu = Some o
  | Status_ClaimConflict =>
      ∃ c, ks_claims s !! sm_operation_identity mu = Some c ∧ c ≠ claim_value mu
  | Status_Stale => ks_scopes s !! sm_scope_id mu ≠ sm_expected_state mu
  | Status_Fenced => enforces_admission_limit (sm_kind mu) = true
  | Status_Accounting => True
  end.

(** What has been admitted with its claim is within the limits. *)
Definition fits (x : StoredMetrics) : Prop :=
  (m_used_bytes x <= hard_limit_bytes config ∧ m_namespace_records x <= hard_limit_scopes config ∧
   m_scope_values x <= hard_limit_values config)%Z.

Inductive script_result s mu : MutationStatus → keyspace → Prop :=
| script_refused status : refused s mu status → script_result s mu status s
| script_applied new : admitted s mu → sm_kind mu ≠ Mutate_Cleanup → sm_next_metrics mu = Some new →
    let s' := apply_mutation mu (default no_metrics (ks_metrics s !! sm_scope_id mu)) new s in
    (enforces_admission_limit (sm_kind mu) = true → fits (ks_quota s')) →
    script_result s mu Status_Applied s'
| script_cleaned old : admitted s mu → sm_kind mu = Mutate_Cleanup → ks_metrics s !! sm_scope_id mu = Some old →
    script_result s mu Status_Cleaned (apply_cleanup mu old s).

Lemma script_spec s mu :
  keyspace_ok s → proper mu →
  script_result s mu (scope_store_script config mu s).1 (scope_store_script config mu s).2.
Proof.
  intros Hs Hp. unfold scope_store_script.
  destruct (ks_claims s !! sm_operation_identity mu) as [prior|] eqn:Hclaim.
  { apply script_refused. simpl. case_bool_decide as Heq; simpl; [subst prior|by exists prior].
    case_bool_decide as Hk; [|done]. case_bool_decide as Hc; [done|]. split; [done|]. by destruct (ks_cleaned s !! _). }
  case_bool_decide as Hcl; [by apply script_refused|].
  assert (ks_cleaned s !! sm_scope_id mu = None) as Hcl' by (destruct (ks_cleaned s !! _); [by destruct Hcl|done]).
  destruct (script_refusal mu s) as [status|] eqn:Href.
  { cbn [fst snd]. apply script_refused. unfold script_refusal in Href. case_bool_decide as Hk.
    - destruct (ks_owners s !! _) as [o|] eqn:Ho; [|done]. case_bool_decide; [done|]. by injection Href as <-.
    - case_bool_decide as Hn; [|done]. injection Href as <-. split; [done|]. unfold document. by rewrite Hn. }
  case_bool_decide as Hst; [|by apply script_refused]. cbn [negb].
  case_bool_decide as Hme; [|by apply script_refused]. cbn [negb].
  assert (admitted s mu) as Had.
  { split; [done..| |done]. intros Hk o Ho. unfold script_refusal in Href. rewrite bool_decide_true, Ho in Href by done.
    by case_bool_decide. }
  unfold script_commit. case_bool_decide as Hk.
  { destruct (ks_scopes s !! _); [|by apply script_refused].
    destruct (ks_metrics s !! _) as [old|] eqn:Hold; [|by apply script_refused].
    destruct (covers _ _); [by apply script_cleaned|by apply script_refused]. }
  destruct (sm_next_metrics mu) as [new|] eqn:Hnew; [|by apply script_refused].
  destruct (covers _ _); cbn [negb]; [|by apply script_refused].
  destruct (enforces_admission_limit (sm_kind mu)) eqn:He; simpl.
  - destruct (_ || _) eqn:Hl; [by apply script_refused|]. apply script_applied; [done..|]. intros _.
    rewrite !orb_false_iff, !Z.ltb_ge in Hl. unfold fits. simpl in *. lia.
  - apply script_applied; [done..|congruence].
Qed.

Lemma script_result_ok s mu status s' :
  keyspace_ok s → script_result s mu status s' → keyspace_ok s' ∧ evolves s s'.
Proof.
  intros Hs [status' _|new Ha Hk Hn|old Ha Hk Ho]; [done|..].
  - by apply applied_mutation_ok.
  - by apply applied_cleanup_ok.
Qed.

(** *** Limits *)

(** The number of scopes and of values is bounded at any time; the bytes only when
    something is admitted, since snapshots and claims are never refused. *)
Definition within_limits s : Prop :=
  (m_namespace_records (ks_quota s) <= hard_limit_scopes config)%Z ∧
  (m_scope_values (ks_quota s) <= hard_limit_values config)%Z.

Lemma follows_counts kind sc sc' n n' :
  enforces_admission_limit kind = false → follows kind (Some sc) sc' →
  m_namespace_records (metrics_for sc' n') = m_namespace_records (metrics_for sc n) ∧
  (m_scope_values (metrics_for sc' n') <= m_scope_values (metrics_for sc n))%Z.
Proof.
  intros He Hf. inversion Hf as [|? m now Hst Hm Hmb|? k now Hst|? now Hst|? c now Hst Hn Hc|? now Hst Hc]; subst;
    simpl in *; try done.
  - rewrite map_size_delete. destruct (st_values sc !! k); simpl; lia.
  - rewrite map_size_empty. lia.
Qed.

Lemma script_within s mu status s' :
  keyspace_ok s → script_result s mu status s' → within_limits s → within_limits s'.
Proof.
  intros Hs [status' _|new Ha Hk Hn s0 Hfit|old Ha Hk Ho] Hw; [done|..].
  - destruct (enforces_admission_limit (sm_kind mu)) eqn:He.
    { destruct (Hfit eq_refl) as (_ & ? & ?). by split. }
    pose proof (ad_proper _ _ Ha) as [Hf _ Hm _ _ _]. rewrite bool_decide_false in Hm by done. destruct Hm as [Hm _].
    rewrite Hn in Hm. injection Hm as ->.
    destruct (sm_expected_state mu) as [sc|] eqn:Hst; [|inversion Hf as [? ? ? Hc| | | | |]; by rewrite <- Hc in He].
    destruct (follows_counts _ _ _ (claims_of s (sm_scope_id mu)) (operations_before mu + 1) He Hf) as [H1 H2].
    subst s0. unfold within_limits in *. simpl in *. rewrite (ko_metrics _ Hs), (ad_state _ _ Ha), Hst. simpl in *. lia.
  - pose proof (keyspace_metrics_pos _ Hs _ _ Ho) as Hp%metrics_pos_iff. unfold within_limits in *. simpl. lia.
Qed.
End run.

(** ** Mutations *)

Lemma for_scope_Ok sc n x : for_scope sc n = Ok x → x = metrics_for sc n.
Proof.
  unfold for_scope, RedisScopeStore.for_scope. destruct (checked_u64 _); [|done]. simpl.
  destruct (checked_u64 _); [|done]. by intros [= <-].
Qed.

Section mutation.
Context (kind : MutationKind) (op : string) (payload : bytes) (id : Uuid) (owner : string).
Context (current : option (scope * StoredMetrics)) (next : scope).

Definition operation_named : Prop :=
  match phase_operation kind id with Some o => op = o | None => ∃ c, op = claim_identity c end.

Lemma mutation_proper mu :
  ScriptMutation_new encoded_len kind op payload id owner current next = Ok mu →
  follows kind (fst <$> current) next → st_scope_id next = id →
  (kind = Mutate_Create → owner = owner_identity (st_namespace next) (st_run_id next) ∧
                          op = claim_identity (st_creation_claim_id next)) →
  operation_named → proper mu ∧ sm_kind mu = kind ∧ sm_operation_identity mu = op ∧ claim_value mu = (id, sha256_hex payload) ∧
  sm_scope_id mu = id ∧ sm_next_state mu = next ∧ sm_owner_identity mu = owner ∧
  sm_expected_state mu = fst <$> current ∧ sm_expected_metrics mu = snd <$> current.
Proof.
  unfold ScriptMutation_new. intros Hnew Hf Hid Hcreate Hop.
  destruct (match current with Some _ => _ | None => _ end) as [n|] eqn:Hn; [|done].
  assert (n = match snd <$> current with Some e => m_operation_records e | None => 0 end + 1)%Z as ->.
  { destruct current as [[sc m]|]; simpl in *; [|by injection Hn as <-]. unfold checked_u64 in Hn. by destruct (_ <=? _)%Z; simplify_eq. }
  simpl in Hnew. case_bool_decide as Hk.
  - injection Hnew as <-. split; [|done]. split; [done|done| | | |done]; simpl; [by rewrite bool_decide_true|naive_solver..].
  - destruct (for_scope next _) as [m|] eqn:Hfor; [|done]. pose proof (for_scope_Ok _ _ _ Hfor) as ->.
    injection Hnew as <-. split; [|done].
    split; [done|done| | | |done]; simpl; [by rewrite bool_decide_false|naive_solver..].
Qed.
End mutation.

(** ** The values of a request *)

Definition input_ok (v : ScopeValueInput) : Prop :=
  valid_key (svi_key v) = true ∧ (len (svi_envelope v) <= MAX_SCOPE_VALUE_BYTES)%Z ∧
  validate_envelope parse_json (svi_envelope v) = Ok tt.

Lemma check_request_none values : ∀ seen,
  check_request parse_json seen values = None → Forall input_ok values.
Proof.
  induction values as [|v values IH]; intros seen; simpl; [done|]. destruct (_ || _) eqn:Hk; [done|].
  apply orb_false_iff in Hk as [Hk%negb_false_iff _]. destruct (Z.ltb_spec MAX_SCOPE_VALUE_BYTES (len (svi_envelope v))) as [|Hl]; [done|].
  destruct (validate_envelope _ _) as [[]|] eqn:He; [|done]. intros Hr%IH. constructor; [done|done].
Qed.

Lemma mutation_request_ok values allow_empty :
  validate_mutation parse_json values allow_empty = None →
  Forall input_ok values ∧ (Z.of_nat (length values) <= MAX_SCOPE_REQUEST_VALUES)%Z ∧
  (sum_by (λ v, len (svi_envelope v)) values <= MAX_SCOPE_REQUEST_BYTES)%Z.
Proof.
  unfold validate_mutation. destruct values as [|v values]; [done|].
  destruct (Z.ltb_spec MAX_SCOPE_REQUEST_VALUES (Z.of_nat (length (v :: values)))); [done|].
  destruct (Z.ltb_spec MAX_SCOPE_REQUEST_BYTES (sum_by (λ v, len (svi_envelope v)) (v :: values))); [done|].
  intros Hc%check_request_none. done.
Qed.

Lemma new_value_ok id created now v :
  input_ok v → stored_ok id (svi_key v) (new_value uuid_bytes id created now v).
Proof. intros (Hk & _ & He). by split. Qed.

Lemma write_values_ok id now inputs : ∀ m i u,
  Forall input_ok inputs → values_ok id m → values_ok id (write_values uuid_bytes id now inputs m i u).1.1.
Proof.
  induction inputs as [|v inputs IH]; intros m i u Hv Hm; simpl; [done|]. inversion Hv; subst.
  apply IH; [done|]. apply map_Forall_insert_2; [by apply new_value_ok|done].
Qed.

Section created.
Context (id : Uuid) (now : Z).
Abbreviation created := (foldl (λ t v, <[svi_key v := new_value uuid_bytes id now now v]> t)).

Lemma created_Forall (P : string → StoredValue → Prop) inputs : ∀ m : gmap string StoredValue,
  (∀ v, input_ok v → P (svi_key v) (new_value uuid_bytes id now now v)) → Forall input_ok inputs →
  map_Forall P m → map_Forall P (created m inputs).
Proof.
  induction inputs as [|v inputs IH]; intros m HP Hv Hm; simpl; [done|]. inversion Hv; subst.
  apply IH; [done..|]. by apply map_Forall_insert_2; [apply HP|].
Qed.

Lemma created_sizes inputs : ∀ m,
  (Z.of_nat (size (created m inputs)) <= Z.of_nat (size m) + Z.of_nat (length inputs))%Z ∧
  (value_bytes (created m inputs) <= value_bytes m + sum_by (λ v, len (svi_envelope v)) inputs)%Z.
Proof.
  induction inputs as [|v inputs IH]; intros m; simpl; [lia|].
  destruct (IH (<[svi_key v := new_value uuid_bytes id now now v]> m)) as [Hs Hb].
  pose proof (value_bytes_insert m (svi_key v) (new_value uuid_bytes id now now v)) as Hi. simpl in Hi.
  rewrite map_size_insert in Hs. destruct (m !! svi_key v); simpl in *; lia.
Qed.

Lemma created_in_bounds inputs :
  Forall input_ok inputs → (Z.of_nat (length inputs) <= MAX_SCOPE_REQUEST_VALUES)%Z →
  (sum_by (λ v, len (svi_envelope v)) inputs <= MAX_SCOPE_REQUEST_BYTES)%Z → in_bounds (created ∅ inputs).
Proof.
  intros Hv Hn Hb. destruct (created_sizes inputs ∅) as [Hs Ht]. rewrite map_size_empty in Hs.
  assert (value_bytes ∅ = 0%Z) as Hz by done.
  unfold MAX_SCOPE_REQUEST_VALUES, MAX_SCOPE_REQUEST_BYTES in *. split.
  - unfold MAX_SCOPE_ROWS. lia.
  - apply (created_Forall (λ _ x, (len (v_envelope x) <= MAX_SCOPE_VALUE_BYTES)%Z)); [|done|done].
    by intros v (_ & Hl & _).
  - unfold MAX_SCOPE_BYTES. lia.
Qed.
End created.

Lemma created_doc_ok input digest :
  is_ok (validate_scope_identity (ci_namespace input) (ci_run_id input)) = true →
  validate_mutation parse_json (ci_values input) true = None →
  doc_ok (ci_scope_id input) (created_scope uuid_bytes input digest).
Proof.
  intros Hid (Hv & Hn & Hb)%mutation_request_ok. split; simpl; try done.
  - apply created_Forall; [|done|done]. intros v Hin. by apply new_value_ok.
  - by apply created_in_bounds.
Qed.
End facts.
