(* ===== verification/RedisScopeDemo.v ===== *)
(** * A small Redis scope store

    Concrete parameters and requests, on which the theorems about the scope store on
    Redis are shown to apply. *)

From S2P Require Import Prelude Json Uuid Sha256 ScopeStore ScopeStoreFacts RedisScopeStore.

Lemma text_of_bytes k : text_of (bytes_of k) = Some k.
Proof.
  unfold text_of, bytes_of. rewrite <- list_fmap_compose. f_equal.
  rewrite <- (String.string_of_list_ascii_of_string k) at 2. f_equal.
  induction (String.list_ascii_of_string k) as [|c l IH]; [done|]. rewrite fmap_cons. f_equal; [|exact IH].
  simpl. rewrite N2Z.id. apply Ascii.ascii_N_embedding.
Qed.

(** Every document counts as a hundred bytes. *)
Definition flat_len (_ : StoredScope bit_uuid) : Z := 100.

Lemma flat_len_nonneg sc : (0 <= flat_len sc)%Z.
Proof. done. Qed.

Definition demo_redis_config : RedisScopeStoreConfig := mkScopeConfig "demo" 5000 10000 4 8.

Definition demo_creation : CreateTickrCtxScopeInput bit_uuid :=
  mkCreateInput (unary 3) "default" "run" (unary 4) [mkScopeValueInput "a" (bytes_of "{v:1}")] 1.

Definition demo_update : WriteTickrCtxScopeInput bit_uuid :=
  mkWriteInput (unary 3) (unary 5)
    [mkScopeValueInput "b" (bytes_of "{v:2}"); mkScopeValueInput "a" (bytes_of "{v:3}")] 2.

Definition demo_removal : DeleteTickrCtxScopeInput bit_uuid := mkDeleteInput (unary 3) (unary 6) "a" 3.

(** The digest of the snapshot that is taken after these. *)
Definition demo_snapshot_digest : string := sha256_hex (snapshot_bytes
  {["b" := mkStoredValue "" (bytes_of "{v:2}") 2 2]}).

Definition demo_archive : bytes := [1; 2; 3]%Z.
