(* ===== verification/RedisScopeSafety.v ===== *)
(** * Safety of the scope store on Redis

    Any number of clients use the store at once; every command may fail or be
    unheard, and a client may stop anywhere.  Whatever they do, the accounts are
    exact, the limits hold, and the values of a scope leave Redis only after the
    commit of their archive is recorded. *)

From S2P Require Import Prelude Json Uuid Sha256 ScopeStore ScopeStoreFacts Programs Workers RedisScopeStore RedisScopeFacts RedisScopeDemo.

Section safety.
Context `{UuidLaws Uuid} `{!Countable Uuid}.
Context (uuid_bytes : Uuid → bytes) (parse_json : bytes → option Json) (from_utf8 : bytes → option string).
Context (encoded_len : StoredScope Uuid → Z) (config : RedisScopeStoreConfig).
Hypothesis utf8 : ∀ k, from_utf8 (bytes_of k) = Some k.
Hypothesis encoded_nonneg : ∀ sc, (0 <= encoded_len sc)%Z.

Abbreviation scope := (StoredScope Uuid).
Abbreviation keyspace := (ScopeKeyspace (Uuid := Uuid)).
Abbreviation mutation := (ScriptMutation (Uuid := Uuid)).
Abbreviation await := (Await keyspace Report Empty_set Uuid).
Abbreviation failure := (RepositoryError Empty_set).
Abbreviation program A := (prog await failure A).
Abbreviation answer A := (program (result A RedisScopeStoreError)).
Abbreviation redis_world := (World keyspace Report).
Abbreviation doc_ok := (doc_ok uuid_bytes parse_json).
Abbreviation keyspace_ok := (keyspace_ok uuid_bytes parse_json encoded_len).
Abbreviation proper := (proper uuid_bytes parse_json encoded_len).
Abbreviation metrics_for := (metrics_for encoded_len).
Abbreviation for_scope := (for_scope encoded_len).
Abbreviation load := (load uuid_bytes parse_json from_utf8 encoded_len).
Abbreviation mutate := (mutate encoded_len config).
Implicit Types (w : redis_world) (id : Uuid) (sc : scope).

(** The document that was cleaned was there, archived, in an earlier keyspace. *)
Definition archived_in (s : keyspace) id sc : Prop :=
  ∃ before, ks_scopes s !! id = Some before ∧ doc_ok id before ∧ st_state before = Stored_Snapshotted ∧
    st_snapshot before = st_snapshot sc ∧ st_archive_commit before = st_archive_commit sc.

Record inv w : Prop := {
  inv_ok : keyspace_ok (now_store w);
  inv_limits : within_limits config (now_store w);
  inv_archived id sc : ks_cleaned (now_store w) !! id = Some sc → ∃ s, s ∈ past w ∧ archived_in s id sc
}.

Definition rely w w2 : Prop := evolves (now_store w) (now_store w2).

#[local] Instance rely_preorder : PreOrder rely.
Proof. split; [by intros w; unfold rely|]. intros w1 w2 w3. unfold rely. by etrans. Qed.

Abbreviation wp := (wp (Op := await) (E := failure) perform inv rely).

(** A store that stays the same. *)
Lemma inv_committed_same w : inv w → inv (committed w (now_store w)).
Proof. intros [H1 H2 H3]. split; [done|done|]. intros id sc (s & Hs & Ha)%H3. exists s. split; [by right|done]. Qed.

(** What a program promises when it succeeds. *)
Definition ok_post {A} (P : A → redis_world → Prop) (r : result A RedisScopeStoreError) w : Prop :=
  match r with Ok a => P a w | Err _ => True end.

Section rules.
Context {A : Type} (P : A → redis_world → Prop).

Lemma wp_error e w : wp (Ret (Err e)) (ok_post P) w.
Proof. done. Qed.

Lemma wp_answer a w : (∀ w2, rely w w2 → inv w2 → P a w2) → wp (Ret (Ok a)) (ok_post P) w.
Proof. done. Qed.

Lemma wp_command {X} (f : keyspace → X) (k : X → answer A) w :
  (∀ w2, rely w w2 → inv w2 → wp (k (f (now_store w2))) (ok_post P) w2) →
  wp (let*? x := command f in k x) (ok_post P) w.
Proof.
  intros Hk. apply (wp_read inv rely _ (λ _, f) (λ r, match map_err (λ _, Unavailable) r with Ok x => k x | Err e => Ret (Err e) end)).
  - intros w2 _ Hi. split; [by apply inv_committed_same|by unfold rely].
  - intros w2 _ Hr Hi. apply (Hk (committed w2 (now_store w2))); [done|by apply inv_committed_same].
  - done.
Qed.

Lemma wp_report r (k : unit → answer A) w :
  (∀ w2, rely w w2 → inv w2 → wp (k tt) (ok_post P) w2) → wp (let* x := report r in k x) (ok_post P) w.
Proof.
  intros Hk. apply wp_send. intros w2 b Hr Hi. destruct Hi. split_and!; [by split|by unfold rely|].
  apply Hk; [done|by split].
Qed.

Lemma wp_accounting w : wp accounting_failure (ok_post P) w.
Proof. by apply wp_report. Qed.

Lemma wp_corrupt w : wp corrupt_scope (ok_post P) w.
Proof. by apply wp_report. Qed.

Lemma wp_then {B} (PB : B → redis_world → Prop) (p : answer B) (k : B → answer A) w :
  inv w → wp p (ok_post PB) w → (∀ b w2, rely w w2 → inv w2 → PB b w2 → wp (k b) (ok_post P) w2) →
  wp (let*? x := p in k x) (ok_post P) w.
Proof.
  intros Hi Hp Hk. apply wp_bind_ok; [apply _| |done]. revert Hp. apply wp_mono; [apply _|].
  intros [b|e] w2 Hr Hi2 Hb; [by apply Hk|done].
Qed.
End rules.

Lemma guard_spec w : wp guard (ok_post (λ _ _, True)) w.
Proof.
  apply (wp_read inv rely _ (λ _ _, tt) (λ r, Ret (map_err (λ _, Unavailable) r))); [|done..].
  intros w2 _ Hi. split; [by apply inv_committed_same|by unfold rely].
Qed.

Lemma guard_existing_spec w : inv w → wp guard_existing_commit (ok_post (λ _ _, True)) w.
Proof. intros Hi. eapply wp_then; [done|apply guard_spec|]. intros _ w2 _ _ _. apply guard_spec. Qed.

Lemma wp_guard_existing {A} (P : A → redis_world → Prop) a w :
  inv w → (∀ w2, rely w w2 → inv w2 → P a w2) → wp (let*? _ := guard_existing_commit in Ret (Ok a)) (ok_post P) w.
Proof.
  intros Hi Ha. eapply wp_then; [done|by apply guard_existing_spec|].
  intros _ w2 Hr _ _ w3 Hr3. apply Ha. by etrans.
Qed.

(** ** Loading *)

Definition became w id sc : Prop := ∃ sc', document (now_store w) id = Some sc' ∧ doc_evolves sc sc'.

Definition loaded_as id (l : LoadedScope (Uuid := Uuid)) w : Prop :=
  match l with
  | Loaded_Current sc m =>
      doc_ok id sc ∧ st_state sc ≠ Stored_Cleaned ∧ for_scope sc (m_operation_records m) = Ok m ∧ became w id sc
  | Loaded_Cleaned sc => ks_cleaned (now_store w) !! id = Some sc
  | Loaded_Missing => True
  end.

Lemma became_grows w w2 id sc : rely w w2 → became w id sc → became w2 id sc.
Proof.
  intros Hr (sc' & Hd & He). destruct (ev_document _ _ Hr _ _ Hd) as (sc2 & Hd2 & He2).
  exists sc2. split; [done|]. by etrans.
Qed.

Lemma cleaned_grows w w2 id sc :
  rely w w2 → ks_cleaned (now_store w) !! id = Some sc → ks_cleaned (now_store w2) !! id = Some sc.
Proof. intros Hr Hc. eapply lookup_weaken; [done|apply Hr]. Qed.

Lemma claims_kept w w2 op c :
  rely w w2 → ks_claims (now_store w) !! op = Some c → ks_claims (now_store w2) !! op = Some c.
Proof. intros Hr Hc. eapply lookup_weaken; [done|apply Hr]. Qed.

Lemma decode_ok id sc cleaned :
  doc_ok id sc → cleaned = bool_decide (st_state sc = Stored_Cleaned) →
  decode_scope uuid_bytes parse_json from_utf8 id sc cleaned = Ret (Ok sc).
Proof.
  intros Hd ->. unfold decode_scope. rewrite (doc_well_formed _ _ _ _ Hd), (doc_phase _ _ _ utf8 _ _ Hd).
  by rewrite Bool.eqb_reflx.
Qed.

Lemma redis_load_spec id w : wp (load id) (ok_post (loaded_as id)) w.
Proof.
  apply wp_command. intros w2 _ Hi2. apply wp_command. intros w3 Hr3 Hi3. apply wp_command. intros w4 Hr4 Hi4.
  destruct (ks_scopes (now_store w2) !! id) as [sc|] eqn:Hsc, (ks_cleaned (now_store w3) !! id) as [sc'|] eqn:Hcl,
    (ks_metrics (now_store w4) !! id) as [m|]; try apply wp_accounting; [|..|done].
  - destruct (ko_scope _ _ _ _ (inv_ok _ Hi2) _ _ Hsc) as [Hd Hst].
    rewrite decode_ok by (done || by rewrite bool_decide_false). cbn [bind_ok bind].
    destruct (for_scope sc _) as [x|] eqn:Hfor; [|done]. case_bool_decide as Hm; [|apply wp_accounting]. subst x.
    intros w5 Hr5 _. split_and!; [done..|].
    apply (became_grows w2); [by do 2 (etrans; [eassumption|])|]. exists sc. by rewrite (document_current _ _ _ Hsc).
  - destruct (ko_cleaned _ _ _ _ (inv_ok _ Hi3) _ _ Hcl) as [Hd Hst].
    rewrite decode_ok by (done || by rewrite bool_decide_true). cbn [bind_ok bind].
    intros w5 Hr5 _. simpl. eapply cleaned_grows; [|done]. by etrans.
Qed.

Lemma claim_status_spec op id payload w :
  wp (claim_status uuid_bytes parse_json from_utf8 encoded_len op id payload)
    (ok_post (λ c w2, c = Claim_Matching → ks_claims (now_store w2) !! op = Some (id, sha256_hex payload))) w.
Proof.
  apply wp_command. intros w2 _ Hi2. destruct (ks_claims (now_store w2) !! op) as [prior|] eqn:Hop; [|done].
  case_bool_decide as Hp; [subst prior|done]. eapply wp_then; [done|apply redis_load_spec|].
  intros [sc m|sc|] w3 Hr3 Hi3 _; [..|apply wp_accounting].
  all: intros w4 Hr4 _ _; eapply claims_kept; [|done]; by etrans.
Qed.

(** ** Mutating *)

Section mutate.
Context (kind : MutationKind) (op : string) (payload : bytes) (id : Uuid) (owner : string).
Context (current : option (scope * StoredMetrics)) (next : scope).
Abbreviation claim := (id, sha256_hex payload).

Definition settled_as (status : MutationStatus) w : Prop :=
  match status with
  | Status_Applied => ks_claims (now_store w) !! op = Some claim ∧ became w id next
  | Status_Replayed => ks_claims (now_store w) !! op = Some claim
  | Status_ReplayedCleanup | Status_Cleaned => is_Some (ks_cleaned (now_store w) !! id)
  | Status_ClaimConflict => ∃ c, ks_claims (now_store w) !! op = Some c ∧ c ≠ claim
  | Status_Collision o => ks_owners (now_store w) !! owner = Some o
  | _ => True
  end.

Lemma settled_as_grows status w w2 : rely w w2 → settled_as status w → settled_as status w2.
Proof.
  intros Hr. destruct status; simpl; try done.
  - intros [Hc Hb]. split; [by eapply claims_kept|by eapply became_grows].
  - by apply claims_kept.
  - intros [x Hx]. exists x. by eapply cleaned_grows.
  - intros (c & Hc & Hne). exists c. split; [by eapply claims_kept|done].
  - intros Ho. eapply lookup_weaken; [done|apply Hr].
  - intros [x Hx]. exists x. by eapply cleaned_grows.
Qed.

(** The keyspace that the script leaves. *)
Lemma script_inv mu w status s' :
  inv w → proper mu → scope_store_script config mu (now_store w) = (status, s') →
  inv (committed w s') ∧ evolves (now_store w) s' ∧
  script_result uuid_bytes parse_json encoded_len config (now_store w) mu status s'.
Proof.
  intros [Hok Hlim Harch] Hp Hscript.
  pose proof (script_spec _ _ _ config _ _ Hok Hp) as Hres. rewrite Hscript in Hres. cbn [fst snd] in Hres.
  destruct (script_result_ok _ _ _ _ _ _ _ _ Hok Hres) as [Hok' Hev]. split_and!; [|done|done].
  split; [done|by apply (script_within _ _ _ encoded_nonneg _ _ _ _ _ Hok Hres)|]. simpl.
  assert (∀ id0 sc, ks_cleaned (now_store w) !! id0 = Some sc →
    ∃ s, s ∈ now_store w :: past w ∧ archived_in s id0 sc) as Hold.
  { intros id0 sc (s & Hs & Ha)%Harch. exists s. split; [by right|done]. }
  intros id0 sc. destruct Hres as [| |old Had Hk Hm]; [apply Hold..|]. simpl.
  intros [[<- <-]|[_ Hsc]]%lookup_insert_Some; [|by apply Hold].
  exists (now_store w). split; [left|]. pose proof (pr_follows _ _ _ _ Hp) as Hf. rewrite Hk in Hf.
  pose proof (ad_state _ _ _ _ _ Had) as Hst. inversion Hf as [| | | | |before now Hsn Hac Hk2 Hb Hn].
  rewrite <- Hb in Hst. exists before. split_and!; [done| |by rewrite <- ?Hn..].
  by apply (ko_scope _ _ _ _ Hok).
Qed.

Lemma mutate_spec w :
  inv w → follows uuid_bytes parse_json kind (fst <$> current) next → st_scope_id next = id →
  (kind = Mutate_Create → owner = owner_identity (st_namespace next) (st_run_id next) ∧
                          op = claim_identity (st_creation_claim_id next)) →
  operation_named kind op id → wp (mutate kind op payload id owner current next) (ok_post settled_as) w.
Proof.
  intros Hi Hf Hid Hcreate Hnamed. unfold mutate, RedisScopeStore.mutate. apply wp_command. intros w2 _ Hi2.
  destruct (ScriptMutation_new _ _ _ _ _ _ _ _) as [mu|e] eqn:Hnew; [|done].
  destruct (mutation_proper _ _ _ _ _ _ _ _ _ _ _ Hnew Hf Hid Hcreate Hnamed) as (Hp & Hk & Hop & Hcl & Hsid & Hnext & Hown & _).
  eapply (wp_then _ (λ o w3, settled_as o.1 w3)); [done| |].
  - unfold commit_mutation. apply wp_bind_call, wp_transact; [apply _| |done].
    intros w3 now x s' Hr3 Hi3 Hscript. destruct (scope_store_script config mu (now_store w3)) as [status s2] eqn:Hs2.
    injection Hscript as <- <-. destruct (script_inv _ _ _ _ Hi3 Hp Hs2) as (Hi4 & Hev & Hres).
    split_and!; [done|done|]. apply wp_bind_call, wp_transact; [apply _| |done].
    intros w5 now5 x5 s5 Hr5 Hi5 [= <- <-]. split_and!; [by apply inv_committed_same|by unfold rely|].
    intros w6 Hr6 _. simpl. apply (settled_as_grows _ (committed w3 s2)); [by etrans; [exact Hr5|exact Hr6]|].
    destruct Hres as [st Href|new Had Hkc Hn s0 Hfit|old Had Hkc Hm]; simpl.
    + destruct st; simpl in *; try done; rewrite <- ?Hop, <- ?Hcl, <- ?Hsid, <- ?Hown; try done; by destruct Href.
    + split; [by rewrite Hop, Hcl, lookup_insert_eq|]. exists next. unfold document. simpl.
      by rewrite Hsid, Hnext, lookup_insert_eq.
    + by rewrite Hsid, lookup_insert_eq.
  - intros [status quota] w3 Hr3 Hi3 Hst. cbn [fst snd] in *.
    eapply wp_then; [done| |].
    + unfold finish_operation. apply wp_report. intros w4 _ _. apply guard_spec.
    + intros _ w4 Hr4 _ _ w5 Hr5 _. simpl. eapply settled_as_grows; [|done]. by etrans.
Qed.
End mutate.

Abbreviation values_ok := (values_ok uuid_bytes parse_json).

(** ** The operations *)

Definition claim_held w op id payload : Prop := ks_claims (now_store w) !! op = Some (id, sha256_hex payload).

Lemma claim_held_grows w w2 op id payload : rely w w2 → claim_held w op id payload → claim_held w2 op id payload.
Proof. apply claims_kept. Qed.

Abbreviation create_tickr_ctx_scope := (create_tickr_ctx_scope uuid_bytes parse_json from_utf8 encoded_len config).
Abbreviation write_tickr_ctx_scope := (write_tickr_ctx_scope uuid_bytes parse_json from_utf8 encoded_len config).
Abbreviation delete_tickr_ctx_scope_value :=
  (delete_tickr_ctx_scope_value uuid_bytes parse_json from_utf8 encoded_len config).
Abbreviation read_tickr_ctx_scope := (read_tickr_ctx_scope uuid_bytes parse_json from_utf8 encoded_len).
Abbreviation snapshot_tickr_ctx_scope := (snapshot_tickr_ctx_scope uuid_bytes parse_json from_utf8 encoded_len config).
Abbreviation snapshot_tickr_ctx_scope_for_run :=
  (snapshot_tickr_ctx_scope_for_run uuid_bytes parse_json from_utf8 encoded_len config).
Abbreviation record_verified_archive_commit :=
  (record_verified_archive_commit uuid_bytes parse_json from_utf8 encoded_len config).
Abbreviation cleanup_tickr_ctx_scope := (cleanup_tickr_ctx_scope uuid_bytes parse_json from_utf8 encoded_len config).

Lemma wp_status_error {A} (P : A → redis_world → Prop) status w : wp (status_error status) (ok_post P) w.
Proof. destruct status; by try apply wp_accounting. Qed.

Lemma create_spec input w : inv w → wp (create_tickr_ctx_scope input) (ok_post (λ _ _, True)) w.
Proof.
  intros Hi. unfold create_tickr_ctx_scope, RedisScopeStore.create_tickr_ctx_scope.
  destruct (validate_scope_identity _ _) as [[]|] eqn:Hid; [|done]. destruct (mutation_digest _ _ _) as [digest|]; [|done].
  destruct (validate_mutation _ _ _) eqn:Hv; [done|].
  eapply wp_then; [done|apply claim_status_spec|]. intros [] w2 _ Hi2 _; [|by apply wp_guard_existing|done].
  eapply wp_then; [done|apply redis_load_spec|].
  assert (∀ existing w3, inv w3 → wp
    (if bool_decide (st_creation_claim_id existing = ci_claim_id input) &&
        bool_decide (st_namespace existing = ci_namespace input) && bool_decide (st_run_id existing = ci_run_id input) &&
        bool_decide (st_creation_request_digest existing = digest)
     then let*? _ := guard_existing_commit in Ret (Ok Creation_Idempotent)
     else Ret (Ok (Creation_Collision (st_scope_id existing)))) (ok_post (λ _ _, True)) w3) as Hexisting.
  { intros existing w3 Hi3. destruct (_ && _); [by apply wp_guard_existing|done]. }
  intros [sc m|sc|] w3 _ Hi3 _; [by apply Hexisting..|].
  eapply wp_then; [done|apply mutate_spec|]; [done|..].
  - simpl. apply follows_create; [|done]. apply created_doc_ok; [by rewrite Hid|done].
  - done.
  - done.
  - by try eexists.
  - intros [] w4 _ _ _; done || apply wp_status_error.
Qed.

(** What a write or a deletion tells: that its claim is held. *)
Lemma write_loop_spec input payload attempts w :
  inv w → Forall (input_ok parse_json) (wi_values input) →
  wp (write_loop uuid_bytes parse_json from_utf8 encoded_len config attempts input (claim_identity (wi_claim_id input)) payload)
    (ok_post (λ o w2, match o with
                      | Write_Applied _ _ | Write_Idempotent =>
                          claim_held w2 (claim_identity (wi_claim_id input)) (wi_scope_id input) payload
                      | _ => True
                      end)) w.
Proof.
  intros Hi Hv. revert w Hi. induction attempts as [|n IH]; intros w Hi; [done|]. cbn [write_loop].
  eapply wp_then; [done|apply redis_load_spec|]. intros [sc m|sc|] w2 Hr2 Hi2 Hl; [|done..].
  destruct Hl as (Hd & _ & _ & _). case_bool_decide as Hst; [|done]. cbn [negb].
  destruct (age_bound _ _); [done|].
  pose proof (write_values_ok uuid_bytes parse_json (wi_scope_id input) (wi_now input) (wi_values input) (st_values sc) 0 0 Hv) as Hok.
  destruct (write_values _ _ _ _ _ _ _) as [[values inserted] updated]. simpl in Hok.
  destruct (stored_bounds values) eqn:Hb; [done|]. apply stored_bounds_none in Hb. pose proof (do_id _ _ _ _ Hd) as Hid.
  eapply wp_then; [done|apply mutate_spec|]; [done|..].
  - simpl. apply follows_write; [done| |done]. rewrite Hid. apply Hok, Hd.
  - done.
  - done.
  - by try eexists.
  - intros [] w3 Hr3 Hi3 Hs; simpl in Hs; try (done || apply wp_status_error); [..|by apply IH].
    all: intros w4 Hr4 _; eapply claim_held_grows; [exact Hr4|]; first [exact Hs|exact (proj1 Hs)].
Qed.

Abbreviation write_payload input digest := (mutation_payload uuid_bytes "write" (wi_scope_id input) digest).

Lemma write_spec input w :
  inv w →
  wp (write_tickr_ctx_scope input)
    (ok_post (λ o w2, match o with
                      | Write_Applied _ _ | Write_Idempotent =>
                          ∃ digest, mutation_digest uuid_bytes (wi_scope_id input) (wi_values input) = Ok digest ∧
                            claim_held w2 (claim_identity (wi_claim_id input)) (wi_scope_id input) (write_payload input digest)
                      | _ => True
                      end)) w.
Proof.
  intros Hi. unfold write_tickr_ctx_scope, RedisScopeStore.write_tickr_ctx_scope.
  destruct (mutation_digest _ _ _) as [digest|] eqn:Hdig; [|done]. destruct (validate_mutation _ _ _) eqn:Hv; [done|].
  apply mutation_request_ok in Hv as [Hv _]. eapply wp_then; [done|apply claim_status_spec|].
  intros [] w2 _ Hi2 Hc; [| |done].
  - eapply wp_mono; [apply _| |by apply write_loop_spec]. intros [[]|] w3 _ _; simpl; eauto.
  - apply wp_guard_existing; [done|]. intros w3 Hr3 _. exists digest. split; [done|]. eapply claim_held_grows; [done|by apply Hc].
Qed.

Lemma delete_loop_spec input payload attempts w :
  inv w →
  wp (delete_loop uuid_bytes parse_json from_utf8 encoded_len config attempts input (claim_identity (di_claim_id input)) payload)
    (ok_post (λ o w2, match o with
                      | Delete_Deleted | Delete_MissingKey | Delete_Idempotent =>
                          claim_held w2 (claim_identity (di_claim_id input)) (di_scope_id input) payload
                      | _ => True
                      end)) w.
Proof.
  revert w. induction attempts as [|n IH]; intros w Hi; [done|]. cbn [delete_loop].
  eapply wp_then; [done|apply redis_load_spec|]. intros [sc m|sc|] w2 Hr2 Hi2 Hl; [|done..].
  destruct Hl as (Hd & _ & _ & _). case_bool_decide as Hst; [|done]. cbn [negb].
  destruct (age_bound _ _); [done|]. pose proof (do_id _ _ _ _ Hd) as Hid.
  eapply wp_then; [done|apply mutate_spec|]; [done|..].
  - simpl. by apply follows_delete.
  - done.
  - done.
  - by try eexists.
  - intros [] w3 Hr3 Hi3 Hs; simpl in Hs; try (done || apply wp_status_error); [..|by apply IH].
    all: intros w4 Hr4 _; simpl; try case_bool_decide; (eapply claim_held_grows; [exact Hr4|]; first [exact Hs|exact (proj1 Hs)]).
Qed.

Abbreviation delete_payload input := (mutation_payload uuid_bytes "delete" (di_scope_id input) (delete_digest uuid_bytes (di_scope_id input) (di_key input))).

Lemma delete_spec input w :
  inv w →
  wp (delete_tickr_ctx_scope_value input)
    (ok_post (λ o w2, match o with
                      | Delete_Deleted | Delete_MissingKey | Delete_Idempotent =>
                          claim_held w2 (claim_identity (di_claim_id input)) (di_scope_id input) (delete_payload input)
                      | _ => True
                      end)) w.
Proof.
  intros Hi. unfold delete_tickr_ctx_scope_value, RedisScopeStore.delete_tickr_ctx_scope_value.
  destruct (validate_key _); [|done]. eapply wp_then; [done|apply claim_status_spec|].
  intros [] w2 _ Hi2 Hc; [by apply delete_loop_spec| |done].
  apply wp_guard_existing; [done|]. intros w3 Hr3 _. eapply claim_held_grows; [done|by apply Hc].
Qed.

(** *** Snapshots *)

(** The snapshot [s] of the scope is kept, in its document or in what is left of it. *)
Definition kept w id (s : TickrCtxScopeSnapshot Uuid) : Prop :=
  ∃ sc m, document (now_store w) id = Some sc ∧ values_ok id m ∧ in_bounds m ∧
          st_snapshot sc = Some (taken m) ∧ s = public id (taken m).

Lemma kept_grows w w2 id s : rely w w2 → kept w id s → kept w2 id s.
Proof.
  intros Hr (sc & m & Hd & Hv & Hb & Hs & ->). destruct (ev_document _ _ Hr _ _ Hd) as (sc' & Hd' & He).
  exists sc', m. split_and!; try done. by apply (de_snapshot _ _ He).
Qed.

Lemma became_kept w id sc m :
  became w id sc → values_ok id m → in_bounds m → st_snapshot sc = Some (taken m) → kept w id (public id (taken m)).
Proof. intros (sc' & Hd & He) Hv Hb Hs. exists sc', m. split_and!; try done. by apply (de_snapshot _ _ He). Qed.

Lemma cleaned_became w id sc : inv w → ks_cleaned (now_store w) !! id = Some sc → became w id sc.
Proof.
  intros Hi Hc. exists sc. split; [|done]. unfold document.
  by rewrite (ko_apart _ _ _ _ (inv_ok _ Hi) id), Hc.
Qed.

Lemma archived_kept w id sc :
  inv w → doc_ok id sc → st_state sc ≠ Stored_Active → became w id sc →
  ∃ s, public_snapshot parse_json from_utf8 sc = Ok s ∧ kept w id s.
Proof.
  intros Hi Hd Hst Hb. destruct (archived_doc _ _ _ utf8 _ _ Hd Hst) as (m & ? & ? & ? & Hp).
  eexists. split; [done|]. by eapply became_kept.
Qed.

(** What a load finds past the active phase. *)
Lemma loaded_archived id l sc w :
  inv w → loaded_as id l w → match l with Loaded_Current x _ => x = sc ∧ st_state sc ≠ Stored_Active | Loaded_Cleaned x => x = sc | Loaded_Missing => False end →
  ∃ s, public_snapshot parse_json from_utf8 sc = Ok s ∧ kept w id s.
Proof.
  intros Hi Hl Hsc. destruct l as [x m|x|]; [| |done].
  - destruct Hsc as [-> Hst]. destruct Hl as (Hd & _ & _ & Hb). by apply archived_kept.
  - subst x. destruct (ko_cleaned _ _ _ _ (inv_ok _ Hi) _ _ Hl) as [Hd Hst].
    apply archived_kept; [done|done|congruence|by apply cleaned_became].
Qed.

Lemma redis_read_spec id now w :
  inv w →
  wp (read_tickr_ctx_scope id now)
    (ok_post (λ o w2, match o with RedisRead_Archived s => kept w2 id s | _ => True end)) w.
Proof.
  intros Hi. eapply wp_then; [done|apply redis_load_spec|]. intros l w2 Hr2 Hi2 Hl. destruct l as [sc m|sc|] eqn:El; [| |done].
  - case_bool_decide as Hst.
    + destruct (loaded_archived id l sc w2 Hi2) as (s & -> & Hk); [by subst|subst; split; congruence|].
      intros w3 Hr3 _. by eapply kept_grows.
    + destruct (age_bound _ _); [done|]. by destruct (stored_bounds _).
  - destruct (loaded_archived id l sc w2 Hi2) as (s & -> & Hk); [by subst|by subst|].
    intros w3 Hr3 _. by eapply kept_grows.
Qed.

Lemma archived_already_spec sc w (Q : ScopeSnapshotOutcome → redis_world → Prop) :
  inv w → (∀ s w2, rely w w2 → Q (Snapshot_Idempotent s) w2) → wp (archived_already parse_json from_utf8 sc) (ok_post Q) w.
Proof.
  intros Hi HQ. eapply wp_then; [done|by apply guard_existing_spec|]. intros _ w2 Hr2 _ _ w3 Hr3 _.
  destruct (public_snapshot _ _ _); [|done]. apply HQ. by etrans.
Qed.

Lemma redis_snapshot_spec id now w :
  inv w →
  wp (snapshot_tickr_ctx_scope id now)
    (ok_post (λ o w2, match o with Snapshot_Committed s => kept w2 id s | _ => True end)) w.
Proof.
  unfold snapshot_tickr_ctx_scope, RedisScopeStore.snapshot_tickr_ctx_scope. generalize ATTEMPTS as n.
  intros n. revert w. induction n as [|n IH]; intros w Hi; [done|]. cbn [snapshot_loop].
  eapply wp_then; [done|apply redis_load_spec|]. intros [sc m|sc|] w2 Hr2 Hi2 Hl; [|by apply archived_already_spec|done].
  destruct Hl as (Hd & Hnc & _ & _). case_bool_decide as Hst; [by apply archived_already_spec|].
  assert (st_state sc = Stored_Active) as Ha by by destruct (st_state sc).
  destruct (age_bound _ _); [done|]. destruct (stored_bounds _); [done|].
  rewrite snapshot_from_bounds by apply Hd. pose proof (do_id _ _ _ _ Hd) as Hid.
  eapply wp_then; [done|apply mutate_spec|]; [done|..].
  - simpl. by apply follows_snapshot.
  - done.
  - done.
  - by try eexists.
  - intros [] w3 Hr3 Hi3 Hs; simpl in Hs; try (done || apply wp_status_error); [|by apply IH].
    intros w4 Hr4 _. simpl. destruct Hs as [_ Hb]. eapply kept_grows; [done|].
    eapply became_kept; [done|apply Hd|apply Hd|done].
Qed.

Lemma snapshot_for_run_spec namespace run_id now w :
  inv w → wp (snapshot_tickr_ctx_scope_for_run namespace run_id now) (ok_post (λ _ _, True)) w.
Proof.
  intros Hi. unfold snapshot_tickr_ctx_scope_for_run, RedisScopeStore.snapshot_tickr_ctx_scope_for_run.
  destruct (validate_scope_identity _ _); [|done]. apply wp_command. intros w2 _ Hi2. destruct (_ !! _); [|done].
  eapply wp_mono; [apply _| |by apply redis_snapshot_spec]. by intros [].
Qed.

Lemma archive_spec id digest identity now w :
  inv w → wp (record_verified_archive_commit id digest identity now) (ok_post (λ _ _, True)) w.
Proof.
  intros Hi. unfold record_verified_archive_commit, RedisScopeStore.record_verified_archive_commit.
  destruct (valid_evidence _ _); [|done]. generalize ATTEMPTS as n. intros n. revert w Hi.
  induction n as [|n IH]; intros w Hi; [done|]. cbn [archive_loop].
  eapply wp_then; [done|apply redis_load_spec|]. intros [sc m|sc|] w2 Hr2 Hi2 Hl; [|done..].
  destruct Hl as (Hd & _ & _ & _). case_bool_decide as Hst; [|done]. cbn [negb].
  pose proof (do_phase _ _ _ _ Hd) as Hp. unfold phase_ok in Hp. rewrite Hst in Hp. pose proof (do_id _ _ _ _ Hd) as Hid.
  rewrite (public_taken _ _ _ utf8 id (st_values sc)) by (done || apply Hd).
  case_bool_decide as Hdig; [|done]. cbn [negb].
  destruct (st_archive_commit sc) as [c|] eqn:Hc.
  { case_bool_decide; [by apply wp_guard_existing|done]. }
  eapply wp_then; [done|apply mutate_spec|]; [done|..].
  - simpl. by apply follows_archive.
  - done.
  - done.
  - by try eexists.
  - intros [] w3 Hr3 Hi3 Hs; try (done || apply wp_status_error). by apply IH.
Qed.

(** A cleaned scope has nothing left in Redis but its proof. *)
Lemma cleanup_spec id digest identity now w :
  inv w →
  wp (cleanup_tickr_ctx_scope id digest identity now)
    (ok_post (λ o w2, match o with
                      | Cleanup_Cleaned | Cleanup_AlreadyCleaned => is_Some (ks_cleaned (now_store w2) !! id)
                      | _ => True
                      end)) w.
Proof.
  intros Hi. unfold cleanup_tickr_ctx_scope, RedisScopeStore.cleanup_tickr_ctx_scope.
  destruct (valid_evidence _ _); [|done]. generalize ATTEMPTS as n. intros n. revert w Hi.
  induction n as [|n IH]; intros w Hi; [done|]. cbn [cleanup_loop].
  eapply wp_then; [done|apply redis_load_spec|]. intros [sc m|sc|] w2 Hr2 Hi2 Hl; [| |done].
  2:{ destruct (verify_archive_evidence _ _ _ _ _); [|done]. apply wp_guard_existing; [done|]. intros w3 Hr3 _.
      exists sc. by eapply cleaned_grows. }
  destruct Hl as (Hd & Hnc & _ & _). case_bool_decide as Hst; [done|].
  assert (st_state sc = Stored_Snapshotted) as Hsn by by destruct (st_state sc).
  destruct (verify_archive_evidence _ _ _ _ _) as [[]|] eqn:Hv; [|done].
  assert (is_Some (st_archive_commit sc)) as Hac.
  { unfold verify_archive_evidence in Hv. destruct (public_snapshot _ _ _); [|done]. simpl in Hv.
    destruct (_ && _) eqn:Hb; [|done]. apply andb_true_iff in Hb as [_ Hb%bool_decide_eq_true]. by rewrite Hb. }
  eapply wp_then; [done|apply mutate_spec|]; [done|..].
  - simpl. by apply follows_cleanup.
  - by apply Hd.
  - done.
  - done.
  - intros [] w3 Hr3 Hi3 Hs; simpl in Hs; try (done || apply wp_status_error); [..|by apply IH].
    all: destruct Hs as [x Hx]; intros w4 Hr4 _; exists x; by eapply cleaned_grows.
Qed.

(** *** The quota *)

Lemma sum_metrics_spec rows : ∀ exact w, wp (sum_metrics rows exact) (ok_post (λ _ _, True)) w.
Proof.
  induction rows as [|[id m] rows IH]; intros exact w; [done|]. cbn [sum_metrics]. apply wp_command. intros w2 _ _.
  destruct (_ !! _); [|apply wp_accounting]. destruct (metrics_checked_add _ _); [apply IH|apply wp_accounting].
Qed.

Lemma quota_state_spec w : wp (quota_state config) (ok_post (λ _ _, True)) w.
Proof.
  apply (wp_read inv rely _ (λ _, ks_quota)
    (λ r, match map_err (λ _, Unavailable) r with Err _ => accounting_failure | Ok aggregate =>
       let*? rows := command (λ s, map_to_list (ks_metrics s)) in
       let*? exact := sum_metrics rows no_metrics in
       if bool_decide (exact = aggregate) then
         let* _ := report (Report_Quota (quota_from config aggregate)) in Ret (Ok (quota_from config aggregate))
       else accounting_failure end)).
  - intros w2 _ Hi. split; [by apply inv_committed_same|by unfold rely].
  - intros w2 _ Hr Hi. cbn [map_err]. apply wp_command. intros w3 _ Hi3. eapply wp_then; [done|apply sum_metrics_spec|].
    intros exact w4 _ _ _. case_bool_decide; [by apply wp_report|apply wp_accounting].
  - intros e w2 _ _. apply wp_accounting.
Qed.

Lemma connect_spec w : inv w → wp (connect config) (ok_post (λ _ _, True)) w.
Proof.
  intros Hi. unfold connect. destruct (config_validate config); [|done].
  by eapply wp_then; [done|apply quota_state_spec|].
Qed.

(** ** Clients *)

Inductive Request :=
| Request_Create (input : CreateTickrCtxScopeInput Uuid)
| Request_Write (input : WriteTickrCtxScopeInput Uuid)
| Request_Delete (input : DeleteTickrCtxScopeInput Uuid)
| Request_Read (scope_id : Uuid) (now : Z)
| Request_Snapshot (scope_id : Uuid) (now : Z)
| Request_SnapshotForRun (namespace run_id : string) (now : Z)
| Request_Archive (scope_id : Uuid) (snapshot_digest : string) (archive_identity : bytes) (now : Z)
| Request_Cleanup (scope_id : Uuid) (snapshot_digest : string) (archive_identity : bytes) (now : Z)
| Request_Connect.

Inductive Reply :=
| Reply_Create (o : ScopeCreationOutcome (Uuid := Uuid))
| Reply_Write (o : ScopeWriteOutcome (Uuid := Uuid))
| Reply_Delete (o : ScopeDeleteOutcome (Uuid := Uuid))
| Reply_Read (o : RedisReadOutcome (Uuid := Uuid))
| Reply_Snapshot (o : ScopeSnapshotOutcome (Uuid := Uuid))
| Reply_Archive (o : RedisScopeArchiveCommitOutcome)
| Reply_Cleanup (o : ScopeCleanupOutcome (Uuid := Uuid))
| Reply_Connect.

Definition replied {A} (f : A → Reply) (p : answer A) : answer Reply := let*? o := p in Ret (Ok (f o)).

Definition serve (q : Request) : answer Reply :=
  match q with
  | Request_Create input => replied Reply_Create (create_tickr_ctx_scope input)
  | Request_Write input => replied Reply_Write (write_tickr_ctx_scope input)
  | Request_Delete input => replied Reply_Delete (delete_tickr_ctx_scope_value input)
  | Request_Read id now => replied Reply_Read (read_tickr_ctx_scope id now)
  | Request_Snapshot id now => replied Reply_Snapshot (snapshot_tickr_ctx_scope id now)
  | Request_SnapshotForRun namespace run_id now =>
      replied Reply_Snapshot (snapshot_tickr_ctx_scope_for_run namespace run_id now)
  | Request_Archive id digest identity now => replied Reply_Archive (record_verified_archive_commit id digest identity now)
  | Request_Cleanup id digest identity now => replied Reply_Cleanup (cleanup_tickr_ctx_scope id digest identity now)
  | Request_Connect => replied (λ _, Reply_Connect) (connect config)
  end.

Lemma replied_spec {A} (P : A → redis_world → Prop) f (p : answer A) w :
  inv w → wp p (ok_post P) w → wp (replied f p) (ok_post (λ _ _, True)) w.
Proof. intros Hi Hp. by eapply wp_then. Qed.

Lemma serve_spec q w : inv w → wp (serve q) (ok_post (λ _ _, True)) w.
Proof.
  intros Hi. destruct q; cbn [serve]; (eapply replied_spec; [done|]).
  - by apply create_spec.
  - by apply write_spec.
  - by apply delete_spec.
  - by apply redis_read_spec.
  - by apply redis_snapshot_spec.
  - by apply snapshot_for_run_spec.
  - by apply archive_spec.
  - by apply cleanup_spec.
  - by apply connect_spec.
Qed.

(** Clients come with any request. *)
Definition client (_ : redis_world) (p : answer Reply) : Prop := ∃ q, p = serve q.

Definition start : redis_world := mkWorld empty_keyspace [] [].

Definition reachable (s : Pool (Op := await) (E := failure) (World := redis_world) (result Reply RedisScopeStoreError)) : Prop :=
  pool_run perform client (mkPool ∅ start) s.

Hypothesis limits : (0 <= hard_limit_scopes config)%Z ∧ (0 <= hard_limit_values config)%Z.

Lemma start_inv : inv start.
Proof. split; [apply empty_keyspace_ok|by destruct limits|done]. Qed.

Lemma reachable_inv s : reachable s → inv (world s).
Proof.
  intros Hs. eapply (pool_run_ok perform inv rely client (ok_post (λ _ _, True))); [|exact Hs|].
  - intros w p Hi [q ->]. by apply serve_spec.
  - split; [apply start_inv|]. intros t p Ht. simpl in Ht. by rewrite lookup_empty in Ht.
Qed.

(** C22: however many clients use the store at once, and whichever of their commands
    fail or go unheard, the accounts are exact: the quota is the sum over the scopes
    of what each of them uses, and a scope is charged for its document, its values
    and exactly as many operations as hold a claim on it.  There are never more
    scopes or values than configured. *)
Theorem accounts_exact s :
  reachable s →
  let k := now_store (world s) in
  ks_quota k = sum_of (ks_metrics k) ∧
  (∀ id, ks_metrics k !! id = (λ sc, metrics_for sc (claims_of k id)) <$> ks_scopes k !! id) ∧
  (m_namespace_records (ks_quota k) <= hard_limit_scopes config)%Z ∧
  (m_scope_values (ks_quota k) <= hard_limit_values config)%Z.
Proof. intros [[] [] _]%reachable_inv. done. Qed.

(** C23: the values of a scope leave Redis only after their archive: when a scope has
    been cleaned, an earlier keyspace held its values together with the recorded
    commit of an archive of exactly these, and the snapshot that is left and that
    every reader is given decodes to them. *)
Theorem cleaned_after_archive s id sc :
  reachable s → ks_cleaned (now_store (world s)) !! id = Some sc →
  ∃ k before commit snapshot, k ∈ past (world s) ∧ ks_scopes k !! id = Some before ∧
    st_archive_commit before = Some commit ∧ ac_snapshot_digest commit = snap_digest snapshot ∧
    public_snapshot parse_json from_utf8 sc = Ok snapshot ∧
    decode_tickr_ctx_scope_snapshot from_utf8 snapshot =
      Ok ((λ kv, (kv.1, v_envelope kv.2)) <$> entries (st_values before)).
Proof.
  intros [Hok _ Ha]%reachable_inv Hc. destruct (Ha _ _ Hc) as (k & Hk & before & Hb & Hd & Hst & Hs & Hac).
  destruct (ko_cleaned _ _ _ _ Hok _ _ Hc) as [Hdc Hstc].
  pose proof (do_phase _ _ _ _ Hdc) as Hp. unfold phase_ok in Hp. rewrite Hstc in Hp. destruct Hp as (_ & [c Hcm] & _).
  pose proof (do_phase _ _ _ _ Hd) as Hp. unfold phase_ok in Hp. rewrite Hst in Hp.
  exists k, before, c, (public id (taken (st_values before))). rewrite Hcm in Hac.
  destruct (do_archive _ _ _ _ Hd _ Hac) as (x & Hx & Hdig). rewrite Hp in Hx. injection Hx as <-.
  split_and!; [done..| |].
  - rewrite (public_taken uuid_bytes _ _ utf8 id (st_values before)); [by rewrite (do_id _ _ _ _ Hdc)|apply Hd|apply Hd|congruence].
  - apply (taken_decodes uuid_bytes parse_json); [done|apply Hd|apply Hd].
Qed.
End safety.

(** ** An example *)

Definition demo_serve := serve bit_bytes any_envelope text_of flat_len demo_redis_config.
Definition demo_reachable := reachable bit_bytes any_envelope text_of flat_len demo_redis_config.

Definition demo_requests : list (Request (Uuid := bit_uuid)) :=
  [Request_Create demo_creation; Request_Write demo_update; Request_Delete demo_removal; Request_Snapshot (unary 3) 4;
   Request_Archive (unary 3) demo_snapshot_digest demo_archive 5; Request_Cleanup (unary 3) demo_snapshot_digest demo_archive 6].

Definition demo_pool : Type :=
  Pool (Op := Await (ScopeKeyspace (Uuid := bit_uuid)) Report Empty_set bit_uuid)
    (E := RepositoryError Empty_set) (World := World (ScopeKeyspace (Uuid := bit_uuid)) Report)
    (result (Reply (Uuid := bit_uuid)) RedisScopeStoreError).

(** One client after another, each with a thread of its own. *)
Fixpoint demo_run (n : nat) (qs : list (Request (Uuid := bit_uuid))) (s : demo_pool) : demo_pool :=
  match qs with
  | [] => s
  | q :: qs => demo_run (S n) qs (finished perform s n (demo_serve q) (working 0))
  end.

Lemma demo_run_reachable n qs s :
  (∀ i, n ≤ i → threads s !! i = None) → demo_reachable s → demo_reachable (demo_run n qs s).
Proof.
  revert n s. induction qs as [|q qs IH]; intros n s Hn Hs; [done|]. apply IH.
  - intros i Hi. simpl. rewrite lookup_insert_ne by lia. apply Hn. lia.
  - unfold demo_reachable, reachable, pool_run in *. etrans; [exact Hs|]. apply pool_runs; [by apply Hn|by exists q].
Qed.

Definition demo_end : demo_pool := demo_run 0 demo_requests (mkPool ∅ start).
Definition demo_middle : demo_pool := demo_run 0 (take 3 demo_requests) (mkPool ∅ start).

Lemma demo_end_reachable : demo_reachable demo_end.
Proof. apply demo_run_reachable; [done|]. unfold demo_reachable, reachable, pool_run. reflexivity. Qed.
Lemma demo_middle_reachable : demo_reachable demo_middle.
Proof. apply demo_run_reachable; [done|]. unfold demo_reachable, reachable, pool_run. reflexivity. Qed.

Lemma demo_middle_quota : ks_quota (now_store (world demo_middle)) = mkMetrics 388 1 1 3 0 0.
Proof. by vm_compute. Qed.

Lemma demo_end_cleaned : bool_decide (is_Some (ks_cleaned (now_store (world demo_end)) !! unary 3)) = true.
Proof. by vm_compute. Qed.

Lemma demo_limits : (0 <= hard_limit_scopes demo_redis_config)%Z ∧ (0 <= hard_limit_values demo_redis_config)%Z.
Proof. done. Qed.

Lemma accounts_exact_witness :
  let k := now_store (world demo_middle) in
  ks_quota k = sum_of (ks_metrics k) ∧ ks_quota k = mkMetrics 388 1 1 3 0 0.
Proof.
  intros k. split; [|apply demo_middle_quota].
  exact (proj1 (accounts_exact bit_bytes any_envelope text_of flat_len demo_redis_config text_of_bytes flat_len_nonneg
    demo_limits demo_middle demo_middle_reachable)).
Defined.

Lemma cleaned_after_archive_witness :
  ∃ sc, ks_cleaned (now_store (world demo_end)) !! unary 3 = Some sc ∧
    ∃ k before commit snapshot, k ∈ past (world demo_end) ∧ ks_scopes k !! unary 3 = Some before ∧
    st_archive_commit before = Some commit ∧ ac_snapshot_digest commit = snap_digest snapshot ∧
    public_snapshot any_envelope text_of sc = Ok snapshot ∧
    decode_tickr_ctx_scope_snapshot text_of snapshot =
      Ok ((λ kv, (kv.1, v_envelope kv.2)) <$> entries (st_values before)).
Proof.
  pose proof (bool_decide_eq_true_1 _ demo_end_cleaned) as [sc Hsc]. exists sc. split; [exact Hsc|].
  exact (cleaned_after_archive bit_bytes any_envelope text_of flat_len demo_redis_config text_of_bytes flat_len_nonneg
    demo_limits demo_end (unary 3) sc demo_end_reachable Hsc).
Defined.
