(* ===== verification/RedisScopeRefinement.v ===== *)
(** * The two scope stores agree

    The scope store on Redis and the one in SQL implement one contract, on requests
    that keep to what both take for granted ([common]).  From states that hold the
    same scopes, such a request is answered alike by both and leaves states that hold
    the same scopes again, as long as Redis has room; so whole sequences of requests
    are.  The evidence of an archive is for Redis alone: the tables refuse it, by the
    default of the interface, and need none to clean a scope. *)

From S2P Require Import Prelude Json Uuid Sha256 ScopeStore ScopeStoreFacts Programs Workers RedisScopeStore RedisScopeFacts RedisScopeDemo.

Section refinement.
Context `{UuidLaws Uuid} `{!Countable Uuid}.
Context (uuid_bytes : Uuid → bytes) (parse_json : bytes → option Json) (from_utf8 : bytes → option string).
Context (encoded_len : StoredScope Uuid → Z) (config : RedisScopeStoreConfig).
Hypothesis utf8 : ∀ k, from_utf8 (bytes_of k) = Some k.
Hypothesis encoded_nonneg : ∀ sc, (0 <= encoded_len sc)%Z.

Abbreviation scope := (StoredScope Uuid).
Abbreviation keyspace := (ScopeKeyspace (Uuid := Uuid)).
Abbreviation await := (Await keyspace Report Empty_set Uuid).
Abbreviation failure := (RepositoryError Empty_set).
Abbreviation program A := (prog await failure A).
Abbreviation answer A := (program (result A RedisScopeStoreError)).
Abbreviation redis_world := (World keyspace Report).
Abbreviation keyspace_ok := (keyspace_ok uuid_bytes parse_json encoded_len).
Abbreviation load := (load uuid_bytes parse_json from_utf8 encoded_len).
Abbreviation mutate := (mutate encoded_len config).
Implicit Types (w : redis_world) (s : keyspace) (id : Uuid) (sc : scope).

(** ** A run on its own, in a world that works *)

Definition runs {A} (now : Z) (p : program A) (Q : A → keyspace → Prop) s : Prop :=
  ∀ w, now_store w = s → let '(a, w') := run perform p (working now) w in Q a (now_store w').

Section rules.
Context {A : Type} (now : Z) (Q : result A RedisScopeStoreError → keyspace → Prop).

Lemma runs_ret a s : Q a s → runs now (Ret a) Q s.
Proof. intros HQ w <-. done. Qed.

Lemma runs_then {B} (p : answer B) (k : B → answer A) s :
  runs now p (λ r s2, match r with Ok b => runs now (k b) Q s2 | Err e => Q (Err e) s2 end) s →
  runs now (let*? b := p in k b) Q s.
Proof.
  intros Hp w Hw. specialize (Hp w Hw). unfold bind_ok. rewrite run_bind.
  destruct (run perform p (working now) w) as [[b|e] w']; [by apply Hp|done].
Qed.

Lemma runs_command {X} (f : keyspace → X) (k : X → answer A) s :
  runs now (k (f s)) Q s → runs now (let*? x := command f in k x) Q s.
Proof. intros Hk. apply runs_then. intros w <-. exact Hk. Qed.

Lemma runs_guard_existing (k : unit → answer A) s :
  runs now (k tt) Q s → runs now (let*? x := guard_existing_commit in k x) Q s.
Proof. intros Hk. apply runs_then. intros w <-. exact Hk. Qed.
End rules.

(** What a load finds when nobody interferes. *)
Definition loaded s id : LoadedScope (Uuid := Uuid) :=
  match ks_scopes s !! id, ks_cleaned s !! id with
  | Some sc, _ => Loaded_Current sc (metrics_for encoded_len sc (claims_of s id))
  | None, Some sc => Loaded_Cleaned sc
  | None, None => Loaded_Missing
  end.

Lemma runs_load {A} now (Q : result A RedisScopeStoreError → keyspace → Prop) id k s :
  keyspace_ok s → runs now (k (loaded s id)) Q s → runs now (let*? l := load id in k l) Q s.
Proof.
  intros Hs Hk. apply runs_then. unfold load, RedisScopeStore.load.
  do 3 apply runs_command. unfold loaded in Hk. rewrite (ko_metrics _ _ _ _ Hs).
  destruct (ks_scopes s !! id) as [sc|] eqn:Hsc, (ks_cleaned s !! id) as [sc'|] eqn:Hcl; cbn [fmap option_fmap option_map].
  - rewrite (ko_apart _ _ _ _ Hs id) in Hsc by (by rewrite Hcl). done.
  - destruct (ko_scope _ _ _ _ Hs _ _ Hsc) as [Hd Hst]. unfold decode_scope.
    rewrite (doc_well_formed _ _ _ _ Hd), (doc_phase _ _ _ utf8 _ _ Hd), bool_decide_false by done. cbn [andb Bool.eqb bind_ok bind].
    change (m_operation_records (metrics_for encoded_len sc (claims_of s id))) with (claims_of s id).
    rewrite (ko_checked _ _ _ _ Hs _ _ Hsc), bool_decide_true by done. by apply runs_ret.
  - destruct (ko_cleaned _ _ _ _ Hs _ _ Hcl) as [Hd Hst]. unfold decode_scope.
    rewrite (doc_well_formed _ _ _ _ Hd), (doc_phase _ _ _ utf8 _ _ Hd), bool_decide_true by done. by apply runs_ret.
  - by apply runs_ret.
Qed.

Lemma runs_claim_status {A} now (Q : result A RedisScopeStoreError → keyspace → Prop) op id payload k s :
  ks_claims s !! op = None → runs now (k Claim_Missing) Q s →
  runs now (let*? c := claim_status uuid_bytes parse_json from_utf8 encoded_len op id payload in k c) Q s.
Proof. intros Hop Hk. apply runs_then. unfold claim_status. apply runs_command. rewrite Hop. by apply runs_ret. Qed.

(** There is no room: the keyspace stays as it is. *)
Inductive no_room {A} s : result A RedisScopeStoreError → keyspace → Prop :=
| no_room_fenced : no_room s (Err CapacityFenced) s
| no_room_accounting : no_room s (Err Accounting) s.

Lemma checked_u64_error n e : checked_u64 n = Err e → e = Accounting.
Proof. unfold checked_u64. destruct (_ <=? _)%Z; [done|]. by intros [= <-]. Qed.

Lemma for_scope_error sc n e : for_scope encoded_len sc n = Err e → e = Accounting.
Proof.
  unfold for_scope. destruct (checked_u64 (n * _)) as [x|x] eqn:Hc; [|intros [= <-]; by eapply checked_u64_error].
  destruct (checked_u64 (m_used_bytes _)) as [y|y] eqn:Hd; [done|intros [= <-]; by eapply checked_u64_error].
Qed.

Lemma new_error kind op payload id owner current next e :
  ScriptMutation_new encoded_len kind op payload id owner current next = Err e → e = Accounting.
Proof.
  unfold ScriptMutation_new. destruct (match current with Some _ => _ | None => _ end) as [n|x] eqn:Hn.
  - case_bool_decide; [done|]. destruct (for_scope _ next n) as [m|x] eqn:Hf; [done|].
    intros [= <-]. by eapply for_scope_error.
  - intros [= <-]. destruct current as [[sc m]|]; [by eapply checked_u64_error|done].
Qed.

Lemma runs_mutate {A} now (Q : result A RedisScopeStoreError → keyspace → Prop) kind op payload id owner current next k s :
  (∀ mu, ScriptMutation_new encoded_len kind op payload id owner current next = Ok mu →
     let '(status, s') := scope_store_script config mu s in runs now (k status) Q s') →
  Q (Err Accounting) s →
  runs now (let*? st := mutate kind op payload id owner current next in k st) Q s.
Proof.
  intros Hmu Herr. apply runs_then. unfold mutate, RedisScopeStore.mutate. apply runs_command.
  destruct (ScriptMutation_new _ _ _ _ _ _ _ _) as [mu|e] eqn:Hnew; [|apply new_error in Hnew as ->; by apply runs_ret].
  specialize (Hmu _ eq_refl). destruct (scope_store_script config mu s) as [status s'] eqn:Hs.
  apply runs_then. intros w <-. cbn -[scope_store_script committed]. unfold transact. cbn -[scope_store_script committed].
  rewrite Hs. cbn -[committed]. intros w2 Hw2. cbn.
  change (now_store w2 = s') in Hw2. rewrite Hw2. exact Hmu.
Qed.

(** *** The script when nobody interferes *)

Lemma script_admitted s mu :
  keyspace_ok s → admitted uuid_bytes parse_json encoded_len s mu →
  if bool_decide (sm_kind mu = Mutate_Cleanup) then
    ∃ old, ks_metrics s !! sm_scope_id mu = Some old ∧ scope_store_script config mu s = (Status_Cleaned, apply_cleanup mu old s)
  else
    (∃ new, sm_next_metrics mu = Some new ∧ scope_store_script config mu s =
       (Status_Applied, apply_mutation mu (default no_metrics (ks_metrics s !! sm_scope_id mu)) new s)) ∨
    scope_store_script config mu s = (Status_Fenced, s).
Proof.
  intros Hs [Hclaim Hcl Hst Hme Hown Hp]. unfold scope_store_script. rewrite Hclaim, Hcl.
  rewrite (bool_decide_false (is_Some _)) by apply is_Some_None. unfold script_refusal.
  assert (covers (ks_quota s) (default no_metrics (ks_metrics s !! sm_scope_id mu)) = true) as Hcov.
  { rewrite (ko_quota _ _ _ _ Hs). pose proof (keyspace_metrics_pos _ _ _ encoded_nonneg _ Hs) as Hpos.
    destruct (ks_metrics s !! sm_scope_id mu) as [old|] eqn:Hold; simpl; [by apply (sum_of_covers _ _ _ Hpos Hold)|].
    rewrite <- (metrics_add_no (sum_of _)), metrics_add_comm, metrics_add_comm. apply covers_add, total_pos.
    apply Forall_fmap, Forall_forall. intros [k x] Hin%elem_of_map_to_list. by apply (Hpos k). }
  pose proof (pr_follows _ _ _ _ Hp) as Hf.
  assert (sm_kind mu = Mutate_Create ∨ sm_kind mu ≠ Mutate_Create ∧ is_Some (sm_expected_state mu)) as Hcase.
  { destruct Hf; [by left|right; done..]. }
  assert ((if bool_decide (sm_kind mu = Mutate_Create)
           then match ks_owners s !! sm_owner_identity mu with
                | Some owner => if bool_decide (owner = sm_scope_id mu) then None else Some (Status_Collision owner)
                | None => None end
           else if bool_decide (ks_scopes s !! sm_scope_id mu = None) then Some Status_Missing else None) = None) as ->.
  { destruct Hcase as [Hk|[Hk [sc Hsc]]].
    - rewrite bool_decide_true by done. destruct (ks_owners s !! _) as [o|] eqn:Ho; [|done].
      by rewrite bool_decide_true by by apply Hown.
    - by rewrite bool_decide_false, Hst, Hsc, bool_decide_false. }
  rewrite (bool_decide_true (_ = sm_expected_state mu)), (bool_decide_true (_ = sm_expected_metrics mu)) by done.
  cbn [negb]. unfold script_commit.
  case_bool_decide as Hk.
  - rewrite Hk in Hf. inversion Hf as [| | | | |sc now Hsn Hac Hk2 Hsc Hn]. rewrite Hst, <- Hsc.
    rewrite (ko_metrics _ _ _ _ Hs), Hst, <- Hsc in Hcov |- *. simpl in *. rewrite Hcov. by eexists.
  - pose proof (pr_metrics _ _ _ _ Hp) as Hm. rewrite bool_decide_false in Hm by done. destruct Hm as [-> _].
    rewrite Hcov. cbn [negb]. destruct (_ && _); [by right|left]. by eexists.
Qed.

(** The keyspace after an operation on the scope [id] under the claim [op]. *)
Record puts s id next op fp s' : Prop := {
  pu_ok : keyspace_ok s';
  pu_document id' : document s' id' = if decide (id' = id) then Some next else document s id';
  pu_claims : ks_claims s' = <[op := (id, fp)]> (ks_claims s)
}.

Definition success (kind : MutationKind) : MutationStatus (Uuid := Uuid) :=
  if bool_decide (kind = Mutate_Cleanup) then Status_Cleaned else Status_Applied.

Definition current s id : option (scope * StoredMetrics) :=
  (λ sc, (sc, metrics_for encoded_len sc (claims_of s id))) <$> ks_scopes s !! id.

Lemma runs_apply {A} now (Q : result A RedisScopeStoreError → keyspace → Prop) kind op payload id owner next k s :
  keyspace_ok s → ks_claims s !! op = None → ks_cleaned s !! id = None →
  follows uuid_bytes parse_json kind (ks_scopes s !! id) next → st_scope_id next = id →
  (kind = Mutate_Create → owner = owner_identity (st_namespace next) (st_run_id next) ∧
                          op = claim_identity (st_creation_claim_id next) ∧ ks_owners s !! owner = None) →
  operation_named kind op id →
  (∀ s', puts s id next op (sha256_hex payload) s' → runs now (k (success kind)) Q s') →
  runs now (k Status_Fenced) Q s → Q (Err Accounting) s →
  runs now (let*? st := mutate kind op payload id owner (current s id) next in k st) Q s.
Proof.
  intros Hs Hop Hcl Hf Hid Hcreate Hnamed Hk Hfenced Hacc. apply runs_mutate; [|done]. intros mu Hnew.
  assert (fst <$> current s id = ks_scopes s !! id) as Hfst by (unfold current; by destruct (ks_scopes s !! id)).
  assert (snd <$> current s id = ks_metrics s !! id) as Hsnd.
  { unfold current. rewrite (ko_metrics _ _ _ _ Hs). by destruct (ks_scopes s !! id). }
  destruct (mutation_proper uuid_bytes parse_json _ _ _ _ _ _ _ _ _ Hnew) as (Hp & Hmk & Hmo & Hmc & Hmi & Hmn & Hmw & He & Hm);
    [by rewrite Hfst|done|naive_solver|done|].
  rewrite Hfst in He. rewrite Hsnd in Hm.
  assert (admitted uuid_bytes parse_json encoded_len s mu) as Had.
  { split; [by rewrite Hmo|by rewrite Hmi|by rewrite Hmi, He|by rewrite Hmi, Hm| |done].
    rewrite Hmk, Hmw. intros Hc o Ho. destruct (Hcreate Hc) as (_ & _ & Hn). congruence. }
  pose proof (script_admitted _ _ Hs Had) as Hscript. unfold success in Hk. rewrite Hmk in Hscript.
  case_bool_decide as Hc; [destruct Hscript as (old & Hold & ->)|destruct Hscript as [(new & Hn & ->) | ->]; [|done]].
  - apply Hk. split; [by eapply (applied_cleanup_ok _ _ _ _ _ Hs Had old); [congruence|]| |by simpl; rewrite Hmo, Hmc].
    intros id'. unfold document. simpl. rewrite Hmi, Hmn. destruct (decide (id' = id)) as [->|].
    + by rewrite lookup_delete_eq, lookup_insert_eq.
    + by rewrite lookup_delete_ne, lookup_insert_ne.
  - apply Hk. split; [by eapply (applied_mutation_ok _ _ _ _ _ Hs Had _ new); [congruence|..]| |by simpl; rewrite Hmo, Hmc].
    intros id'. unfold document. simpl. rewrite Hmi, Hmn. destruct (decide (id' = id)) as [->|]; [by rewrite lookup_insert_eq|by rewrite lookup_insert_ne].
Qed.

(** ** States that hold the same scopes *)

Definition value_view (v : StoredValue) : bytes * Z * Z := (v_envelope v, v_created_at v, v_updated_at v).
Definition row_view (r : ScopeValueRow Uuid) : bytes * Z * Z := (sv_envelope r, sv_created_at r, sv_updated_at r).

Record row_matches sc (r : ScopeRow Uuid) : Prop := {
  rm_namespace : sp_namespace r = st_namespace sc;
  rm_run_id : sp_run_id r = st_run_id sc;
  rm_claim : sp_creation_claim_id r = st_creation_claim_id sc;
  rm_digest : sp_creation_request_digest r = st_creation_request_digest sc;
  rm_state : sp_state r = public_state (st_state sc);
  rm_created_at : sp_created_at r = st_created_at sc;
  rm_snapshot : sp_snapshot r = ss_bytes <$> st_snapshot sc;
  rm_snapshot_digest : sp_snapshot_digest r = ss_digest <$> st_snapshot sc;
  rm_row_count : sp_snapshot_row_count r = ss_row_count <$> st_snapshot sc;
  rm_value_bytes : sp_snapshot_value_bytes r = ss_value_bytes <$> st_snapshot sc
}.

Implicit Types t : ScopeTables Uuid.

(** A claim that Redis has not seen the tables have not seen either. *)
Record simulates s t : Prop := {
  si_keyspace : keyspace_ok s;
  si_tables : scopes_ok parse_json t;
  si_scope id : option_Forall2 row_matches (document s id) (scopes t !! id);
  si_value id k : value_view <$> (document s id ≫= λ sc, st_values sc !! k) = row_view <$> scope_values t !! (id, k);
  si_claim c : ks_claims s !! claim_identity c = None → scope_claims t !! c = None
}.

Lemma empty_simulates : simulates empty_keyspace ScopeTables_empty.
Proof.
  split; [apply empty_keyspace_ok|apply empty_scopes_ok|..]; intros *; unfold document; simpl; rewrite !lookup_empty; done || constructor.
Qed.

Lemma simulates_put s t id next op fp s' t' r' :
  simulates s t → puts s id next op fp s' → scopes_ok parse_json t' →
  scopes t' = <[id := r']> (scopes t) → row_matches next r' →
  (∀ id' k, id' ≠ id → scope_values t' !! (id', k) = scope_values t !! (id', k)) →
  (∀ k, value_view <$> st_values next !! k = row_view <$> scope_values t' !! (id, k)) →
  (∀ c cl, scope_claims t' !! c = Some cl → scope_claims t !! c = Some cl ∨ claim_identity c = op) →
  simulates s' t'.
Proof.
  intros [Hk Ht Hsc Hv Hc] [Hok Hd Hcl] Ht' Hr' Hm Hother Hval Hclaim. split; [done|done|..].
  - intros id'. rewrite Hd, Hr'. destruct (decide (id' = id)) as [->|Hne]; [rewrite lookup_insert_eq; by constructor|].
    by rewrite lookup_insert_ne.
  - intros id' k. rewrite Hd. destruct (decide (id' = id)) as [->|Hne]; [apply Hval|]. by rewrite Hother.
  - intros c Hn. rewrite Hcl in Hn. apply lookup_insert_None in Hn as [Hn Hne].
    destruct (scope_claims t' !! c) as [cl|] eqn:Hc'; [|done]. destruct (Hclaim _ _ Hc') as [Hold|]; [|done].
    by rewrite Hc in Hold.
Qed.

Section related.
Context (s : keyspace) (t : ScopeTables Uuid) (Hsim : simulates s t).

Lemma related_missing id : document s id = None ↔ scopes t !! id = None.
Proof. destruct (si_scope _ _ Hsim id) as [sc r Hm|]; by split. Qed.

Lemma related_row id sc : document s id = Some sc → ∃ r, scopes t !! id = Some r ∧ row_matches sc r.
Proof. intros Hd. pose proof (si_scope _ _ Hsim id) as Hm. rewrite Hd in Hm. inversion Hm; subst. eauto. Qed.

Lemma related_doc id r : scopes t !! id = Some r → ∃ sc, document s id = Some sc ∧ row_matches sc r.
Proof. intros Hr. pose proof (si_scope _ _ Hsim id) as Hm. rewrite Hr in Hm. inversion Hm; subst. eauto. Qed.

Lemma document_ok id sc : document s id = Some sc → doc_ok uuid_bytes parse_json id sc.
Proof.
  unfold document. destruct (ks_scopes s !! id) eqn:Hsc; intros Hd; simplify_eq;
    [by apply (ko_scope _ _ _ _ (si_keyspace _ _ Hsim))|by apply (ko_cleaned _ _ _ _ (si_keyspace _ _ Hsim))].
Qed.

(** Both list the values of a scope in the order of their keys. *)
Lemma related_values id sc :
  document s id = Some sc →
  (λ v, (ssv_key v, (ssv_envelope v, ssv_created_at v, ssv_updated_at v))) <$> load_scope_values id t =
  (λ kv, (kv.1, value_view kv.2)) <$> entries (st_values sc).
Proof.
  intros Hd. set (f := λ v : StoredScopeValue Uuid, _). set (g := λ kv : string * StoredValue, _).
  assert (∀ k x, (k, x) ∈ f <$> load_scope_values id t ↔ row_view <$> scope_values t !! (id, k) = Some x) as Hf.
  { intros k x. rewrite list_elem_of_fmap. split.
    - intros (v & Hx & (r & Hr & Hv)%elem_of_values). rewrite Hv in Hx. injection Hx as -> ->. rewrite Hv in Hr. simpl in Hr. by rewrite Hr.
    - destruct (scope_values t !! (id, k)) as [r|] eqn:Hr; [|done]. intros [= <-]. exists (stored k r).
      split; [done|]. apply elem_of_values. by exists r. }
  assert (∀ k x, (k, x) ∈ g <$> entries (st_values sc) ↔ value_view <$> st_values sc !! k = Some x) as Hg.
  { intros k x. rewrite list_elem_of_fmap. split.
    - intros ([k' v] & Hx & Hv%elem_of_values_entries). injection Hx as -> ->. simpl in *. by rewrite Hv.
    - destruct (st_values sc !! k) as [v|] eqn:Hv; [|done]. intros [= <-]. exists (k, v).
      split; [done|]. by apply elem_of_values_entries. }
  apply (sorted_perm_eq (λ a b, string_leb a.1 b.1)).
  - intros [k x] [k' y] Hx Hy Hxy Hyx. pose proof (string_leb_antisym _ _ Hxy Hyx) as Hk. simpl in Hk. subst k'.
    apply Hf in Hx, Hy. congruence.
  - apply sorted_fmap, values_sorted.
  - apply sorted_fmap, entries_sorted.
  - apply NoDup_Permutation.
    + apply (NoDup_fmap_1 fst). rewrite <- list_fmap_compose. apply values_NoDup.
    + apply (NoDup_fmap_1 fst). rewrite <- list_fmap_compose. apply entries_keys_NoDup.
    + intros [k x]. rewrite Hf, Hg. by rewrite <- (si_value _ _ Hsim), Hd.
Qed.

Lemma related_take id sc :
  document s id = Some sc → take_snapshot id (load_scope_values id t) = public id (taken (st_values sc)).
Proof.
  intros Hd. pose proof (related_values id sc Hd) as He.
  assert ((λ v, (ssv_key v, ssv_envelope v)) <$> load_scope_values id t =
          (λ kv, (kv.1, v_envelope kv.2)) <$> entries (st_values sc)) as He2.
  { apply (f_equal (fmap (λ x : string * (bytes * Z * Z), (x.1, x.2.1.1)))) in He. by rewrite <- !list_fmap_compose in He. }
  assert (encode_snapshot (load_scope_values id t) = snapshot_bytes (st_values sc)) as Hb.
  { unfold encode_snapshot, snapshot_bytes. apply (f_equal length) in He as Hl. rewrite !length_fmap in Hl. rewrite Hl.
    apply (f_equal (fmap (λ x, encode_value x.1 x.2))) in He2. rewrite <- !list_fmap_compose in He2. unfold compose in He2.
    cbn [fst snd] in He2. by rewrite He2. }
  unfold take_snapshot, public, taken. rewrite Hb. cbn [ss_bytes ss_digest ss_row_count ss_value_bytes]. f_equal.
  - apply (f_equal length) in He. rewrite !length_fmap in He. by rewrite He.
  - apply (f_equal (sum_by (λ x, len x.2))) in He2. by rewrite !sum_by_fmap in He2.
Qed.

Lemma related_archived id sc r m :
  scopes t !! id = Some r → row_matches sc r → st_state sc ≠ Stored_Active → st_snapshot sc = Some (taken m) →
  snapshot_from_record id r = Ok (public id (taken m)).
Proof.
  intros Hr [] Hst Hs.
  destruct (archived_snapshot parse_json id r t (si_tables _ _ Hsim) Hr) as (values & Hf & Hh & _).
  { rewrite rm_state0. by destruct (st_state sc). }
  rewrite (snapshot_checks parse_json id r values Hf Hh). destruct Hh as [Hb Hd Hn Ht]. rewrite Hs in *. simpl in *.
  unfold take_snapshot in *. simpl in *. unfold public, taken. simpl. f_equal. f_equal; congruence.
Qed.

Definition lengths (m : gmap string StoredValue) : gmap string Z := (λ v, len (v_envelope v)) <$> m.

Lemma related_lengths id sc : document s id = Some sc → existing_lengths id t = lengths (st_values sc).
Proof.
  intros Hd. apply map_eq. intros k. rewrite existing_lookup. unfold lengths. rewrite lookup_fmap.
  pose proof (si_value _ _ Hsim id k) as Hv. rewrite Hd in Hv. simpl in Hv.
  destruct (st_values sc !! k), (scope_values t !! (id, k)); simpl in *; try done. injection Hv as He _ _. by rewrite He.
Qed.
End related.

Lemma lengths_total m : value_bytes m = map_total (lengths m).
Proof. unfold map_total, lengths. rewrite value_bytes_perm, map_to_list_fmap, sum_by_fmap. done. Qed.

Lemma lengths_nonneg m k n : lengths m !! k = Some n → (0 <= n)%Z.
Proof. unfold lengths. rewrite lookup_fmap. destruct (m !! k); [|done]. intros [= <-]. apply len_nonneg. Qed.

(** The bytes that a request replaces are there. *)
Lemma replaced_bytes values : ∀ m : gmap string Z,
  NoDup (svi_key <$> values) → (∀ k n, m !! k = Some n → (0 <= n)%Z) →
  (sum_by Datatypes.id (omap (λ v, m !! svi_key v) values) <= map_total m)%Z.
Proof.
  induction values as [|v values IH]; intros m Hnd Hm; simpl.
  - unfold map_total. assert (∀ kn, kn ∈ map_to_list m → (0 <= kn.2)%Z) as Hl.
    { intros [k n] Hin%elem_of_map_to_list. by apply (Hm k). }
    revert Hl. generalize (map_to_list m). induction l as [|x l IHl]; intros Hl; simpl; [done|].
    pose proof (Hl x (list_elem_of_here _ _)). etrans; [apply IHl; intros; apply Hl; by right|lia].
  - apply NoDup_cons in Hnd as [Hv Hnd].
    assert (omap (λ v', m !! svi_key v') values = omap (λ v', delete (svi_key v) m !! svi_key v') values) as He.
    { apply omap_ext_in. intros v' Hv'. rewrite lookup_delete_ne; [done|]. intros Hk. apply Hv. rewrite Hk. by apply list_elem_of_fmap_2. }
    assert (sum_by Datatypes.id (omap (λ v', m !! svi_key v') values) <= map_total (delete (svi_key v) m))%Z as Hle.
    { rewrite He. apply IH; [done|]. intros k n [_ Hk]%lookup_delete_Some. by apply (Hm k). }
    destruct (m !! svi_key v) as [n|] eqn:Hn; simpl.
    + rewrite (map_total_delete _ _ _ Hn). apply Zplus_le_compat_l, Hle.
    + by rewrite delete_id in Hle.
Qed.

(** ** Requests *)

(** The request fits the bound of the tables, which counts the keys too. *)
Definition request_fits (values : list ScopeValueInput) : Prop :=
  (sum_by (λ v, str_len (svi_key v) + len (svi_envelope v)) values <= MAX_SCOPE_REQUEST_BYTES)%Z.

Lemma digests_agree id values d :
  ScopeStore.mutation_digest uuid_bytes id values = Ok d →
  mutation_digest uuid_bytes id values = Ok d ∧ NoDup (svi_key <$> values) ∧
  (∀ v, v ∈ values → valid_key (svi_key v) = true).
Proof.
  unfold mutation_digest, ScopeStore.mutation_digest. destruct (check_keys ∅ values) as [[]|] eqn:Hk; [|done].
  intros Hd. split; [by injection Hd as <-|]. destruct (check_keys_ok _ _ Hk) as [Hnd Hv]. split; [done|]. intros v Hin. by apply Hv.
Qed.

Lemma check_request_agrees values : ∀ seen,
  NoDup (svi_key <$> values) → (∀ v, v ∈ values → valid_key (svi_key v) = true ∧ svi_key v ∉ seen) →
  check_request parse_json seen values = check_values parse_json values.
Proof.
  induction values as [|v values IH]; intros seen Hnd Hv; simpl; [done|]. apply NoDup_cons in Hnd as [Hnew Hnd].
  destruct (Hv v (list_elem_of_here _ _)) as [Hk Hs]. rewrite Hk, bool_decide_false by done. cbn [negb orb].
  destruct (_ <? _)%Z; [done|]. destruct (validate_envelope _ _); [|done]. apply IH; [done|].
  intros v' Hin. destruct (Hv v' (list_elem_of_further _ _ _ Hin)). split; [done|].
  intros [Heq%elem_of_singleton|]%elem_of_union; [|done]. apply Hnew. rewrite <- Heq. by apply list_elem_of_fmap_2.
Qed.

Lemma sum_by_le {A} (f g : A → Z) l : (∀ x, f x <= g x)%Z → (sum_by f l <= sum_by g l)%Z.
Proof. intros Hfg. induction l as [|x l IH]; simpl; [done|]. specialize (Hfg x). lia. Qed.

(** Both check a request alike. *)
Lemma validations_agree values :
  NoDup (svi_key <$> values) → (∀ v, v ∈ values → valid_key (svi_key v) = true) → request_fits values → values ≠ [] →
  ∀ allow_empty, validate_mutation parse_json values allow_empty = ScopeStore.validate_mutation parse_json values 0 0.
Proof.
  intros Hnd Hv Hfit Hne allow_empty. unfold validate_mutation, ScopeStore.validate_mutation. destruct values as [|v0 rest]; [done|].
  set (values := v0 :: rest) in *. destruct (Z.ltb_spec MAX_SCOPE_REQUEST_VALUES (Z.of_nat (length values))) as [|Hn]; [done|].
  unfold request_fits in Hfit.
  assert (sum_by (λ v, len (svi_envelope v)) values <= MAX_SCOPE_REQUEST_BYTES)%Z as Hb.
  { etrans; [|exact Hfit]. apply sum_by_le. intros v. unfold str_len. lia. }
  rewrite !(proj2 (Z.ltb_ge _ _)) by done.
  rewrite check_request_agrees; [|done|intros v Hin; split; [by apply Hv|set_solver]].
  destruct (check_values parse_json values); [done|]. unfold MAX_SCOPE_REQUEST_VALUES, MAX_SCOPE_REQUEST_BYTES in *.
  rewrite !(proj2 (Z.ltb_ge _ _)); [done|unfold MAX_SCOPE_BYTES; lia|unfold MAX_SCOPE_ROWS; lia].
Qed.

(** ** Writing values *)

Section written.
Context (id : Uuid) (now : Z).
Abbreviation written m inputs i u := (write_values uuid_bytes id now inputs m i u).

Lemma written_lengths inputs : ∀ m i u, lengths (written m inputs i u).1.1 = with_lengths (lengths m) inputs.
Proof.
  induction inputs as [|v inputs IH]; intros m i u; simpl; [done|]. rewrite IH. unfold with_lengths. simpl.
  unfold lengths, write_value. by rewrite fmap_insert.
Qed.

Lemma written_views inputs : ∀ identities m (tv : gmap (Uuid * string) (ScopeValueRow Uuid)) i u,
  length identities = length inputs →
  (∀ k, value_view <$> m !! k = row_view <$> tv !! (id, k)) →
  ∀ k, value_view <$> (written m inputs i u).1.1 !! k =
       row_view <$> foldl (insert_scope_value id now) tv (zip identities inputs) !! (id, k).
Proof.
  induction inputs as [|v inputs IH]; intros [|x identities] m tv i u Hl Hm k; simplify_eq/=; [done|].
  apply IH; [done|]. intros k'. unfold write_value, insert_scope_value. simpl.
  destruct (decide (k' = svi_key v)) as [->|Hne].
  - rewrite !lookup_insert_eq. specialize (Hm (svi_key v)).
    destruct (m !! svi_key v), (tv !! (id, svi_key v)); simplify_eq/=; [|done]. injection Hm as _ Hc _.
    unfold value_view, row_view. simpl. by rewrite Hc.
  - rewrite !lookup_insert_ne by congruence. apply Hm.
Qed.

Lemma written_counts inputs : ∀ m i u,
  NoDup (svi_key <$> inputs) →
  (written m inputs i u).1.2 = i + length (filter (λ v, m !! svi_key v = None) inputs) ∧
  (written m inputs i u).2 = u + length (filter (λ v, is_Some (m !! svi_key v)) inputs).
Proof.
  induction inputs as [|v inputs IH]; intros m i u Hnd; simpl; [lia|]. apply NoDup_cons in Hnd as [Hv Hnd].
  assert (∀ v', v' ∈ inputs → write_value uuid_bytes id now m v !! svi_key v' = m !! svi_key v') as Hsame.
  { intros v' Hin. unfold write_value. apply lookup_insert_ne. intros He. apply Hv. rewrite He. by apply list_elem_of_fmap_2. }
  destruct (IH (write_value uuid_bytes id now m v) (if bool_decide (is_Some (m !! svi_key v)) then i else S i)
    (if bool_decide (is_Some (m !! svi_key v)) then S u else u) Hnd) as [-> ->].
  rewrite !filter_cons.
  rewrite (filter_ext_in (λ v', write_value _ _ _ _ _ !! svi_key v' = None) (λ v', m !! svi_key v' = None))
    by (intros v' Hin; by rewrite Hsame).
  rewrite (filter_ext_in (λ v', is_Some (write_value _ _ _ _ _ !! svi_key v')) (λ v', is_Some (m !! svi_key v')))
    by (intros v' Hin; by rewrite Hsame).
  destruct (m !! svi_key v) as [x|] eqn:Hx; simpl; lia.
Qed.

Lemma written_envelopes inputs (P : Z → Prop) : ∀ m i u,
  (∀ v, v ∈ inputs → P (len (svi_envelope v))) → (∀ k v, m !! k = Some v → P (len (v_envelope v))) →
  ∀ k v, (written m inputs i u).1.1 !! k = Some v → P (len (v_envelope v)).
Proof.
  induction inputs as [|x inputs IH]; intros m i u Hi Hm; simpl; [done|].
  apply IH; [intros v Hin; apply Hi; by right|]. intros k v. unfold write_value.
  intros [[_ <-]|[_ Hv]]%lookup_insert_Some; [apply Hi; left|by apply (Hm k)].
Qed.

(** The rows that a request inserts and those that it updates. *)
Lemma counts_agree inputs m :
  length (filter (λ v, m !! svi_key v = None) inputs) =
    length inputs - length (filter (λ v, is_Some (lengths m !! svi_key v)) inputs) ∧
  length (filter (λ v, is_Some (m !! svi_key v)) inputs) =
    length (filter (λ v, is_Some (lengths m !! svi_key v)) inputs) ∧
  length (filter (λ v, is_Some (lengths m !! svi_key v)) inputs) ≤ length inputs.
Proof.
  assert (∀ k, is_Some (lengths m !! k) ↔ is_Some (m !! k)) as Hl.
  { intros k. unfold lengths. rewrite lookup_fmap. by rewrite fmap_is_Some. }
  induction inputs as [|v inputs (IH1 & IH2 & IH3)]; [done|]. rewrite !filter_cons.
  rewrite (decide_ext (is_Some (lengths m !! svi_key v)) (is_Some (m !! svi_key v))) by apply Hl.
  destruct (m !! svi_key v); simpl; lia.
Qed.

(** The bound that is checked afterwards here is the one the tables compute beforehand. *)
Lemma written_bounds inputs m i u :
  NoDup (svi_key <$> inputs) → in_bounds m →
  (∀ v, v ∈ inputs → (len (svi_envelope v) <= MAX_SCOPE_VALUE_BYTES)%Z) →
  stored_bounds (written m inputs i u).1.1 = resulting_scope_bound (lengths m) inputs.
Proof.
  intros Hnd [Hr Hv Hb] Hi. unfold stored_bounds, resulting_scope_bound. rewrite entries_length.
  destruct (with_lengths_sizes inputs (lengths m) Hnd) as [Hsize Htotal].
  rewrite <- written_lengths with (i := i) (u := u) in Hsize, Htotal. rewrite <- lengths_total in Htotal.
  unfold lengths at 1 in Hsize. rewrite map_size_fmap in Hsize.
  pose proof (replaced_bytes inputs (lengths m) Hnd (lengths_nonneg m)) as Hrep.
  rewrite Hsize. unfold map_total in *. rewrite Z.max_r by lia. rewrite Htotal.
  destruct (_ <? _)%Z; [done|].
  assert (first_large (entries (written m inputs i u).1.1) = None) as ->; [|done].
  apply first_large_none. intros k v Hin%elem_of_values_entries.
  by apply (written_envelopes inputs (λ n, n <= MAX_SCOPE_VALUE_BYTES)%Z m i u Hi Hv k v).
Qed.
End written.

(** ** Documents *)

Lemma loaded_document s id sc :
  keyspace_ok s → document s id = Some sc →
  st_state sc ≠ Stored_Cleaned ∧ ks_scopes s !! id = Some sc ∧ ks_cleaned s !! id = None ∧
    loaded s id = Loaded_Current sc (metrics_for encoded_len sc (claims_of s id)) ∨
  st_state sc = Stored_Cleaned ∧ loaded s id = Loaded_Cleaned sc.
Proof.
  intros Hs. unfold document, loaded. destruct (ks_scopes s !! id) as [sc'|] eqn:Hsc.
  - intros [= ->]. left. destruct (ko_scope _ _ _ _ Hs _ _ Hsc) as [_ Hst]. split_and!; [done|done| |done].
    destruct (ks_cleaned s !! id) eqn:Hc; [|done]. rewrite (ko_apart _ _ _ _ Hs id) in Hsc by by rewrite Hc. done.
  - intros Hcl. right. rewrite Hcl. split; [by apply (ko_cleaned _ _ _ _ Hs id)|done].
Qed.

Lemma loaded_missing s id : document s id = None → loaded s id = Loaded_Missing.
Proof. unfold document, loaded. by destruct (ks_scopes s !! id), (ks_cleaned s !! id). Qed.

(** ** The operations agree *)

(** A cleaned scope is not writable to the tables and missing to Redis. *)
Definition write_told (o : ScopeWriteOutcome (Uuid := Uuid)) : ScopeWriteOutcome (Uuid := Uuid) :=
  match o with Write_NotWritable Scope_Cleaned => Write_Missing | _ => o end.
Definition delete_told (o : ScopeDeleteOutcome (Uuid := Uuid)) : ScopeDeleteOutcome (Uuid := Uuid) :=
  match o with Delete_NotWritable Scope_Cleaned => Delete_Missing | _ => o end.

(** Redis answers as the tables do, or has no room and changes nothing. *)
Definition agrees {A} s t' (o : A) (r : result A RedisScopeStoreError) s' : Prop :=
  r = Ok o ∧ simulates s' t' ∨ (r = Err CapacityFenced ∨ r = Err Accounting) ∧ s' = s.

Lemma agrees_same {A} now s t (o : A) : simulates s t → runs now (Ret (Ok o)) (agrees s t o) s.
Proof. intros Hs. apply runs_ret. by left. Qed.

Section operations.
Context (s : keyspace) (t : ScopeTables Uuid) (Hsim : simulates s t).
Let Hs : keyspace_ok s := si_keyspace _ _ Hsim.
Let Ht : scopes_ok parse_json t := si_tables _ _ Hsim.

(** An active scope of both. *)
Record active_in id sc (r : ScopeRow Uuid) : Prop := {
  ai_row : scopes t !! id = Some r;
  ai_doc : document s id = Some sc;
  ai_matches : row_matches sc r;
  ai_current : ks_scopes s !! id = Some sc;
  ai_cleaned : ks_cleaned s !! id = None;
  ai_ok : doc_ok uuid_bytes parse_json id sc;
  ai_active : st_state sc = Stored_Active
}.

(** The commit of new values. *)
Lemma commit_values {A} now kind op payload id sc r next t' c cl (o : A) k :
  active_in id sc r → kind = Mutate_Write ∨ kind = Mutate_Delete → op = claim_identity c → ks_claims s !! op = None →
  follows uuid_bytes parse_json kind (Some sc) next → next = with_values (st_values next) (st_updated_at next) sc →
  scopes_ok parse_json t' → scopes t' = <[id := touch (st_updated_at next) r]> (scopes t) →
  scope_claims t' = <[c := cl]> (scope_claims t) →
  (∀ id' k, id' ≠ id → scope_values t' !! (id', k) = scope_values t !! (id', k)) →
  (∀ k, value_view <$> st_values next !! k = row_view <$> scope_values t' !! (id, k)) →
  k Status_Applied = Ret (Ok o) → k Status_Fenced = status_error Status_Fenced →
  runs now (let*? st := mutate kind op payload id "" (Some (sc, metrics_for encoded_len sc (claims_of s id))) next in k st)
    (agrees s t' o) s.
Proof.
  intros [Hr Hdoc Hm Hsc Hcl Hdok Ha] Hk -> Hop Hf Hnext Ht' Hscopes Hclaims Hother Hval Hkv Hkf.
  replace (Some (sc, _)) with (current s id) by (unfold current; by rewrite Hsc).
  apply runs_apply; [done|done|done|by rewrite Hsc|rewrite Hnext; apply Hdok|by destruct Hk as [-> | ->]| |..].
  - unfold operation_named. destruct Hk as [-> | ->]; by eexists.
  - intros s' Hput. unfold success. rewrite bool_decide_false by (by destruct Hk as [-> | ->]). rewrite Hkv.
    apply runs_ret. left. split; [done|].
    eapply simulates_put; [exact Hsim|exact Hput|done|exact Hscopes| |done|done|].
    + rewrite Hnext. destruct Hm. by split.
    + intros c' cl'. rewrite Hclaims. intros [[<- _]|[_ Hold]]%lookup_insert_Some; auto.
  - rewrite Hkf. apply runs_ret. right. auto.
  - right. auto.
Qed.

Lemma write_agrees now identities input o t' :
  ks_claims s !! claim_identity (wi_claim_id input) = None → request_fits (wi_values input) →
  length identities = length (wi_values input) →
  ScopeStore.write_tickr_ctx_scope uuid_bytes parse_json identities input t = Ok (o, t') →
  runs now (write_tickr_ctx_scope uuid_bytes parse_json from_utf8 encoded_len config input) (agrees s t' (write_told o)) s.
Proof.
  intros Hclaim Hfit Hlen Hw.
  assert (scopes_ok parse_json t') as Ht' by by eapply (write_step uuid_bytes).
  unfold ScopeStore.write_tickr_ctx_scope in Hw. unfold write_tickr_ctx_scope.
  destruct (ScopeStore.mutation_digest _ _ _) as [d|] eqn:Hd; [|done]. cbv beta match in Hw.
  destruct (digests_agree _ _ _ Hd) as (-> & Hnd & Hkeys).
  assert (validate_mutation parse_json (wi_values input) false = ScopeStore.validate_mutation parse_json (wi_values input) 0 0) as ->.
  { destruct (decide (wi_values input = [])) as [->|]; [done|]. by apply validations_agree. }
  destruct (ScopeStore.validate_mutation _ _ _ _) as [x|] eqn:Hv; [injection Hw as <- <-; by apply agrees_same|].
  apply validated in Hv as (Hok & _ & _). rewrite (load_scope_ok parse_json) in Hw by done. cbv beta match in Hw.
  apply runs_claim_status; [done|]. unfold ATTEMPTS. cbn [write_loop]. apply runs_load; [done|].
  destruct (scopes t !! wi_scope_id input) as [r|] eqn:Hr.
  2:{ injection Hw as <- <-. apply (related_missing _ _ Hsim) in Hr. rewrite loaded_missing by done. by apply agrees_same. }
  destruct (related_doc _ _ Hsim _ _ Hr) as (sc & Hdoc & Hm). pose proof (document_ok _ _ Hsim _ _ Hdoc) as Hdok.
  rewrite (si_claim _ _ Hsim _ Hclaim) in Hw.
  rewrite bool_decide_false in Hw by (rewrite (rm_state _ _ Hm); by destruct (st_state sc)).
  destruct (loaded_document _ _ _ Hs Hdoc) as [(Hnc & Hsc & Hcl & ->)|[Hc ->]].
  2:{ rewrite (rm_state _ _ Hm), Hc in Hw. simpl in Hw. injection Hw as <- <-. by apply agrees_same. }
  rewrite (rm_state _ _ Hm) in Hw. destruct (decide (st_state sc = Stored_Active)) as [Ha|Ha].
  2:{ rewrite !bool_decide_false in Hw |- * by (done || by destruct (st_state sc)). simpl in Hw. injection Hw as <- <-.
      cbn [negb]. replace (write_told _) with (Write_NotWritable (Uuid := Uuid) (public_state (st_state sc))); [by apply agrees_same|].
      by destruct (st_state sc). }
  rewrite Ha in Hw |- *. cbn in Hw. rewrite bool_decide_true by done. cbn [negb]. rewrite (rm_created_at _ _ Hm) in Hw.
  destruct (age_bound _ _); [injection Hw as <- <-; by apply agrees_same|]. cbv zeta in Hw.
  rewrite (related_lengths _ _ Hsim _ _ Hdoc) in Hw.
  set (id := wi_scope_id input) in *. set (inputs := wi_values input) in *.
  pose proof (written_bounds id (wi_now input) inputs (st_values sc) 0 0 Hnd (do_bounds _ _ _ _ Hdok) (λ v Hin, proj1 (Hok v Hin))) as Hwb.
  pose proof (written_counts id (wi_now input) inputs (st_values sc) 0 0 Hnd) as [Hi Hu].
  pose proof (written_views id (wi_now input) inputs identities (st_values sc) (scope_values t) 0 0 Hlen) as Hview.
  assert (Forall (input_ok parse_json) inputs) as Hin.
  { apply Forall_forall. intros v Hv. split; [by apply Hkeys|by apply Hok]. }
  pose proof (write_values_ok uuid_bytes parse_json id (wi_now input) inputs (st_values sc) 0 0 Hin (do_values _ _ _ _ Hdok)) as Hwok.
  destruct (write_values _ _ _ _ _ _ _) as [[values inserted] updated] eqn:Hwv. cbn [fst snd] in *. rewrite Hwb.
  destruct (resulting_scope_bound _ _) eqn:Hb; [injection Hw as <- <-; by apply agrees_same|].
  destruct (insert_claim _ _ _ _ _) as [t2|] eqn:Hic; [|done]. apply insert_claim_Ok in Hic as [_ ->]. injection Hw as <- <-.
  destruct (counts_agree inputs (st_values sc)) as (Hc1 & Hc2 & _). rewrite Hc1 in Hi. rewrite Hc2 in Hu. simpl in Hi, Hu.
  eapply commit_values; [by split|by left|done|done| |done|done| |done|..].
  - apply follows_write; [done|by rewrite (do_id _ _ _ _ Hdok)|by apply stored_bounds_none]. 
  - by rewrite (update_scope_scopes _ _ r).
  - intros id' k Hne. simpl. by apply (insert_values_other id _ identities inputs t).
  - intros k. simpl. apply Hview. intros k'. pose proof (si_value _ _ Hsim id k') as Hv. by rewrite Hdoc in Hv.
  - by rewrite Hi, Hu.
  - done.
Qed.

Lemma delete_agrees now input o t' :
  ks_claims s !! claim_identity (di_claim_id input) = None →
  ScopeStore.delete_tickr_ctx_scope_value uuid_bytes input t = Ok (o, t') →
  runs now (delete_tickr_ctx_scope_value uuid_bytes parse_json from_utf8 encoded_len config input) (agrees s t' (delete_told o)) s.
Proof.
  intros Hclaim Hw. assert (scopes_ok parse_json t') as Ht' by by eapply (delete_step uuid_bytes).
  unfold ScopeStore.delete_tickr_ctx_scope_value, ScopeStore.delete_digest in Hw. unfold delete_tickr_ctx_scope_value, validate_key.
  destruct (valid_key (di_key input)); [|done]. cbn [ensure] in Hw |- *. cbv beta match in Hw.
  rewrite (load_scope_ok parse_json) in Hw by done. cbv beta match in Hw.
  apply runs_claim_status; [done|]. unfold ATTEMPTS. cbn [delete_loop]. apply runs_load; [done|].
  destruct (scopes t !! di_scope_id input) as [r|] eqn:Hr.
  2:{ injection Hw as <- <-. apply (related_missing _ _ Hsim) in Hr. rewrite loaded_missing by done. by apply agrees_same. }
  destruct (related_doc _ _ Hsim _ _ Hr) as (sc & Hdoc & Hm). pose proof (document_ok _ _ Hsim _ _ Hdoc) as Hdok.
  rewrite (si_claim _ _ Hsim _ Hclaim) in Hw.
  rewrite bool_decide_false in Hw by (rewrite (rm_state _ _ Hm); by destruct (st_state sc)).
  destruct (loaded_document _ _ _ Hs Hdoc) as [(Hnc & Hsc & Hcl & ->)|[Hc ->]].
  2:{ rewrite (rm_state _ _ Hm), Hc in Hw. simpl in Hw. injection Hw as <- <-. by apply agrees_same. }
  rewrite (rm_state _ _ Hm) in Hw. destruct (decide (st_state sc = Stored_Active)) as [Ha|Ha].
  2:{ rewrite !bool_decide_false in Hw |- * by (done || by destruct (st_state sc)). simpl in Hw. injection Hw as <- <-.
      cbn [negb]. replace (delete_told _) with (Delete_NotWritable (Uuid := Uuid) (public_state (st_state sc))); [by apply agrees_same|].
      by destruct (st_state sc). }
  rewrite Ha in Hw |- *. cbn in Hw. rewrite bool_decide_true by done. cbn [negb]. rewrite (rm_created_at _ _ Hm) in Hw.
  destruct (age_bound _ _); [injection Hw as <- <-; by apply agrees_same|].
  destruct (insert_claim _ _ _ _ _) as [t2|] eqn:Hic; [|done]. apply insert_claim_Ok in Hic as [_ ->]. injection Hw as <- <-.
  set (id := di_scope_id input) in *. set (key := di_key input) in *.
  pose proof (λ k, si_value _ _ Hsim id k) as Hv. rewrite Hdoc in Hv. cbn [mbind option_bind] in Hv.
  eapply commit_values; [by split|by right|done|done|by apply follows_delete|done|done| |done|..].
  - by rewrite (update_scope_scopes _ _ r).
  - intros id' k Hne. simpl. apply lookup_delete_ne. congruence.
  - intros k. simpl. destruct (decide (k = key)) as [->|Hne]; [by rewrite !lookup_delete_eq|].
    rewrite !lookup_delete_ne by congruence. apply Hv.
  - specialize (Hv key). destruct (st_values sc !! key), (scope_values t !! (id, key)); simplify_eq/=; done.
  - done.
Qed.

(** *** Reading *)

Inductive ReadView :=
| View_Present (values : list (string * (bytes * Z * Z)))
| View_Archived (snapshot : TickrCtxScopeSnapshot Uuid)
| View_Missing
| View_Bound (b : ScopeBoundViolation)
| View_Quarantined (diagnostic : string).

(** The identities of values are those of each store. *)
Definition table_view (o : ScopeReadOutcome (Uuid := Uuid)) : ReadView :=
  match o with
  | Read_Present values => View_Present ((λ v, (ssv_key v, (ssv_envelope v, ssv_created_at v, ssv_updated_at v))) <$> values)
  | Read_Archived snapshot => View_Archived snapshot
  | Read_Missing => View_Missing
  | Read_Bound b => View_Bound b
  | Read_Quarantined _ diagnostic => View_Quarantined diagnostic
  end.

Definition redis_view (o : RedisReadOutcome (Uuid := Uuid)) : ReadView :=
  match o with
  | RedisRead_Present values => View_Present ((λ kv, (kv.1, value_view kv.2)) <$> values)
  | RedisRead_Archived snapshot => View_Archived snapshot
  | RedisRead_Missing => View_Missing
  | RedisRead_Bound b => View_Bound b
  end.

(** A document past its active phase. *)
Lemma archived_view id sc r :
  document s id = Some sc → scopes t !! id = Some r → row_matches sc r → st_state sc ≠ Stored_Active →
  ∃ snapshot, snapshot_from_record id r = Ok snapshot ∧ public_snapshot parse_json from_utf8 sc = Ok snapshot.
Proof.
  intros Hdoc Hr Hm Hst. pose proof (document_ok _ _ Hsim _ _ Hdoc) as Hd.
  destruct (archived_doc uuid_bytes _ _ utf8 _ _ Hd Hst) as (m & Hv & Hb & Hsn & Hp). eexists. split; [|exact Hp].
  by apply (related_archived _ _ Hsim _ sc).
Qed.

Lemma read_agrees debug now id at_ o t' :
  ScopeStore.read_tickr_ctx_scope parse_json debug id at_ t = Ok (o, t') →
  runs now (let*? x := read_tickr_ctx_scope uuid_bytes parse_json from_utf8 encoded_len id at_ in Ret (Ok (redis_view x)))
    (agrees s t' (table_view o)) s.
Proof.
  intros Hr. rewrite (read_spec parse_json) in Hr by done. injection Hr as Ho <-. subst o.
  apply runs_then. unfold read_tickr_ctx_scope. apply runs_load; [done|].
  destruct (scopes t !! id) as [r|] eqn:Hr.
  2:{ apply (related_missing _ _ Hsim) in Hr. rewrite loaded_missing by done. apply runs_ret. by apply agrees_same. }
  destruct (related_doc _ _ Hsim _ _ Hr) as (sc & Hdoc & Hm). pose proof (document_ok _ _ Hsim _ _ Hdoc) as Hdok.
  destruct (decide (st_state sc = Stored_Active)) as [Ha|Ha].
  - rewrite (rm_state _ _ Hm), Ha, bool_decide_true by done.
    destruct (loaded_document _ _ _ Hs Hdoc) as [(Hnc & Hsc & Hcl & ->)|[Hc ->]]; [|congruence].
    rewrite bool_decide_false by congruence. rewrite (rm_created_at _ _ Hm).
    destruct (age_bound _ _); [apply runs_ret; by apply agrees_same|].
    rewrite (proj2 (stored_bounds_none _) (do_bounds _ _ _ _ Hdok)). apply runs_ret.
    replace (table_view _) with (redis_view (RedisRead_Present (entries (st_values sc)))); [by apply agrees_same|].
    simpl. by rewrite (related_values _ _ Hsim id sc).
  - destruct (archived_view id sc r Hdoc Hr Hm Ha) as (snapshot & -> & Hp).
    rewrite (rm_state _ _ Hm), bool_decide_false by (by destruct (st_state sc)).
    destruct (loaded_document _ _ _ Hs Hdoc) as [(Hnc & Hsc & Hcl & ->)|[Hc ->]].
    + rewrite bool_decide_true by (by destruct (st_state sc)). rewrite Hp. apply runs_ret. by apply agrees_same.
    + rewrite Hp. apply runs_ret. by apply agrees_same.
Qed.

(** *** Snapshots *)

Lemma phase_fresh kind id op sc :
  phase_operation kind id = Some op → document s id = Some sc → ¬ phase_reached kind sc → ks_claims s !! op = None.
Proof.
  intros Hop Hd Hn. destruct (ks_claims s !! op) as [c|] eqn:Hc; [|done].
  destruct (ko_phase _ _ _ _ Hs _ _ _ _ Hop Hc) as (sc' & Hd' & Hr). congruence.
Qed.

Lemma snapshot_agrees debug now id at_ o t' :
  ScopeStore.snapshot_tickr_ctx_scope parse_json debug id at_ t = Ok (o, t') →
  runs now (snapshot_tickr_ctx_scope uuid_bytes parse_json from_utf8 encoded_len config id at_) (agrees s t' o) s.
Proof.
  intros Hsn. assert (scopes_ok parse_json t') as Ht' by by eapply snapshot_step.
  rewrite (ScopeStoreFacts.snapshot_spec parse_json) in Hsn by done. injection Hsn as Hsn.
  unfold snapshot_tickr_ctx_scope, ATTEMPTS. cbn [snapshot_loop]. apply runs_load; [done|].
  destruct (scopes t !! id) as [r|] eqn:Hr.
  2:{ injection Hsn as <- <-. apply (related_missing _ _ Hsim) in Hr. rewrite loaded_missing by done. by apply agrees_same. }
  destruct (related_doc _ _ Hsim _ _ Hr) as (sc & Hdoc & Hm). pose proof (document_ok _ _ Hsim _ _ Hdoc) as Hdok.
  rewrite (rm_state _ _ Hm) in Hsn. destruct (decide (st_state sc = Stored_Active)) as [Ha|Ha].
  - rewrite Ha, bool_decide_true in Hsn by done. rewrite (rm_created_at _ _ Hm) in Hsn.
    destruct (loaded_document _ _ _ Hs Hdoc) as [(Hnc & Hsc & Hcl & ->)|[Hc ->]]; [|congruence].
    rewrite bool_decide_false by congruence. destruct (age_bound _ _); [injection Hsn as <- <-; by apply agrees_same|].
    rewrite (proj2 (stored_bounds_none _) (do_bounds _ _ _ _ Hdok)), snapshot_from_bounds by apply Hdok. cbv zeta in Hsn.
    rewrite (related_take _ _ Hsim id sc Hdoc) in Hsn. injection Hsn as <- <-.
    replace (Some (sc, _)) with (current s id) by (unfold current; by rewrite Hsc).
    apply runs_apply; [done| |done|by rewrite Hsc; apply follows_snapshot|apply Hdok|done|done|..].
    + apply (phase_fresh Mutate_Snapshot id _ sc); [done|done|]. by intros Hx.
    + intros s' Hput. apply runs_ret. left. split; [done|].
      eapply simulates_put; [exact Hsim|exact Hput|done|by apply update_scope_scopes| |done| |auto].
      * destruct Hm. by split.
      * intros k. pose proof (si_value _ _ Hsim id k) as Hv. by rewrite Hdoc in Hv.
    + apply runs_ret. right. auto.
    + right. auto.
  - rewrite bool_decide_false in Hsn by (by destruct (st_state sc)).
    destruct (archived_view id sc r Hdoc Hr Hm Ha) as (snapshot & Hrec & Hp). rewrite Hrec in Hsn. injection Hsn as <- <-.
    assert (runs now (archived_already parse_json from_utf8 sc) (agrees s t (Snapshot_Idempotent snapshot)) s) as Harch.
    { unfold archived_already. apply runs_guard_existing. rewrite Hp. by apply agrees_same. }
    destruct (loaded_document _ _ _ Hs Hdoc) as [(Hnc & Hsc & Hcl & ->)|[Hc ->]]; [|done].
    by rewrite bool_decide_true by (by destruct (st_state sc)).
Qed.

(** The digest of an owner is that of no other. *)
Definition owner_known namespace run_id : Prop :=
  ∀ id sc, document s id = Some sc → owner_identity (st_namespace sc) (st_run_id sc) = owner_identity namespace run_id →
  st_namespace sc = namespace ∧ st_run_id sc = run_id.

Lemma owner_lookup namespace run_id :
  owner_known namespace run_id →
  ks_owners s !! owner_identity namespace run_id =
  fst <$> find_scope (λ r, bool_decide (sp_namespace r = namespace) && bool_decide (sp_run_id r = run_id)) t.
Proof.
  intros Hown. destruct (find_scope _ t) as [[id r]|] eqn:Hf; simpl.
  - apply find_scope_Some in Hf as [Hr Hp]. apply andb_true_iff in Hp as [H1%bool_decide_eq_true H2%bool_decide_eq_true].
    destruct (related_doc _ _ Hsim _ _ Hr) as (sc & Hd & []).
    pose proof (ko_owned _ _ _ _ Hs _ _ Hd) as Ho. by rewrite <- rm_namespace0, <- rm_run_id0, H1, H2 in Ho.
  - destruct (ks_owners s !! _) as [id|] eqn:Ho; [|done].
    destruct (ko_owner _ _ _ _ Hs _ _ Ho) as (sc & Hd & He). destruct (Hown _ _ Hd He) as [H1 H2].
    destruct (related_row _ _ Hsim _ _ Hd) as (r & Hr & []).
    pose proof (find_scope_None _ _ _ _ Hf Hr) as Hp. simpl in Hp.
    by rewrite !bool_decide_true in Hp by congruence.
Qed.

Lemma identity_agrees namespace run_id :
  ScopeStore.validate_scope_identity namespace run_id = Ok tt → validate_scope_identity namespace run_id = Ok tt.
Proof.
  unfold ScopeStore.validate_scope_identity, validate_scope_identity.
  destruct (negb (bool_decide (namespace = "")) && _); [|done]. cbn [ensure andb].
  by destruct (negb (bool_decide (run_id = "")) && _).
Qed.

Lemma snapshot_for_run_agrees debug now namespace run_id at_ o t' :
  owner_known namespace run_id →
  ScopeStore.snapshot_tickr_ctx_scope_for_run parse_json debug namespace run_id at_ t = Ok (o, t') →
  runs now (snapshot_tickr_ctx_scope_for_run uuid_bytes parse_json from_utf8 encoded_len config namespace run_id at_)
    (agrees s t' o) s.
Proof.
  intros Hown Hsn. unfold ScopeStore.snapshot_tickr_ctx_scope_for_run in Hsn.
  destruct (ScopeStore.validate_scope_identity _ _) as [[]|] eqn:Hid; [|done]. cbv beta match in Hsn.
  unfold snapshot_tickr_ctx_scope_for_run. rewrite (identity_agrees _ _ Hid). apply runs_command. rewrite owner_lookup by done.
  destruct (find_scope _ t) as [[id r]|]; cbn [fmap option_fmap option_map fst].
  - by eapply snapshot_agrees.
  - injection Hsn as <- <-. by apply agrees_same.
Qed.

(** *** Creating *)

Lemma created_written id now inputs : ∀ m i u,
  NoDup (svi_key <$> inputs) → (∀ v, v ∈ inputs → m !! svi_key v = None) →
  foldl (λ x v, <[svi_key v := new_value uuid_bytes id now now v]> x) m inputs =
  (write_values uuid_bytes id now inputs m i u).1.1.
Proof.
  induction inputs as [|v inputs IH]; intros m i u Hnd Hm; simpl; [done|]. apply NoDup_cons in Hnd as [Hv Hnd].
  unfold write_value at 1. rewrite (Hm v) by left. apply IH; [done|]. intros v' Hin.
  rewrite lookup_insert_ne; [apply Hm; by right|]. intros He. apply Hv. rewrite He. by apply list_elem_of_fmap_2.
Qed.

(** A claim that was never seen created nothing. *)
Lemma unseen_created c id sc :
  ks_claims s !! claim_identity c = None → document s id = Some sc → st_creation_claim_id sc ≠ c.
Proof. intros Hc Hd <-. destruct (ko_created _ _ _ _ Hs _ _ Hd) as [fp Hfp]. congruence. Qed.

(** The identity of the scope is new, or is the one its owner has already. *)
Definition scope_known id namespace run_id : Prop :=
  document s id = None ∨ ks_owners s !! owner_identity namespace run_id = Some id.

Lemma create_commits now identities input d t' :
  ks_claims s !! claim_identity (ci_claim_id input) = None → document s (ci_scope_id input) = None →
  ks_owners s !! owner_identity (ci_namespace input) (ci_run_id input) = None →
  is_ok (validate_scope_identity (ci_namespace input) (ci_run_id input)) = true →
  validate_mutation parse_json (ci_values input) true = None → NoDup (svi_key <$> ci_values input) →
  length identities = length (ci_values input) → scopes_ok parse_json t' →
  scopes t' = <[ci_scope_id input := new_scope input d]> (scopes t) →
  scope_values t' = foldl (insert_scope_value (ci_scope_id input) (ci_now input)) (scope_values t) (zip identities (ci_values input)) →
  (∃ cl, scope_claims t' = <[ci_claim_id input := cl]> (scope_claims t)) →
  ∀ payload (k : MutationStatus → answer (ScopeCreationOutcome (Uuid := Uuid))), k Status_Applied = Ret (Ok Creation_Created) → k Status_Fenced = status_error Status_Fenced →
  runs now (let*? st := mutate Mutate_Create (claim_identity (ci_claim_id input)) payload (ci_scope_id input)
              (owner_identity (ci_namespace input) (ci_run_id input)) None (created_scope uuid_bytes input d) in k st)
    (agrees s t' Creation_Created) s.
Proof.
  intros Hclaim Hdoc Hown Hid Hv Hnd Hlen Ht' Hscopes Hvalues [cl Hclaims] payload k Hka Hkf.
  assert (ks_scopes s !! ci_scope_id input = None ∧ ks_cleaned s !! ci_scope_id input = None) as [Hn Hcl].
  { unfold document in Hdoc. by destruct (ks_scopes s !! _). }
  replace None with (current s (ci_scope_id input)) by (unfold current; by rewrite Hn).
  apply runs_apply; [done|done|done| |done|done|by eexists|..].
  - rewrite Hn. apply follows_create; [|done]. by apply created_doc_ok.
  - intros s' Hput. unfold success. rewrite bool_decide_false by done. rewrite Hka. apply runs_ret. left. split; [done|].
    eapply simulates_put; [exact Hsim|exact Hput|done|exact Hscopes|by split|..].
    + intros id' x Hne. rewrite Hvalues.
      apply (insert_values_other (ci_scope_id input) (ci_now input) identities (ci_values input) t id' x Hne).
    + intros x. rewrite Hvalues. simpl. rewrite (created_written _ _ _ ∅ 0 0) by done.
      apply written_views; [done|]. intros k'. rewrite lookup_empty.
      pose proof (si_value _ _ Hsim (ci_scope_id input) k') as Hx. by rewrite Hdoc in Hx.
    + intros c cl'. rewrite Hclaims. intros [[<- _]|[_ Hold]]%lookup_insert_Some; auto.
  - rewrite Hkf. apply runs_ret. right. auto.
  - right. auto.
Qed.

(** Another scope has the owner. *)
Lemma script_collision mu y :
  ks_claims s !! sm_operation_identity mu = None → document s (sm_scope_id mu) = None → sm_kind mu = Mutate_Create →
  ks_owners s !! sm_owner_identity mu = Some y → y ≠ sm_scope_id mu →
  scope_store_script config mu s = (Status_Collision y, s).
Proof.
  intros Hc Hd Hk Ho Hne. assert (ks_cleaned s !! sm_scope_id mu = None) as Hcl.
  { unfold document in Hd. by destruct (ks_scopes s !! _). }
  unfold scope_store_script, script_refusal. rewrite Hc, Hcl, Ho.
  rewrite (bool_decide_false (is_Some _)) by apply is_Some_None.
  by rewrite bool_decide_true, bool_decide_false.
Qed.

(** A creation whose scope or whose owner is there already. *)
Lemma create_collides now input d id payload :
  ks_claims s !! claim_identity (ci_claim_id input) = None →
  ks_owners s !! owner_identity (ci_namespace input) (ci_run_id input) = Some id →
  document s (ci_scope_id input) = None →
  ∀ k : MutationStatus → answer (ScopeCreationOutcome (Uuid := Uuid)),
  k (Status_Collision id) = Ret (Ok (Creation_Collision id)) →
  runs now (let*? st := mutate Mutate_Create (claim_identity (ci_claim_id input)) payload (ci_scope_id input)
              (owner_identity (ci_namespace input) (ci_run_id input)) None (created_scope uuid_bytes input d) in k st)
    (agrees s t (Creation_Collision id)) s.
Proof.
  intros Hclaim Hown Hdoc k Hk. apply runs_mutate; [|right; auto]. intros mu Hnew.
  unfold ScriptMutation_new in Hnew. cbn in Hnew. destruct (for_scope _ _ _) as [m|]; [|done]. injection Hnew as <-.
  rewrite (script_collision _ id); [rewrite Hk; by apply agrees_same|done|done|done|done|]. simpl. intros ->.
  destruct (ko_owner _ _ _ _ Hs _ _ Hown) as (sc & Hd & _). congruence.
Qed.

Lemma creations_agree values :
  NoDup (svi_key <$> values) → (∀ v, v ∈ values → valid_key (svi_key v) = true) → request_fits values →
  validate_mutation parse_json values true =
  match ScopeStore.validate_mutation parse_json values 0 0 with Some EmptyRequest => None | x => x end.
Proof.
  intros Hnd Hv Hfit. destruct (decide (values = [])) as [->|Hne]; [done|]. rewrite validations_agree by done.
  destruct (ScopeStore.validate_mutation _ _ _ _) as [[]|] eqn:Hvm; try done. exfalso.
  unfold ScopeStore.validate_mutation in Hvm. destruct values as [|v rest]; [done|].
  pose proof (check_values_nonempty parse_json (v :: rest)). repeat case_match; congruence.
Qed.

(** What Redis answers when the owner has a scope. *)
Lemma owner_taken now input d payload id :
  ks_claims s !! claim_identity (ci_claim_id input) = None →
  scope_known (ci_scope_id input) (ci_namespace input) (ci_run_id input) →
  ks_owners s !! owner_identity (ci_namespace input) (ci_run_id input) = Some id →
  runs now
    (match loaded s (ci_scope_id input) with
     | Loaded_Current existing _ | Loaded_Cleaned existing =>
         if bool_decide (st_creation_claim_id existing = ci_claim_id input) &&
            bool_decide (st_namespace existing = ci_namespace input) &&
            bool_decide (st_run_id existing = ci_run_id input) &&
            bool_decide (st_creation_request_digest existing = d)
         then let*? _ := guard_existing_commit in Ret (Ok Creation_Idempotent)
         else Ret (Ok (Creation_Collision (st_scope_id existing)))
     | Loaded_Missing =>
         let*? status := mutate Mutate_Create (claim_identity (ci_claim_id input)) payload (ci_scope_id input)
           (owner_identity (ci_namespace input) (ci_run_id input)) None (created_scope uuid_bytes input d) in
         match status with
         | Status_Applied => Ret (Ok Creation_Created)
         | Status_Replayed => Ret (Ok Creation_Idempotent)
         | Status_ClaimConflict => Ret (Ok Creation_ClaimConflict)
         | Status_Collision existing => Ret (Ok (Creation_Collision existing))
         | status => status_error status
         end
     end) (agrees s t (Creation_Collision id)) s.
Proof.
  intros Hclaim Hknown Ho. destruct (document s (ci_scope_id input)) as [sc|] eqn:Hdoc.
  - destruct Hknown as [Hn|Hk]; [congruence|]. rewrite Ho in Hk. injection Hk as ->.
    replace (Creation_Collision (ci_scope_id input)) with (Creation_Collision (st_scope_id sc))
      by (by rewrite (do_id _ _ _ _ (document_ok _ _ Hsim _ _ Hdoc))).
    destruct (loaded_document _ _ _ Hs Hdoc) as [(_ & _ & _ & Hl)|[_ Hl]]; rewrite Hl;
      rewrite (bool_decide_false (st_creation_claim_id sc = _)) by (by eapply unseen_created); by apply agrees_same.
  - rewrite loaded_missing by done. by apply create_collides.
Qed.

Lemma create_agrees now identities input o t' :
  ks_claims s !! claim_identity (ci_claim_id input) = None → request_fits (ci_values input) →
  owner_known (ci_namespace input) (ci_run_id input) →
  scope_known (ci_scope_id input) (ci_namespace input) (ci_run_id input) →
  length identities = length (ci_values input) →
  ScopeStore.create_tickr_ctx_scope uuid_bytes parse_json identities input t = Ok (o, t') →
  runs now (create_tickr_ctx_scope uuid_bytes parse_json from_utf8 encoded_len config input) (agrees s t' o) s.
Proof.
  intros Hclaim Hfit Hown Hknown Hlen Hc.
  assert (scopes_ok parse_json t') as Ht' by by eapply (create_step uuid_bytes).
  unfold ScopeStore.create_tickr_ctx_scope in Hc. unfold create_tickr_ctx_scope.
  destruct (ScopeStore.validate_scope_identity _ _) as [[]|] eqn:Hid; [|done]. cbv beta match in Hc.
  rewrite (identity_agrees _ _ Hid).
  destruct (ScopeStore.mutation_digest _ _ _) as [d|] eqn:Hd; [|done]. cbv beta match in Hc.
  destruct (digests_agree _ _ _ Hd) as (-> & Hnd & Hkeys).
  pose proof (creations_agree _ Hnd Hkeys Hfit) as Hv.
  assert (∀ id r, scopes t !! id = Some r → sp_creation_claim_id r ≠ ci_claim_id input) as Hnew.
  { intros id r Hr. destruct (related_doc _ _ Hsim _ _ Hr) as (sc & Hdoc & Hm). rewrite (rm_claim _ _ Hm). by eapply unseen_created. }
  destruct (ScopeStore.validate_mutation _ _ _ _) as [[|b|key e]|]; rewrite Hv;
    [|injection Hc as <- <-; by apply agrees_same..|].
  all: destruct (find_scope (λ r, bool_decide (sp_creation_claim_id r = _)) t) as [[id r]|] eqn:Hf;
    [by apply find_scope_Some in Hf as [Hr Hp%bool_decide_eq_true]; apply Hnew in Hr|clear Hf].
  all: apply runs_claim_status; [done|]; apply runs_load; [done|].
  all: pose proof (owner_lookup _ _ Hown) as Ho; destruct (find_scope _ t) as [[id r]|]; simpl in Ho.
  all: try (injection Hc as <- <-; by apply owner_taken).
  all: destruct Hknown as [Hdoc|Hdoc]; [|congruence]; rewrite loaded_missing by done.
  all: case_bool_decide; [|done]; cbn [ensure] in Hc; cbv beta match zeta in Hc.
  all: destruct (insert_claim _ _ _ _ _) as [t3|] eqn:Hic; [|done]; apply insert_claim_Ok in Hic as [_ ->]; injection Hc as <- <-.
  all: eapply create_commits; try done; [by rewrite (identity_agrees _ _ Hid)|by eexists].
Qed.

(** *** Archives *)

(** The evidence that is shown is the one that was recorded, where there is an archive. *)
Definition evidence_recorded id digest identity : Prop :=
  ∀ sc, document s id = Some sc → st_state sc ≠ Stored_Active →
  st_archive_commit sc = Some (mkArchiveCommit digest (sha256_hex identity)).

Lemma evidence_verified id sc digest identity :
  evidence_recorded id digest identity → document s id = Some sc → st_state sc ≠ Stored_Active →
  verify_archive_evidence parse_json from_utf8 sc digest identity = Ok tt.
Proof.
  intros He Hdoc Hst. pose proof (document_ok _ _ Hsim _ _ Hdoc) as Hd. specialize (He sc Hdoc Hst).
  destruct (archived_doc uuid_bytes _ _ utf8 _ _ Hd Hst) as (m & _ & _ & Hsn & Hp).
  destruct (do_archive _ _ _ _ Hd _ He) as (x & Hx & Hdig). rewrite Hsn in Hx. injection Hx as <-.
  unfold verify_archive_evidence. rewrite Hp. cbv beta match. rewrite He.
  by rewrite !bool_decide_true by done.
Qed.

Lemma cleanup_agrees now id digest identity at_ o t' :
  valid_evidence digest identity = true → evidence_recorded id digest identity →
  ScopeStore.cleanup_tickr_ctx_scope id at_ t = Ok (o, t') →
  runs now (cleanup_tickr_ctx_scope uuid_bytes parse_json from_utf8 encoded_len config id digest identity at_) (agrees s t' o) s.
Proof.
  intros Hev Hrec Hc. assert (scopes_ok parse_json t') as Ht' by by eapply cleanup_step.
  unfold ScopeStore.cleanup_tickr_ctx_scope in Hc. rewrite (load_scope_ok parse_json) in Hc by done. cbv beta match in Hc.
  unfold cleanup_tickr_ctx_scope, ATTEMPTS. rewrite Hev. cbn [cleanup_loop]. apply runs_load; [done|].
  destruct (scopes t !! id) as [r|] eqn:Hr.
  2:{ injection Hc as <- <-. apply (related_missing _ _ Hsim) in Hr. rewrite loaded_missing by done. by apply agrees_same. }
  destruct (related_doc _ _ Hsim _ _ Hr) as (sc & Hdoc & Hm). pose proof (document_ok _ _ Hsim _ _ Hdoc) as Hdok.
  rewrite (rm_state _ _ Hm) in Hc.
  destruct (decide (st_state sc = Stored_Active)) as [Ha|Ha].
  { rewrite Ha in Hc. simpl in Hc. injection Hc as <- <-.
    destruct (loaded_document _ _ _ Hs Hdoc) as [(Hnc & Hsc & Hcl & ->)|[Hst ->]]; [|congruence].
    rewrite bool_decide_true by done. by apply agrees_same. }
  destruct (archived_view id sc r Hdoc Hr Hm Ha) as (snapshot & Hrecord & Hp). rewrite Hrecord in Hc.
  destruct (loaded_document _ _ _ Hs Hdoc) as [(Hnc & Hsc & Hcl & ->)|[Hst ->]].
  2:{ rewrite Hst in Hc. simpl in Hc. injection Hc as <- <-. rewrite evidence_verified with (id := id) by done.
      apply runs_guard_existing. by apply agrees_same. }
  assert (st_state sc = Stored_Snapshotted) as Hsn by by destruct (st_state sc). rewrite Hsn in Hc. simpl in Hc. injection Hc as <- <-.
  rewrite bool_decide_false by done. rewrite evidence_verified with (id := id) by done.
  replace (Some (sc, _)) with (current s id) by (unfold current; by rewrite Hsc).
  apply runs_apply; [done| |done|rewrite Hsc; apply follows_cleanup; [done|by rewrite (Hrec sc)]|apply Hdok|done|done|..].
  - apply (phase_fresh Mutate_Cleanup id _ sc); [done|done|]. simpl. congruence.
  - intros s' Hput. apply runs_ret. left. split; [done|].
    eapply simulates_put; [exact Hsim|exact Hput|done|by rewrite (update_scope_scopes _ _ r)|..].
    + destruct Hm. by split.
    + intros id' k Hne. simpl. rewrite map_lookup_filter. by destruct (scope_values t !! (id', k)) eqn:Hv; simplify_option_eq.
    + intros k. simpl. rewrite lookup_empty. symmetry. apply fmap_None, map_lookup_filter_None. right. by intros x _ [].
    + intros c cl. simpl. rewrite map_lookup_filter_Some. intros [Hcl' _]. by left.
  - apply runs_ret. right. auto.
  - right. auto.
Qed.

(** The commit of an archive is nothing to the tables. *)
Lemma archive_invisible now id digest identity at_ :
  runs now (record_verified_archive_commit uuid_bytes parse_json from_utf8 encoded_len config id digest identity at_)
    (λ _ s', simulates s' t) s.
Proof.
  unfold record_verified_archive_commit, ATTEMPTS. destruct (valid_evidence _ _); [|by apply runs_ret].
  cbn [archive_loop]. apply runs_load; [done|].
  destruct (document s id) as [sc|] eqn:Hdoc; [|rewrite loaded_missing by done; by apply runs_ret].
  destruct (loaded_document _ _ _ Hs Hdoc) as [(Hnc & Hsc & Hcl & ->)|[Hst ->]]; [|by apply runs_ret].
  case_bool_decide as Hst; [cbn [negb]|by apply runs_ret]. pose proof (document_ok _ _ Hsim _ _ Hdoc) as Hdok.
  pose proof (do_phase _ _ _ _ Hdok) as Hp. unfold RedisScopeFacts.phase_ok in Hp. rewrite Hst in Hp.
  rewrite (public_taken _ _ _ utf8 id (st_values sc)) by (done || apply Hdok).
  case_bool_decide as Hdig; [cbn [negb]|by apply runs_ret]. destruct (st_archive_commit sc) as [c|] eqn:Hac.
  { case_bool_decide; [apply runs_guard_existing|]; by apply runs_ret. }
  destruct (related_row _ _ Hsim _ _ Hdoc) as (r & Hr & Hm).
  replace (Some (sc, _)) with (current s id) by (unfold current; by rewrite Hsc).
  apply runs_apply; [done| |done|rewrite Hsc; by apply follows_archive|apply Hdok|done|done|..].
  - apply (phase_fresh Mutate_Archive id _ sc); [done|done|]. simpl. rewrite Hac. apply is_Some_None.
  - intros s' Hput. apply runs_ret.
    eapply simulates_put; [exact Hsim|exact Hput|done|symmetry; by apply insert_id| |done| |auto].
    + destruct Hm. by split.
    + intros k. pose proof (si_value _ _ Hsim id k) as Hv. by rewrite Hdoc in Hv.
  - by apply runs_ret.
  - done.
Qed.
End operations.

(** ** Sessions *)

Inductive Ask :=
| Ask_Create (identities : list Uuid) (input : CreateTickrCtxScopeInput Uuid)
| Ask_Write (identities : list Uuid) (input : WriteTickrCtxScopeInput Uuid)
| Ask_Delete (input : DeleteTickrCtxScopeInput Uuid)
| Ask_Read (scope_id : Uuid) (at_ : Z)
| Ask_Snapshot (scope_id : Uuid) (at_ : Z)
| Ask_SnapshotForRun (namespace run_id : string) (at_ : Z)
| Ask_Archive (scope_id : Uuid) (snapshot_digest : string) (archive_identity : bytes) (at_ : Z)
| Ask_Cleanup (scope_id : Uuid) (snapshot_digest : string) (archive_identity : bytes) (at_ : Z).

Inductive Told :=
| Told_Create (o : ScopeCreationOutcome (Uuid := Uuid))
| Told_Write (o : ScopeWriteOutcome (Uuid := Uuid))
| Told_Delete (o : ScopeDeleteOutcome (Uuid := Uuid))
| Told_Read (o : ReadView)
| Told_Snapshot (o : ScopeSnapshotOutcome (Uuid := Uuid))
| Told_NoEvidence
| Told_Archive (recorded : result RedisScopeArchiveCommitOutcome RedisScopeStoreError)
| Told_Cleanup (o : ScopeCleanupOutcome (Uuid := Uuid)).

Definition table_told {A} (f : A → Told) (r : result (A * ScopeTables Uuid) ScopeRepositoryError)
    : result (Told * ScopeTables Uuid) ScopeRepositoryError :=
  let? (o, t) := r in Ok (f o, t).

(** The tables do not take the evidence of an archive, and a session goes on after
    the refusal; their cleanup is an operation of their own beside the interface. *)
Definition table_serve (debug : ScopeEnvelopeRejection → string) (q : Ask) t : result (Told * ScopeTables Uuid) ScopeRepositoryError :=
  match q with
  | Ask_Create identities input => table_told Told_Create (ScopeStore.create_tickr_ctx_scope uuid_bytes parse_json identities input t)
  | Ask_Write identities input =>
      table_told (λ o, Told_Write (write_told o)) (ScopeStore.write_tickr_ctx_scope uuid_bytes parse_json identities input t)
  | Ask_Delete input => table_told (λ o, Told_Delete (delete_told o)) (ScopeStore.delete_tickr_ctx_scope_value uuid_bytes input t)
  | Ask_Read id at_ => table_told (λ o, Told_Read (table_view o)) (ScopeStore.read_tickr_ctx_scope parse_json debug id at_ t)
  | Ask_Snapshot id at_ => table_told Told_Snapshot (ScopeStore.snapshot_tickr_ctx_scope parse_json debug id at_ t)
  | Ask_SnapshotForRun namespace run_id at_ =>
      table_told Told_Snapshot (ScopeStore.snapshot_tickr_ctx_scope_for_run parse_json debug namespace run_id at_ t)
  | Ask_Archive _ _ _ _ => Ok (Told_NoEvidence, t)
  | Ask_Cleanup id _ _ at_ => table_told Told_Cleanup (ScopeStore.cleanup_tickr_ctx_scope id at_ t)
  end.

Definition redis_told {A} (f : A → Told) (p : answer A) : answer Told := let*? o := p in Ret (Ok (f o)).

Definition redis_serve (q : Ask) : answer Told :=
  match q with
  | Ask_Create _ input => redis_told Told_Create (create_tickr_ctx_scope uuid_bytes parse_json from_utf8 encoded_len config input)
  | Ask_Write _ input => redis_told Told_Write (write_tickr_ctx_scope uuid_bytes parse_json from_utf8 encoded_len config input)
  | Ask_Delete input =>
      redis_told Told_Delete (delete_tickr_ctx_scope_value uuid_bytes parse_json from_utf8 encoded_len config input)
  | Ask_Read id at_ =>
      redis_told Told_Read
        (let*? x := read_tickr_ctx_scope uuid_bytes parse_json from_utf8 encoded_len id at_ in Ret (Ok (redis_view x)))
  | Ask_Snapshot id at_ => redis_told Told_Snapshot (snapshot_tickr_ctx_scope uuid_bytes parse_json from_utf8 encoded_len config id at_)
  | Ask_SnapshotForRun namespace run_id at_ =>
      redis_told Told_Snapshot
        (snapshot_tickr_ctx_scope_for_run uuid_bytes parse_json from_utf8 encoded_len config namespace run_id at_)
  | Ask_Archive id digest identity at_ =>
      let* r := record_verified_archive_commit uuid_bytes parse_json from_utf8 encoded_len config id digest identity at_ in
      Ret (Ok (Told_Archive r))
  | Ask_Cleanup id digest identity at_ =>
      redis_told Told_Cleanup (cleanup_tickr_ctx_scope uuid_bytes parse_json from_utf8 encoded_len config id digest identity at_)
  end.

(** One answer for the other: the same, but for the evidence of an archive. *)
Definition tells (o : Told) (r : result Told RedisScopeStoreError) : Prop :=
  r = Ok o ∨ o = Told_NoEvidence ∧ ∃ recorded, r = Ok (Told_Archive recorded).

(** *** What the agreement takes of a request *)

Definition documents s : list (Uuid * scope) := map_to_list (ks_scopes s) ++ map_to_list (ks_cleaned s).

(** A claim that was not used. *)
Definition unused s (c : Uuid) : bool := bool_decide (ks_claims s !! claim_identity c = None).

(** A size within the limit also when the keys are counted, as Redis does. *)
Definition sized (identities : list Uuid) (values : list ScopeValueInput) : bool :=
  (sum_by (λ v, str_len (svi_key v) + len (svi_envelope v)) values <=? MAX_SCOPE_REQUEST_BYTES)%Z &&
  (length identities =? length values).

(** No scope of another run with the same owner digest. *)
Definition sole_owner s namespace run_id : bool :=
  forallb (λ x, negb (bool_decide (owner_identity (st_namespace x.2) (st_run_id x.2) = owner_identity namespace run_id)) ||
                bool_decide (st_namespace x.2 = namespace) && bool_decide (st_run_id x.2 = run_id)) (documents s).

(** A scope id that is free or the run's own. *)
Definition own_identity s (input : CreateTickrCtxScopeInput Uuid) : bool :=
  bool_decide (document s (ci_scope_id input) = None) ||
  bool_decide (ks_owners s !! owner_identity (ci_namespace input) (ci_run_id input) = Some (ci_scope_id input)).

(** Valid evidence, the one that was recorded where there is an archive. *)
Definition evidenced s id digest identity : bool :=
  valid_evidence digest identity &&
  match document s id with
  | Some sc => bool_decide (st_state sc = Stored_Active) ||
               bool_decide (st_archive_commit sc = Some (mkArchiveCommit digest (sha256_hex identity)))
  | None => true
  end.

Definition common s (q : Ask) : bool :=
  match q with
  | Ask_Create identities input =>
      unused s (ci_claim_id input) && sized identities (ci_values input) &&
      sole_owner s (ci_namespace input) (ci_run_id input) && own_identity s input
  | Ask_Write identities input => unused s (wi_claim_id input) && sized identities (wi_values input)
  | Ask_Delete input => unused s (di_claim_id input)
  | Ask_SnapshotForRun namespace run_id _ => sole_owner s namespace run_id
  | Ask_Cleanup id digest identity _ => evidenced s id digest identity
  | _ => true
  end.

Lemma sole_owner_known s namespace run_id : sole_owner s namespace run_id = true → owner_known s namespace run_id.
Proof.
  unfold sole_owner. rewrite forallb_forall. intros Hall id sc Hd He. specialize (Hall (id, sc)).
  rewrite <- list_elem_of_In in Hall. unfold documents in Hall. rewrite elem_of_app, !elem_of_map_to_list in Hall.
  assert (ks_scopes s !! id = Some sc ∨ ks_cleaned s !! id = Some sc) as Hin.
  { unfold document in Hd. destruct (ks_scopes s !! id); [left|right]; congruence. }
  specialize (Hall Hin). simpl in Hall. rewrite bool_decide_true in Hall by done. simpl in Hall.
  by apply andb_true_iff in Hall as [?%bool_decide_eq_true ?%bool_decide_eq_true].
Qed.

Lemma sized_fits identities values : sized identities values = true → request_fits values ∧ length identities = length values.
Proof. unfold sized. by rewrite andb_true_iff, Z.leb_le, Nat.eqb_eq. Qed.

Lemma runs_told {A} now s t (f : A → Told) (p : answer A) o :
  runs now p (agrees s t o) s → runs now (redis_told f p) (agrees s t (f o)) s.
Proof.
  intros Hp. apply runs_then. intros w Hw. specialize (Hp w Hw). destruct (run perform p (working now) w) as [r w'].
  destruct Hp as [[-> Hs]|[[-> | ->] Hs]]; [|by right; split; [left|]|by right; split; [right|]].
  apply runs_ret. by left.
Qed.

Lemma table_told_Ok {A} (f : A → Told) r o t :
  table_told f r = Ok (o, t) → ∃ x, r = Ok (x, t) ∧ o = f x.
Proof. destruct r as [[x t']|]; [|done]. intros [= <- <-]. eauto. Qed.

(** What a served request comes to. *)
Definition served s t' (o : Told) (r : result Told RedisScopeStoreError) s' : Prop :=
  tells o r ∧ simulates s' t' ∨ (r = Err CapacityFenced ∨ r = Err Accounting) ∧ s' = s.

Lemma runs_served {A} now s t (f : A → Told) (p : answer A) o :
  runs now p (agrees s t o) s → runs now (redis_told f p) (served s t (f o)) s.
Proof.
  intros Hp w Hw. pose proof (runs_told _ _ _ f _ _ Hp w Hw) as Ht. destruct (run perform _ (working now) w) as [r w'].
  destruct Ht as [[-> Hs]|Hfull]; [left; split; [by left|done]|by right].
Qed.

Lemma serve_agrees debug now s t q o t' :
  simulates s t → common s q = true → table_serve debug q t = Ok (o, t') → runs now (redis_serve q) (served s t' o) s.
Proof.
  intros Hsim Hf Ht. destruct q; cbn [table_serve common redis_serve] in *; rewrite ?andb_true_iff in Hf;
    try (apply table_told_Ok in Ht as (x & Ht & ->); apply runs_served).
  - destruct Hf as [[[Hu%bool_decide_eq_true [Hs Hl]%sized_fits] Ho%sole_owner_known] Hk].
    eapply create_agrees; [done..| |done|exact Ht].
    apply orb_true_iff in Hk as [Hk%bool_decide_eq_true|Hk%bool_decide_eq_true]; [by left|by right].
  - destruct Hf as [Hu%bool_decide_eq_true [Hs Hl]%sized_fits].
    by eapply write_agrees.
  - apply bool_decide_eq_true in Hf. by eapply delete_agrees.
  - by eapply read_agrees.
  - by eapply snapshot_agrees.
  - apply sole_owner_known in Hf. by eapply snapshot_for_run_agrees.
  - injection Ht as <- <-. intros w Hw. rewrite run_bind.
    pose proof (archive_invisible _ _ Hsim now scope_id snapshot_digest archive_identity at_ w Hw) as Ha.
    destruct (run perform _ (working now) w) as [r w']. left. split; [|done]. right. eauto.
  - unfold evidenced in Hf. apply andb_true_iff in Hf as [Hv Hd]. eapply cleanup_agrees; [done|done| |exact Ht].
    intros sc Hdoc Hst. rewrite Hdoc in Hd.
    by apply orb_true_iff in Hd as [Hd%bool_decide_eq_true|Hd%bool_decide_eq_true].
Qed.

Fixpoint table_session debug (qs : list Ask) t : result (list Told * ScopeTables Uuid) ScopeRepositoryError :=
  match qs with
  | [] => Ok ([], t)
  | q :: qs =>
      let? (o, t) := table_serve debug q t in
      let? (os, t) := table_session debug qs t in Ok (o :: os, t)
  end.

(** One request after another, with whether they were common to both. *)
Fixpoint redis_session now (qs : list Ask) w : bool * list (result Told RedisScopeStoreError) * redis_world :=
  match qs with
  | [] => (true, [], w)
  | q :: qs =>
      let '(r, w1) := run perform (redis_serve q) (working now) w in
      let '(ok, rs, w2) := redis_session now qs w1 in
      (common (now_store w) q && ok, r :: rs, w2)
  end.

Definition full (r : result Told RedisScopeStoreError) : Prop := r = Err CapacityFenced ∨ r = Err Accounting.

Lemma session_agrees debug now qs : ∀ t os t' w rs w',
  simulates (now_store w) t → table_session debug qs t = Ok (os, t') → redis_session now qs w = (true, rs, w') →
  Exists full rs ∨ Forall2 tells os rs ∧ simulates (now_store w') t'.
Proof.
  induction qs as [|q qs IH]; intros t os t' w rs w' Hsim; simpl.
  { intros [= <- <-] [= <- <-]. right. by split; [constructor|]. }
  destruct (table_serve debug q t) as [[o t1]|] eqn:Ht1; [|done]. cbv beta match.
  destruct (table_session debug qs t1) as [[os1 t2]|] eqn:Ht2; [|done]. intros [= <- <-].
  destruct (run perform (redis_serve q) (working now) w) as [r w1] eqn:Hr.
  destruct (redis_session now qs w1) as [[ok rs1] w2] eqn:Hses. intros [= Hok <- <-].
  apply andb_true_iff in Hok as [Hf ->].
  pose proof (serve_agrees _ now _ _ _ _ _ Hsim Hf Ht1 w eq_refl) as Ha. rewrite Hr in Ha.
  destruct Ha as [[Htell Hs1]|[Hfull _]]; [|left; by left].
  destruct (IH _ _ _ _ _ _ Hs1 Ht2 Hses) as [He|[Hall Hs2]]; [left; by right|right; split; [by constructor|done]].
Qed.

End refinement.

Definition demo_session : list (Ask (Uuid := bit_uuid)) :=
  [Ask_Create [unary 20] demo_creation; Ask_Create [unary 21] (mkCreateInput (unary 3) "default" "run" (unary 7) [mkScopeValueInput "a" []] 1);
   Ask_Write [unary 22; unary 23] demo_update; Ask_Delete demo_removal; Ask_Read (unary 3) 3;
   Ask_SnapshotForRun "default" "run" 4; Ask_Archive (unary 3) demo_snapshot_digest demo_archive 5;
   Ask_Cleanup (unary 3) demo_snapshot_digest demo_archive 6; Ask_Write [unary 24; unary 25] (mkWriteInput (unary 3) (unary 8) (wi_values demo_update) 7);
   Ask_Read (unary 3) 8].

Definition demo_tables : result (list (Told (Uuid := bit_uuid)) * ScopeTables bit_uuid) ScopeRepositoryError :=
  table_session bit_bytes any_envelope no_debug demo_session ScopeTables_empty.
Definition demo_redis : bool * list (result (Told (Uuid := bit_uuid)) RedisScopeStoreError) * World (ScopeKeyspace (Uuid := bit_uuid)) Report :=
  redis_session bit_bytes any_envelope text_of flat_len demo_redis_config 0 demo_session (mkWorld empty_keyspace [] []).

Lemma demo_tables_ok : is_ok demo_tables = true.
Proof. by vm_compute. Qed.
Lemma demo_redis_common : demo_redis.1.1 = true.
Proof. by vm_compute. Qed.

