(* ===== verification/RedisScopeHazards.v ===== *)
(** * False alarms of the scope store on Redis

    The accounts are exact at any time ([RedisScopeSafety]), but they are checked with
    several commands.  What commits between these makes them disagree: a client
    reports an accounting failure, which closes the role, although nothing is wrong. *)

From S2P Require Import Prelude Json Uuid Sha256 ScopeStore ScopeStoreFacts Programs Workers RedisScopeStore RedisScopeFacts RedisScopeDemo RedisScopeSafety.

Definition steps (n t : nat) : list (nat * list nat * Outside) := replicate n (t, [], working 0).

(** A scope is there; one client has the request [q], another writes to the scope. *)
Definition demo_racing (q : Request (Uuid := bit_uuid)) : demo_pool :=
  let s := demo_run 0 [Request_Create demo_creation] (mkPool ∅ start) in
  mkPool (<[8 := demo_serve (Request_Write demo_update)]> (<[7 := demo_serve q]> (threads s))) (world s).

(** The first client has made one command when the other writes. *)
Definition demo_raced (q : Request (Uuid := bit_uuid)) : option demo_pool :=
  replay perform (steps 1 7 ++ steps 9 8 ++ steps 3 7) (demo_racing q).

Definition exact (k : ScopeKeyspace (Uuid := bit_uuid)) : bool := bool_decide (ks_quota k = sum_of (ks_metrics k)).

(** A client was told of a failure that was never there. *)
Definition false_alarm (s : demo_pool) : bool :=
  match threads s !! 7, threads s !! 8 with
  | Some (Ret (Err Accounting)), Some (Ret (Ok (Reply_Write (Write_Applied _ _)))) =>
      existsb (λ m, match m with Report_Accounting => true | _ => false end) (sent_messages (world s)) &&
      forallb exact (stores (world s))
  | _, _ => false
  end.

Lemma demo_racing_reachable q : demo_reachable (demo_racing q).
Proof.
  assert (∀ s t q, demo_reachable s → threads s !! t = None →
    demo_reachable (mkPool (<[t := demo_serve q]> (threads s)) (world s))) as Hstart.
  { intros s t q' Hs Ht. eapply rtc_r; [exact Hs|]. by apply step_start; [|exists q']. }
  unfold demo_racing. cbv zeta. set (s := demo_run 0 [Request_Create demo_creation] (mkPool ∅ start)).
  assert (demo_reachable s) as Hs.
  { apply demo_run_reachable; [done|]. unfold demo_reachable, reachable, pool_run. reflexivity. }
  assert (∀ t, 0 < t → threads s !! t = None) as Ht.
  { intros t Ht. unfold s. cbn [demo_run threads finished]. rewrite lookup_insert_ne by lia. apply lookup_empty. }
  clearbody s. refine (Hstart _ 8 (Request_Write demo_update) (Hstart s 7 q Hs (Ht 7 ltac:(lia))) _).
  cbn [threads]. rewrite lookup_insert_ne by lia. apply Ht. lia.
Qed.

(** A write to the scope that is read, or to any scope while the accounts are added
    up, between the commands of a client: it reports an accounting failure and fails,
    although the accounts of every keyspace of the run are exact. *)
Lemma accounting_false_alarms :
  Forall (λ q, ∃ s, demo_raced q = Some s ∧ demo_reachable s ∧ false_alarm s = true) [Request_Connect; Request_Read (unary 3) 5].
Proof.
  assert (∀ q, option_map false_alarm (demo_raced q) = Some true →
    ∃ s, demo_raced q = Some s ∧ demo_reachable s ∧ false_alarm s = true) as Hq.
  { intros q Ha. destruct (demo_raced q) as [s|] eqn:Hs; [|discriminate Ha]. injection Ha as Ha. exists s. split_and!; [reflexivity| |exact Ha].
    unfold demo_reachable, reachable, pool_run. etrans; [apply (demo_racing_reachable q)|]. eapply replay_run. exact Hs. }
  repeat constructor; apply Hq; by vm_compute.
Qed.
