(* ===== verification/Idempotency.v ===== *)
(** * Producer idempotency

    The JetStream key-value bucket in which the conductor remembers producers:
    [idempotency.rs], the cache of the command routes, and
    [ingress_idempotency.rs], the reservations under which an external event is
    processed.  A bucket operation is atomic, may fail, and may take effect without
    its answer arriving; [create] and [update] are conditional on the revision the
    server holds.  An entry that is older than the bucket's [max_age] may be gone.
    The records are JSON in the source; the three kinds differ in their required
    fields, so that one does not decode as another. *)

From stdpp Require Import pretty.
From S2P Require Import Prelude Uuid Programs Workers.

(** ** The bucket *)

(** [kv_written] has the server's time of each revision; [kv_max_age] is the one the
    bucket was created with, and [None] before there is a bucket. *)
Record Bucket (V : Type) := mkBucket {
  kv_entries : gmap string (nat * V);
  kv_last : nat;
  kv_written : gmap nat Z;
  kv_max_age : option Z
}.
Arguments mkBucket {V}. Arguments kv_entries {V}. Arguments kv_last {V}.
Arguments kv_written {V}. Arguments kv_max_age {V}.

Inductive KvError := KeyExists | WrongRevision | KvInvalidKey | KvTooLarge | KvNoBucket | KvOtherConfig.

Definition kv_put {V} (key : string) (v : V) (now : Z) (b : Bucket V) : Bucket V :=
  mkBucket (<[key := (S (kv_last b), v)]> (kv_entries b)) (S (kv_last b))
    (<[S (kv_last b) := now]> (kv_written b)) (kv_max_age b).

Definition kv_create {V} (key : string) (v : V) (now : Z) (b : Bucket V) : result (unit * Bucket V) KvError :=
  match kv_entries b !! key with Some _ => Err KeyExists | None => Ok (tt, kv_put key v now b) end.

Definition kv_update {V} (key : string) (v : V) (revision : nat) (now : Z) (b : Bucket V)
    : result (unit * Bucket V) KvError :=
  match kv_entries b !! key with
  | Some (r, _) => if bool_decide (r = revision) then Ok (tt, kv_put key v now b) else Err WrongRevision
  | None => Err WrongRevision
  end.

(** The server drops an entry once it has its age. *)
Definition kv_expire {V} (key : string) (now : Z) (b : Bucket V) : Bucket V :=
  match kv_entries b !! key, kv_max_age b with
  | Some (r, _), Some age =>
      if (default 0 (kv_written b !! r) + age <=? now)%Z
      then mkBucket (delete key (kv_entries b)) (kv_last b) (kv_written b) (kv_max_age b)
      else b
  | _, _ => b
  end.

(** ** Records *)

Section records.
Context {Uuid : Type}.

Inductive RelayIntent :=
| Intent_Signal (encoded : string)
| Intent_WakeupSignal (encoded : string)
| Intent_GateOutcome (encoded : string).

Inductive ProducerPhase :=
| Phase_Reserved
| Phase_Ready
| Phase_Relayed
| Phase_Rejected (reason : string).

Record ProducerRecord := mkProducerRecord {
  pd_version : Z;
  pd_producer_key_sha256 : string;
  pd_payload_sha256 : string;
  pd_signal_id : Uuid;
  pd_lease_owner : Uuid;
  pd_lease_expires_at : Z;
  pd_phase : ProducerPhase;
  pd_signal_effect : string;
  pd_event_results : string;
  pd_intents : list RelayIntent
}.

Inductive DeliveryOutcome := Delivery_Accepted | Delivery_Rejected (reason : string).

Record DeliveryRecord := mkDeliveryRecord {
  dl_version : Z;
  dl_producer_key_sha256 : option string;
  dl_payload_sha256 : string;
  dl_outcome : DeliveryOutcome
}.

(** The row of the command cache. *)
Record CacheValue := mkCacheValue { cv_signal_id : Uuid; cv_input_sha256 : string }.

Inductive BucketValue :=
| Value_Cache (v : CacheValue)
| Value_Producer (r : ProducerRecord)
| Value_Delivery (r : DeliveryRecord).

Record IngressEffects := mkIngressEffects {
  fx_signal_effect : string;
  fx_event_results : string;
  fx_relay_intents : list RelayIntent
}.

Inductive IngressTerminalOutcome := Outcome_Accepted | Outcome_Rejected.

Record IngressOutcomeProof := mkIngressOutcomeProof {
  pf_producer_digest : string;
  pf_payload_digest : string;
  pf_outcome : IngressTerminalOutcome
}.

Definition record_effects (r : ProducerRecord) : IngressEffects :=
  mkIngressEffects (pd_signal_effect r) (pd_event_results r) (pd_intents r).

Definition record_proof (r : ProducerRecord) (outcome : IngressTerminalOutcome) : IngressOutcomeProof :=
  mkIngressOutcomeProof (pd_producer_key_sha256 r) (pd_payload_sha256 r) outcome.

Definition with_lease (owner : Uuid) (expires : Z) (r : ProducerRecord) : ProducerRecord :=
  mkProducerRecord (pd_version r) (pd_producer_key_sha256 r) (pd_payload_sha256 r) (pd_signal_id r)
    owner expires (pd_phase r) (pd_signal_effect r) (pd_event_results r) (pd_intents r).

Definition with_phase (phase : ProducerPhase) (r : ProducerRecord) : ProducerRecord :=
  mkProducerRecord (pd_version r) (pd_producer_key_sha256 r) (pd_payload_sha256 r) (pd_signal_id r)
    (pd_lease_owner r) (pd_lease_expires_at r) phase (pd_signal_effect r) (pd_event_results r) (pd_intents r).

Definition with_effects (fx : IngressEffects) (r : ProducerRecord) : ProducerRecord :=
  mkProducerRecord (pd_version r) (pd_producer_key_sha256 r) (pd_payload_sha256 r) (pd_signal_id r)
    (pd_lease_owner r) (pd_lease_expires_at r) Phase_Ready (fx_signal_effect fx) (fx_event_results fx)
    (fx_relay_intents fx).
End records.
Arguments ProducerRecord : clear implicits.
Arguments BucketValue : clear implicits.
Arguments CacheValue : clear implicits.

#[global] Instance intent_eq_dec : EqDecision RelayIntent.
Proof. solve_decision. Defined.
#[global] Instance phase_eq_dec : EqDecision ProducerPhase.
Proof. solve_decision. Defined.
#[global] Instance delivery_outcome_eq_dec : EqDecision DeliveryOutcome.
Proof. solve_decision. Defined.
#[global] Instance delivery_record_eq_dec : EqDecision DeliveryRecord.
Proof. solve_decision. Defined.

(** Thirty seconds, in the nanoseconds of the clock. *)
Definition CLAIM_LEASE : Z := 30 * 1000000000.

(** Ten minutes. *)
Definition DEFAULT_TTL : Z := 10 * 60 * 1000000000.

(** The bucket as [open_bucket] creates it. *)
Definition new_bucket {V} : Bucket V := mkBucket ∅ 0 ∅ (Some DEFAULT_TTL).

(** [for _ in 0..16] *)
Definition ATTEMPTS : nat := 16.

(** ** Programs

    They run over any store that has the bucket in it and draws random uuids; the
    client refuses a key that is not valid before it asks the server. *)

Class BucketStore (Uuid St SE : Type) := {
  get_bucket : St → Bucket (BucketValue Uuid);
  set_bucket : Bucket (BucketValue Uuid) → St → St;
  draw : St → Uuid * St;
  valid_bucket_key : string → bool;
  kv_error : KvError → SE;
  get_set_bucket b s : get_bucket (set_bucket b s) = b;
  draw_bucket s : get_bucket (draw s).2 = get_bucket s
}.

Section programs.
Context `{UuidOps Uuid} {St M SE : Type} `{!BucketStore Uuid St SE}.
Context (sha256_hex : string → string) (hex : list N → string).

Abbreviation await := (Await St M SE Uuid).
Abbreviation failure := (RepositoryError SE).
Abbreviation program A := (prog await failure A).
Abbreviation bucket := (Bucket (BucketValue Uuid)).

Definition new_v4 : program Uuid := call (Local draw).

Definition on_bucket {X} (key : string) (f : Z → bucket → result (X * bucket) KvError) (now : Z) (s : St)
    : result (X * St) SE :=
  if negb (valid_bucket_key key) then Err (kv_error KvInvalidKey)
  else if bool_decide (kv_max_age (get_bucket s) = None) then Err (kv_error KvNoBucket)
  else
    match f now (get_bucket s) with
    | Ok (x, b) => Ok (x, set_bucket b s)
    | Err e => Err (kv_error e)
    end.

Definition kv_read (key : string) (_ : Z) (b : bucket) : result (option (nat * BucketValue Uuid) * bucket) KvError :=
  Ok (kv_entries b !! key, b).

Definition bucket_entry (key : string) : program (result (option (nat * BucketValue Uuid)) failure) :=
  call (Transact (on_bucket key (kv_read key))).
Definition bucket_create (key : string) (v : BucketValue Uuid) : program (result unit failure) :=
  call (Transact (on_bucket key (kv_create key v))).
Definition bucket_update (key : string) (v : BucketValue Uuid) (revision : nat) : program (result unit failure) :=
  call (Transact (on_bucket key (kv_update key v revision))).

(** [get_key_value], and [create_key_value], to which a bucket that is there with the
    same configuration is as good as a new one. *)
Definition get_key_value : program (result unit failure) :=
  call (Transact (λ _ s,
    match kv_max_age (get_bucket s) with Some _ => Ok (tt, s) | None => Err (kv_error KvNoBucket) end)).
Definition create_key_value (max_age : Z) : program (result unit failure) :=
  call (Transact (λ _ s,
    match kv_max_age (get_bucket s) with
    | None => Ok (tt, set_bucket (mkBucket ∅ 0 ∅ (Some max_age)) s)
    | Some age => if bool_decide (age = max_age) then Ok (tt, s) else Err (kv_error KvOtherConfig)
    end)).

Definition open_bucket : program (result unit failure) :=
  let* got := get_key_value in
  match got with Ok _ => Ret (Ok tt) | Err _ => create_key_value DEFAULT_TTL end.

(** The server's part: an entry ages out of the bucket. *)
Definition expire (key : string) : program unit :=
  let* _ := call (Transact (λ now s, Ok (tt, set_bucket (kv_expire key now (get_bucket s)) s))) in Ret tt.

(** What goes wrong beside the bucket itself. *)
Inductive IngressError :=
| Unavailable (e : failure)
| Undecodable (key : string)
| InvalidClaim (key : string)
| Disappeared (key : string)
| ChangedOwner
| WrongPhase
| ConflictingRecord (key : string)
| ChangedTooFrequently.

Definition heard {A} (p : program (result A failure)) : program (result A IngressError) :=
  let* r := p in Ret (map_err Unavailable r).

Definition as_producer (v : BucketValue Uuid) : option (ProducerRecord Uuid) :=
  match v with Value_Producer r => Some r | _ => None end.
Definition as_delivery (v : BucketValue Uuid) : option DeliveryRecord :=
  match v with Value_Delivery r => Some r | _ => None end.
Definition as_cache (v : BucketValue Uuid) : option (CacheValue Uuid) :=
  match v with Value_Cache r => Some r | _ => None end.

(** *** [ingress_idempotency.rs] *)

Record Reservation := mkReservation { rs_key : string; rs_owner : Uuid; rs_signal_id : Uuid }.

Inductive ReservationOutcome :=
| Reservation_Acquired (r : Reservation)
| Reservation_Pending
| Reservation_Ready (operation : string) (effects : IngressEffects)
| Reservation_Complete (proof : IngressOutcomeProof)
| Reservation_Rejected (proof : IngressOutcomeProof)
| Reservation_Conflict (original_signal_id : Uuid) (original_hash : string) (proof : IngressOutcomeProof).

Definition producer_entry_key (digest : string) : string := "producer." +:+ digest.
Definition delivery_entry_key (sequence : Z) : string := "delivery." +:+ pretty sequence.

Definition lease_deadline : program Z := let* now := call UtcNow in Ret (now + CLAIM_LEASE)%Z.

Definition new_record (producer payload : string) (signal_id owner : Uuid) (deadline : Z) : ProducerRecord Uuid :=
  mkProducerRecord 1 producer payload signal_id owner deadline Phase_Reserved "" "" [].

(** One turn of the loop of [reserve]; [None] goes round again. *)
Definition reserve_turn (key producer payload : string) (owner : Uuid)
    : program (option (result ReservationOutcome IngressError)) :=
  let* read := bucket_entry key in
  match read with
  | Err e => Ret (Some (Err (Unavailable e)))
  | Ok None =>
      let* signal_id := new_v4 in
      let* deadline := lease_deadline in
      let* created := bucket_create key (Value_Producer (new_record producer payload signal_id owner deadline)) in
      match created with
      | Ok _ => Ret (Some (Ok (Reservation_Acquired (mkReservation key owner signal_id))))
      | Err _ => Ret None
      end
  | Ok (Some (revision, value)) =>
      match as_producer value with
      | None => Ret (Some (Err (Undecodable key)))
      | Some record =>
          if negb (pd_version record =? 1)%Z || negb (bool_decide (pd_producer_key_sha256 record = producer))
          then Ret (Some (Err (InvalidClaim key)))
          else if negb (bool_decide (pd_payload_sha256 record = payload))
          then Ret (Some (Ok (Reservation_Conflict (pd_signal_id record) (pd_payload_sha256 record)
                                (mkIngressOutcomeProof producer payload Outcome_Rejected))))
          else
          match pd_phase record with
          | Phase_Ready => Ret (Some (Ok (Reservation_Ready key (record_effects record))))
          | Phase_Relayed => Ret (Some (Ok (Reservation_Complete (record_proof record Outcome_Accepted))))
          | Phase_Rejected _ => Ret (Some (Ok (Reservation_Rejected (record_proof record Outcome_Rejected))))
          | Phase_Reserved =>
              let* now := call UtcNow in
              if (now <? pd_lease_expires_at record)%Z then Ret (Some (Ok Reservation_Pending))
              else
                let* deadline := lease_deadline in
                let* updated := bucket_update key (Value_Producer (with_lease owner deadline record)) revision in
                match updated with
                | Ok _ => Ret (Some (Ok (Reservation_Acquired (mkReservation key owner (pd_signal_id record)))))
                | Err _ => Ret None
                end
          end
      end
  end.

Fixpoint reserve_loop (attempts : nat) (key producer payload : string) (owner : Uuid)
    : program (result ReservationOutcome IngressError) :=
  match attempts with
  | O => Ret (Err ChangedTooFrequently)
  | S attempts =>
      let* turn := reserve_turn key producer payload owner in
      match turn with
      | Some r => Ret r
      | None => reserve_loop attempts key producer payload owner
      end
  end.

Definition reserve (producer_key : string) (payload_sha256 : list N)
    : program (result ReservationOutcome IngressError) :=
  let producer := sha256_hex producer_key in
  let* owner := new_v4 in
  reserve_loop ATTEMPTS (producer_entry_key producer) producer (hex payload_sha256) owner.

Definition load (key : string) : program (result (ProducerRecord Uuid) IngressError) :=
  let*? entry := heard (bucket_entry key) in
  match entry with
  | None => Ret (Err (Disappeared key))
  | Some (_, value) => Ret (ok_or (as_producer value) (Undecodable key))
  end.

(** The closure that changes the record may read the clock. *)
Fixpoint update_loop (attempts : nat) (key : string) (expected_owner : option Uuid)
    (mutate : ProducerRecord Uuid → program (result (ProducerRecord Uuid) IngressError))
    : program (result unit IngressError) :=
  match attempts with
  | O => Ret (Err ChangedTooFrequently)
  | S attempts =>
      let*? entry := heard (bucket_entry key) in
      match entry with
      | None => Ret (Err (Disappeared key))
      | Some (revision, value) =>
          match as_producer value with
          | None => Ret (Err (Undecodable key))
          | Some record =>
              if match expected_owner with
                 | Some owner => negb (bool_decide (pd_lease_owner record = owner))
                 | None => false
                 end
              then Ret (Err ChangedOwner)
              else
                let*? record := mutate record in
                let* updated := bucket_update key (Value_Producer record) revision in
                match updated with
                | Ok _ => Ret (Ok tt)
                | Err _ => update_loop attempts key expected_owner mutate
                end
          end
      end
  end.

Definition update := update_loop ATTEMPTS.

Definition to_relayed (record : ProducerRecord Uuid) : result (ProducerRecord Uuid) IngressError :=
  match pd_phase record with
  | Phase_Ready => Ok (with_phase Phase_Relayed record)
  | Phase_Relayed => Ok record
  | _ => Err WrongPhase
  end.

Definition mark_relayed (operation : string) : program (result IngressOutcomeProof IngressError) :=
  let*? _ := update operation None (λ record, Ret (to_relayed record)) in
  let*? record := load operation in
  Ret (Ok (record_proof record Outcome_Accepted)).

Definition to_ready (effects : IngressEffects) (record : ProducerRecord Uuid)
    : result (ProducerRecord Uuid) IngressError :=
  if bool_decide (pd_phase record = Phase_Reserved) then Ok (with_effects effects record) else Err WrongPhase.

Definition persist_effects (r : Reservation) (effects : IngressEffects)
    : program (result IngressEffects IngressError) :=
  let*? _ := update (rs_key r) (Some (rs_owner r)) (λ record, Ret (to_ready effects record)) in
  let*? record := load (rs_key r) in
  Ret (Ok (record_effects record)).

Definition to_rejected (reason : string) (record : ProducerRecord Uuid)
    : result (ProducerRecord Uuid) IngressError :=
  if bool_decide (pd_phase record = Phase_Reserved) then Ok (with_phase (Phase_Rejected reason) record)
  else Err WrongPhase.

Definition reject (r : Reservation) (reason : string) : program (result IngressOutcomeProof IngressError) :=
  let*? _ := update (rs_key r) (Some (rs_owner r)) (λ record, Ret (to_rejected reason record)) in
  let*? record := load (rs_key r) in
  Ret (Ok (record_proof record Outcome_Rejected)).

Definition to_abandoned (record : ProducerRecord Uuid)
    : program (result (ProducerRecord Uuid) IngressError) :=
  if bool_decide (pd_phase record = Phase_Reserved)
  then let* now := call UtcNow in Ret (Ok (with_lease (pd_lease_owner record) now record))
  else Ret (Ok record).

Definition abandon (r : Reservation) : program (result unit IngressError) :=
  update (rs_key r) (Some (rs_owner r)) to_abandoned.

Definition record_delivery (sequence : Z) (producer_key : option string) (payload_sha256 : list N)
    (outcome : DeliveryOutcome) : program (result unit IngressError) :=
  let key := delivery_entry_key sequence in
  let record := mkDeliveryRecord 1 (sha256_hex <$> producer_key) (hex payload_sha256) outcome in
  let* created := bucket_create key (Value_Delivery record) in
  match created with
  | Ok _ => Ret (Ok tt)
  | Err _ =>
      let*? existing := heard (bucket_entry key) in
      match existing with
      | None => Ret (Err (Disappeared key))
      | Some (_, value) =>
          match as_delivery value with
          | None => Ret (Err (Undecodable key))
          | Some existing =>
              Ret (if bool_decide (existing = record) then Ok tt else Err (ConflictingRecord key))
          end
      end
  end.

(** *** [idempotency.rs] *)

Inductive CacheOutcome :=
| Cache_Fresh
| Cache_DeduplicatedSameHash (original_signal_id : Uuid)
| Cache_ConflictDifferentHash (original_signal_id : Uuid) (original_hash : string).

Definition check_or_insert (key : string) (fresh_signal_id : Uuid) (input_sha256 : list N)
    : program (result CacheOutcome IngressError) :=
  let new_value := mkCacheValue fresh_signal_id (hex input_sha256) in
  let* created := bucket_create key (Value_Cache new_value) in
  match created with
  | Ok _ => Ret (Ok Cache_Fresh)
  | Err _ =>
      let*? existing := heard (bucket_entry key) in
      match existing with
      | Some (_, value) =>
          match as_cache value with
          | None => Ret (Err (Undecodable key))
          | Some cached =>
              Ret (Ok (if bool_decide (cv_input_sha256 cached = hex input_sha256)
                       then Cache_DeduplicatedSameHash (cv_signal_id cached)
                       else Cache_ConflictDifferentHash (cv_signal_id cached) (cv_input_sha256 cached)))
          end
      | None => Ret (Err (Disappeared key))
      end
  end.
End programs.
Arguments IngressError : clear implicits.
Arguments Reservation : clear implicits.
Arguments ReservationOutcome : clear implicits.
Arguments CacheOutcome : clear implicits.
