(* ===== verification/DefinitionStore.v ===== *)
(** * The definition store

    The tables [workflows], [workflow_task_builds] and [task_specs] as
    [migrations/src/definition_repository.rs] reads and writes them: the
    resolution of a registration to a version, build leases and settlement,
    submission leases and settlement, and the read projections.  A transaction is
    one atomic step on tables of decoded rows, so the JSON column of a definition
    is the message itself.  A failing transaction is rolled back, which is the
    absence of a new state.  The clock and the lease tokens are arguments. *)

From S2P Require Import Prelude Workflow Uuid Leases.

(** ** Rows *)

Inductive DefinitionLifecycleStatus := Def_Building | Def_Ready | Def_BuildFailed | Def_Submitted.

#[global] Instance def_status_eq_dec : EqDecision DefinitionLifecycleStatus.
Proof. solve_decision. Defined.

Definition def_status_text (st : DefinitionLifecycleStatus) : string :=
  match st with
  | Def_Building => "Building"
  | Def_Ready => "Ready"
  | Def_BuildFailed => "BuildFailed"
  | Def_Submitted => "Submitted"
  end.

Definition lifecycle_status (status : string) : option DefinitionLifecycleStatus :=
  if bool_decide (status = "Building") then Some Def_Building
  else if bool_decide (status = "Ready") then Some Def_Ready
  else if bool_decide (status = "BuildFailed") then Some Def_BuildFailed
  else if bool_decide (status = "Submitted") then Some Def_Submitted
  else None.

(** [status IN ('Ready', 'Submitted')] *)
Definition def_live (st : DefinitionLifecycleStatus) : bool :=
  match st with Def_Ready | Def_Submitted => true | _ => false end.

Inductive DefinitionTaskBuildResult := DefTaskSuccess | DefTaskFailure (error : string).

Definition def_task_build_values (result : DefinitionTaskBuildResult) : BuildStatus * option string :=
  match result with
  | DefTaskSuccess => (build_success, None)
  | DefTaskFailure error => (build_failure, Some error)
  end.

Definition MAX_DEFINITION_BUILD_LEASE_BATCH : nat := 64.
Definition MAX_DEFINITION_SUBMISSION_LEASE_BATCH : nat := 64.

Record DefinitionRow (Uuid : Type) := mkDefinitionRow {
  dr_namespace : string;
  dr_slug : string;
  dr_name : string;
  dr_status : DefinitionLifecycleStatus;
  dr_content_hash : string;
  dr_cosmetic_hash : string;
  dr_definition : WorkflowDefinition;
  dr_nickel_source : string;
  dr_inserted_at : Z;
  dr_updated_at : Z;
  dr_lease : option (Lease Uuid)
}.
Arguments mkDefinitionRow {Uuid}. Arguments dr_namespace {Uuid}. Arguments dr_slug {Uuid}.
Arguments dr_name {Uuid}. Arguments dr_status {Uuid}. Arguments dr_content_hash {Uuid}.
Arguments dr_cosmetic_hash {Uuid}. Arguments dr_definition {Uuid}.
Arguments dr_nickel_source {Uuid}. Arguments dr_inserted_at {Uuid}. Arguments dr_updated_at {Uuid}.
Arguments dr_lease {Uuid}.

Record DefinitionRegistrationInput := mkDefinitionRegistrationInput {
  reg_definition : WorkflowDefinition;
  reg_content_hash : string;
  reg_cosmetic_hash : string;
  reg_nickel_source : string
}.

Record DefinitionBuildTask (Uuid : Type) := mkDefinitionBuildTask {
  dbt_workflow_id : Uuid;
  dbt_workflow_version : Z;
  dbt_task_id : Uuid;
  dbt_nix_expression_path : string
}.
Arguments mkDefinitionBuildTask {Uuid}. Arguments dbt_workflow_id {Uuid}.
Arguments dbt_workflow_version {Uuid}. Arguments dbt_task_id {Uuid}.
Arguments dbt_nix_expression_path {Uuid}.

(** ** Outcomes *)

Inductive DefinitionRegistrationOutcome (Uuid : Type) :=
| RegInserted (workflow_id : Uuid) (workflow_version : Z) (tasks : list (DefinitionBuildTask Uuid))
| RegRefreshed (workflow_id : Uuid) (workflow_version : Z)
| RegBuildRequeued (workflow_id : Uuid) (workflow_version : Z)
    (tasks : list (DefinitionBuildTask Uuid))
| RegNoOp (workflow_id : Uuid) (workflow_version : Z).
Arguments RegInserted {Uuid}. Arguments RegRefreshed {Uuid}. Arguments RegBuildRequeued {Uuid}.
Arguments RegNoOp {Uuid}.

Inductive RegistrationDecision :=
| DecideInsert (version : Z)
| DecideRefreshed (version : Z)
| DecideBuildRequeued (version : Z)
| DecideNoOp (version : Z).

Record DefinitionSubmissionIntent (Uuid : Type) := mkDefinitionSubmissionIntent {
  dsi_workflow_id : Uuid;
  dsi_workflow_version : Z;
  dsi_definition : WorkflowDefinition
}.
Arguments mkDefinitionSubmissionIntent {Uuid}. Arguments dsi_workflow_id {Uuid}.
Arguments dsi_workflow_version {Uuid}. Arguments dsi_definition {Uuid}.

Inductive DefinitionBuildSettlementOutcome (Uuid : Type) :=
| DefAwaitingTasks
| DefNowReady (intent : DefinitionSubmissionIntent Uuid)
| DefNowFailed
| DefAlreadySettled (status : DefinitionLifecycleStatus)
| DefTaskAlreadySettled
| DefBuildAbsent.
Arguments DefAwaitingTasks {Uuid}. Arguments DefNowReady {Uuid}. Arguments DefNowFailed {Uuid}.
Arguments DefAlreadySettled {Uuid}. Arguments DefTaskAlreadySettled {Uuid}.
Arguments DefBuildAbsent {Uuid}.

Inductive LeasedDefinitionBuildSettlementOutcome (Uuid : Type) :=
| DefBuildSettled (outcome : DefinitionBuildSettlementOutcome Uuid)
| DefBuildLeaseLost.
Arguments DefBuildSettled {Uuid}. Arguments DefBuildLeaseLost {Uuid}.

Inductive DefinitionSubmissionSettlementOutcome :=
| DefSubmitted
| DefSubmissionAlreadySettled (status : DefinitionLifecycleStatus)
| DefSubmissionAbsent.

Inductive LeasedDefinitionSubmissionSettlementOutcome :=
| DefSubmissionSettled (outcome : DefinitionSubmissionSettlementOutcome)
| DefSubmissionLeaseLost.

Inductive DefinitionSubmissionCandidate (Uuid : Type) :=
| CandidateReady (intent : DefinitionSubmissionIntent Uuid)
| CandidateNotReady (status : DefinitionLifecycleStatus)
| CandidateAbsent.
Arguments CandidateReady {Uuid}. Arguments CandidateNotReady {Uuid}. Arguments CandidateAbsent {Uuid}.

Inductive DefinitionSubmissionReconciliationOutcome :=
| ReconciliationReady
| ReconciliationNotReady (status : DefinitionLifecycleStatus)
| ReconciliationAbsent.

(** The errors a transaction ends in, each with a rollback. *)
Inductive DefinitionStoreError :=
| DefCorruptInput (id : string)
| DefUniqueViolation
| DefMissingTask
| DefNotLeaseable
| DefInvalidLeaseRequest (e : LeaseRequestError)
| DefUnexpectedLeaseLoss.

Section definition_store.
Context `{UuidOps Uuid} `{!Countable Uuid}.
Context (uuid_leb : Uuid → Uuid → bool) (fresh_token : nat → Uuid).

Abbreviation version_key := (Uuid * Z)%type.

Record DefinitionStore := mkDefinitionStore {
  workflows : gmap version_key (DefinitionRow Uuid);
  def_builds : gmap (version_key * Uuid) (BuildRow Uuid);
  def_specs : gmap Uuid (list RoutingVarDecl)
}.

Definition empty_definition_store : DefinitionStore := mkDefinitionStore ∅ ∅ ∅.

Definition set_workflows (s : DefinitionStore) (t : gmap version_key (DefinitionRow Uuid))
    : DefinitionStore := mkDefinitionStore t (def_builds s) (def_specs s).

Definition set_builds (s : DefinitionStore) (t : gmap (version_key * Uuid) (BuildRow Uuid))
    : DefinitionStore := mkDefinitionStore (workflows s) t (def_specs s).

(** ** Row updates *)

Definition set_def_status (st : DefinitionLifecycleStatus) (now : Z) (r : DefinitionRow Uuid)
    : DefinitionRow Uuid :=
  mkDefinitionRow (dr_namespace r) (dr_slug r) (dr_name r) st (dr_content_hash r)
    (dr_cosmetic_hash r) (dr_definition r) (dr_nickel_source r) (dr_inserted_at r) now (dr_lease r).

Definition set_def_lease (lease : option (Lease Uuid)) (r : DefinitionRow Uuid)
    : DefinitionRow Uuid :=
  mkDefinitionRow (dr_namespace r) (dr_slug r) (dr_name r) (dr_status r) (dr_content_hash r)
    (dr_cosmetic_hash r) (dr_definition r) (dr_nickel_source r) (dr_inserted_at r)
    (dr_updated_at r) lease.

Definition set_build_lease (lease : option (Lease Uuid)) (b : BuildRow Uuid) : BuildRow Uuid :=
  mkBuildRow (b_status b) (b_error b) (b_pending_since b) (b_built_at b) lease.

Definition set_version (def : WorkflowDefinition) (version : Z) : WorkflowDefinition :=
  mkWorkflowDefinition (def_id def) (def_tenant_id def) (def_namespace def) (def_slug def)
    (def_name def) version (def_tasks def) (def_task_graph def) (def_trigger def) (def_status def)
    (def_captures def) (def_timeout_secs def) (def_tags def).

(** Both keys are always present in a serialized message. *)
Definition patch_cosmetics (target source : WorkflowDefinition) : WorkflowDefinition :=
  mkWorkflowDefinition (def_id target) (def_tenant_id target) (def_namespace target)
    (def_slug target) (def_name source) (def_version target) (def_tasks target)
    (def_task_graph target) (def_trigger target) (def_status target) (def_captures target)
    (def_timeout_secs target) (def_tags source).

(** ** Registration *)

(** [WHERE id = .. ORDER BY version DESC] *)
Definition versions_of (s : DefinitionStore) (p : DefinitionRow Uuid → bool) (id : Uuid)
    : list (version_key * DefinitionRow Uuid) :=
  select_rows (λ a b, b.1.2 <=? a.1.2)%Z (λ kr, bool_decide (kr.1.1 = id) && p kr.2) (workflows s).

Definition latest (s : DefinitionStore) (id : Uuid) : option (version_key * DefinitionRow Uuid) :=
  head (versions_of s (λ _, true) id).

Definition decide_registration (input : DefinitionRegistrationInput)
    (latest : option (version_key * DefinitionRow Uuid)) : RegistrationDecision :=
  match latest with
  | None => DecideInsert 1
  | Some ((_, version), row) =>
      if negb (bool_decide (dr_content_hash row = reg_content_hash input))
      then DecideInsert (version + 1)
      else match dr_status row with
           | Def_BuildFailed => DecideBuildRequeued version
           | Def_Building => DecideNoOp version
           | _ => if negb (bool_decide (dr_cosmetic_hash row = reg_cosmetic_hash input))
                  then DecideRefreshed version
                  else DecideNoOp version
           end
  end.

Definition parse_id (id : string) : result Uuid DefinitionStoreError :=
  ok_or (uuid_parse_str id) (DefCorruptInput id).

Definition task_ids (def : WorkflowDefinition) : result (list Uuid) DefinitionStoreError :=
  collect (λ t, parse_id (task_id t)) (def_tasks def).

Definition build_tasks (def : WorkflowDefinition) (id : Uuid) (version : Z) (ids : list Uuid)
    : list (DefinitionBuildTask Uuid) :=
  zip_with (λ t tid, mkDefinitionBuildTask id version tid (task_nix_expression_path t))
    (def_tasks def) ids.

(** The two inserts per task; the first one is refused on a repeated key. *)
Fixpoint insert_builds (s : DefinitionStore) (k : version_key) (now : Z)
    (tasks : list (TaskDefinition * Uuid)) : result DefinitionStore DefinitionStoreError :=
  match tasks with
  | [] => Ok s
  | (task, tid) :: rest =>
      if def_builds s !! (k, tid) is Some _ then Err DefUniqueViolation
      else insert_builds
             (mkDefinitionStore (workflows s)
                (<[(k, tid) := mkBuildRow build_pending None now None None]> (def_builds s))
                (if def_specs s !! tid is Some _ then def_specs s
                 else <[tid := task_routing_vars task]> (def_specs s))) k now rest
  end.

Definition insert_version (s : DefinitionStore) (now : Z) (input : DefinitionRegistrationInput)
    (id : Uuid) (ids : list Uuid) (version : Z)
    : result (DefinitionRegistrationOutcome Uuid * DefinitionStore) DefinitionStoreError :=
  let def := set_version (reg_definition input) version in
  let row := mkDefinitionRow (def_namespace def) (def_slug def) (def_name def) Def_Building
               (reg_content_hash input) (reg_cosmetic_hash input) def (reg_nickel_source input)
               now now None in
  if workflows s !! (id, version) is Some _ then Err DefUniqueViolation
  else
    let? s' := insert_builds (set_workflows s (<[(id, version) := row]> (workflows s)))
                 (id, version) now (zip (def_tasks def) ids) in
    Ok (RegInserted id version (build_tasks def id version ids), s').

Definition refresh (s : DefinitionStore) (now : Z) (k : version_key)
    (input : DefinitionRegistrationInput) : DefinitionStore :=
  set_workflows s
    (alter (λ r, mkDefinitionRow (dr_namespace r) (dr_slug r) (def_name (reg_definition input))
                   (dr_status r) (dr_content_hash r) (reg_cosmetic_hash input)
                   (patch_cosmetics (dr_definition r) (reg_definition input))
                   (reg_nickel_source input) (dr_inserted_at r) now (dr_lease r)) k (workflows s)).

(** The expressions of the builds of a version, in the order of [tids]. *)
Definition requeued_tasks (def : WorkflowDefinition) (k : version_key) (tids : list Uuid)
    : result (list (DefinitionBuildTask Uuid)) DefinitionStoreError :=
  collect (λ tid,
    match List.find (λ t, bool_decide (task_id t = uuid_to_string tid)) (def_tasks def) with
    | Some t => Ok (mkDefinitionBuildTask k.1 k.2 tid (task_nix_expression_path t))
    | None => Err DefMissingTask
    end) tids.

(** Pending builds lose their lease, failed ones become pending. *)
Definition requeue_build (b : BuildRow Uuid) : BuildRow Uuid :=
  match b_status b with
  | build_pending => set_build_lease None b
  | build_failure => mkBuildRow build_pending None (b_pending_since b) None None
  | build_success => b
  end.

Definition of_version (k : version_key) (kt : version_key * Uuid) : bool := bool_decide (kt.1 = k).

(** The order of [RETURNING] is that of the table. *)
Definition failed_builds (s : DefinitionStore) (k : version_key) : list Uuid :=
  omap (λ kb : (version_key * Uuid) * BuildRow Uuid,
          if of_version k kb.1 && bool_decide (b_status kb.2 = build_failure)
          then Some kb.1.2 else None) (map_to_list (def_builds s)).

Definition requeue (s : DefinitionStore) (now : Z) (k : version_key)
    : result (list (DefinitionBuildTask Uuid) * DefinitionStore) DefinitionStoreError :=
  let ws := default (workflows s)
              (update_row (workflows s) k (λ r, bool_decide (dr_status r = Def_BuildFailed))
                 (set_def_status Def_Building now)) in
  let bs := map_imap (λ kt b, Some (if of_version k kt then requeue_build b else b))
              (def_builds s) in
  let? row := ok_or (workflows s !! k) DefMissingTask in
  let? tasks := requeued_tasks (dr_definition row) k (failed_builds s k) in
  Ok (tasks, mkDefinitionStore ws bs (def_specs s)).

Definition register_definition (s : DefinitionStore) (now : Z) (input : DefinitionRegistrationInput)
    : result (DefinitionRegistrationOutcome Uuid * DefinitionStore) DefinitionStoreError :=
  let? id := parse_id (def_id (reg_definition input)) in
  let? ids := task_ids (reg_definition input) in
  match decide_registration input (latest s id) with
  | DecideNoOp version => Ok (RegNoOp id version, s)
  | DecideRefreshed version => Ok (RegRefreshed id version, refresh s now (id, version) input)
  | DecideBuildRequeued version =>
      let? r := requeue s now (id, version) in
      Ok (RegBuildRequeued id version r.1, r.2)
  | DecideInsert version => insert_version s now input id ids version
  end.

(** ** Build leases *)

Definition validate_definition_build_lease_request (owner : string) (now expires_at : Z) (limit : nat)
    : result unit DefinitionStoreError :=
  map_err DefInvalidLeaseRequest
    (validate_lease_request owner now expires_at limit MAX_DEFINITION_BUILD_LEASE_BATCH).

Definition leq_version_key (a b : version_key) : bool :=
  if bool_decide (a.1 = b.1) then (a.2 <=? b.2)%Z else uuid_leb a.1 b.1.

(** [ORDER BY pending_since, workflow_id, workflow_version, task_id] *)
Definition leq_def_build (a b : (version_key * Uuid) * BuildRow Uuid) : bool :=
  if (b_pending_since a.2 =? b_pending_since b.2)%Z
  then if bool_decide (a.1.1 = b.1.1) then uuid_leb a.1.2 b.1.2 else leq_version_key a.1.1 b.1.1
  else (b_pending_since a.2 <? b_pending_since b.2)%Z.

Definition def_build_eligible (s : DefinitionStore) (now : Z)
    (kb : (version_key * Uuid) * BuildRow Uuid) : bool :=
  bool_decide (b_status kb.2 = build_pending)
  && match workflows s !! kb.1.1 with
     | Some r => bool_decide (dr_status r = Def_Building)
     | None => false
     end
  && lease_free now (b_lease kb.2).

Definition eligible_def_builds (s : DefinitionStore) (now : Z)
    : list ((version_key * Uuid) * BuildRow Uuid) :=
  select_rows leq_def_build (def_build_eligible s now) (def_builds s).

Definition has_reclaimable_definition_build (s : DefinitionStore) (now : Z) : bool :=
  match eligible_def_builds s now with [] => false | _ => true end.

Record LeasedDefinitionBuildTask := mkLeasedDefinitionBuildTask {
  ldb_task : DefinitionBuildTask Uuid;
  ldb_lease : Lease Uuid
}.

Definition lease_one_def_build (owner : string) (now expires_at : Z)
    (kb : (version_key * Uuid) * BuildRow Uuid) (st : DefinitionStore * nat)
    : result (LeasedDefinitionBuildTask * (DefinitionStore * nat)) DefinitionStoreError :=
  let '((k, tid), _) := kb in
  let '(s, n) := st in
  let? row := ok_or (workflows s !! k) DefMissingTask in
  let? tasks := requeued_tasks (dr_definition row) k [tid] in
  let? task := ok_or (last tasks) DefMissingTask in
  let lease := mkLease owner (fresh_token n) expires_at in
  let? bs := ok_or (update_row (def_builds s) (k, tid)
                      (λ b, bool_decide (b_status b = build_pending) && lease_free now (b_lease b))
                      (set_build_lease (Some lease))) DefNotLeaseable in
  Ok (mkLeasedDefinitionBuildTask task lease, (set_builds s bs, S n)).

Definition lease_definition_build_tasks (s : DefinitionStore) (n : nat) (owner : string)
    (now expires_at : Z) (limit : nat)
    : result (list LeasedDefinitionBuildTask * (DefinitionStore * nat)) DefinitionStoreError :=
  let? _ := validate_definition_build_lease_request owner now expires_at limit in
  traverse (lease_one_def_build owner now expires_at) (take limit (eligible_def_builds s now)) (s, n).

(** ** Build settlement *)

Definition settled_def_build (result : DefinitionTaskBuildResult) (at_ : Z) (b : BuildRow Uuid)
    : BuildRow Uuid :=
  let '(status, error) := def_task_build_values result in
  mkBuildRow status error (b_pending_since b) (Some at_) None.

(** [NOT EXISTS (SELECT 1 .. AND status <> 'success')] *)
Definition all_def_built (bs : gmap (version_key * Uuid) (BuildRow Uuid)) (k : version_key) : bool :=
  negb (existsb (λ kb : (version_key * Uuid) * BuildRow Uuid,
                   of_version k kb.1 && negb (bool_decide (b_status kb.2 = build_success)))
          (map_to_list bs)).

Definition submission_intent (k : version_key) (r : DefinitionRow Uuid)
    : DefinitionSubmissionIntent Uuid :=
  mkDefinitionSubmissionIntent k.1 k.2 (dr_definition r).

(** A worker settles under its lease; without one the build must be unleased. *)
Definition may_settle_def (guard : option (string * Uuid)) (at_ : Z) (b : BuildRow Uuid) : bool :=
  bool_decide (b_status b = build_pending) &&
  match guard with
  | Some (owner, token) => lease_held owner token at_ (b_lease b)
  | None => match b_lease b with None => true | Some _ => false end
  end.

Definition settle_def_build (s : DefinitionStore) (k : version_key) (tid : Uuid)
    (result : DefinitionTaskBuildResult) (guard : option (string * Uuid)) (at_ : Z)
    : LeasedDefinitionBuildSettlementOutcome Uuid * DefinitionStore :=
  match workflows s !! k with
  | None => (DefBuildSettled DefBuildAbsent, s)
  | Some row =>
      if negb (bool_decide (dr_status row = Def_Building))
      then (DefBuildSettled (DefAlreadySettled (dr_status row)), s)
      else
        match update_row (def_builds s) (k, tid) (may_settle_def guard at_)
                (settled_def_build result at_) with
        | None =>
            (match def_builds s !! (k, tid), guard with
             | Some b, Some _ =>
                 if bool_decide (b_status b = build_pending) then DefBuildLeaseLost
                 else DefBuildSettled DefTaskAlreadySettled
             | Some _, None => DefBuildSettled DefTaskAlreadySettled
             | None, _ => DefBuildSettled DefBuildAbsent
             end, s)
        | Some bs =>
            let s1 := set_builds s bs in
            match result with
            | DefTaskFailure _ =>
                (DefBuildSettled DefNowFailed,
                 set_workflows s1
                   (default (workflows s1)
                      (update_row (workflows s1) k
                         (λ r, bool_decide (dr_status r = Def_Building))
                         (set_def_status Def_BuildFailed at_))))
            | DefTaskSuccess =>
                match update_row (workflows s1) k
                        (λ r, bool_decide (dr_status r = Def_Building) && all_def_built bs k)
                        (set_def_status Def_Ready at_) with
                | Some ws => (DefBuildSettled (DefNowReady (submission_intent k row)),
                              set_workflows s1 ws)
                | None => (DefBuildSettled DefAwaitingTasks, s1)
                end
            end
        end
  end.

Definition settle_definition_task_build (s : DefinitionStore) (k : version_key) (tid : Uuid)
    (result : DefinitionTaskBuildResult) (at_ : Z)
    : Prelude.result (DefinitionBuildSettlementOutcome Uuid * DefinitionStore) DefinitionStoreError :=
  match settle_def_build s k tid result None at_ with
  | (DefBuildSettled outcome, s') => Ok (outcome, s')
  | (DefBuildLeaseLost, _) => Err DefUnexpectedLeaseLoss
  end.

Definition settle_leased_definition_task_build (s : DefinitionStore)
    (lease : LeasedDefinitionBuildTask) (result : DefinitionTaskBuildResult) (now : Z)
    : LeasedDefinitionBuildSettlementOutcome Uuid * DefinitionStore :=
  settle_def_build s (dbt_workflow_id (ldb_task lease), dbt_workflow_version (ldb_task lease))
    (dbt_task_id (ldb_task lease)) result
    (Some (lease_owner (ldb_lease lease), lease_token (ldb_lease lease))) now.

(** ** Submissions *)

Definition validate_definition_submission_lease_request (owner : string) (now expires_at : Z)
    (limit : nat) : result unit DefinitionStoreError :=
  map_err DefInvalidLeaseRequest
    (validate_lease_request owner now expires_at limit MAX_DEFINITION_SUBMISSION_LEASE_BATCH).

Definition submission_eligible (now : Z) (kr : version_key * DefinitionRow Uuid) : bool :=
  bool_decide (dr_status kr.2 = Def_Ready) && lease_free now (dr_lease kr.2).

Definition eligible_submissions (s : DefinitionStore) (now : Z)
    : list (version_key * DefinitionRow Uuid) :=
  select_rows (λ a b, leq_version_key a.1 b.1) (submission_eligible now) (workflows s).

Definition has_reclaimable_definition_submission (s : DefinitionStore) (now : Z) : bool :=
  match eligible_submissions s now with [] => false | _ => true end.

Record LeasedDefinitionSubmission := mkLeasedDefinitionSubmission {
  lds_intent : DefinitionSubmissionIntent Uuid;
  lds_lease : Lease Uuid
}.

Definition lease_one_submission (owner : string) (now expires_at : Z)
    (kr : version_key * DefinitionRow Uuid) (st : DefinitionStore * nat)
    : result (LeasedDefinitionSubmission * (DefinitionStore * nat)) DefinitionStoreError :=
  let '(s, n) := st in
  let lease := mkLease owner (fresh_token n) expires_at in
  let? ws := ok_or (update_row (workflows s) kr.1
                      (λ r, bool_decide (dr_status r = Def_Ready) && lease_free now (dr_lease r))
                      (set_def_lease (Some lease))) DefNotLeaseable in
  Ok (mkLeasedDefinitionSubmission (submission_intent kr.1 kr.2) lease, (set_workflows s ws, S n)).

Definition lease_definition_submissions (s : DefinitionStore) (n : nat) (owner : string)
    (now expires_at : Z) (limit : nat)
    : result (list LeasedDefinitionSubmission * (DefinitionStore * nat)) DefinitionStoreError :=
  let? _ := validate_definition_submission_lease_request owner now expires_at limit in
  traverse (lease_one_submission owner now expires_at) (take limit (eligible_submissions s now)) (s, n).

Definition losing_submission_outcome (row : option (DefinitionRow Uuid))
    : DefinitionSubmissionSettlementOutcome :=
  match row with
  | Some r => DefSubmissionAlreadySettled (dr_status r)
  | None => DefSubmissionAbsent
  end.

Definition settle_definition_submission (s : DefinitionStore) (k : version_key) (now : Z)
    : DefinitionSubmissionSettlementOutcome * DefinitionStore :=
  match update_row (workflows s) k (λ r, bool_decide (dr_status r = Def_Ready))
          (λ r, set_def_lease None (set_def_status Def_Submitted now r)) with
  | Some ws => (DefSubmitted, set_workflows s ws)
  | None => (losing_submission_outcome (workflows s !! k), s)
  end.

Definition settle_leased_definition_submission (s : DefinitionStore)
    (lease : LeasedDefinitionSubmission) (now : Z)
    : LeasedDefinitionSubmissionSettlementOutcome * DefinitionStore :=
  let k := (dsi_workflow_id (lds_intent lease), dsi_workflow_version (lds_intent lease)) in
  match update_row (workflows s) k
          (λ r, bool_decide (dr_status r = Def_Ready)
                && lease_held (lease_owner (lds_lease lease)) (lease_token (lds_lease lease)) now
                     (dr_lease r))
          (λ r, set_def_lease None (set_def_status Def_Submitted now r)) with
  | Some ws => (DefSubmissionSettled DefSubmitted, set_workflows s ws)
  | None =>
      (match workflows s !! k with
       | None => DefSubmissionSettled DefSubmissionAbsent
       | Some r => if bool_decide (dr_status r = Def_Ready) then DefSubmissionLeaseLost
                   else DefSubmissionSettled (DefSubmissionAlreadySettled (dr_status r))
       end, s)
  end.

Definition submission_reconciliation_outcome (row : option (DefinitionRow Uuid))
    : DefinitionSubmissionReconciliationOutcome :=
  match row with
  | None => ReconciliationAbsent
  | Some r => if bool_decide (dr_status r = Def_Ready) then ReconciliationReady
              else ReconciliationNotReady (dr_status r)
  end.

Definition submission_candidate (s : DefinitionStore) (k : version_key)
    : DefinitionSubmissionCandidate Uuid :=
  match workflows s !! k with
  | None => CandidateAbsent
  | Some r => if bool_decide (dr_status r = Def_Ready) then CandidateReady (submission_intent k r)
              else CandidateNotReady (dr_status r)
  end.

Definition definition_submission_reconciliation_candidates (s : DefinitionStore)
    : list version_key :=
  (select_rows (λ a b, leq_version_key a.1 b.1) (λ kr, bool_decide (dr_status kr.2 = Def_Ready))
     (workflows s)).*1.

(** ** Reads *)

Definition live_workflow_definition (s : DefinitionStore) (id : Uuid) : option WorkflowDefinition :=
  (λ kr, dr_definition kr.2) <$> head (versions_of s (λ r, def_live (dr_status r)) id).

Definition latest_workflow_definition (s : DefinitionStore) (id : Uuid)
    : option WorkflowDefinition :=
  (λ kr, dr_definition kr.2) <$> latest s id.

(** The rows of rank one in [PARTITION BY id ORDER BY version DESC]. *)
Definition top_rows (s : DefinitionStore) (p : DefinitionRow Uuid → bool)
    : list (version_key * DefinitionRow Uuid) :=
  List.filter (λ kr, match head (versions_of s p kr.1.1) with
                     | Some kr' => bool_decide (kr'.1 = kr.1)
                     | None => false
                     end) (map_to_list (workflows s)).

Definition live_workflow_definitions (s : DefinitionStore) : list WorkflowDefinition :=
  (λ kr, dr_definition kr.2) <$>
    sort_by (λ a b, uuid_leb a.1.1 b.1.1) (top_rows s (λ r, def_live (dr_status r))).

Record DefinitionListRow := mkDefinitionListRow {
  dl_workflow : WorkflowDefinition;
  dl_build_status : DefinitionLifecycleStatus;
  dl_build_version : Z;
  dl_live_version : option Z
}.

(** [ORDER BY inserted_at DESC, id ASC] *)
Definition leq_listed (a b : version_key * DefinitionRow Uuid) : bool :=
  if (dr_inserted_at a.2 =? dr_inserted_at b.2)%Z then uuid_leb a.1.1 b.1.1
  else (dr_inserted_at b.2 <? dr_inserted_at a.2)%Z.

Definition list_definitions (s : DefinitionStore) : list DefinitionListRow :=
  (λ kr : version_key * DefinitionRow Uuid,
     mkDefinitionListRow (dr_definition kr.2) (dr_status kr.2) kr.1.2
       ((λ kr', kr'.1.2) <$> head (versions_of s (λ r, def_live (dr_status r)) kr.1.1))) <$>
    sort_by leq_listed (top_rows s (λ _, true)).

(** [ORDER BY (status IN ('Ready', 'Submitted')) DESC, version DESC LIMIT 1] *)
Definition default_definition_version (s : DefinitionStore) (id : Uuid)
    : option (Z * DefinitionLifecycleStatus) :=
  (λ kr, (kr.1.2, dr_status kr.2)) <$>
    head (select_rows
            (λ a b, if Bool.eqb (def_live (dr_status a.2)) (def_live (dr_status b.2))
                    then (b.1.2 <=? a.1.2)%Z else def_live (dr_status a.2))
            (λ kr, bool_decide (kr.1.1 = id)) (workflows s)).

Definition definition_exists (s : DefinitionStore) (id : Uuid) : bool :=
  match latest s id with Some _ => true | None => false end.

Definition count_definitions (s : DefinitionStore) : nat :=
  size (list_to_set ((λ kr, kr.1.1) <$> map_to_list (workflows s)) : gset Uuid).

Definition list_definition_versions (s : DefinitionStore) (id : Uuid)
    : list (Z * DefinitionLifecycleStatus * Z) :=
  (λ kr, (kr.1.2, dr_status kr.2, dr_inserted_at kr.2)) <$> versions_of s (λ _, true) id.

Definition definition_version (s : DefinitionStore) (id : Uuid) (version : Z)
    : option (DefinitionLifecycleStatus * WorkflowDefinition * string) :=
  (λ r, (dr_status r, dr_definition r, dr_nickel_source r)) <$> workflows s !! (id, version).

Definition task_specification (s : DefinitionStore) (tid : Uuid) : option (list RoutingVarDecl) :=
  def_specs s !! tid.
End definition_store.
