(* ===== verification/DefinitionStoreFacts.v ===== *)
(** * Facts on the definition store

    Every transaction of [DefinitionStore] as a step, the invariant of the tables,
    what a registration resolves to, and how a version may evolve, for any
    interleaving of any number of transactions. *)

From S2P Require Import Prelude Workflow Uuid Leases DefinitionStore.

Section facts.
Context `{UuidOps Uuid} `{!Countable Uuid}.
Implicit Types (s : DefinitionStore (Uuid := Uuid)) (r : DefinitionRow Uuid) (b : BuildRow Uuid).
Implicit Types (k : Uuid * Z) (t id : Uuid) (v : Z).

(** ** The latest version *)

Lemma versions_order_total {A} (x y : (Uuid * Z) * A) :
  (y.1.2 <=? x.1.2)%Z = true ∨ (x.1.2 <=? y.1.2)%Z = true.
Proof. rewrite !Z.leb_le. lia. Qed.

Lemma versions_order_trans {A} (x y z : (Uuid * Z) * A) :
  (y.1.2 <=? x.1.2)%Z = true → (z.1.2 <=? y.1.2)%Z = true → (z.1.2 <=? x.1.2)%Z = true.
Proof. rewrite !Z.leb_le. lia. Qed.

Lemma head_versions_Some s p id k r :
  head (versions_of s p id) = Some (k, r) →
  k.1 = id ∧ workflows s !! k = Some r ∧ p r = true ∧
  ∀ v' r', workflows s !! (id, v') = Some r' → p r' = true → (v' <= k.2)%Z.
Proof.
  intros Hh. apply head_select_Some in Hh as (Hk & [Hid Hp]%andb_true_iff & Hmax);
    [|apply versions_order_total|apply versions_order_trans].
  apply bool_decide_eq_true in Hid. simpl in Hid. split_and!; [done..|].
  intros v' r' Hv' Hp'. apply Z.leb_le, (Hmax (id, v') r' Hv').
  simpl. by rewrite bool_decide_eq_true_2.
Qed.

Lemma head_versions_None s p id :
  head (versions_of s p id) = None ↔ ∀ v r, workflows s !! (id, v) = Some r → p r = false.
Proof.
  unfold versions_of. rewrite head_select_None. split.
  - intros Hn v r Hv. apply Hn in Hv. simpl in Hv. by rewrite bool_decide_eq_true_2 in Hv.
  - intros Hn [id' v] r Hv. simpl. case_bool_decide; [subst|done]. by eapply Hn.
Qed.

Lemma latest_Some s id k r :
  latest s id = Some (k, r) →
  k.1 = id ∧ workflows s !! k = Some r ∧
  ∀ v' r', workflows s !! (id, v') = Some r' → (v' <= k.2)%Z.
Proof. intros (?&?&_&Hm)%head_versions_Some. naive_solver. Qed.

Lemma latest_None s id : latest s id = None ↔ ∀ v, workflows s !! (id, v) = None.
Proof.
  unfold latest. rewrite head_versions_None. split; [|by intros Hn v r; rewrite Hn].
  intros Hn v. destruct (workflows s !! (id, v)) eqn:Hv; [|done]. by apply Hn in Hv.
Qed.

(** The latest version is determined by being the highest. *)
Lemma latest_intro s id v r :
  workflows s !! (id, v) = Some r →
  (∀ v' r', workflows s !! (id, v') = Some r' → (v' <= v)%Z) →
  latest s id = Some ((id, v), r).
Proof.
  intros Hv Hmax. destruct (latest s id) as [[[id' v'] r']|] eqn:Hl.
  - apply latest_Some in Hl as (Hid & Hv' & Hmax'). simpl in Hid. subst id'.
    apply Hmax' in Hv as Hle. simpl in Hle. apply Hmax in Hv' as Hle'.
    assert (v' = v) as -> by lia. congruence.
  - rewrite latest_None in Hl. by rewrite Hl in Hv.
Qed.

Lemma latest_update s s1 id k r r' :
  latest s id = Some (k, r) → workflows s1 = <[k := r']> (workflows s) →
  latest s1 id = Some (k, r').
Proof.
  intros (Hid & Hk & Hmax)%latest_Some Hws. destruct k as [id' v]. simpl in *. subst id'.
  apply latest_intro; rewrite Hws; [by rewrite lookup_insert_eq|].
  intros v' r''. rewrite lookup_insert_Some. intros [[[= <-] _]|[_ ?]]; [lia|eauto].
Qed.

(** ** Registration *)

Lemma insert_builds_spec k now l : ∀ s s',
  insert_builds s k now l = Ok s' →
  workflows s' = workflows s ∧ NoDup l.*2 ∧
  (∀ t, t ∈ l.*2 → def_builds s !! (k, t) = None ∧
                   def_builds s' !! (k, t) = Some (mkBuildRow build_pending None now None None)) ∧
  (∀ k' t, (k', t) ∉ (λ t, (k, t)) <$> l.*2 → def_builds s' !! (k', t) = def_builds s !! (k', t)).
Proof.
  induction l as [|[task t] l IH]; intros s s'; cbn [insert_builds].
  { intros Heq. injection Heq as <-. split_and!; [done|constructor| |done]. by intros t ?%elem_of_nil. }
  destruct (def_builds s !! (k, t)) as [b|] eqn:Hb; [done|].
  intros (Hws & Hnd & Hin & Hout)%IH. simpl in *.
  assert (t ∉ l.*2) as Hnew.
  { intros Hf. apply Hin in Hf as [Hf _]. by rewrite lookup_insert_eq in Hf. }
  split_and!; [done|by constructor| |].
  - intros t' [->|Ht']%elem_of_cons.
    + split; [done|]. rewrite Hout, lookup_insert_eq; [done|].
      by intros (?&[= <-]&?)%list_elem_of_fmap.
    + apply Hin in Ht' as [Ht' ?]. split; [|done].
      rewrite lookup_insert_ne in Ht'; [done|]. intros [= ->]. by rewrite lookup_insert_eq in Ht'.
  - intros k' t' [Hne Hn]%not_elem_of_cons. rewrite Hout by done. by apply lookup_insert_ne.
Qed.

Lemma insert_version_inv s now input id ids v o s' :
  insert_version s now input id ids v = Ok (o, s') →
  let def := set_version (reg_definition input) v in
  let row := mkDefinitionRow (def_namespace def) (def_slug def) (def_name def) Def_Building
               (reg_content_hash input) (reg_cosmetic_hash input) def (reg_nickel_source input)
               now now None in
  workflows s !! (id, v) = None ∧ o = RegInserted id v (build_tasks def id v ids) ∧
  insert_builds (set_workflows s (<[(id, v) := row]> (workflows s))) (id, v) now
    (zip (def_tasks (reg_definition input)) ids) = Ok s'.
Proof.
  unfold insert_version. cbv zeta. destruct (workflows s !! (id, v)); [done|]. simpl.
  destruct (insert_builds _ _ _ _) as [s1|] eqn:Hi; [|done].
  intros Heq. injection Heq as <- <-. done.
Qed.

Lemma requeue_inv s now k tasks s' :
  requeue s now k = Ok (tasks, s') →
  ∃ r, workflows s !! k = Some r ∧ requeued_tasks (dr_definition r) k (failed_builds s k) = Ok tasks ∧
    def_specs s' = def_specs s ∧
    workflows s' = (if bool_decide (dr_status r = Def_BuildFailed)
                    then <[k := set_def_status Def_Building now r]> (workflows s)
                    else workflows s) ∧
    ∀ kt, def_builds s' !! kt =
          (λ b, if of_version k kt then requeue_build b else b) <$> def_builds s !! kt.
Proof.
  unfold requeue. destruct (workflows s !! k) as [r|] eqn:Hk; [|done]. simpl.
  destruct (requeued_tasks _ _ _) as [ts|] eqn:Ht; [|done]. simpl.
  intros Heq. injection Heq as <- <-. exists r. split_and!; [done|done|done| |].
  - simpl. unfold update_row. rewrite Hk. by case_bool_decide.
  - intros kt. simpl. rewrite map_lookup_imap. by destruct (def_builds s !! kt).
Qed.

Definition outcome_id (o : DefinitionRegistrationOutcome Uuid) : Uuid :=
  match o with
  | RegInserted id _ _ | RegRefreshed id _ | RegBuildRequeued id _ _ | RegNoOp id _ => id
  end.

Definition outcome_version (o : DefinitionRegistrationOutcome Uuid) : Z :=
  match o with
  | RegInserted _ v _ | RegRefreshed _ v | RegBuildRequeued _ v _ | RegNoOp _ v => v
  end.

(** What each decision says of the latest version. *)
Definition decision_ok (input : DefinitionRegistrationInput) (l : option ((Uuid * Z) * DefinitionRow Uuid))
    (d : RegistrationDecision) : Prop :=
  match d with
  | DecideInsert v =>
      (l = None ∧ v = 1%Z) ∨
      ∃ k r, l = Some (k, r) ∧ v = (k.2 + 1)%Z ∧ dr_content_hash r ≠ reg_content_hash input
  | DecideRefreshed v =>
      ∃ k r, l = Some (k, r) ∧ v = k.2 ∧ dr_content_hash r = reg_content_hash input ∧
             def_live (dr_status r) = true ∧ dr_cosmetic_hash r ≠ reg_cosmetic_hash input
  | DecideBuildRequeued v =>
      ∃ k r, l = Some (k, r) ∧ v = k.2 ∧ dr_content_hash r = reg_content_hash input ∧
             dr_status r = Def_BuildFailed
  | DecideNoOp v =>
      ∃ k r, l = Some (k, r) ∧ v = k.2 ∧ dr_content_hash r = reg_content_hash input ∧
             (dr_status r = Def_Building ∨
              def_live (dr_status r) = true ∧ dr_cosmetic_hash r = reg_cosmetic_hash input)
  end.

Lemma decide_registration_ok input l : decision_ok input l (decide_registration input l).
Proof.
  destruct l as [[[id v] r]|]; [|by left]. simpl.
  destruct (bool_decide_reflect (dr_content_hash r = reg_content_hash input)) as [Hc|Hc]; simpl.
  - destruct (dr_status r) eqn:Hst; simpl;
      try destruct (bool_decide_reflect (dr_cosmetic_hash r = reg_cosmetic_hash input)); simpl;
      exists (id, v), r; rewrite ?Hst; split_and!; auto.
  - right. exists (id, v), r. done.
Qed.

Lemma decision_row s id input v : ∀ k r,
  decision_ok input (latest s id) (DecideInsert v) → latest s id = Some (k, r) →
  v = (k.2 + 1)%Z ∧ dr_content_hash r ≠ reg_content_hash input.
Proof. intros k r [[Hn _]|(k'&r'&Hl&->&?)] Hs; [congruence|]. rewrite Hl in Hs. by simplify_eq. Qed.

Lemma inserted_is_highest s id input v : ∀ v' r',
  decision_ok input (latest s id) (DecideInsert v) → workflows s !! (id, v') = Some r' → (v' < v)%Z.
Proof.
  intros v' r' [[Hn _]|(k'&r0&Hl&->&?)] Hv'.
  - rewrite latest_None in Hn. by rewrite Hn in Hv'.
  - apply latest_Some in Hl as (_ & _ & Hmax). apply Hmax in Hv'. lia.
Qed.

(** After a registration the latest version of the workflow is the one it names;
    it holds the content, and the labels when it is live. *)
Definition holds_registration s (input : DefinitionRegistrationInput) id v : Prop :=
  ∃ r, latest s id = Some ((id, v), r) ∧ dr_content_hash r = reg_content_hash input ∧
       dr_status r ≠ Def_BuildFailed ∧
       (def_live (dr_status r) = true → dr_cosmetic_hash r = reg_cosmetic_hash input).

Lemma inserted_holds s now input id ids v o s' :
  decision_ok input (latest s id) (DecideInsert v) →
  insert_version s now input id ids v = Ok (o, s') → holds_registration s' input id v.
Proof.
  intros Hd (Hnew & _ & (Hws & _)%insert_builds_spec)%insert_version_inv. simpl in Hws.
  eexists. split.
  { apply latest_intro; rewrite Hws; [by rewrite lookup_insert_eq|].
    intros v' r'. rewrite lookup_insert_Some. intros [[[= <-] _]|[_ Hv']]; [lia|].
    pose proof (inserted_is_highest _ _ _ _ _ _ Hd Hv'). lia. }
  done.
Qed.

Lemma registered_holds s now input o s' :
  register_definition s now input = Ok (o, s') →
  uuid_parse_str (def_id (reg_definition input)) = Some (outcome_id o) ∧
  holds_registration s' input (outcome_id o) (outcome_version o).
Proof.
  unfold register_definition, parse_id.
  destruct (uuid_parse_str _) as [id|] eqn:Hid; [|done]. simpl.
  destruct (task_ids _) as [ids|]; [|done]. simpl.
  pose proof (decide_registration_ok input (latest s id)) as Hd.
  destruct (decide_registration _ _) as [v|v|v|v].
  - intros Hins. pose proof (inserted_holds _ _ _ _ _ _ _ _ Hd Hins) as Hh.
    apply insert_version_inv in Hins as (_ & -> & _). done.
  - destruct Hd as ([id' v0] & r & Hl & -> & Hc & Hlive & _). intros Heq. injection Heq as <- <-.
    pose proof (latest_Some _ _ _ _ Hl) as (Hid' & Hk & _). simpl in *. subst id'.
    split; [done|]. eexists. split.
    { eapply latest_update; [done|]. unfold refresh. simpl. apply map_eq. intros k'.
      rewrite lookup_alter, lookup_insert. case_decide; [subst; by rewrite Hk|done]. }
    split_and!; [done| |done]. simpl. by destruct (dr_status r).
  - destruct Hd as ([id' v0] & r & Hl & -> & Hc & Hst).
    pose proof (latest_Some _ _ _ _ Hl) as (Hid' & Hk & _). simpl in *. subst id'.
    destruct (requeue _ _ _) as [[ts s1]|] eqn:Hr; [|done]. simpl.
    intros Heq. injection Heq as <- <-.
    apply requeue_inv in Hr as (r1 & Hk1 & _ & _ & Hws & _). simplify_eq.
    rewrite bool_decide_eq_true_2 in Hws by done.
    split; [done|]. eexists. split; [by eapply latest_update|]. done.
  - destruct Hd as ([id' v0] & r & Hl & -> & Hc & Hst).
    pose proof (latest_Some _ _ _ _ Hl) as (Hid' & Hk & _). simpl in *. subst id'.
    intros Heq. injection Heq as <- <-. split; [done|]. exists r. split_and!; [done..| |].
    + by destruct Hst as [->|[? _]]; [|destruct (dr_status r)].
    + intros Hlive. destruct Hst as [Hst|[_ ?]]; [by rewrite Hst in Hlive|done].
Qed.

(** ** The invariant *)

(** The status of a build, which is all that the lifecycle of a version reads. *)
Definition bst (bs : gmap ((Uuid * Z) * Uuid) (BuildRow Uuid)) k t : option BuildStatus :=
  b_status <$> bs !! (k, t).

Definition def_phase (f : Uuid → option BuildStatus) (st : DefinitionLifecycleStatus) : Prop :=
  match st with
  | Def_Building => ((∃ t, f t = Some build_pending) ∨ ∀ t, f t = None) ∧
                    ∀ t, f t ≠ Some build_failure
  | Def_Ready | Def_Submitted => (∃ t, f t = Some build_success) ∧
                                 ∀ t st', f t = Some st' → st' = build_success
  | Def_BuildFailed => ∃ t, f t = Some build_failure
  end.

#[export] Instance def_phase_proper :
  Proper (pointwise_relation Uuid (=) ==> (=) ==> iff) def_phase.
Proof.
  intros f g Hfg st ? <-. unfold def_phase. destruct st; setoid_rewrite Hfg; done.
Qed.

Definition task_of (def : WorkflowDefinition) t : Prop :=
  ∃ task, task ∈ def_tasks def ∧ uuid_parse_str (task_id task) = Some t.

Record version_ok s k r : Prop := {
  vo_pos : (1 <= k.2)%Z;
  vo_version : def_version (dr_definition r) = k.2;
  vo_id : uuid_parse_str (def_id (dr_definition r)) = Some k.1;
  vo_prev : (1 < k.2)%Z → ∃ r', workflows s !! (k.1, (k.2 - 1)%Z) = Some r' ∧
                                dr_content_hash r' ≠ dr_content_hash r;
  vo_name : dr_name r = def_name (dr_definition r);
  vo_parse : ∀ task, task ∈ def_tasks (dr_definition r) → is_Some (uuid_parse_str (task_id task) : option Uuid);
  vo_tasks : ∀ t, is_Some (bst (def_builds s) k t) ↔ task_of (dr_definition r) t;
  vo_phase : def_phase (bst (def_builds s) k) (dr_status r);
  vo_lease : dr_status r ≠ Def_Ready → dr_lease r = None
}.

Record def_store_ok s : Prop := {
  do_versions : ∀ k r, workflows s !! k = Some r → version_ok s k r;
  do_foreign_key : ∀ k t, is_Some (bst (def_builds s) k t) → is_Some (workflows s !! k)
}.

Lemma empty_def_store_ok : def_store_ok empty_definition_store.
Proof.
  split; [intros k r; simpl; by rewrite lookup_empty|].
  intros k t. unfold bst. simpl. rewrite lookup_empty. by intros [? ?].
Qed.

(** ** How a version evolves *)

Inductive def_moves : DefinitionLifecycleStatus → DefinitionLifecycleStatus → Prop :=
| def_moves_stay st : def_moves st st
| def_moves_ready : def_moves Def_Building Def_Ready
| def_moves_failed : def_moves Def_Building Def_BuildFailed
| def_moves_requeued : def_moves Def_BuildFailed Def_Building
| def_moves_refailed_ready : def_moves Def_BuildFailed Def_Ready
| def_moves_submitted st : def_moves st Def_Submitted.

(** A version keeps its content: only the labels of its definition change. *)
Record version_evolves r r' : Prop := {
  ve_hash : dr_content_hash r' = dr_content_hash r;
  ve_definition : dr_definition r' = patch_cosmetics (dr_definition r) (dr_definition r');
  ve_columns : dr_namespace r' = dr_namespace r ∧ dr_slug r' = dr_slug r ∧
               dr_inserted_at r' = dr_inserted_at r;
  ve_moves : def_moves (dr_status r) (dr_status r')
}.

Lemma patch_cosmetics_self def : patch_cosmetics def def = def.
Proof. by destruct def. Qed.

Lemma patch_cosmetics_other d1 d2 d3 :
  patch_cosmetics (patch_cosmetics d1 d2) d3 = patch_cosmetics d1 d3.
Proof. done. Qed.

Lemma def_moves_trans st1 st2 st3 : def_moves st1 st2 → def_moves st2 st3 → def_moves st1 st3.
Proof. intros H1 H2. inversion H1; subst; inversion H2; subst; constructor. Qed.

Lemma version_evolves_refl r : version_evolves r r.
Proof. split; [done|by rewrite patch_cosmetics_self|done|constructor]. Qed.

Lemma version_evolves_trans r1 r2 r3 :
  version_evolves r1 r2 → version_evolves r2 r3 → version_evolves r1 r3.
Proof.
  intros [E1 D1 (?&?&?) M1] [E2 D2 (?&?&?) M2]. split; [congruence| |split_and!; congruence|].
  - rewrite D2, D1 at 1. apply patch_cosmetics_other.
  - by eapply def_moves_trans.
Qed.

Lemma evolves_fields r r' :
  version_evolves r r' →
  def_id (dr_definition r') = def_id (dr_definition r) ∧
  def_version (dr_definition r') = def_version (dr_definition r) ∧
  def_tasks (dr_definition r') = def_tasks (dr_definition r).
Proof.
  intros [_ Hd _ _]. split_and!; [apply (f_equal def_id) in Hd|apply (f_equal def_version) in Hd|
                                  apply (f_equal def_tasks) in Hd]; exact Hd.
Qed.

(** *** Changing one version and its builds *)

Definition builds_agree (bs bs' : gmap ((Uuid * Z) * Uuid) (BuildRow Uuid)) k : Prop :=
  (∀ k' t, k' ≠ k → bst bs' k' t = bst bs k' t) ∧
  ∀ t, is_Some (bst bs' k t) ↔ is_Some (bst bs k t).

Lemma builds_agree_refl bs k : builds_agree bs bs k.
Proof. done. Qed.

Lemma bst_insert bs k t b k' t' :
  bst (<[(k, t) := b]> bs) k' t' = if bool_decide (k' = k ∧ t' = t) then Some (b_status b)
                                   else bst bs k' t'.
Proof.
  unfold bst. rewrite lookup_insert. case_decide as Hd; case_bool_decide as Hb; [done|..|done];
    exfalso; naive_solver.
Qed.

Lemma builds_agree_insert bs k t b :
  is_Some (bst bs k t) → builds_agree bs (<[(k, t) := b]> bs) k.
Proof.
  intros Hb. split; [intros k' t' Hne|intros t']; rewrite bst_insert; case_bool_decide; naive_solver.
Qed.

Lemma set_version_ok s k r r' bs' specs :
  def_store_ok s → workflows s !! k = Some r → version_evolves r r' →
  dr_name r' = def_name (dr_definition r') → builds_agree (def_builds s) bs' k →
  def_phase (bst bs' k) (dr_status r') → (dr_status r' ≠ Def_Ready → dr_lease r' = None) →
  def_store_ok (mkDefinitionStore (<[k := r']> (workflows s)) bs' specs).
Proof.
  intros [Hv Hfk] Hk Hev Hname [Hoth Hk'] Hph Hl.
  destruct (evolves_fields _ _ Hev) as (Heid & Hever & Hetasks). destruct Hev as [Hh _ _ _].
  assert (∀ k0 r0, <[k := r']> (workflows s) !! k0 = Some r0 → ∃ r1,
    workflows s !! k0 = Some r1 ∧ dr_content_hash r0 = dr_content_hash r1) as Hback.
  { intros k0 r0. rewrite lookup_insert_Some. intros [[<- <-]|[_ ?]]; eauto. }
  assert (∀ k0 r0, workflows s !! k0 = Some r0 → ∃ r1,
    <[k := r']> (workflows s) !! k0 = Some r1 ∧ dr_content_hash r1 = dr_content_hash r0) as Hfwd.
  { intros k0 r0 H0. destruct (decide (k = k0)) as [<-|Hne].
    - exists r'. rewrite lookup_insert_eq. split; [done|congruence].
    - exists r0. by rewrite lookup_insert_ne. }
  split; simpl.
  - intros k0 r0 H0. apply lookup_insert_Some in H0 as [[<- <-]|[Hne H0]].
    + destruct (Hv _ _ Hk) as [? Hver Hid Hprev _ Hparse Htasks _ _].
      split; simpl; unfold task_of; rewrite ?Heid, ?Hever, ?Hetasks; try done.
      * intros Hlt. destruct (Hprev Hlt) as (rp & Hp & Hne). apply Hfwd in Hp as (rp' & ? & Heq).
        exists rp'. split; [done|congruence].
      * intros t. rewrite Hk'. apply Htasks.
    + destruct (Hv _ _ H0) as [? Hver Hid Hprev ? ? Htasks Hphase ?]. split; simpl; try done.
      * intros Hlt. destruct (Hprev Hlt) as (rp & Hp & Hneq). apply Hfwd in Hp as (rp' & ? & Heq).
        exists rp'. split; [done|congruence].
      * intros t. rewrite Hoth by done. apply Htasks.
      * eapply def_phase_proper; [|done|exact Hphase]. intros t. by apply Hoth.
  - intros k0 t Hb. rewrite lookup_insert_is_Some'. destruct (decide (k = k0)) as [|Hne]; [by left|].
    right. apply (Hfk k0 t). by rewrite <- Hoth.
Qed.

(** ** Every transaction keeps the invariant and evolves the versions *)

Definition def_evolves s s' : Prop :=
  ∀ k r, workflows s !! k = Some r → ∃ r', workflows s' !! k = Some r' ∧ version_evolves r r'.

Definition sound s s' : Prop := def_store_ok s → def_store_ok s' ∧ def_evolves s s'.

Lemma def_evolves_refl s : def_evolves s s.
Proof. intros k r Hk. eauto using version_evolves_refl. Qed.

Lemma sound_refl s : sound s s.
Proof. intros Hok. split; [done|apply def_evolves_refl]. Qed.

Lemma sound_trans s1 s2 s3 : sound s1 s2 → sound s2 s3 → sound s1 s3.
Proof.
  intros S12 S23 Hok. destruct (S12 Hok) as [Hok2 E12]. destruct (S23 Hok2) as [Hok3 E23].
  split; [done|]. intros k r Hk. destruct (E12 _ _ Hk) as (r2 & Hr2 & ?).
  destruct (E23 _ _ Hr2) as (r3 & ? & ?). eauto using version_evolves_trans.
Qed.

Lemma sound_set s k r r' bs' specs :
  workflows s !! k = Some r → version_evolves r r' →
  (version_ok s k r → dr_name r' = def_name (dr_definition r') ∧
     builds_agree (def_builds s) bs' k ∧ def_phase (bst bs' k) (dr_status r') ∧
     (dr_status r' ≠ Def_Ready → dr_lease r' = None)) →
  sound s (mkDefinitionStore (<[k := r']> (workflows s)) bs' specs).
Proof.
  intros Hk Hev Hcond Hok. destruct (Hcond (do_versions _ Hok _ _ Hk)) as (?&?&?&?).
  split; [by eapply set_version_ok|]. intros k0 r0 Hr0. simpl.
  destruct (decide (k = k0)) as [<-|Hne].
  - rewrite lookup_insert_eq. simplify_eq. eauto.
  - rewrite lookup_insert_ne by done. eauto using version_evolves_refl.
Qed.

(** A change of the builds of one version only. *)
Lemma sound_builds s k r bs' :
  workflows s !! k = Some r →
  (version_ok s k r → builds_agree (def_builds s) bs' k ∧ def_phase (bst bs' k) (dr_status r)) →
  sound s (set_builds s bs').
Proof.
  intros Hk Hcond. unfold set_builds. rewrite <- (insert_id _ _ _ Hk) at 1.
  apply (sound_set s k r r); [done|apply version_evolves_refl|].
  intros Hvo. destruct (Hcond Hvo) as [? ?]. destruct Hvo. done.
Qed.

(** An update of one version that leaves the builds alone. *)
Lemma sound_update s k guard f ws :
  update_row (workflows s) k guard f = Some ws →
  (∀ r, guard r = true → version_evolves r (f r)) →
  (∀ r, version_ok s k r → guard r = true →
     dr_name (f r) = def_name (dr_definition (f r)) ∧
     def_phase (bst (def_builds s) k) (dr_status (f r)) ∧
     (dr_status (f r) ≠ Def_Ready → dr_lease (f r) = None)) →
  sound s (set_workflows s ws).
Proof.
  intros (r & Hk & Hg & ->)%update_row_Some Hev Hcond.
  apply (sound_set s k r (f r)); [done|auto|]. intros Hvo. destruct (Hcond r Hvo Hg) as (?&?&?). done.
Qed.

Lemma set_status_evolves r st now :
  def_moves (dr_status r) st → version_evolves r (set_def_status st now r).
Proof. intros Hm. split; [done|symmetry; apply patch_cosmetics_self|done|done]. Qed.

Lemma set_lease_evolves r lease : version_evolves r (set_def_lease lease r).
Proof. split; [done|symmetry; apply patch_cosmetics_self|done|constructor]. Qed.

(** *** Leases and submissions *)

Context (uuid_leb : Uuid → Uuid → bool) (fresh_token : nat → Uuid).

Lemma bst_same_status bs k t b b' :
  bs !! (k, t) = Some b → b_status b' = b_status b →
  ∀ k' t', bst (<[(k, t) := b']> bs) k' t' = bst bs k' t'.
Proof.
  intros Hb Hst k' t'. rewrite bst_insert. case_bool_decide as Hd; [|done].
  destruct Hd as [-> ->]. unfold bst. by rewrite Hb, Hst.
Qed.

Lemma lease_one_def_build_sound owner now expires kb st lease st' :
  lease_one_def_build fresh_token owner now expires kb st = Ok (lease, st') → sound st.1 st'.1.
Proof.
  destruct kb as [[k t] b0], st as [s n]. simpl.
  destruct (workflows s !! k) as [r|] eqn:Hk; [|done]. simpl.
  destruct (requeued_tasks _ _ _) as [ts|]; [|done]. simpl. destruct (last ts) as [task|]; [|done]. simpl.
  destruct (update_row _ _ _ _) as [bs|] eqn:Hu; [|done]. simpl. intros Heq. injection Heq as _ <-. simpl.
  apply update_row_Some in Hu as (b & Hb & _ & ->).
  apply (sound_builds _ _ _ _ Hk). intros Hvo.
  pose proof (bst_same_status _ _ _ _ (set_build_lease (Some (mkLease owner (fresh_token n) expires)) b)
                Hb eq_refl) as Hsame.
  split; [split; intros *; by rewrite ?Hsame|].
  eapply def_phase_proper; [|done|exact (vo_phase _ _ _ Hvo)]. intros t'. apply Hsame.
Qed.

Lemma lease_one_submission_sound owner now expires kr st lease st' :
  lease_one_submission fresh_token owner now expires kr st = Ok (lease, st') → sound st.1 st'.1.
Proof.
  destruct st as [s n]. simpl. destruct (update_row _ _ _ _) as [ws|] eqn:Hu; [|done]. simpl.
  intros Heq. injection Heq as _ <-. simpl. eapply sound_update; [done|intros; apply set_lease_evolves|].
  intros r [] [Hr%bool_decide_eq_true _]%andb_true_iff. simpl. rewrite Hr in *. done.
Qed.

Lemma traverse_sound {A B} (f : A → DefinitionStore (Uuid := Uuid) * nat → _) l st (bs : list B) st' :
  (∀ x st y st', f x st = Ok (y, st') → sound st.1 st'.1) →
  traverse (E := DefinitionStoreError) f l st = Ok (bs, st') → sound st.1 st'.1.
Proof.
  intros Hf. apply (traverse_inv f (λ st', sound st.1 st'.1)); [|apply sound_refl].
  intros x st1 y st2 Hs Hx. eapply sound_trans; eauto.
Qed.

Lemma lease_builds_sound s n owner now expires limit leases st' :
  lease_definition_build_tasks uuid_leb fresh_token s n owner now expires limit = Ok (leases, st') →
  sound s st'.1.
Proof.
  unfold lease_definition_build_tasks.
  destruct (validate_definition_build_lease_request _ _ _ _); [|done]. simpl. intros Ht.
  eapply (traverse_sound _ _ (s, n)); [|done]. apply lease_one_def_build_sound.
Qed.

Lemma lease_submissions_sound s n owner now expires limit leases st' :
  lease_definition_submissions uuid_leb fresh_token s n owner now expires limit = Ok (leases, st') →
  sound s st'.1.
Proof.
  unfold lease_definition_submissions.
  destruct (validate_definition_submission_lease_request _ _ _ _); [|done]. simpl. intros Ht.
  eapply (traverse_sound _ _ (s, n)); [|done]. apply lease_one_submission_sound.
Qed.

Lemma submit_sound s k guard now ws :
  update_row (workflows s) k (λ r, bool_decide (dr_status r = Def_Ready) && guard r)
    (λ r, set_def_lease None (set_def_status Def_Submitted now r)) = Some ws →
  sound s (set_workflows s ws).
Proof.
  intros Hu. eapply sound_update; [done| |].
  - intros r _. eapply version_evolves_trans; [|apply set_lease_evolves].
    apply set_status_evolves. constructor.
  - intros r [] [Hr%bool_decide_eq_true _]%andb_true_iff. simpl. rewrite Hr in *. done.
Qed.

Lemma settle_submission_sound s k now : sound s (settle_definition_submission s k now).2.
Proof.
  unfold settle_definition_submission.
  destruct (update_row _ _ _ _) as [ws|] eqn:Hu; [|apply sound_refl]. simpl.
  apply (submit_sound _ k (λ _, true) now). rewrite <- Hu. unfold update_row.
  destruct (workflows s !! k) as [r|]; [|done]. by rewrite andb_true_r.
Qed.

Lemma settle_leased_submission_sound s lease now :
  sound s (settle_leased_definition_submission s lease now).2.
Proof.
  unfold settle_leased_definition_submission.
  destruct (update_row _ _ _ _) as [ws|] eqn:Hu; [|apply sound_refl]. simpl.
  exact (submit_sound _ _ (λ r, lease_held _ _ now (dr_lease r)) now _ Hu).
Qed.

(** *** Settling a build *)

Lemma all_def_built_spec bs k :
  all_def_built bs k = true ↔ ∀ t st, bst bs k t = Some st → st = build_success.
Proof.
  unfold all_def_built. rewrite negb_true_iff, <- not_true_iff_false, existsb_exists. split.
  - intros Hn t st. unfold bst. destruct (bs !! (k, t)) as [b|] eqn:Hb; [|done].
    intros [= <-]. apply dec_stable. intros Hf. apply Hn. exists ((k, t), b).
    split; [by apply list_elem_of_In, elem_of_map_to_list|].
    unfold of_version. simpl. by rewrite bool_decide_eq_true_2, bool_decide_eq_false_2.
  - intros Hall ([[k' t] b] & Hin%list_elem_of_In%elem_of_map_to_list & Hk).
    unfold of_version in Hk. simpl in Hk. apply andb_true_iff in Hk as [->%bool_decide_eq_true Hst].
    rewrite bool_decide_eq_true_2 in Hst; [done|]. eapply (Hall t). unfold bst. by rewrite Hin.
Qed.

Lemma not_all_def_built bs k :
  all_def_built bs k = false → ∃ t st, bst bs k t = Some st ∧ st ≠ build_success.
Proof.
  unfold all_def_built. rewrite negb_false_iff, existsb_exists.
  intros ([[k' t] b] & Hin%list_elem_of_In%elem_of_map_to_list & Hk).
  unfold of_version in Hk. simpl in Hk. apply andb_true_iff in Hk as [->%bool_decide_eq_true Hst].
  exists t, (b_status b). unfold bst. rewrite Hin. split; [done|].
  by apply negb_true_iff, bool_decide_eq_false in Hst.
Qed.

(** The settlements that change something. *)
Definition def_settleable s k t guard at_ : Prop :=
  ∃ r b, workflows s !! k = Some r ∧ dr_status r = Def_Building ∧
         def_builds s !! (k, t) = Some b ∧ may_settle_def guard at_ b = true.

Lemma settle_def_won s k t result guard at_ r b :
  workflows s !! k = Some r → dr_status r = Def_Building →
  def_builds s !! (k, t) = Some b → may_settle_def guard at_ b = true →
  settle_def_build s k t result guard at_ =
    let bs := <[(k, t) := settled_def_build result at_ b]> (def_builds s) in
    match result with
    | DefTaskFailure _ =>
        (DefBuildSettled DefNowFailed,
         mkDefinitionStore (<[k := set_def_status Def_BuildFailed at_ r]> (workflows s)) bs (def_specs s))
    | DefTaskSuccess =>
        if all_def_built bs k
        then (DefBuildSettled (DefNowReady (submission_intent k r)),
              mkDefinitionStore (<[k := set_def_status Def_Ready at_ r]> (workflows s)) bs (def_specs s))
        else (DefBuildSettled DefAwaitingTasks, mkDefinitionStore (workflows s) bs (def_specs s))
    end.
Proof.
  intros Hk Hst Hb Hm. unfold settle_def_build, update_row. rewrite Hk, Hb, Hm. simpl.
  rewrite bool_decide_eq_true_2 by done. simpl. rewrite Hk.
  rewrite bool_decide_eq_true_2 by done. simpl. by destruct result; [destruct (all_def_built _ _)|].
Qed.

Lemma settle_def_lost s k t result guard at_ :
  ¬ def_settleable s k t guard at_ → (settle_def_build s k t result guard at_).2 = s.
Proof.
  intros Hn. unfold settle_def_build. destruct (workflows s !! k) as [r|] eqn:Hk; [|done].
  case_bool_decide as Hst; simpl; [|done].
  destruct (update_row _ _ _ _) as [bs|] eqn:Hu; [|done].
  apply update_row_Some in Hu as (b & Hb & Hm & _). exfalso. apply Hn. by exists r, b.
Qed.

Lemma settle_def_cases s k t guard at_ :
  def_settleable s k t guard at_ ∨ ¬ def_settleable s k t guard at_.
Proof.
  unfold def_settleable.
  destruct (workflows s !! k) as [r|]; [|right; intros (?&?&?&_); done].
  destruct (decide (dr_status r = Def_Building)); [|right; intros (?&?&?&?&_); by simplify_eq].
  destruct (def_builds s !! (k, t)) as [b|]; [|right; intros (?&?&?&?&?&_); done].
  destruct (may_settle_def guard at_ b) eqn:Hm; [left; eauto 10|right].
  intros (?&?&?&?&?&?). simplify_eq. congruence.
Qed.

Lemma settle_def_build_sound s k t result guard at_ :
  sound s (settle_def_build s k t result guard at_).2.
Proof.
  destruct (settle_def_cases s k t guard at_) as [(r & b & Hk & Hst & Hb & Hm)|Hn];
    [|rewrite settle_def_lost by done; apply sound_refl].
  rewrite (settle_def_won _ _ _ _ _ _ r b) by done. cbv zeta.
  set (bs := <[(k, t) := settled_def_build result at_ b]> (def_builds s)).
  assert (builds_agree (def_builds s) bs k) as Hagree.
  { apply builds_agree_insert. unfold bst. rewrite Hb. eauto. }
  assert (bst bs k t = Some (b_status (settled_def_build result at_ b))) as Ht.
  { unfold bs. rewrite bst_insert. by rewrite bool_decide_eq_true_2. }
  destruct result as [|error].
  - destruct (all_def_built bs k) eqn:Hall; simpl.
    + eapply sound_set; [done|apply set_status_evolves; rewrite Hst; constructor|].
      intros []. simpl. split; [done|]. split; [done|]. split; [|done].
      split; [by exists t|by apply all_def_built_spec].
    + apply (sound_builds s k r bs Hk). intros [_ _ _ _ _ _ _ Hph _]. split; [done|].
      rewrite Hst in Hph |- *. destruct Hph as [_ Hnf].
      assert (∀ t', bst bs k t' ≠ Some build_failure) as Hnf'.
      { intros t'. unfold bs. rewrite bst_insert. case_bool_decide; [done|apply Hnf]. }
      split; [left|exact Hnf']. destruct (not_all_def_built _ _ Hall) as (t' & st & Hst' & Hne).
      exists t'. destruct st; [done|done|by apply Hnf' in Hst'].
  - simpl. eapply sound_set; [done|apply set_status_evolves; rewrite Hst; constructor|].
    intros [_ _ _ _ Hname _ _ _ Hlease]. simpl. split_and!; try done.
    + by exists t.
    + intros _. apply Hlease. by rewrite Hst.
Qed.

(** *** Registering *)

Lemma refresh_sound s now k input : sound s (refresh s now k input).
Proof.
  unfold refresh. destruct (workflows s !! k) as [r|] eqn:Hk.
  2: { unfold set_workflows. rewrite alter_id; [destruct s; apply sound_refl|]. by rewrite Hk. }
  set (f := λ r, _). assert (alter f k (workflows s) = <[k := f r]> (workflows s)) as ->.
  { apply map_eq. intros k'. rewrite lookup_alter, lookup_insert.
    case_decide; [subst; by rewrite Hk|done]. }
  apply (sound_set s k r (f r)); [done| |].
  - split; [done|done|done|constructor].
  - intros []. done.
Qed.

Definition requeue_status (st : BuildStatus) : BuildStatus :=
  match st with build_failure => build_pending | st => st end.

Lemma requeue_sound s now k tasks s' r :
  workflows s !! k = Some r → dr_status r = Def_BuildFailed →
  requeue s now k = Ok (tasks, s') → sound s s'.
Proof.
  intros Hk Hst (r' & Hk' & _ & Hsp & Hws & Hbs)%requeue_inv. rewrite Hk in Hk'. injection Hk' as <-.
  rewrite bool_decide_eq_true_2 in Hws by done.
  assert (∀ k' t, bst (def_builds s') k' t =
            if bool_decide (k' = k) then requeue_status <$> bst (def_builds s) k t
            else bst (def_builds s) k' t) as Hb.
  { intros k' t. unfold bst. rewrite Hbs. unfold of_version. simpl.
    case_bool_decide as Heq; [subst k'|]; destruct (def_builds s !! _) as [b|]; try done. simpl.
    unfold requeue_build. by destruct (b_status b) eqn:Hb; simpl; rewrite ?Hb. }
  destruct s' as [ws' bs' sp']. simpl in *. subst ws'.
  eapply sound_set; [done|apply set_status_evolves; rewrite Hst; constructor|].
  intros [_ _ _ _ Hname _ _ Hph Hlease]. simpl. split; [done|]. split; [|split].
  - split.
    + intros k' t Hne. rewrite Hb. by rewrite bool_decide_eq_false_2.
    + intros t. rewrite Hb, bool_decide_eq_true_2 by done. by rewrite fmap_is_Some.
  - rewrite Hst in Hph. destruct Hph as [t Ht]. split.
    + left. exists t. rewrite Hb, bool_decide_eq_true_2, Ht by done. done.
    + intros t'. rewrite Hb, bool_decide_eq_true_2 by done.
      destruct (bst (def_builds s) k t') as [[]|]; done.
  - intros _. apply Hlease. by rewrite Hst.
Qed.

Lemma task_ids_task_of def ids t : task_ids def = Ok ids → t ∈ ids ↔ task_of def t.
Proof.
  intros Hids%collect_ok. unfold task_of. split.
  - intros (i & Hi)%list_elem_of_lookup. eapply Forall2_lookup_r in Hids as (task & Htask & Hp); [|done].
    exists task. split; [by eapply list_elem_of_lookup_2|]. unfold parse_id, ok_or in Hp. by case_match; simplify_eq.
  - intros (task & (i & Hi)%list_elem_of_lookup & Hp).
    eapply Forall2_lookup_l in Hids as (t' & Ht' & Hp'); [|done]. unfold parse_id in Hp'.
    rewrite Hp in Hp'. simpl in Hp'. injection Hp' as <-. by eapply list_elem_of_lookup_2.
Qed.

Lemma task_ids_parse def ids :
  task_ids def = Ok ids → ∀ task, task ∈ def_tasks def → is_Some (uuid_parse_str (task_id task) : option Uuid).
Proof.
  intros Hids%collect_ok task (i & Hi)%list_elem_of_lookup.
  eapply Forall2_lookup_l in Hids as (t & _ & Hp); [|done]. unfold parse_id, ok_or in Hp.
  case_match; [eauto|done].
Qed.

Lemma task_ids_length def ids : task_ids def = Ok ids → length ids = length (def_tasks def).
Proof. apply collect_length. Qed.

Lemma inserted_version_pos s id input v :
  def_store_ok s → decision_ok input (latest s id) (DecideInsert v) → (1 <= v)%Z.
Proof.
  intros Hok [[_ ->]|(k & r & Hl & -> & _)]; [done|].
  apply latest_Some in Hl as (_ & Hk & _). pose proof (vo_pos _ _ _ (do_versions _ Hok _ _ Hk)). lia.
Qed.

Lemma inserted_builds s now input id ids v s' :
  def_store_ok s → workflows s !! (id, v) = None → task_ids (reg_definition input) = Ok ids →
  ∀ row, insert_builds (set_workflows s (<[(id, v) := row]> (workflows s))) (id, v) now
           (zip (def_tasks (reg_definition input)) ids) = Ok s' →
  workflows s' = <[(id, v) := row]> (workflows s) ∧
  (∀ k t, k ≠ (id, v) → bst (def_builds s') k t = bst (def_builds s) k t) ∧
  (∀ t, t ∈ ids → bst (def_builds s') (id, v) t = Some build_pending) ∧
  (∀ t, t ∉ ids → bst (def_builds s') (id, v) t = None).
Proof.
  intros Hok Hnew Hids row (Hws & _ & Hin & Hout)%insert_builds_spec. simpl in *.
  rewrite snd_zip in Hin, Hout by (rewrite (task_ids_length _ _ Hids); done).
  assert (∀ t, bst (def_builds s) (id, v) t = None) as Hnone.
  { intros t. destruct (bst _ _ _) eqn:Hb; [|done].
    destruct (do_foreign_key _ Hok (id, v) t) as [r Hr]; [eauto|]. by rewrite Hnew in Hr. }
  split_and!; [done| | |].
  - intros k t Hne. unfold bst. rewrite Hout; [done|]. by intros (?&[= ? ?]&_)%list_elem_of_fmap.
  - intros t Ht. unfold bst. apply Hin in Ht as [_ ->]. done.
  - intros t Ht. unfold bst. rewrite Hout; [apply Hnone|]. by intros (?&[= <-]&?)%list_elem_of_fmap.
Qed.

Lemma insert_sound s now input id ids v o s' :
  uuid_parse_str (def_id (reg_definition input)) = Some id →
  task_ids (reg_definition input) = Ok ids → decision_ok input (latest s id) (DecideInsert v) →
  insert_version s now input id ids v = Ok (o, s') → sound s s'.
Proof.
  intros Hid Hids Hd (Hnew & _ & Hins)%insert_version_inv Hok.
  destruct (inserted_builds _ _ _ _ _ _ _ Hok Hnew Hids _ Hins) as (Hws & Hoth & Hpend & Hnone).
  assert (def_evolves s s') as Hev.
  { intros k r Hk. exists r. split; [|apply version_evolves_refl]. rewrite Hws, lookup_insert_ne; [done|].
    intros <-. by rewrite Hnew in Hk. }
  split; [|done]. split.
  - intros k r. rewrite Hws, lookup_insert_Some. intros [[<- <-]|[Hne Hk]].
    + split; simpl; try done.
      * by eapply inserted_version_pos.
      * intros Hlt. destruct Hd as [[_ ->]|(k & r & Hl & -> & Hne)]; [lia|].
        apply latest_Some in Hl as (<- & Hk & _). destruct (Hev _ _ Hk) as (r' & Hr' & [Hh _ _ _]).
        exists r'. replace (k.2 + 1 - 1)%Z with k.2 by lia. split; [by destruct k|congruence].
      * by apply task_ids_parse with ids.
      * intros t. change (task_of (set_version (reg_definition input) v) t)
          with (task_of (reg_definition input) t). rewrite <- (task_ids_task_of _ _ _ Hids).
        destruct (decide (t ∈ ids)) as [Ht|Ht]; [rewrite Hpend by done; naive_solver eauto|].
        rewrite Hnone by done. split; [by intros [? ?]|done].
      * split.
        -- destruct ids as [|t ids]; [right; intros t; by apply Hnone, not_elem_of_nil|].
           left. exists t. apply Hpend. left.
        -- intros t. destruct (decide (t ∈ ids)) as [Ht|Ht]; [by rewrite Hpend|by rewrite Hnone].
    + destruct (do_versions _ Hok _ _ Hk) as [? ? ? Hprev ? ? Htasks Hph ?]. split; try done.
      * intros Hlt. destruct (Hprev Hlt) as (rp & Hp & Hneq).
        destruct (Hev _ _ Hp) as (rp' & ? & [Hh _ _ _]). exists rp'. split; [done|congruence].
      * intros t. rewrite Hoth by done. apply Htasks.
      * eapply def_phase_proper; [|done|exact Hph]. intros t. by apply Hoth.
  - intros k t Hb. rewrite Hws, lookup_insert_is_Some'. destruct (decide ((id, v) = k)); [by left|right].
    apply (do_foreign_key _ Hok k t). by rewrite <- Hoth.
Qed.

Lemma register_sound s now input o s' : register_definition s now input = Ok (o, s') → sound s s'.
Proof.
  unfold register_definition, parse_id. destruct (uuid_parse_str _) as [id|] eqn:Hid; [|done]. simpl.
  destruct (task_ids _) as [ids|] eqn:Hids; [|done]. simpl.
  pose proof (decide_registration_ok input (latest s id)) as Hd.
  destruct (decide_registration _ _) as [v|v|v|v].
  - by apply insert_sound.
  - intros Heq. injection Heq as _ <-. apply refresh_sound.
  - destruct Hd as (k & r & (<- & Hk & _)%latest_Some & -> & _ & Hst).
    destruct (requeue _ _ _) as [[ts s1]|] eqn:Hr; [|done]. simpl. intros Heq. injection Heq as _ <-.
    eapply requeue_sound; [|done|done]. by destruct k.
  - intros Heq. injection Heq as _ <-. apply sound_refl.
Qed.

(** ** Steps *)

(** What the workers do. *)
Inductive worker_step : DefinitionStore (Uuid := Uuid) → DefinitionStore (Uuid := Uuid) → Prop :=
| step_lease_builds s n owner now expires limit leases s' n' :
    lease_definition_build_tasks uuid_leb fresh_token s n owner now expires limit
      = Ok (leases, (s', n')) → worker_step s s'
| step_settle_build s k t result guard at_ :
    worker_step s (settle_def_build s k t result guard at_).2
| step_lease_submissions s n owner now expires limit leases s' n' :
    lease_definition_submissions uuid_leb fresh_token s n owner now expires limit
      = Ok (leases, (s', n')) → worker_step s s'
| step_settle_submission s k now : worker_step s (settle_definition_submission s k now).2
| step_settle_leased_submission s lease now :
    worker_step s (settle_leased_definition_submission s lease now).2.

Inductive def_step : DefinitionStore (Uuid := Uuid) → DefinitionStore (Uuid := Uuid) → Prop :=
| def_step_register s now input o s' :
    register_definition s now input = Ok (o, s') → def_step s s'
| def_step_worker s s' : worker_step s s' → def_step s s'.

Definition def_reachable s : Prop := rtc def_step empty_definition_store s.

Lemma worker_step_sound s s' : worker_step s s' → sound s s'.
Proof.
  destruct 1 as [? ? ? ? ? ? ? ? ? Hl| |? ? ? ? ? ? ? ? ? Hl| |].
  - by apply lease_builds_sound in Hl.
  - apply settle_def_build_sound.
  - by apply lease_submissions_sound in Hl.
  - apply settle_submission_sound.
  - apply settle_leased_submission_sound.
Qed.

Lemma def_step_sound s s' : def_step s s' → sound s s'.
Proof. destruct 1; [by eapply register_sound|by apply worker_step_sound]. Qed.

Lemma def_steps_sound s s' : rtc def_step s s' → sound s s'.
Proof. induction 1; [apply sound_refl|]. eauto using sound_trans, def_step_sound. Qed.

Lemma def_reachable_ok s : def_reachable s → def_store_ok s.
Proof. intros Hr. apply (def_steps_sound _ _ Hr), empty_def_store_ok. Qed.

(** ** What the workers leave alone *)

Definition same_definition r r' : Prop :=
  dr_definition r' = dr_definition r ∧ dr_content_hash r' = dr_content_hash r ∧
  dr_cosmetic_hash r' = dr_cosmetic_hash r.

Definition keeps_definitions s s' : Prop :=
  ∀ k r', workflows s' !! k = Some r' → ∃ r, workflows s !! k = Some r ∧ same_definition r r'.

Lemma keeps_definitions_same s s' : workflows s' = workflows s → keeps_definitions s s'.
Proof. intros Heq k r'. rewrite Heq. unfold same_definition. eauto. Qed.

Lemma keeps_definitions_trans s1 s2 s3 :
  keeps_definitions s1 s2 → keeps_definitions s2 s3 → keeps_definitions s1 s3.
Proof.
  intros K12 K23 k r3 (r2 & (r1 & ? & ? & ? & ?)%K12 & ? & ? & ?)%K23.
  exists r1. unfold same_definition. split_and!; congruence.
Qed.

Lemma keeps_definitions_set s s' k r r' :
  workflows s !! k = Some r → same_definition r r' → workflows s' = <[k := r']> (workflows s) →
  keeps_definitions s s'.
Proof.
  intros Hk Hs Hws k' r''. rewrite Hws, lookup_insert_Some. unfold same_definition.
  intros [[<- <-]|[_ ?]]; eauto.
Qed.

Lemma keeps_definitions_update s k guard f ws :
  update_row (workflows s) k guard f = Some ws → (∀ r, same_definition r (f r)) →
  keeps_definitions s (set_workflows s ws).
Proof. intros (r & Hk & _ & ->)%update_row_Some Hf. by eapply keeps_definitions_set. Qed.

Lemma traverse_keeps {A B} (f : A → DefinitionStore (Uuid := Uuid) * nat → _) l st (bs : list B) st' :
  (∀ x st y st', f x st = Ok (y, st') → keeps_definitions st.1 st'.1) →
  traverse (E := DefinitionStoreError) f l st = Ok (bs, st') → keeps_definitions st.1 st'.1.
Proof.
  intros Hf. apply (traverse_inv f (λ st', keeps_definitions st.1 st'.1)).
  - intros x st1 y st2 Hs Hx. eapply keeps_definitions_trans; eauto.
  - by apply keeps_definitions_same.
Qed.

Lemma worker_step_keeps s s' : worker_step s s' → keeps_definitions s s'.
Proof.
  destruct 1 as [s n owner now expires limit leases s' n' Hl|s k t result guard at_|
                 s n owner now expires limit leases s' n' Hl|s k now|s lease now].
  - unfold lease_definition_build_tasks in Hl.
    destruct (validate_definition_build_lease_request _ _ _ _); [|done]. simpl in Hl.
    eapply (traverse_keeps _ _ (s, n)) in Hl; [done|]. intros [[k t] b] [s1 n1] y st2. simpl.
    destruct (workflows s1 !! k); [|done]. simpl. destruct (requeued_tasks _ _ _) as [ts|]; [|done]. simpl.
    destruct (last ts); [|done]. simpl. destruct (update_row _ _ _ _); [|done]. simpl.
    intros Heq. injection Heq as _ <-. by apply keeps_definitions_same.
  - destruct (settle_def_cases s k t guard at_) as [(r & b & Hk & Hst & Hb & Hm)|Hn].
    + rewrite (settle_def_won _ _ _ _ _ _ r b) by done. destruct result; simpl.
      * destruct (all_def_built _ _); [|by apply keeps_definitions_same].
        eapply keeps_definitions_set; [done| |done]. done.
      * eapply keeps_definitions_set; [done| |done]. done.
    + rewrite settle_def_lost by done. by apply keeps_definitions_same.
  - unfold lease_definition_submissions in Hl.
    destruct (validate_definition_submission_lease_request _ _ _ _); [|done]. simpl in Hl.
    eapply (traverse_keeps _ _ (s, n)) in Hl; [done|]. intros kr [s1 n1] y st2. simpl.
    destruct (update_row _ _ _ _) eqn:Hu; [|done]. simpl. intros Heq. injection Heq as _ <-.
    by eapply keeps_definitions_update.
  - unfold settle_definition_submission. destruct (update_row _ _ _ _) eqn:Hu; simpl;
      [by eapply keeps_definitions_update|by apply keeps_definitions_same].
  - unfold settle_leased_definition_submission. destruct (update_row _ _ _ _) eqn:Hu; simpl;
      [by eapply keeps_definitions_update|by apply keeps_definitions_same].
Qed.

(** ** What the workers use up *)

(** A version on its way: its builds can be settled or it can be forwarded. *)
Definition active (r : DefinitionRow Uuid) : bool :=
  match dr_status r with
  | Def_Ready => true
  | Def_Building => match def_tasks (dr_definition r) with [] => false | _ => true end
  | _ => false
  end.

Definition waiting (b : BuildRow Uuid) : bool := bool_decide (b_status b = build_pending).

(** No version and no build is added to those on their way. *)
Record uses_up s s' : Prop := {
  uu_versions : ∀ k r', workflows s' !! k = Some r' → active r' = true →
    ∃ r, workflows s !! k = Some r ∧ active r = true;
  uu_builds : ∀ kt b', def_builds s' !! kt = Some b' → waiting b' = true →
    ∃ b, def_builds s !! kt = Some b ∧ waiting b = true
}.

#[export] Instance uses_up_preorder : PreOrder uses_up.
Proof.
  split.
  - intros s. split; eauto.
  - intros s1 s2 s3 [V1 B1] [V2 B2]. split.
    + intros k r Hr Ha. destruct (V2 _ _ Hr Ha) as (r2 & Hr2 & Ha2). eauto.
    + intros kt b Hb Hw. destruct (B2 _ _ Hb Hw) as (b2 & Hb2 & Hw2). eauto.
Qed.

(** One row of each table may change. *)
Lemma uses_up_version s k r r' bs specs :
  workflows s !! k = Some r → (active r' = true → active r = true) →
  uses_up (mkDefinitionStore (workflows s) bs specs) (mkDefinitionStore (<[k := r']> (workflows s)) bs specs).
Proof.
  intros Hk Ha. split; simpl; [|eauto]. intros k' r0. rewrite lookup_insert_Some.
  intros [[<- <-]|[_ ?]]; eauto.
Qed.

Lemma uses_up_build s kt b b' :
  def_builds s !! kt = Some b → (waiting b' = true → waiting b = true) →
  uses_up s (set_builds s (<[kt := b']> (def_builds s))).
Proof.
  intros Hk Ha. split; simpl; [eauto|]. intros kt' b0. rewrite lookup_insert_Some.
  intros [[<- <-]|[_ ?]]; eauto.
Qed.

Lemma uses_up_update s k guard f ws :
  update_row (workflows s) k guard f = Some ws →
  (∀ r, guard r = true → active (f r) = true → active r = true) → uses_up s (set_workflows s ws).
Proof.
  intros (r & Hk & Hg & ->)%update_row_Some Hf. destruct s as [ws0 bs specs].
  apply (uses_up_version (mkDefinitionStore ws0 bs specs) k r (f r) bs specs); auto.
Qed.

Lemma settle_def_uses_up s k t result guard at_ :
  def_store_ok s → uses_up s (settle_def_build s k t result guard at_).2.
Proof.
  intros Hok. destruct (settle_def_cases s k t guard at_) as [(r & b & Hk & Hst & Hb & Hm)|Hn];
    [|by rewrite settle_def_lost].
  assert (waiting b = true) as Hw by by apply andb_true_iff in Hm as [? _].
  assert (active r = true) as Hact.
  { destruct (proj1 (vo_tasks _ _ _ (do_versions _ Hok _ _ Hk) t)) as (task & Hin & _).
    { unfold bst. rewrite Hb. eauto. }
    unfold active. rewrite Hst. by destruct (def_tasks (dr_definition r)); [apply elem_of_nil in Hin|]. }
  rewrite (settle_def_won _ _ _ _ _ _ r b) by done. cbv zeta.
  set (bs := <[(k, t) := settled_def_build result at_ b]> (def_builds s)).
  assert (uses_up s (mkDefinitionStore (workflows s) bs (def_specs s))) as Hbs by by eapply uses_up_build.
  destruct result; [destruct (all_def_built bs k)|]; simpl; [|exact Hbs|];
    (etrans; [exact Hbs|]; by eapply uses_up_version).
Qed.

Lemma traverse_uses_up {A B} (f : A → DefinitionStore (Uuid := Uuid) * nat → _) l st (bs : list B) st' :
  (∀ x st y st', f x st = Ok (y, st') → uses_up st.1 st'.1) →
  traverse (E := DefinitionStoreError) f l st = Ok (bs, st') → uses_up st.1 st'.1.
Proof.
  intros Hf. apply (traverse_inv f (λ st', uses_up st.1 st'.1)); [|reflexivity].
  intros x st1 y st2 Hs Hx. etrans; [exact Hs|eauto].
Qed.

Lemma lease_def_builds_use_up s n owner now expires limit leases st' :
  lease_definition_build_tasks uuid_leb fresh_token s n owner now expires limit = Ok (leases, st') →
  uses_up s st'.1.
Proof.
  unfold lease_definition_build_tasks.
  destruct (validate_definition_build_lease_request _ _ _ _); [|done]. simpl. intros Ht.
  eapply (traverse_uses_up _ _ (s, n)); [|done]. intros [[k t] b] [s1 n1] y st2. simpl.
  destruct (workflows s1 !! k); [|done]. simpl. destruct (requeued_tasks _ _ _) as [ts|]; [|done]. simpl.
  destruct (last ts); [|done]. simpl. destruct (update_row _ _ _ _) as [bs|] eqn:Hu; [|done]. simpl.
  intros Heq. injection Heq as _ <-. apply update_row_Some in Hu as (b1 & Hb1 & _ & ->).
  by eapply uses_up_build.
Qed.

Lemma lease_submissions_use_up s n owner now expires limit leases st' :
  lease_definition_submissions uuid_leb fresh_token s n owner now expires limit = Ok (leases, st') →
  uses_up s st'.1.
Proof.
  unfold lease_definition_submissions.
  destruct (validate_definition_submission_lease_request _ _ _ _); [|done]. simpl. intros Ht.
  eapply (traverse_uses_up _ _ (s, n)); [|done]. intros kr [s1 n1] y st2. simpl.
  destruct (update_row _ _ _ _) eqn:Hu; [|done]. simpl. intros Heq. injection Heq as _ <-.
  by eapply uses_up_update.
Qed.

Lemma worker_step_uses_up s s' : def_store_ok s → worker_step s s' → uses_up s s'.
Proof.
  intros Hok. destruct 1 as [s n owner now expires limit leases s' n' Hl|s k t result guard at_|
    s n owner now expires limit leases s' n' Hl|s k now|s lease now].
  - by apply lease_def_builds_use_up in Hl.
  - by apply settle_def_uses_up.
  - by apply lease_submissions_use_up in Hl.
  - unfold settle_definition_submission. destruct (update_row _ _ _ _) eqn:Hu; simpl; [|done].
    by eapply uses_up_update.
  - unfold settle_leased_definition_submission. destruct (update_row _ _ _ _) eqn:Hu; simpl; [|done].
    by eapply uses_up_update.
Qed.
End facts.
