(* ===== verification/SignalPipelines.v ===== *)
(** * The signal pipelines

    How the conductor turns a producer's intent into signals for the server:
    [trigger_pipeline.rs], [wakeup_translator.rs], [cancel_pipeline.rs], the
    writers of captured values ([signal_captures.rs], [scope_working_set.rs]),
    [instance_creation_linkage.rs] and [signal_captures_cleanup.rs].  The functions
    are programs over one store: the SQL tables, the key-value buckets and the
    indexes the process keeps in memory.  JSON text, RFC 3339 text, JSONPath and
    the digests are parameters. *)

From S2P Require Import Prelude Workflow Json Uuid Captures GateIndex SubscriptionIndex Programs Workers Idempotency DefinitionStore SignalMessages Sha256 SignalStore ScopeStore.

(** What the conductor links against: JSON, JSONPath, RFC 3339, digests, protobuf,
    random and derived uuids; [kv_valid_key] is the check of the key-value client. *)
Class Runtime (Uuid JsonPath : Type) := {
  parse_path : string → option JsonPath;
  query : JsonPath → Json → list Json;
  from_slice : string → result Json string;
  serde_message : string → Json → string;
  value_to_string : Json → string;
  canonical_hash : Json → list N;
  rfc3339 : Z → string;
  parse_rfc3339 : string → option Z;
  time_value : Z → Json;
  sha256 : string → list N;
  hex : list N → string;
  digest : list Z → string;
  uuid_leb : Uuid → Uuid → bool;
  fresh : nat → Uuid;
  scheduled_instance_id : Uuid → Z → Uuid;
  uuid_bytes : Uuid → list Z;
  parse_json : list Z → option Json;
  encode_envelope : Envelope Uuid → list Z;
  encode_captures : list (string * Envelope Uuid) → string;
  captures_value : list (string * Envelope Uuid) → Json;
  decode_envelopes : Json → option (list (string * Envelope Uuid));
  encode_signal : Signal → string;
  decode_signal : string → option Signal;
  encode_gate : GateOutcome → string;
  decode_gate : string → option GateOutcome;
  encode_intents : list RelayIntent → string;
  kv_valid_key : string → bool
}.

Section pipelines.
Context `{UuidOps Uuid} `{!Countable Uuid} {JsonPath : Type} `{!Runtime Uuid JsonPath}.

Definition sha256_hex (text : string) : string := hex (sha256 text).

(** ** The world *)

(** [ctx_bucket] is the bucket of the namespace [default], once it exists. *)
Record SignalState := mkSignalState {
  definitions : DefinitionStore (Uuid := Uuid);
  audit : SignalStore Uuid;
  idempotency_bucket : Bucket (BucketValue Uuid);
  ctx_bucket : option (gmap string (list Z));
  scope_tables : ScopeTables Uuid;
  gates : Inner (Uuid := Uuid) (JsonPath := JsonPath);
  subscribers : SubInner (Uuid := Uuid) (JsonPath := JsonPath);
  drawn : nat
}.

Definition set_audit (a : SignalStore Uuid) (s : SignalState) : SignalState :=
  mkSignalState (definitions s) a (idempotency_bucket s) (ctx_bucket s) (scope_tables s) (gates s)
    (subscribers s) (drawn s).
Definition set_ctx (b : option (gmap string (list Z))) (s : SignalState) : SignalState :=
  mkSignalState (definitions s) (audit s) (idempotency_bucket s) b (scope_tables s) (gates s)
    (subscribers s) (drawn s).
Definition set_gates (g : Inner (Uuid := Uuid) (JsonPath := JsonPath)) (s : SignalState) : SignalState :=
  mkSignalState (definitions s) (audit s) (idempotency_bucket s) (ctx_bucket s) (scope_tables s) g
    (subscribers s) (drawn s).

(** What a store refuses. *)
Inductive Refusal :=
| Refused_Kv (e : KvError)
| Refused_NoBucket
| Refused_Signal (e : SignalError)
| Refused_Scope (e : ScopeRepositoryError).

#[global] Program Instance signal_bucket_store : BucketStore Uuid SignalState Refusal := {
  get_bucket := idempotency_bucket;
  set_bucket b s := mkSignalState (definitions s) (audit s) b (ctx_bucket s) (scope_tables s) (gates s)
                      (subscribers s) (drawn s);
  draw s := (fresh (drawn s), mkSignalState (definitions s) (audit s) (idempotency_bucket s) (ctx_bucket s)
                                (scope_tables s) (gates s) (subscribers s) (S (drawn s)));
  valid_bucket_key := kv_valid_key;
  kv_error := Refused_Kv
}.
Solve All Obligations with done.

(** What leaves the conductor: to the relay ([send_signal] waits for room in its
    queue, [try_send_signal] does not), and to the stream an event came from. *)
Inductive Outgoing :=
| Out_Signal (s : Signal)
| Out_GateOutcome (o : GateOutcome)
| Out_TrySignal (s : Signal)
| Out_TryGateOutcome (o : GateOutcome)
| Out_Ack (sequence : Z)
| Out_Nak (sequence : Z).

Abbreviation await := (Await SignalState Outgoing Refusal Uuid).
Abbreviation failure := (RepositoryError Refusal).
Abbreviation program A := (prog await failure A).
Abbreviation envelope := (Envelope Uuid).

Definition on_audit {X} (f : Z → SignalStore Uuid → result (X * SignalStore Uuid) SignalError) (now : Z)
    (s : SignalState) : result (X * SignalState) Refusal :=
  let? r := map_err Refused_Signal (f now (audit s)) in Ok (r.1, set_audit r.2 s).

(** ** Captured values *)

(** [signal_captures::insert] *)
Definition insert_captures (signal_id workflow_id : Uuid) (version : option Z) (captures : list (string * envelope))
    : program (result unit failure) :=
  let*? _ := call (Transact (on_audit (λ now a,
    insert_signal_captures now (mkSignalCapturesInput signal_id workflow_id version (captures_value captures)) a))) in
  Ret (Ok tt).

(** A character outside the safe set becomes an underscore; the bytes that go on
    with a character of several are part of it. *)
Definition safe_char (c : ascii) : bool :=
  let n := nat_of_ascii c in
  (65 <=? n) && (n <=? 90) || (97 <=? n) && (n <=? 122) || (48 <=? n) && (n <=? 57) ||
  bool_decide (c ∈ ["_"; "="; "."; "-"]%char).

Fixpoint sanitize_segment (s : string) : string :=
  match s with
  | EmptyString => EmptyString
  | String c s =>
      let n := nat_of_ascii c in
      if (128 <=? n) && (n <? 192) then sanitize_segment s
      else String (if safe_char c then c else "_") (sanitize_segment s)
  end.

Definition get_ctx_bucket : program (result unit failure) :=
  call (Transact (λ _ s, match ctx_bucket s with Some _ => Ok (tt, s) | None => Err Refused_NoBucket end)).
Definition create_ctx_bucket : program (result unit failure) :=
  call (Transact (λ _ s, Ok (tt, set_ctx (Some (default ∅ (ctx_bucket s))) s))).

Definition open_ctx_bucket : program (result unit failure) :=
  let* got := get_ctx_bucket in
  match got with Ok _ => Ret (Ok tt) | Err _ => create_ctx_bucket end.

(** An operation of the bucket under a key: the client refuses the key, or there is
    no bucket. *)
Definition on_ctx {X} (key : string) (f : gmap string (list Z) → result (X * gmap string (list Z)) Refusal) (_ : Z)
    (s : SignalState) : result (X * SignalState) Refusal :=
  if negb (kv_valid_key key) then Err (Refused_Kv KvInvalidKey)
  else
    match ctx_bucket s with
    | None => Err Refused_NoBucket
    | Some b => let? r := f b in Ok (r.1, set_ctx (Some r.2) s)
    end.

(** [max_value_size] of the bucket: one mebibyte. *)
Definition MAX_VALUE_SIZE : Z := 1024 * 1024.

Definition ctx_put (key : string) (value : list Z) : program (result unit failure) :=
  call (Transact (on_ctx key (λ b,
    if (MAX_VALUE_SIZE <? Z.of_nat (length value))%Z then Err (Refused_Kv KvTooLarge) else Ok (tt, <[key := value]> b)))).

Definition ctx_get (key : string) : program (result (option (list Z)) failure) :=
  call (Transact (on_ctx key (λ b, Ok (b !! key, b)))).

Definition ctx_delete (key : string) : program (result unit failure) :=
  call (Transact (on_ctx key (λ b, Ok (tt, delete key b)))).

Definition capture_key (signal_id : Uuid) (name : string) : string :=
  sanitize_segment (uuid_to_string signal_id) +:+ "/" +:+ name.

Fixpoint put_captures (signal_id : Uuid) (captures : list (string * envelope)) : program (result unit failure) :=
  match captures with
  | [] => Ret (Ok tt)
  | (name, e) :: rest =>
      let*? _ := ctx_put (capture_key signal_id name) (encode_envelope e) in
      put_captures signal_id rest
  end.

Definition write_captures_to_nats (signal_id : Uuid) (captures : list (string * envelope))
    : program (result unit failure) :=
  match captures with
  | [] => Ret (Ok tt)
  | _ => let*? _ := open_ctx_bucket in put_captures signal_id captures
  end.

(** *** [scope_working_set.rs] *)

(** The selected scope store: the two operations of the role that are used here. *)
Record ScopeStoreOps := mkScopeStoreOps {
  so_create : CreateTickrCtxScopeInput Uuid → program (result (ScopeCreationOutcome (Uuid := Uuid)) failure);
  so_write : WriteTickrCtxScopeInput Uuid → program (result (ScopeWriteOutcome (Uuid := Uuid)) failure)
}.

(** [Uuid::new_v5] under the operation's owner of the digest of the keys. *)
Definition claim_identity (keys : list string) : list Z :=
  bytes_of "tickr-scope-event-capture-v1" ++ [0%Z] ++
  mjoin ((λ k, to_be_bytes 8 (str_len k) ++ bytes_of k) <$> keys).

Definition capture_claim_id (operation_owner : Uuid) (keys : list string) : Uuid :=
  uuid_new_v5 operation_owner (digest (claim_identity keys)).

Inductive WriteError :=
| Write_Unavailable (e : failure)
| Write_CreationRefused (o : ScopeCreationOutcome (Uuid := Uuid))
| Write_WriteRefused (o : ScopeWriteOutcome (Uuid := Uuid)).

Definition capture_value (owner : string) (capture : string * envelope) : ScopeValueInput :=
  mkScopeValueInput (owner +:+ "/" +:+ sanitize_segment capture.1) (encode_envelope capture.2).

Definition write_event_captures (store : ScopeStoreOps) (namespace : string) (scope_id : Uuid) (run_id : string)
    (operation_owner : Uuid) (captures : list (string * envelope)) : program (result unit WriteError) :=
  match captures with
  | [] => Ret (Ok tt)
  | _ =>
      let values := sort_by by_key (capture_value (sanitize_segment run_id) <$> captures) in
      let claim_id := capture_claim_id operation_owner (svi_key <$> values) in
      let* now := call UtcNow in
      let* created := so_create store (mkCreateInput scope_id namespace run_id claim_id values now) in
      match created with
      | Err e => Ret (Err (Write_Unavailable e))
      | Ok (Creation_Created | Creation_Idempotent) => Ret (Ok tt)
      | Ok (Creation_Collision existing as outcome) =>
          if bool_decide (existing = scope_id) then
            let* written := so_write store (mkWriteInput scope_id claim_id values now) in
            match written with
            | Err e => Ret (Err (Write_Unavailable e))
            | Ok (Write_Applied _ _ | Write_Idempotent) => Ret (Ok tt)
            | Ok outcome => Ret (Err (Write_WriteRefused outcome))
            end
          else Ret (Err (Write_CreationRefused outcome))
      | Ok outcome => Ret (Err (Write_CreationRefused outcome))
      end
  end.

(** The SQL repository as the selected store: a transaction draws the identities of
    the value rows it inserts. *)
Fixpoint draw_many (n : nat) (s : SignalState) : list Uuid * SignalState :=
  match n with
  | O => ([], s)
  | S n => let '(u, s) := draw s in let '(us, s) := draw_many n s in (u :: us, s)
  end.

Definition set_scope_tables (t : ScopeTables Uuid) (s : SignalState) : SignalState :=
  mkSignalState (definitions s) (audit s) (idempotency_bucket s) (ctx_bucket s) t (gates s)
    (subscribers s) (drawn s).

Definition on_scopes {X} (values : nat) (f : list Uuid → ScopeTables Uuid → result (X * ScopeTables Uuid) ScopeRepositoryError)
    (_ : Z) (s : SignalState) : result (X * SignalState) Refusal :=
  let '(identities, s) := draw_many values s in
  let? r := map_err Refused_Scope (f identities (scope_tables s)) in Ok (r.1, set_scope_tables r.2 s).

Definition sql_scope_store : ScopeStoreOps :=
  mkScopeStoreOps
    (λ input, call (Transact (on_scopes (length (ci_values input))
                                (λ ids, create_tickr_ctx_scope uuid_bytes parse_json ids input))))
    (λ input, call (Transact (on_scopes (length (wi_values input))
                                (λ ids, write_tickr_ctx_scope uuid_bytes parse_json ids input)))).

(** ** Shared steps *)

Definition DEFAULT_CTX_NAMESPACE : string := "default".

(** Where captured values go beside the archive: nowhere in the local profile. *)
Inductive WorkingSet :=
| Working_Local
| Working_Nats
| Working_Scope (store : ScopeStoreOps).

Definition erring {A E F} (f : E → F) (p : program (result A E)) : program (result A F) :=
  let* r := p in Ret (map_err f r).

(** Each envelope is stamped with the time at which it is built. *)
Fixpoint extract_envelopes (payload : Json) (captures : list CaptureDeclaration) (signal_id : Uuid)
    (source : SignalSource) : program (result (list (string * envelope)) ExtractionError) :=
  match captures with
  | [] => Ret (Ok [])
  | decl :: rest =>
      let* now := call UtcNow in
      match extract_one value_to_string sha256_hex parse_path query (rfc3339 now) payload signal_id source decl with
      | Err e => Ret (Err e)
      | Ok named =>
          let*? others := extract_envelopes payload rest signal_id source in
          Ret (Ok (named :: others))
      end
  end.

(** *** [instance_creation_linkage.rs] and the reads of [signal_captures.rs] *)

Definition mark_materialized (signal_id run : Uuid)
    : program (result (SignalLinkageOutcome Uuid) failure) :=
  call (Transact (on_audit (λ _ a, Ok (link_signal_captures signal_id run a)))).

Definition backfill_pending_schedule_linkage (signal_id workflow_id : Uuid) (scheduled_at : Z)
    : program (result Uuid failure) :=
  let run_id := scheduled_instance_id workflow_id scheduled_at in
  let*? _ := mark_materialized signal_id run_id in
  Ret (Ok run_id).

(** ** [trigger_pipeline.rs] *)

Record TriggerRequest := mkTriggerRequest {
  tr_workflow_id : Uuid;
  tr_scheduled_at : option Z;
  tr_inputs : option Json;
  tr_idempotency_key : option string;
  tr_source : SignalSource;
  tr_hash_payload : Json;
  tr_name : option string
}.

Inductive TriggerOutcome :=
| Trigger_Fresh (signal_id : Uuid) (signal : Signal) (event_results : string)
| Trigger_Deduplicated (original_signal_id : Uuid)
| Trigger_Conflict (original_signal_id : Uuid) (original_hash your_hash : string).

(** [Trigger_Idempotency] has no cause when a reserved trigger was answered from
    the cache. *)
Inductive TriggerError :=
| WorkflowNotFound (workflow_id : Uuid)
| InputsProvidedButNoCaptures
| CapturesExtractionFailed (e : ExtractionError)
| WorkflowLookup (e : failure)
| Trigger_Idempotency (e : option (IngressError Refusal))
| RepositoryWrite (e : failure)
| NatsWrite (e : failure)
| ScopeWrite (e : WriteError).

Definition is_permanent_ingress_rejection (e : TriggerError) : bool :=
  match e with
  | WorkflowNotFound _ | InputsProvidedButNoCaptures | CapturesExtractionFailed _ => true
  | _ => false
  end.

Definition load_live_workflow_definition (workflow_id : Uuid)
    : program (result (option WorkflowDefinition) failure) :=
  call (Transact (λ _ s, Ok (live_workflow_definition (definitions s) workflow_id, s))).

(** What the cache answers for a request that is not reserved and has a key; [None]
    goes on. *)
Definition consult_cache (ws : WorkingSet) (key : option string) (reserved : bool) (signal_id : Uuid)
    (input_hash : list N) : program (result (option (CacheOutcome Uuid)) (IngressError Refusal)) :=
  match reserved, key, ws with
  | false, Some key, Working_Nats =>
      let*? _ := erring Unavailable open_bucket in
      let*? outcome := check_or_insert hex key signal_id input_hash in
      Ret (Ok (match outcome with Cache_Fresh => None | hit => Some hit end))
  | _, _, _ => Ret (Ok None)
  end.

Definition write_trigger_captures (ws : WorkingSet) (signal_id : Uuid) (captures : list (string * envelope))
    : program (result unit TriggerError) :=
  match ws with
  | Working_Nats => erring NatsWrite (write_captures_to_nats signal_id captures)
  | Working_Scope store =>
      erring ScopeWrite (write_event_captures store DEFAULT_CTX_NAMESPACE signal_id
                           (uuid_to_string signal_id) signal_id captures)
  | Working_Local => Ret (Ok tt)
  end.

Definition wire_source (source : SignalSource) : TriggerSource :=
  mkTriggerSource (Some match source with
                        | ExternalNats subject => Source_External subject
                        | Manual | Wakeup _ => Source_Manual
                        end).

Definition trigger_signal (req : TriggerRequest) (signal_id : Uuid) : Signal :=
  mkSignal (uuid_to_string signal_id) (tr_idempotency_key req)
    (Some (Variant_Trigger (mkTriggerMessage (uuid_to_string (tr_workflow_id req)) (rfc3339 <$> tr_scheduled_at req)
                              (Some (wire_source (tr_source req))) (tr_name req) None))).

(** Extraction, archive, linkage and working set of a trigger that goes ahead. *)
Definition release_trigger (ws : WorkingSet) (req : TriggerRequest) (workflow : WorkflowDefinition) (signal_id : Uuid)
    (reserved : bool) : program (result TriggerOutcome TriggerError) :=
  let payload := default (JObject []) (tr_inputs req) in
  let*? extracted := erring CapturesExtractionFailed
    (extract_envelopes payload (def_captures workflow) signal_id (tr_source req)) in
  let*? _ := erring RepositoryWrite
    (insert_captures signal_id (tr_workflow_id req) (Some (def_version workflow)) extracted) in
  let event_results := if reserved then encode_captures extracted else "" in
  let* _ := match tr_scheduled_at req with
            | Some at_ => backfill_pending_schedule_linkage signal_id (tr_workflow_id req) at_
            | None => Ret (Ok signal_id)
            end in
  let*? _ := write_trigger_captures ws signal_id extracted in
  Ret (Ok (Trigger_Fresh signal_id (trigger_signal req signal_id) event_results)).

Definition process_trigger_with_working_set (ws : WorkingSet) (req : TriggerRequest) (reserved : option Uuid)
    : program (result TriggerOutcome TriggerError) :=
  let input_hash := canonical_hash (tr_hash_payload req) in
  let*? found := erring WorkflowLookup (load_live_workflow_definition (tr_workflow_id req)) in
  match found with
  | None => Ret (Err (WorkflowNotFound (tr_workflow_id req)))
  | Some workflow =>
      if bool_decide (is_Some (tr_inputs req)) && bool_decide (def_captures workflow = [])
      then Ret (Err InputsProvidedButNoCaptures)
      else
        let* signal_id := match reserved with Some id => Ret id | None => new_v4 end in
        let*? cached := erring (Trigger_Idempotency ∘ Some)
          (consult_cache ws (tr_idempotency_key req) (bool_decide (is_Some reserved)) signal_id input_hash) in
        match cached with
        | Some (Cache_DeduplicatedSameHash original) => Ret (Ok (Trigger_Deduplicated original))
        | Some (Cache_ConflictDifferentHash original original_hash) =>
            Ret (Ok (Trigger_Conflict original original_hash (hex input_hash)))
        | Some Cache_Fresh | None =>
            release_trigger ws req workflow signal_id (bool_decide (is_Some reserved))
        end
  end.

Definition process_trigger (req : TriggerRequest) : program (result TriggerOutcome TriggerError) :=
  process_trigger_with_working_set Working_Nats req None.
Definition process_trigger_local (req : TriggerRequest) : program (result TriggerOutcome TriggerError) :=
  process_trigger_with_working_set Working_Local req None.

(** [process_reserved_trigger] with the bucket, [process_reserved_trigger_with_scope_store]
    with a scope store. *)
Definition process_reserved_trigger (ws : WorkingSet) (req : TriggerRequest) (signal_id : Uuid)
    : program (result (Signal * string) TriggerError) :=
  let*? outcome := process_trigger_with_working_set ws req (Some signal_id) in
  Ret (match outcome with
       | Trigger_Fresh _ signal event_results => Ok (signal, event_results)
       | _ => Err (Trigger_Idempotency None)
       end).

(** ** [wakeup_translator.rs] *)

Record WakeupRequest := mkWakeupRequest {
  wr_name : string;
  wr_payload : option Json;
  wr_idempotency_key : option string
}.

Inductive WakeupOutcome :=
| Wakeup_Fresh (signal_id : Uuid) (matched_workflows gates_matched : Z)
| Wakeup_Deduplicated (original_signal_id : Uuid)
| Wakeup_Conflict (original_signal_id : Uuid) (original_hash your_hash : string).

Inductive CaptureFailure :=
| Capture_Extraction (e : ExtractionError)
| Capture_Archive (e : failure)
| Capture_Nats (e : failure)
| Capture_Scope (e : WriteError).

Inductive WakeupError :=
| Wakeup_Cache (e : IngressError Refusal)
| Wakeup_SubscriberCaptures (e : CaptureFailure)
| Wakeup_SignalIntent
| Wakeup_GateCaptures (e : CaptureFailure)
| Wakeup_GateIntent
| Wakeup_Audit (e : failure).

(** [DefaultRelaySender], and the [CollectingWakeupIntentSender] of [nats_ingress.rs],
    whose list of intents the programs thread. *)
Inductive WakeupSender := Sender_Relay | Sender_Collecting.

Definition sender_send (sender : WakeupSender) (signal : Signal) (collected : list RelayIntent)
    : program (result (list RelayIntent) unit) :=
  match sender with
  | Sender_Relay => let* sent := call (Send (Out_Signal signal)) in Ret (if (sent : bool) then Ok collected else Err tt)
  | Sender_Collecting => Ret (Ok (collected ++ [Intent_WakeupSignal (encode_signal signal)]))
  end.

Definition sender_send_gate_outcome (sender : WakeupSender) (outcome : GateOutcome) (collected : list RelayIntent)
    : program (result (list RelayIntent) unit) :=
  match sender with
  | Sender_Relay => let* sent := call (Send (Out_GateOutcome outcome)) in Ret (if (sent : bool) then Ok collected else Err tt)
  | Sender_Collecting => Ret (Ok (collected ++ [Intent_GateOutcome (encode_gate outcome)]))
  end.

Definition predicate_matches (p : option JsonPath) (payload : Json) : bool :=
  match p with Some p => evaluate query p payload | None => true end.

Definition write_captures (ws : WorkingSet) (signal_id operation_owner : Uuid) (captures : list (string * envelope))
    : program (result unit CaptureFailure) :=
  match ws with
  | Working_Nats => erring Capture_Nats (write_captures_to_nats signal_id captures)
  | Working_Scope store =>
      erring Capture_Scope (write_event_captures store DEFAULT_CTX_NAMESPACE signal_id
                              (uuid_to_string signal_id) operation_owner captures)
  | Working_Local => Ret (Ok tt)
  end.

Definition write_gate_captures (ws : WorkingSet) (signal_id : Uuid) (name : string) (gate : Entry (Uuid := Uuid) (JsonPath := JsonPath))
    (payload : Json) : program (result unit CaptureFailure) :=
  let*? extracted := erring Capture_Extraction
    (extract_envelopes payload (captures_spec gate) signal_id (Wakeup name)) in
  match extracted with
  | [] => Ret (Ok tt)
  | _ => write_captures ws signal_id (entry_edge_id gate) extracted
  end.

Definition persist_subscriber_captures (ws : WorkingSet) (signal_id : Uuid) (name : string)
    (entry : SubEntry (Uuid := Uuid) (JsonPath := JsonPath)) (payload : Json) : program (result unit CaptureFailure) :=
  let*? extracted := erring Capture_Extraction
    (extract_envelopes payload (merged_captures entry) signal_id (Wakeup name)) in
  match extracted with
  | [] => Ret (Ok tt)
  | _ =>
      let*? _ := erring Capture_Archive (insert_captures signal_id (sub_workflow_id entry) None extracted) in
      write_captures ws signal_id (sub_workflow_id entry) extracted
  end.

Definition has_working_set (ws : WorkingSet) : bool :=
  match ws with Working_Local => false | _ => true end.

Definition u32_max : Z := 2 ^ 32 - 1.
Definition saturating_add (x y : Z) : Z := Z.min (x + y) u32_max.
(** [as i32] *)
Definition as_i32 (x : Z) : Z := if (x <? 2 ^ 31)%Z then x else (x - 2 ^ 32)%Z.

Definition wakeup_trigger (name : string) (signal_id workflow_id : Uuid) : Signal :=
  mkSignal (uuid_to_string signal_id) None
    (Some (Variant_Trigger (mkTriggerMessage (uuid_to_string workflow_id) None
                              (Some (mkTriggerSource (Some (Source_Wakeup name)))) None None))).

(** The loops over the subscribers and over the gates: how many matched, and what
    the sender holds.  Under a reservation the first failure ends them. *)
Fixpoint wake_subscribers (ws : WorkingSet) (sender : WakeupSender) (reserved : bool) (signal_id : Uuid)
    (name : string) (payload : Json) (entries : list (SubEntry (Uuid := Uuid) (JsonPath := JsonPath)))
    (matched : Z) (collected : list RelayIntent) : program (result (Z * list RelayIntent) WakeupError) :=
  match entries with
  | [] => Ret (Ok (matched, collected))
  | entry :: entries =>
      let continue := wake_subscribers ws sender reserved signal_id name payload entries in
      if predicate_matches (sub_predicate entry) payload then
        let* persisted := if has_working_set ws
                          then persist_subscriber_captures ws signal_id name entry payload
                          else Ret (Ok tt) in
        match persisted, reserved with
        | Err e, true => Ret (Err (Wakeup_SubscriberCaptures e))
        | _, _ =>
            let* sent := sender_send sender (wakeup_trigger name signal_id (sub_workflow_id entry)) collected in
            match sent, reserved with
            | Ok collected, _ => continue (saturating_add matched 1) collected
            | Err _, true => Ret (Err Wakeup_SignalIntent)
            | Err _, false => continue matched collected
            end
        end
      else continue matched collected
  end.

Definition unregister_gate (gate : Entry (Uuid := Uuid) (JsonPath := JsonPath)) : program unit :=
  call (Local (λ s, (tt, set_gates (unregister (workflow_instance_id gate) (entry_edge_id gate) (gates s)) s))).

Fixpoint wake_gates (ws : WorkingSet) (sender : WakeupSender) (reserved : bool) (signal_id : Uuid)
    (name : string) (payload : Json) (entries : list (Entry (Uuid := Uuid) (JsonPath := JsonPath)))
    (matched : Z) (collected : list RelayIntent) : program (result (Z * list RelayIntent) WakeupError) :=
  match entries with
  | [] => Ret (Ok (matched, collected))
  | gate :: entries =>
      let continue := wake_gates ws sender reserved signal_id name payload entries in
      if predicate_matches (predicate gate) payload then
        let* persisted := if has_working_set ws
                          then write_gate_captures ws signal_id name gate payload
                          else Ret (Ok tt) in
        match persisted, reserved with
        | Err e, true => Ret (Err (Wakeup_GateCaptures e))
        | _, _ =>
            let* sent := sender_send_gate_outcome sender
              (mkGateOutcome (uuid_to_string (workflow_instance_id gate)) (uuid_to_string (entry_edge_id gate))
                 (uuid_to_string signal_id)) collected in
            match sent, reserved with
            | Ok collected, _ =>
                let* _ := unregister_gate gate in continue (saturating_add matched 1) collected
            | Err _, true => Ret (Err Wakeup_GateIntent)
            | Err _, false => continue matched collected
            end
        end
      else continue matched collected
  end.

Definition insert_wakeup (row : SignalWakeupInput Uuid) : program (result bool failure) :=
  call (Transact (on_audit (λ now a, Ok (insert_signal_wakeup now row a)))).

Definition process_wakeup_with_working_set (ws : WorkingSet) (sender : WakeupSender) (req : WakeupRequest)
    (reserved : option Uuid) : program (result (WakeupOutcome * list RelayIntent) WakeupError) :=
  let payload := default (JObject []) (wr_payload req) in
  let input_hash := canonical_hash (JObject [("name", JString (wr_name req)); ("payload", payload)]) in
  let is_reserved := bool_decide (is_Some reserved) in
  let* signal_id := match reserved with Some id => Ret id | None => new_v4 end in
  let*? cached := erring Wakeup_Cache
    (consult_cache ws (wr_idempotency_key req) is_reserved signal_id input_hash) in
  match cached with
  | Some (Cache_DeduplicatedSameHash original) => Ret (Ok (Wakeup_Deduplicated original, []))
  | Some (Cache_ConflictDifferentHash original original_hash) =>
      Ret (Ok (Wakeup_Conflict original original_hash (hex input_hash), []))
  | Some Cache_Fresh | None =>
      let* entries := call (Local (λ s, (sub_lookup (wr_name req) (subscribers s), s))) in
      let* gate_entries := call (Local (λ s, (lookup_by_signal_name (wr_name req) (gates s), s))) in
      match entries, gate_entries with
      | [], [] => Ret (Ok (Wakeup_Fresh signal_id 0 0, []))
      | _, _ =>
          let*? woken := wake_subscribers ws sender is_reserved signal_id (wr_name req) payload entries 0 [] in
          let*? opened := wake_gates ws sender is_reserved signal_id (wr_name req) payload gate_entries 0 woken.2 in
          let* audited := insert_wakeup (mkSignalWakeupInput signal_id (wr_name req) (as_i32 woken.1)) in
          match audited, is_reserved with
          | Err e, true => Ret (Err (Wakeup_Audit e))
          | _, _ => Ret (Ok (Wakeup_Fresh signal_id woken.1 opened.1, opened.2))
          end
      end
  end.

Definition process_wakeup (req : WakeupRequest) : program (result (WakeupOutcome * list RelayIntent) WakeupError) :=
  process_wakeup_with_working_set Working_Nats Sender_Relay req None.
Definition process_wakeup_local (req : WakeupRequest)
    : program (result (WakeupOutcome * list RelayIntent) WakeupError) :=
  process_wakeup_with_working_set Working_Local Sender_Relay req None.

(** ** [cancel_pipeline.rs] *)

Inductive CancelTargetBody :=
| Body_Instance (workflow_instance_id : Uuid) (node_id : option Uuid)
| Body_ByTag (filter : gmap string string).

(** What [Serialize] derives for it. *)
Definition serialize_target (target : CancelTargetBody) : Json :=
  match target with
  | Body_Instance w n =>
      JObject [("kind", JString "instance"); ("workflow_instance_id", JString (uuid_to_string w));
               ("node_id", match n with Some n => JString (uuid_to_string n) | None => JNull end)]
  | Body_ByTag filter =>
      JObject [("kind", JString "by_tag"); ("filter", JObject (prod_map id JString <$> map_to_list filter))]
  end.

Record CancelRequest := mkCancelRequest {
  cr_target : CancelTargetBody;
  cr_note : option string;
  cr_idempotency_key : option string
}.

Inductive CancelOutcome :=
| Cancel_Instance (signal_id : Uuid)
| Cancel_ByTag (signal_id : Uuid) (instances_matched : Z)
| Cancel_Deduplicated (original_signal_id : Uuid)
| Cancel_Conflict (original_signal_id : Uuid) (original_hash your_hash : string).

Inductive CancelError :=
| Cancel_IdempotencyBucket (e : failure)
| Cancel_IdempotencyCheck (e : IngressError Refusal)
| Cancel_DurableSignalState (e : failure)
| Cancel_RelayUnreachable
| Cancel_ByTagTimeout (signal_id : Uuid).

(** Fifteen seconds, in the nanoseconds of the clock. *)
Definition SIGNAL_APPLIED_DEADLINE : Z := 15 * 1000000000.

Definition durable_materialization_count (signal_id : Uuid) : program (result (option Z) CancelError) :=
  erring Cancel_DurableSignalState
    (call (Transact (λ _ s,
       let? count := map_err Refused_Signal (materialized_count signal_id (audit s)) in Ok (count, s)))).

(** A turn of the loop ends at the deadline or waits for a notification; [None] is a
    loop that still waits after [turns] of them. *)
Fixpoint await_bytag (turns : nat) (deadline : Z) (signal_id : Uuid) : program (option (result Z CancelError)) :=
  match turns with
  | O => Ret None
  | S turns =>
      let* count := durable_materialization_count signal_id in
      match count with
      | Err e => Ret (Some (Err e))
      | Ok (Some count) => Ret (Some (Ok count))
      | Ok None =>
          let* now := call UtcNow in
          if (deadline <=? now)%Z then Ret (Some (Err (Cancel_ByTagTimeout signal_id)))
          else await_bytag turns deadline signal_id
      end
  end.

Definition await_bytag_materialization (turns : nat) (signal_id : Uuid) : program (option (result Z CancelError)) :=
  let* now := call UtcNow in await_bytag turns (now + SIGNAL_APPLIED_DEADLINE)%Z signal_id.

Definition cancel_addressing (target : CancelTargetBody) : TargetAddressing :=
  match target with
  | Body_Instance w n => Addressing_Instance (uuid_to_string w) (uuid_to_string <$> n)
  | Body_ByTag filter => Addressing_ByTag filter
  end.

Definition cancel_signal (req : CancelRequest) (signal_id : Uuid) : Signal :=
  mkSignal (uuid_to_string signal_id) (cr_idempotency_key req)
    (Some (Variant_Cancel (mkCancel (Some (mkTarget (Some (cancel_addressing (cr_target req)))))
                             (Some (mkCancelReason (Some (Reason_UserRequested None)))) (cr_note req)))).

Definition stage_cancel (row : SignalCancelInput Uuid) : program (result unit failure) :=
  call (Transact (on_audit (λ now a, stage_pending now row a))).
Definition insert_cancel (row : SignalCancelInput Uuid) : program (result bool failure) :=
  call (Transact (on_audit (λ now a, Ok (insert_signal_cancel now row a)))).

Definition process_prepared_cancel (turns : nat) (req : CancelRequest) (signal_id : Uuid) (target_json : Json)
    : program (option (result CancelOutcome CancelError)) :=
  let is_bytag := match cr_target req with Body_ByTag _ => true | _ => false end in
  let* staged := if is_bytag
                 then stage_cancel (mkSignalCancelInput signal_id PENDING_SIGNAL_CANCEL_APPLIED_COUNT target_json (cr_note req))
                 else Ret (Ok tt) in
  match staged with
  | Err e => Ret (Some (Err (Cancel_DurableSignalState e)))
  | Ok _ =>
      let* sent := call (Send (Out_Signal (cancel_signal req signal_id))) in
      if negb sent then Ret (Some (Err Cancel_RelayUnreachable))
      else if is_bytag then
        let* matched := await_bytag_materialization turns signal_id in
        Ret ((λ r, let? n := r in Ok (Cancel_ByTag signal_id n)) <$> matched)
      else
        let* _ := insert_cancel (mkSignalCancelInput signal_id 1 target_json (cr_note req)) in
        Ret (Some (Ok (Cancel_Instance signal_id)))
  end.

Definition note_value (note : option string) : Json :=
  match note with Some n => JString n | None => JNull end.

Definition process_cancel (turns : nat) (req : CancelRequest) : program (option (result CancelOutcome CancelError)) :=
  let* signal_id := new_v4 in
  let target_json := serialize_target (cr_target req) in
  let input_hash := canonical_hash (JObject [("target", target_json); ("note", note_value (cr_note req))]) in
  match cr_idempotency_key req with
  | None => process_prepared_cancel turns req signal_id target_json
  | Some key =>
      let* opened := open_bucket in
      match opened with
      | Err e => Ret (Some (Err (Cancel_IdempotencyBucket e)))
      | Ok _ =>
          let* outcome := check_or_insert hex key signal_id input_hash in
          match outcome with
          | Err e => Ret (Some (Err (Cancel_IdempotencyCheck e)))
          | Ok (Cache_DeduplicatedSameHash original) => Ret (Some (Ok (Cancel_Deduplicated original)))
          | Ok (Cache_ConflictDifferentHash original original_hash) =>
              Ret (Some (Ok (Cancel_Conflict original original_hash (hex input_hash))))
          | Ok Cache_Fresh => process_prepared_cancel turns req signal_id target_json
          end
      end
  end.

Definition process_cancel_with_notifications (turns : nat) (req : CancelRequest)
    : program (option (result CancelOutcome CancelError)) :=
  let* signal_id := new_v4 in
  process_prepared_cancel turns req signal_id (serialize_target (cr_target req)).

(** ** [instance_creation_linkage.rs] *)

Inductive LinkageError := Linkage_Unavailable (e : failure) | Linkage_Undecodable (signal_id : Uuid).

(** [signal_captures::read] *)
Definition read_captures (signal_id : Uuid) : program (result (option (list (string * envelope))) LinkageError) :=
  let*? row := erring Linkage_Unavailable
    (call (Transact (λ _ s, let? row := map_err Refused_Signal (signal_captures signal_id (audit s)) in Ok (row, s)))) in
  match row with
  | None => Ret (Ok None)
  | Some r => Ret (let? l := ok_or (decode_envelopes (scr_captures r)) (Linkage_Undecodable signal_id) in Ok (Some l))
  end.

Fixpoint rehydrate (signal_id : Uuid) (captures : list (string * envelope)) : program (result unit failure) :=
  match captures with
  | [] => Ret (Ok tt)
  | (name, e) :: rest =>
      let key := capture_key signal_id name in
      let*? present := ctx_get key in
      let*? _ := match present with Some _ => Ret (Ok tt) | None => ctx_put key (encode_envelope e) end in
      rehydrate signal_id rest
  end.

Definition link_and_rehydrate (signal_id run : Uuid) : program (result unit LinkageError) :=
  let*? _ := erring Linkage_Unavailable (mark_materialized signal_id run) in
  let*? row := read_captures signal_id in
  match row with
  | None | Some [] => Ret (Ok tt)
  | Some captures =>
      let*? _ := erring Linkage_Unavailable open_ctx_bucket in
      erring Linkage_Unavailable (rehydrate signal_id captures)
  end.

(** ** [signal_captures_cleanup.rs] *)

Fixpoint delete_keys (signal_id : Uuid) (names : list string) : program unit :=
  match names with
  | [] => Ret tt
  | name :: rest => let* _ := ctx_delete (capture_key signal_id name) in delete_keys signal_id rest
  end.

Fixpoint reclaim_rows (open : bool) (rows : list (SignalCapturesRecord Uuid)) : program (list Uuid) :=
  match rows with
  | [] => Ret []
  | r :: rest =>
      let* _ := if open then delete_keys (scr_signal_id r) (capture_names r) else Ret tt in
      let* touched := reclaim_rows open rest in
      Ret (scr_signal_id r :: touched)
  end.

Definition on_workflow_terminal (run : Uuid) : program (result (list Uuid) failure) :=
  let*? rows := call (Transact (on_audit (λ now a, Ok (mark_signal_captures_terminal uuid_leb now run a)))) in
  match rows with
  | Err e => Ret (Err (RepositoryRefused (Refused_Signal e)))
  | Ok [] => Ret (Ok [])
  | Ok rows =>
      let* kv := get_ctx_bucket in
      let* touched := reclaim_rows (is_ok kv) rows in
      Ret (Ok touched)
  end.

Fixpoint sweep_rows (open : bool) (cutoff : Z) (rows : list (SignalCapturesRecord Uuid)) (deleted : nat)
    : program (result nat failure) :=
  match rows with
  | [] => Ret (Ok deleted)
  | r :: rest =>
      let* _ := if open then delete_keys (scr_signal_id r) (capture_names r) else Ret tt in
      let*? gone := call (Transact (on_audit (λ _ a, Ok (delete_expired_signal_captures (scr_signal_id r) cutoff a)))) in
      sweep_rows open cutoff rest (if gone : bool then S deleted else deleted)
  end.

Definition sweep_expired (grace : Z) : program (result nat failure) :=
  let* now := call UtcNow in
  let cutoff := (now - grace)%Z in
  let*? expired := call (Transact (λ _ s,
    let? rows := map_err Refused_Signal (expired_signal_captures uuid_leb cutoff (audit s)) in Ok (rows, s))) in
  match expired with
  | [] => Ret (Ok 0)
  | _ => let* kv := get_ctx_bucket in sweep_rows (is_ok kv) cutoff expired 0
  end.

(** ** [gate_index_lifecycle.rs] *)

(** [dispatched] is what the server answers. *)
Definition rebuild_from_server {E} (dispatched : result (list (Row (Uuid := Uuid))) E) : program (result nat E) :=
  let replace rows := call (Local (λ s, (tt, set_gates (replace_all parse_path rows (gates s)) s))) in
  match dispatched with
  | Err e => let* _ := replace [] in Ret (Err e)
  | Ok rows => let* _ := replace rows in Ret (Ok (length rows))
  end.
End pipelines.
Arguments SignalState Uuid {_ _} JsonPath.
