(* ===== verification/Ingress.v ===== *)
(** * The event ingress

    [nats_ingress.rs] past the decoding of an envelope: a delivery of the stream is
    reserved under its producer key, its effects are computed under the reservation
    and recorded, the recorded relay intents are forwarded, and only then is the
    delivery acknowledged.  Any step may fail, or take effect without being heard;
    the delivery then stays pending and comes again. *)

From stdpp Require Import pretty.
From S2P Require Import Prelude Workflow Json Uuid Captures GateIndex SubscriptionIndex Programs Workers Idempotency DefinitionStore SignalMessages SignalStore ScopeStore SignalPipelines.

Section ingress.
Context `{UuidOps Uuid} `{!Countable Uuid} {JsonPath : Type} `{!Runtime Uuid JsonPath}.

Abbreviation state := (SignalState Uuid JsonPath).
Abbreviation await := (Await state Outgoing Refusal Uuid).
Abbreviation failure := (RepositoryError Refusal).
Abbreviation program A := (prog await failure A).
Abbreviation ingress_error := (IngressError Refusal).

(** The text of a permanent trigger error. *)
Context (display : TriggerError (Uuid := Uuid) → string).
(** What [serde] says of a target or reason it cannot decode. *)
Context (decode_message : Json → string).

Definition SUBJECT : string := "tickr.external.signals".

(** ** A delivery of the stream *)

Record Delivery := mkDelivery { dv_sequence : Z; dv_payload : string }.

(** [producer_key]: the stream does not carry one. *)
Definition dv_producer_key (d : Delivery) : option string := None.

Definition stable_payload_hash (payload : string) : list N :=
  match from_slice payload with
  | Ok value => canonical_hash value
  | Err _ => sha256 payload
  end.

Definition EnvelopeError_to_string (e : EnvelopeError) : string :=
  match e with
  | MalformedJson m => "malformed JSON: " +:+ m
  | MissingVersion => "envelope missing required field `version`"
  | UnknownVersion v => "unknown envelope version `" +:+ pretty v +:+ "` (only `1` accepted today)"
  | MissingVariant => "envelope missing required field `variant`"
  | UnknownVariant v => "unknown variant `" +:+ v +:+ "` (expected one of Cancel | Trigger | Wakeup)"
  | MissingIdempotencyKey => "envelope missing required field `idempotency_key`"
  | VariantDeserialize v m => "variant `" +:+ v +:+ "` failed to deserialize: " +:+ m
  end.

Inductive CompletionError :=
| Completion_Mismatch
| Completion_Unrecorded (e : ingress_error)
| Completion_Unacknowledged.

(** [DeliveryOutcome] of a terminal proof. *)
Definition delivery_outcome (o : IngressTerminalOutcome) : DeliveryOutcome :=
  match o with
  | Outcome_Accepted => Delivery_Accepted
  | Outcome_Rejected => Delivery_Rejected "producer request was permanently rejected"
  end.

Definition acknowledge (d : Delivery) : program (result unit CompletionError) :=
  let* acked := call (Send (Out_Ack (dv_sequence d))) in
  Ret (if (acked : bool) then Ok tt else Err Completion_Unacknowledged).

Definition complete (d : Delivery) (producer_key : string) (proof : IngressOutcomeProof)
    : program (result unit CompletionError) :=
  let hash := stable_payload_hash (dv_payload d) in
  if bool_decide (pf_producer_digest proof = sha256_hex producer_key) &&
     bool_decide (pf_payload_digest proof = hex hash)
  then
    let*? _ := erring Completion_Unrecorded
      (record_delivery sha256_hex hex (dv_sequence d) (Some producer_key) hash (delivery_outcome (pf_outcome proof))) in
    acknowledge d
  else Ret (Err Completion_Mismatch).

Definition reject_malformed (d : Delivery) (reason : string) : program (result unit CompletionError) :=
  let*? _ := erring Completion_Unrecorded
    (record_delivery sha256_hex hex (dv_sequence d) None (stable_payload_hash (dv_payload d)) (Delivery_Rejected reason)) in
  acknowledge d.

(** A failure of either is logged and the delivery comes again. *)
Definition leave_pending (d : Delivery) : program unit :=
  let* _ := call (Send (Out_Nak (dv_sequence d))) in Ret tt.
Definition complete_delivery (d : Delivery) (producer_key : string) (proof : IngressOutcomeProof) : program unit :=
  let* _ := complete d producer_key proof in Ret tt.

(** ** Forwarding *)

(** The message a recorded intent stands for; [None] is a corrupt one. *)
Definition intent_message (intent : RelayIntent) : option Outgoing :=
  match intent with
  | Intent_Signal bytes | Intent_WakeupSignal bytes => Out_TrySignal <$> decode_signal bytes
  | Intent_GateOutcome bytes => Out_TryGateOutcome <$> decode_gate bytes
  end.

Fixpoint send_intents (intents : list RelayIntent) : program bool :=
  match intents with
  | [] => Ret true
  | intent :: rest =>
      match intent_message intent with
      | None => Ret false
      | Some message =>
          let* sent := call (Send message) in
          if (sent : bool) then send_intents rest else Ret false
      end
  end.

Definition forward_ready_intents (d : Delivery) (producer_key operation : string) (intents : list RelayIntent)
    : program unit :=
  let* forwarded := send_intents intents in
  if (forwarded : bool) then
    let* relayed := mark_relayed operation in
    match relayed with
    | Ok proof => complete_delivery d producer_key proof
    | Err _ => leave_pending d
    end
  else leave_pending d.

(** ** Effects under a reservation *)

Inductive IngressProcessingFailure := Failure_Permanent (reason : string) | Failure_Transient.

Definition trigger_request (key : string) (workflow_id : Uuid) (scheduled_at : option Z) (inputs : option Json)
    : TriggerRequest (Uuid := Uuid) :=
  mkTriggerRequest workflow_id scheduled_at inputs (Some key) (ExternalNats SUBJECT)
    (JObject [("workflow_id", JString (uuid_to_string workflow_id));
              ("scheduled_at", match scheduled_at with Some t => time_value t | None => JNull end);
              ("inputs", default (JObject []) inputs)]) None.

Definition signal_effects (signal : Signal) (event_results : string) : IngressEffects :=
  mkIngressEffects (encode_signal signal) event_results [Intent_Signal (encode_signal signal)].

Definition is_null (v : Json) : bool := match v with JNull => true | _ => false end.

Definition process_reserved_envelope (ws : WorkingSet) (signal_id : Uuid) (envelope : IngressEnvelope Uuid)
    : program (result IngressEffects IngressProcessingFailure) :=
  match envelope with
  | Envelope_Trigger key workflow_id scheduled_at inputs =>
      let* processed := process_reserved_trigger ws (trigger_request key workflow_id scheduled_at inputs) signal_id in
      match processed with
      | Ok (signal, event_results) => Ret (Ok (signal_effects signal event_results))
      | Err e =>
          Ret (Err (if is_permanent_ingress_rejection e then Failure_Permanent (display e) else Failure_Transient))
      end
  | Envelope_Cancel key target reason note =>
      match de_ext_target target with
      | None => Ret (Err (Failure_Permanent ("decode Cancel.target as Signal::Target: " +:+ decode_message target)))
      | Some t =>
          match de_ext_cancel_reason reason with
          | None => Ret (Err (Failure_Permanent ("decode Cancel.reason as Signal::CancelReason: " +:+ decode_message reason)))
          | Some r =>
              Ret (Ok (signal_effects
                (mkSignal (uuid_to_string signal_id) (Some key)
                   (Some (Variant_Cancel (mkCancel (Some (ExtTarget_into_proto t)) (Some (ExtCancelReason_into_proto r)) note)))) "[]"))
          end
      end
  | Envelope_Wakeup _ name target payload =>
      if negb (is_null target) && bool_decide (de_ext_target (Uuid := Uuid) target = None)
      then Ret (Err (Failure_Permanent ("decode Wakeup.target as Signal::Target: " +:+ decode_message target)))
      else
        let* processed := process_wakeup_with_working_set ws Sender_Collecting (mkWakeupRequest name payload None) (Some signal_id) in
        match processed with
        | Ok (_, intents) => Ret (Ok (mkIngressEffects (encode_intents intents) "[]" intents))
        | Err _ => Ret (Err Failure_Transient)
        end
  end.

(** ** [process_delivery] *)

Definition process_reservation (ws : WorkingSet) (d : Delivery) (producer_key : string)
    (envelope : IngressEnvelope Uuid) (outcome : ReservationOutcome Uuid) : program unit :=
  match outcome with
  | Reservation_Pending => leave_pending d
  | Reservation_Complete proof | Reservation_Rejected proof | Reservation_Conflict _ _ proof =>
      complete_delivery d producer_key proof
  | Reservation_Ready operation effects =>
      forward_ready_intents d producer_key operation (fx_relay_intents effects)
  | Reservation_Acquired reservation =>
      let* processed := process_reserved_envelope ws (rs_signal_id reservation) envelope in
      match processed with
      | Ok effects =>
          let* persisted := persist_effects reservation effects in
          match persisted with
          | Ok effects => forward_ready_intents d producer_key (rs_key reservation) (fx_relay_intents effects)
          | Err _ => leave_pending d
          end
      | Err (Failure_Permanent reason) =>
          let* rejected := reject reservation reason in
          match rejected with
          | Ok proof => complete_delivery d producer_key proof
          | Err _ => leave_pending d
          end
      | Err Failure_Transient =>
          let* _ := abandon reservation in
          leave_pending d
      end
  end.

Definition process_delivery (ws : WorkingSet) (d : Delivery) : program unit :=
  match parse_envelope from_slice parse_rfc3339 serde_message (dv_payload d) with
  | Err e => let* _ := reject_malformed d (EnvelopeError_to_string e) in Ret tt
  | Ok envelope =>
      let producer_key := envelope_key envelope in
      if match dv_producer_key d with Some k => negb (bool_decide (k = producer_key)) | None => false end
      then let* _ := reject_malformed d "transport producer key does not match envelope" in Ret tt
      else
        let* reserved := reserve sha256_hex hex producer_key (stable_payload_hash (dv_payload d)) in
        match reserved with
        | Err _ => leave_pending d
        | Ok outcome => process_reservation ws d producer_key envelope outcome
        end
  end.
End ingress.
