(* ===== verification/IngressRecords.v ===== *)
(** * The records of the event ingress

    How the bucket of producer records may change under any interleaving of the
    programs that use it, what is true of every record in it, and the rules by which
    one program is shown to keep to that.  A revision names one value, so a
    conditional update changes the record it has read.  A record may age out of the
    bucket, and another one may take its key: what is known of a record is known
    until its key has lapsed. *)

From S2P Require Import Prelude Json Uuid Programs Workers Idempotency SignalMessages SignalPipelines Ingress.

(** ** Growth of the bucket *)

Create HintDb ingress.

Section bucket.
Context {Uuid : Type}.
Implicit Types (r : ProducerRecord Uuid) (v : BucketValue Uuid) (b : Bucket (BucketValue Uuid)).

(** A phase that is not [Reserved] changes only from [Ready] to [Relayed]. *)
Definition phase_follows (p p' : ProducerPhase) : Prop := p' = p ∨ p = Phase_Ready ∧ p' = Phase_Relayed.

Record record_evolves r r' : Prop := {
  re_version : pd_version r' = pd_version r;
  re_producer : pd_producer_key_sha256 r' = pd_producer_key_sha256 r;
  re_payload : pd_payload_sha256 r' = pd_payload_sha256 r;
  re_signal : pd_signal_id r' = pd_signal_id r;
  re_settled : pd_phase r ≠ Phase_Reserved →
    record_effects r' = record_effects r ∧ phase_follows (pd_phase r) (pd_phase r')
}.

#[global] Instance record_evolves_preorder : PreOrder record_evolves.
Proof.
  split.
  - intros r. split; try done. intros _. split; [done|by left].
  - intros r1 r2 r3 [H1 H2 H3 H4 H5] [K1 K2 K3 K4 K5]. split; try congruence. intros Hp.
    destruct (H5 Hp) as [E1 F1].
    destruct K5 as [E2 F2]; [by destruct F1 as [-> |[_ ->]]|].
    split; [congruence|]. unfold phase_follows in *. intuition congruence.
Qed.

Definition value_evolves v v' : Prop :=
  match v with
  | Value_Producer r => ∃ r', v' = Value_Producer r' ∧ record_evolves r r'
  | _ => v' = v
  end.

#[global] Instance value_evolves_preorder : PreOrder value_evolves.
Proof.
  split.
  - intros [c|r|d]; simpl; eauto. by exists r.
  - intros [c|r|d] v2 v3; simpl; [by intros -> ->| |by intros -> ->].
    intros (r2 & -> & H2) (r3 & -> & H3). exists r3. split; [done|]. by etrans.
Qed.

(** A revision is one the bucket has given out. *)
Definition revisions_ok b : Prop := ∀ k n v, kv_entries b !! k = Some (n, v) → n ≤ kv_last b.

Lemma create_inv key v now b u b' :
  kv_create key v now b = Ok (u, b') → kv_entries b !! key = None ∧ b' = kv_put key v now b.
Proof. unfold kv_create. destruct (kv_entries b !! key); [done|]. by intros [= _ <-]. Qed.

Lemma update_inv key v n now b u b' :
  kv_update key v n now b = Ok (u, b') → ∃ v0, kv_entries b !! key = Some (n, v0) ∧ b' = kv_put key v now b.
Proof.
  unfold kv_update. destruct (kv_entries b !! key) as [[n0 v0]|]; [|done].
  case_bool_decide; [|done]. intros [= _ <-]. subst. eauto.
Qed.

Lemma expire_inv key now b :
  kv_expire key now b = b ∨
  is_Some (kv_entries b !! key) ∧
  kv_expire key now b = mkBucket (delete key (kv_entries b)) (kv_last b) (kv_written b) (kv_max_age b).
Proof.
  unfold kv_expire. destruct (kv_entries b !! key) as [[n v]|]; [|by left]. destruct (kv_max_age b); [|by left].
  destruct (_ <=? _)%Z; [right; eauto|by left].
Qed.

(** What a delivery is told once the record under its key is terminal: [payload] is
    the digest it came with. *)
Definition verdict (payload : string) r : option IngressTerminalOutcome :=
  if bool_decide (pd_payload_sha256 r = payload) then
    match pd_phase r with
    | Phase_Relayed => Some Outcome_Accepted
    | Phase_Rejected _ => Some Outcome_Rejected
    | _ => None
    end
  else Some Outcome_Rejected.

Lemma verdict_evolves payload r r' o : record_evolves r r' → verdict payload r = Some o → verdict payload r' = Some o.
Proof.
  intros [_ _ Hp _ Hs]. unfold verdict. rewrite Hp. case_bool_decide; [|done].
  destruct (pd_phase r) as [| | |reason]; try done; (destruct Hs as [_ [-> |[? _]]]; done).
Qed.

Definition is_ready r : Prop := pd_phase r = Phase_Ready ∨ pd_phase r = Phase_Relayed.

Lemma ready_evolves r r' : record_evolves r r' → is_ready r → is_ready r' ∧ pd_intents r' = pd_intents r.
Proof.
  intros [_ _ _ _ Hs] Hr. destruct Hs as [He Hf]; [by destruct Hr as [-> | ->]|]. injection He as _ _ ->.
  split; [|done]. unfold is_ready, phase_follows in *. intuition congruence.
Qed.

(** The changes of the four mutations. *)
Lemma with_lease_evolves owner t r : pd_phase r = Phase_Reserved → record_evolves r (with_lease owner t r).
Proof. intros Hp. split; [done..|]. congruence. Qed.
Lemma with_effects_evolves fx r : pd_phase r = Phase_Reserved → record_evolves r (with_effects fx r).
Proof. intros Hp. split; [done..|]. congruence. Qed.
Lemma rejected_evolves reason r : pd_phase r = Phase_Reserved → record_evolves r (with_phase (Phase_Rejected reason) r).
Proof. intros Hp. split; [done..|]. congruence. Qed.
Lemma relayed_evolves r : pd_phase r = Phase_Ready → record_evolves r (with_phase Phase_Relayed r).
Proof. intros Hp. split; [done..|]. intros _. split; [done|by right]. Qed.

Lemma producer_key_inj d d' : producer_entry_key d = producer_entry_key d' → d = d'.
Proof. apply (inj (String.append "producer.")). Qed.
End bucket.
#[export] Hint Resolve with_lease_evolves with_effects_evolves rejected_evolves relayed_evolves : ingress.

(** ** The invariant *)

(** The signals of the ingress: triggers without a replay seed, and cancels. *)
Definition ingress_signal (s : Signal) : Prop :=
  match signal_variant s with
  | Some (Variant_Trigger t) => trigger_replay t = None
  | Some (Variant_Cancel _) => True
  | _ => False
  end.

(** Protobuf reads back what it has written. *)
Class RuntimeLaws (Uuid JsonPath : Type) `{!Runtime Uuid JsonPath} : Prop := {
  decode_encode_signal s : ingress_signal s → decode_signal (encode_signal s) = Some s;
  decode_encode_gate o : decode_gate (encode_gate o) = Some o
}.

Section invariant.
Context `{UuidOps Uuid} `{!Countable Uuid} {JsonPath : Type} `{!Runtime Uuid JsonPath}.
(** The message the stream holds under a sequence. *)
Context (payloads : Z → string).

Abbreviation state := (SignalState Uuid JsonPath).
Abbreviation await := (Await state Outgoing Refusal Uuid).
Abbreviation failure := (RepositoryError Refusal).
Abbreviation program A := (prog await failure A).
Abbreviation sig_world := (World state Outgoing).
Implicit Types (w : sig_world) (r : ProducerRecord Uuid) (v : BucketValue Uuid) (b : Bucket (BucketValue Uuid)).

Abbreviation held w := (kv_entries (idempotency_bucket (now_store w))).

Definition payload_digest (q : Z) : string := hex (stable_payload_hash (payloads q)).
Definition parsed (q : Z) : result (IngressEnvelope Uuid) EnvelopeError :=
  parse_envelope from_slice parse_rfc3339 serde_message (payloads q).

(** The entry under the key has aged out of the bucket, between two of the stores. *)
Definition lapsed w (k : string) : Prop :=
  ∃ (before after : state) (now : Z), [after; before] `sublist_of` stores w ∧
    idempotency_bucket after = kv_expire k now (idempotency_bucket before) ∧
    is_Some (kv_entries (idempotency_bucket before) !! k) ∧ kv_entries (idempotency_bucket after) !! k = None.

(** The record under a key has the property [P]. *)
Definition held_record w (k : string) (P : ProducerRecord Uuid → Prop) : Prop :=
  ∃ n r, held w !! k = Some (n, Value_Producer r) ∧ P r.

(** It has it unless the key has lapsed. *)
Definition known w (k : string) (P : ProducerRecord Uuid → Prop) : Prop := lapsed w k ∨ held_record w k P.

(** The record under a producer key gives the delivery [q] its verdict [o]. *)
Definition settled w (q : Z) (key : string) (o : IngressTerminalOutcome) : Prop :=
  known w (producer_entry_key (sha256_hex key)) (λ r, verdict (payload_digest q) r = Some o).

(** The one signal of an event, if it is not a wakeup. *)
Definition event_signal (env : IngressEnvelope Uuid) (id : Uuid) : option Signal :=
  match env with
  | Envelope_Trigger key workflow_id scheduled_at inputs =>
      Some (trigger_signal (trigger_request key workflow_id scheduled_at inputs) id)
  | Envelope_Cancel key target reason note =>
      t ← de_ext_target target; r ← de_ext_cancel_reason reason;
      Some (mkSignal (uuid_to_string id) (Some key)
              (Some (Variant_Cancel (mkCancel (Some (ExtTarget_into_proto t)) (Some (ExtCancelReason_into_proto r)) note))))
  | Envelope_Wakeup _ _ _ _ => None
  end.

(** The intents are those of the event, whichever they are for a wakeup. *)
Definition intents_of (env : IngressEnvelope Uuid) (id : Uuid) (intents : list RelayIntent) : Prop :=
  match env with
  | Envelope_Wakeup _ _ _ _ => True
  | _ => ∃ s, event_signal env id = Some s ∧ intents = [Intent_Signal (encode_signal s)]
  end.

(** Every intent can be read; a trigger or cancel is its only one and has the
    producer's key, which a wakeup does not carry. *)
Definition intent_ok r (i : RelayIntent) : Prop :=
  match i with
  | Intent_Signal bytes => ∃ s key,
      decode_signal bytes = Some s ∧ idempotency_key s = Some key ∧ sha256_hex key = pd_producer_key_sha256 r ∧
      pd_intents r = [i]
  | Intent_WakeupSignal bytes => ∃ s, decode_signal bytes = Some s ∧ idempotency_key s = None
  | Intent_GateOutcome bytes => is_Some (decode_gate bytes)
  end.

Definition forwarded w (i : RelayIntent) : Prop := ∃ m, intent_message i = Some m ∧ (m, true) ∈ log w.

Record record_ok w (k : string) r : Prop := {
  ro_key : k = producer_entry_key (pd_producer_key_sha256 r);
  ro_version : pd_version r = 1%Z;
  ro_intents i : i ∈ pd_intents r → intent_ok r i;
  ro_event : is_ready r → lapsed w k ∨ ∃ q env, parsed q = Ok env ∧
    pd_payload_sha256 r = payload_digest q ∧ intents_of env (pd_signal_id r) (pd_intents r);
  ro_relayed i : pd_phase r = Phase_Relayed → i ∈ pd_intents r → lapsed w k ∨ forwarded w i
}.

(** What is noted of a delivery is what it will be told again. *)
Definition note_ok w (q : Z) (d : DeliveryRecord) : Prop :=
  match parsed q with
  | Err e => d = mkDeliveryRecord 1 None (payload_digest q) (Delivery_Rejected (EnvelopeError_to_string e))
  | Ok env => ∃ o, settled w q (envelope_key env) o ∧
      d = mkDeliveryRecord 1 (Some (sha256_hex (envelope_key env))) (payload_digest q) (delivery_outcome o)
  end.

Definition entry_ok w (k : string) v : Prop :=
  match v with
  | Value_Cache _ => True
  | Value_Producer r => record_ok w k r
  | Value_Delivery d => ∃ q, k = delivery_entry_key q ∧ note_ok w q d
  end.

(** The messages the ingress itself sends. *)
Definition tracked (m : Outgoing) : bool :=
  match m with Out_TrySignal _ | Out_TryGateOutcome _ | Out_Ack _ => true | _ => false end.

(** The record is accepted, with the signal as its one intent. *)
Definition carries (s : Signal) r : Prop :=
  is_ready r ∧ ∃ bytes, pd_intents r = [Intent_Signal bytes] ∧ decode_signal bytes = Some s.

(** A forwarded signal with a key is the one of the accepted record under the key; an
    acknowledged delivery has its verdict. *)
Definition sent_ok w (m : Outgoing) : Prop :=
  match m with
  | Out_TrySignal s => ∀ key, idempotency_key s = Some key → known w (producer_entry_key (sha256_hex key)) (carries s)
  | Out_Ack q => match parsed q with Err _ => True | Ok env => ∃ o, settled w q (envelope_key env) o end
  | _ => True
  end.

Record ingress_ok w : Prop := {
  ok_open : kv_max_age (idempotency_bucket (now_store w)) = Some DEFAULT_TTL;
  ok_revisions : revisions_ok (idempotency_bucket (now_store w));
  ok_entry k n v : held w !! k = Some (n, v) → entry_ok w k v;
  ok_sent m : m ∈ sent_messages w → sent_ok w m
}.

(** An entry with an old revision is an old entry; an entry is there until it lapses,
    and evolves. *)
Record ingress_grows w w' : Prop := {
  ig_last : kv_last (idempotency_bucket (now_store w)) ≤ kv_last (idempotency_bucket (now_store w'));
  ig_old k n v : held w' !! k = Some (n, v) → n ≤ kv_last (idempotency_bucket (now_store w)) → held w !! k = Some (n, v);
  ig_entry k n v : held w !! k = Some (n, v) → lapsed w' k ∨ ∃ n' v', held w' !! k = Some (n', v') ∧ value_evolves v v';
  ig_stores : stores w `suffix_of` stores w';
  ig_log : log w `prefix_of` log w'
}.

Lemma lapsed_suffix w w' k : stores w `suffix_of` stores w' → lapsed w k → lapsed w' k.
Proof.
  intros [l Hl] (before & after & now & Hs & Hk). exists before, after, now. split; [|done]. rewrite Hl. by apply sublist_inserts_l.
Qed.

#[global] Instance ingress_grows_preorder : PreOrder ingress_grows.
Proof.
  split.
  - intros w. split; [done|done| |done|done]. intros k n v Hv. right. by exists n, v.
  - intros w1 w2 w3 [L1 O1 E1 S1 G1] [L2 O2 E2 S2 G2]. split; [lia| | |by etrans|by etrans].
    + intros k n v Hv Hn. apply O1; [|done]. apply O2; [done|lia].
    + intros k n v Hv. destruct (E1 _ _ _ Hv) as [Hl|(n2 & v2 & H2 & Hv2)]; [left; by eapply lapsed_suffix|].
      destruct (E2 _ _ _ H2) as [Hl|(n3 & v3 & H3 & Hv3)]; [by left|]. right. exists n3, v3. split; [done|]. by etrans.
Qed.

(** *** What has become true stays true *)

Lemma lapsed_grows w w' k : ingress_grows w w' → lapsed w k → lapsed w' k.
Proof. intros Hg. apply lapsed_suffix, Hg. Qed.

Definition stable (P : ProducerRecord Uuid → Prop) : Prop := ∀ r r', record_evolves r r' → P r → P r'.

Lemma held_known w w' k P : stable P → ingress_grows w w' → held_record w k P → known w' k P.
Proof.
  intros Hs Hg (n & r & Hr & Hv). destruct (ig_entry _ _ Hg _ _ _ Hr) as [Hl|(n' & v' & Hr' & r' & -> & He)]; [by left|].
  right. exists n', r'. eauto.
Qed.

Lemma known_grows w w' k P : stable P → ingress_grows w w' → known w k P → known w' k P.
Proof. intros Hs Hg [Hl|Hr]; [left; by eapply lapsed_grows|by eapply held_known]. Qed.

Lemma carries_stable s : stable (carries s).
Proof.
  intros r r' He (Hr & bytes & Hi & Hd). destruct (ready_evolves _ _ He Hr) as [Hr' Hi'].
  split; [done|]. exists bytes. by rewrite Hi'.
Qed.

Lemma settled_grows w w' q key o : ingress_grows w w' → settled w q key o → settled w' q key o.
Proof. apply known_grows. intros r r'. apply verdict_evolves. Qed.

Lemma log_grows w w' x : ingress_grows w w' → x ∈ log w → x ∈ log w'.
Proof. intros [_ _ _ _ [l ->]]. rewrite elem_of_app. auto. Qed.

Lemma forwarded_grows w w' i : ingress_grows w w' → forwarded w i → forwarded w' i.
Proof. intros Hg (m & Hm & Hl). exists m. eauto using log_grows. Qed.

Lemma record_ok_grows w w' k r : ingress_grows w w' → record_ok w k r → record_ok w' k r.
Proof.
  intros Hg [H1 H2 H3 H4 H5]. split; [done|done|done|..].
  - intros Hr. destruct (H4 Hr); [left; by eapply lapsed_grows|by right].
  - intros i Hp Hi. destruct (H5 i Hp Hi); [left; by eapply lapsed_grows|right; by eapply forwarded_grows].
Qed.

Lemma note_ok_grows w w' q d : ingress_grows w w' → note_ok w q d → note_ok w' q d.
Proof.
  intros Hg. unfold note_ok. destruct (parsed q); [|done]. intros (o & Ho & ->).
  exists o. eauto using settled_grows.
Qed.

Lemma entry_ok_grows w w' k v : ingress_grows w w' → entry_ok w k v → entry_ok w' k v.
Proof.
  intros Hg. destruct v as [c|r|d]; simpl; [done|by apply record_ok_grows|].
  intros (q & -> & Hq). eauto using note_ok_grows.
Qed.

Lemma sent_ok_grows w w' m : ingress_grows w w' → sent_ok w m → sent_ok w' m.
Proof.
  intros Hg. destruct m; simpl; auto.
  - intros Hs key Hk. eapply known_grows; [apply carries_stable|done|auto].
  - destruct (parsed sequence); [|done]. intros (o & Ho). eauto using settled_grows.
Qed.
Hint Resolve settled_grows forwarded_grows entry_ok_grows sent_ok_grows : ingress.

(** *** Steps that keep the invariant *)

(** The bucket as it is, the log with messages that are true. *)
Lemma ingress_ok_same w w' :
  idempotency_bucket (now_store w') = idempotency_bucket (now_store w) → stores w `suffix_of` stores w' →
  log w `prefix_of` log w' → (∀ m, m ∈ sent_messages w' → m ∈ sent_messages w ∨ sent_ok w m) →
  ingress_ok w → ingress_ok w' ∧ ingress_grows w w'.
Proof.
  intros Hb Hst Hl Hm [H0 H1 H2 H3].
  assert (ingress_grows w w') as Hg.
  { split; rewrite ?Hb; [done|done| |done|done]. intros k n v Hv. right. by exists n, v. }
  split; [|done]. split.
  - by rewrite Hb.
  - by rewrite Hb.
  - intros k n v. rewrite Hb. eauto with ingress.
  - intros m [Hs|Hs]%Hm; eauto with ingress.
Qed.

Lemma committed_suffix w (s : state) : stores w `suffix_of` stores (committed w s).
Proof. by exists [s]. Qed.

Lemma ingress_ok_unchanged w (s : state) :
  idempotency_bucket s = idempotency_bucket (now_store w) →
  ingress_ok w → ingress_ok (committed w s) ∧ ingress_grows w (committed w s).
Proof. intros Hb. apply ingress_ok_same; [done|apply committed_suffix|done|auto]. Qed.

(** A value put under a key. *)
Lemma ingress_ok_put w s key v now :
  idempotency_bucket s = kv_put key v now (idempotency_bucket (now_store w)) →
  (∀ n v0, held w !! key = Some (n, v0) → value_evolves v0 v) → entry_ok w key v →
  ingress_ok w → ingress_ok (committed w s) ∧ ingress_grows w (committed w s).
Proof.
  intros Hb Hv He [H0 H1 H2 H3].
  assert (ingress_grows w (committed w s)) as Hw.
  { split; simpl; rewrite ?Hb; simpl; [lia| | |apply committed_suffix|done].
    - intros k n v0. rewrite lookup_insert_Some. intros [[_ [= <- _]]|[_ Hk]] Hn; [lia|done].
    - intros k n v0 Hk. right. destruct (decide (key = k)) as [<-|Hne].
      + eexists _, v. rewrite lookup_insert_eq. eauto.
      + exists n, v0. by rewrite lookup_insert_ne. }
  split; [|done]. split; simpl; rewrite ?Hb.
  - done.
  - intros k n v0. simpl. rewrite lookup_insert_Some. intros [[_ [= <- <-]]|[_ Hk]]; [done|].
    specialize (H1 _ _ _ Hk). lia.
  - intros k n v'. simpl. rewrite lookup_insert_Some. intros [[<- [= <- <-]]|[_ Hk]]; eauto with ingress.
  - intros m Hm. eauto with ingress.
Qed.

(** An entry gone. *)
Lemma ingress_ok_expire w s key now :
  idempotency_bucket s = kv_expire key now (idempotency_bucket (now_store w)) →
  ingress_ok w → ingress_ok (committed w s) ∧ ingress_grows w (committed w s).
Proof.
  intros Hb Hok. destruct (expire_inv key now (idempotency_bucket (now_store w))) as [Hsame|[Hthere Hgone]].
  { apply ingress_ok_unchanged; [congruence|done]. }
  assert (lapsed (committed w s) key) as Hl.
  { exists (now_store w), s, now. split; [apply sublist_skip, sublist_skip, sublist_nil_l|]. split_and!; [done..|].
    rewrite Hb, Hgone. apply lookup_delete_eq. }
  rewrite Hgone in Hb. destruct Hok as [H0 H1 H2 H3].
  assert (ingress_grows w (committed w s)) as Hw.
  { split; simpl; rewrite ?Hb; simpl; [done| | |apply committed_suffix|done].
    - intros k n v [_ Hk]%lookup_delete_Some _. done.
    - intros k n v Hk. destruct (decide (key = k)) as [<-|Hne]; [by left|].
      right. exists n, v. by rewrite lookup_delete_ne. }
  split; [|done]. split; simpl; rewrite ?Hb.
  - done.
  - intros k n v. simpl. intros [_ Hk]%lookup_delete_Some. eauto.
  - intros k n v. simpl. intros [_ Hk]%lookup_delete_Some. eauto with ingress.
  - intros m Hm. eauto with ingress.
Qed.

(** ** Rules *)

Abbreviation wp := (wp (E := failure) perform ingress_ok ingress_grows).

Lemma on_bucket_inv {X} key (f : Z → Bucket (BucketValue Uuid) → result (X * Bucket (BucketValue Uuid)) KvError) now (s : state) x s' :
  on_bucket key f now s = Ok (x, s') →
  ∃ b, f now (idempotency_bucket s) = Ok (x, b) ∧ s' = set_bucket b s.
Proof.
  unfold on_bucket. destruct (negb _); [done|]. case_bool_decide; [done|]. simpl.
  destruct (f _ _) as [[y b]|e]; [|done]. intros [= <- <-]. eauto.
Qed.

Section rules.
Context {A : Type} (Q : A → sig_world → Prop).

Lemma wp_entry key (k : result (option (nat * BucketValue Uuid)) failure → program A) w :
  (∀ w2, ingress_grows w w2 → ingress_ok w2 → wp (k (Ok (held w2 !! key))) Q w2) →
  (∀ e w2, ingress_grows w w2 → ingress_ok w2 → wp (k (Err e)) Q w2) →
  wp (Call (Transact (on_bucket key (kv_read key))) k) Q w.
Proof.
  intros Hok Herr. apply wp_transact; [apply _| |done].
  intros w2 now x s Hr Hi (b & [= <- <-] & ->)%on_bucket_inv.
  set (w3 := committed w2 _).
  assert (ingress_ok w3 ∧ ingress_grows w2 w3) as [Hi3 Hg3] by by apply ingress_ok_unchanged.
  split_and!; [done..|]. apply (Hok w3); [by etrans|done].
Qed.

Lemma wp_create key v (k : result unit failure → program A) w :
  (∀ w2, ingress_grows w w2 → ingress_ok w2 → held w2 !! key = None → entry_ok w2 key v) →
  (∀ w2 n, ingress_grows w w2 → ingress_ok w2 → held w2 !! key = Some (n, v) → wp (k (Ok tt)) Q w2) →
  (∀ e w2, ingress_grows w w2 → ingress_ok w2 → wp (k (Err e)) Q w2) →
  wp (Call (Transact (on_bucket key (kv_create key v))) k) Q w.
Proof.
  intros Hv Hok Herr. apply wp_transact; [apply _| |done].
  intros w2 now [] s Hr Hi (b & [Hn ->]%create_inv & ->)%on_bucket_inv.
  set (w3 := committed w2 _).
  assert (ingress_ok w3 ∧ ingress_grows w2 w3) as [Hi3 Hg3].
  { eapply (ingress_ok_put w2 _ key v now); [reflexivity| |auto|done]. intros n v0. by rewrite Hn. }
  split_and!; [done..|]. eapply (Hok w3); [by etrans|done|]. simpl. apply lookup_insert_eq.
Qed.

(** [v0] is the value that was read at the revision, in an earlier world. *)
Lemma wp_update_entry key v v0 n (k : result unit failure → program A) w0 w :
  ingress_ok w0 → ingress_grows w0 w → held w0 !! key = Some (n, v0) →
  value_evolves v0 v → entry_ok w key v →
  (∀ w2 n', ingress_grows w w2 → ingress_ok w2 → held w2 !! key = Some (n', v) → wp (k (Ok tt)) Q w2) →
  (∀ e w2, ingress_grows w w2 → ingress_ok w2 → wp (k (Err e)) Q w2) →
  wp (Call (Transact (on_bucket key (kv_update key v n))) k) Q w.
Proof.
  intros Hok0 H0 Hread Hev Hv Hok Herr. apply wp_transact; [apply _| |done].
  intros w2 now [] s Hr Hi (b & (v1 & Hn & ->)%update_inv & ->)%on_bucket_inv.
  set (w3 := committed w2 _).
  assert (v1 = v0) as ->.
  { pose proof (ig_old _ _ (transitivity H0 Hr) _ _ _ Hn (ok_revisions _ Hok0 _ _ _ Hread)). congruence. }
  assert (ingress_ok w3 ∧ ingress_grows w2 w3) as [Hi3 Hg3].
  { eapply (ingress_ok_put w2 _ key v now); [reflexivity| |eauto with ingress|done]. intros n' v'. rewrite Hn. by intros [= <- <-]. }
  split_and!; [done..|]. eapply (Hok w3); [by etrans|done|]. simpl. apply lookup_insert_eq.
Qed.

Lemma wp_message m (k : bool → program A) w :
  (∀ w2, ingress_grows w w2 → ingress_ok w2 → sent_ok w2 m) →
  (∀ w2 sent, ingress_grows w w2 → ingress_ok w2 → (m, sent) ∈ log w2 → wp (k sent) Q w2) →
  wp (Call (Send m) k) Q w.
Proof.
  intros Hm Hk. apply wp_send. intros w2 sent Hr Hi w3.
  assert (ingress_ok w3 ∧ ingress_grows w2 w3) as [Hi3 Hg3].
  { apply ingress_ok_same; [done|done|by eexists| |done]. intros m'. unfold sent_messages. simpl.
    rewrite fmap_app, elem_of_app. intros [?|Hx]; [by left|]. apply list_elem_of_singleton in Hx. subst. right. eauto. }
  split_and!; [done..|]. apply Hk; [by etrans|done|]. simpl. apply elem_of_app. right. by left.
Qed.

Lemma wp_clock (k : Z → program A) w :
  (∀ now w2, ingress_grows w w2 → ingress_ok w2 → wp (k now) Q w2) → wp (Call UtcNow k) Q w.
Proof. intros Hk. by apply wp_now; [apply _|]. Qed.

Lemma wp_new_v4 (k : Uuid → program A) w :
  (∀ u w2, ingress_grows w w2 → ingress_ok w2 → wp (k u) Q w2) → wp (Call (Local draw) k) Q w.
Proof.
  intros Hk. apply wp_local. intros w2 u s Hr Hi. simpl. intros [= <- <-].
  set (w3 := committed w2 _).
  assert (ingress_ok w3 ∧ ingress_grows w2 w3) as [Hi3 Hg3] by by apply ingress_ok_unchanged.
  split_and!; [done..|]. apply Hk; [by etrans|done].
Qed.

Lemma wp_done (a : A) w : (∀ w2, ingress_grows w w2 → ingress_ok w2 → Q a w2) → wp (Ret a : program A) Q w.
Proof. done. Qed.
End rules.

(** ** Programs that leave the records alone *)

(** They send none of the ingress's messages, and at most create the bucket or put a
    new row of the command cache in it; [Q] is true of what they answer. *)
Definition calm_change b b' : Prop :=
  b' = b ∨ kv_max_age b = None ∨
  ∃ key c now, kv_entries b !! key = None ∧ b' = kv_put key (Value_Cache c) now b.

Definition calm_op {X} (op : await X) : Prop :=
  match op with
  | Transact f => ∀ now s x s', f now s = Ok (x, s') → calm_change (idempotency_bucket s) (idempotency_bucket s')
  | Send m => tracked m = false
  | Local f => ∀ s, idempotency_bucket (f s).2 = idempotency_bucket s
  | _ => True
  end.

Fixpoint calm {A} (p : program A) (Q : A → Prop) : Prop :=
  match p with
  | Ret a => Q a
  | Call op k => calm_op op ∧ ∀ x, calm (k x) Q
  | Join _ _ => False
  end.

Lemma calm_bind {A B} (p : program A) (f : A → program B) Q :
  calm p (λ a, calm (f a) Q) → calm (bind p f) Q.
Proof.
  revert f Q. induction p as [A a|A X op k IH|A ps k _ _] using @prog_nested_ind; intros f Q; simpl; [done| |done].
  intros [Ho Hk]. split; [done|]. intros x. by apply IH.
Qed.

Lemma calm_mono {A} (p : program A) (Q Q' : A → Prop) : (∀ a, Q a → Q' a) → calm p Q → calm p Q'.
Proof.
  revert Q Q'. induction p as [A a|A X op k IH|A ps k _ _] using @prog_nested_ind; intros Q Q' HQ; simpl; [auto| |done].
  intros [Ho Hk]. split; [done|]. intros x. by eapply IH.
Qed.

Lemma calm_bind_ok {A B F} (p : program (result A F)) (f : A → program (result B F)) Q :
  calm p (λ x, match x with Ok a => calm (f a) Q | Err e => Q (Err e) end) → calm (bind_ok p f) Q.
Proof. intros Hp. apply calm_bind. revert Hp. apply calm_mono. by intros [a|e]. Qed.

Lemma calm_erring {A F G} (f : F → G) (p : program (result A F)) Q :
  calm p (λ x, Q (map_err f x)) → calm (erring f p) Q.
Proof. intros Hp. by apply calm_bind. Qed.

Lemma calm_step X (op : await X) o w x w' :
  calm_op op → ingress_ok w → perform X op o w = (x, w') → ingress_ok w' ∧ ingress_grows w w'.
Proof.
  intros Ho Hi. assert (∀ s, calm_change (idempotency_bucket (now_store w)) (idempotency_bucket s) →
    ingress_ok (committed w s) ∧ ingress_grows w (committed w s)) as Hc.
  { intros s [Hb|[Hb|(key & c & now & Hn & Hb)]].
    - by apply ingress_ok_unchanged.
    - by rewrite (ok_open _ Hi) in Hb.
    - apply (ingress_ok_put w s key (Value_Cache c) now); [done| |done|done]. intros n v0. by rewrite Hn. }
  destruct op as [Y f|m| | | |Y f]; simpl in Ho; cbn [perform]; try (intros [= _ <-]; by split).
  - unfold transact. destruct (out_fate o); [|intros [= _ <-]; by split|];
      (destruct (f _ _) as [[y s]|e] eqn:Hf; intros [= _ <-]; [eauto|by split]).
  - intros [= _ <-]. apply ingress_ok_same; [done|done|by eexists| |done]. intros m'. unfold sent_messages. simpl.
    rewrite fmap_app, elem_of_app. intros [?|Hx]; [by left|]. apply list_elem_of_singleton in Hx. subst. right.
    by destruct m.
  - specialize (Ho (now_store w)). destruct (f _) as [y s]. intros [= _ <-]. apply Hc. by left.
Qed.

Lemma wp_calm {A} (p : program A) (Q : A → Prop) w : calm p Q → wp p (λ a _, Q a) w.
Proof.
  revert Q w. induction p as [A a|A X op k IH|A ps k _ _] using @prog_nested_ind; intros Q w; simpl; [done| |done].
  intros [Ho Hk] w2 o _ Hi. destruct (perform X op o w2) as [x w3] eqn:Hp.
  destruct (calm_step _ _ _ _ _ _ Ho Hi Hp). auto.
Qed.
End invariant.
#[export] Hint Resolve settled_grows forwarded_grows entry_ok_grows sent_ok_grows : ingress.
#[global] Arguments calm : simpl never.
