(* ===== verification/IngressCalm.v ===== *)
(** * What runs beside the records

    The signal pipelines, the linkage, the cleanup and the command routes leave the
    producer records alone: they send none of the ingress's messages and at most add
    a row to the command cache. *)

From S2P Require Import Prelude Workflow Json Uuid Captures GateIndex SubscriptionIndex Programs Workers Idempotency DefinitionStore SignalMessages SignalStore ScopeStore SignalPipelines Ingress IngressRecords.

Section calm.
Context `{UuidOps Uuid} `{!Countable Uuid} {JsonPath : Type} `{!Runtime Uuid JsonPath} `{!RuntimeLaws Uuid JsonPath}.

Abbreviation state := (SignalState Uuid JsonPath).
Abbreviation await := (Await state Outgoing Refusal Uuid).
Abbreviation failure := (RepositoryError Refusal).
Abbreviation program A := (prog await failure A).
Abbreviation working_set := (WorkingSet (Uuid := Uuid) (JsonPath := JsonPath)).

(** ** The pipelines are calm *)

(** A program that leaves the bucket as it is. *)
Definition keeps_bucket {X} (f : Z → state → result (X * state) Refusal) : Prop :=
  ∀ now s x s', f now s = Ok (x, s') → idempotency_bucket s' = idempotency_bucket s.

Lemma calm_transact {X} (f : Z → state → result (X * state) Refusal) Q :
  keeps_bucket f → (∀ x, Q x) → calm (call (Transact f)) Q.
Proof. intros Hf HQ. split; [|done]. intros now s x s' Hs. left. eauto. Qed.

Lemma calm_ret {A} (a : A) (Q : A → Prop) : Q a → calm (Ret a : program A) Q.
Proof. done. Qed.
Lemma calm_clock {A} (k : Z → program A) Q : (∀ now, calm (k now) Q) → calm (bind (call UtcNow) k) Q.
Proof. done. Qed.
Lemma calm_local {X A} (f : state → X * state) (k : X → program A) Q :
  (∀ s, idempotency_bucket (f s).2 = idempotency_bucket s) → (∀ x, calm (k x) Q) →
  calm (bind (call (Local f)) k) Q.
Proof. done. Qed.
Lemma calm_send {A} m (k : bool → program A) Q :
  tracked m = false → (∀ b, calm (k b) Q) → calm (bind (call (Send m)) k) Q.
Proof. done. Qed.

Lemma on_audit_keeps {X} (f : Z → SignalStore Uuid → result (X * SignalStore Uuid) SignalError) : keeps_bucket (on_audit f).
Proof. intros now s x s'. unfold on_audit. destruct (f _ _) as [y|e]; [|done]. by intros [= _ <-]. Qed.

Ltac read_only := intros ? ? ? ?; repeat case_match; intros; simplify_eq/=; done.

Lemma calm_open_ctx Q : (∀ x, Q x) → calm (open_ctx_bucket (JsonPath := JsonPath)) Q.
Proof.
  intros HQ. apply calm_bind, calm_transact; [read_only|]. intros [u|e]; [apply HQ|].
  apply calm_transact; [read_only|done].
Qed.

Lemma on_ctx_keeps {X} key (f : gmap string (list Z) → result (X * gmap string (list Z)) Refusal) :
  keeps_bucket (on_ctx (JsonPath := JsonPath) key f).
Proof.
  intros now s x s'. unfold on_ctx. destruct (negb _); [done|]. destruct (ctx_bucket s) as [b|]; [|done].
  destruct (f b); [|done]. by intros [= _ <-].
Qed.

Lemma calm_ctx_put key v Q : (∀ x, Q x) → calm (ctx_put (JsonPath := JsonPath) key v) Q.
Proof. intros HQ. apply calm_transact; [apply on_ctx_keeps|done]. Qed.
Lemma calm_ctx_get key Q : (∀ x, Q x) → calm (ctx_get (JsonPath := JsonPath) key) Q.
Proof. intros HQ. apply calm_transact; [apply on_ctx_keeps|done]. Qed.
Lemma calm_ctx_delete key Q : (∀ x, Q x) → calm (ctx_delete (JsonPath := JsonPath) key) Q.
Proof. intros HQ. apply calm_transact; [apply on_ctx_keeps|done]. Qed.

Lemma calm_put_captures id captures Q : (∀ x, Q x) → calm (put_captures (JsonPath := JsonPath) id captures) Q.
Proof.
  intros HQ. induction captures as [|[name e] rest IH]; [apply HQ|].
  apply calm_bind_ok, calm_ctx_put. by intros [u|err].
Qed.

Lemma calm_write_nats id captures Q : (∀ x, Q x) → calm (write_captures_to_nats (JsonPath := JsonPath) id captures) Q.
Proof.
  intros HQ. destruct captures as [|c rest]; [apply HQ|].
  apply calm_bind_ok, calm_open_ctx. intros [u|err]; [by apply calm_put_captures|done].
Qed.

Lemma calm_extract payload captures id source Q :
  (∀ x, Q x) → calm (extract_envelopes (JsonPath := JsonPath) payload captures id source) Q.
Proof.
  revert Q. induction captures as [|c rest IH]; intros Q HQ; [apply HQ|].
  apply calm_clock. intros now. destruct (extract_one _ _ _ _ _ _ _ _ _) as [named|e]; [|apply HQ].
  apply calm_bind_ok, IH. intros [l|e]; apply HQ.
Qed.

Lemma calm_insert_captures id wf v captures Q :
  (∀ x, Q x) → calm (insert_captures (JsonPath := JsonPath) id wf v captures) Q.
Proof.
  intros HQ. apply calm_bind_ok, calm_transact; [apply on_audit_keeps|]. intros [u|e]; apply HQ.
Qed.

(** A scope store is calm in itself. *)
Definition calm_store (store : ScopeStoreOps (Uuid := Uuid) (JsonPath := JsonPath)) : Prop :=
  (∀ input, calm (so_create store input) (λ _, True)) ∧ (∀ input, calm (so_write store input) (λ _, True)).
Definition calm_set (ws : working_set) : Prop :=
  match ws with Working_Scope store => calm_store store | _ => True end.

Lemma draw_many_bucket n (s : state) : idempotency_bucket (draw_many n s).2 = idempotency_bucket s.
Proof.
  revert s. induction n as [|n IH]; intros s; [done|]. simpl. specialize (IH (draw s).2). simpl in *.
  destruct (draw_many n _) as [us s']. by rewrite <- IH.
Qed.

Lemma on_scopes_keeps {X} n (f : list Uuid → ScopeTables Uuid → result (X * ScopeTables Uuid) ScopeRepositoryError) :
  keeps_bucket (on_scopes n f).
Proof.
  intros now s x s'. unfold on_scopes. pose proof (draw_many_bucket n s) as Hd.
  destruct (draw_many n s) as [ids s1]. destruct (f _ _) as [y|e]; [|done]. by intros [= _ <-].
Qed.

Lemma sql_store_calm : calm_store sql_scope_store.
Proof. split; intros input; (apply calm_transact; [apply on_scopes_keeps|done]). Qed.

Lemma calm_write_event store namespace id run owner captures Q :
  calm_store store → (∀ x, Q x) → calm (write_event_captures store namespace id run owner captures) Q.
Proof.
  intros [Hc Hw] HQ. destruct captures as [|c rest]; [apply HQ|].
  apply calm_clock. intros now. apply calm_bind. eapply calm_mono; [|apply Hc].
  intros [o|e] _; [|apply HQ]. destruct o as [| |existing| |]; try apply HQ. case_bool_decide; [|apply HQ].
  apply calm_bind. eapply calm_mono; [|apply Hw]. intros [o|e] _; [destruct o|]; apply HQ.
Qed.

Lemma calm_open_bucket Q : (∀ x, Q x) → calm (open_bucket : program (result unit failure)) Q.
Proof.
  intros HQ. apply calm_bind, calm_transact; [read_only|]. intros [u|e]; [apply HQ|].
  split; [|done]. intros now s x s'. simpl. destruct (kv_max_age _) as [age|] eqn:Ha; [|by right; left].
  case_bool_decide; [|done]. intros [= _ <-]. by left.
Qed.

Lemma calm_bucket_entry key Q :
  (∀ x, Q x) → calm (bucket_entry key : program (result (option (nat * BucketValue Uuid)) failure)) Q.
Proof. intros HQ. apply calm_transact; [|done]. by intros now s x s' (b & [= _ <-] & ->)%on_bucket_inv. Qed.

(** The command cache only adds rows. *)
Lemma calm_check_or_insert key id hash Q :
  (∀ x, Q x) → calm (check_or_insert hex key id hash : program (result (CacheOutcome Uuid) (IngressError Refusal))) Q.
Proof.
  intros HQ. apply calm_bind. split.
  { intros now s [] s' (b & [Hn ->]%create_inv & ->)%on_bucket_inv. do 2 right. eauto. }
  intros [u|e]; [apply HQ|]. apply calm_bind_ok, calm_bind, calm_bucket_entry.
  intros [[[n v]|]|err]; try apply HQ.
  apply calm_ret. simpl. destruct (as_cache v); apply HQ.
Qed.

Lemma calm_consult ws key reserved id hash Q :
  (∀ x, (reserved = true → ∀ o, x = Ok o → o = None) → Q x) →
  calm (consult_cache (JsonPath := JsonPath) ws key reserved id hash) Q.
Proof.
  intros HQ. unfold consult_cache. destruct reserved; [apply HQ; naive_solver|].
  destruct key as [key|]; [|apply HQ; naive_solver]. destruct ws; try (apply HQ; naive_solver).
  apply calm_bind_ok, calm_erring, calm_open_bucket. intros [u|e]; simpl; [|apply HQ; naive_solver].
  apply calm_bind_ok, calm_check_or_insert. intros [o|e]; apply HQ; naive_solver.
Qed.

Lemma calm_signal_id (reserved : option Uuid) {A} (k : Uuid → program A) Q :
  (∀ id, (∀ id', reserved = Some id' → id = id') → calm (k id) Q) →
  calm (bind (match reserved with Some id => Ret id | None => new_v4 end) k) Q.
Proof.
  intros Hk. destruct reserved as [id|]; [apply Hk; naive_solver|].
  apply calm_local; [done|]. intros id. apply Hk. done.
Qed.

Lemma calm_write_trigger ws id captures Q :
  calm_set ws → (∀ x, Q x) → calm (write_trigger_captures ws id captures) Q.
Proof.
  intros Hw HQ. destruct ws as [| |store]; [apply HQ| |];
    apply calm_erring; [by apply calm_write_nats|by apply calm_write_event].
Qed.

Lemma calm_backfill id wf at_ Q : (∀ x, Q x) → calm (backfill_pending_schedule_linkage (JsonPath := JsonPath) id wf at_) Q.
Proof.
  intros HQ. apply calm_bind_ok, calm_transact; [apply on_audit_keeps|]. intros [u|e]; apply HQ.
Qed.

Lemma calm_release ws req workflow id reserved Q :
  calm_set ws → (∀ e, Q (Err e)) → (∀ results, Q (Ok (Trigger_Fresh id (trigger_signal req id) results))) →
  calm (release_trigger ws req workflow id reserved) Q.
Proof.
  intros Hw Herr HQ. apply calm_bind_ok, calm_erring, calm_extract. intros [extracted|e]; [|apply Herr].
  apply calm_bind_ok, calm_erring, calm_insert_captures. intros [u|e]; [|apply Herr].
  apply calm_bind. lazymatch goal with |- calm _ ?P => assert (∀ x, P x) as Hrest end.
  { intros x. apply calm_bind_ok, calm_write_trigger; [done|]. intros [v|e]; [apply HQ|apply Herr]. }
  destruct (tr_scheduled_at req); [by apply calm_backfill|apply (Hrest (Ok id))].
Qed.

Lemma calm_trigger ws req reserved Q :
  calm_set ws → (∀ e, Q (Err e)) →
  (∀ o, (∀ id signal results, o = Trigger_Fresh id signal results →
           signal = trigger_signal req id ∧ ∀ id', reserved = Some id' → id = id') → Q (Ok o)) →
  calm (process_trigger_with_working_set ws req reserved) Q.
Proof.
  intros Hw Herr HQ. apply calm_bind_ok, calm_erring, calm_transact; [read_only|].
  intros [[workflow|]|e]; [|apply Herr|apply Herr]. cbn [map_err].
  destruct (_ && _); [apply Herr|]. apply calm_signal_id. intros id Hid.
  apply calm_bind_ok, calm_erring, calm_consult. intros [cached|e] _; [|apply Herr]. cbn [map_err].
  assert (calm (release_trigger ws req workflow id (bool_decide (is_Some reserved))) Q) as Hgo.
  { apply calm_release; [done..|]. intros results. apply HQ. by intros ? ? ? [= <- <- <-]. }
  destruct cached as [[|original|original hash]|]; [done|apply HQ|apply HQ|done]; naive_solver.
Qed.

(** An intent of a wakeup under the signal id. *)
Definition wakes (id : Uuid) (i : RelayIntent) : Prop :=
  match i with
  | Intent_Signal _ => False
  | Intent_WakeupSignal bytes => ∃ s,
      decode_signal bytes = Some s ∧ signal_id s = uuid_to_string id ∧ idempotency_key s = None
  | Intent_GateOutcome bytes => ∃ o, decode_gate bytes = Some o ∧ go_signal_id o = uuid_to_string id
  end.

Lemma calm_write_captures ws id owner captures Q :
  calm_set ws → (∀ x, Q x) → calm (write_captures ws id owner captures) Q.
Proof.
  intros Hw HQ. destruct ws as [| |store]; [apply HQ| |];
    apply calm_erring; [by apply calm_write_nats|by apply calm_write_event].
Qed.

Lemma calm_subscriber_captures ws id name entry payload Q :
  calm_set ws → (∀ x, Q x) → calm (persist_subscriber_captures ws id name entry payload) Q.
Proof.
  intros Hw HQ. apply calm_bind_ok, calm_erring, calm_extract. intros [[|c rest]|e]; [apply HQ| |apply HQ].
  apply calm_bind_ok, calm_erring, calm_insert_captures. intros [u|e]; [by apply calm_write_captures|apply HQ].
Qed.

Lemma calm_gate_captures ws id name gate payload Q :
  calm_set ws → (∀ x, Q x) → calm (write_gate_captures ws id name gate payload) Q.
Proof.
  intros Hw HQ. apply calm_bind_ok, calm_erring, calm_extract.
  intros [[|c rest]|e]; [apply HQ|by apply calm_write_captures|apply HQ].
Qed.

Lemma calm_sender_send sender id name wf collected Q :
  Forall (wakes id) collected →
  (∀ x, (∀ l, x = Ok l → Forall (wakes id) l) → Q x) →
  calm (sender_send (JsonPath := JsonPath) sender (wakeup_trigger name id wf) collected) Q.
Proof.
  intros Hc HQ. destruct sender.
  - apply calm_send; [done|]. intros [|]; apply HQ; naive_solver.
  - apply HQ. intros l [= <-]. apply Forall_app. split; [done|]. apply Forall_singleton.
    eexists. by rewrite decode_encode_signal by done.
Qed.

Lemma calm_sender_gate sender id instance edge collected Q :
  Forall (wakes id) collected →
  (∀ x, (∀ l, x = Ok l → Forall (wakes id) l) → Q x) →
  calm (sender_send_gate_outcome (JsonPath := JsonPath) sender
          (mkGateOutcome instance edge (uuid_to_string id)) collected) Q.
Proof.
  intros Hc HQ. destruct sender.
  - apply calm_send; [done|]. intros [|]; apply HQ; naive_solver.
  - apply HQ. intros l [= <-]. apply Forall_app. split; [done|]. apply Forall_singleton.
    eexists. by rewrite decode_encode_gate.
Qed.

Lemma calm_wake_subscribers ws sender reserved id name payload entries matched collected Q :
  calm_set ws → Forall (wakes id) collected →
  (∀ e, Q (Err e)) → (∀ n l, Forall (wakes id) l → Q (Ok (n, l))) →
  calm (wake_subscribers ws sender reserved id name payload entries matched collected) Q.
Proof.
  intros Hw Hc Herr HQ. revert matched collected Hc.
  induction entries as [|entry entries IH]; intros matched collected Hc; [by apply HQ|]. cbn [wake_subscribers].
  destruct (predicate_matches _ _); [|by apply IH]. apply calm_bind.
  lazymatch goal with |- calm _ ?P => assert (∀ x, P x) as Hgo end.
  { assert (calm (let* sent := sender_send sender (wakeup_trigger name id (sub_workflow_id entry)) collected in
        match sent, reserved with
        | Ok collected, _ => wake_subscribers ws sender reserved id name payload entries (saturating_add matched 1) collected
        | Err _, true => Ret (Err Wakeup_SignalIntent)
        | Err _, false => wake_subscribers ws sender reserved id name payload entries matched collected
        end) Q) as Hsend.
    { apply calm_bind, calm_sender_send; [done|]. intros [l|e] Hl; [eapply IH; by apply Hl|].
      destruct reserved; [apply Herr|by apply IH]. }
    intros [u|e]; [done|]. destruct reserved; [apply Herr|done]. }
  destruct (has_working_set ws); [by apply calm_subscriber_captures|apply (Hgo (Ok tt))].
Qed.

Lemma calm_wake_gates ws sender reserved id name payload entries matched collected Q :
  calm_set ws → Forall (wakes id) collected →
  (∀ e, Q (Err e)) → (∀ n l, Forall (wakes id) l → Q (Ok (n, l))) →
  calm (wake_gates ws sender reserved id name payload entries matched collected) Q.
Proof.
  intros Hw Hc Herr HQ. revert matched collected Hc.
  induction entries as [|gate entries IH]; intros matched collected Hc; [by apply HQ|]. cbn [wake_gates].
  destruct (predicate_matches _ _); [|by apply IH]. apply calm_bind.
  lazymatch goal with |- calm _ ?P => assert (∀ x, P x) as Hgo end.
  { assert (calm (let* sent := sender_send_gate_outcome sender
          (mkGateOutcome (uuid_to_string (workflow_instance_id gate)) (uuid_to_string (entry_edge_id gate))
             (uuid_to_string id)) collected in
        match sent, reserved with
        | Ok collected, _ =>
            let* _ := unregister_gate gate in
            wake_gates ws sender reserved id name payload entries (saturating_add matched 1) collected
        | Err _, true => Ret (Err Wakeup_GateIntent)
        | Err _, false => wake_gates ws sender reserved id name payload entries matched collected
        end) Q) as Hsend.
    { apply calm_bind, calm_sender_gate; [done|]. intros [l|e] Hl.
      - apply calm_local; [done|]. intros _. apply IH; by apply Hl.
      - destruct reserved; [apply Herr|by apply IH]. }
    intros [u|e]; [done|]. destruct reserved; [apply Herr|done]. }
  destruct (has_working_set ws); [by apply calm_gate_captures|apply (Hgo (Ok tt))].
Qed.

Lemma calm_wakeup ws sender req reserved Q :
  calm_set ws → (∀ e, Q (Err e)) →
  (∀ o l, (∀ id, reserved = Some id → Forall (wakes id) l) → Q (Ok (o, l))) →
  calm (process_wakeup_with_working_set ws sender req reserved) Q.
Proof.
  intros Hw Herr HQ. apply calm_signal_id. intros id Hid. apply calm_bind_ok, calm_erring, calm_consult.
  intros [cached|e] _; [|apply Herr]. cbn [map_err].
  destruct cached as [[|original|original hash]|]; try (apply HQ; by constructor).
  all: apply calm_local; [done|]; intros entries; apply calm_local; [done|]; intros gate_entries.
  all: assert (∀ l, Forall (wakes id) l → ∀ id', reserved = Some id' → Forall (wakes id') l) as Hl
         by (intros l Hl id' Hr; by rewrite <- (Hid _ Hr)).
  all: destruct entries as [|entry entries], gate_entries as [|gate gate_entries];
         [apply HQ; by constructor|..].
  all: apply calm_bind_ok, calm_wake_subscribers; [done|by constructor|done|]; intros n l Hn.
  all: apply calm_bind_ok, calm_wake_gates; [done|done|done|]; intros m l' Hl'.
  all: apply calm_bind, calm_transact; [apply on_audit_keeps|]; intros [u|e];
         [by apply HQ, Hl|destruct (bool_decide _); [apply Herr|by apply HQ, Hl]].
Qed.

(** ** Programs that run beside the deliveries *)

Inductive beside : program unit → Prop :=
| beside_trigger req : beside (let* _ := process_trigger req in Ret tt)
| beside_trigger_local req : beside (let* _ := process_trigger_local req in Ret tt)
| beside_wakeup req : beside (let* _ := process_wakeup req in Ret tt)
| beside_wakeup_local req : beside (let* _ := process_wakeup_local req in Ret tt)
| beside_cancel turns req : beside (let* _ := process_cancel turns req in Ret tt)
| beside_cancel_local turns req : beside (let* _ := process_cancel_with_notifications turns req in Ret tt)
| beside_link id run : beside (let* _ := link_and_rehydrate id run in Ret tt)
| beside_terminal run : beside (let* _ := on_workflow_terminal run in Ret tt)
| beside_sweep grace : beside (let* _ := sweep_expired grace in Ret tt)
| beside_gates {E} (dispatched : result (list (Row (Uuid := Uuid))) E) :
    beside (let* _ := rebuild_from_server dispatched in Ret tt).

Abbreviation always := (λ _, True).

Lemma calm_await_bytag turns deadline id : calm (await_bytag (JsonPath := JsonPath) turns deadline id) always.
Proof.
  induction turns as [|turns IH]; [done|]. apply calm_bind, calm_erring, calm_transact; [read_only|].
  intros [[count|]|e]; [done| |done]. apply calm_clock. intros now. by destruct (_ <=? _)%Z.
Qed.

Lemma calm_prepared_cancel turns req id target : calm (process_prepared_cancel (JsonPath := JsonPath) turns req id target) always.
Proof.
  unfold process_prepared_cancel. set (is_bytag := match cr_target req with Body_ByTag _ => true | _ => false end).
  apply calm_bind. lazymatch goal with |- calm _ ?P => assert (∀ x, P x) as Hgo end.
  { intros [u|e]; [|done]. apply calm_send; [done|]. intros [|]; [|done]. cbn [negb]. destruct is_bytag.
    - apply calm_bind, calm_clock. intros now. eapply calm_mono; [|apply calm_await_bytag]. done.
    - apply calm_bind, calm_transact; [apply on_audit_keeps|done]. }
  destruct is_bytag; [apply calm_transact; [apply on_audit_keeps|done]|apply (Hgo (Ok tt))].
Qed.

Lemma calm_cancel turns req : calm (process_cancel (JsonPath := JsonPath) turns req) always.
Proof.
  apply calm_local; [done|]. intros id. destruct (cr_idempotency_key req) as [key|]; [|apply calm_prepared_cancel].
  apply calm_bind, calm_open_bucket. intros [u|e]; [|done].
  apply calm_bind, calm_check_or_insert. intros [[| |]|e]; [apply calm_prepared_cancel|done..].
Qed.

Lemma calm_rehydrate id captures Q : (∀ x, Q x) → calm (rehydrate (JsonPath := JsonPath) id captures) Q.
Proof.
  intros HQ. induction captures as [|[name e] rest IH]; [apply HQ|].
  apply calm_bind_ok, calm_ctx_get. intros [[v|]|err]; [apply IH| |apply HQ].
  apply calm_bind_ok, calm_ctx_put. by intros [u|err].
Qed.

Lemma calm_link id run : calm (link_and_rehydrate (JsonPath := JsonPath) id run) always.
Proof.
  apply calm_bind_ok, calm_erring, calm_transact; [apply on_audit_keeps|]. intros [o|e]; [|done].
  apply calm_bind_ok, calm_bind_ok, calm_erring, calm_transact; [read_only|].
  intros [[row|]|e]; [|done|done]. simpl. apply calm_ret.
  destruct (decode_envelopes _) as [[|c l]|]; [done| |done].
  apply calm_bind_ok, calm_erring, calm_open_ctx. intros [u|e]; [|done].
  apply calm_erring, calm_rehydrate. done.
Qed.

Lemma calm_delete_keys id names Q : Q tt → calm (delete_keys (JsonPath := JsonPath) id names) Q.
Proof.
  intros HQ. induction names as [|name rest IH]; [done|]. by apply calm_bind, calm_ctx_delete.
Qed.

Lemma calm_reclaim open (rows : list (SignalCapturesRecord Uuid)) Q :
  (∀ x, Q x) → calm (reclaim_rows (JsonPath := JsonPath) open rows) Q.
Proof.
  revert Q. induction rows as [|row rest IH]; intros Q HQ; [apply HQ|]. apply calm_bind.
  lazymatch goal with |- calm _ ?P => assert (P tt) as Hgo end.
  { apply calm_bind, IH. intros l. apply HQ. }
  destruct open; [by apply calm_delete_keys|done].
Qed.

Lemma calm_terminal run : calm (on_workflow_terminal (JsonPath := JsonPath) run) always.
Proof.
  apply calm_bind_ok, calm_transact; [apply on_audit_keeps|].
  intros [[[|row rows]|e]|e]; [done| |done|done]. apply calm_bind, calm_transact; [read_only|]. intros kv.
  apply calm_bind, calm_reclaim. done.
Qed.

Lemma calm_sweep_rows open cutoff (rows : list (SignalCapturesRecord Uuid)) n :
  calm (sweep_rows (JsonPath := JsonPath) open cutoff rows n) always.
Proof.
  revert n. induction rows as [|row rest IH]; intros n; [done|]. apply calm_bind.
  lazymatch goal with |- calm _ ?P => assert (P tt) as Hgo end.
  { apply calm_bind_ok, calm_transact; [apply on_audit_keeps|]. intros [gone|e]; [apply IH|done]. }
  destruct open; [by apply calm_delete_keys|done].
Qed.

Lemma calm_sweep grace : calm (sweep_expired (JsonPath := JsonPath) grace) always.
Proof.
  apply calm_clock. intros now. apply calm_bind_ok, calm_transact; [read_only|].
  intros [[|row rows]|e]; [done| |done]. apply calm_bind, calm_transact; [read_only|]. intros kv. apply calm_sweep_rows.
Qed.

Lemma calm_rebuild {E} (dispatched : result (list (Row (Uuid := Uuid))) E) :
  calm (rebuild_from_server (JsonPath := JsonPath) dispatched) always.
Proof. destruct dispatched; by apply calm_local. Qed.

Lemma beside_calm p : beside p → calm p always.
Proof.
  destruct 1 as [req|req|req|req|turns req|turns req|id run|run|grace|E dispatched]; apply calm_bind.
  - by apply calm_trigger.
  - by apply calm_trigger.
  - by apply calm_wakeup.
  - by apply calm_wakeup.
  - apply calm_cancel.
  - apply calm_local; [done|]. intros id. apply calm_prepared_cancel.
  - apply calm_link.
  - apply calm_terminal.
  - apply calm_sweep.
  - apply calm_rebuild.
Qed.
End calm.
