(* ===== verification/IngressDemo.v ===== *)
(** * A concrete runtime

    Small stand-ins for what the conductor links against, with which the programs of
    [SignalPipelines] and [Ingress] evaluate: the codec of signals reads back what it
    writes, payloads are names for documents. *)

From stdpp Require Import countable pretty.
From S2P Require Import Prelude Workflow Json Uuid Captures GateIndex SubscriptionIndex Idempotency DefinitionStore SignalMessages Sha256 SignalStore ScopeStore SignalPipelines Ingress IngressRecords.

(** ** The codec *)

Fixpoint pos_text (p : positive) : string :=
  match p with xH => "" | xO p => String "0" (pos_text p) | xI p => String "1" (pos_text p) end.
Fixpoint text_pos (s : string) : positive :=
  match s with EmptyString => xH | String c s => if bool_decide (c = "1"%char) then xI (text_pos s) else xO (text_pos s) end.

Lemma text_pos_text p : text_pos (pos_text p) = p.
Proof. induction p as [p IH|p IH|]; simpl; [by rewrite IH..|done]. Qed.

Definition write {A} `{Countable A} (a : A) : string := pos_text (encode a).
Definition read {A} `{Countable A} (s : string) : option A := decode (text_pos s).

Lemma read_write {A} `{Countable A} (a : A) : read (write a) = Some a.
Proof. unfold read, write. by rewrite text_pos_text, decode_encode. Qed.

Definition source_code : Type := (unit + string) + (string + string * list string).
Definition trigger_code : Type := string * option string * option (option source_code) * option string.
Definition target_code : Type := option (option (string * option string + gmap string string)).
Definition reason_code : Type := option (option (unit + (option string + string))).
Definition cancel_code : Type := target_code * reason_code * option string.
Definition signal_code : Type := string * option string * (trigger_code + cancel_code).

Definition code_source (k : TriggerSourceKind) : source_code :=
  match k with
  | Source_Manual => inl (inl tt) | Source_External s => inl (inr s)
  | Source_Wakeup n => inr (inl n) | Source_Replay s l => inr (inr (s, l))
  end.
Definition source_of (c : source_code) : TriggerSourceKind :=
  match c with
  | inl (inl _) => Source_Manual | inl (inr s) => Source_External s
  | inr (inl n) => Source_Wakeup n | inr (inr (s, l)) => Source_Replay s l
  end.
Definition code_target (t : TargetAddressing) : string * option string + gmap string string :=
  match t with Addressing_Instance w n => inl (w, n) | Addressing_ByTag f => inr f end.
Definition target_of (c : string * option string + gmap string string) : TargetAddressing :=
  match c with inl (w, n) => Addressing_Instance w n | inr f => Addressing_ByTag f end.
Definition code_reason (k : CancelReasonKind) : unit + (option string + string) :=
  match k with Reason_Timeout => inl tt | Reason_UserRequested a => inr (inl a) | Reason_External s => inr (inr s) end.
Definition reason_of (c : unit + (option string + string)) : CancelReasonKind :=
  match c with inl _ => Reason_Timeout | inr (inl a) => Reason_UserRequested a | inr (inr s) => Reason_External s end.

Definition code_signal (s : Signal) : option signal_code :=
  match signal_variant s with
  | Some (Variant_Trigger (mkTriggerMessage w at_ src name None)) =>
      Some (signal_id s, idempotency_key s, inl (w, at_, (λ x, code_source <$> source_kind x) <$> src, name))
  | Some (Variant_Cancel (mkCancel target reason note)) =>
      Some (signal_id s, idempotency_key s,
            inr ((λ x, code_target <$> addressing x) <$> target, (λ x, code_reason <$> reason_kind x) <$> reason, note))
  | _ => None
  end.

Definition signal_of (c : signal_code) : Signal :=
  match c with
  | (id, key, inl (w, at_, src, name)) =>
      mkSignal id key (Some (Variant_Trigger (mkTriggerMessage w at_ ((λ x, mkTriggerSource (source_of <$> x)) <$> src) name None)))
  | (id, key, inr (target, reason, note)) =>
      mkSignal id key (Some (Variant_Cancel (mkCancel ((λ x, mkTarget (target_of <$> x)) <$> target)
                                               ((λ x, mkCancelReason (reason_of <$> x)) <$> reason) note)))
  end.

Definition demo_encode_signal (s : Signal) : string := default "" (write <$> code_signal s).
Definition demo_decode_signal (s : string) : option Signal := signal_of <$> read s.
Definition demo_encode_gate (o : GateOutcome) : string :=
  write (go_workflow_instance_id o, go_edge_id o, go_signal_id o).
Definition demo_decode_gate (s : string) : option GateOutcome :=
  (λ c : string * string * string, mkGateOutcome c.1.1 c.1.2 c.2) <$> read s.

Lemma code_signal_of s : ingress_signal s → ∃ c, code_signal s = Some c ∧ signal_of c = s.
Proof.
  destruct s as [id key [[c|w|t|r]|]]; try done; intros Hs.
  - destruct c as [target reason note]. eexists. split; [done|]. simpl. repeat f_equal.
    + by destruct target as [[[[]|]]|].
    + by destruct reason as [[[[]|]]|].
  - destruct t as [w at_ src name replay]. unfold ingress_signal in Hs. simpl in Hs. subst.
    eexists. split; [done|]. simpl. repeat f_equal. by destruct src as [[[[]|]]|].
Qed.

(** ** The rest *)

Definition demo_envelope (variant key : string) (fields : list (string * Json)) : Json :=
  JObject ([("version", JNumber (JInt 1)); ("idempotency_key", JString key); ("variant", JString variant)] ++ fields).

Definition demo_target : Json :=
  JObject [("Instance", JObject [("workflow_instance_id", JString (uuid_to_string (unary 9)))])].

(** A cancel, the same key with another reason, a wakeup, and no document. *)
Definition demo_from_slice (s : string) : result Json string :=
  if bool_decide (s = "cancel") then
    Ok (demo_envelope "Cancel" "k" [("target", demo_target); ("reason", JString "Timeout")])
  else if bool_decide (s = "other") then
    Ok (demo_envelope "Cancel" "k" [("target", demo_target); ("reason", JString "None"); ("note", JString "other")])
  else if bool_decide (s = "wakeup") then
    Ok (demo_envelope "Wakeup" "w" [("name", JString "paid"); ("target", JNull);
                                     ("payload", JObject [("net", JString "7"); ("gross", JString "9")])])
  else Err "expected value".

Fixpoint json_size (v : Json) : nat :=
  match v with
  | JArray l => S (sum_list (json_size <$> l))
  | JObject m => S (sum_list ((λ e, json_size e.2) <$> m))
  | _ => 1
  end.

Definition demo_hex (l : list N) : string := foldr (λ n s, pretty n +:+ "." +:+ s) "" l.

Definition demo_capture : Envelope bit_uuid :=
  mkEnvelope 2 "json" JNull false (Producer_Signal (unary 3) Manual) true "5" "".

(** The names are kept, the envelopes are all alike. *)
Definition demo_decode_envelopes (v : Json) : option (list (string * Envelope bit_uuid)) :=
  match v with
  | JArray l => mapM (λ c, match json_get "name" c with Some (JString n) => Some (n, demo_capture) | _ => None end) l
  | _ => None
  end.

#[global] Instance demo_runtime : Runtime bit_uuid string := {
  parse_path s := Some s;
  query p v := match json_get p v with Some x => [x] | None => [] end;
  from_slice := demo_from_slice;
  serde_message _ _ := "";
  value_to_string _ := "";
  canonical_hash v := [N.of_nat (json_size v)];
  rfc3339 t := pretty t;
  parse_rfc3339 _ := None;
  time_value t := JNumber (JInt t);
  sha256 s := (λ c, N.of_nat (nat_of_ascii c)) <$> String.list_ascii_of_string s;
  hex := demo_hex;
  digest _ := "";
  uuid_leb _ _ := true;
  fresh n := unary (10 + n);
  scheduled_instance_id w _ := w;
  uuid_bytes u := (λ b : bool, if b then 1%Z else 0%Z) <$> uuid_bits u;
  parse_json _ := Some (JObject [("v", JNumber (JInt 2))]);
  encode_envelope e := bytes_of (env_created_at e +:+ match env_value e with JString v => v | _ => "" end);
  encode_captures _ := "[]";
  captures_value l := JArray ((λ e, JObject [("name", JString e.1); ("envelope", JObject [])]) <$> l);
  decode_envelopes := demo_decode_envelopes;
  encode_signal := demo_encode_signal;
  decode_signal := demo_decode_signal;
  encode_gate := demo_encode_gate;
  decode_gate := demo_decode_gate;
  encode_intents _ := "";
  kv_valid_key s := match s with String c _ => safe_char c | EmptyString => false end
}.

#[global] Instance demo_runtime_laws : RuntimeLaws bit_uuid string.
Proof.
  split.
  - intros s (c & Hc & Hs)%code_signal_of. simpl. unfold demo_encode_signal, demo_decode_signal.
    rewrite Hc. transitivity (signal_of <$> read (write c)); [done|]. by rewrite read_write, <-Hs.
  - intros [w e s]. simpl. unfold demo_encode_gate, demo_decode_gate. by rewrite read_write.
Qed.

Definition demo_state : SignalState bit_uuid string :=
  mkSignalState empty_definition_store SignalStore_empty new_bucket None (mkScopeTables ∅ ∅ ∅) Inner_default
    SubInner_default 0.

(** The stream: under the sequences 1 and 2 the cancel, under 3 its key again. *)
Definition demo_payloads (q : Z) : string :=
  if (q <=? 2)%Z then "cancel" else if (q =? 3)%Z then "other" else if (q =? 4)%Z then "wakeup" else "".
