(* ===== verification/IngressSafety.v ===== *)
(** * Safety of the event ingress

    Deliveries of one event may be processed by several conductors at once, again
    and again, with any answer lost, beside the command routes and the cleanup, while
    entries age out of the bucket.  Each step of a delivery keeps the invariant of
    [IngressRecords]; so, until its record has lapsed, the triggers or cancels
    forwarded under one idempotency key are one signal, and an acknowledged event is
    malformed, refused, or forwarded. *)

From S2P Require Import Prelude Workflow Json Uuid Captures Programs Workers Idempotency SignalMessages SignalPipelines Ingress IngressRecords IngressCalm IngressDemo.

Section safety.
Context `{UuidOps Uuid} `{!Countable Uuid} {JsonPath : Type} `{!Runtime Uuid JsonPath} `{!RuntimeLaws Uuid JsonPath}.
Context (display : TriggerError (Uuid := Uuid) → string) (decode_message : Json → string).
Context (payloads : Z → string).

Abbreviation state := (SignalState Uuid JsonPath).
Abbreviation await := (Await state Outgoing Refusal Uuid).
Abbreviation failure := (RepositoryError Refusal).
Abbreviation program A := (prog await failure A).
Abbreviation sig_world := (World state Outgoing).
Abbreviation held w := (kv_entries (idempotency_bucket (now_store w))).
Abbreviation ok := (ingress_ok payloads).
Abbreviation wp := (wp (E := failure) perform ok ingress_grows).
Abbreviation working_set := (WorkingSet (Uuid := Uuid) (JsonPath := JsonPath)).
Abbreviation record := (ProducerRecord Uuid).
Implicit Types (w : sig_world) (r : record).

(** ** Records *)

Lemma known_read w K P n r :
  ok w → known w K P → held w !! K = Some (n, Value_Producer r) → record_ok payloads w K r ∧ (lapsed w K ∨ P r).
Proof.
  intros Hok HP Hr. split; [apply (ok_entry _ _ Hok _ _ _ Hr)|]. destruct HP as [Hl|(n' & r' & Hr' & HP)]; [by left|].
  right. congruence.
Qed.

Lemma known_intro w K (P : record → Prop) n r : held w !! K = Some (n, Value_Producer r) → lapsed w K ∨ P r → known w K P.
Proof. intros Hr [Hl|HP]; [by left|right; by exists n, r]. Qed.

Lemma lapsed_or_grows w w2 K (X : Prop) : ingress_grows w w2 → lapsed w K ∨ X → lapsed w2 K ∨ X.
Proof. intros Hg [Hl|HX]; [left; by eapply lapsed_grows|by right]. Qed.

Ltac wp_open := unfold heard, bucket_entry, bucket_create, bucket_update, lease_deadline, new_v4, call; cbn [bind bind_ok].

Lemma load_spec K P w :
  stable P → known w K P →
  wp (load K) (λ x w2, match x with Ok r => record_ok payloads w2 K r ∧ (lapsed w2 K ∨ P r) | Err _ => True end) w.
Proof.
  intros Hs HP. unfold load. wp_open. apply wp_entry; [|done]. intros w2 Hg Hi. simpl.
  destruct (held w2 !! K) as [[n v]|] eqn:Hv; [|done]. intros w3 Hg3 _. destruct v as [c|r|d]; simpl; [done| |done].
  destruct (known_read w2 K P n r Hi) as [Hok HPr]; [by eapply known_grows|done|].
  split; [by eapply record_ok_grows|by eapply lapsed_or_grows].
Qed.

Definition mutated w K r (P' : record → Prop) (x : result record (IngressError Refusal)) : Prop :=
  match x with Ok r' => record_evolves r r' ∧ record_ok payloads w K r' ∧ (lapsed w K ∨ P' r') | Err _ => True end.

(** Whoever knows of a record with [P] turns it into one with [P']. *)
Lemma update_spec K owner mutate P P' w :
  stable P → stable P' → ok w → known w K P →
  (∀ r w2, ingress_grows w w2 → ok w2 → lapsed w2 K ∨ P r → record_ok payloads w2 K r →
     wp (mutate r) (λ x w3, mutated w3 K r P' x) w2) →
  wp (update K owner mutate) (λ x w2, match x with Ok _ => known w2 K P' | Err _ => True end) w.
Proof.
  intros Hs Hs' Hok HP Hm. unfold update. generalize ATTEMPTS as n. intros n.
  revert w Hok HP Hm. induction n as [|n IH]; intros w Hok HP Hm; [done|]. cbn [update_loop]. wp_open.
  apply wp_entry; [|done]. intros w2 Hg Hi. simpl.
  destruct (held w2 !! K) as [[rev v]|] eqn:Hr; [|done]. destruct v as [c|r|d]; cbn [as_producer]; [done| |done].
  destruct (known_read w2 K P rev r Hi) as [Hrok HPr]; [by eapply known_grows|done|].
  destruct (match owner with Some _ => _ | None => _ end); [done|].
  apply wp_bind_ok; [apply _| |done]. eapply wp_mono; [apply _| |by apply Hm].
  intros [r'|e] w3 Hg3 Hi3 Hr'; [|done]. destruct Hr' as (He & Hok' & HP').
  wp_open. apply wp_update_entry with (w0 := w2) (v0 := Value_Producer r); [done|done|done|by exists r'|done| |].
  - intros w4 n' Hg4 Hi4 Hr4 w5 Hg5 _. eapply known_grows; [done|done|].
    eapply known_intro; [done|]. by eapply lapsed_or_grows.
  - intros e w4 Hg4 Hi4. apply IH; [done| |].
    + eapply known_grows; [done| |done]. by do 2 (etrans; [eassumption|]).
    + intros r0 w5 Hg5. apply Hm. by do 3 (etrans; [eassumption|]).
Qed.

(** ** Reserving *)

Abbreviation key_of key := (producer_entry_key (sha256_hex key)).

Definition claims (q : Z) (id : Uuid) r : Prop := pd_signal_id r = id ∧ pd_payload_sha256 r = payload_digest payloads q.
Definition accepts (q : Z) (intents : list RelayIntent) r : Prop :=
  is_ready r ∧ pd_payload_sha256 r = payload_digest payloads q ∧ pd_intents r = intents.

Lemma claims_stable q id : stable (claims q id).
Proof. intros r r' [_ _ Hp Hs _]. unfold claims. by rewrite Hp, Hs. Qed.
Lemma accepts_stable q intents : stable (accepts q intents).
Proof.
  intros r r' He (Hr & Hp & Hi). destruct (ready_evolves _ _ He Hr) as [Hr' Hi']. destruct He.
  unfold accepts. split_and!; [done|congruence|congruence].
Qed.
Lemma verdict_stable q o : stable (λ r, verdict (payload_digest payloads q) r = Some o).
Proof. intros r r'. apply verdict_evolves. Qed.
Hint Resolve claims_stable accepts_stable verdict_stable : ingress.

(** Intents of a record under the key. *)
Definition keyed (key : string) (l : list RelayIntent) : Prop :=
  ∃ r, pd_producer_key_sha256 r = sha256_hex key ∧ pd_intents r = l ∧ ∀ i, i ∈ l → intent_ok (JsonPath := JsonPath) r i.

Lemma record_producer w key r : record_ok payloads w (key_of key) r → pd_producer_key_sha256 r = sha256_hex key.
Proof. intros [Hk _ _ _ _]. symmetry. by apply producer_key_inj. Qed.

Lemma record_keyed w key r : record_ok payloads w (key_of key) r → keyed key (pd_intents r).
Proof. intros Hr. exists r. split_and!; [by eapply record_producer|done|apply Hr]. Qed.

(** What a reservation of the delivery [q] tells. *)
Definition reserved_as (q : Z) (key : string) w (o : ReservationOutcome Uuid) : Prop :=
  match o with
  | Reservation_Acquired x => rs_key x = key_of key ∧ known w (key_of key) (claims q (rs_signal_id x))
  | Reservation_Pending => True
  | Reservation_Ready operation fx =>
      (operation = key_of key ∧ keyed key (fx_relay_intents fx)) ∧ known w (key_of key) (accepts q (fx_relay_intents fx))
  | Reservation_Complete p | Reservation_Rejected p | Reservation_Conflict _ _ p => settled payloads w q key (pf_outcome p)
  end.

Lemma reserved_as_grows q key w w2 o : ingress_grows w w2 → reserved_as q key w o → reserved_as q key w2 o.
Proof.
  intros Hg. destruct o; simpl; [|done| | | |]; try by apply settled_grows.
  all: intros [Hx Ho]; split; [done|]; eapply known_grows; eauto with ingress.
Qed.

Lemma new_record_ok w digest payload id owner deadline :
  record_ok payloads w (producer_entry_key digest) (new_record digest payload id owner deadline).
Proof. split; [done|done|..]; simpl; [by intros i ?%elem_of_nil|by intros [|]|done]. Qed.

Lemma with_lease_ok w K r owner t : record_ok payloads w K r → record_ok payloads w K (with_lease owner t r).
Proof. intros [H1 H2 H3 H4 H5]. by split. Qed.

Lemma reserve_turn_spec q key owner w :
  ok w →
  wp (reserve_turn (key_of key) (sha256_hex key) (payload_digest payloads q) owner)
    (λ x w2, match x with Some (Ok o) => reserved_as q key w2 o | _ => True end) w.
Proof.
  intros Hok. unfold reserve_turn. wp_open. apply wp_entry; [|done]. intros w2 Hg Hi. simpl.
  destruct (held w2 !! key_of key) as [[n v]|] eqn:Hv.
  - destruct v as [c|r|d]; cbn [as_producer]; [done| |done].
    assert (∀ P w3, stable P → P r → ingress_grows w2 w3 → known w3 (key_of key) P) as Hr.
    { intros P w3 HP Hr Hg3. eapply held_known; [done|done|]. by exists n, r. }
    destruct (_ || _) eqn:Hvalid; [done|].
    destruct (bool_decide (pd_payload_sha256 r = _)) eqn:Hpay; simpl.
    + apply bool_decide_eq_true in Hpay.
      assert (verdict (payload_digest payloads q) r =
        match pd_phase r with Phase_Relayed => Some Outcome_Accepted | Phase_Rejected _ => Some Outcome_Rejected | _ => None end) as Hverdict.
      { unfold verdict. by rewrite bool_decide_true. }
      destruct (pd_phase r) eqn:Hph.
      * apply wp_clock. intros now w3 Hg3 Hi3. destruct (_ <? _)%Z; [done|].
        apply wp_clock. intros now' w4 Hg4 Hi4.
        apply wp_update_entry with (w0 := w2) (v0 := Value_Producer r); [done|by etrans|done|..].
        { exists (with_lease owner (now' + CLAIM_LEASE)%Z r). auto with ingress. }
        { apply with_lease_ok. apply (record_ok_grows payloads w2 w4); [by etrans|]. apply (ok_entry _ _ Hi _ _ _ Hv). }
        { intros w5 n' Hg5 Hi5 Hr5 w6 Hg6 _. split; [done|].
          eapply held_known; [apply claims_stable|done|]. exists n', (with_lease owner (now' + CLAIM_LEASE)%Z r). done. }
        done.
      * intros w3 Hg3 _. split; [split; [done|]; eapply record_keyed, (ok_entry _ _ Hi _ _ _ Hv)|].
        apply Hr; [apply accepts_stable| |done].
        split_and!; [by left|done|done].
      * intros w3 Hg3 _. apply Hr; [apply verdict_stable| |done]. exact Hverdict.
      * intros w3 Hg3 _. apply Hr; [apply verdict_stable| |done]. exact Hverdict.
    + intros w3 Hg3 _. apply Hr; [apply verdict_stable| |done]. unfold verdict. by rewrite Hpay.
  - apply wp_new_v4. intros id w3 Hg3 Hi3. apply wp_clock. intros now w4 Hg4 Hi4. apply wp_create; [|  |done].
    + intros w5 Hg5 Hi5 _. apply new_record_ok.
    + intros w5 n Hg5 Hi5 Hr5 w6 Hg6 _. split; [done|].
      eapply held_known; [apply claims_stable|done|]. eexists n, _. by split.
Qed.

Lemma reserve_spec q key w :
  ok w →
  wp (reserve sha256_hex hex key (stable_payload_hash (payloads q)))
    (λ x w2, match x with Ok o => reserved_as q key w2 o | Err _ => True end) w.
Proof.
  intros Hok. unfold reserve. wp_open. apply wp_new_v4. intros owner w2 Hg Hi. generalize ATTEMPTS as n. intros n.
  revert w2 Hg Hi. induction n as [|n IH]; intros w2 Hg Hi; [done|]. cbn [reserve_loop].
  apply wp_bind; [apply _| |done]. eapply wp_mono; [apply _| |by apply reserve_turn_spec].
  intros [[o|e]|] w3 Hg3 Hi3 Ho; [|done|]; [|by apply IH; [by etrans|]].
  intros w4 Hg4 _. by eapply reserved_as_grows.
Qed.

(** ** The mutations *)

(** The effects are intents for a record of the producer, and those of the event. *)
Definition yields (id : Uuid) (env : IngressEnvelope Uuid) (fx : IngressEffects) : Prop :=
  (∀ r i, pd_producer_key_sha256 r = sha256_hex (envelope_key env) →
    pd_intents r = fx_relay_intents fx → i ∈ pd_intents r → intent_ok (JsonPath := JsonPath) r i) ∧
  intents_of (JsonPath := JsonPath) env id (fx_relay_intents fx).

Lemma with_effects_ok q env id fx w r :
  parsed payloads q = Ok env → yields id env fx → record_ok payloads w (key_of (envelope_key env)) r →
  lapsed w (key_of (envelope_key env)) ∨ claims q id r → pd_phase r = Phase_Reserved →
  record_ok payloads w (key_of (envelope_key env)) (with_effects fx r).
Proof.
  intros Hp [Hy Hev] Hrok Hc Hph. pose proof (record_producer _ _ _ Hrok) as Hkey. destruct Hrok as [H1 H2 _ _ _].
  split; [done|done| | |done].
  - intros i Hi. by apply Hy.
  - intros _. destruct Hc as [Hl|[Hid Hpay]]; [by left|]. right. exists q, env. simpl. by rewrite Hid.
Qed.

Lemma persist_spec q env x fx w :
  ok w → parsed payloads q = Ok env → rs_key x = key_of (envelope_key env) →
  known w (key_of (envelope_key env)) (claims q (rs_signal_id x)) → yields (rs_signal_id x) env fx →
  wp (persist_effects x fx)
    (λ y w2, match y with
             | Ok fx' => keyed (envelope_key env) (fx_relay_intents fx') ∧
                 known w2 (key_of (envelope_key env)) (accepts q (fx_relay_intents fx'))
             | Err _ => True
             end) w.
Proof.
  intros Hok Hp Hx Hc Hy. unfold persist_effects. rewrite Hx. apply wp_bind_ok; [apply _| |done].
  eapply wp_mono; [apply _| |apply (update_spec _ _ _ (claims q (rs_signal_id x)) (accepts q (fx_relay_intents fx))); auto with ingress].
  - intros [u|e] w2 Hg Hi Hu; [|done]. apply wp_bind_ok; [apply _| |done].
    eapply wp_mono; [apply _| |apply (load_spec _ (accepts q (fx_relay_intents fx))); auto with ingress].
    intros [r|e] w3 Hg3 Hi3 Hr; [|done]. destruct Hr as [Hrok Hr]. intros w4 Hg4 _. simpl.
    split; [by eapply record_keyed|]. destruct Hr as [Hl|(Hready & Hpay & Hin)]; [left; by eapply lapsed_grows|].
    rewrite Hin. apply (known_grows w2 w4); [apply accepts_stable|by etrans|done].
  - intros r w2 Hg Hi Hcr Hrok w3 Hg3 _. unfold to_ready. case_bool_decide as Hph; [|done].
    assert (lapsed w3 (key_of (envelope_key env)) ∨ claims q (rs_signal_id x) r) as Hcr3 by by eapply lapsed_or_grows.
    split_and!; [by apply with_effects_evolves| |].
    + eapply with_effects_ok; [done|done|by eapply record_ok_grows|done|done].
    + destruct Hcr3 as [Hl|[Hid Hpay]]; [by left|]. right. split_and!; [by left|done|done].
Qed.

Lemma reject_spec q key x reason w :
  ok w → rs_key x = key_of key → known w (key_of key) (claims q (rs_signal_id x)) →
  wp (reject x reason)
    (λ y w2, match y with Ok proof => settled payloads w2 q key (pf_outcome proof) | Err _ => True end) w.
Proof.
  intros Hok Hx Hc. unfold reject. rewrite Hx. apply wp_bind_ok; [apply _| |done].
  set (P' := λ r, verdict (payload_digest payloads q) r = Some Outcome_Rejected).
  eapply wp_mono; [apply _| |apply (update_spec _ _ _ (claims q (rs_signal_id x)) P'); auto with ingress].
  - intros [u|e] w2 Hg Hi Hu; [|done]. apply wp_bind_ok; [apply _| |done].
    eapply wp_mono; [apply _| |apply (load_spec _ P'); [apply verdict_stable|done]].
    intros [r|e] w3 Hg3 Hi3 Hr; [|done]. intros w4 Hg4 _. simpl.
    apply (known_grows w2 w4); [apply verdict_stable|by etrans|done].
  - apply verdict_stable.
  - intros r w2 Hg Hi Hcr Hrok w3 Hg3 _. unfold to_rejected. case_bool_decide as Hph; [|done].
    split_and!; [by apply rejected_evolves| |].
    + destruct (record_ok_grows _ _ _ _ _ Hg3 Hrok) as [H1 H2 H3 _ _]. split; [done|done|done|by intros [|]|done].
    + eapply lapsed_or_grows; [done|]. destruct Hcr as [Hl|[Hid Hpay]]; [by left|]. right.
      unfold P', verdict. simpl. by rewrite bool_decide_true.
Qed.

Lemma to_relayed_ok q intents w w3 K r :
  lapsed w K ∨ accepts q intents r → record_ok payloads w K r → Forall (forwarded w) intents → ingress_grows w w3 →
  mutated w3 K r (λ r', verdict (payload_digest payloads q) r' = Some Outcome_Accepted) (to_relayed r).
Proof.
  intros Hc Hrok Hf Hg. pose proof (record_ok_grows _ _ _ _ _ Hg Hrok) as [H1 H2 H3 H4 H5].
  assert (lapsed w3 K ∨ accepts q intents r) as Hc3 by by eapply lapsed_or_grows.
  unfold to_relayed. destruct (pd_phase r) eqn:Hph; try done; simpl.
  - split_and!; [by apply relayed_evolves| |].
    + split; [done|done|done| |].
      * intros _. apply H4. by left.
      * intros i _ Hi. simpl in Hi. destruct Hc3 as [Hl|(_ & _ & Hin)]; [by left|]. right.
        rewrite Hin in Hi. rewrite Forall_forall in Hf. eapply forwarded_grows; [done|auto].
    + destruct Hc3 as [Hl|(_ & Hpay & _)]; [by left|]. right. unfold verdict. simpl. by rewrite bool_decide_true.
  - split_and!; [done|by apply (record_ok_grows payloads w)|]. destruct Hc3 as [Hl|(_ & Hpay & _)]; [by left|]. right.
    unfold verdict. by rewrite bool_decide_true, Hph.
Qed.

Lemma mark_relayed_spec q key intents w :
  ok w → known w (key_of key) (accepts q intents) → Forall (forwarded w) intents →
  wp (mark_relayed (key_of key))
    (λ y w2, match y with Ok proof => settled payloads w2 q key (pf_outcome proof) | Err _ => True end) w.
Proof.
  intros Hok Hc Hf. unfold mark_relayed. apply wp_bind_ok; [apply _| |done].
  set (P' := λ r, verdict (payload_digest payloads q) r = Some Outcome_Accepted).
  eapply wp_mono; [apply _| |apply (update_spec _ _ _ (accepts q intents) P'); auto with ingress].
  - intros [u|e] w2 Hg Hi Hu; [|done]. apply wp_bind_ok; [apply _| |done].
    eapply wp_mono; [apply _| |apply (load_spec _ P'); [apply verdict_stable|done]].
    intros [r|e] w3 Hg3 Hi3 Hr; [|done]. intros w4 Hg4 _. simpl.
    apply (known_grows w2 w4); [apply verdict_stable|by etrans|done].
  - apply verdict_stable.
  - intros r w2 Hg Hi Hcr Hrok w3 Hg3 _. eapply to_relayed_ok; [done|done| |done].
    eapply Forall_impl; [done|]. intros i. by apply forwarded_grows.
Qed.

Lemma abandon_spec q key x w :
  ok w → rs_key x = key_of key → known w (key_of key) (claims q (rs_signal_id x)) →
  wp (abandon x) (λ _ _, True) w.
Proof.
  intros Hok Hx Hc. unfold abandon. rewrite Hx.
  eapply wp_mono; [apply _| |apply (update_spec _ _ _ (claims q (rs_signal_id x)) (λ _, True)); [auto with ingress..|]]; [done|done|].
  intros r w2 Hg Hi _ Hrok. unfold to_abandoned. case_bool_decide as Hph.
  - wp_open. apply wp_clock. intros now w3 Hg3 Hi3 w4 Hg4 _. split_and!; [by apply with_lease_evolves| |by right].
    apply with_lease_ok. apply (record_ok_grows payloads w2 w4); [by etrans|done].
  - intros w3 Hg3 _. split_and!; [done| |by right]. by eapply record_ok_grows.
Qed.

(** ** Completing a delivery *)

Abbreviation delivery q := (mkDelivery q (payloads q)).

Lemma record_delivery_spec q producer outcome w :
  (∀ w2, ingress_grows w w2 → ok w2 →
     note_ok payloads w2 q (mkDeliveryRecord 1 (sha256_hex <$> producer) (payload_digest payloads q) outcome)) →
  wp (record_delivery sha256_hex hex q producer (stable_payload_hash (payloads q)) outcome) (λ _ _, True) w.
Proof.
  intros Hn. unfold record_delivery. wp_open. apply wp_create.
  - intros w2 Hg Hi _. exists q. auto.
  - done.
  - intros e w2 Hg Hi. apply wp_entry; [|done]. intros w3 Hg3 Hi3. simpl.
    destruct (held w3 !! _) as [[n v]|]; [|done]. by destruct (as_delivery v).
Qed.

Lemma acknowledge_spec q w :
  (∀ w2, ingress_grows w w2 → ok w2 → sent_ok payloads w2 (Out_Ack q)) →
  wp (acknowledge (JsonPath := JsonPath) (delivery q)) (λ _ _, True) w.
Proof. intros Hs. unfold acknowledge. wp_open. apply wp_message; [done|]. done. Qed.

Lemma complete_spec q env proof w :
  ok w → parsed payloads q = Ok env → settled payloads w q (envelope_key env) (pf_outcome proof) →
  wp (complete_delivery (delivery q) (envelope_key env) proof) (λ _ _, True) w.
Proof.
  intros Hok Hp Hs. unfold complete_delivery, complete. apply wp_bind; [apply _| |done].
  destruct (_ && _); [|done]. apply wp_bind_ok; [apply _| |done]. apply wp_bind; [apply _| |done].
  eapply wp_mono; [apply _| |apply record_delivery_spec].
  - intros [u|e] w2 Hg Hi _ w3 Hg3 Hi3; [|done].
    eapply wp_mono; [apply _| |apply acknowledge_spec]; [done|].
    intros w4 Hg4 _. simpl. rewrite Hp. exists (pf_outcome proof). eapply settled_grows; [|done].
    by do 2 (etrans; [eassumption|]).
  - intros w2 Hg Hi. cbn [dv_sequence]. unfold note_ok. rewrite Hp. exists (pf_outcome proof). split; [|done]. by eapply settled_grows.
Qed.

Lemma malformed_spec q e w :
  ok w → parsed payloads q = Err e →
  wp (let* _ := reject_malformed (JsonPath := JsonPath) (delivery q) (EnvelopeError_to_string e) in Ret tt) (λ _ _, True) w.
Proof.
  intros Hok Hp. apply wp_bind; [apply _| |done]. apply wp_bind_ok; [apply _| |done]. apply wp_bind; [apply _| |done].
  eapply wp_mono; [apply _| |apply record_delivery_spec].
  - intros [u|e'] w2 Hg Hi _ w3 Hg3 Hi3; [|done].
    eapply wp_mono; [apply _| |apply acknowledge_spec]; [done|].
    intros w4 Hg4 _. simpl. by rewrite Hp.
  - intros w2 Hg Hi. cbn [dv_sequence]. unfold note_ok. by rewrite Hp.
Qed.

Lemma pending_spec d w : wp (leave_pending (JsonPath := JsonPath) d) (λ _ _, True) w.
Proof. unfold leave_pending. wp_open. by apply wp_message. Qed.

(** ** Forwarding *)

Lemma intent_sent_ok q key intents i m w :
  known w (key_of key) (accepts q intents) → keyed key intents → i ∈ intents → intent_message i = Some m →
  sent_ok payloads w m.
Proof.
  intros Hr (r & Hkey & Hin & Hk) Hi Hm. specialize (Hk i Hi). destruct i as [bytes|bytes|bytes]; simpl in Hk, Hm.
  - destruct Hk as (s & k & Hd & Hs & Hsha & Hone). rewrite Hd in Hm. simplify_eq/=. intros k' Hk'. assert (k' = k) as -> by congruence.
    rewrite Hsha, Hkey. destruct Hr as [Hl|(n & r' & Hr & Hready & _ & Hin')]; [by left|]. right. exists n, r'.
    split; [done|]. split; [done|]. exists bytes. by rewrite Hin', Hone.
  - destruct Hk as (s & Hd & Hs). rewrite Hd in Hm. simplify_eq/=. intros k'. by rewrite Hs.
  - destruct Hk as [o Hd]. rewrite Hd in Hm. by simplify_eq/=.
Qed.

Lemma send_intents_spec q key intents l w :
  known w (key_of key) (accepts q intents) → keyed key intents → l ⊆ intents →
  wp (send_intents l) (λ sent w2, sent = true → Forall (forwarded w2) l) w.
Proof.
  intros Hr Hk. revert w Hr. induction l as [|i l IH]; intros w Hr Hl; [by constructor|]. cbn [send_intents].
  destruct (intent_message i) as [m|] eqn:Hm; [|done]. wp_open. apply wp_message.
  - intros w2 Hg Hi. eapply intent_sent_ok; [|done| |done].
    + eapply known_grows; [apply accepts_stable|done|done].
    + apply Hl. by left.
  - intros w2 sent Hg Hi Hlog. destruct sent; [|done].
    eapply wp_mono; [apply _| |apply IH].
    + intros b w3 Hg3 Hi3 Hb Ht. constructor; [|by apply Hb]. exists m. split; [done|]. by eapply log_grows.
    + eapply known_grows; [apply accepts_stable|done|done].
    + intros x Hx. apply Hl. by right.
Qed.

Lemma forward_spec q env intents w :
  ok w → parsed payloads q = Ok env → known w (key_of (envelope_key env)) (accepts q intents) →
  keyed (envelope_key env) intents →
  wp (forward_ready_intents (delivery q) (envelope_key env) (key_of (envelope_key env)) intents) (λ _ _, True) w.
Proof.
  intros Hok Hp Hr Hk. unfold forward_ready_intents. apply wp_bind; [apply _| |done].
  eapply wp_mono; [apply _| |by eapply send_intents_spec]. intros [|] w2 Hg Hi Hf; [|apply pending_spec].
  apply wp_bind; [apply _| |done].
  eapply wp_mono; [apply _| |apply (mark_relayed_spec q _ intents); [done| |by apply Hf]].
  - intros [proof|e] w3 Hg3 Hi3 Hs; [by apply complete_spec|apply pending_spec].
  - eapply known_grows; [apply accepts_stable|done|done].
Qed.

(** ** A whole delivery *)

Lemma signal_effects_yield id env s results :
  ingress_signal s → event_signal env id = Some s → idempotency_key s = Some (envelope_key env) →
  yields id env (signal_effects s results).
Proof.
  intros Hs Hev Hkey. split.
  - intros r i Hp Hin. rewrite Hin. intros ->%list_elem_of_singleton. simpl.
    exists s, (envelope_key env). by rewrite decode_encode_signal by done.
  - destruct env; [by exists s..|done].
Qed.

Lemma calm_envelope ws id env :
  calm_set ws →
  calm (process_reserved_envelope display decode_message ws id env)
    (λ x, match x with Ok fx => yields id env fx | Err _ => True end).
Proof.
  intros Hw. destruct env as [key wf at_ inputs|key target reason note|key name target payload]; cbn [process_reserved_envelope].
  - apply calm_bind, calm_bind_ok, calm_trigger; [done|done|]. intros o Ho. apply calm_ret.
    destruct o as [id' signal results| |]; [|done..].
    destruct (Ho _ _ _ eq_refl) as [-> Hid]. rewrite (Hid id) by done. by apply signal_effects_yield.
  - destruct (de_ext_target target) as [t|] eqn:Ht; [|done]. destruct (de_ext_cancel_reason reason) as [c|] eqn:Hc; [|done].
    apply signal_effects_yield; [done| |done]. simpl. by rewrite Ht, Hc.
  - destruct (_ && _); [done|]. apply calm_bind, calm_wakeup; [done|done|].
    intros o l Hl. apply calm_ret. split; [|done]. intros r i Hp Hin Hi.
    specialize (Hl _ eq_refl). rewrite Forall_forall in Hl. rewrite Hin in Hi. specialize (Hl i Hi).
    destruct i; simpl in Hl; [done|by destruct Hl as (s & Hd & _ & Hs); exists s|by destruct Hl as (s & Hd & _); eexists].
Qed.

Lemma reservation_spec ws q env o w :
  calm_set ws → ok w → parsed payloads q = Ok env → reserved_as q (envelope_key env) w o →
  wp (process_reservation display decode_message ws (delivery q) (envelope_key env) env o) (λ _ _, True) w.
Proof.
  intros Hw Hok Hp Ho. destruct o as [x| |operation fx|proof|proof|? ? proof]; cbn [process_reservation reserved_as] in *.
  - destruct Ho as [Hx Hc]. apply wp_bind; [apply _| |done].
    eapply wp_mono; [apply _| |by apply wp_calm, calm_envelope].
    assert (∀ w2, ingress_grows w w2 → known w2 (key_of (envelope_key env)) (claims q (rs_signal_id x))) as Hc2.
    { intros w2 Hg. eapply known_grows; [apply claims_stable|done|done]. }
    intros [fx|[reason|]] w2 Hg Hi Hy; (apply wp_bind; [apply _| |done]).
    + eapply wp_mono; [apply _| |by eapply persist_spec; eauto].
      intros [fx'|e] w3 Hg3 Hi3 Hr; [|apply pending_spec]. destruct Hr as [Hk Hr]. rewrite Hx. by apply forward_spec.
    + eapply wp_mono; [apply _| |by eapply reject_spec; eauto].
      intros [proof|e] w3 Hg3 Hi3 Hr; [by apply complete_spec|apply pending_spec].
    + eapply wp_mono; [apply _| |by eapply abandon_spec; eauto]. intros y w3 Hg3 Hi3 _. apply pending_spec.
  - apply pending_spec.
  - destruct Ho as [[-> Hk] Hr]. by apply forward_spec.
  - by apply complete_spec.
  - by apply complete_spec.
  - by apply complete_spec.
Qed.

Lemma delivery_spec ws q w :
  calm_set ws → ok w → wp (process_delivery display decode_message ws (delivery q)) (λ _ _, True) w.
Proof.
  intros Hw Hok. unfold process_delivery. fold (parsed payloads q). simpl dv_payload.
  destruct (parsed payloads q) as [env|e] eqn:Hp; unfold parsed in Hp; rewrite Hp; [|by apply malformed_spec].
  apply wp_bind; [apply _| |done]. eapply wp_mono; [apply _| |by apply reserve_spec].
  intros [o|e] w2 Hg Hi Ho; [by apply reservation_spec|apply pending_spec].
Qed.

(** ** Everything that runs *)

Inductive may_start w : program unit → Prop :=
| start_delivery ws q : calm_set ws →
    may_start w (process_delivery display decode_message ws (delivery q))
| start_beside p : beside p → may_start w p
| start_expiry key : may_start w (expire key).

Abbreviation ingress_pool := (Pool (Op := await) (E := failure) (World := sig_world) unit).

(** From a store whose bucket is new. *)
Definition ingress_reachable (p : ingress_pool) : Prop :=
  ∃ s : state, idempotency_bucket s = new_bucket ∧ pool_run perform may_start (mkPool ∅ (mkWorld s [] [])) p.

Lemma first_ok (s : state) : idempotency_bucket s = new_bucket → ok (mkWorld s [] []).
Proof.
  intros Hs. split.
  - simpl. by rewrite Hs.
  - intros k n v. cbn [now_store]. by rewrite Hs.
  - intros k n v. cbn [now_store]. by rewrite Hs.
  - by intros m Hm%elem_of_nil.
Qed.

Lemma expire_spec key w : wp (expire key) (λ _ _, True) w.
Proof.
  unfold expire, call. cbn [bind]. apply wp_transact; [apply _| |done]. intros w2 now [] s Hr Hi [= <-].
  destruct (ingress_ok_expire payloads w2 (set_bucket (kv_expire key now (get_bucket (now_store w2))) (now_store w2)) key now); done.
Qed.

Lemma may_start_ok w p : ok w → may_start w p → wp p (λ _ _, True) w.
Proof.
  intros Hok [ws q Hw|p' Hp|key]; [by apply delivery_spec|eapply wp_calm, beside_calm, Hp|apply expire_spec].
Qed.

Lemma ingress_reachable_ok p : ingress_reachable p → ok (world p).
Proof.
  intros (s & Hs & Hrun).
  destruct (pool_run_ok perform ok ingress_grows may_start (λ _ _, True) may_start_ok _ _ Hrun) as [Hok _].
  - split; [by apply first_ok|]. intros t q. simpl. by rewrite lookup_empty.
  - by destruct Hok.
Qed.

(** ** What it comes to *)

(** C13: however often an event is delivered, to however many conductors at once, and
    whatever is lost on the way, the signals forwarded under one idempotency key are
    one and the same signal, unless the producer's record has aged out of the bucket
    on the way. *)
Theorem one_signal_per_key p s1 s2 key :
  ingress_reachable p →
  Out_TrySignal s1 ∈ sent_messages (world p) → Out_TrySignal s2 ∈ sent_messages (world p) →
  idempotency_key s1 = Some key → idempotency_key s2 = Some key →
  s1 = s2 ∨ lapsed (world p) (key_of key).
Proof.
  intros Hp H1 H2 K1 K2. pose proof (ingress_reachable_ok _ Hp) as Hok.
  destruct (ok_sent _ _ Hok _ H1 key K1) as [Hl|(n1 & r1 & R1 & _ & b1 & I1 & D1)]; [by right|].
  destruct (ok_sent _ _ Hok _ H2 key K2) as [Hl|(n2 & r2 & R2 & _ & b2 & I2 & D2)]; [by right|]. left. congruence.
Qed.

Lemma event_signal_message env id s :
  event_signal (JsonPath := JsonPath) env id = Some s →
  intent_message (JsonPath := JsonPath) (Intent_Signal (encode_signal s)) = Some (Out_TrySignal s).
Proof.
  intros Hs. simpl. rewrite decode_encode_signal; [done|]. destruct env; simplify_option_eq; done.
Qed.

(** What the relay has taken when the event is over: the trigger or cancel itself,
    and of a wakeup the intents its record holds. *)
Definition relayed (env : IngressEnvelope Uuid) w r : Prop :=
  match env with
  | Envelope_Wakeup _ _ _ _ => ∀ i, i ∈ pd_intents r → ∃ m, intent_message i = Some m ∧ (m, true) ∈ log w
  | _ => ∃ s, event_signal env (pd_signal_id r) = Some s ∧ (Out_TrySignal s, true) ∈ log w
  end.

Lemma forwarded_relayed env w r :
  intents_of (JsonPath := JsonPath) env (pd_signal_id r) (pd_intents r) → (∀ i, i ∈ pd_intents r → forwarded w i) →
  relayed env w r.
Proof.
  intros Hin Hf. unfold intents_of, relayed in *. destruct env; [..|done].
  all: destruct Hin as (s & Hs & Hin); exists s; split; [done|].
  all: destruct (Hf (Intent_Signal (encode_signal s))) as (m & Hm & Hl); [rewrite Hin; by left|].
  all: rewrite (event_signal_message _ _ _ Hs) in Hm; by injection Hm as <-.
Qed.

Lemma lapsed_or_all w k (P : RelayIntent → Prop) (l : list RelayIntent) : (∀ i, i ∈ l → lapsed w k ∨ P i) → lapsed w k ∨ ∀ i, i ∈ l → P i.
Proof.
  induction l as [|i l IH]; intros Hl; [right; by intros i ?%elem_of_nil|].
  destruct (Hl i) as [|Hi]; [by left|by left|]. destruct IH as [|Hall]; [intros j Hj; apply Hl; by right|by left|].
  right. by intros j [->|Hj]%elem_of_cons; auto.
Qed.

(** C14: a delivery that is acknowledged is malformed, or repeats a producer key with
    another payload, or was rejected for good, or the relay has taken the signal of
    the trigger or cancel, or every intent recorded for the wakeup; unless the
    producer's record has aged out of the bucket on the way.  The digest is taken to
    tell the payloads of the stream from the one delivered. *)
Theorem acknowledged_settled p q :
  (∀ q', payload_digest payloads q' = payload_digest payloads q → parsed payloads q' = parsed payloads q) →
  ingress_reachable p → Out_Ack q ∈ sent_messages (world p) →
  (∃ e, parsed payloads q = Err e) ∨
  ∃ env, parsed payloads q = Ok env ∧
    (lapsed (world p) (key_of (envelope_key env)) ∨
     held_record (world p) (key_of (envelope_key env)) (λ r,
       pd_payload_sha256 r ≠ payload_digest payloads q ∨ (∃ reason, pd_phase r = Phase_Rejected reason) ∨
       relayed env (world p) r)).
Proof.
  intros Hhash Hp Ha. pose proof (ingress_reachable_ok _ Hp) as Hok. pose proof (ok_sent _ _ Hok _ Ha) as Hs. simpl in Hs.
  destruct (parsed payloads q) as [env|e] eqn:Hq; [|eauto]. right. exists env. split; [done|].
  destruct Hs as [o [Hl|(n & r & Hr & Hv)]]; [by left|].
  destruct (ok_entry _ _ Hok _ _ _ Hr) as [_ _ _ Hev Hrel]. unfold verdict in Hv.
  case_bool_decide as Hpay; [|right; exists n, r; auto].
  destruct (pd_phase r) as [| | |reason] eqn:Hph; [done|done| |right; exists n, r; eauto].
  destruct (Hev (or_intror Hph)) as [Hl|(q' & env' & Hq' & Hpay' & Hin)]; [by left|].
  assert (env' = env) as -> by (specialize (Hhash q'); rewrite <- Hpay', Hq' in Hhash; by injection (Hhash Hpay)).
  destruct (lapsed_or_all _ _ _ _ (λ i, Hrel i eq_refl)) as [Hl|Hf]; [by left|].
  right. exists n, r. split; [done|]. do 2 right. by apply forwarded_relayed.
Qed.
End safety.

(** ** One event delivered twice *)

Abbreviation demo_pool :=
  (Pool (Op := Await (SignalState bit_uuid string) Outgoing Refusal bit_uuid) (E := RepositoryError Refusal)
     (World := World (SignalState bit_uuid string) Outgoing) unit).

Definition demo_delivery (q : Z) : prog (Await (SignalState bit_uuid string) Outgoing Refusal bit_uuid) (RepositoryError Refusal) unit :=
  process_delivery (λ _, "permanent") (λ _, "") Working_Nats (mkDelivery q (demo_payloads q)).

(** The first time every send is lost on its way back, so the event stays; then it
    comes again under another sequence. *)
Definition demo_first : demo_pool :=
  finished perform (mkPool ∅ (mkWorld demo_state [] [])) 0 (demo_delivery 1)
    (mkOutside 5 Fate_Commits false BuildOutcome_Success true).
Definition demo_again : demo_pool := finished perform demo_first 1 (demo_delivery 2) (working 10).

Lemma demo_again_reachable : ingress_reachable (λ _, "permanent") (λ _, "") demo_payloads demo_again.
Proof.
  exists demo_state. split; [done|]. transitivity demo_first; apply pool_runs; [vm_compute; reflexivity| |vm_compute; reflexivity|];
    by constructor.
Qed.

Lemma one_signal_per_key_witness :
  ∃ s1 s2, Out_TrySignal s1 ∈ sent_messages (world demo_first) ∧ Out_TrySignal s2 ∈ sent_messages (world demo_again) ∧
    (s1 = s2 ∨ lapsed (world demo_again) (producer_entry_key (SignalPipelines.sha256_hex "k"))).
Proof.
  assert (∀ m, m ∈ sent_messages (world demo_first) → m ∈ sent_messages (world demo_again)) as Hsub.
  { apply Forall_forall. vm_compute. repeat constructor. }
  assert (∃ s1, Out_TrySignal s1 ∈ sent_messages (world demo_first) ∧ idempotency_key s1 = Some "k") as (s1 & H1 & K1).
  { eexists. split; [vm_compute; left|reflexivity]. }
  assert (∃ s2, Out_TrySignal s2 ∈ sent_messages (world demo_again) ∧ idempotency_key s2 = Some "k") as (s2 & H2 & K2).
  { eexists. split; [vm_compute; do 2 right; left|reflexivity]. }
  exists s1, s2. split_and!; [done..|].
  exact (one_signal_per_key (λ _, "permanent") (λ _, "") demo_payloads demo_again s1 s2 "k" demo_again_reachable
           (Hsub _ H1) H2 K1 K2).
Defined.

Lemma acknowledged_settled_witness :
  (∃ e, parsed (Uuid := bit_uuid) (JsonPath := string) demo_payloads 2 = Err e) ∨
  ∃ env, parsed demo_payloads 2 = Ok env ∧
    (lapsed (world demo_again) (producer_entry_key (SignalPipelines.sha256_hex (envelope_key env))) ∨
     held_record (world demo_again) (producer_entry_key (SignalPipelines.sha256_hex (envelope_key env))) (λ r,
       pd_payload_sha256 r ≠ payload_digest demo_payloads 2 ∨ (∃ reason, pd_phase r = Phase_Rejected reason) ∨
       relayed env (world demo_again) r)).
Proof.
  refine (acknowledged_settled (λ _, "permanent") (λ _, "") demo_payloads demo_again 2 _ demo_again_reachable _).
  - intros q. unfold payload_digest, parsed, demo_payloads.
    destruct (q <=? 2)%Z; [done|]. destruct (q =? 3)%Z; [done|]. by destruct (q =? 4)%Z.
  - vm_compute. do 3 right. left.
Defined.
