(* ===== verification/IngressSettlement.v ===== *)
(** * The event ingress settles

    An event comes again until it is acknowledged.  Once the bucket and the relay
    answer and no one else holds the producer's record, one delivery is enough: from
    any state the conductors may have left behind, it is acknowledged.  The captures
    must fit the bucket, and those of a wakeup must be readable; the commands must
    not have used the keys of the ingress. *)

From stdpp Require Import pretty.
From S2P Require Import Prelude Workflow Json Uuid Captures GateIndex SubscriptionIndex Programs Workers Idempotency DefinitionStore SignalMessages SignalStore SignalPipelines Ingress IngressRecords IngressCalm IngressDemo IngressSafety.

Section settlement.
Context `{UuidOps Uuid} `{!Countable Uuid} {JsonPath : Type} `{!Runtime Uuid JsonPath} `{!RuntimeLaws Uuid JsonPath}.
Context (display : TriggerError (Uuid := Uuid) → string) (decode_message : Json → string).
Context (payloads : Z → string) (now : Z).

Abbreviation state := (SignalState Uuid JsonPath).
Abbreviation await := (Await state Outgoing Refusal Uuid).
Abbreviation failure := (RepositoryError Refusal).
Abbreviation program A := (prog await failure A).
Abbreviation sig_world := (World state Outgoing).
Abbreviation bucket w := (idempotency_bucket (now_store w)).
Abbreviation held w := (kv_entries (bucket w)).
Abbreviation ok := (ingress_ok payloads).
Abbreviation wp := (wp (E := failure) perform ok ingress_grows).
Abbreviation key_of key := (producer_entry_key (sha256_hex key)).
Abbreviation delivery q := (mkDelivery q (payloads q)).
Implicit Types (w : sig_world) (r : ProducerRecord Uuid).

(** ** A run in which everything works *)

Definition runs {A} (p : program A) (Q : A → sig_world → Prop) w : Prop :=
  Q (run perform p (working now) w).1 (run perform p (working now) w).2.

Lemma runs_mono {A} (p : program A) (Q Q' : A → sig_world → Prop) w :
  runs p Q w → (∀ x w', Q x w' → Q' x w') → runs p Q' w.
Proof. intros Hp HQ. apply HQ, Hp. Qed.

Lemma runs_bind {A B} (p : program A) (f : A → program B) Q w :
  runs p (λ x w', runs (f x) Q w') w → runs (bind p f) Q w.
Proof. unfold runs. rewrite run_bind. by destruct (run perform p _ w) as [x w']. Qed.

Lemma runs_bind_ok {A B E} (p : program (result A E)) (f : A → program (result B E)) Q w :
  runs p (λ x w', match x with Ok a => runs (f a) Q w' | Err e => Q (Err e) w' end) w → runs (bind_ok p f) Q w.
Proof. intros Hp. apply runs_bind. eapply runs_mono; [done|]. by intros [a|e] w'. Qed.

Lemma runs_erring {A E F} (f : E → F) (p : program (result A E)) Q w :
  runs p (λ x w', Q (map_err f x) w') w → runs (erring f p) Q w.
Proof. intros Hp. by apply runs_bind. Qed.

(** What is proved of every interleaving, for the run. *)
Lemma runs_wp {A} (p : program A) (P Q : A → sig_world → Prop) w :
  ok w → wp p P w → runs p Q w → runs p (λ x w', (ok w' ∧ ingress_grows w w' ∧ P x w') ∧ Q x w') w.
Proof. intros Hok Hp Hq. split; [|done]. by apply (wp_run perform ok ingress_grows). Qed.

(** *** The bucket *)

(** The client takes the keys of the ingress: letters, digits, a dot and a sign. *)
Context (valid_producer_key : ∀ d, kv_valid_key (Uuid := Uuid) (JsonPath := JsonPath) (producer_entry_key (hex d)) = true).
Context (valid_delivery_key : ∀ q, kv_valid_key (Uuid := Uuid) (JsonPath := JsonPath) (delivery_entry_key q) = true).

Definition indexes_kept w w' : Prop :=
  subscribers (now_store w') = subscribers (now_store w) ∧ gates (now_store w') = gates (now_store w) ∧
  definitions (now_store w') = definitions (now_store w).

Definition usable (key : string) w : Prop := kv_valid_key (Uuid := Uuid) (JsonPath := JsonPath) key = true ∧ kv_max_age (bucket w) ≠ None.

Lemma on_bucket_usable {X} key (f : Z → Bucket (BucketValue Uuid) → result (X * Bucket (BucketValue Uuid)) KvError) w :
  usable key w →
  on_bucket key f now (now_store w) =
  match f now (bucket w) with Ok (x, b) => Ok (x, set_bucket b (now_store w)) | Err e => Err (Refused_Kv e) end.
Proof. intros [Hv Ho]. unfold on_bucket. cbn. by rewrite Hv, bool_decide_false. Qed.

Lemma runs_entry {A} key (k : _ → program A) Q w :
  usable key w →
  (∀ w', bucket w' = bucket w → indexes_kept w w' → runs (k (Ok (held w !! key))) Q w') →
  runs (Call (Transact (on_bucket key (kv_read key))) k) Q w.
Proof.
  intros Hu Hk. unfold runs. cbn -[committed]. unfold transact. cbn -[committed].
  rewrite (on_bucket_usable key _ w Hu). by apply Hk.
Qed.

Lemma runs_create {A} key v (k : _ → program A) Q w :
  usable key w →
  (held w !! key = None → ∀ w', bucket w' = kv_put key v now (bucket w) → indexes_kept w w' → runs (k (Ok tt)) Q w') →
  (is_Some (held w !! key) → runs (k (Err (RepositoryRefused (Refused_Kv KeyExists)))) Q w) →
  runs (Call (Transact (on_bucket key (kv_create key v))) k) Q w.
Proof.
  intros Hu Hn Hs. unfold runs. cbn -[committed]. unfold transact. cbn -[committed].
  rewrite (on_bucket_usable key _ w Hu). unfold kv_create.
  destruct (held w !! key) as [v0|] eqn:Hv; simpl; [by apply Hs|]. by apply Hn.
Qed.

Lemma runs_update_entry {A} key v v0 n (k : _ → program A) Q w :
  usable key w → held w !! key = Some (n, v0) →
  (∀ w', bucket w' = kv_put key v now (bucket w) → indexes_kept w w' → runs (k (Ok tt)) Q w') →
  runs (Call (Transact (on_bucket key (kv_update key v n))) k) Q w.
Proof.
  intros Hu Hv Hk. unfold runs. cbn -[committed]. unfold transact. cbn -[committed].
  rewrite (on_bucket_usable key _ w Hu). unfold kv_update. rewrite Hv, bool_decide_true by done. by apply Hk.
Qed.

Lemma runs_now {A} (k : Z → program A) Q w : runs (k now) Q w → runs (Call UtcNow k) Q w.
Proof. done. Qed.

Lemma runs_new_v4 {A} (k : Uuid → program A) Q w :
  (∀ u w', bucket w' = bucket w → indexes_kept w w' → runs (k u) Q w') →
  runs (Call (Local draw) k) Q w.
Proof. intros Hk. by apply Hk. Qed.

Ltac opened := unfold heard, bucket_entry, bucket_create, bucket_update, lease_deadline, new_v4, call; cbn [bind bind_ok].

(** Only the entry under [key] has changed. *)
Definition elsewhere (key : string) w w' : Prop := ∀ k, k ≠ key → held w' !! k = held w !! k.

Lemma put_elsewhere key v w w' : bucket w' = kv_put key v now (bucket w) → elsewhere key w w'.
Proof. intros Hb k Hk. rewrite Hb. simpl. by rewrite lookup_insert_ne. Qed.

Lemma load_runs key n r w :
  usable key w → held w !! key = Some (n, Value_Producer r) → runs (load key) (λ x w', x = Ok r ∧ bucket w' = bucket w) w.
Proof. intros Hu Hr. unfold load. opened. apply runs_entry; [done|]. intros w' Hb _. simpl. by rewrite Hr. Qed.

Lemma update_runs key owner mutate n r r' w :
  usable key w → held w !! key = Some (n, Value_Producer r) →
  match owner with Some o => pd_lease_owner r = o | None => True end → mutate r = Ret (Ok r') →
  runs (update key owner mutate) (λ x w', x = Ok tt ∧ bucket w' = kv_put key (Value_Producer r') now (bucket w)) w.
Proof.
  intros Hu Hr Ho Hm. unfold update. unfold ATTEMPTS at 1. cbn [update_loop]. opened.
  apply runs_entry; [done|]. intros w2 Hb _. simpl. rewrite Hr. cbn [as_producer].
  assert (match owner with Some o => negb (bool_decide (pd_lease_owner r = o)) | None => false end = false) as ->.
  { destruct owner; [|done]. by rewrite bool_decide_true. }
  rewrite Hm. opened. eapply runs_update_entry; [by unfold usable; rewrite Hb|by rewrite Hb|].
  intros w3 Hb3 _. split; [done|]. simpl. by rewrite <- Hb.
Qed.

(** ** The mutations *)

(** The proof is one of the delivery. *)
Definition of_delivery (q : Z) (key : string) (proof : IngressOutcomeProof) : Prop :=
  pf_producer_digest proof = sha256_hex key ∧ pf_payload_digest proof = payload_digest payloads q.

Definition given (q : Z) (key : string) (o : IngressTerminalOutcome) w : Prop :=
  held_record w (key_of key) (λ r, verdict (payload_digest payloads q) r = Some o).

Lemma after_update_runs {X} key owner mutate n r r' (f : ProducerRecord Uuid → X) w :
  usable key w → held w !! key = Some (n, Value_Producer r) →
  match owner with Some o => pd_lease_owner r = o | None => True end → mutate r = Ret (Ok r') →
  runs (let*? _ := update key owner mutate in let*? r := load key in Ret (Ok (f r)))
    (λ x w', x = Ok (f r') ∧ elsewhere key w w' ∧ held_record w' key (eq r')) w.
Proof.
  intros Hu Hr Ho Hm. apply runs_bind_ok. eapply runs_mono; [by eapply update_runs|]. intros x w' [-> Hb].
  apply runs_bind_ok. eapply runs_mono; [eapply load_runs|].
  { unfold usable. rewrite Hb. exact Hu. }
  { rewrite Hb. apply lookup_insert_eq. }
  intros y w2 [-> Hb2]. split_and!; [done|..]; cbn.
  - intros k Hk. rewrite Hb2. by eapply put_elsewhere.
  - eexists _, r'. rewrite Hb2, Hb. split; [apply lookup_insert_eq|done].
Qed.

Definition holds (x : Reservation Uuid) (q : Z) (key : string) w : Prop :=
  ∃ n r, held w !! key_of key = Some (n, Value_Producer r) ∧ rs_key x = key_of key ∧ pd_lease_owner r = rs_owner x ∧
    pd_phase r = Phase_Reserved ∧ pd_payload_sha256 r = payload_digest payloads q ∧
    pd_producer_key_sha256 r = sha256_hex key.

Lemma persist_runs x q key fx w :
  usable (key_of key) w → holds x q key w →
  runs (persist_effects x fx)
    (λ y w', y = Ok (mkIngressEffects (fx_signal_effect fx) (fx_event_results fx) (fx_relay_intents fx)) ∧
       elsewhere (key_of key) w w' ∧
       held_record w' (key_of key) (λ r, accepts payloads q (fx_relay_intents fx) r ∧ pd_producer_key_sha256 r = sha256_hex key)) w.
Proof.
  intros Hu (n & r & Hr & Hx & Ho & Hph & Hpay & Hkey). unfold persist_effects. rewrite Hx. eapply runs_mono.
  { eapply (after_update_runs _ _ _ n r (with_effects fx r) record_effects); [done|done|done|].
    unfold to_ready. by rewrite bool_decide_true. }
  intros y w' (-> & He & n' & r' & Hr' & <-). split_and!; [done..|]. exists n', (with_effects fx r).
  split; [done|]. split; [|done]. split_and!; [by left|done|done].
Qed.

Lemma reject_runs x q key reason w :
  usable (key_of key) w → holds x q key w →
  runs (reject x reason)
    (λ y w', ∃ proof, y = Ok proof ∧ of_delivery q key proof ∧ given q key (pf_outcome proof) w' ∧ elsewhere (key_of key) w w') w.
Proof.
  intros Hu (n & r & Hr & Hx & Ho & Hph & Hpay & Hkey). unfold reject. rewrite Hx. eapply runs_mono.
  { eapply (after_update_runs _ _ _ n r (with_phase (Phase_Rejected reason) r) (λ r, record_proof r Outcome_Rejected)); [done|done|done|].
    unfold to_rejected. by rewrite bool_decide_true. }
  intros y w' (-> & He & n' & r' & Hr' & <-). eexists. split_and!; [done|done| |done].
  eexists n', _. split; [done|]. unfold verdict. simpl. by rewrite bool_decide_true.
Qed.

Lemma mark_relayed_runs q key l w :
  usable (key_of key) w →
  held_record w (key_of key) (λ r, accepts payloads q l r ∧ pd_producer_key_sha256 r = sha256_hex key) →
  runs (mark_relayed (key_of key))
    (λ y w', ∃ proof, y = Ok proof ∧ of_delivery q key proof ∧ given q key (pf_outcome proof) w' ∧ elsewhere (key_of key) w w') w.
Proof.
  intros Hu (n & r & Hk & (Hready & Hpay & _) & Hkey).
  assert (∃ r', to_relayed (SE := Refusal) r = Ok r' ∧ pd_payload_sha256 r' = pd_payload_sha256 r ∧
            pd_producer_key_sha256 r' = pd_producer_key_sha256 r ∧ pd_phase r' = Phase_Relayed) as (r' & Hr' & Hp' & Hk' & Hph).
  { unfold to_relayed. destruct Hready as [Hph|Hph]; rewrite Hph; eauto. }
  eapply runs_mono.
  { eapply (after_update_runs _ None _ n r r' (λ r, record_proof r Outcome_Accepted)); [done|done|done|]. by rewrite Hr'. }
  intros y w' (-> & He & n' & r2 & Hr2 & <-). eexists. split_and!; [done| | |done].
  - split; simpl; congruence.
  - exists n', r'. split; [done|]. unfold verdict. rewrite bool_decide_true by congruence. by rewrite Hph.
Qed.

(** ** Completing a delivery *)

(** The command cache has no row under the key. *)
Definition no_row (key : string) w : Prop := ∀ n c, held w !! key ≠ Some (n, Value_Cache c).

Lemma delivery_key_ne q d : delivery_entry_key q ≠ producer_entry_key d.
Proof. done. Qed.
Hint Resolve delivery_key_ne : core.

Lemma delivery_key_inj q q' : delivery_entry_key q = delivery_entry_key q' → q = q'.
Proof. intros Hk%(inj (String.append "delivery.")). by apply (inj pretty). Qed.

(** What is under the key of the delivery, if anything, is the note [d]. *)
Definition noted (q : Z) (d : DeliveryRecord) w : Prop :=
  ∀ n v, held w !! delivery_entry_key q = Some (n, v) → v = Value_Delivery d.

Lemma delivery_entry q n v w :
  ok w → no_row (delivery_entry_key q) w → held w !! delivery_entry_key q = Some (n, v) → ∃ d, v = Value_Delivery d.
Proof.
  intros Hok Hrow Hv. pose proof (ok_entry _ _ Hok _ _ _ Hv) as He. destruct v as [c|r|d]; simpl in He; [..|eauto].
  - by destruct (Hrow n c).
  - by destruct He as [Hk%delivery_key_ne _ _ _ _].
Qed.

Lemma entry_noted q d w :
  ok w → no_row (delivery_entry_key q) w → (∀ n d', held w !! delivery_entry_key q = Some (n, Value_Delivery d') → d' = d) →
  noted q d w.
Proof. intros Hok Hrow Hd n v Hv. destruct (delivery_entry q n v w) as [d' ->]; [done..|]. f_equal. eauto. Qed.

Lemma delivery_note q d n w :
  ok w → held w !! delivery_entry_key q = Some (n, Value_Delivery d) → note_ok payloads w q d.
Proof. intros Hok Hv. by destruct (ok_entry _ _ Hok _ _ _ Hv) as (q' & <-%delivery_key_inj & Hn). Qed.

Lemma record_delivery_runs q producer outcome w :
  usable (delivery_entry_key q) w →
  noted q (mkDeliveryRecord 1 (sha256_hex <$> producer) (payload_digest payloads q) outcome) w →
  runs (record_delivery sha256_hex hex q producer (stable_payload_hash (payloads q)) outcome) (λ x _, x = Ok tt) w.
Proof.
  intros Hu Hd. unfold record_delivery. opened. apply runs_create; [done|done|].
  intros [[n v] Hv]. apply runs_entry; [done|]. intros w' Hb _. simpl. rewrite Hv, (Hd _ _ Hv). cbn.
  by rewrite bool_decide_true.
Qed.

Definition acknowledged (q : Z) w : Prop := (Out_Ack q, true) ∈ log w.

Lemma acknowledge_runs q w : runs (acknowledge (JsonPath := JsonPath) (delivery q)) (λ _ w', acknowledged q w') w.
Proof. unfold runs, acknowledged. cbn. set_solver. Qed.

Definition note_of (q : Z) (key : string) (o : IngressTerminalOutcome) : DeliveryRecord :=
  mkDeliveryRecord 1 (Some (sha256_hex key)) (payload_digest payloads q) (delivery_outcome o).

Lemma complete_runs q key proof w :
  usable (delivery_entry_key q) w → noted q (note_of q key (pf_outcome proof)) w → of_delivery q key proof →
  runs (complete_delivery (delivery q) key proof) (λ _ w', acknowledged q w') w.
Proof.
  intros Hu Hn [Hd1 Hd2]. unfold complete_delivery, complete. apply runs_bind. simpl dv_payload.
  rewrite !bool_decide_true by done. cbn [andb]. apply runs_bind_ok, runs_erring.
  eapply runs_mono; [by apply record_delivery_runs|].
  intros x w' ->. cbn [map_err]. by eapply runs_mono; [apply acknowledge_runs|].
Qed.

Lemma malformed_runs q e w :
  ok w → usable (delivery_entry_key q) w → no_row (delivery_entry_key q) w → parsed payloads q = Err e →
  runs (reject_malformed (JsonPath := JsonPath) (delivery q) (EnvelopeError_to_string e)) (λ _ w', acknowledged q w') w.
Proof.
  intros Hok Hu Hrow Hp. apply runs_bind_ok, runs_erring. eapply runs_mono.
  { apply (record_delivery_runs q None); [done|]. apply entry_noted; [done|done|].
    intros n d Hd. pose proof (delivery_note _ _ _ _ Hok Hd) as Hn. unfold note_ok in Hn. by rewrite Hp in Hn. }
  intros x w' ->. cbn [map_err]. apply acknowledge_runs.
Qed.

(** ** Forwarding *)

Lemma send_intents_runs l w :
  Forall (λ i, is_Some (intent_message (JsonPath := JsonPath) i)) l →
  runs (send_intents (JsonPath := JsonPath) l) (λ sent w', sent = true ∧ bucket w' = bucket w) w.
Proof.
  intros Hl. revert w. induction Hl as [|i l [m Hm] _ IH]; intros w; [done|]. cbn [send_intents]. rewrite Hm. opened.
  apply (IH (mkWorld (now_store w) (past w) (log w ++ [(m, true)]))).
Qed.

Lemma intent_ok_message r i : intent_ok (JsonPath := JsonPath) r i → is_Some (intent_message (JsonPath := JsonPath) i).
Proof. destruct i; simpl; [intros (s & ? & -> & _)|intros (s & -> & _)|intros [o ->]]; by eexists. Qed.

Lemma keyed_messages key l : keyed (JsonPath := JsonPath) key l → Forall (λ i, is_Some (intent_message (JsonPath := JsonPath) i)) l.
Proof. intros (r & _ & _ & Hk). apply Forall_forall. intros i Hi. by eapply intent_ok_message, Hk. Qed.

Lemma usable_same key w w' : bucket w' = bucket w → usable key w → usable key w'.
Proof. intros Hb. unfold usable. by rewrite Hb. Qed.

Lemma ok_usable_producer w key : ok w → usable (key_of key) w.
Proof. intros Hok. split; [apply valid_producer_key|]. by rewrite (ok_open _ _ Hok). Qed.
Lemma ok_usable_delivery w q : ok w → usable (delivery_entry_key q) w.
Proof. intros Hok. split; [apply valid_delivery_key|]. by rewrite (ok_open _ _ Hok). Qed.
Hint Resolve ok_usable_producer ok_usable_delivery : ingress.

Lemma forward_runs q key l w :
  ok w → held w !! delivery_entry_key q = None → keyed (JsonPath := JsonPath) key l →
  held_record w (key_of key) (λ r, accepts payloads q l r ∧ pd_producer_key_sha256 r = sha256_hex key) →
  runs (forward_ready_intents (delivery q) key (key_of key) l) (λ _ w', acknowledged q w') w.
Proof.
  intros Hok Hnone Hk Hr. unfold forward_ready_intents. apply runs_bind.
  assert (known w (key_of key) (accepts payloads q l)) as Hknown.
  { right. destruct Hr as (n & r & Hr & Ha & _). by exists n, r. }
  eapply runs_mono; [apply runs_wp; [done|by apply (send_intents_spec payloads q key l)|by eapply send_intents_runs, keyed_messages]|].
  intros x w2 [(Hok2 & Hg & Hf) [-> Hb]]. apply runs_bind.
  eapply runs_mono; [apply runs_wp; [done|apply (mark_relayed_spec payloads q key l)|apply (mark_relayed_runs q key l)]|].
  - done.
  - by eapply known_grows; [apply accepts_stable|..].
  - by apply Hf.
  - auto with ingress.
  - unfold held_record in *. by rewrite Hb.
  - intros y w3 [(Hok3 & _ & _) (proof & -> & Hd & _ & He)]. apply complete_runs; [auto with ingress| |done].
    intros n v. by rewrite He, Hb, Hnone.
Qed.

(** ** Reserving *)

(** No one holds the record under the key. *)
Definition unleased (key : string) w : Prop :=
  ∀ n r, held w !! key = Some (n, Value_Producer r) → pd_phase r = Phase_Reserved → (pd_lease_expires_at r <= now)%Z.

(** Beside what [reserved_as] tells. *)
Definition reserved_for (q : Z) (key : string) w (o : ReservationOutcome Uuid) : Prop :=
  match o with
  | Reservation_Acquired x => holds x q key w
  | Reservation_Pending => False
  | Reservation_Ready _ fx =>
      held_record w (key_of key) (λ r, accepts payloads q (fx_relay_intents fx) r ∧ pd_producer_key_sha256 r = sha256_hex key)
  | Reservation_Complete p | Reservation_Rejected p | Reservation_Conflict _ _ p => of_delivery q key p
  end.

(** The answer is the verdict the record had, if it had one. *)
Definition agrees (q : Z) (key : string) w (o : ReservationOutcome Uuid) : Prop :=
  match o with
  | Reservation_Complete p | Reservation_Rejected p | Reservation_Conflict _ _ p => given q key (pf_outcome p) w
  | _ => ∀ v, ¬ given q key v w
  end.

Lemma indexes_kept_trans w1 w2 w3 : indexes_kept w1 w2 → indexes_kept w2 w3 → indexes_kept w1 w3.
Proof. intros (? & ? & ?) (? & ? & ?). split_and!; congruence. Qed.

Lemma reserve_turn_runs q key owner w :
  ok w → no_row (key_of key) w → unleased (key_of key) w →
  runs (reserve_turn (key_of key) (sha256_hex key) (payload_digest payloads q) owner)
    (λ x w', (∃ o, x = Some (Ok o) ∧ reserved_for q key w' o ∧ agrees q key w o) ∧ elsewhere (key_of key) w w' ∧ indexes_kept w w') w.
Proof.
  intros Hok Hrow Hfree. pose proof (ok_usable_producer w key Hok) as Hu.
  unfold reserve_turn. opened. apply runs_entry; [done|]. intros w2 Hb Hix. simpl.
  assert (elsewhere (key_of key) w w2) as He by (intros k _; by rewrite Hb).
  destruct (held w !! key_of key) as [[n v]|] eqn:Hv.
  - pose proof (ok_entry _ _ Hok _ _ _ Hv) as Hentry.
    destruct v as [c|r|d]; cbn [as_producer]; [by destruct (Hrow n c)| |by destruct Hentry as (? & ? & _)].
    destruct Hentry as [Hk%producer_key_inj Hver _ _ _]. rewrite Hver, <-Hk, bool_decide_true by done. cbn [negb orb Z.eqb Pos.eqb].
    assert (∀ o, given q key o w ↔ verdict (payload_digest payloads q) r = Some o) as Hgiven.
    { intros o. split; [intros (n' & r' & Hr' & Ho); congruence|]. intros Ho. by exists n, r. }
    unfold verdict in Hgiven. case_bool_decide as Hpay; cbn [negb].
    2: { split; [|done]. eexists. split_and!; [done|done|]. by apply Hgiven. }
    assert (∀ o, of_delivery q key (record_proof r o)) as Hproof by (split; simpl; congruence).
    destruct (pd_phase r) eqn:Hph.
    + specialize (Hfree _ _ Hv Hph). apply runs_now. rewrite (proj2 (Z.ltb_ge _ _) Hfree). apply runs_now.
      eapply runs_update_entry; [by eapply usable_same|by rewrite Hb|]. intros w3 Hb3 Hix3. split.
      * eexists. split_and!; [done| |by intros v ?%Hgiven]. eexists _, (with_lease owner _ r). cbn. rewrite Hb3. simpl.
        rewrite lookup_insert_eq. split_and!; [done..|congruence|congruence].
      * split; [|by eapply indexes_kept_trans]. intros k Hne. rewrite <- He by done. by eapply put_elsewhere.
    + split; [|done]. eexists. split_and!; [done| |by intros v ?%Hgiven]. exists n, r. cbn. rewrite Hb.
      split; [done|]. split; [|done]. split_and!; [by left|done|done].
    + split; [|done]. eexists. split_and!; [done|done|]. by apply Hgiven.
    + split; [|done]. eexists. split_and!; [done|done|]. by apply Hgiven.
  - apply runs_new_v4. intros id w3 Hb3 Hix3. apply runs_now, runs_create.
    + apply (usable_same _ w); [congruence|done].
    + intros _ w4 Hb4 Hix4. split.
      * eexists. split_and!; [done| |by intros v (n & r & Hr & _); congruence]. eexists _, _. cbn. rewrite Hb4. simpl.
        by rewrite lookup_insert_eq.
      * split; [|by do 2 (eapply indexes_kept_trans; [eassumption|])]. intros k Hne. rewrite <- He, <- Hb3 by done. by eapply put_elsewhere.
    + rewrite Hb3, Hb, Hv. by intros [? ?].
Qed.

Lemma reserve_runs q key w :
  ok w → no_row (key_of key) w → unleased (key_of key) w →
  runs (reserve sha256_hex hex key (stable_payload_hash (payloads q)))
    (λ x w', (∃ o, x = Ok o ∧ reserved_for q key w' o ∧ agrees q key w o) ∧ elsewhere (key_of key) w w' ∧ indexes_kept w w') w.
Proof.
  intros Hok Hrow Hfree. unfold reserve, new_v4, call. cbn [bind].
  assert (∀ owner, runs (reserve_loop ATTEMPTS (key_of key) (sha256_hex key) (payload_digest payloads q) owner)
    (λ x w', (∃ o, x = Ok o ∧ reserved_for q key w' o ∧ agrees q key w o) ∧ elsewhere (key_of key) w w' ∧ indexes_kept w w')
    (committed w (draw (now_store w)).2)) as Hgo; [|apply Hgo].
  intros owner. unfold ATTEMPTS. cbn [reserve_loop]. apply runs_bind.
  eapply runs_mono; [apply reserve_turn_runs|].
  - by apply ingress_ok_unchanged.
  - done.
  - done.
  - intros x w' [(o & -> & Ho) Hrest]. split; [by exists o|done].
Qed.

(** ** The effects of an envelope *)

(** [captures_value] is an array of objects with a name and an envelope. *)
Context (captures_valid : ∀ l : list (string * Envelope Uuid), validate_captures (captures_value l) = Ok tt).

Abbreviation working_set := (WorkingSet (Uuid := Uuid) (JsonPath := JsonPath)).

(** Working sets without a scope store. *)
Definition plain_set (ws : working_set) : Prop := match ws with Working_Scope _ => False | _ => True end.

Definition still {A} (p : program A) (P : A → Prop) w : Prop := runs p (λ x w', P x ∧ bucket w' = bucket w) w.

Lemma still_bind {A B} (p : program A) (f : A → program B) P Q w :
  still p P w → (∀ x w', P x → still (f x) Q w') → still (bind p f) Q w.
Proof.
  unfold still. intros Hp Hf. apply runs_bind. eapply runs_mono; [exact Hp|]. intros x w' [Hx Hb].
  eapply runs_mono; [by apply Hf|]. intros y w2 [Hy Hb2]. split; [done|congruence].
Qed.

Lemma still_bind_ok {A B E} (p : program (result A E)) (f : A → program (result B E)) P Q w :
  still p (λ x, match x with Ok a => P a | Err e => Q (Err e) end) w →
  (∀ a w', P a → still (f a) Q w') → still (bind_ok p f) Q w.
Proof. intros Hp Hf. eapply still_bind; [exact Hp|]. intros [a|e] w' Hx; [by apply Hf|done]. Qed.

Lemma still_erring {A E F} (f : E → F) (p : program (result A E)) P w :
  still p (λ x, P (map_err f x)) w → still (erring f p) P w.
Proof. intros Hp. eapply still_bind; [exact Hp|]. done. Qed.

Lemma still_mono {A} (p : program A) (P Q : A → Prop) w : still p P w → (∀ x, P x → Q x) → still p Q w.
Proof. unfold still. intros Hp HQ. eapply runs_mono; [exact Hp|]. intros x w' [? ?]. auto. Qed.

(** A transaction that leaves the bucket alone. *)
Lemma still_transact {X} (f : Z → state → result (X * state) Refusal) (P : result X failure → Prop) w :
  (∀ x s, f now (now_store w) = Ok (x, s) → idempotency_bucket s = bucket w ∧ P (Ok x)) →
  (∀ e, f now (now_store w) = Err e → P (Err (RepositoryRefused e))) →
  still (call (Transact f)) P w.
Proof.
  intros Hok Herr. unfold still, runs, call. cbn -[committed]. unfold transact. cbn -[committed].
  destruct (f now (now_store w)) as [[x s]|e]; cbn; [|auto]. by destruct (Hok _ _ eq_refl).
Qed.

(** What the declaration takes from the payload, at the time of the run. *)
Abbreviation extracted payload id source c :=
  (extract_one value_to_string sha256_hex parse_path query (rfc3339 now) payload id source c).

Definition readable (l : list CaptureDeclaration) : Prop :=
  ∀ c, c ∈ l → ∃ path, capture_reads (parse_path (Uuid := Uuid) (JsonPath := JsonPath)) c path.

Lemma extract_still payload captures id source w :
  still (extract_envelopes payload captures id source)
    (λ x, match x with
          | Ok l => Forall (λ e, ∃ c, c ∈ captures ∧ extracted payload id source c = Ok e) l
          | Err _ => ¬ readable captures
          end) w.
Proof.
  revert w. induction captures as [|c rest IH]; intros w; [by split; [constructor|]|]. cbn [extract_envelopes]. unfold call. cbn [bind].
  apply runs_now. destruct (extract_one _ _ _ _ _ _ _ _ c) as [named|e] eqn:He.
  - eapply still_bind_ok with (P := λ l, Forall (λ e, ∃ c', c' ∈ rest ∧ extracted payload id source c' = Ok e) l).
    + eapply still_mono; [apply IH|]. intros [l|e] Hl; [done|]. intros Hc. apply Hl. intros c' Hc'. apply Hc. by right.
    + intros l w' Hl. split; [|done]. cbn. constructor; [exists c; split; [by left|done]|].
      eapply Forall_impl; [done|]. intros e (c' & Hc' & Hx). exists c'. split; [by right|done].
  - split; [|done]. intros Hc. exfalso. destruct (Hc c) as [path Hp]; [by left|].
    enough (∃ ne, extract_one value_to_string sha256_hex parse_path query (rfc3339 now) payload id source c = Ok ne)
      as [ne Hne] by (simpl in *; congruence).
    eexists. apply extract_one_ok. eauto.
Qed.

Lemma insert_captures_still id wf v l w : still (insert_captures id wf v l) (λ x, x = Ok tt) w.
Proof.
  unfold insert_captures. eapply still_bind_ok with (P := λ _, True); [|done]. apply still_transact.
  - intros x s. unfold on_audit. destruct (insert_signal_captures _ _ _) as [[b a]|e]; [|done]. by intros [= <- <-].
  - intros e. unfold on_audit, insert_signal_captures. cbn. rewrite captures_valid. cbn. by destruct (_ !! _).
Qed.

Lemma runs_transact_ok {X A} (f : Z → state → result (X * state) Refusal) x s (k : _ → program A) Q w :
  f now (now_store w) = Ok (x, s) → runs (k (Ok x)) Q (committed w s) → runs (Call (Transact f) k) Q w.
Proof. intros Hf. unfold runs. cbn -[committed]. unfold transact. cbn -[committed]. by rewrite Hf. Qed.
Lemma runs_transact_err {X A} (f : Z → state → result (X * state) Refusal) e (k : _ → program A) Q w :
  f now (now_store w) = Err e → runs (k (Err (RepositoryRefused e))) Q w → runs (Call (Transact f) k) Q w.
Proof. intros Hf. unfold runs. cbn -[committed]. unfold transact. cbn -[committed]. by rewrite Hf. Qed.

(** The client takes the key of the capture, and the bucket its value. *)
Definition storable (id : Uuid) (c : string * Envelope Uuid) : Prop :=
  kv_valid_key (Uuid := Uuid) (JsonPath := JsonPath) (capture_key id c.1) = true ∧
  (Z.of_nat (length (encode_envelope (JsonPath := JsonPath) c.2)) <= MAX_VALUE_SIZE)%Z.

Lemma on_ctx_put id name e b (s : state) now' :
  storable id (name, e) → ctx_bucket s = Some b →
  on_ctx (capture_key id name) (λ b, if (MAX_VALUE_SIZE <? Z.of_nat (length (encode_envelope e)))%Z
                                     then Err (Refused_Kv KvTooLarge) else Ok (tt, <[capture_key id name := encode_envelope e]> b)) now' s
  = Ok (tt, set_ctx (Some (<[capture_key id name := encode_envelope e]> b)) s).
Proof.
  intros [Hv Hs] Hb. unfold on_ctx. simpl in Hv, Hs. rewrite Hv, Hb. simpl. by rewrite (proj2 (Z.ltb_ge _ _) Hs).
Qed.

(** What the declarations take from the payload can be stored, if it is to be. *)
Definition fits (ws : working_set) (payload : Json) (source : SignalSource) (l : list CaptureDeclaration) : Prop :=
  ws = Working_Nats → ∀ c id e, c ∈ l → extracted payload id source c = Ok e → storable id e.

Lemma fits_storable ws payload source l id es :
  fits ws payload source l → Forall (λ e, ∃ c, c ∈ l ∧ extracted payload id source c = Ok e) es →
  ws = Working_Nats → Forall (storable id) es.
Proof. intros Hf He Hws. eapply Forall_impl; [done|]. intros e (c & Hc & Hx). by eapply Hf. Qed.

Lemma put_captures_still id l w :
  Forall (storable id) l → is_Some (ctx_bucket (now_store w)) → still (put_captures id l) (λ x, x = Ok tt) w.
Proof.
  unfold still. intros Hl. revert w. induction Hl as [|[name e] l Hs _ IH]; intros w [b Hb]; [done|]. cbn [put_captures].
  unfold ctx_put, call. cbn [bind bind_ok]. eapply runs_transact_ok; [by apply on_ctx_put|].
  eapply runs_mono; [by apply IH|done].
Qed.

Lemma write_nats_still id l w : Forall (storable id) l → still (write_captures_to_nats id l) (λ x, x = Ok tt) w.
Proof.
  intros Hl. destruct l as [|c l]; [done|]. unfold write_captures_to_nats, open_ctx_bucket, get_ctx_bucket, create_ctx_bucket, call, still.
  cbn [bind bind_ok]. destruct (ctx_bucket (now_store w)) as [b|] eqn:Hb.
  - eapply runs_transact_ok; [by rewrite Hb|].
    eapply runs_mono; [apply put_captures_still; [done|]; cbn; by rewrite Hb|done].
  - eapply runs_transact_err; [by rewrite Hb|]. eapply runs_transact_ok; [done|].
    eapply runs_mono; [by apply put_captures_still|done].
Qed.

Lemma backfill_still id wf at_ w : still (backfill_pending_schedule_linkage id wf at_) (λ _, True) w.
Proof.
  unfold backfill_pending_schedule_linkage. eapply still_bind_ok with (P := λ _, True); [|done]. apply still_transact; [|done].
  intros x s. unfold on_audit. cbn. by intros [= <- <-].
Qed.

Lemma write_trigger_still ws id l w :
  plain_set ws → (ws = Working_Nats → Forall (storable id) l) → still (write_trigger_captures ws id l) (λ x, x = Ok tt) w.
Proof.
  destruct ws; [done| |done]. intros _ Hl. apply still_erring. eapply still_mono; [by apply write_nats_still, Hl|]. by intros x ->.
Qed.

(** A reserved trigger goes ahead or is refused for good. *)
Lemma reserved_trigger_still ws req id w :
  plain_set ws →
  (∀ workflow, live_workflow_definition (definitions (now_store w)) (tr_workflow_id req) = Some workflow →
     fits ws (default (JObject []) (tr_inputs req)) (tr_source req) (def_captures workflow)) →
  still (process_reserved_trigger ws req id)
    (λ x, match x with Ok _ => True | Err e => is_permanent_ingress_rejection e = true end) w.
Proof.
  intros Hw Hfits. unfold process_reserved_trigger, process_trigger_with_working_set.
  eapply still_bind_ok with (P := λ o, ∃ signal results, o = Trigger_Fresh id signal results);
    [|by intros o w' (signal & results & ->)].
  eapply still_bind_ok with (P := λ found, found = live_workflow_definition (definitions (now_store w)) (tr_workflow_id req)).
  { apply still_erring, still_transact; [|done]. by intros x s [= <- <-]. }
  intros [workflow|] w1 Hfound; [|done]. specialize (Hfits _ (eq_sym Hfound)). destruct (_ && _); [done|].
  rewrite bool_decide_true by by eexists. unfold consult_cache. cbn [bind bind_ok erring map_err].
  unfold release_trigger.
  eapply still_bind_ok with (P := λ l, ws = Working_Nats → Forall (storable id) l).
  { apply still_erring. eapply still_mono; [apply extract_still|]. intros [l|e] Hl; [|done]. exact (fits_storable _ _ _ _ _ _ Hfits Hl). }
  intros l w2 Hl. eapply still_bind_ok with (P := λ _, True).
  { apply still_erring. eapply still_mono; [apply insert_captures_still|]. by intros x ->. }
  intros _ w3 _. eapply still_bind with (P := λ _, True).
  { destruct (tr_scheduled_at req); [|done]. apply backfill_still. }
  intros _ w4 _. eapply still_bind_ok with (P := λ _, True).
  { eapply still_mono; [by apply write_trigger_still|]. by intros x ->. }
  intros _ w5 _. split; [|done]. cbn. eauto.
Qed.

(** *** Wakeups *)

Definition capturable (ws : working_set) (name : string) (payload : Json) (l : list CaptureDeclaration) : Prop :=
  readable l ∧ fits ws payload (Wakeup name) l.

Lemma write_captures_still ws id owner l w :
  plain_set ws → (ws = Working_Nats → Forall (storable id) l) → still (write_captures ws id owner l) (λ x, x = Ok tt) w.
Proof.
  destruct ws; [done| |done]. intros _ Hl. apply still_erring. eapply still_mono; [by apply write_nats_still, Hl|]. by intros x ->.
Qed.

Lemma extract_capturable_still {F} (f : ExtractionError → F) ws payload captures id name w :
  capturable ws name payload captures →
  still (erring f (extract_envelopes payload captures id (Wakeup name)))
    (λ x, match x with Ok l => ws = Working_Nats → Forall (storable id) l | Err _ => False end) w.
Proof.
  intros [Hc Hf]. apply still_erring. eapply still_mono; [apply extract_still|].
  intros [l|e] Hx; [exact (fits_storable _ _ _ _ _ _ Hf Hx)|by apply Hx].
Qed.

Lemma subscriber_captures_still ws id name entry payload w :
  plain_set ws → capturable ws name payload (merged_captures entry) →
  still (persist_subscriber_captures ws id name entry payload) (λ x, x = Ok tt) w.
Proof.
  intros Hw Hc. unfold persist_subscriber_captures. eapply still_bind_ok with (P := λ l, ws = Working_Nats → Forall (storable id) l).
  { eapply still_mono; [by apply extract_capturable_still|]. by intros [l|e]. }
  intros [|c l] w2 Hl; [done|]. eapply still_bind_ok with (P := λ _, True); [|by intros; apply write_captures_still].
  apply still_erring. eapply still_mono; [apply insert_captures_still|]. by intros x ->.
Qed.

Lemma gate_captures_still ws id name gate payload w :
  plain_set ws → capturable ws name payload (captures_spec gate) →
  still (write_gate_captures ws id name gate payload) (λ x, x = Ok tt) w.
Proof.
  intros Hw Hc. unfold write_gate_captures. eapply still_bind_ok with (P := λ l, ws = Working_Nats → Forall (storable id) l).
  { eapply still_mono; [by apply extract_capturable_still|]. by intros [l|e]. }
  intros [|c l] w2 Hl; [done|]. by apply write_captures_still.
Qed.

Lemma wake_subscribers_still ws id name payload entries matched l w :
  plain_set ws → (∀ e, e ∈ entries → capturable ws name payload (merged_captures e)) →
  still (wake_subscribers ws Sender_Collecting true id name payload entries matched l) (λ x, is_ok x = true) w.
Proof.
  intros Hw. revert matched l w. induction entries as [|e entries IH]; intros matched l w He; [done|]. cbn [wake_subscribers].
  assert (∀ matched l w, still (wake_subscribers ws Sender_Collecting true id name payload entries matched l) (λ x, is_ok x = true) w) as Hgo.
  { intros. apply IH. intros e' Hin. apply He. by right. }
  destruct (predicate_matches _ _); [|apply Hgo]. eapply still_bind with (P := λ x, x = Ok tt).
  - destruct (has_working_set ws); [|done]. apply subscriber_captures_still; [done|]. apply He. by left.
  - intros x w2 ->. cbn [sender_send bind]. apply Hgo.
Qed.

Lemma wake_gates_still ws id name payload entries matched l w :
  plain_set ws → (∀ e, e ∈ entries → capturable ws name payload (captures_spec e)) →
  still (wake_gates ws Sender_Collecting true id name payload entries matched l) (λ x, is_ok x = true) w.
Proof.
  intros Hw. revert matched l w. induction entries as [|e entries IH]; intros matched l w He; [done|]. cbn [wake_gates].
  assert (∀ matched l w, still (wake_gates ws Sender_Collecting true id name payload entries matched l) (λ x, is_ok x = true) w) as Hgo.
  { intros. apply IH. intros e' Hin. apply He. by right. }
  destruct (predicate_matches _ _); [|apply Hgo]. eapply still_bind with (P := λ x, x = Ok tt).
  - destruct (has_working_set ws); [|done]. apply gate_captures_still; [done|]. apply He. by left.
  - intros x w2 ->. cbn [sender_send_gate_outcome bind]. eapply still_bind with (P := λ _, True); [done|]. intros. apply Hgo.
Qed.

Lemma runs_read {X A} (f : state → X) (k : X → program A) Q w :
  runs (k (f (now_store w))) Q (committed w (now_store w)) → runs (Call (Local (λ s, (f s, s))) k) Q w.
Proof. done. Qed.

(** Whoever waits for the name declares captures that can be read and stored. *)
Definition readable_wakeup (ws : working_set) (name : string) (payload : Json) (s : state) : Prop :=
  (∀ e, e ∈ sub_lookup name (subscribers s) → capturable ws name payload (merged_captures e)) ∧
  ∀ e, e ∈ lookup_by_signal_name name (gates s) → capturable ws name payload (captures_spec e).

Lemma reserved_wakeup_still ws req id w :
  plain_set ws → readable_wakeup ws (wr_name req) (default (JObject []) (wr_payload req)) (now_store w) →
  still (process_wakeup_with_working_set ws Sender_Collecting req (Some id)) (λ x, is_ok x = true) w.
Proof.
  intros Hw [Hsub Hgate]. unfold process_wakeup_with_working_set. rewrite bool_decide_true by by eexists.
  unfold consult_cache. cbn [bind bind_ok erring map_err]. unfold call. cbn [bind].
  set (entries := sub_lookup (wr_name req) (subscribers (now_store w))) in *.
  set (gate_entries := lookup_by_signal_name (wr_name req) (gates (now_store w))) in *.
  assert (∀ w', bucket w' = bucket w → still
    (let*? woken := wake_subscribers ws Sender_Collecting true id (wr_name req) (default (JObject []) (wr_payload req)) entries 0 [] in
     let*? opened := wake_gates ws Sender_Collecting true id (wr_name req) (default (JObject []) (wr_payload req)) gate_entries 0 woken.2 in
     let* audited := insert_wakeup (mkSignalWakeupInput id (wr_name req) (as_i32 woken.1)) in
     match audited with
     | Err e => Ret (Err (Wakeup_Audit e))
     | _ => Ret (Ok (Wakeup_Fresh id woken.1 opened.1, opened.2))
     end) (λ x, is_ok x = true) w') as Hgo.
  { intros w' Hb. eapply still_bind_ok with (P := λ _, True).
    { eapply still_mono; [by apply wake_subscribers_still|]. by intros [x|e]. }
    intros woken w2 _. eapply still_bind_ok with (P := λ _, True).
    { eapply still_mono; [by apply wake_gates_still|]. by intros [x|e]. }
    intros opened w3 _. eapply still_bind with (P := λ x, is_ok x = true); [|by intros [x|e] w4].
    apply still_transact; [|done]. intros x s. unfold on_audit. cbn. by intros [= <- <-]. }
  unfold still. apply (runs_read (λ s, sub_lookup _ (subscribers s))), (runs_read (λ s, lookup_by_signal_name _ (gates s))).
  cbn [committed now_store]. fold entries gate_entries.
  specialize (Hgo (committed (committed w (now_store w)) (now_store w)) eq_refl).
  destruct entries as [|e entries], gate_entries as [|g gate_entries]; [done|exact Hgo..].
Qed.

(** The captures of the event are no obstacle. *)
Definition admissible (ws : working_set) (env : IngressEnvelope Uuid) (s : state) : Prop :=
  match env with
  | Envelope_Trigger _ workflow_id _ inputs => ∀ workflow,
      live_workflow_definition (definitions s) workflow_id = Some workflow →
      fits ws (default (JObject []) inputs) (ExternalNats SUBJECT) (def_captures workflow)
  | Envelope_Cancel _ _ _ _ => True
  | Envelope_Wakeup _ name _ payload => readable_wakeup ws name (default (JObject []) payload) s
  end.

Lemma envelope_still ws id env w :
  plain_set ws → admissible ws env (now_store w) →
  still (process_reserved_envelope display decode_message ws id env) (λ x, x ≠ Err Failure_Transient) w.
Proof.
  intros Hw Henv. destruct env as [key wf at_ inputs|key target reason note|key name target payload]; cbn [process_reserved_envelope].
  - eapply still_bind; [by apply reserved_trigger_still|]. intros [[signal results]|e] w'; [done|]. by intros ->.
  - destruct (de_ext_target target); [|done]. by destruct (de_ext_cancel_reason reason).
  - destruct (_ && _); [done|]. eapply still_bind; [by apply reserved_wakeup_still|].
    by intros [[o l]|e] w'.
Qed.

(** ** A whole delivery *)

(** No lease is held on the event; the keys are its own; a note that is left of it was
    not made for a record that has lapsed since. *)
Definition deliverable (ws : working_set) (q : Z) w : Prop :=
  no_row (delivery_entry_key q) w ∧
  ∀ env, parsed payloads q = Ok env →
    no_row (key_of (envelope_key env)) w ∧ unleased (key_of (envelope_key env)) w ∧
    (lapsed w (key_of (envelope_key env)) → held w !! delivery_entry_key q = None) ∧
    admissible ws env (now_store w).

Lemma plain_calm ws : plain_set ws → calm_set ws.
Proof. by destruct ws. Qed.

Lemma acquired_runs ws q env x w :
  plain_set ws → ok w → parsed payloads q = Ok env → held w !! delivery_entry_key q = None →
  admissible ws env (now_store w) → known w (key_of (envelope_key env)) (claims payloads q (rs_signal_id x)) →
  holds x q (envelope_key env) w →
  runs (process_reservation display decode_message ws (delivery q) (envelope_key env) env (Reservation_Acquired x))
    (λ _ w', acknowledged q w') w.
Proof.
  intros Hw Hok Hp Hnone Henv Hc Hh. cbn [process_reservation]. apply runs_bind.
  eapply runs_mono; [apply runs_wp; [done|by apply wp_calm, calm_envelope, plain_calm|by apply envelope_still]|].
  intros y w2 [(Hok2 & Hg2 & Hy) [Hne Hb]].
  assert (holds x q (envelope_key env) w2) as Hh2 by (unfold holds; by rewrite Hb).
  assert (rs_key x = key_of (envelope_key env)) as Hx by by destruct Hh as (? & ? & ? & ? & ?).
  assert (known w2 (key_of (envelope_key env)) (claims payloads q (rs_signal_id x))) as Hc2.
  { eapply known_grows; [apply claims_stable|done|done]. }
  destruct y as [fx|[reason|]]; [| |done]; apply runs_bind.
  - eapply runs_mono; [apply runs_wp; [done|by eapply persist_spec|apply (persist_runs x q (envelope_key env)); [by eauto with ingress|done]]|].
    intros z w3 [(Hok3 & Hg3 & Hz) (-> & He & Hr)]. destruct Hz as [Hk _]. rewrite Hx.
    apply forward_runs; [done| |done|done]. by rewrite He, Hb.
  - eapply runs_mono; [apply runs_wp; [done|by eapply reject_spec|apply (reject_runs x q (envelope_key env)); [by eauto with ingress|done]]|].
    intros z w3 [(Hok3 & Hg3 & Hz) (proof & -> & Hd & _ & He)].
    apply complete_runs; [auto with ingress| |done]. intros n v. by rewrite He, Hb, Hnone.
Qed.

(** A note is there only once the record has its verdict. *)
Lemma note_given q env n d w :
  ok w → parsed payloads q = Ok env → (lapsed w (key_of (envelope_key env)) → held w !! delivery_entry_key q = None) →
  held w !! delivery_entry_key q = Some (n, Value_Delivery d) →
  ∃ o, d = note_of q (envelope_key env) o ∧ given q (envelope_key env) o w.
Proof.
  intros Hok Hp Hl Hd. pose proof (delivery_note _ _ _ _ Hok Hd) as Hn. unfold note_ok in Hn. rewrite Hp in Hn.
  destruct Hn as (o & [Hlapsed|Ho] & ->); [|by exists o]. by rewrite (Hl Hlapsed) in Hd.
Qed.

Lemma given_unique q key o o' w : given q key o w → given q key o' w → o = o'.
Proof. intros (n & r & Hr & Hv) (n' & r' & Hr' & Hv'). congruence. Qed.

Lemma none_noted q w :
  ok w → no_row (delivery_entry_key q) w → (∀ n d, held w !! delivery_entry_key q ≠ Some (n, Value_Delivery d)) →
  held w !! delivery_entry_key q = None.
Proof.
  intros Hok Hrow Hn. destruct (held w !! _) as [[n v]|] eqn:Hv; [|done].
  destruct (delivery_entry q n v w) as [d ->]; [done..|]. by destruct (Hn n d).
Qed.

Lemma delivery_runs ws q w :
  plain_set ws → ok w → deliverable ws q w →
  runs (process_delivery display decode_message ws (delivery q)) (λ _ w', acknowledged q w') w.
Proof.
  intros Hw Hok [Hrow Hd]. unfold process_delivery. simpl dv_payload.
  destruct (parsed payloads q) as [env|e] eqn:Hp; pose proof Hp as Hp'; unfold parsed in Hp; rewrite Hp.
  2: { apply runs_bind. by eapply runs_mono; [apply malformed_runs; auto with ingress|]. }
  destruct (Hd _ eq_refl) as (Hkey & Hfree & Hlapse & Henv). cbn [dv_producer_key]. apply runs_bind.
  eapply runs_mono; [apply runs_wp; [done|by apply reserve_spec|by apply reserve_runs]|].
  intros y w2 [(Hok2 & Hg2 & Ho) [(o & -> & Ho2 & Hag) [He (Hi1 & Hi2 & Hi3)]]].
  assert ((∀ v, ¬ given q (envelope_key env) v w) → held w2 !! delivery_entry_key q = None) as Hnone.
  { intros Hnot. rewrite He by done. apply none_noted; [done|done|]. intros n d Hn.
    destruct (note_given q env n d w) as (v & _ & Hv); [done..|]. by destruct (Hnot v). }
  assert (∀ v, given q (envelope_key env) v w → noted q (note_of q (envelope_key env) v) w2) as Hnoted.
  { intros v Hv n x. rewrite He by done. revert n x. apply entry_noted; [done|done|]. intros n d Hn.
    destruct (note_given q env n d w) as (v' & -> & Hv'); [done..|]. by rewrite (given_unique _ _ _ _ _ Hv Hv'). }
  destruct o as [x| |operation fx|proof|proof|? ? proof]; cbn [reserved_as reserved_for agrees] in *; [|done|..].
  - apply acquired_runs; [done..|by apply Hnone| |by apply Ho|done].
    unfold admissible, readable_wakeup. rewrite Hi1, Hi2, Hi3. exact Henv.
  - destruct Ho as [[-> Hk] _]. apply forward_runs; [done|by apply Hnone|done|done].
  - apply complete_runs; [auto with ingress|by apply Hnoted|done].
  - apply complete_runs; [auto with ingress|by apply Hnoted|done].
  - apply complete_runs; [auto with ingress|by apply Hnoted|done].
Qed.

(** C15: from every state the conductors can reach, with any answers lost, any
    deliveries cut short and any entries aged out of the bucket, one more delivery of
    an event to which the bucket and the relay answer is acknowledged, provided the
    lease on the producer's record is over, the command cache does not occupy the
    keys of the event, no note of the delivery has outlived its record, and the
    captures can be read and stored. *)
Theorem event_settles ws q p :
  ingress_reachable display decode_message payloads p → plain_set ws → deliverable ws q (world p) →
  ∃ p', pool_run perform (may_start display decode_message payloads) p p' ∧ (Out_Ack q, true) ∈ log (world p').
Proof.
  intros Hp Hw Hd. exists (finished perform p (base.fresh (dom (threads p))) (process_delivery display decode_message ws (delivery q)) (working now)).
  split.
  - apply pool_runs; [apply not_elem_of_dom, is_fresh|]. constructor. by apply plain_calm.
  - apply (delivery_runs ws q); [done| |done]. by eapply ingress_reachable_ok.
Qed.
End settlement.

Lemma demo_first_reachable : ingress_reachable (λ _, "permanent") (λ _, "") demo_payloads demo_first.
Proof. exists demo_state. split; [done|]. apply pool_runs; [vm_compute; reflexivity|]. by constructor. Qed.

Lemma demo_captures_valid (l : list (string * Envelope bit_uuid)) : validate_captures (captures_value (JsonPath := string) l) = Ok tt.
Proof. induction l as [|e l IH]; [done|]. exact IH. Qed.

Lemma demo_producer_key d : kv_valid_key (producer_entry_key (SignalPipelines.hex (Uuid := bit_uuid) (JsonPath := string) d)) = true.
Proof. done. Qed.
Lemma demo_delivery_key q : kv_valid_key (Uuid := bit_uuid) (JsonPath := string) (delivery_entry_key q) = true.
Proof. done. Qed.

Lemma event_settles_witness :
  ∃ p', pool_run perform (may_start (λ _, "permanent") (λ _, "") demo_payloads) demo_first p' ∧
    (Out_Ack 1, true) ∈ log (world p').
Proof.
  refine (event_settles (λ _, "permanent") (λ _, "") demo_payloads 10 demo_producer_key demo_delivery_key demo_captures_valid
            Working_Nats 1 demo_first demo_first_reachable I _).
  split; [intros n c; vm_compute; done|]. intros env Henv. vm_compute in Henv. injection Henv as <-.
  split_and!; [intros n c; vm_compute; done|intros n r; vm_compute; by intros [= _ <-]|intros _; vm_compute; done|done].
Defined.
