(* ===== verification/IngressHazards.v ===== *)
(** * What the event ingress can lose

    Runs in which an accepted event misses what it should do, or does it twice.  A
    wakeup takes a gate out of the index before its outcome is recorded, so a failure
    in between leaves the retry without the gate; the captures of all subscribers of
    one wakeup share their keys; and an event that comes again after its record has
    aged out of the bucket is a new one. *)

From S2P Require Import Prelude Workflow Json Uuid Captures GateIndex SubscriptionIndex Programs Workers Idempotency DefinitionStore SignalMessages Sha256 SignalStore ScopeStore SignalPipelines Ingress IngressRecords IngressCalm IngressDemo IngressSafety IngressSettlement.

(** ** A gate between two attempts *)

Definition waiting_gate : Entry (Uuid := bit_uuid) (JsonPath := string) :=
  mkEntry (unary 1) (unary 2) "paid" None [].

Definition gate_state : SignalState bit_uuid string :=
  set_gates (push_entry (unary 1) (unary 2) "paid" waiting_gate Inner_default) demo_state.

Definition gate_first : demo_pool := mkPool {[0 := demo_delivery 4]} (mkWorld gate_state [] []).

(** The database is away from the audit row on; the bucket's answers with it. *)
Definition gate_attempted : demo_pool :=
  default gate_first
    (replay perform (repeat (0, [], working 5) 8 ++ repeat (0, [], mkOutside 5 Fate_Fails true BuildOutcome_Success true) 3)
       gate_first).

(** The next delivery comes when the lease is over. *)
Definition gate_missed : demo_pool :=
  finished perform gate_attempted 1 (demo_delivery 4) (working (10 + CLAIM_LEASE)).

Abbreviation demo_run := (pool_run perform (may_start (λ _, "permanent") (λ _, "") demo_payloads)).

Lemma gate_missed_run : demo_run (mkPool ∅ (mkWorld gate_state [] [])) gate_missed.
Proof.
  transitivity gate_attempted.
  - eapply rtc_l; [apply (step_start perform _ _ 0 (demo_delivery 4)); [done|by constructor]|].
    unfold gate_attempted. destruct (replay _ _ gate_first) as [p|] eqn:Hp; [|reflexivity].
    by eapply replay_run.
  - apply pool_runs; [vm_compute; reflexivity|by constructor].
Qed.

Definition is_gate_outcome (m : Outgoing) : bool := match m with Out_TryGateOutcome _ => true | _ => false end.

(** In this run the audit row of the wakeup could not be written after the gate was
    taken out of the index: the next delivery finds no gate, is recorded as accepted
    and acknowledged, and the outcome of the gate is never sent. *)
Lemma gate_outcome_lost :
  lookup_by_signal_name "paid" (gates gate_state) = [waiting_gate] ∧
  ∃ p, demo_run (mkPool ∅ (mkWorld gate_state [] [])) p ∧ (Out_Ack 4, true) ∈ log (world p) ∧
    (∀ o, Out_TryGateOutcome o ∉ sent_messages (world p)) ∧
    lookup_by_signal_name "paid" (gates (now_store (world p))) = [].
Proof.
  split; [vm_compute; reflexivity|]. exists gate_missed. split; [apply gate_missed_run|].
  split_and!; [vm_compute; right; left| |vm_compute; reflexivity].
  assert (Forall (λ m, is_gate_outcome m = false) (sent_messages (world gate_missed))) as Hnone.
  { vm_compute. repeat constructor. }
  rewrite Forall_forall in Hnone. by intros o Ho%Hnone.
Qed.

(** ** Two subscribers of one wakeup *)

Definition amount_from (path : string) : CaptureDeclaration :=
  mkCaptureDeclaration "amount" (Some (mkCaptureSource (Some (CaptureSource_Trigger path)))).

(** Both workflows capture [amount], from different places of the payload. *)
Definition two_subscribers : SubInner (Uuid := bit_uuid) (JsonPath := string) :=
  match sub_register Some (unary 1) "paid" None [amount_from "net"] SubInner_default with
  | Ok s => match sub_register Some (unary 2) "paid" None [amount_from "gross"] s with Ok s => s | Err _ => s end
  | Err _ => SubInner_default
  end.

Definition shared_state : SignalState bit_uuid string :=
  mkSignalState empty_definition_store SignalStore_empty new_bucket None (mkScopeTables ∅ ∅ ∅) Inner_default
    two_subscribers 0.

Definition shared_done : demo_pool :=
  finished perform (mkPool ∅ (mkWorld shared_state [] [])) 0 (demo_delivery 4) (working 5).

(** Both workflows are triggered under the signal id; the bucket has one value for
    [amount], the one of the second, and the archive has the captures of the first
    only. *)
Lemma subscribers_share_captures :
  (sub_workflow_id <$> sub_lookup "paid" two_subscribers) = [unary 1; unary 2] ∧
  (Out_Ack 4, true) ∈ log (world shared_done) ∧
  (ctx_bucket (now_store (world shared_done)) ≫= lookup (capture_key (unary 11) "amount")) = Some (bytes_of "59") ∧
  (scr_workflow_id <$> captures_rows (audit (now_store (world shared_done))) !! unary 11) = Some (unary 1).
Proof. split_and!; [vm_compute; reflexivity|vm_compute; do 2 right; left|vm_compute; reflexivity..]. Qed.

(** ** A record that has aged *)

Definition demo_record_key : string := producer_entry_key (SignalPipelines.sha256_hex (Uuid := bit_uuid) (JsonPath := string) "k").

(** The sends of the first delivery are lost on their way back; ten minutes later the
    record is gone, and the event comes again. *)
Definition aged_pool : demo_pool := finished perform demo_first 1 (expire demo_record_key) (working (5 + DEFAULT_TTL)).
Definition aged_again : demo_pool := finished perform aged_pool 2 (demo_delivery 1) (working (10 + DEFAULT_TTL)).

Lemma aged_again_reachable : ingress_reachable (λ _, "permanent") (λ _, "") demo_payloads aged_again.
Proof.
  exists demo_state. split; [done|]. transitivity demo_first; [|transitivity aged_pool]; (apply pool_runs; [vm_compute; reflexivity|]).
  - by apply start_delivery.
  - apply start_expiry.
  - by apply start_delivery.
Qed.

(** Two signals go out under the key of the one event. *)
Lemma aged_event_signals_twice :
  ∃ s1 s2, Out_TrySignal s1 ∈ sent_messages (world aged_again) ∧ Out_TrySignal s2 ∈ sent_messages (world aged_again) ∧
    idempotency_key s1 = Some "k" ∧ idempotency_key s2 = Some "k" ∧ signal_id s1 ≠ signal_id s2.
Proof.
  eexists _, _. split_and!; [vm_compute; left|vm_compute; do 2 right; left|reflexivity..|vm_compute; discriminate].
Qed.
