(* ===== verification/CaptureRecovery.v ===== *)
(** * Captures are put back

    When the server tells that a signal has become a run, the conductor links the
    archived captures to it and completes the bucket from the archive
    ([instance_creation_linkage.rs]): what a failed write has left out of the bucket
    is there afterwards, and what is there is not touched. *)

From S2P Require Import Prelude Json Uuid Captures Programs Workers SignalStore SignalPipelines Ingress IngressRecords IngressDemo IngressSettlement.

Section recovery.
Context `{UuidOps Uuid} `{!Countable Uuid} {JsonPath : Type} `{!Runtime Uuid JsonPath}.
Context (now : Z).

Abbreviation state := (SignalState Uuid JsonPath).
Abbreviation sig_world := (World state Outgoing).
Abbreviation runs := (runs (Uuid := Uuid) (JsonPath := JsonPath) now).
Implicit Types w : sig_world.

Definition entries_of (signal_id : Uuid) (captures : list (string * Envelope Uuid)) : gmap string (list Z) :=
  list_to_map ((λ c, (capture_key signal_id c.1, encode_envelope c.2)) <$> captures).

Lemma fill_one (b m : gmap string (list Z)) k v :
  match b !! k with Some _ => b | None => <[k := v]> b end ∪ m = b ∪ <[k := v]> m.
Proof.
  apply map_eq. intros j. destruct (b !! k) as [u|] eqn:Hk; rewrite !lookup_union.
  - destruct (decide (k = j)) as [<-|Hne]; [by rewrite Hk, lookup_insert_eq; destruct (m !! k)|by rewrite lookup_insert_ne].
  - destruct (decide (k = j)) as [<-|Hne]; [rewrite !lookup_insert_eq, Hk; by destruct (m !! k)|by rewrite !lookup_insert_ne].
Qed.

Lemma rehydrate_runs signal_id captures b w :
  Forall (storable (JsonPath := JsonPath) signal_id) captures → ctx_bucket (now_store w) = Some b →
  runs (rehydrate signal_id captures)
    (λ x w', x = Ok tt ∧ ctx_bucket (now_store w') = Some (b ∪ entries_of signal_id captures) ∧
       audit (now_store w') = audit (now_store w)) w.
Proof.
  intros Hall. revert b w. induction Hall as [|[name e] rest Hs _ IH]; intros b w Hb.
  { split; [done|]. split; [|done]. cbn. by rewrite Hb, (right_id_L ∅ (∪)). }
  cbn [rehydrate]. unfold ctx_get, ctx_put, call. cbn [bind bind_ok]. eapply runs_transact_ok.
  { unfold on_ctx. rewrite (proj1 Hs : kv_valid_key (capture_key signal_id name) = true), Hb. done. }
  unfold entries_of. cbn [fmap list_fmap list_to_map foldr uncurry]. rewrite <- fill_one.
  destruct (b !! capture_key signal_id name) as [u|] eqn:Hu; cbn [bind bind_ok].
  - eapply runs_mono; [by apply (IH b)|]. intros x w'. cbn. by rewrite Hu.
  - eapply runs_transact_ok; [by apply on_ctx_put|]. eapply runs_mono; [by apply (IH (<[capture_key signal_id name := encode_envelope e]> b))|]. intros x w'. cbn. by rewrite Hu.
Qed.

Lemma open_ctx_runs w :
  runs open_ctx_bucket (λ x w', x = Ok tt ∧ ctx_bucket (now_store w') = Some (default ∅ (ctx_bucket (now_store w))) ∧
    audit (now_store w') = audit (now_store w)) w.
Proof.
  unfold open_ctx_bucket, get_ctx_bucket, create_ctx_bucket, call. cbn [bind].
  destruct (ctx_bucket (now_store w)) as [b|] eqn:Hb.
  - eapply runs_transact_ok; [by rewrite Hb|]. done.
  - eapply runs_transact_err; [by rewrite Hb|]. eapply runs_transact_ok; [done|]. cbn. by rewrite Hb.
Qed.

(** The row after the link: the first run that was told stands. *)
Definition linked (run_id : Uuid) (r : SignalCapturesRecord Uuid) : SignalCapturesRecord Uuid :=
  if bool_decide (scr_materialized_run_id r = None) then set_run run_id r else r.

Lemma link_row signal_id run_id a r :
  captures_rows a !! signal_id = Some r →
  captures_rows (link_signal_captures signal_id run_id a).2 !! signal_id = Some (linked run_id r).
Proof.
  intros Hr. unfold link_signal_captures, update_row, linked. rewrite Hr. cbn. case_bool_decide as Hm; simpl.
  - apply lookup_insert_eq.
  - by destruct (scr_materialized_run_id r).
Qed.

Lemma linked_captures run_id r : scr_captures (linked run_id r) = scr_captures r.
Proof. unfold linked. by case_bool_decide. Qed.

(** C16: told that a signal has become a run, the conductor answers with the
    archived row linked to the first run it heard of, and with every archived
    capture in the bucket: a value that was there stands, one that was missing is
    the archived envelope; provided the bucket can hold the archived captures. *)
Theorem linkage_restores_captures signal_id run_id r captures w :
  captures_rows (audit (now_store w)) !! signal_id = Some r →
  validate_captures (scr_captures r) = Ok tt →
  decode_envelopes (scr_captures r) = Some captures → captures ≠ [] →
  Forall (storable (JsonPath := JsonPath) signal_id) captures →
  let '(x, w') := run perform (link_and_rehydrate signal_id run_id) (working now) w in
  x = Ok tt ∧
  captures_rows (audit (now_store w')) !! signal_id = Some (linked run_id r) ∧
  ctx_bucket (now_store w') = Some (default ∅ (ctx_bucket (now_store w)) ∪ entries_of signal_id captures).
Proof.
  intros Hr Hv Hd Hne Hstore.
  enough (runs (link_and_rehydrate signal_id run_id) (λ x w', x = Ok tt ∧
    captures_rows (audit (now_store w')) !! signal_id = Some (linked run_id r) ∧
    ctx_bucket (now_store w') = Some (default ∅ (ctx_bucket (now_store w)) ∪ entries_of signal_id captures)) w) as Hruns.
  { unfold IngressSettlement.runs in Hruns. by destruct (run _ _ _ w) as [x w']. }
  unfold link_and_rehydrate, mark_materialized, read_captures, call. unfold erring at 1 2. cbn [bind bind_ok].
  eapply runs_transact_ok; [done|]. cbn [bind bind_ok map_err].
  pose proof (link_row signal_id run_id _ _ Hr) as Hl. set (a := (link_signal_captures _ _ _).2) in *.
  eapply runs_transact_ok.
  { cbn. unfold signal_captures. fold a. rewrite Hl. unfold decode_captures. rewrite linked_captures, Hv. done. }
  cbn [bind bind_ok map_err]. rewrite linked_captures, Hd. cbn [ok_or]. destruct captures as [|c rest]; [done|].
  apply runs_bind_ok, runs_erring. eapply runs_mono; [apply open_ctx_runs|]. intros x w2 (-> & Hb & Ha). cbn [map_err].
  apply runs_erring. eapply runs_mono; [by apply rehydrate_runs|]. intros y w3 (-> & Hb3 & Ha3).
  split_and!; [done| |exact Hb3]. rewrite Ha3, Ha. exact Hl.
Qed.
End recovery.

(** A trigger whose bucket write was lost: the archive has its capture. *)
Definition demo_row : SignalCapturesRecord bit_uuid :=
  mkSignalCapturesRecord (unary 3) (unary 4) (Some 1%Z)
    (JArray [JObject [("name", JString "amount"); ("envelope", JObject [])]]) 5 None None.
Definition demo_archived : World (SignalState bit_uuid string) Outgoing :=
  mkWorld (set_audit (mkSignalStore {[ unary 3 := demo_row ]} ∅ ∅) demo_state) [] [].

Lemma linkage_restores_captures_witness :
  let '(x, w') := run perform (link_and_rehydrate (unary 3) (unary 5)) (working 9) demo_archived in
  x = Ok tt ∧
  captures_rows (audit (now_store w')) !! unary 3 = Some (linked (unary 5) demo_row) ∧
  ctx_bucket (now_store w') =
    Some (default ∅ (ctx_bucket (now_store demo_archived)) ∪ entries_of (unary 3) [("amount", demo_capture)]).
Proof.
  refine (linkage_restores_captures 9 (unary 3) (unary 5) demo_row [("amount", demo_capture)] demo_archived _ _ _ _ _).
  - vm_compute. reflexivity.
  - reflexivity.
  - vm_compute. reflexivity.
  - discriminate.
  - repeat constructor. vm_compute. discriminate.
Defined.
