(* ===== verification/DefinitionLifecycle.v ===== *)
(** * The contract of the definition store

    What registration, builds, leases, submissions and reads promise, proved from
    the invariant of [DefinitionStoreFacts]. *)

From S2P Require Import Prelude Workflow Uuid Leases DefinitionStore DefinitionStoreFacts.

Section promises.
Context `{UuidOps Uuid} `{!Countable Uuid}.
Context (uuid_leb : Uuid → Uuid → bool) (fresh_token : nat → Uuid).
Implicit Types (s : DefinitionStore (Uuid := Uuid)) (r : DefinitionRow Uuid).

(** ** Versions *)

Lemma version_below s id v r (n : nat) :
  def_store_ok s → workflows s !! (id, v) = Some r → (1 <= v - Z.of_nat n)%Z →
  is_Some (workflows s !! (id, (v - Z.of_nat n)%Z)).
Proof.
  intros Hok Hv. induction n as [|n IH]; intros Hn.
  { replace (v - Z.of_nat 0)%Z with v by lia. eauto. }
  destruct IH as [r' Hr']; [lia|].
  destruct (vo_prev _ _ _ (do_versions _ Hok _ _ Hr')) as (rp & Hp & _); simpl in *; [lia|].
  replace (v - Z.of_nat (S n))%Z with (v - Z.of_nat n - 1)%Z by lia. eauto.
Qed.

Lemma versions_count s id v r :
  def_store_ok s → workflows s !! (id, v) = Some r → (v <= Z.of_nat (size (workflows s)))%Z.
Proof.
  intros Hok Hv. pose proof (vo_pos _ _ _ (do_versions _ Hok _ _ Hv)) as Hpos. simpl in Hpos.
  set (keys := (λ i, (id, (v - Z.of_nat i)%Z)) <$> seq 0 (Z.to_nat v)).
  assert (NoDup keys) as Hnd.
  { apply NoDup_fmap_2; [|apply NoDup_seq]. intros i j [= Heq]. lia. }
  assert (list_to_set keys ⊆ dom (workflows s)) as Hsub.
  { intros k (i & -> & Hi%elem_of_seq)%elem_of_list_to_set%list_elem_of_fmap.
    apply elem_of_dom. eapply version_below; [done|done|lia]. }
  apply subseteq_size in Hsub. rewrite size_list_to_set, size_dom in Hsub by done.
  unfold keys in Hsub. rewrite length_fmap, length_seq in Hsub. lia.
Qed.

(** C32: The versions of a workflow are 1, 2, .., n without a gap, so no version
    exceeds the number of stored rows, and a new version is only made when the
    content changed: neighbouring versions differ in their content hash. *)
Theorem versions_contiguous s id v r
    (Hreach : def_reachable uuid_leb fresh_token s) (Hv : workflows s !! (id, v) = Some r) :
  (1 <= v <= Z.of_nat (size (workflows s)))%Z ∧ def_version (dr_definition r) = v ∧
  ∀ v', (1 <= v' < v)%Z → ∃ r1 r2, workflows s !! (id, v') = Some r1 ∧
    workflows s !! (id, (v' + 1)%Z) = Some r2 ∧ dr_content_hash r1 ≠ dr_content_hash r2.
Proof.
  apply def_reachable_ok in Hreach as Hok. pose proof (do_versions _ Hok _ _ Hv) as Hvo.
  split_and!; [apply (vo_pos _ _ _ Hvo)|by eapply versions_count|apply (vo_version _ _ _ Hvo)|].
  intros v' Hv'. destruct (version_below s id v r (Z.to_nat (v - v' - 1)) Hok Hv) as [r2 Hr2]; [lia|].
  replace (v - Z.of_nat (Z.to_nat (v - v' - 1)))%Z with (v' + 1)%Z in Hr2 by lia.
  destruct (vo_prev _ _ _ (do_versions _ Hok _ _ Hr2)) as (r1 & Hr1 & Hne); simpl in *; [lia|].
  replace (v' + 1 - 1)%Z with v' in Hr1 by lia. eauto.
Qed.

(** ** Registration *)

Lemma register_again s now input id v ids :
  uuid_parse_str (def_id (reg_definition input)) = Some id →
  task_ids (reg_definition input) = Ok ids → holds_registration s input id v →
  register_definition s now input = Ok (RegNoOp id v, s).
Proof.
  intros Hid Hids (r & Hl & Hc & Hst & Hlive). unfold register_definition, parse_id.
  rewrite Hid. simpl. rewrite Hids. simpl. rewrite Hl. simpl.
  rewrite bool_decide_eq_true_2 by done. simpl.
  destruct (dr_status r) eqn:Hs; try done; by rewrite bool_decide_eq_true_2 by auto.
Qed.

(** Registration can be repeated blindly: whatever it did, registering the same
    content again at any time later, with nothing in between, answers with the
    same version and changes nothing. *)
Theorem registration_idempotent s now input o s' later
    (Hreg : register_definition s now input = Ok (o, s')) :
  register_definition s' later input = Ok (RegNoOp (outcome_id o) (outcome_version o), s').
Proof.
  destruct (registered_holds _ _ _ _ _ Hreg) as [Hid Hh].
  destruct (task_ids (reg_definition input)) as [ids|] eqn:Hids.
  - by eapply register_again.
  - unfold register_definition in Hreg. destruct (parse_id _); [|done]. simpl in Hreg.
    by rewrite Hids in Hreg.
Qed.

(** A registration decides by the latest version, whose row it reads once. *)
Definition registration_case s (input : DefinitionRegistrationInput) id
    (o : DefinitionRegistrationOutcome Uuid) s' : Prop :=
  match o with
  | RegInserted _ v tasks =>
      (∀ v' r', workflows s !! (id, v') = Some r' → (v' < v)%Z) ∧
      (∃ r, workflows s' !! (id, v) = Some r ∧ dr_status r = Def_Building ∧
            dr_definition r = set_version (reg_definition input) v) ∧
      dbt_nix_expression_path <$> tasks =
        task_nix_expression_path <$> def_tasks (reg_definition input)
  | RegRefreshed _ v =>
      ∃ r r', workflows s !! (id, v) = Some r ∧ def_live (dr_status r) = true ∧
        workflows s' !! (id, v) = Some r' ∧ dr_status r' = dr_status r ∧
        dr_definition r' = patch_cosmetics (dr_definition r) (reg_definition input) ∧
        def_builds s' = def_builds s
  | RegBuildRequeued _ v tasks =>
      ∃ r r', workflows s !! (id, v) = Some r ∧ dr_status r = Def_BuildFailed ∧
        workflows s' !! (id, v) = Some r' ∧ dr_status r' = Def_Building ∧
        dr_definition r' = dr_definition r ∧
        ∀ t, t ∈ dbt_task_id <$> tasks ↔ bst (def_builds s) (id, v) t = Some build_failure
  | RegNoOp _ v => s' = s
  end.

Lemma requeued_task_ids def k tids tasks :
  requeued_tasks def k tids = Ok tasks → dbt_task_id <$> tasks = tids.
Proof.
  intros Hr%collect_ok. induction Hr as [|t task tids tasks Ht _ IH]; csimpl; [done|].
  rewrite IH. f_equal. by case_match; simplify_eq.
Qed.

Lemma elem_of_failed_builds s k t :
  t ∈ failed_builds s k ↔ bst (def_builds s) k t = Some build_failure.
Proof.
  unfold failed_builds, of_version. rewrite list_elem_of_omap. unfold bst. split.
  - intros ([[k' t'] b] & Hin%elem_of_map_to_list & Heq). simpl in Heq.
    do 2 (case_bool_decide; [|done]). simplify_eq/=. rewrite Hin. simpl. congruence.
  - destruct (def_builds s !! (k, t)) as [b|] eqn:Hb; [|done]. intros [= Hst].
    exists ((k, t), b). split; [by apply elem_of_map_to_list|]. simpl.
    by rewrite !bool_decide_eq_true_2.
Qed.

Lemma build_tasks_paths def id v ids :
  length ids = length (def_tasks def) →
  dbt_nix_expression_path <$> build_tasks (Uuid := Uuid) def id v ids =
  task_nix_expression_path <$> def_tasks def.
Proof.
  unfold build_tasks. revert ids.
  induction (def_tasks def) as [|t ts IH]; intros [|i ids]; csimpl; try done.
  intros Hlen. f_equal. apply IH. lia.
Qed.

Definition decision_of (o : DefinitionRegistrationOutcome Uuid) : RegistrationDecision :=
  match o with
  | RegInserted _ v _ => DecideInsert v
  | RegRefreshed _ v => DecideRefreshed v
  | RegBuildRequeued _ v _ => DecideBuildRequeued v
  | RegNoOp _ v => DecideNoOp v
  end.

(** A registration does what its answer says: new content becomes the next
    version, building every task; the content of a live version refreshes its
    labels in place; the content of a failed version requeues exactly its failed
    builds; and anything else changes nothing. *)
Theorem registration_correct s now input o s'
    (Hreg : register_definition s now input = Ok (o, s')) :
  decision_ok input (latest s (outcome_id o)) (decision_of o) ∧
  registration_case s input (outcome_id o) o s'.
Proof.
  revert Hreg. unfold register_definition, parse_id.
  destruct (uuid_parse_str _) as [id|] eqn:Hid; [|done]. simpl.
  destruct (task_ids _) as [ids|] eqn:Hids; [|done]. simpl.
  pose proof (decide_registration_ok input (latest s id)) as Hd.
  destruct (decide_registration _ _) as [v|v|v|v].
  - intros (_ & -> & (Hws & _)%insert_builds_spec)%insert_version_inv. simpl. split; [done|].
    split_and!; [intros v' r' Hv'; by eapply inserted_is_highest| |].
    + rewrite Hws. simpl. rewrite lookup_insert_eq. eauto.
    + by apply (build_tasks_paths (set_version _ v)), task_ids_length.
  - intros Heq. injection Heq as <- <-. simpl. split; [done|].
    destruct Hd as (k & r & (<- & Hk & _)%latest_Some & -> & _ & Hlive & _). destruct k as [id v].
    exists r. simpl. rewrite lookup_alter_eq, Hk. eauto 10.
  - destruct (requeue _ _ _) as [[ts s1]|] eqn:Hr; [|done]. simpl. intros Heq. injection Heq as <- <-.
    simpl. split; [done|]. destruct Hd as (k & r & (<- & Hk & _)%latest_Some & -> & _ & Hst).
    destruct k as [id v]. simpl in *. apply requeue_inv in Hr as (r1 & Hk1 & Hts & _ & Hws & _).
    simplify_eq. rewrite bool_decide_eq_true_2 in Hws by done. rewrite Hws, lookup_insert_eq.
    exists r, (set_def_status Def_Building now r). split_and!; try done.
    intros t. rewrite (requeued_task_ids _ _ _ _ Hts). apply elem_of_failed_builds.
  - intros Heq. injection Heq as <- <-. done.
Qed.

(** ** Builds *)

(** Build, then submit: a version is live only when each of its builds has
    succeeded; one that is building has none that failed, and a build still
    pending unless it has no task at all; one that failed has a failed build; and
    the builds of a version are exactly those of the tasks it defines. *)
Theorem def_builds_precede_submission s k r
    (Hreach : def_reachable uuid_leb fresh_token s) (Hk : workflows s !! k = Some r) :
  (∀ t, is_Some (bst (def_builds s) k t) ↔ task_of (dr_definition r) t) ∧
  match dr_status r with
  | Def_Building =>
      ((∃ t, bst (def_builds s) k t = Some build_pending) ∨ def_tasks (dr_definition r) = []) ∧
      ∀ t, bst (def_builds s) k t ≠ Some build_failure
  | Def_Ready | Def_Submitted =>
      ∀ t, task_of (dr_definition r) t → bst (def_builds s) k t = Some build_success
  | Def_BuildFailed => ∃ t, bst (def_builds s) k t = Some build_failure
  end.
Proof.
  apply def_reachable_ok in Hreach as Hok. destruct (do_versions _ Hok _ _ Hk) as [_ _ _ _ _ Hparse Htasks Hph _].
  split; [done|]. revert Hph. destruct (dr_status r); simpl.
  - intros [[?|Hnone] Hnf]; split; auto. right.
    destruct (def_tasks (dr_definition r)) as [|task tasks] eqn:Hd; [done|]. exfalso.
    destruct (Hparse task) as [t Ht]; [left|].
    destruct (proj2 (Htasks t)) as [st Hst]; [exists task; rewrite Hd; split; [left|done]|].
    by rewrite Hnone in Hst.
  - intros [_ Hall] t [st Hst]%Htasks. rewrite Hst. f_equal. by apply (Hall t).
  - done.
  - intros [_ Hall] t [st Hst]%Htasks. rewrite Hst. f_equal. by apply (Hall t).
Qed.

(** A version is never lost and keeps its content: whatever transactions follow,
    only the name and the tags of its definition change, and its status moves
    only from building to ready or failed, from failed back to building, and from
    ready to submitted, where it stays. *)
Theorem versions_evolve s s' k r
    (Hreach : def_reachable uuid_leb fresh_token s)
    (Hsteps : rtc (def_step uuid_leb fresh_token) s s') (Hk : workflows s !! k = Some r) :
  ∃ r', workflows s' !! k = Some r' ∧ version_evolves r r'.
Proof. apply (def_steps_sound _ _ _ _ Hsteps); [by eapply def_reachable_ok|done]. Qed.

(** Settling a build answers what happened: only under the caller's own unexpired
    lease, or without one on an unleased row, does it change anything; a success
    makes the version ready exactly when every build has then succeeded and
    otherwise leaves it waiting; a failure fails the version; and every losing
    answer leaves the tables as they were. *)
Theorem settle_def_build_correct s k t result guard at_ :
  let '(o, s') := settle_def_build s k t result guard at_ in
  match o with
  | DefBuildSettled (DefNowReady intent) =>
      result = DefTaskSuccess ∧ def_settleable s k t guard at_ ∧
      (∀ t' st, bst (def_builds s') k t' = Some st → st = build_success) ∧
      ∃ r, workflows s' !! k = Some r ∧ dr_status r = Def_Ready ∧ intent = submission_intent k r
  | DefBuildSettled DefAwaitingTasks =>
      result = DefTaskSuccess ∧ def_settleable s k t guard at_ ∧ workflows s' = workflows s ∧
      ∃ t' st, bst (def_builds s') k t' = Some st ∧ st ≠ build_success
  | DefBuildSettled DefNowFailed =>
      (∃ error, result = DefTaskFailure error) ∧ def_settleable s k t guard at_ ∧
      ∃ r, workflows s' !! k = Some r ∧ dr_status r = Def_BuildFailed
  | DefBuildSettled (DefAlreadySettled st) =>
      s' = s ∧ st ≠ Def_Building ∧ ∃ r, workflows s !! k = Some r ∧ dr_status r = st
  | DefBuildSettled DefTaskAlreadySettled =>
      s' = s ∧ ∃ b, def_builds s !! (k, t) = Some b ∧
                    (b_status b ≠ build_pending ∨ (guard = None ∧ is_Some (b_lease b)))
  | DefBuildSettled DefBuildAbsent =>
      s' = s ∧ (workflows s !! k = None ∨ def_builds s !! (k, t) = None)
  | DefBuildLeaseLost =>
      s' = s ∧ ∃ owner token b, guard = Some (owner, token) ∧ def_builds s !! (k, t) = Some b ∧
        b_status b = build_pending ∧ lease_held owner token at_ (b_lease b) = false
  end.
Proof.
  destruct (settle_def_cases s k t guard at_) as [Hsett|Hn].
  { pose proof Hsett as (r & b & Hk & Hst & Hb & Hm).
    rewrite (settle_def_won s k t result guard at_ r b) by done. cbv zeta.
    destruct result as [|error].
    - destruct (all_def_built _ k) eqn:Hall; simpl.
      + split_and!; [done|done|by apply all_def_built_spec|]. eexists. by rewrite lookup_insert_eq.
      + split_and!; [done..|]. by apply not_all_def_built.
    - simpl. split_and!; [eauto|done|]. eexists. by rewrite lookup_insert_eq. }
  pose proof (settle_def_lost s k t result guard at_ Hn) as Hs.
  destruct (settle_def_build s k t result guard at_) as [o s'] eqn:Heq. simpl in Hs. subst s'.
  revert Heq. unfold settle_def_build.
  destruct (workflows s !! k) as [r|] eqn:Hk; [|intros Heq; injection Heq as <-; auto].
  case_bool_decide as Hst; simpl; [|intros Heq; injection Heq as <-; eauto].
  unfold update_row. destruct (def_builds s !! (k, t)) as [b|] eqn:Hb.
  2: { destruct guard as [[]|]; intros Heq; injection Heq as <-; auto. }
  destruct (may_settle_def guard at_ b) eqn:Hm; [exfalso; apply Hn; by exists r, b|].
  unfold may_settle_def in Hm. destruct guard as [[owner token]|].
  - case_bool_decide as Hpend; intros Heq; injection Heq as <-; [|by eauto 10].
    split; [done|]. exists owner, token, b. done.
  - intros Heq. injection Heq as <-. split; [done|]. exists b. split; [done|].
    case_bool_decide; [right|by left]. by destruct (b_lease b).
Qed.

(** *** Leases *)

Definition def_lease_key (lease : LeasedDefinitionBuildTask (Uuid := Uuid)) : (Uuid * Z) * Uuid :=
  ((dbt_workflow_id (ldb_task lease), dbt_workflow_version (ldb_task lease)),
   dbt_task_id (ldb_task lease)).

Definition def_build_leaseable (now : Z) (b : BuildRow Uuid) : bool :=
  bool_decide (b_status b = build_pending) && lease_free now (b_lease b).

Definition def_granted (s s' : DefinitionStore (Uuid := Uuid)) (now : Z)
    : LeasedDefinitionBuildTask → Prop :=
  grants def_builds b_lease (def_build_leaseable now) def_lease_key ldb_lease s s'.

Lemma lease_one_def_build_inv owner now expires :
  leases_one def_builds b_lease (def_build_leaseable now) def_lease_key ldb_lease
    (λ n, mkLease owner (fresh_token n) expires) (lease_one_def_build fresh_token owner now expires).
Proof.
  intros [[[id v] t] b0] s n lease s' n'. simpl. unfold requeued_tasks. simpl.
  destruct (workflows s !! (id, v)) as [r|]; [|done]. simpl.
  destruct (List.find _ _) as [task|]; [|done]. simpl.
  destruct (update_row _ _ _ _) as [bs|] eqn:Hu; [|done]. simpl.
  intros Heq. injection Heq as <- <- <-. apply update_row_Some in Hu as (b & Hb & Hfree & ->).
  split_and!; try done.
  - split; [eauto|]. eexists. simpl. rewrite lookup_insert_eq. done.
  - intros kt Hne. by apply lookup_insert_ne.
Qed.

(** The task ids of the stored definitions are canonical uuid texts. *)
Definition canonical_tasks s : Prop :=
  ∀ k r task t, workflows s !! k = Some r → task ∈ def_tasks (dr_definition r) →
    uuid_parse_str (task_id task) = Some t → task_id task = uuid_to_string t.

(** A build that can still be leased. *)
Definition lease_waits (now : Z) s (kb : ((Uuid * Z) * Uuid) * BuildRow Uuid) : Prop :=
  def_builds s !! kb.1 = Some kb.2 ∧ def_build_leaseable now kb.2 = true ∧
  ∃ r task, workflows s !! kb.1.1 = Some r ∧ task ∈ def_tasks (dr_definition r) ∧
            task_id task = uuid_to_string kb.1.2.

Lemma lease_one_def_build_total owner now expires kb s n :
  lease_waits now s kb →
  ∃ b s' n', lease_one_def_build fresh_token owner now expires kb (s, n) = Ok (b, (s', n')) ∧
    ∀ kb', kb'.1 ≠ kb.1 → lease_waits now s kb' → lease_waits now s' kb'.
Proof.
  destruct kb as [[k t] b]. intros (Hb & Hfree & r & task & Hk & Htask & Hid). simpl in *.
  rewrite Hk. unfold requeued_tasks. simpl.
  destruct (List.find _ _) as [task'|] eqn:Hf.
  2: { apply list_elem_of_In in Htask. eapply List.find_none in Hf; [|done].
       by rewrite bool_decide_eq_true_2 in Hf. }
  simpl. unfold update_row. rewrite Hb. unfold def_build_leaseable in Hfree. rewrite Hfree. simpl.
  do 3 eexists. split; [done|]. intros [kt' b'] Hne (Hb' & Hfree' & Hr'). simpl in *.
  split_and!; [|done|done]. simpl. by rewrite lookup_insert_ne.
Qed.

Lemma eligible_waits s now kb :
  def_store_ok s → canonical_tasks s → kb ∈ eligible_def_builds uuid_leb s now →
  lease_waits now s kb.
Proof.
  destruct kb as [[k t] b]. intros Hok Hcan [Hb Hel]%elem_of_select_rows.
  unfold def_build_eligible in Hel. simpl in Hel.
  destruct (workflows s !! k) as [r|] eqn:Hk; [|by rewrite andb_false_r in Hel].
  apply andb_true_iff in Hel as [[Hp _]%andb_true_iff Hfree]. split_and!; simpl; [done| |].
  - unfold def_build_leaseable. by rewrite Hp, Hfree.
  - destruct (proj1 (vo_tasks _ _ _ (do_versions _ Hok _ _ Hk) t)) as (task & Hin & Hparse).
    { unfold bst. rewrite Hb. eauto. }
    exists r, task. split_and!; [done|done|]. by eapply Hcan.
Qed.

(** Leasing builds never fails for want of a task or a race: a valid request is
    answered with the longest-waiting free builds of building versions, each
    once and under its own fresh token; the rows then carry those leases, and
    until they expire no scan offers the builds again. *)
Theorem def_build_leases_correct s n owner now expires limit
    (Hreach : def_reachable uuid_leb fresh_token s) (Hcanon : canonical_tasks s)
    (Howner : owner ≠ "" ∧ String.length owner ≤ 128) (Hexp : (now < expires)%Z)
    (Hlimit : 1 ≤ limit ≤ MAX_DEFINITION_BUILD_LEASE_BATCH) :
  ∃ leases s' n',
    lease_definition_build_tasks uuid_leb fresh_token s n owner now expires limit
      = Ok (leases, (s', n')) ∧
    def_lease_key <$> leases = (take limit (eligible_def_builds uuid_leb s now)).*1 ∧
    NoDup (def_lease_key <$> leases) ∧
    ldb_lease <$> leases = (λ i, mkLease owner (fresh_token i) expires) <$> seq n (length leases) ∧
    ∀ lease, lease ∈ leases → def_granted s s' now lease ∧
      ∀ later, (later < expires)%Z → def_lease_key lease ∉ (eligible_def_builds uuid_leb s' later).*1.
Proof.
  apply def_reachable_ok in Hreach as Hok.
  pose proof (take_select_NoDup limit (leq_def_build uuid_leb) (def_build_eligible s now)
                (def_builds s)) as Hnd.
  destruct (lease_batch_total (lease_one_def_build fresh_token owner now expires) (lease_waits now)
              _ s n (lease_one_def_build_total owner now expires) Hnd) as (leases & [s' n'] & Ht).
  { intros kb Hkb. apply eligible_waits; [done|done|]. eapply elem_of_sublist; [done|apply sublist_take]. }
  exists leases, s', n'.
  destruct (lease_batch _ _ _ _ _ _ _ (lease_one_def_build_inv owner now expires) _ _ _ _ _ _ Hnd Ht)
    as (Hkeys & Hgr & Htok & _).
  split_and!; [|done|by rewrite Hkeys|done|].
  - unfold lease_definition_build_tasks, validate_definition_build_lease_request.
    rewrite (proj2 (validate_lease_request_ok _ _ _ _ _)) by (split_and!; naive_solver lia).
    exact Ht.
  - intros lease Hin. rewrite Forall_forall in Hgr. split; [by apply Hgr|]. intros later Hlater.
    destruct (Hgr lease Hin) as [_ (b' & Hb' & Hl')].
    eapply (leased_not_scanned def_builds b_lease); [|done|done|].
    + intros b. unfold def_build_eligible. rewrite andb_true_iff. by intros [_ ?].
    + by destruct (lease_of_batch _ _ _ _ _ Htok Hin) as [i ->].
Qed.

(** ** Reads *)

Definition default_order (a b : (Uuid * Z) * DefinitionRow Uuid) : bool :=
  if Bool.eqb (def_live (dr_status a.2)) (def_live (dr_status b.2))
  then (b.1.2 <=? a.1.2)%Z else def_live (dr_status a.2).

Lemma default_order_total x y : default_order x y = true ∨ default_order y x = true.
Proof.
  unfold default_order. destruct (def_live (dr_status x.2)), (def_live (dr_status y.2)); simpl;
    rewrite ?Z.leb_le; (lia || auto).
Qed.

Lemma default_order_trans x y z :
  default_order x y = true → default_order y z = true → default_order x z = true.
Proof.
  unfold default_order.
  destruct (def_live (dr_status x.2)), (def_live (dr_status y.2)), (def_live (dr_status z.2)); simpl;
    rewrite ?Z.leb_le; (lia || done).
Qed.

(** A version that is the highest of its kind is the one a read by kind returns. *)
Lemma head_versions_intro s p id v r :
  workflows s !! (id, v) = Some r → p r = true →
  (∀ v' r', workflows s !! (id, v') = Some r' → p r' = true → (v' <= v)%Z) →
  head (versions_of s p id) = Some ((id, v), r).
Proof.
  intros Hv Hp Hmax. destruct (head _) as [[[id' v'] r']|] eqn:Hh.
  - apply head_versions_Some in Hh as (Hid & Hv' & Hp' & Hmax'). simpl in *. subst id'.
    pose proof (Hmax' _ _ Hv Hp). pose proof (Hmax _ _ Hv' Hp'). assert (v' = v) as -> by lia.
    congruence.
  - rewrite head_versions_None in Hh. by rewrite (Hh _ _ Hv) in Hp.
Qed.

(** The version a workflow is read at by default is its highest live one, the
    same that a run would use, and its highest one while none is live; there is
    one unless the workflow was never registered. *)
Theorem default_version_correct s id :
  match default_definition_version s id with
  | None => ∀ v, workflows s !! (id, v) = None
  | Some (v, st) => ∃ r, workflows s !! (id, v) = Some r ∧ dr_status r = st ∧
      if def_live st then live_workflow_definition s id = Some (dr_definition r)
      else live_workflow_definition s id = None ∧
           latest_workflow_definition s id = Some (dr_definition r)
  end.
Proof.
  unfold default_definition_version. fold default_order.
  destruct (head _) as [[[id' v] r]|] eqn:Hh; simpl.
  2: { rewrite head_select_None in Hh. intros v. destruct (workflows s !! (id, v)) eqn:Hv; [|done].
       apply Hh in Hv. simpl in Hv. by rewrite bool_decide_eq_true_2 in Hv. }
  apply head_select_Some in Hh as (Hv & Hid%bool_decide_eq_true & Hmin);
    [|apply default_order_total|apply default_order_trans].
  simpl in Hid. subst id'. exists r. split_and!; [done|done|].
  assert (∀ v' r', workflows s !! (id, v') = Some r' → default_order ((id, v), r) ((id, v'), r') = true)
    as Hle by (intros v' r' Hv'; apply Hmin; [done|]; simpl; by rewrite bool_decide_eq_true_2).
  unfold default_order in Hle. simpl in Hle. unfold live_workflow_definition, latest_workflow_definition.
  destruct (def_live (dr_status r)) eqn:Hlive; simpl in Hle.
  - rewrite (head_versions_intro s _ id v r Hv Hlive); [done|]. intros v' r' Hv' Hlive'.
    specialize (Hle _ _ Hv'). rewrite Hlive' in Hle. by apply Z.leb_le.
  - assert (∀ v' r', workflows s !! (id, v') = Some r' → def_live (dr_status r') = false) as Hnone.
    { intros v' r' Hv'. specialize (Hle _ _ Hv'). by destruct (def_live (dr_status r')). }
    rewrite (proj2 (head_versions_None s _ id) Hnone). split; [done|].
    rewrite (latest_intro s id v r Hv); [done|]. intros v' r' Hv'. specialize (Hle _ _ Hv').
    rewrite (Hnone _ _ Hv') in Hle. by apply Z.leb_le.
Qed.

(** ** Definitions without tasks *)

(** A version with no task stays building: there is no build to settle it. *)
Lemma empty_definition_stays_building s k r :
  def_reachable uuid_leb fresh_token s → workflows s !! k = Some r →
  def_tasks (dr_definition r) = [] → dr_status r = Def_Building.
Proof.
  intros Hok%def_reachable_ok Hk Hempty.
  destruct (do_versions _ Hok _ _ Hk) as [_ _ _ _ _ _ Htasks Hph _].
  assert (∀ t, bst (def_builds s) k t = None) as Hnone.
  { intros t. destruct (bst (def_builds s) k t) eqn:Hb; [|done].
    destruct (proj1 (Htasks t)) as (task & Hin & _); [eauto|].
    rewrite Hempty in Hin. by apply elem_of_nil in Hin. }
  revert Hph. destruct (dr_status r); simpl; [done|..]; setoid_rewrite Hnone; naive_solver.
Qed.
End promises.

(** ** A run

    A definition of two tasks is registered, one of its builds is leased and
    settled, and then a second version is registered. *)

Definition def_leb (_ _ : bit_uuid) : bool := true.

Definition demo_definition (name : string) : WorkflowDefinition :=
  let task n path := mkTaskDefinition (uuid_to_string (unary n)) "" path 0 path [] [] [] [] 3 None
                       None [] [] false in
  mkWorkflowDefinition (uuid_to_string (unary 5)) "" "default" "etl" name 0
    [task 1 "load"; task 2 "publish"] None None 0 [] None ∅.

Definition demo_registration (name content : string) : DefinitionRegistrationInput :=
  mkDefinitionRegistrationInput (demo_definition name) content name "source".

Definition after {A E : Type} (s : DefinitionStore (Uuid := bit_uuid))
    (r : result (A * DefinitionStore (Uuid := bit_uuid)) E) : DefinitionStore (Uuid := bit_uuid) :=
  match r with Ok (_, s') => s' | Err _ => s end.

Definition answer_of {A S E : Type} (r : result (A * S) E) : option A :=
  match r with Ok (a, _) => Some a | Err _ => None end.

Lemma after_ok {A E : Type} s (r : result (A * DefinitionStore (Uuid := bit_uuid)) E) a :
  answer_of r = Some a → r = Ok (a, after s r).
Proof. destruct r as [[]|]; simpl; congruence. Qed.

Definition version1 : DefinitionStore (Uuid := bit_uuid) :=
  after empty_definition_store
    (register_definition empty_definition_store 1 (demo_registration "ETL" "c1")).

Definition version2 : DefinitionStore (Uuid := bit_uuid) :=
  after version1 (register_definition version1 2 (demo_registration "ETL" "c2")).

Lemma version1_registered :
  register_definition empty_definition_store 1 (demo_registration "ETL" "c1") =
  Ok (RegInserted (unary 5) 1 [mkDefinitionBuildTask (unary 5) 1 (unary 1) "load";
                               mkDefinitionBuildTask (unary 5) 1 (unary 2) "publish"], version1).
Proof. apply after_ok. vm_compute. reflexivity. Qed.

Lemma version2_registered :
  register_definition version1 2 (demo_registration "ETL" "c2") =
  Ok (RegInserted (unary 5) 2 [mkDefinitionBuildTask (unary 5) 2 (unary 1) "load";
                               mkDefinitionBuildTask (unary 5) 2 (unary 2) "publish"], version2).
Proof. apply after_ok. vm_compute. reflexivity. Qed.

Lemma version1_reachable : def_reachable def_leb unary version1.
Proof. eapply rtc_once, def_step_register, version1_registered. Qed.

Lemma version2_reachable : def_reachable def_leb unary version2.
Proof. eapply rtc_r; [exact version1_reachable|]. eapply def_step_register, version2_registered. Qed.

(** The row of a version, and the defaults no store holds. *)
Definition demo_version (s : DefinitionStore (Uuid := bit_uuid)) (v : Z) : DefinitionRow bit_uuid :=
  default (mkDefinitionRow "" "" "" Def_Building "" "" (demo_definition "") "" 0 0 None)
    (workflows s !! (unary 5, v)).

Lemma versions_contiguous_witness :
  (1 <= 2 <= Z.of_nat (size (workflows version2)))%Z ∧
  def_version (dr_definition (demo_version version2 2)) = 2%Z ∧
  ∀ v', (1 <= v' < 2)%Z → ∃ r1 r2, workflows version2 !! (unary 5, v') = Some r1 ∧
    workflows version2 !! (unary 5, (v' + 1)%Z) = Some r2 ∧ dr_content_hash r1 ≠ dr_content_hash r2.
Proof.
  apply (versions_contiguous def_leb unary version2 (unary 5) 2 (demo_version version2 2)
           version2_reachable).
  vm_compute. reflexivity.
Defined.

Lemma registration_idempotent_witness :
  register_definition version2 9 (demo_registration "ETL" "c2") = Ok (RegNoOp (unary 5) 2, version2).
Proof. exact (registration_idempotent version1 2 _ _ version2 9 version2_registered). Defined.

Lemma registration_correct_witness :
  ∃ r, workflows version2 !! (unary 5, 2%Z) = Some r ∧ dr_status r = Def_Building.
Proof.
  destruct (registration_correct version1 2 _ _ version2 version2_registered)
    as [_ (_ & (r & Hr & Hst & _) & _)].
  exists r. split; [exact Hr|exact Hst].
Defined.

(** One build fails, the content is registered again. *)
Definition version1_failed : DefinitionStore (Uuid := bit_uuid) :=
  (settle_def_build version1 (unary 5, 1%Z) (unary 2) (DefTaskFailure "no such attribute") None 3).2.

Lemma version1_fails : rtc (def_step def_leb unary) version1 version1_failed.
Proof. apply rtc_once, def_step_worker, step_settle_build. Qed.

Lemma def_builds_precede_submission_witness :
  ∃ t, bst (def_builds version1_failed) (unary 5, 1%Z) t = Some build_failure.
Proof.
  apply (def_builds_precede_submission def_leb unary version1_failed (unary 5, 1%Z)
           (demo_version version1_failed 1)); [|vm_compute; reflexivity].
  unfold def_reachable. etrans; [exact version1_reachable|exact version1_fails].
Defined.

Lemma versions_evolve_witness :
  ∃ r', workflows version1_failed !! (unary 5, 1%Z) = Some r' ∧
        version_evolves (demo_version version1 1) r'.
Proof.
  apply (versions_evolve def_leb unary version1 version1_failed (unary 5, 1%Z)
           (demo_version version1 1) version1_reachable version1_fails).
  vm_compute. reflexivity.
Defined.

Lemma version1_canonical : canonical_tasks version1.
Proof.
  intros k r task t Hk.
  assert (workflows version1 = {[(unary 5, 1%Z) := demo_version version1 1]}) as Heq
    by (vm_compute; reflexivity).
  rewrite Heq in Hk. apply lookup_singleton_Some in Hk as [<- <-].
  assert (def_tasks (dr_definition (demo_version version1 1)) = def_tasks (demo_definition "ETL")) as ->
    by (vm_compute; reflexivity).
  unfold demo_definition. cbn [def_tasks]. rewrite !elem_of_cons, elem_of_nil.
  intros [->|[->|[]]]; cbn [task_id]; rewrite uuid_parse_to_string; by intros [= <-].
Qed.

Lemma def_build_leases_correct_witness :
  ∃ leases s' n',
    lease_definition_build_tasks def_leb unary version1 0 "w" 2 9 8 = Ok (leases, (s', n')) ∧
    length leases = 2 ∧
    ∀ lease, lease ∈ leases → def_lease_key lease ∉ (eligible_def_builds def_leb s' 5).*1.
Proof.
  destruct (def_build_leases_correct def_leb unary version1 0 "w" 2 9 8 version1_reachable
              version1_canonical) as (leases & s' & n' & Hl & Hkeys & _ & _ & Hgr).
  - split; [discriminate|vm_compute; lia].
  - lia.
  - vm_compute. lia.
  - exists leases, s', n'. split; [exact Hl|]. split.
    + apply (f_equal length) in Hkeys. rewrite !length_fmap in Hkeys. rewrite Hkeys.
      vm_compute. reflexivity.
    + intros lease Hin. apply Hgr; [exact Hin|lia].
Defined.
