(* ===== verification/RegisterPipeline.v ===== *)
(** * The registration pipeline

    [register_pipeline.rs] and [parser/mod.rs]: a source is evaluated, built into
    a definition, hashed and registered in one transaction, after which the
    builds it queued are announced.  This file composes [Builder], [ContentHash]
    and [DefinitionStore] the way the pipeline does and proves what only the
    composition gives: the stored hashes are those of the stored definitions, and
    a definition the parser accepts is never refused by the store.

    The evaluation of a Nickel source is an external process and a parameter:
    [None] when it takes longer than the time budget of the pipeline. *)

From stdpp Require Import pretty.
From S2P Require Import Prelude Workflow Json Uuid ParserTypes Identity ContentHash Seal Validators Builder BuilderFacts GraphSimulation ParseStability Leases DefinitionStore DefinitionStoreFacts DefinitionLifecycle Workers.

Record RegisterRequest := mkRegisterRequest {
  rr_nickel_source : string;
  rr_namespace : string
}.

Inductive RegisterOutcome (Uuid : Type) :=
| Register_Inserted (workflow_id : Uuid) (workflow_version : Z) (task_count : nat) (message : string)
| Register_Refreshed (workflow_id : Uuid) (workflow_version : Z) (message : string)
| Register_BuildRequeued (workflow_id : Uuid) (workflow_version : Z) (task_count : nat)
    (message : string)
| Register_NoOp (workflow_id : Uuid) (workflow_version : Z) (message : string).
Arguments Register_Inserted {Uuid}. Arguments Register_Refreshed {Uuid}.
Arguments Register_BuildRequeued {Uuid}. Arguments Register_NoOp {Uuid}.

(** Why a source is no definition; the pipeline keeps the rendered text. *)
Inductive ParseFailure :=
| EvaluationFailed (stderr : string)
| MalformedDocument
| BuildRefused (e : BuildError).

Inductive RegisterError :=
| RegisterParse (e : ParseFailure)
| RegisterTimeout
| RegisterPersist (e : DefinitionStoreError).

Section pipeline.
Context `{UuidOps Uuid} `{!Countable Uuid}.
Context (NAMESPACE_OID : Uuid) (jsonpath_ok : string → bool) (fresh : nat → Uuid).
Context (ser : Serializers) (to_string : Json → string).
Context (escape : string → string) (float_to_string : Z → string) (sha256 : string → list N).
Context (from_str : string → option ParsedWorkflow).
Context (nickel_eval : string → option (result string string)).

Abbreviation store := (DefinitionStore (Uuid := Uuid)).
Abbreviation content_hash := (content_hash ser to_string escape float_to_string sha256).
Abbreviation cosmetic_hash := (cosmetic_hash ser escape float_to_string sha256).

(** The answer once the source has been evaluated; [n] is the next fresh id. *)
Definition parse_workflow (evaluated : result string string) (tenant : Uuid) (namespace : string)
    (n : nat) : result WorkflowDefinition ParseFailure :=
  let? json := map_err EvaluationFailed evaluated in
  match parse_workflow_from_json_for_tenant NAMESPACE_OID jsonpath_ok fresh from_str json tenant
          namespace n with
  | None => Err MalformedDocument
  | Some built => map_err BuildRefused built
  end.

Definition build_job (task : DefinitionBuildTask Uuid) : TaskBuildJob Uuid :=
  mkTaskBuildJob (dbt_workflow_id task) (dbt_workflow_version task) (dbt_task_id task)
    (dbt_nix_expression_path task).

(** What is handed to the queue; losing an announcement only delays a build. *)
Definition publish_build_tasks (tasks : list (DefinitionBuildTask Uuid)) : list (TaskBuildJob Uuid) :=
  build_job <$> tasks.

Definition registration_input (req : RegisterRequest) (workflow : WorkflowDefinition)
    : DefinitionRegistrationInput :=
  mkDefinitionRegistrationInput workflow (content_hash workflow) (cosmetic_hash workflow)
    (rr_nickel_source req).

Definition named_version (name : string) (version : Z) : string :=
  "Workflow '" +:+ name +:+ "' v" +:+ pretty version.

(** The answer of the pipeline and the announcements, made if there is a queue. *)
Definition render_outcome (notify : bool) (name : string) (o : DefinitionRegistrationOutcome Uuid)
    : RegisterOutcome Uuid * list (TaskBuildJob Uuid) :=
  match o with
  | RegInserted id v tasks =>
      (Register_Inserted id v (length tasks)
         (named_version name v +:+ " accepted; " +:+ pretty (length tasks) +:+
          " per-task builds queued"),
       if notify then publish_build_tasks tasks else [])
  | RegRefreshed id v =>
      (Register_Refreshed id v
         (named_version name v +:+ " refreshed; display fields updated in place (no version bump)"),
       [])
  | RegBuildRequeued id v tasks =>
      (Register_BuildRequeued id v (length tasks)
         (named_version name v +:+ " build requeued; " +:+ pretty (length tasks) +:+
          " failed task build(s) re-enqueued"),
       if notify then publish_build_tasks tasks else [])
  | RegNoOp id v =>
      (Register_NoOp id v
         (named_version name v +:+ " unchanged; no-op (content matches the latest version)"), [])
  end.

Definition process_register_with_notifier (notify : bool) (s : store) (now : Z) (tenant : Uuid)
    (req : RegisterRequest) (n : nat)
    : result (RegisterOutcome Uuid * list (TaskBuildJob Uuid) * store) RegisterError :=
  match nickel_eval (rr_nickel_source req) with
  | None => Err RegisterTimeout
  | Some evaluated =>
      let? workflow := map_err RegisterParse
                         (parse_workflow evaluated tenant (rr_namespace req) n) in
      let? r := map_err RegisterPersist
                  (register_definition s now (registration_input req workflow)) in
      Ok (render_outcome notify (def_name workflow) r.1, r.2)
  end.

Definition process_register := process_register_with_notifier true.

(** One process hosts the queue and the workers, which scan the tables. *)
Definition process_register_local := process_register_with_notifier false.
End pipeline.

(** ** The hashes of a definition *)

Lemma content_hash_set_version ser to_string escape float_to_string sha256 def v :
  content_hash ser to_string escape float_to_string sha256 (set_version def v) =
  content_hash ser to_string escape float_to_string sha256 def.
Proof. reflexivity. Qed.

Lemma content_hash_patch_cosmetics ser to_string escape float_to_string sha256 def def' :
  content_hash ser to_string escape float_to_string sha256 (patch_cosmetics def def') =
  content_hash ser to_string escape float_to_string sha256 def.
Proof. reflexivity. Qed.

Lemma cosmetic_hash_patch_cosmetics ser escape float_to_string sha256 def def' :
  cosmetic_hash ser escape float_to_string sha256 (patch_cosmetics def def') =
  cosmetic_hash ser escape float_to_string sha256 def'.
Proof. reflexivity. Qed.

(** ** What the pipeline keeps *)

Section facts.
Context `{UuidLaws Uuid} `{!Countable Uuid}.
Context (NAMESPACE_OID : Uuid) (jsonpath_ok : string → bool) (fresh : nat → Uuid).
Context (ser : Serializers) (to_string : Json → string).
Context (escape : string → string) (float_to_string : Z → string) (sha256 : string → list N).
Context (from_str : string → option ParsedWorkflow).
Context (nickel_eval : string → option (result string string)).
Context (uuid_leb : Uuid → Uuid → bool) (fresh_token : nat → Uuid).
Hypothesis fresh_inj : ∀ i j, fresh i = fresh j → i = j.
Implicit Types (s : DefinitionStore (Uuid := Uuid)) (r : DefinitionRow Uuid).

Abbreviation content_hash := (content_hash ser to_string escape float_to_string sha256).
Abbreviation cosmetic_hash := (cosmetic_hash ser escape float_to_string sha256).
Abbreviation input_of := (registration_input ser to_string escape float_to_string sha256).
Abbreviation register notify :=
  (process_register_with_notifier NAMESPACE_OID jsonpath_ok fresh ser to_string escape
     float_to_string sha256 from_str nickel_eval notify).

(** The tasks carry pairwise different ids in the crate's rendering. *)
Definition canonical_def (def : WorkflowDefinition) : Prop :=
  ∃ id ids, def_id def = uuid_to_string id ∧ NoDup ids ∧
            task_id <$> def_tasks def = uuid_to_string <$> ids.

Record row_faithful r : Prop := {
  rf_content : dr_content_hash r = content_hash (dr_definition r);
  rf_cosmetic : dr_cosmetic_hash r = cosmetic_hash (dr_definition r);
  rf_canonical : canonical_def (dr_definition r)
}.

Definition faithful s : Prop := ∀ k r, workflows s !! k = Some r → row_faithful r.

Lemma built_canonical pw tenant namespace n def :
  build_workflow NAMESPACE_OID jsonpath_ok fresh pw tenant namespace n = Ok def → canonical_def def.
Proof.
  intros Hb. destruct (registered_parts _ _ _ _ _ _ _ _ fresh_inj Hb)
    as (b & graph & n2 & _ & Hbi & _ & _ & Hnd & Hpend & Hres & _).
  eapply apply_signal_resolution_ok in Hres as [Hids _]; [|done..].
  assert (∃ id, def_id def = uuid_to_string (id : Uuid)) as [id Hid].
  { apply build_workflow_inv in Hb as (?&?&?&?&?&_&_&_&_&_&_&_&_&_&_&_&->). by eexists. }
  exists id, (fresh <$> seq n (length (bt_tasks b))). split_and!; [done| |].
  - apply NoDup_fmap_2; [by intros ? ?; apply fresh_inj|apply NoDup_seq].
  - rewrite Hids, (bi_ids _ _ _ Hbi), <-list_fmap_compose. done.
Qed.

Lemma canonical_task_ids def ids :
  task_id <$> def_tasks def = uuid_to_string <$> ids → task_ids def = Ok ids.
Proof.
  intros Heq. apply collect_ok. revert ids Heq.
  induction (def_tasks def) as [|t ts IH]; intros [|i ids]; csimpl; try done.
  intros [= Hi Hr]. constructor; [|auto]. unfold parse_id. by rewrite Hi, uuid_parse_to_string.
Qed.

Lemma canonical_parse def (ids : list Uuid) task t :
  task_id <$> def_tasks def = uuid_to_string <$> ids → task ∈ def_tasks def →
  uuid_parse_str (task_id task) = Some t → task_id task = uuid_to_string t.
Proof.
  intros Hids Hin Hparse. apply (list_elem_of_fmap_2 task_id) in Hin. rewrite Hids in Hin.
  apply list_elem_of_fmap in Hin as (u & Hu & _). rewrite Hu in Hparse |- *.
  rewrite uuid_parse_to_string in Hparse. congruence.
Qed.

(** ** The store never refuses a definition of the parser *)

Lemma insert_builds_total k now l : ∀ s,
  NoDup l.*2 → (∀ t, t ∈ l.*2 → def_builds s !! (k, t) = None) →
  ∃ s', insert_builds s k now l = Ok s'.
Proof.
  induction l as [|[task t] l IH]; intros s; csimpl; [by eauto|].
  intros [Hnin Hnd]%NoDup_cons Hfree. rewrite Hfree by by left.
  apply IH; [done|]. intros t' Ht'. simpl. rewrite lookup_insert_ne.
  - apply Hfree. by right.
  - intros [= <-]. done.
Qed.

Lemma insert_version_total s now input id ids v :
  def_store_ok s → NoDup ids → length ids = length (def_tasks (reg_definition input)) →
  workflows s !! (id, v) = None → ∃ o s', insert_version s now input id ids v = Ok (o, s').
Proof.
  intros Hok Hnd Hlen Hnone. unfold insert_version. rewrite Hnone.
  match goal with |- context [insert_builds ?s1 _ _ _] =>
    destruct (insert_builds_total (id, v) now (zip (def_tasks (reg_definition input)) ids) s1)
      as [s' Hs'] end.
  - by rewrite snd_zip by lia.
  - intros t _. simpl. destruct (def_builds s !! _) as [b|] eqn:Hb; [|done].
    destruct (do_foreign_key _ Hok (id, v) t) as [r Hr]; [|by rewrite Hnone in Hr].
    unfold bst. rewrite Hb. eauto.
  - simpl in *. rewrite Hs'. eauto.
Qed.

Lemma requeue_total s now k r :
  def_store_ok s → workflows s !! k = Some r → canonical_def (dr_definition r) →
  ∃ tasks s', requeue s now k = Ok (tasks, s').
Proof.
  intros Hok Hk (id & ids & _ & _ & Hids). unfold requeue. rewrite Hk. simpl.
  destruct (requeued_tasks _ _ _) as [tasks|e] eqn:Hr; [simpl; eauto|]. exfalso.
  apply collect_err in Hr as (l1 & t & l2 & Hl & Hf & _).
  assert (t ∈ failed_builds s k) as Ht by (rewrite Hl; set_solver). apply elem_of_failed_builds in Ht.
  destruct (proj1 (vo_tasks _ _ _ (do_versions _ Hok _ _ Hk) t)) as (task & Hin & Hparse); [by eauto|].
  assert (task_id task = uuid_to_string t) as Htid by by eapply canonical_parse.
  destruct (List.find _ _) eqn:Hfind; [done|].
  apply list_elem_of_In in Hin. eapply List.find_none in Hfind; [|done].
  by rewrite bool_decide_eq_true_2 in Hfind.
Qed.

Lemma register_total s now req def :
  def_store_ok s → faithful s → canonical_def def →
  ∃ o s', register_definition s now (input_of req def) = Ok (o, s').
Proof.
  intros Hok Hf (id & ids & Hid & Hnd & Hids). unfold register_definition, parse_id. simpl.
  rewrite Hid, uuid_parse_to_string. simpl. rewrite (canonical_task_ids def ids Hids). simpl.
  destruct (decide_registration _ _) as [v|v|v|v] eqn:Hd; [|by eauto| |by eauto].
  - apply insert_version_total; [done|done| |].
    + apply (f_equal length) in Hids. rewrite !length_fmap in Hids. done.
    + destruct (workflows s !! (id, v)) as [r|] eqn:Hv; [|done].
      pose proof (decide_registration_ok (input_of req def) (latest s id)) as Hok'. rewrite Hd in Hok'.
      eapply inserted_is_highest in Hok'; [|exact Hv]. lia.
  - pose proof (decide_registration_ok (input_of req def) (latest s id)) as Hok'. rewrite Hd in Hok'.
    destruct Hok' as ([? ?] & r & (<- & Hk & _)%latest_Some & -> & _). simpl in *.
    edestruct (requeue_total s now) as (tasks & s' & ->); [done..|by eapply rf_canonical, Hf|].
    simpl. eauto.
Qed.

(** ** The stored hashes *)

Lemma faithful_insert s s' k r :
  faithful s → workflows s' = <[k := r]> (workflows s) → row_faithful r → faithful s'.
Proof. intros Hf Hws Hr k' r'. rewrite Hws, lookup_insert_Some. naive_solver. Qed.

Lemma faithful_keeps s s' : faithful s → keeps_definitions s s' → faithful s'.
Proof.
  intros Hf Hkeep k r' (r & Hk & Hd & Hc & Hcos)%Hkeep.
  destruct (Hf _ _ Hk). split; rewrite Hd; congruence.
Qed.

Lemma register_faithful s now req def o s' :
  faithful s → canonical_def def →
  register_definition s now (input_of req def) = Ok (o, s') → faithful s'.
Proof.
  intros Hf Hcan. unfold register_definition, parse_id.
  destruct (uuid_parse_str _) as [id|]; [|done]. simpl.
  destruct (task_ids _) as [ids|]; [|done]. simpl.
  destruct (decide_registration _ _) as [v|v|v|v].
  - intros (_ & _ & (Hws & _)%insert_builds_spec)%insert_version_inv.
    eapply faithful_insert; [done|exact Hws|]. split; [done..|exact Hcan].
  - intros [= _ <-] k r. simpl. rewrite lookup_alter_Some.
    intros [(<- & r0 & Hk & ->)|[_ Hk]]; [|by eapply Hf].
    destruct (Hf _ _ Hk) as [Hc _ Hcn]. by split.
  - destruct (requeue _ _ _) as [[ts s1]|] eqn:Hr; [|done]. simpl. intros [= _ <-].
    apply requeue_inv in Hr as (r & Hk & _ & _ & Hws & _).
    case_bool_decide; [|intros k r'; rewrite Hws; apply Hf].
    eapply faithful_insert; [done|exact Hws|]. destruct (Hf _ _ Hk). by split.
  - by intros [= _ <-].
Qed.

Lemma faithful_canonical s : faithful s → canonical_tasks s.
Proof.
  intros Hf k r task t Hk. destruct (rf_canonical _ (Hf _ _ Hk)) as (_ & ids & _ & _ & Hids).
  by apply canonical_parse with ids.
Qed.

(** ** Steps *)

Inductive pipe_step : DefinitionStore (Uuid := Uuid) → DefinitionStore (Uuid := Uuid) → Prop :=
| pipe_register notify s now tenant req n a s' :
    register notify s now tenant req n = Ok (a, s') → pipe_step s s'
| pipe_worker s s' : worker_step uuid_leb fresh_token s s' → pipe_step s s'.

Definition pipe_reachable s : Prop := rtc pipe_step empty_definition_store s.

Lemma parsed_canonical evaluated tenant namespace n def :
  parse_workflow NAMESPACE_OID jsonpath_ok fresh from_str evaluated tenant namespace n = Ok def →
  canonical_def def.
Proof.
  unfold parse_workflow, parse_workflow_from_json_for_tenant. destruct evaluated as [json|]; [|done].
  simpl. destruct (from_str json) as [pw|]; [|done]. simpl.
  destruct (build_workflow _ _ _ _ _ _ _) as [def'|] eqn:Hb; [|done]. intros [= <-].
  by eapply built_canonical.
Qed.

Lemma process_register_inv notify s now tenant req n a s' :
  register notify s now tenant req n = Ok (a, s') →
  ∃ def o, canonical_def def ∧ register_definition s now (input_of req def) = Ok (o, s') ∧
           a = render_outcome notify (def_name def) o.
Proof.
  unfold process_register_with_notifier. destruct (nickel_eval _) as [ev|]; [|done].
  destruct (parse_workflow _ _ _ _ _ _ _ _) as [def|] eqn:Hp; [|done]. simpl.
  destruct (register_definition _ _ _) as [[o s1]|] eqn:Hr; [|done]. simpl. intros [= <- <-].
  exists def, o. split_and!; [by eapply parsed_canonical|done|done].
Qed.

Lemma pipe_step_def s s' : pipe_step s s' → def_step uuid_leb fresh_token s s'.
Proof.
  destruct 1 as [notify s now tenant req n a s' (def & o & _ & Hr & _)%process_register_inv|].
  - by eapply def_step_register.
  - by apply def_step_worker.
Qed.

Lemma pipe_step_faithful s s' : pipe_step s s' → faithful s → faithful s'.
Proof.
  destruct 1 as [notify s now tenant req n a s' (def & o & Hcan & Hr & _)%process_register_inv|s s' Hw];
    intros Hf.
  - by eapply register_faithful.
  - eapply faithful_keeps; [done|by eapply worker_step_keeps].
Qed.

Lemma pipe_reachable_ok s : pipe_reachable s → def_store_ok s ∧ faithful s.
Proof.
  intros Hr. split.
  - apply (def_reachable_ok uuid_leb fresh_token). unfold def_reachable.
    eapply (rtc_congruence id); [|exact Hr]. apply pipe_step_def.
  - assert (faithful empty_definition_store) as H1.
    { intros k r. simpl. by rewrite lookup_empty. }
    unfold pipe_reachable in Hr. induction Hr; eauto using pipe_step_faithful.
Qed.

(** What is stored is what was hashed: in every row the content and the cosmetic
    hash are those of the definition beside them, through every registration,
    refresh, requeue and settlement, the ids of its tasks are canonical and
    pairwise different, and therefore neighbouring versions differ in content. *)
Theorem stored_hashes_faithful s id v r
    (Hreach : pipe_reachable s) (Hv : workflows s !! (id, v) = Some r) :
  dr_content_hash r = content_hash (dr_definition r) ∧
  dr_cosmetic_hash r = cosmetic_hash (dr_definition r) ∧
  NoDup (task_id <$> def_tasks (dr_definition r)) ∧ canonical_tasks s ∧
  ∀ r', workflows s !! (id, (v - 1)%Z) = Some r' → content_hash (dr_definition r') ≠ content_hash (dr_definition r).
Proof.
  destruct (pipe_reachable_ok s Hreach) as [Hok Hf]. destruct (Hf _ _ Hv) as [Hc Hcos Hcan].
  split_and!; [done|done| | |].
  - destruct Hcan as (? & ids & _ & Hnd & ->). apply NoDup_fmap_2; [|done].
    intros ? ?. apply uuid_to_string_inj.
  - by apply faithful_canonical.
  - intros r' Hr'. rewrite <-Hc, <-(rf_content _ (Hf _ _ Hr')).
    destruct (vo_prev _ _ _ (do_versions _ Hok _ _ Hv)) as (r1 & Hr1 & Hne); simpl in *; [|congruence].
    pose proof (vo_pos _ _ _ (do_versions _ Hok _ _ Hr')). simpl in *. lia.
Qed.

(** The store never refuses what the parser accepted: a registration ends in a
    timeout or a parse error exactly when the evaluation or the parse does, and
    otherwise in an answer; no unique key, missing task or malformed id can make
    the transaction fail. *)
Theorem registration_never_refused notify s now tenant req n (Hreach : pipe_reachable s) :
  match nickel_eval (rr_nickel_source req) with
  | None => register notify s now tenant req n = Err RegisterTimeout
  | Some evaluated =>
      match parse_workflow NAMESPACE_OID jsonpath_ok fresh from_str evaluated tenant
              (rr_namespace req) n with
      | Err e => register notify s now tenant req n = Err (RegisterParse e)
      | Ok def => ∃ o s', register notify s now tenant req n = Ok (render_outcome notify (def_name def) o, s') ∧
                          pipe_reachable s'
      end
  end.
Proof.
  destruct (nickel_eval _) as [ev|] eqn:He; [|unfold process_register_with_notifier; by rewrite He].
  destruct (parse_workflow _ _ _ _ _ _ _ _) as [def|] eqn:Hp;
    [|unfold process_register_with_notifier; by rewrite He, Hp].
  destruct (pipe_reachable_ok s Hreach) as [Hok Hf].
  destruct (register_total s now req def Hok Hf) as (o & s' & Hr); [by eapply parsed_canonical|].
  assert (register notify s now tenant req n = Ok (render_outcome notify (def_name def) o, s')) as Hreg.
  { unfold process_register_with_notifier. rewrite He, Hp. simpl. by rewrite Hr. }
  exists o, s'. split; [done|]. eapply rtc_r; [exact Hreach|]. by eapply pipe_register.
Qed.

(** ** Submitting a source again *)

Definition answer_id (o : RegisterOutcome Uuid) : Uuid :=
  match o with
  | Register_Inserted id _ _ _ | Register_Refreshed id _ _
  | Register_BuildRequeued id _ _ _ | Register_NoOp id _ _ => id
  end.

Definition answer_version (o : RegisterOutcome Uuid) : Z :=
  match o with
  | Register_Inserted _ v _ _ | Register_Refreshed _ v _
  | Register_BuildRequeued _ v _ _ | Register_NoOp _ v _ => v
  end.

Lemma render_key notify name o :
  answer_id (render_outcome notify name o).1 = outcome_id o ∧
  answer_version (render_outcome notify name o).1 = outcome_version o.
Proof. by destruct o. Qed.

(** The two parses of one request, whatever ids they draw. *)
Lemma reparse evaluated tenant req n n' def :
  parse_workflow NAMESPACE_OID jsonpath_ok fresh from_str evaluated tenant (rr_namespace req) n = Ok def →
  ∃ def', parse_workflow NAMESPACE_OID jsonpath_ok fresh from_str evaluated tenant (rr_namespace req) n'
            = Ok def' ∧
    def_id def' = def_id def ∧ content_hash def' = content_hash def ∧
    cosmetic_hash def' = cosmetic_hash def.
Proof.
  unfold parse_workflow, parse_workflow_from_json_for_tenant. destruct evaluated as [json|]; [|done]. simpl.
  destruct (from_str json) as [pw|]; [|done]. simpl.
  pose proof (reparse_hashes NAMESPACE_OID jsonpath_ok fresh fresh ser to_string escape float_to_string
                sha256 pw tenant (rr_namespace req) n n' fresh_inj fresh_inj) as Hs.
  destruct (build_workflow _ _ _ _ _ _ n) as [d|]; [|done]. simpl. intros [= <-].
  destruct (build_workflow _ _ _ _ _ _ n') as [d'|]; [|done]. eauto.
Qed.

(** Another parse of a registered source asks for the same registration. *)
Lemma reregister notify s now tenant req n a s' n' :
  register notify s now tenant req n = Ok (a, s') →
  ∃ def' ids, task_ids def' = Ok ids ∧ canonical_def def' ∧
    uuid_parse_str (def_id def') = Some (answer_id a.1) ∧
    holds_registration s' (input_of req def') (answer_id a.1) (answer_version a.1) ∧
    ∀ notify' s'' later, register notify' s'' later tenant req n' =
      let? res := map_err RegisterPersist (register_definition s'' later (input_of req def')) in
      Ok (render_outcome notify' (def_name def') res.1, res.2).
Proof.
  unfold process_register_with_notifier. destruct (nickel_eval _) as [ev|]; [|done].
  destruct (parse_workflow _ _ _ _ _ _ _ n) as [def|] eqn:Hp; [|done]. simpl.
  destruct (register_definition _ _ _) as [[o s1]|] eqn:Hr; [|done]. simpl. intros [= <- <-].
  destruct (reparse ev tenant req n n' def Hp) as (def' & Hp' & Hid & Hc & Hcos).
  pose proof (parsed_canonical _ _ _ _ _ Hp') as Hcan.
  pose proof Hcan as (id & ids & _ & _ & Hids%canonical_task_ids).
  apply registered_holds in Hr as [Hparse (r & Hl & Hrc & Hst & Hlive)]. simpl in *.
  destruct (render_key notify (def_name def) o) as [-> ->].
  exists def', ids. rewrite Hid. split_and!; [done|done|done| |by rewrite Hp'].
  exists r. simpl. by rewrite Hc, Hcos.
Qed.

(** What the workers do in between keeps the latest version and its content. *)
Lemma workers_keep_latest s s' id v r :
  def_store_ok s → rtc (worker_step uuid_leb fresh_token) s s' →
  latest s id = Some ((id, v), r) →
  ∃ r', latest s' id = Some ((id, v), r') ∧ dr_content_hash r' = dr_content_hash r.
Proof.
  intros Hok Hsteps Hl. assert (def_evolves s s' ∧ keeps_definitions s s') as [Hev Hkeep].
  { clear Hl. induction Hsteps as [s|s s1 s' Hw Hsteps IH].
    - split; [apply def_evolves_refl|by apply keeps_definitions_same].
    - destruct (worker_step_sound _ _ _ _ Hw Hok) as [Hok1 Hev1].
      destruct (IH Hok1) as [Hev2 Hk2]. split.
      + intros k r0 (r1 & Hr1 & He1)%Hev1. apply Hev2 in Hr1 as (r2 & Hr2 & He2).
        eauto using version_evolves_trans.
      + eapply keeps_definitions_trans; [by eapply worker_step_keeps|done]. }
  apply latest_Some in Hl as (_ & Hk & Hmax). destruct (Hev _ _ Hk) as (r' & Hr' & Hevr).
  exists r'. split.
  - apply latest_intro; [done|]. intros v' r'' (r0 & Hr0 & _)%Hkeep. simpl in *. by eapply Hmax.
  - destruct (Hkeep _ _ Hr') as (r0 & Hr0 & _ & Hc & _). congruence.
Qed.

(** With the content unchanged a registration touches no other version. *)
Lemma register_known s now req def id ids v r :
  def_store_ok s → faithful s → uuid_parse_str (def_id def) = Some id → task_ids def = Ok ids →
  latest s id = Some ((id, v), r) → dr_content_hash r = content_hash def →
  ∃ o s', register_definition s now (input_of req def) = Ok (o, s') ∧
    outcome_id o = id ∧ outcome_version o = v ∧ dom (workflows s') = dom (workflows s).
Proof.
  intros Hok Hf Hid Hids Hl Hc. pose proof (latest_Some _ _ _ _ Hl) as (_ & Hk & _).
  unfold register_definition, parse_id. simpl. rewrite Hid. simpl. rewrite Hids. simpl.
  pose proof (decide_registration_ok (input_of req def) (latest s id)) as Hd. revert Hd.
  destruct (decide_registration _ _) as [v'|v'|v'|v']; rewrite Hl; simpl.
  - intros [[? _]|(k & r0 & [= <- <-] & _ & Hne)]; done.
  - intros (k & r0 & [= <- <-] & -> & _). do 2 eexists. split; [done|].
    split_and!; [done..|]. simpl. by rewrite dom_alter_L.
  - intros (k & r0 & [= <- <-] & -> & _). simpl.
    destruct (requeue_total s now (id, v) r Hok Hk (rf_canonical _ (Hf _ _ Hk))) as (ts & s' & Hr).
    rewrite Hr. simpl. do 2 eexists. split; [done|]. split_and!; [done..|]. simpl.
    apply requeue_inv in Hr as (r1 & Hk1 & _ & _ & -> & _). case_bool_decide; [|done].
    apply dom_insert_lookup_L. eauto.
  - intros (k & r0 & [= <- <-] & -> & _). do 2 eexists. split; done.
Qed.

(** C5: A source can be submitted on every merge: registering it again, parsed afresh
    with other ids, answers with the same workflow and version and changes
    nothing; and whatever the workers did in between, the answer names that
    version still and no version is added. *)
Theorem resubmission_stable notify notify' s now later tenant req n n' a s'
    (Hreach : pipe_reachable s) (Hreg : register notify s now tenant req n = Ok (a, s')) :
  (∃ message, register notify' s' later tenant req n' =
     Ok ((Register_NoOp (answer_id a.1) (answer_version a.1) message, []), s')) ∧
  ∀ s'', rtc (worker_step uuid_leb fresh_token) s' s'' →
    ∃ a'' s3, register notify' s'' later tenant req n' = Ok (a'', s3) ∧
      answer_id a''.1 = answer_id a.1 ∧ answer_version a''.1 = answer_version a.1 ∧
      dom (workflows s3) = dom (workflows s'').
Proof.
  destruct (reregister _ _ _ _ _ _ _ _ n' Hreg) as (def' & ids & Hids & Hcan & Hid & Hh & Hagain).
  split.
  { rewrite Hagain, (register_again _ _ (input_of req def') _ _ ids Hid Hids Hh). simpl. eauto. }
  intros s'' Hsteps.
  assert (pipe_reachable s') as Hr' by (eapply rtc_r; [exact Hreach|by eapply pipe_register]).
  assert (pipe_reachable s'') as Hr''.
  { unfold pipe_reachable. etrans; [exact Hr'|]. eapply (rtc_congruence id); [|exact Hsteps].
    intros. by apply pipe_worker. }
  destruct (pipe_reachable_ok _ Hr') as [Hok' _]. destruct (pipe_reachable_ok _ Hr'') as [Hok'' Hf''].
  destruct Hh as (r & Hl & Hc & _). simpl in Hc.
  destruct (workers_keep_latest _ _ _ _ _ Hok' Hsteps Hl) as (r'' & Hl'' & Hc'').
  destruct (register_known s'' later req def' _ ids _ r'' Hok'' Hf'' Hid Hids Hl'') as (o & s3 & Hr & Ho & Hv & Hdom);
    [congruence|].
  rewrite Hagain, Hr. simpl. do 2 eexists. split; [done|].
  destruct (render_key notify' (def_name def') o) as [-> ->]. done.
Qed.

(** ** Announcements *)

Lemma build_tasks_elem def id v ids task :
  task ∈ build_tasks (Uuid := Uuid) def id v ids →
  dbt_workflow_id task = id ∧ dbt_workflow_version task = v ∧ dbt_task_id task ∈ ids.
Proof.
  unfold build_tasks. intros (i & Hi)%list_elem_of_lookup.
  apply lookup_zip_with_Some in Hi as (t & tid & -> & _ & Htid). simpl.
  eauto using list_elem_of_lookup_2.
Qed.

Lemma requeued_elem def k tids tasks task :
  requeued_tasks def k tids = Ok tasks → task ∈ tasks →
  dbt_workflow_id task = k.1 ∧ dbt_workflow_version task = k.2 ∧ dbt_task_id task ∈ tids.
Proof.
  intros Hr%collect_ok (i & Hi)%list_elem_of_lookup.
  eapply Forall2_lookup_r in Hr as (t & Ht & Hf); [|done].
  case_match; [|done]. injection Hf as <-. simpl. eauto using list_elem_of_lookup_2.
Qed.

(** The build a job announces waits, unleased, in a version that is building. *)
Definition announces s (job : TaskBuildJob Uuid) : Prop :=
  let k := (tbj_workflow_id job, tbj_workflow_version job) in
  (∃ b, def_builds s !! (k, tbj_task_id job) = Some b ∧ b_status b = build_pending ∧ b_lease b = None) ∧
  ∃ r, workflows s !! k = Some r ∧ dr_status r = Def_Building.

Lemma queued_task_waits s now input o s' task tasks :
  register_definition s now input = Ok (o, s') → task ∈ tasks →
  (∃ id v, o = RegInserted id v tasks) ∨ (∃ id v, o = RegBuildRequeued id v tasks) →
  announces s' (build_job task).
Proof.
  unfold register_definition, parse_id, announces. simpl. intros Hr Htask Hcase. revert Hr.
  destruct (uuid_parse_str _) as [id|]; [|done]. simpl.
  destruct (task_ids _) as [ids|] eqn:Hids; [|done]. simpl.
  pose proof (decide_registration_ok input (latest s id)) as Hd.
  destruct (decide_registration _ _) as [v|v|v|v].
  - intros (_ & -> & (Hws & _ & Hin & _)%insert_builds_spec)%insert_version_inv. simpl in *.
    destruct Hcase as [(? & ? & [= <- <- <-])|(? & ? & ?)]; [|done].
    apply build_tasks_elem in Htask as (-> & -> & Ht).
    rewrite snd_zip in Hin by (rewrite (task_ids_length _ _ Hids); done).
    apply Hin in Ht as [_ ->]. rewrite Hws, lookup_insert_eq.
    split; eexists; (split; [done|]); done.
  - intros [= <- _]. by destruct Hcase as [(? & ? & ?)|(? & ? & ?)].
  - destruct Hd as ([id' v0] & r & (<- & Hk & _)%latest_Some & -> & _ & Hst). simpl in *.
    destruct (requeue _ _ _) as [[ts s1]|] eqn:Hr; [|done]. simpl. intros [= <- <-].
    destruct Hcase as [(? & ? & ?)|(? & ? & [= <- <- <-])]; [done|].
    apply requeue_inv in Hr as (r1 & Hk1 & Hts & _ & Hws & Hb). simplify_eq.
    apply (requeued_elem _ _ _ _ _ Hts) in Htask as (-> & -> & Ht%elem_of_failed_builds). simpl in *.
    rewrite bool_decide_eq_true_2 in Hws by done. rewrite Hws, lookup_insert_eq, Hb. simpl.
    unfold bst in Ht. destruct (def_builds s !! _) as [b|]; [|done]. simpl in *. injection Ht as Ht.
    unfold of_version. rewrite bool_decide_eq_true_2 by done. unfold requeue_build. rewrite Ht.
    split; eexists; (split; [done|]); done.
  - intros [= <- _]. by destruct Hcase as [(? & ? & ?)|(? & ? & ?)].
Qed.

(** Every announced job is a committed build waiting for a worker: its row is
    pending and unleased and its version is building; and a registration without
    a queue does the same to the store, announcing nothing. *)
Theorem announced_builds_wait notify s now tenant req n a s'
    (Hreg : register notify s now tenant req n = Ok (a, s')) :
  (∀ job, job ∈ a.2 → announces s' job) ∧
  register false s now tenant req n = Ok ((a.1, []), s').
Proof.
  split.
  - destruct (process_register_inv _ _ _ _ _ _ _ _ Hreg) as (def & o & _ & Hr & ->). clear Hreg.
    intros job Hjob. assert (∃ task tasks, task ∈ tasks ∧ job = build_job task ∧
      ((∃ id v, o = RegInserted id v tasks) ∨ ∃ id v, o = RegBuildRequeued id v tasks)) as
      (task & tasks & Htask & -> & Hcase).
    { destruct o, notify; simpl in Hjob; try by apply elem_of_nil in Hjob.
      all: apply list_elem_of_fmap in Hjob as (task & -> & ?); eauto 10. }
    by eapply queued_task_waits.
  - revert Hreg. unfold process_register_with_notifier. destruct (nickel_eval _) as [ev|]; [|done].
    destruct (parse_workflow _ _ _ _ _ _ _ _) as [def|]; [|done]. simpl.
    destruct (register_definition _ _ _) as [[o s1]|]; [|done]. simpl. intros [= <- <-].
    by destruct o, notify.
Qed.
End facts.

(** ** A run

    The workflow of [BuilderFacts] is submitted, submitted again, and a source
    that takes too long is not registered. *)

Definition demo_eval (source : string) : option (result string string) :=
  if bool_decide (source = "loop") then None else Some (Ok source).

Definition demo_from_str (_ : string) : option ParsedWorkflow := Some release.

Definition demo_digest (s : string) : list N := [N.of_nat (String.length s) `mod` 256]%N.

Definition demo_register :=
  process_register_with_notifier (mkBitUuid []) (λ _, true) bit_supply null_serializers
    (λ _, "") id (λ _, "") demo_digest demo_from_str demo_eval.

Definition demo_request : RegisterRequest := mkRegisterRequest "source" "".

Definition registered : DefinitionStore (Uuid := bit_uuid) :=
  after empty_definition_store
    (demo_register true empty_definition_store 1 (mkBitUuid [true]) demo_request 0).

Definition demo_answer : RegisterOutcome bit_uuid * list (TaskBuildJob bit_uuid) :=
  match demo_register true empty_definition_store 1 (mkBitUuid [true]) demo_request 0 with
  | Ok (a, _) => a
  | Err _ => (Register_NoOp (mkBitUuid []) 0 "", [])
  end.

Lemma demo_registered :
  demo_register true empty_definition_store 1 (mkBitUuid [true]) demo_request 0 =
  Ok (demo_answer, registered).
Proof. apply after_ok. vm_compute. reflexivity. Qed.

Definition demo_pipe_reachable :=
  pipe_reachable (mkBitUuid []) (λ _, true) bit_supply null_serializers (λ _, "") id (λ _, "")
    demo_digest demo_from_str demo_eval def_leb unary.

Lemma registered_reachable : demo_pipe_reachable registered.
Proof. eapply rtc_once, pipe_register, demo_registered. Qed.

Definition registered_row : DefinitionRow bit_uuid :=
  match workflows registered !! (answer_id demo_answer.1, answer_version demo_answer.1) with
  | Some r => r
  | None => mkDefinitionRow "" "" "" Def_Building "" "" release_def "" 0 0 None
  end.

Lemma stored_hashes_faithful_witness :
  dr_content_hash registered_row =
    content_hash null_serializers (λ _, "") id (λ _, "") demo_digest (dr_definition registered_row) ∧
  NoDup (task_id <$> def_tasks (dr_definition registered_row)).
Proof.
  destruct (stored_hashes_faithful (mkBitUuid []) (λ _, true) bit_supply null_serializers (λ _, "") id
              (λ _, "") demo_digest demo_from_str demo_eval def_leb unary bit_supply_inj registered
              (answer_id demo_answer.1) (answer_version demo_answer.1) registered_row
              registered_reachable) as (Hc & _ & Hnd & _).
  - vm_compute. reflexivity.
  - split; [exact Hc|exact Hnd].
Defined.

Lemma registration_never_refused_witness :
  demo_register true registered 2 (mkBitUuid [true]) (mkRegisterRequest "loop" "") 100 =
  Err RegisterTimeout.
Proof.
  exact (registration_never_refused (mkBitUuid []) (λ _, true) bit_supply null_serializers (λ _, "") id
           (λ _, "") demo_digest demo_from_str demo_eval def_leb unary bit_supply_inj true registered 2
           (mkBitUuid [true]) (mkRegisterRequest "loop" "") 100 registered_reachable).
Defined.

Lemma resubmission_stable_witness :
  ∃ message, demo_register false registered 2 (mkBitUuid [true]) demo_request 100 =
    Ok ((Register_NoOp (answer_id demo_answer.1) 1 message, []), registered).
Proof.
  apply (resubmission_stable (mkBitUuid []) (λ _, true) bit_supply null_serializers (λ _, "") id
           (λ _, "") demo_digest demo_from_str demo_eval def_leb unary bit_supply_inj true false
           empty_definition_store 1 2 (mkBitUuid [true]) demo_request 0 100 demo_answer registered).
  - apply rtc_refl.
  - exact demo_registered.
Defined.

Lemma announced_builds_wait_witness :
  length demo_answer.2 = 3 ∧ ∀ job, job ∈ demo_answer.2 → announces registered job.
Proof.
  split; [vm_compute; reflexivity|].
  apply (announced_builds_wait (mkBitUuid []) (λ _, true) bit_supply null_serializers (λ _, "") id
           (λ _, "") demo_digest demo_from_str demo_eval unary bit_supply_inj true empty_definition_store 1
           (mkBitUuid [true]) demo_request 0 demo_answer registered demo_registered).
Defined.
