(* ===== verification/DefinitionWorkers.v ===== *)
(** * The definition workers

    [build_pipeline/local.rs] builds the tasks of registered versions,
    [submission_consumer/local.rs] forwards the versions that are ready, and
    [waits_on_signal_lifecycle.rs] keeps the subscription index in step.  Each
    function is a program over the transactions of [DefinitionStore]; the messages
    are the definitions handed to the relay, and the index is what the process
    keeps in memory. *)

From S2P Require Import Prelude Workflow Uuid Leases Captures SubscriptionIndex Programs Workers DefinitionStore.

Section workers.
Context `{UuidOps Uuid} `{!Countable Uuid}.
Context {JsonPath : Type} (parse_path : string → option JsonPath).
Context (uuid_leb : Uuid → Uuid → bool) (fresh_token : nat → Uuid).

Abbreviation store := (DefinitionStore (Uuid := Uuid)).
Abbreviation index := (SubInner (Uuid := Uuid) (JsonPath := JsonPath)).
Abbreviation failure := (RepositoryError DefinitionStoreError).

(** The tables, the next lease token and the process's index. *)
Record Conductor := mkConductor {
  tables : store;
  next_token : nat;
  subscriptions : index
}.

Abbreviation await := (Await Conductor WorkflowDefinition DefinitionStoreError Uuid).
Abbreviation program A := (prog await failure (result A failure)).

Definition on_tables {X} (f : Z → store → X * store) (now : Z) (c : Conductor)
    : result (X * Conductor) DefinitionStoreError :=
  let '(x, s) := f now (tables c) in
  Ok (x, mkConductor s (next_token c) (subscriptions c)).

Definition leasing {X} (f : store → nat → result (X * (store * nat)) DefinitionStoreError)
    (now : Z) (c : Conductor) : result (X * Conductor) DefinitionStoreError :=
  let? r := f (tables c) (next_token c) in
  Ok (r.1, mkConductor r.2.1 r.2.2 (subscriptions c)).

(** ** The index: [waits_on_signal_lifecycle.rs] *)

Inductive ApplyError :=
| BadWorkflowId
| RegisterRefused (e : SubRegisterError).

Definition waits_on (workflow : WorkflowDefinition) : option WaitsOnSignalConfig :=
  match def_trigger workflow with
  | Some (mkTrigger (Some (Trigger_WaitsOnSignal cfg))) => Some cfg
  | _ => None
  end.

Definition apply_workflow_state (workflow : WorkflowDefinition) (i : index)
    : result index ApplyError :=
  match waits_on workflow with
  | None =>
      let? id := ok_or (uuid_parse_str (def_id workflow)) BadWorkflowId in
      Ok (sub_unregister id i)
  | Some cfg =>
      let merged := merge (def_captures workflow) (wos_captures cfg) in
      let? id := ok_or (uuid_parse_str (def_id workflow)) BadWorkflowId in
      map_err RegisterRefused
        (sub_register parse_path id (wos_signal_name cfg) (wos_predicate cfg) merged i)
  end.

(** An error is logged and leaves the index as it is. *)
Definition refresh_index (workflow : WorkflowDefinition) (c : Conductor) : bool * Conductor :=
  match apply_workflow_state workflow (subscriptions c) with
  | Ok i => (true, mkConductor (tables c) (next_token c) i)
  | Err _ => (false, c)
  end.

Fixpoint rebuild (workflows : list WorkflowDefinition) (registered : nat) : program nat :=
  match workflows with
  | [] => Ret (Ok registered)
  | workflow :: rest =>
      match waits_on workflow with
      | None => rebuild rest registered
      | Some _ =>
          let* ok := call (Local (refresh_index workflow)) in
          rebuild rest (if ok : bool then S registered else registered)
      end
  end.

Definition rebuild_from_repository : program nat :=
  let*? workflows := call (Transact (on_tables (λ _ s, (live_workflow_definitions uuid_leb s, s)))) in
  rebuild workflows 0.

(** A process starts with an empty index. *)
Definition boot : program nat :=
  let* _ := call (Local (λ c, (tt, mkConductor (tables c) (next_token c) SubInner_default))) in
  rebuild_from_repository.

(** ** Registration, as far as it concerns the tables *)

Definition register (input : DefinitionRegistrationInput)
    : program (DefinitionRegistrationOutcome Uuid) :=
  call (Transact (λ now c,
    let? r := register_definition (tables c) now input in
    Ok (r.1, mkConductor r.2 (next_token c) (subscriptions c)))).

(** ** Builds: [build_pipeline/local.rs] *)

Record WorkerConfig := mkWorkerConfig {
  wc_scan_interval : Z;
  wc_lease_duration : Z;
  wc_batch_size : nat
}.

Definition definition_build_job (lease : LeasedDefinitionBuildTask (Uuid := Uuid)) : TaskBuildJob Uuid :=
  let task := ldb_task lease in
  mkTaskBuildJob (dbt_workflow_id task) (dbt_workflow_version task) (dbt_task_id task)
    (dbt_nix_expression_path task).

Definition definition_build_result (outcome : BuildOutcome) : DefinitionTaskBuildResult :=
  match outcome with
  | BuildOutcome_Success => DefTaskSuccess
  | BuildOutcome_Failure error => DefTaskFailure error
  end.

Definition process_leased_task (lease : LeasedDefinitionBuildTask (Uuid := Uuid)) : program unit :=
  let* outcome := call (ExecuteBuild (definition_build_job lease)) in
  let* now := call UtcNow in
  let*? settlement := call (Transact (on_tables (λ _ s,
    settle_leased_definition_task_build s lease (definition_build_result outcome) now))) in
  match settlement with
  | DefBuildSettled (DefNowReady intent) =>
      let* _ := call (Local (refresh_index (dsi_definition intent))) in
      Ret (Ok tt)
  | _ => Ret (Ok tt)
  end.

Definition scan_definition_builds (owner : string) (lease_duration : Z) (batch : nat) : program unit :=
  let* now := call UtcNow in
  let*? work := call (Transact (on_tables (λ _ s,
    (has_reclaimable_definition_build uuid_leb s now, s)))) in
  let* open := if work : bool then call (ClaimsOpen Pipeline_DefinitionBuild) else Ret false in
  if open : bool then
    let*? leases := call (Transact (leasing (λ s n,
      lease_definition_build_tasks uuid_leb fresh_token s n owner now (now + lease_duration) batch))) in
    Join (map process_leased_task leases) Ret
  else Ret (Ok tt).

(** ** Submissions: [submission_consumer/local.rs] *)

(** A forward that fails leaves the lease to run out. *)
Definition process_leased_submission (lease : LeasedDefinitionSubmission (Uuid := Uuid)) : program unit :=
  let* sent := call (Send (dsi_definition (lds_intent lease))) in
  if sent : bool then
    let* now := call UtcNow in
    let*? _ := call (Transact (on_tables (λ _ s, settle_leased_definition_submission s lease now))) in
    Ret (Ok tt)
  else Ret (Ok tt).

Fixpoint each_submission (leases : list (LeasedDefinitionSubmission (Uuid := Uuid))) : program unit :=
  match leases with
  | [] => Ret (Ok tt)
  | lease :: rest =>
      let*? _ := process_leased_submission lease in
      each_submission rest
  end.

Definition scan_submissions (owner : string) (lease_duration : Z) (batch : nat) : program unit :=
  let* now := call UtcNow in
  let*? work := call (Transact (on_tables (λ _ s,
    (has_reclaimable_definition_submission uuid_leb s now, s)))) in
  let* open := if work : bool then call (ClaimsOpen Pipeline_Submission) else Ret false in
  if open : bool then
    let*? leases := call (Transact (leasing (λ s n,
      lease_definition_submissions uuid_leb fresh_token s n owner now (now + lease_duration) batch))) in
    each_submission leases
  else Ret (Ok tt).

(** ** The loops *)

(** Both workers scan at the start and at every wake-up, also at the one that
    tells them that no more notifications come. *)
Fixpoint scan_loop (scan : program unit) (wakes : list Wake) : program unit :=
  match wakes with
  | [] | Wake_Cancelled :: _ => Ret (Ok tt)
  | _ :: wakes => let*? _ := scan in scan_loop scan wakes
  end.

Definition check_worker_config (config : WorkerConfig) : result unit WorkerRefusal :=
  let? _ := ensure (negb (wc_scan_interval config =? 0)%Z) ZeroScanInterval in
  let? _ := ensure (wc_lease_duration config <=? MAX_DURATION)%Z DurationOutOfRange in
  ensure (0 <? wc_lease_duration config)%Z NonPositiveLease.

Definition start_local_definition_build_worker (owner : string) (config : WorkerConfig)
    (wakes : list Wake) : result (program unit) WorkerRefusal :=
  let? _ := check_worker_config config in
  let scan := scan_definition_builds owner (wc_lease_duration config) (wc_batch_size config) in
  Ok (let*? _ := scan in scan_loop scan wakes).

Definition start_local_definition_submission_worker (owner : string) (config : WorkerConfig)
    (wakes : list Wake) : result (program unit) WorkerRefusal :=
  let? _ := check_worker_config config in
  let scan := scan_submissions owner (wc_lease_duration config) (wc_batch_size config) in
  Ok (let*? _ := scan in scan_loop scan wakes).

(** ** Everything that runs *)

Inductive DefinitionAnswer :=
| D_Registered (r : result (DefinitionRegistrationOutcome Uuid) failure)
| D_Rebuilt (r : result nat failure)
| D_Worked (r : result unit failure).

Definition then_answer {A} (f : result A failure → DefinitionAnswer) (p : program A)
    : prog await failure DefinitionAnswer := bind p (λ r, Ret (f r)).
End workers.
