(* ===== verification/DefinitionDelivery.v ===== *)
(** * What the definition workers promise

    The threads of [DefinitionWorkers] under any interleaving, loss and failure: a
    definition is forwarded only when its builds have succeeded, and a subscription
    of the index belongs to a version that is live.  The invariant is proved one
    program at a time, as the logic of [Programs] asks. *)

From S2P Require Import Prelude Workflow Uuid Leases Captures SubscriptionIndex Programs Workers DefinitionStore DefinitionStoreFacts DefinitionLifecycle DefinitionWorkers.

(** ** One definition and the index *)

Section index.
Context `{UuidOps Uuid} `{!Countable Uuid}.
Context {JsonPath : Type} (parse_path : string → option JsonPath).
Implicit Types (def : WorkflowDefinition) (a : gmap Uuid (string * SubEntry (Uuid := Uuid) (JsonPath := JsonPath))).

(** The subscription a definition asks for. *)
Definition subscription (id : Uuid) def : option (string * SubEntry (Uuid := Uuid) (JsonPath := JsonPath)) :=
  cfg ← waits_on def;
  match sub_parse_predicate parse_path (wos_predicate cfg) with
  | Ok p => Some (wos_signal_name cfg, mkSubEntry id p (merge (def_captures def) (wos_captures cfg)))
  | Err _ => None
  end.

(** The parser has accepted the predicate. *)
Definition predicate_parses def : Prop :=
  ∀ cfg p, waits_on def = Some cfg → wos_predicate cfg = Some p → is_Some (parse_path p).

Definition put (id : Uuid) (p : option (string * SubEntry)) a := partial_alter (λ _, p) id a.

Lemma subscription_waits id def :
  predicate_parses def → is_Some (subscription id def) ↔ is_Some (waits_on def).
Proof.
  intros Hp. unfold subscription. destruct (waits_on def) as [cfg|] eqn:Hw; simpl; [|done].
  unfold sub_parse_predicate. destruct (wos_predicate cfg) as [p|] eqn:Hpred; [|by split].
  destruct (Hp cfg p Hw Hpred) as [q ->]. by split.
Qed.

(** Applying a definition puts its subscription in the place of the workflow's. *)
Lemma apply_represents id def (i : SubInner) a :
  represents i a → uuid_parse_str (def_id def) = Some id → predicate_parses def →
  ∃ i', apply_workflow_state parse_path def i = Ok i' ∧ represents i' (put id (subscription id def) a).
Proof.
  intros Hr Hid Hp. unfold apply_workflow_state, subscription. rewrite Hid.
  destruct (waits_on def) as [cfg|] eqn:Hw; simpl.
  - assert (∃ i', sub_register parse_path id (wos_signal_name cfg) (wos_predicate cfg)
              (merge (def_captures def) (wos_captures cfg)) i = Ok i') as [i' Hi'].
    { unfold sub_register, sub_parse_predicate. destruct (wos_predicate cfg) as [p|] eqn:Hpred; [|simpl; eauto].
      destruct (Hp cfg p Hw Hpred) as [q ->]. simpl. eauto. }
    destruct (sub_register_represents _ _ _ _ _ _ _ _ Hr Hi') as (parsed & -> & Hr').
    rewrite Hi'. exists i'. split; [done|]. exact Hr'.
  - eexists. split; [done|]. by apply sub_unregister_represents.
Qed.

Lemma put_lookup id p a : put id p a !! id = p.
Proof. apply lookup_partial_alter_eq. Qed.

Lemma put_lookup_ne id id' p a : id ≠ id' → put id p a !! id' = a !! id'.
Proof. apply lookup_partial_alter_ne. Qed.
End index.

Section delivery.
Context `{UuidOps Uuid} `{!UuidLaws Uuid} `{!Countable Uuid}.
Context {JsonPath : Type} (parse_path : string → option JsonPath).
Context (uuid_leb : Uuid → Uuid → bool) (fresh_token : nat → Uuid).
Context (submitted : DefinitionRegistrationInput → Prop).

Abbreviation store := (DefinitionStore (Uuid := Uuid)).
Abbreviation row := (DefinitionRow Uuid).
Abbreviation failure := (RepositoryError DefinitionStoreError).
Abbreviation conductor := (Conductor (Uuid := Uuid) (JsonPath := JsonPath)).
Abbreviation def_world := (World conductor WorkflowDefinition).
Abbreviation await := (Await conductor WorkflowDefinition DefinitionStoreError Uuid).
Abbreviation program A := (prog await failure (result A failure)).
Implicit Types (w : def_world) (s : store) (r : row) (def : WorkflowDefinition) (c : conductor).

(** ** What the parser hands over *)

Record registrable def : Prop := {
  rg_tasks : ∀ task t, task ∈ def_tasks def → uuid_parse_str (task_id task) = Some t →
    task_id task = uuid_to_string (t : Uuid);
  rg_predicate : predicate_parses parse_path def
}.

Context (Hsubmitted : ∀ input, submitted input → registrable (reg_definition input)).

(** ** Threads *)

Inductive may_start w : prog await failure DefinitionAnswer → Prop :=
| start_register input : submitted input →
    may_start w (then_answer D_Registered (register input))
| start_boot : may_start w (then_answer D_Rebuilt (boot parse_path uuid_leb))
| start_build_worker owner config wakes p :
    start_local_definition_build_worker parse_path uuid_leb fresh_token owner config wakes = Ok p →
    may_start w (then_answer D_Worked p)
| start_submission_worker owner config wakes p :
    start_local_definition_submission_worker uuid_leb fresh_token owner config wakes = Ok p →
    may_start w (then_answer D_Worked p).

Definition first_conductor : conductor := mkConductor empty_definition_store 0 SubInner_default.
Definition first_world : def_world := mkWorld first_conductor [] [].

Abbreviation def_pool := (Pool (Op := await) (E := failure) (World := def_world) (DefinitionAnswer (Uuid := Uuid))).
Definition def_runs : def_pool → def_pool → Prop := pool_run perform may_start.
Definition def_pool_reachable (p : def_pool) : Prop := def_runs (mkPool ∅ first_world) p.

(** ** The invariant *)

Abbreviation now_tables w := (tables (now_store w)).

(** A definition is taken from a live row of a store there has been. *)
Definition taken w def : Prop :=
  ∃ c k r, c ∈ stores w ∧ workflows (tables c) !! k = Some r ∧ def_live (dr_status r) = true ∧
           def = dr_definition r.

(** A subscription is that of a live version. *)
Definition subscribed s (id : Uuid) (p : string * SubEntry (Uuid := Uuid) (JsonPath := JsonPath)) : Prop :=
  ∃ v r, workflows s !! (id, v) = Some r ∧ def_live (dr_status r) = true ∧
         subscription parse_path id (dr_definition r) = Some p.

Record world_ok w : Prop := {
  wo_store : ∀ c, c ∈ stores w → def_store_ok (tables c);
  wo_past : ∀ c, c ∈ stores w → def_evolves (tables c) (now_tables w);
  wo_registrable : ∀ k r, workflows (now_tables w) !! k = Some r → registrable (dr_definition r);
  wo_sent : ∀ def, def ∈ sent_messages w → taken w def;
  wo_index : ∃ a, represents (subscriptions (now_store w)) a ∧
    ∀ id p, a !! id = Some p → subscribed (now_tables w) id p
}.

Record goes_on w w' : Prop := {
  go_extends : extends w w';
  go_evolves : def_evolves (now_tables w) (now_tables w');
  go_uses_up : (∀ input, ¬ submitted input) → uses_up (now_tables w) (now_tables w')
}.

Lemma def_evolves_trans s1 s2 s3 : def_evolves s1 s2 → def_evolves s2 s3 → def_evolves s1 s3.
Proof.
  intros E12 E23 k r Hk. destruct (E12 _ _ Hk) as (r2 & Hr2 & ?).
  destruct (E23 _ _ Hr2) as (r3 & ? & ?). eauto using version_evolves_trans.
Qed.

#[export] Instance def_goes_on_preorder : PreOrder goes_on.
Proof.
  split.
  - intros w. split; [done|apply def_evolves_refl|done].
  - intros w1 w2 w3 [E1 V1 U1] [E2 V2 U2]. split; [by etrans|by eapply def_evolves_trans|].
    intros Hidle. etrans; eauto.
Qed.

(** *** What a version keeps *)

Lemma live_evolves r r' :
  version_evolves r r' → def_live (dr_status r) = true → def_live (dr_status r') = true.
Proof. intros [_ _ _ Hm]. by destruct Hm. Qed.

Lemma waits_evolves r r' :
  version_evolves r r' → waits_on (dr_definition r') = waits_on (dr_definition r).
Proof. intros [_ Hd _ _]. unfold waits_on. by rewrite Hd. Qed.

Lemma subscription_evolves r r' (id : Uuid) :
  version_evolves r r' →
  subscription parse_path id (dr_definition r') = subscription parse_path id (dr_definition r).
Proof.
  intros Hev. unfold subscription. rewrite (waits_evolves _ _ Hev).
  destruct Hev as [_ Hd _ _]. by rewrite Hd.
Qed.

Lemma registrable_evolves r r' :
  version_evolves r r' → registrable (dr_definition r) → registrable (dr_definition r').
Proof.
  intros Hev [Ht Hp]. split.
  - destruct (evolves_fields _ _ Hev) as (_ & _ & ->). done.
  - intros cfg p. rewrite (waits_evolves _ _ Hev). apply Hp.
Qed.

Lemma subscribed_evolves s s' id p : def_evolves s s' → subscribed s id p → subscribed s' id p.
Proof.
  intros Hev (v & r & Hr & Hl & Hsub). destruct (Hev _ _ Hr) as (r' & Hr' & He).
  exists v, r'. split_and!; [done|by eapply live_evolves|by rewrite (subscription_evolves _ _ _ He)].
Qed.

Lemma taken_later w w' def : goes_on w w' → taken w def → taken w' def.
Proof. intros [[Hs _] _ _] (c & k & r & Hc & ?). exists c, k, r. auto. Qed.

Lemma def_first_world_ok : world_ok first_world.
Proof.
  assert (∀ c, c ∈ stores first_world → c = first_conductor) as Honly.
  { intros c Hc. by apply list_elem_of_singleton in Hc. }
  split.
  - intros c ->%Honly. apply empty_def_store_ok.
  - intros c ->%Honly. apply def_evolves_refl.
  - intros k r. simpl. by rewrite lookup_empty.
  - by intros def ?%elem_of_nil.
  - exists ∅. split; [apply (default_represents parse_path)|].
    intros id p Hp. by rewrite lookup_empty in Hp.
Qed.

(** *** Steps of the world *)

(** Every row of the new tables is an old one that moved on, or registrable. *)
Definition rows_known s s' : Prop :=
  ∀ k r', workflows s' !! k = Some r' →
    (∃ r, workflows s !! k = Some r ∧ version_evolves r r') ∨ registrable (dr_definition r').

Lemma def_commit_ok w s n :
  world_ok w → sound (now_tables w) s → rows_known (now_tables w) s →
  ((∀ input, ¬ submitted input) → uses_up (now_tables w) s) →
  let w' := committed w (mkConductor s n (subscriptions (now_store w))) in
  world_ok w' ∧ goes_on w w'.
Proof.
  intros Hw Hs Hrows Huse w'. destruct (Hs (wo_store _ Hw _ (list_elem_of_here _ _))) as [Hok Hev].
  assert (goes_on w w') as Hgo.
  { split; [|done..]. split; [|done]. intros c Hc. by right. }
  split; [|done]. split.
  - intros c [->|Hc]%elem_of_cons; [done|]. by apply (wo_store _ Hw).
  - intros c [->|Hc]%elem_of_cons; [apply def_evolves_refl|].
    eapply def_evolves_trans; [|done]. by apply (wo_past _ Hw).
  - intros k r' [(r & Hr & He)|?]%Hrows; [|done]. eapply registrable_evolves; [done|].
    by eapply (wo_registrable _ Hw).
  - intros def Hd. eapply taken_later; [done|]. by apply (wo_sent _ Hw).
  - destruct (wo_index _ Hw) as (a & Ha & Hsub). exists a. split; [done|].
    intros id p Hp. eapply subscribed_evolves; [done|auto].
Qed.

Lemma def_send_ok w def b :
  world_ok w → taken w def →
  let w' := mkWorld (now_store w) (past w) (log w ++ [(def, b)]) in world_ok w' ∧ goes_on w w'.
Proof.
  intros Hw Ht w'. assert (goes_on w w') as Hgo.
  { split; [|apply def_evolves_refl|done]. split; [done|]. by eexists. }
  split; [|done]. destruct Hw as [? ? ? Hsent ?]. split; [done..| |done].
  intros d. unfold sent_messages, w'. simpl. rewrite fmap_app, elem_of_app.
  intros [Hd| ->%list_elem_of_singleton]; eapply taken_later; eauto.
Qed.

(** The index takes up a definition that has been live. *)
Lemma refresh_ok w def ok c :
  world_ok w → taken w def → refresh_index parse_path def (now_store w) = (ok, c) →
  world_ok (committed w c) ∧ goes_on w (committed w c).
Proof.
  intros Hw (c0 & [id v] & r0 & Hc0 & Hr0 & Hl0 & ->). unfold refresh_index.
  destruct (wo_past _ Hw _ Hc0 _ _ Hr0) as (r & Hr & Hev).
  pose proof (wo_store _ Hw _ Hc0) as Hok0. pose proof (do_versions _ Hok0 _ _ Hr0) as Hv0.
  destruct (wo_index _ Hw) as (a & Ha & Hsub).
  destruct (apply_represents parse_path id (dr_definition r0) _ a Ha (vo_id _ _ _ Hv0)) as (i & -> & Hi).
  { intros cfg p. rewrite <- (waits_evolves _ _ Hev). apply (wo_registrable _ Hw _ _ Hr). }
  intros [= _ <-].
  assert (goes_on w (committed w (mkConductor (now_tables w) (next_token (now_store w)) i))) as Hgo.
  { split; [|apply def_evolves_refl|done]. split; [|done]. intros c Hc. by right. }
  split; [|done]. split.
  - intros c [->|Hc]%elem_of_cons; [simpl; by apply (wo_store _ Hw), list_elem_of_here|]. by apply (wo_store _ Hw).
  - intros c [->|Hc]%elem_of_cons; [apply def_evolves_refl|]. by apply (wo_past _ Hw).
  - apply (wo_registrable _ Hw).
  - intros def Hd. eapply taken_later; [done|]. by apply (wo_sent _ Hw).
  - exists (put id (subscription parse_path id (dr_definition r0)) a). split; [done|]. intros id' p. simpl.
    destruct (decide (id = id')) as [<-|Hne]; [|rewrite put_lookup_ne by done; apply Hsub].
    rewrite put_lookup. intros Hp. exists v, r. split_and!; [done|by eapply live_evolves|].
    by rewrite (subscription_evolves _ _ _ Hev).
Qed.

(** *** What the transactions leave *)

Lemma worker_rows_known s s' :
  def_store_ok s → worker_step uuid_leb fresh_token s s' → rows_known s s'.
Proof.
  intros Hok Hs k r' Hr'. left. destruct (worker_step_keeps _ _ _ _ Hs _ _ Hr') as (r & Hr & _).
  destruct (worker_step_sound _ _ _ _ Hs Hok) as [_ Hev].
  destruct (Hev _ _ Hr) as (r1 & Hr1 & He). assert (r1 = r') as -> by congruence. eauto.
Qed.

Lemma registrable_set_version def v : registrable def → registrable (set_version def v).
Proof. intros [Ht Hp]. by split. Qed.

(** The rows a registration finds are the ones there were, and the new one. *)
Lemma register_dom s now input o s' k r' :
  register_definition s now input = Ok (o, s') → workflows s' !! k = Some r' →
  is_Some (workflows s !! k) ∨ ∃ v, dr_definition r' = set_version (reg_definition input) v.
Proof.
  unfold register_definition, parse_id.
  destruct (uuid_parse_str _) as [id|]; [|done]. simpl. destruct (task_ids _) as [ids|]; [|done]. simpl.
  destruct (decide_registration _ _) as [v|v|v|v]; [| | |intros Heq; injection Heq as _ <-; eauto].
  - intros (Hnew & _ & (Hws & _)%insert_builds_spec)%insert_version_inv. rewrite Hws. simpl.
    rewrite lookup_insert_Some. intros [[_ <-]|[_ ?]]; [right; by eexists|eauto].
  - intros Heq. injection Heq as _ <-. simpl. rewrite lookup_alter.
    case_decide; [subst|eauto]. destruct (workflows s !! (id, v)); simpl; [eauto|done].
  - destruct (requeue _ _ _) as [[ts s1]|] eqn:Hr; [|done]. simpl. intros Heq. injection Heq as _ <-.
    apply requeue_inv in Hr as (r1 & Hk1 & _ & _ & Hws & _). rewrite Hws.
    case_bool_decide; [|eauto]. rewrite lookup_insert_Some. intros [[<- _]|[_ ?]]; eauto.
Qed.

Lemma register_rows_known s now input o s' :
  def_store_ok s → submitted input → register_definition s now input = Ok (o, s') → rows_known s s'.
Proof.
  intros Hok Hsub Hreg k r' Hr'. destruct (register_dom _ _ _ _ _ _ _ Hreg Hr') as [[r Hr]|[v ->]].
  - left. destruct (register_sound uuid_leb _ _ _ _ _ Hreg Hok) as [_ Hev].
    destruct (Hev _ _ Hr) as (r1 & Hr1 & He). assert (r1 = r') as -> by congruence. eauto.
  - right. by apply registrable_set_version, Hsubmitted.
Qed.

(** A version becomes ready with the definition it had. *)
Lemma settled_ready s k t result guard at_ intent :
  (settle_def_build s k t result guard at_).1 = DefBuildSettled (DefNowReady intent) →
  ∃ r, workflows s !! k = Some r ∧ dr_status r = Def_Building ∧ intent = submission_intent k r ∧
    workflows (settle_def_build s k t result guard at_).2 = <[k := set_def_status Def_Ready at_ r]> (workflows s).
Proof.
  destruct (settle_def_cases s k t guard at_) as [(r & b & Hk & Hst & Hb & Hm)|Hn].
  - rewrite (settle_def_won _ _ _ _ _ _ r b) by done. cbv zeta.
    destruct result; [|done]. destruct (all_def_built _ _); [|done]. simpl. intros [= <-]. eauto.
  - intros Hs. exfalso. apply Hn. revert Hs. unfold settle_def_build, def_settleable.
    destruct (workflows s !! k) as [r|]; [|done]. case_bool_decide as Hst; simpl; [|done].
    destruct (update_row _ _ _ _) as [bs|] eqn:Hu.
    + intros _. apply update_row_Some in Hu as (b & Hb & Hm & _). eauto 10.
    + by destruct (def_builds s !! (k, t)) as [b|], guard as [|]; simpl; repeat case_bool_decide.
Qed.

Lemma leased_submission_row s n owner now expires limit leases st :
  lease_definition_submissions uuid_leb fresh_token s n owner now expires limit = Ok (leases, st) →
  ∀ lease, lease ∈ leases →
    ∃ k r, workflows s !! k = Some r ∧ dr_status r = Def_Ready ∧ lds_intent lease = submission_intent k r.
Proof.
  unfold lease_definition_submissions.
  destruct (validate_definition_submission_lease_request _ _ _ _); [|done]. simpl. intros Ht lease Hin.
  apply (traverse_Forall2 _ (λ kr b, lds_intent b = submission_intent kr.1 kr.2)) in Ht.
  - apply list_elem_of_lookup in Hin as [i Hi].
    destruct (Forall2_lookup_r _ _ _ _ _ Ht Hi) as ([k r] & Hkr%list_elem_of_lookup_2 & Hk).
    apply subseteq_take, elem_of_select_rows in Hkr as [Hr [Hst _]%andb_true_iff].
    apply bool_decide_eq_true in Hst. eauto.
  - intros kr [s1 m] y st' Hy. unfold lease_one_submission, ok_or in Hy.
    destruct (update_row _ _ _ _); [|done]. by injection Hy as <- _.
Qed.

Lemma live_definition_row s def :
  def ∈ live_workflow_definitions uuid_leb s →
  ∃ k r, workflows s !! k = Some r ∧ def_live (dr_status r) = true ∧ def = dr_definition r.
Proof.
  unfold live_workflow_definitions, top_rows. intros ([k r] & -> & Hin)%list_elem_of_fmap.
  rewrite elem_of_sort_by, elem_of_filter_bool, elem_of_map_to_list in Hin. destruct Hin as [Hk Ht].
  exists k, r. split_and!; [done| |done]. simpl in Ht.
  destruct (head _) as [[k' r']|] eqn:Hh; [|done]. apply bool_decide_eq_true in Ht. simpl in Ht. subst k'.
  apply head_versions_Some in Hh as (_ & Hk' & Hl & _). congruence.
Qed.

(** ** The programs *)

Abbreviation wp := (wp perform world_ok goes_on).
Abbreviation quietly := (λ _ _, True).

(** A step of a worker, or a read. *)
Definition works s s' : Prop := s' = s ∨ worker_step uuid_leb fresh_token s s'.

Lemma works_ok w s n :
  world_ok w → works (now_tables w) s →
  let w' := committed w (mkConductor s n (subscriptions (now_store w))) in world_ok w' ∧ goes_on w w'.
Proof.
  intros Hw Hs. apply def_commit_ok; [done|..]; destruct Hs as [->|Hs].
  - apply sound_refl.
  - by eapply worker_step_sound.
  - intros k r Hr. left. exists r. split; [done|apply version_evolves_refl].
  - eapply worker_rows_known; [|done]. by apply (wo_store _ Hw), list_elem_of_here.
  - done.
  - intros _. eapply worker_step_uses_up; [|done]. by apply (wo_store _ Hw), list_elem_of_here.
Qed.

Lemma wp_on_tables {X Y} (g : Z → store → X * store) (f : X → program Y) w :
  (∀ w2 now, goes_on w w2 → world_ok w2 →
     works (now_tables w2) (g now (now_tables w2)).2 ∧
     let w3 := committed w2 (mkConductor (g now (now_tables w2)).2 (next_token (now_store w2))
                               (subscriptions (now_store w2))) in
     (goes_on w w3 → world_ok w3 → wp (f (g now (now_tables w2)).1) quietly w3)) →
  wp (bind_ok (call (Transact (on_tables g))) f) quietly w.
Proof.
  intros Hok. apply wp_bind_ok_call, wp_transact; [apply _| |done].
  intros w2 now x c Hgo Hw2. unfold on_tables. destruct (Hok w2 now Hgo Hw2) as [Hs Hk].
  destruct (g now (now_tables w2)) as [y s]. simpl in *. intros [= <- <-].
  destruct (works_ok w2 s (next_token (now_store w2)) Hw2 Hs) as [Hw3 Hgo3].
  split_and!; [done..|]. apply Hk; [by etrans|done].
Qed.

Lemma wp_leasing {X Y} (g : store → nat → result (X * (store * nat)) DefinitionStoreError)
    (f : X → program Y) w :
  (∀ w2 x s n, goes_on w w2 → world_ok w2 →
     g (now_tables w2) (next_token (now_store w2)) = Ok (x, (s, n)) →
     works (now_tables w2) s ∧
     let w3 := committed w2 (mkConductor s n (subscriptions (now_store w2))) in
     (goes_on w w3 → world_ok w3 → wp (f x) quietly w3)) →
  wp (bind_ok (call (Transact (leasing g))) f) quietly w.
Proof.
  intros Hok. apply wp_bind_ok_call, wp_transact; [apply _| |done].
  intros w2 now x c Hgo Hw2. unfold leasing.
  destruct (g _ _) as [[y [s n]]|] eqn:Hg; [|done]. simpl. intros [= <- <-].
  destruct (Hok w2 y s n Hgo Hw2 Hg) as [Hs Hk].
  destruct (works_ok w2 s n Hw2 Hs) as [Hw3 Hgo3]. split_and!; [done..|]. apply Hk; [by etrans|done].
Qed.

Lemma wp_refresh {A} def (f : bool → prog await failure A) w :
  taken w def → (∀ b w2, goes_on w w2 → world_ok w2 → wp (f b) quietly w2) →
  wp (bind (call (Local (refresh_index parse_path def))) f) quietly w.
Proof.
  intros Ht Hk. apply wp_bind_call, wp_local. intros w2 b c Hgo Hw2 Hc.
  destruct (refresh_ok w2 def b c Hw2 (taken_later _ _ _ Hgo Ht) Hc) as [Hw3 Hgo3].
  split_and!; [done..|]. apply Hk; [by etrans|done].
Qed.

Lemma wp_forward {A} def (f : bool → prog await failure A) w :
  taken w def → (∀ b w2, goes_on w w2 → world_ok w2 → wp (f b) quietly w2) →
  wp (bind (call (Send def)) f) quietly w.
Proof.
  intros Ht Hk. apply wp_bind_call, wp_send. intros w2 b Hgo Hw2. simpl.
  destruct (def_send_ok w2 def b Hw2 (taken_later _ _ _ Hgo Ht)) as [Hw3 Hgo3].
  split_and!; [done..|]. apply Hk; [by etrans|done].
Qed.

Lemma register_wp input w : submitted input → wp (register input) quietly w.
Proof.
  intros Hsub. apply wp_transact; [apply _| |done]. intros w2 now o c Hgo Hw2.
  destruct (register_definition _ _ _) as [[o' s]|] eqn:Hreg; [|done]. simpl. intros [= <- <-].
  pose proof (wo_store _ Hw2 _ (list_elem_of_here _ _)) as Hok.
  destruct (def_commit_ok w2 s (next_token (now_store w2)) Hw2) as [Hw3 Hgo3]; [..|done].
  - by eapply (register_sound uuid_leb).
  - by eapply register_rows_known.
  - intros Hidle. by destruct (Hidle input).
Qed.

Lemma rebuild_wp defs n w :
  (∀ def, def ∈ defs → taken w def) → wp (rebuild parse_path defs n) quietly w.
Proof.
  revert n w. induction defs as [|def defs IH]; intros n w Hd; [done|]. simpl.
  assert (∀ w2, goes_on w w2 → ∀ d, d ∈ defs → taken w2 d) as Hlater.
  { intros w2 Hgo d Hin. eapply taken_later; [done|]. apply Hd. by right. }
  destruct (waits_on def); [|apply IH; by apply Hlater].
  apply wp_refresh; [apply Hd; by left|]. intros b w2 Hgo _. by apply IH, Hlater.
Qed.

Lemma rebuild_from_repository_wp w : wp (rebuild_from_repository parse_path uuid_leb) quietly w.
Proof.
  apply wp_on_tables. intros w2 now Hgo Hw2. split; [by left|]. intros w3 _ _. apply rebuild_wp.
  intros def (k & r & Hr & Hl & ->)%live_definition_row.
  exists (now_store w2), k, r. split_and!; [right; by left|done..].
Qed.

Lemma boot_wp w : wp (boot parse_path uuid_leb) quietly w.
Proof.
  apply wp_bind_call, wp_local. intros w2 [] c _ Hw2 [= <-].
  assert (goes_on w2 (committed w2 (mkConductor (now_tables w2) (next_token (now_store w2)) SubInner_default))) as Hgo.
  { split; [|apply def_evolves_refl|done]. split; [|done]. intros c Hc. by right. }
  split_and!; [|done|apply rebuild_from_repository_wp]. destruct Hw2 as [Hs Hp Hr Hsent _]. split; simpl.
  - intros c [->|Hc]%elem_of_cons; [simpl; by apply Hs, list_elem_of_here|by apply Hs].
  - intros c [->|Hc]%elem_of_cons; [apply def_evolves_refl|by apply Hp].
  - done.
  - intros def Hd. eapply taken_later; [done|]. by apply Hsent.
  - exists ∅. split; [apply (default_represents parse_path)|]. intros id p Hp'. by rewrite lookup_empty in Hp'.
Qed.

Lemma leased_task_wp lease w : wp (process_leased_task parse_path lease) quietly w.
Proof.
  unfold process_leased_task. apply wp_bind_call; apply wp_build; [apply _|]. intros outcome w1 _ _.
  apply wp_bind_call; apply wp_now; [apply _|]. intros now w2 _ _.
  apply wp_on_tables. intros w3 now3 _ Hw3. unfold settle_leased_definition_task_build.
  split; [right; apply step_settle_build|]. intros _ _.
  destruct (settle_def_build _ _ _ _ _ _).1 as [[|intent| | | |]|] eqn:Hs; try done.
  destruct (settled_ready _ _ _ _ _ _ _ Hs) as (r & Hr & Hst & -> & Hws).
  apply wp_refresh; [|done]. eexists _, _, _.
  split_and!; [by left|simpl; rewrite Hws; apply lookup_insert_eq|done|done].
Qed.

Lemma def_scan_builds_wp owner duration batch w :
  wp (scan_definition_builds parse_path uuid_leb fresh_token owner duration batch) quietly w.
Proof.
  unfold scan_definition_builds. apply wp_bind_call; apply wp_now; [apply _|]. intros now w1 _ _.
  apply wp_on_tables. intros w2 now2 _ _. split; [by left|]. intros w3 _ Hw3. simpl.
  apply wp_bind; [apply _| |done]. eapply wp_mono with (Q := quietly); [apply _| |].
  - intros [] w4 _ _ _; [|done]. apply wp_leasing. intros w5 leases s n _ _ Hl.
    split; [right; by econstructor|]. intros w6 _ _. apply wp_join. split; [|done]. apply Forall_forall.
    intros q (lease & -> & _)%list_elem_of_fmap. apply leased_task_wp.
  - destruct (has_reclaimable_definition_build _ _ _); [|done]. by apply wp_claims_open; [apply _|].
Qed.

Lemma leased_submission_wp lease w :
  taken w (dsi_definition (lds_intent lease)) → wp (process_leased_submission lease) quietly w.
Proof.
  intros Ht. apply wp_forward; [done|]. intros [] w2 _ _; [|done].
  apply wp_bind_call; apply wp_now; [apply _|]. intros now w3 _ _.
  apply wp_on_tables. intros w4 now4 _ _. split; [right; apply step_settle_leased_submission|done].
Qed.

Lemma each_submission_wp leases w :
  world_ok w → (∀ lease, lease ∈ leases → taken w (dsi_definition (lds_intent lease))) →
  wp (each_submission leases) quietly w.
Proof.
  revert w. induction leases as [|lease leases IH]; intros w Hw Ht; [done|]. simpl each_submission.
  apply wp_bind_ok; [apply _| |done]. eapply wp_mono; [apply _| |by apply leased_submission_wp, Ht; left].
  intros [[]|e] w2 Hgo Hw2 _; [|done]. apply IH; [done|]. intros lease' Hin.
  eapply taken_later; [done|]. apply Ht. by right.
Qed.

Lemma scan_submissions_wp owner duration batch w :
  wp (scan_submissions uuid_leb fresh_token owner duration batch) quietly w.
Proof.
  unfold scan_submissions. apply wp_bind_call; apply wp_now; [apply _|]. intros now w1 _ _.
  apply wp_on_tables. intros w2 now2 _ _. split; [by left|]. intros w3 _ Hw3. simpl.
  apply wp_bind; [apply _| |done]. eapply wp_mono with (Q := quietly); [apply _| |].
  - intros [] w4 _ _ _; [|done]. apply wp_leasing. intros w5 leases s n _ _ Hl.
    split; [right; by econstructor|]. intros w6 _ Hw6. apply each_submission_wp; [done|].
    intros lease Hin. destruct (leased_submission_row _ _ _ _ _ _ _ _ Hl _ Hin) as (k & r & Hr & Hst & Hi).
    exists (now_store w5), k, r. split_and!; [right; by left|done|by rewrite Hst|by rewrite Hi].
  - destruct (has_reclaimable_definition_submission _ _ _); [|done]. by apply wp_claims_open; [apply _|].
Qed.

Lemma scan_loop_wp (scan : program unit) wakes w :
  (∀ w, wp scan quietly w) → world_ok w → wp (scan_loop scan wakes) quietly w.
Proof.
  intros Hscan. revert w. induction wakes as [|wake wakes IH]; intros w Hw; [done|].
  assert (wp (bind_ok scan (λ _, scan_loop scan wakes)) quietly w) as Hgo.
  { apply wp_bind_ok; [apply _| |done]. eapply wp_mono; [apply _| |apply Hscan].
    intros [[]|e] w2 _ Hw2 _; [|done]. by apply IH. }
  by destruct wake.
Qed.

Lemma def_worker_wp (scan : program unit) wakes w :
  (∀ w, wp scan quietly w) → world_ok w → wp (let*? _ := scan in scan_loop scan wakes) quietly w.
Proof. intros Hscan Hw. by apply (scan_loop_wp scan (Wake_Tick :: wakes) w). Qed.

Lemma then_answer_wp {A} (f : result A failure → DefinitionAnswer) (p : program A) w :
  world_ok w → wp p quietly w → wp (then_answer f p) quietly w.
Proof.
  intros Hw Hp. apply wp_bind; [apply _| |done]. eapply wp_mono; [apply _| |done]. done.
Qed.

Lemma def_started_wp w p : world_ok w → may_start w p → wp p quietly w.
Proof.
  intros Hw Hs. destruct Hs as [input Hsub| |owner config wakes p Hp|owner config wakes p Hp];
    apply then_answer_wp; try done.
  - by apply register_wp.
  - apply boot_wp.
  - unfold start_local_definition_build_worker in Hp. destruct (check_worker_config config); [|done].
    simpl in Hp. injection Hp as <-. apply def_worker_wp; [intros; apply def_scan_builds_wp|done].
  - unfold start_local_definition_submission_worker in Hp. destruct (check_worker_config config); [|done].
    simpl in Hp. injection Hp as <-. apply def_worker_wp; [intros; apply scan_submissions_wp|done].
Qed.

Lemma def_pool_reachable_ok p : def_pool_reachable p → world_ok (world p).
Proof.
  intros Hr. eapply (pool_run_ok perform world_ok goes_on may_start quietly def_started_wp _ _ Hr).
  split; [apply def_first_world_ok|]. intros t q Hq. simpl in Hq. by rewrite lookup_empty in Hq.
Qed.

(** ** What is delivered *)

(** C11: a definition is forwarded only when the builds of its version have all
    succeeded, whatever threads run and however they interleave, fail or are cut
    off: the version is in the tables, live, with the content that was forwarded,
    and only its labels may have been refreshed since. *)
Theorem forwards_built p def :
  def_pool_reachable p → def ∈ sent_messages (world p) →
  ∃ k r, workflows (tables (now_store (world p))) !! k = Some r ∧ def_live (dr_status r) = true ∧
    dr_definition r = patch_cosmetics def (dr_definition r) ∧
    uuid_parse_str (def_id def) = Some k.1 ∧ def_version def = k.2 ∧
    ∀ t b, def_builds (tables (now_store (world p))) !! (k, t) = Some b → b_status b = build_success.
Proof.
  intros Hw%def_pool_reachable_ok Hd. destruct (wo_sent _ Hw _ Hd) as (c & k & r0 & Hc & Hr0 & Hl & ->).
  destruct (wo_past _ Hw _ Hc _ _ Hr0) as (r & Hr & Hev). exists k, r.
  pose proof (do_versions _ (wo_store _ Hw _ Hc) _ _ Hr0) as Hv0.
  pose proof (do_versions _ (wo_store _ Hw _ (list_elem_of_here _ _)) _ _ Hr) as Hv.
  pose proof (live_evolves _ _ Hev Hl) as Hlive.
  split_and!; [done..|apply Hev|by eapply vo_id|by eapply vo_version|]. intros t b Hb.
  pose proof (vo_phase _ _ _ Hv) as Hph.
  assert (∀ t st, bst (def_builds (now_tables (world p))) k t = Some st → st = build_success) as Hall
    by by destruct (dr_status r); destruct Hph.
  apply (Hall t). unfold bst. by rewrite Hb.
Qed.

(** C12: the index holds only subscriptions of live versions: an entry that a lookup
    returns is what the trigger, the captures and the predicate of a ready or
    submitted version of that workflow ask for, at any moment of any run. *)
Theorem subscriptions_live p name en :
  def_pool_reachable p → en ∈ sub_lookup name (subscriptions (now_store (world p))) →
  ∃ v r, workflows (tables (now_store (world p))) !! (sub_workflow_id en, v) = Some r ∧
    def_live (dr_status r) = true ∧
    subscription parse_path (sub_workflow_id en) (dr_definition r) = Some (name, en).
Proof.
  intros Hw%def_pool_reachable_ok Hen. destruct (wo_index _ Hw) as (a & Ha & Hsub).
  apply Hsub, (rp_entry _ _ Ha), Hen.
Qed.
End delivery.

(** ** A run

    A workflow that waits on a signal is registered, built and forwarded. *)

Definition waiting_definition (signal : string) : WorkflowDefinition :=
  mkWorkflowDefinition (uuid_to_string (unary 5)) "" "default" "etl" "etl" 0
    [mkTaskDefinition (uuid_to_string (unary 1)) "" "load" 0 "load" [] [] [] [] 3 None None [] [] false]
    None (Some (mkTrigger (Some (Trigger_WaitsOnSignal (mkWaitsOnSignalConfig signal None [])))))
    0 [] None ∅.

Definition waiting_registration (signal : string) : DefinitionRegistrationInput :=
  mkDefinitionRegistrationInput (waiting_definition signal) signal "etl" "source".

(** The demo has no predicates to parse. *)
Definition no_path (_ : string) : option unit := None.

Definition waiting_submitted (input : DefinitionRegistrationInput) : Prop :=
  ∃ signal, input = waiting_registration signal.

Lemma waiting_registrable input :
  waiting_submitted input → registrable (Uuid := bit_uuid) no_path (reg_definition input).
Proof.
  intros [signal ->]. split.
  - intros task t ->%list_elem_of_singleton Hp. cbn [task_id] in *.
    rewrite uuid_parse_to_string in Hp. by injection Hp as <-.
  - intros cfg p [= <-]. done.
Qed.

Abbreviation demo_conductor := (Conductor (Uuid := bit_uuid) (JsonPath := unit)).
Abbreviation demo_def_program :=
  (prog (Await demo_conductor WorkflowDefinition DefinitionStoreError bit_uuid)
     (RepositoryError DefinitionStoreError) (DefinitionAnswer (Uuid := bit_uuid))).
Abbreviation demo_def_pool :=
  (Pool (Op := Await demo_conductor WorkflowDefinition DefinitionStoreError bit_uuid)
     (E := RepositoryError DefinitionStoreError) (World := World demo_conductor WorkflowDefinition)
     (DefinitionAnswer (Uuid := bit_uuid))).
Abbreviation demo_def_runs := (def_runs no_path def_leb unary waiting_submitted).

Definition builder : demo_def_program :=
  let scan := scan_definition_builds no_path def_leb unary "builder" 600 8 in
  then_answer D_Worked (let*? _ := scan in scan_loop scan []).
Definition forwarder : demo_def_program :=
  let scan := scan_submissions def_leb unary "forwarder" 30 16 in
  then_answer D_Worked (let*? _ := scan in scan_loop scan []).

Lemma builder_starts w : may_start no_path def_leb unary waiting_submitted w builder.
Proof. by apply (start_build_worker _ _ _ _ _ "builder" (mkWorkerConfig 5 600 8) []). Qed.

Lemma forwarder_starts w : may_start no_path def_leb unary waiting_submitted w forwarder.
Proof. by apply (start_submission_worker _ _ _ _ _ "forwarder" (mkWorkerConfig 5 30 16) []). Qed.

Definition demo_registered : demo_def_pool :=
  finished perform (mkPool ∅ first_world) 0
    (then_answer D_Registered (register (waiting_registration "arrived"))) (working 1).
Definition demo_built : demo_def_pool := finished perform demo_registered 1 builder (working 2).
Definition demo_forwarded : demo_def_pool := finished perform demo_built 2 forwarder (working 3).

Lemma demo_registered_reachable :
  def_pool_reachable no_path def_leb unary waiting_submitted demo_registered.
Proof. apply pool_runs; [vm_compute; reflexivity|]. constructor. by exists "arrived". Qed.

Lemma finished_reachable (p : demo_def_pool) t q o :
  def_pool_reachable no_path def_leb unary waiting_submitted p → threads p !! t = None →
  may_start no_path def_leb unary waiting_submitted (world p) q →
  def_pool_reachable no_path def_leb unary waiting_submitted (finished perform p t q o).
Proof.
  unfold def_pool_reachable, def_runs, pool_run. intros Hp Ht Hq. etrans; [exact Hp|].
  by apply pool_runs.
Qed.

Lemma demo_built_reachable : def_pool_reachable no_path def_leb unary waiting_submitted demo_built.
Proof.
  apply finished_reachable; [exact demo_registered_reachable|vm_compute; reflexivity|apply builder_starts].
Qed.

Lemma demo_forwarded_reachable :
  def_pool_reachable no_path def_leb unary waiting_submitted demo_forwarded.
Proof.
  apply finished_reachable; [exact demo_built_reachable|vm_compute; reflexivity|apply forwarder_starts].
Qed.

Lemma forwards_built_witness :
  ∃ k r, workflows (tables (now_store (world demo_forwarded))) !! k = Some r ∧
    def_live (dr_status r) = true ∧
    dr_definition r = patch_cosmetics (set_version (waiting_definition "arrived") 1) (dr_definition r) ∧
    uuid_parse_str (def_id (waiting_definition "arrived")) = Some k.1 ∧ 1%Z = k.2 ∧
    ∀ t b, def_builds (tables (now_store (world demo_forwarded))) !! (k, t) = Some b →
           b_status b = build_success.
Proof.
  refine (forwards_built no_path def_leb unary waiting_submitted waiting_registrable demo_forwarded
            (set_version (waiting_definition "arrived") 1) demo_forwarded_reachable _).
  vm_compute. left.
Defined.

Lemma subscriptions_live_witness :
  ∃ v r, workflows (tables (now_store (world demo_forwarded))) !! (unary 5, v) = Some r ∧
    def_live (dr_status r) = true ∧
    subscription no_path (unary 5) (dr_definition r) = Some ("arrived", mkSubEntry (unary 5) None []).
Proof.
  refine (subscriptions_live no_path def_leb unary waiting_submitted waiting_registrable demo_forwarded
            "arrived" (mkSubEntry (unary 5) None []) demo_forwarded_reachable _).
  vm_compute. left.
Defined.
