(* ===== verification/SubscriptionTracking.v ===== *)
(** * The index against the tables

    What [waits_on_signal_lifecycle.rs] is for: the index is to hold, for every
    workflow, the subscription of its highest live version.  A rebuild gives
    exactly that, and so does the refresh after a build, when the versions of a
    workflow become ready in their order; a run in which they do not leaves the
    older version's subscription in force. *)

From S2P Require Import Prelude Workflow Uuid Leases Captures SubscriptionIndex Programs Workers DefinitionStore DefinitionStoreFacts DefinitionLifecycle DefinitionWorkers DefinitionDelivery.

Section tracking.
Context `{UuidOps Uuid} `{!UuidLaws Uuid} `{!Countable Uuid}.
Context {JsonPath : Type} (parse_path : string → option JsonPath).
Context (uuid_leb : Uuid → Uuid → bool).

Abbreviation store := (DefinitionStore (Uuid := Uuid)).
Abbreviation conductor := (Conductor (Uuid := Uuid) (JsonPath := JsonPath)).
Abbreviation def_run :=
  (run (Env := Outside) (perform (St := conductor) (M := WorkflowDefinition) (SE := DefinitionStoreError) (Uuid := Uuid))).
Implicit Types (s : store) (def : WorkflowDefinition) (c : conductor) (w : World conductor WorkflowDefinition).

(** The subscription of the highest live version. *)
Definition live_subscription s (id : Uuid) : option (string * SubEntry (Uuid := Uuid) (JsonPath := JsonPath)) :=
  live_workflow_definition s id ≫= subscription parse_path id.

Definition agrees c : Prop :=
  ∃ a, represents (subscriptions c) a ∧ ∀ id, a !! id = live_subscription (tables c) id.

(** So a lookup returns the workflows that are to be woken, and no others. *)
Lemma agrees_lookup c name en :
  agrees c → en ∈ sub_lookup name (subscriptions c) ↔
             live_subscription (tables c) (sub_workflow_id en) = Some (name, en).
Proof. intros (a & Ha & Hlive). rewrite <- Hlive. apply (rp_entry _ _ Ha). Qed.

(** ** The rebuild *)

Lemma top_row_live s id k r :
  head (versions_of s (λ r, def_live (dr_status r)) id) = Some (k, r) →
  live_workflow_definition s id = Some (dr_definition r).
Proof. intros Hh. unfold live_workflow_definition. by rewrite Hh. Qed.

Lemma elem_of_live_definitions s def :
  def ∈ live_workflow_definitions uuid_leb s ↔ ∃ id, live_workflow_definition s id = Some def.
Proof.
  unfold live_workflow_definitions, top_rows. rewrite list_elem_of_fmap. split.
  - intros ([k r] & -> & Hin). rewrite elem_of_sort_by, elem_of_filter_bool, elem_of_map_to_list in Hin.
    destruct Hin as [Hk Ht]. simpl in Ht. exists k.1.
    destruct (head _) as [[k' r']|] eqn:Hh; [|done]. apply bool_decide_eq_true in Ht. simpl in Ht. subst k'.
    rewrite (top_row_live _ _ _ _ Hh). apply head_versions_Some in Hh as (_ & Hk' & _). simpl. congruence.
  - intros [id Hd]. unfold live_workflow_definition in Hd.
    destruct (head _) as [[k r]|] eqn:Hh; [|done]. simpl in Hd. injection Hd as <-.
    exists (k, r). split; [done|]. rewrite elem_of_sort_by, elem_of_filter_bool, elem_of_map_to_list.
    pose proof (head_versions_Some _ _ _ _ _ Hh) as (Hid & Hk & _). split; [done|]. simpl. rewrite Hid, Hh.
    by rewrite bool_decide_eq_true_2.
Qed.

(** The rows of the tables, as registration leaves them. *)
Record rows_ok s : Prop := {
  ro_store : def_store_ok s;
  ro_predicates : ∀ k r, workflows s !! k = Some r → predicate_parses parse_path (dr_definition r)
}.

Lemma live_row s id def :
  rows_ok s → live_workflow_definition s id = Some def →
  uuid_parse_str (def_id def) = Some id ∧ predicate_parses parse_path def.
Proof.
  intros [Hok Hp] Hd. unfold live_workflow_definition in Hd.
  destruct (head _) as [[k r]|] eqn:Hh; [|done]. simpl in Hd. injection Hd as <-.
  apply head_versions_Some in Hh as (<- & Hk & _). split; [|by eapply Hp].
  apply (vo_id _ _ _ (do_versions _ Hok _ _ Hk)).
Qed.

(** Nothing in the index is wrong so far. *)
Definition subset_of_live s (a : gmap Uuid (string * SubEntry (Uuid := Uuid) (JsonPath := JsonPath))) : Prop :=
  ∀ id p, a !! id = Some p → live_subscription s id = Some p.

Lemma put_live s a id id' :
  subset_of_live s a → subset_of_live s (put id' (live_subscription s id') a) ∧
  (a !! id = live_subscription s id → put id' (live_subscription s id') a !! id = live_subscription s id).
Proof.
  intros Ha. split.
  - intros i p. destruct (decide (id' = i)) as [<-|Hne]; [by rewrite put_lookup|].
    rewrite put_lookup_ne by done. apply Ha.
  - destruct (decide (id' = id)) as [<-|Hne]; [by rewrite put_lookup|by rewrite put_lookup_ne].
Qed.

Lemma rebuild_tracks defs : ∀ n now w a,
  let s := tables (now_store w) in
  rows_ok s → represents (subscriptions (now_store w)) a → subset_of_live s a →
  (∀ def, def ∈ defs → ∃ id, live_workflow_definition s id = Some def) →
  let '(r, w') := def_run (rebuild parse_path defs n) (working now) w in
  ∃ a', r = Ok (n + length (filter (λ def, is_Some (waits_on def)) defs)) ∧
    tables (now_store w') = s ∧ represents (subscriptions (now_store w')) a' ∧ subset_of_live s a' ∧
    (∀ id, a !! id = live_subscription s id → a' !! id = live_subscription s id) ∧
    (∀ def id, def ∈ defs → live_workflow_definition s id = Some def → a' !! id = live_subscription s id).
Proof.
  induction defs as [|def defs IH]; intros n now w a s Hok Ha Hsub Hl; cbn [rebuild].
  { simpl. exists a. split_and!; [f_equal; simpl; lia|done..|]. by intros def id ?%elem_of_nil. }
  destruct (Hl def (list_elem_of_here _ _)) as (id & Hlive).
  assert (∀ d, d ∈ defs → ∃ id, live_workflow_definition s id = Some d) as Hl' by (intros d Hd; apply Hl; by right).
  destruct (live_row _ _ _ Hok Hlive) as [Hid Hp].
  assert (∀ id', live_workflow_definition s id' = Some def →
            id' = id ∧ subscription parse_path id def = live_subscription s id) as Hsame.
  { intros id' Hd. destruct (live_row _ _ _ Hok Hd) as [Hid' _]. split; [congruence|].
    unfold live_subscription. by rewrite Hlive. }
  destruct (waits_on def) as [cfg|] eqn:Hw.
  - destruct (apply_represents parse_path id def _ a Ha Hid Hp) as (i & Hi & Hri).
    rewrite run_bind. simpl run at 1. unfold refresh_index. rewrite Hi. cbv beta iota.
    rewrite (proj2 (Hsame id Hlive)) in Hri. destruct (put_live _ a id id Hsub) as [Hsub' _].
    specialize (IH (S n) now (committed w (mkConductor s (next_token (now_store w)) i)) _ Hok Hri Hsub' Hl').
    destruct (def_run _ _ _) as [r w']. destruct IH as (a' & -> & Ht & Hr' & Hs' & Hkeep & Hall).
    exists a'. split_and!; [|done..| |].
    + rewrite filter_cons_True by (rewrite Hw; eauto). f_equal. simpl. lia.
    + intros id' Hid'. apply Hkeep. by apply put_live.
    + intros d id' [->|Hd]%elem_of_cons Hd'; [|by eapply Hall]. apply Hkeep.
      destruct (Hsame _ Hd') as [-> _]. apply put_lookup.
  - specialize (IH n now w a Hok Ha Hsub Hl').
    destruct (def_run _ _ _) as [r w']. destruct IH as (a' & -> & Ht & Hr' & Hs' & Hkeep & Hall).
    exists a'. split_and!; [|done..|].
    + by rewrite filter_cons_False by (rewrite Hw; apply is_Some_None).
    + intros d id' [->|Hd]%elem_of_cons Hd'; [|by eapply Hall].
      destruct (a' !! id') as [p|] eqn:Ha'; [by apply Hs' in Ha'|].
      unfold live_subscription. rewrite Hd'. simpl. unfold subscription. by rewrite Hw.
Qed.

(** A rebuild at startup gives exactly the subscriptions that are to be in force:
    for every workflow that of its highest live version, if that version waits on a
    signal, and it counts them. *)
Theorem rebuild_correct now w :
  rows_ok (tables (now_store w)) → subscriptions (now_store w) = SubInner_default →
  let '(r, w') := def_run (rebuild_from_repository parse_path uuid_leb) (working now) w in
  r = Ok (length (filter (λ def, is_Some (waits_on def))
                    (live_workflow_definitions uuid_leb (tables (now_store w))))) ∧
  tables (now_store w') = tables (now_store w) ∧ agrees (now_store w').
Proof.
  intros Hok Hempty. unfold rebuild_from_repository. rewrite run_transact. unfold on_tables.
  set (w1 := committed w _).
  pose proof (rebuild_tracks (live_workflow_definitions uuid_leb (tables (now_store w))) 0 now w1 ∅ Hok) as Hr.
  destruct (def_run _ _ _) as [r w']. destruct Hr as (a & -> & Ht & Ha & Hsub & _ & Hall).
  - simpl. rewrite Hempty. apply (default_represents parse_path).
  - intros id p Hp. by rewrite lookup_empty in Hp.
  - intros def Hd. by apply elem_of_live_definitions in Hd.
  - split_and!; [done..|]. exists a. split; [done|]. intros id. rewrite Ht.
    destruct (live_subscription (tables (now_store w)) id) as [p|] eqn:Hl.
    + unfold live_subscription in Hl. destruct (live_workflow_definition _ id) as [def|] eqn:Hd; [|done].
      rewrite (Hall def id); [|apply elem_of_live_definitions; eauto|exact Hd].
      unfold live_subscription. simpl. by rewrite Hd.
    + destruct (a !! id) as [p|] eqn:Hp; [|done]. apply Hsub in Hp. simpl in Hp. congruence.
Qed.

(** ** The refresh after a build *)

(** The first live row of a workflow depends on its own rows only. *)
Lemma live_definition_local s s' id :
  (∀ v, workflows s' !! (id, v) = workflows s !! (id, v)) →
  live_workflow_definition s' id = live_workflow_definition s id.
Proof.
  intros Heq. unfold live_workflow_definition.
  destruct (head (versions_of s _ id)) as [[[id' v] r]|] eqn:Hh.
  - apply head_versions_Some in Hh as (Hid & Hv & Hl & Hmax). simpl in *. subst id'.
    rewrite (head_versions_intro s' _ id v r); [done|by rewrite Heq|done|].
    intros v' r'. rewrite Heq. apply Hmax.
  - rewrite (proj2 (head_versions_None s' _ id)); [done|]. intros v r. rewrite Heq.
    apply (proj1 (head_versions_None s _ id) Hh).
Qed.

Lemma live_definition_ready s k t result guard at_ intent id :
  (settle_def_build s k t result guard at_).1 = DefBuildSettled (DefNowReady intent) →
  (∀ v r, workflows s !! (k.1, v) = Some r → def_live (dr_status r) = true → (v <= k.2)%Z) →
  live_workflow_definition (settle_def_build s k t result guard at_).2 id =
  if decide (id = k.1) then Some (dsi_definition intent) else live_workflow_definition s id.
Proof.
  intros (r & Hr & Hst & -> & Hws)%settled_ready Hmax. destruct k as [id0 v0]. simpl in *.
  case_decide as Hid; [subst id0|].
  - unfold live_workflow_definition. rewrite (head_versions_intro _ _ id v0 (set_def_status Def_Ready at_ r));
      [done|by rewrite Hws, lookup_insert_eq|done|].
    intros v' r'. rewrite Hws, lookup_insert_Some. intros [[[= <-] _]|[_ Hr']] Hl; [lia|]. by eapply Hmax.
  - apply live_definition_local. intros v. rewrite Hws, lookup_insert_ne by congruence. done.
Qed.

(** A refresh after a build keeps the index in step with the tables, as long as
    the versions of a workflow become ready in their order: no higher version of it
    is live yet. *)
Theorem refresh_in_order c k t result guard at_ intent :
  rows_ok (tables c) → agrees c →
  (settle_def_build (tables c) k t result guard at_).1 = DefBuildSettled (DefNowReady intent) →
  (∀ v r, workflows (tables c) !! (k.1, v) = Some r → def_live (dr_status r) = true → (v <= k.2)%Z) →
  agrees (refresh_index parse_path (dsi_definition intent)
            (mkConductor (settle_def_build (tables c) k t result guard at_).2 (next_token c)
               (subscriptions c))).2.
Proof.
  intros [Hok Hpred] (a & Ha & Hlive) Hs Hmax.
  pose proof (settled_ready _ _ _ _ _ _ _ Hs) as (r & Hr & _ & Hi & _).
  assert (dsi_definition intent = dr_definition r) as Hdef by by rewrite Hi.
  pose proof (vo_id _ _ _ (do_versions _ Hok _ _ Hr)) as Hid. rewrite <- Hdef in Hid.
  destruct (apply_represents parse_path k.1 (dsi_definition intent) (subscriptions c) a Ha Hid)
    as (i & Hi' & Hri); [rewrite Hdef; by eapply Hpred|].
  unfold refresh_index. cbn [subscriptions]. rewrite Hi'. simpl. eexists. split; [exact Hri|]. intros id. simpl.
  unfold live_subscription. rewrite (live_definition_ready _ _ _ _ _ _ _ id Hs Hmax).
  case_decide as Heq; [subst id; by rewrite put_lookup|]. rewrite put_lookup_ne by done. apply Hlive.
Qed.
End tracking.

(** ** Runs *)

Lemma demo_rows_ok (p : demo_def_pool) :
  def_pool_reachable no_path def_leb unary waiting_submitted p →
  rows_ok no_path (tables (now_store (world p))).
Proof.
  intros Hw%(def_pool_reachable_ok _ _ _ _ waiting_registrable). split.
  - apply (wo_store _ _ Hw), list_elem_of_here.
  - intros k r Hr. apply (wo_registrable _ _ Hw _ _ Hr).
Qed.

(** A process that starts on the tables of [demo_built]. *)
Definition demo_restarted : World demo_conductor WorkflowDefinition :=
  mkWorld (mkConductor (tables (now_store (world demo_built))) 1 SubInner_default) [] [].

Lemma rebuild_correct_witness :
  let '(r, w') := run perform (rebuild_from_repository no_path def_leb) (working 9) demo_restarted in
  r = Ok 1 ∧ tables (now_store w') = tables (now_store demo_restarted) ∧ agrees no_path (now_store w').
Proof.
  refine (rebuild_correct no_path def_leb 9 demo_restarted _ eq_refl).
  exact (demo_rows_ok demo_built demo_built_reachable).
Defined.

Lemma replay_reachable (p p' : demo_def_pool) t q schedule :
  def_pool_reachable no_path def_leb unary waiting_submitted p → threads p !! t = None →
  may_start no_path def_leb unary waiting_submitted (world p) q →
  replay perform schedule (mkPool (<[t := q]> (threads p)) (world p)) = Some p' →
  def_pool_reachable no_path def_leb unary waiting_submitted p'.
Proof.
  unfold def_pool_reachable, def_runs, pool_run. intros Hp Ht Hq Hr. etrans; [exact Hp|].
  eapply rtc_l; [by apply (step_start _ _ p t q)|]. by eapply replay_run.
Qed.

(** A scan has leased the build of the workflow. *)
Definition demo_leased : demo_def_pool :=
  default demo_registered
    (replay perform (replicate 4 (1, [], working 2))
       (mkPool (<[1 := builder]> (threads demo_registered)) (world demo_registered))).

Lemma demo_leased_reachable : def_pool_reachable no_path def_leb unary waiting_submitted demo_leased.
Proof.
  unfold demo_leased. destruct (replay _ _ _) as [p|] eqn:Hr; [|exact demo_registered_reachable].
  eapply (replay_reachable demo_registered p 1 builder); [exact demo_registered_reachable| |apply builder_starts|exact Hr].
  vm_compute. reflexivity.
Qed.

Abbreviation leased_tables := (tables (now_store (world demo_leased))).

Lemma demo_leased_not_live : map_Forall (λ _ r, def_live (dr_status r) = false) (workflows leased_tables).
Proof. apply (bool_decide_unpack _). vm_compute. reflexivity. Qed.

Lemma demo_leased_agrees : agrees no_path (mkConductor leased_tables 1 SubInner_default).
Proof.
  exists ∅. split; [apply (default_represents no_path)|]. intros id. rewrite lookup_empty.
  unfold live_subscription, live_workflow_definition. simpl.
  rewrite (proj2 (head_versions_None _ _ id)); [done|]. intros v r. apply demo_leased_not_live.
Qed.

Lemma refresh_in_order_witness :
  agrees no_path
    (refresh_index no_path (set_version (waiting_definition "arrived") 1)
       (mkConductor (settle_def_build leased_tables (unary 5, 1%Z) (unary 1) DefTaskSuccess
                       (Some ("builder", unary 0)) 3).2 1 SubInner_default)).2.
Proof.
  refine (refresh_in_order no_path (mkConductor leased_tables 1 SubInner_default) (unary 5, 1%Z) (unary 1)
            DefTaskSuccess (Some ("builder", unary 0)) 3
            (mkDefinitionSubmissionIntent (unary 5) 1 (set_version (waiting_definition "arrived") 1))
            (demo_rows_ok demo_leased demo_leased_reachable) demo_leased_agrees _ _).
  - vm_compute. reflexivity.
  - intros v r Hr Hl. rewrite (demo_leased_not_live _ _ Hr) in Hl. discriminate Hl.
Defined.

(** *** Builds that overtake each other *)

(** Two versions of the workflow are registered before either is built, the first
    waiting on one signal, the second on another. *)
Definition demo_first : demo_def_pool :=
  finished perform (mkPool ∅ first_world) 0
    (then_answer D_Registered (register (waiting_registration "first"))) (working 1).
Definition demo_second : demo_def_pool :=
  finished perform demo_first 1
    (then_answer D_Registered (register (waiting_registration "second"))) (working 2).

(** One scan leases both builds; that of the second version ends first. *)
Definition demo_overtaken : demo_def_pool :=
  default demo_second
    (replay perform
       (replicate 4 (2, [], working 3) ++ replicate 4 (2, [1], working 4) ++
        replicate 4 (2, [0], working 5) ++ [(2, [], working 6)])
       (mkPool (<[2 := builder]> (threads demo_second)) (world demo_second))).

Lemma demo_overtaken_reachable :
  def_pool_reachable no_path def_leb unary waiting_submitted demo_overtaken.
Proof.
  assert (def_pool_reachable no_path def_leb unary waiting_submitted demo_second) as Hsecond.
  { apply finished_reachable; [|vm_compute; reflexivity|constructor; by exists "second"].
    apply pool_runs; [vm_compute; reflexivity|constructor; by exists "first"]. }
  unfold demo_overtaken. destruct (replay _ _ _) as [p|] eqn:Hr; [|exact Hsecond].
  eapply (replay_reachable demo_second p 2 builder); [exact Hsecond| |apply builder_starts|exact Hr].
  vm_compute. reflexivity.
Qed.

Definition is_ret {Op E A} (p : prog Op E A) : bool := match p with Ret _ => true | _ => false end.

(** The workers are done and the second version is live, yet the index keeps the
    signal of the first one: a wakeup under the new name finds no subscriber, until
    a restart rebuilds the index. *)
Lemma overtaken_subscription_stale :
  def_pool_reachable no_path def_leb unary waiting_submitted demo_overtaken ∧
  map_Forall (λ _ q, is_ret q = true) (threads demo_overtaken) ∧
  live_subscription no_path (tables (now_store (world demo_overtaken))) (unary 5) =
    Some ("second", mkSubEntry (unary 5) None []) ∧
  sub_lookup "second" (subscriptions (now_store (world demo_overtaken))) = [] ∧
  sub_lookup "first" (subscriptions (now_store (world demo_overtaken))) = [mkSubEntry (unary 5) None []].
Proof.
  split; [exact demo_overtaken_reachable|].
  split; [apply (bool_decide_unpack _); vm_compute; reflexivity|].
  split; [|split]; vm_compute; reflexivity.
Qed.
