(* ===== verification/DefinitionSettlement.v ===== *)
(** * Every version is forwarded

    The two definition workers make progress: in a world that works (transactions
    commit, the relay takes definitions, builds succeed) a bounded number of scans
    forwards every version that has tasks and none of whose builds has failed, from
    any state the pipeline can have got into.  Each pair of scans that starts after
    the outstanding leases have run out finishes a build or forwards a version. *)

From S2P Require Import Prelude Workflow Uuid ParserTypes Leases Captures SubscriptionIndex Validators Builder BuilderFacts Programs Workers DefinitionStore DefinitionStoreFacts DefinitionLifecycle RegisterPipeline DefinitionWorkers DefinitionDelivery.

Section settlement.
Context `{UuidOps Uuid} `{!UuidLaws Uuid} `{!Countable Uuid}.
Context {JsonPath : Type} (parse_path : string → option JsonPath).
Context (uuid_leb : Uuid → Uuid → bool) (fresh_token : nat → Uuid).
Context (builder forwarder : string) (build_config forward_config : WorkerConfig).

Abbreviation store := (DefinitionStore (Uuid := Uuid)).
Abbreviation row := (DefinitionRow Uuid).
Abbreviation failure := (RepositoryError DefinitionStoreError).
Abbreviation conductor := (Conductor (Uuid := Uuid) (JsonPath := JsonPath)).
Abbreviation def_world := (World conductor WorkflowDefinition).
Abbreviation def_run :=
  (run (Env := Outside) (perform (St := conductor) (M := WorkflowDefinition) (SE := DefinitionStoreError) (Uuid := Uuid))).
Abbreviation program A := (prog (Await conductor WorkflowDefinition DefinitionStoreError Uuid) failure (result A failure)).
Abbreviation now_tables w := (tables (now_store w)).
Implicit Types (w : def_world) (s : store) (r : row) (c : conductor).

(** ** Rounds *)

Definition build_scan : program unit :=
  scan_definition_builds parse_path uuid_leb fresh_token builder (wc_lease_duration build_config)
    (wc_batch_size build_config).
Definition forward_scan : program unit :=
  scan_submissions uuid_leb fresh_token forwarder (wc_lease_duration forward_config)
    (wc_batch_size forward_config).

Definition def_round w (now : Z) : def_world :=
  (def_run forward_scan (working now) (def_run build_scan (working now) w).2).2.

(** The leases in force have run out. *)
Record def_late (now : Z) s : Prop := {
  dl_versions : ∀ k r, workflows s !! k = Some r → lease_free now (dr_lease r) = true;
  dl_builds : ∀ kt b, def_builds s !! kt = Some b → lease_free now (b_lease b) = true
}.

Fixpoint late_def_rounds (times : list Z) w : Prop :=
  match times with
  | [] => True
  | now :: times => def_late now (now_tables w) ∧ late_def_rounds times (def_round w now)
  end.

(** ** The measure *)

Definition active_versions s : gset (Uuid * Z) :=
  dom (filter (λ kr : (Uuid * Z) * row, active kr.2 = true) (workflows s)).

Definition waiting_builds s : gset ((Uuid * Z) * Uuid) :=
  dom (filter (λ kb : ((Uuid * Z) * Uuid) * BuildRow Uuid, waiting kb.2 = true) (def_builds s)).

Definition def_work_left s : nat := size (active_versions s) + size (waiting_builds s).

Lemma elem_of_active s k :
  k ∈ active_versions s ↔ ∃ r, workflows s !! k = Some r ∧ active r = true.
Proof.
  unfold active_versions. rewrite elem_of_dom. split.
  - intros [r [Hr Ht]%map_lookup_filter_Some]. eauto.
  - intros (r & Hr & Ht). exists r. by apply map_lookup_filter_Some.
Qed.

Lemma elem_of_waiting s kt :
  kt ∈ waiting_builds s ↔ ∃ b, def_builds s !! kt = Some b ∧ waiting b = true.
Proof.
  unfold waiting_builds. rewrite elem_of_dom. split.
  - intros [b [Hb Ht]%map_lookup_filter_Some]. eauto.
  - intros (b & Hb & Ht). exists b. by apply map_lookup_filter_Some.
Qed.

Lemma uses_up_subset s s' :
  uses_up s s' → active_versions s' ⊆ active_versions s ∧ waiting_builds s' ⊆ waiting_builds s.
Proof.
  intros [HV HB]. split.
  - intros k (r & Hr & Ht)%elem_of_active. apply elem_of_active. eauto.
  - intros kt (b & Hr & Ht)%elem_of_waiting. apply elem_of_waiting. eauto.
Qed.

Lemma uses_up_less s s' :
  uses_up s s' → (∃ k, k ∈ active_versions s ∧ k ∉ active_versions s') ∨
                 (∃ kt, kt ∈ waiting_builds s ∧ kt ∉ waiting_builds s') →
  def_work_left s' < def_work_left s.
Proof.
  intros [HV HB]%uses_up_subset Hless. unfold def_work_left.
  pose proof (subseteq_size _ _ HV). pose proof (subseteq_size _ _ HB).
  destruct Hless as [(k & Hin & Hout)|(kt & Hin & Hout)].
  - assert (active_versions s' ⊂ active_versions s) as Hlt by set_solver. pose proof (subset_size _ _ Hlt). lia.
  - assert (waiting_builds s' ⊂ waiting_builds s) as Hlt by set_solver. pose proof (subset_size _ _ Hlt). lia.
Qed.

(** ** A quiet world *)

Abbreviation calmly := (goes_on (JsonPath := JsonPath) (Uuid := Uuid) (λ _, False)).
Abbreviation def_ok := (world_ok parse_path).
Abbreviation calm_wp := (wp perform def_ok calmly).

Lemma calm_uses_up w w' : calmly w w' → uses_up (now_tables w) (now_tables w').
Proof. intros Hgo. apply (go_uses_up _ _ _ Hgo). by intros input []. Qed.

Lemma def_calm_run {A} (p : program A) w o :
  def_ok w → calm_wp p (λ _ _, True) w → def_ok (def_run p o w).2 ∧ calmly w (def_run p o w).2.
Proof. intros Hw Hp. destruct (wp_run perform _ _ p _ o w Hw Hp) as (? & ? & _). done. Qed.

(** ** The workers' leases *)

Context (builder_ok : builder ≠ "" ∧ String.length builder ≤ 128).
Context (forwarder_ok : forwarder ≠ "" ∧ String.length forwarder ≤ 128).
Context (build_batch_ok : 1 ≤ wc_batch_size build_config ≤ 64).
Context (forward_batch_ok : 1 ≤ wc_batch_size forward_config ≤ 64).
Context (build_config_ok : check_worker_config build_config = Ok ()).
Context (forward_config_ok : check_worker_config forward_config = Ok ()).

Lemma worker_lease_positive config : check_worker_config config = Ok () → (0 < wc_lease_duration config)%Z.
Proof.
  unfold check_worker_config, ensure. destruct (negb _); [|done]. simpl.
  destruct (_ <=? _)%Z; [|done]. simpl. by destruct (Z.ltb_spec 0 (wc_lease_duration config)).
Qed.

Lemma lease_request_ok owner config now :
  owner ≠ "" ∧ String.length owner ≤ 128 → 1 ≤ wc_batch_size config ≤ 64 →
  check_worker_config config = Ok () →
  validate_lease_request owner now (now + wc_lease_duration config) (wc_batch_size config) 64 = Ok ().
Proof.
  intros [? ?] ? Hc%worker_lease_positive. apply validate_lease_request_ok. split_and!; [done|done|lia|lia|lia].
Qed.

Lemma def_builds_leased s n now k t b r :
  def_late now s → def_store_ok s → canonical_tasks s → workflows s !! k = Some r →
  dr_status r = Def_Building → def_builds s !! (k, t) = Some b → b_status b = build_pending →
  eligible_def_builds uuid_leb s now ≠ [] ∧
  ∃ lease leases st, lease_definition_build_tasks uuid_leb fresh_token s n builder now
    (now + wc_lease_duration build_config) (wc_batch_size build_config) = Ok (lease :: leases, st).
Proof.
  intros [_ Hlate] Hok Hcan Hr Hst Hb Hpend.
  unfold lease_definition_build_tasks, validate_definition_build_lease_request, MAX_DEFINITION_BUILD_LEASE_BATCH.
  rewrite (lease_request_ok builder build_config now) by done. simpl.
  assert (eligible_def_builds uuid_leb s now ≠ []) as Hne.
  { intros Hnil. apply (not_elem_of_nil ((k, t), b)). rewrite <- Hnil. apply elem_of_select_rows.
    split; [done|]. unfold def_build_eligible. simpl. rewrite Hr, Hst, Hpend, (Hlate _ _ Hb). done. }
  split; [done|]. eapply (first_lease _ (lease_waits now)).
  - intros kb s0 n0. apply lease_one_def_build_total.
  - apply take_select_NoDup.
  - intros kb. by apply eligible_waits.
  - done.
  - lia.
Qed.

(** Leasing a batch puts leases on rows and nothing else. *)
Lemma lease_def_builds_keep s n owner now expires limit leases s' n' :
  lease_definition_build_tasks uuid_leb fresh_token s n owner now expires limit = Ok (leases, (s', n')) →
  workflows s' = workflows s ∧ ∀ kt, b_status <$> def_builds s' !! kt = b_status <$> def_builds s !! kt.
Proof.
  unfold lease_definition_build_tasks.
  destruct (validate_definition_build_lease_request _ _ _ _); [|done]. simpl. intros Ht.
  refine (traverse_inv _ (λ st, workflows st.1 = workflows s ∧
    ∀ kt, b_status <$> def_builds st.1 !! kt = b_status <$> def_builds s !! kt) _ (s, n) _ _ _ _ Ht); [|done].
  intros [[k t] b] [s1 m] y st' [Hws Hbs]. simpl in Hws, Hbs |- *.
  destruct (workflows s1 !! k); [|done]. simpl. destruct (requeued_tasks _ _ _) as [ts|]; [|done]. simpl.
  destruct (last ts); [|done]. simpl. destruct (update_row _ _ _ _) as [bs|] eqn:Hu; [|done]. simpl.
  intros Heq. injection Heq as _ <-. apply update_row_Some in Hu as (b1 & Hb1 & _ & ->).
  split; [done|]. intros kt. simpl. rewrite <- Hbs. destruct (decide ((k, t) = kt)) as [<-|Hne].
  - by rewrite lookup_insert_eq, Hb1.
  - by rewrite lookup_insert_ne.
Qed.

Lemma lease_submissions_keep s n owner now expires limit leases s' n' :
  lease_definition_submissions uuid_leb fresh_token s n owner now expires limit = Ok (leases, (s', n')) →
  ∀ k, dr_status <$> workflows s' !! k = dr_status <$> workflows s !! k.
Proof.
  unfold lease_definition_submissions.
  destruct (validate_definition_submission_lease_request _ _ _ _); [|done]. simpl. intros Ht.
  refine (traverse_inv _ (λ st, ∀ k, dr_status <$> workflows st.1 !! k = dr_status <$> workflows s !! k)
    _ (s, n) _ _ _ _ Ht); [|done].
  intros kr [s1 m] y st' Hws. simpl in Hws |- *.
  destruct (update_row _ _ _ _) as [ws|] eqn:Hu; [|done]. simpl.
  intros Heq. injection Heq as _ <-. apply update_row_Some in Hu as (r1 & Hr1 & _ & ->).
  intros k. simpl. rewrite <- Hws. destruct (decide (kr.1 = k)) as [<-|Hne].
  - by rewrite lookup_insert_eq, Hr1.
  - by rewrite lookup_insert_ne.
Qed.

Lemma fresh_lease_held owner token now duration (l : option (Lease Uuid)) :
  (0 < duration)%Z → l = Some (mkLease owner token (now + duration)) →
  lease_held owner token now l = true.
Proof.
  intros Hpos ->. simpl. rewrite !bool_decide_true by done. simpl. apply Z.ltb_lt. lia.
Qed.

(** The first lease of a batch: its build is pending under the new lease. *)
Lemma first_def_build s n now lease leases s' n' :
  lease_definition_build_tasks uuid_leb fresh_token s n builder now (now + wc_lease_duration build_config)
    (wc_batch_size build_config) = Ok (lease :: leases, (s', n')) →
  let kt := def_lease_key lease in
  kt ∈ waiting_builds s ∧
  (∃ r, workflows s' !! kt.1 = Some r ∧ dr_status r = Def_Building) ∧
  ∃ b, def_builds s' !! kt = Some b ∧
    may_settle_def (Some (lease_owner (ldb_lease lease), lease_token (ldb_lease lease))) now b = true.
Proof.
  intros Hl. pose proof (lease_def_builds_keep _ _ _ _ _ _ _ _ _ Hl) as [Hws Hbs].
  unfold lease_definition_build_tasks, validate_definition_build_lease_request, MAX_DEFINITION_BUILD_LEASE_BATCH in Hl.
  rewrite (lease_request_ok builder build_config now) in Hl by done. simpl in Hl.
  destruct (lease_batch _ _ _ _ _ _ _ (lease_one_def_build_inv fresh_token builder now _) _ _ _ _ _ _
              (take_select_NoDup (wc_batch_size build_config) (leq_def_build uuid_leb) (def_build_eligible s now) (def_builds s))
              Hl) as (Hkeys & Hgr & Htok & _).
  apply Forall_inv in Hgr as [(b0 & Hb0 & Hfree) (b & Hb & Hlease)].
  apply andb_true_iff in Hfree as [Hpend _]. intros kt. fold kt in Hb0, Hb.
  split_and!.
  - apply elem_of_waiting. eauto.
  - assert (kt ∈ (take (wc_batch_size build_config) (eligible_def_builds uuid_leb s now)).*1) as Hin.
    { unfold eligible_def_builds. rewrite <- Hkeys. by left. }
    apply list_elem_of_fmap in Hin as ([kt' b'] & Hkt & Hin). simpl in Hkt. rewrite <- Hkt in Hin.
    apply subseteq_take, elem_of_select_rows in Hin as [_ He]. unfold def_build_eligible in He.
    apply andb_true_iff in He as [[_ He]%andb_true_iff _]. change (kt, b').1.1 with kt.1 in He. rewrite Hws.
    destruct (workflows s !! kt.1) as [r|]; [|done]. exists r. by apply bool_decide_eq_true in He.
  - exists b. split; [done|]. unfold may_settle_def. apply andb_true_iff. split.
    + specialize (Hbs kt). rewrite Hb, Hb0 in Hbs. simpl in Hbs. injection Hbs as Hbs.
      rewrite Hbs. exact Hpend.
    + simpl in Htok. injection Htok as Hlo _.
      eapply (fresh_lease_held _ _ _ (wc_lease_duration build_config)); [by apply worker_lease_positive|].
      by rewrite Hlease, Hlo.
Qed.

(** ** A scan makes progress *)

(** The world after a read. *)
Abbreviation read_world w :=
  (committed w (mkConductor (tables (now_store w)) (next_token (now_store w)) (subscriptions (now_store w)))).

Lemma run_on_tables {X A} (f : Z → store → X * store) (g : X → program A) now w :
  def_run (bind_ok (call (Transact (on_tables f))) g) (working now) w =
  def_run (g (f now (now_tables w)).1) (working now)
    (committed w (mkConductor (f now (now_tables w)).2 (next_token (now_store w)) (subscriptions (now_store w)))).
Proof. rewrite run_transact. unfold on_tables. by destruct (f now (now_tables w)). Qed.

Lemma read_ok w : def_ok w → def_ok (read_world w) ∧ calmly w (read_world w).
Proof. intros Hw. apply (works_ok _ uuid_leb fresh_token); [done|by left]. Qed.

Lemma leased_task_settles lease now w r b :
  let kt := def_lease_key lease in
  workflows (now_tables w) !! kt.1 = Some r → dr_status r = Def_Building →
  def_builds (now_tables w) !! kt = Some b →
  may_settle_def (Some (lease_owner (ldb_lease lease), lease_token (ldb_lease lease))) now b = true →
  let '(x, w') := def_run (process_leased_task parse_path lease) (working now) w in
  x = Ok () ∧ kt ∉ waiting_builds (now_tables w').
Proof.
  intros kt Hr Hst Hb Hm. unfold process_leased_task.
  rewrite run_bind. simpl run at 1. cbv beta iota. rewrite run_bind. simpl run at 1. cbv beta iota.
  rewrite run_on_tables. unfold settle_leased_definition_task_build.
  rewrite (settle_def_won (now_tables w) kt.1 kt.2 _ _ now r b Hr Hst Hb Hm). simpl definition_build_result.
  cbv zeta iota. set (bs := <[(kt.1, kt.2) := _]> _).
  assert (∀ s, def_builds s = bs → kt ∉ waiting_builds s) as Hgone.
  { intros s Hs (b' & Hb' & Hp')%elem_of_waiting. unfold bs in Hs. rewrite Hs, lookup_insert_eq in Hb'.
    injection Hb' as <-. done. }
  destruct (all_def_built bs _); cbn [fst snd].
  - rewrite run_bind. simpl run at 1. unfold refresh_index.
    destruct (apply_workflow_state _ _ _); cbv beta iota; simpl; (split; [done|by apply Hgone]).
  - simpl. split; [done|]. by apply Hgone.
Qed.

Lemma canonical_now w : def_ok w → canonical_tasks (now_tables w).
Proof. intros Hw k r task t Hr Hin. by apply (rg_tasks _ _ (wo_registrable _ _ Hw _ _ Hr)). Qed.

Lemma active_waits s k r :
  def_store_ok s → workflows s !! k = Some r → dr_status r = Def_Building → active r = true →
  ∃ t b, def_builds s !! (k, t) = Some b ∧ b_status b = build_pending.
Proof.
  intros Hok Hr Hst Hact. destruct (do_versions _ Hok _ _ Hr) as [_ _ _ _ _ Hparse Htasks Hph _].
  rewrite Hst in Hph. destruct Hph as [[[t Ht]|Hnone] _].
  - exists t. unfold bst in Ht. destruct (def_builds s !! (k, t)) as [b|]; [|done]. injection Ht as <-. eauto.
  - exfalso. unfold active in Hact. rewrite Hst in Hact.
    destruct (def_tasks (dr_definition r)) as [|task tasks] eqn:Hdef; [done|].
    destruct (Hparse task) as [t Ht]; [by left|].
    destruct (proj2 (Htasks t)) as [st Hst']; [|by rewrite Hnone in Hst'].
    exists task. rewrite Hdef. split; [by left|done].
Qed.

(** The builds finish one, when one is waiting. *)
Lemma build_progress now w k r :
  def_ok w → def_late now (now_tables w) → workflows (now_tables w) !! k = Some r →
  dr_status r = Def_Building → active r = true →
  ∃ kt, kt ∈ waiting_builds (now_tables w) ∧
        kt ∉ waiting_builds (now_tables (def_run build_scan (working now) w).2).
Proof.
  intros Hw Hlate Hr Hst Hact. pose proof (wo_store _ _ Hw _ (list_elem_of_here _ _)) as Hok.
  destruct (active_waits _ _ _ Hok Hr Hst Hact) as (t & b & Hb & Hp).
  destruct (def_builds_leased (now_tables w) (next_token (now_store w)) now k t b r Hlate Hok (canonical_now _ Hw)
              Hr Hst Hb Hp) as (Hne & lease & leases & [s1 n1] & Hl).
  destruct (first_def_build _ _ _ _ _ _ _ Hl) as (Hin & (r1 & Hr1 & Hst1) & b1 & Hb1 & Hm1).
  destruct (read_ok w Hw) as [Hw1 _].
  destruct (works_ok parse_path uuid_leb fresh_token (λ _, False) (read_world w) s1 n1 Hw1) as [Hw2 _].
  { right. by econstructor. }
  exists (def_lease_key lease). split; [done|].
  unfold build_scan, scan_definition_builds. rewrite run_bind. simpl run at 1. cbv beta iota. rewrite run_on_tables.
  unfold has_reclaimable_definition_build. simpl fst. simpl snd.
  destruct (eligible_def_builds _ _ _) as [|x l]; [done|]. rewrite run_bind. simpl run at 1. cbv beta iota.
  rewrite run_transact. unfold leasing. cbn [committed now_store tables next_token subscriptions]. rewrite Hl.
  cbn [map fst snd]. rewrite run_join_cons.
  pose proof (leased_task_settles lease now (committed (read_world w) (mkConductor s1 n1 (subscriptions (now_store w)))) r1 b1
                Hr1 Hst1 Hb1 Hm1) as Hchild.
  destruct (def_calm_run (process_leased_task parse_path lease) _ (working now) Hw2) as [Hw3 _];
    [by apply (leased_task_wp parse_path uuid_leb fresh_token)|].
  destruct (def_run (process_leased_task parse_path lease) _ _) as [x3 w3]. destruct Hchild as [-> Hgone].
  destruct (def_calm_run (Join (map (process_leased_task parse_path) leases) Ret) w3 (working now) Hw3) as [_ Hgo].
  { apply wp_join. split; [|done]. apply Forall_forall. intros q (l0 & -> & _)%list_elem_of_fmap.
    apply (leased_task_wp parse_path uuid_leb fresh_token). }
  apply calm_uses_up, uses_up_subset in Hgo as [_ Hsub]. by intros ?%Hsub.
Qed.

(** When nothing is there to be built, the first scan does nothing. *)
Lemma build_scan_idle now w :
  (∀ k r, workflows (now_tables w) !! k = Some r → dr_status r = Def_Building → active r = false) →
  def_ok w → def_run build_scan (working now) w = (Ok (), read_world w).
Proof.
  intros Hnone Hw. unfold build_scan, scan_definition_builds. rewrite run_bind. simpl run at 1. cbv beta iota.
  rewrite run_on_tables. unfold has_reclaimable_definition_build. simpl fst. simpl snd.
  destruct (eligible_def_builds _ _ _) as [|[[k t] b] l] eqn:Hl; [done|]. exfalso.
  assert (((k, t), b) ∈ eligible_def_builds uuid_leb (now_tables w) now) as Hin by (rewrite Hl; by left).
  pose proof (eligible_waits uuid_leb _ _ _ (wo_store _ _ Hw _ (list_elem_of_here _ _)) (canonical_now _ Hw) Hin)
    as (_ & _ & r & task & Hr & Htask & _).
  apply elem_of_select_rows in Hin as [_ He]. unfold def_build_eligible in He. simpl in He, Hr.
  rewrite Hr in He. apply andb_true_iff in He as [[_ Hst%bool_decide_eq_true]%andb_true_iff _].
  pose proof (Hnone _ _ Hr Hst) as Hact. unfold active in Hact. rewrite Hst in Hact.
  by destruct (def_tasks (dr_definition r)); [apply elem_of_nil in Htask|].
Qed.

Definition submission_key (lease : LeasedDefinitionSubmission (Uuid := Uuid)) : Uuid * Z :=
  (dsi_workflow_id (lds_intent lease), dsi_workflow_version (lds_intent lease)).

Lemma lease_one_submission_inv owner now expires :
  leases_one workflows dr_lease (λ r, bool_decide (dr_status r = Def_Ready) && lease_free now (dr_lease r))
    submission_key lds_lease (λ n, mkLease owner (fresh_token n) expires)
    (lease_one_submission fresh_token owner now expires).
Proof.
  intros [[id v] r0] s n lease s' n'. simpl. destruct (update_row _ _ _ _) as [ws|] eqn:Hu; [|done]. simpl.
  intros Heq. injection Heq as <- <- <-. apply update_row_Some in Hu as (r & Hr & Hfree & ->).
  split_and!; try done.
  - split; [eauto|]. eexists. simpl. rewrite lookup_insert_eq. done.
  - intros k Hne. by apply lookup_insert_ne.
Qed.

Lemma submissions_leased s n now k r :
  def_late now s → workflows s !! k = Some r → dr_status r = Def_Ready →
  eligible_submissions uuid_leb s now ≠ [] ∧
  ∃ lease leases st, lease_definition_submissions uuid_leb fresh_token s n forwarder now
    (now + wc_lease_duration forward_config) (wc_batch_size forward_config) = Ok (lease :: leases, st).
Proof.
  intros [Hlate _] Hr Hst.
  unfold lease_definition_submissions, validate_definition_submission_lease_request, MAX_DEFINITION_SUBMISSION_LEASE_BATCH.
  rewrite (lease_request_ok forwarder forward_config now) by done. simpl.
  assert (eligible_submissions uuid_leb s now ≠ []) as Hne.
  { intros Hnil. apply (not_elem_of_nil (k, r)). rewrite <- Hnil. apply elem_of_select_rows.
    split; [done|]. unfold submission_eligible. simpl. by rewrite Hst, (Hlate _ _ Hr). }
  split; [done|].
  eapply (first_lease _ (λ s kr, ∃ r, workflows s !! kr.1 = Some r ∧
    bool_decide (dr_status r = Def_Ready) && lease_free now (dr_lease r) = true)).
  - intros kr s0 n0 (r0 & Hr0 & Hf0). unfold lease_one_submission, update_row. rewrite Hr0, Hf0. simpl.
    eexists _, _, _. split; [done|]. intros kr' Hne' (r1 & Hr1 & Hf1). exists r1. simpl.
    by rewrite lookup_insert_ne.
  - apply take_select_NoDup.
  - intros [k' r'] [Hr' He']%elem_of_select_rows. by exists r'.
  - done.
  - lia.
Qed.

(** The first lease of a batch: its version is ready under the new lease. *)
Lemma first_submission s n now lease leases s' n' :
  lease_definition_submissions uuid_leb fresh_token s n forwarder now (now + wc_lease_duration forward_config)
    (wc_batch_size forward_config) = Ok (lease :: leases, (s', n')) →
  (∃ r, workflows s !! submission_key lease = Some r ∧ dr_status r = Def_Ready) ∧
  ∃ r, workflows s' !! submission_key lease = Some r ∧ dr_status r = Def_Ready ∧
    lease_held (lease_owner (lds_lease lease)) (lease_token (lds_lease lease)) now (dr_lease r) = true.
Proof.
  intros Hl. pose proof (lease_submissions_keep _ _ _ _ _ _ _ _ _ Hl) as Hkeep.
  unfold lease_definition_submissions, validate_definition_submission_lease_request, MAX_DEFINITION_SUBMISSION_LEASE_BATCH in Hl.
  rewrite (lease_request_ok forwarder forward_config now) in Hl by done. simpl in Hl.
  destruct (lease_batch _ _ _ _ _ _ _ (lease_one_submission_inv forwarder now _) _ _ _ _ _ _
              (take_select_NoDup (wc_batch_size forward_config) (λ a b, leq_version_key uuid_leb a.1 b.1) (submission_eligible now) (workflows s))
              Hl) as (_ & Hgr & Htok & _).
  apply Forall_inv in Hgr as [(r0 & Hr0 & Hfree) (r & Hr & Hlease)].
  apply andb_true_iff in Hfree as [Hst%bool_decide_eq_true _]. split; [eauto|]. exists r.
  specialize (Hkeep (submission_key lease)). rewrite Hr, Hr0 in Hkeep. injection Hkeep as Hkeep.
  split_and!; [done|congruence|]. simpl in Htok. injection Htok as Hlo _.
  eapply (fresh_lease_held _ _ _ (wc_lease_duration forward_config)); [by apply worker_lease_positive|].
  by rewrite Hlease, Hlo.
Qed.

Lemma leased_submission_settles lease now w r :
  workflows (now_tables w) !! submission_key lease = Some r → dr_status r = Def_Ready →
  lease_held (lease_owner (lds_lease lease)) (lease_token (lds_lease lease)) now (dr_lease r) = true →
  let '(x, w') := def_run (process_leased_submission lease) (working now) w in
  x = Ok () ∧ submission_key lease ∉ active_versions (now_tables w').
Proof.
  intros Hr Hst Hheld. unfold process_leased_submission.
  rewrite run_bind. simpl run at 1. cbv beta iota. rewrite run_bind. simpl run at 1. cbv beta iota.
  rewrite run_on_tables. unfold settle_leased_definition_submission, update_row. fold (submission_key lease).
  cbn [now_store]. rewrite Hr, Hst, Hheld. simpl. split; [done|]. intros (r' & Hr' & Hact)%elem_of_active.
  simpl in Hr'. rewrite lookup_insert_eq in Hr'. by injection Hr' as <-.
Qed.

(** The submissions forward a version, when one is ready. *)
Lemma forward_progress now w k r :
  def_ok w → def_late now (now_tables w) → workflows (now_tables w) !! k = Some r →
  dr_status r = Def_Ready →
  ∃ k', k' ∈ active_versions (now_tables w) ∧
        k' ∉ active_versions (now_tables (def_run forward_scan (working now) w).2).
Proof.
  intros Hw Hlate Hr Hst.
  destruct (submissions_leased (now_tables w) (next_token (now_store w)) now k r Hlate Hr Hst)
    as (Hne & lease & leases & [s1 n1] & Hl).
  destruct (first_submission _ _ _ _ _ _ _ Hl) as [(r0 & Hr0 & Hst0) (r1 & Hr1 & Hst1 & Hheld)].
  destruct (read_ok w Hw) as [Hw1 _].
  destruct (works_ok parse_path uuid_leb fresh_token (λ _, False) (read_world w) s1 n1 Hw1) as [Hw2 _].
  { right. by econstructor. }
  exists (submission_key lease). split; [apply elem_of_active; exists r0; unfold active; by rewrite Hst0|].
  unfold forward_scan, scan_submissions. rewrite run_bind. simpl run at 1. cbv beta iota. rewrite run_on_tables.
  unfold has_reclaimable_definition_submission. simpl fst. simpl snd.
  destruct (eligible_submissions _ _ _) as [|x l]; [done|]. rewrite run_bind. simpl run at 1. cbv beta iota.
  rewrite run_transact. unfold leasing. cbn [committed now_store tables next_token subscriptions]. rewrite Hl.
  cbn [fst snd each_submission]. rewrite run_then.
  set (w2 := committed (read_world w) (mkConductor s1 n1 (subscriptions (now_store w)))) in *.
  assert (∀ lease', lease' ∈ lease :: leases → taken w2 (dsi_definition (lds_intent lease'))) as Htaken.
  { intros lease' Hin.
    destruct (leased_submission_row _ _ _ _ _ _ _ _ _ _ Hl _ Hin) as (k0 & r2 & Hr2 & Hst2 & Hi2).
    exists (now_store w), k0, r2. split_and!; [right; right; by left|done|by rewrite Hst2|by rewrite Hi2]. }
  pose proof (leased_submission_settles lease now w2 r1 Hr1 Hst1 Hheld) as Hfirst.
  destruct (def_calm_run (process_leased_submission lease) w2 (working now) Hw2) as [Hw3 Hgo3].
  { apply (leased_submission_wp parse_path uuid_leb fresh_token). apply Htaken. by left. }
  destruct (def_run (process_leased_submission lease) _ _) as [x3 w3]. destruct Hfirst as [-> Hgone].
  destruct (def_calm_run (each_submission leases) w3 (working now) Hw3) as [_ Hgo].
  { apply (each_submission_wp parse_path uuid_leb fresh_token); [done|]. intros lease' Hin.
    eapply taken_later; [exact Hgo3|]. apply Htaken. by right. }
  apply calm_uses_up, uses_up_subset in Hgo as [Hsub _]. by intros ?%Hsub.
Qed.

(** ** A round makes progress *)

Lemma scans_ok now w :
  def_ok w →
  let w1 := (def_run build_scan (working now) w).2 in
  def_ok w1 ∧ calmly w w1 ∧ def_ok (def_round w now) ∧ calmly w1 (def_round w now).
Proof.
  intros Hw w1. destruct (def_calm_run build_scan w (working now) Hw) as [Hw1 Hgo1];
    [apply (def_scan_builds_wp parse_path uuid_leb fresh_token)|].
  destruct (def_calm_run forward_scan w1 (working now) Hw1) as [Hw2 Hgo2];
    [apply (scan_submissions_wp parse_path uuid_leb fresh_token)|]. done.
Qed.

Lemma def_round_ok now w : def_ok w → def_ok (def_round w now) ∧ calmly w (def_round w now).
Proof. intros Hw. destruct (scans_ok now w Hw) as (_ & ? & ? & ?). split; [done|by etrans]. Qed.

Lemma def_round_progress now w k :
  def_ok w → def_late now (now_tables w) → k ∈ active_versions (now_tables w) →
  def_work_left (now_tables (def_round w now)) < def_work_left (now_tables w).
Proof.
  intros Hw Hlate Hk. destruct (scans_ok now w Hw) as (Hw1 & Hgo1 & Hw2 & Hgo2).
  apply uses_up_less; [apply calm_uses_up; by etrans|].
  destruct (decide (Exists (λ kr : (Uuid * Z) * row, dr_status kr.2 = Def_Building ∧ active kr.2 = true)
              (map_to_list (workflows (now_tables w)))))
    as [([k1 r1] & Hk1%elem_of_map_to_list & Hst1 & Hact1)%Exists_exists|Hnone].
  - right. destruct (build_progress now w k1 r1 Hw Hlate Hk1 Hst1 Hact1) as (kt & Hin & Hout).
    exists kt. split; [done|]. apply calm_uses_up, uses_up_subset in Hgo2 as [_ Hsub]. by intros ?%Hsub.
  - left. apply elem_of_active in Hk as (r & Hr & Hact).
    assert (∀ k r, workflows (now_tables w) !! k = Some r → dr_status r = Def_Building → active r = false) as Hidle.
    { intros k' r' Hr' Hst'. destruct (active r') eqn:Hact'; [|done]. exfalso.
      apply Hnone, Exists_exists. exists (k', r'). by rewrite elem_of_map_to_list. }
    assert (dr_status r = Def_Ready) as Hst.
    { pose proof (Hidle k r Hr) as Hb. unfold active in Hact. destruct (dr_status r) eqn:Hst'; try done.
      specialize (Hb eq_refl). unfold active in Hb. by rewrite Hst', Hact in Hb. }
    destruct (read_ok w Hw) as [Hw0 _].
    unfold def_round. rewrite (build_scan_idle now w Hidle Hw).
    exact (forward_progress now (read_world w) k r Hw0 Hlate Hr Hst).
Qed.

Lemma def_rounds_ok times : ∀ w, def_ok w → calmly w (foldl def_round w times).
Proof.
  induction times as [|now times IH]; intros w Hw; simpl; [done|].
  destruct (def_round_ok now w Hw) as [Hw' Hgo]. etrans; [exact Hgo|by apply IH].
Qed.

Lemma def_rounds_settle times : ∀ w,
  def_ok w → late_def_rounds times w → def_work_left (now_tables w) ≤ length times →
  active_versions (now_tables (foldl def_round w times)) = ∅.
Proof.
  induction times as [|now times IH]; intros w Hw Hlate Hlen; simpl in *.
  { unfold def_work_left in Hlen. apply leibniz_equiv, size_empty_inv. lia. }
  destruct Hlate as [Hnow Hlate]. destruct (def_round_ok now w Hw) as [Hw' Hgo].
  destruct (decide (active_versions (now_tables w) = ∅)) as [Hnone|[k Hk]%set_choose_L].
  - pose proof (def_rounds_ok (now :: times) w Hw) as Hall. simpl in Hall.
    apply calm_uses_up, uses_up_subset in Hall as [Hsub _]. rewrite Hnone in Hsub.
    apply elem_of_equiv_empty_L. intros k Hk%Hsub. by apply not_elem_of_empty in Hk.
  - apply IH; [done..|]. pose proof (def_round_progress now w k Hw Hnow Hk). lia.
Qed.

(** ** The rounds are runs of the pool *)

Section runs.
Context (submitted : DefinitionRegistrationInput → Prop).
Abbreviation may := (may_start parse_path uuid_leb fresh_token submitted).
Abbreviation runs_to := (def_runs parse_path uuid_leb fresh_token submitted).
Abbreviation pool :=
  (Pool (Op := Await conductor WorkflowDefinition DefinitionStoreError Uuid) (E := failure)
     (World := def_world) (DefinitionAnswer (Uuid := Uuid))).

Lemma pool_scan (scan : program unit) now (p : pool) :
  may (world p) (then_answer D_Worked (let*? _ := scan in scan_loop scan [])) →
  ∃ p', runs_to p p' ∧ world p' = (def_run scan (working now) (world p)).2.
Proof.
  intros Hmay. set (q := then_answer D_Worked _) in *.
  exists (finished perform p (fresh (dom (threads p))) q (working now)). split.
  - apply pool_runs; [apply not_elem_of_dom, is_fresh|done].
  - simpl. unfold q, then_answer. rewrite run_bind, run_then. by destruct (def_run scan _ _) as [[]].
Qed.

Lemma pool_def_round now (p : pool) : ∃ p', runs_to p p' ∧ world p' = def_round (world p) now.
Proof using build_config_ok forward_config_ok.
  destruct (pool_scan build_scan now p) as (p1 & Hr1 & Hw1).
  { apply (start_build_worker _ _ _ _ _ builder build_config []).
    unfold start_local_definition_build_worker. by rewrite build_config_ok. }
  destruct (pool_scan forward_scan now p1) as (p2 & Hr2 & Hw2).
  { apply (start_submission_worker _ _ _ _ _ forwarder forward_config []).
    unfold start_local_definition_submission_worker. by rewrite forward_config_ok. }
  exists p2. split; [unfold def_runs, pool_run in *; by etrans|]. by rewrite Hw2, Hw1.
Qed.

Lemma pool_def_rounds times : ∀ p : pool, ∃ p', runs_to p p' ∧ world p' = foldl def_round (world p) times.
Proof using build_config_ok forward_config_ok.
  induction times as [|now times IH]; intros p; [by exists p|].
  destruct (pool_def_round now p) as (p1 & Hr1 & Hw1). destruct (IH p1) as (p2 & Hr2 & Hw2).
  exists p2. split; [unfold def_runs, pool_run in *; by etrans|]. simpl. by rewrite Hw2, Hw1.
Qed.
End runs.
End settlement.

(** ** What the parser hands over *)

Section parsed.
Context `{UuidOps Uuid} `{!UuidLaws Uuid}.
Context (NAMESPACE_OID : Uuid) (jsonpath_ok : string → bool) (fresh : nat → Uuid).
Context {JsonPath : Type} (parse_path : string → option JsonPath).
Context (fresh_inj : ∀ i j, fresh i = fresh j → i = j).
Context (same_parser : ∀ p, jsonpath_ok p = true → is_Some (parse_path p)).

Lemma build_trigger_predicate pw tasks cfg p :
  build_trigger jsonpath_ok pw tasks = Ok (mkTrigger (Some (Trigger_WaitsOnSignal cfg))) →
  wos_predicate cfg = Some p → is_Some (parse_path p).
Proof.
  unfold build_trigger. destruct (pw_trigger_on pw) as [[expr| |signal predicate captures]|]; try done.
  destruct (ensure _ _); [|done]. simpl. destruct predicate as [raw|]; simpl.
  - destruct (jsonpath_ok raw) eqn:Hraw; [|done]. simpl.
    destruct (validate_captures_with_outputs _ _ _); [|done]. simpl. intros [= <-] [= <-]. by apply same_parser.
  - destruct (validate_captures_with_outputs _ _ _); [|done]. simpl. by intros [= <-].
Qed.

(** A workflow the builder accepts can be built, and its predicate parses. *)
Lemma built_registrable pw tenant namespace n def :
  build_workflow NAMESPACE_OID jsonpath_ok fresh pw tenant namespace n = Ok def →
  registrable (Uuid := Uuid) parse_path def.
Proof.
  intros Hb. split.
  - destruct (built_canonical _ _ _ fresh fresh_inj _ _ _ _ _ Hb) as (id & ids & _ & _ & Hids).
    intros task t. by eapply canonical_parse.
  - apply build_workflow_inv in Hb as (?&?&?&?&trigger&_&_&_&_&_&_&_&_&_&_&Htrig&Hdef).
    intros cfg p Hw. apply (build_trigger_predicate pw (def_tasks def)). rewrite Htrig.
    unfold waits_on in Hw. rewrite Hdef in Hw. simpl in Hw.
    destruct trigger as [[[expr| |cfg']|]]; try done. by injection Hw as ->.
Qed.
End parsed.

(** C10: no version is left behind: from any state the definition pipeline can have
    got into, whatever threads were cut off and whatever answers were lost, as many
    pairs of scans as there are versions and builds under way leave every version
    that has a task forwarded, or failed by an earlier build, when they start after
    the outstanding leases have run out and the outside works; and such scans are
    among the pipeline's own runs. *)
Theorem every_version_forwarded `{UuidOps Uuid} `{!UuidLaws Uuid} `{!Countable Uuid} {JsonPath}
    (parse_path : string → option JsonPath) uuid_leb fresh_token submitted builder forwarder
    build_config forward_config times p :
  (∀ input, submitted input → registrable (Uuid := Uuid) parse_path (reg_definition input)) →
  builder ≠ "" ∧ String.length builder ≤ 128 → forwarder ≠ "" ∧ String.length forwarder ≤ 128 →
  1 ≤ wc_batch_size build_config ≤ 64 → 1 ≤ wc_batch_size forward_config ≤ 64 →
  check_worker_config build_config = Ok () → check_worker_config forward_config = Ok () →
  def_pool_reachable parse_path uuid_leb fresh_token submitted p →
  late_def_rounds parse_path uuid_leb fresh_token builder forwarder build_config forward_config times (world p) →
  def_work_left (tables (now_store (world p))) ≤ length times →
  ∃ p', def_runs parse_path uuid_leb fresh_token submitted p p' ∧
    world p' = foldl (def_round parse_path uuid_leb fresh_token builder forwarder build_config forward_config)
                 (world p) times ∧
    ∀ k r, workflows (tables (now_store (world p'))) !! k = Some r → def_tasks (dr_definition r) ≠ [] →
      dr_status r = Def_Submitted ∨ dr_status r = Def_BuildFailed.
Proof.
  intros Hsub Hb Hf Hbb Hfb Hbc Hfc Hreach Hlate Hlen.
  destruct (pool_def_rounds parse_path uuid_leb fresh_token builder forwarder build_config forward_config
              Hbc Hfc submitted times p) as (p' & Hrun & Hw').
  exists p'. split_and!; [done..|]. rewrite Hw'. intros k r Hr Htasks.
  assert (active r = false) as Hact.
  { apply not_true_is_false. intros Hact. apply (not_elem_of_empty (C := gset (Uuid * Z)) k).
    rewrite <- (def_rounds_settle parse_path uuid_leb fresh_token builder forwarder build_config forward_config
                  Hb Hf Hbb Hfb Hbc Hfc times (world p)); [apply elem_of_active; eauto| |done|done].
    exact (def_pool_reachable_ok parse_path uuid_leb fresh_token submitted Hsub p Hreach). }
  unfold active in Hact. destruct (dr_status r); [|done|by right|by left].
  by destruct (def_tasks (dr_definition r)).
Qed.

(** ** A run *)

Definition def_late_check (now : Z) (s : DefinitionStore (Uuid := bit_uuid)) : bool :=
  bool_decide (map_Forall (λ _ r, lease_free now (dr_lease r) = true) (workflows s)) &&
  bool_decide (map_Forall (λ _ b, lease_free now (b_lease b) = true) (def_builds s)).

Lemma def_late_checked now s : def_late_check now s = true → def_late now s.
Proof.
  unfold def_late_check. rewrite andb_true_iff, !bool_decide_eq_true. intros [Hr Hb].
  split; [intros k r; apply Hr|intros kt b; apply Hb].
Qed.

Abbreviation demo_round := (def_round no_path def_leb unary "b" "f" (mkWorkerConfig 5 600 8) (mkWorkerConfig 5 30 16)).

Lemma every_version_forwarded_witness :
  ∃ p', demo_def_runs demo_registered p' ∧
    world p' = foldl demo_round (world demo_registered) [10%Z; 20%Z] ∧
    ∀ k r, workflows (tables (now_store (world p'))) !! k = Some r → def_tasks (dr_definition r) ≠ [] →
      dr_status r = Def_Submitted ∨ dr_status r = Def_BuildFailed.
Proof.
  refine (every_version_forwarded no_path def_leb unary waiting_submitted "b" "f" (mkWorkerConfig 5 600 8)
            (mkWorkerConfig 5 30 16) [10%Z; 20%Z] demo_registered waiting_registrable _ _ _ _ _ _
            demo_registered_reachable _ _).
  - split; [discriminate|]. apply (bool_decide_unpack _). vm_compute. reflexivity.
  - split; [discriminate|]. apply (bool_decide_unpack _). vm_compute. reflexivity.
  - apply (bool_decide_unpack _). vm_compute. reflexivity.
  - apply (bool_decide_unpack _). vm_compute. reflexivity.
  - vm_compute. reflexivity.
  - vm_compute. reflexivity.
  - refine (conj _ (conj _ I)); apply def_late_checked; vm_compute; reflexivity.
  - apply (bool_decide_unpack _). vm_compute. reflexivity.
Defined.
