(* ===== verification/TaskWire.v ===== *)
(** * The executor's wire messages

    [executor/src/wire.rs]: the published messages of the task coordination
    contract as records, the execution slice the executor rebuilds from a
    dispatch, and the events and acknowledgements it emits.  The byte encoding of
    a message is [prost]'s: a parameter with the documented law that a message
    decodes from its own encoding.  A byte string is a string. *)

From S2P Require Import Prelude Workflow Uuid.

(** [prost::Message] *)
Class Wire (M : Type) := {
  encode_to_vec : M → string;
  wire_decode : string → option M
}.

Class WireLaws (M : Type) `{Wire M} := {
  wire_decode_encode m : wire_decode (encode_to_vec m) = Some m
}.

(** ** The published messages *)

Record TaskDispatch := mkTaskDispatch {
  td_task_instance_id : string;
  td_task_id : string;
  td_workflow_instance_id : string;
  td_workflow_id : string;
  td_name : string;
  td_task_type : Z;
  td_nix_expression_path : string;
  td_nix_args : list string;
  td_outputs : list string;
  td_inputs : list string;
  td_secrets : list string;
  td_tenant_id : string;
  td_originating_signal_id : option string;
  td_gate_signal_ids : gmap string string;
  td_gate_signal_ids_ambient : list string
}.

Inductive TaskEventKind :=
| K_Delivered
| K_Assigned
| K_Started
| K_Completed (routing_variables : gmap string RoutingValue) (self_patch : option string)
              (self_patch_stall_ttl : option Z)
| K_Failed
| K_Unhealthy.

Record TaskEvent := mkTaskEvent {
  te_task_instance_id : string;
  te_task_id : string;
  te_workflow_instance_id : string;
  te_workflow_id : string;
  te_executor_id : option string;
  te_kind : option TaskEventKind
}.

Record CancelTaskRequest := mkCancelTaskRequest {
  ctr_task_instance_id : string;
  ctr_task_id : string;
  ctr_workflow_instance_id : string;
  ctr_workflow_id : string
}.

(** The wire's enumeration is its number: 0 killed, 1 no such task. *)
Record CancelTaskAck := mkCancelTaskAck {
  cta_task_instance_id : string;
  cta_workflow_instance_id : string;
  cta_outcome : Z
}.

(** ** The execution slice *)

Inductive WireError := DecodeFailed | InvalidUuid (field value : string).

Inductive EmitKind := Emit_Assigned | Emit_Started | Emit_Completed | Emit_Failed.

Inductive KillOutcome := Kill_Killed | Kill_NoSuchTask.

Section wire.
Context `{UuidOps Uuid} `{!Countable Uuid}.
Context `{Wire TaskDispatch} `{Wire TaskEvent} `{Wire CancelTaskRequest} `{Wire CancelTaskAck}.

Record DispatchedTask := mkDispatchedTask {
  dt_task_instance_id : Uuid;
  dt_task_id : Uuid;
  dt_workflow_instance_id : Uuid;
  dt_workflow_id : Uuid;
  dt_name : string;
  dt_nix_expression_path : string;
  dt_nix_args : list string;
  dt_outputs : list string;
  dt_inputs : list string;
  dt_secrets : list string;
  dt_originating_signal_id : option Uuid;
  dt_gate_signal_ids : gmap string Uuid;
  dt_gate_signal_ids_ambient : gset Uuid
}.

Record CancelRequest := mkCancelRequest {
  cr_task_instance_id : Uuid;
  cr_workflow_instance_id : Uuid
}.

Definition parse_uuid (s field : string) : result Uuid WireError :=
  ok_or (uuid_parse_str s) (InvalidUuid field s).

Definition encode_dispatch (task : DispatchedTask) : string :=
  encode_to_vec
    (mkTaskDispatch
       (uuid_to_string (dt_task_instance_id task)) (uuid_to_string (dt_task_id task))
       (uuid_to_string (dt_workflow_instance_id task)) (uuid_to_string (dt_workflow_id task))
       (dt_name task) 0 (dt_nix_expression_path task) (dt_nix_args task) (dt_outputs task)
       (dt_inputs task) (dt_secrets task) ""
       (uuid_to_string <$> dt_originating_signal_id task)
       (uuid_to_string <$> dt_gate_signal_ids task)
       (uuid_to_string <$> elements (dt_gate_signal_ids_ambient task))).

Definition parse_gate_signal_ids (m : gmap string string) : result (gmap string Uuid) WireError :=
  let? l := collect (λ ni : string * string,
                       let? id := parse_uuid ni.2 "TaskDispatch gate_signal_id" in Ok (ni.1, id))
              (map_to_list m) in
  Ok (list_to_map l).

Definition decode_dispatch (bytes : string) : result DispatchedTask WireError :=
  let? p := ok_or (wire_decode bytes) DecodeFailed in
  let? gates := parse_gate_signal_ids (td_gate_signal_ids p) in
  let? ambient := collect (λ id, parse_uuid id "TaskDispatch gate_signal_ids_ambient")
                    (td_gate_signal_ids_ambient p) in
  let? originating :=
    match td_originating_signal_id p with
    | Some s => let? id := parse_uuid s "TaskDispatch originating_signal_id" in Ok (Some id)
    | None => Ok None
    end in
  let? task_instance := parse_uuid (td_task_instance_id p) "TaskDispatch task_instance_id" in
  let? task := parse_uuid (td_task_id p) "TaskDispatch task_id" in
  let? instance := parse_uuid (td_workflow_instance_id p) "TaskDispatch workflow_instance_id" in
  let? workflow := parse_uuid (td_workflow_id p) "TaskDispatch workflow_id" in
  Ok (mkDispatchedTask task_instance task instance workflow (td_name p) (td_nix_expression_path p)
        (td_nix_args p) (td_outputs p) (td_inputs p) (td_secrets p) originating gates
        (list_to_set ambient)).

Definition encode_task_event (task : DispatchedTask) (executor_id : Uuid) (kind : EmitKind) : string :=
  encode_to_vec
    (mkTaskEvent
       (uuid_to_string (dt_task_instance_id task)) (uuid_to_string (dt_task_id task))
       (uuid_to_string (dt_workflow_instance_id task)) (uuid_to_string (dt_workflow_id task))
       (Some (uuid_to_string executor_id))
       (Some match kind with
             | Emit_Assigned => K_Assigned
             | Emit_Started => K_Started
             | Emit_Completed => K_Completed ∅ None None
             | Emit_Failed => K_Failed
             end)).

Definition encode_unhealthy_task_event (task : DispatchedTask) : string :=
  encode_to_vec
    (mkTaskEvent
       (uuid_to_string (dt_task_instance_id task)) (uuid_to_string (dt_task_id task))
       (uuid_to_string (dt_workflow_instance_id task)) (uuid_to_string (dt_workflow_id task))
       None (Some K_Unhealthy)).

Definition decode_cancel_request (bytes : string) : result CancelRequest WireError :=
  let? r := ok_or (wire_decode bytes) DecodeFailed in
  let? task := parse_uuid (ctr_task_instance_id r) "CancelTaskRequest task_instance_id" in
  let? instance := parse_uuid (ctr_workflow_instance_id r) "CancelTaskRequest workflow_instance_id" in
  Ok (mkCancelRequest task instance).

Definition encode_cancel_ack (task_instance workflow_instance : Uuid) (outcome : KillOutcome) : string :=
  encode_to_vec
    (mkCancelTaskAck (uuid_to_string task_instance) (uuid_to_string workflow_instance)
       (match outcome with Kill_Killed => 0 | Kill_NoSuchTask => 1 end)%Z).

(** ** What a dispatch must name before it is claimed *)

Inductive DispatchError :=
| DispatchWire (e : WireError)
| EmptyName
| EmptyExpressionPath
| ContainsNul.

Definition validate_dispatch (task : DispatchedTask) : result DispatchedTask DispatchError :=
  let? _ := ensure (negb (blank (dt_name task))) EmptyName in
  let? _ := ensure (negb (blank (dt_nix_expression_path task))) EmptyExpressionPath in
  let? _ := ensure (negb (existsb (contains_char "000"%char)
                            (dt_name task :: dt_nix_expression_path task :: dt_nix_args task)))
              ContainsNul in
  Ok task.

Definition accept_dispatch (payload : string) : result DispatchedTask DispatchError :=
  let? task := map_err DispatchWire (decode_dispatch payload) in
  validate_dispatch task.

(** ** Round trips *)

Lemma parse_uuid_to_string `{!UuidLaws Uuid} u field : parse_uuid (uuid_to_string u) field = Ok u.
Proof. unfold parse_uuid. by rewrite uuid_parse_to_string. Qed.

Lemma parse_gate_signal_ids_text `{!UuidLaws Uuid} (m : gmap string Uuid) :
  parse_gate_signal_ids (uuid_to_string <$> m) = Ok m.
Proof.
  unfold parse_gate_signal_ids.
  assert (collect (λ ni : string * string,
                     let? id := parse_uuid ni.2 "TaskDispatch gate_signal_id" in Ok (ni.1, id))
            (map_to_list (uuid_to_string <$> m)) = Ok (map_to_list m)) as ->.
  { apply collect_ok. rewrite map_to_list_fmap. apply Forall2_fmap_l, Forall_Forall2_diag, Forall_true.
    intros [name id]. simpl. by rewrite parse_uuid_to_string. }
  by rewrite list_to_map_to_list.
Qed.

Lemma collect_parse_text `{!UuidLaws Uuid} field (l : list Uuid) :
  collect (λ id, parse_uuid id field) (uuid_to_string <$> l) = Ok l.
Proof.
  apply collect_ok, Forall2_fmap_l, Forall_Forall2_diag, Forall_true.
  intros id. apply parse_uuid_to_string.
Qed.

(** C39: the executor reads back every dispatch it writes: decoding the encoded
    execution slice gives the same slice, its maps and sets of signal ids
    included. *)
Theorem dispatch_roundtrip `{!UuidLaws Uuid} `{!WireLaws TaskDispatch} (task : DispatchedTask) :
  decode_dispatch (encode_dispatch task) = Ok task.
Proof.
  unfold decode_dispatch, encode_dispatch. rewrite wire_decode_encode. simpl.
  rewrite parse_gate_signal_ids_text, collect_parse_text.
  destruct task as [ti t wi w name path args outs ins secs orig gates ambient]. simpl.
  rewrite list_to_set_elements_L. destruct orig; simpl; by rewrite !parse_uuid_to_string.
Qed.
End wire.

Arguments DispatchedTask Uuid {_ _}. Arguments CancelRequest Uuid : clear implicits.

(** ** A concrete encoding

    Any countable message type has an encoding, by the binary digits of its code. *)

Fixpoint digits_of_positive (p : positive) : string :=
  match p with
  | xH => ""
  | xO p => String "0" (digits_of_positive p)
  | xI p => String "1" (digits_of_positive p)
  end.

Fixpoint positive_of_digits (s : string) : positive :=
  match s with
  | EmptyString => xH
  | String c s => if decide (c = "0"%char) then xO (positive_of_digits s) else xI (positive_of_digits s)
  end.

Lemma positive_digits p : positive_of_digits (digits_of_positive p) = p.
Proof. induction p as [p IH|p IH|]; simpl; by rewrite ?IH. Qed.

Definition countable_wire M `{Countable M} : Wire M :=
  {| encode_to_vec m := digits_of_positive (encode m); wire_decode s := decode (positive_of_digits s) |}.

Lemma countable_wire_laws M `{Countable M} : @WireLaws M (countable_wire M).
Proof. split. intros m. simpl. by rewrite positive_digits, decode_encode. Qed.

#[global] Instance task_dispatch_eq_dec : EqDecision TaskDispatch.
Proof. solve_decision. Defined.
#[global] Instance task_dispatch_countable : Countable TaskDispatch.
Proof.
  apply (inj_countable'
    (λ d, (td_task_instance_id d, td_task_id d, td_workflow_instance_id d, td_workflow_id d, td_name d,
           td_task_type d, td_nix_expression_path d,
           (td_nix_args d, td_outputs d, td_inputs d, td_secrets d, td_tenant_id d,
            td_originating_signal_id d, td_gate_signal_ids d, td_gate_signal_ids_ambient d)))
    (λ x, let '(a, b, c, d, e, f, g, (h, i, j, k, l, m, n, o)) := x in
          mkTaskDispatch a b c d e f g h i j k l m n o)).
  by intros [].
Defined.

#[global] Instance cancel_request_eq_dec : EqDecision CancelTaskRequest.
Proof. solve_decision. Defined.
#[global] Instance cancel_request_countable : Countable CancelTaskRequest.
Proof.
  apply (inj_countable'
    (λ r, (ctr_task_instance_id r, ctr_task_id r, ctr_workflow_instance_id r, ctr_workflow_id r))
    (λ x, let '(a, b, c, d) := x in mkCancelTaskRequest a b c d)).
  by intros [].
Defined.

#[global] Instance cancel_ack_eq_dec : EqDecision CancelTaskAck.
Proof. solve_decision. Defined.
#[global] Instance cancel_ack_countable : Countable CancelTaskAck.
Proof.
  apply (inj_countable' (λ r, (cta_task_instance_id r, cta_workflow_instance_id r, cta_outcome r))
    (λ x, let '(a, b, c) := x in mkCancelTaskAck a b c)).
  by intros [].
Defined.

#[local] Instance demo_dispatch_wire : Wire TaskDispatch := countable_wire TaskDispatch.
#[local] Instance demo_dispatch_laws : WireLaws TaskDispatch := countable_wire_laws TaskDispatch.

Definition demo_task : DispatchedTask bit_uuid :=
  mkDispatchedTask (unary 1) (unary 2) (unary 3) (unary 4) "ship" "/p#expr" ["--flag"] ["out"] ["in"] ["sec"]
    (Some (unary 5)) {[ "approver" := unary 6 ]} {[ unary 7 ]}.

Lemma dispatch_roundtrip_witness : decode_dispatch (encode_dispatch demo_task) = Ok demo_task.
Proof. apply (dispatch_roundtrip demo_task). Defined.
