(* ===== verification/TaskPickup.v ===== *)
(** * The task pickup tables

    [task_pickup_repository.rs]: a dispatched task is staged, claimed by one
    executor, kept alive by renewed deadlines and ended by one terminal outcome;
    a cancellation raises a durable fence, before the dispatch, before its claim
    or after it, and is settled by an acknowledgement.  Each statement or
    transaction is an atomic step on six tables of decoded rows, with the keys,
    unique indexes and checks of [0006_local_task_pickups.sql],
    [0007_local_task_terminal_outcomes.sql] and
    [0008_local_task_cancellation_fences.sql] written out where an insert meets
    them.  Byte strings are strings and timestamps integers. *)

From S2P Require Import Prelude Uuid.

Definition MAX_DISPATCH_KEY_BYTES : nat := 128.
Definition MAX_OWNER_BYTES : nat := 128.
Definition i64_max : Z := 2 ^ 63 - 1.

(** [i64::checked_add(1)] *)
Definition checked_succ (n : Z) : option Z := if (n <? i64_max)%Z then Some (n + 1)%Z else None.

(** ** Values *)

Inductive DispatchState := D_Pending | D_Claimed | D_Rejected.

#[global] Instance dispatch_state_eq_dec : EqDecision DispatchState.
Proof. solve_decision. Defined.

Inductive TaskPickupTerminalOutcome :=
| ProcessExitedSuccess
| ProcessExitedFailure
| ProcessSetupFailed
| LivenessExpired
| CancellationKilled
| CancellationAlreadyExited
| CancellationNoProcess.

#[global] Instance terminal_outcome_eq_dec : EqDecision TaskPickupTerminalOutcome.
Proof. solve_decision. Defined.

Definition terminal_outcome_text (o : TaskPickupTerminalOutcome) : string :=
  match o with
  | ProcessExitedSuccess => "process-exited-success"
  | ProcessExitedFailure => "process-exited-failure"
  | ProcessSetupFailed => "process-setup-failed"
  | LivenessExpired => "liveness-expired"
  | CancellationKilled => "cancellation-killed"
  | CancellationAlreadyExited => "cancellation-already-exited"
  | CancellationNoProcess => "cancellation-no-process"
  end.

(** The kinds of staged events; their texts are the constructors' names. *)
Inductive EventKind := E_Assigned | E_Started | E_Completed | E_Failed | E_Unhealthy.

#[global] Instance event_kind_eq_dec : EqDecision EventKind.
Proof. solve_decision. Defined.
#[global] Instance event_kind_countable : Countable EventKind.
Proof.
  apply (inj_countable'
    (λ k, match k with E_Assigned => 0 | E_Started => 1 | E_Completed => 2 | E_Failed => 3
          | E_Unhealthy => 4 end)
    (λ n, match n with 0 => E_Assigned | 1 => E_Started | 2 => E_Completed | 3 => E_Failed
          | _ => E_Unhealthy end)).
  by intros [].
Defined.

Definition event_kind (o : TaskPickupTerminalOutcome) : option EventKind :=
  match o with
  | ProcessExitedSuccess => Some E_Completed
  | ProcessExitedFailure | ProcessSetupFailed => Some E_Failed
  | LivenessExpired => Some E_Unhealthy
  | CancellationKilled | CancellationAlreadyExited | CancellationNoProcess => None
  end.

(** [kind IN ('Completed', 'Failed', 'Unhealthy')] *)
Definition is_terminal_kind (k : EventKind) : bool :=
  match k with E_Completed | E_Failed | E_Unhealthy => true | _ => false end.

(** [CASE kind WHEN 'Assigned' THEN 0 WHEN 'Started' THEN 1 ELSE 2 END] *)
Definition kind_rank (k : EventKind) : nat :=
  match k with E_Assigned => 0 | E_Started => 1 | _ => 2 end.

Inductive TaskCancellationReconciliation := R_Killed | R_AlreadyExited | R_NoProcess.

#[global] Instance reconciliation_eq_dec : EqDecision TaskCancellationReconciliation.
Proof. solve_decision. Defined.

Definition reconciliation_text (r : TaskCancellationReconciliation) : string :=
  match r with
  | R_Killed => "killed" | R_AlreadyExited => "already-exited" | R_NoProcess => "no-process"
  end.

Definition parse_terminal_outcome (value : string) : option TaskPickupTerminalOutcome :=
  if decide (value = "process-exited-success") then Some ProcessExitedSuccess
  else if decide (value = "process-exited-failure") then Some ProcessExitedFailure
  else if decide (value = "process-setup-failed") then Some ProcessSetupFailed
  else if decide (value = "liveness-expired") then Some LivenessExpired
  else if decide (value = "cancellation-killed") then Some CancellationKilled
  else if decide (value = "cancellation-already-exited") then Some CancellationAlreadyExited
  else if decide (value = "cancellation-no-process") then Some CancellationNoProcess
  else None.

Definition parse_cancellation_reconciliation (value : string) : option TaskCancellationReconciliation :=
  if decide (value = "killed") then Some R_Killed
  else if decide (value = "already-exited") then Some R_AlreadyExited
  else if decide (value = "no-process") then Some R_NoProcess
  else None.

(** The texts of the tables read back as the values they were written from. *)
Lemma parse_outcome_text o : parse_terminal_outcome (terminal_outcome_text o) = Some o.
Proof. by destruct o. Qed.
Lemma parse_reconciliation_text r : parse_cancellation_reconciliation (reconciliation_text r) = Some r.
Proof. by destruct r. Qed.

Definition terminal_outcome (r : TaskCancellationReconciliation) : TaskPickupTerminalOutcome :=
  match r with
  | R_Killed => CancellationKilled
  | R_AlreadyExited => CancellationAlreadyExited
  | R_NoProcess => CancellationNoProcess
  end.

(** ** Rows *)

Record DispatchRow := mkDispatchRow {
  d_payload : string;
  d_state : DispatchState;
  d_generation : Z;
  d_owner : option string;
  d_deadline : option Z;
  d_armed_at : option Z;
  d_rejection : option string;
  d_identity : option (string * string);  (* task and workflow instance, both or none *)
  d_created_at : Z;
  d_updated_at : Z
}.

Record EventRow := mkEventRow {
  e_event : string;
  e_staged_at : Z;
  e_forwarded_at : option Z
}.

Record FenceRow := mkFenceRow {
  f_task : string;
  f_workflow : string;
  f_pickup : option (string * Z);  (* dispatch key and generation, both or none *)
  f_owner : option string;
  f_committed_at : Z;
  f_notified_at : option Z;
  f_settled : option (TaskCancellationReconciliation * Z)  (* both or none *)
}.

Record AckRow := mkAckRow {
  a_acknowledgement : string;
  a_staged_at : Z;
  a_forwarded_at : option Z
}.

Record PickupStore := mkPickupStore {
  dispatches : gmap string DispatchRow;
  outbox : gmap ((string * Z) * EventKind) EventRow;
  outcomes : gmap (string * Z) (TaskPickupTerminalOutcome * Z);
  quarantine : gmap string (string * string * Z);
  fences : gmap string FenceRow;
  acks : gmap string AckRow
}.

Definition empty_pickup_store : PickupStore := mkPickupStore ∅ ∅ ∅ ∅ ∅ ∅.

Definition set_dispatches (s : PickupStore) (t : gmap string DispatchRow) : PickupStore :=
  mkPickupStore t (outbox s) (outcomes s) (quarantine s) (fences s) (acks s).
Definition set_outbox (s : PickupStore) (t : gmap ((string * Z) * EventKind) EventRow) : PickupStore :=
  mkPickupStore (dispatches s) t (outcomes s) (quarantine s) (fences s) (acks s).
Definition set_outcomes (s : PickupStore) (t : gmap (string * Z) (TaskPickupTerminalOutcome * Z))
    : PickupStore :=
  mkPickupStore (dispatches s) (outbox s) t (quarantine s) (fences s) (acks s).
Definition set_fences (s : PickupStore) (t : gmap string FenceRow) : PickupStore :=
  mkPickupStore (dispatches s) (outbox s) (outcomes s) (quarantine s) t (acks s).
Definition set_acks (s : PickupStore) (t : gmap string AckRow) : PickupStore :=
  mkPickupStore (dispatches s) (outbox s) (outcomes s) (quarantine s) (fences s) t.

(** ** Requests and answers *)

Record TaskPickupClaim := mkTaskPickupClaim {
  c_dispatch_key : string;
  c_generation : Z;
  c_owner : string;
  c_deadline : Z
}.

Record ClaimTaskPickupInput := mkClaimTaskPickupInput {
  ci_dispatch_key : string;
  ci_owner : string;
  ci_deadline : Z;
  ci_assigned_event : string;
  ci_now : Z
}.

Inductive ClaimTaskPickupOutcome := ClaimCommitted (claim : TaskPickupClaim) | ClaimNotPending.

Inductive TaskPickupTerminalElection :=
| ElectionWon
| ElectionSettled (outcome : TaskPickupTerminalOutcome)
| ElectionNotClaimed.

Record TaskCancellationFence := mkTaskCancellationFence {
  tf_identity : string;
  tf_task : string;
  tf_workflow : string;
  tf_pickup : option (string * Z);
  tf_owner : option string;
  tf_notified : bool;
  tf_deadline : option Z;
  tf_outcome : option TaskPickupTerminalOutcome
}.

Inductive PickupError :=
| InvalidDispatchKey
| InvalidOwner
| InvalidDeadline
| GenerationOverflow (key : string)
| DispatchIdentityCollision (key : string)
| PickupCorruptValue
| InvalidCancellationIdentity
| PickupUniqueViolation.

(** ** Validation *)

Definition sized (n : nat) (s : string) : bool :=
  negb (bool_decide (s = "")) && (String.length s <=? n).

Definition validate_dispatch_key (key : string) : result unit PickupError :=
  ensure (sized MAX_DISPATCH_KEY_BYTES key) InvalidDispatchKey.

Definition validate_owner (owner : string) : result unit PickupError :=
  ensure (sized MAX_OWNER_BYTES owner) InvalidOwner.

Definition validate_cancellation_identity (identity : string) : result unit PickupError :=
  ensure (sized MAX_OWNER_BYTES identity) InvalidCancellationIdentity.

(** One identity without the other is refused. *)
Definition validate_optional_task_identity (task workflow : option string)
    : result (option (string * string)) PickupError :=
  match task, workflow with
  | None, None => Ok None
  | Some t, Some w =>
      let? _ := validate_cancellation_identity t in
      let? _ := validate_cancellation_identity w in
      Ok (Some (t, w))
  | _, _ => Err InvalidCancellationIdentity
  end.

Definition validate_claim_input (input : ClaimTaskPickupInput) : result unit PickupError :=
  let? _ := validate_dispatch_key (ci_dispatch_key input) in
  let? _ := validate_owner (ci_owner input) in
  ensure (ci_now input <? ci_deadline input)%Z InvalidDeadline.

Definition validate_claim_identity (claim : TaskPickupClaim) : result unit PickupError :=
  let? _ := validate_dispatch_key (c_dispatch_key claim) in
  let? _ := validate_owner (c_owner claim) in
  ensure (0 <? c_generation claim)%Z InvalidDeadline.

Definition validate_claim (claim : TaskPickupClaim) (deadline now : Z) : result unit PickupError :=
  let? _ := validate_dispatch_key (c_dispatch_key claim) in
  let? _ := validate_owner (c_owner claim) in
  ensure ((0 <? c_generation claim) && (now <? deadline))%Z InvalidDeadline.

(** ** Staging and selection *)

(** The unique index on the task identity. *)
Definition identity_taken (s : PickupStore) (identity : option (string * string)) : bool :=
  match identity with
  | None => false
  | Some _ => existsb (λ kd : string * DispatchRow, bool_decide (d_identity kd.2 = identity))
                (map_to_list (dispatches s))
  end.

(** Fences committed before the dispatch arrived are bound to its first claim. *)
Definition link_fence (key : string) (identity : string * string) (f : FenceRow) : FenceRow :=
  match f_pickup f with
  | Some _ => f
  | None => if bool_decide ((f_task f, f_workflow f) = identity)
            then mkFenceRow (f_task f) (f_workflow f) (Some (key, 1%Z)) (f_owner f)
                   (f_committed_at f) (f_notified_at f) (f_settled f)
            else f
  end.

Definition stage_task_dispatch (s : PickupStore) (key payload : string)
    (task workflow : option string) (now : Z) : result (bool * PickupStore) PickupError :=
  let? _ := validate_dispatch_key key in
  let? identity := validate_optional_task_identity task workflow in
  match dispatches s !! key with
  | None =>
      if identity_taken s identity then Err (DispatchIdentityCollision key)
      else
        let s1 := set_dispatches s
          (<[key := mkDispatchRow payload D_Pending 0 None None None None identity now now]>
             (dispatches s)) in
        Ok (true, match identity with
                  | Some i => set_fences s1 (link_fence key i <$> fences s1)
                  | None => s1
                  end)
  | Some d => if bool_decide (d_payload d = payload) then Ok (false, s)
              else Err (DispatchIdentityCollision key)
  end.

(** A fence on generation [g] of a dispatch, or on its task before it arrived. *)
Definition fence_covers (key : string) (d : DispatchRow) (g : Z) (f : FenceRow) : bool :=
  match f_pickup f with
  | Some p => bool_decide (p = (key, g))
  | None => bool_decide (d_identity d = Some (f_task f, f_workflow f))
  end.

Definition fenced (s : PickupStore) (key : string) (d : DispatchRow) (g : Z) : bool :=
  existsb (λ af : string * FenceRow, fence_covers key d g af.2) (map_to_list (fences s)).

(** [ORDER BY created_at, dispatch_key] *)
Definition leq_created (a b : string * DispatchRow) : bool :=
  if (d_created_at a.2 =? d_created_at b.2)%Z then string_leb a.1 b.1
  else (d_created_at a.2 <? d_created_at b.2)%Z.

Definition select_pending_task_dispatch (s : PickupStore) : option (string * string) :=
  (λ kd : string * DispatchRow, (kd.1, d_payload kd.2)) <$>
  head (select_rows leq_created
          (λ kd, bool_decide (d_state kd.2 = D_Pending)
                 && negb (fenced s kd.1 kd.2 (d_generation kd.2 + 1))) (dispatches s)).

Definition reject_row (reason : string) (now : Z) (d : DispatchRow) : DispatchRow :=
  mkDispatchRow (d_payload d) D_Rejected (d_generation d) (d_owner d) (d_deadline d) (d_armed_at d)
    (Some reason) (d_identity d) (d_created_at d) now.

Definition reject_task_dispatch (s : PickupStore) (key reason : string) (now : Z)
    : result (bool * PickupStore) PickupError :=
  let? _ := validate_dispatch_key key in
  match dispatches s !! key with
  | Some d =>
      if bool_decide (d_state d = D_Pending) then
        if quarantine s !! key is Some _ then Err PickupUniqueViolation
        else Ok (true, mkPickupStore (<[key := reject_row reason now d]> (dispatches s)) (outbox s)
                         (outcomes s) (<[key := (d_payload d, reason, now)]> (quarantine s))
                         (fences s) (acks s))
      else Ok (false, s)
  | None => Ok (false, s)
  end.

(** ** Claims *)

Definition claim_row (g : Z) (owner : string) (deadline now : Z) (d : DispatchRow) : DispatchRow :=
  mkDispatchRow (d_payload d) D_Claimed g (Some owner) (Some deadline) (d_armed_at d)
    (d_rejection d) (d_identity d) (d_created_at d) now.

(** Inserts into the outbox meet its key and the index on terminal kinds. *)
Definition terminal_staged (s : PickupStore) (p : string * Z) : bool :=
  existsb (λ ke : ((string * Z) * EventKind) * EventRow,
             bool_decide (ke.1.1 = p) && is_terminal_kind ke.1.2) (map_to_list (outbox s)).

Definition insert_event (s : PickupStore) (p : string * Z) (kind : EventKind) (event : string) (now : Z)
    : result PickupStore PickupError :=
  if outbox s !! (p, kind) is Some _ then Err PickupUniqueViolation
  else if is_terminal_kind kind && terminal_staged s p then Err PickupUniqueViolation
  else Ok (set_outbox s (<[(p, kind) := mkEventRow event now None]> (outbox s))).

Definition claim_task_pickup (s : PickupStore) (input : ClaimTaskPickupInput)
    : result (ClaimTaskPickupOutcome * PickupStore) PickupError :=
  let? _ := validate_claim_input input in
  let key := ci_dispatch_key input in
  match dispatches s !! key with
  | Some d =>
      if bool_decide (d_state d = D_Pending) then
        let? g := ok_or (checked_succ (d_generation d)) (GenerationOverflow key) in
        if fenced s key d g then Ok (ClaimNotPending, s)
        else
          let s1 := set_dispatches s
            (<[key := claim_row g (ci_owner input) (ci_deadline input) (ci_now input) d]>
               (dispatches s)) in
          let? s2 := insert_event s1 (key, g) E_Assigned (ci_assigned_event input) (ci_now input) in
          Ok (ClaimCommitted (mkTaskPickupClaim key g (ci_owner input) (ci_deadline input)), s2)
      else Ok (ClaimNotPending, s)
  | None => Ok (ClaimNotPending, s)
  end.

Definition staged (s : PickupStore) (p : string * Z) (kind : EventKind) : bool :=
  match outbox s !! (p, kind) with Some _ => true | None => false end.

Definition settled (s : PickupStore) (p : string * Z) : bool :=
  match outcomes s !! p with Some _ => true | None => false end.

Definition prove_ambiguous_task_pickup (s : PickupStore) (key owner assigned_event : string)
    : result (option TaskPickupClaim) PickupError :=
  let? _ := validate_dispatch_key key in
  let? _ := validate_owner owner in
  Ok match dispatches s !! key with
     | Some d =>
         match d_deadline d, outbox s !! ((key, d_generation d), E_Assigned) with
         | Some deadline, Some e =>
             if bool_decide (d_state d = D_Claimed) && bool_decide (d_owner d = Some owner)
                && bool_decide (e_event e = assigned_event)
             then Some (mkTaskPickupClaim key (d_generation d) owner deadline) else None
         | _, _ => None
         end
     | None => None
     end.

(** [state = 'claimed' AND pickup_generation = .. AND owner = ..] *)
Definition holds_claim (claim : TaskPickupClaim) (d : DispatchRow) : bool :=
  bool_decide (d_state d = D_Claimed) && bool_decide (d_generation d = c_generation claim)
  && bool_decide (d_owner d = Some (c_owner claim)).

Definition is_armed (d : DispatchRow) : bool :=
  match d_armed_at d with Some _ => true | None => false end.

Definition set_liveness (deadline : Z) (armed_at : option Z) (now : Z) (d : DispatchRow) : DispatchRow :=
  mkDispatchRow (d_payload d) (d_state d) (d_generation d) (d_owner d) (Some deadline) armed_at
    (d_rejection d) (d_identity d) (d_created_at d) now.

Definition claim_key (claim : TaskPickupClaim) : string * Z :=
  (c_dispatch_key claim, c_generation claim).

Definition update_claimed (s : PickupStore) (claim : TaskPickupClaim) (guard : DispatchRow → bool)
    (f : DispatchRow → DispatchRow) : bool * PickupStore :=
  match update_row (dispatches s) (c_dispatch_key claim)
          (λ d, holds_claim claim d && negb (settled s (claim_key claim)) && guard d) f with
  | Some t => (true, set_dispatches s t)
  | None => (false, s)
  end.

Definition arm_task_pickup_liveness (s : PickupStore) (claim : TaskPickupClaim) (deadline now : Z)
    : result (bool * PickupStore) PickupError :=
  let? _ := validate_claim claim deadline now in
  Ok (update_claimed s claim (λ _, staged s (claim_key claim) E_Assigned)
        (set_liveness deadline (Some now) now)).

Definition prove_task_pickup_ready (s : PickupStore) (claim : TaskPickupClaim) (assigned_event : string)
    : bool :=
  match dispatches s !! c_dispatch_key claim, outbox s !! (claim_key claim, E_Assigned) with
  | Some d, Some e =>
      holds_claim claim d && is_armed d && bool_decide (e_event e = assigned_event)
      && negb (settled s (claim_key claim))
      && negb (fenced s (c_dispatch_key claim) d (c_generation claim))
  | _, _ => false
  end.

(** [INSERT OR IGNORE .. SELECT]: a repeated event is not an error. *)
Definition stage_task_started (s : PickupStore) (claim : TaskPickupClaim) (event : string) (now : Z)
    : bool * PickupStore :=
  match dispatches s !! c_dispatch_key claim with
  | Some d =>
      if holds_claim claim d && is_armed d && negb (settled s (claim_key claim))
         && negb (staged s (claim_key claim) E_Started)
      then (true, set_outbox s (<[(claim_key claim, E_Started) := mkEventRow event now None]> (outbox s)))
      else (false, s)
  | None => (false, s)
  end.

Definition renew_task_pickup_liveness (s : PickupStore) (claim : TaskPickupClaim) (deadline now : Z)
    : result (bool * PickupStore) PickupError :=
  let? _ := validate_claim claim deadline now in
  Ok (update_claimed s claim is_armed (λ d, set_liveness deadline (d_armed_at d) now d)).

Definition register_task_pickup_liveness_failure (s : PickupStore) (claim : TaskPickupClaim) (now : Z)
    : result (bool * PickupStore) PickupError :=
  let? _ := validate_claim_identity claim in
  Ok (update_claimed s claim is_armed (λ d, set_liveness now (d_armed_at d) now d)).

(** ** Deadlines and terminal outcomes *)

(** [ORDER BY liveness_deadline, dispatch_key]; a claimed row has a deadline. *)
Definition leq_deadline (a b : string * DispatchRow) : bool :=
  match d_deadline a.2, d_deadline b.2 with
  | Some x, Some y => if (x =? y)%Z then string_leb a.1 b.1 else (x <? y)%Z
  | None, Some _ => true
  | Some _, None => false
  | None, None => string_leb a.1 b.1
  end.

Definition is_due (s : PickupStore) (now : Z) (kd : string * DispatchRow) : bool :=
  bool_decide (d_state kd.2 = D_Claimed)
  && match d_deadline kd.2 with Some deadline => (deadline <=? now)%Z | None => false end
  && negb (settled s (kd.1, d_generation kd.2)).

(** The claim and the payload of the longest overdue pickup. *)
Definition select_due_task_pickup (s : PickupStore) (now : Z) : option (TaskPickupClaim * string) :=
  kd ← head (select_rows leq_deadline (is_due s now) (dispatches s));
  owner ← d_owner kd.2;
  deadline ← d_deadline kd.2;
  Some (mkTaskPickupClaim kd.1 (d_generation kd.2) owner deadline, d_payload kd.2).

Definition elect_task_pickup_terminal (s : PickupStore) (claim : TaskPickupClaim)
    (outcome : TaskPickupTerminalOutcome) (event : string) (now : Z)
    : result (TaskPickupTerminalElection * PickupStore) PickupError :=
  let? _ := validate_claim_identity claim in
  let? kind := ok_or (event_kind outcome) PickupCorruptValue in
  let p := claim_key claim in
  let held := match dispatches s !! c_dispatch_key claim with
              | Some d => holds_claim claim d
              | None => false
              end in
  match outcomes s !! p with
  | None =>
      if held then
        let? s2 := insert_event (set_outcomes s (<[p := (outcome, now)]> (outcomes s))) p kind event now in
        Ok (ElectionWon, s2)
      else Ok (ElectionNotClaimed, s)
  | Some (settled_as, _) => Ok (ElectionSettled settled_as, s)
  end.

(** [ORDER BY staged_at, dispatch_key, pickup_generation, kind rank] *)
Definition leq_event (a b : ((string * Z) * EventKind) * EventRow) : bool :=
  let '(((ka, ga), kinda), ea) := a in
  let '(((kb, gb), kindb), eb) := b in
  if (e_staged_at ea =? e_staged_at eb)%Z then
    if bool_decide (ka = kb) then
      if (ga =? gb)%Z then (kind_rank kinda <=? kind_rank kindb) else (ga <? gb)%Z
    else string_leb ka kb
  else (e_staged_at ea <? e_staged_at eb)%Z.

Definition unforwarded (e : EventRow) : bool :=
  match e_forwarded_at e with None => true | Some _ => false end.

Record PendingTaskEvent := mkPendingTaskEvent {
  pe_pickup : string * Z;
  pe_kind : EventKind;
  pe_event : string
}.

Definition select_pending_task_event (s : PickupStore) : option PendingTaskEvent :=
  (λ ke : ((string * Z) * EventKind) * EventRow, mkPendingTaskEvent ke.1.1 ke.1.2 (e_event ke.2)) <$>
  head (select_rows leq_event (λ ke, unforwarded ke.2) (outbox s)).

Definition mark_task_event_forwarded (s : PickupStore) (event : PendingTaskEvent) (now : Z)
    : bool * PickupStore :=
  match update_row (outbox s) (pe_pickup event, pe_kind event)
          (λ e, bool_decide (e_event e = pe_event event) && unforwarded e)
          (λ e, mkEventRow (e_event e) (e_staged_at e) (Some now)) with
  | Some t => (true, set_outbox s t)
  | None => (false, s)
  end.

(** ** Cancellation *)

(** The fence as it is loaded, joined with its dispatch and its outcome. *)
Definition load_fence (s : PickupStore) (identity : string) (f : FenceRow) : TaskCancellationFence :=
  mkTaskCancellationFence identity (f_task f) (f_workflow f) (f_pickup f) (f_owner f)
    (match f_notified_at f with Some _ => true | None => false end)
    (p ← f_pickup f; d ← dispatches s !! p.1; d_deadline d)
    (p ← f_pickup f; o ← outcomes s !! p; Some o.1).

(** The dispatch of a task; the identity is unique. *)
Definition dispatch_of (s : PickupStore) (task workflow : string) : option (string * DispatchRow) :=
  List.find (λ kd : string * DispatchRow, bool_decide (d_identity kd.2 = Some (task, workflow)))
    (map_to_list (dispatches s)).

Definition fence_pickup (task : string) (pickup : option (string * DispatchRow))
    : result (option (string * Z) * option string) PickupError :=
  match pickup with
  | Some (key, d) =>
      match d_state d with
      | D_Pending =>
          let? g := ok_or (checked_succ (d_generation d)) (GenerationOverflow task) in
          Ok (Some (key, g), None)
      | _ => Ok (Some (key, d_generation d), d_owner d)
      end
  | None => Ok (None, None)
  end.

(** The unique index on the task of a fence. *)
Definition fence_taken (s : PickupStore) (task workflow : string) : bool :=
  existsb (λ af : string * FenceRow, bool_decide ((f_task af.2, f_workflow af.2) = (task, workflow)))
    (map_to_list (fences s)).

(** [CHECK (pickup_generation > 0)] *)
Definition fence_checked (pickup : option (string * Z)) : bool :=
  match pickup with Some (_, g) => (0 <? g)%Z | None => true end.

(** [INSERT OR IGNORE] skips a row that breaks a key, an index or the check; the
    fence is then loaded by its identity. *)
Definition commit_task_cancellation_fence (s : PickupStore) (identity task workflow : string) (now : Z)
    : result (TaskCancellationFence * PickupStore) PickupError :=
  let? _ := validate_cancellation_identity identity in
  let? _ := validate_cancellation_identity task in
  let? _ := validate_cancellation_identity workflow in
  let? po := fence_pickup task (dispatch_of s task workflow) in
  let ignored := match fences s !! identity with Some _ => true | None => false end
                 || fence_taken s task workflow || negb (fence_checked po.1) in
  let s1 := if ignored then s
            else set_fences s (<[identity := mkFenceRow task workflow po.1 po.2 now None None]>
                                 (fences s)) in
  match fences s1 !! identity with
  | Some f => Ok (load_fence s1 identity f, s1)
  | None => Err PickupCorruptValue
  end.

Definition mark_task_cancellation_owner_notified (s : PickupStore) (fence : TaskCancellationFence)
    (now : Z) : bool * PickupStore :=
  match update_row (fences s) (tf_identity fence)
          (λ f, match f_owner f, f_settled f with Some _, None => true | _, _ => false end)
          (λ f, mkFenceRow (f_task f) (f_workflow f) (f_pickup f) (f_owner f) (f_committed_at f)
                  (Some (default now (f_notified_at f))) (f_settled f)) with
  | Some t => (true, set_fences s t)
  | None => (false, s)
  end.

(** The pickup a fence may settle: its own claim, or the claim it forestalled. *)
Definition fence_may_settle (s : PickupStore) (f : FenceRow) : option (string * Z) :=
  p ← f_pickup f;
  d ← dispatches s !! p.1;
  if (bool_decide (d_state d = D_Claimed) && bool_decide (d_generation d = p.2)
      && match d_owner d, f_owner f with Some a, Some b => bool_decide (a = b) | _, _ => false end)
     || (bool_decide (d_state d = D_Pending) && bool_decide (d_generation d + 1 = p.2)%Z
         && match f_owner f with None => true | Some _ => false end)
  then Some p else None.

Definition settle_row (r : TaskCancellationReconciliation) (now : Z) (f : FenceRow) : FenceRow :=
  mkFenceRow (f_task f) (f_workflow f) (f_pickup f) (f_owner f) (f_committed_at f) (f_notified_at f)
    (Some (default (r, now) (f_settled f))).

Definition insert_ack (s : PickupStore) (identity acknowledgement : string) (now : Z)
    : result PickupStore PickupError :=
  match fences s !! identity with
  | None => Err PickupUniqueViolation  (* the foreign key *)
  | Some _ =>
      Ok match acks s !! identity with
         | Some _ => s
         | None => set_acks s (<[identity := mkAckRow acknowledgement now None]> (acks s))
         end
  end.

Definition settle_task_cancellation (s : PickupStore) (fence : TaskCancellationFence)
    (r : TaskCancellationReconciliation) (acknowledgement : string) (now : Z)
    : result (option TaskPickupTerminalElection * PickupStore) PickupError :=
  let identity := tf_identity fence in
  let '(inserted, s1) :=
    match tf_pickup fence with
    | Some (key, g) =>
        match fences s !! identity ≫= fence_may_settle s with
        | Some p =>
            if settled s p then (false, s)
            else (negb (bool_decide (key = "")) && (0 <? g)%Z,
                  set_outcomes s (<[p := (terminal_outcome r, now)]> (outcomes s)))
        | None => (false, s)
        end
    | None => (false, s)
    end in
  let settled_as := p ← tf_pickup fence; o ← outcomes s1 !! p; Some o.1 in
  let s2 := set_fences s1 (alter (settle_row r now) identity (fences s1)) in
  let? s3 := insert_ack s2 identity acknowledgement now in
  Ok ((λ o, if inserted : bool then ElectionWon else ElectionSettled o) <$> settled_as, s3).

(** [ORDER BY committed_at, acknowledgement_identity] *)
Definition leq_fence (a b : string * FenceRow) : bool :=
  if (f_committed_at a.2 =? f_committed_at b.2)%Z then string_leb a.1 b.1
  else (f_committed_at a.2 <? f_committed_at b.2)%Z.

Definition select_fence (s : PickupStore) (p : string * FenceRow → bool) : option TaskCancellationFence :=
  (λ af : string * FenceRow, load_fence s af.1 af.2) <$> head (select_rows leq_fence p (fences s)).

Definition select_unresolved_task_cancellation (s : PickupStore) : option TaskCancellationFence :=
  select_fence s (λ af, match f_settled af.2 with None => true | Some _ => false end).

Definition leq_ack (a b : string * AckRow) : bool :=
  if (a_staged_at a.2 =? a_staged_at b.2)%Z then string_leb a.1 b.1
  else (a_staged_at a.2 <? a_staged_at b.2)%Z.

Definition ack_unforwarded (a : AckRow) : bool :=
  match a_forwarded_at a with None => true | Some _ => false end.

Definition select_pending_task_cancellation_ack (s : PickupStore) : option (string * string) :=
  (λ ia : string * AckRow, (ia.1, a_acknowledgement ia.2)) <$>
  head (select_rows leq_ack (λ ia, ack_unforwarded ia.2) (acks s)).

Definition mark_task_cancellation_ack_forwarded (s : PickupStore) (identity acknowledgement : string)
    (now : Z) : bool * PickupStore :=
  match update_row (acks s) identity
          (λ a, bool_decide (a_acknowledgement a = acknowledgement) && ack_unforwarded a)
          (λ a, mkAckRow (a_acknowledgement a) (a_staged_at a) (Some now)) with
  | Some t => (true, set_acks s t)
  | None => (false, s)
  end.

(** ** Reads *)

Record TaskPickupSnapshot := mkTaskPickupSnapshot {
  ps_state : DispatchState;
  ps_generation : Z;
  ps_owner : option string;
  ps_deadline : option Z;
  ps_armed_at : option Z;
  ps_rejection : option string;
  ps_staged : list EventKind;
  ps_quarantined : bool;
  ps_outcome : option TaskPickupTerminalOutcome;
  ps_forwarded : list EventKind;
  ps_fence : option TaskCancellationFence;
  ps_reconciliation : option TaskCancellationReconciliation;
  ps_ack_forwarded : bool
}.

(** [ORDER BY pickup_generation, kind rank] *)
Definition leq_snapshot_event (a b : ((string * Z) * EventKind) * EventRow) : bool :=
  if (a.1.1.2 =? b.1.1.2)%Z then (kind_rank a.1.2 <=? kind_rank b.1.2) else (a.1.1.2 <? b.1.1.2)%Z.

Definition kinds_of (s : PickupStore) (key : string) (p : EventRow → bool) : list EventKind :=
  (λ ke : ((string * Z) * EventKind) * EventRow, ke.1.2) <$>
  select_rows leq_snapshot_event (λ ke, bool_decide (ke.1.1.1 = key) && p ke.2) (outbox s).

Definition fence_on (key : string) (af : string * FenceRow) : bool :=
  match f_pickup af.2 with Some (k, _) => bool_decide (k = key) | None => false end.

Definition task_pickup_snapshot (s : PickupStore) (key : string) : option TaskPickupSnapshot :=
  d ← dispatches s !! key;
  Some (mkTaskPickupSnapshot (d_state d) (d_generation d) (d_owner d) (d_deadline d) (d_armed_at d)
          (d_rejection d) (kinds_of s key (λ _, true))
          (match quarantine s !! key with Some _ => true | None => false end)
          (fst <$> outcomes s !! (key, d_generation d))
          (kinds_of s key (λ e, negb (unforwarded e)))
          (select_fence s (fence_on key))
          (af ← List.find (fence_on key) (map_to_list (fences s)); fst <$> f_settled af.2)
          (Nat.eqb 1 (length
             (List.filter (λ af : string * FenceRow, fence_on key af &&
                             match acks s !! af.1 with
                             | Some a => negb (ack_unforwarded a)
                             | None => false
                             end) (map_to_list (fences s)))))).

Section log_streams.
Context `{UuidOps Uuid}.

Record LocalTaskLogStream := mkLocalTaskLogStream {
  ls_task_instance : Uuid;
  ls_generation : Z
}.

(** [ORDER BY task_instance_id] *)
Definition leq_task (a b : string * DispatchRow) : bool :=
  string_leb (default "" (fst <$> d_identity a.2)) (default "" (fst <$> d_identity b.2)).

Definition log_stream (kd : string * DispatchRow) : result LocalTaskLogStream PickupError :=
  let? task := ok_or (d_identity kd.2 ≫= λ i, uuid_parse_str i.1) PickupCorruptValue in
  Ok (mkLocalTaskLogStream task (d_generation kd.2)).

Definition log_streams (s : PickupStore) (p : string → bool)
    : result (list LocalTaskLogStream) PickupError :=
  collect log_stream
    (select_rows leq_task
       (λ kd, match d_identity kd.2 with
              | Some (_, w) => p w && (0 <? d_generation kd.2)%Z
              | None => false
              end) (dispatches s)).

Definition local_task_log_streams_for_workflow_instance (s : PickupStore) (workflow : Uuid)
    : result (list LocalTaskLogStream) PickupError :=
  log_streams s (λ w, bool_decide (w = uuid_to_string workflow)).

Definition all_local_task_log_streams (s : PickupStore) : result (list LocalTaskLogStream) PickupError :=
  log_streams s (λ _, true).
End log_streams.
