(* ===== verification/TaskPickupFacts.v ===== *)
(** * What the task pickup tables promise

    The invariant of the six tables, kept by every transaction: a dispatch is
    claimed at most once, by one owner, in generation 1; a terminal outcome is
    elected once and carries its event; and a fence that found no claim forestalls
    every later one. *)

From S2P Require Import Prelude Uuid TaskPickup.

Implicit Types (s : PickupStore) (d : DispatchRow) (f : FenceRow).

(** ** The invariant *)

Definition row_ok s (k : string) d : Prop :=
  match d_state d with
  | D_Pending => d_generation d = 0%Z ∧ d_owner d = None ∧ d_deadline d = None ∧
                 d_armed_at d = None ∧ d_rejection d = None
  | D_Claimed => d_generation d = 1%Z ∧ is_Some (d_owner d) ∧ is_Some (d_deadline d) ∧
                 d_rejection d = None ∧ is_Some (outbox s !! ((k, 1%Z), E_Assigned))
  | D_Rejected => d_generation d = 0%Z ∧ d_owner d = None ∧ d_deadline d = None ∧
                  d_armed_at d = None ∧ is_Some (d_rejection d)
  end.

(** A fence on a claim names its owner; one without an owner has forestalled it. *)
Definition fence_ok s f : Prop :=
  match f_pickup f with
  | None => f_owner f = None ∧
      ∀ k d, dispatches s !! k = Some d → d_identity d ≠ Some (f_task f, f_workflow f)
  | Some (k, g) => g = 1%Z ∧ ∃ d, dispatches s !! k = Some d ∧
      d_identity d = Some (f_task f, f_workflow f) ∧
      match f_owner f with
      | Some o => d_state d = D_Claimed ∧ d_owner d = Some o
      | None => d_state d ≠ D_Claimed
      end
  end.

Record pickup_ok s : Prop := {
  pk_row : ∀ k d, dispatches s !! k = Some d → row_ok s k d;
  pk_identity : ∀ k k' d d' i, dispatches s !! k = Some d → dispatches s !! k' = Some d' →
    d_identity d = Some i → d_identity d' = Some i → k = k';
  pk_event : ∀ k g kind e, outbox s !! ((k, g), kind) = Some e →
    g = 1%Z ∧ (∃ d, dispatches s !! k = Some d ∧ d_state d = D_Claimed) ∧
    (is_terminal_kind kind = true →
     ∃ o at_, outcomes s !! (k, g) = Some (o, at_) ∧ event_kind o = Some kind);
  pk_outcome : ∀ k g o at_, outcomes s !! (k, g) = Some (o, at_) →
    g = 1%Z ∧ is_Some (dispatches s !! k) ∧
    (∀ kind, event_kind o = Some kind → is_Some (outbox s !! ((k, g), kind)));
  pk_fence : ∀ a f, fences s !! a = Some f → fence_ok s f;
  pk_fence_identity : ∀ a a' f f', fences s !! a = Some f → fences s !! a' = Some f' →
    (f_task f, f_workflow f) = (f_task f', f_workflow f') → a = a';
  pk_quarantine : ∀ k, is_Some (quarantine s !! k) →
    ∃ d, dispatches s !! k = Some d ∧ d_state d = D_Rejected;
  pk_ack : ∀ a, is_Some (acks s !! a) ↔ ∃ f, fences s !! a = Some f ∧ is_Some (f_settled f)
}.

Lemma empty_pickup_ok : pickup_ok empty_pickup_store.
Proof.
  split; simpl; try (by intros *; rewrite lookup_empty; try intros [? ?]).
  intros a. rewrite !lookup_empty. split; [by intros [? ?]|by intros (? & ? & _)].
Qed.

(** ** How the tables evolve *)

Inductive dispatch_moves : DispatchState → DispatchState → Prop :=
| dm_same st : dispatch_moves st st
| dm_claim : dispatch_moves D_Pending D_Claimed
| dm_reject : dispatch_moves D_Pending D_Rejected.

Record dispatch_evolves d d' : Prop := {
  re_payload : d_payload d' = d_payload d;
  re_identity : d_identity d' = d_identity d;
  re_created : d_created_at d' = d_created_at d;
  re_moves : dispatch_moves (d_state d) (d_state d');
  re_claim : d_state d = D_Claimed → d_generation d' = d_generation d ∧ d_owner d' = d_owner d
}.

Record fence_evolves f f' : Prop := {
  fe_task : (f_task f', f_workflow f') = (f_task f, f_workflow f);
  fe_owner : f_owner f' = f_owner f;
  fe_pickup : ∀ p, f_pickup f = Some p → f_pickup f' = Some p;
  fe_settled : ∀ r, f_settled f = Some r → f_settled f' = Some r
}.

(** Nothing is lost; outcomes, events and acknowledgements never change. *)
Record pickup_evolves s s' : Prop := {
  pv_dispatches : ∀ k d, dispatches s !! k = Some d →
    ∃ d', dispatches s' !! k = Some d' ∧ dispatch_evolves d d';
  pv_outcomes : ∀ p o, outcomes s !! p = Some o → outcomes s' !! p = Some o;
  pv_events : ∀ ke e, outbox s !! ke = Some e →
    ∃ e', outbox s' !! ke = Some e' ∧ e_event e' = e_event e ∧ e_staged_at e' = e_staged_at e;
  pv_fences : ∀ a f, fences s !! a = Some f → ∃ f', fences s' !! a = Some f' ∧ fence_evolves f f';
  pv_acks : ∀ a r, acks s !! a = Some r →
    ∃ r', acks s' !! a = Some r' ∧ a_acknowledgement r' = a_acknowledgement r
}.

Lemma dispatch_evolves_refl d : dispatch_evolves d d.
Proof. split; [done..|constructor|done]. Qed.

Lemma dispatch_evolves_trans d1 d2 d3 : dispatch_evolves d1 d2 → dispatch_evolves d2 d3 → dispatch_evolves d1 d3.
Proof.
  intros [P1 I1 C1 M1 O1] [P2 I2 C2 M2 O2]. split; try congruence.
  - destruct M1; [done|..]; inversion M2; constructor.
  - intros Hc. destruct (O1 Hc) as [<- <-]. apply O2. rewrite Hc in M1. by inversion M1.
Qed.

Lemma fence_evolves_refl f : fence_evolves f f.
Proof. by split. Qed.

Lemma fence_evolves_trans f1 f2 f3 : fence_evolves f1 f2 → fence_evolves f2 f3 → fence_evolves f1 f3.
Proof. intros [T1 O1 P1 S1] [T2 O2 P2 S2]. split; [congruence|congruence|auto|auto]. Qed.

Lemma pickup_evolves_refl s : pickup_evolves s s.
Proof. split; eauto using dispatch_evolves_refl, fence_evolves_refl. Qed.

Lemma pickup_evolves_trans s1 s2 s3 : pickup_evolves s1 s2 → pickup_evolves s2 s3 → pickup_evolves s1 s3.
Proof.
  intros [D1 O1 E1 F1 A1] [D2 O2 E2 F2 A2]. split.
  - intros k d (d2 & (d3 & ? & ?)%D2 & ?)%D1. eauto using dispatch_evolves_trans.
  - auto.
  - intros ke e (e2 & He2 & ? & ?)%E1. destruct (E2 _ _ He2) as (e3 & ? & ? & ?).
    exists e3. split_and!; congruence.
  - intros a f (f2 & (f3 & ? & ?)%F2 & ?)%F1. eauto using fence_evolves_trans.
  - intros a r (r2 & Hr2 & ?)%A1. destruct (A2 _ _ Hr2) as (r3 & ? & ?). exists r3. split; congruence.
Qed.

Definition pickup_sound s s' : Prop := pickup_ok s → pickup_ok s' ∧ pickup_evolves s s'.

Lemma pickup_sound_refl s : pickup_sound s s.
Proof. split; [done|apply pickup_evolves_refl]. Qed.

Lemma pickup_sound_trans s1 s2 s3 : pickup_sound s1 s2 → pickup_sound s2 s3 → pickup_sound s1 s3.
Proof.
  intros H12 H23 [Hok2 Hev12]%H12. destruct (H23 Hok2) as [Hok3 Hev23].
  split; [done|by eapply pickup_evolves_trans].
Qed.

(** ** Changing one dispatch *)

Definition with_dispatch s (k : string) d ob : PickupStore :=
  mkPickupStore (<[k := d]> (dispatches s)) ob (outcomes s) (quarantine s) (fences s) (acks s).

(** A claim needs a dispatch that no fence has forestalled, and stages its event. *)
Record dispatch_step s (k : string) d d' (ob : gmap ((string * Z) * EventKind) EventRow) : Prop := {
  ds_old : dispatches s !! k = Some d;
  ds_evolves : dispatch_evolves d d';
  ds_row : row_ok (with_dispatch s k d' ob) k d';
  ds_claim : d_state d ≠ D_Claimed → d_state d' = D_Claimed →
    ∀ a f g, fences s !! a = Some f → f_pickup f ≠ Some (k, g);
  ds_quarantine : is_Some (quarantine s !! k) → d_state d' = D_Rejected;
  ds_keeps : ∀ ke e, outbox s !! ke = Some e → ob !! ke = Some e;
  ds_new : ∀ ke e, ob !! ke = Some e →
    outbox s !! ke = Some e ∨ (ke = ((k, 1%Z), E_Assigned) ∧ d_state d' = D_Claimed)
}.

Lemma moves_claimed st : dispatch_moves D_Claimed st → st = D_Claimed.
Proof. by inversion 1. Qed.

Section one_dispatch.
Context s (k : string) d d' (ob : gmap ((string * Z) * EventKind) EventRow) (Hstep : dispatch_step s k d d' ob).
Local Abbreviation s' := (with_dispatch s k d' ob).

Lemma dispatch_back k0 d0 :
  dispatches s' !! k0 = Some d0 → ∃ d1, dispatches s !! k0 = Some d1 ∧ dispatch_evolves d1 d0.
Proof.
  simpl. rewrite lookup_insert_Some. intros [[<- <-]|[_ Hk0]]; [|eauto using dispatch_evolves_refl].
  destruct Hstep. eauto.
Qed.

Lemma dispatch_forth k0 d0 :
  dispatches s !! k0 = Some d0 → ∃ d1, dispatches s' !! k0 = Some d1 ∧ dispatch_evolves d0 d1.
Proof.
  intros Hk0. destruct Hstep as [Hd Hev _ _ _ _ _]. simpl. destruct (decide (k0 = k)) as [->|Hne].
  - rewrite lookup_insert_eq. exists d'. split; [done|]. congruence.
  - rewrite lookup_insert_ne by done. eauto using dispatch_evolves_refl.
Qed.

Lemma dispatch_row_ok : pickup_ok s → ∀ k0 d0, dispatches s' !! k0 = Some d0 → row_ok s' k0 d0.
Proof.
  intros Hok k0 d0. simpl. rewrite lookup_insert_Some. destruct Hstep as [_ _ Hrow _ _ Hkeep _].
  intros [[<- <-]|[Hne Hk0]]; [done|]. pose proof (pk_row _ Hok _ _ Hk0) as Hr. revert Hr.
  unfold row_ok. destruct (d_state d0); try done. intros (? & ? & ? & ? & [e He]).
  split_and!; try done. exists e. by apply Hkeep.
Qed.

Lemma dispatch_fence_ok : pickup_ok s → ∀ a f, fences s' !! a = Some f → fence_ok s' f.
Proof.
  intros Hok a f Hf. pose proof (pk_fence _ Hok _ _ Hf) as Hfo. unfold fence_ok in *.
  destruct (f_pickup f) as [[k1 g]|] eqn:Hp.
  - destruct Hfo as (-> & d1 & Hd1 & Hid & Hst). split; [done|].
    destruct (dispatch_forth _ _ Hd1) as (d2 & Hd2 & [_ Hid2 _ Hm Hcl]). exists d2.
    split_and!; [done|congruence|]. destruct (f_owner f) as [o|].
    + destruct Hst as [Hst Ho]. rewrite Hst in Hm. apply moves_claimed in Hm. split; [done|].
      destruct (Hcl Hst) as [_ ->]. done.
    + intros Hc2. destruct (decide (k1 = k)) as [->|Hne].
      * simpl in Hd2. rewrite lookup_insert_eq in Hd2. injection Hd2 as <-.
        pose proof (ds_old _ _ _ _ _ Hstep). simplify_eq.
        by apply (ds_claim _ _ _ _ _ Hstep Hst Hc2 a f 1%Z).
      * simpl in Hd2. rewrite lookup_insert_ne in Hd2 by done. congruence.
  - destruct Hfo as [Ho Hnone]. split; [done|]. intros k1 d1 (d0 & Hd0 & Hev)%dispatch_back.
    rewrite (re_identity _ _ Hev). by eapply Hnone.
Qed.

Lemma dispatch_event_ok : pickup_ok s → ∀ k0 g kind e, outbox s' !! ((k0, g), kind) = Some e →
  g = 1%Z ∧ (∃ d0, dispatches s' !! k0 = Some d0 ∧ d_state d0 = D_Claimed) ∧
  (is_terminal_kind kind = true →
   ∃ o at_, outcomes s' !! (k0, g) = Some (o, at_) ∧ event_kind o = Some kind).
Proof.
  intros Hok k0 g kind e [He|[[= -> -> ->] Hc]]%(ds_new _ _ _ _ _ Hstep).
  - apply (pk_event _ Hok) in He as (-> & (d0 & Hd0 & Hst) & Ht). split_and!; [done| |done].
    destruct (dispatch_forth _ _ Hd0) as (d1 & Hd1 & Hev). exists d1. split; [done|].
    pose proof (re_moves _ _ Hev) as Hm. rewrite Hst in Hm. by apply moves_claimed.
  - split_and!; [done| |done]. exists d'. split; [|done]. simpl. by rewrite lookup_insert_eq.
Qed.

Lemma dispatch_step_sound : pickup_sound s s'.
Proof.
  intros Hok. split; [split|split].
  - by apply dispatch_row_ok.
  - intros k1 k2 d1 d2 i (e1 & H1 & Hev1)%dispatch_back (e2 & H2 & Hev2)%dispatch_back.
    rewrite (re_identity _ _ Hev1), (re_identity _ _ Hev2). by apply (pk_identity _ Hok _ _ _ _ _ H1 H2).
  - by apply dispatch_event_ok.
  - intros k0 g o at_ Ho. apply (pk_outcome _ Hok) in Ho as (-> & [d0 Hd0] & Hev).
    split_and!; [done| |].
    + destruct (dispatch_forth _ _ Hd0) as (d1 & Hd1 & _). eauto.
    + intros kind [e He]%Hev. exists e. by apply Hstep.
  - by apply dispatch_fence_ok.
  - apply (pk_fence_identity _ Hok).
  - intros k0 Hq. destruct (pk_quarantine _ Hok _ Hq) as (d0 & Hd0 & Hst). simpl.
    destruct (decide (k0 = k)) as [->|Hne].
    + exists d'. rewrite lookup_insert_eq. split; [done|]. by apply Hstep.
    + exists d0. by rewrite lookup_insert_ne.
  - apply (pk_ack _ Hok).
  - apply dispatch_forth.
  - done.
  - intros ke e He. exists e. split; [by apply Hstep|done].
  - eauto using fence_evolves_refl.
  - eauto.
Qed.
End one_dispatch.

Lemma holds_claim_inv claim d :
  holds_claim claim d = true →
  d_state d = D_Claimed ∧ d_generation d = c_generation claim ∧ d_owner d = Some (c_owner claim).
Proof.
  unfold holds_claim. intros [[Hs%bool_decide_eq_true Hg%bool_decide_eq_true]%andb_true_iff
                             Ho%bool_decide_eq_true]%andb_true_iff. done.
Qed.

Lemma update_claimed_sound s claim guard deadline (armed : DispatchRow → option Z) now :
  pickup_sound s (update_claimed s claim guard (λ d, set_liveness deadline (armed d) now d)).2.
Proof.
  unfold update_claimed. destruct (update_row _ _ _ _) as [t|] eqn:Hu; [|apply pickup_sound_refl].
  apply update_row_Some in Hu as (d & Hd & Hg & ->). simpl. intros Hok.
  apply andb_true_iff in Hg as [[(Hst & _)%holds_claim_inv _]%andb_true_iff _].
  apply (dispatch_step_sound s (c_dispatch_key claim) d (set_liveness deadline (armed d) now d) (outbox s));
    [|done].
  pose proof (pk_row _ Hok _ _ Hd) as Hrow. split; try done.
  - split; try done. constructor.
  - revert Hrow. unfold row_ok, set_liveness. simpl. rewrite Hst. naive_solver.
  - intros [d0 [Hd0 Hrej]]%(pk_quarantine _ Hok). simpl. congruence.
  - by left.
Qed.

Lemma quarantine_insert_ok s k d q :
  pickup_ok s → dispatches s !! k = Some d → d_state d = D_Rejected →
  pickup_ok (mkPickupStore (dispatches s) (outbox s) (outcomes s) (<[k := q]> (quarantine s))
               (fences s) (acks s)).
Proof.
  intros [Hr Hi He Ho Hf Hfi Hq Ha] Hd Hst. split; try done. simpl.
  intros k0. rewrite lookup_insert_is_Some'. intros [->|?]; [eauto|auto].
Qed.

Lemma reject_sound s key reason now b s' :
  reject_task_dispatch s key reason now = Ok (b, s') → pickup_sound s s'.
Proof.
  unfold reject_task_dispatch. destruct (validate_dispatch_key key); [|done].
  destruct (dispatches s !! key) as [d|] eqn:Hd; [|intros [= _ <-]; apply pickup_sound_refl].
  case_bool_decide as Hst; [|intros [= _ <-]; apply pickup_sound_refl].
  destruct (quarantine s !! key) eqn:Hq; [done|]. intros [= _ <-] Hok.
  destruct (dispatch_step_sound s key d (reject_row reason now d) (outbox s)) as [Hok1 Hev1]; [|done|].
  { pose proof (pk_row _ Hok _ _ Hd) as Hrow. split; try done.
    - split; simpl; try done. rewrite Hst. constructor.
    - revert Hrow. unfold row_ok, reject_row. simpl. rewrite Hst. naive_solver.
    - by left. }
  split.
  - apply (quarantine_insert_ok _ key (reject_row reason now d) _ Hok1); [|done].
    simpl. by rewrite lookup_insert_eq.
  - destruct Hev1. by split.
Qed.

Lemma fenced_false s key d g :
  fenced s key d g = false → ∀ a f, fences s !! a = Some f → fence_covers key d g f = false.
Proof.
  unfold fenced. intros Hn a f Hf. destruct (fence_covers key d g f) eqn:Hc; [|done].
  rewrite <-not_true_iff_false in Hn. exfalso. apply Hn, existsb_exists. exists (a, f).
  split; [|done]. by apply list_elem_of_In, elem_of_map_to_list.
Qed.

Lemma insert_event_Ok s p kind event now s' :
  insert_event s p kind event now = Ok s' →
  outbox s !! (p, kind) = None ∧ s' = set_outbox s (<[(p, kind) := mkEventRow event now None]> (outbox s)).
Proof.
  unfold insert_event. destruct (outbox s !! (p, kind)); [done|].
  destruct (is_terminal_kind kind && terminal_staged s p); [done|]. by intros [= <-].
Qed.

Lemma claim_sound s input o s' : claim_task_pickup s input = Ok (o, s') → pickup_sound s s'.
Proof.
  unfold claim_task_pickup. destruct (validate_claim_input input); [|done].
  set (key := ci_dispatch_key input).
  destruct (dispatches s !! key) as [d|] eqn:Hd; [|intros [= _ <-]; apply pickup_sound_refl].
  case_bool_decide as Hst; [|intros [= _ <-]; apply pickup_sound_refl].
  destruct (checked_succ (d_generation d)) as [g|] eqn:Hg; [|done]. simpl.
  destruct (fenced s key d g) eqn:Hf; [intros [= _ <-]; apply pickup_sound_refl|].
  destruct (insert_event _ _ _ _ _) as [s2|] eqn:Hi; [|done].
  apply insert_event_Ok in Hi as [Hnew ->]. intros [= _ <-] Hok. simpl in Hnew.
  pose proof (pk_row _ Hok _ _ Hd) as Hrow. unfold row_ok in Hrow. rewrite Hst in Hrow.
  destruct Hrow as (Hg0 & Ho & Hdl & Harm & Hrej).
  assert (g = 1%Z) as ->.
  { unfold checked_succ in Hg. rewrite Hg0 in Hg. destruct (_ <? _)%Z; [|done]. by injection Hg as <-. }
  eapply (dispatch_step_sound s key d _ _); [|done]. split; try done.
  - split; simpl; try done; [rewrite Hst; constructor|congruence].
  - unfold row_ok. simpl. split_and!; eauto. by rewrite lookup_insert_eq.
  - intros _ _ ack f g' Hfa Hp. pose proof (fenced_false _ _ _ _ Hf ack f Hfa) as Hcov.
    pose proof (pk_fence _ Hok _ _ Hfa) as Hfo. unfold fence_ok, fence_covers in *. rewrite Hp in Hcov, Hfo.
    destruct Hfo as [-> _]. by rewrite bool_decide_eq_true_2 in Hcov.
  - intros (d0 & Hd0 & Hrej0)%(pk_quarantine _ Hok). congruence.
  - intros ke e He. simpl. rewrite lookup_insert_ne; [done|]. intros <-. by rewrite Hnew in He.
  - intros ke e. simpl. rewrite lookup_insert_Some. intros [[<- <-]|[_ ?]]; auto.
Qed.

(** ** Events and outcomes *)

Definition with_events s ob oc : PickupStore :=
  mkPickupStore (dispatches s) ob oc (quarantine s) (fences s) (acks s).

(** Events and outcomes are added for claimed dispatches, an outcome together with
    its event; a forwarded event only gets its mark. *)
Record event_step s (ob : gmap ((string * Z) * EventKind) EventRow)
    (oc : gmap (string * Z) (TaskPickupTerminalOutcome * Z)) : Prop := {
  es_keeps : ∀ ke e, outbox s !! ke = Some e →
    ∃ e', ob !! ke = Some e' ∧ e_event e' = e_event e ∧ e_staged_at e' = e_staged_at e;
  es_new : ∀ k g kind, is_Some (ob !! ((k, g), kind)) →
    is_Some (outbox s !! ((k, g), kind)) ∨
    (g = 1%Z ∧ (∃ d, dispatches s !! k = Some d ∧ d_state d = D_Claimed) ∧
     (is_terminal_kind kind = true →
      ∃ o at_, oc !! (k, g) = Some (o, at_) ∧ event_kind o = Some kind));
  es_outcomes : ∀ p o, outcomes s !! p = Some o → oc !! p = Some o;
  es_settles : ∀ k g o at_, oc !! (k, g) = Some (o, at_) →
    outcomes s !! (k, g) = Some (o, at_) ∨
    (g = 1%Z ∧ is_Some (dispatches s !! k) ∧
     ∀ kind, event_kind o = Some kind → is_Some (ob !! ((k, g), kind)))
}.

Lemma event_step_sound s ob oc : event_step s ob oc → pickup_sound s (with_events s ob oc).
Proof.
  intros [Hkeep Hnew Hkeepo Hset] Hok. pose proof Hok as [Hr Hi He Ho Hf Hfi Hq Ha].
  split; [split; try done|split; eauto using dispatch_evolves_refl, fence_evolves_refl]; simpl.
  - intros k d Hd. pose proof (Hr k d Hd) as Hrow. revert Hrow. unfold row_ok.
    destruct (d_state d); try done. intros (? & ? & ? & ? & [e (e' & ? & _)%Hkeep]). simpl. eauto 10.
  - intros k g kind e Hev. destruct (Hnew k g kind) as [[e0 He0]|?]; [eauto| |done].
    destruct (He _ _ _ _ He0) as (-> & Hd & Ht). split_and!; [done|done|].
    intros (o & at_ & Hoc & ?)%Ht. eauto.
  - intros k g o at_ [Hold|?]%Hset; [|done]. destruct (Ho _ _ _ _ Hold) as (-> & Hd & Hk).
    split_and!; [done|done|]. intros kind [e (e' & ? & _)%Hkeep]%Hk. eauto.
Qed.

Lemma event_insert_step s k d kind event now :
  dispatches s !! k = Some d → d_state d = D_Claimed → is_terminal_kind kind = false →
  outbox s !! ((k, 1%Z), kind) = None →
  event_step s (<[((k, 1%Z), kind) := mkEventRow event now None]> (outbox s)) (outcomes s).
Proof.
  intros Hd Hst Hkind Hnew. split; try done.
  - intros ke e He. exists e. split; [|done]. rewrite lookup_insert_ne; [done|]. intros <-. congruence.
  - intros k0 g0 kind0. rewrite lookup_insert_is_Some'. intros [[= <- <- <-]|?]; [right|by left].
    split_and!; [done|eauto|]. by rewrite Hkind.
  - by left.
Qed.

Lemma claimed_generation s claim d :
  pickup_ok s → dispatches s !! c_dispatch_key claim = Some d → holds_claim claim d = true →
  d_state d = D_Claimed ∧ claim_key claim = (c_dispatch_key claim, 1%Z).
Proof.
  intros Hok Hd (Hst & Hg & _)%holds_claim_inv. pose proof (pk_row _ Hok _ _ Hd) as Hrow.
  unfold row_ok in Hrow. rewrite Hst in Hrow. destruct Hrow as (H1 & _). split; [done|].
  unfold claim_key. congruence.
Qed.

Lemma stage_started_sound s claim event now : pickup_sound s (stage_task_started s claim event now).2.
Proof.
  unfold stage_task_started. destruct (dispatches s !! _) as [d|] eqn:Hd; [|apply pickup_sound_refl].
  destruct (_ && _) eqn:Hg; [|apply pickup_sound_refl].
  apply andb_true_iff in Hg as [[[Hh _]%andb_true_iff _]%andb_true_iff Hn].
  intros Hok. destruct (claimed_generation s claim d Hok Hd Hh) as [Hst Hkey]. rewrite Hkey in *. simpl.
  apply event_step_sound; [|done]. eapply event_insert_step; [done|done|done|].
  unfold staged in Hn. by destruct (outbox s !! _).
Qed.

Lemma forwarded_sound s event now : pickup_sound s (mark_task_event_forwarded s event now).2.
Proof.
  unfold mark_task_event_forwarded. destruct (update_row _ _ _ _) as [t|] eqn:Hu; [|apply pickup_sound_refl].
  apply update_row_Some in Hu as (e & He & _ & ->). simpl. apply event_step_sound. split; try done.
  - intros ke e0 He0. destruct (decide (ke = (pe_pickup event, pe_kind event))) as [->|Hne].
    + rewrite lookup_insert_eq. eexists. split; [done|]. simpl. by simplify_eq.
    + rewrite lookup_insert_ne by done. eauto.
  - intros k g kind. rewrite lookup_insert_is_Some'. intros [<-|?]; left; eauto.
  - by left.
Qed.

Lemma terminal_unstaged s k :
  pickup_ok s → outcomes s !! (k, 1%Z) = None → terminal_staged s (k, 1%Z) = false.
Proof.
  intros Hok Hn. apply not_true_iff_false. unfold terminal_staged. rewrite existsb_exists.
  intros ([[[k0 g0] kind] e] & Hin%list_elem_of_In%elem_of_map_to_list & Hc). simpl in Hc.
  apply andb_true_iff in Hc as [Hp%bool_decide_eq_true Ht]. injection Hp as -> ->.
  destruct (pk_event _ Hok _ _ _ _ Hin) as (_ & _ & Hset). destruct (Hset Ht) as (o & at_ & ? & _). congruence.
Qed.

Lemma event_kind_terminal o kind : event_kind o = Some kind → is_terminal_kind kind = true.
Proof. destruct o; intros [= <-]; done. Qed.

Definition claim_held s claim : Prop :=
  ∃ d, dispatches s !! c_dispatch_key claim = Some d ∧ holds_claim claim d = true.

Definition elected s claim o kind event now : PickupStore :=
  with_events s (<[(claim_key claim, kind) := mkEventRow event now None]> (outbox s))
    (<[claim_key claim := (o, now)]> (outcomes s)).

(** The whole election: the first one of a held claim wins, and no other fails. *)
Lemma elect_cases s claim o kind event now :
  pickup_ok s → validate_claim_identity claim = Ok () → event_kind o = Some kind →
  match outcomes s !! claim_key claim with
  | Some (o', _) => elect_task_pickup_terminal s claim o event now = Ok (ElectionSettled o', s)
  | None =>
      (claim_held s claim ∧
       elect_task_pickup_terminal s claim o event now = Ok (ElectionWon, elected s claim o kind event now)) ∨
      (¬ claim_held s claim ∧
       elect_task_pickup_terminal s claim o event now = Ok (ElectionNotClaimed, s))
  end.
Proof.
  intros Hok Hv Hkind. unfold elect_task_pickup_terminal, claim_held. rewrite Hv, Hkind. simpl.
  destruct (outcomes s !! claim_key claim) as [[o' at_]|] eqn:Ho; [done|].
  destruct (dispatches s !! c_dispatch_key claim) as [d|] eqn:Hd.
  2: { right. split; [by intros (d & ? & _)|done]. }
  destruct (holds_claim claim d) eqn:Hh.
  2: { right. split; [|done]. intros (d0 & [= <-] & ?). congruence. }
  left. split; [eauto|]. destruct (claimed_generation s claim d Hok Hd Hh) as [_ Hkey].
  rewrite Hkey in *. unfold insert_event. simpl.
  pose proof (event_kind_terminal _ _ Hkind) as Hterm.
  destruct (outbox s !! ((c_dispatch_key claim, 1%Z), kind)) as [e|] eqn:He.
  { destruct (pk_event _ Hok _ _ _ _ He) as (_ & _ & Hset).
    destruct (Hset Hterm) as (? & ? & ? & _). congruence. }
  rewrite Hterm. change (terminal_staged _ _) with (terminal_staged s (c_dispatch_key claim, 1%Z)).
  rewrite terminal_unstaged by done. unfold elected. by rewrite Hkey.
Qed.

Lemma elected_sound s claim o kind event now :
  claim_held s claim → event_kind o = Some kind → outcomes s !! claim_key claim = None →
  pickup_sound s (elected s claim o kind event now).
Proof.
  intros (d & Hd & Hh) Hkind Hn Hok. destruct (claimed_generation s claim d Hok Hd Hh) as [Hst Hkey].
  unfold elected. rewrite Hkey in *. apply event_step_sound; [|done]. split.
  - intros ke e He. exists e. split; [|done]. rewrite lookup_insert_ne; [done|]. intros <-.
    destruct (pk_event _ Hok _ _ _ _ He) as (_ & _ & Hset).
    destruct (Hset (event_kind_terminal _ _ Hkind)) as (? & ? & ? & _). congruence.
  - intros k g kind0. rewrite lookup_insert_is_Some'. intros [[= <- <- <-]|?]; [right|by left].
    split_and!; [done|eauto|]. intros _. exists o, now. by rewrite lookup_insert_eq.
  - intros p o0 Hp. rewrite lookup_insert_ne; [done|]. intros <-. congruence.
  - intros k g o0 at_. rewrite lookup_insert_Some. intros [[[= <- <-] [= <- <-]]|[_ ?]]; [right|by left].
    split_and!; [done|eauto|]. intros kind0 Hk0. assert (kind0 = kind) as -> by congruence.
    by rewrite lookup_insert_eq.
Qed.

Lemma elect_sound s claim o event now r s' :
  elect_task_pickup_terminal s claim o event now = Ok (r, s') → pickup_sound s s'.
Proof.
  intros He Hok. revert He.
  destruct (validate_claim_identity claim) as [[]|] eqn:Hv;
    [|unfold elect_task_pickup_terminal; by rewrite Hv].
  destruct (event_kind o) as [kind|] eqn:Hkind;
    [|unfold elect_task_pickup_terminal; by rewrite Hv, Hkind].
  pose proof (elect_cases s claim o kind event now Hok Hv Hkind) as Hcases.
  destruct (outcomes s !! claim_key claim) as [[o' at_]|] eqn:Ho.
  { rewrite Hcases. intros [= _ <-]. by apply pickup_sound_refl. }
  destruct Hcases as [[Hheld ->]|[_ ->]]; intros [= _ <-].
  - by apply elected_sound.
  - by apply pickup_sound_refl.
Qed.

(** ** Fences and acknowledgements *)

Definition with_fences s fs aks : PickupStore :=
  mkPickupStore (dispatches s) (outbox s) (outcomes s) (quarantine s) fs aks.

(** Fences are kept or added, and an acknowledgement comes with a settlement. *)
Record fence_step s (fs : gmap string FenceRow) (aks : gmap string AckRow) : Prop := {
  fs_keeps : ∀ a f, fences s !! a = Some f → ∃ f', fs !! a = Some f' ∧ fence_evolves f f';
  fs_ok : ∀ a f, fs !! a = Some f → fence_ok s f;
  fs_identity : ∀ a a' f f', fs !! a = Some f → fs !! a' = Some f' →
    (f_task f, f_workflow f) = (f_task f', f_workflow f') → a = a';
  fs_acks : ∀ a r, acks s !! a = Some r →
    ∃ r', aks !! a = Some r' ∧ a_acknowledgement r' = a_acknowledgement r;
  fs_settled : ∀ a, is_Some (aks !! a) ↔ ∃ f, fs !! a = Some f ∧ is_Some (f_settled f)
}.

Lemma fence_step_sound s fs aks : fence_step s fs aks → pickup_sound s (with_fences s fs aks).
Proof.
  intros [Hk Hf Hi Ha Hs] [R1 R2 R3 R4 R5 R6 R7 R8]. split; [by split|].
  split; eauto using dispatch_evolves_refl.
Qed.

Lemma fence_evolves_ok s f f' :
  fence_evolves f f' → f_pickup f' = f_pickup f → fence_ok s f → fence_ok s f'.
Proof. intros [[= Ht Hw] Ho _ _] Hp. unfold fence_ok. by rewrite Hp, Ho, Ht, Hw. Qed.

(** One fence is rewritten; an acknowledgement is there once it is settled. *)
Lemma fence_update_step s a f f' aks :
  pickup_ok s → fences s !! a = Some f → fence_evolves f f' → f_pickup f' = f_pickup f →
  (∀ x r, acks s !! x = Some r → ∃ r', aks !! x = Some r' ∧ a_acknowledgement r' = a_acknowledgement r) →
  (∀ x, x ≠ a → is_Some (aks !! x) ↔ is_Some (acks s !! x)) →
  (is_Some (aks !! a) ↔ is_Some (f_settled f')) →
  fence_step s (<[a := f']> (fences s)) aks.
Proof.
  intros Hok Ha Hev Hp Hacks Hother Hself. split; [| | |done|].
  - intros x f0 Hx. destruct (decide (x = a)) as [->|Hne].
    + rewrite lookup_insert_eq. exists f'. split; [done|]. congruence.
    + rewrite lookup_insert_ne by done. eauto using fence_evolves_refl.
  - intros x f0. rewrite lookup_insert_Some. intros [[<- <-]|[_ Hx]]; [|by apply (pk_fence _ Hok _ _ Hx)].
    eapply fence_evolves_ok; [done|done|]. by apply (pk_fence _ Hok _ _ Ha).
  - assert (∀ x f0, <[a := f']> (fences s) !! x = Some f0 →
      ∃ f1, fences s !! x = Some f1 ∧ (f_task f0, f_workflow f0) = (f_task f1, f_workflow f1)) as Hback.
    { intros x f0. rewrite lookup_insert_Some. intros [[<- <-]|[_ Hx]]; [|eauto].
      exists f. split; [done|]. apply Hev. }
    intros x y f1 f2 (g1 & H1 & E1)%Hback (g2 & H2 & E2)%Hback Heq.
    apply (pk_fence_identity _ Hok _ _ _ _ H1 H2). congruence.
  - intros x. destruct (decide (x = a)) as [->|Hne].
    + rewrite Hself, lookup_insert_eq. naive_solver.
    + rewrite lookup_insert_ne, Hother by done. apply (pk_ack _ Hok).
Qed.

Lemma ack_iff s a f : pickup_ok s → fences s !! a = Some f → is_Some (acks s !! a) ↔ is_Some (f_settled f).
Proof. intros Hok Ha. rewrite (pk_ack _ Hok). naive_solver. Qed.

Lemma notified_sound s fence now : pickup_sound s (mark_task_cancellation_owner_notified s fence now).2.
Proof.
  unfold mark_task_cancellation_owner_notified.
  destruct (update_row _ _ _ _) as [t|] eqn:Hu; [|apply pickup_sound_refl].
  apply update_row_Some in Hu as (f & Hf & _ & ->). simpl. intros Hok.
  apply (fence_step_sound s _ (acks s)); [|done].
  eapply fence_update_step; [done|done|by split|done|eauto|done|]. simpl. by apply ack_iff.
Qed.

Lemma ack_forwarded_sound s identity ack now :
  pickup_sound s (mark_task_cancellation_ack_forwarded s identity ack now).2.
Proof.
  unfold mark_task_cancellation_ack_forwarded.
  destruct (update_row _ _ _ _) as [t|] eqn:Hu; [|apply pickup_sound_refl].
  apply update_row_Some in Hu as (r & Hr & _ & ->). simpl. intros Hok.
  apply (fence_step_sound s (fences s) _); [|done]. split.
  - eauto using fence_evolves_refl.
  - apply (pk_fence _ Hok).
  - apply (pk_fence_identity _ Hok).
  - intros x r0 Hx. destruct (decide (x = identity)) as [->|Hne].
    + rewrite lookup_insert_eq. eexists. split; [done|]. simpl. congruence.
    + rewrite lookup_insert_ne by done. eauto.
  - intros x. rewrite <-(pk_ack _ Hok), lookup_insert_is_Some'. naive_solver.
Qed.

Lemma dispatch_of_Some s task workflow k d :
  dispatch_of s task workflow = Some (k, d) →
  dispatches s !! k = Some d ∧ d_identity d = Some (task, workflow).
Proof.
  intros [Hin%list_elem_of_In%elem_of_map_to_list Hid%bool_decide_eq_true]%List.find_some. done.
Qed.

Lemma dispatch_of_None s task workflow :
  dispatch_of s task workflow = None → ∀ k d, dispatches s !! k = Some d →
  d_identity d ≠ Some (task, workflow).
Proof.
  intros Hn k d Hk Hid. apply elem_of_map_to_list, list_elem_of_In in Hk.
  pose proof (List.find_none _ _ Hn _ Hk) as Hf. simpl in Hf.
  by rewrite bool_decide_eq_true_2 in Hf.
Qed.

Lemma fence_taken_false s task workflow :
  fence_taken s task workflow = false → ∀ a f, fences s !! a = Some f →
  (f_task f, f_workflow f) ≠ (task, workflow).
Proof.
  unfold fence_taken. intros Hn a f Ha Heq. rewrite <-not_true_iff_false in Hn. apply Hn, existsb_exists.
  exists (a, f). split; [by apply list_elem_of_In, elem_of_map_to_list|]. simpl.
  by rewrite bool_decide_eq_true_2.
Qed.

(** What a new fence records of the task's dispatch. *)
Lemma fence_pickup_ok s task workflow po now :
  pickup_ok s → fence_pickup task (dispatch_of s task workflow) = Ok po → fence_checked po.1 = true →
  fence_ok s (mkFenceRow task workflow po.1 po.2 now None None).
Proof.
  intros Hok. unfold fence_pickup, fence_ok. simpl.
  destruct (dispatch_of s task workflow) as [[k d]|] eqn:Hd.
  2: { intros [= <-] _. simpl. split; [done|]. by apply dispatch_of_None. }
  apply dispatch_of_Some in Hd as [Hk Hid]. pose proof (pk_row _ Hok _ _ Hk) as Hrow. unfold row_ok in Hrow.
  destruct (d_state d) eqn:Hst.
  - destruct Hrow as (Hg & _). rewrite Hg. simpl. intros [= <-] _. simpl. split; [done|].
    exists d. split_and!; [done|done|congruence].
  - destruct Hrow as (Hg & [o Ho] & _). intros [= <-] _. simpl. rewrite Hg, Ho. split; [done|]. eauto.
  - destruct Hrow as (Hg & _). rewrite Hg. by intros [= <-].
Qed.

Lemma commit_fence_sound s identity task workflow now r s' :
  commit_task_cancellation_fence s identity task workflow now = Ok (r, s') → pickup_sound s s'.
Proof.
  unfold commit_task_cancellation_fence.
  do 3 (destruct (validate_cancellation_identity _) as [[]|]; [|done]).
  destruct (fence_pickup _ _) as [po|] eqn:Hpo; [|done].
  destruct (_ || _) eqn:Hign.
  { simpl. destruct (fences s !! identity); [|done]. intros [= _ <-]. apply pickup_sound_refl. }
  apply orb_false_iff in Hign as [[Hnew Htaken]%orb_false_iff Hchk%negb_false_iff].
  destruct (fences s !! identity) as [|] eqn:Hid; [done|]. simpl. rewrite lookup_insert_eq.
  intros [= _ <-] Hok. apply (fence_step_sound s _ (acks s)); [|done].
  pose proof (fence_taken_false _ _ _ Htaken) as Hfree. split.
  - intros a f Ha. exists f. rewrite lookup_insert_ne; [eauto using fence_evolves_refl|]. intros <-. congruence.
  - intros a f. rewrite lookup_insert_Some. intros [[<- <-]|[_ Ha]]; [by apply fence_pickup_ok|].
    by apply (pk_fence _ Hok _ _ Ha).
  - intros a a' f f'. rewrite !lookup_insert_Some. intros [[<- <-]|[_ Ha]] [[<- <-]|[_ Ha']]; simpl; [done|..].
    + intros Heq. by destruct (Hfree _ _ Ha').
    + intros Heq. by destruct (Hfree _ _ Ha).
    + by apply (pk_fence_identity _ Hok _ _ _ _ Ha Ha').
  - eauto.
  - intros a. rewrite (pk_ack _ Hok). destruct (decide (a = identity)) as [->|Hne].
    + rewrite lookup_insert_eq, Hid. naive_solver eauto using is_Some_None.
    + by rewrite lookup_insert_ne.
Qed.

(** *** Settlement *)

(** A cancellation settles a pickup without an event. *)
Lemma cancel_outcome_sound s p r now :
  p.2 = 1%Z → is_Some (dispatches s !! p.1) → outcomes s !! p = None →
  pickup_sound s (set_outcomes s (<[p := (terminal_outcome r, now)]> (outcomes s))).
Proof.
  destruct p as [k g]. simpl. intros -> Hd Hn. apply event_step_sound. split; [eauto|auto| |].
  - intros p o Hp. rewrite lookup_insert_ne; [done|]. intros <-. congruence.
  - intros k0 g0 o at_. rewrite lookup_insert_Some. intros [[[= <- <-] [= <- <-]]|[_ ?]]; [right|by left].
    split_and!; [done|done|]. by destruct r.
Qed.

Lemma fence_may_settle_Some s f p :
  fence_may_settle s f = Some p → f_pickup f = Some p ∧ ∃ d, dispatches s !! p.1 = Some d.
Proof.
  unfold fence_may_settle. destruct (f_pickup f) as [q|]; [|done]. simpl.
  destruct (dispatches s !! q.1) as [d|] eqn:Hd; [|done]. simpl. destruct (_ || _); [|done].
  intros [= <-]. eauto.
Qed.

Lemma settle_fence_sound s a f r ack now s' :
  fences s !! a = Some f →
  insert_ack (set_fences s (<[a := settle_row r now f]> (fences s))) a ack now = Ok s' →
  pickup_sound s s'.
Proof.
  intros Ha. unfold insert_ack. simpl. rewrite lookup_insert_eq. intros [= <-] Hok.
  assert (fence_evolves f (settle_row r now f)) as Hev by (split; simpl; try done; by intros x ->).
  destruct (acks s !! a) as [w|] eqn:Hack.
  - apply (fence_step_sound s _ (acks s)); [|done].
    apply (fence_update_step s a f); [done|done|done|done|eauto|done|]. simpl. rewrite Hack. by split; eauto.
  - apply (fence_step_sound s _ (<[a := mkAckRow ack now None]> (acks s))); [|done].
    apply (fence_update_step s a f); [done|done|done|done| | |].
    + intros x w Hx. rewrite lookup_insert_ne; [eauto|]. intros <-. congruence.
    + intros x Hne. by rewrite lookup_insert_ne.
    + rewrite lookup_insert_eq. simpl. by split; eauto.
Qed.

(** The part of a settlement that elects an outcome. *)
Definition settle_election s (fence : TaskCancellationFence) r now : bool * PickupStore :=
  match tf_pickup fence with
  | Some (key, g) =>
      match fences s !! tf_identity fence ≫= fence_may_settle s with
      | Some p =>
          if settled s p then (false, s)
          else (negb (bool_decide (key = "")) && (0 <? g)%Z,
                set_outcomes s (<[p := (terminal_outcome r, now)]> (outcomes s)))
      | None => (false, s)
      end
  | None => (false, s)
  end.

Lemma settle_election_sound s fence r now : pickup_sound s (settle_election s fence r now).2.
Proof.
  unfold settle_election. destruct (tf_pickup fence) as [[key g]|]; [|apply pickup_sound_refl].
  destruct (fences s !! tf_identity fence) as [f|] eqn:Hf; [|apply pickup_sound_refl]. simpl.
  destruct (fence_may_settle s f) as [p|] eqn:Hm; [|apply pickup_sound_refl].
  destruct (settled s p) eqn:Hs; [apply pickup_sound_refl|]. simpl.
  apply fence_may_settle_Some in Hm as [Hp (d & Hd)]. intros Hok.
  pose proof (pk_fence _ Hok _ _ Hf) as Hfo. unfold fence_ok in Hfo. rewrite Hp in Hfo.
  destruct p as [k g']. apply cancel_outcome_sound; [by apply Hfo|by eauto| |done].
  unfold settled in Hs. by destruct (outcomes s !! _).
Qed.

Lemma settle_election_fences s fence r now :
  fences (settle_election s fence r now).2 = fences s.
Proof. unfold settle_election. by repeat case_match. Qed.

Lemma settle_sound s fence r ack now o s' :
  settle_task_cancellation s fence r ack now = Ok (o, s') → pickup_sound s s'.
Proof.
  unfold settle_task_cancellation. fold (settle_election s fence r now).
  pose proof (settle_election_sound s fence r now) as H1.
  pose proof (settle_election_fences s fence r now) as Hfe.
  destruct (settle_election s fence r now) as [inserted s1]. simpl in *.
  destruct (insert_ack _ _ _ _) as [s3|] eqn:Hi; [|done]. intros [= _ <-].
  eapply pickup_sound_trans; [exact H1|].
  destruct (fences s1 !! tf_identity fence) as [f|] eqn:Hf.
  - assert (alter (settle_row r now) (tf_identity fence) (fences s1) =
            <[tf_identity fence := settle_row r now f]> (fences s1)) as Halt.
    { apply map_eq. intros x. rewrite lookup_alter, lookup_insert. case_decide; [subst; by rewrite Hf|done]. }
    rewrite Halt in Hi. by eapply settle_fence_sound.
  - unfold insert_ack in Hi. simpl in Hi. by rewrite lookup_alter_eq, Hf in Hi.
Qed.

(** ** Staging *)

Lemma identity_taken_false s i :
  identity_taken s (Some i) = false → ∀ k d, dispatches s !! k = Some d → d_identity d ≠ Some i.
Proof.
  unfold identity_taken. intros Hn k d Hk Hid. rewrite <-not_true_iff_false in Hn. apply Hn, existsb_exists.
  exists (k, d). split; [by apply list_elem_of_In, elem_of_map_to_list|]. simpl.
  by rewrite bool_decide_eq_true_2.
Qed.

Definition new_row payload identity now : DispatchRow :=
  mkDispatchRow payload D_Pending 0 None None None None identity now now.

Definition link key (identity : option (string * string)) f : FenceRow :=
  match identity with Some i => link_fence key i f | None => f end.

Lemma link_evolves key identity f : fence_evolves f (link key identity f).
Proof.
  unfold link, link_fence. destruct identity as [i|]; [|apply fence_evolves_refl].
  destruct (f_pickup f) eqn:Hp; [apply fence_evolves_refl|].
  case_bool_decide; [|apply fence_evolves_refl]. split; simpl; congruence.
Qed.

Definition staged_store s key payload identity now : PickupStore :=
  mkPickupStore (<[key := new_row payload identity now]> (dispatches s)) (outbox s) (outcomes s)
    (quarantine s) (link key identity <$> fences s) (acks s).

Lemma stage_cases s key payload task workflow now b s' :
  stage_task_dispatch s key payload task workflow now = Ok (b, s') →
  (b = false ∧ s' = s ∧ ∃ d, dispatches s !! key = Some d ∧ d_payload d = payload) ∨
  (b = true ∧ dispatches s !! key = None ∧
   ∃ identity, validate_optional_task_identity task workflow = Ok identity ∧
     identity_taken s identity = false ∧ s' = staged_store s key payload identity now).
Proof.
  unfold stage_task_dispatch. destruct (validate_dispatch_key key); [|done].
  destruct (validate_optional_task_identity task workflow) as [identity|]; [|done].
  destruct (dispatches s !! key) as [d|] eqn:Hd.
  { case_bool_decide as Hp; [|done]. intros [= <- <-]. left. eauto. }
  destruct (identity_taken s identity) eqn:Ht; [done|]. intros [= <- <-]. right.
  split_and!; [done|done|]. exists identity. split_and!; [done|done|].
  unfold staged_store. destruct identity; [done|]. simpl. by rewrite map_fmap_id.
Qed.

Section staging.
Context s (key payload : string) (identity : option (string * string)) (now : Z).
Context (Hok : pickup_ok s) (Hnew : dispatches s !! key = None) (Hfree : identity_taken s identity = false).
Local Abbreviation s' := (staged_store s key payload identity now).

Lemma staged_keeps k d : dispatches s !! k = Some d → dispatches s' !! k = Some d.
Proof. intros Hk. simpl. rewrite lookup_insert_ne; [done|]. intros <-. congruence. Qed.

Lemma staged_row_ok k d : dispatches s' !! k = Some d → row_ok s' k d.
Proof. simpl. rewrite lookup_insert_Some. intros [[<- <-]|[_ Hk]]; [done|]. apply (pk_row _ Hok _ _ Hk). Qed.

Lemma staged_identity k d :
  dispatches s' !! k = Some d → ∀ i, d_identity d = Some i →
  (k = key ∧ identity = Some i) ∨ (dispatches s !! k = Some d ∧ identity ≠ Some i).
Proof.
  simpl. rewrite lookup_insert_Some. intros [[<- <-]|[_ Hk]] i Hi; [by left|]. right. split; [done|].
  intros Hid. rewrite Hid in Hfree. by eapply identity_taken_false.
Qed.

Lemma link_ok a f : fences s !! a = Some f → fence_ok s' (link key identity f).
Proof.
  intros Hf. pose proof (pk_fence _ Hok _ _ Hf) as Hfo. unfold fence_ok in Hfo.
  destruct (f_pickup f) as [[k1 g]|] eqn:Hp.
  - assert (link key identity f = f) as ->.
    { unfold link, link_fence. destruct identity; [|done]. by rewrite Hp. }
    unfold fence_ok. rewrite Hp. destruct Hfo as (-> & d & Hd%staged_keeps & ?). eauto.
  - destruct Hfo as [Ho Hno]. unfold link, link_fence, fence_ok. destruct identity as [i|] eqn:Hid.
    2:{ rewrite Hp. split; [done|]. intros k d. simpl. rewrite lookup_insert_Some.
        intros [[<- <-]|[_ Hk]]; [done|by eapply Hno]. }
    rewrite Hp. case_bool_decide as Hi; simpl.
    + split; [done|]. eexists. rewrite lookup_insert_eq, Ho. split_and!; [done|simpl; congruence|done].
    + rewrite Hp. split; [done|]. intros k d. rewrite lookup_insert_Some.
      intros [[<- <-]|[_ Hk]]; [simpl; congruence|by eapply Hno].
Qed.

Lemma staged_fence_inv a f :
  fences s' !! a = Some f → ∃ f0, fences s !! a = Some f0 ∧ f = link key identity f0.
Proof. simpl. rewrite lookup_fmap_Some. intros (f0 & <- & Hf). eauto. Qed.

Lemma link_settled f : f_settled (link key identity f) = f_settled f.
Proof. unfold link, link_fence. by repeat case_match. Qed.

Lemma staged_pickup_ok : pickup_ok s'.
Proof.
  split.
  - apply staged_row_ok.
  - intros k k' d d' i Hk Hk' Hi Hi'.
    destruct (staged_identity _ _ Hk _ Hi) as [[-> ?]|[? ?]],
      (staged_identity _ _ Hk' _ Hi') as [[-> ?]|[? ?]]; try done. by eapply (pk_identity _ Hok).
  - intros k g kind e (? & (d & Hd%staged_keeps & ?) & ?)%(pk_event _ Hok). eauto.
  - intros k g o at_ (? & [d Hd%staged_keeps] & ?)%(pk_outcome _ Hok). split_and!; [done|by eexists|done].
  - intros a f (f0 & Hf & ->)%staged_fence_inv. by eapply link_ok.
  - intros a a' f f' (f0 & Hf & ->)%staged_fence_inv (f1 & Hf1 & ->)%staged_fence_inv.
    rewrite (fe_task _ _ (link_evolves _ _ f0)), (fe_task _ _ (link_evolves _ _ f1)).
    by apply (pk_fence_identity _ Hok).
  - intros k (d & Hd%staged_keeps & ?)%(pk_quarantine _ Hok). eauto.
  - intros a. rewrite (pk_ack _ Hok). simpl. split.
    + intros (f & Hf & Hs). exists (link key identity f). rewrite lookup_fmap, Hf, link_settled. done.
    + intros (f & (f0 & <- & Hf)%lookup_fmap_Some & Hs). rewrite link_settled in Hs. eauto.
Qed.

Lemma staged_evolves : pickup_evolves s s'.
Proof.
  split; [| done | eauto | | eauto].
  - intros k d Hk%staged_keeps. eauto using dispatch_evolves_refl.
  - intros a f Hf. exists (link key identity f). simpl. rewrite lookup_fmap, Hf.
    split; [done|apply link_evolves].
Qed.
End staging.

Lemma stage_sound s key payload task workflow now b s' :
  stage_task_dispatch s key payload task workflow now = Ok (b, s') → pickup_sound s s'.
Proof.
  intros [(_ & -> & _)|(_ & Hn & i & _ & Ht & ->)]%stage_cases; [apply pickup_sound_refl|].
  intros Hok. split; [by apply staged_pickup_ok|by apply staged_evolves].
Qed.
