(* ===== verification/PickupLifecycle.v ===== *)
(** * Runs of the task pickup tables

    The transactions of [TaskPickup] as a step relation from the empty tables,
    with arbitrary interleaving of executors, schedulers and cancellations, and
    what holds along every run: one claim and one outcome per dispatch, a
    cancellation that precedes the claim keeps the task from running, settlements
    happen once, and no transaction meets a constraint it cannot satisfy. *)

From S2P Require Import Prelude Uuid TaskPickup TaskPickupFacts.

Implicit Types (s : PickupStore) (d : DispatchRow) (f : FenceRow).

(** ** Steps *)

Inductive pickup_step : PickupStore → PickupStore → Prop :=
| PkStage s key payload task workflow now b s' :
    stage_task_dispatch s key payload task workflow now = Ok (b, s') → pickup_step s s'
| PkReject s key reason now b s' : reject_task_dispatch s key reason now = Ok (b, s') → pickup_step s s'
| PkClaim s input o s' : claim_task_pickup s input = Ok (o, s') → pickup_step s s'
| PkArm s claim deadline now b s' :
    arm_task_pickup_liveness s claim deadline now = Ok (b, s') → pickup_step s s'
| PkStarted s claim event now : pickup_step s (stage_task_started s claim event now).2
| PkRenew s claim deadline now b s' :
    renew_task_pickup_liveness s claim deadline now = Ok (b, s') → pickup_step s s'
| PkLivenessFailure s claim now b s' :
    register_task_pickup_liveness_failure s claim now = Ok (b, s') → pickup_step s s'
| PkElect s claim outcome event now o s' :
    elect_task_pickup_terminal s claim outcome event now = Ok (o, s') → pickup_step s s'
| PkForwarded s event now : pickup_step s (mark_task_event_forwarded s event now).2
| PkFence s identity task workflow now fence s' :
    commit_task_cancellation_fence s identity task workflow now = Ok (fence, s') → pickup_step s s'
| PkNotified s fence now : pickup_step s (mark_task_cancellation_owner_notified s fence now).2
| PkSettle s fence r acknowledgement now o s' :
    settle_task_cancellation s fence r acknowledgement now = Ok (o, s') → pickup_step s s'
| PkAckForwarded s identity acknowledgement now :
    pickup_step s (mark_task_cancellation_ack_forwarded s identity acknowledgement now).2.

Definition pickup_run : PickupStore → PickupStore → Prop := rtc pickup_step.
Definition pickup_reachable : PickupStore → Prop := pickup_run empty_pickup_store.

Lemma pickup_step_sound s s' : pickup_step s s' → pickup_sound s s'.
Proof.
  destruct 1 as [? ? ? ? ? ? ? ? H|? ? ? ? ? ? H|? ? ? ? H|s claim deadline now b s' H|?
    |s claim deadline now b s' H|s claim now b s' H|? ? ? ? ? ? ? H|?|? ? ? ? ? ? ? H|?|? ? ? ? ? ? ? H|?].
  - by eapply stage_sound.
  - by eapply reject_sound.
  - by eapply claim_sound.
  - unfold arm_task_pickup_liveness in H. destruct (validate_claim claim deadline now); [|done].
    injection H as H. rewrite <-(f_equal snd H : _ = s').
    apply (update_claimed_sound s claim _ deadline (λ _, Some now)).
  - apply stage_started_sound.
  - unfold renew_task_pickup_liveness in H. destruct (validate_claim claim deadline now); [|done].
    injection H as H. rewrite <-(f_equal snd H : _ = s'). apply (update_claimed_sound s claim _ deadline d_armed_at).
  - unfold register_task_pickup_liveness_failure in H. destruct (validate_claim_identity claim); [|done].
    injection H as H. rewrite <-(f_equal snd H : _ = s'). apply (update_claimed_sound s claim _ now d_armed_at).
  - by eapply elect_sound.
  - apply forwarded_sound.
  - by eapply commit_fence_sound.
  - apply notified_sound.
  - by eapply settle_sound.
  - apply ack_forwarded_sound.
Qed.

Lemma pickup_run_sound s s' : pickup_run s s' → pickup_sound s s'.
Proof.
  induction 1; [apply pickup_sound_refl|]. eapply pickup_sound_trans; [by apply pickup_step_sound|done].
Qed.

Lemma pickup_reachable_ok s : pickup_reachable s → pickup_ok s.
Proof. intros Hr. by destruct (pickup_run_sound _ _ Hr empty_pickup_ok). Qed.

Lemma reachable_step s s' : pickup_reachable s → pickup_step s s' → pickup_reachable s'.
Proof. intros. by eapply rtc_r. Qed.

Lemma reachable_run s s' : pickup_reachable s → pickup_run s s' → pickup_reachable s'.
Proof. unfold pickup_reachable, pickup_run. intros H1 H2. exact (transitivity H1 H2). Qed.

Lemma run_evolves s s' : pickup_reachable s → pickup_run s s' → pickup_evolves s s'.
Proof. intros Hr%pickup_reachable_ok Hrun. by destruct (pickup_run_sound _ _ Hrun Hr). Qed.

(** ** Claims *)

Definition claimed_store s (input : ClaimTaskPickupInput) d : PickupStore :=
  let key := ci_dispatch_key input in
  with_dispatch s key (claim_row 1 (ci_owner input) (ci_deadline input) (ci_now input) d)
    (<[((key, 1%Z), E_Assigned) := mkEventRow (ci_assigned_event input) (ci_now input) None]> (outbox s)).

Definition first_claim (input : ClaimTaskPickupInput) : TaskPickupClaim :=
  mkTaskPickupClaim (ci_dispatch_key input) 1 (ci_owner input) (ci_deadline input).

Lemma pending_unassigned s k d :
  pickup_ok s → dispatches s !! k = Some d → d_state d = D_Pending → outbox s !! ((k, 1%Z), E_Assigned) = None.
Proof.
  intros Hok Hd Hst. destruct (outbox s !! _) as [e|] eqn:He; [|done].
  destruct (pk_event _ Hok _ _ _ _ He) as (_ & (d0 & ? & ?) & _). congruence.
Qed.

(** A valid claim of a pending, unfenced dispatch commits; every other answers that
    the dispatch is not pending. *)
Lemma claim_cases s input :
  pickup_ok s → validate_claim_input input = Ok () →
  match dispatches s !! ci_dispatch_key input with
  | Some d =>
      if bool_decide (d_state d = D_Pending) && negb (fenced s (ci_dispatch_key input) d 1)
      then claim_task_pickup s input = Ok (ClaimCommitted (first_claim input), claimed_store s input d)
      else claim_task_pickup s input = Ok (ClaimNotPending, s)
  | None => claim_task_pickup s input = Ok (ClaimNotPending, s)
  end.
Proof.
  intros Hok Hv. unfold claim_task_pickup. rewrite Hv.
  destruct (dispatches s !! ci_dispatch_key input) as [d|] eqn:Hd; [|done].
  case_bool_decide as Hst; simpl; [|done]. pose proof (pk_row _ Hok _ _ Hd) as Hrow.
  unfold row_ok in Hrow. rewrite Hst in Hrow. destruct Hrow as (-> & _). simpl. change (0 + 1)%Z with 1%Z.
  destruct (fenced s _ d 1) eqn:Hf; simpl; [done|].
  unfold insert_event. simpl. by rewrite (pending_unassigned _ _ _ Hok Hd Hst).
Qed.

Lemma claim_valid s input o s' :
  claim_task_pickup s input = Ok (o, s') → validate_claim_input input = Ok ().
Proof. unfold claim_task_pickup. by destruct (validate_claim_input input) as [[]|]. Qed.

Lemma claim_committed s input c s' :
  pickup_ok s → claim_task_pickup s input = Ok (ClaimCommitted c, s') →
  ∃ d, dispatches s !! ci_dispatch_key input = Some d ∧ d_state d = D_Pending ∧
    fenced s (ci_dispatch_key input) d 1 = false ∧ c = first_claim input ∧ s' = claimed_store s input d.
Proof.
  intros Hok Hc. pose proof (claim_cases s input Hok (claim_valid _ _ _ _ Hc)) as Hcases.
  destruct (dispatches s !! _) as [d|]; [|congruence]. case_bool_decide; simpl in Hcases; [|congruence].
  destruct (fenced _ _ _ _) eqn:Hf; simpl in Hcases; [congruence|]. rewrite Hc in Hcases.
  injection Hcases as -> ->. exists d. done.
Qed.

(** Claims of a dispatch that is not pending change nothing. *)
Lemma claim_not_pending s input d o s' :
  pickup_ok s → dispatches s !! ci_dispatch_key input = Some d →
  d_state d ≠ D_Pending ∨ fenced s (ci_dispatch_key input) d 1 = true →
  claim_task_pickup s input = Ok (o, s') → o = ClaimNotPending ∧ s' = s.
Proof.
  intros Hok Hd Hno Hc. pose proof (claim_cases s input Hok (claim_valid _ _ _ _ Hc)) as Hcases.
  rewrite Hd in Hcases. case_bool_decide; simpl in Hcases.
  - destruct Hno as [?|Hf]; [done|]. rewrite Hf in Hcases. simpl in Hcases. by rewrite Hc in Hcases; simplify_eq.
  - by rewrite Hc in Hcases; simplify_eq.
Qed.

Lemma held_run s s' claim : pickup_reachable s → pickup_run s s' → claim_held s claim → claim_held s' claim.
Proof.
  intros Hr Hrun (d & Hd & (Hst & Hg & Ho)%holds_claim_inv).
  destruct (pv_dispatches _ _ (run_evolves _ _ Hr Hrun) _ _ Hd) as (d' & Hd' & [_ _ _ Hm Hc]).
  rewrite Hst in Hm. apply moves_claimed in Hm. destruct (Hc Hst) as [Hg' Ho']. exists d'. split; [done|].
  unfold holds_claim. rewrite Hm, Hg', Ho', Hg, Ho. by rewrite !bool_decide_eq_true_2.
Qed.

Lemma claimed_store_held s input d : claim_held (claimed_store s input d) (first_claim input).
Proof.
  eexists. split; [simpl; by rewrite lookup_insert_eq|]. unfold holds_claim. simpl.
  by rewrite !bool_decide_eq_true_2.
Qed.

Lemma ambiguous_claimed s key owner event c :
  prove_ambiguous_task_pickup s key owner event = Ok (Some c) →
  ∃ d e, dispatches s !! key = Some d ∧ d_state d = D_Claimed ∧ d_owner d = Some owner ∧
    outbox s !! ((key, d_generation d), E_Assigned) = Some e ∧ e_event e = event ∧
    c_dispatch_key c = key ∧ c_generation c = d_generation d ∧ c_owner c = owner.
Proof.
  unfold prove_ambiguous_task_pickup. destruct (validate_dispatch_key key); [|done].
  destruct (validate_owner owner); [|done]. destruct (dispatches s !! key) as [d|]; [|done].
  destruct (d_deadline d); [|done]. destruct (outbox s !! _) as [e|] eqn:He; [|done].
  destruct (_ && _) eqn:Hb; [|done]. intros [= <-].
  apply andb_true_iff in Hb as [[H1%bool_decide_eq_true H2%bool_decide_eq_true]%andb_true_iff
                              H3%bool_decide_eq_true]. eauto 12.
Qed.

(** C26: a dispatch is claimed at most once.  When a claim commits it is generation 1,
    held by the claimant; whatever transactions follow, it stays held, its
    assignment event stays staged, every other claim of the dispatch finds it not
    pending and changes nothing, and a doubtful claim is confirmed only to the
    executor that made it. *)
Theorem claimed_once s input c s1 s2 :
  pickup_reachable s → claim_task_pickup s input = Ok (ClaimCommitted c, s1) → pickup_run s1 s2 →
  c = first_claim input ∧ claim_held s2 c ∧
  (∃ e, outbox s2 !! (claim_key c, E_Assigned) = Some e ∧ e_event e = ci_assigned_event input) ∧
  (∀ input' o s3, ci_dispatch_key input' = ci_dispatch_key input →
     claim_task_pickup s2 input' = Ok (o, s3) → o = ClaimNotPending ∧ s3 = s2) ∧
  (∀ owner event c', prove_ambiguous_task_pickup s2 (ci_dispatch_key input) owner event = Ok (Some c') →
     owner = ci_owner input ∧ event = ci_assigned_event input ∧ claim_key c' = claim_key c).
Proof.
  intros Hr Hc Hrun. pose proof (reachable_step _ _ Hr (PkClaim _ _ _ _ Hc)) as Hr1.
  destruct (claim_committed _ _ _ _ (pickup_reachable_ok _ Hr) Hc) as (d & Hd & Hst & Hf & -> & ->).
  pose proof (held_run _ _ _ Hr1 Hrun (claimed_store_held s input d)) as Hheld.
  pose proof (pickup_reachable_ok _ (reachable_run _ _ Hr1 Hrun)) as Hok2.
  assert (∃ e, outbox s2 !! (claim_key (first_claim input), E_Assigned) = Some e ∧
               e_event e = ci_assigned_event input) as (e & He & Hev).
  { destruct (pv_events _ _ (run_evolves _ _ Hr1 Hrun) (claim_key (first_claim input), E_Assigned)
      (mkEventRow (ci_assigned_event input) (ci_now input) None)) as (e & He & Hev & _); [|by eauto].
    simpl. by rewrite lookup_insert_eq. }
  split_and!; [done|done|by eauto| |].
  - intros input' o s3 Hkey. destruct Hheld as (d2 & Hd2 & (Hst2 & _)%holds_claim_inv).
    apply (claim_not_pending s2 input' d2); [done|by rewrite Hkey|left; congruence].
  - intros owner event c' (d3 & e3 & Hd3 & Hst3 & Ho3 & He3 & <- & Hk & Hg & _)%ambiguous_claimed.
    destruct Hheld as (d2 & Hd2 & (Hst2 & Hg2 & Ho2)%holds_claim_inv). simpl in *.
    rewrite Hd2 in Hd3. injection Hd3 as <-. unfold claim_key in *. simpl in *.
    rewrite Hg2, He in He3. injection He3 as <-. split_and!; congruence.
Qed.

(** ** Cancellation before the claim *)

Lemma commit_fence_loaded s identity task workflow now fence s' :
  commit_task_cancellation_fence s identity task workflow now = Ok (fence, s') →
  ∃ f, fences s' !! identity = Some f ∧ fence = load_fence s' identity f.
Proof.
  unfold commit_task_cancellation_fence.
  do 3 (destruct (validate_cancellation_identity _); [|done]). destruct (fence_pickup _ _); [|done].
  match goal with |- context [fences ?s1 !! identity] => destruct (fences s1 !! identity) as [f|] eqn:Hf end; [|done].
  intros [= <- <-]. eauto.
Qed.

Lemma fenced_true s key d g a f :
  fences s !! a = Some f → fence_covers key d g f = true → fenced s key d g = true.
Proof.
  intros Hf Hc. apply existsb_exists. exists (a, f). split; [|done].
  by apply list_elem_of_In, elem_of_map_to_list.
Qed.

(** A fence without an owner covers the dispatch of its task, which is unclaimed. *)
Lemma unowned_fence_covers s a f k d :
  pickup_ok s → fences s !! a = Some f → f_owner f = None →
  dispatches s !! k = Some d → d_identity d = Some (f_task f, f_workflow f) →
  d_state d ≠ D_Claimed ∧ fenced s k d 1 = true.
Proof.
  intros Hok Hf Ho Hd Hid. pose proof (pk_fence _ Hok _ _ Hf) as Hfo. unfold fence_ok in Hfo.
  destruct (f_pickup f) as [[k' g]|] eqn:Hp; [|by destruct Hfo as [_ Hno]; destruct (Hno _ _ Hd)].
  destruct Hfo as (-> & d' & Hd' & Hid' & Hst). rewrite Ho in Hst.
  assert (k' = k) as -> by by apply (pk_identity _ Hok _ _ _ _ _ Hd' Hd Hid').
  rewrite Hd in Hd'. injection Hd' as <-. split; [done|].
  apply (fenced_true _ _ _ _ a f Hf). unfold fence_covers. rewrite Hp. by apply bool_decide_eq_true_2.
Qed.

Lemma selected_pending s key payload :
  select_pending_task_dispatch s = Some (key, payload) →
  ∃ d, dispatches s !! key = Some d ∧ d_state d = D_Pending ∧ d_payload d = payload ∧
    fenced s key d (d_generation d + 1) = false.
Proof.
  unfold select_pending_task_dispatch. destruct (select_rows _ _ _) as [|[k d] l] eqn:Hs; [done|].
  simpl. intros [= <- <-].
  assert ((k, d) ∈ select_rows leq_created (λ kd, bool_decide (d_state kd.2 = D_Pending)
                 && negb (fenced s kd.1 kd.2 (d_generation kd.2 + 1))) (dispatches s)) as Hin
    by (rewrite Hs; left).
  apply elem_of_select_rows in Hin as [Hd [Hp%bool_decide_eq_true Hf%negb_true_iff]%andb_true_iff]. eauto.
Qed.

(** C27: a cancellation whose fence finds no claim keeps the task from ever running.
    Whatever follows, the task's dispatch, whether it was there or arrives later, is
    never claimed, is never selected for a pickup, and has no event staged. *)
Theorem cancelled_task_never_runs s identity task workflow now fence s1 s2 key d :
  pickup_reachable s →
  commit_task_cancellation_fence s identity task workflow now = Ok (fence, s1) → tf_owner fence = None →
  pickup_run s1 s2 →
  dispatches s2 !! key = Some d → d_identity d = Some (tf_task fence, tf_workflow fence) →
  d_state d ≠ D_Claimed ∧
  (∀ input o s3, ci_dispatch_key input = key → claim_task_pickup s2 input = Ok (o, s3) →
     o = ClaimNotPending ∧ s3 = s2) ∧
  (∀ payload, select_pending_task_dispatch s2 ≠ Some (key, payload)) ∧
  (∀ g kind, outbox s2 !! ((key, g), kind) = None).
Proof.
  intros Hr Hc Ho Hrun Hd Hid. pose proof (reachable_step _ _ Hr (PkFence _ _ _ _ _ _ _ Hc)) as Hr1.
  destruct (commit_fence_loaded _ _ _ _ _ _ _ Hc) as (f1 & Hf1 & ->). simpl in *.
  destruct (pv_fences _ _ (run_evolves _ _ Hr1 Hrun) _ _ Hf1) as (f & Hf & [[= Ht Hw] Hof _ _]).
  pose proof (pickup_reachable_ok _ (reachable_run _ _ Hr1 Hrun)) as Hok2.
  destruct (unowned_fence_covers s2 identity f key d Hok2 Hf) as [Hst Hfenced]; [congruence|done|congruence|].
  split_and!; [done| | |].
  - intros input o s3 <-. eapply claim_not_pending; [done|done|by right].
  - intros payload (d' & Hd' & Hp & _ & Hnf)%selected_pending. rewrite Hd in Hd'. injection Hd' as <-.
    pose proof (pk_row _ Hok2 _ _ Hd) as Hrow. unfold row_ok in Hrow. rewrite Hp in Hrow.
    destruct Hrow as (Hg & _). rewrite Hg in Hnf. change (0 + 1)%Z with 1%Z in Hnf. congruence.
  - intros g kind. destruct (outbox s2 !! _) as [e|] eqn:He; [|done].
    destruct (pk_event _ Hok2 _ _ _ _ He) as (_ & (d0 & ? & ?) & _). congruence.
Qed.

(** ** Outcomes *)

(** A pickup has one terminal outcome.  Once one is recorded it never changes:
    every later election is told it and changes nothing, and the terminal events
    staged for the pickup are exactly the one the outcome calls for, none when the
    outcome is a cancellation. *)
Theorem terminal_outcome_final s s' p outcome at_ :
  pickup_reachable s → outcomes s !! p = Some (outcome, at_) → pickup_run s s' →
  outcomes s' !! p = Some (outcome, at_) ∧
  (∀ claim o event now, claim_key claim = p → validate_claim_identity claim = Ok () → is_Some (event_kind o) →
     elect_task_pickup_terminal s' claim o event now = Ok (ElectionSettled outcome, s')) ∧
  (∀ kind, is_terminal_kind kind = true →
     is_Some (outbox s' !! (p, kind)) ↔ event_kind outcome = Some kind).
Proof.
  intros Hr Ho Hrun. pose proof (pv_outcomes _ _ (run_evolves _ _ Hr Hrun) _ _ Ho) as Ho'.
  pose proof (pickup_reachable_ok _ (reachable_run _ _ Hr Hrun)) as Hok. split_and!; [done| |].
  - intros claim o event now <- Hv [kind Hk].
    pose proof (elect_cases s' claim o kind event now Hok Hv Hk) as Hc. by rewrite Ho' in Hc.
  - destruct p as [k g]. intros kind Hterm. split.
    + intros [e He]. destruct (pk_event _ Hok _ _ _ _ He) as (_ & _ & Hset).
      destruct (Hset Hterm) as (o & at' & Ho2 & Hk). congruence.
    + apply (pk_outcome _ Hok _ _ _ _ Ho').
Qed.

(** Electing an outcome.  The election of a held claim without an outcome wins,
    records the outcome and stages its event and nothing else; without a held claim
    it is refused.  No election fails on a constraint of the tables. *)
Theorem election_correct s claim outcome kind event now :
  pickup_reachable s → validate_claim_identity claim = Ok () → event_kind outcome = Some kind →
  outcomes s !! claim_key claim = None →
  (claim_held s claim ∧
   elect_task_pickup_terminal s claim outcome event now =
     Ok (ElectionWon, set_outbox (set_outcomes s (<[claim_key claim := (outcome, now)]> (outcomes s)))
                        (<[(claim_key claim, kind) := mkEventRow event now None]> (outbox s)))) ∨
  (¬ claim_held s claim ∧
   elect_task_pickup_terminal s claim outcome event now = Ok (ElectionNotClaimed, s)).
Proof.
  intros Hr Hv Hk Ho. pose proof (elect_cases s claim outcome kind event now (pickup_reachable_ok _ Hr) Hv Hk) as Hc.
  by rewrite Ho in Hc.
Qed.

(** ** Settlement *)

Lemma may_settle_congr s s' f f' :
  dispatches s' = dispatches s → f_pickup f' = f_pickup f → f_owner f' = f_owner f →
  fence_may_settle s' f' = fence_may_settle s f.
Proof. unfold fence_may_settle. by intros -> -> ->. Qed.

Lemma settle_election_cases s fence r now f :
  fences s !! tf_identity fence = Some f →
  dispatches (settle_election s fence r now).2 = dispatches s ∧
  acks (settle_election s fence r now).2 = acks s ∧
  (∀ p x, outcomes s !! p = Some x → outcomes (settle_election s fence r now).2 !! p = Some x) ∧
  (∀ key g p, tf_pickup fence = Some (key, g) → fence_may_settle s f = Some p →
     is_Some (outcomes (settle_election s fence r now).2 !! p)).
Proof.
  intros Hf. unfold settle_election. destruct (tf_pickup fence) as [[key g]|]; [|done].
  rewrite Hf. simpl. destruct (fence_may_settle s f) as [q|] eqn:Hm; [|done].
  destruct (settled s q) eqn:Hs; simpl; split_and!; try done.
  - intros _ _ p _ [= <-]. unfold settled in Hs. destruct (outcomes s !! q); [by eexists|done].
  - intros p x Hp. rewrite lookup_insert_ne; [done|]. intros <-. unfold settled in Hs. by rewrite Hp in Hs.
  - intros _ _ p _ [= <-]. rewrite lookup_insert_eq. by eexists.
Qed.

(** The tables after a settlement. *)
Lemma settlement_cases s fence r ack now o s' :
  settle_task_cancellation s fence r ack now = Ok (o, s') →
  ∃ f, fences s !! tf_identity fence = Some f ∧
    fences s' = <[tf_identity fence := settle_row r now f]> (fences s) ∧
    acks s' = <[tf_identity fence := default (mkAckRow ack now None) (acks s !! tf_identity fence)]> (acks s) ∧
    dispatches s' = dispatches s ∧ outcomes s' = outcomes (settle_election s fence r now).2.
Proof.
  unfold settle_task_cancellation. fold (settle_election s fence r now).
  pose proof (settle_election_fences s fence r now) as Hfe.
  pose proof (settle_election_cases s fence r now) as Hcases.
  destruct (settle_election s fence r now) as [inserted s1]. simpl in *. unfold insert_ack. simpl.
  rewrite lookup_alter_eq, Hfe. destruct (fences s !! tf_identity fence) as [f|] eqn:Hf; [|done].
  destruct (Hcases f eq_refl) as (Hd & Ha & _). simpl. intros [= _ <-]. exists f. split; [done|].
  assert (alter (settle_row r now) (tf_identity fence) (fences s) =
          <[tf_identity fence := settle_row r now f]> (fences s)) as Halt.
  { apply map_eq. intros x. rewrite lookup_alter, lookup_insert. case_decide; [subst; by rewrite Hf|done]. }
  rewrite Ha. destruct (acks s !! tf_identity fence) as [w|] eqn:Hw; simpl; split_and!; try done.
  by rewrite Ha, insert_id.
Qed.

(** A second settlement finds everything settled. *)
Lemma settle_again s fence r ack now f w :
  fences s !! tf_identity fence = Some f → is_Some (f_settled f) → acks s !! tf_identity fence = Some w →
  (∀ p, is_Some (tf_pickup fence) → fence_may_settle s f = Some p → is_Some (outcomes s !! p)) →
  settle_task_cancellation s fence r ack now =
    Ok ((λ x, ElectionSettled x.1) <$> (tf_pickup fence ≫= λ p, outcomes s !! p), s).
Proof.
  intros Hf [[r0 t0] Hs] Hw Ho.
  assert (settle_election s fence r now = (false, s)) as Hse.
  { unfold settle_election. destruct (tf_pickup fence) as [[key g]|]; [|done]. rewrite Hf. simpl.
    destruct (fence_may_settle s f) as [q|] eqn:Hm; [|done].
    destruct (Ho q) as [x Hx]; [by eexists|done|]. unfold settled. by rewrite Hx. }
  unfold settle_task_cancellation. fold (settle_election s fence r now). rewrite Hse. unfold insert_ack. simpl.
  assert (alter (settle_row r now) (tf_identity fence) (fences s) = fences s) as ->.
  { apply map_eq. intros x. rewrite lookup_alter. case_decide; [subst|done]. rewrite Hf. simpl.
    unfold settle_row. rewrite Hs. simpl. destruct f; simpl in *. by subst. }
  rewrite Hf, Hw. simpl. destruct s as [ds ob oc q fs ak]. simpl. f_equal. f_equal.
  destruct (tf_pickup fence) as [p|]; [|done]. simpl. by destruct (oc !! p).
Qed.

(** A cancellation is settled once.  A settlement keeps an earlier reconciliation
    and acknowledgement and otherwise records its own; they never change in any run;
    and repeating it, whatever it reports, changes nothing and answers the outcome
    that stands. *)
Theorem settlement_once s fence r ack now o s1 :
  pickup_reachable s → settle_task_cancellation s fence r ack now = Ok (o, s1) →
  (∃ f, fences s !! tf_identity fence = Some f ∧
     ∀ s2, pickup_run s1 s2 →
       (∃ f2, fences s2 !! tf_identity fence = Some f2 ∧ f_settled f2 = Some (default (r, now) (f_settled f))) ∧
       (∃ w, acks s2 !! tf_identity fence = Some w ∧
             a_acknowledgement w = default ack (a_acknowledgement <$> acks s !! tf_identity fence))) ∧
  (∀ r' ack' now', settle_task_cancellation s1 fence r' ack' now' =
     Ok ((λ x, ElectionSettled x.1) <$> (tf_pickup fence ≫= λ p, outcomes s1 !! p), s1)).
Proof.
  intros Hr Hs. pose proof (reachable_step _ _ Hr (PkSettle _ _ _ _ _ _ _ Hs)) as Hr1.
  destruct (settlement_cases _ _ _ _ _ _ _ Hs) as (f & Hf & Hf1 & Ha1 & Hd1 & Ho1).
  assert (fences s1 !! tf_identity fence = Some (settle_row r now f)) as Hfs by by rewrite Hf1, lookup_insert_eq.
  assert (acks s1 !! tf_identity fence = Some (default (mkAckRow ack now None) (acks s !! tf_identity fence)))
    as Has by by rewrite Ha1, lookup_insert_eq.
  split.
  - exists f. split; [done|]. intros s2 Hrun. pose proof (run_evolves _ _ Hr1 Hrun) as Hev. split.
    + destruct (pv_fences _ _ Hev _ _ Hfs) as (f2 & Hf2 & Hfe). exists f2. split; [done|].
      by apply (fe_settled _ _ Hfe).
    + destruct (pv_acks _ _ Hev _ _ Has) as (w & Hw & Hk). exists w. split; [done|]. rewrite Hk.
      by destruct (acks s !! _).
  - intros r' ack' now'. eapply settle_again; [done|by eexists|done|]. intros p [[key g] Hp] Hm.
    rewrite (may_settle_congr s s1 f) in Hm by done. rewrite Ho1.
    destruct (settle_election_cases s fence r now f Hf) as (_ & _ & _ & Hq). by eapply Hq.
Qed.

(** ** Raising a fence *)

Lemma dispatch_of_unique s task workflow k d :
  pickup_ok s → dispatches s !! k = Some d → d_identity d = Some (task, workflow) →
  dispatch_of s task workflow = Some (k, d).
Proof.
  intros Hok Hd Hid. destruct (dispatch_of s task workflow) as [[k' d']|] eqn:Hof.
  - apply dispatch_of_Some in Hof as [Hd' Hid'].
    assert (k' = k) as -> by by apply (pk_identity _ Hok _ _ _ _ _ Hd' Hd Hid'). congruence.
  - by destruct (dispatch_of_None _ _ _ Hof _ _ Hd).
Qed.

Lemma dispatch_of_absent s task workflow :
  (∀ k d, dispatches s !! k = Some d → d_identity d ≠ Some (task, workflow)) →
  dispatch_of s task workflow = None.
Proof.
  intros Hno. destruct (dispatch_of s task workflow) as [[k d]|] eqn:Hof; [|done].
  apply dispatch_of_Some in Hof as [Hd Hid]. by destruct (Hno _ _ Hd).
Qed.

Lemma fence_untaken s task workflow :
  (∀ a f, fences s !! a = Some f → (f_task f, f_workflow f) ≠ (task, workflow)) →
  fence_taken s task workflow = false.
Proof.
  intros Hno. apply not_true_iff_false. unfold fence_taken. rewrite existsb_exists.
  intros ([a f] & Hin%list_elem_of_In%elem_of_map_to_list & Heq%bool_decide_eq_true). by destruct (Hno _ _ Hin).
Qed.

Definition valid_fence (identity task workflow : string) : Prop :=
  validate_cancellation_identity identity = Ok () ∧ validate_cancellation_identity task = Ok () ∧
  validate_cancellation_identity workflow = Ok ().

(** A new fence on [pickup] and [owner] is committed and loaded. *)
Definition fence_committed s identity task workflow pickup owner now : Prop :=
  ∃ fence s', commit_task_cancellation_fence s identity task workflow now = Ok (fence, s') ∧
    s' = set_fences s (<[identity := mkFenceRow task workflow pickup owner now None None]> (fences s)) ∧
    tf_pickup fence = pickup ∧ tf_owner fence = owner.

Lemma commit_new_fence s identity task workflow now pickup owner :
  valid_fence identity task workflow → fences s !! identity = None → fence_taken s task workflow = false →
  fence_pickup task (dispatch_of s task workflow) = Ok (pickup, owner) →
  if fence_checked pickup then fence_committed s identity task workflow pickup owner now
  else commit_task_cancellation_fence s identity task workflow now = Err PickupCorruptValue.
Proof.
  intros (V1 & V2 & V3) Hf Ht Hp.
  destruct (fence_checked pickup) eqn:Hc; [unfold fence_committed|];
    unfold commit_task_cancellation_fence; rewrite V1, V2, V3, Hp, Ht, Hf; simpl; rewrite Hc; simpl.
  - rewrite lookup_insert_eq. by do 2 eexists.
  - by rewrite Hf.
Qed.

(** C24: the fence of a cancellation records what there is to cancel: nothing yet, the
    claim a pending dispatch has still to get, or the claim of the executor that
    holds the task.  A task whose dispatch was rejected cannot be fenced: its
    generation 0 breaks the check of the table, the row is skipped, and the
    cancellation fails. *)
Theorem fence_reflects_dispatch s identity task workflow now :
  pickup_reachable s → valid_fence identity task workflow → fences s !! identity = None →
  (∀ a f, fences s !! a = Some f → (f_task f, f_workflow f) ≠ (task, workflow)) →
  ((∀ k d, dispatches s !! k = Some d → d_identity d ≠ Some (task, workflow)) →
   fence_committed s identity task workflow None None now) ∧
  (∀ k d, dispatches s !! k = Some d → d_identity d = Some (task, workflow) →
     match d_state d with
     | D_Pending => fence_committed s identity task workflow (Some (k, 1%Z)) None now
     | D_Claimed => fence_committed s identity task workflow (Some (k, 1%Z)) (d_owner d) now ∧ is_Some (d_owner d)
     | D_Rejected => commit_task_cancellation_fence s identity task workflow now = Err PickupCorruptValue
     end).
Proof.
  intros Hok%pickup_reachable_ok Hv Hf Ht%fence_untaken. split.
  - intros Hno%dispatch_of_absent.
    apply (commit_new_fence s identity task workflow now None None Hv Hf Ht). by rewrite Hno.
  - intros k d Hd Hid. pose proof (commit_new_fence s identity task workflow now) as Hcommit.
    rewrite (dispatch_of_unique _ _ _ _ _ Hok Hd Hid) in Hcommit. simpl in Hcommit.
    pose proof (pk_row _ Hok _ _ Hd) as Hrow. unfold row_ok in Hrow.
    destruct (d_state d); destruct Hrow as (Hg & Ho & _); rewrite Hg in Hcommit.
    + by apply (Hcommit (Some (k, 1%Z)) None).
    + split; [|done]. by apply (Hcommit (Some (k, 1%Z)) (d_owner d)).
    + by apply (Hcommit (Some (k, 0%Z)) (d_owner d)).
Qed.

(** ** No transaction fails on the tables *)

(** The tables never stand in the way.  Generations are 0 before the claim and 1
    from then on, so none overflows; and every well-formed rejection, claim, election
    and settlement of a fence on record goes through. *)
Theorem pickup_transactions_total s :
  pickup_reachable s →
  (∀ k d, dispatches s !! k = Some d → d_generation d = if bool_decide (d_state d = D_Claimed) then 1%Z else 0%Z) ∧
  (∀ k g kind, is_Some (outbox s !! ((k, g), kind)) → g = 1%Z) ∧
  (∀ k g, is_Some (outcomes s !! (k, g)) → g = 1%Z) ∧
  (∀ key reason now, validate_dispatch_key key = Ok () → ∃ b s', reject_task_dispatch s key reason now = Ok (b, s')) ∧
  (∀ input, validate_claim_input input = Ok () → ∃ o s', claim_task_pickup s input = Ok (o, s')) ∧
  (∀ claim outcome event now, validate_claim_identity claim = Ok () → is_Some (event_kind outcome) →
     ∃ o s', elect_task_pickup_terminal s claim outcome event now = Ok (o, s')) ∧
  (∀ fence r ack now, is_Some (fences s !! tf_identity fence) →
     ∃ o s', settle_task_cancellation s fence r ack now = Ok (o, s')).
Proof.
  intros Hok%pickup_reachable_ok. split_and!.
  - intros k d Hd. pose proof (pk_row _ Hok _ _ Hd) as Hrow. unfold row_ok in Hrow.
    by destruct (d_state d); destruct Hrow as (-> & _).
  - intros k g kind [e He]. by apply (pk_event _ Hok) in He as (-> & _).
  - intros k g [[o at_] Ho]. by apply (pk_outcome _ Hok) in Ho as (-> & _).
  - intros key reason now Hv. unfold reject_task_dispatch. rewrite Hv.
    destruct (dispatches s !! key) as [d|] eqn:Hd; [|by do 2 eexists]. case_bool_decide as Hst; [|by do 2 eexists].
    destruct (quarantine s !! key) eqn:Hq; [|by do 2 eexists].
    destruct (pk_quarantine _ Hok key) as (d0 & ? & ?); [by eexists|congruence].
  - intros input Hv. pose proof (claim_cases s input Hok Hv) as Hc. repeat case_match; eauto.
  - intros claim outcome event now Hv [kind Hk].
    pose proof (elect_cases s claim outcome kind event now Hok Hv Hk) as Hc.
    destruct (outcomes s !! claim_key claim) as [[]|]; [eauto|]. destruct Hc as [[_ ?]|[_ ?]]; eauto.
  - intros fence r ack now [f Hf]. unfold settle_task_cancellation. fold (settle_election s fence r now).
    pose proof (settle_election_fences s fence r now) as Hfe.
    destruct (settle_election s fence r now) as [inserted s1]. unfold insert_ack. simpl in *.
    rewrite lookup_alter_eq, Hfe, Hf. simpl. by do 2 eexists.
Qed.

(** ** Overdue pickups *)

Definition due_pickups s (now : Z) : gset string :=
  dom (filter (λ kd : string * DispatchRow, is_due s now kd = true) (dispatches s)).

Lemma elem_of_due s now k :
  k ∈ due_pickups s now ↔ ∃ d, dispatches s !! k = Some d ∧ is_due s now (k, d) = true.
Proof.
  unfold due_pickups. rewrite elem_of_dom. split.
  - intros [d [Hd Hp]%map_lookup_filter_Some]. eauto.
  - intros (d & Hd & Hp). exists d. by apply map_lookup_filter_Some.
Qed.

Lemma is_due_inv s now k d :
  is_due s now (k, d) = true →
  d_state d = D_Claimed ∧ (∃ deadline, d_deadline d = Some deadline ∧ (deadline ≤ now)%Z) ∧
  outcomes s !! (k, d_generation d) = None.
Proof.
  unfold is_due. simpl. intros [[Hst%bool_decide_eq_true Hdl]%andb_true_iff Hs]%andb_true_iff.
  split_and!; [done| |].
  - destruct (d_deadline d) as [x|]; [|done]. apply Z.leb_le in Hdl. eauto.
  - unfold settled in Hs. by destruct (outcomes s !! _).
Qed.

Lemma leq_deadline_total : ∀ x y, leq_deadline x y = true ∨ leq_deadline y x = true.
Proof.
  intros [k1 d1] [k2 d2]. unfold leq_deadline. simpl.
  destruct (d_deadline d1) as [x|], (d_deadline d2) as [y|]; auto using string_leb_total.
  destruct (Z.eqb_spec x y) as [->|Hne]; [rewrite Z.eqb_refl; apply string_leb_total|].
  destruct (Z.eqb_spec y x) as [|_]; [congruence|]. rewrite !Z.ltb_lt. lia.
Qed.

Lemma leq_deadline_trans x y z : leq_deadline x y = true → leq_deadline y z = true → leq_deadline x z = true.
Proof.
  destruct x as [k1 d1], y as [k2 d2], z as [k3 d3]. unfold leq_deadline. simpl.
  destruct (d_deadline d1) as [x|], (d_deadline d2) as [y|], (d_deadline d3) as [z|]; try done;
    eauto using string_leb_trans.
  destruct (Z.eqb_spec x y) as [->|Hxy], (Z.eqb_spec y z) as [->|Hyz].
  - eauto using string_leb_trans.
  - done.
  - by destruct (Z.eqb_spec x z).
  - rewrite !Z.ltb_lt. intros. destruct (Z.eqb_spec x z); [lia|]. apply Z.ltb_lt. lia.
Qed.

(** Keys and owners on record passed their validation. *)
Definition sized_rows s : Prop :=
  ∀ k d, dispatches s !! k = Some d →
    validate_dispatch_key k = Ok () ∧ ∀ o, d_owner d = Some o → validate_owner o = Ok ().

Lemma sized_update s k d d' :
  sized_rows s → dispatches s !! k = Some d → d_owner d' = d_owner d →
  ∀ k0 d0, <[k := d']> (dispatches s) !! k0 = Some d0 →
    validate_dispatch_key k0 = Ok () ∧ ∀ o, d_owner d0 = Some o → validate_owner o = Ok ().
Proof.
  intros Hs Hd Ho k0 d0. rewrite lookup_insert_Some. intros [[<- <-]|[_ Hk0]]; [|by apply Hs].
  destruct (Hs _ _ Hd) as [Hk Hown]. split; [done|]. rewrite Ho. done.
Qed.

Lemma update_claimed_sized s claim guard deadline (armed : DispatchRow → option Z) now :
  sized_rows s →
  sized_rows (update_claimed s claim guard (λ d, set_liveness deadline (armed d) now d)).2.
Proof.
  intros Hs. unfold update_claimed. destruct (update_row _ _ _ _) as [t|] eqn:Hu; [|done].
  apply update_row_Some in Hu as (d & Hd & _ & ->). intros k0 d0. simpl. by eapply sized_update.
Qed.

Lemma claim_sized s input o s' : claim_task_pickup s input = Ok (o, s') → sized_rows s → sized_rows s'.
Proof.
  intros Hc Hs. pose proof (claim_valid _ _ _ _ Hc) as Hv. revert Hc. unfold claim_task_pickup. rewrite Hv.
  destruct (dispatches s !! ci_dispatch_key input) as [d|] eqn:Hd; [|intros [= _ <-]; done].
  case_bool_decide; [|intros [= _ <-]; done].
  destruct (checked_succ _) as [g|]; [|done]. simpl. destruct (fenced _ _ _ _); [intros [= _ <-]; done|].
  destruct (insert_event _ _ _ _ _) as [s2|] eqn:Hi; [|done]. apply insert_event_Ok in Hi as [_ ->].
  intros [= _ <-] k0 d0. simpl. rewrite lookup_insert_Some. intros [[<- <-]|[_ Hk0]]; [|by apply Hs].
  unfold validate_claim_input in Hv. destruct (validate_dispatch_key _) as [[]|]; [|done].
  destruct (validate_owner _) as [[]|] eqn:Ho; [|done]. split; [done|]. by intros o' [= <-].
Qed.

Lemma pickup_step_sized s s' : pickup_step s s' → sized_rows s → sized_rows s'.
Proof.
  destruct 1 as [s key payload task workflow now b s' H|s key reason now b s' H|? ? ? ? H|s claim deadline now b s' H
    |s claim event now|s claim deadline now b s' H|s claim now b s' H|s claim o event now r s' H|s event now
    |s identity task workflow now fence s' H|s fence now|s fence r ack now o s' H|s identity ack now]; intros Hs.
  - pose proof (stage_cases _ _ _ _ _ _ _ _ H) as [(_ & -> & _)|(_ & _ & i & _ & _ & ->)]; [done|].
    unfold stage_task_dispatch in H. destruct (validate_dispatch_key key) as [[]|] eqn:Hv; [|done].
    intros k0 d0. simpl. rewrite lookup_insert_Some. intros [[<- <-]|[_ Hk0]]; [done|by apply Hs].
  - revert H. unfold reject_task_dispatch. destruct (validate_dispatch_key key); [|done].
    destruct (dispatches s !! key) as [d|] eqn:Hd; [|intros [= _ <-]; done].
    case_bool_decide; [|intros [= _ <-]; done]. destruct (quarantine s !! key); [done|].
    intros [= _ <-] k0 d0. simpl. by eapply sized_update.
  - by eapply claim_sized.
  - unfold arm_task_pickup_liveness in H. destruct (validate_claim claim deadline now); [|done].
    injection H as H. rewrite <-(f_equal snd H : _ = s').
    by apply (update_claimed_sized s claim _ deadline (λ _, Some now)).
  - unfold stage_task_started. by repeat case_match.
  - unfold renew_task_pickup_liveness in H. destruct (validate_claim claim deadline now); [|done].
    injection H as H. rewrite <-(f_equal snd H : _ = s'). by apply (update_claimed_sized s claim _ deadline d_armed_at).
  - unfold register_task_pickup_liveness_failure in H. destruct (validate_claim_identity claim); [|done].
    injection H as H. rewrite <-(f_equal snd H : _ = s'). by apply (update_claimed_sized s claim _ now d_armed_at).
  - revert H. unfold elect_task_pickup_terminal, insert_event. repeat case_match; intros; by simplify_eq.
  - unfold mark_task_event_forwarded. by repeat case_match.
  - revert H. unfold commit_task_cancellation_fence. repeat case_match; intros; by simplify_eq.
  - unfold mark_task_cancellation_owner_notified. by repeat case_match.
  - apply settlement_cases in H as (f & _ & _ & _ & Hd & _). unfold sized_rows. by rewrite Hd.
  - unfold mark_task_cancellation_ack_forwarded. by repeat case_match.
Qed.

Lemma reachable_sized s : pickup_reachable s → sized_rows s.
Proof.
  unfold pickup_reachable, pickup_run. intros Hr.
  assert (sized_rows empty_pickup_store) as H0 by (intros k d Hk; done).
  induction Hr; eauto using pickup_step_sized.
Qed.

Lemma validated_claim s claim :
  pickup_reachable s → claim_held s claim → validate_claim_identity claim = Ok ().
Proof.
  intros Hr (d & Hd & Hh). destruct (reachable_sized _ Hr _ _ Hd) as [Hk Ho].
  destruct (claimed_generation _ _ _ (pickup_reachable_ok _ Hr) Hd Hh) as [_ Hkey]. injection Hkey as Hg.
  apply holds_claim_inv in Hh as (_ & _ & Hown). unfold validate_claim_identity.
  by rewrite Hk, (Ho _ Hown), Hg.
Qed.

Lemma select_due_inv s now claim payload :
  pickup_ok s → select_due_task_pickup s now = Some (claim, payload) →
  claim_held s claim ∧ outcomes s !! claim_key claim = None ∧ (c_deadline claim ≤ now)%Z ∧
  c_dispatch_key claim ∈ due_pickups s now ∧
  ∀ k d deadline, dispatches s !! k = Some d → is_due s now (k, d) = true → d_deadline d = Some deadline →
    (c_deadline claim ≤ deadline)%Z.
Proof.
  intros Hok. unfold select_due_task_pickup. destruct (head _) as [[k d]|] eqn:Hh; [|done]. simpl.
  apply (head_select_Some _ leq_deadline_total leq_deadline_trans) in Hh as (Hd & Hdue & Hmin).
  pose proof (is_due_inv _ _ _ _ Hdue) as (Hst & (x & Hx & Hle) & Ho).
  pose proof (pk_row _ Hok _ _ Hd) as Hrow. unfold row_ok in Hrow. rewrite Hst in Hrow.
  destruct Hrow as (Hg & [o Hown] & _). rewrite Hx, Hown. simpl. intros [= <- <-]. simpl. split_and!.
  - exists d. split; [done|]. unfold holds_claim. simpl. by rewrite Hst, Hown, !bool_decide_eq_true_2.
  - done.
  - done.
  - apply elem_of_due. eauto.
  - intros k' d' y Hd' Hdue' Hy. specialize (Hmin _ _ Hd' Hdue'). unfold leq_deadline in Hmin.
    simpl in Hmin. rewrite Hx, Hy in Hmin. destruct (Z.eqb_spec x y) as [->|]; [lia|]. apply Z.ltb_lt in Hmin. lia.
Qed.

(** An elected pickup is no longer due; nothing else changes. *)
Lemma elected_due s claim o kind event now at_ :
  pickup_ok s → claim_held s claim →
  due_pickups (elected s claim o kind event at_) now = due_pickups s now ∖ {[ c_dispatch_key claim ]}.
Proof.
  intros Hok (d & Hd & Hh). apply set_eq. intros k.
  rewrite elem_of_difference, elem_of_singleton, !elem_of_due. simpl.
  destruct (claimed_generation _ _ _ Hok Hd Hh) as [Hst Hkey].
  unfold is_due, settled. simpl. rewrite Hkey in *. split.
  - intros (d0 & Hd0 & Hdue). destruct (decide (k = c_dispatch_key claim)) as [->|Hne].
    + rewrite Hd in Hd0. injection Hd0 as <-. apply holds_claim_inv in Hh as (_ & Hg & _).
      injection Hkey as Hg1. rewrite Hg, Hg1, lookup_insert_eq, andb_false_r in Hdue. done.
    + split; [|done]. exists d0. rewrite lookup_insert_ne in Hdue by congruence. done.
  - intros [(d0 & Hd0 & Hdue) Hne]. exists d0. rewrite lookup_insert_ne by congruence. done.
Qed.

Lemma select_due_none s now :
  pickup_ok s → select_due_task_pickup s now = None → due_pickups s now = ∅.
Proof.
  intros Hok Hs. apply elem_of_equiv_empty_L. intros k (d & Hd & Hdue)%elem_of_due. revert Hs.
  unfold select_due_task_pickup. destruct (head _) as [[k' d']|] eqn:Hh.
  - apply (head_select_Some _ leq_deadline_total leq_deadline_trans) in Hh as (Hd' & Hdue' & _).
    pose proof (is_due_inv _ _ _ _ Hdue') as (Hst' & (x' & Hx' & _) & _).
    pose proof (pk_row _ Hok _ _ Hd') as Hrow. unfold row_ok in Hrow. rewrite Hst' in Hrow.
    destruct Hrow as (_ & [o Hown] & _). simpl. by rewrite Hx', Hown.
  - rewrite head_select_None in Hh. by rewrite (Hh _ _ Hd) in Hdue.
Qed.

(** Overdue pickups expire.  The sweep selects a pickup whose deadline has passed
    first of all; expiring it wins the election, and it is then no longer due while
    the others still are: as many sweeps as pickups are due leave none.  It selects
    none only when none is due. *)
Theorem due_pickup_expires s now :
  pickup_reachable s →
  match select_due_task_pickup s now with
  | Some (claim, _) =>
      (c_deadline claim ≤ now)%Z ∧
      (∀ k d deadline, dispatches s !! k = Some d → is_due s now (k, d) = true → d_deadline d = Some deadline →
         (c_deadline claim ≤ deadline)%Z) ∧
      ∀ event, ∃ s', elect_task_pickup_terminal s claim LivenessExpired event now = Ok (ElectionWon, s') ∧
        due_pickups s' now = due_pickups s now ∖ {[ c_dispatch_key claim ]} ∧
        size (due_pickups s' now) < size (due_pickups s now)
  | None => due_pickups s now = ∅
  end.
Proof.
  intros Hr. pose proof (pickup_reachable_ok _ Hr) as Hok.
  destruct (select_due_task_pickup s now) as [[claim payload]|] eqn:Hs; [|by apply select_due_none].
  destruct (select_due_inv _ _ _ _ Hok Hs) as (Hheld & Ho & Hle & Hin & Hmin). split_and!; [done|done|].
  intros event. pose proof (elect_cases s claim LivenessExpired E_Unhealthy event now Hok
                              (validated_claim _ _ Hr Hheld) eq_refl) as Hc.
  rewrite Ho in Hc. destruct Hc as [[_ Hc]|[Hno _]]; [|done]. eexists. split; [exact Hc|].
  rewrite elected_due by done. split; [done|]. rewrite size_difference by set_solver. rewrite size_singleton.
  assert (size (due_pickups s now) ≠ 0) by (rewrite size_non_empty_iff; set_solver). lia.
Qed.

(** ** Runs that meet the hypotheses *)

Definition after_transaction {A} (r : result (A * PickupStore) PickupError) : PickupStore :=
  match r with Ok (_, s) => s | Err _ => empty_pickup_store end.

Definition demo_input : ClaimTaskPickupInput := mkClaimTaskPickupInput "d1" "executor-one" 20 "assigned" 10.
Definition demo_claim : TaskPickupClaim := mkTaskPickupClaim "d1" 1 "executor-one" 20.

Definition s_staged : PickupStore :=
  after_transaction (stage_task_dispatch empty_pickup_store "d1" "payload" (Some "t1") (Some "w1") 5).
Definition s_claimed : PickupStore := after_transaction (claim_task_pickup s_staged demo_input).
Definition s_expired : PickupStore :=
  after_transaction (elect_task_pickup_terminal s_claimed demo_claim LivenessExpired "unhealthy" 30).
Definition s_fenced : PickupStore :=
  after_transaction (commit_task_cancellation_fence s_staged "ack" "t1" "w1" 6).
Definition demo_fence : TaskCancellationFence :=
  mkTaskCancellationFence "ack" "t1" "w1" (Some ("d1", 1%Z)) None false None None.
Definition s_settled : PickupStore :=
  after_transaction (settle_task_cancellation s_fenced demo_fence R_NoProcess "no such task" 7).

Lemma s_staged_reachable : pickup_reachable s_staged.
Proof.
  eapply rtc_once, (PkStage _ "d1" "payload" (Some "t1") (Some "w1") 5). vm_compute; reflexivity.
Qed.

Lemma s_claimed_reachable : pickup_reachable s_claimed.
Proof. eapply reachable_step; [apply s_staged_reachable|]. eapply (PkClaim _ demo_input). vm_compute; reflexivity. Qed.

Lemma s_expired_reachable : pickup_reachable s_expired.
Proof.
  eapply reachable_step; [apply s_claimed_reachable|].
  eapply (PkElect _ demo_claim LivenessExpired "unhealthy" 30). vm_compute; reflexivity.
Qed.

Lemma s_fenced_reachable : pickup_reachable s_fenced.
Proof.
  eapply reachable_step; [apply s_staged_reachable|].
  eapply (PkFence _ "ack" "t1" "w1" 6). vm_compute; reflexivity.
Qed.

Lemma claimed_once_witness :
  claim_task_pickup s_staged demo_input = Ok (ClaimCommitted demo_claim, s_claimed) ∧ claim_held s_expired demo_claim.
Proof.
  assert (claim_task_pickup s_staged demo_input = Ok (ClaimCommitted demo_claim, s_claimed)) as Hc
    by (vm_compute; reflexivity).
  split; [exact Hc|].
  destruct (claimed_once s_staged demo_input demo_claim s_claimed s_expired s_staged_reachable Hc) as (_ & Hh & _);
    [|exact Hh].
  apply rtc_once, (PkElect _ demo_claim LivenessExpired "unhealthy" 30 ElectionWon). vm_compute; reflexivity.
Defined.

Lemma cancelled_task_never_runs_witness :
  ∃ d, dispatches s_settled !! "d1" = Some d ∧ d_state d ≠ D_Claimed.
Proof.
  eexists. split; [reflexivity|].
  refine (proj1 (cancelled_task_never_runs s_staged "ack" "t1" "w1" 6 demo_fence s_fenced s_settled "d1" _
                   s_staged_reachable _ eq_refl _ eq_refl eq_refl)).
  - vm_compute; reflexivity.
  - eapply rtc_once, (PkSettle _ demo_fence R_NoProcess "no such task" 7). vm_compute; reflexivity.
Defined.

Lemma terminal_outcome_final_witness :
  elect_task_pickup_terminal s_expired demo_claim ProcessExitedSuccess "completed" 31 =
    Ok (ElectionSettled LivenessExpired, s_expired).
Proof.
  refine (proj1 (proj2 (terminal_outcome_final s_expired s_expired ("d1", 1%Z) LivenessExpired 30
                          s_expired_reachable _ (rtc_refl _ _))) demo_claim ProcessExitedSuccess "completed" 31%Z
            eq_refl eq_refl _).
  - vm_compute; reflexivity.
  - by eexists.
Defined.

Lemma election_correct_witness :
  elect_task_pickup_terminal s_claimed demo_claim ProcessExitedSuccess "completed" 12 ≠ Ok (ElectionNotClaimed, s_claimed).
Proof.
  destruct (election_correct s_claimed demo_claim ProcessExitedSuccess E_Completed "completed" 12
              s_claimed_reachable eq_refl eq_refl) as [[_ H]|[H _]]; [vm_compute; reflexivity|..].
  - rewrite H. discriminate.
  - exfalso. apply H. eexists. by split; [reflexivity|vm_compute].
Defined.

Lemma settlement_once_witness :
  settle_task_cancellation s_settled demo_fence R_Killed "killed" 9 =
    Ok (Some (ElectionSettled CancellationNoProcess), s_settled).
Proof.
  refine (proj2 (settlement_once s_fenced demo_fence R_NoProcess "no such task" 7 (Some ElectionWon) s_settled
                   s_fenced_reachable _) R_Killed "killed" 9%Z).
  vm_compute; reflexivity.
Defined.

Lemma fence_reflects_dispatch_witness : fence_committed s_claimed "ack" "t1" "w1" (Some ("d1", 1%Z)) (Some "executor-one") 11.
Proof.
  destruct (fence_reflects_dispatch s_claimed "ack" "t1" "w1" 11 s_claimed_reachable) as [_ H].
  - by split_and!.
  - reflexivity.
  - intros a f Hf. exfalso. revert Hf. change (fences s_claimed) with (∅ : gmap string FenceRow). done.
  - exact (proj1 (H "d1" _ eq_refl eq_refl)).
Defined.

Lemma pickup_transactions_total_witness : ∃ b s', reject_task_dispatch s_staged "d1" "poison" 6 = Ok (b, s').
Proof. by eapply (pickup_transactions_total s_staged s_staged_reachable). Defined.

Lemma due_pickup_expires_witness :
  match select_due_task_pickup s_claimed 25 with Some (claim, _) => (c_deadline claim ≤ 25)%Z | None => False end.
Proof.
  pose proof (due_pickup_expires s_claimed 25 s_claimed_reachable) as H.
  destruct (select_due_task_pickup s_claimed 25) as [[claim payload]|] eqn:Hs; [apply H|].
  exfalso. revert Hs. vm_compute. discriminate.
Defined.
