(* ===== verification/LocalWriter.v ===== *)
(** * The local pickup writer

    [local_task_pickup_writer.rs]: the one task that owns the pickup tables.  A
    client's call is a request with the type of its answer; the writer serves the
    requests one at a time, [handle] by [handle].  The writer's switches for
    injected faults are part of its state, as in the code; outside of tests they are
    off.  The vocabulary of [executor/src/local_pickup.rs] that the requests carry is
    here too.  A repository error is kept as a value, not rendered. *)

From S2P Require Import Prelude Workflow Uuid TaskWire TaskPickup.

(** ** The executor's vocabulary *)

Record PendingLocalDispatch := mkPendingLocalDispatch {
  pd_dispatch_key : string;
  pd_payload : string
}.

Record LocalPickupClaim := mkLocalPickupClaim {
  lc_dispatch_key : string;
  lc_generation : Z;
  lc_owner : string;
  lc_deadline : Z
}.

Record ClaimLocalPickup := mkClaimLocalPickup {
  cl_dispatch_key : string;
  cl_owner : string;
  cl_deadline : Z;
  cl_assigned_event : string;
  cl_now : Z
}.

Record DueLocalPickup := mkDueLocalPickup {
  due_claim : LocalPickupClaim;
  due_payload : string
}.

Inductive LocalAttemptOutcome :=
| Lo_ProcessExitedSuccess
| Lo_ProcessExitedFailure
| Lo_ProcessSetupFailed
| Lo_LivenessExpired
| Lo_CancellationKilled
| Lo_CancellationAlreadyExited
| Lo_CancellationNoProcess.

Inductive TerminalElection := Te_Won | Te_Settled (outcome : LocalAttemptOutcome).

Inductive CancellationReconciliation := Cr_Killed | Cr_AlreadyExited | Cr_NoProcess.

Definition kill_outcome (r : CancellationReconciliation) : KillOutcome :=
  match r with
  | Cr_Killed => Kill_Killed
  | Cr_AlreadyExited | Cr_NoProcess => Kill_NoSuchTask
  end.

Inductive WriterError :=
| Repository (e : PickupError)
| NotCurrentGeneration
| InvalidStoredIdentity
| WriterStopped.

Inductive ClaimWriteError := Ambiguous | ClaimFailed (e : WriterError).

(** The two entities of the relay's messages that the writer forwards. *)
Inductive RelayEntity := Entity_TaskEvent | Entity_CancelTaskAck.

(** ** Between the executor's and the repository's values *)

Definition local_claim (claim : TaskPickupClaim) : LocalPickupClaim :=
  mkLocalPickupClaim (c_dispatch_key claim) (c_generation claim) (c_owner claim) (c_deadline claim).

Definition repository_claim (claim : LocalPickupClaim) : TaskPickupClaim :=
  mkTaskPickupClaim (lc_dispatch_key claim) (lc_generation claim) (lc_owner claim) (lc_deadline claim).

Definition local_due (due : TaskPickupClaim * string) : DueLocalPickup :=
  mkDueLocalPickup (local_claim due.1) due.2.

Definition repository_outcome (o : LocalAttemptOutcome) : TaskPickupTerminalOutcome :=
  match o with
  | Lo_ProcessExitedSuccess => ProcessExitedSuccess
  | Lo_ProcessExitedFailure => ProcessExitedFailure
  | Lo_ProcessSetupFailed => ProcessSetupFailed
  | Lo_LivenessExpired => LivenessExpired
  | Lo_CancellationKilled => CancellationKilled
  | Lo_CancellationAlreadyExited => CancellationAlreadyExited
  | Lo_CancellationNoProcess => CancellationNoProcess
  end.

Definition local_outcome (o : TaskPickupTerminalOutcome) : LocalAttemptOutcome :=
  match o with
  | ProcessExitedSuccess => Lo_ProcessExitedSuccess
  | ProcessExitedFailure => Lo_ProcessExitedFailure
  | ProcessSetupFailed => Lo_ProcessSetupFailed
  | LivenessExpired => Lo_LivenessExpired
  | CancellationKilled => Lo_CancellationKilled
  | CancellationAlreadyExited => Lo_CancellationAlreadyExited
  | CancellationNoProcess => Lo_CancellationNoProcess
  end.

Definition repository_reconciliation (r : CancellationReconciliation) : TaskCancellationReconciliation :=
  match r with
  | Cr_Killed => R_Killed
  | Cr_AlreadyExited => R_AlreadyExited
  | Cr_NoProcess => R_NoProcess
  end.

Definition local_election (e : TaskPickupTerminalElection) : result TerminalElection WriterError :=
  match e with
  | ElectionWon => Ok Te_Won
  | ElectionSettled o => Ok (Te_Settled (local_outcome o))
  | ElectionNotClaimed => Err NotCurrentGeneration
  end.

(** ** The writer *)

Inductive ClaimAcknowledgement := Ack_Normal | Ack_AmbiguousOnce.

Record LocalTaskPickupWriter := mkLocalTaskPickupWriter {
  repository : PickupStore;
  claim_acknowledgement : ClaimAcknowledgement;
  suppress_ambiguous_proof : bool;
  fail_initial_arm : bool;
  suppress_ready_proof : bool
}.

Definition set_repository (w : LocalTaskPickupWriter) (s : PickupStore) : LocalTaskPickupWriter :=
  mkLocalTaskPickupWriter s (claim_acknowledgement w) (suppress_ambiguous_proof w)
    (fail_initial_arm w) (suppress_ready_proof w).

(** [LocalTaskPickupWriter::new]: no injected fault. *)
Definition new_writer (s : PickupStore) : LocalTaskPickupWriter :=
  mkLocalTaskPickupWriter s Ack_Normal false false false.

Section writer.
Context `{UuidOps Uuid} `{!Countable Uuid} `{Wire TaskDispatch}.
(** The hexadecimal SHA-256 digest, from the [sha2] crate. *)
Context (sha256_hex : string → string).

Record LocalCancellationFence := mkLocalCancellationFence {
  lf_identity : string;
  lf_request : CancelRequest Uuid;
  lf_pickup : option (string * Z);
  lf_owner : option string;
  lf_owner_notified : bool;
  lf_deadline : option Z;
  lf_outcome : option LocalAttemptOutcome
}.

Definition local_cancellation_fence (fence : TaskCancellationFence) (request : CancelRequest Uuid)
    : LocalCancellationFence :=
  mkLocalCancellationFence (tf_identity fence) request (tf_pickup fence) (tf_owner fence)
    (tf_notified fence) (tf_deadline fence) (local_outcome <$> tf_outcome fence).

Definition repository_cancellation_fence (fence : LocalCancellationFence) : TaskCancellationFence :=
  mkTaskCancellationFence (lf_identity fence)
    (uuid_to_string (cr_task_instance_id (lf_request fence)))
    (uuid_to_string (cr_workflow_instance_id (lf_request fence)))
    (lf_pickup fence) (lf_owner fence) (lf_owner_notified fence) (lf_deadline fence)
    (repository_outcome <$> lf_outcome fence).

Definition cancellation_request (fence : TaskCancellationFence) : result (CancelRequest Uuid) WriterError :=
  let? task := ok_or (uuid_parse_str (tf_task fence)) InvalidStoredIdentity in
  let? workflow := ok_or (uuid_parse_str (tf_workflow fence)) InvalidStoredIdentity in
  Ok (mkCancelRequest task workflow).

Definition dispatch_key (payload : string) : string := "task-dispatch-v1:" +:+ sha256_hex payload.

(** A request, indexed by its answer. *)
Inductive Request : Type → Type :=
| StageDispatch (payload : string) : Request (result (string * bool) WriterError)
| SelectPending : Request (result (option PendingLocalDispatch) WriterError)
| RejectPoison (key reason : string) (now : Z) : Request (result bool WriterError)
| Claim (input : ClaimLocalPickup) : Request (result (option LocalPickupClaim) ClaimWriteError)
| ProveAmbiguousClaim (key owner assigned_event : string)
    : Request (result (option LocalPickupClaim) WriterError)
| ArmLiveness (claim : LocalPickupClaim) (deadline now : Z) : Request (result bool WriterError)
| ProveReadyToLaunch (claim : LocalPickupClaim) (assigned_event : string)
    : Request (result bool WriterError)
| StageStarted (claim : LocalPickupClaim) (event : string) (now : Z) : Request (result bool WriterError)
| RenewLiveness (claim : LocalPickupClaim) (deadline now : Z) : Request (result bool WriterError)
| RegisterLivenessFailure (claim : LocalPickupClaim) (now : Z) : Request (result bool WriterError)
| SelectDueLiveness (now : Z) : Request (result (option DueLocalPickup) WriterError)
| ElectTerminal (claim : LocalPickupClaim) (outcome : LocalAttemptOutcome) (event : string) (now : Z)
    : Request (result TerminalElection WriterError)
| SelectPendingTaskEvent : Request (result (option PendingTaskEvent) WriterError)
| MarkTaskEventForwarded (event : PendingTaskEvent) (now : Z) : Request (result bool WriterError)
| CommitCancellationFence (identity : string) (request : CancelRequest Uuid) (now : Z)
    : Request (result LocalCancellationFence WriterError)
| MarkCancellationOwnerNotified (fence : LocalCancellationFence) (now : Z)
    : Request (result bool WriterError)
| SettleCancellation (fence : LocalCancellationFence) (r : CancellationReconciliation)
    (acknowledgement : string) (now : Z) : Request (result (option TerminalElection) WriterError)
| SelectUnresolvedCancellation : Request (result (option LocalCancellationFence) WriterError)
| SelectPendingCancellationAck : Request (result (option (string * string)) WriterError)
| MarkCancellationAckForwarded (ack : string * string) (now : Z) : Request (result bool WriterError).

(** One transaction on the owned repository. *)
Definition transact {A} (w : LocalTaskPickupWriter) (r : result (A * PickupStore) PickupError)
    : result A WriterError * LocalTaskPickupWriter :=
  match r with
  | Ok (a, s) => (Ok a, set_repository w s)
  | Err e => (Err (Repository e), w)
  end.

Definition run_claim (w : LocalTaskPickupWriter) (input : ClaimLocalPickup)
    : result (option LocalPickupClaim) ClaimWriteError * LocalTaskPickupWriter :=
  match claim_task_pickup (repository w)
          (mkClaimTaskPickupInput (cl_dispatch_key input) (cl_owner input) (cl_deadline input)
             (cl_assigned_event input) (cl_now input)) with
  | Ok (outcome, s) =>
      match claim_acknowledgement w with
      | Ack_AmbiguousOnce =>
          (Err Ambiguous, mkLocalTaskPickupWriter s Ack_Normal (suppress_ambiguous_proof w)
                            (fail_initial_arm w) (suppress_ready_proof w))
      | Ack_Normal =>
          (Ok match outcome with
              | ClaimCommitted claim => Some (local_claim claim)
              | ClaimNotPending => None
              end, set_repository w s)
      end
  | Err e => (Err (ClaimFailed (Repository e)), w)
  end.

(** One request served; [clock] is [pickup_now()]. *)
Definition handle {R} (clock : Z) (req : Request R) (w : LocalTaskPickupWriter) : R * LocalTaskPickupWriter :=
  match req in Request R return R * LocalTaskPickupWriter with
  | StageDispatch payload =>
      let key := dispatch_key payload in
      let task := match decode_dispatch payload with Ok t => Some t | Err _ => None end in
      let '(answer, w') :=
        transact w (stage_task_dispatch (repository w) key payload
                      ((λ t, uuid_to_string (dt_task_instance_id t)) <$> task)
                      ((λ t, uuid_to_string (dt_workflow_instance_id t)) <$> task) clock) in
      (let? inserted := answer in Ok (key, inserted), w')
  | SelectPending =>
      (Ok ((λ p : string * string, mkPendingLocalDispatch p.1 p.2) <$>
           select_pending_task_dispatch (repository w)), w)
  | RejectPoison key reason now => transact w (reject_task_dispatch (repository w) key reason now)
  | Claim input => run_claim w input
  | ProveAmbiguousClaim key owner assigned_event =>
      (if suppress_ambiguous_proof w then Ok None
       else match prove_ambiguous_task_pickup (repository w) key owner assigned_event with
            | Ok claim => Ok (local_claim <$> claim)
            | Err e => Err (Repository e)
            end, w)
  | ArmLiveness claim deadline now =>
      if fail_initial_arm w then (Ok false, w)
      else transact w (arm_task_pickup_liveness (repository w) (repository_claim claim) deadline now)
  | ProveReadyToLaunch claim assigned_event =>
      (Ok (if suppress_ready_proof w then false
           else prove_task_pickup_ready (repository w) (repository_claim claim) assigned_event), w)
  | StageStarted claim event now =>
      transact w (Ok (stage_task_started (repository w) (repository_claim claim) event now))
  | RenewLiveness claim deadline now =>
      transact w (renew_task_pickup_liveness (repository w) (repository_claim claim) deadline now)
  | RegisterLivenessFailure claim now =>
      transact w (register_task_pickup_liveness_failure (repository w) (repository_claim claim) now)
  | SelectDueLiveness now => (Ok (local_due <$> select_due_task_pickup (repository w) now), w)
  | ElectTerminal claim outcome event now =>
      let '(answer, w') :=
        transact w (elect_task_pickup_terminal (repository w) (repository_claim claim)
                      (repository_outcome outcome) event now) in
      (let? election := answer in local_election election, w')
  | SelectPendingTaskEvent => (Ok (select_pending_task_event (repository w)), w)
  | MarkTaskEventForwarded event now =>
      transact w (Ok (mark_task_event_forwarded (repository w) event now))
  | CommitCancellationFence identity request now =>
      let '(answer, w') :=
        transact w (commit_task_cancellation_fence (repository w) identity
                      (uuid_to_string (cr_task_instance_id request))
                      (uuid_to_string (cr_workflow_instance_id request)) now) in
      (let? fence := answer in Ok (local_cancellation_fence fence request), w')
  | MarkCancellationOwnerNotified fence now =>
      transact w (Ok (mark_task_cancellation_owner_notified (repository w)
                        (repository_cancellation_fence fence) now))
  | SettleCancellation fence r acknowledgement now =>
      let '(answer, w') :=
        transact w (settle_task_cancellation (repository w) (repository_cancellation_fence fence)
                      (repository_reconciliation r) acknowledgement now) in
      (let? election := answer in
       match election with
       | Some e => let? e' := local_election e in Ok (Some e')
       | None => Ok None
       end, w')
  | SelectUnresolvedCancellation =>
      (match select_unresolved_task_cancellation (repository w) with
       | Some fence => let? request := cancellation_request fence in
                       Ok (Some (local_cancellation_fence fence request))
       | None => Ok None
       end, w)
  | SelectPendingCancellationAck => (Ok (select_pending_task_cancellation_ack (repository w)), w)
  | MarkCancellationAckForwarded ack now =>
      transact w (Ok (mark_task_cancellation_ack_forwarded (repository w) ack.1 ack.2 now))
  end.

(** ** The client

    A client's call sends the request and awaits the answer.  The writer may have
    stopped before it serves the request, or after: the answer is then the error. *)

Inductive Fate := Served | StoppedBefore | StoppedAfter.

Definition stopped {R} (req : Request R) : R :=
  match req in Request R return R with
  | StageDispatch _ => Err WriterStopped
  | SelectPending => Err WriterStopped
  | RejectPoison _ _ _ => Err WriterStopped
  | Claim _ => Err (ClaimFailed WriterStopped)
  | ProveAmbiguousClaim _ _ _ => Err WriterStopped
  | ArmLiveness _ _ _ => Err WriterStopped
  | ProveReadyToLaunch _ _ => Err WriterStopped
  | StageStarted _ _ _ => Err WriterStopped
  | RenewLiveness _ _ _ => Err WriterStopped
  | RegisterLivenessFailure _ _ => Err WriterStopped
  | SelectDueLiveness _ => Err WriterStopped
  | ElectTerminal _ _ _ _ => Err WriterStopped
  | SelectPendingTaskEvent => Err WriterStopped
  | MarkTaskEventForwarded _ _ => Err WriterStopped
  | CommitCancellationFence _ _ _ => Err WriterStopped
  | MarkCancellationOwnerNotified _ _ => Err WriterStopped
  | SettleCancellation _ _ _ _ => Err WriterStopped
  | SelectUnresolvedCancellation => Err WriterStopped
  | SelectPendingCancellationAck => Err WriterStopped
  | MarkCancellationAckForwarded _ _ => Err WriterStopped
  end.

Definition call {R} (fate : Fate) (clock : Z) (req : Request R) (w : LocalTaskPickupWriter)
    : R * LocalTaskPickupWriter :=
  match fate with
  | Served => handle clock req w
  | StoppedBefore => (stopped req, w)
  | StoppedAfter => (stopped req, (handle clock req w).2)
  end.

(** ** Forwarding to the relay *)

(** The relay channel: the messages sent, and whether its receiver is there. *)
Record RelayChannel := mkRelayChannel {
  relay_open : bool;
  relay_sent : list (RelayEntity * string)
}.

Definition relay_send (c : RelayChannel) (entity : RelayEntity) (payload : string) : option RelayChannel :=
  if relay_open c then Some (mkRelayChannel true (relay_sent c ++ [(entity, payload)])) else None.

Inductive ForwardError := Fw_Writer (e : WriterError) | Fw_RelayClosed | Fw_AlreadyCompleted.

(** One staged event is sent, and only then completed; the two calls of the writer
    have a fate each. *)
Definition forward_next_task_event (fates : Fate * Fate) (clock : Z) (w : LocalTaskPickupWriter)
    (relay : RelayChannel) : result bool ForwardError * LocalTaskPickupWriter * RelayChannel :=
  let '(answer, w) := call fates.1 clock SelectPendingTaskEvent w in
  match answer with
  | Err e => (Err (Fw_Writer e), w, relay)
  | Ok None => (Ok false, w, relay)
  | Ok (Some event) =>
      match relay_send relay Entity_TaskEvent (pe_event event) with
      | None => (Err Fw_RelayClosed, w, relay)
      | Some relay =>
          let '(done, w) := call fates.2 clock (MarkTaskEventForwarded event clock) w in
          (match done with
           | Ok true => Ok true
           | Ok false => Err Fw_AlreadyCompleted
           | Err e => Err (Fw_Writer e)
           end, w, relay)
      end
  end.

Definition forward_next_cancellation_ack (fates : Fate * Fate) (clock : Z) (w : LocalTaskPickupWriter)
    (relay : RelayChannel) : result bool ForwardError * LocalTaskPickupWriter * RelayChannel :=
  let '(answer, w) := call fates.1 clock SelectPendingCancellationAck w in
  match answer with
  | Err e => (Err (Fw_Writer e), w, relay)
  | Ok None => (Ok false, w, relay)
  | Ok (Some ack) =>
      match relay_send relay Entity_CancelTaskAck ack.2 with
      | None => (Err Fw_RelayClosed, w, relay)
      | Some relay =>
          let '(done, w) := call fates.2 clock (MarkCancellationAckForwarded ack clock) w in
          (match done with
           | Ok true => Ok true
           | Ok false => Err Fw_AlreadyCompleted
           | Err e => Err (Fw_Writer e)
           end, w, relay)
      end
  end.
End writer.

Arguments LocalCancellationFence Uuid : clear implicits.
Arguments Request Uuid : clear implicits.
