(* ===== verification/PickupExecutor.v ===== *)
(** * The executor and its cancellations

    [executor/src/local_pickup.rs]: the safe pickup choreography and the
    cancellation coordinator over the local writer.  The code is concurrent: any
    number of [run_one] attempts, cancellations, settlements and liveness sweeps
    share the writer, and the task handler's state behind one lock.  Each of them is
    a thread whose program counter stands between two awaited calls, and a step runs
    a thread from one such point to the next; a step that needs the handler's lock is
    possible only while it is free.  What the world decides, the clock, the fate of a
    call, a failing checkpoint, a failing spawn, is an argument of the step.

    An attempt that returns drops its [Child].  The launcher decides what that does:
    the processes of [NixTaskProcessLauncher] are spawned with [kill_on_drop(true)],
    the guardians of [LiteTaskProcessLauncher] ([lite_supervisor.rs]) with
    [kill_on_drop(false)], and the pipe whose end would stop them stays in the
    launcher's table of logs.

    Two components of the state are there only to state what holds: the processes
    launched so far and the ones that have been neither reaped nor torn down. *)

From S2P Require Import Prelude Workflow Uuid TaskWire TaskPickup LocalWriter.

Record PickupOwnerKey := mkPickupOwnerKey {
  ok_dispatch_key : string;
  ok_generation : Z;
  ok_owner : string
}.

#[global] Instance owner_key_eq_dec : EqDecision PickupOwnerKey.
Proof. solve_decision. Defined.
#[global] Instance owner_key_countable : Countable PickupOwnerKey.
Proof.
  apply (inj_countable' (λ k, (ok_dispatch_key k, ok_generation k, ok_owner k))
           (λ x, let '(a, b, c) := x in mkPickupOwnerKey a b c)).
  by intros [].
Defined.

(** [PickupOwnerKey::from(&claim)] *)
Definition owner_key (claim : LocalPickupClaim) : PickupOwnerKey :=
  mkPickupOwnerKey (lc_dispatch_key claim) (lc_generation claim) (lc_owner claim).

(** A registered process names its attempt, whose cancellation token and completion
    channel it shares. *)
Record LocalTaskHandlerState := mkLocalTaskHandlerState {
  running : gmap PickupOwnerKey nat;
  fenced_keys : gset PickupOwnerKey;
  stopping : bool
}.

Definition reconciliation_from_terminal (o : LocalAttemptOutcome) : CancellationReconciliation :=
  match o with
  | Lo_CancellationKilled => Cr_Killed
  | Lo_CancellationAlreadyExited => Cr_AlreadyExited
  | Lo_CancellationNoProcess => Cr_NoProcess
  | Lo_ProcessExitedSuccess | Lo_ProcessExitedFailure | Lo_ProcessSetupFailed | Lo_LivenessExpired =>
      Cr_AlreadyExited
  end.

(** ** Answers *)

Inductive PickupBoundary :=
| BeforeSelection | AfterSelection | AfterValidation | AfterClaimCommit | AfterAssignedStaging
| AfterInitialLivenessArm | AfterClaimProof | AfterSourceAcknowledgement | AfterSpawn
| AfterStartedStaging | AfterFirstLivenessRenewal | AfterProcessExitObservation
| AfterTerminalElection | AfterTerminalEventStaging.

Inductive SafePickupError :=
| Sp_Writer (e : WriterError)
| Sp_NoLongerPending
| Sp_BecameInvalid
| Sp_AmbiguousClaimUnproved
| Sp_InitialLivenessArmFailed
| Sp_ClaimProofFailed
| Sp_FormationStopping
| Sp_Launch
| Sp_StartedStagingFailed
| Sp_LivenessRenewalFailed (claim : LocalPickupClaim)
| Sp_TerminalElection (e : option WriterError)
| Sp_Checkpoint (boundary : PickupBoundary).

Inductive PickupOutcome :=
| Po_NoWork
| Po_PoisonRejected (dispatch_key : string)
| Po_ClaimUnavailable (dispatch_key : string)
| Po_ProcessSetupFailed (claim : LocalPickupClaim) (election : TerminalElection)
| Po_Launched (claim : LocalPickupClaim) (exit_success : bool) (election : TerminalElection)
| Po_Cancelled (claim : LocalPickupClaim) (reconciliation : CancellationReconciliation).

Inductive CancelError :=
| Ce_Writer (e : WriterError)
| Ce_NotNotified
| Ce_HandlerStopped.

(** What [tokio::select!] wakes up for. *)
Inductive Wake := W_Exit (success : bool) | W_WaitFailed | W_Cancelled | W_Timer.

(** The world's part in a step. *)
Record Env := mkEnv {
  env_clock : Z;
  env_fate : Fate;
  env_checkpoint : PickupBoundary → bool;  (* the boundary is passed *)
  env_spawned : bool;                      (* [spawn_claimed] succeeds *)
  env_wake : Wake;
  env_exit_recorded : bool                 (* the launcher's [process_exited] succeeds *)
}.

Section executor.
Context `{UuidOps Uuid} `{!Countable Uuid}.
Context `{Wire TaskDispatch} `{Wire TaskEvent} `{Wire CancelTaskRequest} `{Wire CancelTaskAck}.
Context (sha256_hex : string → string).
(** The text of a refused dispatch, recorded with its rejection. *)
Context (dispatch_error_text : DispatchError → string).
Context (owner : string) (executor_id : Uuid) (liveness_timeout : Z) (kill_on_drop : bool)
  (process_slots : nat).

Local Abbreviation Task := (DispatchedTask Uuid).
Local Abbreviation Fence := (LocalCancellationFence Uuid).

Definition pickup_owner_key (fence : Fence) : option PickupOwnerKey :=
  p ← lf_pickup fence; o ← lf_owner fence; Some (mkPickupOwnerKey p.1 p.2 o).

Definition cancellation_acknowledgement_identity (r : CancelRequest Uuid) : string :=
  "cancel-task-ack-v1:" +:+ uuid_to_string (cr_workflow_instance_id r) +:+ ":"
    +:+ uuid_to_string (cr_task_instance_id r).

Record CancellationOutcome := mkCancellationOutcome {
  co_fence : Fence;
  co_reconciliation : CancellationReconciliation;
  co_election : option TerminalElection
}.

(** ** Threads *)

(** What [stop_registered_process] returns to. *)
Inductive AfterStop := Stop_Failed (e : SafePickupError) | Stop_Cancelled (formation_stopping : bool).

(** [run_one], from one awaited call to the next. *)
Inductive Attempt :=
| A_Select
| A_Claim (pending : PendingLocalDispatch)
| A_ProveClaim (pending : PendingLocalDispatch) (task : Task)
| A_Arm (pending : PendingLocalDispatch) (task : Task) (claim : LocalPickupClaim)
| A_ProveReady (task : Task) (claim : LocalPickupClaim)
| A_Launch (task : Task) (claim : LocalPickupClaim)
| A_ElectSetupFailure (task : Task) (claim : LocalPickupClaim)
| A_StageStarted (task : Task) (claim : LocalPickupClaim)
| A_Renew (task : Task) (claim : LocalPickupClaim) (first : bool)
| A_RegisterFailure (task : Task) (claim : LocalPickupClaim)
| A_Running (task : Task) (claim : LocalPickupClaim)
| A_Exited (task : Task) (claim : LocalPickupClaim) (success : bool)
| A_ExitedStop (claim : LocalPickupClaim)
| A_Elect (task : Task) (claim : LocalPickupClaim) (success : bool)
| A_Teardown (task : Task) (claim : LocalPickupClaim) (after : AfterStop)
| A_Deregister (claim : LocalPickupClaim) (after : AfterStop)
| A_CancelledStop (claim : LocalPickupClaim)
| A_Done (answer : result PickupOutcome SafePickupError).

(** [cancel], [stage] and [reconcile_one] of the coordinator. *)
Inductive Cancellation :=
| C_Fence (request : CancelRequest Uuid)
| C_Resolve (fence : Fence)
| C_Wait (fence : Fence) (attempt : nat)
| C_StageFence (request : CancelRequest Uuid)
| C_StageNotify (fence : Fence)
| C_Reconcile
| C_Settle (fence : Fence) (r : CancellationReconciliation)
| C_Pending
| C_Done (answer : result CancellationOutcome CancelError).

(** [reconcile_one_due_liveness]. *)
Inductive Sweep :=
| L_Select (now : Z)
| L_Elect (task : Task) (claim : LocalPickupClaim) (now : Z)
| L_Done (answer : result (option (LocalPickupClaim * TerminalElection)) SafePickupError).

Record Sys := mkSys {
  writer : LocalTaskPickupWriter;
  handler : LocalTaskHandlerState;
  locked : bool;
  tokens : gset nat;                                     (* cancelled tokens *)
  completions : gmap nat CancellationReconciliation;     (* values sent *)
  attempts : gmap nat Attempt;
  cancellations : gmap nat Cancellation;
  sweeps : gmap nat Sweep;
  launches : list PickupOwnerKey;
  alive : gset PickupOwnerKey
}.

Definition set_writer (sys : Sys) (w : LocalTaskPickupWriter) : Sys :=
  mkSys w (handler sys) (locked sys) (tokens sys) (completions sys) (attempts sys) (cancellations sys)
    (sweeps sys) (launches sys) (alive sys).
Definition set_handler (sys : Sys) (h : LocalTaskHandlerState) : Sys :=
  mkSys (writer sys) h (locked sys) (tokens sys) (completions sys) (attempts sys) (cancellations sys)
    (sweeps sys) (launches sys) (alive sys).
Definition set_locked (sys : Sys) (b : bool) : Sys :=
  mkSys (writer sys) (handler sys) b (tokens sys) (completions sys) (attempts sys) (cancellations sys)
    (sweeps sys) (launches sys) (alive sys).
Definition cancel_tokens (sys : Sys) (ts : gset nat) : Sys :=
  mkSys (writer sys) (handler sys) (locked sys) (tokens sys ∪ ts) (completions sys) (attempts sys)
    (cancellations sys) (sweeps sys) (launches sys) (alive sys).
Definition send_completion (sys : Sys) (t : nat) (r : CancellationReconciliation) : Sys :=
  mkSys (writer sys) (handler sys) (locked sys) (tokens sys) (<[t := r]> (completions sys)) (attempts sys)
    (cancellations sys) (sweeps sys) (launches sys) (alive sys).
Definition set_attempt (sys : Sys) (t : nat) (a : Attempt) : Sys :=
  mkSys (writer sys) (handler sys) (locked sys) (tokens sys) (completions sys) (<[t := a]> (attempts sys))
    (cancellations sys) (sweeps sys) (launches sys) (alive sys).
Definition set_cancellation (sys : Sys) (t : nat) (c : Cancellation) : Sys :=
  mkSys (writer sys) (handler sys) (locked sys) (tokens sys) (completions sys) (attempts sys)
    (<[t := c]> (cancellations sys)) (sweeps sys) (launches sys) (alive sys).
Definition set_sweep (sys : Sys) (t : nat) (l : Sweep) : Sys :=
  mkSys (writer sys) (handler sys) (locked sys) (tokens sys) (completions sys) (attempts sys)
    (cancellations sys) (<[t := l]> (sweeps sys)) (launches sys) (alive sys).
Definition launched (sys : Sys) (k : PickupOwnerKey) : Sys :=
  mkSys (writer sys) (handler sys) (locked sys) (tokens sys) (completions sys) (attempts sys)
    (cancellations sys) (sweeps sys) (launches sys ++ [k]) (alive sys ∪ {[ k ]}).
Definition reaped (sys : Sys) (k : PickupOwnerKey) : Sys :=
  mkSys (writer sys) (handler sys) (locked sys) (tokens sys) (completions sys) (attempts sys)
    (cancellations sys) (sweeps sys) (launches sys) (alive sys ∖ {[ k ]}).

(** The attempt returns while its process runs: [Child] is dropped. *)
Definition dropped (sys : Sys) (k : PickupOwnerKey) : Sys :=
  if kill_on_drop then reaped sys k else sys.

(** An awaited call of the writer. *)
Definition ask {R} (e : Env) (sys : Sys) (req : Request Uuid R) : R * Sys :=
  let '(answer, w) := call sha256_hex (env_fate e) (env_clock e) req (writer sys) in
  (answer, set_writer sys w).

Definition register (sys : Sys) (k : PickupOwnerKey) (t : nat) : Sys :=
  set_handler sys (mkLocalTaskHandlerState (<[k := t]> (running (handler sys))) (fenced_keys (handler sys))
                     (stopping (handler sys))).
Definition deregister (sys : Sys) (k : PickupOwnerKey) : Sys :=
  set_handler sys (mkLocalTaskHandlerState (delete k (running (handler sys))) (fenced_keys (handler sys))
                     (stopping (handler sys))).
Definition lift_fence (sys : Sys) (k : PickupOwnerKey) : Sys :=
  set_handler sys (mkLocalTaskHandlerState (running (handler sys)) (fenced_keys (handler sys) ∖ {[ k ]})
                     (stopping (handler sys))).
Definition raise_fence (sys : Sys) (k : PickupOwnerKey) : Sys :=
  set_handler sys (mkLocalTaskHandlerState (running (handler sys)) (fenced_keys (handler sys) ∪ {[ k ]})
                     (stopping (handler sys))).

(** ** [prepare_pickup] *)

(** A boundary that is not passed interrupts the attempt. *)
Definition reach (e : Env) (b : PickupBoundary) (next : Attempt) : Attempt :=
  if env_checkpoint e b then next else A_Done (Err (Sp_Checkpoint b)).

Definition step_select (e : Env) (sys : Sys) : Attempt * Sys :=
  if env_checkpoint e BeforeSelection then
    let '(answer, sys) := ask e sys SelectPending in
    (match answer with
     | Ok None => A_Done (Ok Po_NoWork)
     | Ok (Some pending) => reach e AfterSelection (A_Claim pending)
     | Err err => A_Done (Err (Sp_Writer err))
     end, sys)
  else (A_Done (Err (Sp_Checkpoint BeforeSelection)), sys).

Definition step_claim (e : Env) (sys : Sys) (pending : PendingLocalDispatch) : Attempt * Sys :=
  match accept_dispatch (pd_payload pending) with
  | Err reason =>
      let '(answer, sys) :=
        ask e sys (RejectPoison (pd_dispatch_key pending) (dispatch_error_text reason) (env_clock e)) in
      (match answer with
       | Ok true => A_Done (Ok (Po_PoisonRejected (pd_dispatch_key pending)))
       | Ok false => A_Done (Err Sp_NoLongerPending)
       | Err err => A_Done (Err (Sp_Writer err))
       end, sys)
  | Ok task =>
      if env_checkpoint e AfterValidation then
        let '(answer, sys) :=
          ask e sys (Claim (mkClaimLocalPickup (pd_dispatch_key pending) owner
                              (env_clock e + liveness_timeout)
                              (encode_task_event task executor_id Emit_Assigned) (env_clock e))) in
        (match answer with
         | Ok (Some claim) =>
             reach e AfterClaimCommit (reach e AfterAssignedStaging (A_Arm pending task claim))
         | Ok None => A_Done (Ok (Po_ClaimUnavailable (pd_dispatch_key pending)))
         | Err Ambiguous => A_ProveClaim pending task
         | Err (ClaimFailed err) => A_Done (Err (Sp_Writer err))
         end, sys)
      else (A_Done (Err (Sp_Checkpoint AfterValidation)), sys)
  end.

Definition step_prove_claim (e : Env) (sys : Sys) (pending : PendingLocalDispatch) (task : Task)
    : Attempt * Sys :=
  let '(answer, sys) :=
    ask e sys (ProveAmbiguousClaim (pd_dispatch_key pending) owner
                 (encode_task_event task executor_id Emit_Assigned)) in
  (match answer with
   | Ok (Some claim) =>
       reach e AfterClaimCommit (reach e AfterAssignedStaging (A_Arm pending task claim))
   | Ok None => A_Done (Err Sp_AmbiguousClaimUnproved)
   | Err err => A_Done (Err (Sp_Writer err))
   end, sys).

Definition step_arm (e : Env) (sys : Sys) (task : Task) (claim : LocalPickupClaim) : Attempt * Sys :=
  let '(answer, sys) := ask e sys (ArmLiveness claim (env_clock e + liveness_timeout) (env_clock e)) in
  (match answer with
   | Ok true => reach e AfterInitialLivenessArm (A_ProveReady task claim)
   | Ok false => A_Done (Err Sp_InitialLivenessArmFailed)
   | Err err => A_Done (Err (Sp_Writer err))
   end, sys).

(** The local writer has nothing to complete at the source. *)
Definition step_prove_ready (e : Env) (sys : Sys) (task : Task) (claim : LocalPickupClaim)
    : Attempt * Sys :=
  let '(answer, sys) :=
    ask e sys (ProveReadyToLaunch claim (encode_task_event task executor_id Emit_Assigned)) in
  (match answer with
   | Ok true => reach e AfterClaimProof (reach e AfterSourceAcknowledgement (A_Launch task claim))
   | Ok false => A_Done (Err Sp_ClaimProofFailed)
   | Err err => A_Done (Err (Sp_Writer err))
   end, sys).

(** ** [run_one] *)

Definition elect_outcome (e : Env) (sys : Sys) (task : Task) (claim : LocalPickupClaim)
    (outcome : LocalAttemptOutcome) : result TerminalElection SafePickupError * Sys :=
  let elect event :=
    let '(answer, sys) := ask e sys (ElectTerminal claim outcome event (env_clock e)) in
    (match answer with
     | Ok election =>
         if env_checkpoint e AfterTerminalElection then
           if env_checkpoint e AfterTerminalEventStaging then Ok election
           else Err (Sp_Checkpoint AfterTerminalEventStaging)
         else Err (Sp_Checkpoint AfterTerminalElection)
     | Err err => Err (Sp_TerminalElection (Some err))
     end, sys) in
  match outcome with
  | Lo_ProcessExitedSuccess => elect (encode_task_event task executor_id Emit_Completed)
  | Lo_ProcessExitedFailure | Lo_ProcessSetupFailed => elect (encode_task_event task executor_id Emit_Failed)
  | Lo_LivenessExpired => elect (encode_unhealthy_task_event task)
  | Lo_CancellationKilled | Lo_CancellationAlreadyExited | Lo_CancellationNoProcess =>
      (Err (Sp_TerminalElection None), sys)
  end.

(** Under the lock: a stopping formation or a raised fence forestalls the process. *)
Definition step_launch (e : Env) (sys : Sys) (t : nat) (task : Task) (claim : LocalPickupClaim)
    : Attempt * Sys :=
  let k := owner_key claim in
  if stopping (handler sys) then (A_Done (Err Sp_FormationStopping), sys)
  else if bool_decide (k ∈ fenced_keys (handler sys)) then
    (A_Done (Ok (Po_Cancelled claim Cr_NoProcess)), lift_fence sys k)
  else if env_spawned e then (A_StageStarted task claim, register (launched sys k) k t)
  else (A_ElectSetupFailure task claim, set_locked sys true).

Definition step_elect_setup_failure (e : Env) (sys : Sys) (task : Task) (claim : LocalPickupClaim)
    : Attempt * Sys :=
  let '(answer, sys) := elect_outcome e sys task claim Lo_ProcessSetupFailed in
  (A_Done (let? election := answer in Ok (Po_ProcessSetupFailed claim election)), set_locked sys false).

(** A writer's error returns without stopping the registered process, and drops it. *)
Definition step_stage_started (e : Env) (sys : Sys) (task : Task) (claim : LocalPickupClaim)
    : Attempt * Sys :=
  if env_checkpoint e AfterSpawn then
    let '(answer, sys) :=
      ask e sys (StageStarted claim (encode_task_event task executor_id Emit_Started) (env_clock e)) in
    match answer with
    | Ok true =>
        (if env_checkpoint e AfterStartedStaging then A_Renew task claim true
         else A_Teardown task claim (Stop_Failed (Sp_Checkpoint AfterStartedStaging)), sys)
    | Ok false => (A_Teardown task claim (Stop_Failed Sp_StartedStagingFailed), sys)
    | Err err => (A_Done (Err (Sp_Writer err)), dropped sys (owner_key claim))
    end
  else (A_Teardown task claim (Stop_Failed (Sp_Checkpoint AfterSpawn)), sys).

Definition step_renew (e : Env) (sys : Sys) (task : Task) (claim : LocalPickupClaim) (first : bool)
    : Attempt * Sys :=
  let '(answer, sys) := ask e sys (RenewLiveness claim (env_clock e + liveness_timeout) (env_clock e)) in
  (match answer with
   | Ok true =>
       if first && negb (env_checkpoint e AfterFirstLivenessRenewal)
       then A_Teardown task claim (Stop_Failed (Sp_Checkpoint AfterFirstLivenessRenewal))
       else A_Running task claim
   | _ => A_RegisterFailure task claim
   end, sys).

(** Whether or not the failure could be registered, the process is stopped. *)
Definition step_register_failure (e : Env) (sys : Sys) (task : Task) (claim : LocalPickupClaim)
    : Attempt * Sys :=
  let '(_, sys) := ask e sys (RegisterLivenessFailure claim (env_clock e)) in
  (A_Teardown task claim (Stop_Failed (Sp_LivenessRenewalFailed claim)), sys).

Definition step_running (e : Env) (sys : Sys) (t : nat) (task : Task) (claim : LocalPickupClaim)
    : option (Attempt * Sys) :=
  match env_wake e with
  | W_Timer => Some (A_Renew task claim false, sys)
  | W_WaitFailed => Some (A_Done (Err Sp_Launch), dropped sys (owner_key claim))
  | W_Exit success =>
      let sys := reaped sys (owner_key claim) in
      Some (if env_exit_recorded e then
              if env_checkpoint e AfterProcessExitObservation then A_Exited task claim success
              else A_Done (Err (Sp_Checkpoint AfterProcessExitObservation))
            else A_Done (Err Sp_Launch), sys)
  | W_Cancelled =>
      if bool_decide (t ∈ tokens sys) && negb (locked sys)
      then Some (A_Teardown task claim (Stop_Cancelled (stopping (handler sys))), sys) else None
  end.

(** The exit of the process, under the lock: of a cancelled one it completes the
    cancellation, of another it is elected with the lock still held. *)
Definition step_exited (sys : Sys) (t : nat) (task : Task) (claim : LocalPickupClaim) (success : bool)
    : Attempt * Sys :=
  let sys := deregister sys (owner_key claim) in
  if bool_decide (t ∈ tokens sys) then
    if stopping (handler sys) then (A_ExitedStop claim, sys)
    else (A_Done (Ok (Po_Cancelled claim Cr_AlreadyExited)), send_completion sys t Cr_AlreadyExited)
  else (A_Elect task claim success, set_locked sys true).

(** [register_formation_stop]: its answer is only logged. *)
Definition step_exited_stop (e : Env) (sys : Sys) (t : nat) (claim : LocalPickupClaim) : Attempt * Sys :=
  let '(_, sys) := ask e sys (RegisterLivenessFailure claim (env_clock e)) in
  (A_Done (Ok (Po_Cancelled claim Cr_AlreadyExited)), send_completion sys t Cr_AlreadyExited).

Definition step_elect (e : Env) (sys : Sys) (task : Task) (claim : LocalPickupClaim) (success : bool)
    : Attempt * Sys :=
  let outcome := if success then Lo_ProcessExitedSuccess else Lo_ProcessExitedFailure in
  let '(answer, sys) := elect_outcome e sys task claim outcome in
  (A_Done (let? election := answer in Ok (Po_Launched claim success election)), set_locked sys false).

(** [stop_registered_process]: the completion is sent before the process is
    deregistered. *)
Definition step_teardown (sys : Sys) (t : nat) (claim : LocalPickupClaim) (after : AfterStop)
    : Attempt * Sys :=
  (A_Deregister claim after, send_completion (reaped sys (owner_key claim)) t Cr_Killed).

Definition step_deregister (sys : Sys) (claim : LocalPickupClaim) (after : AfterStop) : Attempt * Sys :=
  (match after with
   | Stop_Failed err => A_Done (Err err)
   | Stop_Cancelled true => A_CancelledStop claim
   | Stop_Cancelled false => A_Done (Ok (Po_Cancelled claim Cr_Killed))
   end, deregister sys (owner_key claim)).

Definition step_cancelled_stop (e : Env) (sys : Sys) (claim : LocalPickupClaim) : Attempt * Sys :=
  let '(_, sys) := ask e sys (RegisterLivenessFailure claim (env_clock e)) in
  (A_Done (Ok (Po_Cancelled claim Cr_Killed)), sys).

(** A step that takes the lock waits for it. *)
Definition with_lock (sys : Sys) (r : Attempt * Sys) : option (Attempt * Sys) :=
  if locked sys then None else Some r.

Definition attempt_step (e : Env) (sys : Sys) (t : nat) (a : Attempt) : option (Attempt * Sys) :=
  match a with
  | A_Select => Some (step_select e sys)
  | A_Claim pending => Some (step_claim e sys pending)
  | A_ProveClaim pending task => Some (step_prove_claim e sys pending task)
  | A_Arm _ task claim => Some (step_arm e sys task claim)
  | A_ProveReady task claim => Some (step_prove_ready e sys task claim)
  | A_Launch task claim => with_lock sys (step_launch e sys t task claim)
  | A_ElectSetupFailure task claim => Some (step_elect_setup_failure e sys task claim)
  | A_StageStarted task claim => Some (step_stage_started e sys task claim)
  | A_Renew task claim first => Some (step_renew e sys task claim first)
  | A_RegisterFailure task claim => Some (step_register_failure e sys task claim)
  | A_Running task claim => step_running e sys t task claim
  | A_Exited task claim success => with_lock sys (step_exited sys t task claim success)
  | A_ExitedStop claim => Some (step_exited_stop e sys t claim)
  | A_Elect task claim success => Some (step_elect e sys task claim success)
  | A_Teardown _ claim after => Some (step_teardown sys t claim after)
  | A_Deregister claim after => with_lock sys (step_deregister sys claim after)
  | A_CancelledStop claim => Some (step_cancelled_stop e sys claim)
  | A_Done _ => None
  end.

(** ** The cancellation coordinator *)

(** [cancel_request]: the lock is held from the commit of the fence on. *)
Definition step_fence (e : Env) (sys : Sys) (request : CancelRequest Uuid) : Cancellation * Sys :=
  let '(answer, sys) :=
    ask e sys (CommitCancellationFence (cancellation_acknowledgement_identity request) request (env_clock e)) in
  match answer with
  | Ok fence => (C_Resolve fence, set_locked sys true)
  | Err err => (C_Done (Err (Ce_Writer err)), sys)
  end.

(** [resolve_with_local_owner], up to the release of the lock. *)
Definition step_resolve (e : Env) (sys : Sys) (fence : Fence) : Cancellation * Sys :=
  match lf_outcome fence with
  | Some outcome => (C_Settle fence (reconciliation_from_terminal outcome), set_locked sys false)
  | None =>
      match pickup_owner_key fence with
      | Some k =>
          let completion := running (handler sys) !! k in
          let sys := match completion with
                     | Some t => cancel_tokens sys {[ t ]}
                     | None => raise_fence sys k
                     end in
          let '(answer, sys) := ask e sys (MarkCancellationOwnerNotified fence (env_clock e)) in
          (match answer with
           | Ok true => match completion with
                        | Some t => C_Wait fence t
                        | None => C_Settle fence Cr_NoProcess
                        end
           | Ok false => C_Done (Err Ce_NotNotified)
           | Err err => C_Done (Err (Ce_Writer err))
           end, set_locked sys false)
      | None => (C_Settle fence Cr_NoProcess, set_locked sys false)
      end
  end.

(** [wait_for_cancellation_completion]: the sender is dropped when its attempt ends. *)
Definition step_wait (sys : Sys) (fence : Fence) (t : nat) : option (Cancellation * Sys) :=
  match completions sys !! t with
  | Some r => Some (C_Settle fence r, sys)
  | None =>
      match attempts sys !! t with
      | Some (A_Done _) => Some (C_Done (Err Ce_HandlerStopped), sys)
      | _ => None
      end
  end.

(** [stage]: a claimed generation stays pending for its owner. *)
Definition step_stage_fence (e : Env) (sys : Sys) (request : CancelRequest Uuid) : Cancellation * Sys :=
  let '(answer, sys) :=
    ask e sys (CommitCancellationFence (cancellation_acknowledgement_identity request) request (env_clock e)) in
  (match answer with
   | Ok fence =>
       match lf_outcome fence, lf_owner fence with
       | Some outcome, _ => C_Settle fence (reconciliation_from_terminal outcome)
       | None, None => C_Settle fence Cr_NoProcess
       | None, Some _ => C_StageNotify fence
       end
   | Err err => C_Done (Err (Ce_Writer err))
   end, sys).

Definition step_stage_notify (e : Env) (sys : Sys) (fence : Fence) : Cancellation * Sys :=
  let '(answer, sys) := ask e sys (MarkCancellationOwnerNotified fence (env_clock e)) in
  (match answer with
   | Ok true => C_Pending
   | Ok false => C_Done (Err Ce_NotNotified)
   | Err err => C_Done (Err (Ce_Writer err))
   end, sys).

(** [reconcile_one] *)
Definition step_reconcile (e : Env) (sys : Sys) : Cancellation * Sys :=
  let '(answer, sys) := ask e sys SelectUnresolvedCancellation in
  (match answer with
   | Ok (Some fence) =>
       match lf_outcome fence, lf_owner fence with
       | Some outcome, _ => C_Settle fence (reconciliation_from_terminal outcome)
       | None, None => C_Settle fence Cr_NoProcess
       | None, Some _ => C_Pending
       end
   | Ok None => C_Pending
   | Err err => C_Done (Err (Ce_Writer err))
   end, sys).

Definition step_settle (e : Env) (sys : Sys) (fence : Fence) (r : CancellationReconciliation)
    : Cancellation * Sys :=
  let acknowledgement :=
    encode_cancel_ack (cr_task_instance_id (lf_request fence)) (cr_workflow_instance_id (lf_request fence))
      (kill_outcome r) in
  let '(answer, sys) := ask e sys (SettleCancellation fence r acknowledgement (env_clock e)) in
  (C_Done (match answer with
           | Ok election => Ok (mkCancellationOutcome fence r election)
           | Err err => Err (Ce_Writer err)
           end), sys).

Definition cancellation_step (e : Env) (sys : Sys) (c : Cancellation) : option (Cancellation * Sys) :=
  match c with
  | C_Fence request => if locked sys then None else Some (step_fence e sys request)
  | C_Resolve fence => Some (step_resolve e sys fence)
  | C_Wait fence t => step_wait sys fence t
  | C_StageFence request => Some (step_stage_fence e sys request)
  | C_StageNotify fence => Some (step_stage_notify e sys fence)
  | C_Reconcile => Some (step_reconcile e sys)
  | C_Settle fence r => Some (step_settle e sys fence r)
  | C_Pending | C_Done _ => None
  end.

(** [cancel] and [stage] decode their request first. *)
Definition cancel (payload : string) : result Cancellation WireError :=
  let? request := decode_cancel_request payload in Ok (C_Fence request).
Definition stage (payload : string) : result Cancellation WireError :=
  let? request := decode_cancel_request payload in Ok (C_StageFence request).

(** ** The liveness sweep *)

Definition sweep_step (e : Env) (sys : Sys) (l : Sweep) : option (Sweep * Sys) :=
  match l with
  | L_Select now =>
      let '(answer, sys) := ask e sys (SelectDueLiveness now) in
      Some (match answer with
            | Ok None => L_Done (Ok None)
            | Ok (Some due) =>
                match accept_dispatch (due_payload due) with
                | Ok task => L_Elect task (due_claim due) now
                | Err _ => L_Done (Err Sp_BecameInvalid)
                end
            | Err err => L_Done (Err (Sp_Writer err))
            end, sys)
  | L_Elect task claim now =>
      let '(answer, sys) :=
        ask e sys (ElectTerminal claim Lo_LivenessExpired (encode_unhealthy_task_event task) now) in
      Some (L_Done (match answer with
                    | Ok election => Ok (Some (claim, election))
                    | Err err => Err (Sp_TerminalElection (Some err))
                    end), sys)
  | L_Done _ => None
  end.

(** ** The formation *)

Definition is_done (a : Attempt) : bool := match a with A_Done _ => true | _ => false end.

(** Permits taken from the semaphore of process slots. *)
Definition in_flight (sys : Sys) : nat :=
  size (filter (λ ta : nat * Attempt, is_done ta.2 = false) (attempts sys)).

(** [stop_all] *)
Definition stop_all (sys : Sys) : Sys :=
  let h := handler sys in
  cancel_tokens (set_handler sys (mkLocalTaskHandlerState (running h) (fenced_keys h) true))
    (list_to_set (map_to_list (running h)).*2).

(** Requests of the relay: dispatches arrive, events and acknowledgements leave. *)
Definition relay_request {R} (req : Request Uuid R) : bool :=
  match req with
  | StageDispatch _ | SelectPendingTaskEvent | MarkTaskEventForwarded _ _
  | SelectPendingCancellationAck | MarkCancellationAckForwarded _ _ => true
  | _ => false
  end.

Inductive sys_step : Sys → Sys → Prop :=
| Sy_StartAttempt sys t :
    attempts sys !! t = None → in_flight sys < process_slots → sys_step sys (set_attempt sys t A_Select)
| Sy_Attempt sys t a e a' sys' :
    attempts sys !! t = Some a → attempt_step e sys t a = Some (a', sys') →
    sys_step sys (set_attempt sys' t a')
| Sy_StartCancel sys t payload c :
    cancellations sys !! t = None → cancel payload = Ok c → sys_step sys (set_cancellation sys t c)
| Sy_StartStage sys t payload c :
    cancellations sys !! t = None → stage payload = Ok c → sys_step sys (set_cancellation sys t c)
| Sy_StartReconcile sys t :
    cancellations sys !! t = None → sys_step sys (set_cancellation sys t C_Reconcile)
| Sy_Cancellation sys t c e c' sys' :
    cancellations sys !! t = Some c → cancellation_step e sys c = Some (c', sys') →
    sys_step sys (set_cancellation sys' t c')
| Sy_StartSweep sys t now : sweeps sys !! t = None → sys_step sys (set_sweep sys t (L_Select now))
| Sy_Sweep sys t l e l' sys' :
    sweeps sys !! t = Some l → sweep_step e sys l = Some (l', sys') → sys_step sys (set_sweep sys' t l')
| Sy_Relay sys e R (req : Request Uuid R) : relay_request req = true → sys_step sys (ask e sys req).2
| Sy_StopAll sys : locked sys = false → sys_step sys (stop_all sys).

(** A formation over the tables an earlier one left behind. *)
Definition start (s : PickupStore) : Sys :=
  mkSys (new_writer s) (mkLocalTaskHandlerState ∅ ∅ false) false ∅ ∅ ∅ ∅ ∅ [] ∅.

Definition sys_run : Sys → Sys → Prop := rtc sys_step.
End executor.

Arguments Attempt Uuid {_ _}. Arguments Cancellation Uuid : clear implicits. Arguments Sys Uuid {_ _}.
