(* ===== verification/PickupExecutorFacts.v ===== *)
(** * What the executor and its cancellations promise

    The invariant of the formation's state, kept by every step of every thread: a
    claim belongs to one attempt, a process is launched once and is registered while
    it lives, and a cancellation that has been answered without an elected outcome
    leaves its pickup without a process for good. *)

From S2P Require Import Prelude Workflow Uuid TaskWire TaskPickup TaskPickupFacts PickupLifecycle LocalWriter PickupExecutor.

(** ** The writer runs transactions *)

Section writer.
Context `{UuidOps Uuid} `{!Countable Uuid} `{Wire TaskDispatch}.
Context (sha256_hex : string → string).

Lemma run_refl s : pickup_run s s.
Proof. apply rtc_refl. Qed.

Lemma run_once s s' : pickup_step s s' → pickup_run s s'.
Proof. apply rtc_once. Qed.

Lemma run_trans s1 s2 s3 : pickup_run s1 s2 → pickup_run s2 s3 → pickup_run s1 s3.
Proof. unfold pickup_run. intros H1 H2. exact (transitivity H1 H2). Qed.

Lemma transact_run {A} w (r : result (A * PickupStore) PickupError) :
  (∀ a s, r = Ok (a, s) → pickup_step (repository w) s) → pickup_run (repository w) (repository (transact w r).2).
Proof. intros Hr. destruct r as [[a s]|e]; simpl; [by eapply run_once, Hr|apply run_refl]. Qed.

Lemma transact_ok {A} w (r : result (A * PickupStore) PickupError) a w' :
  transact w r = (Ok a, w') → ∃ s, r = Ok (a, s) ∧ w' = set_repository w s.
Proof. destruct r as [[a' s]|e]; simpl; [|done]. intros [= <- <-]. eauto. Qed.

Lemma transact_normal {A} w (r : result (A * PickupStore) PickupError) :
  claim_acknowledgement (transact w r).2 = claim_acknowledgement w.
Proof. by destruct r as [[a s]|e]. Qed.

#[local] Arguments transact : simpl never.

Lemma handle_run {R} clock (req : Request Uuid R) w :
  pickup_run (repository w) (repository (handle sha256_hex clock req w).2).
Proof.
  destruct req; simpl; try apply run_refl.
  - destruct (transact _ _) as [a w'] eqn:Ht. simpl. rewrite <-(f_equal snd Ht : _ = w').
    apply transact_run. intros b s ?. by eapply PkStage.
  - apply transact_run. intros b s ?. by eapply PkReject.
  - unfold run_claim. destruct (claim_task_pickup _ _) as [[o s]|e] eqn:Hc; [|apply run_refl].
    destruct (claim_acknowledgement w); simpl; by eapply run_once, PkClaim.
  - destruct (fail_initial_arm w); [apply run_refl|]. apply transact_run. intros b s ?. by eapply PkArm.
  - apply transact_run. intros b s Heq. injection Heq as Heq. rewrite <-(f_equal snd Heq : _ = s). apply PkStarted.
  - apply transact_run. intros b s ?. by eapply PkRenew.
  - apply transact_run. intros b s ?. by eapply PkLivenessFailure.
  - destruct (transact _ _) as [a w'] eqn:Ht. simpl. rewrite <-(f_equal snd Ht : _ = w').
    apply transact_run. intros b s ?. by eapply PkElect.
  - apply transact_run. intros b s Heq. injection Heq as Heq. rewrite <-(f_equal snd Heq : _ = s). apply PkForwarded.
  - destruct (transact _ _) as [a w'] eqn:Ht. simpl. rewrite <-(f_equal snd Ht : _ = w').
    apply transact_run. intros b s ?. by eapply PkFence.
  - apply transact_run. intros b s Heq. injection Heq as Heq. rewrite <-(f_equal snd Heq : _ = s). apply PkNotified.
  - destruct (transact _ _) as [a w'] eqn:Ht. simpl. rewrite <-(f_equal snd Ht : _ = w').
    apply transact_run. intros b s ?. by eapply PkSettle.
  - apply transact_run. intros b s Heq. injection Heq as Heq. rewrite <-(f_equal snd Heq : _ = s). apply PkAckForwarded.
Qed.

Lemma handle_normal {R} clock (req : Request Uuid R) w :
  claim_acknowledgement w = Ack_Normal → claim_acknowledgement (handle sha256_hex clock req w).2 = Ack_Normal.
Proof.
  intros Hn. destruct req; simpl; rewrite ?transact_normal; try done.
  - destruct (transact _ _) as [a w'] eqn:Ht. simpl. by rewrite <-(f_equal snd Ht : _ = w'), transact_normal.
  - unfold run_claim. rewrite Hn. by destruct (claim_task_pickup _ _) as [[o s]|e].
  - destruct (fail_initial_arm w); [done|]. by rewrite transact_normal.
  - destruct (transact _ _) as [a w'] eqn:Ht. simpl. by rewrite <-(f_equal snd Ht : _ = w'), transact_normal.
  - destruct (transact _ _) as [a w'] eqn:Ht. simpl. by rewrite <-(f_equal snd Ht : _ = w'), transact_normal.
  - destruct (transact _ _) as [a w'] eqn:Ht. simpl. by rewrite <-(f_equal snd Ht : _ = w'), transact_normal.
Qed.

Lemma call_run {R} fate clock (req : Request Uuid R) w :
  pickup_run (repository w) (repository (call sha256_hex fate clock req w).2).
Proof. destruct fate; simpl; [apply handle_run|apply run_refl|apply handle_run]. Qed.

Lemma call_normal {R} fate clock (req : Request Uuid R) w :
  claim_acknowledgement w = Ack_Normal → claim_acknowledgement (call sha256_hex fate clock req w).2 = Ack_Normal.
Proof. destruct fate; simpl; auto using handle_normal. Qed.

(** An answer that is not the stopped writer's comes from a request that was served. *)
Lemma call_served {R} fate clock (req : Request Uuid R) w answer w' :
  call sha256_hex fate clock req w = (answer, w') → answer ≠ stopped req → handle sha256_hex clock req w = (answer, w').
Proof. destruct fate; simpl; intros Heq Hne; [done|by simplify_eq..]. Qed.

Lemma claim_served clock (input : ClaimLocalPickup) w claim w' :
  claim_acknowledgement w = Ack_Normal →
  handle sha256_hex clock (Claim input) w = (Ok (Some claim), w') →
  ∃ c s, claim_task_pickup (repository w)
           (mkClaimTaskPickupInput (cl_dispatch_key input) (cl_owner input) (cl_deadline input)
              (cl_assigned_event input) (cl_now input)) = Ok (ClaimCommitted c, s) ∧
    claim = local_claim c ∧ w' = set_repository w s.
Proof.
  intros Hn. simpl. unfold run_claim. rewrite Hn.
  destruct (claim_task_pickup _ _) as [[[c|] s]|e]; [|done..]. intros [= <- <-]. eauto.
Qed.

Lemma claim_unambiguous clock (input : ClaimLocalPickup) w w' :
  claim_acknowledgement w = Ack_Normal → handle sha256_hex clock (Claim input) w ≠ (Err Ambiguous, w').
Proof.
  intros Hn. simpl. unfold run_claim. rewrite Hn. by destruct (claim_task_pickup _ _) as [[[c|] s]|e].
Qed.
End writer.

(** ** Fences come from commits *)

(** Every fence was there, on the same task. *)
Definition fences_back (s s' : PickupStore) : Prop :=
  ∀ i f', fences s' !! i = Some f' →
    ∃ f, fences s !! i = Some f ∧ f_task f' = f_task f ∧ f_workflow f' = f_workflow f.

Lemma fences_back_same s s' : fences s' = fences s → fences_back s s'.
Proof. intros Heq i f'. rewrite Heq. eauto. Qed.

Lemma transact_back {A} w (r : result (A * PickupStore) PickupError) :
  (∀ a s, r = Ok (a, s) → fences_back (repository w) s) →
  fences_back (repository w) (repository (transact w r).2).
Proof. intros Hr. destruct r as [[a s]|err]; simpl; [by eapply Hr|by apply fences_back_same]. Qed.

Lemma stage_back s key payload task workflow now b s' :
  stage_task_dispatch s key payload task workflow now = Ok (b, s') → fences_back s s'.
Proof.
  intros [(_ & -> & _)|(_ & _ & i & _ & _ & ->)]%stage_cases; [by apply fences_back_same|].
  intros j f' (f & <- & Hf)%lookup_fmap_Some. exists f. split; [done|].
  pose proof (fe_task _ _ (link_evolves key i f)) as Heq. by injection Heq as -> ->.
Qed.

Lemma notified_back s fence now : fences_back s (mark_task_cancellation_owner_notified s fence now).2.
Proof.
  unfold mark_task_cancellation_owner_notified.
  destruct (update_row _ _ _ _) as [t|] eqn:Hu; [|by apply fences_back_same].
  apply update_row_Some in Hu as (f & Hf & _ & ->). intros j f'. simpl. rewrite lookup_insert_Some.
  intros [[<- <-]|[_ Hj]]; eauto.
Qed.

Lemma settle_back s fence r ack now o s' :
  settle_task_cancellation s fence r ack now = Ok (o, s') → fences_back s s'.
Proof.
  intros (f & Hf & Hf' & _)%settlement_cases j f'. rewrite Hf', lookup_insert_Some.
  intros [[<- <-]|[_ Hj]]; eauto.
Qed.

(** A commit adds at most the fence of its request. *)
Lemma commit_back s identity task workflow now fence s' :
  commit_task_cancellation_fence s identity task workflow now = Ok (fence, s') →
  ∀ i f', fences s' !! i = Some f' → fences s !! i = Some f' ∨
    (i = identity ∧ f_task f' = task ∧ f_workflow f' = workflow).
Proof.
  unfold commit_task_cancellation_fence.
  do 3 (destruct (validate_cancellation_identity _) as [[]|]; [|done]).
  destruct (fence_pickup _ _) as [po|] eqn:Hpo; [|done].
  destruct (_ || _); simpl.
  { destruct (fences s !! identity); [|done]. intros [= _ <-]. auto. }
  rewrite lookup_insert_eq. intros [= _ <-] i f'. simpl. rewrite lookup_insert_Some.
  intros [[<- <-]|[_ Hi]]; auto.
Qed.

(** ** Claimed keys *)

Definition key_claimed (s : PickupStore) (k : PickupOwnerKey) : Prop :=
  claim_held s (mkTaskPickupClaim (ok_dispatch_key k) (ok_generation k) (ok_owner k) 0).

Lemma key_claimed_inv s k :
  key_claimed s k ↔ ∃ d, dispatches s !! ok_dispatch_key k = Some d ∧ d_state d = D_Claimed ∧
    d_generation d = ok_generation k ∧ d_owner d = Some (ok_owner k).
Proof.
  unfold key_claimed, claim_held. simpl. split.
  - intros (d & Hd & Hh%holds_claim_inv). eauto.
  - intros (d & Hd & Hst & Hg & Ho). exists d. split; [done|]. unfold holds_claim. simpl.
    by rewrite Hst, Hg, Ho, !bool_decide_eq_true_2.
Qed.

Lemma claim_held_key s claim : claim_held s (repository_claim claim) ↔ key_claimed s (owner_key claim).
Proof. by destruct claim. Qed.

(** A dispatch is claimed under one key. *)
Lemma key_claimed_unique s k k' :
  key_claimed s k → key_claimed s k' → ok_dispatch_key k = ok_dispatch_key k' → k = k'.
Proof.
  rewrite !key_claimed_inv. intros (d & Hd & _ & Hg & Ho) (d' & Hd' & _ & Hg' & Ho') Hk.
  rewrite <-Hk, Hd in Hd'. injection Hd' as <-. destruct k, k'. simpl in *. congruence.
Qed.

Lemma key_claimed_run s s' k : pickup_ok s → pickup_run s s' → key_claimed s k → key_claimed s' k.
Proof.
  intros Hok Hrun. destruct (pickup_run_sound _ _ Hrun Hok) as [_ Hev]. rewrite !key_claimed_inv.
  intros (d & Hd & Hst & Hg & Ho). destruct (pv_dispatches _ _ Hev _ _ Hd) as (d' & Hd' & [_ _ _ Hm Hc]).
  rewrite Hst in Hm. apply moves_claimed in Hm. destruct (Hc Hst) as [? ?]. exists d'. split_and!; congruence.
Qed.

(** A committed claim is of a key nobody had claimed. *)
Lemma committed_key s input c s' :
  pickup_ok s → claim_task_pickup s input = Ok (ClaimCommitted c, s') →
  key_claimed s' (owner_key (local_claim c)) ∧ ¬ key_claimed s (owner_key (local_claim c)).
Proof.
  intros Hok Hc. destruct (claim_committed _ _ _ _ Hok Hc) as (d & Hd & Hst & _ & -> & ->).
  rewrite !key_claimed_inv. simpl. split.
  - eexists. rewrite lookup_insert_eq. by split.
  - intros (d' & Hd' & Hst' & _). congruence.
Qed.

Section facts.
Context `{UuidOps Uuid} `{!Countable Uuid} `{!UuidLaws Uuid}.
Context `{Wire TaskDispatch} `{Wire TaskEvent} `{Wire CancelTaskRequest} `{Wire CancelTaskAck}.
Context (sha256_hex : string → string) (dispatch_error_text : DispatchError → string).
Context (owner : string) (executor_id : Uuid) (liveness_timeout : Z) (kill_on_drop : bool)
  (process_slots : nat).

Local Abbreviation Fence := (LocalCancellationFence Uuid).
Implicit Types (sys : Sys Uuid) (a : Attempt Uuid) (e : Env) (fence : Fence).

Definition store sys : PickupStore := repository (writer sys).

(** ** What an attempt stands for *)

Definition att_claim a : option LocalPickupClaim :=
  match a with
  | A_Select | A_Claim _ | A_ProveClaim _ _ | A_Done _ => None
  | A_Arm _ _ c | A_ProveReady _ c | A_Launch _ c | A_ElectSetupFailure _ c | A_StageStarted _ c
  | A_Renew _ c _ | A_RegisterFailure _ c | A_Running _ c | A_Exited _ c _ | A_ExitedStop c
  | A_Elect _ c _ | A_Teardown _ c _ | A_Deregister c _ | A_CancelledStop c => Some c
  end.

(** Its process may still be launched. *)
Definition prelaunch a : option LocalPickupClaim :=
  match a with A_Arm _ _ c | A_ProveReady _ c | A_Launch _ c => Some c | _ => None end.

(** Its process may be alive. *)
Definition live a : option LocalPickupClaim :=
  match a with
  | A_StageStarted _ c | A_Renew _ c _ | A_RegisterFailure _ c | A_Running _ c | A_Teardown _ c _ => Some c
  | _ => None
  end.

(** It has nothing more to report. *)
Definition finished a : bool :=
  match a with A_Deregister _ _ | A_CancelledStop _ | A_Done _ => true | _ => false end.

(** It ended with an error, and its process may have been left behind. *)
Definition leaves_behind a : bool :=
  match a with A_Done (Err _) => negb kill_on_drop | _ => false end.

(** It waits for the proof of an ambiguous claim. *)
Definition doubtful a : bool := match a with A_ProveClaim _ _ => true | _ => false end.

Definition has_claim sys (t : nat) (c : LocalPickupClaim) : Prop :=
  ∃ a, attempts sys !! t = Some a ∧ att_claim a = Some c.

Definition may_launch sys (t : nat) (c : LocalPickupClaim) : Prop :=
  ∃ a, attempts sys !! t = Some a ∧ prelaunch a = Some c.

(** A fence, as its cancellation knows it, is on record. *)
Definition fence_known (s : PickupStore) fence : Prop :=
  ∃ f, fences s !! lf_identity fence = Some f ∧
    f_task f = uuid_to_string (cr_task_instance_id (lf_request fence)) ∧
    f_workflow f = uuid_to_string (cr_workflow_instance_id (lf_request fence)) ∧
    f_owner f = lf_owner fence ∧ (is_Some (lf_owner fence) → f_pickup f = lf_pickup fence).

(** The pickup has no process and gets none. *)
Definition dead sys (k : PickupOwnerKey) : Prop :=
  key_claimed (store sys) k ∧ (k ∉ alive sys) ∧
  (∀ t c, may_launch sys t c → owner_key c = k → k ∈ fenced_keys (handler sys)).

Definition settles sys fence : Prop :=
  fence_known (store sys) fence ∧
  (lf_outcome fence = None → ∀ k, pickup_owner_key fence = Some k → dead sys k).

Definition cancel_ok sys (c : Cancellation Uuid) : Prop :=
  match c with
  | C_Resolve fence => fence_known (store sys) fence
  | C_Wait fence t => fence_known (store sys) fence ∧
      (∃ k, pickup_owner_key fence = Some k ∧ k ∈ launches sys ∧
            ∀ t', running (handler sys) !! k = Some t' → t' = t)
  | C_Settle fence _ => settles sys fence
  | C_Done (Ok outcome) => settles sys (co_fence outcome)
  | _ => True
  end.

(** Fences are raised under the identity of their request. *)
Definition identified (s : PickupStore) : Prop :=
  ∀ i f, fences s !! i = Some f → ∃ r : CancelRequest Uuid,
    i = cancellation_acknowledgement_identity r ∧ f_task f = uuid_to_string (cr_task_instance_id r) ∧
    f_workflow f = uuid_to_string (cr_workflow_instance_id r).

Record sys_ok sys : Prop := {
  so_store : pickup_ok (store sys);
  so_fences : identified (store sys);
  so_normal : claim_acknowledgement (writer sys) = Ack_Normal;
  so_claim : ∀ t c, has_claim sys t c → key_claimed (store sys) (owner_key c);
  so_unique : ∀ t t' c c', has_claim sys t c → has_claim sys t' c' → owner_key c = owner_key c' → t = t';
  so_launched : ∀ k, k ∈ launches sys → key_claimed (store sys) k;
  so_nodup : NoDup (launches sys);
  so_prelaunch : ∀ t c, may_launch sys t c → owner_key c ∉ launches sys;
  so_running : ∀ k t, running (handler sys) !! k = Some t → k ∈ launches sys ∧
    is_Some (attempts sys !! t) ∧ ∀ t' c, has_claim sys t' c → owner_key c = k → t' = t;
  so_alive : ∀ k, k ∈ alive sys → ∃ t a, running (handler sys) !! k = Some t ∧
    attempts sys !! t = Some a ∧ completions sys !! t = None ∧
    (leaves_behind a = true ∨ ∃ c, live a = Some c ∧ owner_key c = k);
  so_completion : ∀ t r, completions sys !! t = Some r →
    ∃ a, attempts sys !! t = Some a ∧ finished a = true;
  so_cancel : ∀ t c, cancellations sys !! t = Some c → cancel_ok sys c;
  so_unambiguous : ∀ t a, attempts sys !! t = Some a → doubtful a = false
}.

Lemma start_ok s : pickup_ok s → identified s → sys_ok (start s).
Proof.
  intros Hok Hid. split; try done; simpl; try set_solver.
  - by intros t c (a & Ha & _).
  - by intros t t' c c' (a & Ha & _).
  - apply NoDup_nil_2.
Qed.

(** ** Requests *)

(** Commits of the coordinator use the identity of their request. *)
Definition identifies {R} (req : Request Uuid R) : Prop :=
  match req with
  | CommitCancellationFence i r _ => i = cancellation_acknowledgement_identity r
  | _ => True
  end.

Lemma identified_back s s' : fences_back s s' → identified s → identified s'.
Proof.
  intros Hb Hid i f' (f & Hf & Ht & Hw)%Hb. destruct (Hid _ _ Hf) as (r & -> & ? & ?).
  exists r. split_and!; congruence.
Qed.

#[local] Arguments transact : simpl never.

(** Transactions that leave the fences alone. *)
Ltac same_fences :=
  eapply identified_back; [|done]; apply transact_back; intros ? ?;
  repeat case_match; intros; simplify_eq; by apply fences_back_same.

Lemma claim_fences s input o s' : claim_task_pickup s input = Ok (o, s') → fences s' = fences s.
Proof. unfold claim_task_pickup, insert_event. repeat case_match; intros; by simplify_eq. Qed.

Lemma elect_fences s claim o event now r s' :
  elect_task_pickup_terminal s claim o event now = Ok (r, s') → fences s' = fences s.
Proof. unfold elect_task_pickup_terminal, insert_event. repeat case_match; intros; by simplify_eq. Qed.

Lemma handle_identified {R} clock (req : Request Uuid R) w :
  identifies req → identified (repository w) → identified (repository (handle sha256_hex clock req w).2).
Proof.
  intros Hreq Hid. destruct req; simpl in *; try done.
  - destruct (transact _ _) as [x w'] eqn:Ht. simpl. rewrite <-(f_equal snd Ht : _ = w').
    eapply identified_back; [|done]. apply transact_back. intros b s. apply stage_back.
  - unfold reject_task_dispatch. same_fences.
  - eapply identified_back; [|done]. unfold run_claim.
    destruct (claim_task_pickup _ _) as [[o s]|err] eqn:Hc; [|by apply fences_back_same].
    apply claim_fences in Hc. destruct (claim_acknowledgement w); by apply fences_back_same.
  - destruct (fail_initial_arm w); [done|]. unfold arm_task_pickup_liveness, update_claimed. same_fences.
  - unfold stage_task_started. same_fences.
  - unfold renew_task_pickup_liveness, update_claimed. same_fences.
  - unfold register_task_pickup_liveness_failure, update_claimed. same_fences.
  - destruct (transact _ _) as [x w'] eqn:Ht. simpl. rewrite <-(f_equal snd Ht : _ = w').
    eapply identified_back; [|done]. apply transact_back. intros b s Hs%elect_fences. by apply fences_back_same.
  - unfold mark_task_event_forwarded. same_fences.
  - destruct (transact _ _) as [x w'] eqn:Ht. simpl. rewrite <-(f_equal snd Ht : _ = w').
    destruct (commit_task_cancellation_fence _ _ _ _ _) as [[fence s]|err] eqn:Hc; simpl; [|done].
    intros i f' Hf'. destruct (commit_back _ _ _ _ _ _ _ Hc i f' Hf') as [Hf|(-> & -> & ->)]; eauto.
  - eapply identified_back; [|done]. apply transact_back. intros b s [= Hs].
    rewrite <-(f_equal snd Hs : _ = s). apply notified_back.
  - destruct (transact _ _) as [x w'] eqn:Ht. simpl. rewrite <-(f_equal snd Ht : _ = w').
    eapply identified_back; [|done]. apply transact_back. intros b s. apply settle_back.
  - unfold mark_task_cancellation_ack_forwarded. same_fences.
Qed.

(** A call of the writer, seen from the formation. *)
Record asked {R} (req : Request Uuid R) sys (answer : R) sys' : Prop := {
  ak_sys : ∃ w, sys' = set_writer sys w;
  ak_run : pickup_run (store sys) (store sys');
  ak_normal : claim_acknowledgement (writer sys) = Ack_Normal → claim_acknowledgement (writer sys') = Ack_Normal;
  ak_identified : identifies req → identified (store sys) → identified (store sys');
  ak_served : answer ≠ stopped req → ∃ clock, handle sha256_hex clock req (writer sys) = (answer, writer sys')
}.

Lemma ask_asked {R} e sys (req : Request Uuid R) answer sys' :
  ask sha256_hex e sys req = (answer, sys') → asked req sys answer sys'.
Proof.
  unfold ask. destruct (call _ _ _ _ _) as [x w] eqn:Hc. intros [= <- <-].
  pose proof (call_run sha256_hex (env_fate e) (env_clock e) req (writer sys)) as Hrun.
  pose proof (call_normal sha256_hex (env_fate e) (env_clock e) req (writer sys)) as Hn.
  rewrite Hc in Hrun, Hn. split; [by eexists|done|done| |].
  - intros Hi Hid. unfold store. simpl. rewrite <-(f_equal snd Hc : _ = w).
    destruct (env_fate e); simpl; [|done|]; by apply handle_identified.
  - intros Hne. exists (env_clock e). by eapply call_served.
Qed.

(** ** Stability *)

Lemma fence_known_run s s' fence :
  pickup_ok s → pickup_run s s' → fence_known s fence → fence_known s' fence.
Proof.
  intros Hok Hrun (f & Hf & Ht & Hw & Ho & Hp). destruct (pickup_run_sound _ _ Hrun Hok) as [_ Hev].
  destruct (pv_fences _ _ Hev _ _ Hf) as (f' & Hf' & [[= Ht' Hw'] Ho' Hp' _]). exists f'.
  split_and!; try congruence. intros Hs. pose proof (pk_fence _ Hok _ _ Hf) as Hfo. unfold fence_ok in Hfo.
  rewrite <-(Hp Hs). destruct (f_pickup f) as [p|] eqn:Hfp; [by apply Hp'|].
  destruct Hfo as [Hno _]. rewrite <-Ho, Hno in Hs. by destruct Hs.
Qed.

(** What a step keeps for the cancellations that are under way. *)
Record keeps sys sys' : Prop := {
  kp_run : pickup_run (store sys) (store sys');
  kp_launches : ∀ k, k ∈ launches sys → k ∈ launches sys';
  kp_running : ∀ k t, k ∈ launches sys → running (handler sys') !! k = Some t →
    running (handler sys) !! k = Some t;
  kp_dead : ∀ k, dead sys k → (k ∉ alive sys') ∧
    ∀ t c, may_launch sys' t c → owner_key c = k → k ∈ fenced_keys (handler sys')
}.

Lemma dead_keeps sys sys' k : pickup_ok (store sys) → keeps sys sys' → dead sys k → dead sys' k.
Proof.
  intros Hok Hkp Hd. destruct (kp_dead _ _ Hkp _ Hd) as [Ha Hm]. split_and!; [|done|done].
  eapply key_claimed_run; [done|apply Hkp|apply Hd].
Qed.

Lemma settles_keeps sys sys' fence :
  pickup_ok (store sys) → keeps sys sys' → settles sys fence → settles sys' fence.
Proof.
  intros Hok Hkp [Hf Hd]. split.
  - eapply fence_known_run; [done|apply Hkp|done].
  - intros Ho k Hk. eapply dead_keeps; eauto.
Qed.

Lemma cancel_keeps sys sys' c :
  pickup_ok (store sys) → keeps sys sys' → cancel_ok sys c → cancel_ok sys' c.
Proof.
  intros Hok Hkp. destruct c as [| | | | | | | |[outcome|]]; simpl; try done.
  - eapply fence_known_run; [done|apply Hkp].
  - intros [Hf (k & Hk & Hl & Ht)]. split; [eapply fence_known_run; [done|apply Hkp|done]|].
    exists k. split_and!; [done|by apply Hkp|]. intros t' Hr. apply Ht. by apply Hkp.
  - by apply settles_keeps.
  - by apply settles_keeps.
Qed.

(** ** Steps that touch no attempt *)

Record calm sys sys' : Prop := {
  cm_run : pickup_run (store sys) (store sys');
  cm_normal : claim_acknowledgement (writer sys) = Ack_Normal → claim_acknowledgement (writer sys') = Ack_Normal;
  cm_identified : identified (store sys) → identified (store sys');
  cm_attempts : attempts sys' = attempts sys;
  cm_launches : launches sys' = launches sys;
  cm_alive : alive sys' = alive sys;
  cm_completions : completions sys' = completions sys;
  cm_running : running (handler sys') = running (handler sys);
  cm_fenced : ∀ k, k ∈ fenced_keys (handler sys) → k ∈ fenced_keys (handler sys')
}.

Lemma calm_keeps sys sys' : calm sys sys' → keeps sys sys'.
Proof.
  intros [Hrun _ _ Ha Hl Hal _ Hr Hf]. split; [done|by rewrite Hl|by rewrite Hr|].
  intros k (_ & Hk & Hm). rewrite Hal. split; [done|]. unfold may_launch. rewrite Ha. eauto.
Qed.

Lemma calm_ok sys sys' :
  calm sys sys' → sys_ok sys →
  (∀ t c, cancellations sys' !! t = Some c → cancellations sys !! t = Some c ∨ cancel_ok sys' c) → sys_ok sys'.
Proof.
  intros Hcm Hok Hc. pose proof (calm_keeps _ _ Hcm) as Hkp.
  destruct Hcm as [Hrun Hn Hi Ha Hl Hal Hcp Hr Hf], Hok as [S1 S2 S3 S4 S5 S6 S7 S8 S9 S10 S11 S12 S13].
  assert (∀ k, key_claimed (store sys) k → key_claimed (store sys') k) as Hkc
    by (intros k; by apply key_claimed_run).
  split; unfold has_claim, may_launch in *; rewrite ?Ha, ?Hl, ?Hal, ?Hcp, ?Hr; eauto.
  - by destruct (pickup_run_sound _ _ Hrun S1).
  - intros t c Hct. destruct (Hc t c Hct) as [Hold|]; [|done]. eapply cancel_keeps; eauto.
Qed.

Lemma calm_refl sys : calm sys sys.
Proof. split; auto. apply run_refl. Qed.

Lemma calm_trans sys1 sys2 sys3 : calm sys1 sys2 → calm sys2 sys3 → calm sys1 sys3.
Proof.
  intros [A1 A2 A3 A4 A5 A6 A7 A8 A9] [B1 B2 B3 B4 B5 B6 B7 B8 B9].
  split; try congruence; auto. by eapply run_trans.
Qed.

Lemma ask_calm {R} e sys (req : Request Uuid R) answer sys' :
  ask sha256_hex e sys req = (answer, sys') → identifies req → calm sys sys'.
Proof.
  intros [[w ->] Hrun Hn Hi _]%ask_asked Hreq. split; try done. by apply Hi.
Qed.

(** ** Steps of one attempt *)

(** The attempt goes on with what it has: it gains no claim and launches nothing. *)
Record shift sys (t : nat) a a' sys' : Prop := {
  sh_at : attempts sys !! t = Some a;
  sh_active : is_done a = false;
  sh_run : pickup_run (store sys) (store sys');
  sh_normal : claim_acknowledgement (writer sys) = Ack_Normal → claim_acknowledgement (writer sys') = Ack_Normal;
  sh_identified : identified (store sys) → identified (store sys');
  sh_attempts : attempts sys' = attempts sys;
  sh_cancellations : cancellations sys' = cancellations sys;
  sh_launches : launches sys' = launches sys;
  sh_claim : ∀ c, att_claim a' = Some c → att_claim a = Some c;
  sh_prelaunch : ∀ c, prelaunch a' = Some c → prelaunch a = Some c;
  sh_finished : finished a = true → finished a' = true;
  sh_live : ∀ c, live a = Some c → owner_key c ∈ alive sys' → live a' = Some c ∨ leaves_behind a' = true;
  sh_alive : ∀ k, k ∈ alive sys' → k ∈ alive sys;
  sh_completions : ∀ t' r, completions sys' !! t' = Some r → completions sys !! t' = Some r ∨
    (t' = t ∧ finished a' = true ∧ ∀ c, live a = Some c → owner_key c ∉ alive sys');
  sh_running : running (handler sys') = running (handler sys) ∨
    (∃ c, att_claim a = Some c ∧ running (handler sys') = delete (owner_key c) (running (handler sys)) ∧
          owner_key c ∉ alive sys');
  sh_fenced : ∀ k, k ∈ fenced_keys (handler sys) → k ∈ fenced_keys (handler sys') ∨
    (prelaunch a' = None ∧ ∃ c, att_claim a = Some c ∧ owner_key c = k);
  sh_certain : doubtful a' = false
}.

Lemma prelaunch_claim a c : prelaunch a = Some c → att_claim a = Some c.
Proof. by destruct a. Qed.

Lemma live_claim a c : live a = Some c → att_claim a = Some c.
Proof. by destruct a. Qed.

Lemma leaves_behind_done a : leaves_behind a = true → is_done a = true.
Proof. by destruct a. Qed.

Lemma may_launch_claim sys t c : may_launch sys t c → has_claim sys t c.
Proof. intros (a & Ha & Hc%prelaunch_claim). by exists a. Qed.

(** An attempt whose process has ended owns no living one. *)
Lemma ended_not_alive sys t a c :
  sys_ok sys → attempts sys !! t = Some a → is_done a = false → att_claim a = Some c → live a = None →
  owner_key c ∉ alive sys.
Proof.
  intros Hok Ha Hd Hc Hl Hk. destruct (so_alive _ Hok _ Hk) as (t' & a' & Hr & Ha' & _ & Hlive).
  destruct (so_running _ Hok _ _ Hr) as (_ & _ & Hown).
  assert (t = t') as <- by (eapply Hown; [by exists a|done]). rewrite Ha in Ha'. injection Ha' as <-.
  destruct Hlive as [?%leaves_behind_done|(? & ? & _)]; congruence.
Qed.

Section shifts.
Context sys (t : nat) a a' sys' (Hok : sys_ok sys) (Hsh : shift sys t a a' sys').
Local Abbreviation sys'' := (set_attempt sys' t a').

Lemma shift_has_claim t0 c : has_claim sys'' t0 c → has_claim sys t0 c.
Proof.
  destruct Hsh. intros (a0 & Ha0 & Hc). simpl in Ha0. rewrite sh_attempts0 in Ha0.
  apply lookup_insert_Some in Ha0 as [[<- <-]|[_ Ha0]]; [exists a; auto|by exists a0].
Qed.

Lemma shift_may_launch t0 c : may_launch sys'' t0 c → may_launch sys t0 c.
Proof.
  destruct Hsh. intros (a0 & Ha0 & Hc). simpl in Ha0. rewrite sh_attempts0 in Ha0.
  apply lookup_insert_Some in Ha0 as [[<- <-]|[_ Ha0]]; [exists a; auto|by exists a0].
Qed.

Lemma shift_running_sub k t0 : running (handler sys') !! k = Some t0 → running (handler sys) !! k = Some t0.
Proof.
  destruct (sh_running _ _ _ _ _ Hsh) as [->|(c & _ & -> & _)]; [done|]. by intros [_ ?]%lookup_delete_Some.
Qed.

Lemma shift_keeps : keeps sys sys''.
Proof.
  split; simpl.
  - apply Hsh.
  - by rewrite (sh_launches _ _ _ _ _ Hsh).
  - intros k t0 _. apply shift_running_sub.
  - intros k (_ & Hk & Hm). split; [intros Hk'; by apply Hk, (sh_alive _ _ _ _ _ Hsh)|].
    intros t0 c Hmay Hkey. pose proof (Hm t0 c (shift_may_launch _ _ Hmay) Hkey) as Hf.
    destruct (sh_fenced _ _ _ _ _ Hsh k Hf) as [|(Hno & c' & Hc' & Hk')]; [done|].
    assert (t0 = t) as ->.
    { eapply (so_unique _ Hok); [by apply shift_has_claim, may_launch_claim|exists a; split; [apply Hsh|done]|congruence]. }
    destruct Hmay as (a0 & Ha0 & Hp). simpl in Ha0. rewrite lookup_insert_eq in Ha0. congruence.
Qed.

Lemma shift_alive k : k ∈ alive sys' → ∃ t0 a0, running (handler sys') !! k = Some t0 ∧
  <[t := a']> (attempts sys') !! t0 = Some a0 ∧ completions sys' !! t0 = None ∧
  (leaves_behind a0 = true ∨ ∃ c, live a0 = Some c ∧ owner_key c = k).
Proof.
  intros Hk. destruct (so_alive _ Hok k) as (t0 & a0 & Hr & Ha0 & Hcp & Hl); [by apply Hsh|].
  assert (t0 = t → ∃ c, live a = Some c ∧ owner_key c = k) as Hself.
  { intros ->. rewrite (sh_at _ _ _ _ _ Hsh) in Ha0. injection Ha0 as <-.
    destruct Hl as [Hd|?]; [|done]. apply leaves_behind_done in Hd. by rewrite (sh_active _ _ _ _ _ Hsh) in Hd. }
  exists t0, (if decide (t0 = t) then a' else a0). rewrite (sh_attempts _ _ _ _ _ Hsh). split_and!.
  - destruct (sh_running _ _ _ _ _ Hsh) as [->|(c & _ & -> & Hc)]; [done|].
    rewrite lookup_delete_ne; [done|]. intros Heq. by rewrite Heq in Hc.
  - case_decide as Ht; [subst; by rewrite lookup_insert_eq|by rewrite lookup_insert_ne].
  - destruct (completions sys' !! t0) as [r|] eqn:Hr0; [|done].
    destruct (sh_completions _ _ _ _ _ Hsh _ _ Hr0) as [?|(-> & _ & Hno)]; [congruence|].
    destruct Hself as (c & Hc & <-); [done|]. by destruct (Hno c).
  - case_decide as Ht; [|done]. destruct (Hself Ht) as (c & Hc & <-).
    destruct (sh_live _ _ _ _ _ Hsh c Hc Hk); eauto.
Qed.

Lemma shift_ok : sys_ok sys''.
Proof.
  pose proof shift_keeps as Hkp. destruct Hok as [S1 S2 S3 S4 S5 S6 S7 S8 S9 S10 S11 S12 S13].
  assert (∀ k, key_claimed (store sys) k → key_claimed (store sys') k) as Hkc
    by (intros k; apply key_claimed_run; [done|apply Hsh]).
  split; simpl; rewrite ?(sh_launches _ _ _ _ _ Hsh).
  - by destruct (pickup_run_sound _ _ (sh_run _ _ _ _ _ Hsh) S1).
  - by apply Hsh.
  - by apply Hsh.
  - intros t0 c Hc%shift_has_claim. by apply Hkc, (S4 t0).
  - intros t1 t2 c1 c2 Hc1%shift_has_claim Hc2%shift_has_claim. by apply S5.
  - intros k Hk. by apply Hkc, S6.
  - done.
  - intros t0 c Hc%shift_may_launch. by apply (S8 t0).
  - intros k t0 Hr%shift_running_sub. destruct (S9 _ _ Hr) as (Hl & Hs & Hown). split_and!; [done| |].
    + rewrite (sh_attempts _ _ _ _ _ Hsh), lookup_insert_is_Some'. by right.
    + intros t1 c Hc%shift_has_claim. by apply Hown.
  - apply shift_alive.
  - intros t0 r Hr. rewrite (sh_attempts _ _ _ _ _ Hsh).
    destruct (sh_completions _ _ _ _ _ Hsh _ _ Hr) as [(a0 & Ha0 & Hf)%S11|(-> & Hf & _)].
    + destruct (decide (t0 = t)) as [->|Hne].
      * rewrite lookup_insert_eq. exists a'. split; [done|]. apply Hsh.
        rewrite (sh_at _ _ _ _ _ Hsh) in Ha0. congruence.
      * rewrite lookup_insert_ne by done. eauto.
    + rewrite lookup_insert_eq. eauto.
  - rewrite (sh_cancellations _ _ _ _ _ Hsh). intros t0 c Hc%S12. by eapply cancel_keeps.
  - rewrite (sh_attempts _ _ _ _ _ Hsh). intros t0 a0. rewrite lookup_insert_Some.
    intros [[<- <-]|[_ Ha0]]; [apply Hsh|by eapply S13].
Qed.
End shifts.

(** What an attempt may become by a step that changes nothing around it. *)
Definition goes_on a a' : Prop :=
  (∀ c, att_claim a' = Some c → att_claim a = Some c) ∧
  (∀ c, prelaunch a' = Some c → prelaunch a = Some c) ∧
  (finished a = true → finished a' = true) ∧
  (∀ c, live a = Some c → live a' = Some c ∨ leaves_behind a' = true) ∧
  doubtful a' = false.

Lemma calm_shift sys t a a' sys' :
  attempts sys !! t = Some a → is_done a = false → calm sys sys' → cancellations sys' = cancellations sys →
  goes_on a a' → shift sys t a a' sys'.
Proof.
  intros Ha Hd [C1 C2 C3 C4 C5 C6 C7 C8 C9] Hc (G1 & G2 & G3 & G4 & G5). split; auto.
  - by rewrite C6.
  - rewrite C7. auto.
Qed.

Lemma ask_cancellations {R} e sys (req : Request Uuid R) answer sys' :
  ask sha256_hex e sys req = (answer, sys') → cancellations sys' = cancellations sys.
Proof. intros [[w ->] _ _ _ _]%ask_asked. done. Qed.

Lemma set_locked_calm sys b : calm sys (set_locked sys b).
Proof. by split. Qed.

(** A step that only asks the writer. *)
Lemma ask_shift {R} e sys t a a' (req : Request Uuid R) answer sys' b :
  attempts sys !! t = Some a → is_done a = false → ask sha256_hex e sys req = (answer, sys') →
  identifies req → goes_on a a' →
  shift sys t a a' sys' ∧ shift sys t a a' (set_locked sys' b).
Proof.
  intros Ha Hd Hask Hi Hg. pose proof (ask_calm _ _ _ _ _ Hask Hi) as Hcm.
  pose proof (ask_cancellations _ _ _ _ _ Hask) as Hc.
  split; apply calm_shift; try done. eapply calm_trans; [done|apply set_locked_calm].
Qed.

Lemma elect_outcome_calm e sys task claim outcome answer sys' :
  elect_outcome sha256_hex executor_id e sys task claim outcome = (answer, sys') →
  calm sys sys' ∧ cancellations sys' = cancellations sys.
Proof.
  unfold elect_outcome. intros Heq.
  assert (sys' = sys ∨ ∃ event ans, ask sha256_hex e sys (ElectTerminal claim outcome event (env_clock e)) = (ans, sys'))
    as [->|(event & ans & Hask)].
  { destruct outcome; try (left; congruence); right;
      match type of Heq with context [ask _ _ _ (ElectTerminal _ _ ?ev _)] => exists ev end;
      destruct (ask _ _ _ _) as [ans s1]; exists ans; congruence. }
  - split; [apply calm_refl|done].
  - split; [by eapply ask_calm|by eapply ask_cancellations].
Qed.

(** *** Gaining a claim *)

Section gains.
Context sys (t : nat) a a' (claim : LocalPickupClaim) sys' (Hok : sys_ok sys).
Context (Hat : attempts sys !! t = Some a) (Hnone : att_claim a = None) (Hfin : finished a = false).
Context (Hcm : calm sys sys') (Hcanc : cancellations sys' = cancellations sys).
Context (Ha' : att_claim a' = Some claim) (Hpre : ∀ c, prelaunch a' = Some c → c = claim).
Context (Hlive : live a' = None) (Hcert : doubtful a' = false).
Context (Hnew : ¬ key_claimed (store sys) (owner_key claim)) (Hgot : key_claimed (store sys') (owner_key claim)).
Local Abbreviation sys'' := (set_attempt sys' t a').

Lemma gain_has_claim t0 c : has_claim sys'' t0 c → (t0 = t ∧ c = claim) ∨ has_claim sys t0 c.
Proof.
  intros (a0 & Ha0 & Hc). simpl in Ha0. rewrite (cm_attempts _ _ Hcm) in Ha0.
  apply lookup_insert_Some in Ha0 as [[<- <-]|[_ Ha0]]; [left; split; congruence|right; by exists a0].
Qed.

Lemma gain_may_launch t0 c : may_launch sys'' t0 c → (t0 = t ∧ c = claim) ∨ may_launch sys t0 c.
Proof.
  intros (a0 & Ha0 & Hc). simpl in Ha0. rewrite (cm_attempts _ _ Hcm) in Ha0.
  apply lookup_insert_Some in Ha0 as [[<- <-]|[_ Ha0]]; [left; auto|right; by exists a0].
Qed.

Lemma gain_keeps : keeps sys sys''.
Proof.
  destruct Hcm as [C1 C2 C3 C4 C5 C6 C7 C8 C9]. split; simpl; [done|by rewrite C5|by rewrite C8|].
  intros k (Hkc & Hk & Hm). rewrite C6. split; [done|].
  intros t0 c [[-> ->]|Hmay]%gain_may_launch Hkey; [by subst|]. by eapply C9, Hm.
Qed.

Lemma gain_ok : sys_ok sys''.
Proof.
  pose proof gain_keeps as Hkp. destruct Hcm as [C1 C2 C3 C4 C5 C6 C7 C8 C9].
  destruct Hok as [S1 S2 S3 S4 S5 S6 S7 S8 S9 S10 S11 S12 S13].
  assert (∀ k, key_claimed (store sys) k → key_claimed (store sys') k) as Hkc
    by (intros k; by apply key_claimed_run).
  assert (∀ t0 c, has_claim sys t0 c → owner_key c ≠ owner_key claim) as Hother.
  { intros t0 c Hc%S4 Heq. by rewrite Heq in Hc. }
  split; simpl; rewrite ?C4, ?C5, ?C6, ?C7, ?C8; auto.
  - by destruct (pickup_run_sound _ _ C1 S1).
  - intros t0 c [[-> ->]|Hc]%gain_has_claim; [done|]. by apply Hkc, (S4 t0).
  - intros t1 t2 c1 c2 [[-> ->]|Hc1]%gain_has_claim [[-> ->]|Hc2]%gain_has_claim Heq; [done|..].
    + by destruct (Hother _ _ Hc2).
    + by destruct (Hother _ _ Hc1).
    + by eapply S5.
  - intros t0 c [[-> ->]|Hc]%gain_may_launch; [|by apply (S8 t0)]. intros Hl. by apply Hnew, S6.
  - intros k t0 Hr. destruct (S9 _ _ Hr) as (Hl & Hs & Hown). split_and!; [done| |].
    + rewrite lookup_insert_is_Some'. by right.
    + intros t1 c [[-> ->]|Hc]%gain_has_claim; [|by apply Hown]. intros <-. by destruct Hnew; apply S6.
  - intros k Hk. destruct (S10 k Hk) as (t0 & a0 & Hr & Ha0 & Hcp & Hl).
    destruct (decide (t0 = t)) as [->|Hne].
    + rewrite Hat in Ha0. injection Ha0 as <-. destruct Hl as [Hl|(c & Hc%live_claim & _)]; [|congruence].
      destruct a; done.
    + exists t0, a0. rewrite lookup_insert_ne by done. done.
  - intros t0 r Hr. destruct (S11 t0 r Hr) as (a0 & Ha0 & Hf). destruct (decide (t0 = t)) as [->|Hne].
    + congruence.
    + exists a0. by rewrite lookup_insert_ne.
  - rewrite Hcanc. intros t0 c Hc%S12. by eapply cancel_keeps.
  - intros t0 a0. rewrite lookup_insert_Some. intros [[<- <-]|[_ Ha0]]; [done|by eapply S13].
Qed.
End gains.

(** *** Launching *)

Section launch.
Context sys (t : nat) (task : DispatchedTask Uuid) (claim : LocalPickupClaim) (Hok : sys_ok sys).
Context (Hat : attempts sys !! t = Some (A_Launch task claim)).
Context (Hfree : owner_key claim ∉ fenced_keys (handler sys)).
Local Abbreviation k := (owner_key claim).
Local Abbreviation sys' := (set_attempt (register (launched sys k) k t) t (A_StageStarted task claim)).

Lemma launch_has_claim t0 c : has_claim sys' t0 c → has_claim sys t0 c.
Proof.
  intros (a0 & Ha0 & Hc). simpl in Ha0. apply lookup_insert_Some in Ha0 as [[<- <-]|[_ Ha0]]; [|by exists a0].
  by exists (A_Launch task claim).
Qed.

Lemma launch_may_launch t0 c : may_launch sys' t0 c → t0 ≠ t ∧ may_launch sys t0 c.
Proof.
  intros (a0 & Ha0 & Hc). simpl in Ha0. apply lookup_insert_Some in Ha0 as [[<- <-]|[Hne Ha0]]; [done|].
  split; [done|by exists a0].
Qed.

Lemma launch_self : may_launch sys t claim.
Proof. by exists (A_Launch task claim). Qed.

Lemma launch_fresh : k ∉ launches sys.
Proof. apply (so_prelaunch _ Hok t), launch_self. Qed.

Lemma launch_keeps : keeps sys sys'.
Proof.
  split; simpl.
  - apply run_refl.
  - intros k0. rewrite elem_of_app. auto.
  - intros k0 t0 Hk0. rewrite lookup_insert_ne; [done|]. intros <-. by apply launch_fresh.
  - intros k0 (_ & Hk0 & Hm). split; [|intros t0 c [_ ?]%launch_may_launch; eauto].
    rewrite elem_of_union, elem_of_singleton. intros [?| ->]; [done|].
    by apply Hfree, (Hm t claim), eq_refl; apply launch_self.
Qed.

Lemma launch_ok : sys_ok sys'.
Proof.
  pose proof launch_keeps as Hkp. pose proof launch_fresh as Hfresh.
  assert (has_claim sys t claim) as Hself by by exists (A_Launch task claim).
  destruct Hok as [S1 S2 S3 S4 S5 S6 S7 S8 S9 S10 S11 S12 S13]. split; simpl; try done.
  - intros t0 c Hc%launch_has_claim. by apply (S4 t0).
  - intros t1 t2 c1 c2 Hc1%launch_has_claim Hc2%launch_has_claim. by apply S5.
  - intros k0. rewrite elem_of_app, list_elem_of_singleton. intros [?| ->]; [by apply S6|by apply (S4 t)].
  - apply NoDup_app. split_and!; [done| |apply NoDup_singleton]. intros x Hx ->%list_elem_of_singleton. done.
  - intros t0 c [Hne Hm]%launch_may_launch. rewrite elem_of_app, list_elem_of_singleton.
    intros [?|Heq]; [by apply (S8 t0 c)|]. apply Hne. by eapply S5; [apply may_launch_claim|..].
  - intros k0 t0. rewrite lookup_insert_Some, elem_of_app, list_elem_of_singleton, lookup_insert_is_Some'.
    intros [[<- <-]|[Hne Hr]].
    + split_and!; [by right|by left|]. intros t1 c Hc%launch_has_claim Hk. by eapply S5.
    + destruct (S9 _ _ Hr) as (? & ? & Hown). split_and!; [by left|by right|].
      intros t1 c Hc%launch_has_claim. by apply Hown.
  - intros k0. rewrite elem_of_union, elem_of_singleton. intros [Hk0| ->].
    + destruct (S10 _ Hk0) as (t0 & a0 & Hr & Ha0 & Hcp & Hl). exists t0, a0.
      destruct (S9 _ _ Hr) as (Hin & _). rewrite !lookup_insert_ne; [done| |].
      * intros <-. rewrite Hat in Ha0. injection Ha0 as <-. by destruct Hl as [?|(? & ? & _)].
      * intros <-. done.
    + exists t, (A_StageStarted task claim). rewrite !lookup_insert_eq. split_and!; [done|done| |by right; eauto].
      destruct (completions sys !! t) as [r|] eqn:Hr; [|done]. destruct (S11 _ _ Hr) as (a0 & Ha0 & Hf).
      rewrite Hat in Ha0. by injection Ha0 as <-.
  - intros t0 r (a0 & Ha0 & Hf)%S11. exists a0. rewrite lookup_insert_ne; [done|]. intros <-.
    rewrite Hat in Ha0. by injection Ha0 as <-.
  - intros t0 c Hc%S12. by eapply cancel_keeps.
  - intros t0 a0. rewrite lookup_insert_Some. intros [[<- <-]|[_ Ha0]]; [done|by eapply S13].
Qed.
End launch.

(** *** Every step of an attempt *)

Local Abbreviation attempt_step := (attempt_step sha256_hex dispatch_error_text owner executor_id liveness_timeout kill_on_drop).

Ltac goes_on_tac := unfold goes_on, reach; repeat case_match; split_and!; naive_solver.

(** The attempt asked the writer, or asked nothing, and goes on. *)
Ltac asks_writer Hok :=
  match goal with
  | |- context [ask ?h ?e ?sys ?req] =>
      let Hask := fresh "Hask" in
      destruct (ask h e sys req) as [? ?] eqn:Hask; intros; simplify_eq;
      eapply shift_ok; [exact Hok|eapply (ask_shift _ _ _ _ _ _ _ _ false); [done|done|exact Hask|done|goes_on_tac]]
  end.
Ltac asks_nothing Hok :=
  intros; simplify_eq; eapply shift_ok; [exact Hok|apply calm_shift; [done|done|apply calm_refl|done|goes_on_tac]].

Lemma select_ok e sys t a' sys' :
  sys_ok sys → attempts sys !! t = Some A_Select → step_select sha256_hex e sys = (a', sys') →
  sys_ok (set_attempt sys' t a').
Proof.
  intros Hok Ha. unfold step_select. destruct (env_checkpoint e BeforeSelection); [asks_writer Hok|asks_nothing Hok].
Qed.

(** With the switches off no claim is ambiguous. *)
Lemma never_ambiguous e sys input answer sys' :
  sys_ok sys → ask sha256_hex e sys (Claim input) = (answer, sys') → answer ≠ Err Ambiguous.
Proof.
  intros Hok [_ _ _ _ Hs]%ask_asked ->. destruct Hs as [clock Hh]; [done|].
  by eapply claim_unambiguous; [apply (so_normal _ Hok)|].
Qed.
(** The claim an attempt gets was free before. *)
Lemma claim_answer_ok e sys t pending task input answer sys1 a' :
  sys_ok sys → attempts sys !! t = Some (A_Claim pending) →
  ask sha256_hex e sys (Claim input) = (answer, sys1) →
  a' = match answer with
       | Ok (Some claim) => reach e AfterClaimCommit (reach e AfterAssignedStaging (A_Arm pending task claim))
       | Ok None => A_Done (Ok (Po_ClaimUnavailable (pd_dispatch_key pending)))
       | Err Ambiguous => A_ProveClaim pending task
       | Err (ClaimFailed err) => A_Done (Err (Sp_Writer err))
       end → sys_ok (set_attempt sys1 t a').
Proof.
  intros Hok Ha Hask ->.
  assert (∀ a', goes_on (A_Claim pending) a' → sys_ok (set_attempt sys1 t a')) as Hshift.
  { intros a' Hg. eapply shift_ok; [done|]. by eapply (ask_shift _ _ _ _ _ _ _ _ false). }
  pose proof (never_ambiguous _ _ _ _ _ Hok Hask) as Hcertain.
  destruct answer as [[claim|]|[|err]]; try done; try (apply Hshift; goes_on_tac).
  unfold reach. destruct (env_checkpoint e AfterClaimCommit); [|apply Hshift; goes_on_tac].
  destruct (env_checkpoint e AfterAssignedStaging); [|apply Hshift; goes_on_tac].
  pose proof (ask_asked _ _ _ _ _ Hask) as [[w ->] _ _ _ Hserved].
  destruct Hserved as [clock Hh]; [done|].
  destruct (claim_served _ _ _ _ _ _ (so_normal _ Hok) Hh) as (c & s & Hc & -> & Hw). simpl in Hw. subst w.
  destruct (committed_key _ _ _ _ (so_store _ Hok) Hc) as [Hgot Hnew].
  eapply (gain_ok sys t (A_Claim pending)); try done; [by eapply ask_calm|naive_solver].
Qed.

Lemma claim_ok e sys t pending a' sys' :
  sys_ok sys → attempts sys !! t = Some (A_Claim pending) →
  step_claim sha256_hex dispatch_error_text owner executor_id liveness_timeout e sys pending = (a', sys') →
  sys_ok (set_attempt sys' t a').
Proof.
  intros Hok Ha. unfold step_claim. destruct (accept_dispatch _) as [task|reason]; [|asks_writer Hok].
  destruct (env_checkpoint e AfterValidation); [|asks_nothing Hok].
  destruct (ask _ _ _ _) as [answer s1] eqn:Hask. intros [= <- <-]. by eapply claim_answer_ok.
Qed.


Lemma launch_step_ok e sys t task claim a' sys' :
  sys_ok sys → attempts sys !! t = Some (A_Launch task claim) →
  step_launch e sys t task claim = (a', sys') → sys_ok (set_attempt sys' t a').
Proof.
  intros Hok Ha. unfold step_launch. destruct (stopping (handler sys)); [asks_nothing Hok|].
  case_bool_decide as Hf.
  - intros [= <- <-]. eapply shift_ok; [done|]. split; try done; simpl; auto using run_refl.
    intros k Hk. destruct (decide (k = owner_key claim)) as [->|Hne]; [right; eauto|left; set_solver].
  - destruct (env_spawned e); intros [= <- <-]; [by apply launch_ok|].
    eapply shift_ok; [done|]. apply calm_shift; [done|done|apply set_locked_calm|done|goes_on_tac].
Qed.

(** Returning with an error drops the process. *)
Lemma drop_shift sys t a claim err sys' :
  attempts sys !! t = Some a → live a = Some claim → calm sys sys' → cancellations sys' = cancellations sys →
  shift sys t a (A_Done (Err err)) (dropped kill_on_drop sys' (owner_key claim)).
Proof.
  intros Ha Hl [C1 C2 C3 C4 C5 C6 C7 C8 C9] Hc. unfold dropped, leaves_behind.
  assert (is_done a = false) by by destruct a.
  destruct kill_on_drop eqn:Hkill; split; simpl; try done; auto; rewrite ?C6, ?C7; auto.
  - intros c Hlc. rewrite Hl in Hlc. injection Hlc as <-. set_solver.
  - set_solver.
  - intros c _ _. right. simpl. by rewrite Hkill.
Qed.

Lemma running_ok e sys t task claim a' sys' :
  sys_ok sys → attempts sys !! t = Some (A_Running task claim) →
  step_running kill_on_drop e sys t task claim = Some (a', sys') → sys_ok (set_attempt sys' t a').
Proof.
  intros Hok Ha. unfold step_running. destruct (env_wake e) as [success| | |].
  - intros [= <- <-]. eapply shift_ok; [done|].
    split; try done; simpl; try (by repeat case_match); auto using run_refl; [|set_solver].
    intros c [= <-]. set_solver.
  - intros [= <- <-]. eapply shift_ok; [done|]. by apply drop_shift; [| |apply calm_refl|].
  - destruct (_ && _); [asks_nothing Hok|done].
  - asks_nothing Hok.
Qed.

Lemma exited_ok sys t task claim success a' sys' :
  sys_ok sys → attempts sys !! t = Some (A_Exited task claim success) →
  step_exited sys t task claim success = (a', sys') → sys_ok (set_attempt sys' t a').
Proof.
  intros Hok Ha. pose proof (ended_not_alive _ _ _ claim Hok Ha eq_refl eq_refl eq_refl) as Hdead.
  unfold step_exited. case_bool_decide; [destruct (stopping _)|]; intros [= <- <-];
    (eapply shift_ok; [done|]; split; try done; simpl; eauto using run_refl).
  intros t0 r. rewrite lookup_insert_Some.
    intros [[<- _]|[_ ?]]; [right; by split_and!|by left].
Qed.

Lemma exited_stop_ok e sys t claim a' sys' :
  sys_ok sys → attempts sys !! t = Some (A_ExitedStop claim) →
  step_exited_stop sha256_hex e sys t claim = (a', sys') → sys_ok (set_attempt sys' t a').
Proof.
  intros Hok Ha. unfold step_exited_stop. destruct (ask _ _ _ _) as [answer s1] eqn:Hask.
  intros [= <- <-]. pose proof (ask_cancellations _ _ _ _ _ Hask) as Hc.
  destruct (ask_calm _ _ _ _ _ Hask I) as [C1 C2 C3 C4 C5 C6 C7 C8 C9].
  eapply shift_ok; [done|]. split; try done; simpl; auto.
  - by rewrite C6.
  - rewrite C7. intros t0 r. rewrite lookup_insert_Some.
    intros [[<- _]|[_ ?]]; [right; by split_and!|by left].
Qed.

Lemma teardown_ok sys t task claim after a' sys' :
  sys_ok sys → attempts sys !! t = Some (A_Teardown task claim after) →
  step_teardown sys t claim after = (a', sys') → sys_ok (set_attempt sys' t a').
Proof.
  intros Hok Ha. intros [= <- <-]. eapply shift_ok; [done|].
  split; try done; simpl; auto using run_refl; [|set_solver|].
  - intros c [= <-]. set_solver.
  - intros t0 r. rewrite lookup_insert_Some. intros [[<- _]|[_ ?]]; [right|auto].
    split_and!; [done|done|]. intros c [= <-]. set_solver.
Qed.

Lemma deregister_ok sys t claim after a' sys' :
  sys_ok sys → attempts sys !! t = Some (A_Deregister claim after) →
  step_deregister sys claim after = (a', sys') → sys_ok (set_attempt sys' t a').
Proof.
  intros Hok Ha. pose proof (ended_not_alive _ _ _ claim Hok Ha eq_refl eq_refl eq_refl) as Hdead.
  intros [= <- <-]. eapply shift_ok; [done|].
  split; try done; simpl; eauto using run_refl; by repeat case_match.
Qed.

Lemma attempt_step_ok e sys t a a' sys' :
  sys_ok sys → attempts sys !! t = Some a → attempt_step e sys t a = Some (a', sys') →
  sys_ok (set_attempt sys' t a').
Proof.
  intros Hok Ha. pose proof (so_unambiguous _ Hok _ _ Ha) as Hcert.
  destruct a; simpl in Hcert |- *; unfold with_lock; try done.
  - intros [= ?]. by eapply select_ok.
  - intros [= ?]. by eapply claim_ok.
  - unfold step_arm. asks_writer Hok.
  - unfold step_prove_ready. asks_writer Hok.
  - destruct (locked sys); [done|]. intros [= ?]. by eapply launch_step_ok.
  - unfold step_elect_setup_failure. destruct (elect_outcome _ _ _ _ _ _ _) as [answer s1] eqn:He.
    apply elect_outcome_calm in He as [Hcm Hc]. intros [= <- <-]. eapply shift_ok; [done|].
    apply calm_shift; [done|done|by eapply calm_trans; [|apply set_locked_calm]|done|goes_on_tac].
  - unfold step_stage_started. destruct (env_checkpoint e AfterSpawn); [|asks_nothing Hok].
    destruct (ask _ _ _ _) as [[[]|err] s1] eqn:Hask; intros [= <- <-]; (eapply shift_ok; [done|]).
    + apply (ask_shift _ _ _ _ _ _ _ _ false Ha eq_refl Hask I). goes_on_tac.
    + apply (ask_shift _ _ _ _ _ _ _ _ false Ha eq_refl Hask I). goes_on_tac.
    + apply drop_shift; [done|done|by eapply ask_calm|by eapply ask_cancellations].
  - unfold step_renew. asks_writer Hok.
  - unfold step_register_failure. asks_writer Hok.
  - by eapply running_ok.
  - destruct (locked sys); [done|]. intros [= ?]. by eapply exited_ok.
  - intros [= ?]. by eapply exited_stop_ok.
  - unfold step_elect. destruct (elect_outcome _ _ _ _ _ _ _) as [answer s1] eqn:He.
    apply elect_outcome_calm in He as [Hcm Hc]. intros [= <- <-]. eapply shift_ok; [done|].
    apply calm_shift; [done|done|by eapply calm_trans; [|apply set_locked_calm]|done|goes_on_tac].
  - intros [= <- <-]. by eapply teardown_ok.
  - destruct (locked sys); [done|]. intros [= <- <-]. by eapply deregister_ok.
  - unfold step_cancelled_stop. asks_writer Hok.
Qed.

(** ** Steps of a cancellation *)

Lemma acknowledgement_identity_inj (r r' : CancelRequest Uuid) :
  cancellation_acknowledgement_identity r = cancellation_acknowledgement_identity r' → r = r'.
Proof.
  unfold cancellation_acknowledgement_identity. intros Heq%(inj (String.append _)).
  apply split_at_char in Heq as [Hw Ht]; [|apply uuid_text_no_colon..].
  apply uuid_to_string_inj in Hw, Ht. destruct r, r'. simpl in *. congruence.
Qed.

(** A fence that is loaded under the identity of a request is a fence on its task. *)
Lemma loaded_known s i f r :
  identified s → fences s !! i = Some f → i = cancellation_acknowledgement_identity r →
  fence_known s (local_cancellation_fence (load_fence s i f) r).
Proof.
  intros Hid Hf Hi. destruct (Hid _ _ Hf) as (r' & Hr' & Ht & Hw). rewrite Hi in Hr'.
  apply acknowledgement_identity_inj in Hr' as <-. by exists f.
Qed.

Lemma commit_known e sys r now fence sys' :
  sys_ok sys →
  ask sha256_hex e sys (CommitCancellationFence (cancellation_acknowledgement_identity r) r now) = (Ok fence, sys') →
  fence_known (store sys') fence.
Proof.
  intros Hok [_ _ _ Hi Hs]%ask_asked. destruct Hs as [clock Hh]; [done|]. simpl in Hh.
  specialize (Hi eq_refl (so_fences _ Hok)). revert Hi. unfold store.
  destruct (transact _ _) as [[tf|err] w] eqn:Ht; simpl in Hh; [|done]. injection Hh as <- <-.
  apply transact_ok in Ht as (s & Hc & ->). simpl.
  destruct (commit_fence_loaded _ _ _ _ _ _ _ Hc) as (f & Hf & ->). intros Hi. by apply loaded_known.
Qed.

Lemma unresolved_known e sys fence sys' :
  sys_ok sys → ask sha256_hex e sys SelectUnresolvedCancellation = (Ok (Some fence), sys') →
  fence_known (store sys') fence.
Proof.
  intros Hok [_ _ _ _ Hs]%ask_asked. destruct Hs as [clock Hh]; [done|]. simpl in Hh.
  pose proof (so_fences _ Hok) as Hid. unfold store in *.
  unfold select_unresolved_task_cancellation, select_fence in Hh.
  destruct (select_rows _ _ _) as [|[i f] l] eqn:Hr; simpl in Hh; [done|].
  assert ((i, f) ∈ select_rows leq_fence (λ af, match f_settled af.2 with None => true | Some _ => false end)
            (fences (repository (writer sys)))) as [Hf _]%elem_of_select_rows by (rewrite Hr; left).
  destruct (Hid _ _ Hf) as (r & -> & Ht & Hw). unfold cancellation_request in Hh. simpl in Hh.
  rewrite Ht, Hw, !uuid_parse_to_string in Hh. simpl in Hh. injection Hh as <- <-.
  destruct r as [task workflow]. by apply loaded_known.
Qed.

Lemma known_claimed s fence k :
  pickup_ok s → fence_known s fence → pickup_owner_key fence = Some k → key_claimed s k.
Proof.
  intros Hok (f & Hf & _ & _ & Ho & Hp) Hk. unfold pickup_owner_key in Hk.
  destruct (lf_pickup fence) as [[key g]|] eqn:Hlp; simpl in Hk; [|done].
  destruct (lf_owner fence) as [o|] eqn:Hlo; simpl in Hk; [|done]. injection Hk as <-.
  pose proof (pk_fence _ Hok _ _ Hf) as Hfo. unfold fence_ok in Hfo. rewrite Hp, Ho in Hfo by by eexists.
  destruct Hfo as (-> & d & Hd & _ & Hst & Hown). apply key_claimed_inv. simpl. exists d.
  pose proof (pk_row _ Hok _ _ Hd) as Hrow. unfold row_ok in Hrow. rewrite Hst in Hrow.
  destruct Hrow as (Hg & _). done.
Qed.

Lemma cancellation_move sys sys' t c' :
  sys_ok sys → calm sys sys' → cancellations sys' = cancellations sys → cancel_ok sys' c' →
  sys_ok (set_cancellation sys' t c').
Proof.
  intros Hok Hcm Hc Hc'. apply (calm_ok sys); [by destruct Hcm; split|done|].
  intros t0 c0. simpl. rewrite lookup_insert_Some, Hc. intros [[<- <-]|[_ ?]]; [by right|by left].
Qed.

(** A fence without an owner settles at once. *)
Lemma unowned_settles sys fence : fence_known (store sys) fence → lf_owner fence = None → settles sys fence.
Proof.
  intros Hf Ho. split; [done|]. intros _ k. unfold pickup_owner_key. rewrite Ho.
  by destruct (lf_pickup fence).
Qed.

Lemma elected_settles sys fence o : fence_known (store sys) fence → lf_outcome fence = Some o → settles sys fence.
Proof. intros Hf Ho. split; [done|]. congruence. Qed.

Lemma resolve_ok e sys t fence c' sys' :
  sys_ok sys → cancellations sys !! t = Some (C_Resolve fence) →
  step_resolve sha256_hex e sys fence = (c', sys') → sys_ok (set_cancellation sys' t c').
Proof.
  intros Hok Ht. pose proof (so_cancel _ Hok _ _ Ht) as Hknown. simpl in Hknown. unfold step_resolve.
  destruct (lf_outcome fence) as [o|] eqn:Ho.
  { intros [= <- <-]. apply (cancellation_move sys); [done|apply set_locked_calm|done|]. by eapply elected_settles. }
  destruct (pickup_owner_key fence) as [k|] eqn:Hk.
  2: { intros [= <- <-]. apply (cancellation_move sys); [done|apply set_locked_calm|done|].
       split; [done|]. intros _ k. congruence. }
  set (sys1 := match running (handler sys) !! k with
               | Some t0 => cancel_tokens sys {[t0]} | None => raise_fence sys k end).
  assert (calm sys sys1 ∧ cancellations sys1 = cancellations sys) as [Hcm1 Hc1].
  { unfold sys1. destruct (running (handler sys) !! k); split; try done; split; try done. simpl. set_solver. }
  destruct (ask _ _ _ _) as [answer sys2] eqn:Hask. intros [= <- <-].
  pose proof (ask_calm _ _ _ _ _ Hask I) as Hcm2. pose proof (ask_cancellations _ _ _ _ _ Hask) as Hc2.
  assert (calm sys (set_locked sys2 false)) as Hcm
    by (eapply calm_trans; [done|]; eapply calm_trans; [done|apply set_locked_calm]).
  apply (cancellation_move sys); [done|done|simpl; congruence|].
  pose proof (fence_known_run _ _ _ (so_store _ Hok) (cm_run _ _ Hcm) Hknown) as Hknown'.
  destruct answer as [[]|]; [|done..]. destruct (running (handler sys) !! k) as [t0|] eqn:Hrun; simpl.
  - split; [done|]. exists k. destruct (so_running _ Hok _ _ Hrun) as (Hl & _).
    rewrite (cm_launches _ _ Hcm2), (cm_launches _ _ Hcm1), (cm_running _ _ Hcm2), (cm_running _ _ Hcm1).
    split_and!; [done|done|]. intros t'. congruence.
  - split; [done|]. intros _ k' Hk'. rewrite Hk in Hk'. injection Hk' as <-. split_and!.
    + eapply known_claimed; [|done|done]. by destruct (pickup_run_sound _ _ (cm_run _ _ Hcm) (so_store _ Hok)).
    + rewrite (cm_alive _ _ Hcm). intros (t0 & a0 & Hr & _)%(so_alive _ Hok). congruence.
    + intros _ _ _ _. simpl. apply (cm_fenced _ _ Hcm2). unfold sys1. simpl. set_solver.
Qed.

Lemma wait_ok sys t fence t0 c' sys' :
  sys_ok sys → cancellations sys !! t = Some (C_Wait fence t0) →
  step_wait sys fence t0 = Some (c', sys') → sys_ok (set_cancellation sys' t c').
Proof.
  intros Hok Ht. pose proof (so_cancel _ Hok _ _ Ht) as [Hknown (k & Hk & Hl & Hrun)]. unfold step_wait.
  destruct (completions sys !! t0) as [r|] eqn:Hc.
  - intros [= <- <-]. apply (cancellation_move sys); [done|apply calm_refl|done|]. split; [done|].
    intros _ k' Hk'. rewrite Hk in Hk'. injection Hk' as <-. split_and!.
    + by apply (so_launched _ Hok).
    + intros (t1 & a1 & Hr & _ & Hn & _)%(so_alive _ Hok). apply Hrun in Hr as ->. congruence.
    + intros t1 c Hm Hkey. by destruct (so_prelaunch _ Hok _ _ Hm); rewrite Hkey.
  - intros Heq. assert (c' = C_Done (Err Ce_HandlerStopped) ∧ sys' = sys) as [-> ->]
      by (repeat case_match; naive_solver).
    by apply (cancellation_move sys); [|apply calm_refl|..].
Qed.

(** A cancellation that asks the writer and has nothing to promise. *)
Lemma fence_step_ok e sys t request c' sys' :
  sys_ok sys → step_fence sha256_hex e sys request = (c', sys') → sys_ok (set_cancellation sys' t c').
Proof.
  intros Hok. unfold step_fence. destruct (ask _ _ _ _) as [[fence|err] s1] eqn:Hask; intros [= <- <-];
    pose proof (ask_cancellations _ _ _ _ _ Hask) as Hc.
  - apply (cancellation_move sys); [done|eapply calm_trans; [by eapply ask_calm|apply set_locked_calm]|done|].
    exact (commit_known _ _ _ _ _ _ Hok Hask).
  - by apply (cancellation_move sys); [|eapply ask_calm|..].
Qed.

Lemma stage_fence_ok e sys t request c' sys' :
  sys_ok sys → step_stage_fence sha256_hex e sys request = (c', sys') → sys_ok (set_cancellation sys' t c').
Proof.
  intros Hok. unfold step_stage_fence. destruct (ask _ _ _ _) as [answer s1] eqn:Hask. intros [= <- <-].
  apply (cancellation_move sys); [done|by eapply ask_calm|by eapply ask_cancellations|].
  destruct answer as [fence|err]; [|done]. pose proof (commit_known _ _ _ _ _ _ Hok Hask) as Hknown.
  destruct (lf_outcome fence) eqn:Ho; [by eapply elected_settles|].
  destruct (lf_owner fence) eqn:Hown; [done|by apply unowned_settles].
Qed.

Lemma reconcile_ok e sys t c' sys' :
  sys_ok sys → step_reconcile sha256_hex e sys = (c', sys') → sys_ok (set_cancellation sys' t c').
Proof.
  intros Hok. unfold step_reconcile. destruct (ask _ _ _ _) as [answer s1] eqn:Hask. intros [= <- <-].
  apply (cancellation_move sys); [done|by eapply ask_calm|by eapply ask_cancellations|].
  destruct answer as [[fence|]|err]; [|done..]. pose proof (unresolved_known _ _ _ _ Hok Hask) as Hknown.
  destruct (lf_outcome fence) eqn:Ho; [by eapply elected_settles|].
  destruct (lf_owner fence) eqn:Hown; [done|by apply unowned_settles].
Qed.

Lemma settle_step_ok e sys t fence r c' sys' :
  sys_ok sys → cancellations sys !! t = Some (C_Settle fence r) →
  step_settle sha256_hex e sys fence r = (c', sys') → sys_ok (set_cancellation sys' t c').
Proof.
  intros Hok Ht. pose proof (so_cancel _ Hok _ _ Ht) as Hset. unfold step_settle.
  destruct (ask _ _ _ _) as [answer s1] eqn:Hask. intros [= <- <-].
  pose proof (ask_calm _ _ _ _ _ Hask I) as Hcm.
  apply (cancellation_move sys); [done|done|by eapply ask_cancellations|].
  destruct answer as [el|err]; [|done]. eapply settles_keeps; [apply Hok|by apply calm_keeps|done].
Qed.

Lemma cancellation_step_ok e sys t c c' sys' :
  sys_ok sys → cancellations sys !! t = Some c → cancellation_step sha256_hex e sys c = Some (c', sys') →
  sys_ok (set_cancellation sys' t c').
Proof.
  intros Hok Ht. destruct c; simpl; try done.
  - destruct (locked sys); [done|]. intros [= ?]. by eapply fence_step_ok.
  - intros [= ?]. by eapply resolve_ok.
  - by eapply wait_ok.
  - intros [= ?]. by eapply stage_fence_ok.
  - intros [= Heq]. unfold step_stage_notify in Heq. destruct (ask _ _ _ _) as [answer s1] eqn:Hask.
    injection Heq as <- <-. apply (cancellation_move sys); [done|by eapply ask_calm|by eapply ask_cancellations|].
    destruct answer as [[]|]; simpl; done.
  - intros [= ?]. by eapply reconcile_ok.
  - intros [= ?]. by eapply settle_step_ok.
Qed.

(** ** Every step of the formation *)

Lemma sweep_calm e sys l l' sys' :
  sweep_step sha256_hex e sys l = Some (l', sys') → calm sys sys' ∧ cancellations sys' = cancellations sys.
Proof.
  destruct l; simpl; [| |done]; destruct (ask _ _ _ _) as [answer s1] eqn:Hask; intros [= _ <-];
    (split; [by eapply ask_calm|by eapply ask_cancellations]).
Qed.

Lemma relay_identifies {R} (req : Request Uuid R) : relay_request req = true → identifies req.
Proof. by destruct req. Qed.

Local Abbreviation sys_step :=
  (sys_step sha256_hex dispatch_error_text owner executor_id liveness_timeout kill_on_drop process_slots).
Local Abbreviation sys_run :=
  (sys_run sha256_hex dispatch_error_text owner executor_id liveness_timeout kill_on_drop process_slots).

Lemma start_attempt_ok sys t : attempts sys !! t = None → sys_ok sys → sys_ok (set_attempt sys t A_Select).
Proof.
  intros Hn Hok.
  assert (∀ t0 c, has_claim (set_attempt sys t A_Select) t0 c → has_claim sys t0 c) as Hhas.
  { intros t0 c (a0 & Ha0 & Hc). simpl in Ha0. apply lookup_insert_Some in Ha0 as [[<- <-]|[_ Ha0]]; [done|by exists a0]. }
  assert (∀ t0 c, may_launch (set_attempt sys t A_Select) t0 c → may_launch sys t0 c) as Hmay.
  { intros t0 c (a0 & Ha0 & Hc). simpl in Ha0. apply lookup_insert_Some in Ha0 as [[<- <-]|[_ Ha0]]; [done|by exists a0]. }
  assert (keeps sys (set_attempt sys t A_Select)) as Hkp.
  { split; simpl; [apply run_refl|done|done|]. intros k (_ & Hk & Hm). split; [done|]. eauto. }
  destruct Hok as [S1 S2 S3 S4 S5 S6 S7 S8 S9 S10 S11 S12 S13]. split; simpl; try done; eauto.
  - intros k t0 Hr. destruct (S9 _ _ Hr) as (Hl & Hs & Hown). split_and!; [done| |eauto].
    rewrite lookup_insert_is_Some'. by right.
  - intros k (t0 & a0 & Hr & Ha0 & Hl)%S10. exists t0, a0. rewrite lookup_insert_ne; [done|]. congruence.
  - intros t0 r (a0 & Ha0 & Hf)%S11. exists a0. rewrite lookup_insert_ne; [done|]. congruence.
  - intros t0 c Hc%S12. by eapply cancel_keeps.
  - intros t0 a0. rewrite lookup_insert_Some. intros [[<- <-]|[_ Ha0]]; [done|by eapply S13].
Qed.

Lemma sys_step_ok sys sys' : sys_step sys sys' → sys_ok sys → sys_ok sys'.
Proof.
  destruct 1 as [sys t Hn _|sys t a e a' sys' Ha Hs|sys t payload c Hn Hc|sys t payload c Hn Hc|sys t Hn
    |sys t c e c' sys' Hc Hs|sys t now Hn|sys t l e l' sys' Hl Hs|sys e R req Hr|sys Hl]; intros Hok.
  - by apply start_attempt_ok.
  - by eapply attempt_step_ok.
  - unfold cancel in Hc. destruct (decode_cancel_request payload); [|done]. injection Hc as <-.
    by apply (cancellation_move sys); [|apply calm_refl|..].
  - unfold stage in Hc. destruct (decode_cancel_request payload); [|done]. injection Hc as <-.
    by apply (cancellation_move sys); [|apply calm_refl|..].
  - by apply (cancellation_move sys); [|apply calm_refl|..].
  - by eapply cancellation_step_ok.
  - apply (calm_ok sys); [by split|done|by left].
  - apply sweep_calm in Hs as [Hcm Hc]. apply (calm_ok sys); [by destruct Hcm; split|done|].
    simpl. rewrite Hc. by left.
  - destruct (ask _ _ _ _) as [answer s1] eqn:Hask. simpl.
    apply (calm_ok sys); [by eapply ask_calm; [|apply relay_identifies]|done|].
    rewrite (ask_cancellations _ _ _ _ _ Hask). by left.
  - apply (calm_ok sys); [by split|done|by left].
Qed.

Lemma sys_run_ok sys sys' : sys_run sys sys' → sys_ok sys → sys_ok sys'.
Proof. induction 1; eauto using sys_step_ok. Qed.

End facts.
