(* ===== verification/PickupSafety.v ===== *)
(** * Runs of the formation

    What holds in every run of the executor's and the coordinator's threads over the
    local writer: a task's process is launched once, no process escapes the task
    handler, a cancellation that has been answered leaves no process behind, the
    answers of an attempt are the outcomes on record, and the process slots bound the
    attempts in flight.  A launcher whose processes outlive their dropped handle, as
    the Lite launcher's do, is shown to lose one: an attempt whose writer stops while
    it stages the start of its process leaves the process registered and running. *)

From S2P Require Import Prelude Workflow Uuid TaskWire TaskPickup TaskPickupFacts PickupLifecycle LocalWriter PickupExecutor PickupExecutorFacts.

Section safety.
Context `{UuidOps Uuid} `{!Countable Uuid} `{!UuidLaws Uuid}.
Context `{Wire TaskDispatch} `{Wire TaskEvent} `{Wire CancelTaskRequest} `{Wire CancelTaskAck}.
Context (sha256_hex : string → string) (dispatch_error_text : DispatchError → string).
Context (owner : string) (executor_id : Uuid) (liveness_timeout : Z) (kill_on_drop : bool)
  (process_slots : nat).

Local Abbreviation sys_step :=
  (sys_step sha256_hex dispatch_error_text owner executor_id liveness_timeout kill_on_drop process_slots).
Local Abbreviation sys_run :=
  (sys_run sha256_hex dispatch_error_text owner executor_id liveness_timeout kill_on_drop process_slots).
Local Abbreviation attempt_step := (attempt_step sha256_hex dispatch_error_text owner executor_id liveness_timeout kill_on_drop).

Implicit Types (s : PickupStore) (sys : Sys Uuid) (a : Attempt Uuid) (e : Env).

Lemma started_ok s sys :
  pickup_reachable s → identified s → sys_run (start s) sys → sys_ok kill_on_drop sys.
Proof. intros Hr%pickup_reachable_ok Hid Hrun. eapply sys_run_ok; [done|by apply start_ok]. Qed.

(** C2: a task is launched once.  Whatever executors, cancellations, sweeps and faults
    of the writer interleave, no dispatch has its process launched twice, and each
    launch is of a claim that stands on record under its owner. *)
Theorem launched_once s sys :
  pickup_reachable s → identified s → sys_run (start s) sys →
  NoDup (ok_dispatch_key <$> launches sys) ∧
  ∀ k, k ∈ launches sys → key_claimed (store sys) k ∧ ok_generation k = 1%Z.
Proof.
  intros Hr Hid Hrun. pose proof (started_ok _ _ Hr Hid Hrun) as Hok. split.
  - apply NoDup_fmap_2_strong; [|apply (so_nodup _ _ Hok)]. intros k k' Hk Hk'.
    apply key_claimed_unique with (store sys); by apply (so_launched _ _ Hok).
  - intros k Hk%(so_launched _ _ Hok). split; [done|]. apply key_claimed_inv in Hk as (d & Hd & Hst & <- & _).
    pose proof (pk_row _ (so_store _ _ Hok) _ _ Hd) as Hrow. unfold row_ok in Hrow. rewrite Hst in Hrow. apply Hrow.
Qed.

(** C38: no process escapes the task handler.  Every process that has been neither
    reaped nor torn down was launched and is registered, under its claim, with the
    attempt that runs it, and stopping the formation cancels that attempt's token.
    Only where the launcher's processes outlive their dropped handle may the attempt
    have ended, and then with an error. *)
Theorem processes_registered s sys k :
  pickup_reachable s → identified s → sys_run (start s) sys → k ∈ alive sys →
  k ∈ launches sys ∧
  ∃ t a, running (handler sys) !! k = Some t ∧ attempts sys !! t = Some a ∧
    ((∃ c, live a = Some c ∧ owner_key c = k) ∨ kill_on_drop = false ∧ ∃ err, a = A_Done (Err err)) ∧
    t ∈ tokens (stop_all sys).
Proof.
  intros Hr Hid Hrun Hk. pose proof (started_ok _ _ Hr Hid Hrun) as Hok.
  destruct (so_alive _ _ Hok _ Hk) as (t & a & Hreg & Ha & _ & Hl). split; [by apply (so_running _ _ Hok _ _ Hreg)|].
  exists t, a. split_and!; [done|done| |].
  { destruct Hl as [Hleft|]; [right|by left]. destruct a as [| | | | | | | | | | | | | | | | |[|err]]; try done.
    split; [by destruct kill_on_drop|by exists err]. } unfold stop_all. simpl. apply elem_of_union_r.
  apply elem_of_list_to_set, list_elem_of_fmap. exists (k, t). split; [done|by apply elem_of_map_to_list].
Qed.

(** The pickup of a task whose cancellation was answered is known to have no process. *)
Lemma settled_task_dead sys outcome k d :
  sys_ok kill_on_drop sys → settles sys outcome → lf_outcome outcome = None → k ∈ alive sys →
  dispatches (store sys) !! ok_dispatch_key k = Some d →
  d_identity d ≠ Some (uuid_to_string (cr_task_instance_id (lf_request outcome)),
                       uuid_to_string (cr_workflow_instance_id (lf_request outcome))).
Proof.
  intros Hok [(f & Hf & Ht & Hw & Ho & Hp) Hdead] Hout Hk Hd Hid. pose proof (so_store _ _ Hok) as Hst.
  destruct (so_alive _ _ Hok _ Hk) as (t & _ & Hreg & _). destruct (so_running _ _ Hok _ _ Hreg) as (Hl & _).
  apply (so_launched _ _ Hok), key_claimed_inv in Hl as (d0 & Hd0 & Hcl & Hg & Hown).
  rewrite Hd in Hd0. injection Hd0 as <-. rewrite <-Ht, <-Hw in Hid.
  destruct (f_owner f) as [o|] eqn:Hfo.
  2: { by destruct (unowned_fence_covers _ _ _ _ _ Hst Hf Hfo Hd Hid). }
  pose proof (pk_fence _ Hst _ _ Hf) as Hfok. unfold fence_ok in Hfok. rewrite Hfo in Hfok.
  destruct (f_pickup f) as [[k' g]|] eqn:Hfp; [|by destruct Hfok].
  destruct Hfok as (-> & d1 & Hd1 & Hid1 & _ & Hown1).
  assert (k' = ok_dispatch_key k) as -> by by apply (pk_identity _ Hst _ _ _ _ _ Hd1 Hd Hid1).
  rewrite Hd in Hd1. injection Hd1 as <-.
  pose proof (pk_row _ Hst _ _ Hd) as Hrow. unfold row_ok in Hrow. rewrite Hcl in Hrow. destruct Hrow as (Hg1 & _).
  destruct (Hdead Hout k) as (_ & Hna & _); [|done].
  unfold pickup_owner_key. rewrite <-Hp, <-Ho by (rewrite <-Ho; by eexists). simpl.
  destruct k as [kd kg ko]. simpl in *. congruence.
Qed.

(** ** What a step leaves alone *)

(** A thread's step runs transactions and moves no other thread. *)
Record frame sys sys' : Prop := {
  fr_run : pickup_run (store sys) (store sys');
  fr_attempts : attempts sys' = attempts sys;
  fr_cancellations : cancellations sys' = cancellations sys
}.

Lemma ask_frame {R} e sys (req : Request Uuid R) answer sys' :
  ask sha256_hex e sys req = (answer, sys') → frame sys sys'.
Proof. intros [[w ->] Hrun _ _ _]%ask_asked. by split. Qed.

Lemma elect_frame e sys task claim outcome answer sys' :
  elect_outcome sha256_hex executor_id e sys task claim outcome = (answer, sys') → frame sys sys'.
Proof. intros [[C1 _ _ C4 _ _ _ _ _] Hc]%elect_outcome_calm. by split. Qed.

(** Its part of the state is the writer's answer, up to what the frame ignores. *)
Ltac frame_tac :=
  repeat match goal with
  | |- context [accept_dispatch ?x] => destruct (accept_dispatch x)
  | |- context [ask ?h ?e ?sys ?req] =>
      let Hask := fresh in destruct (ask h e sys req) as [? ?] eqn:Hask; apply ask_frame in Hask
  | |- context [elect_outcome ?h ?x ?e ?sys ?t ?c ?o] =>
      let He := fresh in destruct (elect_outcome h x e sys t c o) as [? ?] eqn:He; apply elect_frame in He
  end;
  repeat case_match; intros; simplify_eq;
  first [split; [apply run_refl|done|done]
        |match goal with
         | Hf : frame _ _ |- _ => let F := fresh in destruct Hf as [F ? ?]; split; [exact F|done|done]
         end].

Lemma attempt_frame e sys t a a' sys' : attempt_step e sys t a = Some (a', sys') → frame sys sys'.
Proof.
  destruct a; simpl; unfold with_lock, step_select, step_claim, step_prove_claim, step_arm, step_prove_ready,
    step_launch, step_elect_setup_failure, step_stage_started, step_renew, step_register_failure, step_running,
    step_exited, step_exited_stop, step_elect, step_teardown, step_deregister, step_cancelled_stop, dropped;
    [frame_tac..|done].
Qed.

Lemma cancellation_frame e sys c c' sys' :
  cancellation_step sha256_hex e sys c = Some (c', sys') → frame sys sys'.
Proof.
  destruct c; simpl; unfold step_fence, step_wait, step_stage_fence, step_stage_notify, step_reconcile, step_settle;
    [frame_tac| |frame_tac..|done|done].
  unfold step_resolve. destruct (lf_outcome fence); [frame_tac|].
  destruct (pickup_owner_key fence) as [k|]; [|frame_tac].
  destruct (running (handler sys) !! k); frame_tac.
Qed.

Lemma step_store sys sys' : sys_step sys sys' → pickup_run (store sys) (store sys').
Proof.
  destruct 1 as [| sys t a e a' sys' _ Hs| | | |sys t c e c' sys' _ Hs| |sys t l e l' sys' _ Hs|sys e R req _|];
    try apply run_refl.
  - exact (fr_run _ _ (attempt_frame _ _ _ _ _ _ Hs)).
  - exact (fr_run _ _ (cancellation_frame _ _ _ _ _ Hs)).
  - exact (cm_run _ _ (proj1 (sweep_calm _ _ _ _ _ _ Hs))).
  - destruct (ask _ _ _ _) as [x s1] eqn:Hask. exact (fr_run _ _ (ask_frame _ _ _ _ _ Hask)).
Qed.

Lemma answered_stays sys sys' t answer :
  sys_step sys sys' → cancellations sys !! t = Some (C_Done answer) → cancellations sys' !! t = Some (C_Done answer).
Proof.
  destruct 1 as [|sys t0 a e a' sys' _ Hs|sys t0 payload c Hn _|sys t0 payload c Hn _|sys t0 Hn
    |sys t0 c e c' sys' Hc0 Hs| |sys t0 l e l' sys' _ Hs|sys e R req _|]; simpl; try done; intros Hc.
  - by rewrite (fr_cancellations _ _ (attempt_frame _ _ _ _ _ _ Hs)).
  - rewrite lookup_insert_ne; [done|congruence].
  - rewrite lookup_insert_ne; [done|congruence].
  - rewrite lookup_insert_ne; [done|congruence].
  - rewrite lookup_insert_ne, (fr_cancellations _ _ (cancellation_frame _ _ _ _ _ Hs)); [done|].
    intros ->. rewrite Hc in Hc0. by injection Hc0 as <-.
  - by rewrite (proj2 (sweep_calm _ _ _ _ _ _ Hs)).
  - destruct (ask _ _ _ _) as [x s1] eqn:Hask. simpl. by rewrite (fr_cancellations _ _ (ask_frame _ _ _ _ _ Hask)).
Qed.

(** C1: an answered cancellation is final.  Once the cancellation of a task has been
    answered, and its fence had found no outcome elected before, no process of that
    task is alive, then or in any later state: a queued dispatch never starts one, a
    process that had started has been torn down or reaped, and one that was about to
    start is stopped by the fence. *)
Theorem answered_cancellation_final s sys sys' t outcome k d :
  pickup_reachable s → identified s → sys_run (start s) sys →
  cancellations sys !! t = Some (C_Done (Ok outcome)) → lf_outcome (co_fence outcome) = None →
  sys_run sys sys' → k ∈ alive sys' → dispatches (store sys') !! ok_dispatch_key k = Some d →
  d_identity d ≠ Some (uuid_to_string (cr_task_instance_id (lf_request (co_fence outcome))),
                       uuid_to_string (cr_workflow_instance_id (lf_request (co_fence outcome)))).
Proof.
  intros Hr Hid Hrun Hc Ho Hrun' Hk Hd. pose proof (started_ok _ _ Hr Hid Hrun) as Hok.
  pose proof (sys_run_ok _ _ _ _ _ _ _ _ _ Hrun' Hok) as Hok'.
  pose proof (so_cancel _ _ Hok _ _ Hc) as Hset. simpl in Hset.
  assert (cancellations sys' !! t = Some (C_Done (Ok outcome))) as Hc'.
  { clear -Hc Hrun'. induction Hrun'; eauto using answered_stays. }
  pose proof (so_cancel _ _ Hok' _ _ Hc') as Hset'. by eapply settled_task_dead.
Qed.

(** ** Process slots *)

Lemma in_flight_step (m : gmap nat (Attempt Uuid)) t a a' :
  m !! t = Some a → is_done a = false →
  size (filter (λ ta : nat * Attempt Uuid, is_done ta.2 = false) (<[t := a']> m)) ≤
  size (filter (λ ta : nat * Attempt Uuid, is_done ta.2 = false) m).
Proof.
  intros Ht Ha. rewrite map_filter_insert. simpl. case_decide as Hd.
  - rewrite map_size_insert_Some; [done|]. exists a. by apply map_lookup_filter_Some.
  - apply map_subseteq_size, map_filter_subseteq_mono, delete_subseteq.
Qed.

Lemma in_flight_start (m : gmap nat (Attempt Uuid)) t a' :
  m !! t = None →
  size (filter (λ ta : nat * Attempt Uuid, is_done ta.2 = false) (<[t := a']> m)) ≤
  S (size (filter (λ ta : nat * Attempt Uuid, is_done ta.2 = false) m)).
Proof.
  intros Ht. rewrite map_filter_insert. simpl. case_decide as Hd.
  - rewrite map_size_insert_None; [done|]. apply map_lookup_filter_None. by left.
  - assert (delete t m = m) as -> by by apply delete_id. lia.
Qed.

Lemma steps_active e sys t a a' sys' : attempt_step e sys t a = Some (a', sys') → is_done a = false.
Proof. by destruct a. Qed.

(** The process slots bound the attempts.  However threads interleave, no more
    attempts are in flight than the executor has process slots. *)
Theorem slots_bound_attempts s sys : sys_run (start s) sys → in_flight sys ≤ process_slots.
Proof.
  assert (in_flight (start s) ≤ process_slots) as Hinit
    by (unfold in_flight; simpl; rewrite map_filter_empty, map_size_empty; lia).
  intros Hrun. revert Hinit. induction Hrun as [|sys1 sys2 sys3 Hs _ IH]; [done|]. intros Hle. apply IH. clear IH.
  destruct Hs as [sys t Hn Hlt|sys t a e a' sys' Ha Hs| | | |sys t c e c' sys' _ Hs| |sys t l e l' sys' _ Hs
    |sys e R req _|]; unfold in_flight in *; simpl; try done.
  - etrans; [by apply in_flight_start|]. lia.
  - rewrite (fr_attempts _ _ (attempt_frame _ _ _ _ _ _ Hs)). etrans; [|done].
    eapply in_flight_step; [done|by eapply steps_active].
  - by rewrite (fr_attempts _ _ (cancellation_frame _ _ _ _ _ Hs)).
  - by rewrite (cm_attempts _ _ (proj1 (sweep_calm _ _ _ _ _ _ Hs))).
  - destruct (ask _ _ _ _) as [x s1] eqn:Hask. simpl. by rewrite (fr_attempts _ _ (ask_frame _ _ _ _ _ Hask)).
Qed.

(** ** Answers of an attempt *)

(** The outcome an election reported is on record. *)
Definition reported s (claim : LocalPickupClaim) (outcome : LocalAttemptOutcome) (election : TerminalElection) : Prop :=
  ∃ at_, outcomes s !! (lc_dispatch_key claim, lc_generation claim) =
         Some (repository_outcome match election with Te_Won => outcome | Te_Settled o => o end, at_).

Definition report_ok s a : Prop :=
  match a with
  | A_Done (Ok (Po_Launched claim success election)) =>
      reported s claim (if success then Lo_ProcessExitedSuccess else Lo_ProcessExitedFailure) election
  | A_Done (Ok (Po_ProcessSetupFailed claim election)) => reported s claim Lo_ProcessSetupFailed election
  | _ => True
  end.

Lemma report_run s s' a : pickup_ok s → pickup_run s s' → report_ok s a → report_ok s' a.
Proof.
  intros Hok Hrun. destruct (pickup_run_sound _ _ Hrun Hok) as [_ Hev].
  assert (∀ c o el, reported s c o el → reported s' c o el) as Hrep.
  { intros c o el [at_ Ho]. exists at_. by apply (pv_outcomes _ _ Hev). }
  destruct a as [| | | | | | | | | | | | | | | | |[[]|]]; simpl; auto.
Qed.

Lemma local_repository_outcome o : repository_outcome (local_outcome o) = o.
Proof. by destruct o. Qed.

Lemma elect_reported e sys task claim outcome election sys' :
  pickup_ok (store sys) →
  elect_outcome sha256_hex executor_id e sys task claim outcome = (Ok election, sys') →
  reported (store sys') claim outcome election.
Proof.
  intros Hok Heq.
  assert (∃ event, ask sha256_hex e sys (ElectTerminal claim outcome event (env_clock e)) = (Ok election, sys') ∧
            is_Some (event_kind (repository_outcome outcome))) as (event & Hask & [kind Hkind]).
  { unfold elect_outcome in Heq. destruct outcome; try done;
      match type of Heq with context [ask _ _ _ (ElectTerminal _ _ ?ev _)] => exists ev end;
      (destruct (ask _ _ _ _) as [[el|] s1]; repeat case_match; simplify_eq; split; [done|by eexists]). }
  apply ask_asked in Hask as [_ _ _ _ Hs]. destruct Hs as [clock Hh]; [done|]. simpl in Hh. unfold store in *.
  destruct (elect_task_pickup_terminal _ _ _ _ _) as [[el s1]|err] eqn:He; simpl in Hh; [|done].
  injection Hh as Hel <-. simpl.
  destruct (validate_claim_identity (repository_claim claim)) as [[]|] eqn:Hv;
    [|unfold elect_task_pickup_terminal in He; by rewrite Hv in He].
  pose proof (elect_cases _ _ _ _ event (env_clock e) Hok Hv Hkind) as Hc. unfold reported.
  change (lc_dispatch_key claim, lc_generation claim) with (claim_key (repository_claim claim)).
  destruct (outcomes (repository (writer sys)) !! claim_key (repository_claim claim)) as [[o at_]|] eqn:Ho.
  - rewrite He in Hc. injection Hc as -> ->. simpl in Hel. injection Hel as <-.
    exists at_. by rewrite local_repository_outcome.
  - destruct Hc as [[_ Hc]|[_ Hc]]; rewrite He in Hc; injection Hc as -> ->; simpl in Hel; [|done].
    injection Hel as <-. eexists. simpl. by rewrite lookup_insert_eq.
Qed.

Lemma attempt_reports e sys t a a' sys' :
  pickup_ok (store sys) → attempt_step e sys t a = Some (a', sys') → report_ok (store sys') a'.
Proof.
  intros Hok. destruct a; simpl; unfold with_lock, step_select, step_claim, step_prove_claim, step_arm, step_prove_ready,
    step_launch, step_stage_started, step_renew, step_register_failure, step_running, step_exited,
    step_exited_stop, step_teardown, step_deregister, step_cancelled_stop, dropped, reach; try done;
    try (repeat match goal with
         | |- context [accept_dispatch ?x] => destruct (accept_dispatch x)
         | |- context [ask ?h ?e ?sys ?req] => destruct (ask h e sys req) as [? ?]
         end; repeat case_match; intros; simplify_eq; done).
  - unfold step_elect_setup_failure. destruct (elect_outcome _ _ _ _ _ _ _) as [[el|err] s1] eqn:He;
      intros [= <- <-]; [|done]. exact (elect_reported _ _ _ _ _ _ _ Hok He).
  - unfold step_elect. destruct (elect_outcome _ _ _ _ _ _ _) as [[el|err] s1] eqn:He;
      intros [= <- <-]; [|done]. exact (elect_reported _ _ _ _ _ _ _ Hok He).
Qed.

Lemma step_attempts sys sys' t a :
  sys_ok kill_on_drop sys → sys_step sys sys' → attempts sys' !! t = Some a → attempts sys !! t = Some a ∨ report_ok (store sys') a.
Proof.
  intros Hok. destruct 1 as [sys t0 Hn Hlt|sys t0 a0 e a' sys' Ha Hs| | | |sys t0 c e c' sys' _ Hs| |sys t0 l e l' sys' _ Hs
    |sys e R req _|]; simpl; try by left.
  - rewrite lookup_insert_Some. intros [[<- <-]|[_ ?]]; [by right|by left].
  - rewrite lookup_insert_Some, (fr_attempts _ _ (attempt_frame _ _ _ _ _ _ Hs)).
    intros [[<- <-]|[_ ?]]; [right|by left]. exact (attempt_reports _ _ _ _ _ _ (so_store _ _ Hok) Hs).
  - rewrite (fr_attempts _ _ (cancellation_frame _ _ _ _ _ Hs)). by left.
  - rewrite (cm_attempts _ _ (proj1 (sweep_calm _ _ _ _ _ _ Hs))). by left.
  - destruct (ask _ _ _ _) as [x s1] eqn:Hask. simpl. rewrite (fr_attempts _ _ (ask_frame _ _ _ _ _ Hask)). by left.
Qed.

(** An attempt answers what stands on record.  When an attempt reports that its
    process exited, or could not be set up, and whether that decided the task, the
    outcome on record is the reported one when it won and the one it was told when
    another came first. *)
Theorem attempt_answers_recorded s sys t a :
  pickup_reachable s → identified s → sys_run (start s) sys → attempts sys !! t = Some a → report_ok (store sys) a.
Proof.
  intros Hr Hid Hrun. pose proof (start_ok kill_on_drop _ (pickup_reachable_ok _ Hr) Hid) as Hok.
  assert (∀ t a, attempts (start (Uuid := Uuid) s) !! t = Some a → report_ok (store (start (Uuid := Uuid) s)) a) as Hinit
    by (intros t0 a0 Ha0; done).
  revert t a Hok Hinit. induction Hrun as [|sys1 sys2 sys3 Hs Hrun IH]; [eauto|]. intros t a Hok Hinit.
  apply IH; [by eapply sys_step_ok|]. intros t0 a0 Ha0.
  destruct (step_attempts _ _ _ _ Hok Hs Ha0) as [Hold|]; [|done].
  eapply report_run; [apply (so_store _ _ Hok)|by apply step_store|eauto].
Qed.

(** ** An abandoned process *)

(** A process ends, and is deregistered, only by the attempt that has its claim. *)
Definition touches sys (a : Attempt Uuid) sys' : Prop :=
  (∀ k, k ∈ alive sys → k ∈ alive sys' ∨ ∃ c, att_claim a = Some c ∧ owner_key c = k) ∧
  (∀ k t, running (handler sys) !! k = Some t →
     running (handler sys') !! k = Some t ∨ ∃ c, att_claim a = Some c ∧ owner_key c = k).

Lemma touches_same sys a sys' :
  alive sys' = alive sys → running (handler sys') = running (handler sys) → touches sys a sys'.
Proof. intros Ha Hr. split; [rewrite Ha|rewrite Hr]; auto. Qed.

Lemma ask_touches {R} e sys (req : Request Uuid R) answer sys' :
  ask sha256_hex e sys req = (answer, sys') → alive sys' = alive sys ∧ running (handler sys') = running (handler sys).
Proof. intros [[w ->] _ _ _ _]%ask_asked. done. Qed.

Lemma elect_touches e sys task claim outcome answer sys' :
  elect_outcome sha256_hex executor_id e sys task claim outcome = (answer, sys') →
  alive sys' = alive sys ∧ running (handler sys') = running (handler sys).
Proof. intros [[_ _ _ _ _ C6 _ C8 _] _]%elect_outcome_calm. done. Qed.

(** The writer's answers leave the processes and their registrations alone. *)
Ltac take_answers :=
  repeat match goal with
  | |- context [accept_dispatch ?x] => destruct (accept_dispatch x)
  | |- context [ask ?h ?e ?sys ?req] =>
      let Hask := fresh in destruct (ask h e sys req) as [? ?] eqn:Hask; apply ask_touches in Hask as [? ?]
  | |- context [elect_outcome ?h ?x ?e ?sys ?t ?c ?o] =>
      let He := fresh in destruct (elect_outcome h x e sys t c o) as [? ?] eqn:He; apply elect_touches in He as [? ?]
  end;
  repeat case_match; intros; simplify_eq.
Ltac touches_tac := take_answers; apply touches_same; simpl in *; congruence.
Ltac answers_tac := take_answers; split; simpl in *; congruence.

Lemma delete_touches sys claim a :
  att_claim a = Some claim →
  ∀ k t, running (handler sys) !! k = Some t →
    delete (owner_key claim) (running (handler sys)) !! k = Some t ∨ ∃ c, att_claim a = Some c ∧ owner_key c = k.
Proof.
  intros Ha k t Hk. destruct (decide (k = owner_key claim)) as [->|Hne]; [right; eauto|left].
  by rewrite lookup_delete_ne.
Qed.

Lemma reap_touches sys claim a :
  att_claim a = Some claim →
  ∀ k, k ∈ alive sys → k ∈ alive sys ∖ {[ owner_key claim ]} ∨ ∃ c, att_claim a = Some c ∧ owner_key c = k.
Proof.
  intros Ha k Hk. destruct (decide (k = owner_key claim)) as [->|Hne]; [right; eauto|left; set_solver].
Qed.

Lemma drop_touches sys sys' claim a :
  att_claim a = Some claim → alive sys' = alive sys → running (handler sys') = running (handler sys) →
  touches sys a (dropped kill_on_drop sys' (owner_key claim)).
Proof.
  intros Ha Hal Hr. unfold dropped. destruct kill_on_drop; [|by apply touches_same].
  split; simpl; [rewrite Hal; by apply reap_touches|rewrite Hr; by left].
Qed.

Lemma attempt_touches e sys t a a' sys' :
  sys_ok kill_on_drop sys → attempts sys !! t = Some a → attempt_step e sys t a = Some (a', sys') → touches sys a sys'.
Proof.
  intros Hok Hat. destruct a eqn:Ha; simpl; unfold with_lock, step_select, step_claim, step_prove_claim, step_arm,
    step_prove_ready, step_elect_setup_failure, step_renew, step_register_failure, step_elect,
    step_cancelled_stop; try done; try (touches_tac).
  - destruct (locked sys); [done|]. unfold step_launch. destruct (stopping (handler sys)); [touches_tac|].
    case_bool_decide; [touches_tac|]. destruct (env_spawned e); [|touches_tac]. intros [= <- <-].
    split; simpl; [set_solver|]. intros k t0 Hk. left. rewrite lookup_insert_ne; [done|]. intros <-.
    destruct (so_running _ _ Hok _ _ Hk) as (Hl & _). eapply (so_prelaunch _ _ Hok t); [|done]. by eexists.
  - unfold step_stage_started. destruct (env_checkpoint e AfterSpawn); [|touches_tac].
    destruct (ask _ _ _ _) as [[[]|err] s1] eqn:Hask; apply ask_touches in Hask as [Ha1 Hr1]; intros [= _ <-];
      [by apply touches_same..|]. by eapply drop_touches.
  - unfold step_running. destruct (env_wake e); try (touches_tac); intros [= _ <-].
    + split; [by apply reap_touches|by left].
    + by eapply drop_touches.
  - destruct (locked sys); [done|]. unfold step_exited.
    case_bool_decide; [destruct (stopping _)|]; intros [= _ <-]; (split; [by left|by apply delete_touches]).
  - unfold step_exited_stop. touches_tac.
  - intros [= _ <-]. split; [by apply reap_touches|by left].
  - destruct (locked sys); [done|]. intros [= _ <-]. split; [by left|by apply delete_touches].
Qed.

Lemma cancellation_touches e sys c c' sys' :
  cancellation_step sha256_hex e sys c = Some (c', sys') →
  alive sys' = alive sys ∧ running (handler sys') = running (handler sys).
Proof.
  destruct c; simpl; unfold step_fence, step_wait, step_stage_fence, step_stage_notify, step_reconcile, step_settle;
    try done; try (answers_tac).
  unfold step_resolve. destruct (lf_outcome fence); [answers_tac|].
  destruct (pickup_owner_key fence) as [k|]; [|answers_tac].
  destruct (running (handler sys) !! k); answers_tac.
Qed.

Definition abandoned sys (t : nat) (k : PickupOwnerKey) : Prop :=
  k ∈ alive sys ∧ running (handler sys) !! k = Some t ∧ ∃ err, attempts sys !! t = Some (A_Done (Err err)).

Lemma abandoned_step sys sys' t k :
  sys_ok kill_on_drop sys → sys_step sys sys' → abandoned sys t k → abandoned sys' t k.
Proof.
  intros Hok Hs (Hk & Hr & err & Ht).
  destruct Hs as [sys t0 Hn _|sys t0 a e a' sys' Ha Hs| | | |sys t0 c e c' sys' _ Hs| |sys t0 l e l' sys' _ Hs
    |sys e R req _|]; try (by split_and!; eauto).
  - split_and!; [done|done|]. exists err. simpl. rewrite lookup_insert_ne; [done|congruence].
  - destruct (attempt_touches _ _ _ _ _ _ Hok Ha Hs) as [Hal Hrn].
    assert (∀ c, att_claim a = Some c → owner_key c ≠ k) as Hother.
    { intros c Hc <-. destruct (so_running _ _ Hok _ _ Hr) as (_ & _ & Hown).
      assert (t0 = t) as -> by (eapply Hown; [by exists a|done]). rewrite Ht in Ha. by injection Ha as <-. }
    split_and!.
    + destruct (Hal _ Hk) as [|(c & Hc & Heq)]; [done|]. by destruct (Hother c Hc).
    + destruct (Hrn _ _ Hr) as [|(c & Hc & Heq)]; [done|]. by destruct (Hother c Hc).
    + exists err. simpl. rewrite (fr_attempts _ _ (attempt_frame _ _ _ _ _ _ Hs)).
      rewrite lookup_insert_ne; [done|]. intros ->. rewrite Ht in Ha. injection Ha as <-.
      by apply steps_active in Hs.
  - destruct (cancellation_touches _ _ _ _ _ Hs) as [Ha1 Hr1].
    split_and!; simpl; [by rewrite Ha1|by rewrite Hr1|]. rewrite (fr_attempts _ _ (cancellation_frame _ _ _ _ _ Hs)). eauto.
  - destruct (sweep_calm _ _ _ _ _ _ Hs) as [[_ _ _ C4 _ C6 _ C8 _] _].
    split_and!; simpl; rewrite ?C4, ?C6, ?C8; eauto.
  - destruct (ask _ _ _ _) as [x s1] eqn:Hask. unfold abandoned. simpl.
    rewrite (fr_attempts _ _ (ask_frame _ _ _ _ _ Hask)).
    destruct (ask_touches _ _ _ _ _ Hask) as [Ha1 Hr1]. split_and!; [by rewrite Ha1|by rewrite Hr1|eauto].
Qed.

Lemma abandoned_run sys sys' t k :
  sys_ok kill_on_drop sys → sys_run sys sys' → abandoned sys t k → abandoned sys' t k.
Proof.
  intros Hok Hrun. induction Hrun as [|sys1 sys2 sys3 Hs _ IH]; [done|]. intros Ha.
  apply IH; [by eapply sys_step_ok|by eapply abandoned_step].
Qed.

(** A launcher whose processes outlive their dropped handle can lose one.  When the
    writer stops as an attempt stages the start of its process, the attempt ends with
    the writer's error; no later step of the formation tears the process down, reaps
    or deregisters it, and no cancellation of its pickup that was not already decided
    is ever answered. *)
Lemma writer_error_abandons_process s sys t task claim e :
  kill_on_drop = false → pickup_reachable s → identified s → sys_run (start s) sys →
  attempts sys !! t = Some (A_StageStarted task claim) → owner_key claim ∈ alive sys →
  env_checkpoint e AfterSpawn = true → env_fate e = StoppedBefore →
  ∃ sys1, attempt_step e sys t (A_StageStarted task claim) = Some (A_Done (Err (Sp_Writer WriterStopped)), sys1) ∧
    ∀ sys2, sys_run (set_attempt sys1 t (A_Done (Err (Sp_Writer WriterStopped)))) sys2 →
      owner_key claim ∈ alive sys2 ∧ running (handler sys2) !! owner_key claim = Some t ∧
      ∀ t' outcome, cancellations sys2 !! t' = Some (C_Done (Ok outcome)) →
        lf_outcome (co_fence outcome) = None → pickup_owner_key (co_fence outcome) ≠ Some (owner_key claim).
Proof.
  intros Hkeep Hr Hid Hrun Ha Hk Hcp Hf. pose proof (started_ok _ _ Hr Hid Hrun) as Hok.
  destruct (so_alive _ _ Hok _ Hk) as (t1 & a1 & Hreg & _ & _ & _).
  destruct (so_running _ _ Hok _ _ Hreg) as (_ & _ & Hown).
  assert (t = t1) as <- by (eapply Hown; [by exists (A_StageStarted task claim)|done]).
  assert (∃ sys1, attempt_step e sys t (A_StageStarted task claim) = Some (A_Done (Err (Sp_Writer WriterStopped)), sys1) ∧
    alive sys1 = alive sys ∧ running (handler sys1) = running (handler sys)) as (sys1 & Hs & Hal & Hrn).
  { simpl. unfold step_stage_started, dropped, ask, call. rewrite Hcp, Hf, Hkeep. by eexists. }
  exists sys1. split; [done|]. intros sys2 Hrun2.
  pose proof (attempt_step_ok _ _ _ _ _ _ _ _ _ _ _ _ Hok Ha Hs) as Hok1.
  destruct (abandoned_run _ _ t (owner_key claim) Hok1 Hrun2) as (Hk2 & Hr2 & _).
  { split_and!; simpl; [by rewrite Hal|by rewrite Hrn|]. rewrite lookup_insert_eq. eauto. }
  split_and!; [done|done|]. intros t' outcome Hc Ho Hkey.
  pose proof (sys_run_ok _ _ _ _ _ _ _ _ _ Hrun2 Hok1) as Hok2.
  destruct (so_cancel _ _ Hok2 _ _ Hc) as [_ Hdead]. destruct (Hdead Ho _ Hkey) as (_ & Hno & _). done.
Qed.
End safety.

(** ** Runs that meet the hypotheses

    A scheduler that executes a list of steps. *)

Section scheduler.
Context `{UuidOps Uuid} `{!Countable Uuid}.
Context `{Wire TaskDispatch} `{Wire TaskEvent} `{Wire CancelTaskRequest} `{Wire CancelTaskAck}.
Context (sha256_hex : string → string) (dispatch_error_text : DispatchError → string).
Context (owner : string) (executor_id : Uuid) (liveness_timeout : Z) (kill_on_drop : bool)
  (process_slots : nat).

Inductive Turn :=
| T_StartAttempt (t : nat)
| T_Attempt (t : nat) (e : Env)
| T_Cancel (t : nat) (payload : string)
| T_Cancellation (t : nat) (e : Env)
| T_StartSweep (t : nat) (now : Z)
| T_Sweep (t : nat) (e : Env)
| T_Dispatch (payload : string) (e : Env).

Definition take_turn (turn : Turn) (sys : Sys Uuid) : option (Sys Uuid) :=
  match turn with
  | T_StartAttempt t =>
      if bool_decide (attempts sys !! t = None ∧ in_flight sys < process_slots)
      then Some (set_attempt sys t A_Select) else None
  | T_Attempt t e =>
      a ← attempts sys !! t;
      r ← attempt_step sha256_hex dispatch_error_text owner executor_id liveness_timeout kill_on_drop e sys t a;
      Some (set_attempt r.2 t r.1)
  | T_Cancel t payload =>
      match cancellations sys !! t, cancel payload with
      | None, Ok c => Some (set_cancellation sys t c)
      | _, _ => None
      end
  | T_Cancellation t e =>
      c ← cancellations sys !! t; r ← cancellation_step sha256_hex e sys c; Some (set_cancellation r.2 t r.1)
  | T_StartSweep t now => if sweeps sys !! t is None then Some (set_sweep sys t (L_Select now)) else None
  | T_Sweep t e => l ← sweeps sys !! t; r ← sweep_step sha256_hex e sys l; Some (set_sweep r.2 t r.1)
  | T_Dispatch payload e => Some (ask sha256_hex e sys (StageDispatch payload)).2
  end.

Lemma take_turn_step turn sys sys' :
  take_turn turn sys = Some sys' →
  sys_step sha256_hex dispatch_error_text owner executor_id liveness_timeout kill_on_drop process_slots sys sys'.
Proof.
  destruct turn as [t|t e|t payload|t e|t now|t e|payload e]; simpl.
  - case_bool_decide as Hc; [|done]. intros [= <-]. by apply Sy_StartAttempt; destruct Hc.
  - destruct (attempts sys !! t) as [a|] eqn:Ha; [|done]. simpl.
    destruct (attempt_step _ _ _ _ _ _ _ _ _) as [[a' s1]|] eqn:Hs; [|done]. intros [= <-]. by eapply Sy_Attempt.
  - destruct (cancellations sys !! t) eqn:Hc; [done|]. destruct (cancel payload) as [c|] eqn:Hp; [|done].
    intros [= <-]. by eapply Sy_StartCancel.
  - destruct (cancellations sys !! t) as [c|] eqn:Hc; [|done]. simpl.
    destruct (cancellation_step _ _ _ _) as [[c' s1]|] eqn:Hs; [|done]. intros [= <-]. by eapply Sy_Cancellation.
  - destruct (sweeps sys !! t) eqn:Hc; [done|]. intros [= <-]. by apply Sy_StartSweep.
  - destruct (sweeps sys !! t) as [l|] eqn:Hc; [|done]. simpl.
    destruct (sweep_step _ _ _ _) as [[l' s1]|] eqn:Hs; [|done]. intros [= <-]. by eapply Sy_Sweep.
  - intros [= <-]. by apply Sy_Relay.
Qed.

Fixpoint take_turns (turns : list Turn) (sys : Sys Uuid) : option (Sys Uuid) :=
  match turns with
  | [] => Some sys
  | turn :: turns => sys' ← take_turn turn sys; take_turns turns sys'
  end.

Definition after_turns (turns : list Turn) (sys : Sys Uuid) : Sys Uuid := default sys (take_turns turns sys).

Lemma take_turns_run turns sys :
  match take_turns turns sys with Some _ => true | None => false end = true →
  sys_run sha256_hex dispatch_error_text owner executor_id liveness_timeout kill_on_drop process_slots sys (after_turns turns sys).
Proof.
  unfold after_turns. revert sys. induction turns as [|turn turns IH]; intros sys; simpl; [intros _; apply rtc_refl|].
  destruct (take_turn turn sys) as [sys'|] eqn:Ht; [|done]. simpl. intros Hrun.
  eapply rtc_l; [by eapply take_turn_step|]. specialize (IH sys' Hrun).
  destruct (take_turns turns sys') as [s2|]; [exact IH|done].
Qed.
End scheduler.

Definition demo_dispatch (n : nat) : TaskDispatch :=
  mkTaskDispatch (uuid_to_string (unary n)) "u" (uuid_to_string (unary 9)) "u" "ship" 0 "/p#expr" [] [] [] []
    "" None ∅ [].

(** Two dispatches and the requests that cancel them. *)
#[local] Instance demo_dispatches : Wire TaskDispatch :=
  {| encode_to_vec _ := "p1";
     wire_decode b := if decide (b = "p1") then Some (demo_dispatch 1)
                      else if decide (b = "p2") then Some (demo_dispatch 2) else None |}.
#[local] Instance demo_events : Wire TaskEvent := {| encode_to_vec _ := "event"; wire_decode _ := None |}.
#[local] Instance demo_requests : Wire CancelTaskRequest :=
  {| encode_to_vec _ := "p2";
     wire_decode b := Some (mkCancelTaskRequest (uuid_to_string (unary (if decide (b = "p1") then 1 else 2))) "u"
                              (uuid_to_string (unary 9)) "u") |}.
#[local] Instance demo_acks : Wire CancelTaskAck := {| encode_to_vec _ := "ack"; wire_decode _ := None |}.

Definition demo_env (clock : Z) : Env := mkEnv clock Served (λ _, true) true (W_Exit true) true.
Definition stopped_env (clock : Z) : Env := mkEnv clock StoppedBefore (λ _, true) true (W_Exit true) true.

Definition demo_turns (turns : list Turn) : Sys bit_uuid :=
  after_turns (λ b, b) (λ _, "poison") "executor-one" (unary 7) 100 true 1 turns (start empty_pickup_store).

Definition launch_turns : list Turn :=
  [T_Dispatch "p1" (demo_env 1); T_StartAttempt 0; T_Attempt 0 (demo_env 2); T_Attempt 0 (demo_env 3);
   T_Attempt 0 (demo_env 4); T_Attempt 0 (demo_env 5); T_Attempt 0 (demo_env 6)].
Definition cancel_turns : list Turn :=
  [T_Dispatch "p2" (demo_env 7); T_Cancel 0 "p2"; T_Cancellation 0 (demo_env 8); T_Cancellation 0 (demo_env 9);
   T_Cancellation 0 (demo_env 10)].
Definition exit_turns : list Turn :=
  [T_Attempt 0 (demo_env 11); T_Attempt 0 (demo_env 12); T_Attempt 0 (demo_env 13); T_Attempt 0 (demo_env 14);
   T_Attempt 0 (demo_env 15)].

Definition demo_run : Sys bit_uuid → Sys bit_uuid → Prop :=
  sys_run (λ b, b) (λ _, "poison") "executor-one" (unary 7) 100 true 1.

Lemma empty_identified : identified (Uuid := bit_uuid) empty_pickup_store.
Proof. by intros i f Hf. Qed.

Lemma empty_reachable : pickup_reachable empty_pickup_store.
Proof. apply rtc_refl. Qed.

Lemma launch_run : demo_run (start empty_pickup_store) (demo_turns launch_turns).
Proof. apply take_turns_run. vm_compute. reflexivity. Qed.

Lemma cancel_run : demo_run (start empty_pickup_store) (demo_turns (launch_turns ++ cancel_turns)).
Proof. apply take_turns_run. vm_compute. reflexivity. Qed.

Lemma exit_run : demo_run (start empty_pickup_store) (demo_turns (launch_turns ++ exit_turns)).
Proof. apply take_turns_run. vm_compute. reflexivity. Qed.

Definition demo_key : PickupOwnerKey := mkPickupOwnerKey "task-dispatch-v1:p1" 1 "executor-one".

Lemma launched_once_witness :
  launches (demo_turns launch_turns) = [demo_key] ∧ NoDup (ok_dispatch_key <$> launches (demo_turns launch_turns)).
Proof.
  split; [vm_compute; reflexivity|].
  apply (proj1 (launched_once _ _ _ _ _ _ _ empty_pickup_store _ empty_reachable empty_identified launch_run)).
Defined.

Lemma processes_registered_witness :
  ∃ t a, running (handler (demo_turns launch_turns)) !! demo_key = Some t ∧
    attempts (demo_turns launch_turns) !! t = Some a ∧
    ((∃ c, live a = Some c ∧ owner_key c = demo_key) ∨ true = false ∧ ∃ err, a = A_Done (Err err)) ∧
    t ∈ tokens (stop_all (demo_turns launch_turns)).
Proof.
  refine (proj2 (processes_registered _ _ _ _ _ _ _ empty_pickup_store _ demo_key empty_reachable empty_identified
                   launch_run _)).
  apply (bool_decide_unpack _). vm_compute. reflexivity.
Defined.

(** The cancelled task is not the one whose process is alive. *)
Lemma answered_cancellation_final_witness :
  ∃ outcome d, cancellations (demo_turns (launch_turns ++ cancel_turns)) !! 0 = Some (C_Done (Ok outcome)) ∧
    d_identity d ≠ Some (uuid_to_string (cr_task_instance_id (lf_request (co_fence outcome))),
                         uuid_to_string (cr_workflow_instance_id (lf_request (co_fence outcome)))).
Proof.
  eexists _, _. split; [vm_compute; reflexivity|].
  refine (answered_cancellation_final _ _ _ _ _ _ _ empty_pickup_store _ _ 0 _ demo_key _ empty_reachable empty_identified
            cancel_run _ _ (rtc_refl _ _) _ _).
  - vm_compute. reflexivity.
  - reflexivity.
  - apply (bool_decide_unpack _). vm_compute. reflexivity.
  - vm_compute. reflexivity.
Defined.

Lemma slots_bound_attempts_witness : in_flight (demo_turns launch_turns) ≤ 1.
Proof. apply (slots_bound_attempts _ _ _ _ _ _ _ empty_pickup_store _ launch_run). Defined.

Lemma attempt_answers_recorded_witness :
  ∃ claim, attempts (demo_turns (launch_turns ++ exit_turns)) !! 0 = Some (A_Done (Ok (Po_Launched claim true Te_Won))) ∧
    reported (store (demo_turns (launch_turns ++ exit_turns))) claim Lo_ProcessExitedSuccess Te_Won.
Proof.
  eexists. split; [vm_compute; reflexivity|].
  refine (attempt_answers_recorded _ _ _ _ _ _ _ empty_pickup_store _ 0 (A_Done (Ok (Po_Launched _ true Te_Won)))
            empty_reachable empty_identified exit_run _).
  vm_compute. reflexivity.
Defined.

(** A guardian of the Lite launcher is lost that way. *)
Definition lite_turns (turns : list Turn) : Sys bit_uuid :=
  after_turns (λ b, b) (λ _, "poison") "executor-one" (unary 7) 100 false 1 turns (start empty_pickup_store).

Lemma lite_guardian_lost :
  ∃ task claim sys1,
    attempts (lite_turns launch_turns) !! 0 = Some (A_StageStarted task claim) ∧
    ∀ sys2, sys_run (λ b, b) (λ _, "poison") "executor-one" (unary 7) 100 false 1
              (set_attempt sys1 0 (A_Done (Err (Sp_Writer WriterStopped)))) sys2 → owner_key claim ∈ alive sys2.
Proof.
  assert (∃ task claim, attempts (lite_turns launch_turns) !! 0 = Some (A_StageStarted task claim) ∧
            owner_key claim = demo_key) as (task & claim & Ha & Hk)
    by (eexists _, _; split; [vm_compute; reflexivity|reflexivity]).
  destruct (writer_error_abandons_process (λ b, b) (λ _, "poison") "executor-one" (unary 7) 100 false 1
              empty_pickup_store (lite_turns launch_turns) 0 task claim (stopped_env 7))
    as (sys1 & _ & Hall); [done|exact empty_reachable|exact empty_identified| |exact Ha| |reflexivity|reflexivity|].
  - apply take_turns_run. vm_compute. reflexivity.
  - rewrite Hk. apply (bool_decide_unpack _). vm_compute. reflexivity.
  - exists task, claim, sys1. split; [exact Ha|]. intros sys2 Hrun. apply (Hall sys2 Hrun).
Qed.

(** A process whose liveness expired may still run.  Cancelling its task is answered
    from the expired outcome, without asking the task handler: the acknowledgement
    says that no such task runs while the process is alive. *)
Definition expire_turns : list Turn :=
  [T_Attempt 0 (demo_env 11); T_Attempt 0 (demo_env 12); T_StartSweep 0 200; T_Sweep 0 (demo_env 200);
   T_Sweep 0 (demo_env 200); T_Cancel 0 "p1"; T_Cancellation 0 (demo_env 201); T_Cancellation 0 (demo_env 202);
   T_Cancellation 0 (demo_env 203)].

Lemma expired_cancellation_leaves_process :
  ∃ sys outcome, demo_run (start empty_pickup_store) sys ∧
    cancellations sys !! 0 = Some (C_Done (Ok outcome)) ∧
    kill_outcome (co_reconciliation outcome) = Kill_NoSuchTask ∧ demo_key ∈ alive sys ∧
    running (handler sys) !! demo_key = Some 0.
Proof.
  exists (demo_turns (launch_turns ++ expire_turns)). eexists. split_and!.
  - apply take_turns_run. vm_compute. reflexivity.
  - vm_compute. reflexivity.
  - reflexivity.
  - apply (bool_decide_unpack _). vm_compute. reflexivity.
  - vm_compute. reflexivity.
Qed.
