(* ===== verification/Forwarding.v ===== *)
(** * Events and acknowledgements reach the relay

    The forwarding loops of [local_task_pickup_writer.rs] over the pickup tables, with
    any other requests and any stop of the writer in between: what is marked as
    forwarded has been sent, and what waits is sent as soon as the relay takes it. *)

From S2P Require Import Prelude Workflow Uuid TaskWire TaskPickup TaskPickupFacts PickupLifecycle LocalWriter PickupExecutorFacts.

(** ** Marks *)

(** What a table has marked as forwarded. *)
Definition marked_event (s : PickupStore) (event : string) : Prop :=
  ∃ ke e, outbox s !! ke = Some e ∧ e_event e = event ∧ is_Some (e_forwarded_at e).
Definition marked_ack (s : PickupStore) (ack : string) : Prop :=
  ∃ i a, acks s !! i = Some a ∧ a_acknowledgement a = ack ∧ is_Some (a_forwarded_at a).

(** A transaction that marks nothing. *)
Definition unmarking (s s' : PickupStore) : Prop :=
  (∀ event, marked_event s' event → marked_event s event) ∧ (∀ ack, marked_ack s' ack → marked_ack s ack).

Lemma unmarking_same s s' : outbox s' = outbox s → acks s' = acks s → unmarking s s'.
Proof. intros Ho Ha. unfold unmarking, marked_event, marked_ack. by rewrite Ho, Ha. Qed.

Lemma unmarking_event s s' p kind event now :
  outbox s' = <[(p, kind) := mkEventRow event now None]> (outbox s) → acks s' = acks s → unmarking s s'.
Proof.
  intros Ho Ha. split; [|unfold marked_ack; by rewrite Ha].
  intros ev (ke & e & He & Hev & Hm). rewrite Ho in He. apply lookup_insert_Some in He as [[<- <-]|[_ He]];
    [by destruct Hm|]. by exists ke, e.
Qed.

Section forwarding.
Context `{UuidOps Uuid} `{!Countable Uuid} `{Wire TaskDispatch}.
Context (sha256_hex : string → string).

(** Requests other than the two that complete a forwarding. *)
Definition marks {R} (req : Request Uuid R) : bool :=
  match req with MarkTaskEventForwarded _ _ | MarkCancellationAckForwarded _ _ => true | _ => false end.

Lemma transact_unmarking {A} w (r : result (A * PickupStore) PickupError) :
  (∀ a s, r = Ok (a, s) → unmarking (repository w) s) → unmarking (repository w) (repository (transact w r).2).
Proof. intros Hr. destruct r as [[a s]|e]; simpl; [by eapply Hr|by apply unmarking_same]. Qed.

Lemma claim_unmarking s input o s' : claim_task_pickup s input = Ok (o, s') → unmarking s s'.
Proof.
  unfold claim_task_pickup. destruct (validate_claim_input input); [|done].
  destruct (dispatches s !! _); [|intros [= _ <-]; by apply unmarking_same].
  case_bool_decide; [|intros [= _ <-]; by apply unmarking_same].
  destruct (checked_succ _); [|done]. simpl. destruct (fenced _ _ _ _); [intros [= _ <-]; by apply unmarking_same|].
  destruct (insert_event _ _ _ _ _) as [s2|] eqn:Hi; [|done]. apply insert_event_Ok in Hi as [_ ->].
  intros [= _ <-]. by eapply unmarking_event.
Qed.

Lemma elect_unmarking s claim o event now r s' :
  elect_task_pickup_terminal s claim o event now = Ok (r, s') → unmarking s s'.
Proof.
  unfold elect_task_pickup_terminal. destruct (validate_claim_identity claim); [|done].
  destruct (event_kind o) as [kind|]; [|done]. simpl.
  destruct (outcomes s !! _) as [[]|]; [intros [= _ <-]; by apply unmarking_same|].
  destruct (match dispatches s !! _ with Some _ => _ | None => _ end); [|intros [= _ <-]; by apply unmarking_same].
  destruct (insert_event _ _ _ _ _) as [s2|] eqn:Hi; [|done]. apply insert_event_Ok in Hi as [_ ->].
  intros [= _ <-]. by eapply unmarking_event.
Qed.

Lemma settle_unmarking s fence r ack now o s' :
  settle_task_cancellation s fence r ack now = Ok (o, s') → unmarking s s'.
Proof.
  intros Hs. pose proof (settlement_cases _ _ _ _ _ _ _ Hs) as (f & _ & _ & Ha & _).
  assert (outbox s' = outbox s) as Ho.
  { revert Hs. unfold settle_task_cancellation, insert_ack. repeat case_match; intros; by simplify_eq. }
  split; [unfold marked_event; by rewrite Ho|].
  intros k (i & a & Hi & Hk & Hm). rewrite Ha in Hi. apply lookup_insert_Some in Hi as [[<- <-]|[_ Hi]];
    [|by exists i, a].
  destruct (acks s !! tf_identity fence) as [a|] eqn:Hold; simpl in *; [by exists (tf_identity fence), a|by destruct Hm].
Qed.

#[local] Arguments transact : simpl never.

(** Transactions that insert neither an event nor an acknowledgement. *)
Ltac plain_unmarking :=
  apply transact_unmarking; intros ? ?; repeat case_match; intros; simplify_eq; by apply unmarking_same.

Lemma handle_unmarking {R} clock (req : Request Uuid R) w :
  marks req = false → unmarking (repository w) (repository (handle sha256_hex clock req w).2).
Proof.
  intros Hm. destruct req; simpl in *; try done; try (by apply unmarking_same).
  - destruct (transact _ _) as [x w'] eqn:Ht. simpl. rewrite <-(f_equal snd Ht : _ = w').
    apply transact_unmarking. intros b s. unfold stage_task_dispatch.
    repeat case_match; intros; simplify_eq; by apply unmarking_same.
  - unfold reject_task_dispatch. plain_unmarking.
  - unfold run_claim. destruct (claim_task_pickup _ _) as [[o s]|err] eqn:Hc; [|by apply unmarking_same].
    apply claim_unmarking in Hc. by destruct (claim_acknowledgement w).
  - destruct (fail_initial_arm w); [by apply unmarking_same|].
    unfold arm_task_pickup_liveness, update_claimed. plain_unmarking.
  - apply transact_unmarking. intros b s. unfold stage_task_started.
    repeat case_match; intros; simplify_eq; first [by apply unmarking_same|by eapply unmarking_event].
  - unfold renew_task_pickup_liveness, update_claimed. plain_unmarking.
  - unfold register_task_pickup_liveness_failure, update_claimed. plain_unmarking.
  - destruct (transact _ _) as [x w'] eqn:Ht. simpl. rewrite <-(f_equal snd Ht : _ = w').
    apply transact_unmarking. intros b s. apply elect_unmarking.
  - destruct (transact _ _) as [x w'] eqn:Ht. simpl. rewrite <-(f_equal snd Ht : _ = w').
    apply transact_unmarking. intros b s. unfold commit_task_cancellation_fence.
    repeat case_match; intros; simplify_eq; by apply unmarking_same.
  - unfold mark_task_cancellation_owner_notified. plain_unmarking.
  - destruct (transact _ _) as [x w'] eqn:Ht. simpl. rewrite <-(f_equal snd Ht : _ = w').
    apply transact_unmarking. intros b s. apply settle_unmarking.
Qed.

Lemma call_unmarking {R} fate clock (req : Request Uuid R) w :
  marks req = false → unmarking (repository w) (repository (call sha256_hex fate clock req w).2).
Proof. destruct fate; simpl; auto using handle_unmarking. intros _. by apply unmarking_same. Qed.

(** ** Runs *)

Inductive forward_step : LocalTaskPickupWriter * RelayChannel → LocalTaskPickupWriter * RelayChannel → Prop :=
| Fs_Call R (req : Request Uuid R) fate clock w relay :
    marks req = false → forward_step (w, relay) ((call sha256_hex fate clock req w).2, relay)
| Fs_Event fates clock w relay r w' relay' :
    forward_next_task_event (Uuid := Uuid) sha256_hex fates clock w relay = (r, w', relay') →
    forward_step (w, relay) (w', relay')
| Fs_Ack fates clock w relay r w' relay' :
    forward_next_cancellation_ack (Uuid := Uuid) sha256_hex fates clock w relay = (r, w', relay') →
    forward_step (w, relay) (w', relay')
| Fs_Relay w relay b : forward_step (w, relay) (w, mkRelayChannel b (relay_sent relay)).

(** Whatever is marked as forwarded has been sent. *)
Definition delivered (st : LocalTaskPickupWriter * RelayChannel) : Prop :=
  (∀ event, marked_event (repository st.1) event → (Entity_TaskEvent, event) ∈ relay_sent st.2) ∧
  (∀ ack, marked_ack (repository st.1) ack → (Entity_CancelTaskAck, ack) ∈ relay_sent st.2).

Lemma delivered_unmarking w w' relay relay' :
  delivered (w, relay) → unmarking (repository w) (repository w') →
  (∀ m, m ∈ relay_sent relay → m ∈ relay_sent relay') → delivered (w', relay').
Proof. intros [He Ha] [Ue Ua] Hs. split; simpl in *; eauto. Qed.

Lemma mark_event_marks s event now ev :
  marked_event (mark_task_event_forwarded s event now).2 ev → marked_event s ev ∨ ev = pe_event event.
Proof.
  unfold mark_task_event_forwarded. destruct (update_row _ _ _ _) as [t|] eqn:Hu; [|by left].
  apply update_row_Some in Hu as (e & He & [Hev%bool_decide_eq_true _]%andb_true_iff & ->).
  intros (ke & e' & Hk & <- & Hm). simpl in Hk. apply lookup_insert_Some in Hk as [[<- <-]|[_ Hk]];
    [by right|left; by exists ke, e'].
Qed.

Lemma mark_ack_marks s i ack now k :
  marked_ack (mark_task_cancellation_ack_forwarded s i ack now).2 k → marked_ack s k ∨ k = ack.
Proof.
  unfold mark_task_cancellation_ack_forwarded. destruct (update_row _ _ _ _) as [t|] eqn:Hu; [|by left].
  apply update_row_Some in Hu as (a & Ha & [Hack%bool_decide_eq_true _]%andb_true_iff & ->).
  intros (j & a' & Hj & <- & Hm). simpl in Hj. apply lookup_insert_Some in Hj as [[<- <-]|[_ Hj]];
    [by right|left; by exists j, a'].
Qed.

Lemma transact_store {A} w (p : A * PickupStore) : repository (transact w (Ok p)).2 = p.2.
Proof. by destruct p. Qed.

Lemma mark_call_event fate clock event now w :
  let s' := repository (call (Uuid := Uuid) sha256_hex fate clock (MarkTaskEventForwarded event now) w).2 in
  (∀ ev, marked_event s' ev → marked_event (repository w) ev ∨ ev = pe_event event) ∧
  (∀ k, marked_ack s' k → marked_ack (repository w) k).
Proof.
  assert (∀ k, marked_ack (mark_task_event_forwarded (repository w) event now).2 k → marked_ack (repository w) k) as Ha.
  { unfold marked_ack, mark_task_event_forwarded. by destruct (update_row _ _ _ _). }
  destruct fate; simpl; rewrite ?transact_store; split; try done; try (intros ?; apply mark_event_marks); auto.
Qed.

Lemma mark_call_ack fate clock ack now w :
  let s' := repository (call (Uuid := Uuid) sha256_hex fate clock (MarkCancellationAckForwarded ack now) w).2 in
  (∀ ev, marked_event s' ev → marked_event (repository w) ev) ∧
  (∀ k, marked_ack s' k → marked_ack (repository w) k ∨ k = ack.2).
Proof.
  assert (∀ ev, marked_event (mark_task_cancellation_ack_forwarded (repository w) ack.1 ack.2 now).2 ev →
            marked_event (repository w) ev) as He.
  { unfold marked_event, mark_task_cancellation_ack_forwarded. by destruct (update_row _ _ _ _). }
  destruct fate; simpl; rewrite ?transact_store; split; try done; try (intros ?; apply mark_ack_marks); auto.
Qed.

Lemma forward_step_delivered st st' : forward_step st st' → delivered st → delivered st'.
Proof.
  destruct 1 as [R req fate clock w relay Hm|fates clock w relay r w' relay' Hf|fates clock w relay r w' relay' Hf
    |w relay b]; intros Hd.
  - eapply delivered_unmarking; [done|by apply call_unmarking|done].
  - unfold forward_next_task_event, relay_send in Hf.
    destruct (call sha256_hex fates.1 clock SelectPendingTaskEvent w) as [answer w1] eqn:Hc.
    assert (delivered (w1, relay)) as Hd1.
    { rewrite <-(f_equal snd Hc : _ = w1). eapply delivered_unmarking; [done|by apply call_unmarking|done]. }
    destruct answer as [[event|]|err]; [|by simplify_eq..]. destruct (relay_open relay); [|by simplify_eq].
    pose proof (mark_call_event fates.2 clock event clock w1) as [Me Ma].
    destruct (call sha256_hex fates.2 clock (MarkTaskEventForwarded event clock) w1) as [done w2]. simplify_eq/=.
    destruct Hd1 as [He Ha]. split; simpl in *; intros x Hx; apply elem_of_app.
    + apply Me in Hx as [Hx| ->]; [left; auto|right; by left].
    + left. auto.
  - unfold forward_next_cancellation_ack, relay_send in Hf.
    destruct (call sha256_hex fates.1 clock SelectPendingCancellationAck w) as [answer w1] eqn:Hc.
    assert (delivered (w1, relay)) as Hd1.
    { rewrite <-(f_equal snd Hc : _ = w1). eapply delivered_unmarking; [done|by apply call_unmarking|done]. }
    destruct answer as [[ack|]|err]; [|by simplify_eq..]. destruct (relay_open relay); [|by simplify_eq].
    pose proof (mark_call_ack fates.2 clock ack clock w1) as [Me Ma].
    destruct (call sha256_hex fates.2 clock (MarkCancellationAckForwarded ack clock) w1) as [done w2]. simplify_eq/=.
    destruct Hd1 as [He Ha]. split; simpl in *; intros x Hx; apply elem_of_app.
    + left. auto.
    + apply Ma in Hx as [Hx| ->]; [left; auto|right; by left].
  - done.
Qed.

(** Nothing is marked as forwarded that was not sent.  From tables whose marks are
    all of messages the relay has, however the writer's requests and its stops
    interleave with the two forwarding loops, an event or an acknowledgement that is
    marked as forwarded is among the messages sent: none is lost. *)
Theorem forwarded_were_sent st st' : delivered st → rtc forward_step st st' → delivered st'.
Proof. intros Hd Hrun. induction Hrun; eauto using forward_step_delivered. Qed.

(** ** Progress *)

Definition pending_events (s : PickupStore) : gset ((string * Z) * EventKind) :=
  dom (filter (λ ke : ((string * Z) * EventKind) * EventRow, unforwarded ke.2 = true) (outbox s)).

Lemma elem_of_pending s ke :
  ke ∈ pending_events s ↔ ∃ e, outbox s !! ke = Some e ∧ unforwarded e = true.
Proof.
  unfold pending_events. rewrite elem_of_dom. split.
  - intros [e [He Hu]%map_lookup_filter_Some]. eauto.
  - intros (e & He & Hu). exists e. by apply map_lookup_filter_Some.
Qed.

Lemma select_event_inv s event :
  select_pending_task_event s = Some event →
  ∃ e, outbox s !! (pe_pickup event, pe_kind event) = Some e ∧ e_event e = pe_event event ∧ unforwarded e = true.
Proof.
  unfold select_pending_task_event. destruct (select_rows _ _ _) as [|[[p kind] e] l] eqn:Hs; [done|].
  simpl. intros [= <-]. simpl.
  assert (((p, kind), e) ∈ select_rows leq_event (λ ke, unforwarded ke.2) (outbox s)) as Hin by (rewrite Hs; left).
  apply elem_of_select_rows in Hin as [He Hu]. eauto.
Qed.

Lemma select_event_none s : select_pending_task_event s = None → pending_events s = ∅.
Proof.
  unfold select_pending_task_event. intros Hn%fmap_None. rewrite head_select_None in Hn.
  apply elem_of_equiv_empty_L. intros ke (e & He & Hu)%elem_of_pending. pose proof (Hn _ _ He) as Hf. simpl in Hf. congruence.
Qed.

(** What waits is forwarded.  With the relay there and the writer up, a forwarding
    sends exactly the event it selects and marks it, so that one event fewer waits: as
    many rounds as events wait forward them all.  It reports that there was nothing
    to do only when no event waits. *)
Theorem forwarding_progresses clock w relay :
  relay_open relay = true →
  match select_pending_task_event (repository w) with
  | Some event => ∃ w',
      forward_next_task_event (Uuid := Uuid) sha256_hex (Served, Served) clock w relay =
        (Ok true, w', mkRelayChannel true (relay_sent relay ++ [(Entity_TaskEvent, pe_event event)])) ∧
      pending_events (repository w') = pending_events (repository w) ∖ {[ (pe_pickup event, pe_kind event) ]} ∧
      size (pending_events (repository w')) < size (pending_events (repository w))
  | None =>
      forward_next_task_event (Uuid := Uuid) sha256_hex (Served, Served) clock w relay = (Ok false, w, relay) ∧
      pending_events (repository w) = ∅
  end.
Proof.
  intros Hopen. unfold forward_next_task_event, relay_send. simpl. rewrite Hopen.
  destruct (select_pending_task_event (repository w)) as [event|] eqn:Hs; [|split; [done|by apply select_event_none]].
  destruct (select_event_inv _ _ Hs) as (e & He & Hev & Hu).
  unfold transact, mark_task_event_forwarded, update_row. rewrite He, Hev, Hu, bool_decide_eq_true_2 by done. simpl.
  eexists. split; [done|]. simpl.
  assert (pending_events (set_outbox (repository w)
            (<[(pe_pickup event, pe_kind event) := mkEventRow (e_event e) (e_staged_at e) (Some clock)]>
               (outbox (repository w)))) =
          pending_events (repository w) ∖ {[ (pe_pickup event, pe_kind event) ]}) as Heq.
  { apply set_eq. intros ke. rewrite elem_of_difference, elem_of_singleton, !elem_of_pending. simpl. split.
    - intros (e' & [[<- <-]|[Hne He']]%lookup_insert_Some & Hu'); [done|]. eauto.
    - intros [(e' & He' & Hu') Hne]. exists e'. by rewrite lookup_insert_ne. }
  rewrite Hev in Heq. rewrite Heq. split; [done|]. rewrite size_difference.
  - rewrite size_singleton. assert (size (pending_events (repository w)) ≠ 0); [|lia].
    rewrite size_non_empty_iff. assert ((pe_pickup event, pe_kind event) ∈ pending_events (repository w)); [|set_solver].
    apply elem_of_pending. eauto.
  - apply singleton_subseteq_l, elem_of_pending. eauto.
Qed.
End forwarding.

(** ** Runs that meet the hypotheses *)

#[local] Instance no_dispatch : Wire TaskDispatch := {| encode_to_vec _ := ""; wire_decode _ := None |}.

Lemma forwarded_were_sent_witness :
  delivered (new_writer s_claimed, mkRelayChannel true []) ∧
  delivered ((forward_next_task_event (Uuid := bit_uuid) (λ b, b) (Served, Served) 12 (new_writer s_claimed)
                (mkRelayChannel true [])).1.2, mkRelayChannel true [(Entity_TaskEvent, "assigned")]).
Proof.
  assert (delivered (new_writer s_claimed, mkRelayChannel true [])) as Hd.
  { split; simpl.
    - intros event (ke & e & He & _ & Hm). exfalso. revert He Hm.
      change (outbox s_claimed) with ({[ (("d1", 1%Z), E_Assigned) := mkEventRow "assigned" 10 None ]} : gmap _ EventRow).
      rewrite lookup_singleton_Some. intros [<- <-] [? ?]. discriminate.
    - intros ack (i & a & Hi & _). exfalso. revert Hi. change (acks s_claimed) with (∅ : gmap string AckRow). done. }
  split; [exact Hd|].
  apply (forwarded_were_sent (Uuid := bit_uuid) (λ b, b) (new_writer s_claimed, mkRelayChannel true []) _ Hd).
  eapply rtc_once, (Fs_Event _ (Served, Served) 12%Z _ _ (Ok true)). vm_compute. reflexivity.
Defined.

Lemma forwarding_progresses_witness :
  match select_pending_task_event s_claimed with
  | Some event => pe_event event = "assigned" ∧ ∃ w',
      forward_next_task_event (Uuid := bit_uuid) (λ b, b) (Served, Served) 12 (new_writer s_claimed) (mkRelayChannel true []) =
        (Ok true, w', mkRelayChannel true [(Entity_TaskEvent, pe_event event)])
  | None => False
  end.
Proof.
  pose proof (forwarding_progresses (Uuid := bit_uuid) (λ b, b) 12 (new_writer s_claimed) (mkRelayChannel true []) eq_refl) as Hp.
  simpl in Hp. destruct (select_pending_task_event s_claimed) as [event|] eqn:Hs.
  - split; [revert Hs; vm_compute; by intros [= <-]|]. destruct Hp as (w' & Hw & _). exists w'. exact Hw.
  - revert Hs. vm_compute. discriminate.
Defined.
