(* ===== verification/PatchStore.v ===== *)
(** * The patch lifecycle store

    The tables [workflow_patches], [workflow_patch_task_builds] and [task_specs]
    as [migrations/src/patch_repository.rs] reads and writes them.  A transaction
    is one atomic step on the tables: the SQLite writer is exclusive, and the
    PostgreSQL twin takes an advisory lock per instance or a row lock.  A failing
    transaction is rolled back, which is the absence of a new state.  The clock and the random lease tokens are arguments. *)

From S2P Require Import Prelude Workflow Uuid Leases PatchDocument.

(** ** Rows *)

Inductive PatchProvenance := SelfEmitted | External.

Inductive PatchLifecycleStatus :=
| Validating | Building | Submitted | Applied | Rejected | BuildFailed.

#[global] Instance status_eq_dec : EqDecision PatchLifecycleStatus.
Proof. solve_decision. Defined.

Definition status_as_str (s : PatchLifecycleStatus) : string :=
  match s with
  | Validating => "Validating"
  | Building => "Building"
  | Submitted => "Submitted"
  | Applied => "Applied"
  | Rejected => "Rejected"
  | BuildFailed => "BuildFailed"
  end.

Definition is_terminal (s : PatchLifecycleStatus) : bool :=
  match s with Applied | Rejected | BuildFailed => true | _ => false end.

(** [status IN ('Validating', 'Submitted')] *)
Definition drivable (s : PatchLifecycleStatus) : bool :=
  match s with Validating | Submitted => true | _ => false end.

Inductive PatchTaskBuildResult := TaskSuccess | TaskFailure (error : string).

Definition task_build_values (result : PatchTaskBuildResult) : BuildStatus * option string :=
  match result with
  | TaskSuccess => (build_success, None)
  | TaskFailure error => (build_failure, Some error)
  end.

Definition REJECT_IN_PROGRESS : string := "rejected: patch already in progress for this instance".
Definition MAX_PATCH_BUILD_LEASE_BATCH : nat := 64.
Definition MAX_PATCH_LIFECYCLE_LEASE_BATCH : nat := 64.

Record PatchRow (Uuid : Type) := mkPatchRow {
  pr_patch_id : Uuid;
  pr_instance : Uuid;
  pr_status : PatchLifecycleStatus;
  pr_ops : list AddressedPatchOp;
  pr_reason : option string;
  pr_outcome : option string;
  pr_applied_version : option Z;
  pr_provenance : PatchProvenance;
  pr_source : PatchSource;
  pr_operation : option PatchOperation;
  pr_updated_at : Z;
  pr_lease : option (Lease Uuid)
}.
Arguments mkPatchRow {Uuid}. Arguments pr_patch_id {Uuid}. Arguments pr_instance {Uuid}.
Arguments pr_status {Uuid}. Arguments pr_ops {Uuid}. Arguments pr_reason {Uuid}.
Arguments pr_outcome {Uuid}. Arguments pr_applied_version {Uuid}. Arguments pr_provenance {Uuid}.
Arguments pr_source {Uuid}. Arguments pr_operation {Uuid}. Arguments pr_updated_at {Uuid}.
Arguments pr_lease {Uuid}.

(** ** Outcomes *)

Inductive PatchIngressOutcome (Uuid : Type) :=
| IngressAccepted (status : PatchLifecycleStatus)
| IngressRejectedInProgress (reason : string)
| IngressExisting (row : PatchRow Uuid).
Arguments IngressAccepted {Uuid}. Arguments IngressRejectedInProgress {Uuid}.
Arguments IngressExisting {Uuid}.

Inductive PatchBuildSettlementOutcome (Uuid : Type) :=
| AwaitingTasks
| BuildSubmitted (row : PatchRow Uuid)
| BuildHasFailed
| BuildAlreadySettled (status : PatchLifecycleStatus)
| TaskAlreadySettled
| BuildAbsent.
Arguments AwaitingTasks {Uuid}. Arguments BuildSubmitted {Uuid}. Arguments BuildHasFailed {Uuid}.
Arguments BuildAlreadySettled {Uuid}. Arguments TaskAlreadySettled {Uuid}.
Arguments BuildAbsent {Uuid}.

Inductive LeasedPatchBuildSettlementOutcome (Uuid : Type) :=
| BuildSettled (outcome : PatchBuildSettlementOutcome Uuid)
| BuildLeaseLost.
Arguments BuildSettled {Uuid}. Arguments BuildLeaseLost {Uuid}.

Inductive PatchSubmissionOutcome :=
| NowSubmitted
| SubmissionAlreadySettled (status : PatchLifecycleStatus)
| SubmissionAbsent.

Inductive LeasedPatchSubmissionOutcome :=
| SubmissionSettled (outcome : PatchSubmissionOutcome)
| SubmissionLeaseLost.

Inductive PatchTerminalOutcome := OutcomeApplied (version : Z) | OutcomeRejected (reason : string).

Inductive PatchOutcomeCorrelation :=
| CorrelationWon
| CorrelationAlreadySettled (status : PatchLifecycleStatus)
| CorrelationAbsent
| CorrelationConflicted.

(** The errors a transaction ends in, each with a rollback. *)
Inductive StoreError :=
| UniqueViolation
| MissingBuildTask
| NotLeaseable
| InvalidLeaseRequest (e : LeaseRequestError)
| UnexpectedLeaseLoss.

Section store.
Context `{UuidOps Uuid} `{!Countable Uuid}.
Context (uuid_leb : Uuid → Uuid → bool) (fresh_token : nat → Uuid).

Record Store := mkStore {
  patches : gmap Uuid (PatchRow Uuid);
  builds : gmap (Uuid * Uuid) (BuildRow Uuid);
  task_specs : gmap Uuid (list RoutingVarDecl)
}.

Definition empty_store : Store := mkStore ∅ ∅ ∅.

(** ** Row updates *)

Definition with_status (st : PatchLifecycleStatus) (now : Z) (r : PatchRow Uuid) : PatchRow Uuid :=
  mkPatchRow (pr_patch_id r) (pr_instance r) st (pr_ops r) (pr_reason r) (pr_outcome r)
    (pr_applied_version r) (pr_provenance r) (pr_source r) (pr_operation r) now (pr_lease r).

Definition with_outcome (outcome : string) (r : PatchRow Uuid) : PatchRow Uuid :=
  mkPatchRow (pr_patch_id r) (pr_instance r) (pr_status r) (pr_ops r) (pr_reason r) (Some outcome)
    (pr_applied_version r) (pr_provenance r) (pr_source r) (pr_operation r) (pr_updated_at r)
    (pr_lease r).

Definition with_version (version : Z) (r : PatchRow Uuid) : PatchRow Uuid :=
  mkPatchRow (pr_patch_id r) (pr_instance r) (pr_status r) (pr_ops r) (pr_reason r) (pr_outcome r)
    (Some version) (pr_provenance r) (pr_source r) (pr_operation r) (pr_updated_at r) (pr_lease r).

Definition with_lease (lease : option (Lease Uuid)) (r : PatchRow Uuid) : PatchRow Uuid :=
  mkPatchRow (pr_patch_id r) (pr_instance r) (pr_status r) (pr_ops r) (pr_reason r) (pr_outcome r)
    (pr_applied_version r) (pr_provenance r) (pr_source r) (pr_operation r) (pr_updated_at r) lease.

(** [UPDATE .. WHERE patch_key = ..]: the new tables when one row matched. *)
Definition update_patch (s : Store) (key : Uuid) (guard : PatchRow Uuid → bool)
    (f : PatchRow Uuid → PatchRow Uuid) : option Store :=
  match patches s !! key with
  | Some r => if guard r then Some (mkStore (<[key := f r]> (patches s)) (builds s) (task_specs s))
              else None
  | None => None
  end.

Definition update_build (s : Store) (key task : Uuid) (guard : BuildRow Uuid → bool)
    (f : BuildRow Uuid → BuildRow Uuid) : option Store :=
  match builds s !! (key, task) with
  | Some b => if guard b
              then Some (mkStore (patches s) (<[(key, task) := f b]> (builds s)) (task_specs s))
              else None
  | None => None
  end.

(** ** Ingress *)

Record PatchIngressInput := mkPatchIngressInput {
  in_patch_key : Uuid;
  in_patch_id : Uuid;
  in_instance : Uuid;
  in_ops : list AddressedPatchOp;
  in_operation : option PatchOperation;
  in_reason : option string;
  in_provenance : PatchProvenance;
  in_source : PatchSource;
  in_tasks : list (Uuid * list RoutingVarDecl)
}.

Definition unsettled_on (instance : Uuid) (r : PatchRow Uuid) : bool :=
  bool_decide (pr_instance r = instance) && negb (is_terminal (pr_status r)).

Definition sibling_unsettled (s : Store) (instance : Uuid) : bool :=
  existsb (λ kr, unsettled_on instance kr.2) (map_to_list (patches s)).

Definition ingress_status (sibling tasks_empty : bool) : PatchLifecycleStatus :=
  if sibling then Rejected else if tasks_empty then Validating else Building.

Definition inserted_outcome (sibling : bool) (status : PatchLifecycleStatus)
    : PatchIngressOutcome Uuid :=
  if sibling then IngressRejectedInProgress REJECT_IN_PROGRESS else IngressAccepted status.

(** The two inserts per task; the first one is refused on a repeated key. *)
Fixpoint insert_task_builds (s : Store) (key : Uuid) (now : Z)
    (tasks : list (Uuid * list RoutingVarDecl)) : result Store StoreError :=
  match tasks with
  | [] => Ok s
  | (task, vars) :: rest =>
      if builds s !! (key, task) is Some _ then Err UniqueViolation
      else insert_task_builds
             (mkStore (patches s)
                (<[(key, task) := mkBuildRow build_pending None now None None]> (builds s))
                (if task_specs s !! task is Some _ then task_specs s
                 else <[task := vars]> (task_specs s))) key now rest
  end.

Definition ingress_patch (s : Store) (now : Z) (input : PatchIngressInput)
    : result (PatchIngressOutcome Uuid * Store) StoreError :=
  match patches s !! in_patch_key input with
  | Some row => Ok (IngressExisting row, s)
  | None =>
      let sibling := sibling_unsettled s (in_instance input) in
      let status := ingress_status sibling (bool_decide (length (in_tasks input) = 0)) in
      let outcome := if sibling then Some REJECT_IN_PROGRESS else None in
      let row := mkPatchRow (in_patch_id input) (in_instance input) status (in_ops input)
                   (in_reason input) outcome None (in_provenance input) (in_source input)
                   (in_operation input) now None in
      let s1 := mkStore (<[in_patch_key input := row]> (patches s)) (builds s) (task_specs s) in
      let? s2 := if sibling then Ok s1
                 else insert_task_builds s1 (in_patch_key input) now (in_tasks input) in
      Ok (inserted_outcome sibling status, s2)
  end.

(** ** Leases *)

Definition validate_patch_lease_request (owner : string) (now expires_at : Z) (limit max_limit : nat)
    : result unit StoreError :=
  map_err InvalidLeaseRequest (validate_lease_request owner now expires_at limit max_limit).

Record LeasedPatchBuildTask := mkLeasedPatchBuildTask {
  lb_key : Uuid;
  lb_instance : Uuid;
  lb_task : Uuid;
  lb_nix_expression_path : string;
  lb_lease : Lease Uuid
}.

Definition leq_build (a b : (Uuid * Uuid) * BuildRow Uuid) : bool :=
  let '((k1, t1), r1) := a in
  let '((k2, t2), r2) := b in
  if (b_pending_since r1 =? b_pending_since r2)%Z
  then if bool_decide (k1 = k2) then uuid_leb t1 t2 else uuid_leb k1 k2
  else (b_pending_since r1 <? b_pending_since r2)%Z.

Definition build_eligible (s : Store) (now : Z) (kr : (Uuid * Uuid) * BuildRow Uuid) : bool :=
  bool_decide (b_status kr.2 = build_pending) && lease_free now (b_lease kr.2)
  && match patches s !! kr.1.1 with
     | Some p => bool_decide (pr_status p = Building)
     | None => false
     end.

Definition eligible_builds (s : Store) (now : Z) : list ((Uuid * Uuid) * BuildRow Uuid) :=
  select_rows leq_build (build_eligible s now) (builds s).

Definition has_reclaimable_patch_build (s : Store) (now : Z) : bool :=
  match eligible_builds s now with [] => false | _ => true end.

(** The expression of the [AddNode] that carries the task. *)
Definition build_expression (ops : list AddressedPatchOp) (task : Uuid) : option string :=
  head (omap (λ op, match patch_op op with
                    | Some (AddNode id t) =>
                        if bool_decide (id = uuid_to_string task)
                        then task_nix_expression_path <$> t else None
                    | _ => None
                    end) ops).

Definition lease_one_build (owner : string) (now expires_at : Z)
    (kr : (Uuid * Uuid) * BuildRow Uuid) (st : Store * nat)
    : result (LeasedPatchBuildTask * (Store * nat)) StoreError :=
  let '((key, task), _) := kr in
  let '(s, n) := st in
  let? p := ok_or (patches s !! key) MissingBuildTask in
  let? path := ok_or (build_expression (pr_ops p) task) MissingBuildTask in
  let lease := mkLease owner (fresh_token n) expires_at in
  let? s' := ok_or (update_build s key task
                      (λ b, bool_decide (b_status b = build_pending) && lease_free now (b_lease b))
                      (λ b, mkBuildRow (b_status b) (b_error b) (b_pending_since b) (b_built_at b)
                              (Some lease))) NotLeaseable in
  Ok (mkLeasedPatchBuildTask key (pr_instance p) task path lease, (s', S n)).

Definition lease_patch_build_tasks (s : Store) (n : nat) (owner : string) (now expires_at : Z)
    (limit : nat) : result (list LeasedPatchBuildTask * (Store * nat)) StoreError :=
  let? _ := validate_patch_lease_request owner now expires_at limit MAX_PATCH_BUILD_LEASE_BATCH in
  traverse (lease_one_build owner now expires_at) (take limit (eligible_builds s now)) (s, n).

(** ** Builds *)

Definition settled_build (result : PatchTaskBuildResult) (at_ : Z) (b : BuildRow Uuid)
    : BuildRow Uuid :=
  let '(status, error) := task_build_values result in
  mkBuildRow status error (b_pending_since b) (Some at_) None.

(** [NOT EXISTS (SELECT 1 .. WHERE patch_key = .. AND status <> 'success')] *)
Definition all_built (s : Store) (key : Uuid) : bool :=
  negb (existsb (λ kb : (Uuid * Uuid) * BuildRow Uuid,
                   bool_decide (kb.1.1 = key) && negb (bool_decide (b_status kb.2 = build_success)))
          (map_to_list (builds s))).

Definition building (r : PatchRow Uuid) : bool := bool_decide (pr_status r = Building).

(** [guard] is the lease a worker settles under; [at_] its clock, or the wall
    clock without one. *)
Definition settle_task_build (s : Store) (key task : Uuid) (result : PatchTaskBuildResult)
    (guard : option (string * Uuid)) (at_ : Z) : LeasedPatchBuildSettlementOutcome Uuid * Store :=
  match patches s !! key with
  | None => (BuildSettled BuildAbsent, s)
  | Some p =>
      if negb (building p) then (BuildSettled (BuildAlreadySettled (pr_status p)), s)
      else
        match update_build s key task
                (λ b, bool_decide (b_status b = build_pending) &&
                      match guard with
                      | Some (owner, token) => lease_held owner token at_ (b_lease b)
                      | None => match b_lease b with None => true | Some _ => false end
                      end) (settled_build result at_) with
        | None =>
            (match builds s !! (key, task), guard with
             | Some b, Some _ =>
                 if bool_decide (b_status b = build_pending) then BuildLeaseLost
                 else BuildSettled TaskAlreadySettled
             | Some _, None => BuildSettled TaskAlreadySettled
             | None, _ => BuildSettled BuildAbsent
             end, s)
        | Some s1 =>
            match result with
            | TaskFailure error =>
                (BuildSettled BuildHasFailed,
                 default s1 (update_patch s1 key building
                   (λ r, with_outcome ("build failed: " +:+ error) (with_status BuildFailed at_ r))))
            | TaskSuccess =>
                match update_patch s1 key (λ r, building r && all_built s1 key)
                        (with_status Submitted at_) with
                | Some s2 =>
                    (BuildSettled match patches s2 !! key with
                                  | Some row => BuildSubmitted row
                                  | None => AwaitingTasks
                                  end, s2)
                | None => (BuildSettled AwaitingTasks, s1)
                end
            end
        end
  end.

Definition settle_patch_task_build (s : Store) (key task : Uuid) (result : PatchTaskBuildResult)
    (at_ : Z) : Prelude.result (PatchBuildSettlementOutcome Uuid * Store) StoreError :=
  match settle_task_build s key task result None at_ with
  | (BuildSettled outcome, s') => Ok (outcome, s')
  | (BuildLeaseLost, _) => Err UnexpectedLeaseLoss
  end.

Definition settle_leased_patch_task_build (s : Store) (lease : LeasedPatchBuildTask)
    (result : PatchTaskBuildResult) (now : Z) : LeasedPatchBuildSettlementOutcome Uuid * Store :=
  settle_task_build s (lb_key lease) (lb_task lease) result
    (Some (lease_owner (lb_lease lease), lease_token (lb_lease lease))) now.

(** ** Submission *)

Definition mark_patch_submitted (s : Store) (key : Uuid) (now : Z) : PatchSubmissionOutcome * Store :=
  match update_patch s key (λ r, drivable (pr_status r)) (with_status Submitted now) with
  | Some s' => (NowSubmitted, s')
  | None =>
      (match patches s !! key with
       | Some row => SubmissionAlreadySettled (pr_status row)
       | None => SubmissionAbsent
       end, s)
  end.

Record LeasedPatchLifecycle := mkLeasedPatchLifecycle {
  ll_key : Uuid;
  ll_row : PatchRow Uuid;
  ll_lease : Lease Uuid
}.

Definition leq_patch (a b : Uuid * PatchRow Uuid) : bool :=
  if (pr_updated_at a.2 =? pr_updated_at b.2)%Z then uuid_leb a.1 b.1
  else (pr_updated_at a.2 <? pr_updated_at b.2)%Z.

Definition eligible_patches (s : Store) (now eligible_before : Z) : list (Uuid * PatchRow Uuid) :=
  sort_by leq_patch
    (List.filter (λ kr, drivable (pr_status kr.2) && (pr_updated_at kr.2 <=? eligible_before)%Z
                        && lease_free now (pr_lease kr.2)) (map_to_list (patches s))).

Definition has_reclaimable_patch_lifecycle (s : Store) (now eligible_before : Z) : bool :=
  match eligible_patches s now eligible_before with [] => false | _ => true end.

Definition lease_one_patch (owner : string) (now expires_at : Z) (kr : Uuid * PatchRow Uuid)
    (st : Store * nat) : result (LeasedPatchLifecycle * (Store * nat)) StoreError :=
  let '(s, n) := st in
  let lease := mkLease owner (fresh_token n) expires_at in
  let? s' := ok_or (update_patch s kr.1
                      (λ r, drivable (pr_status r) && lease_free now (pr_lease r))
                      (with_lease (Some lease))) NotLeaseable in
  Ok (mkLeasedPatchLifecycle kr.1 kr.2 lease, (s', S n)).

Definition lease_patch_lifecycle (s : Store) (n : nat) (owner : string)
    (now expires_at eligible_before : Z) (limit : nat)
    : result (list LeasedPatchLifecycle * (Store * nat)) StoreError :=
  let? _ := validate_patch_lease_request owner now expires_at limit
              MAX_PATCH_LIFECYCLE_LEASE_BATCH in
  traverse (lease_one_patch owner now expires_at)
    (take limit (eligible_patches s now eligible_before)) (s, n).

Definition settle_leased_patch_submission (s : Store) (key : Uuid) (owner : string) (token : Uuid)
    (now : Z) : LeasedPatchSubmissionOutcome * Store :=
  match update_patch s key
          (λ r, drivable (pr_status r) && lease_held owner token now (pr_lease r))
          (λ r, with_lease None (with_status Submitted now r)) with
  | Some s' => (SubmissionSettled NowSubmitted, s')
  | None =>
      (match patches s !! key with
       | Some row => if drivable (pr_status row) then SubmissionLeaseLost
                     else SubmissionSettled (SubmissionAlreadySettled (pr_status row))
       | None => SubmissionSettled SubmissionAbsent
       end, s)
  end.

Definition release_patch_lifecycle_lease (s : Store) (key : Uuid) (owner : string) (token : Uuid)
    : bool * Store :=
  match update_patch s key
          (λ r, match pr_lease r with
                | Some l => bool_decide (lease_owner l = owner) && bool_decide (lease_token l = token)
                | None => false
                end) (with_lease None) with
  | Some s' => (true, s')
  | None => (false, s)
  end.

(** ** Outcomes *)

Definition classify_losing_correlation (row : option (PatchRow Uuid)) (instance : Uuid)
    : PatchOutcomeCorrelation :=
  match row with
  | None => CorrelationAbsent
  | Some row =>
      if negb (bool_decide (pr_instance row = instance)) then CorrelationConflicted
      else if is_terminal (pr_status row) then CorrelationAlreadySettled (pr_status row)
      else CorrelationConflicted
  end.

Definition correlate_patch_outcome (s : Store) (key instance : Uuid)
    (outcome : PatchTerminalOutcome) (now : Z) : PatchOutcomeCorrelation * Store :=
  let settle r :=
    match outcome with
    | OutcomeApplied version =>
        with_lease None (with_version version (with_outcome "applied" (with_status Applied now r)))
    | OutcomeRejected reason => with_lease None (with_outcome reason (with_status Rejected now r))
    end in
  match update_patch s key (unsettled_on instance) settle with
  | Some s' => (CorrelationWon, s')
  | None => (classify_losing_correlation (patches s !! key) instance, s)
  end.

Definition unsettled_patches_older_than (s : Store) (cutoff : Z) : list (Uuid * PatchRow Uuid) :=
  sort_by leq_patch
    (List.filter (λ kr, drivable (pr_status kr.2) && (pr_updated_at kr.2 <=? cutoff)%Z)
       (map_to_list (patches s))).

Definition patch_discrepancy_detail (status : PatchLifecycleStatus) (key : Uuid)
    (applied_patch_keys : gset Uuid) : option string :=
  match status with
  | Validating | Building | Submitted =>
      Some ("patch unsettled at terminal compaction (ledger status " +:+ status_as_str status +:+
            "); never reached an outcome")
  | Applied =>
      if bool_decide (key ∈ applied_patch_keys) then None
      else Some "patch ledger records Applied but patch_key is absent from the terminal applied-patch log"
  | Rejected | BuildFailed => None
  end.
End store.
