(* ===== verification/PatchStoreFacts.v ===== *)
(** * Facts on the patch lifecycle store

    Every transaction as a step, the invariant of the tables, and how a row may
    evolve, for any interleaving of any number of transactions. *)

From S2P Require Import Prelude Workflow Uuid Leases PatchDocument PatchStore.

Section facts.
Context `{UuidOps Uuid} `{!Countable Uuid}.
Implicit Types (s : Store (Uuid := Uuid)) (r : PatchRow Uuid) (b : BuildRow Uuid) (k t : Uuid).

(** ** The invariant *)

Definition phase_ok (bs : gmap (Uuid * Uuid) (BuildRow Uuid)) k (st : PatchLifecycleStatus) : Prop :=
  match st with
  | Validating => ∀ t, bs !! (k, t) = None
  | Building => (∃ t b, bs !! (k, t) = Some b ∧ b_status b = build_pending) ∧
                ∀ t b, bs !! (k, t) = Some b → b_status b ≠ build_failure
  | Submitted => ∀ t b, bs !! (k, t) = Some b → b_status b = build_success
  | BuildFailed => ∃ t b, bs !! (k, t) = Some b ∧ b_status b = build_failure
  | Applied | Rejected => True
  end.

Definition row_ok (bs : gmap (Uuid * Uuid) (BuildRow Uuid)) k r : Prop :=
  phase_ok bs k (pr_status r) ∧ (is_Some (pr_lease r) → drivable (pr_status r) = true).

Definition exclusive s : Prop :=
  ∀ k1 k2 r1 r2, patches s !! k1 = Some r1 → patches s !! k2 = Some r2 →
    pr_instance r1 = pr_instance r2 →
    is_terminal (pr_status r1) = false → is_terminal (pr_status r2) = false → k1 = k2.

Record store_ok s : Prop := {
  ok_rows : ∀ k r, patches s !! k = Some r → row_ok (builds s) k r;
  ok_foreign_key : ∀ k t b, builds s !! (k, t) = Some b → is_Some (patches s !! k);
  ok_exclusive : exclusive s
}.

Lemma empty_store_ok : store_ok empty_store.
Proof. split; intros *; simpl; rewrite ?lookup_empty; done. Qed.

(** *** Updating one patch row *)

Lemma update_patch_Some s k guard f s' :
  update_patch s k guard f = Some s' →
  ∃ r, patches s !! k = Some r ∧ guard r = true ∧
       s' = mkStore (<[k := f r]> (patches s)) (builds s) (task_specs s).
Proof.
  unfold update_patch. destruct (patches s !! k) as [r|]; [|done].
  destruct (guard r) eqn:Hg; [|done]. intros Heq. injection Heq as <-. eauto.
Qed.

Lemma set_patch_ok s k r r' :
  store_ok s → patches s !! k = Some r → pr_instance r' = pr_instance r →
  (is_terminal (pr_status r) = true → is_terminal (pr_status r') = true) →
  row_ok (builds s) k r' → store_ok (mkStore (<[k := r']> (patches s)) (builds s) (task_specs s)).
Proof.
  intros [Hrows Hfk Hex] Hk Hinst Hterm Hrow. split; simpl.
  - intros k' r''. rewrite lookup_insert_Some. intros [[<- <-]|[_ ?]]; auto.
  - intros k' t b Hb. rewrite lookup_insert_is_Some'. right. eauto.
  - intros k1 k2 r1 r2. simpl. rewrite !lookup_insert_Some.
    assert (is_terminal (pr_status r') = false → is_terminal (pr_status r) = false) as Hback.
    { destruct (is_terminal (pr_status r)); [|done]. intros Hf. by rewrite Hterm in Hf. }
    intros [[<- <-]|[Hne1 H1]] [[<- <-]|[Hne2 H2]] Heq Ht1 Ht2; [done|..].
    + apply (Hex k k2 r r2); [done|done|congruence|auto|done].
    + apply (Hex k1 k r1 r); [done|done|congruence|done|auto].
    + by apply (Hex k1 k2 r1 r2).
Qed.

Lemma update_patch_ok s k guard f s' :
  store_ok s → update_patch s k guard f = Some s' →
  (∀ r, row_ok (builds s) k r → guard r = true →
     pr_instance (f r) = pr_instance r ∧
     (is_terminal (pr_status r) = true → is_terminal (pr_status (f r)) = true) ∧
     row_ok (builds s) k (f r)) → store_ok s'.
Proof.
  intros Hok (r & Hk & Hg & ->)%update_patch_Some Hf.
  destruct (Hf r) as (? & ? & ?); [by apply Hok|done|]. by eapply set_patch_ok.
Qed.

(** *** Updating one build row *)

Lemma update_build_Some s k t guard f s' :
  update_build s k t guard f = Some s' →
  ∃ b, builds s !! (k, t) = Some b ∧ guard b = true ∧
       s' = mkStore (patches s) (<[(k, t) := f b]> (builds s)) (task_specs s).
Proof.
  unfold update_build. destruct (builds s !! (k, t)) as [b|]; [|done].
  destruct (guard b) eqn:Hg; [|done]. intros Heq. injection Heq as <-. eauto.
Qed.

(** The builds of another patch do not matter to a row. *)
Lemma row_ok_other bs k t b k' r : k' ≠ k → row_ok bs k' r → row_ok (<[(k, t) := b]> bs) k' r.
Proof.
  intros Hne [Hphase Hlease]. split; [|done]. revert Hphase.
  assert (∀ t', <[(k, t) := b]> bs !! (k', t') = bs !! (k', t')) as Hsame
    by (intros t'; apply lookup_insert_ne; congruence).
  unfold phase_ok. destruct (pr_status r); try setoid_rewrite Hsame; done.
Qed.

(** Nor does what a build row holds besides its status. *)
Lemma row_ok_same_status bs k t b b' r :
  bs !! (k, t) = Some b → b_status b' = b_status b → row_ok bs k r →
  row_ok (<[(k, t) := b']> bs) k r.
Proof.
  intros Hb Hst [Hphase Hlease]. split; [|done]. revert Hphase. unfold phase_ok.
  destruct (pr_status r); try done.
  - intros Hnone. by rewrite Hnone in Hb.
  - intros [(t0 & b0 & Hb0 & Hp) Hnf]. split.
    + destruct (decide (t0 = t)) as [->|Hne].
      * exists t, b'. rewrite lookup_insert_eq. split; [done|congruence].
      * exists t0, b0. rewrite lookup_insert_ne by congruence. done.
    + intros t1 b1. rewrite lookup_insert_Some. intros [[[= <-] <-]|[_ H1]]; [|eauto].
      rewrite Hst. eauto.
  - intros Hall t1 b1. rewrite lookup_insert_Some. intros [[[= <-] <-]|[_ H1]]; [|eauto].
    rewrite Hst. eauto.
  - intros (t0 & b0 & Hb0 & Hp). destruct (decide (t0 = t)) as [->|Hne].
    + exists t, b'. rewrite lookup_insert_eq. split; [done|congruence].
    + exists t0, b0. rewrite lookup_insert_ne by congruence. done.
Qed.

(** ** Every transaction keeps the invariant *)

Lemma ingress_fresh_builds key now tasks : ∀ s s',
  insert_task_builds s key now tasks = Ok s' →
  patches s' = patches s ∧
  (∀ k t, k ≠ key → builds s' !! (k, t) = builds s !! (k, t)) ∧
  (∀ t b, builds s !! (key, t) = Some b → builds s' !! (key, t) = Some b) ∧
  (∀ t b, builds s' !! (key, t) = Some b →
     builds s !! (key, t) = Some b ∨ b_status b = build_pending) ∧
  (∀ t, t ∈ tasks.*1 → is_Some (builds s' !! (key, t))).
Proof.
  induction tasks as [|[t vars] tasks IH]; intros s s'; simpl.
  { intros Heq. injection Heq as <-. split_and!; auto. by intros t ?%elem_of_nil. }
  destruct (builds s !! (key, t)) as [b|] eqn:Hb; [done|]. intros (Hp & Ho & Hk & Hn & Hin)%IH.
  simpl in *. split_and!; [done| | | |].
  - intros k t' Hne. rewrite Ho by done. apply lookup_insert_ne. congruence.
  - intros t' b Hb'. apply Hk. rewrite lookup_insert_ne; congruence.
  - intros t' b Hb'. destruct (Hn _ _ Hb') as [Hold|]; [|by right].
    rewrite lookup_insert_Some in Hold. destruct Hold as [[_ <-]|[_ ?]]; auto.
  - intros t' [->|Ht']%elem_of_cons; [|by apply Hin].
    eexists. apply Hk. by rewrite lookup_insert_eq.
Qed.

Lemma inserted_task key now tasks t : ∀ s s',
  insert_task_builds s key now tasks = Ok s' → is_Some (builds s' !! (key, t)) →
  is_Some (builds s !! (key, t)) ∨ t ∈ tasks.*1.
Proof.
  induction tasks as [|[t' vars] tasks IH]; intros s s'; simpl; [intros [= <-]; auto|].
  destruct (builds s !! (key, t')); [done|]. intros Hi [Hold|Hin]%(IH _ _ Hi); [|right; by right].
  simpl in Hold. rewrite lookup_insert_is_Some' in Hold. destruct Hold as [[= ->]|?]; [right; by left|by left].
Qed.

Lemma no_sibling s instance :
  sibling_unsettled s instance = false →
  ∀ k r, patches s !! k = Some r → pr_instance r = instance → is_terminal (pr_status r) = true.
Proof.
  unfold sibling_unsettled. intros Hno k r Hk Hinst. apply not_true_iff_false in Hno.
  destruct (is_terminal (pr_status r)) eqn:Ht; [done|]. destruct Hno.
  apply existsb_exists. exists (k, r). split; [by apply list_elem_of_In, elem_of_map_to_list|].
  unfold unsettled_on. simpl. by rewrite bool_decide_true, Ht.
Qed.

Lemma new_row_exclusive s k r bs specs :
  exclusive s → patches s !! k = None →
  (is_terminal (pr_status r) = true ∨ sibling_unsettled s (pr_instance r) = false) →
  exclusive (mkStore (<[k := r]> (patches s)) bs specs).
Proof.
  intros Hex Hk Hr k1 k2 r1 r2. simpl. rewrite !lookup_insert_Some.
  assert (∀ k' r', patches s !! k' = Some r' → pr_instance r' = pr_instance r →
            is_terminal (pr_status r) = false → is_terminal (pr_status r') = false → False) as Hno.
  { intros k' r' Hk' Hi Ht Ht'. destruct Hr as [|Hsib]; [congruence|].
    rewrite (no_sibling _ _ Hsib k' r' Hk' Hi) in Ht'. done. }
  intros [[<- <-]|[Hne1 H1]] [[<- <-]|[Hne2 H2]] Heq Ht1 Ht2; [done|..].
  - by destruct (Hno k2 r2).
  - by destruct (Hno k1 r1).
  - by apply (Hex k1 k2 r1 r2).
Qed.

(** Rows only look at the builds of their own patch. *)
Lemma row_ok_ext bs bs' k r :
  (∀ t, bs' !! (k, t) = bs !! (k, t)) → row_ok bs k r → row_ok bs' k r.
Proof.
  intros Hsame [Hphase Hlease]. split; [|done]. revert Hphase. unfold phase_ok.
  destruct (pr_status r); try setoid_rewrite Hsame; done.
Qed.

Lemma insert_row_ok s s' k r :
  store_ok s → patches s !! k = None → patches s' = <[k := r]> (patches s) →
  (∀ k' t, k' ≠ k → builds s' !! (k', t) = builds s !! (k', t)) →
  row_ok (builds s') k r →
  (is_terminal (pr_status r) = true ∨ sibling_unsettled s (pr_instance r) = false) →
  store_ok s'.
Proof.
  intros [Hrows Hfk Hex] Hk Hp Hb Hrow Hr. split.
  - intros k' r'. rewrite Hp, lookup_insert_Some. intros [[<- <-]|[Hne Hk']]; [done|].
    eapply row_ok_ext; [intros; by apply Hb|auto].
  - intros k' t b Hbt. rewrite Hp. destruct (decide (k' = k)) as [->|Hne].
    + rewrite lookup_insert_eq. eauto.
    + rewrite lookup_insert_ne by done. rewrite Hb in Hbt by done. eauto.
  - pose proof (new_row_exclusive s k r (builds s') (task_specs s') Hex Hk Hr) as Hnew.
    intros k1 k2 r1 r2. rewrite Hp. apply Hnew.
Qed.

Lemma no_builds_yet s k : store_ok s → patches s !! k = None → ∀ t, builds s !! (k, t) = None.
Proof.
  intros Hok Hk t. destruct (builds s !! (k, t)) as [b|] eqn:Hb; [|done].
  apply (ok_foreign_key _ Hok) in Hb. rewrite Hk in Hb. by destruct Hb.
Qed.

Lemma inserted_phase s s1 s2 key now tasks r :
  store_ok s → patches s !! key = None → builds s1 = builds s →
  insert_task_builds s1 key now tasks = Ok s2 →
  pr_status r = ingress_status false (bool_decide (length tasks = 0)) → pr_lease r = None →
  row_ok (builds s2) key r.
Proof.
  intros Hok Hk Hs1 Hi Hst Hl. pose proof (no_builds_yet s key Hok Hk) as Hnone.
  split; [|rewrite Hl; by intros [? ?]]. rewrite Hst. unfold ingress_status.
  case_bool_decide as Hlen.
  - apply nil_length_inv in Hlen as ->. injection Hi as <-. intros t. by rewrite Hs1.
  - apply ingress_fresh_builds in Hi as (_ & _ & _ & Hn & Hin). rewrite Hs1 in Hn.
    assert (∀ t b, builds s2 !! (key, t) = Some b → b_status b = build_pending) as Hpend.
    { intros t b Hb. destruct (Hn t b Hb) as [Hold|]; [|done]. by rewrite Hnone in Hold. }
    split; [|intros t b Hb; by rewrite (Hpend t b Hb)].
    destruct tasks as [|[t vars] tasks]; [done|]. destruct (Hin t) as [b Hb]; [left|]. eauto.
Qed.

Lemma ingress_ok s now input o s' :
  store_ok s → ingress_patch s now input = Ok (o, s') → store_ok s'.
Proof.
  intros Hok. unfold ingress_patch.
  destruct (patches s !! in_patch_key input) as [r|] eqn:Hk; [intros Heq; by injection Heq as _ <-|].
  destruct (sibling_unsettled s (in_instance input)) eqn:Hsib; simpl.
  - intros Heq. injection Heq as _ <-. eapply insert_row_ok; [done..|reflexivity|done| |by left].
    split; [done|by intros [? ?]].
  - destruct (insert_task_builds _ _ _ _) as [s2|] eqn:Hi; [|done]. simpl.
    intros Heq. injection Heq as _ <-. apply ingress_fresh_builds in Hi as Hfacts.
    destruct Hfacts as (Hp & Ho & _).
    eapply insert_row_ok; [done|done|exact Hp|done| |by right].
    eapply inserted_phase; [done|done| |done|done|done]. done.
Qed.

(** *** Settling a build *)

Lemma all_built_spec s k :
  all_built s k = true ↔ ∀ t b, builds s !! (k, t) = Some b → b_status b = build_success.
Proof.
  unfold all_built. rewrite negb_true_iff. split.
  - intros Hno t b Hb. apply not_true_iff_false in Hno.
    destruct (decide (b_status b = build_success)) as [|Hne]; [done|]. destruct Hno.
    apply existsb_exists. exists ((k, t), b). split; [by apply list_elem_of_In, elem_of_map_to_list|].
    simpl. by rewrite bool_decide_true, bool_decide_false.
  - intros Hall. apply not_true_iff_false. intros ([[k' t] b] & Hin & Hb)%existsb_exists.
    simpl in Hb. apply andb_true_iff in Hb as [Hk Hne]. apply bool_decide_eq_true in Hk as ->.
    apply list_elem_of_In, elem_of_map_to_list in Hin.
    by rewrite (Hall _ _ Hin), bool_decide_true in Hne.
Qed.

Lemma pending_exists s k :
  ¬ (∀ t b, builds s !! (k, t) = Some b → b_status b = build_success) →
  ∃ t b, builds s !! (k, t) = Some b ∧ b_status b ≠ build_success.
Proof.
  rewrite <- all_built_spec, not_true_iff_false. unfold all_built. rewrite negb_false_iff.
  intros ([[k' t] b] & Hin & Hb)%existsb_exists. simpl in Hb.
  apply andb_true_iff in Hb as [Hk Hne]. apply bool_decide_eq_true in Hk as ->.
  apply negb_true_iff, bool_decide_eq_false in Hne.
  apply list_elem_of_In, elem_of_map_to_list in Hin. eauto.
Qed.

(** The lease condition of a settlement. *)
Definition may_settle (guard : option (string * Uuid)) (at_ : Z) b : bool :=
  bool_decide (b_status b = build_pending) &&
  match guard with
  | Some (owner, token) => lease_held owner token at_ (b_lease b)
  | None => match b_lease b with None => true | Some _ => false end
  end.

Definition built_store s k t result (at_ : Z) b : Store :=
  mkStore (patches s) (<[(k, t) := settled_build result at_ b]> (builds s)) (task_specs s).

(** What a settlement that finds its row does. *)
Lemma settle_won s k t result guard at_ p b :
  patches s !! k = Some p → pr_status p = Building → builds s !! (k, t) = Some b →
  may_settle guard at_ b = true →
  settle_task_build s k t result guard at_ =
  let s1 := built_store s k t result at_ b in
  match result with
  | TaskFailure error =>
      (BuildSettled BuildHasFailed,
       mkStore (<[k := with_outcome ("build failed: " +:+ error) (with_status BuildFailed at_ p)]>
                  (patches s)) (builds s1) (task_specs s))
  | TaskSuccess =>
      if all_built s1 k
      then (BuildSettled (BuildSubmitted (with_status Submitted at_ p)),
            mkStore (<[k := with_status Submitted at_ p]> (patches s)) (builds s1) (task_specs s))
      else (BuildSettled AwaitingTasks, s1)
  end.
Proof.
  intros Hp Hst Hb Hmay. unfold settle_task_build, building, update_build, update_patch.
  rewrite Hp, Hst. simpl. rewrite Hb. fold (may_settle guard at_ b). rewrite Hmay.
  destruct result as [|error]; simpl; rewrite Hp, Hst; simpl; [|done].
  fold (built_store s k t TaskSuccess at_ b).
  destruct (all_built _ k); [|done]. simpl. by rewrite lookup_insert_eq.
Qed.

(** What one that does not find it answers: nothing changes. *)
Lemma settle_lost s k t result guard at_ :
  (∀ p b, patches s !! k = Some p → pr_status p = Building → builds s !! (k, t) = Some b →
     may_settle guard at_ b = false) →
  (settle_task_build s k t result guard at_).2 = s.
Proof.
  intros Hlost. unfold settle_task_build, building.
  destruct (patches s !! k) as [p|]; [|done].
  case_bool_decide as Hst; [|done]. simpl. unfold update_build.
  destruct (builds s !! (k, t)) as [b|]; [|done]. fold (may_settle guard at_ b).
  by rewrite (Hlost p b).
Qed.

Lemma settle_cases s k t guard at_ :
  (∃ p b, patches s !! k = Some p ∧ pr_status p = Building ∧ builds s !! (k, t) = Some b ∧
          may_settle guard at_ b = true) ∨
  (∀ p b, patches s !! k = Some p → pr_status p = Building → builds s !! (k, t) = Some b →
     may_settle guard at_ b = false).
Proof.
  destruct (patches s !! k) as [p|]; [|right; done].
  destruct (decide (pr_status p = Building)) as [Hst|Hst]; [|right; naive_solver].
  destruct (builds s !! (k, t)) as [b|]; [|right; done].
  destruct (may_settle guard at_ b) eqn:Hm; [left; eauto 10|right; naive_solver].
Qed.

(** The builds of a settled patch row, for the row that comes out. *)
Lemma built_store_ok s k t result at_ p b p' :
  store_ok s → patches s !! k = Some p → builds s !! (k, t) = Some b →
  pr_instance p' = pr_instance p → is_terminal (pr_status p) = false →
  row_ok (builds (built_store s k t result at_ b)) k p' →
  store_ok (mkStore (<[k := p']> (patches s)) (builds (built_store s k t result at_ b))
              (task_specs s)).
Proof.
  intros [Hrows Hfk Hex] Hp Hb Hinst Hterm Hrow. split; simpl.
  - intros k' r'. rewrite lookup_insert_Some. intros [[<- <-]|[Hne Hk']]; [done|].
    apply row_ok_other; auto.
  - intros k' t' b'. rewrite lookup_insert_Some, lookup_insert_is_Some'.
    intros [[Heq _]|[_ ?]]; [injection Heq as <- <-; by left|right; eauto].
  - intros k1 k2 r1 r2. simpl. rewrite !lookup_insert_Some.
    intros [[<- <-]|[Hne1 H1]] [[<- <-]|[Hne2 H2]] Heq Ht1 Ht2; [done|..].
    + apply (Hex k k2 p r2); [done|done|congruence|done|done].
    + apply (Hex k1 k r1 p); [done|done|congruence|done|done].
    + by apply (Hex k1 k2 r1 r2).
Qed.

Lemma building_lease s k p : store_ok s → patches s !! k = Some p → pr_status p = Building →
  pr_lease p = None.
Proof.
  intros Hok Hp Hst. destruct (ok_rows _ Hok k p Hp) as [_ Hl].
  destruct (pr_lease p); [|done]. rewrite Hst in Hl. by specialize (Hl (mk_is_Some _ _ eq_refl)).
Qed.

Lemma settle_build_ok s k t result guard at_ :
  store_ok s → store_ok (settle_task_build s k t result guard at_).2.
Proof.
  intros Hok. destruct (settle_cases s k t guard at_) as [(p & b & Hp & Hst & Hb & Hm)|Hlost];
    [|by rewrite settle_lost].
  rewrite (settle_won s k t result guard at_ p b) by done.
  pose proof (building_lease s k p Hok Hp Hst) as Hlease.
  destruct (ok_rows _ Hok k p Hp) as [Hphase _]. rewrite Hst in Hphase.
  destruct Hphase as [_ Hnf]. destruct result as [|error]; simpl.
  - destruct (all_built _ k) eqn:Hall; simpl.
    + eapply built_store_ok; [done|done|done|done|by rewrite Hst|].
      split; [|simpl; rewrite Hlease; by intros [? ?]]. exact (proj1 (all_built_spec _ _) Hall).
    + assert (built_store s k t TaskSuccess at_ b
              = mkStore (<[k := p]> (patches s)) (builds (built_store s k t TaskSuccess at_ b))
                  (task_specs s)) as ->
        by (rewrite (insert_id (patches s) k p Hp); reflexivity).
      eapply built_store_ok; [done|done|done|done|by rewrite Hst|].
      split; [|rewrite Hlease; by intros [? ?]]. rewrite Hst.
      assert (∀ t' b', builds (built_store s k t TaskSuccess at_ b) !! (k, t') = Some b' →
                b_status b' ≠ build_failure) as Hnf'.
      { intros t' b'. simpl. rewrite lookup_insert_Some. intros [[_ <-]|[_ ?]]; [done|eauto]. }
      split; [|done]. apply not_true_iff_false in Hall. rewrite all_built_spec in Hall.
      destruct (pending_exists (built_store s k t TaskSuccess at_ b) k) as (t' & b' & Hb' & Hne).
      { exact Hall. }
      exists t', b'. split; [done|]. specialize (Hnf' t' b' Hb'). by destruct (b_status b').
  - eapply built_store_ok; [done|done|done|done|by rewrite Hst|].
    split; [|simpl; rewrite Hlease; by intros [? ?]]. simpl.
    exists t. eexists. by rewrite lookup_insert_eq.
Qed.

(** *** Leases and submissions *)

Context (uuid_leb : Uuid → Uuid → bool) (fresh_token : nat → Uuid).

Lemma lease_one_build_ok owner now expires kr st lease st' :
  store_ok st.1 → lease_one_build fresh_token owner now expires kr st = Ok (lease, st') →
  store_ok st'.1.
Proof.
  destruct kr as [[k t] b0], st as [s n]. simpl. intros Hok.
  destruct (patches s !! k) as [p|]; [|done]. simpl.
  destruct (build_expression _ _) as [path|]; [|done]. simpl.
  destruct (update_build _ _ _ _ _) as [s'|] eqn:Hu; [|done]. simpl.
  intros Heq. injection Heq as _ <-. simpl.
  apply update_build_Some in Hu as (b & Hb & _ & ->). destruct Hok as [Hrows Hfk Hex]. split; simpl.
  - intros k' r' Hk'. destruct (decide (k' = k)) as [->|Hne].
    + eapply row_ok_same_status; [done|done|auto].
    + apply row_ok_other; auto.
  - intros k' t' b'. rewrite lookup_insert_Some. intros [[Heq _]|[_ ?]]; [|eauto].
    injection Heq as <- <-. eauto.
  - exact Hex.
Qed.

Lemma lease_builds_ok s n owner now expires limit leases s' n' :
  store_ok s →
  lease_patch_build_tasks uuid_leb fresh_token s n owner now expires limit = Ok (leases, (s', n')) →
  store_ok s'.
Proof.
  intros Hok. unfold lease_patch_build_tasks. destruct (validate_patch_lease_request _ _ _ _ _); [|done].
  simpl. intros Ht. apply (traverse_inv _ (λ st, store_ok st.1)) in Ht; [done| |done].
  intros x st y st'. apply lease_one_build_ok.
Qed.

Ltac keep_row :=
  let r := fresh "r" in let Hphase := fresh "Hphase" in let Hlease := fresh "Hlease" in
  intros r [Hphase Hlease] Hguard; simpl in *.

Lemma mark_submitted_ok s k now : store_ok s → store_ok (mark_patch_submitted s k now).2.
Proof.
  intros Hok. unfold mark_patch_submitted. destruct (update_patch _ _ _ _) as [s'|] eqn:Hu; [|done].
  eapply update_patch_ok; [done|done|]. keep_row. split_and!; [done| |split; [|done]].
  - by destruct (pr_status r).
  - destruct (pr_status r); try done. intros t b Hb. by rewrite Hphase in Hb.
Qed.

Lemma lease_one_patch_ok owner now expires kr st lease st' :
  store_ok st.1 → lease_one_patch fresh_token owner now expires kr st = Ok (lease, st') →
  store_ok st'.1.
Proof.
  destruct st as [s n]. simpl. intros Hok. destruct (update_patch _ _ _ _) as [s'|] eqn:Hu; [|done].
  simpl. intros Heq. injection Heq as _ <-. simpl. eapply update_patch_ok; [done|done|]. keep_row.
  apply andb_true_iff in Hguard as [Hd _]. split_and!; [done|done|split; done].
Qed.

Lemma lease_lifecycle_ok s n owner now expires before limit leases s' n' :
  store_ok s →
  lease_patch_lifecycle uuid_leb fresh_token s n owner now expires before limit
    = Ok (leases, (s', n')) → store_ok s'.
Proof.
  intros Hok. unfold lease_patch_lifecycle. destruct (validate_patch_lease_request _ _ _ _ _); [|done].
  simpl. intros Ht. apply (traverse_inv _ (λ st, store_ok st.1)) in Ht; [done| |done].
  intros x st y st'. apply lease_one_patch_ok.
Qed.

Lemma settle_submission_ok s k owner token now :
  store_ok s → store_ok (settle_leased_patch_submission s k owner token now).2.
Proof.
  intros Hok. unfold settle_leased_patch_submission.
  destruct (update_patch _ _ _ _) as [s'|] eqn:Hu; [|done].
  eapply update_patch_ok; [done|done|]. keep_row. apply andb_true_iff in Hguard as [Hd _].
  split_and!; [done| |split; [|by intros [? ?]]].
  - by destruct (pr_status r).
  - destruct (pr_status r); try done. intros t b Hb. by rewrite Hphase in Hb.
Qed.

Lemma release_ok s k owner token :
  store_ok s → store_ok (release_patch_lifecycle_lease s k owner token).2.
Proof.
  intros Hok. unfold release_patch_lifecycle_lease.
  destruct (update_patch _ _ _ _) as [s'|] eqn:Hu; [|done].
  eapply update_patch_ok; [done|done|]. keep_row. split_and!; [done|done|].
  split; [done|by intros [? ?]].
Qed.

Lemma correlate_ok s k instance outcome now :
  store_ok s → store_ok (correlate_patch_outcome s k instance outcome now).2.
Proof.
  intros Hok. unfold correlate_patch_outcome.
  destruct (update_patch _ _ _ _) as [s'|] eqn:Hu; [|done].
  eapply update_patch_ok; [done|done|]. keep_row.
  destruct outcome; simpl; (split_and!; [done|done|]; split; [done|by intros [? ?]]).
Qed.

(** ** Steps *)

Inductive step : Store (Uuid := Uuid) → Store (Uuid := Uuid) → Prop :=
| step_ingress s now input o s' : ingress_patch s now input = Ok (o, s') → step s s'
| step_lease_builds s n owner now expires limit leases s' n' :
    lease_patch_build_tasks uuid_leb fresh_token s n owner now expires limit
      = Ok (leases, (s', n')) → step s s'
| step_settle_build s k t result guard at_ : step s (settle_task_build s k t result guard at_).2
| step_submitted s k now : step s (mark_patch_submitted s k now).2
| step_lease_lifecycle s n owner now expires before limit leases s' n' :
    lease_patch_lifecycle uuid_leb fresh_token s n owner now expires before limit
      = Ok (leases, (s', n')) → step s s'
| step_settle_submission s k owner token now :
    step s (settle_leased_patch_submission s k owner token now).2
| step_release s k owner token : step s (release_patch_lifecycle_lease s k owner token).2
| step_correlate s k instance outcome now :
    step s (correlate_patch_outcome s k instance outcome now).2.

Definition reachable s : Prop := rtc step empty_store s.

Lemma step_ok s s' : step s s' → store_ok s → store_ok s'.
Proof.
  destruct 1; intros Hok.
  - by eapply ingress_ok.
  - by eapply lease_builds_ok.
  - by apply settle_build_ok.
  - by apply mark_submitted_ok.
  - by eapply lease_lifecycle_ok.
  - by apply settle_submission_ok.
  - by apply release_ok.
  - by apply correlate_ok.
Qed.

Lemma reachable_ok s : reachable s → store_ok s.
Proof.
  unfold reachable. intros Hr. cut (store_ok (empty_store (Uuid := Uuid))); [|apply empty_store_ok].
  induction Hr; eauto using step_ok.
Qed.

(** ** How a row evolves *)

Inductive moves : PatchLifecycleStatus → PatchLifecycleStatus → Prop :=
| moves_stay st : moves st st
| moves_sent : moves Validating Submitted
| moves_built : moves Building Submitted
| moves_failed : moves Building BuildFailed
| moves_settled st st' : is_terminal st = false → st' = Applied ∨ st' = Rejected → moves st st'.

Record row_evolves r r' : Prop := {
  re_patch_id : pr_patch_id r' = pr_patch_id r;
  re_instance : pr_instance r' = pr_instance r;
  re_ops : pr_ops r' = pr_ops r;
  re_reason : pr_reason r' = pr_reason r;
  re_provenance : pr_provenance r' = pr_provenance r;
  re_source : pr_source r' = pr_source r;
  re_operation : pr_operation r' = pr_operation r;
  re_moves : moves (pr_status r) (pr_status r');
  re_final : is_terminal (pr_status r) = true → r' = r
}.

Definition evolves s s' : Prop :=
  ∀ k r, patches s !! k = Some r → ∃ r', patches s' !! k = Some r' ∧ row_evolves r r'.

Lemma row_evolves_refl r : row_evolves r r.
Proof. split; try done. constructor. Qed.

Lemma evolves_same s s' : patches s' = patches s → evolves s s'.
Proof. intros Heq k r Hk. exists r. rewrite Heq. split; [done|apply row_evolves_refl]. Qed.

Lemma set_patch_evolves s s' k r r' :
  patches s !! k = Some r → patches s' = <[k := r']> (patches s) → row_evolves r r' → evolves s s'.
Proof.
  intros Hk Hp Hr k0 r0 Hk0. rewrite Hp. destruct (decide (k0 = k)) as [->|Hne].
  - exists r'. rewrite lookup_insert_eq. split; [done|congruence].
  - exists r0. rewrite lookup_insert_ne by done. split; [done|apply row_evolves_refl].
Qed.

Lemma update_patch_evolves s k guard f s' :
  store_ok s → update_patch s k guard f = Some s' →
  (∀ r, row_ok (builds s) k r → guard r = true → row_evolves r (f r)) → evolves s s'.
Proof.
  intros Hok (r & Hk & Hg & ->)%update_patch_Some Hf. eapply set_patch_evolves; [done|reflexivity|].
  apply Hf; [by apply Hok|done].
Qed.

Lemma drivable_not_terminal st : drivable st = true → is_terminal st = true → False.
Proof. by destruct st. Qed.

Lemma ingress_evolves s now input o s' : ingress_patch s now input = Ok (o, s') → evolves s s'.
Proof.
  unfold ingress_patch. destruct (patches s !! in_patch_key input) as [r|] eqn:Hk.
  { intros Heq. injection Heq as _ <-. by apply evolves_same. }
  assert (∀ s2 row, patches s2 = <[in_patch_key input := row]> (patches s) → evolves s s2) as Hnew.
  { intros s2 row Hp k r Hr. exists r. rewrite Hp, lookup_insert_ne by congruence.
    split; [done|apply row_evolves_refl]. }
  destruct (sibling_unsettled s (in_instance input)); simpl.
  - intros Heq. injection Heq as _ <-. by eapply Hnew.
  - destruct (insert_task_builds _ _ _ _) as [s2|] eqn:Hi; [|done]. simpl. intros Heq.
    injection Heq as _ <-. apply ingress_fresh_builds in Hi as (Hp & _). by eapply Hnew.
Qed.

Lemma settle_evolves s k t result guard at_ :
  evolves s (settle_task_build s k t result guard at_).2.
Proof.
  destruct (settle_cases s k t guard at_) as [(p & b & Hp & Hst & Hb & Hm)|Hlost];
    [|rewrite settle_lost by done; by apply evolves_same].
  rewrite (settle_won s k t result guard at_ p b) by done. destruct result as [|error]; simpl.
  - destruct (all_built _ k); simpl; [|by apply evolves_same].
    eapply set_patch_evolves; [done|reflexivity|]. split; try done; rewrite Hst; [|done]. constructor.
  - eapply set_patch_evolves; [done|reflexivity|]. split; try done; rewrite Hst; [|done]. constructor.
Qed.

Lemma moves_trans st1 st2 st3 : moves st1 st2 → moves st2 st3 → moves st1 st3.
Proof.
  intros [| | | |st st' Hst Hst'] H2; inversion H2 as [| | | |? ? Hx Hy]; subst;
    try by (constructor; auto).
  all: try (apply moves_settled; [done|exact Hy]).
  all: try by destruct Hst'; subst.
Qed.

Lemma row_evolves_trans r1 r2 r3 : row_evolves r1 r2 → row_evolves r2 r3 → row_evolves r1 r3.
Proof.
  intros [] []. split; try congruence.
  - by eapply moves_trans.
  - intros Ht. rewrite (re_final1 ltac:(by rewrite (re_final0 Ht))). auto.
Qed.

Lemma evolves_trans s1 s2 s3 : evolves s1 s2 → evolves s2 s3 → evolves s1 s3.
Proof.
  intros H12 H23 k r1 Hk1. destruct (H12 k r1 Hk1) as (r2 & Hk2 & ?).
  destruct (H23 k r2 Hk2) as (r3 & ? & ?). exists r3. split; [done|by eapply row_evolves_trans].
Qed.

Lemma drive_evolves r st lease now :
  drivable (pr_status r) = true → st = Submitted →
  row_evolves r (with_lease lease (with_status st now r)).
Proof.
  intros Hd ->. split; try done; simpl.
  - destruct (pr_status r); try done; constructor.
  - by destruct (pr_status r).
Qed.

Lemma lease_evolves r lease :
  drivable (pr_status r) = true → row_evolves r (with_lease lease r).
Proof. intros Hd. split; try done; [constructor|]. by destruct (pr_status r). Qed.

Lemma mark_submitted_evolves s k now : store_ok s → evolves s (mark_patch_submitted s k now).2.
Proof.
  intros Hok. unfold mark_patch_submitted.
  destruct (update_patch _ _ _ _) as [s'|] eqn:Hu; [|by apply evolves_same].
  eapply update_patch_evolves; [done|done|]. intros r _ Hd.
  exact (drive_evolves r Submitted (pr_lease r) now Hd eq_refl).
Qed.

Lemma lease_one_patch_evolves owner now expires kr st lease st' :
  store_ok st.1 → lease_one_patch fresh_token owner now expires kr st = Ok (lease, st') →
  evolves st.1 st'.1.
Proof.
  destruct st as [s n]. simpl. intros Hok. destruct (update_patch _ _ _ _) as [s'|] eqn:Hu; [|done].
  simpl. intros Heq. injection Heq as _ <-. simpl. eapply update_patch_evolves; [done|done|].
  intros r _ [Hd _]%andb_true_iff. by apply lease_evolves.
Qed.

Lemma lease_lifecycle_evolves s n owner now expires before limit leases s' n' :
  store_ok s →
  lease_patch_lifecycle uuid_leb fresh_token s n owner now expires before limit
    = Ok (leases, (s', n')) → evolves s s'.
Proof.
  intros Hok. unfold lease_patch_lifecycle. destruct (validate_patch_lease_request _ _ _ _ _); [|done].
  simpl. intros Ht. apply (traverse_inv _ (λ st, store_ok st.1 ∧ evolves s st.1)) in Ht;
    [by apply Ht| |split; [done|by apply evolves_same]].
  intros x st y st' [Hst Hev] Hx. split; [by eapply lease_one_patch_ok|].
  eapply evolves_trans; [done|by eapply lease_one_patch_evolves].
Qed.

Lemma lease_builds_patches s n owner now expires limit leases s' n' :
  lease_patch_build_tasks uuid_leb fresh_token s n owner now expires limit = Ok (leases, (s', n')) →
  patches s' = patches s.
Proof.
  unfold lease_patch_build_tasks. destruct (validate_patch_lease_request _ _ _ _ _); [|done].
  simpl. intros Ht. apply (traverse_inv _ (λ st, patches st.1 = patches s)) in Ht; [done| |done].
  intros [[k t] b] [s1 m] y st' Hst. simpl in Hst |- *.
  destruct (patches s1 !! k) as [p|]; [|done]. simpl.
  destruct (build_expression _ _); [|done]. simpl.
  destruct (update_build _ _ _ _ _) as [s2|] eqn:Hu; [|done]. simpl. intros Heq.
  injection Heq as _ <-. by apply update_build_Some in Hu as (? & _ & _ & ->).
Qed.

Lemma lease_builds_evolves s n owner now expires limit leases s' n' :
  lease_patch_build_tasks uuid_leb fresh_token s n owner now expires limit = Ok (leases, (s', n')) →
  evolves s s'.
Proof. intros Heq%lease_builds_patches. by apply evolves_same. Qed.

Lemma settle_submission_evolves s k owner token now :
  store_ok s → evolves s (settle_leased_patch_submission s k owner token now).2.
Proof.
  intros Hok. unfold settle_leased_patch_submission.
  destruct (update_patch _ _ _ _) as [s'|] eqn:Hu; [|by apply evolves_same].
  eapply update_patch_evolves; [done|done|]. intros r _ [Hd _]%andb_true_iff.
  by apply drive_evolves.
Qed.

Lemma release_evolves s k owner token :
  store_ok s → evolves s (release_patch_lifecycle_lease s k owner token).2.
Proof.
  intros Hok. unfold release_patch_lifecycle_lease.
  destruct (update_patch _ _ _ _) as [s'|] eqn:Hu; [|by apply evolves_same].
  eapply update_patch_evolves; [done|done|]. intros r [_ Hl] Hg. apply lease_evolves.
  destruct (pr_lease r); [|done]. apply Hl. eauto.
Qed.

Lemma correlate_evolves s k instance outcome now :
  store_ok s → evolves s (correlate_patch_outcome s k instance outcome now).2.
Proof.
  intros Hok. unfold correlate_patch_outcome.
  destruct (update_patch _ _ _ _) as [s'|] eqn:Hu; [|by apply evolves_same].
  eapply update_patch_evolves; [done|done|]. intros r _ Hg. unfold unsettled_on in Hg.
  apply andb_true_iff in Hg as [_ Ht%negb_true_iff].
  destruct outcome; (split; try done; simpl; [apply moves_settled; auto|congruence]).
Qed.

Lemma step_evolves s s' : step s s' → store_ok s → evolves s s'.
Proof.
  destruct 1; intros Hok.
  - by eapply ingress_evolves.
  - by eapply lease_builds_evolves.
  - apply settle_evolves.
  - by apply mark_submitted_evolves.
  - by eapply lease_lifecycle_evolves.
  - by apply settle_submission_evolves.
  - by apply release_evolves.
  - by apply correlate_evolves.
Qed.

(** A patch gets all of its builds when it is submitted, and what was built stays
    so. *)
Definition builds_kept (s s' : Store (Uuid := Uuid)) : Prop :=
  ∀ k r t b', patches s !! k = Some r → builds s' !! (k, t) = Some b' →
    ∃ b, builds s !! (k, t) = Some b ∧ (b_status b = build_success → b_status b' = build_success).

Lemma builds_kept_same s s' : builds s' = builds s → builds_kept s s'.
Proof. intros Heq k r t b' _. rewrite Heq. eauto. Qed.

Lemma builds_kept_trans s1 s2 s3 :
  evolves s1 s2 → builds_kept s1 s2 → builds_kept s2 s3 → builds_kept s1 s3.
Proof.
  intros Hev H12 H23 k r t b3 Hk Hb3. destruct (Hev _ _ Hk) as (r2 & Hk2 & _).
  destruct (H23 _ _ _ _ Hk2 Hb3) as (b2 & Hb2 & H2). destruct (H12 _ _ _ _ Hk Hb2) as (b1 & Hb1 & H1). eauto.
Qed.

Lemma update_patch_builds s k guard f s' : update_patch s k guard f = Some s' → builds s' = builds s.
Proof. by intros (r & _ & _ & ->)%update_patch_Some. Qed.

Lemma ingress_builds_kept s now input o s' :
  store_ok s → ingress_patch s now input = Ok (o, s') → builds_kept s s'.
Proof.
  intros Hok. unfold ingress_patch.
  destruct (patches s !! in_patch_key input) as [r|] eqn:Hk; [intros [= _ <-]; by apply builds_kept_same|].
  destruct (sibling_unsettled s (in_instance input)); simpl; [intros [= _ <-]; by apply builds_kept_same|].
  destruct (insert_task_builds _ _ _ _) as [s2|] eqn:Hi; [|done]. intros [= _ <-].
  apply ingress_fresh_builds in Hi as (_ & Ho & _). intros k r t b' Hr Hb'.
  rewrite Ho in Hb' by congruence. eauto.
Qed.

Lemma update_build_kept s k t guard f s' :
  update_build s k t guard f = Some s' →
  (∀ b, guard b = true → b_status b = build_success → b_status (f b) = build_success) → builds_kept s s'.
Proof.
  intros (b & Hb & Hg & ->)%update_build_Some Hf k' r t' b' _. simpl. rewrite lookup_insert_Some.
  intros [[[= <- <-] <-]|[_ Hb']]; eauto.
Qed.

Lemma lease_builds_kept s n owner now expires limit leases s' n' :
  lease_patch_build_tasks uuid_leb fresh_token s n owner now expires limit = Ok (leases, (s', n')) →
  builds_kept s s'.
Proof.
  unfold lease_patch_build_tasks. destruct (validate_patch_lease_request _ _ _ _ _); [|done]. simpl. intros Ht.
  apply (traverse_inv _ (λ st, evolves s st.1 ∧ builds_kept s st.1)) in Ht;
    [by apply Ht| |split; [by apply evolves_same|by apply builds_kept_same]].
  intros [[k t] b] [s1 m] y st' [Hev Hst]. simpl in *.
  destruct (patches s1 !! k) as [p|]; [|done]. simpl.
  destruct (build_expression _ _); [|done]. simpl.
  destruct (update_build _ _ _ _ _) as [s2|] eqn:Hu; [|done]. simpl. intros [= _ <-]. simpl. split.
  - eapply evolves_trans; [done|]. apply evolves_same. by apply update_build_Some in Hu as (? & _ & _ & ->).
  - eapply builds_kept_trans; [done..|]. by eapply update_build_kept.
Qed.

Lemma settle_builds_kept s k t result guard at_ :
  builds_kept s (settle_task_build s k t result guard at_).2.
Proof.
  destruct (settle_cases s k t guard at_) as [(p & b & Hp & Hst & Hb & Hm)|Hlost];
    [|rewrite settle_lost by done; by apply builds_kept_same].
  assert (builds_kept s (built_store s k t result at_ b)) as Hkept.
  { intros k' r t' b' _. simpl. rewrite lookup_insert_Some. intros [[[= <- <-] <-]|[_ Hb']]; [|eauto].
    exists b. split; [done|]. apply andb_true_iff in Hm as [Hpend%bool_decide_eq_true _]. by rewrite Hpend. }
  rewrite (settle_won s k t result guard at_ p b) by done.
  destruct result as [|error]; simpl; [destruct (all_built _ k); simpl|]; exact Hkept.
Qed.

Lemma lease_lifecycle_builds s n owner now expires before limit leases s' n' :
  lease_patch_lifecycle uuid_leb fresh_token s n owner now expires before limit
    = Ok (leases, (s', n')) → builds s' = builds s.
Proof.
  unfold lease_patch_lifecycle. destruct (validate_patch_lease_request _ _ _ _ _); [|done].
  simpl. intros Ht. apply (traverse_inv _ (λ st, builds st.1 = builds s)) in Ht; [done| |done].
  intros x [s1 m] y st' Hst. simpl in *. destruct (update_patch _ _ _ _) as [s2|] eqn:Hu; [|done].
  simpl. intros [= _ <-]. simpl. by rewrite (update_patch_builds _ _ _ _ _ Hu).
Qed.

Lemma step_builds_kept s s' : step s s' → store_ok s → builds_kept s s'.
Proof.
  destruct 1; intros Hok.
  - by eapply ingress_builds_kept.
  - by eapply lease_builds_kept.
  - apply settle_builds_kept.
  - apply builds_kept_same. unfold mark_patch_submitted.
    destruct (update_patch _ _ _ _) eqn:Hu; [by eapply update_patch_builds|done].
  - by eapply builds_kept_same, lease_lifecycle_builds.
  - apply builds_kept_same. unfold settle_leased_patch_submission.
    destruct (update_patch _ _ _ _) eqn:Hu; [by eapply update_patch_builds|done].
  - apply builds_kept_same. unfold release_patch_lifecycle_lease.
    destruct (update_patch _ _ _ _) eqn:Hu; [by eapply update_patch_builds|done].
  - apply builds_kept_same. unfold correlate_patch_outcome.
    destruct (update_patch _ _ _ _) eqn:Hu; [by eapply update_patch_builds|done].
Qed.

Lemma steps_evolve s s' : store_ok s → rtc step s s' → evolves s s'.
Proof.
  intros Hok Hs. induction Hs as [|s1 s2 s3 H12 _ IH]; [by apply evolves_same|].
  eapply evolves_trans; [by eapply step_evolves|]. apply IH. by eapply step_ok.
Qed.
End facts.

(** ** What the store promises *)

Section promises.
Context `{UuidOps Uuid} `{!Countable Uuid}.
Context (uuid_leb : Uuid → Uuid → bool) (fresh_token : nat → Uuid).

(** C6: One patch at a time: whatever transactions have run, in whatever order, an
    instance has at most one patch that is not settled: while one is not, every
    other patch of its instance is. *)
Theorem one_patch_at_a_time (s : Store (Uuid := Uuid)) k1 k2 r1 r2
    (Hreach : reachable uuid_leb fresh_token s)
    (H1 : patches s !! k1 = Some r1) (H2 : patches s !! k2 = Some r2)
    (Hinst : pr_instance r1 = pr_instance r2) (Hne : k1 ≠ k2)
    (Ht1 : is_terminal (pr_status r1) = false) :
  is_terminal (pr_status r2) = true.
Proof.
  apply not_false_is_true. intros Ht2. apply Hne.
  eapply ok_exclusive; [by eapply reachable_ok|done..].
Qed.

(** Build, then apply: a patch is submitted only when each of its builds has
    succeeded; one that is building has a build still pending and none that
    failed, so the last settlement always moves it on; one that failed has a
    failed build; and one that is being validated has no build at all. *)
Theorem builds_precede_submission (s : Store (Uuid := Uuid)) k r
    (Hreach : reachable uuid_leb fresh_token s) (Hk : patches s !! k = Some r) :
  match pr_status r with
  | Validating => ∀ t, builds s !! (k, t) = None
  | Building => (∃ t b, builds s !! (k, t) = Some b ∧ b_status b = build_pending) ∧
                ∀ t b, builds s !! (k, t) = Some b → b_status b ≠ build_failure
  | Submitted => ∀ t b, builds s !! (k, t) = Some b → b_status b = build_success
  | BuildFailed => ∃ t b, builds s !! (k, t) = Some b ∧ b_status b = build_failure
  | Applied | Rejected => True
  end.
Proof. exact (proj1 (ok_rows _ (reachable_ok _ _ _ Hreach) k r Hk)). Qed.

(** A patch row is never lost and keeps what was submitted; its status moves
    only from validating or building to submitted, from building to failed, and
    from an unsettled status to applied or rejected; and a settled row never
    changes again, whatever transactions follow. *)
Theorem patch_rows_evolve (s s' : Store (Uuid := Uuid)) k r
    (Hreach : reachable uuid_leb fresh_token s)
    (Hsteps : rtc (step uuid_leb fresh_token) s s') (Hk : patches s !! k = Some r) :
  ∃ r', patches s' !! k = Some r' ∧ row_evolves r r'.
Proof. eapply steps_evolve; [by eapply reachable_ok|done|done]. Qed.

(** The patch is building, and its build row may be settled under the guard. *)
Definition settleable (s : Store (Uuid := Uuid)) k t guard at_ : Prop :=
  ∃ p b, patches s !! k = Some p ∧ pr_status p = Building ∧ builds s !! (k, t) = Some b ∧
         may_settle guard at_ b = true.

(** Settling a build answers what happened: only under the caller's own unexpired
    lease, or without one on an unleased row, does it change anything; a success
    submits the patch exactly when every build has then succeeded and otherwise
    leaves it waiting; a failure fails the patch; and every losing answer leaves
    the tables as they were. *)
Theorem settle_task_build_correct (s : Store (Uuid := Uuid)) k t result guard at_ :
  let '(o, s') := settle_task_build s k t result guard at_ in
  match o with
  | BuildSettled (BuildSubmitted row) =>
      result = TaskSuccess ∧ settleable s k t guard at_ ∧ patches s' !! k = Some row ∧
      pr_status row = Submitted ∧ ∀ t' b', builds s' !! (k, t') = Some b' → b_status b' = build_success
  | BuildSettled AwaitingTasks =>
      result = TaskSuccess ∧ settleable s k t guard at_ ∧ patches s' = patches s ∧
      ∃ t' b', builds s' !! (k, t') = Some b' ∧ b_status b' ≠ build_success
  | BuildSettled BuildHasFailed =>
      (∃ error, result = TaskFailure error) ∧ settleable s k t guard at_ ∧
      ∃ row, patches s' !! k = Some row ∧ pr_status row = BuildFailed
  | BuildSettled (BuildAlreadySettled st) =>
      s' = s ∧ st ≠ Building ∧ ∃ p, patches s !! k = Some p ∧ pr_status p = st
  | BuildSettled TaskAlreadySettled =>
      s' = s ∧ ∃ b, builds s !! (k, t) = Some b ∧
                    (b_status b ≠ build_pending ∨ (guard = None ∧ is_Some (b_lease b)))
  | BuildSettled BuildAbsent => s' = s ∧ (patches s !! k = None ∨ builds s !! (k, t) = None)
  | BuildLeaseLost =>
      s' = s ∧ ∃ owner token b, guard = Some (owner, token) ∧ builds s !! (k, t) = Some b ∧
        b_status b = build_pending ∧ lease_held owner token at_ (b_lease b) = false
  end.
Proof.
  destruct (settle_cases s k t guard at_) as [(p & b & Hp & Hst & Hb & Hm)|Hlost].
  { rewrite (settle_won s k t result guard at_ p b) by done.
    assert (settleable s k t guard at_) as Hsett by (exists p, b; done).
    destruct result as [|error]; simpl.
    - destruct (all_built _ k) eqn:Hall; simpl.
      + rewrite lookup_insert_eq. split_and!; try done. exact (proj1 (all_built_spec _ _) Hall).
      + split_and!; try done. apply (pending_exists (built_store s k t TaskSuccess at_ b)).
        by rewrite <- all_built_spec, Hall.
    - split_and!; [by exists error|done|]. eexists. by rewrite lookup_insert_eq. }
  pose proof (settle_lost s k t result guard at_ Hlost) as Hs.
  destruct (settle_task_build s k t result guard at_) as [o s'] eqn:Heq. simpl in Hs. subst s'.
  revert Heq. unfold settle_task_build, building.
  destruct (patches s !! k) as [p|] eqn:Hp; [|intros Heq; injection Heq as <-; auto].
  case_bool_decide as Hst; simpl; [|intros Heq; injection Heq as <-; eauto].
  unfold update_build. destruct (builds s !! (k, t)) as [b|] eqn:Hb.
  2: { destruct guard as [[]|]; intros Heq; injection Heq as <-; auto. }
  fold (may_settle guard at_ b). rewrite (Hlost p b) by done. specialize (Hlost p b eq_refl Hst eq_refl).
  unfold may_settle in Hlost. destruct guard as [[owner token]|].
  - case_bool_decide as Hpend; intros Heq; injection Heq as <-; [|by eauto 10].
    split; [done|]. exists owner, token, b. done.
  - intros Heq. injection Heq as <-. split; [done|]. exists b. split; [done|].
    case_bool_decide; [right|by left]. by destruct (b_lease b).
Qed.

(** *** Leases of builds *)

Definition lease_key (lease : LeasedPatchBuildTask) : Uuid * Uuid := (lb_key lease, lb_task lease).

Definition build_leaseable (now : Z) (b : BuildRow Uuid) : bool :=
  bool_decide (b_status b = build_pending) && lease_free now (b_lease b).

Definition granted (s s' : Store (Uuid := Uuid)) (now : Z) : LeasedPatchBuildTask → Prop :=
  grants builds b_lease (build_leaseable now) lease_key lb_lease s s'.

Lemma lease_one_build_inv owner now expires :
  leases_one builds b_lease (build_leaseable now) lease_key lb_lease
    (λ n, mkLease owner (fresh_token n) expires) (lease_one_build fresh_token owner now expires).
Proof.
  intros [[k t] b0] s n lease s' n'. simpl. destruct (patches s !! k) as [p|]; [|done]. simpl.
  destruct (build_expression _ _) as [path|]; [|done]. simpl.
  destruct (update_build _ _ _ _ _) as [s1|] eqn:Hu; [|done]. simpl.
  intros Heq. injection Heq as <- <- <-.
  apply update_build_Some in Hu as (b & Hb & Hfree & ->). split_and!; try done.
  - split; [eauto|]. eexists. simpl. rewrite lookup_insert_eq. done.
  - intros kt Hne. by apply lookup_insert_ne.
Qed.

(** Leases are exclusive: a batch hands out each build at most once, each under
    its own fresh token, only when the build is pending and no unexpired lease
    stands on it; the row then carries that lease, and until it expires no scan
    offers the build again. *)
Theorem build_leases_exclusive (s : Store (Uuid := Uuid)) n owner now expires limit leases s' n'
    (Hlease : lease_patch_build_tasks uuid_leb fresh_token s n owner now expires limit
              = Ok (leases, (s', n'))) :
  (now < expires)%Z ∧ length leases ≤ limit ∧ NoDup (lease_key <$> leases) ∧
  lb_lease <$> leases = (λ i, mkLease owner (fresh_token i) expires) <$> seq n (length leases) ∧
  ∀ lease, lease ∈ leases → granted s s' now lease ∧
    ∀ later, (later < expires)%Z → lease_key lease ∉ (eligible_builds uuid_leb s' later).*1.
Proof.
  unfold lease_patch_build_tasks, validate_patch_lease_request in Hlease.
  destruct (validate_lease_request _ _ _ _ _) as [[]|] eqn:Hv; [|done]. simpl in Hlease.
  apply validate_lease_request_ok in Hv as (_ & _ & Hexp & _).
  destruct (lease_batch _ _ _ _ _ _ _ (lease_one_build_inv owner now expires)
              _ _ _ _ _ _ (take_select_NoDup limit (leq_build uuid_leb) (build_eligible s now) (builds s))
              Hlease) as (Hkeys & Hgr & Htok & _).
  split_and!; [done| |rewrite Hkeys; apply take_select_NoDup|done|].
  - rewrite <- (length_fmap lease_key leases), Hkeys, length_fmap, length_take. lia.
  - intros lease Hin. rewrite Forall_forall in Hgr. split; [by apply Hgr|]. intros later Hlater.
    destruct (Hgr lease Hin) as [_ (b' & Hb' & Hl')].
    eapply (leased_not_scanned builds b_lease); [|done|done|].
    + intros r [[_ Hfree]%andb_true_iff _]%andb_true_iff. exact Hfree.
    + destruct (lease_of_batch _ _ _ _ _ Htok Hin) as [i ->]. done.
Qed.
End promises.

(** ** A run

    A patch with one task is taken in, leased, built and applied. *)

Definition demo_input : PatchIngressInput (Uuid := bit_uuid) :=
  let task := mkTaskDefinition (uuid_to_string (unary 1)) "" "load" 0 "./f#load" [] [] [] [] 3 None
                None [] [] false in
  mkPatchIngressInput (unary 5) (unary 6) (unary 9) [add_node_op (unary 1) (Some task)] None None
    External (mkPatchSource "{}" Format_Json) [(unary 1, [])].

Definition demo_leb (_ _ : bit_uuid) : bool := true.

Definition demo_ingressed : Store (Uuid := bit_uuid) :=
  match ingress_patch empty_store 0 demo_input with Ok (_, s) => s | Err _ => empty_store end.

Definition demo_leases : list LeasedPatchBuildTask * (Store (Uuid := bit_uuid) * nat) :=
  match lease_patch_build_tasks demo_leb unary demo_ingressed 0 "w" 1 9 8 with
  | Ok r => r
  | Err _ => ([], (demo_ingressed, 0))
  end.

Definition demo_built : Store (Uuid := bit_uuid) :=
  (settle_task_build demo_leases.2.1 (unary 5) (unary 1) TaskSuccess (Some ("w", unary 0)) 3).2.

Lemma demo_leased :
  lease_patch_build_tasks demo_leb unary demo_ingressed 0 "w" 1 9 8
  = Ok (demo_leases.1, (demo_leases.2.1, demo_leases.2.2)).
Proof. vm_compute. reflexivity. Qed.

Lemma demo_reachable : reachable demo_leb unary demo_ingressed.
Proof.
  eapply rtc_once, (step_ingress _ _ _ 0 demo_input (IngressAccepted Building)).
  vm_compute. reflexivity.
Qed.

Lemma demo_steps : rtc (step demo_leb unary) demo_ingressed demo_built.
Proof.
  eapply rtc_l; [exact (step_lease_builds _ _ _ _ _ _ _ _ _ _ _ demo_leased)|].
  apply rtc_once, step_settle_build.
Qed.

Definition demo_row (s : Store (Uuid := bit_uuid)) : PatchRow bit_uuid :=
  match patches s !! unary 5 with
  | Some r => r
  | None => mkPatchRow (unary 0) (unary 0) Rejected [] None None None External
              (mkPatchSource "" Format_Json) None 0 None
  end.

(** A second patch of the same instance, taken in while the first is building. *)
Definition rival_input : PatchIngressInput (Uuid := bit_uuid) :=
  mkPatchIngressInput (unary 7) (unary 8) (unary 9) [] None None External
    (mkPatchSource "{}" Format_Json) [].

Definition rival_ingressed : Store (Uuid := bit_uuid) :=
  match ingress_patch demo_ingressed 1 rival_input with Ok (_, s) => s | Err _ => empty_store end.

Definition rival_row : PatchRow bit_uuid :=
  mkPatchRow (unary 8) (unary 9) Rejected [] None (Some REJECT_IN_PROGRESS) None External
    (mkPatchSource "{}" Format_Json) None 1 None.

Lemma rival_reachable : reachable demo_leb unary rival_ingressed.
Proof.
  eapply rtc_r; [exact demo_reachable|].
  eapply (step_ingress _ _ _ 1 rival_input). vm_compute. reflexivity.
Qed.

Lemma one_patch_at_a_time_witness :
  patches rival_ingressed !! unary 7 = Some rival_row ∧ is_terminal (pr_status rival_row) = true.
Proof.
  split; [vm_compute; reflexivity|].
  apply (one_patch_at_a_time demo_leb unary rival_ingressed (unary 5) (unary 7)
           (demo_row rival_ingressed) rival_row rival_reachable);
    first [discriminate | vm_compute; reflexivity].
Defined.

Lemma builds_precede_submission_witness :
  ∃ t b, builds demo_ingressed !! (unary 5, t) = Some b ∧ b_status b = build_pending.
Proof.
  apply (builds_precede_submission demo_leb unary demo_ingressed (unary 5)
           (demo_row demo_ingressed) demo_reachable).
  vm_compute. reflexivity.
Defined.

Lemma patch_rows_evolve_witness :
  ∃ r', patches demo_built !! unary 5 = Some r' ∧ pr_status r' = Submitted ∧
        row_evolves (demo_row demo_ingressed) r'.
Proof.
  destruct (patch_rows_evolve demo_leb unary demo_ingressed demo_built (unary 5)
              (demo_row demo_ingressed) demo_reachable demo_steps) as (r' & Hr' & Hev);
    [vm_compute; reflexivity|].
  exists r'. split; [exact Hr'|]. split; [|exact Hev].
  assert (pr_status <$> patches demo_built !! unary 5 = Some Submitted) as Hs
    by (vm_compute; reflexivity).
  rewrite Hr' in Hs. by injection Hs.
Defined.

Lemma build_leases_exclusive_witness :
  length demo_leases.1 = 1 ∧
  ∀ lease, lease ∈ demo_leases.1 →
    lease_key lease ∉ (eligible_builds demo_leb demo_leases.2.1 5).*1.
Proof.
  split; [vm_compute; reflexivity|]. intros lease Hin.
  apply (build_leases_exclusive demo_leb unary demo_ingressed 0 "w" 1 9 8 demo_leases.1
           demo_leases.2.1 demo_leases.2.2 demo_leased); [exact Hin|lia].
Defined.
