(* ===== verification/PatchPipeline.v ===== *)
(** * The patch pipeline

    [conductor/src/patch_pipeline.rs] after the document, and the reconciler of
    [conductor/src/patch_pipeline/local.rs]: ingress, the finalizer of a build, the
    correlation of outcomes, the re-drive pass, and the worker that scans the
    tables.  Each function is a program over the transactions of [PatchStore]; the
    messages are the envelopes handed to the relay. *)

From S2P Require Import Prelude Workflow Json Uuid Leases Programs Workers PatchDocument PatchStore.

(** ** Messages of [proto/patch.proto] *)

Record PatchEnvelope := mkPatchEnvelope {
  env_workflow_instance_id : string;
  env_patch_key : string;
  env_ops : list AddressedPatchOp;
  env_reason : option string;
  env_provenance : Z;
  env_operation : option PatchOperation
}.

Inductive PatchOutcomeKind :=
| Outcome_Applied (version : Z)
| Outcome_Rejected (reason : string).

Record PatchOutcome := mkPatchOutcome {
  po_workflow_instance_id : string;
  po_patch_key : string;
  po_outcome : option (option PatchOutcomeKind);
  po_reshaped_graph_json : option string
}.

Definition provenance_to_proto (p : PatchProvenance) : Z :=
  match p with External => 0 | SelfEmitted => 1 end.

(** ** The document's entry points *)

Section parse.
Context `{UuidOps Uuid} (jsonpath_ok : string → bool) (fresh : nat → Uuid).
Context (nickel_eval : string → result string string).
Context (from_str : string → option (RawPatchDocument Uuid)).

(** [PatchError::Parse]: an evaluation that fails, text that does not
    deserialize, or a document that is refused. *)
Inductive ParseError :=
| EvaluationError (message : string)
| NotADocument
| DocumentRefused (e : PatchError).

Definition parse_json (json : string) : result ParsedPatch ParseError :=
  let? raw := ok_or (from_str json) NotADocument in
  map_err DocumentRefused (parse_patch_document_json jsonpath_ok fresh json raw).

Definition parse_patch_document (nickel_source : string) : result ParsedPatch ParseError :=
  let? json := map_err EvaluationError (nickel_eval nickel_source) in
  let? parsed := parse_json json in
  Ok (mkParsedPatch (pp_ops parsed) (pp_operation parsed) (pp_reason parsed) (pp_stall_ttl parsed)
        (mkPatchSource nickel_source Format_Nickel)).

(** A document a task puts out: Nickel text, or the evaluated document. *)
Definition parse_self_patch_document (to_string : Json → string) (value : Json)
    : result ParsedPatch ParseError :=
  match value with
  | JString nickel_source => parse_patch_document nickel_source
  | other => parse_json (to_string other)
  end.
End parse.

Section pipeline.
Context `{UuidOps Uuid} `{!Countable Uuid}.
Context (uuid_bytes : Uuid → string) (uuid_leb : Uuid → Uuid → bool) (fresh_token : nat → Uuid).

Abbreviation store := (Store (Uuid := Uuid)).
Abbreviation row := (PatchStore.PatchRow Uuid).

(** The tables and the next lease token. *)
Abbreviation tables := (store * nat)%type.
Abbreviation failure := (RepositoryError StoreError).
Abbreviation await := (Await tables PatchEnvelope StoreError Uuid).
Abbreviation program A := (prog await failure (result A failure)).

Definition patch_key (workflow_instance_id patch_id : Uuid) : Uuid :=
  uuid_new_v5 workflow_instance_id (uuid_bytes patch_id).

(** A transaction that draws no token, and one that cannot be refused. *)
Definition on_store {X} (f : Z → store → result (X * store) StoreError) (now : Z) (st : tables)
    : result (X * tables) StoreError :=
  let? r := f now st.1 in
  Ok (r.1, (r.2, st.2)).

Definition always {X} (f : Z → store → X * store) (now : Z) (s : store)
    : result (X * store) StoreError := Ok (f now s).

Definition reading {X} (f : Z → store → X) (now : Z) (s : store) : X * store := (f now s, s).

Definition transaction {X} (f : Z → store → result (X * store) StoreError) : program X :=
  call (Transact (on_store f)).

(** ** Rows as the pipeline hands them out *)

Record PatchRow := mkRow {
  row_patch_key : Uuid;
  row_patch_id : Uuid;
  row_workflow_instance_id : Uuid;
  row_status : string;
  row_ops : list AddressedPatchOp;
  row_reason : option string;
  row_outcome : option string;
  row_applied_version : option Z;
  row_provenance : PatchProvenance;
  row_operation : option PatchOperation
}.

Definition row_is_terminal (r : PatchRow) : bool :=
  bool_decide (row_status r = "Applied") || bool_decide (row_status r = "Rejected")
  || bool_decide (row_status r = "BuildFailed").

Definition row_from_repository (key : Uuid) (r : row) : PatchRow :=
  mkRow key (pr_patch_id r) (pr_instance r) (status_as_str (pr_status r)) (pr_ops r) (pr_reason r)
    (pr_outcome r) (pr_applied_version r) (pr_provenance r) (pr_operation r).

Definition envelope_from_repository_row (key : Uuid) (r : row) : PatchEnvelope :=
  mkPatchEnvelope (uuid_to_string (pr_instance r)) (uuid_to_string key) (pr_ops r) (pr_reason r)
    (provenance_to_proto (pr_provenance r)) (pr_operation r).

(** ** Ingress *)

Record PatchTaskBuildJob := mkPatchTaskBuildJob {
  pj_patch_key : Uuid;
  pj_workflow_instance_id : Uuid;
  pj_task_id : Uuid;
  pj_nix_expression_path : string
}.

Inductive PatchIngress :=
| Ingress_Accepted (patch_id patch_key : Uuid) (build_jobs : list PatchTaskBuildJob)
| Ingress_RejectedInProgress (patch_id patch_key : Uuid) (reason : string)
| Ingress_Replayed (r : PatchRow).

Definition ingress_input (instance patch_id : Uuid) (parsed : ParsedPatch) (provenance : PatchProvenance)
    : PatchIngressInput (Uuid := Uuid) :=
  mkPatchIngressInput (patch_key instance patch_id) patch_id instance (pp_ops parsed)
    (pp_operation parsed) (pp_reason parsed) provenance (pp_source parsed)
    ((λ t : Uuid * TaskDefinition, (t.1, task_routing_vars t.2)) <$> new_tasks parsed).

(** A failed send leaves the row to the re-drive. *)
Definition process_patch (workflow_instance_id patch_id : Uuid) (parsed : ParsedPatch)
    (provenance : PatchProvenance) : program PatchIngress :=
  let key := patch_key workflow_instance_id patch_id in
  let*? ingress := transaction (λ now s,
    ingress_patch s now (ingress_input workflow_instance_id patch_id parsed provenance)) in
  match ingress with
  | IngressExisting r => Ret (Ok (Ingress_Replayed (row_from_repository key r)))
  | IngressRejectedInProgress reason => Ret (Ok (Ingress_RejectedInProgress patch_id key reason))
  | IngressAccepted _ =>
      match new_tasks parsed with
      | [] =>
          let envelope := mkPatchEnvelope (uuid_to_string workflow_instance_id) (uuid_to_string key)
                            (pp_ops parsed) (pp_reason parsed) (provenance_to_proto provenance)
                            (pp_operation parsed) in
          let* sent := call (Send envelope) in
          if sent : bool then
            let*? _ := transaction (always (λ now s, mark_patch_submitted s key now)) in
            Ret (Ok (Ingress_Accepted patch_id key []))
          else Ret (Ok (Ingress_Accepted patch_id key []))
      | tasks =>
          Ret (Ok (Ingress_Accepted patch_id key
                     ((λ t : Uuid * TaskDefinition,
                         mkPatchTaskBuildJob key workflow_instance_id t.1
                           (task_nix_expression_path t.2)) <$> tasks)))
      end
  end.

(** ** Builds *)

Definition build_result (outcome : BuildOutcome) : PatchTaskBuildResult :=
  match outcome with
  | BuildOutcome_Success => TaskSuccess
  | BuildOutcome_Failure error => TaskFailure error
  end.

Definition finalize_patch_after_build (key task : Uuid) (outcome : BuildOutcome)
    : program (PatchBuildSettlementOutcome Uuid) :=
  let*? settlement := transaction (λ now s,
    settle_patch_task_build s key task (build_result outcome) now) in
  match settlement with
  | BuildSubmitted r =>
      let* _ := call (Send (envelope_from_repository_row key r)) in
      Ret (Ok settlement)
  | _ => Ret (Ok settlement)
  end.

(** ** Outcomes *)

Inductive OutcomeCorrelation := Correlation_Settled | Correlation_Absorbed.

Definition correlate_outcome (outcome : PatchOutcome) : program OutcomeCorrelation :=
  match uuid_parse_str (po_patch_key outcome), uuid_parse_str (po_workflow_instance_id outcome),
        mjoin (po_outcome outcome) with
  | Some key, Some instance, Some kind =>
      let terminal := match kind with
                      | Outcome_Applied version => OutcomeApplied version
                      | Outcome_Rejected reason => OutcomeRejected reason
                      end in
      let*? correlation := transaction (always (λ now s,
        correlate_patch_outcome s key instance terminal now)) in
      Ret (Ok match correlation with
              | CorrelationWon => Correlation_Settled
              | _ => Correlation_Absorbed
              end)
  | _, _, _ => Ret (Ok Correlation_Absorbed)
  end.

(** ** Re-drive *)

(** A row as it was selected is sent even if it has moved on since. *)
Fixpoint redrive (rows : list (Uuid * row)) (sent : nat) : program nat :=
  match rows with
  | [] => Ret (Ok sent)
  | (key, r) :: rest =>
      let* ok := call (Send (envelope_from_repository_row key r)) in
      if ok : bool then
        let*? _ := transaction (always (λ now s, mark_patch_submitted s key now)) in
        redrive rest (S sent)
      else redrive rest sent
  end.

Definition redrive_unsettled (min_age : Z) : program nat :=
  let*? rows := transaction (always (reading (λ now s,
    unsettled_patches_older_than uuid_leb s (now - min_age)))) in
  redrive rows 0.

(** ** The reconciler: [patch_pipeline/local.rs] *)

Record PatchReconcilerConfig := mkPatchReconcilerConfig {
  scan_interval : Z;
  build_lease_duration : Z;
  lifecycle_lease_duration : Z;
  lifecycle_min_age : Z;
  batch_size : nat
}.

Definition process_leased_lifecycle (lease : LeasedPatchLifecycle (Uuid := Uuid)) : program unit :=
  let key := ll_key lease in
  let owner := lease_owner (ll_lease lease) in
  let token := lease_token (ll_lease lease) in
  let* sent := call (Send (envelope_from_repository_row key (ll_row lease))) in
  if sent : bool then
    let* now := call UtcNow in
    let*? _ := transaction (always (λ _ s, settle_leased_patch_submission s key owner token now)) in
    Ret (Ok tt)
  else
    let*? _ := transaction (always (λ _ s, release_patch_lifecycle_lease s key owner token)) in
    Ret (Ok tt).

Fixpoint each_lifecycle (leases : list (LeasedPatchLifecycle (Uuid := Uuid))) : program unit :=
  match leases with
  | [] => Ret (Ok tt)
  | lease :: rest =>
      let*? _ := process_leased_lifecycle lease in
      each_lifecycle rest
  end.

Definition scan_lifecycle (owner : string) (lease_duration min_age : Z) (batch : nat) : program unit :=
  let* now := call UtcNow in
  let*? work := transaction (always (reading (λ _ s,
    has_reclaimable_patch_lifecycle uuid_leb s now (now - min_age)))) in
  let* open := if work : bool then call (ClaimsOpen Pipeline_PatchBuild) else Ret false in
  if open : bool then
    let*? leases := call (Transact (λ _ st,
      lease_patch_lifecycle uuid_leb fresh_token st.1 st.2 owner now (now + lease_duration)
        (now - min_age) batch)) in
    each_lifecycle leases
  else Ret (Ok tt).

Definition patch_build_job (lease : LeasedPatchBuildTask (Uuid := Uuid)) : TaskBuildJob Uuid :=
  mkTaskBuildJob (lb_key lease) 0 (lb_task lease) (lb_nix_expression_path lease).

Definition process_leased_build (lease : LeasedPatchBuildTask (Uuid := Uuid)) : program unit :=
  let* outcome := call (ExecuteBuild (patch_build_job lease)) in
  let* now := call UtcNow in
  let*? settlement := transaction (always (λ _ s,
    settle_leased_patch_task_build s lease (build_result outcome) now)) in
  match settlement with
  | BuildSettled (BuildSubmitted r) =>
      let* _ := call (Send (envelope_from_repository_row (lb_key lease) r)) in
      Ret (Ok tt)
  | _ => Ret (Ok tt)
  end.

Definition scan_builds (owner : string) (lease_duration : Z) (batch : nat) : program unit :=
  let* now := call UtcNow in
  let*? work := transaction (always (reading (λ _ s, has_reclaimable_patch_build uuid_leb s now))) in
  let* open := if work : bool then call (ClaimsOpen Pipeline_PatchBuild) else Ret false in
  if open : bool then
    let*? leases := call (Transact (λ _ st,
      lease_patch_build_tasks uuid_leb fresh_token st.1 st.2 owner now (now + lease_duration) batch)) in
    Join (map process_leased_build leases) Ret
  else Ret (Ok tt).

Definition scan_once (owner : string) (config : PatchReconcilerConfig) (min_age : Z) : program unit :=
  let*? _ := scan_lifecycle owner (lifecycle_lease_duration config) min_age (batch_size config) in
  scan_builds owner (build_lease_duration config) (batch_size config).

(** The loop, for the wake-ups that come. *)
Fixpoint worker_loop (owner : string) (config : PatchReconcilerConfig) (wakes : list Wake) : program unit :=
  match wakes with
  | [] | Wake_Cancelled :: _ => Ret (Ok tt)
  | Wake_Tick :: wakes =>
      let*? _ := scan_once owner config (lifecycle_min_age config) in worker_loop owner config wakes
  | Wake_Notified :: wakes =>
      let*? _ := scan_once owner config 0 in worker_loop owner config wakes
  | Wake_Closed :: wakes => worker_loop owner config wakes
  end.

Definition check_config (config : PatchReconcilerConfig) : result unit WorkerRefusal :=
  let? _ := ensure (negb (scan_interval config =? 0)%Z) ZeroScanInterval in
  let? _ := ensure (build_lease_duration config <=? MAX_DURATION)%Z DurationOutOfRange in
  let? _ := ensure (lifecycle_lease_duration config <=? MAX_DURATION)%Z DurationOutOfRange in
  let? _ := ensure (0 <? build_lease_duration config)%Z NonPositiveLease in
  let? _ := ensure (0 <? lifecycle_lease_duration config)%Z NonPositiveLease in
  ensure (lifecycle_min_age config <=? MAX_DURATION)%Z DurationOutOfRange.

Definition start_local_patch_worker (owner : string) (config : PatchReconcilerConfig)
    (wakes : list Wake) : result (program unit) WorkerRefusal :=
  let? _ := check_config config in
  Ok (let*? _ := scan_once owner config 0 in worker_loop owner config wakes).

(** ** Everything that runs *)

Inductive Answer :=
| A_Ingress (r : result PatchIngress failure)
| A_Finalized (r : result (PatchBuildSettlementOutcome Uuid) failure)
| A_Correlated (r : result OutcomeCorrelation failure)
| A_Redriven (r : result nat failure)
| A_Worked (r : result unit failure).

Definition answering {A} (f : result A failure → Answer) (p : program A) : prog await failure Answer :=
  bind p (λ r, Ret (f r)).
End pipeline.
