(* ===== verification/PatchDelivery.v ===== *)
(** * Delivering patches

    The programs of [PatchPipeline] in a pool of threads over one store: what the
    envelopes sent say, which patches are sent and in which order, and that every
    patch can be settled from wherever the pool has got to. *)

From S2P Require Import Prelude Workflow Uuid Leases Programs Workers PatchDocument PatchStore PatchStoreFacts PatchPipeline.

Section delivery.
Context `{UuidOps Uuid} `{!UuidLaws Uuid} `{!Countable Uuid}.
Context (uuid_bytes : Uuid → string) (uuid_leb : Uuid → Uuid → bool) (fresh_token : nat → Uuid).

Abbreviation store := (Store (Uuid := Uuid)).
Abbreviation row := (PatchStore.PatchRow Uuid).
Abbreviation tables := (store * nat)%type.
Abbreviation failure := (RepositoryError StoreError).
Abbreviation await := (Await tables PatchEnvelope StoreError Uuid).
Abbreviation patch_world := (World tables PatchEnvelope).
Abbreviation program A := (prog await failure (result A failure)).
Abbreviation patch_step := (PatchStoreFacts.step uuid_leb fresh_token).
Abbreviation envelope := envelope_from_repository_row.
Implicit Types (w : patch_world) (k : Uuid) (r : row).

(** Which outcomes the server may report, given what has been sent. *)
Context (server : list (PatchEnvelope * bool) → PatchOutcome → Prop).

(** It reports only on patches it has been sent. *)
Definition honest : Prop :=
  ∀ l outcome, server l outcome → po_patch_key outcome ∈ env_patch_key <$> l.*1.

(** Which documents are submitted; the parser's name their tasks canonically. *)
Context (submitted : ParsedPatch → Prop).

Definition wire_ready (parsed : ParsedPatch) : Prop :=
  ∀ op id t, op ∈ pp_ops parsed → patch_op op = Some (AddNode id (Some t)) →
    ∃ u : Uuid, id = uuid_to_string u.

Definition all_wired : Prop := ∀ parsed, submitted parsed → wire_ready parsed.

(** Nothing comes in. *)
Definition idle : Prop := ∀ parsed, ¬ submitted parsed.

Inductive may_start w : prog await failure Answer → Prop :=
| start_ingress instance patch_id parsed provenance : submitted parsed →
    may_start w (answering A_Ingress (process_patch uuid_bytes instance patch_id parsed provenance))
| start_finalize key task outcome :
    may_start w (answering A_Finalized (finalize_patch_after_build key task outcome))
| start_correlate outcome : server (log w) outcome →
    may_start w (answering A_Correlated (correlate_outcome outcome))
| start_redrive min_age :
    may_start w (answering A_Redriven (redrive_unsettled uuid_leb min_age))
| start_worker owner config wakes p :
    start_local_patch_worker uuid_leb fresh_token owner config wakes = Ok p →
    may_start w (answering A_Worked p).

Definition first_world : patch_world := mkWorld (empty_store, 0) [] [].

Abbreviation patch_pool := (Pool (Op := await) (E := failure) (World := patch_world) Answer).
Abbreviation patch_pool_step := (pool_step (Env := Outside) perform may_start).

Definition delivers : patch_pool → patch_pool → Prop := pool_run perform may_start.
Definition pool_reachable (p : patch_pool) : Prop := delivers (mkPool ∅ first_world) p.

(** ** The invariant *)

Definition now_tables w : store := (now_store w).1.

(** The row was there to be sent at some time. *)
Definition offered w k r : Prop :=
  ∃ s, s ∈ stores w ∧ patches s.1 !! k = Some r ∧ drivable (pr_status r) = true.

Definition sent_key w k : Prop := uuid_to_string k ∈ env_patch_key <$> sent_messages w.

(** Every build can be told to a worker. *)
Definition buildable (s : store) : Prop :=
  ∀ k t r, is_Some (builds s !! (k, t)) → patches s !! k = Some r →
    is_Some (build_expression (pr_ops r) t).

Record world_ok w : Prop := {
  wo_store : ∀ s, s ∈ stores w → store_ok s.1;
  wo_past : ∀ s, s ∈ stores w → evolves s.1 (now_tables w);
  wo_builds : ∀ s, s ∈ stores w → builds_kept s.1 (now_tables w);
  wo_sent : ∀ e, e ∈ sent_messages w → ∃ k r, offered w k r ∧ e = envelope k r;
  wo_settled : honest → ∀ k r r', offered w k r → patches (now_tables w) !! k = Some r' →
    is_terminal (pr_status r') = true → sent_key w k;
  wo_buildable : all_wired → buildable (now_tables w)
}.

(** No unsettled patch and no pending build appears. *)
Record shrinks (s s' : store) : Prop := {
  sh_patches : ∀ k r', patches s' !! k = Some r' → is_terminal (pr_status r') = false →
    ∃ r, patches s !! k = Some r ∧ is_terminal (pr_status r) = false;
  sh_builds : ∀ kt b', builds s' !! kt = Some b' → b_status b' = build_pending →
    ∃ b, builds s !! kt = Some b ∧ b_status b = build_pending
}.

#[export] Instance shrinks_preorder : PreOrder shrinks.
Proof.
  split.
  - intros s. split; eauto.
  - intros s1 s2 s3 [H1 H2] [H3 H4]. split.
    + intros k r3 Hr3 Ht3. destruct (H3 _ _ Hr3 Ht3) as (r2 & Hr2 & Ht2). eauto.
    + intros kt b3 Hb3 Hp3. destruct (H4 _ _ Hb3 Hp3) as (b2 & Hb2 & Hp2). eauto.
Qed.

(** What any thread does to the world. *)
Record goes_on w w' : Prop := {
  go_extends : extends w w';
  go_evolves : evolves (now_tables w) (now_tables w');
  go_later : ∀ s, s ∈ stores w' → s ∈ stores w ∨ evolves (now_tables w) s.1;
  go_shrinks : idle → shrinks (now_tables w) (now_tables w')
}.

#[export] Instance goes_on_preorder : PreOrder goes_on.
Proof.
  split.
  - intros w. split; [done| |auto|done]. by apply evolves_same.
  - intros w1 w2 w3 [H1 H2 H3 H7] [H4 H5 H6 H8]. split; [by etrans|by eapply evolves_trans| |].
    + intros s Hs. destruct (H6 s Hs) as [Hs2|Hs2]; [auto|]. right. by eapply evolves_trans.
    + intros Hidle. etrans; eauto.
Qed.

Lemma offered_later w w' k r : goes_on w w' → offered w k r → offered w' k r.
Proof. intros [[Hst _] _ _ _] (s & Hs & Hr). exists s. auto. Qed.

Lemma first_world_ok : world_ok first_world.
Proof.
  split.
  - intros s ->%list_elem_of_singleton. apply empty_store_ok.
  - intros s ->%list_elem_of_singleton. by apply evolves_same.
  - intros s ->%list_elem_of_singleton. by apply builds_kept_same.
  - intros e []%elem_of_nil.
  - intros _ k r r' _. unfold now_tables. simpl. by rewrite lookup_empty.
  - intros _ k t r [b Hb]. unfold now_tables in Hb. simpl in Hb. by rewrite lookup_empty in Hb.
Qed.

(** Rows settle only by a failed build or once they have been sent. *)
Definition settles_sent w (s : store) : Prop :=
  honest → ∀ k r r', patches (now_tables w) !! k = Some r → patches s !! k = Some r' →
    is_terminal (pr_status r) = false → is_terminal (pr_status r') = true →
    pr_status r' = BuildFailed ∨ sent_key w k.

(** New builds come with their expressions. *)
Definition fresh_expressed w (s : store) : Prop :=
  all_wired → ∀ k t r, builds (now_tables w) !! (k, t) = None → is_Some (builds s !! (k, t)) →
    patches s !! k = Some r → is_Some (build_expression (pr_ops r) t).

Record allowed w (s : store) : Prop := {
  al_settles : settles_sent w s;
  al_expressed : fresh_expressed w s;
  al_shrinks : idle → shrinks (now_tables w) s
}.

Lemma never_builds r r' : drivable (pr_status r) = true → row_evolves r r' →
  pr_status r' ≠ BuildFailed ∧ pr_status r' ≠ Building.
Proof.
  intros Hd Hr. pose proof (re_moves _ _ Hr) as Hm.
  destruct Hm as [st| | | |st st' Hst [->| ->]]; by try destruct st.
Qed.

Lemma commit_ok w s n :
  world_ok w → patch_step (now_tables w) s ∨ s = now_tables w → allowed w s →
  world_ok (committed w (s, n)) ∧ goes_on w (committed w (s, n)).
Proof.
  intros Hok Hstep [Hsettle Hfresh Hshrink]. pose proof (wo_store _ Hok _ (list_elem_of_here _ _)) as Hnow.
  assert (store_ok s ∧ evolves (now_tables w) s ∧ builds_kept (now_tables w) s) as (Hs & Hev & Hkept).
  { destruct Hstep as [Hstep| ->]; [|split_and!; [done|by apply evolves_same|by apply builds_kept_same]].
    split_and!; [by eapply step_ok|by eapply step_evolves|by eapply step_builds_kept]. }
  assert (∀ s0, s0 ∈ stores (committed w (s, n)) → s0 = (s, n) ∨ s0 ∈ stores w) as Hstores
    by (intros s0 Hs0; by apply elem_of_cons in Hs0).
  split; [|split].
  - split.
    + intros s0 [->|H0]%Hstores; [done|by apply (wo_store _ Hok)].
    + intros s0 [->|H0]%Hstores; [by apply evolves_same|].
      eapply evolves_trans; [by apply (wo_past _ Hok)|done].
    + intros s0 [->|H0]%Hstores; [by apply builds_kept_same|].
      eapply builds_kept_trans; [by apply (wo_past _ Hok)|by apply (wo_builds _ Hok)|done].
    + intros e He. destruct (wo_sent _ Hok e He) as (k & r & (s0 & H0 & Hr) & ->).
      exists k, r. split; [|done]. exists s0. split; [by right|done].
    + intros Hh k r r' (s0 & H0 & Hr & Hd) Hr' Ht. change (patches s !! k = Some r') in Hr'.
      apply Hstores in H0 as [->|H0]; [simplify_eq/=; by destruct (pr_status r)|].
      destruct (wo_past _ Hok _ H0 _ _ Hr) as (r1 & Hr1 & He1).
      destruct (is_terminal (pr_status r1)) eqn:Ht1.
      * eapply (wo_settled _ Hok Hh k r r1); [exists s0; auto|done|done].
      * destruct (Hev _ _ Hr1) as (r2 & Hr2 & He2). assert (r2 = r') as -> by congruence.
        destruct (Hsettle Hh k r1 r' Hr1 Hr' Ht1 Ht) as [Hbf|Hsent]; [|done].
        destruct (never_builds r r' Hd (row_evolves_trans _ _ _ He1 He2)) as [? _]. done.
    + intros Hw k t r Hb Hr. change (is_Some (builds s !! (k, t))) in Hb.
      destruct (builds (now_tables w) !! (k, t)) as [b|] eqn:Hold; [|by eapply (Hfresh Hw k t)].
      destruct (ok_foreign_key _ Hnow _ _ _ Hold) as [r0 Hr0].
      destruct (Hev _ _ Hr0) as (r' & Hr' & Hrev). change (patches s !! k = Some r) in Hr.
      assert (r' = r) as -> by congruence. rewrite (re_ops _ _ Hrev).
      by eapply (wo_buildable _ Hok Hw k t).
  - split; [|done]. intros s0 H0. by right.
  - exact Hev.
  - intros s0 [->|H0]%Hstores; [by right|by left].
  - exact Hshrink.
Qed.

Lemma send_ok w k r b :
  world_ok w → offered w k r →
  let w' := mkWorld (now_store w) (past w) (log w ++ [(envelope k r, b)]) in
  world_ok w' ∧ goes_on w w'.
Proof.
  intros Hok Hoff. simpl. split; [|split].
  - split.
    + apply Hok.
    + apply Hok.
    + apply Hok.
    + intros e. unfold sent_messages. simpl. rewrite fmap_app, elem_of_app.
      intros [He| ->%list_elem_of_singleton]; [|by exists k, r]. apply (wo_sent _ Hok e He).
    + intros Hh k0 r0 r0' Hoff0 Hr Ht. unfold sent_key, sent_messages. simpl.
      rewrite !fmap_app, elem_of_app. left. eapply (wo_settled _ Hok); eauto.
    + apply Hok.
  - split; [done|]. simpl. by exists [(envelope k r, b)].
  - by apply evolves_same.
  - auto.
  - done.
Qed.

(** ** Transactions *)

(** No row settles but by a failed build, and nothing appears. *)
Record quiet (s s' : store) : Prop := {
  q_settles : ∀ k r r', patches s !! k = Some r → patches s' !! k = Some r' →
    is_terminal (pr_status r) = false → is_terminal (pr_status r') = true →
    pr_status r' = BuildFailed;
  q_builds : ∀ kt, is_Some (builds s' !! kt) → is_Some (builds s !! kt);
  q_shrinks : shrinks s s'
}.

Lemma quiet_allowed w s : quiet (now_tables w) s → allowed w s.
Proof.
  intros [Hq Hb Hsh]. split; [| |done].
  - intros _ k r r' H1 H2 H3 H4. left. by eapply Hq.
  - intros _ k t r Hnone Hs. apply Hb in Hs. rewrite Hnone in Hs. by destruct Hs.
Qed.

(** How the builds of a store may change quietly: a row is kept or settled. *)
Definition builds_settle (bs bs' : gmap (Uuid * Uuid) (BuildRow Uuid)) : Prop :=
  ∀ kt b', bs' !! kt = Some b' → ∃ b, bs !! kt = Some b ∧
    (b_status b' = build_pending → b_status b = build_pending).

Lemma builds_settle_refl bs : builds_settle bs bs.
Proof. intros kt b. eauto. Qed.

Lemma builds_settle_insert (bs : gmap (Uuid * Uuid) (BuildRow Uuid)) kt b b' :
  bs !! kt = Some b → (b_status b' = build_pending → b_status b = build_pending) →
  builds_settle bs (<[kt := b']> bs).
Proof.
  intros Hb Hst kt0 b0. rewrite lookup_insert_Some. intros [[<- <-]|[_ ?]]; eauto.
Qed.

Lemma quiet_same s s' :
  patches s' = patches s → builds_settle (builds s) (builds s') → quiet s s'.
Proof.
  intros Heq Hb. split; [| |split].
  - intros k r r' H1 H2. rewrite Heq in H2. congruence.
  - intros kt [b' Hb']. destruct (Hb _ _ Hb') as (b & ? & _). eauto.
  - rewrite Heq. eauto.
  - intros kt b' Hb' Hp. destruct (Hb _ _ Hb') as (b & ? & ?). eauto.
Qed.

Lemma quiet_refl s : quiet s s.
Proof. apply quiet_same; [done|apply builds_settle_refl]. Qed.

Lemma quiet_trans s1 s2 s3 : evolves s1 s2 → evolves s2 s3 → quiet s1 s2 → quiet s2 s3 → quiet s1 s3.
Proof.
  intros He1 He2 [Hq1 Hb1 Hs1] [Hq2 Hb2 Hs2]. split; [|auto|by etrans].
  intros k r1 r3 H1 H3 Ht1 Ht3. destruct (He1 _ _ H1) as (r2 & H2 & _).
  destruct (is_terminal (pr_status r2)) eqn:Ht2; [|by eapply (Hq2 k)].
  destruct (He2 _ _ H2) as (r3' & H3' & Hev). assert (r3' = r3) as -> by congruence.
  rewrite (re_final _ _ Hev Ht2). by eapply (Hq1 k).
Qed.

Lemma set_patch_quiet s k r r' bs specs :
  patches s !! k = Some r →
  (is_terminal (pr_status r) = true → is_terminal (pr_status r') = true) →
  (is_terminal (pr_status r) = false → is_terminal (pr_status r') = true → pr_status r' = BuildFailed) →
  builds_settle (builds s) bs → quiet s (mkStore (<[k := r']> (patches s)) bs specs).
Proof.
  intros Hk Hkeep Hf Hb. split; [| |split].
  - intros k' r1 r2 H1. simpl. rewrite lookup_insert_Some.
    intros [[<- <-]|[_ ?]]; [|congruence]. assert (r1 = r) as -> by congruence. auto.
  - intros kt [b' Hb']. destruct (Hb _ _ Hb') as (b & ? & _). eauto.
  - intros k' r2. simpl. rewrite lookup_insert_Some. intros [[<- <-]|[_ ?]] Ht; [|eauto].
    exists r. split; [done|]. destruct (is_terminal (pr_status r)); [|done]. by rewrite Hkeep in Ht.
  - intros kt b' Hb' Hp. destruct (Hb _ _ Hb') as (b & ? & ?). eauto.
Qed.

Lemma update_patch_quiet s k guard f s' :
  update_patch s k guard f = Some s' →
  (∀ r, guard r = true →
     (is_terminal (pr_status r) = true → is_terminal (pr_status (f r)) = true) ∧
     (is_terminal (pr_status r) = false → is_terminal (pr_status (f r)) = true →
        pr_status (f r) = BuildFailed)) → quiet s s'.
Proof.
  intros (r & Hk & Hg & ->)%update_patch_Some Hf. destruct (Hf r Hg).
  apply set_patch_quiet with (r := r); [done..|apply builds_settle_refl].
Qed.

Lemma task_expressed parsed t :
  wire_ready parsed →
  t ∈ ((λ t : Uuid * TaskDefinition, (t.1, task_routing_vars t.2)) <$> new_tasks parsed).*1 →
  is_Some (build_expression (pp_ops parsed) t).
Proof.
  intros Hw ([u vars] & -> & ([u' td] & [= -> _] & Hin)%list_elem_of_fmap)%list_elem_of_fmap.
  apply list_elem_of_omap in Hin as (op & Hop & Htask).
  destruct (patch_op op) as [[id [t|]| | |]|] eqn:Hpo; try done.
  destruct (Hw _ _ _ Hop Hpo) as [v ->]. rewrite uuid_parse_to_string in Htask.
  injection Htask as -> ->. unfold build_expression.
  destruct (omap _ (pp_ops parsed)) as [|path l] eqn:Hl; [|simpl; eauto]. exfalso.
  apply (not_elem_of_nil (task_nix_expression_path td)). rewrite <- Hl. apply list_elem_of_omap.
  exists op. split; [done|]. rewrite Hpo. by rewrite bool_decide_true.
Qed.

Lemma ingress_allowed w now instance patch_id parsed provenance o s :
  submitted parsed →
  ingress_patch (now_tables w) now (ingress_input uuid_bytes instance patch_id parsed provenance) = Ok (o, s) →
  allowed w s.
Proof.
  intros Hsub. unfold ingress_patch. set (input := ingress_input _ _ _ _ _).
  destruct (patches (now_tables w) !! in_patch_key input) as [r|] eqn:Hk.
  { intros [= _ <-]. apply quiet_allowed, quiet_refl. }
  assert (∀ s2 row, patches s2 = <[in_patch_key input := row]> (patches (now_tables w)) →
            settles_sent w s2) as Hnew.
  { intros s2 row Hp _ k r r' Hr. rewrite Hp, lookup_insert_ne by congruence. congruence. }
  destruct (sibling_unsettled _ (in_instance input)); simpl.
  - intros [= _ <-]. split; [by eapply Hnew| |by intros Hidle; destruct (Hidle parsed)].
    intros _ k t r Hnone. simpl. rewrite Hnone. by intros [].
  - destruct (insert_task_builds _ _ _ _) as [s2|] eqn:Hi; [|done]. simpl. intros [= _ <-].
    apply ingress_fresh_builds in Hi as Hfresh. destruct Hfresh as (Hp & Ho & _).
    split; [by eapply Hnew| |by intros Hidle; destruct (Hidle parsed)]. intros Hw k t r Hnone Hs Hr.
    destruct (decide (k = in_patch_key input)) as [->|Hne].
    + rewrite Hp in Hr. simpl in Hr. rewrite lookup_insert_eq in Hr. injection Hr as <-. simpl.
      destruct (inserted_task _ _ _ _ _ _ Hi Hs) as [[b Hold]|Hin].
      { assert (builds (now_tables w) !! (in_patch_key input, t) = Some b) by exact Hold. congruence. }
      apply task_expressed; [by apply Hw|done].
    + rewrite Ho in Hs by done. simpl in Hs. rewrite Hnone in Hs. by destruct Hs.
Qed.

Lemma settle_quiet s k t result guard at_ : quiet s (settle_task_build s k t result guard at_).2.
Proof.
  destruct (settle_cases s k t guard at_) as [(p & b & Hp & Hst & Hb & Hm)|Hlost];
    [|rewrite settle_lost by done; apply quiet_refl].
  assert (b_status b = build_pending) as Hpend.
  { unfold may_settle in Hm. apply andb_true_iff in Hm as [Hm _]. by apply bool_decide_eq_true in Hm. }
  assert (∀ r' bs specs, is_terminal (pr_status r') = false ∨ pr_status r' = BuildFailed →
    builds_settle (builds s) bs → quiet s (mkStore (<[k := r']> (patches s)) bs specs)) as Hset.
  { intros r' bs specs Hr' Hbs. apply set_patch_quiet with (r := p); [done| | |done].
    - by rewrite Hst.
    - intros _ Ht. destruct Hr' as [Hr'|Hr']; [by rewrite Hr' in Ht|done]. }
  rewrite (settle_won s k t result guard at_ p b) by done. destruct result as [|error]; simpl.
  - destruct (all_built _ k); simpl; [apply Hset; [by left|]|apply quiet_same; [done|]];
      (eapply builds_settle_insert; [done|done]).
  - apply Hset; [by right|]. eapply builds_settle_insert; [done|done].
Qed.

Lemma mark_submitted_quiet s k now : quiet s (mark_patch_submitted s k now).2.
Proof.
  unfold mark_patch_submitted. destruct (update_patch _ _ _ _) as [s'|] eqn:Hu; [|apply quiet_refl].
  eapply update_patch_quiet; [done|]. intros r. simpl. destruct (pr_status r); intros; by split.
Qed.

Lemma settle_submission_quiet s k owner token now :
  quiet s (settle_leased_patch_submission s k owner token now).2.
Proof.
  unfold settle_leased_patch_submission.
  destruct (update_patch _ _ _ _) as [s'|] eqn:Hu; [|apply quiet_refl].
  eapply update_patch_quiet; [done|]. intros r [Hd _]%andb_true_iff. revert Hd. simpl. destruct (pr_status r); intros; by split.
Qed.

Lemma release_quiet s k owner token : quiet s (release_patch_lifecycle_lease s k owner token).2.
Proof.
  unfold release_patch_lifecycle_lease.
  destruct (update_patch _ _ _ _) as [s'|] eqn:Hu; [|apply quiet_refl].
  eapply update_patch_quiet; [done|]. intros r _. simpl. split; congruence.
Qed.

Lemma lease_one_patch_quiet owner now expires kr st lease st' :
  lease_one_patch fresh_token owner now expires kr st = Ok (lease, st') → quiet st.1 st'.1.
Proof.
  destruct st as [s n]. unfold lease_one_patch, ok_or.
  destruct (update_patch _ _ _ _) as [s'|] eqn:Hu; [|done]. simpl. intros [= _ <-].
  eapply update_patch_quiet; [done|]. intros r _. simpl. split; congruence.
Qed.

Lemma lease_lifecycle_offers s n owner now expires before limit leases s' n' :
  store_ok s →
  lease_patch_lifecycle uuid_leb fresh_token s n owner now expires before limit = Ok (leases, (s', n')) →
  quiet s s' ∧ ∀ lease, lease ∈ leases →
    patches s !! ll_key lease = Some (ll_row lease) ∧ drivable (pr_status (ll_row lease)) = true.
Proof.
  intros Hok. unfold lease_patch_lifecycle. destruct (validate_patch_lease_request _ _ _ _ _); [|done].
  simpl. intros Ht. split.
  - apply (traverse_inv _ (λ st, store_ok st.1 ∧ evolves s st.1 ∧ quiet s st.1)) in Ht;
      [by apply Ht| |split_and!; [done|by apply evolves_same|apply quiet_refl]].
    intros x st y st' (Hst & Hev & Hq) Hx. pose proof (lease_one_patch_evolves _ _ _ _ _ _ _ _ Hst Hx).
    split_and!; [by eapply lease_one_patch_ok|by eapply evolves_trans|].
    eapply quiet_trans; eauto using lease_one_patch_quiet.
  - intros lease Hin.
    apply (traverse_Forall2 _ (λ kr b, ll_key b = kr.1 ∧ ll_row b = kr.2)) in Ht.
    + apply list_elem_of_lookup in Hin as [i Hi].
      destruct (Forall2_lookup_r _ _ _ _ _ Ht Hi) as ([k r] & Hkr%list_elem_of_lookup_2 & Hk & Hr).
      rewrite Hk, Hr. simpl. apply (subseteq_take limit) in Hkr. apply elem_of_sort_by, elem_of_filter_bool in Hkr as [Hkr Hd].
      apply elem_of_map_to_list in Hkr. split; [done|].
      by apply andb_true_iff in Hd as [[Hd _]%andb_true_iff _].
    + intros kr [s1 m] y st' Hy. unfold lease_one_patch, ok_or in Hy.
      destruct (update_patch _ _ _ _); [|done]. by injection Hy as <- _.
Qed.

Lemma unsettled_offered s cutoff k r :
  (k, r) ∈ unsettled_patches_older_than uuid_leb s cutoff →
  patches s !! k = Some r ∧ drivable (pr_status r) = true.
Proof.
  unfold unsettled_patches_older_than. rewrite elem_of_sort_by, elem_of_filter_bool, elem_of_map_to_list.
  intros [Hk [Hd _]%andb_true_iff]. done.
Qed.

(** Leasing a batch puts leases on rows and nothing else. *)
Lemma lease_builds_status s n owner now expires limit leases s' n' :
  lease_patch_build_tasks uuid_leb fresh_token s n owner now expires limit = Ok (leases, (s', n')) →
  ∀ kt b', builds s' !! kt = Some b' → ∃ b, builds s !! kt = Some b ∧ b_status b' = b_status b.
Proof.
  unfold lease_patch_build_tasks. destruct (validate_patch_lease_request _ _ _ _ _); [|done].
  simpl. intros Ht.
  refine (traverse_inv _ (λ st, ∀ kt b', builds st.1 !! kt = Some b' →
    ∃ b, builds s !! kt = Some b ∧ b_status b' = b_status b) _ (s, n) _ _ _ _ Ht);
    [|intros kt b' Hb'; by exists b'].
  intros [[k t] b] [s1 m] y st' Hst. simpl in Hst |- *.
  destruct (patches s1 !! k) as [p|]; [|done]. simpl.
  destruct (build_expression _ _); [|done]. simpl.
  destruct (update_build _ _ _ _ _) as [s2|] eqn:Hu; [|done]. simpl. intros Heq.
  injection Heq as _ <-. apply update_build_Some in Hu as (b1 & Hb1 & _ & ->). simpl.
  intros kt b'. rewrite lookup_insert_Some. intros [[<- <-]|[_ ?]]; [exact (Hst _ _ Hb1)|eauto].
Qed.

Lemma lease_builds_quiet s n owner now expires limit leases s' n' :
  lease_patch_build_tasks uuid_leb fresh_token s n owner now expires limit = Ok (leases, (s', n')) →
  quiet s s'.
Proof.
  intros Hl. apply quiet_same; [by eapply lease_builds_patches|]. intros kt b' Hb'.
  destruct (lease_builds_status _ _ _ _ _ _ _ _ _ Hl _ _ Hb') as (b & Hb & Hst). exists b. split; [done|congruence].
Qed.

(** ** The programs *)

Abbreviation wp := (wp perform world_ok goes_on).

Section rules.
Context {A : Type} (Q : A → patch_world → Prop).

(** A transaction of the tables: a step, whose settlements have been sent. *)
Lemma wp_tables {X} (f : Z → tables → result (X * tables) StoreError)
    (k : result X failure → prog await failure A) w :
  (∀ w2 now x s n, goes_on w w2 → world_ok w2 → f now (now_store w2) = Ok (x, (s, n)) →
     (patch_step (now_tables w2) s ∨ s = now_tables w2) ∧ allowed w2 s ∧
     (goes_on w (committed w2 (s, n)) → world_ok (committed w2 (s, n)) →
      wp (k (Ok x)) Q (committed w2 (s, n)))) →
  (∀ e w2, goes_on w w2 → world_ok w2 → wp (k (Err e)) Q w2) → wp (Call (Transact f) k) Q w.
Proof.
  intros Hok Herr. apply wp_transact; [apply _| |done]. intros w2 now x [s n] Hr Hi Hf.
  destruct (Hok _ _ _ _ _ Hr Hi Hf) as (Hstep & Hset & Hk).
  destruct (commit_ok _ _ n Hi Hstep Hset). split_and!; [done..|]. apply Hk; [by etrans|done].
Qed.

Lemma wp_store {X} (f : Z → store → result (X * store) StoreError)
    (k : result X failure → prog await failure A) w :
  (∀ w2 now x s, goes_on w w2 → world_ok w2 → f now (now_tables w2) = Ok (x, s) →
     (patch_step (now_tables w2) s ∨ s = now_tables w2) ∧ allowed w2 s ∧
     (∀ n, goes_on w (committed w2 (s, n)) → world_ok (committed w2 (s, n)) →
      wp (k (Ok x)) Q (committed w2 (s, n)))) →
  (∀ e w2, goes_on w w2 → world_ok w2 → wp (k (Err e)) Q w2) →
  wp (Call (Transact (on_store f)) k) Q w.
Proof.
  intros Hok Herr. apply wp_tables; [|done]. intros w2 now x s n Hr Hi. unfold on_store.
  destruct (f now (now_store w2).1) as [[y s']|] eqn:Hf; [|done]. simpl. intros [= -> -> _].
  destruct (Hok _ _ _ _ Hr Hi Hf) as (? & ? & ?). auto.
Qed.

(** An envelope is sent for a row that was offered. *)
Lemma wp_send_row key r (k : bool → prog await failure A) w :
  offered w key r → (∀ b w2, goes_on w w2 → world_ok w2 → wp (k b) Q w2) →
  wp (Call (Send (envelope key r)) k) Q w.
Proof.
  intros Hoff Hk. apply wp_send. intros w2 b Hr Hi. simpl.
  destruct (send_ok w2 key r b Hi (offered_later _ _ _ _ Hr Hoff)) as [Hi3 Hr3].
  split_and!; [done..|]. apply Hk; [by etrans|done].
Qed.

End rules.

(** A transaction that cannot be refused. *)
Lemma wp_always {X Y} (g : Z → store → X * store) (f : X → program Y)
    (Q' : result Y failure → patch_world → Prop) w :
  (∀ w2 now, goes_on w w2 → world_ok w2 → let s := (g now (now_tables w2)).2 in
     (patch_step (now_tables w2) s ∨ s = now_tables w2) ∧ allowed w2 s ∧
     (∀ n, goes_on w (committed w2 (s, n)) → world_ok (committed w2 (s, n)) →
      wp (f (g now (now_tables w2)).1) Q' (committed w2 (s, n)))) →
  (∀ e w2, goes_on w w2 → Q' (Err e) w2) → wp (bind_ok (transaction (always g)) f) Q' w.
Proof.
  intros Hok Herr. apply wp_bind_ok_call, wp_store.
  - intros w2 now x s Hgo Hi. specialize (Hok w2 now Hgo Hi). unfold always.
    destruct (g now (now_tables w2)) as [y s'] eqn:Hg. by intros [= <- <-].
  - intros e w2 Hgo _ w3 Hgo3 _. apply Herr. by etrans.
Qed.

(** What an answer says for good. *)
Definition never_offered w k : Prop :=
  (∃ r, patches (now_tables w) !! k = Some r ∧ is_terminal (pr_status r) = true) ∧
  ∀ r, ¬ offered w k r.

Definition ingress_answer (x : result PatchIngress failure) w : Prop :=
  match x with
  | Ok (Ingress_RejectedInProgress _ key _) => never_offered w key
  | Ok (Ingress_Accepted _ key _) => is_Some (patches (now_tables w) !! key)
  | _ => True
  end.

Definition answer_ok (a : Answer) w : Prop :=
  match a with
  | A_Ingress x => ingress_answer x w
  | A_Finalized _ | A_Correlated _ | A_Redriven _ | A_Worked _ => True
  end.

Lemma never_offered_later w w' k : goes_on w w' → never_offered w k → never_offered w' k.
Proof.
  intros Hgo [(r & Hr & Ht) Hno]. split.
  - destruct (go_evolves _ _ Hgo _ _ Hr) as (r' & Hr' & Hev). exists r'. split; [done|].
    by rewrite (re_final _ _ Hev Ht).
  - intros r0 (s & Hs & Hr0 & Hd). destruct (go_later _ _ Hgo _ Hs) as [Hold|Hev].
    + apply (Hno r0). exists s. auto.
    + destruct (Hev _ _ Hr) as (r' & Hr' & Hrev). assert (r' = r0) as -> by congruence.
      rewrite (re_final _ _ Hrev Ht) in Hd. by destruct (pr_status r).
Qed.

Lemma ingress_rejected s now input reason s' :
  ingress_patch s now input = Ok (IngressRejectedInProgress reason, s') →
  patches s !! in_patch_key input = None ∧
  ∃ r, patches s' !! in_patch_key input = Some r ∧ pr_status r = Rejected.
Proof.
  unfold ingress_patch. destruct (patches s !! in_patch_key input) as [r|] eqn:Hk; [done|].
  destruct (sibling_unsettled s (in_instance input)); simpl.
  - intros [= _ <-]. split; [done|]. simpl. rewrite lookup_insert_eq. eauto.
  - by destruct (insert_task_builds _ _ _ _).
Qed.

Lemma ingress_accepted s now input st s' :
  ingress_patch s now input = Ok (IngressAccepted st, s') →
  ∃ r, patches s' !! in_patch_key input = Some r ∧ pr_instance r = in_instance input ∧
    pr_ops r = in_ops input ∧ pr_reason r = in_reason input ∧ pr_provenance r = in_provenance input ∧
    pr_operation r = in_operation input ∧
    (in_tasks input = [] → pr_status r = Validating).
Proof.
  unfold ingress_patch. destruct (patches s !! in_patch_key input) as [r|] eqn:Hk; [done|].
  destruct (sibling_unsettled s (in_instance input)); simpl; [done|].
  destruct (insert_task_builds _ _ _ _) as [s2|] eqn:Hi; [|done]. simpl. intros [= _ <-].
  apply ingress_fresh_builds in Hi as (Hp & _). rewrite Hp. simpl. rewrite lookup_insert_eq.
  eexists. split_and!; [done..|]. simpl. intros ->. done.
Qed.

Abbreviation quietly := (λ _ _, True).

(** A call to the tables whose failure ends the function. *)
Ltac await_store :=
  apply wp_bind_ok_call, wp_store; [intros ?w ?now ?x ?s ?Hgo ?Hok ?Hf|by intros].
Ltac await_always :=
  apply wp_always; [intros ?w ?now ?Hgo ?Hok; cbv zeta|by intros].

Lemma mark_submitted_allowed w key now :
  (patch_step (now_tables w) (mark_patch_submitted (now_tables w) key now).2 ∨
   (mark_patch_submitted (now_tables w) key now).2 = now_tables w) ∧
  allowed w (mark_patch_submitted (now_tables w) key now).2.
Proof. split; [left; apply step_submitted|apply quiet_allowed, mark_submitted_quiet]. Qed.

Lemma process_patch_wp instance patch_id parsed provenance w :
  submitted parsed → wp (process_patch uuid_bytes instance patch_id parsed provenance) ingress_answer w.
Proof.
  intros Hsub. unfold process_patch. await_store.
  split_and!; [left; by econstructor|by eapply ingress_allowed|].
  intros n _ Hok1. destruct x as [st|reason|r]; [|intros w2 Hgo2 Hok2|done].
  - pose proof (ingress_accepted _ _ _ _ _ Hf) as (r & Hr & Hi & Ho & Hre & Hp & Hop & Hst).
    assert (∀ w2, goes_on (committed w0 (s, n)) w2 →
              is_Some (patches (now_tables w2) !! patch_key uuid_bytes instance patch_id)) as Hrow.
    { intros w2 Hgo2. destruct (go_evolves _ _ Hgo2 _ _ Hr) as (r' & Hr' & _). eauto. }
    destruct (new_tasks parsed) as [|t tasks] eqn:Ht; [|intros w2 Hgo2 _; by apply Hrow].
    apply wp_bind_call.
    replace (mkPatchEnvelope _ _ _ _ _ _) with (envelope (patch_key uuid_bytes instance patch_id) r)
      by (unfold envelope; simpl in *; congruence).
    apply wp_send_row.
    { exists (s, n). split_and!; [by left|done|]. rewrite Hst by (simpl; by rewrite Ht). done. }
    intros [] w2 Hgo2 Hok2; [|intros w3 Hgo3 _; apply Hrow; by etrans].
    await_always. destruct (mark_submitted_allowed w1 (patch_key uuid_bytes instance patch_id) now0).
    split_and!; [done..|]. intros n3 Hgo4 _ w5 Hgo5 _. apply Hrow. by do 2 (etrans; [eassumption|]).
  - eapply never_offered_later; [done|]. apply ingress_rejected in Hf as (Hnone & r & Hr & Hst).
    split; [exists r; by rewrite Hst|]. intros r0 (s0 & Hs0 & Hr0 & Hd).
    apply elem_of_cons in Hs0 as [->|Hs0].
    + simpl in Hr0. simpl in Hr. assert (r0 = r) as -> by congruence. by rewrite Hst in Hd.
    + destruct (wo_past _ Hok _ Hs0 _ _ Hr0) as (r' & Hr' & _). simpl in Hnone. congruence.
Qed.

Lemma settled_offered s n w key t result guard at_ r :
  (settle_task_build s key t result guard at_).1 = BuildSettled (BuildSubmitted r) →
  offered (committed w ((settle_task_build s key t result guard at_).2, n)) key r.
Proof.
  intros Hs. eexists. split; [by left|]. simpl.
  destruct (settle_cases s key t guard at_) as [(p & b & Hp & Hst & Hb & Hm)|Hlost].
  - rewrite (settle_won s key t result guard at_ p b) in Hs |- * by done.
    destruct result; [|done]. simpl in *. destruct (all_built _ key); [|done].
    simpl in *. injection Hs as <-. by rewrite lookup_insert_eq.
  - exfalso. revert Hs. unfold settle_task_build, building.
    destruct (patches s !! key) as [p|]; [|done].
    case_bool_decide as Hst; [|done]. simpl. unfold update_build.
    destruct (builds s !! (key, t)) as [b|]; [|done]. fold (may_settle guard at_ b).
    rewrite (Hlost p b) by done. destruct guard; [|done]. by case_bool_decide.
Qed.

Lemma finalize_wp key task outcome w : wp (finalize_patch_after_build key task outcome) quietly w.
Proof.
  unfold finalize_patch_after_build. await_store. unfold settle_patch_task_build in Hf.
  destruct (settle_task_build _ _ _ _ _ _) as [[o|] s'] eqn:Hs; [|done].
  assert (s' = (settle_task_build (now_tables w0) key task (build_result outcome) None now).2) as -> by (by rewrite Hs).
  injection Hf as <- <-. split_and!; [left; apply step_settle_build|apply quiet_allowed, settle_quiet|].
  intros n _ _. destruct o as [|r| | | |]; try done. apply wp_bind_call, wp_send_row; [|done].
  apply settled_offered. by rewrite Hs.
Qed.

Lemma correlate_allowed w key instance outcome now :
  (honest → sent_key w key) →
  allowed w (correlate_patch_outcome (now_tables w) key instance outcome now).2.
Proof.
  intros Hkey. unfold correlate_patch_outcome.
  destruct (update_patch _ _ _ _) as [s'|] eqn:Hu; [|apply quiet_allowed, quiet_refl].
  apply update_patch_Some in Hu as (r0 & Hr0 & Hg & ->). split; simpl.
  - intros Hh k r r' Hr. simpl. rewrite lookup_insert_Some. intros [[<- _]|[_ ?]]; [auto|congruence].
  - intros _ k t r Hnone. simpl. rewrite Hnone. by intros [].
  - intros _. split; simpl; [|eauto]. intros k r'. rewrite lookup_insert_Some.
    intros [[<- <-]|[_ ?]] Ht; [|eauto]. by destruct outcome.
Qed.

(** A report is on a patch that was sent. *)
Lemma reported_sent w w' outcome key :
  server (log w) outcome → goes_on w w' → world_ok w' →
  uuid_parse_str (po_patch_key outcome) = Some key → honest → sent_key w' key.
Proof.
  intros Hserver Hgo Hok Hkey Hh. apply Hh, list_elem_of_fmap in Hserver as (e & He & Hin).
  assert (e ∈ sent_messages w') as Hin' by (by eapply sent_extends; [apply Hgo|]).
  destruct (wo_sent _ Hok e Hin') as (k' & r1 & _ & ->). simpl in He. rewrite He in Hkey.
  rewrite uuid_parse_to_string in Hkey. injection Hkey as ->.
  apply list_elem_of_fmap. by exists (envelope key r1).
Qed.

Lemma correlate_wp outcome w : server (log w) outcome → wp (correlate_outcome outcome) quietly w.
Proof.
  intros Hserver. unfold correlate_outcome.
  destruct (uuid_parse_str (po_patch_key outcome)) as [key|] eqn:Hkey; [|done].
  destruct (uuid_parse_str (po_workflow_instance_id outcome)) as [instance|]; [|done].
  destruct (mjoin (po_outcome outcome)) as [kind|]; [|done].
  await_always. split_and!; [left; apply step_correlate| |done].
  apply correlate_allowed. by eapply reported_sent.
Qed.

Lemma redrive_wp rows sent w :
  (∀ k r, (k, r) ∈ rows → offered w k r) → wp (redrive rows sent) quietly w.
Proof.
  revert sent w. induction rows as [|[k r] rows IH]; intros sent w Hoff; [done|]. simpl redrive.
  apply wp_bind_call, wp_send_row; [apply Hoff; by left|]. intros b w2 Hgo2 Hok2.
  assert (∀ w3, goes_on w w3 → ∀ k0 r0, (k0, r0) ∈ rows → offered w3 k0 r0) as Hrest.
  { intros w3 Hgo3 k0 r0 Hin. eapply offered_later; [done|]. apply Hoff. by right. }
  destruct b; [|by apply IH, Hrest]. await_always. destruct (mark_submitted_allowed w0 k now).
  split_and!; [done..|]. intros n Hgo1 _. apply IH, Hrest. by etrans.
Qed.

Lemma redrive_unsettled_wp min_age w : wp (redrive_unsettled uuid_leb min_age) quietly w.
Proof.
  unfold redrive_unsettled. await_always. split_and!; [by right|apply quiet_allowed, quiet_refl|].
  intros n _ _. apply redrive_wp. intros k r [Hk Hd]%unsettled_offered.
  eexists. split; [by left|]. done.
Qed.

Lemma leased_lifecycle_wp lease w :
  offered w (ll_key lease) (ll_row lease) → wp (process_leased_lifecycle lease) quietly w.
Proof.
  intros Hoff. unfold process_leased_lifecycle. apply wp_bind_call, wp_send_row; [done|].
  intros [] w2 _ _.
  - apply wp_bind_call; apply wp_now; [apply _|]. intros now w3 _ _. await_always.
    split_and!; [left; apply step_settle_submission|apply quiet_allowed, settle_submission_quiet|done].
  - await_always. split_and!; [left; apply step_release|apply quiet_allowed, release_quiet|done].
Qed.

Lemma each_lifecycle_wp leases w :
  world_ok w → (∀ lease, lease ∈ leases → offered w (ll_key lease) (ll_row lease)) →
  wp (each_lifecycle leases) quietly w.
Proof.
  revert w. induction leases as [|lease leases IH]; intros w Hok Hoff; [done|]. simpl each_lifecycle.
  apply wp_bind_ok; [apply _| |done]. eapply wp_mono; [apply _| |by apply leased_lifecycle_wp, Hoff; left].
  intros [[]|e] w2 Hgo Hok2 _; [|done]. apply IH; [done|]. intros lease' Hin.
  eapply offered_later; [done|]. apply Hoff. by right.
Qed.

Lemma scan_lifecycle_wp owner duration min_age batch w :
  wp (scan_lifecycle uuid_leb fresh_token owner duration min_age batch) quietly w.
Proof.
  unfold scan_lifecycle. apply wp_bind_call; apply wp_now; [apply _|]. intros now w1 _ _. await_always.
  split_and!; [by right|apply quiet_allowed, quiet_refl|]. intros n _ Hok1.
  apply wp_bind; [apply _| |done]. eapply wp_mono with (Q := quietly); [apply _| |].
  - intros [] w2 _ Hok2 _; [|done]. apply wp_bind_ok_call, wp_tables; [|by intros].
    intros w3 now3 leases s n3 _ Hok3 Hf. unfold now_tables.
    destruct (lease_lifecycle_offers _ _ _ _ _ _ _ _ _ _ (wo_store _ Hok3 _ (list_elem_of_here _ _)) Hf)
      as [Hq Hoff].
    split_and!; [left; by econstructor|by apply quiet_allowed|]. intros _ Hok4.
    apply each_lifecycle_wp; [done|]. intros lease Hin. exists (now_store w3).
    split; [right; by left|]. by apply Hoff.
  - destruct (reading _ _ _) as [[] ?]; [|done]. by apply wp_claims_open; [apply _|].
Qed.

Lemma leased_build_wp lease w : wp (process_leased_build lease) quietly w.
Proof.
  unfold process_leased_build. apply wp_bind_call; apply wp_build; [apply _|]. intros outcome w1 _ _.
  apply wp_bind_call; apply wp_now; [apply _|]. intros now w2 _ _. await_always.
  unfold settle_leased_patch_task_build.
  split_and!; [left; apply step_settle_build|apply quiet_allowed, settle_quiet|]. intros n _ _.
  destruct (settle_task_build _ _ _ _ _ _).1 as [[|r| | | |]|] eqn:Hs; try done.
  apply wp_bind_call, wp_send_row; [by apply settled_offered|done].
Qed.

Lemma scan_builds_wp owner duration batch w :
  wp (scan_builds uuid_leb fresh_token owner duration batch) quietly w.
Proof.
  unfold scan_builds. apply wp_bind_call; apply wp_now; [apply _|]. intros now w1 _ _. await_always.
  split_and!; [by right|apply quiet_allowed, quiet_refl|]. intros n _ Hok1.
  apply wp_bind; [apply _| |done]. eapply wp_mono with (Q := quietly); [apply _| |].
  - intros [] w2 _ Hok2 _; [|done]. apply wp_bind_ok_call, wp_tables; [|by intros].
    intros w3 now3 leases s n3 _ Hok3 Hf.
    split_and!; [left; by econstructor|by eapply quiet_allowed, lease_builds_quiet|].
    intros _ Hok4. apply wp_join. split; [|done]. apply Forall_forall.
    intros q (lease & -> & _)%list_elem_of_fmap. apply leased_build_wp.
  - destruct (reading _ _ _) as [[] ?]; [|done]. by apply wp_claims_open; [apply _|].
Qed.

Lemma scan_once_wp owner config min_age w :
  world_ok w → wp (scan_once uuid_leb fresh_token owner config min_age) quietly w.
Proof.
  intros Hok. apply wp_bind_ok; [apply _| |done]. eapply wp_mono; [apply _| |apply scan_lifecycle_wp].
  intros [[]|e] w2 _ Hok2 _; [|done]. apply scan_builds_wp.
Qed.

Lemma worker_loop_wp owner config wakes w :
  world_ok w → wp (worker_loop uuid_leb fresh_token owner config wakes) quietly w.
Proof.
  revert w. induction wakes as [|[] wakes IH]; intros w Hok; [done..| | |by apply IH].
  - apply wp_bind_ok; [apply _| |done]. eapply wp_mono; [apply _| |by apply scan_once_wp].
    intros [[]|e] w2 _ Hok2 _; [|done]. by apply IH.
  - apply wp_bind_ok; [apply _| |done]. eapply wp_mono; [apply _| |by apply scan_once_wp].
    intros [[]|e] w2 _ Hok2 _; [|done]. by apply IH.
Qed.

Lemma worker_wp owner config wakes p w :
  start_local_patch_worker uuid_leb fresh_token owner config wakes = Ok p → world_ok w → wp p quietly w.
Proof.
  unfold start_local_patch_worker. destruct (check_config config) as [[]|]; [|done].
  simpl. intros [= <-] Hok. apply wp_bind_ok; [apply _| |done].
  eapply wp_mono; [apply _| |by apply scan_once_wp].
  intros [[]|e] w2 _ Hok2 _; [|done]. by apply worker_loop_wp.
Qed.

Lemma answering_wp {A} (f : result A failure → Answer) (p : program A) Q w :
  wp p Q w → world_ok w → (∀ x w, Q x w → answer_ok (f x) w) →
  (∀ x w w', goes_on w w' → Q x w → Q x w') → wp (answering f p) answer_ok w.
Proof.
  intros Hp Hok Hans Hst. apply wp_bind; [apply _| |done]. eapply wp_mono; [apply _| |done].
  intros x w2 _ _ HQ w3 Hgo _. apply Hans. eauto.
Qed.

Lemma started_wp w p : world_ok w → may_start w p → wp p answer_ok w.
Proof.
  intros Hok Hs. destruct Hs as [instance patch_id parsed provenance Hsub| |outcome Hserver| |owner config wakes p Hp].
  - eapply answering_wp; [by apply process_patch_wp|done|done|].
    intros [[]|] w1 w2 Hgo; simpl; [|by apply never_offered_later|done|done].
    intros [r Hr]. destruct (go_evolves _ _ Hgo _ _ Hr) as (r' & ? & _). eauto.
  - eapply answering_wp; [apply finalize_wp|done..].
  - eapply answering_wp; [by apply correlate_wp|done..].
  - eapply answering_wp; [apply redrive_unsettled_wp|done..].
  - eapply answering_wp; [by eapply worker_wp|done..].
Qed.

Abbreviation ok_pool := (pool_ok perform world_ok goes_on answer_ok).

Lemma pool_reachable_ok p : pool_reachable p → ok_pool p.
Proof.
  intros Hr. eapply (pool_run_ok _ _ _ _ _ started_wp); [exact Hr|].
  split; [apply first_world_ok|]. intros t q Hq. simpl in Hq. by rewrite lookup_empty in Hq.
Qed.

Lemma pool_step_ok_here p p' :
  pool_reachable p → patch_pool_step p p' → ok_pool p' ∧ goes_on (world p) (world p').
Proof. intros Hr Hs. eapply pool_step_ok; [apply _|exact started_wp|done|by apply pool_reachable_ok]. Qed.

(** ** What is delivered *)

(** The envelope of a row says what the row says at any later time. *)
Lemma envelope_evolves k r r' : row_evolves r r' → envelope k r' = envelope k r.
Proof. intros []. unfold envelope. congruence. Qed.

(** A row that can be sent has no build that has not succeeded. *)
Lemma drivable_built (s : store) k r : store_ok s → patches s !! k = Some r → drivable (pr_status r) = true →
  ∀ t b, builds s !! (k, t) = Some b → b_status b = build_success.
Proof.
  intros Hok Hr Hd t b Hb. destruct (ok_rows _ Hok _ _ Hr) as [Hphase _]. unfold phase_ok in Hphase.
  destruct (pr_status r); try done; [by rewrite Hphase in Hb|by eapply Hphase].
Qed.

Lemma sent_row p e :
  pool_reachable p → e ∈ sent_messages (world p) →
  ∃ k r, patches (now_tables (world p)) !! k = Some r ∧ e = envelope k r ∧
    pr_status r ≠ Building ∧ pr_status r ≠ BuildFailed ∧
    ∀ t b, builds (now_tables (world p)) !! (k, t) = Some b → b_status b = build_success.
Proof.
  intros [Hok _]%pool_reachable_ok He.
  destruct (wo_sent _ Hok e He) as (k & r & (s & Hs & Hr & Hd) & ->).
  destruct (wo_past _ Hok _ Hs _ _ Hr) as (r' & Hr' & Hev). exists k, r'.
  destruct (never_builds _ _ Hd Hev). rewrite (envelope_evolves _ _ _ Hev). split_and!; [done..|].
  intros t b Hb. destruct (wo_builds _ Hok _ Hs _ _ _ _ Hr Hb) as (b0 & Hb0 & Hkept).
  apply Hkept. by eapply (drivable_built s.1); [apply (wo_store _ Hok)|..].
Qed.

(** C7: whatever threads run and however they interleave, fail or are cut off, an
    envelope is sent only for a patch in the tables every build row of which has
    succeeded, it carries that row's content, and every envelope of the patch is the
    same: a re-drive repeats what was first sent. *)
Theorem envelopes_faithful p e :
  pool_reachable p → e ∈ sent_messages (world p) →
  (∃ k r, patches (now_tables (world p)) !! k = Some r ∧ e = envelope k r ∧
     pr_status r ≠ Building ∧ pr_status r ≠ BuildFailed ∧
     ∀ t b, builds (now_tables (world p)) !! (k, t) = Some b → b_status b = build_success) ∧
  ∀ e', e' ∈ sent_messages (world p) → env_patch_key e' = env_patch_key e → e' = e.
Proof.
  intros Hr He. split; [by apply sent_row|]. intros e' He' Hkey.
  destruct (sent_row _ _ Hr He) as (k & r & Hk & -> & _).
  destruct (sent_row _ _ Hr He') as (k' & r' & Hk' & -> & _).
  apply uuid_to_string_inj in Hkey as ->. by assert (r' = r) as -> by congruence.
Qed.

(** The answer to a submission stands: an accepted patch is in the tables from
    then on, and one that was refused because another is in progress is never sent,
    neither before nor after. *)
Theorem ingress_answer_stands p p' t answer :
  pool_reachable p → threads p !! t = Some (Ret (A_Ingress (Ok answer))) → delivers p p' →
  match answer with
  | Ingress_Accepted _ key _ => is_Some (patches (now_tables (world p')) !! key)
  | Ingress_RejectedInProgress _ key _ =>
      uuid_to_string key ∉ env_patch_key <$> sent_messages (world p')
  | Ingress_Replayed _ => True
  end.
Proof.
  intros Hr%pool_reachable_ok Ht Hrun.
  pose proof (pool_answer _ _ _ _ _ _ _ Hr Ht) as Hans. simpl in Hans.
  destruct (pool_run_ok _ _ _ _ _ started_wp _ _ Hrun Hr) as [[Hok' _] Hgo].
  destruct answer as [id key jobs|id key reason|r]; [| |done].
  - destruct Hans as [r Hk]. destruct (go_evolves _ _ Hgo _ _ Hk) as (r' & ? & _). eauto.
  - intros (e & Hkey & He)%list_elem_of_fmap.
    destruct (wo_sent _ Hok' e He) as (k & r & Hoff & ->).
    apply uuid_to_string_inj in Hkey as ->. by apply (never_offered_later _ _ _ Hgo Hans) in Hoff.
Qed.

(** Sending commits nothing. *)
Lemma sending_offered p p' e b k r :
  patch_pool_step p p' → log (world p') = log (world p) ++ [(e, b)] →
  offered (world p') k r → offered (world p) k r.
Proof.
  intros Hs Hlog (s & Hs' & Hr). exists s. split; [|done]. revert Hs'.
  assert (stores (world p') = stores (world p)) as ->; [|done].
  inversion Hs as [|? t q path o q' w' Hq Hq'|]; subst; [done| |done]. simpl in *.
  apply pstep_performs in Hq' as [->|(X & op & x & Hp)]; [done|].
  by eapply perform_sends.
Qed.

(** C9: patches of an instance are delivered one after another: when a patch is
    sent for the first time, every patch of the same instance that was sent before
    has been settled, provided the server reports only on patches it was sent. *)
Theorem deliveries_serial p p' e b :
  honest → pool_reachable p → patch_pool_step p p' →
  log (world p') = log (world p) ++ [(e, b)] →
  env_patch_key e ∉ env_patch_key <$> sent_messages (world p) →
  ∀ e0, e0 ∈ sent_messages (world p) → env_workflow_instance_id e0 = env_workflow_instance_id e →
  ∃ k r, env_patch_key e0 = uuid_to_string k ∧ patches (now_tables (world p)) !! k = Some r ∧
    is_terminal (pr_status r) = true.
Proof.
  intros Hh Hr Hs Hlog Hnew e0 He0 Hinst.
  destruct (pool_step_ok_here _ _ Hr Hs) as [[Hok' _] Hgo]. pose proof (po_inv _ _ _ _ _ (pool_reachable_ok _ Hr)) as Hok.
  destruct (sent_row _ _ Hr He0) as (k0 & r0 & Hk0 & -> & _). exists k0, r0.
  split_and!; [done..|]. apply not_false_is_true. intros Ht0.
  destruct (wo_sent _ Hok' e) as (k & r & Hoff & ->).
  { unfold sent_messages. rewrite Hlog, fmap_app. apply elem_of_app. right. by left. }
  apply (sending_offered _ _ _ _ _ _ Hs Hlog) in Hoff as Hoff0.
  destruct Hoff0 as (s & Hs0 & Hr0 & Hd). destruct (wo_past _ Hok _ Hs0 _ _ Hr0) as (r1 & Hr1 & Hev).
  destruct (is_terminal (pr_status r1)) eqn:Ht1.
  - apply Hnew. eapply (wo_settled _ Hok Hh k); [by eapply sending_offered|done..].
  - apply Hnew. assert (k0 = k) as ->.
    { eapply (ok_exclusive _ (wo_store _ Hok _ (list_elem_of_here _ _))); [done..| |done|done].
      apply uuid_to_string_inj. simpl in Hinst. by rewrite (re_instance _ _ Hev). }
    apply list_elem_of_fmap. by exists (envelope k r0).
Qed.
End delivery.

(** ** A run

    One patch is submitted and sent; another of the same instance is refused; the
    first is applied; a third is taken in and about to be sent. *)

Definition demo_bytes (u : bit_uuid) : string := bits_to_string (uuid_bits u).

Definition demo_edit : ParsedPatch :=
  mkParsedPatch [mkAddressedPatchOp (Some (RemoveNode "K7Q2MXA"))] None (Some "hotfix") None
    (mkPatchSource "{}" Format_Json).

(** The server reports on what it was sent, and only on that. *)
Definition demo_server (l : list (PatchEnvelope * bool)) (outcome : PatchOutcome) : Prop :=
  po_patch_key outcome ∈ env_patch_key <$> l.*1.

Definition demo_submitted (parsed : ParsedPatch) : Prop := parsed = demo_edit.

Abbreviation demo_pool :=
  (Pool (Op := Await (Store (Uuid := bit_uuid) * nat) PatchEnvelope StoreError bit_uuid)
     (E := RepositoryError StoreError) (World := World (Store (Uuid := bit_uuid) * nat) PatchEnvelope)
     (Answer (Uuid := bit_uuid))).
Abbreviation demo_program :=
  (prog (Await (Store (Uuid := bit_uuid) * nat) PatchEnvelope StoreError bit_uuid)
     (RepositoryError StoreError) (Answer (Uuid := bit_uuid))).
Abbreviation demo_delivers := (delivers demo_bytes demo_leb unary demo_server demo_submitted).

Definition demo_ingress (patch_id : bit_uuid) : demo_program :=
  answering A_Ingress (process_patch demo_bytes (unary 9) patch_id demo_edit External).

(** Start a program as thread [t] and run it at time [now]. *)
Definition demo_after (p : demo_pool) (t : nat) (q : demo_program) (now : Z) : demo_pool :=
  finished perform p t q (working now).

Definition demo_sent : demo_pool :=
  demo_after (mkPool ∅ first_world) 0 (demo_ingress (unary 1)) 5.
Definition demo_refused : demo_pool := demo_after demo_sent 1 (demo_ingress (unary 2)) 6.

Definition demo_report : PatchOutcome :=
  mkPatchOutcome (uuid_to_string (unary 9)) (uuid_to_string (patch_key demo_bytes (unary 9) (unary 1)))
    (Some (Some (Outcome_Applied 2))) None.
Definition demo_applied : demo_pool :=
  demo_after demo_refused 2 (answering A_Correlated (correlate_outcome demo_report)) 7.

(** The third patch is in the tables, and its thread about to send it. *)
Definition demo_about : demo_pool :=
  match pstep perform (demo_ingress (unary 3)) [] (working 8) (world demo_applied) with
  | Some (q, w) => mkPool (<[3 := q]> (threads demo_applied)) w
  | None => demo_applied
  end.
Definition demo_third : demo_pool :=
  match threads demo_about !! 3 with
  | Some q =>
      match pstep perform q [] (working 9) (world demo_about) with
      | Some (q, w) => mkPool (<[3 := q]> (threads demo_about)) w
      | None => demo_about
      end
  | None => demo_about
  end.

Lemma demo_after_delivers (p : demo_pool) t q now :
  threads p !! t = None → may_start demo_bytes demo_leb unary demo_server demo_submitted (world p) q →
  demo_delivers p (demo_after p t q now).
Proof. apply pool_runs. Qed.

Lemma demo_sent_reachable : pool_reachable demo_bytes demo_leb unary demo_server demo_submitted demo_sent.
Proof. apply demo_after_delivers; [vm_compute; reflexivity|]. by constructor. Qed.

Lemma demo_refused_reachable : pool_reachable demo_bytes demo_leb unary demo_server demo_submitted demo_refused.
Proof.
  unfold pool_reachable, delivers, pool_run. etrans; [exact demo_sent_reachable|].
  apply demo_after_delivers; [vm_compute; reflexivity|]. by constructor.
Qed.

Lemma demo_applied_reachable : pool_reachable demo_bytes demo_leb unary demo_server demo_submitted demo_applied.
Proof.
  unfold pool_reachable, delivers, pool_run. etrans; [exact demo_refused_reachable|].
  apply demo_after_delivers; [vm_compute; reflexivity|]. constructor. unfold demo_server.
  apply (bool_decide_unpack _). vm_compute. reflexivity.
Qed.

Lemma demo_about_reachable : pool_reachable demo_bytes demo_leb unary demo_server demo_submitted demo_about.
Proof.
  unfold pool_reachable, delivers, pool_run. etrans; [exact demo_applied_reachable|].
  eapply rtc_l; [apply (step_start _ _ demo_applied 3 (demo_ingress (unary 3))); [vm_compute; reflexivity|by constructor]|].
  apply rtc_once. unfold demo_about.
  assert (bool_decide (is_Some (pstep perform (demo_ingress (unary 3)) [] (working 8) (world demo_applied)))
            = true) as [[q w] Hs]%bool_decide_eq_true by (vm_compute; reflexivity).
  rewrite Hs.
  rewrite <- (insert_insert_eq (threads demo_applied) 3 q (demo_ingress (unary 3))).
  eapply step_move; [apply lookup_insert_eq|exact Hs].
Qed.

Lemma demo_third_step :
  pool_step (Env := Outside) perform (may_start demo_bytes demo_leb unary demo_server demo_submitted)
    demo_about demo_third.
Proof.
  assert (match threads demo_about !! 3 with
          | Some q => bool_decide (is_Some (pstep perform q [] (working 9) (world demo_about)))
          | None => false
          end = true) as Hb by (vm_compute; reflexivity).
  unfold demo_third. destruct (threads demo_about !! 3) as [q|] eqn:Hq; [|discriminate Hb].
  apply bool_decide_eq_true in Hb as [[q' w] Hs]. rewrite Hs. by econstructor.
Qed.

Lemma envelopes_faithful_witness :
  ∃ e, e ∈ sent_messages (world demo_sent) ∧
    ∀ e', e' ∈ sent_messages (world demo_sent) → env_patch_key e' = env_patch_key e → e' = e.
Proof.
  eexists. split; [vm_compute; left|].
  refine (proj2 (envelopes_faithful demo_bytes demo_leb unary demo_server demo_submitted demo_sent _
                   demo_sent_reachable _)).
  vm_compute. left.
Defined.

Lemma ingress_answer_stands_witness :
  uuid_to_string (patch_key demo_bytes (unary 9) (unary 2))
    ∉ env_patch_key <$> sent_messages (world demo_applied).
Proof.
  refine (ingress_answer_stands demo_bytes demo_leb unary demo_server demo_submitted demo_refused demo_applied 1
            (Ingress_RejectedInProgress (unary 2) (patch_key demo_bytes (unary 9) (unary 2)) REJECT_IN_PROGRESS)
            demo_refused_reachable _ _).
  - vm_compute. reflexivity.
  - apply demo_after_delivers; [vm_compute; reflexivity|]. constructor. unfold demo_server.
    apply (bool_decide_unpack _). vm_compute. reflexivity.
Defined.

Definition demo_envelope (patch_id : bit_uuid) : PatchEnvelope :=
  mkPatchEnvelope (uuid_to_string (unary 9)) (uuid_to_string (patch_key demo_bytes (unary 9) patch_id))
    (pp_ops demo_edit) (pp_reason demo_edit) 0 None.

Lemma deliveries_serial_witness :
  ∃ k r, env_patch_key (demo_envelope (unary 1)) = uuid_to_string k ∧
    patches (now_tables (world demo_about)) !! k = Some r ∧ is_terminal (pr_status r) = true.
Proof.
  refine (deliveries_serial demo_bytes demo_leb unary demo_server demo_submitted demo_about demo_third
            (demo_envelope (unary 3)) true (λ _ _ Hs, Hs) demo_about_reachable demo_third_step
            _ _ (demo_envelope (unary 1)) _ _).
  - vm_compute. reflexivity.
  - apply (bool_decide_unpack _). vm_compute. reflexivity.
  - vm_compute. left.
  - vm_compute. reflexivity.
Defined.
