(* ===== verification/PatchSettlement.v ===== *)
(** * Every patch is settled

    The reconciler makes progress: in a world that works (transactions commit, the
    relay takes envelopes, builds succeed) and with a server that answers what it is
    sent, a bounded number of scans settles every patch, from any state the
    pipeline can have got into.  A round is one scan and the server's answers; each
    round that starts after the outstanding leases have run out settles a patch or
    finishes a build. *)

From S2P Require Import Prelude Workflow Uuid Leases Programs Workers PatchDocument PatchStore PatchStoreFacts PatchPipeline PatchDelivery.

Section settlement.
Context `{UuidOps Uuid} `{!UuidLaws Uuid} `{!Countable Uuid}.
Context (uuid_bytes : Uuid → string) (uuid_leb : Uuid → Uuid → bool) (fresh_token : nat → Uuid).
Context (server : list (PatchEnvelope * bool) → PatchOutcome → Prop).
Context (verdict : PatchEnvelope → PatchOutcomeKind).
Context (owner : string) (config : PatchReconcilerConfig).

Abbreviation store := (Store (Uuid := Uuid)).
Abbreviation row := (PatchStore.PatchRow Uuid).
Abbreviation tables := (store * nat)%type.
Abbreviation failure := (RepositoryError StoreError).
Abbreviation patch_world := (World tables PatchEnvelope).
Abbreviation program A := (prog (Await tables PatchEnvelope StoreError Uuid) failure (result A failure)).
Abbreviation patch_run := (run (Env := Outside) (perform (St := tables) (M := PatchEnvelope) (SE := StoreError) (Uuid := Uuid))).
Abbreviation scan := (scan_once uuid_leb fresh_token owner config 0).
Abbreviation envelope := envelope_from_repository_row.
Implicit Types (w : patch_world) (k : Uuid) (r : row) (s : store).

(** ** Rounds *)

(** What the server answers to an envelope. *)
Definition report (e : PatchEnvelope) : PatchOutcome :=
  mkPatchOutcome (env_workflow_instance_id e) (env_patch_key e) (Some (Some (verdict e))) None.

Definition reply (now : Z) w (e : PatchEnvelope) : patch_world :=
  (patch_run (correlate_outcome (report e)) (working now) w).2.

Definition round w (now : Z) : patch_world :=
  let w1 := (patch_run scan (working now) w).2 in
  foldl (reply now) w1 (sent_messages w1).

(** The leases in force have run out. *)
Record late (now : Z) s : Prop := {
  late_patches : ∀ k r, patches s !! k = Some r →
    (pr_updated_at r <= now)%Z ∧ lease_free now (pr_lease r) = true;
  late_builds : ∀ kt b, builds s !! kt = Some b → lease_free now (b_lease b) = true
}.

Fixpoint late_rounds (times : list Z) w : Prop :=
  match times with
  | [] => True
  | now :: times => late now (now_tables w) ∧ late_rounds times (round w now)
  end.

(** ** The measure *)

Definition unsettled s : gset Uuid :=
  dom (filter (λ kr : Uuid * row, is_terminal (pr_status kr.2) = false) (patches s)).

Definition pending s : gset (Uuid * Uuid) :=
  dom (filter (λ kb : (Uuid * Uuid) * BuildRow Uuid, b_status kb.2 = build_pending) (builds s)).

Definition work_left s : nat := size (unsettled s) + size (pending s).

Lemma elem_of_unsettled s k :
  k ∈ unsettled s ↔ ∃ r, patches s !! k = Some r ∧ is_terminal (pr_status r) = false.
Proof.
  unfold unsettled. rewrite elem_of_dom. split.
  - intros [r [Hr Ht]%map_lookup_filter_Some]. eauto.
  - intros (r & Hr & Ht). exists r. by apply map_lookup_filter_Some.
Qed.

Lemma elem_of_pending_builds s kt :
  kt ∈ pending s ↔ ∃ b, builds s !! kt = Some b ∧ b_status b = build_pending.
Proof.
  unfold pending. rewrite elem_of_dom. split.
  - intros [b [Hb Ht]%map_lookup_filter_Some]. eauto.
  - intros (b & Hb & Ht). exists b. by apply map_lookup_filter_Some.
Qed.

Lemma shrinks_less s s' :
  shrinks s s' → (∃ k, k ∈ unsettled s ∧ k ∉ unsettled s') ∨ (∃ kt, kt ∈ pending s ∧ kt ∉ pending s') →
  work_left s' < work_left s.
Proof.
  intros [Hp Hb] Hless. unfold work_left.
  assert (unsettled s' ⊆ unsettled s) as HU.
  { intros k (r & Hr & Ht)%elem_of_unsettled. apply elem_of_unsettled. eauto. }
  assert (pending s' ⊆ pending s) as HP.
  { intros kt (b & Hr & Ht)%elem_of_pending_builds. apply elem_of_pending_builds. eauto. }
  pose proof (subseteq_size _ _ HU). pose proof (subseteq_size _ _ HP).
  destruct Hless as [(k & Hin & Hout)|(kt & Hin & Hout)].
  - assert (unsettled s' ⊂ unsettled s) as HU' by set_solver. pose proof (subset_size _ _ HU'). lia.
  - assert (pending s' ⊂ pending s) as HP' by set_solver. pose proof (subset_size _ _ HP'). lia.
Qed.

(** ** A quiet world *)

(** While nothing is submitted, every program only moves things on. *)
Abbreviation calm_world := (world_ok server (λ _, False)).
Abbreviation calmly := (goes_on (Uuid := Uuid) (λ _, False)).
Abbreviation calm_wp := (wp perform calm_world calmly).

Lemma calm_shrinks w w' : calmly w w' → shrinks (now_tables w) (now_tables w').
Proof. intros Hgo. apply (go_shrinks _ _ _ Hgo). by intros parsed []. Qed.

Lemma calm_run {A} (p : prog (Await tables PatchEnvelope StoreError Uuid) failure A) Q o w :
  calm_world w → calm_wp p Q w → calm_world (patch_run p o w).2 ∧ calmly w (patch_run p o w).2.
Proof. intros Hw Hp. destruct (wp_run perform _ _ p Q o w Hw Hp) as (? & ? & _). done. Qed.

(** ** The server's answers settle what was sent *)

Context (answers : ∀ l e, e ∈ l.*1 → server l (report e)).

Lemma settled_now s k instance outcome now r :
  patches s !! k = Some r → pr_instance r = instance →
  ∃ r', patches (correlate_patch_outcome s k instance outcome now).2 !! k = Some r' ∧
    is_terminal (pr_status r') = true.
Proof.
  intros Hk Hi. unfold correlate_patch_outcome, update_patch, unsettled_on. rewrite Hk, Hi.
  rewrite bool_decide_true by done. simpl.
  destruct (is_terminal (pr_status r)) eqn:Ht; simpl; [eauto|].
  destruct outcome; simpl; rewrite lookup_insert_eq; eauto.
Qed.

Lemma reply_ok now w e :
  calm_world w → e ∈ sent_messages w → calm_world (reply now w e) ∧ calmly w (reply now w e).
Proof.
  intros Hw He. eapply calm_run; [done|]. apply (correlate_wp uuid_leb fresh_token). by apply answers.
Qed.

Lemma reply_settles now w k r :
  patches (now_tables w) !! k = Some r →
  ∃ r', patches (now_tables (reply now w (envelope k r))) !! k = Some r' ∧
    is_terminal (pr_status r') = true.
Proof.
  intros Hk. unfold reply, correlate_outcome. simpl. rewrite !uuid_parse_to_string.
  destruct (verdict _); simpl; by eapply settled_now.
Qed.

Lemma replies_settle now es : ∀ w,
  calm_world w → (∀ e, e ∈ es → e ∈ sent_messages w) →
  let w' := foldl (reply now) w es in
  calm_world w' ∧ calmly w w' ∧
  ∀ k r, envelope k r ∈ es → ∃ r', patches (now_tables w') !! k = Some r' ∧
    is_terminal (pr_status r') = true.
Proof.
  induction es as [|e es IH]; intros w Hw Hes; simpl.
  { split_and!; [done|done|]. by intros k r ?%elem_of_nil. }
  destruct (reply_ok now w e Hw (Hes e (list_elem_of_here _ _))) as [Hw1 Hgo1].
  destruct (IH (reply now w e) Hw1) as (Hw' & Hgo' & Hset).
  { intros e' He'. eapply sent_extends; [apply Hgo1|]. apply Hes. by right. }
  split_and!; [done|by etrans|]. intros k r [<-|He]%elem_of_cons; [|by apply (Hset k r)].
  destruct (wo_sent _ _ _ Hw (envelope k r)) as (k0 & r0 & (s0 & Hs0 & Hr0 & _) & Heq); [apply Hes; by left|].
  pose proof (f_equal env_patch_key Heq) as Hk%uuid_to_string_inj. subst k0.
  destruct (wo_past _ _ _ Hw _ Hs0 _ _ Hr0) as (r1 & Hr1 & Hev).
  rewrite Heq, <- (envelope_evolves _ _ _ Hev) in *.
  destruct (reply_settles now w k r1 Hr1) as (r2 & Hr2 & Ht2).
  destruct (go_evolves _ _ _ Hgo' _ _ Hr2) as (r3 & Hr3 & Hev3). exists r3. split; [done|].
  by rewrite (re_final _ _ Hev3 Ht2).
Qed.

(** ** A scan makes progress *)

Context (owner_ok : owner ≠ "" ∧ String.length owner ≤ 128) (batch_ok : 1 ≤ batch_size config ≤ 64).
Context (config_ok : check_config config = Ok ()).

Lemma lease_durations : (0 < build_lease_duration config ∧ 0 < lifecycle_lease_duration config)%Z.
Proof.
  revert config_ok. unfold check_config, ensure.
  destruct (negb _); [|done]. do 2 (destruct (_ <=? _)%Z; [|done]). simpl.
  destruct (Z.ltb_spec 0 (build_lease_duration config)); [|done]. simpl.
  by destruct (Z.ltb_spec 0 (lifecycle_lease_duration config)).
Qed.

Lemma run_always {X A} (f : Z → store → X * store)
    (g : X → program A) now w :
  patch_run (bind_ok (transaction (always f)) g) (working now) w =
  patch_run (g (f now (now_tables w)).1) (working now)
    (committed w ((f now (now_tables w)).2, (now_store w).2)).
Proof. unfold transaction. by rewrite run_transact. Qed.

Lemma request_ok now duration : (0 < duration)%Z →
  validate_patch_lease_request owner now (now + duration) (batch_size config) 64 = Ok ().
Proof.
  intros Hpos. destruct owner_ok. unfold validate_patch_lease_request.
  rewrite (proj2 (validate_lease_request_ok owner now (now + duration) (batch_size config) 64)); [done|].
  split_and!; [done|done|lia|lia|lia].
Qed.

Lemma lifecycle_leased s n now k r :
  late now s → patches s !! k = Some r → drivable (pr_status r) = true →
  eligible_patches uuid_leb s now (now - 0) ≠ [] ∧
  ∃ lease leases st, lease_patch_lifecycle uuid_leb fresh_token s n owner now
    (now + lifecycle_lease_duration config) (now - 0) (batch_size config) = Ok (lease :: leases, st).
Proof.
  intros [Hlate _] Hk Hd. unfold lease_patch_lifecycle.
  rewrite request_ok by apply lease_durations. simpl.
  set (l := eligible_patches uuid_leb s now (now - 0)).
  assert (∀ k' r', (k', r') ∈ l ↔ patches s !! k' = Some r' ∧ drivable (pr_status r') = true ∧
            lease_free now (pr_lease r') = true) as Hl.
  { intros k' r'. unfold l, eligible_patches.
    rewrite elem_of_sort_by, elem_of_filter_bool, elem_of_map_to_list, !andb_true_iff, Z.sub_0_r, Z.leb_le.
    simpl. split; [by intros (? & [? ?] & ?)|]. intros (Hk' & Hd' & ?). by destruct (Hlate _ _ Hk'). }
  assert (l ≠ []) as Hne.
  { intros Hnil. apply (not_elem_of_nil (k, r)). rewrite <- Hnil. apply Hl. by destruct (Hlate _ _ Hk). }
  split; [done|]. eapply (first_lease _ (λ s kr, ∃ r, patches s !! kr.1 = Some r ∧
    drivable (pr_status r) = true ∧ lease_free now (pr_lease r) = true)); [| |..].
  - intros kr s0 n0 (r0 & Hr0 & Hd0 & Hf0). unfold lease_one_patch, update_patch. rewrite Hr0, Hd0, Hf0.
    simpl. eexists _, _, _. split; [done|]. intros kr' Hne' (r1 & Hr1 & H1). exists r1. simpl.
    by rewrite lookup_insert_ne.
  - apply (take_select_NoDup (batch_size config) (leq_patch uuid_leb)
             (λ kr, drivable (pr_status kr.2) && (pr_updated_at kr.2 <=? now - 0)%Z
                    && lease_free now (pr_lease kr.2)) (patches s)).
  - intros [k' r'] Hin%Hl. exists r'. tauto.
  - done.
  - lia.
Qed.

Lemma lifecycle_sends lease leases now w :
  envelope (ll_key lease) (ll_row lease) ∈
    sent_messages (patch_run (each_lifecycle (lease :: leases)) (working now) w).2.
Proof.
  apply run_then_sends. unfold process_leased_lifecycle. rewrite run_bind. simpl run at 1. cbv beta iota.
  eapply sent_extends; [apply run_extends|]. unfold sent_messages. simpl.
  rewrite fmap_app. apply elem_of_app. right. by left.
Qed.

(** A patch that is there to be sent is sent by the next scan, or another is. *)
Lemma scan_sends now w k r :
  calm_world w → late now (now_tables w) → patches (now_tables w) !! k = Some r →
  drivable (pr_status r) = true →
  ∃ k' r', patches (now_tables w) !! k' = Some r' ∧ drivable (pr_status r') = true ∧
    envelope k' r' ∈ sent_messages (patch_run scan (working now) w).2.
Proof.
  intros Hw Hlate Hk Hd.
  destruct (lifecycle_leased (now_tables w) (now_store w).2 now k r Hlate Hk Hd)
    as (Hne & lease & leases & [s1 n1] & Hl).
  destruct (lease_lifecycle_offers uuid_leb fresh_token _ _ _ _ _ _ _ _ _ _
              (wo_store _ _ _ Hw _ (list_elem_of_here _ _)) Hl) as [_ Hoff].
  destruct (Hoff lease (list_elem_of_here _ _)) as [Hrow Hdr].
  exists (ll_key lease), (ll_row lease). split_and!; [done..|].
  unfold scan_once. apply run_then_sends. unfold scan_lifecycle. rewrite run_bind. simpl run at 1.
  cbv beta iota. rewrite run_always. unfold reading, has_reclaimable_patch_lifecycle. simpl fst. simpl snd.
  destruct (eligible_patches _ _ _ _) as [|x l]; [done|]. rewrite run_bind. simpl run at 1. cbv beta iota.
  rewrite run_transact. cbn [committed now_store fst snd]. rewrite Hl.
  apply lifecycle_sends.
Qed.

Lemma builds_leased s n now k t b p :
  late now s → buildable s → patches s !! k = Some p → pr_status p = Building →
  builds s !! (k, t) = Some b → b_status b = build_pending →
  eligible_builds uuid_leb s now ≠ [] ∧
  ∃ lease leases st, lease_patch_build_tasks uuid_leb fresh_token s n owner now
    (now + build_lease_duration config) (batch_size config) = Ok (lease :: leases, st).
Proof.
  intros [_ Hlate] Hbuild Hp Hst Hb Hpend. unfold lease_patch_build_tasks.
  rewrite request_ok by apply lease_durations. simpl.
  set (l := eligible_builds uuid_leb s now).
  assert (l ≠ []) as Hne.
  { intros Hnil. apply (not_elem_of_nil ((k, t), b)). rewrite <- Hnil. apply elem_of_select_rows.
    split; [done|]. unfold build_eligible. simpl. rewrite Hp, Hst, Hpend, (Hlate _ _ Hb). done. }
  split; [done|]. eapply (first_lease _ (λ s kr, ∃ p b, patches s !! kr.1.1 = Some p ∧
    is_Some (build_expression (pr_ops p) kr.1.2) ∧ builds s !! kr.1 = Some b ∧
    b_status b = build_pending ∧ lease_free now (b_lease b) = true)); [| |..].
  - intros [[k0 t0] b0] s0 n0 (p0 & b1 & Hp0 & [path He] & Hb1 & Hs1 & Hf1). simpl in *.
    rewrite Hp0. simpl. rewrite He. simpl. unfold update_build. rewrite Hb1, Hs1, Hf1. simpl.
    eexists _, _, _. split; [done|]. intros kr' Hne' (p2 & b2 & Hp2 & He2 & Hb2 & H2). exists p2, b2. simpl.
    by rewrite lookup_insert_ne by (by destruct kr' as [[] ?]).
  - apply take_select_NoDup.
  - intros [[k' t'] b'] [Hb' He']%elem_of_select_rows. unfold build_eligible in He'. simpl in He'.
    apply andb_true_iff in He' as [[Hs' Hf']%andb_true_iff Hp']. apply bool_decide_eq_true in Hs'.
    destruct (patches s !! k') as [p'|] eqn:Hk'; [|done]. exists p', b'. simpl. split_and!; try done.
    eapply Hbuild; [|done]. eauto.
  - done.
  - lia.
Qed.

(** The first lease of a batch: its build is pending under the new lease. *)
Lemma first_build s n now lease leases s' n' :
  lease_patch_build_tasks uuid_leb fresh_token s n owner now (now + build_lease_duration config)
    (batch_size config) = Ok (lease :: leases, (s', n')) →
  (∃ p, patches s' !! lb_key lease = Some p ∧ pr_status p = Building) ∧
  ∃ b, builds s' !! (lb_key lease, lb_task lease) = Some b ∧ b_status b = build_pending ∧
    lease_held (lease_owner (lb_lease lease)) (lease_token (lb_lease lease)) now (b_lease b) = true.
Proof.
  intros Hl. pose proof (lease_builds_patches _ _ _ _ _ _ _ _ _ _ _ Hl) as Hpat.
  pose proof (lease_builds_status _ _ _ _ _ _ _ _ _ _ _ Hl) as Hstat.
  unfold lease_patch_build_tasks in Hl. rewrite request_ok in Hl by apply lease_durations. simpl in Hl.
  destruct (lease_batch _ _ _ _ _ _ _ (lease_one_build_inv fresh_token owner now _)
              _ _ _ _ _ _ (take_select_NoDup (batch_size config) (leq_build uuid_leb) (build_eligible s now) (builds s))
              Hl) as (Hkeys & Hgr & Htok & _).
  apply Forall_inv in Hgr as [(b0 & Hb0 & Hfree) (b' & Hb' & Hlease)].
  destruct (Hstat _ _ Hb') as (b1 & Hb1 & Hst1). assert (b1 = b0) as -> by congruence.
  apply andb_true_iff in Hfree as [Hpend _]. apply bool_decide_eq_true in Hpend.
  split.
  - assert (lease_key lease ∈ (take (batch_size config) (eligible_builds uuid_leb s now)).*1) as Hin.
    { unfold eligible_builds. rewrite <- Hkeys. by left. }
    apply list_elem_of_fmap in Hin as ([[k t] b] & Hkey & Hin).
    apply subseteq_take, elem_of_select_rows in Hin as [_ He]. unfold build_eligible in He.
    apply andb_true_iff in He as [_ Hp]. simpl in Hkey, Hp. injection Hkey as <- <-. rewrite Hpat.
    destruct (patches s !! lb_key lease) as [p|]; [|done]. exists p. split; [done|].
    by apply bool_decide_eq_true in Hp.
  - exists b'. split_and!; [done|congruence|]. rewrite Hlease. simpl.
    rewrite !bool_decide_true by done. simpl. simpl in Htok. injection Htok as -> _. simpl.
    apply Z.ltb_lt. destruct lease_durations. lia.
Qed.

Lemma leased_build_settles lease now w p b :
  patches (now_tables w) !! lb_key lease = Some p → pr_status p = Building →
  builds (now_tables w) !! (lb_key lease, lb_task lease) = Some b → b_status b = build_pending →
  lease_held (lease_owner (lb_lease lease)) (lease_token (lb_lease lease)) now (b_lease b) = true →
  let '(x, w') := patch_run (process_leased_build lease) (working now) w in
  x = Ok () ∧ (lb_key lease, lb_task lease) ∉ pending (now_tables w').
Proof.
  intros Hp Hst Hb Hpend Hheld. unfold process_leased_build.
  rewrite run_bind. simpl run at 1. cbv beta iota. rewrite run_bind. simpl run at 1. cbv beta iota.
  rewrite run_always. unfold settle_leased_patch_task_build. simpl build_result.
  set (guard := Some _). assert (may_settle guard now b = true) as Hm.
  { unfold may_settle. simpl. by rewrite Hpend, Hheld. }
  rewrite (settle_won (now_tables w) (lb_key lease) (lb_task lease) TaskSuccess guard now p b) by done.
  assert (∀ s, builds s = <[(lb_key lease, lb_task lease) := settled_build TaskSuccess now b]> (builds (now_tables w)) →
            (lb_key lease, lb_task lease) ∉ pending s) as Hgone.
  { intros s Hs (b' & Hb' & Hp')%elem_of_pending_builds. rewrite Hs, lookup_insert_eq in Hb'.
    injection Hb' as <-. done. }
  cbv zeta. destruct (all_built _ _); cbn [fst snd].
  - rewrite run_bind. simpl run at 1. cbv beta iota. simpl. split; [done|]. by apply Hgone.
  - simpl. split; [done|]. by apply Hgone.
Qed.

(** The world after a read. *)
Abbreviation read_world w := (committed w (now_tables w, (now_store w).2)).

(** When nothing is there to be sent, the first half of a scan does nothing. *)
Lemma scan_lifecycle_idle now w :
  (∀ k r, patches (now_tables w) !! k = Some r → drivable (pr_status r) = false) →
  patch_run (scan_lifecycle uuid_leb fresh_token owner (lifecycle_lease_duration config) 0
    (batch_size config)) (working now) w = (Ok (), read_world w).
Proof.
  intros Hnone. unfold scan_lifecycle. rewrite run_bind. simpl run at 1. cbv beta iota. rewrite run_always.
  unfold reading, has_reclaimable_patch_lifecycle. simpl fst. simpl snd.
  destruct (eligible_patches _ _ _ _) as [|[k r] l] eqn:Hl; [done|]. exfalso.
  assert ((k, r) ∈ eligible_patches uuid_leb (now_tables w) now (now - 0)) as Hin by (rewrite Hl; by left).
  unfold eligible_patches in Hin.
  rewrite elem_of_sort_by, elem_of_filter_bool, elem_of_map_to_list in Hin.
  destruct Hin as [Hk [[Hd _]%andb_true_iff _]%andb_true_iff]. simpl in Hd. by rewrite (Hnone _ _ Hk) in Hd.
Qed.

Lemma calm_commit w s n :
  calm_world w → PatchStoreFacts.step uuid_leb fresh_token (now_tables w) s ∨ s = now_tables w →
  quiet (now_tables w) s → calm_world (committed w (s, n)) ∧ calmly w (committed w (s, n)).
Proof. intros Hw Hs Hq. by eapply commit_ok, quiet_allowed. Qed.

(** The second half finishes a build, when one is waiting. *)
Lemma scan_builds_progress now w k p :
  calm_world w → late now (now_tables w) →
  patches (now_tables w) !! k = Some p → pr_status p = Building →
  ∃ kt, kt ∈ pending (now_tables w) ∧
    kt ∉ pending (now_tables (patch_run (scan_builds uuid_leb fresh_token owner
      (build_lease_duration config) (batch_size config)) (working now) w).2).
Proof.
  intros Hw Hlate Hk Hst. pose proof (wo_store _ _ _ Hw _ (list_elem_of_here _ _)) as Hok.
  pose proof (proj1 (ok_rows _ Hok _ _ Hk)) as Hphase. rewrite Hst in Hphase.
  destruct Hphase as [(t & b & Hb & Hpend) _].
  destruct (builds_leased (now_tables w) (now_store w).2 now k t b p Hlate
              (wo_buildable _ _ _ Hw ltac:(by intros ? [])) Hk Hst Hb Hpend)
    as (Hne & lease & leases & [s1 n1] & Hl).
  destruct (first_build _ _ _ _ _ _ _ Hl) as [(p1 & Hp1 & Hst1) (b1 & Hb1 & Hpend1 & Hheld)].
  destruct (calm_commit w (now_tables w) (now_store w).2 Hw (or_intror eq_refl) (quiet_refl _)) as [Hw1 _].
  destruct (calm_commit (read_world w) s1 n1 Hw1) as [Hw2 _].
  { left. by econstructor. } { by eapply lease_builds_quiet. }
  exists (lb_key lease, lb_task lease). split.
  { destruct (lease_builds_status _ _ _ _ _ _ _ _ _ _ _ Hl _ _ Hb1) as (b0 & Hb0 & Hs0).
    apply elem_of_pending_builds. exists b0. split; [done|congruence]. }
  unfold scan_builds. rewrite run_bind. simpl run at 1. cbv beta iota. rewrite run_always.
  unfold reading, has_reclaimable_patch_build. simpl fst. simpl snd.
  destruct (eligible_builds _ _ _) as [|x l]; [done|]. rewrite run_bind. simpl run at 1. cbv beta iota.
  rewrite run_transact. cbn [committed now_store fst snd]. rewrite Hl. cbn [map]. rewrite run_join_cons.
  pose proof (leased_build_settles lease now (committed (read_world w) (s1, n1)) p1 b1
                Hp1 Hst1 Hb1 Hpend1 Hheld) as Hchild.
  destruct (calm_run (process_leased_build lease) (λ _ _, True) (working now) _ Hw2) as [Hw3 _];
    [by apply (leased_build_wp uuid_leb fresh_token)|].
  destruct (patch_run (process_leased_build lease) _ _) as [r3 w3]. destruct Hchild as [-> Hgone].
  destruct (calm_run (Join (map process_leased_build leases) Ret) (λ _ _, True) (working now) w3 Hw3) as [_ Hgo].
  { apply wp_join. split; [|done]. apply Forall_forall. intros q (l0 & -> & _)%list_elem_of_fmap.
    apply (leased_build_wp uuid_leb fresh_token). }
  intros (b' & Hb' & Hp')%elem_of_pending_builds. apply Hgone, elem_of_pending_builds.
  by eapply (sh_builds _ _ (calm_shrinks _ _ Hgo)).
Qed.

(** ** A round makes progress *)

Lemma round_ok now w : calm_world w → calm_world (round w now) ∧ calmly w (round w now).
Proof.
  intros Hw. destruct (calm_run scan (λ _ _, True) (working now) w Hw) as [Hw1 Hgo1];
    [by apply scan_once_wp|].
  destruct (replies_settle now (sent_messages (patch_run scan (working now) w).2) _ Hw1) as (Hw2 & Hgo2 & _);
    [done|]. split; [done|]. by etrans.
Qed.

Lemma round_progress now w k :
  calm_world w → late now (now_tables w) → k ∈ unsettled (now_tables w) →
  work_left (now_tables (round w now)) < work_left (now_tables w).
Proof.
  intros Hw Hlate Hk. destruct (round_ok now w Hw) as [_ Hgo].
  destruct (calm_run scan (λ _ _, True) (working now) w Hw) as [Hw1 Hgo1]; [by apply scan_once_wp|].
  destruct (replies_settle now (sent_messages (patch_run scan (working now) w).2) _ Hw1)
    as (_ & Hgo2 & Hset); [done|].
  apply shrinks_less; [by apply calm_shrinks|].
  destruct (decide (Exists (λ kr : Uuid * row, drivable (pr_status kr.2) = true)
              (map_to_list (patches (now_tables w)))))
    as [([k1 r1] & Hk1%elem_of_map_to_list & Hd)%Exists_exists|Hnone].
  - left. destruct (scan_sends now w k1 r1 Hw Hlate Hk1 Hd) as (k2 & r2 & Hk2 & Hd2 & Hsent).
    exists k2. split; [apply elem_of_unsettled; exists r2; by destruct (pr_status r2)|].
    intros (r3 & Hr3 & Ht3)%elem_of_unsettled. destruct (Hset _ _ Hsent) as (r4 & Hr4 & Ht4).
    unfold round in Hr3. congruence.
  - right. apply elem_of_unsettled in Hk as (r & Hk & Ht).
    assert (∀ k r, patches (now_tables w) !! k = Some r → drivable (pr_status r) = false) as Hidle.
    { intros k' r' Hk'. destruct (drivable (pr_status r')) eqn:Hd; [|done]. exfalso.
      apply Hnone, Exists_exists. exists (k', r'). by rewrite elem_of_map_to_list. }
    assert (pr_status r = Building) as Hst.
    { pose proof (Hidle _ _ Hk) as Hd. by destruct (pr_status r). }
    destruct (calm_commit w (now_tables w) (now_store w).2 Hw (or_intror eq_refl) (quiet_refl _)) as [Hw0 _].
    destruct (scan_builds_progress now (read_world w) k r Hw0 Hlate Hk Hst) as (kt & Hin & Hout).
    exists kt. split; [done|]. intros (b & Hb & Hp)%elem_of_pending_builds. apply Hout, elem_of_pending_builds.
    assert (patch_run scan (working now) w = patch_run (scan_builds uuid_leb fresh_token owner
      (build_lease_duration config) (batch_size config)) (working now) (read_world w)) as <-.
    { unfold scan_once. rewrite run_then. by rewrite scan_lifecycle_idle. }
    by eapply (sh_builds _ _ (calm_shrinks _ _ Hgo2)).
Qed.

Lemma rounds_ok times : ∀ w, calm_world w → calmly w (foldl round w times).
Proof.
  induction times as [|now times IH]; intros w Hw; simpl; [done|].
  destruct (round_ok now w Hw) as [Hw' Hgo]. etrans; [exact Hgo|by apply IH].
Qed.

Lemma rounds_settle times : ∀ w,
  calm_world w → late_rounds times w → work_left (now_tables w) ≤ length times →
  unsettled (now_tables (foldl round w times)) = ∅.
Proof.
  induction times as [|now times IH]; intros w Hw Hlate Hlen; simpl in *.
  { unfold work_left in Hlen. apply leibniz_equiv, size_empty_inv. lia. }
  destruct Hlate as [Hnow Hlate]. destruct (round_ok now w Hw) as [Hw' Hgo].
  destruct (decide (unsettled (now_tables w) = ∅)) as [Hnone|[k Hk]%set_choose_L].
  - apply elem_of_equiv_empty_L. intros k (r & Hr & Ht)%elem_of_unsettled.
    pose proof (calm_shrinks _ _ (rounds_ok (now :: times) w Hw)) as [Hsh _].
    apply (not_elem_of_empty (C := gset Uuid) k). rewrite <- Hnone. apply elem_of_unsettled. eauto.
  - apply IH; [done..|]. pose proof (round_progress now w k Hw Hnow Hk). lia.
Qed.

(** ** The rounds are runs of the pool *)

Section runs.
Context (submitted : ParsedPatch → Prop).
Abbreviation may := (may_start uuid_bytes uuid_leb fresh_token server submitted).
Abbreviation pool := (Pool (Op := Await tables PatchEnvelope StoreError Uuid) (E := failure) (World := patch_world) Answer).
Abbreviation runs_to := (delivers uuid_bytes uuid_leb fresh_token server submitted).

Lemma pool_runs_fresh (p : pool) q o :
  may (world p) q → ∃ p', runs_to p p' ∧ world p' = (patch_run q o (world p)).2.
Proof.
  intros Hq. eexists. split; [apply (pool_runs perform may p (fresh (dom (threads p))) q o); [|done]|done].
  apply not_elem_of_dom, is_fresh.
Qed.

Lemma pool_replies now es : ∀ p : pool,
  (∀ e, e ∈ es → e ∈ sent_messages (world p)) →
  ∃ p', runs_to p p' ∧ world p' = foldl (reply now) (world p) es.
Proof.
  induction es as [|e es IH]; intros p Hes; simpl; [by exists p|].
  destruct (pool_runs_fresh p (answering A_Correlated (correlate_outcome (report e))) (working now)) as (p1 & Hr1 & Hw1).
  { constructor. apply answers. apply Hes. by left. }
  assert (world p1 = reply now (world p) e) as Hw1'.
  { rewrite Hw1. unfold answering. rewrite run_bind. unfold reply. by destruct (patch_run (correlate_outcome (report e)) _ _). }
  destruct (IH p1) as (p2 & Hr2 & Hw2).
  { intros e' He'. rewrite Hw1. eapply sent_extends; [apply run_extends|]. apply Hes. by right. }
  exists p2. split; [|by rewrite Hw2, Hw1']. unfold delivers, pool_run in *. by etrans.
Qed.

Lemma pool_round now (p : pool) : ∃ p', runs_to p p' ∧ world p' = round (world p) now.
Proof.
  set (q := let*? _ := scan in worker_loop uuid_leb fresh_token owner config []).
  destruct (pool_runs_fresh p (answering A_Worked q) (working now)) as (p1 & Hr1 & Hw1).
  { apply (start_worker _ _ _ _ _ _ owner config []). unfold start_local_patch_worker. by rewrite config_ok. }
  assert (world p1 = (patch_run scan (working now) (world p)).2) as Hw1'.
  { rewrite Hw1. unfold answering. rewrite run_bind. unfold q. rewrite run_then.
    by destruct (patch_run scan _ _) as [[]]. }
  destruct (pool_replies now (sent_messages (world p1)) p1) as (p2 & Hr2 & Hw2); [done|].
  exists p2. split; [unfold delivers, pool_run in *; by etrans|]. by rewrite Hw2, Hw1'.
Qed.

Lemma pool_rounds times : ∀ p : pool, ∃ p', runs_to p p' ∧ world p' = foldl round (world p) times.
Proof.
  induction times as [|now times IH]; intros p; [by exists p|].
  destruct (pool_round now p) as (p1 & Hr1 & Hw1). destruct (IH p1) as (p2 & Hr2 & Hw2).
  exists p2. split; [unfold delivers, pool_run in *; by etrans|]. simpl. by rewrite Hw2, Hw1.
Qed.
End runs.
End settlement.

(** ** What the parser hands over *)

Section documents.
Context `{UuidOps Uuid} `{!UuidLaws Uuid} (jsonpath_ok : string → bool) (fresh : nat → Uuid).

Lemma lower_document_operation raw r :
  rd_ops raw = None → lower_document jsonpath_ok fresh raw = Ok r → ∃ k, r.2 = operation k.
Proof.
  unfold lower_document, lower_insert_operation, lower_chain_operation, lower_fork_operation,
    lower_branch_operation, lower_expand_operation, lower_swap_operation, lower_loop_operation,
    lower_cut_operation, lower_prune_operation, lower_trim_operation, lower_truncate_operation.
  intros ->. repeat case_match; intros Heq; try done; simpl in Heq;
    repeat match goal with
    | H : (match ?x with Ok _ => _ | Err _ => _ end) = Ok _ |- _ => destruct x; [|done]; simpl in H
    end; injection Heq as <-; simpl; eauto.
Qed.

Lemma lowered_canonical raw ops st :
  traverse (lower_op jsonpath_ok fresh) raw ([], 0) = Ok (ops, st) →
  ∀ op id t, op ∈ ops → patch_op op = Some (AddNode id (Some t)) → ∃ u : Uuid, id = uuid_to_string u.
Proof.
  intros Ht%traverse_ops_ok op id t [i Hi]%list_elem_of_lookup Hop. destruct Ht as [Hlen Hall].
  destruct (lookup_lt_is_Some_2 raw i) as [rop Hrop].
  { rewrite <- Hlen. by eapply lookup_lt_Some. }
  destruct (Hall _ _ Hrop) as (op' & Hop' & Hlow). assert (op' = op) as -> by congruence.
  destruct rop as [u [pt|]|srcs tgts kind gates|r|r]; simpl in Hlow.
  - destruct Hlow as (task & _ & ->). injection Hop as <- <-. eauto.
  - by subst op.
  - by destruct Hlow as (gs & _ & ->).
  - by subst op.
  - by subst op.
Qed.

(** A patch that was parsed can always be built. *)
Lemma document_wire_ready json raw p :
  parse_patch_document_json jsonpath_ok fresh json raw = Ok p → wire_ready (Uuid := Uuid) p.
Proof.
  unfold parse_patch_document_json, ensure. case_bool_decide; [|done]. simpl.
  destruct (lower_document jsonpath_ok fresh raw) as [r|] eqn:Hl; [|done]. intros [= <-] op id t.
  simpl. destruct (rd_ops raw) as [ops|] eqn:Hops.
  - unfold lower_document in Hl. rewrite Hops in Hl. unfold ensure in Hl.
    case_bool_decide; [done|]. simpl in Hl. unfold lower_ops in Hl.
    destruct (traverse _ ops _) as [[ops' st]|] eqn:Ht; [|done]. injection Hl as <-.
    by apply (lowered_canonical _ _ _ Ht).
  - destruct (lower_document_operation raw r Hops Hl) as [k Hk].
    apply lower_document_wired in Hl as (_ & _ & Hw). destruct (Hw k Hk) as [-> _].
    intros ([u t'] & -> & _)%list_elem_of_fmap [= <- <-]. by exists u.
Qed.
End documents.

Section settled.
Context `{UuidOps Uuid} `{!UuidLaws Uuid} `{!Countable Uuid}.
Context (uuid_bytes : Uuid → string) (uuid_leb : Uuid → Uuid → bool) (fresh_token : nat → Uuid).

(** C8: no patch is left behind: from any state the pipeline can have got into,
    whatever threads were cut off and whatever answers were lost on the way, as
    many scans as there are unsettled patches and pending builds settle every patch,
    when they start after the outstanding leases have run out, the outside works and
    the server answers each envelope; and such scans are among the pipeline's own
    runs. *)
Theorem every_patch_settles server submitted verdict owner config times p :
  (∀ l e, e ∈ l.*1 → server l (report verdict e)) → all_wired (Uuid := Uuid) submitted →
  owner ≠ "" ∧ String.length owner ≤ 128 → 1 ≤ batch_size config ≤ 64 → check_config config = Ok () →
  pool_reachable uuid_bytes uuid_leb fresh_token server submitted p →
  late_rounds uuid_leb fresh_token verdict owner config times (world p) →
  work_left (now_tables (world p)) ≤ length times →
  ∃ p', delivers uuid_bytes uuid_leb fresh_token server submitted p p' ∧
    world p' = foldl (round uuid_leb fresh_token verdict owner config) (world p) times ∧
    ∀ k r, patches (now_tables (world p')) !! k = Some r → is_terminal (pr_status r) = true.
Proof.
  intros Hans Hwired Howner Hbatch Hcfg Hreach Hlate Hlen.
  destruct (pool_rounds uuid_bytes uuid_leb fresh_token server verdict owner config Hans Hcfg
              submitted times p) as (p' & Hrun & Hw').
  exists p'. split_and!; [done..|]. rewrite Hw'. intros k r Hr. apply not_false_is_true. intros Ht.
  apply (not_elem_of_empty (C := gset Uuid) k).
  rewrite <- (rounds_settle uuid_bytes uuid_leb fresh_token server verdict owner config Hans Howner Hbatch Hcfg times (world p));
    [apply elem_of_unsettled; eauto| |done|done].
  destruct (pool_reachable_ok _ _ _ _ _ _ Hreach) as [[? ? ? ? ? Hbuild] _].
  split; [done..|]. intros _. by apply Hbuild.
Qed.
End settled.

(** ** A run

    A patch with two new tasks is taken in; three rounds build and apply it. *)

Definition late_check (now : Z) (s : Store (Uuid := bit_uuid)) : bool :=
  bool_decide (map_Forall (λ _ r, (pr_updated_at r <= now)%Z ∧ lease_free now (pr_lease r) = true) (patches s)) &&
  bool_decide (map_Forall (λ _ b, lease_free now (b_lease b) = true) (builds s)).

Lemma late_checked now s : late_check now s = true → late now s.
Proof.
  unfold late_check. rewrite andb_true_iff, !bool_decide_eq_true. intros [Hp Hb].
  split; [intros k r; apply Hp|intros kt b; apply Hb].
Qed.

Definition demo_addition : ParsedPatch :=
  match parse_patch_document_json (λ _, true) unary "{}" chain_document with
  | Ok p => p
  | Err _ => demo_edit
  end.

Definition demo_verdict (_ : PatchEnvelope) : PatchOutcomeKind := Outcome_Applied 2.
Definition demo_config : PatchReconcilerConfig := mkPatchReconcilerConfig 5 600 30 10 1.

Definition demo_added : demo_pool :=
  demo_after (mkPool ∅ first_world) 0
    (answering A_Ingress (process_patch demo_bytes (unary 9) (unary 1) demo_addition External)) 5.

Lemma demo_added_reachable :
  pool_reachable demo_bytes demo_leb unary demo_server (λ parsed, parsed = demo_addition) demo_added.
Proof. apply pool_runs; [vm_compute; reflexivity|]. by constructor. Qed.

Lemma every_patch_settles_witness :
  ∃ p', delivers demo_bytes demo_leb unary demo_server (λ parsed, parsed = demo_addition) demo_added p' ∧
    world p' = foldl (round demo_leb unary demo_verdict "w" demo_config) (world demo_added) [10%Z; 20%Z; 30%Z] ∧
    ∀ k r, patches (now_tables (world p')) !! k = Some r → is_terminal (pr_status r) = true.
Proof.
  refine (every_patch_settles demo_bytes demo_leb unary demo_server (λ parsed, parsed = demo_addition)
            demo_verdict "w" demo_config [10%Z; 20%Z; 30%Z] demo_added _ _ _ _ _ demo_added_reachable _ _).
  - intros l e He. unfold demo_server, report. simpl. by apply list_elem_of_fmap_2.
  - intros parsed ->. apply (document_wire_ready (λ _, true) unary "{}" chain_document). reflexivity.
  - split; [discriminate|]. apply (bool_decide_unpack _). vm_compute. reflexivity.
  - apply (bool_decide_unpack _). vm_compute. reflexivity.
  - vm_compute. reflexivity.
  - refine (conj _ (conj _ (conj _ I))); apply late_checked; vm_compute; reflexivity.
  - apply (bool_decide_unpack _). vm_compute. reflexivity.
Defined.
